(* ===== verification/_CoqProject ===== *)
-Q . S2P
Prelude.v
Bytes.v
Hashing.v
Values.v
Serialize.v
SerializeFacts.v
Kv.v
Merkle.v
NodeCodec.v
Pvec.v
PvecFacts.v
PvecMerge.v
PmapNode.v
Pmap.v
Tx.v
TxTyped.v
TxFacts.v
PmapTree.v
PmapFacts.v
PmapSpec.v
PmapWalk.v
Pbtree.v
PbtreeTree.v
PbtreeFacts.v
PbtreeSpec.v
TreeWitness.v
Gc.v
GcFacts.v
Occ.v
OccFacts.v
TxRun.v
Rocks.v
RocksFacts.v
StoreWitness.v
JsonText.v
JsonTextFacts.v
Floats.v
Display.v
Ops.v
Builtins.v
OpsFacts.v
Lexer.v
LexerFacts.v
LexerSpell.v
Bytecode.v
Ast.v
Effects.v
EffectsFacts.v
Affine.v
AffineFacts.v
Modifier.v
ModifierFacts.v
Parser.v
ParserFacts.v
ParserSpell.v
FrontWitness.v
Prefetch.v
Compile.v
CompileFacts.v
VmBase.v
VmState.v
Interp.v
Vm.v
Optimize.v
ArtifactBase.v
ArtifactInstr.v
Artifact.v
ArtifactTypes.v
ArtifactFacts.v
ArtifactTotal.v
ArtifactSpec.v
VmFacts.v
OptimizeSim.v
OptimizeFacts.v
OptimizeRun.v
VmWitness.v
CompileCore.v
CompileSim.v
CompileCorrect.v
CompileWitness.v
