(* ===== verification/Prelude.v ===== *)
(** Verification of the rend runtime.

    Rend ([src/crates/rend]) is a small contract language: source is compiled to
    bytecode, run by a virtual machine inside a transaction, and committed to a
    key-value store by an optimistic driver; [src/crates/rend-rocksdb] is the
    durable store.  This library models the lexer, the parser, the analyses of the
    syntax tree and the compiler, and everything from the bytecode down to the
    database, and proves the contracts between the layers.

    * The layers and the files that model them

    - Vocabulary.  [Prelude]: errors ([error.rs]), outcomes of Rust computations
      (answer, [Err], panic, exhausted model fuel) and the state monad [SM];
      [Bytes]: big-endian integers, slices, UTF-8; [Hashing]: [hashing.rs];
      [Values]: types and values ([ast.rs], [value.rs], [json.rs]).
    - Storage codec ([serialize.rs], binary half of [json.rs]): [Serialize];
      [SerializeFacts] proves the round trip, self-delimitation and termination.
    - Stores ([kv.rs]): the class [Kv.Kv], in-memory and empty stores.
    - Content-addressed trees.  [Merkle] is the interface between the trees and
      the transaction (classes [TxOps], [TxLaws]) and their common theory;
      [NodeCodec] the shared wire format.  The vector ([pvec.rs]) is [Pvec] with
      [NodeCodec], [PvecFacts], [PvecMerge]; the hash map ([pmap.rs]) is [PmapNode],
      [Pmap] with the pure trie and its laws in [PmapTree]
      and the refinement in [PmapFacts], [PmapSpec], [PmapWalk]; the sorted map
      ([pbtree.rs]) is [Pbtree] with the pure tree and its laws in [PbtreeTree], [PbtreeFacts],
      [PbtreeSpec].  Garbage collection ([gc.rs]) is [Gc], [GcFacts].
    - Transactions ([tx.rs]): [Tx] (read and write sets, lazy reads and walks,
      shadow transactions), [TxTyped] (structs split into cells), [TxFacts] (the
      transaction implements [TxOps]), [TxRun] (a run depends on its read set
      only).
    - Commit ([occ.rs]): [Occ], [OccFacts], against the interface of an executor
      that [TxRun] implements.  The durable store and the nonces
      ([rend-rocksdb/src/lib.rs]): [Rocks], [RocksFacts].
    - Front end.  [Lexer] ([lexer.rs], [token.rs]) with [LexerFacts] and
      [LexerSpell]; [Ast] ([ast.rs]) with the induction principle of the tree;
      [Parser] ([parser.rs]: one definition per method, a state of position and
      flag, loops and nesting on fuel) with [ParserFacts] (every parser answers
      or fails at a token) and [ParserSpell] (the grammar of operators as a
      relation, and the parser reads its spellings); [Effects] ([effects.rs]) with
      [EffectsFacts]; [Modifier] ([modifier.rs]) with [ModifierFacts]; [Affine]
      ([affine.rs]) with [AffineFacts].
    - Compiler.  [Prefetch] ([prefetch.rs]: the reads of a loop that can be fetched
      together) and [Compile] ([compile.rs]: the compiler of a function as a state of
      code, constants, registers, scopes and open loops; the forms of one method take
      the compilers of their parts as arguments, [compile_expr_into] and its relatives
      tie them together over the tree); [CompileFacts] is the logic of the compiler's
      invariant and the bounds of the code.
    - Reference evaluator.  [Interp] ([interp.rs]): the tree interpreter over the same
      transaction, trees and operators as the machine, one mutual fixpoint over the
      tree whose calls and constants are arguments that [Interp.run_at] ties on fuel.
    - The compiler against the reference.  [CompileCore] names the core of the
      language ([core_module]: functions over locals with every operator, tuples,
      arrays, structs, pipes, blocks, branches, [while] with [break] and [continue],
      early returns, calls; no states, matches, collections or [for]) and has one
      lemma per instruction that the core compiles to; [CompileSim] is the forward
      simulation, by induction on the tree: [into_sim] for an expression with a
      destination register, [runs] for a statement with the flows of the interpreter,
      where the jumps of open loops are read as they will be patched ([linked]), up to
      the call of a function; [CompileCorrect] closes it over the calls of a module.
    - Expressions: [Ops], [Builtins] ([ops.rs]), [Display]
      ([value.rs]), [Floats] (IEEE-754 binary64 on bit patterns), [JsonText] (the
      json parser and printer); [OpsFacts], [JsonTextFacts].
    - Bytecode and machine: [Bytecode] ([bc.rs], [host.rs], the lattice of
      [effects.rs]), [VmBase], [VmState], [Vm] ([vm.rs]), [VmFacts].  One Coq
      definition per instruction with state, [Vm.exec_instr] for the dispatch,
      [Vm.call_body_at] for the loop, [Vm.run_world] for the entry point.
    - Read clustering ([optimize.rs]): [Optimize]; [OptimizeSim] states the
      semantics the pass relies on as classes ([InstrSem], [InstrLaws]) and the
      conditions on clusters, [OptimizeFacts] and [OptimizeRun] the simulation.
    - Artifacts ([artifact.rs]): [ArtifactBase], [ArtifactInstr], [Artifact];
      [ArtifactTypes] has the logic of readers and the readers of types,
      [ArtifactTotal] the logic of totality, [ArtifactFacts] and [ArtifactSpec] the
      round trip.

    The [...Witness] files apply the theorems at concrete inputs and run the
    counterexamples.

    * What the theorems show

    - Front end: the lexer ends on every source, its spans tile it, and it reads
      back every spelling of a token list; the parser ends on every token list
      and reads every spelling of an operator expression back, in a grammar that
      is unambiguous; effect classification is the least
      fixed point and the class of a function is the join of the effects in it;
      annotations are checked exactly; expansion nests the modifiers; the
      ownership analysis admits one use of a moving binding on each path without
      loops.
    - Compiler: the code of every module that compiles stays within its registers,
      constants, tables and jump targets; for a module of the core, it answers
      whatever the tree interpreter answers ([compiled_agrees]).
    - Round trips: the codec, the json text, artifacts (with a stable content
      hash).  Prefix-freedom of artifacts; injectivity of database keys.
    - Refinement: vectors are lists, hash maps are finite maps, sorted maps are
      sorted entry lists, and every older root stays readable; vectors and tries
      built from one history are canonical; merges are three-way merges.
    - Transactions: lazy and eager lookups agree, runs are determined by their
      read sets and keep cells well typed; a sweep keeps live trees and removes
      exactly the unreachable candidates.
    - Commit: batches without merges are serializable and commit; a group commit
      to the database does what its jobs do one by one; no nonce is accepted
      twice under any interleaving.
    - Machine: operators are typed and exact at their widths; every program halts
      within its fuel; read clustering preserves behaviour on safe clusters.
    - Counterexamples, run by the model, where the code does not: a split of the
      hash map that loses keys, sweeps that drop sorted maps, merges that are no
      serial order, three miscompilations of read clustering, six of the compiler,
      five programs on which the tree interpreter and the compiled code differ,
      states whose artifacts do not decode, effects and moves that the analyses do
      not see.

    * Conventions, bounds and fuel

    Machine integers are [Z] with their width checked or wrapped where the code
    does; [u16], [u32] and [usize] sums that index registers or bytes are assumed
    not to overflow.  Strings are their UTF-8 bytes.  A recursion the source does
    not bound structurally has fuel, and its exhaustion is an outcome of its own:
    the codec's fuel is the length of the input ([decoder_total] shows it is
    enough), the trie's is 14 calls, for the 13 levels a 64-bit hash has
    ([Pmap.LEVEL_FUEL]), the sorted map's any bound on the height, [Tx.force]'s
    12 rounds, as a walk descends one level of the trie in each, the type reader of artifacts' the length of the input, the
    lexer's the length of the source ([tokenize_tiles]), the parser's the number of
    tokens and one more, for loops and for nesting ([parse_total]), the constants compiled in place within one another the number of constants and
    two more (a cycle of constants, which makes the code recurse for ever, is the
    exhausted fuel), the passes of the
    classifier three per function, the height of the lattice, and one more
    ([classify_least]), the tree interpreter's bounds the nesting of calls and constants and the rounds of
    each loop, which the source does not, and the machine's the fuel of the program ([vm_halts]).  Parallel legs run one after
    the other on independent shadow transactions, as their results are merged in
    declaration order whatever the schedule.

    * Parameters

    Code outside the repository is a parameter with its documented laws: the byte
    form of unbounded integers ([BigIntCodec]), the decimal text of floats
    ([FloatText]), the derived debug text of a token that parser errors quote, the bits of a NaN an operation produces ([FloatNan]), the
    database ([RocksDb]), host functions (values of the model).  The storage
    modules compare values structurally, which is the code's [==] except for json
    objects that list the same keys in another order ([Display.value_eqb]).

    * Not modelled

    The type checker, so that nothing is assumed of a program beyond its syntax,
    and the wiring of [engine.rs] beyond the commit tail; the HTTP server, benchmarks and command
    line, which are I/O.  Capacities preallocated from decoded lengths are not
    modelled. *)
From stdpp Require Export base tactics option list numbers fin_maps gmap sets
  strings pretty sorting.
From Stdlib Require Export ZArith Lia.

#[global] Set Default Goal Selector "1".
#[global] Open Scope Z_scope.

Declare Scope rend_scope.
Delimit Scope rend_scope with rend.

(** ** Errors ([crates/rend/src/error.rs], [token.rs]) *)

(** Source position carried by every error. *)
Record Span := mkSpan { span_start : Z; span_end : Z }.

(** [Span::default()]. *)
Definition Span_default : Span := mkSpan 0 0.

Inductive ErrorKind := Lex | Parse | TypeError | Runtime.

(** [Error { kind, msg, span }]. *)
Record Error := mkError { err_kind : ErrorKind; err_msg : string; err_span : Span }.

#[export] Instance Span_eq_dec : EqDecision Span.
Proof. solve_decision. Defined.
#[export] Instance ErrorKind_eq_dec : EqDecision ErrorKind.
Proof. solve_decision. Defined.
#[export] Instance Error_eq_dec : EqDecision Error.
Proof. solve_decision. Defined.

(** ** Outcomes

    A Rust computation either returns, returns [Err(e)], panics (an
    out-of-range index, [expect], [unreachable]) or, in the model only, runs
    out of the fuel that bounds a recursion the source does not bound by a
    structural argument.  The four cases stay apart, so a theorem that a call
    answers [Ok] excludes panics and exhausted fuel. *)
Inductive outcome (A : Type) :=
  | Ok (a : A)
  | Err (e : Error)
  | Panic
  | OutOfFuel.
Arguments Ok {A} _.
Arguments Err {A} _.
Arguments Panic {A}.
Arguments OutOfFuel {A}.

#[export] Instance outcome_eq_dec `{EqDecision A} : EqDecision (outcome A).
Proof. solve_decision. Defined.

#[export] Instance outcome_ret : MRet outcome := λ A a, Ok a.
#[export] Instance outcome_bind : MBind outcome := λ A B f m,
  match m with
  | Ok a => f a
  | Err e => Err e
  | Panic => Panic
  | OutOfFuel => OutOfFuel
  end.
#[export] Instance outcome_fmap : FMap outcome := λ A B f m,
  match m with
  | Ok a => Ok (f a)
  | Err e => Err e
  | Panic => Panic
  | OutOfFuel => OutOfFuel
  end.

Lemma Ok_inj {A} (x y : A) : Ok x = Ok y → x = y.
Proof. by intros [=]. Qed.

Lemma option_bind_Some {A B} (x : A) (f : A → option B) : Some x ≫= f = f x.
Proof. done. Qed.

(** [o.expect(..)], [v[i]]: a missing value panics. *)
Definition or_panic {A} (o : option A) : outcome A :=
  match o with Some a => Ok a | None => Panic end.

(** A computation over a mutable state [&mut S]; the state survives an error
    or a panic, as the Rust object does. *)
Definition SM (S A : Type) : Type := S → outcome A * S.

#[export] Instance SM_ret {S} : MRet (SM S) := λ A a s, (Ok a, s).
#[export] Instance SM_bind {S} : MBind (SM S) := λ A B f m s,
  match m s with
  | (Ok a, s') => f a s'
  | (Err e, s') => (Err e, s')
  | (Panic, s') => (Panic, s')
  | (OutOfFuel, s') => (OutOfFuel, s')
  end.

Definition lift {S A} (o : outcome A) : SM S A := λ s, (o, s).
Definition modify {S} (f : S → S) : SM S unit := λ s, (Ok tt, f s).
Definition gets {S A} (f : S → A) : SM S A := λ s, (Ok (f s), s).

Lemma SM_bind_ok {S A B} (m : SM S A) (f : A → SM S B) s a s' :
  m s = (Ok a, s') → (m ≫= f) s = f a s'.
Proof. intros H. unfold mbind, SM_bind. by rewrite H. Qed.

(** [for x in xs] with an early exit: the loop body may fail. *)
Section mapM_out.
Context {A B : Type} (f : A → outcome B).
Fixpoint mapM_out (l : list A) : outcome (list B) :=
  match l with
  | [] => Ok []
  | x :: l' => y ← f x; ys ← mapM_out l'; Ok (y :: ys)
  end.
End mapM_out.

(** Two lists of one length, related pointwise. *)
Section forallb2.
Context {A B : Type} (f : A → B → bool).
Fixpoint forallb2 (l : list A) (k : list B) : bool :=
  match l, k with
  | [], [] => true
  | x :: l', y :: k' => f x y && forallb2 l' k'
  | _, _ => false
  end.
End forallb2.

(** The [?] operator on an [Option]: [x <-! o ; k] in a function that answers
    [Option], and [x <-? m ; k] when [m] may itself fail. *)
Definition bind_opt {A B} (m : outcome (option A)) (k : A → outcome (option B)) :
    outcome (option B) :=
  match m with
  | Ok (Some a) => k a
  | Ok None => Ok None
  | Err e => Err e
  | Panic => Panic
  | OutOfFuel => OutOfFuel
  end.

Notation "x <-? m ; k" := (bind_opt m (λ x : _, k))
  (at level 20, m at level 100, k at level 200, only parsing) : rend_scope.
Notation "' x <-? m ; k" := (bind_opt m (λ x : _, k))
  (at level 20, x pattern, m at level 100, k at level 200, only parsing) : rend_scope.
Notation "x <-! o ; k" := (match o with Some x => k | None => Ok None end)
  (at level 20, o at level 100, k at level 200, only parsing) : rend_scope.
Notation "' x <-! o ; k" := (match o with Some x => k | None => Ok None end)
  (at level 20, x pattern, o at level 100, k at level 200, only parsing) : rend_scope.
#[global] Open Scope rend_scope.

Lemma mapM_out_ok {A B} (f : A → outcome B) (g : A → B) l :
  (∀ x, x ∈ l → f x = Ok (g x)) → mapM_out f l = Ok (g <$> l).
Proof.
  induction l as [|x l IH]; intros H; simpl; [done|].
  rewrite (H x) by set_solver. simpl. rewrite IH by set_solver. done.
Qed.

(** ** Lists indexed by [usize]

    Rust indexes with [usize]; the model uses [Z] for machine integers and
    converts at the access. *)
Definition zlen {A} (l : list A) : Z := Z.of_nat (length l).

(** [l.get(i)]. *)
Definition get_z {A} (l : list A) (i : Z) : option A :=
  if i <? 0 then None else l !! Z.to_nat i.

Lemma get_z_nat {A} (l : list A) n : get_z l (Z.of_nat n) = l !! n.
Proof. unfold get_z. destruct (Z.ltb_spec (Z.of_nat n) 0); [lia|]. by rewrite Nat2Z.id. Qed.

(** [l[i] = x], in range. *)
Definition set_z {A} (l : list A) (i : Z) (x : A) : list A := <[Z.to_nat i := x]> l.

(** [l.insert(i, x)]. *)
Definition insert_at {A} (l : list A) (i : nat) (x : A) : list A :=
  take i l ++ x :: drop i l.

(** [l.remove(i)]. *)
Definition remove_at {A} (l : list A) (i : nat) : list A :=
  take i l ++ drop (S i) l.

Lemma zlen_app {A} (l1 l2 : list A) : zlen (l1 ++ l2) = zlen l1 + zlen l2.
Proof. unfold zlen. rewrite length_app. lia. Qed.
Lemma zlen_cons {A} (x : A) l : zlen (x :: l) = 1 + zlen l.
Proof. unfold zlen. simpl. lia. Qed.
Lemma zlen_nil {A} : zlen (@nil A) = 0.
Proof. done. Qed.
Lemma zlen_nonneg {A} (l : list A) : 0 <= zlen l.
Proof. unfold zlen. lia. Qed.

Lemma Forall_impl2 {A} (P Q R : A → Prop) l :
  Forall P l → Forall Q l → (∀ x, P x → Q x → R x) → Forall R l.
Proof. intros HP HQ Himpl. rewrite Forall_forall in *. eauto. Qed.

Lemma existsb_false {A} (f : A → bool) l : Forall (λ x, f x = false) l → existsb f l = false.
Proof. induction 1 as [|x l Hx _ IH]; cbn; [done|]. by rewrite Hx, IH. Qed.

(** ** Automation *)
Create HintDb rend discriminated.
Create Rewrite HintDb rend_len.
#[export] Hint Constants Transparent : rend.
#[export] Hint Rewrite @zlen_app @zlen_cons @zlen_nil @length_app @length_cons
  @length_nil @length_fmap : rend_len.
#[export] Hint Resolve zlen_nonneg : rend.

(** Normalise list lengths, then close by linear arithmetic. *)
Ltac len := unfold zlen in *; autorewrite with rend_len in *; simpl in *; try lia.

(** Split every conjunction of the context. *)
Ltac splits := repeat match goal with |- _ ∧ _ => split end.

(** Run one monadic step whose result is known. *)
Ltac step_ok H := rewrite (SM_bind_ok _ _ _ _ _ H); cbn beta iota.
