(* ===== verification/Bytes.v ===== *)
(** Byte strings and fixed-width integers: big-endian encodings
    ([to_be_bytes] / [from_be_bytes]), slices ([bytes.get(i..j)]), UTF-8
    validity ([std::str::from_utf8]) and the lexicographic byte order used to
    sort map entries. *)
From S2P Require Import Prelude.

(** A byte is an integer in [0, 256); a Rust [String] is modelled by its UTF-8
    bytes. *)
Abbreviation byte := Z (only parsing).
Abbreviation bytes := (list Z) (only parsing).

Definition is_byte (b : Z) : bool := (0 <=? b) && (b <? 256).

(** ** Machine-width integers *)
Definition u8_max : Z := 2 ^ 8 - 1.
Definition u32_max : Z := 2 ^ 32 - 1.
Definition u64_max : Z := 2 ^ 64 - 1.
Definition u128_max : Z := 2 ^ 128 - 1.

Definition in_u (w : Z) (n : Z) : bool := (0 <=? n) && (n <? 2 ^ w).
Definition in_i (w : Z) (n : Z) : bool := (- 2 ^ (w - 1) <=? n) && (n <? 2 ^ (w - 1)).

(** [n as uW]. *)
Definition wrap_u (w : Z) (n : Z) : Z := Z.land n (Z.ones w).

(** Reinterpretation of a W-bit pattern as a signed integer. *)
Definition to_signed (w : Z) (n : Z) : Z :=
  if n <? 2 ^ (w - 1) then n else n - 2 ^ w.

(** ** Big-endian encodings *)

(** [n.to_be_bytes()] for an [8*k]-bit integer, signed or not. *)
Fixpoint be_bytes (k : nat) (n : Z) : bytes :=
  match k with
  | O => []
  | S k' => Z.land (Z.shiftr n (8 * Z.of_nat k')) 255 :: be_bytes k' n
  end.

(** [uW::from_be_bytes(bs)]. *)
Definition be_value (bs : bytes) : Z :=
  foldl (λ acc b, Z.lor (Z.shiftl acc 8) b) 0 bs.

(** ** Slices *)

(** [bs.get(i..i + n)]. *)
Definition get_range (bs : bytes) (i n : Z) : option bytes :=
  if (0 <=? i) && (0 <=? n) && (i + n <=? zlen bs)
  then Some (take (Z.to_nat n) (drop (Z.to_nat i) bs)) else None.

(** [bs.get(i..)]. *)
Definition get_from (bs : bytes) (i : Z) : option bytes :=
  if (0 <=? i) && (i <=? zlen bs) then Some (drop (Z.to_nat i) bs) else None.

(** [uW::from_be_bytes(bs.get(i..i + W/8)?.try_into().ok()?)]. *)
Definition be_at (bs : bytes) (i : Z) (k : nat) : option Z :=
  be_value <$> get_range bs i (Z.of_nat k).

(** ** UTF-8 validity, as [std::str::from_utf8] decides it *)
Definition utf8_cont (b : Z) : bool := (128 <=? b) && (b <=? 191).
Definition in_range (lo hi b : Z) : bool := (lo <=? b) && (b <=? hi).

Fixpoint utf8_valid (bs : bytes) : bool :=
  match bs with
  | [] => true
  | b0 :: t0 =>
    if in_range 0 127 b0 then utf8_valid t0 else
    match t0 with
    | [] => false
    | b1 :: t1 =>
      if in_range 194 223 b0 then utf8_cont b1 && utf8_valid t1 else
      match t1 with
      | [] => false
      | b2 :: t2 =>
        if in_range 224 239 b0 then
          (if b0 =? 224 then in_range 160 191 b1
           else if b0 =? 237 then in_range 128 159 b1 else utf8_cont b1)
          && utf8_cont b2 && utf8_valid t2 else
        match t2 with
        | [] => false
        | b3 :: t3 =>
          in_range 240 244 b0 &&
          (if b0 =? 240 then in_range 144 191 b1
           else if b0 =? 244 then in_range 128 143 b1 else utf8_cont b1)
          && utf8_cont b2 && utf8_cont b3 && utf8_valid t3
        end
      end
    end
  end.

Definition from_utf8 (bs : bytes) : option bytes :=
  if utf8_valid bs then Some bs else None.

(** ** Lexicographic order on byte strings ([Vec<u8>::cmp]) *)
Fixpoint bytes_cmp (a b : bytes) : comparison :=
  match a, b with
  | [], [] => Eq
  | [], _ :: _ => Lt
  | _ :: _, [] => Gt
  | x :: a', y :: b' =>
    match Z.compare x y with Eq => bytes_cmp a' b' | c => c end
  end.

Definition bytes_leb (a b : bytes) : bool :=
  match bytes_cmp a b with Gt => false | _ => true end.

(** ** Facts *)

Lemma length_be_bytes k n : length (be_bytes k n) = k.
Proof. induction k; simpl; congruence. Qed.

Lemma zlen_be_bytes k n : zlen (be_bytes k n) = Z.of_nat k.
Proof. unfold zlen. by rewrite length_be_bytes. Qed.

#[export] Hint Rewrite length_be_bytes zlen_be_bytes : rend_len.

Lemma land_255_byte n : is_byte (Z.land n 255) = true.
Proof.
  unfold is_byte. change 255 with (Z.ones 8). rewrite Z.land_ones by lia.
  pose proof (Z.mod_pos_bound n (2 ^ 8)). lia.
Qed.

Lemma be_bytes_bytes k n : forallb is_byte (be_bytes k n) = true.
Proof. induction k; [done|]. cbn [be_bytes forallb]. by rewrite land_255_byte, IHk. Qed.

Lemma be_value_fold bs acc :
  0 <= acc → forallb is_byte bs = true →
  foldl (λ acc b, Z.lor (Z.shiftl acc 8) b) acc bs
    = acc * 2 ^ (8 * zlen bs) + be_value bs.
Proof.
  revert acc. induction bs as [|b bs IH] using rev_ind; intros acc Hacc Hb.
  - unfold be_value, zlen. simpl. lia.
  - rewrite forallb_app in Hb. apply andb_prop in Hb as [Hb1 Hb2].
    simpl in Hb2. rewrite andb_true_r in Hb2. unfold is_byte in Hb2.
    unfold be_value. rewrite !foldl_app. simpl.
    change (foldl (λ acc0 b0, Z.lor (Z.shiftl acc0 8) b0) 0 bs) with (be_value bs).
    rewrite IH by done.
    assert (Hl : ∀ x, Z.lor (Z.shiftl x 8) b = x * 256 + b).
    { intros x. rewrite <- Z.add_lor_land.
      rewrite Z.shiftl_mul_pow2 by lia. change (2 ^ 8) with 256.
      assert (Hz : Z.land (x * 256) b = 0); [|lia].
      apply Z.bits_inj'. intros i Hi. rewrite Z.land_spec, Z.bits_0.
      destruct (decide (i < 8)).
      - change 256 with (2 ^ 8). by rewrite Z.mul_pow2_bits_low by lia.
      - rewrite andb_comm.
        destruct (decide (b = 0)) as [->|]; [by rewrite Z.bits_0|].
        rewrite Z.bits_above_log2; [done|lia|].
        apply Z.log2_lt_pow2; [lia|].
        assert (2 ^ 8 <= 2 ^ i) by (apply Z.pow_le_mono_r; lia). lia. }
    rewrite !Hl, zlen_app, zlen_cons, zlen_nil.
    replace (8 * (zlen bs + (1 + 0))) with (8 * zlen bs + 8) by lia.
    rewrite Z.pow_add_r by (pose proof (zlen_nonneg bs); lia). lia.
Qed.

Lemma be_value_cons b bs :
  is_byte b = true → forallb is_byte bs = true →
  be_value (b :: bs) = b * 2 ^ (8 * zlen bs) + be_value bs.
Proof.
  intros Hb Hbs. unfold be_value at 1. simpl. unfold is_byte in Hb.
  change (Z.lor (Z.shiftl 0 8) b) with b.
  rewrite be_value_fold by (done || lia). done.
Qed.

(** Decoding an encoded integer gives it back modulo its width. *)
Lemma be_value_be_bytes k n : be_value (be_bytes k n) = n mod 2 ^ (8 * Z.of_nat k).
Proof.
  induction k as [|k IH].
  - simpl. rewrite Z.mod_1_r. done.
  - cbn [be_bytes]. rewrite be_value_cons by (apply land_255_byte || apply be_bytes_bytes).
    rewrite IH, zlen_be_bytes.
    change 255 with (Z.ones 8). rewrite Z.land_ones, Z.shiftr_div_pow2 by lia.
    set (m := 2 ^ (8 * Z.of_nat k)).
    assert (0 < m) by (apply Z.pow_pos_nonneg; lia).
    replace (2 ^ (8 * Z.of_nat (S k))) with (m * 2 ^ 8).
    2: { unfold m. rewrite <- Z.pow_add_r by lia. f_equal. lia. }
    rewrite (Z.rem_mul_r n m (2 ^ 8)) by lia. lia.
Qed.

Lemma be_value_be_bytes_id k n :
  0 <= n < 2 ^ (8 * Z.of_nat k) → be_value (be_bytes k n) = n.
Proof. intros H. rewrite be_value_be_bytes. by apply Z.mod_small. Qed.

Lemma be_bytes_inj k m n :
  0 <= m < 2 ^ (8 * Z.of_nat k) → 0 <= n < 2 ^ (8 * Z.of_nat k) →
  be_bytes k m = be_bytes k n → m = n.
Proof.
  intros Hm Hn E. rewrite <- (be_value_be_bytes_id k m), <- (be_value_be_bytes_id k n) by done.
  by rewrite E.
Qed.

Lemma to_signed_be_bytes k n :
  (0 < k)%nat → - 2 ^ (8 * Z.of_nat k - 1) <= n < 2 ^ (8 * Z.of_nat k - 1) →
  to_signed (8 * Z.of_nat k) (be_value (be_bytes k n)) = n.
Proof.
  intros Hk Hn. rewrite be_value_be_bytes. unfold to_signed.
  set (w := 8 * Z.of_nat k) in *.
  assert (Hw : 2 ^ w = 2 * 2 ^ (w - 1)).
  { replace w with (1 + (w - 1)) at 1 by lia. rewrite Z.pow_add_r by lia. lia. }
  destruct (decide (0 <= n)).
  - rewrite Z.mod_small by lia. destruct (Z.ltb_spec n (2 ^ (w - 1))); lia.
  - rewrite <- (Z.mod_add n 1) by lia. rewrite Z.mod_small by lia.
    destruct (Z.ltb_spec (n + 1 * 2 ^ w) (2 ^ (w - 1))); lia.
Qed.

(** *** Slices of concatenations *)

Lemma get_range_app_l a b c :
  get_range (a ++ b ++ c) (zlen a) (zlen b) = Some b.
Proof.
  unfold get_range. rewrite !zlen_app.
  pose proof (zlen_nonneg a). pose proof (zlen_nonneg b). pose proof (zlen_nonneg c).
  replace (_ && _ && _) with true by lia. unfold zlen. rewrite !Nat2Z.id.
  by rewrite drop_app_length, take_app_length.
Qed.

Lemma get_range_at bs a b c i n :
  bs = a ++ b ++ c → i = zlen a → n = zlen b → get_range bs i n = Some b.
Proof. intros -> -> ->. apply get_range_app_l. Qed.

Lemma get_from_app a b : get_from (a ++ b) (zlen a) = Some b.
Proof.
  unfold get_from. rewrite zlen_app.
  pose proof (zlen_nonneg a). pose proof (zlen_nonneg b).
  replace (_ && _) with true by lia. unfold zlen. rewrite Nat2Z.id.
  by rewrite drop_app_length.
Qed.

Lemma get_from_at bs a b i : bs = a ++ b → i = zlen a → get_from bs i = Some b.
Proof. intros -> ->. apply get_from_app. Qed.

Lemma be_at_app bs a k n c i :
  0 <= n < 2 ^ (8 * Z.of_nat k) →
  bs = a ++ be_bytes k n ++ c → i = zlen a → be_at bs i k = Some n.
Proof.
  intros Hn E Hi. unfold be_at.
  rewrite (get_range_at bs a (be_bytes k n) c) by (done || by rewrite zlen_be_bytes).
  simpl. by rewrite be_value_be_bytes_id.
Qed.

Lemma get_range_length bs i n r : get_range bs i n = Some r → zlen r = n.
Proof.
  unfold get_range. destruct (_ && _ && _) eqn:E; [|done]. intros [= <-].
  unfold zlen in *. rewrite length_take, length_drop. lia.
Qed.

(** *** The byte order *)

Lemma bytes_cmp_refl a : bytes_cmp a a = Eq.
Proof. induction a as [|x a IH]; simpl; [done|]. by rewrite Z.compare_refl. Qed.

Lemma bytes_cmp_eq a b : bytes_cmp a b = Eq ↔ a = b.
Proof.
  split; [|intros ->; apply bytes_cmp_refl].
  revert b. induction a as [|x a IH]; intros [|y b]; simpl; try done.
  destruct (Z.compare_spec x y); try done. intros H2. subst. f_equal. by apply IH.
Qed.

Lemma bytes_cmp_antisym a b : bytes_cmp b a = CompOpp (bytes_cmp a b).
Proof.
  revert b. induction a as [|x a IH]; intros [|y b]; simpl; try done.
  rewrite (Z.compare_antisym x y). destruct (Z.compare x y); simpl; auto.
Qed.

Lemma bytes_cmp_trans_lt a b c :
  bytes_cmp a b = Lt → bytes_cmp b c = Lt → bytes_cmp a c = Lt.
Proof.
  revert b c. induction a as [|x a IH]; intros [|y b] [|z c]; simpl; try done.
  destruct (Z.compare_spec x y), (Z.compare_spec y z), (Z.compare_spec x z);
    try done; try lia; subst; eauto.
Qed.

Lemma bytes_leb_trans a b c : bytes_leb a b = true → bytes_leb b c = true → bytes_leb a c = true.
Proof.
  unfold bytes_leb.
  destruct (bytes_cmp a b) eqn:E1; destruct (bytes_cmp b c) eqn:E2; try done; intros _ _.
  - apply bytes_cmp_eq in E1 as ->. by rewrite E2.
  - apply bytes_cmp_eq in E1 as ->. by rewrite E2.
  - apply bytes_cmp_eq in E2 as ->. by rewrite E1.
  - by rewrite (bytes_cmp_trans_lt a b c).
Qed.

Lemma bytes_leb_total a b : bytes_leb a b = true ∨ bytes_leb b a = true.
Proof.
  unfold bytes_leb. rewrite (bytes_cmp_antisym a b). destruct (bytes_cmp a b); auto.
Qed.

Lemma bytes_leb_antisym a b : bytes_leb a b = true → bytes_leb b a = true → a = b.
Proof.
  unfold bytes_leb. rewrite (bytes_cmp_antisym a b).
  destruct (bytes_cmp a b) eqn:E; try done. intros _ _. by apply bytes_cmp_eq.
Qed.

#[global] Arguments be_bytes : simpl never.
#[global] Arguments be_value : simpl never.
