(* ===== verification/Hashing.v ===== *)
(** Deterministic 128-bit hashing ([crates/rend/src/hashing.rs]): FNV-1a over
    bytes, sub-keys beneath a root, and the roots of state declarations. *)
From S2P Require Import Prelude Bytes.

Definition FNV_OFFSET : Z := 0x6c62272e07bb014262b821756295c58d.
Definition FNV_PRIME : Z := 0x0000000001000000000000000000013b.

(** [u128::wrapping_mul]. *)
Definition wrapping_mul_u128 (a b : Z) : Z := wrap_u 128 (b * a).

Definition fnv128 (bs : bytes) : Z :=
  foldl (λ h b, wrapping_mul_u128 (Z.lxor h b) FNV_PRIME) FNV_OFFSET bs.

(** Sub-key beneath a parent root. *)
Definition child (root : Z) (payload : bytes) : Z :=
  fnv128 (be_bytes 16 root ++ payload).

(** Root key of a top-level state declaration. *)
Definition state_root (module_id state_name : bytes) : Z :=
  fnv128 (module_id ++ [0] ++ state_name ++ [0]).

Lemma wrap_u_range w n : 0 <= w → 0 <= wrap_u w n < 2 ^ w.
Proof.
  intros Hw. unfold wrap_u. rewrite Z.land_ones by done.
  apply Z.mod_pos_bound. by apply Z.pow_pos_nonneg.
Qed.

Lemma fnv128_range bs : 0 <= fnv128 bs < 2 ^ 128.
Proof.
  unfold fnv128. induction bs as [|b bs IH] using rev_ind; [by split|].
  rewrite foldl_snoc. apply wrap_u_range. lia.
Qed.

Lemma child_range root payload : 0 <= child root payload < 2 ^ 128.
Proof. apply fnv128_range. Qed.

(** The empty input hashes to the offset basis. *)
Example known_offset : fnv128 [] = FNV_OFFSET.
Proof. reflexivity. Qed.

#[global] Arguments fnv128 : simpl never.
#[global] Arguments child : simpl never.
#[global] Arguments state_root : simpl never.
