(* ===== verification/Values.v ===== *)
(** Runtime types and values ([crates/rend/src/ast.rs] [enum Type],
    [value.rs], [json.rs] [enum Json]) and the default value of a type.  Equality
    here is structural; the code's [==] is [Display.value_eqb]. *)
From S2P Require Import Prelude Bytes.
#[local] Set Warnings "-register-all".

(** ** Types ([ast.rs] [enum Type]) *)

(** Strings are UTF-8 bytes; [TPVec] is [Type::PVec { elem }], and so on.  The
    [field_groups] of a struct run parallel to its fields. *)
Inductive Ty :=
  | TInt | TUInt | TFloat | TI32 | TU32 | TU64 | TU128
  | TBool | TUnit | TResource | TString | TAddress | TBytes
  | TArray (elem : Ty)
  | TExplicitLiteral (inner : Ty)
  | TSet (elem : Ty)
  | TDict (key value : Ty)
  | TMap (key value : Ty)
  | TPMap (key value : Ty)
  | TPBTree (key value : Ty)
  | TPVec (elem : Ty)
  | TJson
  | TStruct (name : bytes) (fields : list (bytes * Ty))
            (field_groups : list (option bytes))
  | TTuple (elems : list Ty)
  | TEnum (name : bytes) (variants : list (bytes * list Ty))
  | TCap (name : bytes) (fields : list (bytes * Ty)) (owner_module : bytes)
  | TInterface (name : bytes) (methods : list InterfaceMethodSig)
with InterfaceMethodSig :=
  | mkMethodSig (name : bytes) (params : list Ty) (return_type : Ty)
                (is_view is_pure : bool).

(** ** Values ([value.rs] [enum Value], [json.rs] [enum Json])

    [VFloat] carries the IEEE-754 bit pattern of the [f64] ([F64Bits] compares
    by bit pattern); [VPMapCursor] and [VPBTreeCursor] carry the fields of the
    transient iterator states.  A [Json] object is its insertion-ordered list
    of entries ([IndexMap]). *)
Inductive Value : Type :=
  | VInt (n : Z)
  | VUInt (n : Z)
  | VFloat (bits : Z)
  | VI32 (n : Z)
  | VU32 (n : Z)
  | VU64 (n : Z)
  | VU128 (n : Z)
  | VBool (b : bool)
  | VUnit
  | VResource (n : Z)
  | VStr (s : bytes)
  | VAddress (s : bytes)
  | VBytes (b : bytes)
  | VArray (elems : list Value)
  | VSet (elems : list Value)
  | VDict (pairs : list (Value * Value))
  | VStruct (name : bytes) (fields : list (bytes * Value))
  | VTuple (elems : list Value)
  | VEnum (enum_name variant : bytes) (payload : list Value)
  | VPending (handle : Z)
  | VPMap (root : Z)
  | VPBTree (root : Z)
  | VJson (j : Json)
  | VPVec (len root : Z)
  | VInterface (iface target_module : bytes)
  | VPMapCursor (stack : list (Z * Z)) (pending : list (Value * Value))
                (key_ty value_ty : Ty)
  | VPBTreeCursor (root_cell : Z) (last_yielded : option Value)
                  (key_ty value_ty : Ty)
with Json : Type :=
  | JNull
  | JArray (items : list Value)
  | JObject (m : list (bytes * Value)).

(** ** Decidable equality ([#[derive(PartialEq, Eq)]]) *)

Section eq_dec.
Local Ltac dec_lists :=
  repeat first
    [ assumption | apply list_eq_dec | apply prod_eq_dec | apply option_eq_dec
    | apply Z.eq_dec | apply bool_eq_dec ].

Fixpoint Ty_eq_dec (x y : Ty) : {x = y} + {x ≠ y}
with InterfaceMethodSig_eq_dec (x y : InterfaceMethodSig) : {x = y} + {x ≠ y}.
Proof.
  - pose proof (Ty_eq_dec : EqDecision Ty).
    pose proof (InterfaceMethodSig_eq_dec : EqDecision InterfaceMethodSig).
    decide equality; solve [dec_lists | apply (decide (_ = _))].
  - pose proof (Ty_eq_dec : EqDecision Ty).
    decide equality; solve [dec_lists | apply (decide (_ = _))].
Defined.

#[global] Instance Ty_EqDecision : EqDecision Ty := Ty_eq_dec.

Fixpoint Value_eq_dec (x y : Value) : {x = y} + {x ≠ y}
with Json_eq_dec (x y : Json) : {x = y} + {x ≠ y}.
Proof.
  - pose proof (Value_eq_dec : EqDecision Value).
    pose proof (Json_eq_dec : EqDecision Json).
    decide equality; solve [dec_lists | apply (decide (_ = _))].
  - pose proof (Value_eq_dec : EqDecision Value).
    decide equality; solve [dec_lists | apply (decide (_ = _))].
Defined.

#[global] Instance Value_EqDecision : EqDecision Value := Value_eq_dec.
#[global] Instance Json_EqDecision : EqDecision Json := Json_eq_dec.
End eq_dec.

(** ** Accessors and defaults *)

(** [Value::as_int] / [Value::as_uint]. *)
Definition as_int (v : Value) : option Z :=
  match v with VInt n => Some n | _ => None end.
Definition as_uint (v : Value) : option Z :=
  match v with VUInt n => Some n | _ => None end.

(** [Type::unwrap_explicit]. *)
Fixpoint unwrap_explicit (ty : Ty) : Ty :=
  match ty with TExplicitLiteral inner => unwrap_explicit inner | other => other end.

(** The root hash of an empty persistent collection ([pmap::EMPTY],
    [pbtree::EMPTY], [pvec::EMPTY]). *)
Definition EMPTY : Z := 0.

(** [Value::default_for]. *)
Fixpoint default_for (ty : Ty) : Value :=
  match ty with
  | TExplicitLiteral inner => default_for inner
  | TInt => VInt 0
  | TUInt => VUInt 0
  | TFloat => VFloat 0
  | TI32 => VI32 0
  | TU32 => VU32 0
  | TU64 => VU64 0
  | TU128 => VU128 0
  | TBool => VBool false
  | TUnit => VUnit
  | TResource => VResource 0
  | TString => VStr []
  | TAddress => VAddress []
  | TBytes => VBytes []
  | TArray _ => VArray []
  | TStruct name fields _ =>
      VStruct name ((λ '(n, t), (n, default_for t)) <$> fields)
  | TMap _ value => default_for value
  | TPMap _ _ => VPMap EMPTY
  | TPBTree _ _ => VPBTree EMPTY
  | TJson => VJson JNull
  | TPVec _ => VPVec 0 EMPTY
  | TInterface name _ => VInterface name []
  | TSet _ => VSet []
  | TDict _ _ => VDict []
  | TTuple elems => VTuple (default_for <$> elems)
  | TEnum name variants =>
      match variants with
      | (vname, payload_tys) :: _ => VEnum name vname (default_for <$> payload_tys)
      | [] => VEnum name [] []
      end
  | TCap name fields _ =>
      VStruct name ((λ '(n, t), (n, default_for t)) <$> fields)
  end.

(** ** Induction over nested values *)

(** Values without components that matter to storage: everything but
    collections, structs, tuples, sums and json. *)
Definition flat (v : Value) : bool :=
  match v with
  | VArray _ | VSet _ | VDict _ | VStruct _ _ | VTuple _ | VEnum _ _ _ | VJson _ => false
  | _ => true
  end.

Section value_ind.
Context (P : Value → Prop) (Q : Json → Prop).
Context (Hflat : ∀ v, flat v = true → P v).
Context (Harray : ∀ l, Forall P l → P (VArray l)).
Context (Hset : ∀ l, Forall P l → P (VSet l)).
Context (Hdict : ∀ l, Forall (λ p, P p.1 ∧ P p.2) l → P (VDict l)).
Context (Hstruct : ∀ n l, Forall (λ p, P p.2) l → P (VStruct n l)).
Context (Htuple : ∀ l, Forall P l → P (VTuple l)).
Context (Henum : ∀ e n l, Forall P l → P (VEnum e n l)).
Context (Hjson : ∀ j, Q j → P (VJson j)).
Context (Hnull : Q JNull).
Context (Hjarray : ∀ l, Forall P l → Q (JArray l)).
Context (Hjobject : ∀ l, Forall (λ p, P p.2) l → Q (JObject l)).

Section all.
Context {A : Type} (R : A → Prop) (f : ∀ x, R x).
Fixpoint list_all (l : list A) : Forall R l :=
  match l with
  | [] => Forall_nil_2 R
  | x :: l' => Forall_cons_2 R x l' (f x) (list_all l')
  end.
End all.

Fixpoint value_ind_nested (v : Value) : P v :=
  match v with
  | VArray l => Harray l (list_all P value_ind_nested l)
  | VSet l => Hset l (list_all P value_ind_nested l)
  | VDict l => Hdict l (list_all (λ p, P p.1 ∧ P p.2)
      (λ p, match p with (a, b) => conj (value_ind_nested a) (value_ind_nested b) end) l)
  | VStruct n l => Hstruct n l (list_all (λ p, P p.2)
      (λ p, match p with (a, b) => value_ind_nested b end) l)
  | VTuple l => Htuple l (list_all P value_ind_nested l)
  | VEnum e n l => Henum e n l (list_all P value_ind_nested l)
  | VJson j => Hjson j (json_ind_nested j)
  | v => Hflat v eq_refl
  end
with json_ind_nested (j : Json) : Q j :=
  match j with
  | JNull => Hnull
  | JArray l => Hjarray l (list_all P value_ind_nested l)
  | JObject l => Hjobject l (list_all (λ p, P p.2)
      (λ p, match p with (a, b) => value_ind_nested b end) l)
  end.
End value_ind.
