(* ===== verification/Serialize.v ===== *)
(** Canonical encoding of values for storage ([crates/rend/src/serialize.rs]
    and the binary half of [json.rs]): [serialize], [deserialize],
    [sized_value] and [is_default], with a tag byte per variant and big-endian
    integers. *)
From S2P Require Import Prelude Bytes Values.

(** [num_bigint::BigInt::to_signed_bytes_be] / [from_signed_bytes_be]: the
    big-integer library is not part of the repository, so its byte codec is a
    parameter, whose documented inverse law is a separate class. *)
Class BigIntCodec := {
  to_signed_bytes_be : Z → bytes;
  from_signed_bytes_be : bytes → Z;
}.
Class BigIntCodecLaws `{BigIntCodec} := {
  signed_bytes_roundtrip n : from_signed_bytes_be (to_signed_bytes_be n) = n;
}.

Definition TAG_INT : Z := 0x01.
Definition TAG_BOOL : Z := 0x02.
Definition TAG_UNIT : Z := 0x03.
Definition TAG_RESOURCE : Z := 0x04.
Definition TAG_STRING : Z := 0x05.
Definition TAG_ADDRESS : Z := 0x06.
Definition TAG_ARRAY : Z := 0x07.
Definition TAG_STRUCT : Z := 0x08.
Definition TAG_I32 : Z := 0x10.
Definition TAG_U32 : Z := 0x11.
Definition TAG_U64 : Z := 0x12.
Definition TAG_U128 : Z := 0x13.
Definition TAG_BYTES : Z := 0x14.
Definition TAG_ENUM : Z := 0x15.
Definition TAG_PMAP : Z := 0x16.
Definition TAG_PVEC : Z := 0x17.
Definition TAG_INTERFACE : Z := 0x18.
Definition TAG_PBTREE : Z := 0x19.
Definition TAG_JSON : Z := 0x1a.
Definition TAG_UINT : Z := 0x1b.
Definition TAG_FLOAT : Z := 0x1c.

(** [json.rs]: tags inside a [TAG_JSON] payload. *)
Definition J_NULL : Z := 0x00.
Definition J_ARRAY : Z := 0x01.
Definition J_OBJECT : Z := 0x02.

(** A [u32] length prefix followed by the bytes it counts
    ([bytes.len() as u32] keeps the low 32 bits). *)
Definition len_prefixed (bs : bytes) : bytes := be_bytes 4 (zlen bs) ++ bs.
#[global] Arguments len_prefixed : simpl never.

(** [IndexMap::insert]: replaces the value in place, or appends. *)
Fixpoint indexmap_insert (m : list (bytes * Value)) (k : bytes) (v : Value) :
    list (bytes * Value) :=
  match m with
  | [] => [(k, v)]
  | (k', v') :: m' =>
      if decide (k' = k) then (k', v) :: m' else (k', v') :: indexmap_insert m' k v
  end.

(** ** Decoding loops

    The loops over array elements, struct fields and enum payloads share one
    body: slice at the cursor, size the next value, decode it, advance.
    [&remaining[..consumed]] panics when the claimed size runs past the end. *)
Section loops.
Context (size : bytes → Ty → outcome (option Z)).
Context (des : bytes → Ty → outcome (option Value)).

Definition slice_to (bs : bytes) (n : Z) : outcome bytes :=
  if n <=? zlen bs then Ok (take (Z.to_nat n) bs) else Panic.

Definition decode_one (ty : Ty) (rest : bytes) (cursor : Z) :
    outcome (option (Value * Z)) :=
  remaining <-! get_from rest cursor;
  consumed <-? size remaining ty;
  b ← slice_to remaining consumed;
  v <-? des b ty;
  Ok (Some (v, cursor + consumed)).

(** [for _ in 0..n]. *)
Fixpoint decode_n (k : nat) (ty : Ty) (n : Z) (rest : bytes) (cursor : Z) :
    outcome (option (list Value)) :=
  if n <=? 0 then Ok (Some []) else
  match k with
  | O => OutOfFuel
  | S k' =>
      '(v, cursor') <-? decode_one ty rest cursor;
      vs <-? decode_n k' ty (n - 1) rest cursor';
      Ok (Some (v :: vs))
  end.

(** [for ty in &payload_tys]. *)
Fixpoint decode_tys (tys : list Ty) (rest : bytes) (cursor : Z) :
    outcome (option (list Value)) :=
  match tys with
  | [] => Ok (Some [])
  | ty :: tys' =>
      '(v, cursor') <-? decode_one ty rest cursor;
      vs <-? decode_tys tys' rest cursor';
      Ok (Some (v :: vs))
  end.

(** [total += sized_value(bytes.get(total..)?, ty)?] repeated. *)
Fixpoint size_n (k : nat) (ty : Ty) (n : Z) (bs : bytes) (total : Z) :
    outcome (option Z) :=
  if n <=? 0 then Ok (Some total) else
  match k with
  | O => OutOfFuel
  | S k' =>
      remaining <-! get_from bs total;
      inner <-? size remaining ty;
      size_n k' ty (n - 1) bs (total + inner)
  end.

Fixpoint size_tys (tys : list Ty) (bs : bytes) (total : Z) : outcome (option Z) :=
  match tys with
  | [] => Ok (Some total)
  | ty :: tys' =>
      remaining <-! get_from bs total;
      inner <-? size remaining ty;
      size_tys tys' bs (total + inner)
  end.

(** The [J_OBJECT] loops of [json::byte_size] and [json::read_json]. *)
Fixpoint size_entries (k : nat) (n : Z) (bs : bytes) (total : Z) : outcome (option Z) :=
  if n <=? 0 then Ok (Some total) else
  match k with
  | O => OutOfFuel
  | S k' =>
      kl <-! be_at bs total 4;
      remaining <-! get_from bs (total + 4 + kl);
      inner <-? size remaining TJson;
      size_entries k' (n - 1) bs (total + 4 + kl + inner)
  end.

Definition read_item (bs : bytes) (pos : Z) : outcome (option (Value * Z)) :=
  remaining <-! get_from bs pos;
  sz <-? size remaining TJson;
  b <-! get_range bs pos sz;
  v <-? des b TJson;
  Ok (Some (v, pos + sz)).

Fixpoint read_items (k : nat) (n : Z) (bs : bytes) (pos : Z) :
    outcome (option (list Value * Z)) :=
  if n <=? 0 then Ok (Some ([], pos)) else
  match k with
  | O => OutOfFuel
  | S k' =>
      '(v, pos') <-? read_item bs pos;
      '(vs, pos'') <-? read_items k' (n - 1) bs pos';
      Ok (Some (v :: vs, pos''))
  end.

Fixpoint read_entries (k : nat) (n : Z) (bs : bytes) (pos : Z)
    (m : list (bytes * Value)) : outcome (option (list (bytes * Value) * Z)) :=
  if n <=? 0 then Ok (Some (m, pos)) else
  match k with
  | O => OutOfFuel
  | S k' =>
      kl <-! be_at bs pos 4;
      kb <-! get_range bs (pos + 4) kl;
      key <-! from_utf8 kb;
      '(v, pos') <-? read_item bs (pos + 4 + kl);
      read_entries k' (n - 1) bs pos' (indexmap_insert m key v)
  end.
End loops.

(** [variants.iter().find(|(n, _)| n == name).map(|(_, ts)| ts)]. *)
Definition find_variant (variants : list (bytes * list Ty)) (name : bytes) :
    option (list Ty) :=
  (λ r, r.2.2) <$> list_find (λ p, p.1 = name) variants.

Section codec.
Context `{BigIntCodec}.

(** ** [serialize] *)

(** Values that never reach storage panic ([Pending], [Tuple], cursors);
    in-memory sets and dictionaries encode to nothing. *)
Fixpoint serialize (value : Value) : outcome bytes :=
  match value with
  | VInt n => Ok (TAG_INT :: len_prefixed (to_signed_bytes_be n))
  | VUInt n => Ok (TAG_UINT :: len_prefixed (to_signed_bytes_be n))
  | VFloat bits => Ok (TAG_FLOAT :: be_bytes 8 bits)
  | VI32 n => Ok (TAG_I32 :: be_bytes 4 n)
  | VU32 n => Ok (TAG_U32 :: be_bytes 4 n)
  | VU64 n => Ok (TAG_U64 :: be_bytes 8 n)
  | VU128 n => Ok (TAG_U128 :: be_bytes 16 n)
  | VBool b => Ok [TAG_BOOL; if b then 1 else 0]
  | VUnit => Ok [TAG_UNIT]
  | VResource n => Ok (TAG_RESOURCE :: be_bytes 8 n)
  | VStr s => Ok (TAG_STRING :: len_prefixed s)
  | VAddress s => Ok (TAG_ADDRESS :: len_prefixed s)
  | VBytes b => Ok (TAG_BYTES :: len_prefixed b)
  | VArray elems =>
      body ← mapM_out serialize elems;
      Ok (TAG_ARRAY :: be_bytes 4 (zlen elems) ++ concat body)
  | VSet _ | VDict _ => Ok []
  | VPending _ => Panic
  | VTuple _ => Panic
  | VEnum _ variant payload =>
      body ← mapM_out serialize payload;
      Ok (TAG_ENUM :: len_prefixed variant ++ concat body)
  | VStruct _ fields =>
      body ← mapM_out (λ p, serialize p.2) fields;
      Ok (TAG_STRUCT :: concat body)
  | VPMap root => Ok (TAG_PMAP :: be_bytes 16 root)
  | VPBTree root => Ok (TAG_PBTREE :: be_bytes 16 root)
  | VJson j => inner ← json_serialize j; Ok (TAG_JSON :: inner)
  | VPVec len root => Ok (TAG_PVEC :: be_bytes 8 len ++ be_bytes 16 root)
  | VInterface iface target =>
      Ok (TAG_INTERFACE :: len_prefixed iface ++ len_prefixed target)
  | VPMapCursor _ _ _ _ => Panic
  | VPBTreeCursor _ _ _ _ => Panic
  end
(** [json::write_json]. *)
with json_serialize (j : Json) : outcome bytes :=
  match j with
  | JNull => Ok [J_NULL]
  | JArray items =>
      body ← mapM_out serialize items;
      Ok (J_ARRAY :: be_bytes 4 (zlen items) ++ concat body)
  | JObject m =>
      body ← mapM_out (λ p, b ← serialize p.2; Ok (len_prefixed p.1 ++ b)) m;
      Ok (J_OBJECT :: be_bytes 4 (zlen m) ++ concat body)
  end.

(** ** [sized_value], [json::byte_size] *)

(** The recursion strips at least one byte per level; [fuel] bounds it. *)
Fixpoint sized_value_f (fuel : nat) (bs : bytes) (ty : Ty) : outcome (option Z) :=
  match fuel with
  | O => OutOfFuel
  | S k =>
    match bs with
    | [] => Ok None
    | tag :: rest =>
      match ty with
      | TInt => if tag =? TAG_INT
          then n <-! be_at bs 1 4; Ok (Some (1 + 4 + n)) else Ok None
      | TUInt => if tag =? TAG_UINT
          then n <-! be_at bs 1 4; Ok (Some (1 + 4 + n)) else Ok None
      | TFloat => if tag =? TAG_FLOAT then Ok (Some (1 + 8)) else Ok None
      | TResource => if tag =? TAG_RESOURCE then Ok (Some (1 + 8)) else Ok None
      | TI32 => if tag =? TAG_I32 then Ok (Some (1 + 4)) else Ok None
      | TU32 => if tag =? TAG_U32 then Ok (Some (1 + 4)) else Ok None
      | TU64 => if tag =? TAG_U64 then Ok (Some (1 + 8)) else Ok None
      | TU128 => if tag =? TAG_U128 then Ok (Some (1 + 16)) else Ok None
      | TBool => if tag =? TAG_BOOL then Ok (Some (1 + 1)) else Ok None
      | TUnit => if tag =? TAG_UNIT then Ok (Some 1) else Ok None
      | TString => if tag =? TAG_STRING
          then n <-! be_at bs 1 4; Ok (Some (1 + 4 + n)) else Ok None
      | TAddress => if tag =? TAG_ADDRESS
          then n <-! be_at bs 1 4; Ok (Some (1 + 4 + n)) else Ok None
      | TBytes => if tag =? TAG_BYTES
          then n <-! be_at bs 1 4; Ok (Some (1 + 4 + n)) else Ok None
      | TArray elem_ty => if tag =? TAG_ARRAY
          then n <-! be_at bs 1 4; size_n (sized_value_f k) k elem_ty n bs (1 + 4)
          else Ok None
      | TStruct _ fields _ => if tag =? TAG_STRUCT
          then size_tys (sized_value_f k) (snd <$> fields) bs 1 else Ok None
      | TCap _ fields _ => if tag =? TAG_STRUCT
          then size_tys (sized_value_f k) (snd <$> fields) bs 1 else Ok None
      | TPMap _ _ => if tag =? TAG_PMAP then Ok (Some (1 + 16)) else Ok None
      | TPBTree _ _ => if tag =? TAG_PBTREE then Ok (Some (1 + 16)) else Ok None
      | TPVec _ => if tag =? TAG_PVEC then Ok (Some (1 + 8 + 16)) else Ok None
      | TJson =>
          if tag =? TAG_JSON
          then inner <-? json_byte_size_f k rest; Ok (Some (1 + inner))
          else if tag =? TAG_INT then sized_value_f k bs TInt
          else if tag =? TAG_UINT then sized_value_f k bs TUInt
          else if tag =? TAG_FLOAT then sized_value_f k bs TFloat
          else if tag =? TAG_BOOL then sized_value_f k bs TBool
          else if tag =? TAG_STRING then sized_value_f k bs TString
          else Ok None
      | TInterface _ _ => if tag =? TAG_INTERFACE
          then
            ilen <-! be_at bs 1 4;
            mlen <-! be_at bs (1 + 4 + ilen) 4;
            Ok (Some (1 + 4 + ilen + 4 + mlen))
          else Ok None
      | TEnum _ variants => if tag =? TAG_ENUM
          then
            name_len <-! be_at bs 1 4;
            name_bytes <-! get_range bs 5 name_len;
            variant_name <-! from_utf8 name_bytes;
            payload_tys <-! find_variant variants variant_name;
            size_tys (sized_value_f k) payload_tys bs (1 + 4 + name_len)
          else Ok None
      | TExplicitLiteral _ | TSet _ | TDict _ _ | TMap _ _ | TTuple _ => Ok None
      end
    end
  end
with json_byte_size_f (fuel : nat) (bs : bytes) : outcome (option Z) :=
  match fuel with
  | O => OutOfFuel
  | S k =>
    match bs with
    | [] => Ok None
    | tag :: _ =>
      if tag =? J_NULL then Ok (Some 1)
      else if tag =? J_ARRAY then
        n <-! be_at bs 1 4; size_n (sized_value_f k) k TJson n bs 5
      else if tag =? J_OBJECT then
        n <-! be_at bs 1 4; size_entries (sized_value_f k) k n bs 5
      else Ok None
    end
  end.

(** Every level of the decoder consumes a byte, except the stripping of the
    explicit-literal tags of the expected type and one redispatch of a
    primitive found in a json cell. *)
Fixpoint explicit_depth (ty : Ty) : nat :=
  match ty with TExplicitLiteral inner => S (explicit_depth inner) | _ => 0%nat end.

Definition codec_fuel (bs : bytes) (ty : Ty) : nat :=
  (length bs + explicit_depth ty + 3)%nat.

(** [serialize::sized_value], also exported as [value_byte_size]. *)
Definition sized_value (bs : bytes) (ty : Ty) : outcome (option Z) :=
  sized_value_f (codec_fuel bs ty) bs ty.

(** ** [deserialize], [json::deserialize] *)

(** [rest.try_into::<[u8; k]>().ok()?] then [from_be_bytes]. *)
Definition exact_be (k : nat) (rest : bytes) : option Z :=
  if zlen rest =? Z.of_nat k then Some (be_value rest) else None.

(** The body of a length-prefixed string or byte string. *)
Definition prefixed_body (rest : bytes) : option bytes :=
  len ← be_at rest 0 4; get_range rest 4 len.

(** The payload of a big integer, whose length must match exactly. *)
Definition bigint_body (rest : bytes) : option Z :=
  n_bytes ← be_at rest 0 4;
  if zlen rest =? 4 + n_bytes
  then Some (from_signed_bytes_be (drop 4 rest)) else None.

Fixpoint deserialize_f (fuel : nat) (bs : bytes) (expected : Ty) :
    outcome (option Value) :=
  match fuel with
  | O => OutOfFuel
  | S k =>
    match expected with
    | TExplicitLiteral inner => deserialize_f k bs inner
    | _ =>
      match bs with
      | [] => Ok None
      | tag :: rest =>
        match expected with
        | TInt => Ok (if tag =? TAG_INT then VInt <$> bigint_body rest else None)
        | TUInt => Ok (if tag =? TAG_UINT then VUInt <$> bigint_body rest else None)
        | TFloat => Ok (if tag =? TAG_FLOAT then VFloat <$> exact_be 8 rest else None)
        | TI32 => Ok (if tag =? TAG_I32
            then VI32 ∘ to_signed 32 <$> exact_be 4 rest else None)
        | TU32 => Ok (if tag =? TAG_U32 then VU32 <$> exact_be 4 rest else None)
        | TU64 => Ok (if tag =? TAG_U64 then VU64 <$> exact_be 8 rest else None)
        | TU128 => Ok (if tag =? TAG_U128 then VU128 <$> exact_be 16 rest else None)
        | TBool => Ok (if tag =? TAG_BOOL
            then if decide (rest = [0]) then Some (VBool false)
                 else if decide (rest = [1]) then Some (VBool true) else None
            else None)
        | TUnit => Ok (if tag =? TAG_UNIT then Some VUnit else None)
        | TResource => Ok (if tag =? TAG_RESOURCE
            then VResource ∘ to_signed 64 <$> exact_be 8 rest else None)
        | TString => Ok (if tag =? TAG_STRING
            then VStr <$> (prefixed_body rest ≫= from_utf8) else None)
        | TAddress => Ok (if tag =? TAG_ADDRESS
            then VAddress <$> (prefixed_body rest ≫= from_utf8) else None)
        | TBytes => Ok (if tag =? TAG_BYTES
            then VBytes <$> prefixed_body rest else None)
        | TEnum name variants => if tag =? TAG_ENUM
            then
              name_len <-! be_at rest 0 4;
              name_bytes <-! get_range rest 4 name_len;
              variant_name <-! from_utf8 name_bytes;
              payload_tys <-! find_variant variants variant_name;
              payload <-? decode_tys (sized_value_f k) (deserialize_f k)
                            payload_tys rest (4 + name_len);
              Ok (Some (VEnum name variant_name payload))
            else Ok None
        | TArray elem_ty => if tag =? TAG_ARRAY
            then
              len <-! be_at rest 0 4;
              out <-? decode_n (sized_value_f k) (deserialize_f k) k elem_ty len rest 4;
              Ok (Some (VArray out))
            else Ok None
        | TStruct name fields _ => if tag =? TAG_STRUCT
            then
              out <-? decode_tys (sized_value_f k) (deserialize_f k)
                        (snd <$> fields) rest 0;
              Ok (Some (VStruct name (zip (fst <$> fields) out)))
            else Ok None
        | TCap name fields _ => if tag =? TAG_STRUCT
            then
              out <-? decode_tys (sized_value_f k) (deserialize_f k)
                        (snd <$> fields) rest 0;
              Ok (Some (VStruct name (zip (fst <$> fields) out)))
            else Ok None
        | TPMap _ _ => Ok (if tag =? TAG_PMAP then VPMap <$> exact_be 16 rest else None)
        | TPBTree _ _ => Ok (if tag =? TAG_PBTREE
            then VPBTree <$> exact_be 16 rest else None)
        | TJson =>
            if tag =? TAG_JSON
            then j <-? json_deserialize_f k rest; Ok (Some (VJson j))
            else if tag =? TAG_INT then deserialize_f k bs TInt
            else if tag =? TAG_UINT then deserialize_f k bs TUInt
            else if tag =? TAG_FLOAT then deserialize_f k bs TFloat
            else if tag =? TAG_BOOL then deserialize_f k bs TBool
            else if tag =? TAG_STRING then deserialize_f k bs TString
            else Ok None
        | TPVec _ => Ok (if tag =? TAG_PVEC
            then len ← be_at rest 0 8; root ← be_at rest 8 16; Some (VPVec len root)
            else None)
        | TInterface _ _ => Ok (if tag =? TAG_INTERFACE
            then
              ilen ← be_at rest 0 4;
              iface ← get_range rest 4 ilen ≫= from_utf8;
              mlen ← be_at rest (4 + ilen) 4;
              target ← get_range rest (4 + ilen + 4) mlen ≫= from_utf8;
              Some (VInterface iface target)
            else None)
        | TExplicitLiteral _ | TSet _ | TDict _ _ | TMap _ _ | TTuple _ => Ok None
        end
      end
    end
  end
(** [json::deserialize] and [read_json]: the composite must span the slice. *)
with json_deserialize_f (fuel : nat) (bs : bytes) : outcome (option Json) :=
  match fuel with
  | O => OutOfFuel
  | S k =>
    let complete {A} (mk : A → Json) (r : outcome (option (A * Z))) :=
      '(x, pos) <-? r;
      Ok (if pos =? zlen bs then Some (mk x) else None) in
    match bs with
    | [] => Ok None
    | tag :: _ =>
      if tag =? J_NULL then complete (λ _ : unit, JNull) (Ok (Some (tt, 1)))
      else if tag =? J_ARRAY then
        n <-! be_at bs 1 4;
        complete JArray (read_items (sized_value_f k) (deserialize_f k) k n bs 5)
      else if tag =? J_OBJECT then
        n <-! be_at bs 1 4;
        complete JObject (read_entries (sized_value_f k) (deserialize_f k) k n bs 5 [])
      else Ok None
    end
  end.

Definition deserialize (bs : bytes) (expected : Ty) : outcome (option Value) :=
  deserialize_f (codec_fuel bs expected) bs expected.

(** ** [is_default] *)

(** [Float] is the default only as [+0.0], whose bit pattern is 0. *)
Definition is_default (value : Value) : bool :=
  match value with
  | VInt n | VUInt n => n =? 0
  | VFloat bits => bits =? 0
  | VI32 n | VU32 n | VU64 n | VU128 n => n =? 0
  | VBool b => negb b
  | VUnit => true
  | VResource n => n =? 0
  | VStr s | VAddress s | VBytes s => bool_decide (s = [])
  | VArray elems => bool_decide (elems = [])
  | VPMap root => root =? 0
  | VPVec len root => (len =? 0) && (root =? 0)
  | _ => false
  end.
End codec.

(** ** A reference big-integer codec

    Minimal-length two's complement, the documented format of
    [to_signed_bytes_be]; it instantiates the parameter in examples. *)
Module TwosComplement.
Definition byte_len (n : Z) : nat :=
  Z.to_nat (Z.log2 (if n <? 0 then - n - 1 else n) / 8 +
    (if Z.log2 (if n <? 0 then - n - 1 else n) mod 8 =? 7 then 2 else 1)).
Definition encode (n : Z) : bytes := be_bytes (byte_len n) n.
Definition decode (bs : bytes) : Z := to_signed (8 * zlen bs) (be_value bs).

#[export] Instance codec : BigIntCodec :=
  {| to_signed_bytes_be := encode; from_signed_bytes_be := decode |}.

Lemma byte_len_bound n :
  - 2 ^ (8 * Z.of_nat (byte_len n) - 1) <= n < 2 ^ (8 * Z.of_nat (byte_len n) - 1).
Proof.
  unfold byte_len. set (m := if n <? 0 then - n - 1 else n).
  assert (Hm : 0 <= m) by (subst m; destruct (Z.ltb_spec n 0); lia).
  pose proof (Z.log2_nonneg m).
  pose proof (Z.div_mod (Z.log2 m) 8 ltac:(lia)).
  pose proof (Z.mod_pos_bound (Z.log2 m) 8 ltac:(lia)).
  assert (0 <= Z.log2 m / 8) by (apply Z.div_pos; lia).
  set (b := if _ =? 7 then 2 else 1).
  assert (Hb : Z.log2 m < 8 * (Z.log2 m / 8 + b) - 1).
  { subst b. destruct (Z.eqb_spec (Z.log2 m mod 8) 7); lia. }
  rewrite Z2Nat.id by (subst b; destruct (_ =? 7); lia).
  assert (Hp : m < 2 ^ (8 * (Z.log2 m / 8 + b) - 1)).
  { destruct (decide (m = 0)) as [->|]; [apply Z.pow_pos_nonneg; lia|].
    apply Z.log2_lt_pow2; lia. }
  subst m. destruct (Z.ltb_spec n 0); lia.
Qed.

#[export] Instance laws : BigIntCodecLaws.
Proof.
  constructor. intros n. cbn. unfold decode, encode. rewrite zlen_be_bytes.
  assert (0 < byte_len n)%nat.
  { unfold byte_len. set (m := if n <? 0 then _ else _).
    assert (0 <= Z.log2 m / 8) by (apply Z.div_pos; [apply Z.log2_nonneg|lia]).
    destruct (_ =? 7); lia. }
  apply to_signed_be_bytes; [done|]. apply byte_len_bound.
Qed.
End TwosComplement.
