(* ===== verification/SerializeFacts.v ===== *)
(** Correctness of the storage codec: on every storable value the encoder
    answers bytes, [sized_value] measures exactly those bytes in any context,
    and [deserialize] gives the value back; the decoder never runs out of its
    fuel. *)
From S2P Require Import Prelude Bytes Values Serialize.

(** ** Storable values

    [storable v ty]: [v] has the storage type [ty] and every length fits its
    [u32] prefix.  The expected type of a nested value must not carry an
    explicit-literal tag: [sized_value] has no case for it. *)
Definition fits_u32 {A} (l : list A) : bool := zlen l <? 2 ^ 32.
Definition storable_str (s : bytes) : bool := utf8_valid s && fits_u32 s.

Section storable.
Context `{BigIntCodec}.

Fixpoint storable (v : Value) (ty : Ty) {struct v} : bool :=
  match v, ty with
  | VInt n, (TInt | TJson) | VUInt n, (TUInt | TJson) =>
      fits_u32 (to_signed_bytes_be n)
  | VFloat bits, (TFloat | TJson) => in_u 64 bits
  | VI32 n, TI32 => in_i 32 n
  | VU32 n, TU32 => in_u 32 n
  | VU64 n, TU64 => in_u 64 n
  | VU128 n, TU128 => in_u 128 n
  | VBool _, (TBool | TJson) => true
  | VUnit, TUnit => true
  | VResource n, TResource => in_i 64 n
  | VStr s, (TString | TJson) => storable_str s
  | VAddress s, TAddress => storable_str s
  | VBytes b, TBytes => fits_u32 b
  | VArray elems, TArray t => fits_u32 elems && forallb (λ v, storable v t) elems
  | VStruct name fs, (TStruct name' tys _ | TCap name' tys _) =>
      bool_decide (name = name')
      && forallb2 (λ p q, bool_decide (p.1 = q.1) && storable p.2 q.2) fs tys
  | VEnum name variant payload, TEnum name' variants =>
      bool_decide (name = name') && storable_str variant
      && match find_variant variants variant with
         | Some tys => forallb2 storable payload tys
         | None => false
         end
  | VPMap r, TPMap _ _ | VPBTree r, TPBTree _ _ => in_u 128 r
  | VPVec len r, TPVec _ => in_u 64 len && in_u 128 r
  | VInterface i m, TInterface _ _ => storable_str i && storable_str m
  | VJson j, TJson => json_storable j
  | _, _ => false
  end
with json_storable (j : Json) : bool :=
  match j with
  | JNull => true
  | JArray items => fits_u32 items && forallb (λ v, storable v TJson) items
  | JObject m =>
      fits_u32 m && bool_decide (NoDup m.*1)
      && forallb (λ p, storable_str p.1 && storable p.2 TJson) m
  end.
End storable.

(** The bytes of a value that can be stored. *)
Definition ser `{BigIntCodec} (v : Value) : bytes :=
  match serialize v with Ok b => b | _ => [] end.

(** ** Generic list facts *)

Lemma mapM_out_Forall2 {A B} (f : A → outcome B) l k :
  mapM_out f l = Ok k ↔ Forall2 (λ x y, f x = Ok y) l k.
Proof.
  revert k. induction l as [|x l IH]; intros k; simpl.
  - split; [intros [= <-]; constructor|]. by inversion 1.
  - destruct (f x) as [y|e| |] eqn:Ef; cbn; split; try done;
      try (inversion 1; congruence).
    + destruct (mapM_out f l) as [ys|e| |] eqn:El; cbn; try done. intros [= <-].
      constructor; [done|]. by apply IH.
    + inversion 1 as [|x' y' l' k' Hx Hl]; subst. apply IH in Hl. rewrite Hl. cbn.
      congruence.
Qed.

Lemma forallb2_Forall2 {A B} (f : A → B → bool) l k :
  forallb2 f l k = true ↔ Forall2 (λ x y, f x y = true) l k.
Proof.
  revert k. induction l as [|x l IH]; intros [|y k]; simpl.
  - split; [constructor|done].
  - split; [done|inversion 1].
  - split; [done|inversion 1].
  - rewrite andb_true_iff, IH. split; [intros []; by constructor|by inversion 1].
Qed.

Lemma forallb_Forall {A} (f : A → bool) l :
  forallb f l = true ↔ Forall (λ x, f x = true) l.
Proof.
  induction l as [|x l IH]; simpl; [split; [constructor|done]|].
  rewrite andb_true_iff, IH. split; [intros []; by constructor|by inversion 1].
Qed.

Lemma zlen_concat_ge {A} (ls : list (list A)) l :
  l ∈ ls → (length l ≤ length (concat ls))%nat.
Proof.
  induction ls as [|k ls IH]; [by inversion 1|]. simpl. rewrite length_app.
  intros [->|Hl]%elem_of_cons; [lia|]. specialize (IH Hl). lia.
Qed.

Lemma length_concat_ge {A} (ls : list (list A)) :
  Forall (λ l, l ≠ []) ls → (length ls ≤ length (concat ls))%nat.
Proof.
  induction 1 as [|l ls Hl _ IH]; simpl; [lia|]. rewrite length_app.
  destruct l; [done|]. simpl. lia.
Qed.

(** ** The decoding loops on well-sized elements *)
Section loops_ok.
Context (size : bytes → Ty → outcome (option Z)).
Context (des : bytes → Ty → outcome (option Value)).

(** One element: sized in any context, decoded exactly. *)
Definition elem_ok (ty : Ty) (v : Value) (b : bytes) : Prop :=
  (∀ rest, size (b ++ rest) ty = Ok (Some (zlen b))) ∧ des b ty = Ok (Some v).

Lemma slice_to_app b rest : slice_to (b ++ rest) (zlen b) = Ok b.
Proof.
  unfold slice_to. rewrite zlen_app. pose proof (zlen_nonneg rest).
  destruct (Z.leb_spec (zlen b) (zlen b + zlen rest)); [|lia].
  unfold zlen. by rewrite Nat2Z.id, take_app_length.
Qed.

Lemma decode_one_ok ty v b pre suf :
  elem_ok ty v b →
  decode_one size des ty (pre ++ b ++ suf) (zlen pre)
    = Ok (Some (v, zlen pre + zlen b)).
Proof.
  intros [Hs Hd]. unfold decode_one.
  rewrite (get_from_at _ pre (b ++ suf)) by done. cbn. rewrite Hs. cbn.
  rewrite slice_to_app. cbn. by rewrite Hd.
Qed.

Lemma decode_n_ok ty vs bs k pre suf :
  Forall2 (elem_ok ty) vs bs → (length vs ≤ k)%nat →
  decode_n size des k ty (zlen vs) (pre ++ concat bs ++ suf) (zlen pre)
    = Ok (Some vs).
Proof.
  intros Hf. revert k pre. induction Hf as [|v b vs bs Hvb Hf IH]; intros k pre Hk.
  - destruct k; done.
  - destruct k as [|k]; [simpl in Hk; lia|]. cbn [decode_n concat].
    rewrite zlen_cons. destruct (Z.leb_spec (1 + zlen vs) 0) as [|_];
      [pose proof (zlen_nonneg vs); lia|].
    rewrite <- app_assoc, (decode_one_ok ty v b) by done. cbn.
    replace (1 + zlen vs - 1) with (zlen vs) by lia.
    rewrite app_assoc. rewrite <- zlen_app.
    rewrite IH by (simpl in Hk; lia). done.
Qed.

Lemma decode_tys_ok tys vs bs pre suf :
  Forall3 elem_ok tys vs bs →
  decode_tys size des tys (pre ++ concat bs ++ suf) (zlen pre) = Ok (Some vs).
Proof.
  intros Hf. revert pre. induction Hf as [|ty v b tys vs bs Hvb Hf IH]; intros pre; [done|].
  cbn [decode_tys concat]. rewrite <- app_assoc, (decode_one_ok ty v b) by done. cbn.
  rewrite app_assoc. rewrite <- zlen_app. by rewrite IH.
Qed.

Lemma size_n_ok ty vs bs k pre suf :
  Forall2 (elem_ok ty) vs bs → (length vs ≤ k)%nat →
  size_n size k ty (zlen vs) (pre ++ concat bs ++ suf) (zlen pre)
    = Ok (Some (zlen pre + zlen (concat bs))).
Proof.
  intros Hf. revert k pre. induction Hf as [|v b vs bs [Hs Hd] Hf IH]; intros k pre Hk.
  - cbn [concat]. rewrite zlen_nil, Z.add_0_r. by destruct k.
  - destruct k as [|k]; [simpl in Hk; lia|]. cbn [size_n concat].
    rewrite zlen_cons. destruct (Z.leb_spec (1 + zlen vs) 0) as [|_];
      [pose proof (zlen_nonneg vs); lia|].
    rewrite <- app_assoc, (get_from_at _ pre (b ++ concat bs ++ suf)) by done.
    rewrite Hs. cbn. replace (1 + zlen vs - 1) with (zlen vs) by lia.
    rewrite app_assoc. rewrite <- zlen_app.
    rewrite IH by (simpl in Hk; lia). rewrite !zlen_app. do 2 f_equal. lia.
Qed.

Lemma size_tys_ok tys vs bs pre suf :
  Forall3 elem_ok tys vs bs →
  size_tys size tys (pre ++ concat bs ++ suf) (zlen pre)
    = Ok (Some (zlen pre + zlen (concat bs))).
Proof.
  intros Hf. revert pre.
  induction Hf as [|ty v b tys vs bs [Hs Hd] Hf IH]; intros pre.
  - cbn. by rewrite zlen_nil, Z.add_0_r.
  - cbn [size_tys concat].
    rewrite <- app_assoc, (get_from_at _ pre (b ++ concat bs ++ suf)) by done.
    rewrite Hs. cbn. rewrite app_assoc. rewrite <- zlen_app.
    rewrite IH. rewrite !zlen_app. do 2 f_equal. lia.
Qed.

Lemma read_item_ok v b pre suf :
  elem_ok TJson v b →
  read_item size des (pre ++ b ++ suf) (zlen pre) = Ok (Some (v, zlen pre + zlen b)).
Proof.
  intros [Hs Hd]. unfold read_item.
  rewrite (get_from_at _ pre (b ++ suf)) by done. rewrite Hs. cbn.
  rewrite get_range_app_l. by rewrite Hd.
Qed.

Lemma read_items_ok vs bs k pre suf :
  Forall2 (elem_ok TJson) vs bs → (length vs ≤ k)%nat →
  read_items size des k (zlen vs) (pre ++ concat bs ++ suf) (zlen pre)
    = Ok (Some (vs, zlen pre + zlen (concat bs))).
Proof.
  intros Hf. revert k pre. induction Hf as [|v b vs bs Hvb Hf IH]; intros k pre Hk.
  - cbn [concat]. rewrite zlen_nil, Z.add_0_r. by destruct k.
  - destruct k as [|k]; [simpl in Hk; lia|]. cbn [read_items concat].
    rewrite zlen_cons. destruct (Z.leb_spec (1 + zlen vs) 0) as [|_];
      [pose proof (zlen_nonneg vs); lia|].
    rewrite <- app_assoc, (read_item_ok v b) by done. cbn.
    replace (1 + zlen vs - 1) with (zlen vs) by lia.
    rewrite app_assoc. rewrite <- zlen_app.
    rewrite IH by (simpl in Hk; lia). cbn. rewrite !zlen_app. do 3 f_equal. lia.
Qed.

(** Object entries: a length-prefixed key before each value. *)
Definition entry_ok (p : bytes * Value) (b : bytes) : Prop :=
  storable_str p.1 = true ∧ ∃ vb, b = len_prefixed p.1 ++ vb ∧ elem_ok TJson p.2 vb.

Lemma indexmap_insert_new m k v : k ∉ m.*1 → indexmap_insert m k v = m ++ [(k, v)].
Proof.
  induction m as [|[k' v'] m IH]; simpl; [done|]. intros Hk.
  apply not_elem_of_cons in Hk as [Hne Hk].
  destruct (decide (k' = k)); [congruence|]. by rewrite IH.
Qed.

Lemma be_at_prefixed pre s suf i :
  fits_u32 s = true → i = zlen pre →
  be_at (pre ++ len_prefixed s ++ suf) i 4 = Some (zlen s).
Proof.
  intros Hs Hi. unfold fits_u32 in Hs. pose proof (zlen_nonneg s).
  apply (be_at_app _ pre 4 (zlen s) (s ++ suf)); [simpl; lia| |done].
  unfold len_prefixed. by rewrite <- app_assoc.
Qed.

Lemma get_range_prefixed pre s suf i :
  i = zlen pre + 4 → get_range (pre ++ len_prefixed s ++ suf) i (zlen s) = Some s.
Proof.
  intros ->. apply (get_range_at _ (pre ++ be_bytes 4 (zlen s)) s suf).
  - unfold len_prefixed. by rewrite <- !app_assoc.
  - by rewrite zlen_app, zlen_be_bytes.
  - done.
Qed.

Lemma from_utf8_storable s : storable_str s = true → from_utf8 s = Some s.
Proof.
  unfold storable_str, from_utf8. intros [Hs _]%andb_prop. by rewrite Hs.
Qed.

Lemma storable_str_fits s : storable_str s = true → fits_u32 s = true.
Proof. unfold storable_str. by intros [_ Hs]%andb_prop. Qed.

Lemma zlen_len_prefixed s : zlen (len_prefixed s) = 4 + zlen s.
Proof. unfold len_prefixed. by rewrite zlen_app, zlen_be_bytes. Qed.

Lemma read_entries_ok es bs k pre suf acc :
  Forall2 entry_ok es bs → (length es ≤ k)%nat → NoDup (acc ++ es).*1 →
  read_entries size des k (zlen es) (pre ++ concat bs ++ suf) (zlen pre) acc
    = Ok (Some (acc ++ es, zlen pre + zlen (concat bs))).
Proof.
  intros Hf. revert k pre acc.
  induction Hf as [|[key v] b es bs Hvb Hf IH]; intros k pre acc Hk Hnd.
  - cbn [concat]. rewrite zlen_nil, Z.add_0_r, app_nil_r. by destruct k.
  - destruct Hvb as (Hstr & vb & -> & Hv). simpl in Hstr, Hv.
    destruct k as [|k]; [simpl in Hk; lia|]. cbn [read_entries concat].
    rewrite zlen_cons. destruct (Z.leb_spec (1 + zlen es) 0) as [|_];
      [pose proof (zlen_nonneg es); lia|].
    rewrite <- !app_assoc. cbn [fst].
    rewrite (be_at_prefixed pre key) by auto using storable_str_fits.
    rewrite (get_range_prefixed pre key) by done.
    rewrite from_utf8_storable by done.
    replace (zlen pre + 4 + zlen key) with (zlen (pre ++ len_prefixed key))
      by (rewrite zlen_app, zlen_len_prefixed; lia).
    rewrite (app_assoc pre (len_prefixed key)).
    rewrite (read_item_ok v vb) by done. cbn.
    replace (1 + zlen es - 1) with (zlen es) by lia.
    rewrite <- zlen_app, app_assoc.
    rewrite indexmap_insert_new.
    2: { intros Hin. rewrite fmap_app in Hnd. simpl in Hnd.
         apply NoDup_app in Hnd as (_ & Hd & _). apply (Hd key); [done|]. left. }
    rewrite IH; [|simpl in Hk; lia|by rewrite <- app_assoc].
    rewrite <- app_assoc, !zlen_app. do 3 f_equal. lia.
Qed.

Lemma size_entries_ok es bs k pre suf :
  Forall2 entry_ok es bs → (length es ≤ k)%nat →
  size_entries size k (zlen es) (pre ++ concat bs ++ suf) (zlen pre)
    = Ok (Some (zlen pre + zlen (concat bs))).
Proof.
  intros Hf. revert k pre.
  induction Hf as [|[key v] b es bs Hvb Hf IH]; intros k pre Hk.
  - cbn [concat]. rewrite zlen_nil, Z.add_0_r. by destruct k.
  - destruct Hvb as (Hstr & vb & -> & [Hs Hd]). simpl in Hstr, Hs.
    destruct k as [|k]; [simpl in Hk; lia|]. cbn [size_entries concat].
    rewrite zlen_cons. destruct (Z.leb_spec (1 + zlen es) 0) as [|_];
      [pose proof (zlen_nonneg es); lia|].
    rewrite <- !app_assoc. cbn [fst].
    rewrite (be_at_prefixed pre key) by auto using storable_str_fits.
    rewrite (get_from_at _ (pre ++ len_prefixed key) (vb ++ concat bs ++ suf));
      [|by rewrite <- app_assoc|rewrite zlen_app, zlen_len_prefixed; lia].
    rewrite Hs. cbn. replace (1 + zlen es - 1) with (zlen es) by lia.
    replace (zlen pre + 4 + zlen key + zlen vb)
      with (zlen (pre ++ len_prefixed key ++ vb))
      by (rewrite !zlen_app, zlen_len_prefixed; lia).
    rewrite !app_assoc. rewrite <- (app_assoc _ (concat bs)).
    rewrite <- (app_assoc pre). rewrite IH by (simpl in Hk; lia).
    rewrite !zlen_app. do 2 f_equal. lia.
Qed.
End loops_ok.

(** ** Round trip *)
Section roundtrip.
Context `{Laws : BigIntCodecLaws}.

Lemma mapM_out_total {A B} (f : A → outcome B) l :
  Forall (λ x, ∃ y, f x = Ok y) l → ∃ k, mapM_out f l = Ok k.
Proof.
  induction 1 as [|x l [y Hy] _ [k Hk]]; [by exists []|].
  exists (y :: k). simpl. by rewrite Hy, Hk.
Qed.

(** One entry of a json object. *)
Definition json_entry (p : bytes * Value) : outcome bytes :=
  b ← serialize p.2; Ok (len_prefixed p.1 ++ b).

Lemma json_serialize_object m :
  json_serialize (JObject m) =
    body ← mapM_out json_entry m;
    Ok (J_OBJECT :: be_bytes 4 (zlen m) ++ concat body).
Proof. done. Qed.

(** A storable value never makes the encoder panic. *)
Lemma serialize_total v ty : storable v ty = true → ∃ b, serialize v = Ok b.
Proof.
  revert ty. pattern v.
  apply (value_ind_nested _ (λ j, json_storable j = true → ∃ b, json_serialize j = Ok b));
    clear v.
  - intros v Hf ty Hv. destruct v; try done; simpl; eauto.
  - intros l IH ty Hv. destruct ty; try done. simpl in Hv.
    apply andb_prop in Hv as [_ Hv]. apply forallb_Forall in Hv.
    destruct (mapM_out_total serialize l) as [k Hk]; [|simpl; rewrite Hk; cbn; eauto].
    eapply Forall_impl2; [exact IH|exact Hv|]. naive_solver.
  - intros l IH ty Hv. by destruct ty.
  - intros l IH ty Hv. by destruct ty.
  - intros n l IH ty Hv.
    assert (Hl : Forall (λ p : bytes * Value, ∃ y, serialize p.2 = Ok y) l).
    { destruct ty as [| | | | | | | | | | | | | | | | | | | | | |? tys ?| | |? tys ?|];
        try done; simpl in Hv; apply andb_prop in Hv as [_ Hv];
        apply forallb2_Forall2 in Hv; clear -IH Hv;
        induction Hv as [|p q l tys Hp Hl IHl]; constructor;
        apply Forall_cons in IH as [IHp IH]; eauto;
        apply andb_prop in Hp as [_ Hp]; eauto. }
    destruct (mapM_out_total (λ p : bytes * Value, serialize p.2) l) as [k Hk]; [done|].
    simpl. rewrite Hk. cbn. eauto.
  - intros l IH ty Hv. by destruct ty.
  - intros e n l IH ty Hv. destruct ty as [| | | | | | | | | | | | | | | | | | | | | | | |? vs| |];
      try done. simpl in Hv.
    apply andb_prop in Hv as [_ Hv]. destruct (find_variant vs n) as [tys|]; [|done].
    apply forallb2_Forall2 in Hv.
    assert (Hl : Forall (λ v, ∃ y, serialize v = Ok y) l).
    { clear -IH Hv. induction Hv as [|p q l tys Hp Hl IHl]; constructor;
        apply Forall_cons in IH as [IHp IH]; eauto. }
    destruct (mapM_out_total serialize l) as [k Hk]; [done|].
    simpl. rewrite Hk. cbn. eauto.
  - intros j IH ty Hv. destruct ty; try done. simpl in Hv.
    destruct (IH Hv) as [b Hb]. simpl. rewrite Hb. cbn. eauto.
  - simpl. eauto.
  - intros l IH Hv. simpl in Hv. apply andb_prop in Hv as [_ Hv].
    apply forallb_Forall in Hv.
    destruct (mapM_out_total serialize l) as [k Hk]; [|simpl; rewrite Hk; cbn; eauto].
    eapply Forall_impl2; [exact IH|exact Hv|]. naive_solver.
  - intros l IH Hv. simpl in Hv. apply andb_prop in Hv as [_ Hv].
    apply forallb_Forall in Hv.
    destruct (mapM_out_total json_entry l) as [k Hk];
      [|rewrite json_serialize_object, Hk; cbn; eauto].
    eapply Forall_impl2; [exact IH|exact Hv|]. intros [a v] H1 H2.
    simpl in *. apply andb_prop in H2 as [_ H2]. unfold json_entry.
    destruct (H1 _ H2) as [b Hb]. simpl. rewrite Hb. cbn. eauto.
Qed.

(** *** Payload decoders *)

Lemma be_at_1 tag x rest :
  fits_u32 x = true → be_at (tag :: len_prefixed x ++ rest) 1 4 = Some (zlen x).
Proof. intros Hx. by apply (be_at_prefixed [tag] x rest). Qed.

Lemma bigint_body_ok n :
  fits_u32 (to_signed_bytes_be n) = true →
  bigint_body (len_prefixed (to_signed_bytes_be n)) = Some n.
Proof.
  intros Hn. unfold bigint_body.
  pose proof (be_at_prefixed [] _ [] 0 Hn eq_refl) as E. rewrite app_nil_r in E.
  cbn [app] in E. rewrite E. cbn.
  rewrite zlen_len_prefixed, Z.eqb_refl. unfold len_prefixed.
  rewrite drop_app_ge by (rewrite length_be_bytes; lia).
  rewrite length_be_bytes, Nat.sub_diag, drop_0. f_equal. apply signed_bytes_roundtrip.
Qed.

Lemma prefixed_body_ok s : fits_u32 s = true → prefixed_body (len_prefixed s) = Some s.
Proof.
  intros Hs. unfold prefixed_body.
  pose proof (be_at_prefixed [] _ [] 0 Hs eq_refl) as E. rewrite app_nil_r in E.
  cbn [app] in E. rewrite E. cbn.
  pose proof (get_range_prefixed [] s [] 4 eq_refl) as E2. by rewrite app_nil_r in E2.
Qed.

Lemma exact_be_ok k n :
  0 <= n < 2 ^ (8 * Z.of_nat k) → exact_be k (be_bytes k n) = Some n.
Proof.
  intros Hn. unfold exact_be. rewrite zlen_be_bytes, Z.eqb_refl.
  by rewrite be_value_be_bytes_id.
Qed.

Lemma exact_be_signed k w n :
  (0 < k)%nat → w = 8 * Z.of_nat k → in_i w n = true →
  to_signed w <$> exact_be k (be_bytes k n) = Some n.
Proof.
  intros Hk -> Hn. unfold exact_be. rewrite zlen_be_bytes, Z.eqb_refl. cbn.
  f_equal. unfold in_i in Hn. apply to_signed_be_bytes; [done|lia].
Qed.

Lemma interface_body_ok i m rest :
  storable_str i = true → storable_str m = true →
  be_at (len_prefixed i ++ len_prefixed m ++ rest) 0 4 = Some (zlen i) ∧
  get_range (len_prefixed i ++ len_prefixed m ++ rest) 4 (zlen i) = Some i ∧
  be_at (len_prefixed i ++ len_prefixed m ++ rest) (4 + zlen i) 4 = Some (zlen m) ∧
  get_range (len_prefixed i ++ len_prefixed m ++ rest) (4 + zlen i + 4) (zlen m) = Some m.
Proof.
  intros Hi Hm. apply storable_str_fits in Hi, Hm. splits.
  - by apply (be_at_prefixed []).
  - by apply (get_range_prefixed []).
  - apply (be_at_prefixed (len_prefixed i)); [done|]. by rewrite zlen_len_prefixed.
  - apply (get_range_prefixed (len_prefixed i)). by rewrite zlen_len_prefixed.
Qed.

Local Abbreviation ok_at fuel := (elem_ok (sized_value_f fuel) (deserialize_f fuel)).

(** Leaves round-trip with two units of fuel (one for a json redispatch). *)
Lemma flat_ok v ty b k :
  flat v = true → storable v ty = true → serialize v = Ok b → ok_at (S (S k)) ty v b.
Proof.
  intros Hf Hv Hb. destruct v; try done; destruct ty; try done;
    cbn [serialize] in Hb; apply Ok_inj in Hb; subst b; cbn [storable] in Hv; unfold in_u in *;
    (split; [intros rest|]);
    try match goal with
      |- context [(?x :: ?l) ++ ?r] => change ((x :: l) ++ r) with (x :: l ++ r)
    end;
    cbn [sized_value_f deserialize_f];
    repeat match goal with
      |- context [Z.eqb ?a ?a] => rewrite (Z.eqb_refl a)
    end.
  all: try (cbn; rewrite be_at_1 by auto using storable_str_fits;
            rewrite zlen_cons, zlen_len_prefixed; do 2 f_equal; lia).
  all: try (rewrite bigint_body_ok by done; done).
  all: try (rewrite exact_be_ok by (cbn; lia); done).
  all: try (rewrite zlen_cons; autorewrite with rend_len; done).
  all: try (apply storable_str_fits in Hv as Hv'; rewrite prefixed_body_ok by done; cbn;
            rewrite from_utf8_storable by done; done).
  all: try (rewrite prefixed_body_ok by done; done).
  all: try (rewrite option_fmap_compose, exact_be_signed by (done || lia); done).
  - by destruct b0.
  - by destruct b0.
  - done.
  - apply andb_prop in Hv as [Hl Hr].
    rewrite (be_at_app _ [] 8 len (be_bytes 16 root)) by (done || lia).
    rewrite (be_at_app _ (be_bytes 8 len) 16 root [])
      by (lia || by rewrite ?app_nil_r, ?zlen_be_bytes). done.
  - apply andb_prop in Hv as [Hi Hm].
    pose proof (be_at_prefixed (TAG_INTERFACE :: len_prefixed iface) target_module rest
      (1 + 4 + zlen iface) (storable_str_fits _ Hm)) as E. cbn [app] in E.
    rewrite <- app_assoc, be_at_1 by auto using storable_str_fits.
    rewrite E by (rewrite zlen_cons, zlen_len_prefixed; lia).
    rewrite zlen_cons, zlen_app, !zlen_len_prefixed. do 2 f_equal. lia.
  - apply andb_prop in Hv as [Hi Hm].
    destruct (interface_body_ok iface target_module [] Hi Hm) as (E1 & E2 & E3 & E4).
    rewrite !app_nil_r in *.
    by rewrite E1, option_bind_Some, E2, option_bind_Some, from_utf8_storable,
      option_bind_Some, E3, option_bind_Some, E4, option_bind_Some, from_utf8_storable.
Qed.

Lemma serialize_nonempty v ty b : storable v ty = true → serialize v = Ok b → b ≠ [].
Proof.
  intros Hv Hb ->. destruct v; destruct ty; try done; simpl in Hb;
    repeat match goal with
      | H : mbind _ ?m = Ok [] |- _ => destruct m; done
      end; done.
Qed.

(** Element lists: the induction hypothesis at every element. *)
Lemma elems_ok fuel ty vs bs :
  (∀ v b, storable v ty = true → serialize v = Ok b → (length b < fuel)%nat →
     ok_at fuel ty v b) →
  Forall (λ v, storable v ty = true) vs → Forall2 (λ v b, serialize v = Ok b) vs bs →
  (length (concat bs) < fuel)%nat →
  Forall2 (ok_at fuel ty) vs bs ∧ (length vs ≤ length (concat bs))%nat.
Proof.
  intros IH Hst Hs. induction Hs as [|v b vs bs Hvb Hs IHs]; simpl; [done|].
  rewrite length_app. intros Hlen. apply Forall_cons in Hst as [Hv Hst].
  destruct IHs as [H1 H2]; [done|lia|]. split.
  - constructor; [|done]. apply IH; [done..|lia].
  - pose proof (serialize_nonempty v ty b Hv Hvb). destruct b; [done|simpl; lia].
Qed.

(** Typed sequences: struct fields and enum payloads. *)
Lemma typed_ok fuel tys vs bs :
  (∀ ty v b, storable v ty = true → serialize v = Ok b → (length b < fuel)%nat →
     ok_at fuel ty v b) →
  Forall2 (λ v ty, storable v ty = true) vs tys →
  Forall2 (λ v b, serialize v = Ok b) vs bs →
  (length (concat bs) < fuel)%nat → Forall3 (ok_at fuel) tys vs bs.
Proof.
  intros IH Hst. revert bs. induction Hst as [|v ty vs tys Hv Hst IHst]; intros bs Hs;
    inversion Hs as [|? b ? bs' Hvb Hs']; subst; simpl; [constructor|].
  rewrite length_app. intros Hlen. constructor; [apply IH; [done..|lia]|].
  apply IHst; [done|lia].
Qed.

Lemma entries_ok fuel m bs :
  (∀ v b, storable v TJson = true → serialize v = Ok b → (length b < fuel)%nat →
     ok_at fuel TJson v b) →
  Forall (λ p, storable_str p.1 && storable p.2 TJson = true) m →
  Forall2 (λ p b, json_entry p = Ok b) m bs → (length (concat bs) < fuel)%nat →
  Forall2 (entry_ok (sized_value_f fuel) (deserialize_f fuel)) m bs ∧
  (length m ≤ length (concat bs))%nat.
Proof.
  intros IH Hst Hs. induction Hs as [|[k v] b m bs Hvb Hs IHs]; simpl; [done|].
  rewrite length_app. intros Hlen. apply Forall_cons in Hst as [Hv Hst].
  simpl in Hv. apply andb_prop in Hv as [Hk Hv].
  unfold json_entry in Hvb. cbn in Hvb. destruct (serialize v) as [vb|e| |] eqn:Ev; try done.
  cbn in Hvb. apply Ok_inj in Hvb; subst b. rewrite length_app in Hlen. rewrite length_app.
  destruct IHs as [H1 H2]; [done|lia|]. split.
  - constructor; [|done]. split; [done|]. exists vb. split; [done|].
    apply IH; [done..|lia].
  - pose proof (serialize_nonempty v _ vb Hv Ev). destruct vb; [done|simpl; lia].
Qed.

(** *** Composites, given their elements *)

Lemma be_at_count pre n rest i :
  0 <= n < 2 ^ 32 → i = zlen pre → be_at (pre ++ be_bytes 4 n ++ rest) i 4 = Some n.
Proof. intros Hn Hi. by apply (be_at_app _ pre 4 n rest). Qed.

Lemma array_ok k elem_ty vs bs :
  fits_u32 vs = true → Forall2 (ok_at k elem_ty) vs bs → (length vs ≤ k)%nat →
  ok_at (S k) (TArray elem_ty) (VArray vs) (TAG_ARRAY :: be_bytes 4 (zlen vs) ++ concat bs).
Proof.
  intros Hfit Hel Hk. unfold fits_u32 in Hfit. pose proof (zlen_nonneg vs).
  split; [intros rest|]; cbn [sized_value_f deserialize_f].
  - pose proof (be_at_count [TAG_ARRAY] (zlen vs) (concat bs ++ rest) 1) as E.
    pose proof (size_n_ok _ _ elem_ty vs bs k (TAG_ARRAY :: be_bytes 4 (zlen vs)) rest
      Hel Hk) as E2.
    rewrite <- app_comm_cons, <- app_assoc. cbn [app] in E, E2.
    cbn [sized_value_f]. rewrite Z.eqb_refl, E by (done || lia).
    rewrite zlen_cons, zlen_be_bytes in E2. change (1 + Z.of_nat 4) with (1 + 4) in E2.
    rewrite E2.
    rewrite zlen_cons, zlen_app, zlen_be_bytes. do 2 f_equal. lia.
  - rewrite Z.eqb_refl.
    pose proof (be_at_count [] (zlen vs) (concat bs) 0) as E.
    pose proof (decode_n_ok _ _ elem_ty vs bs k (be_bytes 4 (zlen vs)) [] Hel Hk) as E2.
    rewrite zlen_be_bytes, app_nil_r in E2. cbn [app] in E.
    rewrite E by (done || lia).
    change (Z.of_nat 4) with 4 in E2. by rewrite E2.
Qed.

Lemma fields_ok k ty name tys vs bs :
  (∃ g, ty = TStruct name tys g) ∨ (∃ o, ty = TCap name tys o) →
  Forall3 (ok_at k) tys.*2 vs bs →
  ok_at (S k) ty (VStruct name (zip tys.*1 vs)) (TAG_STRUCT :: concat bs).
Proof.
  intros Hty Hel.
  pose proof (λ rest, size_tys_ok _ _ tys.*2 vs bs [TAG_STRUCT] rest Hel) as E.
  pose proof (decode_tys_ok _ _ tys.*2 vs bs [] [] Hel) as E2.
  cbn [app] in E, E2. rewrite app_nil_r in E2. rewrite zlen_cons, zlen_nil in E.
  split; [intros rest|]; destruct Hty as [[g ->]|[o ->]];
    cbn [sized_value_f deserialize_f app]; rewrite Z.eqb_refl.
  1, 2: rewrite zlen_cons; apply E.
  all: change (zlen []) with 0 in E2; by rewrite E2.
Qed.

Lemma enum_ok k name variants variant tys vs bs :
  storable_str variant = true → find_variant variants variant = Some tys →
  Forall3 (ok_at k) tys vs bs →
  ok_at (S k) (TEnum name variants) (VEnum name variant vs)
    (TAG_ENUM :: len_prefixed variant ++ concat bs).
Proof.
  intros Hs Hfind Hel. pose proof (storable_str_fits _ Hs) as Hfit.
  split; [intros rest|]; cbn [sized_value_f deserialize_f].
  - rewrite <- app_comm_cons, <- app_assoc. cbn [sized_value_f].
    pose proof (size_tys_ok _ _ tys vs bs (TAG_ENUM :: len_prefixed variant) rest Hel) as E.
    pose proof (get_range_prefixed [TAG_ENUM] variant (concat bs ++ rest) 5 eq_refl) as E1.
    cbn [app] in E, E1.
    rewrite Z.eqb_refl, be_at_1, E1, from_utf8_storable, Hfind by done.
    rewrite zlen_cons, zlen_len_prefixed in E.
    replace (1 + 4 + zlen variant) with (1 + (4 + zlen variant)) by lia. rewrite E.
    rewrite zlen_cons, zlen_app, zlen_len_prefixed. do 2 f_equal. lia.
  - pose proof (decode_tys_ok _ _ tys vs bs (len_prefixed variant) [] Hel) as E.
    pose proof (be_at_prefixed [] variant (concat bs) 0 Hfit eq_refl) as E0.
    pose proof (get_range_prefixed [] variant (concat bs) 4 eq_refl) as E1.
    rewrite app_nil_r, zlen_len_prefixed in E. cbn [app] in E0, E1.
    by rewrite Z.eqb_refl, E0, E1, from_utf8_storable, Hfind, E.
Qed.

Lemma json_array_ok k vs bs :
  fits_u32 vs = true → Forall2 (ok_at k TJson) vs bs → (length vs ≤ k)%nat →
  ok_at (S (S k)) TJson (VJson (JArray vs))
    (TAG_JSON :: J_ARRAY :: be_bytes 4 (zlen vs) ++ concat bs).
Proof.
  intros Hfit Hel Hk. unfold fits_u32 in Hfit. pose proof (zlen_nonneg vs).
  pose proof (λ rest, be_at_count [J_ARRAY] (zlen vs) rest 1) as E. cbn [app] in E.
  split; [intros rest|].
  - pose proof (size_n_ok _ _ TJson vs bs k (J_ARRAY :: be_bytes 4 (zlen vs)) rest
      Hel Hk) as E2.
    rewrite zlen_cons, zlen_be_bytes in E2. cbn [app] in E2.
    rewrite <- !app_comm_cons, <- app_assoc. cbn [sized_value_f json_byte_size_f].
    rewrite Z.eqb_refl. change (J_ARRAY =? J_NULL) with false. cbn iota.
    rewrite Z.eqb_refl, E by (done || lia). change (1 + Z.of_nat 4) with 5 in E2.
    rewrite E2. cbn [bind_opt].
    rewrite !zlen_cons, zlen_app, zlen_be_bytes. do 2 f_equal. lia.
  - pose proof (read_items_ok _ _ vs bs k (J_ARRAY :: be_bytes 4 (zlen vs)) []
      Hel Hk) as E2.
    rewrite app_nil_r, zlen_cons, zlen_be_bytes in E2. cbn [app] in E2.
    change (1 + Z.of_nat 4) with 5 in E2.
    cbn [deserialize_f json_deserialize_f].
    rewrite Z.eqb_refl. change (J_ARRAY =? J_NULL) with false. cbn iota.
    rewrite Z.eqb_refl, E by (done || lia). rewrite E2. cbn [bind_opt].
    rewrite zlen_cons, zlen_app, zlen_be_bytes.
    replace (5 + zlen (concat bs)) with (1 + (Z.of_nat 4 + zlen (concat bs))) by lia.
    by rewrite Z.eqb_refl.
Qed.

Lemma json_object_ok k m bs :
  fits_u32 m = true → NoDup m.*1 →
  Forall2 (entry_ok (sized_value_f k) (deserialize_f k)) m bs → (length m ≤ k)%nat →
  ok_at (S (S k)) TJson (VJson (JObject m))
    (TAG_JSON :: J_OBJECT :: be_bytes 4 (zlen m) ++ concat bs).
Proof.
  intros Hfit Hnd Hel Hk. unfold fits_u32 in Hfit. pose proof (zlen_nonneg m).
  pose proof (λ rest, be_at_count [J_OBJECT] (zlen m) rest 1) as E. cbn [app] in E.
  split; [intros rest|].
  - pose proof (size_entries_ok _ _ m bs k (J_OBJECT :: be_bytes 4 (zlen m)) rest
      Hel Hk) as E2.
    rewrite zlen_cons, zlen_be_bytes in E2. cbn [app] in E2.
    rewrite <- !app_comm_cons, <- app_assoc. cbn [sized_value_f json_byte_size_f].
    rewrite Z.eqb_refl. change (J_OBJECT =? J_NULL) with false.
    change (J_OBJECT =? J_ARRAY) with false. cbn iota.
    rewrite Z.eqb_refl, E by (done || lia). change (1 + Z.of_nat 4) with 5 in E2.
    rewrite E2. cbn [bind_opt].
    rewrite !zlen_cons, zlen_app, zlen_be_bytes. do 2 f_equal. lia.
  - pose proof (read_entries_ok _ _ m bs k (J_OBJECT :: be_bytes 4 (zlen m)) [] []
      Hel Hk Hnd) as E2.
    rewrite app_nil_r, zlen_cons, zlen_be_bytes in E2. cbn [app] in E2.
    change (1 + Z.of_nat 4) with 5 in E2.
    cbn [deserialize_f json_deserialize_f].
    rewrite Z.eqb_refl. change (J_OBJECT =? J_NULL) with false.
    change (J_OBJECT =? J_ARRAY) with false. cbn iota.
    rewrite Z.eqb_refl, E by (done || lia). rewrite E2. cbn [bind_opt].
    rewrite zlen_cons, zlen_app, zlen_be_bytes.
    replace (5 + zlen (concat bs)) with (1 + (Z.of_nat 4 + zlen (concat bs))) by lia.
    by rewrite Z.eqb_refl.
Qed.

(** *** Every storable value *)

Lemma struct_zip (fs : list (bytes * Value)) (tys : list (bytes * Ty)) :
  Forall2 (λ p q, bool_decide (p.1 = q.1) && storable p.2 q.2 = true) fs tys →
  fs = zip tys.*1 fs.*2 ∧ Forall2 (λ v ty, storable v ty = true) fs.*2 tys.*2.
Proof.
  induction 1 as [|[n v] [n' ty] fs tys Hp Hf [IH1 IH2]]; [done|].
  simpl in *. apply andb_prop in Hp as [Hn Hv]. apply bool_decide_eq_true in Hn as ->.
  split; [by f_equal|by constructor].
Qed.

Lemma codec_ok fuel v ty b :
  storable v ty = true → serialize v = Ok b → (length b < fuel)%nat → ok_at fuel ty v b.
Proof.
  revert v ty b. induction fuel as [fuel IH] using lt_wf_ind. intros v ty b Hv Hb Hlen.
  pose proof (serialize_nonempty v ty b Hv Hb) as Hne.
  destruct fuel as [|[|k]]; [lia|destruct b; [done|simpl in Hlen; lia]|].
  assert (IHS : ∀ v ty b, storable v ty = true → serialize v = Ok b →
    (length b < S k)%nat → ok_at (S k) ty v b) by (intros; apply IH; [lia|done..]).
  assert (IHk : ∀ v ty b, storable v ty = true → serialize v = Ok b →
    (length b < k)%nat → ok_at k ty v b) by (intros; apply IH; [lia|done..]).
  clear IH. destruct (flat v) eqn:Hf; [by apply flat_ok|].
  destruct v as [| | | | | | | | | | | | |elems|elems|pairs|name fs|elems|en variant pl| | | |j| | | |];
    try done; cbn [serialize] in Hb.
  - destruct ty as [| | | | | | | | | | | | |t| | | | | | | | | | | | |]; try done.
    cbn [storable] in Hv. apply andb_prop in Hv as [Hfit Hel].
    apply forallb_Forall in Hel.
    destruct (mapM_out serialize elems) as [bs|e| |] eqn:Hbs; try done.
    apply Ok_inj in Hb. subst b. apply mapM_out_Forall2 in Hbs.
    cbn [length] in Hlen. rewrite length_app, length_be_bytes in Hlen.
    destruct (elems_ok (S k) t elems bs) as [Hok Hle]; [eauto..|lia|].
    apply array_ok; [done..|lia].
  - destruct (mapM_out _ fs) as [bs|e| |] eqn:Hbs; try done.
    apply Ok_inj in Hb. subst b. apply mapM_out_Forall2 in Hbs.
    cbn [length] in Hlen.
    assert (∃ tys, Forall2 (λ p q, bool_decide (p.1 = q.1) && storable p.2 q.2 = true) fs tys
      ∧ ((∃ g, ty = TStruct name tys g) ∨ (∃ o, ty = TCap name tys o)))
      as (tys & Hfs & Hty).
    { destruct ty; try done; cbn [storable] in Hv;
        apply andb_prop in Hv as [->%bool_decide_eq_true Hv];
        apply forallb2_Forall2 in Hv; eauto. }
    destruct (struct_zip fs tys Hfs) as [Ezip Hst].
    rewrite Ezip. apply fields_ok; [done|]. apply typed_ok; [eauto|done| |lia].
    by apply Forall2_fmap_l.
  - destruct ty as [| | | | | | | | | | | | | | | | | | | | | | | |en' variants| |]; try done.
    cbn [storable] in Hv. apply andb_prop in Hv as [[->%bool_decide_eq_true Hs]%andb_prop Hv].
    destruct (find_variant variants variant) as [tys|] eqn:Hfind; [|done].
    apply forallb2_Forall2 in Hv.
    destruct (mapM_out serialize pl) as [bs|e| |] eqn:Hbs; try done.
    apply Ok_inj in Hb. subst b. apply mapM_out_Forall2 in Hbs.
    cbn [length] in Hlen. rewrite length_app in Hlen.
    apply enum_ok with (tys := tys); [done..|]. apply typed_ok; [eauto|done..|lia].
  - destruct ty; try done. cbn [storable] in Hv. destruct j as [|items|m].
    + apply Ok_inj in Hb. subst b. by split.
    + cbn [json_serialize] in Hb. cbn [json_storable] in Hv.
      apply andb_prop in Hv as [Hfit Hel]. apply forallb_Forall in Hel.
      destruct (mapM_out serialize items) as [bs|e| |] eqn:Hbs; try done.
      apply Ok_inj in Hb. subst b. apply mapM_out_Forall2 in Hbs.
      cbn [length] in Hlen. rewrite length_app, length_be_bytes in Hlen.
      destruct (elems_ok k TJson items bs) as [Hok Hle]; [eauto..|lia|].
      apply json_array_ok; [done..|lia].
    + rewrite json_serialize_object in Hb. cbn [json_storable] in Hv.
      apply andb_prop in Hv as [[Hfit Hnd%bool_decide_eq_true]%andb_prop Hel].
      apply forallb_Forall in Hel.
      destruct (mapM_out json_entry m) as [bs|e| |] eqn:Hbs; try done.
      apply Ok_inj in Hb. subst b. apply mapM_out_Forall2 in Hbs.
      cbn [length] in Hlen. rewrite length_app, length_be_bytes in Hlen.
      destruct (entries_ok k m bs) as [Hok Hle]; [eauto..|lia|].
      apply json_object_ok; [done..|lia].
Qed.

Lemma serialize_ser v ty : storable v ty = true → serialize v = Ok (ser v).
Proof. intros Hv. destruct (serialize_total v ty Hv) as [b Hb]. unfold ser. by rewrite Hb. Qed.

Lemma deserialize_explicit fuel bs ty :
  deserialize_f (explicit_depth ty + fuel) bs ty = deserialize_f fuel bs (unwrap_explicit ty).
Proof. by induction ty. Qed.

Lemma deserialize_ser v ty :
  storable v (unwrap_explicit ty) = true → deserialize (ser v) ty = Ok (Some v).
Proof.
  intros Hv. pose proof (serialize_ser v _ Hv) as Hb. unfold deserialize, codec_fuel.
  replace (length (ser v) + explicit_depth ty + 3)%nat
    with (explicit_depth ty + (length (ser v) + 3))%nat by lia.
  rewrite deserialize_explicit. by apply codec_ok; [done..|lia].
Qed.

Lemma sized_value_ser v ty rest :
  storable v ty = true → sized_value (ser v ++ rest) ty = Ok (Some (zlen (ser v))).
Proof.
  intros Hv. pose proof (serialize_ser v _ Hv) as Hb. unfold sized_value, codec_fuel.
  apply (codec_ok _ v ty); [done..|]. rewrite length_app. lia.
Qed.

(** Distinct storable values of one type have distinct encodings. *)
Lemma ser_inj v w ty :
  storable v ty = true → storable w ty = true → ser v = ser w → v = w.
Proof.
  intros Hv Hw E.
  assert (∀ x fuel, storable x ty = true → (length (ser x) < fuel)%nat →
    deserialize_f fuel (ser x) ty = Ok (Some x)) as D.
  { intros x fuel Hx Hl. apply (codec_ok fuel x ty); [done| |done]. by eapply serialize_ser. }
  pose proof (D v _ Hv (Nat.lt_succ_diag_r _)) as Dv. rewrite E in Dv.
  rewrite D in Dv by (done || lia). congruence.
Qed.
End roundtrip.

(** ** The decoder answers on every byte string

    No input, well formed or not, exhausts the fuel: every level consumes at
    least one byte. *)
Definition answers {A} (o : outcome A) : Prop := o ≠ OutOfFuel.

Lemma answers_bind_opt {A B} (m : outcome (option A)) (k : A → outcome (option B)) :
  answers m → (∀ a, m = Ok (Some a) → answers (k a)) → answers (bind_opt m k).
Proof. unfold answers. destruct m as [[a|]|e| |]; simpl; eauto; done. Qed.

Lemma answers_opt {A B} (o : option A) (k : A → outcome (option B)) :
  (∀ a, o = Some a → answers (k a)) →
  answers (match o with Some a => k a | None => Ok None end).
Proof. destruct o; [eauto|done]. Qed.

Lemma answers_if {A} (b : bool) (x y : outcome A) :
  answers x → answers y → answers (if b then x else y).
Proof. by destruct b. Qed.

(** Break a decoder into its steps. *)
Ltac answer_step := first
  [ done
  | apply answers_if
  | apply answers_bind_opt; [|intros ? ?]
  | apply answers_opt; intros ? ? ].

Definition is_bytes (bs : bytes) : bool := forallb is_byte bs.

Lemma is_bytes_drop n bs : is_bytes bs = true → is_bytes (drop n bs) = true.
Proof. intros H. apply forallb_Forall in H. apply forallb_Forall. by apply Forall_drop. Qed.
Lemma is_bytes_take n bs : is_bytes bs = true → is_bytes (take n bs) = true.
Proof. intros H. apply forallb_Forall in H. apply forallb_Forall. by apply Forall_take. Qed.

Lemma get_from_drop bs i r : get_from bs i = Some r →
  r = drop (Z.to_nat i) bs ∧ 0 <= i <= zlen bs.
Proof. unfold get_from. destruct (_ && _) eqn:E; [|done]. intros [= <-]. split; [done|lia]. Qed.

Lemma get_range_take bs i n r : get_range bs i n = Some r →
  r = take (Z.to_nat n) (drop (Z.to_nat i) bs) ∧ 0 <= i ∧ 0 <= n ∧ i + n <= zlen bs.
Proof. unfold get_range. destruct (_ && _ && _) eqn:E; [|done]. intros [= <-]. split; [done|lia]. Qed.

Lemma be_value_nonneg bs : is_bytes bs = true → 0 <= be_value bs.
Proof.
  induction bs as [|b bs IH]; [done|]. unfold is_bytes. cbn [forallb].
  intros [Hb Hbs]%andb_prop. rewrite be_value_cons by done. unfold is_byte in Hb.
  pose proof (Z.pow_nonneg 2 (8 * zlen bs)). specialize (IH Hbs). nia.
Qed.

Lemma be_at_nonneg bs i k n : is_bytes bs = true → be_at bs i k = Some n → 0 <= n.
Proof.
  intros Hb. unfold be_at. destruct (get_range bs i _) as [r|] eqn:E; [|done].
  simpl. intros [= <-]. apply be_value_nonneg.
  apply get_range_take in E as [-> _]. by apply is_bytes_take, is_bytes_drop.
Qed.

Section answers_loops.
Context (size : bytes → Ty → outcome (option Z)).
Context (des : bytes → Ty → outcome (option Value)).

Definition size_pos : Prop := ∀ bs ty n,
  is_bytes bs = true → size bs ty = Ok (Some n) → 1 <= n.
Definition size_answers (l : Z) : Prop := ∀ bs ty,
  is_bytes bs = true → zlen bs < l → answers (size bs ty).
Context (Hpos : size_pos).

Lemma get_from_is_bytes bs i r :
  is_bytes bs = true → get_from bs i = Some r → is_bytes r = true.
Proof. intros Hb [-> _]%get_from_drop. by apply is_bytes_drop. Qed.

Lemma get_from_zlen bs i r : get_from bs i = Some r → zlen r = zlen bs - i.
Proof. intros [-> Hi]%get_from_drop. unfold zlen in *. rewrite length_drop. lia. Qed.

Lemma size_n_pos k ty n bs total m :
  is_bytes bs = true → size_n size k ty n bs total = Ok (Some m) → total <= m.
Proof.
  intros Hb. revert n total. induction k as [|k IH]; intros n total; cbn [size_n];
    destruct (n <=? 0); [intros [= ->]; lia|done|intros [= ->]; lia|].
  destruct (get_from bs total) as [r|] eqn:Er; [|done].
  destruct (size r ty) as [[i|]|e| |] eqn:Es; try done. cbn [bind_opt].
  intros H%IH. apply Hpos in Es; [lia|]. eauto using get_from_is_bytes.
Qed.

Lemma size_tys_pos tys bs total m :
  is_bytes bs = true → size_tys size tys bs total = Ok (Some m) → total <= m.
Proof.
  intros Hb. revert total. induction tys as [|ty tys IH]; intros total; cbn [size_tys];
    [intros [= ->]; lia|].
  destruct (get_from bs total) as [r|] eqn:Er; [|done].
  destruct (size r ty) as [[i|]|e| |] eqn:Es; try done. cbn [bind_opt].
  intros H%IH. apply Hpos in Es; [lia|]. eauto using get_from_is_bytes.
Qed.

Lemma size_entries_pos k n bs total m :
  is_bytes bs = true → size_entries size k n bs total = Ok (Some m) → total <= m.
Proof.
  intros Hb. revert n total. induction k as [|k IH]; intros n total; cbn [size_entries];
    destruct (n <=? 0); [intros [= ->]; lia|done|intros [= ->]; lia|].
  destruct (be_at bs total 4) as [kl|] eqn:Ekl; [|done]. apply be_at_nonneg in Ekl; [|done].
  destruct (get_from bs _) as [r|] eqn:Er; [|done].
  destruct (size r TJson) as [[i|]|e| |] eqn:Es; try done. cbn [bind_opt].
  intros H%IH. apply Hpos in Es; [lia|]. eauto using get_from_is_bytes.
Qed.

(** Enough iterations for the bytes left at the cursor. *)
Definition iters (bs : bytes) (total : Z) (k : nat) : Prop :=
  0 < Z.of_nat k ∧ zlen bs - total + 1 < Z.of_nat k.

Lemma size_n_answers k ty n bs total :
  is_bytes bs = true → 1 <= total → size_answers (zlen bs) →
  iters bs total k → answers (size_n size k ty n bs total).
Proof.
  intros Hb Ht Ha. unfold iters. revert n total Ht.
  induction k as [|k IH]; intros n total Ht Hk; cbn [size_n]; [lia|].
  apply answers_if; [done|].
  apply answers_opt. intros r Er. pose proof (get_from_is_bytes _ _ _ Hb Er).
  pose proof (get_from_zlen _ _ _ Er). apply get_from_drop in Er as [_ ?].
  apply answers_bind_opt; [apply Ha; [done|lia]|]. intros i Hi.
  apply Hpos in Hi; [|done]. apply IH; lia.
Qed.

Lemma size_entries_answers k n bs total :
  is_bytes bs = true → 1 <= total → size_answers (zlen bs) →
  iters bs total k → answers (size_entries size k n bs total).
Proof.
  intros Hb Ht Ha. unfold iters. revert n total Ht.
  induction k as [|k IH]; intros n total Ht Hk; cbn [size_entries]; [lia|].
  apply answers_if; [done|].
  apply answers_opt. intros kl Ekl%be_at_nonneg; [|done].
  apply answers_opt. intros r Er. pose proof (get_from_is_bytes _ _ _ Hb Er).
  pose proof (get_from_zlen _ _ _ Er). apply get_from_drop in Er as [_ ?].
  apply answers_bind_opt; [apply Ha; [done|lia]|]. intros i Hi.
  apply Hpos in Hi; [|done]. apply IH; lia.
Qed.

Lemma size_tys_answers tys bs total :
  is_bytes bs = true → 1 <= total → size_answers (zlen bs) →
  answers (size_tys size tys bs total).
Proof.
  intros Hb Ht Ha. revert total Ht. induction tys as [|ty tys IH]; intros total Ht;
    cbn [size_tys]; [done|].
  apply answers_opt. intros r Er. pose proof (get_from_is_bytes _ _ _ Hb Er).
  pose proof (get_from_zlen _ _ _ Er). apply get_from_drop in Er as [_ ?].
  apply answers_bind_opt; [apply Ha; [done|lia]|]. intros i Hi.
  apply Hpos in Hi; [|done]. apply IH; lia.
Qed.

(** [des] answers below a length, at a type [size] accepts. *)
Definition des_answers (l : Z) : Prop := ∀ bs ty,
  is_bytes bs = true → zlen bs < l → explicit_depth ty = 0%nat → answers (des bs ty).
Context (Hexplicit : ∀ bs ty n, size bs ty = Ok (Some n) → explicit_depth ty = 0%nat).

(** One decoded element: at the cursor [c] of [rest], below the bound. *)
Lemma decode_one_answers ty rest c l :
  is_bytes rest = true → 0 <= c → zlen rest < l → size_answers l → des_answers l →
  answers (decode_one size des ty rest c) ∧
  ∀ v c', decode_one size des ty rest c = Ok (Some (v, c')) → c < c' <= zlen rest.
Proof.
  intros Hb Hc Hl Ha Hd. unfold decode_one.
  destruct (get_from rest c) as [r|] eqn:Er; [|done].
  pose proof (get_from_is_bytes _ _ _ Hb Er) as Hr.
  pose proof (get_from_zlen _ _ _ Er). apply get_from_drop in Er as [_ ?].
  destruct (size r ty) as [[n|]|e| |] eqn:Es; try done; cbn [bind_opt].
  2: { exfalso. apply (Ha r ty); [done|lia|done]. }
  pose proof (Hpos _ _ _ Hr Es). unfold slice_to.
  destruct (Z.leb_spec n (zlen r)) as [Hn|]; [|done]. cbn [mbind outcome_bind].
  split; [apply answers_bind_opt; [|done]|].
  - apply Hd; [by apply is_bytes_take| |eauto].
    unfold zlen in *. rewrite length_take. lia.
  - intros v c'. destruct (des _ ty) as [[x|]|e| |]; try done. intros [= <- <-]. lia.
Qed.

Lemma decode_n_answers k ty n rest c l :
  is_bytes rest = true → 0 <= c <= zlen rest → zlen rest < l →
  size_answers l → des_answers l →
  zlen rest - c < Z.of_nat k → answers (decode_n size des k ty n rest c).
Proof.
  intros Hb Hc Hl Ha Hd. revert n c Hc.
  induction k as [|k IH]; intros n c Hc Hk; cbn [decode_n]; [lia|].
  apply answers_if; [done|].
  destruct (decode_one_answers ty rest c l) as [H1 H2]; [done|lia|done..|].
  apply answers_bind_opt; [done|]. intros [v c'] Hv%H2. cbn iota.
  apply answers_bind_opt; [|done]. apply IH; lia.
Qed.

Lemma decode_tys_answers tys rest c l :
  is_bytes rest = true → 0 <= c → zlen rest < l → size_answers l → des_answers l →
  answers (decode_tys size des tys rest c).
Proof.
  intros Hb Hc Hl Ha Hd. revert c Hc.
  induction tys as [|ty tys IH]; intros c Hc; cbn [decode_tys]; [done|].
  destruct (decode_one_answers ty rest c l) as [H1 H2]; [done|lia|done..|].
  apply answers_bind_opt; [done|]. intros [v c'] Hv%H2. cbn iota.
  apply answers_bind_opt; [|done]. apply IH; lia.
Qed.

Lemma read_item_answers bs pos :
  is_bytes bs = true → 1 <= pos → size_answers (zlen bs) → des_answers (zlen bs) →
  answers (read_item size des bs pos) ∧
  ∀ v pos', read_item size des bs pos = Ok (Some (v, pos')) → pos < pos' <= zlen bs.
Proof.
  intros Hb Hp Ha Hd. unfold read_item.
  destruct (get_from bs pos) as [r|] eqn:Er; [|done].
  pose proof (get_from_is_bytes _ _ _ Hb Er) as Hr.
  pose proof (get_from_zlen _ _ _ Er). apply get_from_drop in Er as [_ ?].
  destruct (size r TJson) as [[n|]|e| |] eqn:Es; try done; cbn [bind_opt].
  2: { exfalso. apply (Ha r TJson); [done|lia|done]. }
  pose proof (Hpos _ _ _ Hr Es).
  destruct (get_range bs pos n) as [b|] eqn:Eb; [|done].
  pose proof (get_range_length _ _ _ _ Eb).
  apply get_range_take in Eb as [Eb Hrange].
  split; [apply answers_bind_opt; [|done]|].
  - apply Hd; [|lia|done]. subst b. by apply is_bytes_take, is_bytes_drop.
  - intros v pos'. destruct (des b TJson) as [[x|]|e| |]; try done. intros [= <- <-]. lia.
Qed.

Lemma read_items_answers k n bs pos :
  is_bytes bs = true → 1 <= pos → size_answers (zlen bs) → des_answers (zlen bs) →
  iters bs pos k → answers (read_items size des k n bs pos).
Proof.
  intros Hb Hp Ha Hd. unfold iters. revert n pos Hp.
  induction k as [|k IH]; intros n pos Hp Hk; cbn [read_items]; [lia|].
  apply answers_if; [done|].
  destruct (read_item_answers bs pos) as [H1 H2]; [done..|].
  apply answers_bind_opt; [done|]. intros [v pos'] Hv%H2. cbn iota.
  apply answers_bind_opt; [apply IH; lia|]. by intros [].
Qed.

Lemma read_entries_answers k n bs pos m :
  is_bytes bs = true → 1 <= pos → size_answers (zlen bs) → des_answers (zlen bs) →
  iters bs pos k → answers (read_entries size des k n bs pos m).
Proof.
  intros Hb Hp Ha Hd. unfold iters. revert n pos m Hp.
  induction k as [|k IH]; intros n pos m Hp Hk; cbn [read_entries]; [lia|].
  apply answers_if; [done|].
  apply answers_opt. intros kl Ekl%be_at_nonneg; [|done].
  apply answers_opt. intros kb _. apply answers_opt. intros key _.
  destruct (read_item_answers bs (pos + 4 + kl)) as [H1 H2]; [done|lia|done..|].
  apply answers_bind_opt; [done|]. intros [v pos'] Hv%H2. cbn iota. apply IH; lia.
Qed.
End answers_loops.

Section answers.
Context `{BigIntCodec}.

Lemma sized_value_pos fuel bs ty n :
  is_bytes bs = true → sized_value_f fuel bs ty = Ok (Some n) → 1 <= n
with json_byte_size_pos fuel bs n :
  is_bytes bs = true → json_byte_size_f fuel bs = Ok (Some n) → 1 <= n.
Proof.
  - destruct fuel as [|k]; [done|]. destruct bs as [|tag rest]; [done|]. intros Hb.
    assert (Hk : size_pos (sized_value_f k)) by (intros ???; apply sized_value_pos).
    assert (Hrest : is_bytes rest = true) by (by apply andb_prop in Hb as [_ ?]).
    destruct ty; cbn [sized_value_f]; try done;
      repeat case_match; try done; intros E; try (injection E as <-);
      repeat match goal with
        | H : be_at _ _ _ = Some _ |- _ => apply be_at_nonneg in H; [|done]
        end; try lia;
      try (apply size_n_pos in E; [lia|done..]);
      try (apply size_tys_pos in E; [lia|done..]);
      try (eapply sized_value_pos; [|exact E]; done).
    destruct (json_byte_size_f k rest) as [[m|]|e| |] eqn:Em; try done.
    injection E as <-. apply json_byte_size_pos in Em; [lia|done].
  - destruct fuel as [|k]; [done|]. destruct bs as [|tag rest]; [done|]. intros Hb.
    assert (Hk : size_pos (sized_value_f k)) by (intros ???; apply sized_value_pos).
    cbn [json_byte_size_f]. repeat case_match; try done; intros E;
      try (injection E as <-); try lia;
      try (apply size_n_pos in E; [lia|done..]);
      try (apply size_entries_pos in E; [lia|done..]).
Qed.

Lemma sized_value_explicit fuel bs ty n :
  sized_value_f fuel bs ty = Ok (Some n) → explicit_depth ty = 0%nat.
Proof. destruct fuel, bs; try done. by destruct ty. Qed.

Lemma sized_value_answers fuel bs ty :
  is_bytes bs = true → zlen bs + 2 <= Z.of_nat fuel → answers (sized_value_f fuel bs ty)
with json_byte_size_answers fuel bs :
  is_bytes bs = true → zlen bs + 2 <= Z.of_nat fuel → answers (json_byte_size_f fuel bs).
Proof.
  - pose proof (zlen_nonneg bs). intros Hb Hf.
    destruct fuel as [|k]; [lia|]. destruct bs as [|tag rest]; [done|].
    assert (Hrest : is_bytes rest = true) by (by apply andb_prop in Hb as [_ ?]).
    assert (Hp : size_pos (sized_value_f k)) by (intros ???; apply sized_value_pos).
    assert (Ha : size_answers (sized_value_f k) (zlen (tag :: rest))).
    { intros b t Hb' Hl. apply sized_value_answers; [done|lia]. }
    pose proof (zlen_nonneg rest). rewrite zlen_cons in *.
    assert (Hit : ∀ i, 2 <= i → iters (tag :: rest) i k).
    { intros i Hi. unfold iters. rewrite zlen_cons. lia. }
    rewrite <- (zlen_cons tag) in *.
    destruct ty; cbn [sized_value_f]; repeat answer_step.
    + apply size_n_answers; [done..|lia|done|by apply Hit].
    + apply json_byte_size_answers; [done|rewrite zlen_cons in *; lia].
    + destruct k; [rewrite zlen_cons in *; lia|]. cbn [sized_value_f]. repeat answer_step.
    + destruct k; [rewrite zlen_cons in *; lia|]. cbn [sized_value_f]. repeat answer_step.
    + destruct k; [rewrite zlen_cons in *; lia|]. cbn [sized_value_f]. repeat answer_step.
    + destruct k; [rewrite zlen_cons in *; lia|]. cbn [sized_value_f]. repeat answer_step.
    + destruct k; [rewrite zlen_cons in *; lia|]. cbn [sized_value_f]. repeat answer_step.
    + by apply size_tys_answers.
    + match goal with H : get_range _ _ _ = Some _ |- _ =>
        apply get_range_take in H as (_ & _ & ? & _) end.
      apply size_tys_answers; [done|done|lia|done].
    + by apply size_tys_answers.
  - pose proof (zlen_nonneg bs). intros Hb Hf.
    destruct fuel as [|k]; [lia|]. destruct bs as [|tag rest]; [done|].
    assert (Hp : size_pos (sized_value_f k)) by (intros ???; apply sized_value_pos).
    assert (Ha : size_answers (sized_value_f k) (zlen (tag :: rest))).
    { intros b t Hb' Hl. apply sized_value_answers; [done|lia]. }
    assert (Hit : iters (tag :: rest) 5 k) by (unfold iters; lia).
    cbn [json_byte_size_f]. repeat answer_step.
    + by apply size_n_answers.
    + by apply size_entries_answers.
Qed.

Lemma deserialize_answers_f fuel bs ty :
  is_bytes bs = true → zlen bs + Z.of_nat (explicit_depth ty) + 3 <= Z.of_nat fuel →
  answers (deserialize_f fuel bs ty)
with json_deserialize_answers fuel bs :
  is_bytes bs = true → zlen bs + 3 <= Z.of_nat fuel → answers (json_deserialize_f fuel bs).
Proof.
  - pose proof (zlen_nonneg bs). intros Hb Hf.
    destruct fuel as [|k]; [lia|].
    destruct (decide (explicit_depth ty = 0%nat)) as [Hd|Hd].
    2: { destruct ty; try done. cbn [explicit_depth deserialize_f] in *.
         apply deserialize_answers_f; [done|lia]. }
    destruct bs as [|tag rest]; [by destruct ty|].
    assert (Hrest : is_bytes rest = true) by (by apply andb_prop in Hb as [_ ?]).
    pose proof (zlen_nonneg rest). pose proof (zlen_cons tag rest).
    assert (Hp : size_pos (sized_value_f k)) by (intros ???; apply sized_value_pos).
    assert (He : ∀ bs ty n, sized_value_f k bs ty = Ok (Some n) → explicit_depth ty = 0%nat)
      by (intros ???; apply sized_value_explicit).
    assert (Ha : size_answers (sized_value_f k) (zlen (tag :: rest))).
    { intros b t Hb' Hl. apply sized_value_answers; [done|lia]. }
    assert (Hda : des_answers (deserialize_f k) (zlen (tag :: rest))).
    { intros b t Hb' Hl Ht. apply deserialize_answers_f; [done|lia]. }
    destruct ty; cbn [deserialize_f]; try done; repeat answer_step;
      try match goal with H : get_range _ _ _ = Some _ |- _ =>
        apply get_range_take in H as (_ & _ & ? & _) end;
      try (destruct k; [lia|]; done);
      try (eapply decode_tys_answers; eauto; lia).
    + eapply decode_n_answers; eauto; try lia.
      match goal with H : be_at _ _ _ = Some _ |- _ =>
        unfold be_at in H; destruct (get_range rest 0 _) as [r|] eqn:Er; [|done] end.
      apply get_range_take in Er as (_ & _ & _ & ?). lia.
    + apply json_deserialize_answers; [done|lia].
  - pose proof (zlen_nonneg bs). intros Hb Hf.
    destruct fuel as [|k]; [lia|]. destruct bs as [|tag rest]; [done|].
    assert (Hp : size_pos (sized_value_f k)) by (intros ???; apply sized_value_pos).
    assert (He : ∀ bs ty n, sized_value_f k bs ty = Ok (Some n) → explicit_depth ty = 0%nat)
      by (intros ???; apply sized_value_explicit).
    assert (Ha : size_answers (sized_value_f k) (zlen (tag :: rest))).
    { intros b t Hb' Hl. apply sized_value_answers; [done|lia]. }
    assert (Hda : des_answers (deserialize_f k) (zlen (tag :: rest))).
    { intros b t Hb' Hl Ht. apply deserialize_answers_f; [done|lia]. }
    assert (Hit : iters (tag :: rest) 5 k) by (unfold iters; lia).
    cbn [json_deserialize_f]. repeat answer_step; try by destruct_and?; case_match.
    + by apply read_items_answers.
    + by apply read_entries_answers.
Qed.
End answers.

(** ** Properties of the codec *)
Section properties.
Context `{Laws : BigIntCodecLaws}.

(** C2: a storable value is encoded without panic, and decoding the bytes at
    its type, explicit-literal tags on the type included, gives the value
    back. *)
Theorem codec_roundtrip v ty :
  storable v (unwrap_explicit ty) = true →
  ∃ bs, serialize v = Ok bs ∧ deserialize bs ty = Ok (Some v).
Proof.
  intros Hv. exists (ser v). split; [by eapply serialize_ser|by apply deserialize_ser].
Qed.

(** Encodings are self-delimiting: [sized_value] measures exactly the
    bytes of the value at the front of any byte string. *)
Theorem sized_value_frames v ty rest :
  storable v ty = true →
  ∃ bs, serialize v = Ok bs ∧ sized_value (bs ++ rest) ty = Ok (Some (zlen bs)).
Proof.
  intros Hv. exists (ser v). split; [by eapply serialize_ser|by apply sized_value_ser].
Qed.

(** The encoding is canonical: two storable values of one type with the
    same bytes are the same value. *)
Theorem serialize_injective v w ty bs :
  storable v ty = true → storable w ty = true →
  serialize v = Ok bs → serialize w = Ok bs → v = w.
Proof.
  intros Hv Hw Ev Ew. apply (ser_inj v w ty); [done..|]. unfold ser. by rewrite Ev, Ew.
Qed.
End properties.

(** C3: the decoder terminates on every byte string, well formed or not, at
    every type: the fuel of [deserialize] and [sized_value] is never
    exhausted. *)
Theorem decoder_total `{BigIntCodec} bs ty :
  is_bytes bs = true → deserialize bs ty ≠ OutOfFuel ∧ sized_value bs ty ≠ OutOfFuel.
Proof.
  intros Hb. unfold deserialize, sized_value, codec_fuel. split.
  - apply deserialize_answers_f; [done|]. unfold zlen. lia.
  - apply sized_value_answers; [done|]. unfold zlen. lia.
Qed.

(** The two ways decoding disagrees with encoding outside storable values:
    an element type tagged as an explicit literal is not sized, so an array of
    such elements does not round-trip; and a nested length running past the
    buffer panics instead of answering [None]. *)
Theorem codec_gaps `{BigIntCodec} n :
  (∃ bs, serialize (VArray [VU64 n]) = Ok bs ∧
         deserialize bs (TArray (TExplicitLiteral TU64)) = Ok None) ∧
  deserialize (TAG_ARRAY :: be_bytes 4 1 ++ TAG_STRING :: be_bytes 4 100) (TArray TString)
    = Panic.
Proof.
  split; [|reflexivity]. eexists. split; [reflexivity|]. reflexivity.
Qed.

(** *** Witnesses *)
#[local] Existing Instance TwosComplement.codec.
#[local] Existing Instance TwosComplement.laws.

(** A record with a nested enum, a json object and a byte string. *)
Definition sample_ty : Ty :=
  TStruct [97] [([98], TEnum [69] [([65], []); ([66], [TInt; TString])]);
                ([99], TJson); ([100], TArray TBytes)] [None; None; None].
Definition sample_value : Value :=
  VStruct [97] [([98], VEnum [69] [66] [VInt (-300); VStr [104; 105]]);
                ([99], VJson (JObject [([107], VInt 7); ([108], VJson (JArray [VBool true]))]));
                ([100], VArray [VBytes [0; 255]; VBytes []])].

Lemma codec_roundtrip_witness :
  storable sample_value (unwrap_explicit (TExplicitLiteral sample_ty)) = true ∧
  ∃ bs, serialize sample_value = Ok bs ∧
        deserialize bs (TExplicitLiteral sample_ty) = Ok (Some sample_value).
Proof.
  assert (H : storable sample_value (unwrap_explicit (TExplicitLiteral sample_ty)) = true)
    by (vm_compute; reflexivity).
  split; [exact H|]. exact (codec_roundtrip sample_value (TExplicitLiteral sample_ty) H).
Defined.

Lemma sized_value_frames_witness :
  storable sample_value sample_ty = true ∧
  ∃ bs, serialize sample_value = Ok bs ∧
        sized_value (bs ++ [1; 2; 3]) sample_ty = Ok (Some (zlen bs)).
Proof.
  assert (H : storable sample_value sample_ty = true) by (vm_compute; reflexivity).
  split; [exact H|]. exact (sized_value_frames sample_value sample_ty [1; 2; 3] H).
Defined.

Lemma serialize_injective_witness :
  serialize (VInt 5) = Ok (ser (VInt 5)) ∧ VInt 5 = VInt 5.
Proof.
  assert (H : serialize (VInt 5) = Ok (ser (VInt 5))) by (vm_compute; reflexivity).
  split; [exact H|].
  exact (serialize_injective (VInt 5) (VInt 5) TInt (ser (VInt 5)) eq_refl eq_refl H H).
Defined.

Lemma decoder_total_witness :
  is_bytes [7; 0; 0] = true ∧
  (deserialize [7; 0; 0] (TArray TInt) ≠ OutOfFuel ∧
   sized_value [7; 0; 0] (TArray TInt) ≠ OutOfFuel).
Proof. split; [reflexivity|]. exact (decoder_total [7; 0; 0] (TArray TInt) eq_refl). Defined.
