(* ===== verification/Kv.v ===== *)
(** The pluggable key-value backend ([crates/rend/src/kv.rs]): the [Kv]
    trait as a class with its defaults and laws, [InMemoryKv], [EmptyKv], and
    the commit path [apply_writes]. *)
From S2P Require Import Prelude Bytes Values Serialize.

(** ** The read side

    [&dyn Kv]: the two read methods of the trait object. *)
Record Kv := mkKv {
  kv_get : Z → option bytes;
  kv_get_many : list Z → list (option bytes);
}.

(** The trait's default [get_many]: N independent [get]s. *)
Definition default_get_many (get : Z → option bytes) (keys : list Z) : list (option bytes) :=
  get <$> keys.

(** A backend that overrides [get_many] promises the answers of the default. *)
Definition kv_ok (kv : Kv) : Prop :=
  ∀ keys, kv_get_many kv keys = default_get_many (kv_get kv) keys.

(** A backend that implements [get] only. *)
Definition kv_of_get (get : Z → option bytes) : Kv := mkKv get (default_get_many get).

(** ** The write side *)
Class KvStore (K : Type) := {
  store_get : K → Z → option bytes;
  put : K → Z → bytes → K;
  put_many : K → list (Z * bytes) → K;
}.

(** The trait's default [put_many]. *)
Definition default_put_many {K} (put1 : K → Z → bytes → K) (kv : K)
    (writes : list (Z * bytes)) : K :=
  foldl (λ kv '(k, v), put1 kv k v) kv writes.

(** What the runtime relies on: [put] is visible to [get] and to nothing else,
    [put_many] is [put] in order. *)
Class KvStoreLaws K `{KvStore K} := {
  get_put kv k v k' : store_get (put kv k v) k' = if decide (k = k') then Some v else store_get kv k';
  put_many_default kv ws : put_many kv ws = default_put_many put kv ws;
}.

(** [&store as &dyn Kv]. *)
Definition as_kv {K} `{KvStore K} (kv : K) : Kv := kv_of_get (store_get kv).

Section apply_writes.
Context `{BigIntCodec} {K : Type} `{KvStore K}.

(** [Kv::apply_writes]: every value is serialized once, then one [put_many].
    The iteration order of the [HashMap] is that of its entries. *)
Definition apply_writes (kv : K) (writes : gmap Z Value) : outcome K :=
  if decide (writes = ∅) then Ok kv else
  bs ← mapM_out (λ '(k, v), b ← serialize v; Ok (k, b)) (map_to_list writes);
  Ok (put_many kv bs).
End apply_writes.

(** ** [InMemoryKv] *)
Definition InMemoryKv : Type := gmap Z bytes.

#[export] Instance InMemoryKv_store : KvStore InMemoryKv := {|
  store_get kv k := kv !! k;
  put kv k v := <[k := v]> kv;
  put_many kv writes := foldl (λ kv '(k, v), <[k := v]> kv) kv writes;
|}.

(** [InMemoryKv::put_raw]. *)
Definition put_raw (kv : InMemoryKv) (key : Z) (bs : bytes) : InMemoryKv := <[key := bs]> kv.

Section InMemoryKv.
Context `{BigIntCodec}.

(** [InMemoryKv::put_value]. *)
Definition put_value (kv : InMemoryKv) (key : Z) (value : Value) : outcome InMemoryKv :=
  bs ← serialize value; Ok (<[key := bs]> kv).

(** [InMemoryKv::get_typed]. *)
Definition get_typed (kv : InMemoryKv) (key : Z) (ty : Ty) : outcome (option Value) :=
  match kv !! key with
  | Some bs => deserialize bs ty
  | None => Ok None
  end.

(** [InMemoryKv::apply]. *)
Definition apply (kv : InMemoryKv) (writes : gmap Z Value) : outcome InMemoryKv :=
  apply_writes kv writes.
End InMemoryKv.

(** ** [EmptyKv]: misses every key, drops every write. *)
Inductive EmptyKv := mkEmptyKv.

#[export] Instance EmptyKv_store : KvStore EmptyKv := {|
  store_get _ _ := None;
  put kv _ _ := kv;
  put_many kv writes := default_put_many (λ kv _ _, kv) kv writes;
|}.

(** ** Facts *)

#[export] Instance InMemoryKv_laws : KvStoreLaws InMemoryKv.
Proof.
  split; [|done]. intros kv k v k'. cbn. destruct (decide (k = k')) as [->|Hne].
  - apply lookup_insert_eq.
  - by apply lookup_insert_ne.
Qed.

Lemma as_kv_ok {K} `{KvStore K} (kv : K) : kv_ok (as_kv kv).
Proof. done. Qed.
#[export] Hint Resolve as_kv_ok : rend.

Section store_facts.
Context `{KvStoreLaws K}.

Lemma get_put_many_notin (kv : K) ws k :
  k ∉ ws.*1 → store_get (default_put_many put kv ws) k = store_get kv k.
Proof.
  unfold default_put_many. revert kv. induction ws as [|[k' v] ws IH]; intros kv Hk; simpl; [done|].
  cbn in Hk. apply not_elem_of_cons in Hk as [Hk1 Hk2].
  rewrite IH by done. rewrite get_put. by rewrite decide_False by congruence.
Qed.

Lemma get_put_many_in (kv : K) ws k v :
  NoDup ws.*1 → (k, v) ∈ ws → store_get (default_put_many put kv ws) k = Some v.
Proof.
  unfold default_put_many. revert kv. induction ws as [|[k' v'] ws IH]; intros kv Hnd Hin; simpl.
  - by inversion Hin.
  - simpl in Hnd. apply NoDup_cons in Hnd as [Hn Hnd].
    apply elem_of_cons in Hin as [[= -> ->]|Hin]; [|by apply IH].
    change (store_get (default_put_many put (put kv k' v') ws) k' = Some v').
    rewrite get_put_many_notin by done. rewrite get_put. by rewrite decide_True.
Qed.
End store_facts.

(** What committing a write set does to every cell. *)
Definition overlay_get (f : Value → bytes) (ws : gmap Z Value) (get : Z → option bytes)
    (k : Z) : option bytes :=
  match ws !! k with Some v => Some (f v) | None => get k end.

Lemma apply_writes_ok `{BigIntCodec} `{KvStoreLaws K} (f : Value → bytes) (kv : K) ws :
  map_Forall (λ _ v, serialize v = Ok (f v)) ws →
  ∃ kv', apply_writes kv ws = Ok kv' ∧
    ∀ k, store_get kv' k = overlay_get f ws (store_get kv) k.
Proof.
  intros Hser. unfold apply_writes, overlay_get.
  destruct (decide (ws = ∅)) as [->|_]; [exists kv; split; [done|]; intros k; by rewrite lookup_empty|].
  rewrite (mapM_out_ok _ (λ '(k, v), (k, f v))).
  2: { intros [k v] Hin%elem_of_map_to_list. by rewrite (Hser k v Hin). }
  cbn. eexists. split; [done|]. intros k. rewrite put_many_default.
  assert (E : ((λ '(k, v), (k, f v)) <$> map_to_list ws).*1 = (map_to_list ws).*1).
  { rewrite <- list_fmap_compose. apply list_fmap_ext. by intros ? []. }
  destruct (ws !! k) as [v|] eqn:Hk.
  - apply get_put_many_in; [rewrite E; apply NoDup_fst_map_to_list|].
    apply list_elem_of_fmap. exists (k, v). split; [done|]. by apply elem_of_map_to_list.
  - apply get_put_many_notin. rewrite E. intros [[k' v] [-> Hin]]%list_elem_of_fmap.
    apply elem_of_map_to_list in Hin. simpl in Hk. congruence.
Qed.
