(* ===== verification/Merkle.v ===== *)
(** Content-addressed trees over a transaction.

    [pmap], [pvec] and [pbtree] keep every tree node in its own cell, keyed by
    the hash of the node's bytes, and touch the store only through four
    operations of [Tx].  This file states what they rely on as an interface
    ([TxOps], [TxLaws]), defines the [read_node] / [write_node] pair the three
    modules share, and develops the theory once for all of them: the tree a
    root hash denotes ([mtree], [thash]), when it is stored, and a
    total-correctness logic ([returns]) in which every operation extends the
    store without disturbing the trees already in it. *)
From S2P Require Import Prelude Bytes Hashing Values Serialize Kv.
#[local] Set Warnings "-register-all".

(** ** The interface of a transaction *)
Class TxOps (S : Type) := {
  read_cell : Z → Ty → SM S Value;
  force : Value → SM S Value;
  write : Z → Value → SM S unit;
  record_node_cell_write : Z → SM S unit;
}.

(** [view s k] is what a read of cell [k] at type [bytes] observes; [ready s]
    is the transaction's own invariant. *)
Class TxLaws (S : Type) `{TxOps S} := {
  ready : S → Prop;
  view : S → Z → Value;
  read_law s k : ready s → ∃ s',
    (v ← read_cell k TBytes; force v) s = (Ok (view s k), s') ∧
    ready s' ∧ ∀ k', view s' k' = view s k';
  write_law s k b : ready s → ∃ s',
    write k (VBytes b) s = (Ok tt, s') ∧
    ready s' ∧ ∀ k', view s' k' = if decide (k = k') then VBytes b else view s k';
  record_law s k : ready s → ∃ s',
    record_node_cell_write k s = (Ok tt, s') ∧
    ready s' ∧ ∀ k', view s' k' = view s k';
}.

(** ** Node cells *)
Section nodes.
Context {S : Type} `{TxOps S} {L : Type}.

(** The [read_node] of [pmap.rs], [pvec.rs] and [pbtree.rs]: they differ in
    the node decoder only. *)
Definition read_node (dec : bytes → outcome (option (L * list Z))) (hash : Z) :
    SM S (option (L * list Z)) :=
  if hash =? EMPTY then mret None else
  v ← (v ← read_cell hash TBytes; force v);
  match v with
  | VBytes b => lift (dec b)
  | _ => mret None
  end.

(** The [write_node] of the three modules: they differ in the namespace. *)
Definition write_node (ns : Z) (bs : bytes) : SM S Z :=
  let hash := child ns bs in
  _ ← write hash (VBytes bs);
  _ ← record_node_cell_write hash;
  mret hash.
End nodes.

(** *** The same cells, read from a backend *)
Section kv_nodes.
Context `{BigIntCodec} {L : Type}.

(** The [read_node_kv] of [pmap.rs] and [pvec.rs]: the cell holds the node
    bytes framed as a [Value::Bytes]. *)
Definition read_node_kv (dec : bytes → outcome (option (L * list Z))) (kv : Kv) (hash : Z) :
    outcome (option (L * list Z)) :=
  if hash =? EMPTY then Ok None else
  bs <-! kv_get kv hash;
  v <-? deserialize bs TBytes;
  match v with
  | VBytes raw => dec raw
  | _ => Ok None
  end.

(** What a backend holds at a cell, read at type [bytes]. *)
Definition kv_view (kv : Kv) (k : Z) : Value :=
  match kv_get kv k with
  | Some bs => match deserialize bs TBytes with Ok (Some v) => v | _ => VBytes [] end
  | None => VBytes []
  end.
End kv_nodes.

(** ** Trees *)
Inductive mtree (L : Type) := MNode (l : L) (ts : list (mtree L)).
Arguments MNode {L} _ _.

Definition label {L} (t : mtree L) : L := match t with MNode l _ => l end.
Definition children {L} (t : mtree L) : list (mtree L) := match t with MNode _ ts => ts end.

Section mtree_ind.
Context {L : Type} (P : mtree L → Prop).
Context (Hnode : ∀ l ts, Forall P ts → P (MNode l ts)).

Fixpoint mtree_ind_nested (t : mtree L) : P t :=
  match t with
  | MNode l ts => Hnode l ts
      ((fix all ts : Forall P ts :=
          match ts with
          | [] => Forall_nil_2 P
          | t :: ts' => Forall_cons_2 P t ts' (mtree_ind_nested t) (all ts')
          end) ts)
  end.
End mtree_ind.

(** The hash of a tree is the cell key of its root node. *)
Section hash.
Context {L : Type} (ns : Z) (enc : L → list Z → bytes).

Fixpoint thash (t : mtree L) : Z :=
  match t with MNode l ts => child ns (enc l (thash <$> ts)) end.

Definition tbytes (t : mtree L) : bytes := enc (label t) (thash <$> children t).

(** Every node encoding of a tree. *)
Fixpoint nodes (t : mtree L) : list bytes :=
  match t with MNode l ts => enc l (thash <$> ts) :: concat (nodes <$> ts) end.
End hash.

(** ** Stored trees

    [U] lists the node encodings in play; they do not collide. *)
Definition no_collision (ns : Z) (U : list bytes) : bool :=
  bool_decide (NoDup (child ns <$> U)) && forallb (λ b, negb (child ns b =? EMPTY)) U.

Section store.
Context {L : Type} (ns : Z) (enc : L → list Z → bytes).
Context (dec : bytes → outcome (option (L * list Z))).
Context (node_ok : L → list Z → Prop).
Context (U : list bytes).

Local Abbreviation key := (child ns).
Local Abbreviation thash := (thash ns enc).

(** The decoder inverts the encoder on well-formed nodes. *)
Definition codec_inverts : Prop :=
  ∀ l hs, node_ok l hs → Forall (λ h, 0 <= h < 2 ^ 128) hs → dec (enc l hs) = Ok (Some (l, hs)).

Inductive stored (vw : Z → Value) : mtree L → Prop :=
  | stored_node l ts :
      node_ok l (thash <$> ts) →
      enc l (thash <$> ts) ∈ U →
      vw (thash (MNode l ts)) = VBytes (enc l (thash <$> ts)) →
      Forall (stored vw) ts → stored vw (MNode l ts).

(** Every node is well formed and in play. *)
Inductive in_play : mtree L → Prop :=
  | in_play_node l ts :
      node_ok l (thash <$> ts) → enc l (thash <$> ts) ∈ U →
      Forall in_play ts → in_play (MNode l ts).

Context {S : Type} `{TxLaws S}.

(** The store holds, at the key of every encoding in play, that encoding or
    nothing. *)
Definition store_ok (s : S) : Prop :=
  ready s ∧ ∀ b, b ∈ U → view s (key b) = VBytes b ∨ view s (key b) = VBytes [].

(** [s'] keeps every node of [s] and touches no other cell. *)
Definition extends (s s' : S) : Prop :=
  store_ok s' ∧
  (∀ b, b ∈ U → view s (key b) = VBytes b → view s' (key b) = VBytes b) ∧
  (∀ k, k ∉ (key <$> U) → view s' k = view s k).

(** [m] answers from [s], with a result and a store that satisfy [Q]. *)
Definition returns {A} (m : SM S A) (s : S) (Q : A → S → Prop) : Prop :=
  ∃ a s', m s = (Ok a, s') ∧ extends s s' ∧ Q a s'.

Context (Hinv : codec_inverts).
Context (HU : no_collision ns U = true).
Context (dec_nonempty : ∀ n, dec [] ≠ Ok (Some n)).

Lemma extends_refl s : store_ok s → extends s s.
Proof. done. Qed.

Lemma extends_trans s1 s2 s3 : extends s1 s2 → extends s2 s3 → extends s1 s3.
Proof.
  intros (Hok & Hk & Hf) (Hok' & Hk' & Hf'). refine (conj _ (conj _ _)); [done|by auto|].
  intros k Hn. by rewrite Hf', Hf.
Qed.

(** A view that keeps every node in play keeps every stored tree. *)
Lemma stored_mono vw vw' t :
  (∀ b, b ∈ U → vw (key b) = VBytes b → vw' (key b) = VBytes b) → stored vw t → stored vw' t.
Proof.
  intros Hk. induction t as [l ts IH] using mtree_ind_nested.
  inversion 1 as [l' ts' Hok Hin Hview Hts]; subst. constructor; [done..| |].
  - by apply Hk.
  - rewrite Forall_forall in *. eauto.
Qed.

Lemma stored_extends s s' t : extends s s' → stored (view s) t → stored (view s') t.
Proof. intros (_ & Hk & _). by apply stored_mono. Qed.

Lemma thash_range t : 0 <= thash t < 2 ^ 128.
Proof. destruct t. apply child_range. Qed.

Lemma key_inj b b' : b ∈ U → b' ∈ U → key b = key b' → b = b'.
Proof.
  apply andb_prop in HU as [Hnd%bool_decide_eq_true _].
  intros [i Hi]%list_elem_of_lookup [j Hj]%list_elem_of_lookup E.
  assert (i = j); [|congruence].
  eapply NoDup_lookup; [exact Hnd| |].
  - rewrite list_lookup_fmap, Hi. done.
  - rewrite list_lookup_fmap, Hj. cbn. by f_equal.
Qed.

Lemma key_nonempty b : b ∈ U → key b ≠ EMPTY.
Proof.
  apply andb_prop in HU as [_ Hf]. intros Hin E.
  apply forallb_forall with (x := b) in Hf; [|by apply list_elem_of_In].
  rewrite E in Hf. done.
Qed.

Lemma stored_nonempty vw t : stored vw t → thash t ≠ EMPTY.
Proof. inversion 1; subst. by apply key_nonempty. Qed.

(** Equal hashes denote equal trees. *)
Lemma stored_inj vw t t' :
  stored vw t → stored vw t' → thash t = thash t' → t = t'.
Proof.
  revert t'. induction t as [l ts IH] using mtree_ind_nested.
  intros [l' ts'] Hs Hs' E.
  inversion Hs as [? ? Hok Hin Hv Hts]; subst. inversion Hs' as [? ? Hok' Hin' Hv' Hts']; subst.
  assert (Eb : enc l (thash <$> ts) = enc l' (thash <$> ts')) by (by apply key_inj).
  assert (Forall (λ h, 0 <= h < 2 ^ 128) (thash <$> ts)) as Hr
    by (apply Forall_fmap, Forall_forall; intros; apply thash_range).
  assert (Forall (λ h, 0 <= h < 2 ^ 128) (thash <$> ts')) as Hr'
    by (apply Forall_fmap, Forall_forall; intros; apply thash_range).
  pose proof (Hinv _ _ Hok Hr) as D. pose proof (Hinv _ _ Hok' Hr') as D'.
  rewrite Eb, D' in D. injection D as -> Ets. f_equal.
  clear -IH Hts Hts' Ets. revert ts' Ets Hts'.
  induction ts as [|t ts IHts]; intros [|t' ts'] Ets Hts'; try done.
  cbn in Ets. injection Ets as E1 E2. apply Forall_cons in IH as [IH1 IH2].
  apply Forall_cons in Hts as [H1 H2]. apply Forall_cons in Hts' as [H1' H2'].
  f_equal; [by apply IH1|]. by apply IHts.
Qed.

Lemma stored_in_play vw t : stored vw t → in_play t.
Proof.
  induction t as [l ts IH] using mtree_ind_nested. inversion 1; subst. constructor; [done..|].
  rewrite Forall_forall in *. eauto.
Qed.

(** *** Cells added to a view *)

(** The view after writing node cells, in order. *)
Definition add_cells (vw : Z → Value) (cells : list (Z * bytes)) : Z → Value :=
  foldl (λ vw '(k, b) k', if decide (k = k') then VBytes b else vw k') vw cells.

(** Cells written at the key of their bytes, which are in play. *)
Definition node_cells (cells : list (Z * bytes)) : Prop :=
  Forall (λ c, c.1 = key c.2 ∧ c.2 ∈ U) cells.

Lemma add_cells_app vw c1 c2 : add_cells vw (c1 ++ c2) = add_cells (add_cells vw c1) c2.
Proof. apply foldl_app. Qed.

Lemma add_cells_keep vw cells b :
  node_cells cells → b ∈ U → vw (key b) = VBytes b → add_cells vw cells (key b) = VBytes b.
Proof.
  intros Hc Hb. revert vw. induction Hc as [|[k b'] cells [E Hb'] _ IH]; intros vw Hv; [done|].
  cbn in E, Hb'. subst k. apply IH. case_decide as E; [|done]. by rewrite (key_inj b' b).
Qed.

Lemma add_cells_mono vw vw' cells b :
  (∀ b, b ∈ U → vw (key b) = VBytes b → vw' (key b) = VBytes b) → b ∈ U →
  add_cells vw cells (key b) = VBytes b → add_cells vw' cells (key b) = VBytes b.
Proof.
  intros Hv Hb. revert vw vw' Hv. induction cells as [|[k b'] cells IH]; intros vw vw' Hv; [by auto|].
  apply IH. intros b0 Hb0. case_decide; auto.
Qed.

Lemma stored_add_cells vw cells t :
  node_cells cells → stored vw t → stored (add_cells vw cells) t.
Proof. intros Hc. apply stored_mono. intros b Hb. by apply add_cells_keep. Qed.

(** Reading a stored node from a backend. *)
Lemma read_node_kv_stored `{BigIntCodec} kv t :
  stored (kv_view kv) t →
  read_node_kv dec kv (thash t) = Ok (Some (label t, thash <$> children t)).
Proof.
  intros Ht. unfold read_node_kv.
  pose proof (stored_nonempty _ _ Ht) as Hne. apply Z.eqb_neq in Hne. rewrite Hne.
  destruct Ht as [l ts Hok Hin Hv Hts]. unfold kv_view in Hv.
  assert (Hd : dec (enc l (thash <$> ts)) = Ok (Some (l, thash <$> ts))).
  { apply Hinv; [done|]. apply Forall_fmap, Forall_forall. intros. apply thash_range. }
  assert (Hnz : enc l (thash <$> ts) ≠ [] → 
    ∃ bs, kv_get kv (thash (MNode l ts)) = Some bs ∧
      deserialize bs TBytes = Ok (Some (VBytes (enc l (thash <$> ts))))).
  { intros Hb. destruct (kv_get kv _) as [bs|]; [|congruence]. exists bs. split; [done|].
    destruct (deserialize bs TBytes) as [[v|]|e| |]; congruence. }
  destruct Hnz as (bs & -> & Hbs).
  - intros E. rewrite E in Hd. by apply dec_nonempty in Hd.
  - rewrite Hbs. cbn. rewrite Hd. done.
Qed.

(** *** The logic *)
Lemma returns_ret {A} (a : A) s (Q : A → S → Prop) :
  store_ok s → Q a s → returns (mret a) s Q.
Proof. intros Hs HQ. exists a, s. by splits. Qed.

Lemma returns_lift {A} (o : outcome A) a s (Q : A → S → Prop) :
  store_ok s → o = Ok a → Q a s → returns (lift o) s Q.
Proof. intros Hs -> HQ. exists a, s. by splits. Qed.

Lemma returns_bind {A B} (m : SM S A) (f : A → SM S B) s Q R :
  returns m s Q →
  (∀ a s', extends s s' → Q a s' → returns (f a) s' R) →
  returns (m ≫= f) s R.
Proof.
  intros (a & s' & Hm & Hext & HQ) Hf.
  destruct (Hf a s' Hext HQ) as (b & s'' & Hfa & Hext' & HR).
  exists b, s''. splits; [|by eapply extends_trans|done].
  rewrite (SM_bind_ok _ _ _ _ _ Hm). done.
Qed.

Lemma returns_bind_lift {A B} (o : outcome A) a (f : A → SM S B) s Q :
  o = Ok a → returns (f a) s Q → returns (lift o ≫= f) s Q.
Proof.
  intros -> (b & s' & E & He & HQ). exists b, s'. splits; [|done..].
  by rewrite (SM_bind_ok _ _ _ _ _ (eq_refl : lift (Ok a) s = (Ok a, s))).
Qed.

Lemma returns_mono {A} (m : SM S A) s (Q R : A → S → Prop) :
  returns m s Q → (∀ a s', extends s s' → Q a s' → R a s') → returns m s R.
Proof. intros (a & s' & Hm & He & HQ) HR. exists a, s'. splits; eauto. Qed.

Lemma extends_ok s s' : extends s s' → store_ok s'.
Proof. by intros []. Qed.

(** Reading the root of a stored tree gives its label and child hashes. *)
Lemma returns_read_node t s (Q : option (L * list Z) → S → Prop) :
  store_ok s → stored (view s) t →
  (∀ s', extends s s' → stored (view s') t → Q (Some (label t, thash <$> children t)) s') →
  returns (read_node dec (thash t)) s Q.
Proof.
  intros [Hr HUs] Ht HQ. unfold read_node.
  pose proof (stored_nonempty _ _ Ht) as Hne. apply Z.eqb_neq in Hne. rewrite Hne.
  destruct (read_law s (thash t) Hr) as (s' & Hread & Hr' & Hview).
  assert (Hext : extends s s').
  { refine (conj (conj _ _) (conj _ _)); [done|..]; intros; rewrite Hview; auto. }
  exists (Some (label t, thash <$> children t)), s'.
  splits; [|done|apply HQ; [done|by eapply stored_extends]].
  rewrite (SM_bind_ok _ _ _ _ _ Hread).
  destruct Ht as [l ts Hok Hin Hv Hts]. rewrite Hv. unfold lift.
  rewrite Hinv; [done..|]. apply Forall_fmap, Forall_forall. intros. apply thash_range.
Qed.

Lemma returns_read_empty s (Q : option (L * list Z) → S → Prop) :
  store_ok s → Q None s → returns (read_node dec EMPTY) s Q.
Proof. intros Hs HQ. exists None, s. by splits. Qed.

(** Writing a node in play. *)
Lemma returns_write b s (Q : Z → S → Prop) :
  store_ok s → b ∈ U →
  (∀ s', extends s s' → view s' (key b) = VBytes b → Q (key b) s') →
  returns (write_node ns b) s Q.
Proof.
  intros [Hr HUs] Hb HQ. unfold write_node. cbn zeta.
  destruct (write_law s (key b) b Hr) as (s1 & E1 & Hr1 & V1).
  destruct (record_law s1 (key b) Hr1) as (s2 & E2 & Hr2 & V2).
  assert (Hv : ∀ k, view s2 k = if decide (key b = k) then VBytes b else view s k)
    by (intros; by rewrite V2, V1).
  assert (Hext : extends s s2).
  { refine (conj (conj Hr2 _) (conj _ _)).
    - intros b' Hb'. rewrite Hv. case_decide as E; [|auto].
      left. by rewrite (key_inj b b').
    - intros b' Hb' Hs. rewrite Hv. case_decide as E; [|done].
      by rewrite (key_inj b b').
    - intros k Hk. rewrite Hv. case_decide as E; [|done]. destruct Hk.
      subst. apply list_elem_of_fmap. eauto. }
  exists (key b), s2. splits; [|done|apply HQ; [done|]].
  - rewrite (SM_bind_ok _ _ _ _ _ E1), (SM_bind_ok _ _ _ _ _ E2). done.
  - rewrite Hv. by rewrite decide_True.
Qed.

(** Writing the root of a tree whose subtrees are stored stores the tree. *)
Lemma returns_write_node l ts s (Q : Z → S → Prop) :
  store_ok s → node_ok l (thash <$> ts) → enc l (thash <$> ts) ∈ U →
  Forall (stored (view s)) ts →
  (∀ s', extends s s' → stored (view s') (MNode l ts) → Q (thash (MNode l ts)) s') →
  returns (write_node ns (enc l (thash <$> ts))) s Q.
Proof.
  intros Hs Hok Hin Hts HQ. apply returns_write; [done..|]. intros s' Hext Hv.
  apply HQ; [done|]. constructor; [done..|].
  eapply Forall_impl; [exact Hts|]. intros t. by apply stored_extends.
Qed.
End store.
Arguments returns_bind_lift {ns U S _ _ A B} o a f s Q _ _.
