(* ===== verification/NodeCodec.v ===== *)
(** The pieces the node formats of [pmap.rs], [pvec.rs] and [pbtree.rs] share:
    length-prefixed values and runs of 16-byte child hashes, with their decoding
    loops and the proofs that decoding inverts encoding. *)
From S2P Require Import Prelude Bytes Values Serialize SerializeFacts.
(** [for h in children { out.extend(h.to_be_bytes()) }]. *)
Definition write_hashes (hs : list Z) : bytes := concat (be_bytes 16 <$> hs).

(** [for _ in 0..n { u128::from_be_bytes(bytes.get(cursor..cursor+16)?) }]. *)
Fixpoint read_hashes (n : nat) (bs : bytes) (cursor : Z) : option (list Z * Z) :=
  match n with
  | O => Some ([], cursor)
  | S n' =>
      h ← be_at bs cursor 16;
      '(hs, cursor') ← read_hashes n' bs (cursor + 16);
      Some (h :: hs, cursor')
  end.

Section values.
Context `{BigIntCodec}.

(** [out.extend((vb.len() as u32).to_be_bytes()); out.extend(&vb)]. *)
Definition write_value (v : Value) : outcome bytes :=
  vb ← serialize v; Ok (len_prefixed vb).

(** The matching read: length, slice, [serialize::deserialize]. *)
Definition read_value (ty : Ty) (bs : bytes) (cursor : Z) : outcome (option (Value * Z)) :=
  vl <-! be_at bs cursor 4;
  vb <-! get_range bs (cursor + 4) vl;
  v <-? deserialize vb ty;
  Ok (Some (v, cursor + 4 + vl)).

Fixpoint read_values (n : nat) (ty : Ty) (bs : bytes) (cursor : Z) :
    outcome (option (list Value * Z)) :=
  match n with
  | O => Ok (Some ([], cursor))
  | S n' =>
      '(v, cursor') <-? read_value ty bs cursor;
      '(vs, cursor'') <-? read_values n' ty bs cursor';
      Ok (Some (v :: vs, cursor''))
  end.

(** Key and value pairs, as the map leaves store them. *)
Fixpoint read_pairs (n : nat) (key_ty val_ty : Ty) (bs : bytes) (cursor : Z) :
    outcome (option (list (Value * Value) * Z)) :=
  match n with
  | O => Ok (Some ([], cursor))
  | S n' =>
      '(k, cursor1) <-? read_value key_ty bs cursor;
      '(v, cursor2) <-? read_value val_ty bs cursor1;
      '(es, cursor3) <-? read_pairs n' key_ty val_ty bs cursor2;
      Ok (Some ((k, v) :: es, cursor3))
  end.

(** ** Facts *)

(** A value that fits in a node cell of element type [ty]. *)
Definition cellable (ty : Ty) (v : Value) : bool :=
  storable v (unwrap_explicit ty) && fits_u32 (ser v).

(** The bytes of a value inside a node. *)
Definition cell_bytes (v : Value) : bytes := len_prefixed (ser v).
Definition pair_bytes (p : Value * Value) : bytes := cell_bytes p.1 ++ cell_bytes p.2.
End values.

Lemma zlen_write_hashes hs : zlen (write_hashes hs) = 16 * zlen hs.
Proof.
  unfold write_hashes. induction hs as [|h hs IH]; [done|].
  cbn [fmap list_fmap concat]. rewrite zlen_app, zlen_be_bytes, zlen_cons, IH. lia.
Qed.

Lemma read_hashes_ok hs pre suf :
  Forall (λ h, 0 <= h < 2 ^ 128) hs →
  read_hashes (length hs) (pre ++ write_hashes hs ++ suf) (zlen pre)
    = Some (hs, zlen pre + 16 * zlen hs).
Proof.
  revert pre. induction hs as [|h hs IH]; intros pre Hr.
  - cbn [length read_hashes]. do 2 f_equal. unfold zlen. simpl. lia.
  - apply Forall_cons in Hr as [Hh Hr]. cbn [length read_hashes].
    unfold write_hashes. cbn [fmap list_fmap concat]. fold (write_hashes hs).
    rewrite <- app_assoc.
    rewrite (be_at_app _ pre 16 h (write_hashes hs ++ suf)) by done.
    rewrite option_bind_Some.
    rewrite (app_assoc pre). 
    replace (zlen pre + 16) with (zlen (pre ++ be_bytes 16 h))
      by (rewrite zlen_app, zlen_be_bytes; lia).
    rewrite IH by done. rewrite option_bind_Some, zlen_app, zlen_be_bytes, zlen_cons.
    do 2 f_equal. lia.
Qed.

Section facts.
Context `{Laws : BigIntCodecLaws}.

Lemma cellable_write ty v : cellable ty v = true → write_value v = Ok (cell_bytes v).
Proof.
  intros [Hs _]%andb_prop. unfold write_value. by rewrite (serialize_ser _ _ Hs).
Qed.

Lemma cellable_serialize ty v : cellable ty v = true → serialize v = Ok (ser v).
Proof. intros [Hs _]%andb_prop. by apply (serialize_ser _ _ Hs). Qed.

Lemma zlen_cell_bytes v : zlen (cell_bytes v) = 4 + zlen (ser v).
Proof. apply zlen_len_prefixed. Qed.

Lemma read_value_ok ty v pre suf :
  cellable ty v = true →
  read_value ty (pre ++ cell_bytes v ++ suf) (zlen pre)
    = Ok (Some (v, zlen (pre ++ cell_bytes v))).
Proof.
  intros [Hs Hf]%andb_prop. unfold read_value, cell_bytes.
  rewrite (be_at_prefixed pre (ser v)) by done.
  rewrite (get_range_prefixed pre (ser v)) by done.
  rewrite deserialize_ser by done. cbn [bind_opt].
  rewrite zlen_app, zlen_len_prefixed. do 3 f_equal. lia.
Qed.

Lemma read_values_ok ty vs pre suf :
  Forall (λ v, cellable ty v = true) vs →
  read_values (length vs) ty (pre ++ concat (cell_bytes <$> vs) ++ suf) (zlen pre)
    = Ok (Some (vs, zlen (pre ++ concat (cell_bytes <$> vs)))).
Proof.
  intros Hvs. revert pre. induction Hvs as [|v vs Hv Hvs IH]; intros pre.
  - cbn. by rewrite app_nil_r.
  - cbn [length read_values fmap list_fmap concat]. rewrite <- app_assoc.
    rewrite read_value_ok by done. cbn [bind_opt].
    rewrite (app_assoc pre), IH. cbn [bind_opt]. by rewrite <- app_assoc.
Qed.

Lemma read_pairs_ok kty vty es pre suf :
  Forall (λ p, cellable kty p.1 = true ∧ cellable vty p.2 = true) es →
  read_pairs (length es) kty vty (pre ++ concat (pair_bytes <$> es) ++ suf) (zlen pre)
    = Ok (Some (es, zlen (pre ++ concat (pair_bytes <$> es)))).
Proof.
  intros Hes. revert pre. induction Hes as [|[k v] es [Hk Hv] Hes IH]; intros pre.
  - cbn. by rewrite app_nil_r.
  - cbn [length read_pairs fmap list_fmap concat]. 
    change (pair_bytes (k, v)) with (cell_bytes k ++ cell_bytes v). cbn [fst snd] in Hk, Hv.
    rewrite <- !app_assoc.
    rewrite read_value_ok by done. cbn [bind_opt].
    rewrite (app_assoc pre), read_value_ok by done. cbn [bind_opt].
    rewrite (app_assoc (pre ++ _)), IH. cbn [bind_opt]. by rewrite <- !app_assoc.
Qed.
End facts.

(** * Splitting a list into blocks of a fixed size, and radix-32 digits of an
    index: the arithmetic of the persistent vector's trie. *)
(** [chunks b l]: [l] cut into blocks of [b], the last one possibly shorter
    ([slice::chunks]). *)
Definition chunks {A} (b : nat) (l : list A) : list (list A) :=
  (λ j, take b (drop (j * b) l)) <$> seq 0 ((length l + b - 1) / b).

Section chunks.
Context {A : Type} (b : nat) (Hb : (0 < b)%nat).
Implicit Types l k : list A.

Lemma chunks_nil : chunks b (@nil A) = [].
Proof. unfold chunks. cbn [length]. by rewrite Nat.div_small by lia. Qed.

Lemma chunks_cons l : l ≠ [] → chunks b l = take b l :: chunks b (drop b l).
Proof.
  intros Hl. unfold chunks. rewrite length_drop.
  assert (0 < length l)%nat by (destruct l; [done|simpl; lia]).
  assert (E : ((length l + b - 1) / b = S ((length l - b + b - 1) / b))%nat).
  { destruct (decide (b ≤ length l)%nat).
    - replace (length l + b - 1)%nat with ((length l - b + b - 1) + 1 * b)%nat by lia.
      rewrite Nat.div_add by lia. lia.
    - replace (length l - b + b - 1)%nat with (b - 1)%nat by lia.
      rewrite (Nat.div_small (b - 1)) by lia.
      symmetry. apply (Nat.div_unique _ _ _ (length l - 1)); lia. }
  rewrite E. cbn [seq fmap list_fmap]. rewrite drop_0. f_equal.
  rewrite <- (fmap_S_seq 0), <- list_fmap_compose. apply list_fmap_ext. intros _ j _. cbn.
  by rewrite drop_drop.
Qed.

Lemma chunks_short l : l ≠ [] → (length l ≤ b)%nat → chunks b l = [l].
Proof.
  intros Hl Hle. rewrite chunks_cons by done.
  by rewrite take_ge, drop_ge, chunks_nil by lia.
Qed.

Lemma chunks_app q l k :
  length l = (q * b)%nat → chunks b (l ++ k) = chunks b l ++ chunks b k ∧ length (chunks b l) = q.
Proof.
  revert l. induction q as [|q IH]; intros l Hl.
  - destruct l; [|done]. by rewrite chunks_nil.
  - assert (l ≠ []) by (intros ->; simpl in Hl; lia).
    destruct (IH (drop b l)) as [IH1 IH2]; [rewrite length_drop; lia|].
    rewrite (chunks_cons (l ++ k)) by (destruct l; done). rewrite (chunks_cons l) by done.
    rewrite take_app_le, drop_app_le by lia. rewrite IH1. simpl. by rewrite IH2.
Qed.

(** The block that holds position [q * b]. *)
Lemma chunks_split q l :
  (q * b < length l)%nat →
  chunks b l = chunks b (take (q * b) l) ++ take b (drop (q * b) l) :: chunks b (drop (S q * b) l)
  ∧ length (chunks b (take (q * b) l)) = q.
Proof.
  intros Hq.
  destruct (chunks_app q (take (q * b) l) (drop (q * b) l)) as [E1 E2];
    [rewrite length_take; lia|].
  rewrite take_drop in E1. split; [|done]. rewrite E1. f_equal.
  rewrite chunks_cons.
  - rewrite drop_drop. do 2 f_equal. f_equal. lia.
  - intros E. apply (f_equal length) in E. rewrite length_drop in E. simpl in E. lia.
Qed.

Lemma lookup_chunks q l :
  (q * b < length l)%nat → chunks b l !! q = Some (take b (drop (q * b) l)).
Proof.
  intros Hq. destruct (chunks_split q l Hq) as [E1 E2]. rewrite E1.
  by apply list_lookup_middle.
Qed.

Lemma insert_chunks q r v l :
  (r < b)%nat → (q * b + r < length l)%nat →
  <[q := <[r := v]> (take b (drop (q * b) l))]> (chunks b l) = chunks b (<[(q * b + r)%nat := v]> l).
Proof.
  intros Hr Hl. destruct (chunks_split q l) as [E1 E2]; [lia|].
  destruct (chunks_split q (<[(q * b + r)%nat := v]> l)) as [F1 F2]; [rewrite length_insert; lia|].
  rewrite E1, F1. rewrite take_insert_ge by lia.
  rewrite drop_insert_ge by lia. replace (q * b + r - q * b)%nat with r by lia.
  rewrite drop_insert_lt by lia.
  rewrite insert_app_r_alt by lia. rewrite E2, Nat.sub_diag. cbn.
  by rewrite take_insert_lt by done.
Qed.

Lemma chunks_push_new q v l :
  length l = (q * b)%nat → chunks b (l ++ [v]) = chunks b l ++ [[v]] ∧ length (chunks b l) = q.
Proof.
  intros Hl. destruct (chunks_app q l [v] Hl) as [E1 E2]. split; [|done].
  rewrite E1. f_equal. apply chunks_short; [done|simpl; lia].
Qed.

Lemma chunks_push_last q r v l :
  length l = (q * b + r)%nat → (0 < r < b)%nat →
  chunks b (l ++ [v]) = <[q := take b (drop (q * b) l) ++ [v]]> (chunks b l)
  ∧ length (chunks b l) = S q.
Proof.
  intros Hl Hr. destruct (chunks_split q l) as [E1 E2]; [lia|].
  destruct (chunks_split q (l ++ [v])) as [F1 F2]; [rewrite length_app; simpl; lia|].
  rewrite E1, F1.
  rewrite (drop_ge l (S q * b)), (drop_ge (l ++ [v]) (S q * b)), chunks_nil by (rewrite ?length_app; simpl; lia).
  rewrite take_app_le by lia. rewrite drop_app_le by lia.
  rewrite (take_ge (drop (q * b) l)), (take_ge (drop (q * b) l ++ [v]))
    by (rewrite ?length_app, ?length_drop; simpl; lia).
  rewrite insert_app_r_alt by lia. rewrite E2, Nat.sub_diag. cbn.
  split; [done|]. rewrite length_app, E2. simpl. lia.
Qed.

Lemma concat_chunks l : concat (chunks b l) = l.
Proof.
  remember (length l) as n eqn:Hn. revert l Hn.
  induction n as [n IH] using lt_wf_ind. intros l ->.
  destruct (decide (l = [])) as [->|Hl]; [by rewrite chunks_nil|].
  rewrite chunks_cons by done. cbn [concat].
  rewrite (IH (length (drop b l))); [apply take_drop| |done].
  rewrite length_drop. destruct l; [done|simpl; lia].
Qed.

Lemma chunks_bound l : Forall (λ c, c ≠ [] ∧ length c ≤ b ∧ ∀ x, x ∈ c → x ∈ l)%nat (chunks b l).
Proof.
  remember (length l) as n eqn:Hn. revert l Hn.
  induction n as [n IH] using lt_wf_ind. intros l ->.
  destruct (decide (l = [])) as [->|Hl]; [by rewrite chunks_nil; constructor|].
  rewrite chunks_cons by done. constructor.
  - splits; [|rewrite length_take; lia|intros x Hx; by eapply subseteq_take].
    destruct l; [done|]. by destruct b; [lia|].
  - eapply Forall_impl; [apply (IH (length (drop b l)))|]; [|done|].
    + rewrite length_drop. destruct l; [done|simpl; lia].
    + intros c (H1 & H2 & H3). splits; [done..|]. intros x Hx%H3. by eapply subseteq_drop.
Qed.

Lemma length_chunks_le m l : (length l ≤ m * b)%nat → (length (chunks b l) ≤ m)%nat.
Proof.
  intros Hl. unfold chunks. rewrite length_fmap, length_seq.
  apply Nat.lt_succ_r. apply Nat.Div0.div_lt_upper_bound; lia.
Qed.
End chunks.
