(* ===== verification/Pvec.v ===== *)
(** Persistent vector: an indexed 32-way trie whose nodes are
    content-addressed cells ([crates/rend/src/pvec.rs]).  Definitions only; the
    refinement to lists is in [PvecFacts]. *)
From S2P Require Import Prelude Bytes Hashing Values Serialize Kv Merkle NodeCodec.

Module Pvec.
Definition BRANCH : Z := 32.
Definition BITS_PER_LEVEL : Z := 5.
Definition TAG_INNER : Z := 0x01.
Definition TAG_LEAF : Z := 0x02.
Definition NODE_NS : Z := 0x505645434E4F4445505645434E4F4445.

(** [enum Node]: [Node::Inner { children }] is [(Inner, children)] and
    [Node::Leaf { elements }] is [(Leaf elements, [])]. *)
Inductive Label := Inner | Leaf (elements : list Value).
Definition Node : Type := Label * list Z.

(** Number of trie levels above the leaf for a given length; the bit length of
    [len - 1] is [64 - leading_zeros]. *)
Definition depth_for (len : Z) : Z :=
  if len <=? BRANCH then 0 else
  let high := len - 1 in
  let bits := Z.log2 high + 1 in
  (bits + (BITS_PER_LEVEL - 1)) / BITS_PER_LEVEL - 1.

(** Slot at the given level for an index. *)
Definition slot_at (i level : Z) : Z :=
  Z.land (Z.shiftr i (level * BITS_PER_LEVEL)) (BRANCH - 1).

(** [level - 1] on [u32]: underflow panics. *)
Definition level_below (level : Z) : outcome Z :=
  if level =? 0 then Panic else Ok (level - 1).

Definition pvec_error (msg : string) (span : Span) : Error := mkError Runtime msg span.

(** ** Node format *)
Definition serialize_inner (children : list Z) : bytes :=
  TAG_INNER :: wrap_u 8 (zlen children) :: write_hashes children.

Section format.
Context `{BigIntCodec}.

Definition serialize_leaf (elements : list Value) : outcome bytes :=
  body ← mapM_out write_value elements;
  Ok (TAG_LEAF :: wrap_u 8 (zlen elements) :: concat body).

Definition deserialize_node (elem_ty : Ty) (bs : bytes) : outcome (option Node) :=
  match bs with
  | [] => Ok None
  | tag :: rest =>
      if tag =? TAG_INNER then
        n <-! get_z bs 1;
        '(children, _) <-! read_hashes (Z.to_nat n) bs 2;
        Ok (Some (Inner, children))
      else if tag =? TAG_LEAF then
        n <-! get_z bs 1;
        '(elements, _) <-? read_values (Z.to_nat n) elem_ty bs 2;
        Ok (Some (Leaf elements, []))
      else Ok None
  end.
End format.

(** ** Operations *)
Section ops.
Context `{BigIntCodec} {St : Type} `{TxOps St}.
Context (elem_ty : Ty).

Definition read_node (hash : Z) : SM St (option Node) :=
  Merkle.read_node (deserialize_node elem_ty) hash.

(** [write_node(tx, serialize_leaf(..))], [write_node(tx, serialize_inner(..))]. *)
Definition write_leaf (elements : list Value) : SM St Z :=
  bs ← lift (serialize_leaf elements); write_node NODE_NS bs.
Definition write_inner (children : list Z) : SM St Z :=
  write_node NODE_NS (serialize_inner children).

(** The child loop of [collect_elements]: each child is asked for at most a
    full subtree, and the walk stops once [remaining] are out. *)
Section children.
Context (collect : Z → Z → SM St (list Value)) (capacity remaining : Z).
Fixpoint collect_children (cs : list Z) (emitted : Z) : SM St (list Value) :=
  match cs with
  | [] => mret []
  | c :: cs' =>
      if remaining <=? emitted then mret [] else
      vs ← collect c (Z.min capacity (remaining - emitted));
      rest ← collect_children cs' (emitted + zlen vs);
      mret (vs ++ rest)
  end.
End children.

(** Every recursive call decreases [level], which starts at the depth: one more
    unit of fuel than levels is enough for any store. *)
Fixpoint collect_elements (fuel : nat) (node_hash level remaining : Z) :
    SM St (list Value) :=
  match fuel with
  | O => lift OutOfFuel
  | S fuel' =>
      node ← read_node node_hash;
      match node with
      | None => lift (Err (pvec_error "pvec internal: missing node during full-walk" Span_default))
      | Some (Leaf elements, _) => mret (take (Z.to_nat remaining) elements)
      | Some (Inner, cs) =>
          let capacity := Z.shiftl 1 (level * BITS_PER_LEVEL) in
          collect_children
            (λ c want, below ← lift (level_below level); collect_elements fuel' c below want)
            capacity remaining cs 0
      end
  end.

Definition level_fuel (level : Z) : nat := S (Z.to_nat level).

Definition to_vec (root len : Z) : SM St (list Value) :=
  if len =? 0 then mret [] else
  let level := depth_for len in
  collect_elements (level_fuel level) root level len.

Fixpoint get_at (fuel : nat) (node_hash level i : Z) : SM St (option Value) :=
  match fuel with
  | O => lift OutOfFuel
  | S fuel' =>
      node ← read_node node_hash;
      match node with
      | None => mret None
      | Some (Leaf elements, _) => mret (get_z elements (slot_at i 0))
      | Some (Inner, cs) =>
          match get_z cs (slot_at i level) with
          | None => mret None
          | Some c => below ← lift (level_below level); get_at fuel' c below i
          end
      end
  end.

(** [format!("pvec index out of bounds: {i} of length {len}")]. *)
Definition out_of_bounds (i len : Z) : string :=
  "pvec index out of bounds: " +:+ pretty i +:+ " of length " +:+ pretty len.

Definition get (root len i : Z) (span : Span) : SM St Value :=
  if len <=? i then lift (Err (pvec_error (out_of_bounds i len) span)) else
  let level := depth_for len in
  r ← get_at (level_fuel level) root level i;
  match r with
  | Some v => mret v
  | None => lift (Err (pvec_error "pvec internal: missing node along read path" span))
  end.

Fixpoint set_at (fuel : nat) (node_hash level i : Z) (value : Value) : SM St (option Z) :=
  match fuel with
  | O => lift OutOfFuel
  | S fuel' =>
      node ← read_node node_hash;
      match node with
      | None => mret None
      | Some (Leaf elements, _) =>
          match get_z elements (slot_at i 0) with
          | None => mret None
          | Some _ => h ← write_leaf (set_z elements (slot_at i 0) value); mret (Some h)
          end
      | Some (Inner, cs) =>
          match get_z cs (slot_at i level) with
          | None => mret None
          | Some c =>
              below ← lift (level_below level);
              r ← set_at fuel' c below i value;
              match r with
              | None => mret None
              | Some new_child =>
                  h ← write_inner (set_z cs (slot_at i level) new_child); mret (Some h)
              end
          end
      end
  end.

Definition set (root len i : Z) (value : Value) (span : Span) : SM St Z :=
  if len <=? i then lift (Err (pvec_error (out_of_bounds i len) span)) else
  let level := depth_for len in
  r ← set_at (level_fuel level) root level i value;
  match r with
  | Some h => mret h
  | None => lift (Err (pvec_error "pvec internal: missing node along write path" span))
  end.

(** The recursion of [push_at] is on [level] and stops at 0. *)
Fixpoint push_at (level : nat) (node_hash i : Z) (value : Value) : SM St Z :=
  match level with
  | O =>
      node ← read_node node_hash;
      let elements := match node with Some (Leaf elements, _) => elements | _ => [] end in
      write_leaf (elements ++ [value])
  | S below =>
      node ← read_node node_hash;
      let cs := match node with Some (Inner, cs) => cs | _ => [] end in
      let slot := slot_at i (Z.of_nat level) in
      match get_z cs slot with
      | None => (* slot >= children.len() *)
          new_child ← push_at below EMPTY i value;
          write_inner (cs ++ [new_child])
      | Some c =>
          new_child ← push_at below c i value;
          write_inner (set_z cs slot new_child)
      end
  end.

(** [while working_level < new_depth { wrap the root in an inner }]. *)
Fixpoint wrap_root (levels : nat) (root : Z) : SM St Z :=
  match levels with
  | O => mret root
  | S k => root' ← write_inner [root]; wrap_root k root'
  end.

(** Append: [(new_root, new_len)]. *)
Definition push (root len : Z) (value : Value) : SM St (Z * Z) :=
  if len =? u64_max then lift (Err (pvec_error "pvec length overflow" Span_default)) else
  let new_len := len + 1 in
  let old_depth := depth_for len in
  let new_depth := depth_for new_len in
  working_root ← wrap_root (Z.to_nat (new_depth - old_depth)) root;
  new_root ← push_at (Z.to_nat new_depth) working_root len value;
  mret (new_root, new_len).
End ops.

(** ** Three-way merge *)
Section merge.
Context `{BigIntCodec} (kv : Kv) (elem_ty : Ty).

(** The merge collects synthesized node cells in [out]. *)
Definition Cells : Type := list (Z * bytes).

Definition read_node_kv (hash : Z) : outcome (option Node) :=
  Merkle.read_node_kv (deserialize_node elem_ty) kv hash.

Definition emit (bs : bytes) (out : Cells) : outcome (option (Z * Cells)) :=
  let h := child NODE_NS bs in Ok (Some (h, out ++ [(h, bs)])).

(** Per-element reconcile: [i] ranges over [0..ea.len()]. *)
Fixpoint merge_elements (ea eb : list Value) (base : list Value) : option (list Value) :=
  match ea, eb with
  | va :: ea', vb :: eb' =>
      v ← (if decide (va = vb) then Some va
           else if decide (Some va = head base) then Some vb
           else if decide (Some vb = head base) then Some va
           else None);
      rest ← merge_elements ea' eb' (tail base);
      Some (v :: rest)
  | _, _ => Some []
  end.

Section merge_children.
Context (merge : Z → Z → Z → Cells → outcome (option (Z * Cells))).
Fixpoint merge_children (ca cb cbase : list Z) (out : Cells) :
    outcome (option (list Z * Cells)) :=
  match ca, cb with
  | a :: ca', b :: cb' =>
      '(m, out1) <-? merge a b (default EMPTY (head cbase)) out;
      '(ms, out2) <-? merge_children ca' cb' (tail cbase) out1;
      Ok (Some (m :: ms, out2))
  | _, _ => Ok (Some ([], out))
  end.
End merge_children.

Fixpoint merge_at (fuel : nat) (a b base level : Z) (out : Cells) :
    outcome (option (Z * Cells)) :=
  if a =? b then Ok (Some (a, out)) else
  if a =? base then Ok (Some (b, out)) else
  if b =? base then Ok (Some (a, out)) else
  match fuel with
  | O => OutOfFuel
  | S fuel' =>
      na <-? read_node_kv a;
      nb <-? read_node_kv b;
      nbase ← read_node_kv base;
      match na, nb with
      | (Leaf ea, _), (Leaf eb, _) =>
          let base_elems := match nbase with Some (Leaf es, _) => es | _ => [] end in
          if negb (zlen ea =? zlen eb) then Ok None else
          merged <-! merge_elements ea eb base_elems;
          bs ← serialize_leaf merged;
          emit bs out
      | (Inner, ca), (Inner, cb) =>
          let base_children := match nbase with Some (Inner, cs) => cs | _ => [] end in
          if negb (zlen ca =? zlen cb) then Ok None else
          '(merged, out1) <-?
            merge_children
              (λ x y z o, below ← level_below level; merge_at fuel' x y z below o)
              ca cb base_children out;
          emit (serialize_inner merged) out1
      | _, _ => Ok None
      end
  end.

Definition merge_three_way (new_a len_a live_b len_b ancestor len_ancestor : Z) :
    outcome (option (Z * Cells)) :=
  if negb (len_a =? len_ancestor) || negb (len_b =? len_ancestor) then Ok None else
  let depth := depth_for len_a in
  merge_at (level_fuel depth) new_a live_b ancestor depth [].
End merge.
End Pvec.
