(* ===== verification/PvecFacts.v ===== *)
(** The persistent vector refines lists: a root and a length denote a list,
    [get], [set], [push] and [to_vec] are the list operations, every earlier
    root stays readable, and equal lists have equal roots. *)
From S2P Require Import Prelude Bytes Hashing Values Serialize SerializeFacts Kv Merkle.
From S2P Require Import NodeCodec Pvec.
Import Pvec.

(** ** The dense trie of a list

    [vtrie d l] is the trie of depth [d]: a leaf, or the tries of the blocks of
    [32 ^ d] elements. *)
Fixpoint vtrie (d : nat) (l : list Value) : mtree Label :=
  match d with
  | O => MNode (Leaf l) []
  | S d' => MNode Inner (vtrie d' <$> chunks (32 ^ d) l)
  end.

(** ** Digits and depths *)
Lemma set_z_nat {A} (l : list A) n x : set_z l (Z.of_nat n) x = <[n := x]> l.
Proof. unfold set_z. by rewrite Nat2Z.id. Qed.

Lemma pow32 d : Z.of_nat (32 ^ d) = 2 ^ (5 * Z.of_nat d).
Proof.
  rewrite Nat2Z.inj_pow. change (Z.of_nat 32) with (2 ^ 5). by rewrite <- Z.pow_mul_r by lia.
Qed.

Lemma pow32_pos d : (0 < 32 ^ d)%nat.
Proof. pose proof (Nat.pow_nonzero 32 d). lia. Qed.

Lemma slot_at_nat n d : slot_at (Z.of_nat n) (Z.of_nat d) = Z.of_nat ((n / 32 ^ d) mod 32).
Proof.
  unfold slot_at, BITS_PER_LEVEL, BRANCH. change (32 - 1) with (Z.ones 5).
  rewrite Z.land_ones, Z.shiftr_div_pow2 by lia.
  rewrite Nat2Z.inj_mod, Nat2Z.inj_div, pow32. do 2 f_equal. f_equal. lia.
Qed.

Lemma level_below_S d : level_below (Z.of_nat (S d)) = Ok (Z.of_nat d).
Proof.
  unfold level_below. destruct (Z.eqb_spec (Z.of_nat (S d)) 0); [lia|]. f_equal. lia.
Qed.

(** An index within a subtree of depth [S d], by block and offset. *)
Lemma digit_split n d :
  let b := (32 ^ S d)%nat in
  let m := (n mod 32 ^ S (S d))%nat in
  let q := ((n / b) mod 32)%nat in
  m = (q * b + n mod b)%nat ∧ (n mod b < b)%nat ∧ (q < 32)%nat.
Proof.
  cbn zeta. pose proof (pow32_pos (S d)).
  replace (32 ^ S (S d))%nat with (32 ^ S d * 32)%nat by (simpl; lia).
  rewrite Nat.Div0.mod_mul_r. splits; [lia|apply Nat.mod_upper_bound; lia|].
  apply Nat.mod_upper_bound. lia.
Qed.

(** [depth_for] is the least depth whose capacity covers the length. *)
Lemma depth_for_spec len :
  0 <= len →
  0 <= depth_for len ∧ len <= 2 ^ (5 * (depth_for len + 1)) ∧
  (depth_for len = 0 ∨ 2 ^ (5 * depth_for len) < len).
Proof.
  intros Hlen. unfold depth_for, BRANCH, BITS_PER_LEVEL.
  destruct (Z.leb_spec len 32) as [|Hgt]; [split; [lia|]; change (5 * (0 + 1)) with 5; lia|].
  assert (E : (Z.log2 (len - 1) + 1 + (5 - 1)) / 5 - 1 = Z.log2 (len - 1) / 5).
  { replace (Z.log2 (len - 1) + 1 + (5 - 1)) with (Z.log2 (len - 1) + 1 * 5) by lia.
    rewrite Z.div_add by lia. lia. }
  rewrite E. set (k := Z.log2 (len - 1)).
  assert (Hk : 2 ^ k <= len - 1 < 2 ^ Z.succ k) by (apply Z.log2_spec; lia).
  assert (Hk0 : 0 <= k) by apply Z.log2_nonneg.
  pose proof (Z.div_mod k 5 ltac:(lia)). pose proof (Z.mod_pos_bound k 5 ltac:(lia)).
  assert (0 <= k / 5) by (apply Z.div_pos; lia).
  assert (2 ^ Z.succ k <= 2 ^ (5 * (k / 5 + 1))) by (apply Z.pow_le_mono_r; lia).
  assert (2 ^ (5 * (k / 5)) <= 2 ^ k) by (apply Z.pow_le_mono_r; lia).
  splits; [done|lia|right; lia].
Qed.

Definition depth_nat (len : nat) : nat := Z.to_nat (depth_for (Z.of_nat len)).

Lemma depth_nat_Z len : Z.of_nat (depth_nat len) = depth_for (Z.of_nat len).
Proof.
  unfold depth_nat. destruct (depth_for_spec (Z.of_nat len)) as [H _]; [lia|]. lia.
Qed.

Lemma depth_nat_spec len :
  (len ≤ 32 ^ S (depth_nat len) ∧ (depth_nat len = 0 ∨ 32 ^ depth_nat len < len))%nat.
Proof.
  destruct (depth_for_spec (Z.of_nat len)) as (H0 & H1 & H2); [lia|].
  rewrite <- depth_nat_Z in *. pose proof (pow32 (S (depth_nat len))).
  pose proof (pow32 (depth_nat len)).
  replace (5 * (Z.of_nat (depth_nat len) + 1)) with (5 * Z.of_nat (S (depth_nat len))) in H1 by lia.
  split; [lia|]. destruct H2; [left|right]; lia.
Qed.

(** One more element deepens the trie by at most one level, and only when the
    old trie is full. *)
Lemma depth_nat_step len :
  (depth_nat (S len) = depth_nat len) ∨
  (depth_nat (S len) = S (depth_nat len) ∧ len = 32 ^ S (depth_nat len))%nat.
Proof.
  destruct (depth_nat_spec len) as [H1 H2]. destruct (depth_nat_spec (S len)) as [H3 H4].
  set (d := depth_nat len) in *. set (d' := depth_nat (S len)) in *.
  assert (Hmono : ∀ a b, (a ≤ b → 32 ^ a ≤ 32 ^ b)%nat) by (intros; apply Nat.pow_le_mono_r; lia).
  destruct (decide (d' = d)); [by left|right].
  destruct (decide (d' < d)%nat) as [Hlt|].
  - pose proof (Hmono (S d') d). lia.
  - pose proof (Hmono (S d) d'). assert (len = 32 ^ S d)%nat by lia.
    split; [|done]. destruct (decide (S (S d) ≤ d')%nat); [|lia].
    pose proof (Hmono (S (S d)) d'). pose proof (Nat.pow_succ_r' 32 (S d)).
    pose proof (pow32_pos (S d)). lia.
Qed.

(** ** The node format *)
Section format.
Context `{Laws : BigIntCodecLaws} (elem_ty : Ty).

(** The bytes of a node, as [serialize_inner] and [serialize_leaf] write it. *)
Definition enc (l : Label) (hs : list Z) : bytes :=
  match l with
  | Inner => serialize_inner hs
  | Leaf es => TAG_LEAF :: wrap_u 8 (zlen es) :: concat (cell_bytes <$> es)
  end.

(** At most 32 entries, every element storable at the element type. *)
Definition node_ok (l : Label) (hs : list Z) : Prop :=
  match l with
  | Inner => (length hs ≤ 32)%nat
  | Leaf es => (length es ≤ 32)%nat ∧ Forall (λ v, cellable elem_ty v = true) es ∧ hs = []
  end.

Lemma wrap_count {A} (l : list A) : (length l ≤ 32)%nat → wrap_u 8 (zlen l) = zlen l.
Proof.
  intros Hl. unfold wrap_u. rewrite Z.land_ones by lia. apply Z.mod_small.
  unfold zlen. change (2 ^ 8) with 256. lia.
Qed.

Lemma serialize_leaf_ok es :
  Forall (λ v, cellable elem_ty v = true) es → serialize_leaf es = Ok (enc (Leaf es) []).
Proof.
  intros Hes. unfold serialize_leaf. rewrite (mapM_out_ok _ cell_bytes); [done|].
  intros v Hv. rewrite Forall_forall in Hes. by apply (cellable_write elem_ty), Hes.
Qed.

Lemma node_codec : codec_inverts enc (deserialize_node elem_ty) node_ok.
Proof.
  intros [|es] hs Hok Hr; unfold node_ok in Hok.
  - cbn [enc]. unfold serialize_inner, deserialize_node. rewrite Z.eqb_refl.
    rewrite wrap_count by done. change (get_z _ 1) with (Some (zlen hs)).
    cbn iota. replace (Z.to_nat (zlen hs)) with (length hs) by (unfold zlen; lia).
    pose proof (read_hashes_ok hs [TAG_INNER; zlen hs] [] Hr) as E.
    rewrite app_nil_r in E. cbn [app] in E. change (zlen [TAG_INNER; zlen hs]) with 2 in E.
    by rewrite E.
  - destruct Hok as (Hlen & Hes & ->). cbn [enc]. unfold deserialize_node.
    change (TAG_LEAF =? TAG_INNER) with false. rewrite Z.eqb_refl. cbn iota.
    rewrite wrap_count by done. change (get_z _ 1) with (Some (zlen es)).
    cbn iota. replace (Z.to_nat (zlen es)) with (length es) by (unfold zlen; lia).
    pose proof (read_values_ok elem_ty es [TAG_LEAF; zlen es] [] Hes) as E.
    rewrite app_nil_r in E. cbn [app] in E. change (zlen [TAG_LEAF; zlen es]) with 2 in E.
    by rewrite E.
Qed.

Lemma node_nonempty n : deserialize_node elem_ty [] ≠ Ok (Some n).
Proof. done. Qed.

(** The nodes of the trie of a list of storable elements are well formed. *)
Lemma vtrie_in_play U d l :
  Forall (λ v, cellable elem_ty v = true) l → (length l ≤ 32 ^ S d)%nat →
  nodes NODE_NS enc (vtrie d l) ⊆ U → in_play NODE_NS enc node_ok U (vtrie d l).
Proof.
  revert l. induction d as [|d IH]; intros l Hl Hlen HU; cbn [vtrie nodes] in *.
  - constructor; [done|set_solver|constructor].
  - assert (Hc : (length (chunks (32 ^ S d) l) ≤ 32)%nat).
    { apply length_chunks_le; [apply pow32_pos|]. by rewrite <- Nat.pow_succ_r'. }
    constructor; [unfold node_ok; by rewrite !length_fmap|set_solver|].
    apply Forall_fmap.
    pose proof (chunks_bound (32 ^ S d) (pow32_pos _) l) as Hb.
    assert (Hn : ∀ c, c ∈ chunks (32 ^ S d) l → nodes NODE_NS enc (vtrie d c) ⊆ U).
    { intros c Hc' b Hb'. apply HU. right. apply list_elem_of_In, in_concat.
      exists (nodes NODE_NS enc (vtrie d c)). split; [|by apply list_elem_of_In].
      apply list_elem_of_In. rewrite <- list_fmap_compose. apply list_elem_of_fmap. eauto. }
    rewrite Forall_forall in *. intros c Hc'. destruct (Hb c Hc') as (_ & Hcl & Hin).
    apply IH; [|done|by apply Hn]. rewrite Forall_forall in Hl. apply Forall_forall. intros x Hx. by apply Hl, Hin.
Qed.
End format.

(** ** Refinement of the store operations *)
Section refinement.
Context `{Laws : BigIntCodecLaws} {St : Type} `{TxLaws St}.
Context (elem_ty : Ty) (U : list bytes).
Context (HU : no_collision NODE_NS U = true).

Local Abbreviation hash := (thash NODE_NS enc).
Local Abbreviation stored := (stored NODE_NS enc (node_ok elem_ty) U).
Local Abbreviation in_play := (in_play NODE_NS enc (node_ok elem_ty) U).
Local Abbreviation store_ok := (store_ok NODE_NS U).
Local Abbreviation returns := (returns NODE_NS U).
Local Abbreviation block d := (32 ^ d)%nat.

Lemma returns_read t s (Q : option Node → St → Prop) :
  store_ok s → stored (view s) t →
  (∀ s', extends NODE_NS U s s' → stored (view s') t → Q (Some (label t, hash <$> children t)) s') →
  returns (read_node elem_ty (hash t)) s Q.
Proof. apply returns_read_node; [apply node_codec|done]. Qed.

Lemma returns_write_leaf es s (Q : Z → St → Prop) :
  store_ok s → in_play (MNode (Leaf es) []) →
  (∀ s', extends NODE_NS U s s' → stored (view s') (MNode (Leaf es) []) →
         Q (hash (MNode (Leaf es) [])) s') →
  returns (write_leaf es) s Q.
Proof.
  intros Hs Hp HQ. inversion Hp as [? ? Hok Hin _]; subst. destruct Hok as (_ & Hes & _).
  unfold write_leaf. eapply returns_bind.
  { eapply returns_lift; [done|by apply (serialize_leaf_ok elem_ty)|]. by instantiate (1 := λ a s', a = enc (Leaf es) []). }
  intros b s1 Hext ->. eapply (returns_write_node _ _ _ _ HU (Leaf es) []);
    [by eapply extends_ok|by inversion Hp|done|constructor|].
  intros s2 Hext2 Hst. apply HQ; [by eapply extends_trans|done].
Qed.

Lemma returns_write_inner ts s (Q : Z → St → Prop) :
  store_ok s → in_play (MNode Inner ts) → Forall (stored (view s)) ts →
  (∀ s', extends NODE_NS U s s' → stored (view s') (MNode Inner ts) →
         Q (hash (MNode Inner ts)) s') →
  returns (write_inner (hash <$> ts)) s Q.
Proof.
  intros Hs Hp Hts HQ. inversion Hp as [? ? Hok Hin _]; subst. unfold write_inner.
  change (serialize_inner (hash <$> ts)) with (enc Inner (hash <$> ts)).
  exact (returns_write_node _ _ _ _ HU Inner ts s Q Hs Hok Hin Hts HQ).
Qed.

(** Reading a stored node, then continuing. *)
Lemma returns_bind_read {B} t s (f : option Node → SM St B) Q :
  store_ok s → stored (view s) t →
  (∀ s', store_ok s' → stored (view s') t → extends NODE_NS U s s' →
         returns (f (Some (label t, hash <$> children t))) s' Q) →
  returns (read_node elem_ty (hash t) ≫= f) s Q.
Proof.
  intros Hs Ht HQ. eapply returns_bind.
  - apply (returns_read t s (λ r s', r = Some (label t, hash <$> children t) ∧ stored (view s') t));
      [done..|]. intros s' He Ht'. by split.
  - intros r s' He [-> Ht']. apply HQ; [by eapply extends_ok|done..].
Qed.

Lemma stored_children vw t : stored vw t → Forall (stored vw) (children t).
Proof. by inversion 1. Qed.
Lemma in_play_children l ts : in_play (MNode l ts) → Forall in_play ts.
Proof. by inversion 1. Qed.

(** The block of a trie that holds index [n]. *)
Lemma child_hash d l n :
  ((n mod 32 ^ S (S d)) < length l)%nat →
  let q := ((n / block (S d)) mod 32)%nat in
  let c := take (block (S d)) (drop (q * block (S d)) l) in
  get_z (hash <$> (vtrie d <$> chunks (block (S d)) l)) (slot_at (Z.of_nat n) (Z.of_nat (S d)))
    = Some (hash (vtrie d c)) ∧
  chunks (block (S d)) l !! q = Some c ∧
  c !! (n mod block (S d))%nat = l !! (n mod 32 ^ S (S d))%nat ∧
  (n mod block (S d) < length c)%nat.
Proof.
  cbn zeta. intros Hn. destruct (digit_split n d) as (E & Hr & Hq). cbn zeta in E, Hr, Hq.
  set (b := block (S d)) in *. set (q := ((n / b) mod 32)%nat) in *. set (r := (n mod b)%nat) in *.
  pose proof (lookup_chunks b (pow32_pos _) q l ltac:(lia)) as Hl.
  splits; [|done| |].
  - rewrite slot_at_nat, get_z_nat, !list_lookup_fmap.
    change ((n / 32 ^ S d) mod 32)%nat with q. by rewrite Hl.
  - rewrite lookup_take_lt by done. rewrite lookup_drop. by rewrite E.
  - rewrite length_take, length_drop. lia.
Qed.

Lemma stored_child d l q c vw :
  stored vw (vtrie (S d) l) → chunks (block (S d)) l !! q = Some c → stored vw (vtrie d c).
Proof.
  intros Hs%stored_children Hc. eapply Forall_lookup_1; [exact Hs|].
  cbn [vtrie children]. by rewrite list_lookup_fmap, Hc.
Qed.

Lemma get_at_ok d l n s :
  store_ok s → stored (view s) (vtrie d l) → (n mod 32 ^ S d < length l)%nat →
  returns (get_at elem_ty (S d) (hash (vtrie d l)) (Z.of_nat d) (Z.of_nat n)) s
    (λ r _, r = l !! (n mod 32 ^ S d)%nat).
Proof.
  revert l s. induction d as [|d IH]; intros l s Hs Ht Hn; cbn [get_at].
  - apply returns_bind_read; [done..|]. intros s1 Hs1 Ht1 _. cbn [vtrie label children].
    apply returns_ret; [done|]. change 0 with (Z.of_nat 0).
    rewrite slot_at_nat, get_z_nat, Nat.pow_0_r, Nat.div_1_r. done.
  - apply returns_bind_read; [done..|]. intros s1 Hs1 Ht1 _.
    destruct (child_hash d l n Hn) as (E & Ec & Er & Hr).
    cbn [vtrie label children] in *. rewrite E.
    apply (returns_bind_lift _ (Z.of_nat d)); [apply level_below_S|].
    rewrite <- Er. apply IH; [done| |done]. by eapply (stored_child d l).
Qed.

Lemma set_at_ok d l n v s :
  store_ok s → stored (view s) (vtrie d l) → (n mod 32 ^ S d < length l)%nat →
  in_play (vtrie d (<[(n mod 32 ^ S d)%nat := v]> l)) →
  returns (set_at elem_ty (S d) (hash (vtrie d l)) (Z.of_nat d) (Z.of_nat n) v) s
    (λ r s', let t' := vtrie d (<[(n mod 32 ^ S d)%nat := v]> l) in
      r = Some (hash t') ∧ stored (view s') t').
Proof.
  revert l s. induction d as [|d IH]; intros l s Hs Ht Hn Hp; cbn [set_at].
  - apply returns_bind_read; [done..|]. intros s1 Hs1 Ht1 _. cbn [vtrie label children] in *.
    change 0 with (Z.of_nat 0).
    rewrite slot_at_nat, get_z_nat, set_z_nat, Nat.pow_0_r, Nat.div_1_r.
    rewrite Nat.pow_1_r in *.
    destruct (lookup_lt_is_Some_2 l _ Hn) as [x ->].
    eapply returns_bind.
    { apply (returns_write_leaf (<[(n mod 32)%nat:=v]> l) s1
        (λ h s', h = hash (vtrie 0 (<[(n mod 32)%nat:=v]> l)) ∧
          stored (view s') (vtrie 0 (<[(n mod 32)%nat:=v]> l)))); [done..|]. by split. }
    intros h s2 Hext [-> Hst]. apply returns_ret; [by eapply extends_ok|]. by split.
  - apply returns_bind_read; [done..|]. intros s1 Hs1 Ht1 _.
    destruct (child_hash d l n Hn) as (E & Ec & Er & Hr).
    destruct (digit_split n d) as (Em & Hrb & Hq). cbn zeta in *.
    cbn [vtrie label children] in *.
    set (b := block (S d)) in *. set (q := ((n / b) mod 32)%nat) in *.
    set (r := (n mod b)%nat) in *. set (c := take b (drop (q * b) l)) in *.
    rewrite E. rewrite Em in *. rewrite <- (insert_chunks b (pow32_pos _) q r v l) in Hp by lia.
    assert (Hc : (vtrie d <$> <[q:=<[r:=v]> c]> (chunks b l)) !! q = Some (vtrie d (<[r:=v]> c))).
    { rewrite list_lookup_fmap, list_lookup_insert_eq; [done|]. by eapply lookup_lt_Some. }
    apply (returns_bind_lift _ (Z.of_nat d)); [apply level_below_S|].
    eapply returns_bind.
    { apply (IH c s1); [done|by eapply (stored_child d l)|done|].
      eapply Forall_lookup_1; [eapply in_play_children; exact Hp|exact Hc]. }
    cbn zeta. intros o s2 Hext [-> Hst].
    rewrite slot_at_nat, set_z_nat. fold b q.
    assert (Hts : hash <$> (vtrie d <$> <[q:=<[r:=v]> c]> (chunks b l))
      = <[q := hash (vtrie d (<[r:=v]> c))]> (hash <$> (vtrie d <$> chunks b l))).
    { by rewrite <- !list_fmap_insert. }
    rewrite <- Hts. eapply returns_bind.
    { eapply (returns_write_inner _ s2
        (λ h s', h = hash (MNode Inner (vtrie d <$> <[q:=<[r:=v]> c]> (chunks b l))) ∧
          stored (view s') (MNode Inner (vtrie d <$> <[q:=<[r:=v]> c]> (chunks b l)))));
        [by eapply extends_ok|done| |by split].
      rewrite list_fmap_insert. apply Forall_insert; [|done].
      eapply Forall_impl; [exact (stored_children _ _ Ht1)|].
      intros t. by eapply stored_extends. }
    intros h s3 Hext3 [-> Hst3]. apply returns_ret; [by eapply extends_ok|].
    rewrite <- (insert_chunks b (pow32_pos _) q r v l) by lia. by split.
Qed.

(** A subtree that may be absent: [h] is the trie of [l], or EMPTY. *)
Definition holds_at (vw : Z → Value) (d : nat) (l : list Value) (h : Z) : Prop :=
  (l = [] ∧ h = EMPTY) ∨ (l ≠ [] ∧ h = hash (vtrie d l) ∧ stored vw (vtrie d l)).
Definition holds (s : St) : nat → list Value → Z → Prop := holds_at (view s).

(** Reading such a subtree. *)
Lemma returns_bind_holds {B} d l h s (f : option Node → SM St B) Q :
  store_ok s → holds s d l h →
  (∀ s' o, store_ok s' → extends NODE_NS U s s' → holds s' d l h →
     o = (if decide (l = []) then None
          else Some (label (vtrie d l), hash <$> children (vtrie d l))) →
     returns (f o) s' Q) →
  returns (read_node elem_ty h ≫= f) s Q.
Proof.
  intros Hs [[-> ->]|(Hl & -> & Ht)] HQ.
  - eapply returns_bind.
    { apply (returns_read_empty NODE_NS _ U s (λ o s', o = None ∧ s' = s)); [done|by split]. }
    intros o s' He [-> ->]. apply HQ; [done..|by left|done].
  - apply returns_bind_read; [done..|]. intros s' Hs' Ht' He.
    apply HQ; [done..|by right|]. by rewrite decide_False.
Qed.

Lemma in_play_child d cs q c :
  in_play (MNode Inner (vtrie d <$> cs)) → cs !! q = Some c → in_play (vtrie d c).
Proof.
  intros Hp%in_play_children Hc. eapply Forall_lookup_1; [exact Hp|].
  by rewrite list_lookup_fmap, Hc.
Qed.

Lemma push_at_ok d l h n v s :
  store_ok s → holds s d l h → (n mod 32 ^ S d)%nat = length l →
  in_play (vtrie d (l ++ [v])) →
  returns (push_at elem_ty d h (Z.of_nat n) v) s
    (λ h' s', h' = hash (vtrie d (l ++ [v])) ∧ stored (view s') (vtrie d (l ++ [v]))).
Proof.
  revert l h s. induction d as [|d IH]; intros l h s Hs Hh Hn Hp; cbn [push_at].
  - eapply returns_bind_holds; [done..|]. intros s1 o Hs1 _ Hh1 ->.
    assert (E : match (if decide (l = []) then None else
        Some (label (vtrie 0 l), hash <$> children (vtrie 0 l))) with
      | Some (Leaf es, _) => es | _ => [] end = l) by (by case_decide; subst).
    rewrite E. by apply (returns_write_leaf (l ++ [v]) s1).
  - eapply returns_bind_holds; [done..|]. intros s1 o Hs1 He1 Hh1 ->.
    set (b := block (S d)) in *.
    assert (E : match (if decide (l = []) then None else
        Some (label (vtrie (S d) l), hash <$> children (vtrie (S d) l))) with
      | Some (Inner, cs) => cs | _ => [] end = hash <$> (vtrie d <$> chunks b l)).
    { case_decide as Hl; [|done]. subst l. by rewrite chunks_nil by apply pow32_pos. }
    rewrite E. clear E.
    destruct (digit_split n d) as (Em & Hrb & Hq). cbn zeta in *. fold b in Em, Hrb, Hq.
    set (q := ((n / b) mod 32)%nat) in *. set (r := (n mod b)%nat) in *.
    assert (Hts : Forall (stored (view s1)) (vtrie d <$> chunks b l)).
    { destruct Hh1 as [[-> _]|(_ & _ & Ht)]; [by rewrite chunks_nil by apply pow32_pos|].
      exact (stored_children _ _ Ht). }
    rewrite slot_at_nat, get_z_nat. fold b q.
    destruct (decide (r = 0%nat)) as [Hr|Hr].
    + destruct (chunks_push_new b (pow32_pos _) q v l) as [Ec Elen]; [lia|].
      assert (Enone : (hash <$> (vtrie d <$> chunks b l)) !! q = None)
        by (apply lookup_ge_None_2; rewrite !length_fmap; lia).
      rewrite Enone. cbn [vtrie] in Hp. fold b in Hp. rewrite Ec in Hp.
      eapply returns_bind.
      { apply (IH [] EMPTY s1); [done|by left|done|].
        eapply (in_play_child d _ q [v]); [exact Hp|].
        rewrite lookup_app_r by lia. by rewrite Elen, Nat.sub_diag. }
      intros h' s2 Hext [-> Hst]. cbn [app] in *.
      replace ((hash <$> (vtrie d <$> chunks b l)) ++ [hash (vtrie d [v])])
        with (hash <$> (vtrie d <$> (chunks b l ++ [[v]]))) by (by rewrite !fmap_app).
      cbn [vtrie]. fold b. rewrite Ec.
      apply returns_write_inner; [by eapply extends_ok|done| |by split].
      rewrite fmap_app. apply Forall_app. split; [|by repeat constructor].
      eapply Forall_impl; [exact Hts|]. intros t. by eapply stored_extends.
    + destruct (chunks_push_last b (pow32_pos _) q r v l) as [Ec Elen]; [lia|lia|].
      set (c := take b (drop (q * b) l)) in *.
      assert (Hc : chunks b l !! q = Some c) by (apply lookup_chunks; [apply pow32_pos|lia]).
      rewrite !list_lookup_fmap, Hc. cbn [fmap option_fmap option_map].
      cbn [vtrie] in Hp. fold b in Hp. rewrite Ec in Hp.
      assert (Hclen : length c = r) by (unfold c; rewrite length_take, length_drop; lia).
      assert (Hst : stored (view s1) (vtrie d c)).
      { eapply Forall_lookup_1; [exact Hts|]. by rewrite list_lookup_fmap, Hc. }
      eapply returns_bind.
      { apply (IH c _ s1); [done|right; splits; [|done|done]|by rewrite Hclen|].
        { intros ->. by destruct r. }
        eapply (in_play_child d _ q); [exact Hp|]. apply list_lookup_insert_eq. lia. }
      intros h' s2 Hext [-> Hst2].
      rewrite set_z_nat, <- !list_fmap_insert. cbn [vtrie]. fold b. rewrite Ec.
      apply returns_write_inner; [by eapply extends_ok|done| |by split].
      rewrite list_fmap_insert. apply Forall_insert; [|done].
      eapply Forall_impl; [exact Hts|]. intros t. by eapply stored_extends.
Qed.

Lemma collect_elements_ok d l s :
  store_ok s → stored (view s) (vtrie d l) → (length l ≤ 32 ^ S d)%nat →
  returns (collect_elements elem_ty (S d) (hash (vtrie d l)) (Z.of_nat d) (zlen l)) s
    (λ r _, r = l).
Proof.
  revert l s. induction d as [|d IH]; intros l s Hs Ht Hlen; cbn [collect_elements].
  - apply returns_bind_read; [done..|]. intros s1 Hs1 Ht1 _. cbn [vtrie label children].
    apply returns_ret; [done|]. unfold zlen. rewrite Nat2Z.id. by apply take_ge.
  - apply returns_bind_read; [done..|]. intros s1 Hs1 Ht1 _.
    cbn [vtrie label children] in *. set (b := block (S d)) in *.
    apply stored_children in Ht1. cbn [children] in Ht1.
    assert (Hcap : Z.shiftl 1 (Z.of_nat (S d) * BITS_PER_LEVEL) = Z.of_nat b).
    { unfold BITS_PER_LEVEL, b. rewrite Z.shiftl_1_l, pow32. f_equal. lia. }
    rewrite Hcap. clear Hs Ht Hlen s Hcap.
    assert (Hgen : ∀ k l s emitted, (length l ≤ k)%nat → store_ok s →
      Forall (stored (view s)) (vtrie d <$> chunks b l) →
      returns (collect_children
        (λ c want, below ← lift (level_below (Z.of_nat (S d)));
                   collect_elements elem_ty (S d) c below want)
        (Z.of_nat b) (emitted + zlen l) (hash <$> (vtrie d <$> chunks b l)) emitted) s
        (λ r _, r = l)).
    { clear l s1 Hs1 Ht1. induction k as [|k IHk]; intros l s emitted Hk Hs Hts.
      { destruct l; [|simpl in Hk; lia]. rewrite chunks_nil by apply pow32_pos.
        by apply returns_ret. }
      destruct (decide (l = [])) as [->|Hl].
      { rewrite chunks_nil by apply pow32_pos. by apply returns_ret. }
      rewrite (chunks_cons b (pow32_pos _) l Hl) in *.
      cbn [fmap list_fmap collect_children] in *. apply Forall_cons in Hts as [Hc Hts].
      pose proof (pow32_pos (S d)) as Hbpos. fold b in Hbpos.
      assert (0 < length l)%nat by (destruct l; [done|simpl; lia]).
      destruct (Z.leb_spec (emitted + zlen l) emitted) as [|_]; [unfold zlen in *; lia|].
      set (c := take b l) in *.
      assert (Ec : Z.min (Z.of_nat b) (emitted + zlen l - emitted) = zlen c).
      { unfold zlen, c. rewrite length_take. lia. }
      rewrite Ec. eapply returns_bind.
      { apply (returns_bind_lift _ (Z.of_nat d)); [apply level_below_S|].
        apply (IH c s); [done..|]. unfold c, b. rewrite length_take. lia. }
      intros r s2 He ->. eapply returns_bind.
      { replace (emitted + zlen l) with ((emitted + zlen c) + zlen (drop b l)).
        2: { unfold c, zlen. rewrite length_take, length_drop. lia. }
        apply (IHk (drop b l) s2); [rewrite length_drop; lia|by eapply extends_ok|].
        eapply Forall_impl; [exact Hts|]. intros t. by eapply stored_extends. }
      intros r s3 He3 ->. apply returns_ret; [by eapply extends_ok|]. apply take_drop. }
    specialize (Hgen (length l) l s1 0). rewrite Z.add_0_l in Hgen. by apply Hgen.
Qed.

(** ** The abstraction

    A root and a length denote a list: the empty root denotes the empty list,
    and a root is otherwise the hash of the stored trie of the list. *)
Definition rep_at (vw : Z → Value) (root len : Z) (l : list Value) : Prop :=
  len = zlen l ∧ holds_at vw (depth_nat (length l)) l root.
Definition rep (s : St) : Z → Z → list Value → Prop := rep_at (view s).

(** The nodes of the trie of [l] at depth [d] are among those in play. *)
Definition covers (d : nat) (l : list Value) : Prop :=
  Forall (λ v, cellable elem_ty v = true) l ∧ nodes NODE_NS enc (vtrie d l) ⊆ U.

Lemma covers_in_play d l : covers d l → (length l ≤ 32 ^ S d)%nat → in_play (vtrie d l).
Proof. intros [Hc Hn] Hl. by apply vtrie_in_play. Qed.

Lemma rep_empty s : rep s EMPTY 0 [].
Proof. split; [done|by left]. Qed.

Lemma rep_extends s s' root len l :
  extends NODE_NS U s s' → rep s root len l → rep s' root len l.
Proof.
  intros He [-> [Hh|(Hl & Hr & Hst)]]; split; try done; [by left|right].
  splits; [done..|by eapply stored_extends].
Qed.

(** Equal lists have equal roots, and a root denotes one list. *)
Lemma rep_canonical s s' root root' len len' l :
  rep s root len l → rep s' root' len' l → root = root' ∧ len = len'.
Proof. intros [-> [[? ->]|(? & -> & _)]] [-> [[? ->]|(? & -> & _)]]; done. Qed.

Lemma vtrie_inj d l l' : vtrie d l = vtrie d l' → l = l'.
Proof.
  revert l l'. induction d as [|d IH]; intros l l'; cbn [vtrie]; [by intros [=]|].
  intros E%(f_equal children). cbn [children] in E.
  assert (Inj (=) (=) (vtrie d)) by (intros ???; by apply IH).
  rewrite <- (concat_chunks (32 ^ S d) (pow32_pos _) l),
    <- (concat_chunks (32 ^ S d) (pow32_pos _) l'). f_equal.
  by apply (inj (fmap (vtrie d))) in E.
Qed.

Lemma rep_inj s root len l l' :
  rep s root len l → rep s root len l' → l = l'.
Proof.
  intros [-> Hh] [El Hh'].
  assert (Elen : length l' = length l) by (unfold zlen in El; lia).
  rewrite Elen in Hh'. destruct Hh as [[-> _]|(Hl & -> & Hs)].
  - by destruct l'.
  - destruct Hh' as [[-> _]|(_ & E & Hs')]; [by destruct l|].
    apply (vtrie_inj (depth_nat (length l))).
    by apply (stored_inj _ _ _ _ _ (node_codec elem_ty) HU (view s)).
Qed.

Lemma wrap_root_ok s d l :
  store_ok s → l ≠ [] → length l = (32 ^ S d)%nat →
  stored (view s) (vtrie d l) → in_play (vtrie (S d) l) →
  returns (wrap_root 1 (hash (vtrie d l))) s
    (λ h s', h = hash (vtrie (S d) l) ∧ stored (view s') (vtrie (S d) l)).
Proof.
  intros Hs Hl Hlen Ht Hp. cbn [vtrie] in *.
  rewrite chunks_short in * by (apply pow32_pos || done || lia).
  eapply returns_bind.
  { apply (returns_write_inner [vtrie d l] s (λ h s', h = hash (MNode Inner [vtrie d l]) ∧
      stored (view s') (MNode Inner [vtrie d l]))); [done..| |by split]. by repeat constructor. }
  intros h s' He [-> Hst]. apply returns_ret; [by eapply extends_ok|by split].
Qed.

Lemma push_ok s root len l v :
  store_ok s → rep s root len l → len < u64_max →
  covers (depth_nat (S (length l))) l → covers (depth_nat (S (length l))) (l ++ [v]) →
  returns (push elem_ty root len v) s
    (λ r s', r.2 = len + 1 ∧ rep s' r.1 r.2 (l ++ [v])).
Proof.
  intros Hs [-> Hh] Hlen Hcl Hcv. unfold push.
  destruct (Z.eqb_spec (zlen l) u64_max) as [|_]; [lia|].
  destruct (depth_nat_spec (S (length l))) as [Hcap _].
  assert (Hp : in_play (vtrie (depth_nat (S (length l))) (l ++ [v]))).
  { apply covers_in_play; [done|]. rewrite length_app. simpl length. lia. }
  assert (Hend : (length l mod 32 ^ S (depth_nat (S (length l))) = length l)%nat)
    by (apply Nat.mod_small; lia).
  assert (E1 : depth_for (zlen l + 1) = Z.of_nat (depth_nat (S (length l)))).
  { rewrite depth_nat_Z. f_equal. unfold zlen. lia. }
  assert (E0 : depth_for (zlen l) = Z.of_nat (depth_nat (length l))) by (by rewrite depth_nat_Z).
  rewrite E1, E0. rewrite Nat2Z.id.
  assert (Hwrap : returns
    (wrap_root (Z.to_nat (Z.of_nat (depth_nat (S (length l))) - Z.of_nat (depth_nat (length l)))) root)
    s (λ h s', holds s' (depth_nat (S (length l))) l h)).
  { destruct (depth_nat_step (length l)) as [E|[E Hfull]]; rewrite E in *.
    - rewrite Z.sub_diag. by apply returns_ret.
    - replace (Z.to_nat _) with 1%nat by lia.
      destruct Hh as [[-> _]|(Hl & -> & Ht)].
      { exfalso. pose proof (pow32_pos (S (depth_nat (length (@nil Value))))). simpl length in *. lia. }
      eapply returns_mono.
      { apply wrap_root_ok; [done..|]. apply covers_in_play; [done|]. lia. }
      intros h s' _ [-> Hst]. by right. }
  eapply returns_bind; [exact Hwrap|]. intros h s1 He1 Hh1.
  eapply returns_bind.
  { apply (push_at_ok _ l h (length l) v s1); [by eapply extends_ok|done..]. }
  intros h' s2 He2 [-> Hst]. apply returns_ret; [by eapply extends_ok|].
  split; [done|]. cbn [fst snd]. split; [rewrite zlen_app; reflexivity|].
  replace (length (l ++ [v])) with (S (length l)) by (rewrite length_app; simpl; lia).
  right. splits; [by destruct l|done|done].
Qed.

(** [let (r, l) = push(root, len, x)] for each [x] of a list. *)
Fixpoint push_all (root len : Z) (xs : list Value) : SM St (Z * Z) :=
  match xs with
  | [] => mret (root, len)
  | x :: xs' => '(root', len') ← push elem_ty root len x; push_all root' len' xs'
  end.

Lemma push_all_ok xs s root len l :
  store_ok s → rep s root len l → zlen l + zlen xs <= u64_max →
  (∀ k, (k ≤ length xs)%nat → ∀ d, (d ≤ depth_nat (length (l ++ xs)))%nat →
    covers d (l ++ take k xs)) →
  returns (push_all root len xs) s (λ r s', rep s' r.1 r.2 (l ++ xs)).
Proof.
  revert s root len l. induction xs as [|x xs IH]; intros s root len l Hs Hr Hlen Hcov.
  - rewrite app_nil_r. by apply returns_ret.
  - assert (Hmono : (depth_nat (S (length l)) ≤ depth_nat (length (l ++ x :: xs)))%nat).
    { destruct (depth_nat_spec (S (length l))) as [_ [->|Hd1]]; [lia|].
      destruct (depth_nat_spec (length (l ++ x :: xs))) as [Hd2 _].
      rewrite length_app in *. simpl length in *.
      destruct (decide (S (depth_nat (length l + S (length xs))) ≤ depth_nat (S (length l)))%nat);
        [|lia].
      pose proof (Nat.pow_le_mono_r 32 (S (depth_nat (length l + S (length xs))))
        (depth_nat (S (length l)))). lia. }
    destruct Hr as [-> Hh]. rewrite zlen_cons in Hlen. cbn [push_all]. eapply returns_bind.
    { apply (push_ok s root (zlen l) l x); [done|by split|pose proof (zlen_nonneg xs); lia|..].
      - pose proof (Hcov 0%nat ltac:(lia) _ Hmono) as H2. cbn [take] in H2. by rewrite app_nil_r in H2.
      - pose proof (Hcov 1%nat ltac:(simpl; lia) _ Hmono) as H2. exact H2. }
    intros [root' len'] s1 He [E Hr1]. cbn [fst snd] in *. eapply returns_mono.
    { apply (IH s1 root' len' (l ++ [x])); [by eapply extends_ok|done|rewrite zlen_app; unfold zlen in *; simpl; lia|].
      intros k Hk d Hd. rewrite <- !app_assoc in *. cbn [app] in *.
      apply (Hcov (S k)); [simpl; lia|done]. }
    intros r s' _ Hr'. by rewrite <- app_assoc in Hr'.
Qed.

Lemma top_index (l : list Value) n :
  (n < length l)%nat → (n mod 32 ^ S (depth_nat (length l)) = n)%nat.
Proof.
  intros Hn. apply Nat.mod_small. destruct (depth_nat_spec (length l)) as [? _]. lia.
Qed.

Lemma level_fuel_nat d : level_fuel (Z.of_nat d) = S d.
Proof. unfold level_fuel. by rewrite Nat2Z.id. Qed.

Lemma in_bounds s root l n :
  rep s root (zlen l) l → (n < length l)%nat →
  root = hash (vtrie (depth_nat (length l)) l) ∧ stored (view s) (vtrie (depth_nat (length l)) l).
Proof. intros [_ [[-> _]|(_ & Hr & Hst)]] Hn; [simpl in Hn; lia|done]. Qed.

(** [get] answers the element at the index, and outside the vector the
    out-of-bounds error with the store untouched. *)
Theorem pvec_get_spec s root len l i span :
  store_ok s → rep s root len l → 0 <= i →
  match get_z l i with
  | Some v => returns (get elem_ty root len i span) s (λ r _, r = v)
  | None => get elem_ty root len i span s = (Err (pvec_error (out_of_bounds i len) span), s)
  end.
Proof.
  intros Hs Hr Hi. pose proof Hr as [-> _]. unfold get.
  destruct (Z.leb_spec (zlen l) i) as [Hout|Hin].
  - unfold get_z. destruct (Z.ltb_spec i 0); [lia|].
    rewrite lookup_ge_None_2 by (unfold zlen in *; lia). done.
  - replace i with (Z.of_nat (Z.to_nat i)) in * by lia. set (n := Z.to_nat i) in *.
    assert (Hn : (n < length l)%nat) by (unfold zlen in *; lia).
    destruct (in_bounds s root l n Hr Hn) as [-> Ht].
    rewrite get_z_nat. destruct (lookup_lt_is_Some_2 l n Hn) as [v Hv]. rewrite Hv.
    change (zlen l) with (Z.of_nat (length l)). rewrite <- depth_nat_Z, level_fuel_nat.
    eapply returns_bind; [apply get_at_ok; [done..|by rewrite top_index]|].
    intros r s' He ->. rewrite top_index, Hv by done. apply returns_ret; [by eapply extends_ok|done].
Qed.

(** C4: [set] in bounds answers the root of the updated list, leaving the old
    root readable; out of bounds it answers the error and writes nothing. *)
Theorem pvec_set_spec s root len l i v span :
  store_ok s → rep s root len l → 0 <= i →
  covers (depth_nat (length l)) (set_z l i v) →
  if i <? len
  then returns (set elem_ty root len i v span) s
         (λ r s', rep s' r len (set_z l i v) ∧ rep s' root len l)
  else set elem_ty root len i v span s = (Err (pvec_error (out_of_bounds i len) span), s).
Proof.
  intros Hs Hr Hi Hcov. pose proof Hr as [-> _]. unfold set.
  destruct (Z.ltb_spec i (zlen l)) as [Hin|Hout].
  2: { destruct (Z.leb_spec (zlen l) i); [done|lia]. }
  destruct (Z.leb_spec (zlen l) i) as [|_]; [lia|].
  replace i with (Z.of_nat (Z.to_nat i)) in * by lia. set (n := Z.to_nat i) in *.
  assert (Hn : (n < length l)%nat) by (unfold zlen in *; lia).
  destruct (in_bounds s root l n Hr Hn) as [-> Ht]. rewrite set_z_nat in *.
  change (zlen l) with (Z.of_nat (length l)) at 1 2. rewrite <- depth_nat_Z, level_fuel_nat.
  destruct (depth_nat_spec (length l)) as [Hcap _].
  eapply returns_bind.
  { apply (set_at_ok (depth_nat (length l)) l n v s); [done..|by rewrite top_index|].
    rewrite top_index by done. apply covers_in_play; [done|by rewrite length_insert]. }
  cbn zeta. intros r s' He [-> Hst]. rewrite top_index in * by done.
  apply returns_ret; [by eapply extends_ok|]. split; [|by eapply rep_extends].
  split; [unfold zlen; by rewrite length_insert|]. rewrite length_insert. right.
  splits; [|done..]. intros E. apply (f_equal length) in E. rewrite length_insert in E.
  simpl in E. lia.
Qed.

(** C5: [push] appends: the new root and length denote the old list followed by
    the value, and the old root still denotes the old list. *)
Theorem pvec_push_spec s root len l v :
  store_ok s → rep s root len l → len < u64_max →
  covers (depth_nat (S (length l))) l → covers (depth_nat (S (length l))) (l ++ [v]) →
  returns (push elem_ty root len v) s
    (λ r s', r.2 = len + 1 ∧ rep s' r.1 r.2 (l ++ [v]) ∧ rep s' root len l).
Proof.
  intros Hs Hr Hlen Hl Hv. eapply returns_mono; [by apply push_ok|].
  intros [root' len'] s' He [E Hr']. cbn [fst snd] in *. splits; [done..|by eapply rep_extends].
Qed.

(** [to_vec] of a vector grown by any number of pushes from the empty root
    gives back the pushed values, in order. *)
Theorem pvec_collect_pushes s xs :
  store_ok s → zlen xs <= u64_max →
  (∀ k, (k ≤ length xs)%nat → ∀ d, (d ≤ depth_nat (length xs))%nat → covers d (take k xs)) →
  returns ('(root, len) ← push_all EMPTY 0 xs; to_vec elem_ty root len) s (λ r _, r = xs).
Proof.
  intros Hs Hlen Hcov. eapply returns_bind.
  { apply (push_all_ok xs s EMPTY 0 []); [done|apply rep_empty|done|exact Hcov]. }
  intros [root len] s1 He Hr. cbn [fst snd app] in *. pose proof Hr as [-> _]. unfold to_vec.
  destruct (Z.eqb_spec (zlen xs) 0) as [E|E].
  { apply returns_ret; [by eapply extends_ok|]. destruct xs; [done|]. unfold zlen in E. simpl in E. lia. }
  destruct (in_bounds s1 root xs 0 Hr) as [-> Ht]; [unfold zlen in E; lia|].
  destruct (depth_nat_spec (length xs)) as [Hcap _].
  change (zlen xs) with (Z.of_nat (length xs)) at 1 2. rewrite <- depth_nat_Z, level_fuel_nat.
  apply collect_elements_ok; [by eapply extends_ok|done..].
Qed.

End refinement.
