(* ===== verification/PvecMerge.v ===== *)
(** The three-way merge of persistent vectors ([pvec::merge_three_way])
    computes the element-wise three-way merge of the lists the roots denote. *)
From S2P Require Import Prelude Bytes Hashing Values Serialize SerializeFacts Kv Merkle.
From S2P Require Import NodeCodec Pvec PvecFacts.
Import Pvec.

(** ** Element-wise merge *)

Lemma merge_elements_length la lb lc lm :
  length la = length lb → merge_elements la lb lc = Some lm → length lm = length la.
Proof.
  revert lb lc lm. induction la as [|a la IH]; intros [|b lb] lc lm Hlen; cbn; try done.
  { by intros [= <-]. }
  destruct (if decide _ then _ else _) as [v|]; [|done]. cbn.
  destruct (merge_elements la lb (tail lc)) as [r|] eqn:E; [|done]. cbn.
  intros [= <-]. cbn. f_equal. apply (IH lb (tail lc)); [simpl in Hlen; lia|done].
Qed.

Lemma merge_elements_same la lc : merge_elements la la lc = Some la.
Proof.
  revert lc. induction la as [|a la IH]; intros lc; cbn; [done|].
  rewrite decide_True by done. cbn. by rewrite IH.
Qed.

(** Only the other side changed. *)
Lemma merge_elements_base_l la lb : length la = length lb → merge_elements la lb la = Some lb.
Proof.
  revert lb. induction la as [|a la IH]; intros [|b lb] Hlen; cbn; try done.
  destruct (decide (a = b)) as [->|]; cbn; [|rewrite decide_True by done; cbn];
    by rewrite IH by (simpl in Hlen; lia).
Qed.

Lemma merge_elements_base_r la lb : length la = length lb → merge_elements la lb lb = Some la.
Proof.
  revert lb. induction la as [|a la IH]; intros [|b lb] Hlen; cbn; try done.
  destruct (decide (a = b)) as [->|]; cbn; [by rewrite IH by (simpl in Hlen; lia)|].
  rewrite decide_False by congruence. rewrite decide_True by done. cbn.
  by rewrite IH by (simpl in Hlen; lia).
Qed.

Lemma merge_elements_app la1 la2 lb1 lb2 lc1 lc2 :
  length la1 = length lb1 → length lc1 = length lb1 →
  merge_elements (la1 ++ la2) (lb1 ++ lb2) (lc1 ++ lc2) =
    m1 ← merge_elements la1 lb1 lc1; m2 ← merge_elements la2 lb2 lc2; Some (m1 ++ m2).
Proof.
  revert lb1 lc1. induction la1 as [|a la1 IH]; intros [|b lb1] [|c lc1] H1 H2; try done; cbn.
  { by destruct (merge_elements la2 lb2 lc2). }
  destruct (if decide _ then _ else _) as [v|]; [|done]. cbn.
  rewrite IH by (simpl in *; lia).
  destruct (merge_elements la1 lb1 lc1) as [m1|]; [|done]. cbn.
  by destruct (merge_elements la2 lb2 lc2).
Qed.

(** Every merged element comes from one of the two sides. *)
Lemma merge_elements_from la lb lc lm (P : Value → Prop) :
  merge_elements la lb lc = Some lm → Forall P la → Forall P lb → Forall P lm.
Proof.
  revert lb lc lm. induction la as [|a la IH]; intros [|b lb] lc lm; cbn;
    try (intros [= <-]; by constructor).
  destruct (if decide _ then _ else _) as [v|] eqn:Ev; [|done]. cbn.
  destruct (merge_elements la lb (tail lc)) as [r|] eqn:E; [|done]. cbn.
  intros [= <-] [Ha Hla]%Forall_cons [Hb Hlb]%Forall_cons. constructor; [|by eapply IH].
  repeat case_decide; simplify_eq; done.
Qed.

(** The merge, position by position. *)
Lemma merge_elements_lookup la lb lc lm :
  length la = length lb → length lc = length lb →
  (merge_elements la lb lc = Some lm ↔
   length lm = length la ∧
   ∀ i a b c, la !! i = Some a → lb !! i = Some b → lc !! i = Some c →
     (a = b ∧ lm !! i = Some a) ∨ (a ≠ b ∧ a = c ∧ lm !! i = Some b) ∨
     (a ≠ b ∧ a ≠ c ∧ b = c ∧ lm !! i = Some a)).
Proof.
  revert lb lc lm. induction la as [|a la IH]; intros [|b lb] [|c lc] lm H1 H2; try done.
  - cbn. split; [intros [= <-]; by split|]. intros [Hl _]. by destruct lm.
  - cbn [merge_elements head tail]. split.
    + destruct (if decide _ then _ else _) as [v|] eqn:Ev; [|done]. cbn.
      destruct (merge_elements la lb lc) as [r|] eqn:E; [|done]. cbn. intros [= <-].
      apply IH in E as [El Ei]; [|simpl in *; lia..].
      split; [simpl; lia|]. intros [|i] a' b' c'; cbn; [|apply Ei].
      intros [= <-] [= <-] [= <-].
      destruct (decide (a = b)); [left; by simplify_eq|].
      destruct (decide (Some a = Some c)); [right; left; by simplify_eq|].
      destruct (decide (Some b = Some c)); [right; right|done]. simplify_eq.
      splits; [done|congruence|done|done].
    + intros [Hl Hi]. destruct lm as [|m lm]; [done|].
      assert (E : merge_elements la lb lc = Some lm).
      { apply IH; [simpl in *; lia..|]. split; [simpl in *; lia|].
        intros i a' b' c' Ha Hb Hc. exact (Hi (S i) a' b' c' Ha Hb Hc). }
      rewrite E. specialize (Hi 0%nat a b c eq_refl eq_refl eq_refl). cbn in Hi.
      destruct Hi as [[-> [= ->]]|[(Hab & -> & [= ->])|(Hab & Hac & -> & [= ->])]].
      * by rewrite decide_True.
      * rewrite decide_False by done. by rewrite decide_True.
      * rewrite decide_False by done. rewrite decide_False by congruence. by rewrite decide_True.
Qed.

(** One position fails to merge exactly when both sides changed it apart. *)
Lemma reconcile_none (a b c : Value) :
  (if decide (a = b) then Some a
   else if decide (Some a = Some c) then Some b
   else if decide (Some b = Some c) then Some a else None) = None ↔
  a ≠ b ∧ a ≠ c ∧ b ≠ c.
Proof.
  destruct (decide (a = b)); [split; [done|by intros []]|].
  destruct (decide (Some a = Some c)) as [E|E]; [split; [done|intros (_ & ? & _); congruence]|].
  destruct (decide (Some b = Some c)) as [E'|E']; [split; [done|intros (_ & _ & ?); congruence]|].
  split; [|done]. intros _. splits; congruence.
Qed.

(** ** The tree merge *)
Section merge.
Context `{Laws : BigIntCodecLaws} (kv : Kv) (elem_ty : Ty) (U : list bytes).
Context (HU : no_collision NODE_NS U = true).

Local Abbreviation hash := (thash NODE_NS enc).
Local Abbreviation stored := (stored NODE_NS enc (node_ok elem_ty) U).
Local Abbreviation in_play := (in_play NODE_NS enc (node_ok elem_ty) U).
Local Abbreviation node_cells := (node_cells NODE_NS U).
Local Abbreviation block d := (32 ^ d)%nat.
Local Abbreviation vw := (kv_view kv).

Lemma read_stored t :
  stored vw t → read_node_kv kv elem_ty (hash t) = Ok (Some (label t, hash <$> children t)).
Proof.
  intros Ht. apply (read_node_kv_stored NODE_NS enc _ (node_ok elem_ty) U); [|done| |done].
  - apply node_codec.
  - apply node_nonempty.
Qed.

Lemma hash_eqb d l l' :
  stored vw (vtrie d l) → stored vw (vtrie d l') →
  (hash (vtrie d l) =? hash (vtrie d l')) = bool_decide (l = l').
Proof.
  intros Hs Hs'. case_bool_decide as E; [subst; apply Z.eqb_refl|].
  apply Z.eqb_neq. intros Eh. apply E. apply (vtrie_inj d).
  by apply (stored_inj _ _ _ _ _ (node_codec elem_ty) HU vw).
Qed.

(** The merged trie, with the cells it adds after those already in [out]. *)
Definition merges (d : nat) (la lb lc : list Value) (out : Cells)
    (r : outcome (option (Z * Cells))) : Prop :=
  ∃ new, r = Ok ((λ lm, (hash (vtrie d lm), out ++ new)) <$> merge_elements la lb lc) ∧
    ∀ lm, merge_elements la lb lc = Some lm → in_play (vtrie d lm) →
      node_cells new ∧ stored (add_cells vw new) (vtrie d lm).

Lemma leaf_cellable l vw' : stored vw' (vtrie 0 l) → Forall (λ v, cellable elem_ty v = true) l.
Proof. inversion 1 as [? ? Hok]; subst. by destruct Hok as (_ & ? & _). Qed.

Lemma emit_ok t bs out :
  bs = enc (label t) (hash <$> children t) →
  emit bs out = Ok (Some (hash t, out ++ [(hash t, bs)])).
Proof. intros ->. by destruct t. Qed.

(** Writing the root of a merged tree whose children are stored. *)
Lemma stored_emit l ts new :
  in_play (MNode l ts) → node_cells new → Forall (stored (add_cells vw new)) ts →
  node_cells (new ++ [(hash (MNode l ts), enc l (hash <$> ts))]) ∧
  stored (add_cells vw (new ++ [(hash (MNode l ts), enc l (hash <$> ts))])) (MNode l ts).
Proof.
  intros Hp Hn Hts. inversion Hp as [? ? Hok Hin _]; subst.
  assert (Hn1 : node_cells [(hash (MNode l ts), enc l (hash <$> ts))]) by (by repeat constructor).
  split; [by apply Forall_app|]. rewrite add_cells_app. constructor; [done..| |].
  - cbn. by rewrite decide_True.
  - eapply Forall_impl; [exact Hts|]. intros t. by apply stored_add_cells.
Qed.

Section children.
Context (d : nat) (merge : Z → Z → Z → Cells → outcome (option (Z * Cells))).
Context (Hmerge : ∀ la lb lc out,
  length la = length lb → length lc = length lb →
  stored vw (vtrie d la) → stored vw (vtrie d lb) → stored vw (vtrie d lc) →
  merges d la lb lc out (merge (hash (vtrie d la)) (hash (vtrie d lb)) (hash (vtrie d lc)) out)).

Lemma merge_children_ok k la lb lc out :
  (length la ≤ k)%nat → length la = length lb → length lc = length lb →
  Forall (stored vw) (vtrie d <$> chunks (block (S d)) la) →
  Forall (stored vw) (vtrie d <$> chunks (block (S d)) lb) →
  Forall (stored vw) (vtrie d <$> chunks (block (S d)) lc) →
  ∃ new, merge_children merge (hash <$> (vtrie d <$> chunks (block (S d)) la))
      (hash <$> (vtrie d <$> chunks (block (S d)) lb))
      (hash <$> (vtrie d <$> chunks (block (S d)) lc)) out
    = Ok ((λ lm, (hash <$> (vtrie d <$> chunks (block (S d)) lm), out ++ new)) <$>
          merge_elements la lb lc) ∧
    ∀ lm, merge_elements la lb lc = Some lm →
      Forall in_play (vtrie d <$> chunks (block (S d)) lm) →
      node_cells new ∧ Forall (stored (add_cells vw new)) (vtrie d <$> chunks (block (S d)) lm).
Proof.
  generalize (block (S d)) (pow32_pos (S d)). intros b Hb.
  revert la lb lc out. induction k as [|k IH]; intros la lb lc out Hk H1 H2 Ha Hlb Hc.
  { destruct la, lb, lc; try (simpl in *; lia). rewrite !chunks_nil by done.
    exists []. cbn. rewrite app_nil_r. split; [by rewrite chunks_nil by done|].
    intros lm [= <-] _. rewrite chunks_nil by done. split; constructor. }
  destruct (decide (la = [])) as [->|Hla].
  { destruct lb, lc; try (simpl in *; lia). rewrite !chunks_nil by done.
    exists []. cbn. rewrite app_nil_r. split; [by rewrite chunks_nil by done|].
    intros lm [= <-] _. rewrite chunks_nil by done. split; constructor. }
  assert (lb ≠ []) by (intros ->; by destruct la). assert (lc ≠ []) by (intros ->; by destruct lb).
  rewrite (chunks_cons b Hb la), (chunks_cons b Hb lb), (chunks_cons b Hb lc) in * by done.
  cbn [fmap list_fmap merge_children head tail] in *.
  apply Forall_cons in Ha as [Ha1 Ha2]. apply Forall_cons in Hlb as [Hb1 Hb2].
  apply Forall_cons in Hc as [Hc1 Hc2].
  destruct (Hmerge (take b la) (take b lb) (take b lc) out) as (n1 & E1 & F1);
    [rewrite !length_take; lia..|done|done|done|].
  cbn [from_option id].
  pose proof (merge_elements_app (take b la) (drop b la) (take b lb) (drop b lb)
    (take b lc) (drop b lc)) as E. rewrite !take_drop in E.
  rewrite E by (rewrite !length_take; lia). clear E.
  destruct (merge_elements (take b la) (take b lb) (take b lc)) as [m1|] eqn:Em1;
    [|rewrite E1; by exists []].
  assert (Hm1 : length m1 = length (take b la)).
  { eapply merge_elements_length; [|exact Em1]. rewrite !length_take. lia. }
  rewrite length_take in Hm1. rewrite E1. cbn [fmap option_fmap option_map bind_opt].
  assert (0 < length la)%nat by (destruct la; [done|cbn; lia]).
  destruct (IH (drop b la) (drop b lb) (drop b lc) (out ++ n1)) as (n2 & E2 & F2);
    [by rewrite length_drop; lia|by rewrite !length_drop; lia|by rewrite !length_drop; lia|
     exact Ha2|exact Hb2|exact Hc2|].
  rewrite !option_bind_Some.
  destruct (merge_elements (drop b la) (drop b lb) (drop b lc)) as [m2|] eqn:Em2;
    [|exists []; split; [by rewrite E2|done]].
  assert (Hm2 : length m2 = length (drop b la)).
  { eapply merge_elements_length; [|exact Em2]. rewrite !length_drop. lia. }
  rewrite length_drop in Hm2. rewrite E2. rewrite !option_bind_Some.
  assert (Ech : chunks b (m1 ++ m2) = m1 :: chunks b m2).
  { destruct (decide (length la ≤ b)%nat).
    - assert (m2 = []) as -> by (destruct m2; [done|cbn in Hm2; lia]).
      rewrite app_nil_r, chunks_nil by done. apply chunks_short; [done| |lia].
      intros ->. cbn in Hm1. lia.
    - destruct (chunks_app b Hb 1 m1 m2) as [Eq _]; [lia|]. rewrite Eq.
      rewrite (chunks_short b Hb m1); [done|intros ->; cbn in Hm1; lia|lia]. }
  exists (n1 ++ n2). split.
  { cbn [fmap option_fmap option_map bind_opt]. rewrite Ech. cbn. by rewrite <- app_assoc. }
  intros lm [= <-]. rewrite Ech. cbn. intros [Hp1 Hp2]%Forall_cons.
  destruct (F1 m1 eq_refl Hp1) as [Hn1 Hs1]. destruct (F2 m2 eq_refl Hp2) as [Hn2 Hs2].
  split; [by apply Forall_app|]. rewrite add_cells_app. constructor.
  - by apply stored_add_cells.
  - eapply Forall_impl; [exact Hs2|]. intros t. apply stored_mono. intros b' Hb'.
    apply (add_cells_mono NODE_NS U); [|done]. intros b0 Hb0. by apply (add_cells_keep NODE_NS U HU).
Qed.
End children.

Lemma merges_shortcut d la lb lc l out :
  merge_elements la lb lc = Some l → stored vw (vtrie d l) →
  merges d la lb lc out (Ok (Some (hash (vtrie d l), out))).
Proof.
  intros E Hs. exists []. rewrite E, app_nil_r. split; [done|].
  intros lm [= <-] _. split; [constructor|done].
Qed.

Lemma merge_at_ok d f la lb lc out :
  (d ≤ f)%nat → length la = length lb → length lc = length lb →
  stored vw (vtrie d la) → stored vw (vtrie d lb) → stored vw (vtrie d lc) →
  merges d la lb lc out
    (merge_at kv elem_ty (S f) (hash (vtrie d la)) (hash (vtrie d lb)) (hash (vtrie d lc))
       (Z.of_nat d) out).
Proof.
  revert f la lb lc out. induction d as [|d IH]; intros f la lb lc out Hf Hab Hcb Ha Hb Hc;
    cbn [merge_at]; rewrite !hash_eqb by done;
    (case_bool_decide as E1; [subst; apply merges_shortcut; [apply merge_elements_same|done]|]);
    (case_bool_decide as E2; [subst; apply merges_shortcut; [by apply merge_elements_base_l|done]|]);
    (case_bool_decide as E3; [subst; apply merges_shortcut; [by apply merge_elements_base_r|done]|]);
    rewrite !read_stored by done; cbn [vtrie label children bind_opt]; unfold mbind, outcome_bind.
  - unfold zlen. rewrite Hab, Z.eqb_refl. cbn [negb]. destruct (merge_elements la lb lc) as [lm|] eqn:Em.
    2: { exists []. rewrite Em. by split. }
    assert (Hcell : Forall (λ v, cellable elem_ty v = true) lm).
    { eapply merge_elements_from; [exact Em|by eapply leaf_cellable..]. }
    rewrite (serialize_leaf_ok elem_ty lm Hcell). cbn [mbind outcome_bind].
    rewrite (emit_ok (MNode (Leaf lm) [])) by done.
    eexists. rewrite Em. split; [done|]. intros lm' [= <-] Hp.
    apply (stored_emit (Leaf lm) [] []); [exact Hp|constructor|constructor].
  - unfold zlen. rewrite !length_fmap. unfold chunks at 1 2. rewrite !length_fmap, !length_seq, Hab, Z.eqb_refl.
    cbn [negb].
    destruct f as [|f]; [lia|].
    destruct (merge_children_ok d (λ x y z o, below ← level_below (Z.of_nat (S d));
        merge_at kv elem_ty (S f) x y z below o)) with (k := length la) (la := la) (lb := lb)
        (lc := lc) (out := out) as (new & E & F); try done.
    { intros la' lb' lc' o ?????. rewrite level_below_S. apply IH; [lia|done..]. }
    { exact (stored_children _ _ _ _ Ha). }
    { exact (stored_children _ _ _ _ Hb). }
    { exact (stored_children _ _ _ _ Hc). }
    unfold mbind, outcome_bind in E. rewrite E.
    destruct (merge_elements la lb lc) as [lm|] eqn:Em.
    2: { exists []. rewrite Em. by split. }
    cbn [fmap option_fmap option_map bind_opt].
    rewrite (emit_ok (vtrie (S d) lm)) by done.
    eexists. rewrite Em. split; [by rewrite <- app_assoc|]. intros lm' [= <-] Hp.
    destruct (F lm eq_refl) as [Hn Hs]; [by apply in_play_children in Hp|].
    by apply (stored_emit Inner _ new).
Qed.


(** What the element-wise merge is: at every index the merged value is the
    common one, or that of the only side that changed; the merge fails exactly
    when some index was changed by both sides to different values. *)
Theorem pvec_merge_elements_spec la lb lc :
  length la = length lb → length lc = length lb →
  (∀ lm, merge_elements la lb lc = Some lm ↔
    length lm = length la ∧
    ∀ i a b c, la !! i = Some a → lb !! i = Some b → lc !! i = Some c →
      (a = b ∧ lm !! i = Some a) ∨ (a ≠ b ∧ a = c ∧ lm !! i = Some b) ∨
      (a ≠ b ∧ a ≠ c ∧ b = c ∧ lm !! i = Some a)) ∧
  (merge_elements la lb lc = None ↔
    ∃ i a b c, la !! i = Some a ∧ lb !! i = Some b ∧ lc !! i = Some c ∧
      a ≠ b ∧ a ≠ c ∧ b ≠ c).
Proof.
  intros Hab Hcb. split; [intros lm; by apply merge_elements_lookup|].
  revert lb lc Hab Hcb. induction la as [|a la IH]; intros [|b lb] [|c lc] Hab Hcb; try done.
  - split; [done|]. by intros (i & ? & ? & ? & ? & _).
  - cbn [merge_elements head tail].
    assert (Hrest : (∃ i x y z, la !! i = Some x ∧ lb !! i = Some y ∧ lc !! i = Some z ∧
        x ≠ y ∧ x ≠ z ∧ y ≠ z) →
      ∃ i x y z, (a :: la) !! i = Some x ∧ (b :: lb) !! i = Some y ∧ (c :: lc) !! i = Some z ∧
        x ≠ y ∧ x ≠ z ∧ y ≠ z) by (intros (i & Hi); by exists (S i)).
    assert (IH' := IH lb lc ltac:(cbn in *; lia) ltac:(cbn in *; lia)).
    pose proof (reconcile_none a b c) as Hn.
    destruct (if decide (a = b) then _ else _) as [v|]; cbn.
    + destruct (merge_elements la lb lc) as [r|]; cbn.
      * split; [done|]. intros ([|i] & x & y & z & Hx & Hy & Hz & Hne).
        { cbn in Hx, Hy, Hz. injection Hx as <-. injection Hy as <-. injection Hz as <-.
          by apply Hn in Hne. }
        exfalso. assert (Some r = None) by (apply IH'; by exists i, x, y, z). done.
      * split; [|done]. intros _. apply Hrest. by apply IH'.
    + split; [|done]. intros _. exists 0%nat, a, b, c. cbn. splits; try done; by apply Hn.
Qed.
End merge.
