(* ===== verification/PmapNode.v ===== *)
(** Nodes of the persistent map ([crates/rend/src/pmap.rs]): hash bits, the
    wire format of inner nodes and leaves, and the canonical entry order. *)
From S2P Require Import Prelude Bytes Hashing Values Serialize NodeCodec.

Definition BRANCH : Z := 32.
Definition BITS_PER_LEVEL : Z := 5.
Definition MAX_LEVELS : Z := 10.
Definition TAG_INNER : Z := 0x01.
Definition TAG_LEAF : Z := 0x02.
Definition NODE_NS : Z := 0x504D41504E4F4445504D41504E4F4445.

(** [enum Node]: [Node::Inner { bitmap, children }] is
    [(Inner bitmap, children)], [Node::Leaf { entries }] is
    [(Leaf entries, [])]. *)
Inductive Label := Inner (bitmap : Z) | Leaf (entries : list (Value * Value)).
Definition Node : Type := Label * list Z.

(** ** Bits *)

(** Slot positions set in a 32-bit map, in ascending order. *)
Definition slots (bitmap : Z) : list Z := filter (λ i, Z.testbit bitmap i = true) (seqZ 0 BRANCH).

(** [u32::count_ones]. *)
Definition count_ones (bitmap : Z) : Z := zlen (slots bitmap).

(** [1u32 << slot]. *)
Definition bit_of (slot : Z) : Z := Z.shiftl 1 slot.

(** [bitmap & bit != 0]. *)
Definition has_bit (bitmap bit : Z) : bool := negb (Z.land bitmap bit =? 0).

(** [(bitmap & (bit - 1)).count_ones() as usize]. *)
Definition child_index (bitmap bit : Z) : Z := count_ones (Z.land bitmap (bit - 1)).

(** The slot of a hash at a level, when the shift is in range. *)
Definition slot (h level : Z) : Z := Z.land (Z.shiftr h (level * BITS_PER_LEVEL)) (BRANCH - 1).

(** [bits_at]: a shift by 64 or more panics. *)
Definition bits_at (h level : Z) : outcome Z :=
  if level * BITS_PER_LEVEL <? 64 then Ok (slot h level) else Panic.

Section format.
Context `{BigIntCodec}.

(** [child(0, &serialize(key)) as u64]. *)
Definition hash_key (key : Value) : outcome Z :=
  bs ← serialize key; Ok (wrap_u 64 (child 0 bs)).

(** ** The canonical order of entries

    [sort_by] is stable: insertion sort on the serialized keys gives its
    answer. *)
Fixpoint insert_entry (x : bytes * (Value * Value)) (l : list (bytes * (Value * Value))) :
    list (bytes * (Value * Value)) :=
  match l with
  | [] => [x]
  | y :: l' => if bytes_leb x.1 y.1 then x :: l else y :: insert_entry x l'
  end.

Definition sort_entries (entries : list (Value * Value)) : outcome (list (Value * Value)) :=
  keyed ← mapM_out (λ e, kb ← serialize e.1; Ok (kb, e)) entries;
  Ok (snd <$> foldr insert_entry [] keyed).

(** ** Wire format *)
Definition serialize_inner (bitmap : Z) (children : list Z) : bytes :=
  TAG_INNER :: be_bytes 4 bitmap ++ wrap_u 8 (zlen children) :: write_hashes children.

Definition write_pair (e : Value * Value) : outcome bytes :=
  kb ← write_value e.1; vb ← write_value e.2; Ok (kb ++ vb).

Definition serialize_leaf (entries : list (Value * Value)) : outcome bytes :=
  ordered ← sort_entries entries;
  body ← mapM_out write_pair ordered;
  Ok (TAG_LEAF :: be_bytes 4 (zlen ordered) ++ concat body).

Definition deserialize_node (key_ty val_ty : Ty) (bs : bytes) : outcome (option Node) :=
  match bs with
  | [] => Ok None
  | tag :: _ =>
      if tag =? TAG_INNER then
        bitmap <-! be_at bs 1 4;
        n <-! get_z bs 5;
        '(children, _) <-! read_hashes (Z.to_nat n) bs 6;
        Ok (if count_ones bitmap =? n then Some (Inner bitmap, children) else None)
      else if tag =? TAG_LEAF then
        n <-! be_at bs 1 4;
        '(entries, _) <-? read_pairs (Z.to_nat n) key_ty val_ty bs 5;
        Ok (Some (Leaf entries, []))
      else Ok None
  end.
End format.

(** [entries.iter().find(|(k, _)| k == key).map(|(_, v)| v)]. *)
Definition find_entry (key : Value) (entries : list (Value * Value)) : option Value :=
  snd ∘ snd <$> list_find (λ e, e.1 = key) entries.

(** [entries.iter().position(|(k, _)| k == key)]. *)
Definition position (key : Value) (entries : list (Value * Value)) : option nat :=
  fst <$> list_find (λ e, e.1 = key) entries.
