(* ===== verification/Pmap.v ===== *)
(** Persistent map: a 32-way hash array mapped trie whose nodes are
    content-addressed cells ([crates/rend/src/pmap.rs]).  Definitions only; the
    refinement is in [PmapFacts]. *)
From S2P Require Import Prelude Bytes Hashing Values Serialize Kv Merkle NodeCodec.
From S2P Require Export PmapNode.

Module Pmap.
Section ops.
Context `{BigIntCodec} {St : Type} `{TxOps St}.
Context (key_ty val_ty : Ty).

Definition read_node (hash : Z) : SM St (option Node) :=
  Merkle.read_node (deserialize_node key_ty val_ty) hash.

Definition write_leaf (entries : list (Value * Value)) : SM St Z :=
  bs ← lift (serialize_leaf entries); write_node NODE_NS bs.
Definition write_inner (bitmap : Z) (children : list Z) : SM St Z :=
  write_node NODE_NS (serialize_inner bitmap children).

(** Levels 0 to 12 have hash bits; the slot computation panics beyond them, so
    14 recursive calls never run out of fuel. *)
Definition LEVEL_FUEL : nat := 14.

(** ** Lookup *)
Fixpoint get_at (fuel : nat) (node_hash : Z) (key : Value) (h level : Z) :
    SM St (option Value) :=
  match fuel with
  | O => lift OutOfFuel
  | S fuel' =>
      node ← read_node node_hash;
      match node with
      | None => mret None
      | Some (Leaf entries, _) => mret (find_entry key entries)
      | Some (Inner bitmap, cs) =>
          slot ← lift (bits_at h level);
          let bit := bit_of slot in
          if negb (has_bit bitmap bit) then mret None else
          c ← lift (or_panic (get_z cs (child_index bitmap bit)));
          get_at fuel' c key h (level + 1)
      end
  end.

Definition get (root_hash : Z) (key : Value) : SM St (option Value) :=
  if root_hash =? EMPTY then mret None else
  h ← lift (hash_key key);
  get_at LEVEL_FUEL root_hash key h 0.

Definition contains (root_hash : Z) (key : Value) : SM St bool :=
  r ← get root_hash key; mret (bool_decide (is_Some r)).

(** ** Insertion *)

(** Bucket entries by slot at a level; the [BTreeMap] iterates in slot order. *)
Definition by_slot (level : Z) (entries : list (Value * Value)) :
    outcome (list (Z * list (Value * Value))) :=
  slotted ← mapM_out (λ e, h ← hash_key e.1; s ← bits_at h level; Ok (s, e)) entries;
  Ok (omap (λ s, match snd <$> filter (λ p, p.1 = s) slotted with
                 | [] => None
                 | es => Some (s, es)
                 end) (seqZ 0 BRANCH)).

Section children.
Context (build : list (Value * Value) → SM St Z).
Fixpoint build_children (groups : list (Z * list (Value * Value))) : SM St (list Z) :=
  match groups with
  | [] => mret []
  | (_, es) :: groups' =>
      c ← build es;
      cs ← build_children groups';
      mret (c :: cs)
  end.
End children.

(** Each recursion advances the level, which stops at [MAX_LEVELS]. *)
Fixpoint build_from_entries (fuel : nat) (entries : list (Value * Value)) (level : Z) :
    SM St Z :=
  match fuel with
  | O => lift OutOfFuel
  | S fuel' =>
      if decide (entries = []) then mret EMPTY else
      if (zlen entries =? 1) || (MAX_LEVELS <=? level) then write_leaf entries else
      groups ← lift (by_slot level entries);
      match groups with
      | [(_, slot_entries)] => build_from_entries fuel' slot_entries (level + 1)
      | _ =>
          let bitmap := foldl (λ b g, Z.lor b (bit_of g.1)) 0 groups in
          cs ← build_children (λ es, build_from_entries fuel' es (level + 1)) groups;
          write_inner bitmap cs
      end
  end.

Fixpoint set_at (fuel : nat) (node_hash : Z) (key value : Value) (h level : Z) : SM St Z :=
  match fuel with
  | O => lift OutOfFuel
  | S fuel' =>
      if node_hash =? EMPTY then write_leaf [(key, value)] else
      node ← read_node node_hash;
      match default (Leaf [], []) node with
      | (Leaf entries, _) =>
          match position key entries with
          | Some idx =>
              new_entries ← lift (sort_entries (<[idx := (key, value)]> entries));
              write_leaf new_entries
          | None =>
              if decide (entries = []) then write_leaf [(key, value)] else
              if MAX_LEVELS <=? level then
                new_entries ← lift (sort_entries (entries ++ [(key, value)]));
                write_leaf new_entries
              else build_from_entries LEVEL_FUEL (entries ++ [(key, value)]) level
          end
      | (Inner bitmap, cs) =>
          slot ← lift (bits_at h level);
          let bit := bit_of slot in
          let idx := child_index bitmap bit in
          if negb (has_bit bitmap bit) then
            leaf_hash ← write_leaf [(key, value)];
            write_inner (Z.lor bitmap bit) (insert_at cs (Z.to_nat idx) leaf_hash)
          else
            old_child ← lift (or_panic (get_z cs idx));
            new_child ← set_at fuel' old_child key value h (level + 1);
            write_inner bitmap (set_z cs idx new_child)
      end
  end.

Definition set (root_hash : Z) (key value : Value) : SM St Z :=
  h ← lift (hash_key key);
  set_at LEVEL_FUEL root_hash key value h 0.

(** ** Removal *)
Fixpoint remove_at (fuel : nat) (node_hash : Z) (key : Value) (h level : Z) :
    SM St (Z * bool) :=
  match fuel with
  | O => lift OutOfFuel
  | S fuel' =>
      node ← read_node node_hash;
      match node with
      | None => mret (node_hash, false)
      | Some (Leaf entries, _) =>
          match position key entries with
          | None => mret (node_hash, false)
          | Some idx =>
              let new_entries := Prelude.remove_at entries idx in
              if decide (new_entries = []) then mret (EMPTY, true) else
              h' ← write_leaf new_entries;
              mret (h', true)
          end
      | Some (Inner bitmap, cs) =>
          slot ← lift (bits_at h level);
          let bit := bit_of slot in
          if negb (has_bit bitmap bit) then mret (node_hash, false) else
          let idx := child_index bitmap bit in
          c ← lift (or_panic (get_z cs idx));
          '(new_child, found) ← remove_at fuel' c key h (level + 1);
          if negb found then mret (node_hash, false) else
          if new_child =? EMPTY then
            let new_bitmap := Z.ldiff bitmap bit in
            if new_bitmap =? 0 then mret (EMPTY, true) else
            h' ← write_inner new_bitmap (Prelude.remove_at cs (Z.to_nat idx));
            mret (h', true)
          else
            h' ← write_inner bitmap (set_z cs idx new_child);
            mret (h', true)
      end
  end.

Definition remove (root_hash : Z) (key : Value) : SM St (Z * bool) :=
  if root_hash =? EMPTY then mret (EMPTY, false) else
  h ← lift (hash_key key);
  remove_at LEVEL_FUEL root_hash key h 0.

(** ** Full walk *)
Section walk.
Context (collect : Z → SM St (list (Value * Value))).
Fixpoint collect_children (cs : list Z) : SM St (list (Value * Value)) :=
  match cs with
  | [] => mret []
  | c :: cs' => es ← collect c; rest ← collect_children cs'; mret (es ++ rest)
  end.
End walk.

(** The walk has no level to stop at; the fuel covers every depth a map built
    by [set] reaches. *)
Fixpoint collect_entries (fuel : nat) (hash : Z) : SM St (list (Value * Value)) :=
  match fuel with
  | O => lift OutOfFuel
  | S fuel' =>
      node ← read_node hash;
      match node with
      | None => mret []
      | Some (Leaf entries, _) => mret entries
      | Some (Inner _, cs) => collect_children (collect_entries fuel') cs
      end
  end.

Definition entries (root : Z) : SM St (list (Value * Value)) :=
  if root =? EMPTY then mret [] else collect_entries LEVEL_FUEL root.
End ops.

(** ** Three-way merge *)
Section merge.
Context `{BigIntCodec} (kv : Kv) (key_ty val_ty : Ty).

Definition Cells : Type := list (Z * bytes).

Definition read_node_kv (hash : Z) : outcome (option Node) :=
  Merkle.read_node_kv (deserialize_node key_ty val_ty) kv hash.

Definition emit (bs : bytes) (out : Cells) : outcome (option (Z * Cells)) :=
  let h := child NODE_NS bs in Ok (Some (h, out ++ [(h, bs)])).

(** [BTreeMap::insert] on byte-string keys. *)
Fixpoint btree_insert (kb : bytes) (v : Value) (m : list (bytes * Value)) :
    list (bytes * Value) :=
  match m with
  | [] => [(kb, v)]
  | (kb', v') :: m' =>
      match bytes_cmp kb kb' with
      | Lt => (kb, v) :: m
      | Eq => (kb, v) :: m'
      | Gt => (kb', v') :: btree_insert kb v m'
      end
  end.

Definition to_map (entries : list (Value * Value)) : outcome (list (bytes * Value)) :=
  keyed ← mapM_out (λ e, kb ← serialize e.1; Ok (kb, e.2)) entries;
  Ok (foldl (λ m '(kb, v), btree_insert kb v m) [] keyed).

Definition map_get (m : list (bytes * Value)) (kb : bytes) : option Value :=
  snd ∘ snd <$> list_find (λ e, e.1 = kb) m.

(** The union of the key sets, in ascending order ([BTreeSet]). *)
Definition all_keys (ma mb mbase : list (bytes * Value)) : list bytes :=
  fst <$> foldl (λ m kb, btree_insert kb VUnit m) [] (ma.*1 ++ mb.*1 ++ mbase.*1).

(** One key: [None] is the conflict, [Some None] a deletion. *)
Definition reconcile (va vb vbase : option Value) : option (option Value) :=
  if decide (va = vb) then Some va
  else if decide (va = vbase) then Some vb
  else if decide (vb = vbase) then Some va
  else None.

(** Recover a key from its bytes; a hit serializes every key it passes. *)
Fixpoint find_key (kb : bytes) (es : list (Value * Value)) : outcome (option Value) :=
  match es with
  | [] => Ok None
  | e :: es' =>
      kb' ← serialize e.1;
      if decide (kb' = kb) then Ok (Some e.1) else find_key kb es'
  end.

Fixpoint merge_keys (ma mb mbase : list (bytes * Value)) (sources : list (Value * Value))
    (keys : list bytes) : outcome (option (list (Value * Value))) :=
  match keys with
  | [] => Ok (Some [])
  | kb :: keys' =>
      mv <-! reconcile (map_get ma kb) (map_get mb kb) (map_get mbase kb);
      match mv with
      | None => merge_keys ma mb mbase sources keys'
      | Some v =>
          key <-? find_key kb sources;
          rest <-? merge_keys ma mb mbase sources keys';
          Ok (Some ((key, v) :: rest))
      end
  end.

(** The child of a node at a slot, [EMPTY] when absent. *)
Definition child_at (bitmap : Z) (cs : list Z) (bit : Z) : outcome Z :=
  if has_bit bitmap bit then or_panic (get_z cs (child_index bitmap bit)) else Ok EMPTY.

Section slots.
Context (merge : Z → Z → Z → Cells → outcome (option (Z * Cells))).
Context (ba bb bbase : Z) (ca cb cbase : list Z).
Fixpoint merge_slots (ss : list Z) (bitmap : Z) (children : list Z) (out : Cells) :
    outcome (option (Z * list Z * Cells)) :=
  match ss with
  | [] => Ok (Some (bitmap, children, out))
  | s :: ss' =>
      let bit := bit_of s in
      if negb (has_bit (Z.lor (Z.lor ba bb) bbase) bit)
      then merge_slots ss' bitmap children out else
      child_a ← child_at ba ca bit;
      child_b ← child_at bb cb bit;
      child_base ← child_at bbase cbase bit;
      '(merged, out1) <-? merge child_a child_b child_base out;
      if negb (merged =? EMPTY)
      then merge_slots ss' (Z.lor bitmap bit) (children ++ [merged]) out1
      else merge_slots ss' bitmap children out1
  end.
End slots.

(** The recursion follows the trees; the fuel covers every depth a map built
    by [set] reaches. *)
Fixpoint merge_at (fuel : nat) (a b base : Z) (out : Cells) : outcome (option (Z * Cells)) :=
  if a =? b then Ok (Some (a, out)) else
  if a =? base then Ok (Some (b, out)) else
  if b =? base then Ok (Some (a, out)) else
  match fuel with
  | O => OutOfFuel
  | S fuel' =>
      na <-? read_node_kv a;
      nb <-? read_node_kv b;
      nbase ← read_node_kv base;
      match na, nb with
      | (Leaf ea, _), (Leaf eb, _) =>
          let base_entries := match nbase with Some (Leaf es, _) => es | _ => [] end in
          ma ← to_map ea;
          mb ← to_map eb;
          mbase ← to_map base_entries;
          merged <-? merge_keys ma mb mbase (ea ++ eb ++ base_entries) (all_keys ma mb mbase);
          if decide (merged = []) then Ok (Some (EMPTY, out)) else
          sorted ← sort_entries merged;
          bs ← serialize_leaf sorted;
          emit bs out
      | (Inner ba, ca), (Inner bb, cb) =>
          let '(bbase, cbase) := match nbase with
                                 | Some (Inner bm, cs) => (bm, cs)
                                 | _ => (0, [])
                                 end in
          '(bitmap, children, out1) <-?
            merge_slots (merge_at fuel') ba bb bbase ca cb cbase (seqZ 0 BRANCH) 0 [] out;
          if bitmap =? 0 then Ok (Some (EMPTY, out1)) else
          emit (serialize_inner bitmap children) out1
      | _, _ => Ok None
      end
  end.

Definition merge_three_way (new_a live_b ancestor : Z) : outcome (option (Z * Cells)) :=
  merge_at LEVEL_FUEL new_a live_b ancestor [].
End merge.
End Pmap.
