(* ===== verification/Tx.v ===== *)
(** Transactions ([crates/rend/src/tx.rs]): observed reads and pending writes
    against an immutable backend, lazy reads and lazy map walks resolved in
    batches, struct values split into leaf cells, shadow transactions and
    their deltas.  Definitions; the facts are in [TxFacts]. *)
From S2P Require Import Prelude Bytes Hashing Values Serialize Kv Merkle PmapNode.
#[local] Set Warnings "-register-all".

(** ** Data *)

Record PendingEmit := mkPendingEmit {
  pe_module : bytes; pe_struct_name : bytes; pe_value : Value;
}.

Record EmittedEvent := mkEvent { ev_module : bytes; ev_name : bytes; ev_args : list Value }.

Record HandlerDelta := mkDelta {
  delta_reads : gmap Z Value;
  delta_writes : gmap Z Value;
  delta_events : list EmittedEvent;
  delta_pending : list PendingEmit;
  delta_node_cells_written : gset Z;
  delta_pmap_types : gmap Z (Ty * Ty);
  delta_pvec_types : gmap Z Ty;
}.

Record TxContext := mkContext {
  sender : Value; block_timestamp : Z; block_number : Z;
}.

(** [TxContext::default()]. *)
Definition TxContext_default : TxContext := mkContext (VAddress []) 0 0.

Record PendingRead := mkPendingRead { pr_id : Z; pr_key : Z; pr_ty : Ty }.

(** [WalkState::Need { cell }] is the only state; it is the field
    [walk_cell]. *)
Record PWalk := mkWalk {
  walk_handle : Z;
  walk_key : Value;
  walk_key_hash : Z;
  walk_key_ty : Ty;
  walk_val_ty : Ty;
  walk_level : Z;
  walk_cell : Z;
}.

(** [struct Tx]; a shadow transaction points to its parent. *)
Inductive Tx := mkTx {
  tx_kv : Kv;
  tx_parent : option Tx;
  reads : gmap Z Value;
  writes : gmap Z Value;
  pending_emits : list PendingEmit;
  lazy : bool;
  pending : list PendingRead;
  resolved : gmap Z Value;
  next_handle : Z;
  events : list EmittedEvent;
  context : TxContext;
  nore_active : gset (Z * Z);
  pmap_types : gmap Z (Ty * Ty);
  pvec_types : gmap Z Ty;
  node_cells_written : gset Z;
  pending_walks : list PWalk;
}.

(** Field updates. *)
Definition with_reads (f : gmap Z Value → gmap Z Value) (t : Tx) : Tx :=
  mkTx (tx_kv t) (tx_parent t) (f (reads t)) (writes t) (pending_emits t) (lazy t)
    (pending t) (resolved t) (next_handle t) (events t) (context t) (nore_active t)
    (pmap_types t) (pvec_types t) (node_cells_written t) (pending_walks t).
Definition with_writes (f : gmap Z Value → gmap Z Value) (t : Tx) : Tx :=
  mkTx (tx_kv t) (tx_parent t) (reads t) (f (writes t)) (pending_emits t) (lazy t)
    (pending t) (resolved t) (next_handle t) (events t) (context t) (nore_active t)
    (pmap_types t) (pvec_types t) (node_cells_written t) (pending_walks t).
Definition with_emits (f : list PendingEmit → list PendingEmit) (t : Tx) : Tx :=
  mkTx (tx_kv t) (tx_parent t) (reads t) (writes t) (f (pending_emits t)) (lazy t)
    (pending t) (resolved t) (next_handle t) (events t) (context t) (nore_active t)
    (pmap_types t) (pvec_types t) (node_cells_written t) (pending_walks t).
Definition with_queue (l : bool) (p : list PendingRead) (r : gmap Z Value) (n : Z)
    (w : list PWalk) (t : Tx) : Tx :=
  mkTx (tx_kv t) (tx_parent t) (reads t) (writes t) (pending_emits t) l
    p r n (events t) (context t) (nore_active t)
    (pmap_types t) (pvec_types t) (node_cells_written t) w.
Definition with_events (f : list EmittedEvent → list EmittedEvent) (t : Tx) : Tx :=
  mkTx (tx_kv t) (tx_parent t) (reads t) (writes t) (pending_emits t) (lazy t)
    (pending t) (resolved t) (next_handle t) (f (events t)) (context t) (nore_active t)
    (pmap_types t) (pvec_types t) (node_cells_written t) (pending_walks t).
Definition with_nore (f : gset (Z * Z) → gset (Z * Z)) (t : Tx) : Tx :=
  mkTx (tx_kv t) (tx_parent t) (reads t) (writes t) (pending_emits t) (lazy t)
    (pending t) (resolved t) (next_handle t) (events t) (context t) (f (nore_active t))
    (pmap_types t) (pvec_types t) (node_cells_written t) (pending_walks t).
Definition with_types (f : gmap Z (Ty * Ty) → gmap Z (Ty * Ty)) (g : gmap Z Ty → gmap Z Ty)
    (h : gset Z → gset Z) (t : Tx) : Tx :=
  mkTx (tx_kv t) (tx_parent t) (reads t) (writes t) (pending_emits t) (lazy t)
    (pending t) (resolved t) (next_handle t) (events t) (context t) (nore_active t)
    (f (pmap_types t)) (g (pvec_types t)) (h (node_cells_written t)) (pending_walks t).

(** [map.entry(k).or_insert(v)]. *)
Definition or_insert {V} (k : Z) (v : V) (m : gmap Z V) : gmap Z V :=
  match m !! k with Some _ => m | None => <[k := v]> m end.

(** ** Construction and deltas *)
Definition new_with_context (kv : Kv) (context : TxContext) : Tx :=
  mkTx kv None ∅ ∅ [] false [] ∅ 0 [] context ∅ ∅ ∅ ∅ [].

(** [Tx::new]. *)
Definition new (kv : Kv) : Tx := new_with_context kv TxContext_default.

Definition shadow_of (parent : Tx) : Tx :=
  mkTx (tx_kv parent) (Some parent) ∅ ∅ [] (lazy parent) [] ∅ (next_handle parent) []
    (context parent) (nore_active parent) ∅ ∅ ∅ [].

Definition into_delta (t : Tx) : HandlerDelta :=
  mkDelta (reads t) (writes t) (events t) (pending_emits t) (node_cells_written t)
    (pmap_types t) (pvec_types t).

(** First-observed reads win, writes and types overwrite, logs append. *)
Definition merge_delta (delta : HandlerDelta) (t : Tx) : Tx :=
  with_types (λ m, delta_pmap_types delta ∪ m) (λ m, delta_pvec_types delta ∪ m)
    (λ s, s ∪ delta_node_cells_written delta)
    (with_emits (λ q, q ++ delta_pending delta)
      (with_events (λ es, es ++ delta_events delta)
        (with_writes (λ m, delta_writes delta ∪ m)
          (with_reads (λ m, m ∪ delta_reads delta) t)))).

(** ** Logs and guards *)
Definition enqueue_emit (emit : PendingEmit) : SM Tx unit := modify (with_emits (λ q, q ++ [emit])).
Definition take_pending_emits : SM Tx (list PendingEmit) :=
  λ t, (Ok (pending_emits t), with_emits (λ _, []) t).
Definition has_pending_emits : SM Tx bool := gets (λ t, bool_decide (pending_emits t ≠ [])).
Definition emit (event : EmittedEvent) : SM Tx unit := modify (with_events (λ es, es ++ [event])).
Definition record_node_cell_write_tx (cell : Z) : SM Tx unit :=
  modify (with_types id id (λ s, {[cell]} ∪ s)).
Definition record_pmap_types (cell : Z) (key_ty val_ty : Ty) : SM Tx unit :=
  modify (with_types (or_insert cell (key_ty, val_ty)) id id).
Definition record_pvec_type (cell : Z) (elem_ty : Ty) : SM Tx unit :=
  modify (with_types id (or_insert cell elem_ty) id).
(** [HashSet::insert] answers whether the element is new. *)
Definition nore_enter (module_idx fn_idx : Z) : SM Tx bool :=
  λ t, (Ok (bool_decide ((module_idx, fn_idx) ∉ nore_active t)),
        with_nore (λ s, {[(module_idx, fn_idx)]} ∪ s) t).
Definition nore_exit (module_idx fn_idx : Z) : SM Tx unit :=
  modify (with_nore (λ s, s ∖ {[(module_idx, fn_idx)]})).
Definition set_lazy (l : bool) : SM Tx unit :=
  modify (λ t, with_queue l (pending t) (resolved t) (next_handle t) (pending_walks t) t).

(** ** Lookup in the overlay *)

(** A transaction's own writes, then its reads. *)
Definition own_lookup (t : Tx) (key : Z) : option Value :=
  match writes t !! key with Some v => Some v | None => reads t !! key end.

Fixpoint chain_lookup (t : Tx) (key : Z) : option Value :=
  match t with
  | mkTx _ parent rs ws _ _ _ _ _ _ _ _ _ _ _ _ =>
      match ws !! key with
      | Some v => Some v
      | None =>
          match rs !! key with
          | Some v => Some v
          | None => match parent with Some p => chain_lookup p key | None => None end
          end
      end
  end.

(** [parent_lookup]: the ancestors only. *)
Definition parent_lookup (t : Tx) (key : Z) : option Value :=
  p ← tx_parent t; chain_lookup p key.

(** ** Pending values *)
Fixpoint contains_pending (v : Value) : bool :=
  match v with
  | VPending _ => true
  | VArray elems | VSet elems | VTuple elems => existsb contains_pending elems
  | VStruct _ fields => existsb (λ p, contains_pending p.2) fields
  | VDict pairs => existsb (λ p, contains_pending p.1 || contains_pending p.2) pairs
  | _ => false
  end.

Fixpoint substitute_resolved (resolved : gmap Z Value) (v : Value) : outcome Value :=
  match v with
  | VPending id => or_panic (resolved !! id)
  | VArray elems => vs ← mapM_out (substitute_resolved resolved) elems; Ok (VArray vs)
  | VSet elems => vs ← mapM_out (substitute_resolved resolved) elems; Ok (VSet vs)
  | VTuple elems => vs ← mapM_out (substitute_resolved resolved) elems; Ok (VTuple vs)
  | VDict pairs =>
      ps ← mapM_out (λ p, k ← substitute_resolved resolved p.1;
                          v ← substitute_resolved resolved p.2; Ok (k, v)) pairs;
      Ok (VDict ps)
  | VStruct name fields =>
      fs ← mapM_out (λ p, v ← substitute_resolved resolved p.2; Ok (p.1, v)) fields;
      Ok (VStruct name fs)
  | v => Ok v
  end.

(** ** Walks *)
Inductive AdvanceResult := Done (v : Value) | Continue (walk : PWalk).

Section tx.
Context `{BigIntCodec}.

(** [deserialize(&b, ty).unwrap_or_else(|| default)] on a fetched cell. *)
Definition observe (ty : Ty) (fallback : Value) (bz : option bytes) : outcome Value :=
  match bz with
  | Some b => r ← deserialize b ty; Ok (default fallback r)
  | None => Ok fallback
  end.

Definition advance_pmap_walk (walk : PWalk) (bs : option bytes) : outcome AdvanceResult :=
  let miss := Done (default_for (walk_val_ty walk)) in
  match bs with
  | None => Ok miss
  | Some bs =>
      node ← deserialize_node (walk_key_ty walk) (walk_val_ty walk) bs;
      match node with
      | None => Ok miss
      | Some (Leaf entries, _) =>
          Ok (Done (default (default_for (walk_val_ty walk)) (find_entry (walk_key walk) entries)))
      | Some (Inner bitmap, children) =>
          if MAX_LEVELS <? walk_level walk + 1 then Ok miss else
          slot ← bits_at (walk_key_hash walk) (walk_level walk);
          let bit := bit_of slot in
          if negb (has_bit bitmap bit) then Ok miss else
          c ← or_panic (get_z children (child_index bitmap bit));
          Ok (Continue (mkWalk (walk_handle walk) (walk_key walk) (walk_key_hash walk)
                (walk_key_ty walk) (walk_val_ty walk) (walk_level walk + 1) c))
      end
  end.

(** *** [flush_pending] *)

(** Resolve one queued read to a value. *)
Definition install (p : PendingRead) (v : Value) (t : Tx) : Tx :=
  with_reads <[pr_key p := v]>
    (with_queue (lazy t) (pending t) (<[pr_id p := v]> (resolved t)) (next_handle t)
       (pending_walks t) t).

Fixpoint install_fetched (ps : list (PendingRead * option bytes)) : SM Tx unit :=
  match ps with
  | [] => mret tt
  | (p, bz) :: ps' =>
      v ← lift (observe (pr_ty p) (default_for (pr_ty p)) bz);
      _ ← modify (install p v);
      install_fetched ps'
  end.

Definition flush_pending : SM Tx unit := λ t,
  if decide (pending t = []) then (Ok tt, t) else
  let queue := pending t in
  let t1 := with_queue (lazy t) [] (resolved t) (next_handle t) (pending_walks t) t in
  let to_fetch := filter (λ p, parent_lookup t1 (pr_key p) = None) queue in
  let resolved_inline := omap (λ p, (λ v, (p, v)) <$> parent_lookup t1 (pr_key p)) queue in
  let bs := kv_get_many (tx_kv t1) (pr_key <$> to_fetch) in
  (_ ← install_fetched (zip to_fetch bs);
   modify (λ t, foldl (λ t '(p, v), install p v t) t resolved_inline)) t1.

(** *** [advance_walks] *)

(** The cells to fetch: those no cache layer has, each once. *)
Fixpoint cells_to_fetch (t : Tx) (walks : list PWalk) (seen : list Z) : list Z :=
  match walks with
  | [] => seen
  | w :: ws =>
      let cell := walk_cell w in
      if bool_decide (is_Some (writes t !! cell)) || bool_decide (is_Some (reads t !! cell))
      then cells_to_fetch t ws seen
      else if bool_decide (is_Some (parent_lookup t cell)) then cells_to_fetch t ws seen
      else if bool_decide (cell ∈ seen) then cells_to_fetch t ws seen
      else cells_to_fetch t ws (seen ++ [cell])
  end.

(** [match v { Value::Bytes(b) => Some(b), _ => None }]. *)
Definition as_bytes (v : Value) : option bytes :=
  match v with VBytes b => Some b | _ => None end.

Definition node_bytes (bytes_by_cell : gmap Z (option bytes)) (cell : Z) : SM Tx (option bytes) :=
  λ t,
  match writes t !! cell with
  | Some v => (Ok (as_bytes v), t)
  | None =>
      match reads t !! cell with
      | Some v => (Ok (as_bytes v), t)
      | None =>
          match parent_lookup t cell with
          | Some v => (Ok (as_bytes v), with_reads <[cell := v]> t)
          | None =>
              (observed ← lift (observe TBytes (default_for TBytes)
                                  (default None (bytes_by_cell !! cell)));
               _ ← modify (with_reads <[cell := observed]>);
               mret (as_bytes observed)) t
          end
      end
  end.

Fixpoint advance_each (bytes_by_cell : gmap Z (option bytes)) (walks : list PWalk) :
    SM Tx (list PWalk) :=
  match walks with
  | [] => mret []
  | w :: ws =>
      bz ← node_bytes bytes_by_cell (walk_cell w);
      r ← lift (advance_pmap_walk w bz);
      match r with
      | Done value =>
          _ ← modify (λ t, with_queue (lazy t) (pending t)
                (<[walk_handle w := value]> (resolved t)) (next_handle t) (pending_walks t) t);
          advance_each bytes_by_cell ws
      | Continue w' =>
          next ← advance_each bytes_by_cell ws;
          mret (w' :: next)
      end
  end.

Definition set_walks (ws : list PWalk) (t : Tx) : Tx :=
  with_queue (lazy t) (pending t) (resolved t) (next_handle t) ws t.

Definition advance_walks : SM Tx unit := λ t,
  if decide (pending_walks t = []) then (Ok tt, t) else
  let walks := pending_walks t in
  let t1 := set_walks [] t in
  let to_fetch := cells_to_fetch t1 walks [] in
  let fetched := if decide (to_fetch = []) then [] else kv_get_many (tx_kv t1) to_fetch in
  let bytes_by_cell := list_to_map (zip to_fetch fetched) in
  (next_round ← advance_each bytes_by_cell walks;
   modify (set_walks next_round)) t1.

(** *** [force] *)

(** Every turn of the loop drains the read queue and moves each walk one level
    down; a walk ends by level [MAX_LEVELS], so twelve turns always empty both
    queues. *)
Definition FORCE_FUEL : nat := 12.

Fixpoint drain (fuel : nat) : SM Tx unit := λ t,
  let had_reads := negb (bool_decide (pending t = [])) in
  let had_walks := negb (bool_decide (pending_walks t = [])) in
  if negb had_reads && negb had_walks then (Ok tt, t) else
  match fuel with
  | O => (OutOfFuel, t)
  | S fuel' =>
      (_ ← (if had_reads then flush_pending else mret tt);
       _ ← (if had_walks then advance_walks else mret tt);
       drain fuel') t
  end.

Definition resolve (v : Value) : SM Tx Value := λ t, (substitute_resolved (resolved t) v, t).

Definition force_tx (v : Value) : SM Tx Value :=
  if negb (contains_pending v) then mret v else
  _ ← drain FORCE_FUEL;
  resolve v.

Definition force_spine (v : Value) : SM Tx Value :=
  match v with VPending _ => force_tx v | _ => mret v end.

(** ** Reads and writes of single cells *)

(** [Tx::read]. *)
Definition read (key : Z) (ty : Ty) (fallback : Value) : SM Tx Value := λ t,
  match writes t !! key with
  | Some v => (Ok v, t)
  | None =>
      match reads t !! key with
      | Some v => (Ok v, t)
      | None =>
          match parent_lookup t key with
          | Some v => (Ok v, with_reads <[key := v]> t)
          | None =>
              (observed ← lift (observe ty fallback (kv_get (tx_kv t) key));
               _ ← modify (with_reads <[key := observed]>);
               mret observed) t
          end
      end
  end.

(** [Tx::write]. *)
Definition write_tx (key : Z) (value : Value) : SM Tx unit :=
  value ← force_tx value;
  modify (with_writes <[key := value]>).

(** Queue a read and answer its handle. *)
Definition defer (key : Z) (ty : Ty) : SM Tx Value := λ t,
  let id := next_handle t in
  (Ok (VPending id),
   with_queue (lazy t) (pending t ++ [mkPendingRead id key ty]) (resolved t) (id + 1)
     (pending_walks t) t).

Definition read_cell_tx (key : Z) (ty : Ty) : SM Tx Value := λ t,
  match writes t !! key with
  | Some v => (Ok v, t)
  | None =>
      match reads t !! key with
      | Some v => (Ok v, t)
      | None =>
          match parent_lookup t key with
          | Some v => (Ok v, with_reads <[key := v]> t)
          | None =>
              if lazy t then defer key ty t else read key ty (default_for ty) t
          end
      end
  end.

#[export] Instance Tx_ops : TxOps Tx := {|
  read_cell := read_cell_tx;
  force := force_tx;
  write := write_tx;
  record_node_cell_write := record_node_cell_write_tx;
|}.

(** Register a walk under a fresh handle. *)
Definition push_walk (walk : Z → PWalk) : SM Tx Value := λ t,
  let handle := next_handle t in
  (Ok (VPending handle),
   with_queue (lazy t) (pending t) (resolved t) (handle + 1)
     (pending_walks t ++ [walk handle]) t).

(** [Tx::begin_pmap_get]. *)
Definition begin_pmap_get (root_hash : Z) (key : Value) (key_ty val_ty : Ty) : SM Tx Value :=
  if root_hash =? EMPTY then mret (default_for val_ty) else
  key_hash ← lift (hash_key key);
  push_walk (λ handle, mkWalk handle key key_hash key_ty val_ty 0 root_hash).
End tx.
