(* ===== verification/TxTyped.v ===== *)
(** Typed reads and writes of a transaction ([crates/rend/src/tx.rs]): a struct
    is stored field by field, each leaf in the cell [child(parent_key, field)],
    and fields of one group share a single cell holding a synthetic struct.
    Definitions. *)
From S2P Require Import Prelude Bytes Hashing Values Serialize Kv Merkle PmapNode Tx.
#[local] Set Warnings "-register-all".

(** [format!("{parent}::group::{group}")]. *)
Definition group_infix : bytes := [58; 58; 103; 114; 111; 117; 112; 58; 58].
Definition synthetic_group_name (parent group : bytes) : bytes := parent ++ group_infix ++ group.

(** [field_groups.get(i).and_then(|g| g.as_ref())]. *)
Definition group_at (field_groups : list (option bytes)) (i : nat) : option bytes :=
  mjoin (field_groups !! i).

(** The fields of one group, in declaration order. *)
Definition group_fields (declared : list (bytes * Ty)) (field_groups : list (option bytes))
    (group : bytes) : list (bytes * Ty) :=
  snd <$> filter (λ p, group_at field_groups p.1 = Some group) (imap (λ i f, (i, f)) declared).

Definition synthetic_ty (parent_name : bytes) (declared : list (bytes * Ty))
    (field_groups : list (option bytes)) (group : bytes) : Ty :=
  TStruct (synthetic_group_name parent_name group) (group_fields declared field_groups group) [].

(** [actual.iter().find(|(n, _)| n == name).map(..).unwrap_or_else(default)]. *)
Definition field_or_default (actual : list (bytes * Value)) (name : bytes) (ty : Ty) : Value :=
  default (default_for ty) (snd ∘ snd <$> list_find (λ p, p.1 = name) actual).

Definition build_group_blob (parent_name : bytes) (declared : list (bytes * Ty))
    (field_groups : list (option bytes)) (actual : list (bytes * Value)) (group : bytes) :
    Ty * Value :=
  (synthetic_ty parent_name declared field_groups group,
   VStruct (synthetic_group_name parent_name group)
     ((λ '(n, t), (n, field_or_default actual n t)) <$> group_fields declared field_groups group)).

(** ** The tree of leaves of a type *)
Inductive TreeSpec :=
  | SLeaf (i : nat)
  | SStruct (name : bytes) (fields : list (bytes * TreeSpec))
  | SProjection (leaf_idx : nat) (field_name : bytes).

(** The field loop of [collect_leaves]; [leaves] accumulates the parallel
    vectors of keys and types, [group_leaf] the registered group cells. *)
Section fields.
Context (collect : Z → Ty → list (Z * Ty) → TreeSpec * list (Z * Ty)).
Context (key : Z) (name : bytes) (all : list (bytes * Ty)) (field_groups : list (option bytes)).
Fixpoint collect_fields (i : nat) (fields : list (bytes * Ty))
    (group_leaf : list (bytes * nat)) (leaves : list (Z * Ty)) :
    list (bytes * TreeSpec) * list (Z * Ty) :=
  match fields with
  | [] => ([], leaves)
  | (fname, fty) :: fields' =>
      match group_at field_groups i with
      | None =>
          let '(spec, leaves1) := collect (child key fname) fty leaves in
          let '(specs, leaves2) := collect_fields (S i) fields' group_leaf leaves1 in
          ((fname, spec) :: specs, leaves2)
      | Some g =>
          match snd ∘ snd <$> list_find (λ p, p.1 = g) group_leaf with
          | Some idx =>
              let '(specs, leaves2) := collect_fields (S i) fields' group_leaf leaves in
              ((fname, SProjection idx fname) :: specs, leaves2)
          | None =>
              let idx := length leaves in
              let leaves1 := leaves ++ [(child key g, synthetic_ty name all field_groups g)] in
              let '(specs, leaves2) :=
                collect_fields (S i) fields' (group_leaf ++ [(g, idx)]) leaves1 in
              ((fname, SProjection idx fname) :: specs, leaves2)
          end
      end
  end.
End fields.

Fixpoint collect_leaves (key : Z) (ty : Ty) (leaves : list (Z * Ty)) :
    TreeSpec * list (Z * Ty) :=
  match ty with
  | TExplicitLiteral inner => collect_leaves key inner leaves
  | TStruct name fields field_groups =>
      let '(specs, leaves') :=
        collect_fields (λ k t ls, collect_leaves k t ls) key name fields field_groups
          0 fields [] leaves in
      (SStruct name specs, leaves')
  | _ => (SLeaf (length leaves), leaves ++ [(key, ty)])
  end.

(** [expect] and the shape mismatch panic. *)
Fixpoint reassemble (spec : TreeSpec) (leaves : list (option Value)) : outcome Value :=
  match spec with
  | SLeaf i => or_panic (mjoin (leaves !! i))
  | SStruct name fields =>
      fs ← mapM_out (λ p, v ← reassemble p.2 leaves; Ok (p.1, v)) fields;
      Ok (VStruct name fs)
  | SProjection leaf_idx field_name =>
      leaf ← or_panic (mjoin (leaves !! leaf_idx));
      match leaf with
      | VStruct _ fields => or_panic (snd ∘ snd <$> list_find (λ p, p.1 = field_name) fields)
      | _ => Panic
      end
  end.

Section typed.
Context `{BigIntCodec}.

(** ** Reads *)

(** Step 2: serve a leaf locally; a parent's value is cached. *)
Fixpoint known_leaves (leaves : list (Z * Ty)) : SM Tx (list (option Value)) :=
  match leaves with
  | [] => mret []
  | (k, _) :: leaves' =>
      v ← (λ t, match own_lookup t k with
                | Some v => (Ok (Some v), t)
                | None =>
                    match parent_lookup t k with
                    | Some v => (Ok (Some v), with_reads <[k := v]> t)
                    | None => (Ok None, t)
                    end
                end);
      vs ← known_leaves leaves';
      mret (v :: vs)
  end.

(** The slots of the leaves to fetch. *)
Definition missing (known : list (option Value)) : list nat :=
  fst <$> filter (λ p, p.2 = None) (imap (λ i v, (i, v)) known).

(** Step 3: install the fetched bytes at their slots. *)
Fixpoint fill_leaves (leaves : list (Z * Ty)) (slots : list nat) (bs : list (option bytes))
    (values : list (option Value)) : SM Tx (list (option Value)) :=
  match slots, bs with
  | slot :: slots', bz :: bs' =>
      '(k, ty) ← lift (or_panic (leaves !! slot));
      v ← lift (observe ty (default_for ty) bz);
      _ ← modify (with_reads <[k := v]>);
      fill_leaves leaves slots' bs' (<[slot := Some v]> values)
  | _, _ => mret values
  end.

Fixpoint collect_ops (ops : list (Z * Ty)) (leaves : list (Z * Ty)) :
    list TreeSpec * list (Z * Ty) :=
  match ops with
  | [] => ([], leaves)
  | (key, ty) :: ops' =>
      let '(spec, leaves1) := collect_leaves key ty leaves in
      let '(specs, leaves2) := collect_ops ops' leaves1 in
      (spec :: specs, leaves2)
  end.

Definition read_typed_many (ops : list (Z * Ty)) : SM Tx (list Value) :=
  let '(tree_specs, leaves) := collect_ops ops [] in
  known ← known_leaves leaves;
  let to_fetch_idx := missing known in
  let to_fetch_keys := omap (λ i, fst <$> leaves !! i) to_fetch_idx in
  bs ← gets (λ t, kv_get_many (tx_kv t) to_fetch_keys);
  values ← fill_leaves leaves to_fetch_idx bs known;
  lift (mapM_out (λ spec, reassemble spec values) tree_specs).

Fixpoint read_typed (key : Z) (ty : Ty) : SM Tx Value :=
  match ty with
  | TExplicitLiteral inner => read_typed key inner
  | TStruct _ _ _ =>
      vs ← read_typed_many [(key, ty)];
      lift (or_panic (head vs))
  | _ => λ t,
      match own_lookup t key with
      | Some v => (Ok v, t)
      | None => if lazy t then defer key ty t else read key ty (default_for ty) t
      end
  end.

(** ** Writes *)

(** The field loop of [write_typed]; [emitted] holds the groups written. *)
Section write_fields.
Context (write_field : Z → Ty → Value → SM Tx unit).
Context (key : Z) (parent_name : bytes) (declared : list (bytes * Ty)).
Context (field_groups : list (option bytes)) (actual : list (bytes * Value)).
Fixpoint write_fields (i : nat) (fields : list (bytes * Ty)) (emitted : gset bytes) :
    SM Tx unit :=
  match fields with
  | [] => mret tt
  | (fname, fty) :: fields' =>
      match group_at field_groups i with
      | None =>
          _ ← write_field (child key fname) fty (field_or_default actual fname fty);
          write_fields (S i) fields' emitted
      | Some g =>
          if bool_decide (g ∈ emitted) then write_fields (S i) fields' emitted else
          _ ← write_tx (child key g)
                (build_group_blob parent_name declared field_groups actual g).2;
          write_fields (S i) fields' ({[g]} ∪ emitted)
      end
  end.
End write_fields.

Fixpoint write_typed (key : Z) (ty : Ty) (value : Value) : SM Tx unit :=
  match ty with
  | TExplicitLiteral inner => write_typed key inner value
  | TStruct parent_name declared field_groups =>
      value ← force_tx value;
      match value with
      | VStruct _ actual =>
          write_fields (λ k t v, write_typed k t v) key parent_name declared field_groups
            actual 0 declared ∅
      | v => write_tx key v
      end
  | _ => value ← force_tx value; write_tx key value
  end.
End typed.

(** ** Results *)
Definition into_sets (t : Tx) : gmap Z Value * gmap Z Value := (reads t, writes t).
Definition into_parts (t : Tx) : gmap Z Value * gmap Z Value * list EmittedEvent :=
  (reads t, writes t, events t).
Definition into_full (t : Tx) :
    gmap Z Value * gmap Z Value * list EmittedEvent * gmap Z (Ty * Ty) * gmap Z Ty * gset Z :=
  (reads t, writes t, events t, pmap_types t, pvec_types t, node_cells_written t).
