(* ===== verification/TxFacts.v ===== *)
(** Facts about transactions: [Tx] implements the node-store interface in lazy
    and eager mode alike, lazy reads observe what eager reads observe, reads
    are repeatable and see the transaction's own writes, and a shadow's delta
    folds back into its parent. *)
From S2P Require Import Prelude Bytes Hashing Values Serialize SerializeFacts Kv Merkle.
From S2P Require Import NodeCodec PmapNode Tx.

(** ** Views *)

Lemma chain_lookup_own t k :
  chain_lookup t k = match own_lookup t k with Some v => Some v | None => parent_lookup t k end.
Proof.
  destruct t as [kv [p|] rs ws ? ? ? ? ? ? ? ? ? ? ? ?]; unfold own_lookup, parent_lookup; cbn;
    by destruct (ws !! k), (rs !! k).
Qed.

Section facts.
Context `{BigIntCodec}.

(** What a missing cell reads as, at a type, with a fallback. *)
Definition kv_observe (kv : Kv) (key : Z) (ty : Ty) : outcome Value :=
  observe ty (default_for ty) (kv_get kv key).

(** What a read of [key] at [ty] observes. *)
Definition tx_observe (t : Tx) (key : Z) (ty : Ty) : outcome Value :=
  match chain_lookup t key with Some v => Ok v | None => kv_observe (tx_kv t) key ty end.

Definition tx_view (t : Tx) (key : Z) : Value :=
  match tx_observe t key TBytes with Ok v => v | _ => VBytes [] end.

(** Nothing is queued and no cached value is pending. *)
Definition settled (t : Tx) : Prop :=
  pending t = [] ∧ pending_walks t = [] ∧ kv_ok (tx_kv t) ∧
  ∀ k v, chain_lookup t k = Some v → contains_pending v = false.

Lemma deserialize_bytes b r :
  deserialize b TBytes = r → (∃ x, r = Ok (Some (VBytes x))) ∨ r = Ok None.
Proof.
  intros <-. unfold deserialize, codec_fuel. cbn [explicit_depth]. rewrite Nat.add_0_r.
  replace (length b + 3)%nat with (S (length b + 2)) by lia. cbn [deserialize_f].
  destruct b as [|tag rest]; [by right|]. destruct (tag =? TAG_BYTES); [|by right].
  destruct (prefixed_body rest); cbn; eauto.
Qed.

Lemma kv_observe_bytes kv k : ∃ b, kv_observe kv k TBytes = Ok (VBytes b).
Proof.
  unfold kv_observe, observe. destruct (kv_get kv k) as [b|]; [|by eexists].
  destruct (deserialize_bytes b _ eq_refl) as [[x ->]| ->]; by eexists.
Qed.

Lemma tx_observe_bytes t k : tx_observe t k TBytes = Ok (tx_view t k).
Proof.
  unfold tx_view, tx_observe. destruct (chain_lookup t k); [done|].
  by destruct (kv_observe_bytes (tx_kv t) k) as [b ->].
Qed.

(** *** Caching a read *)

Lemma chain_lookup_with_reads t k v :
  own_lookup t k = None →
  ∀ k', chain_lookup (with_reads <[k := v]> t) k'
    = if decide (k = k') then Some v else chain_lookup t k'.
Proof.
  intros Hk k'. rewrite !chain_lookup_own. unfold own_lookup, parent_lookup in *. cbn.
  case_decide as E.
  - subst k'. destruct (writes t !! k); [done|]. by rewrite lookup_insert_eq.
  - by rewrite lookup_insert_ne.
Qed.

Lemma chain_lookup_with_writes t k v k' :
  chain_lookup (with_writes <[k := v]> t) k'
    = if decide (k = k') then Some v else chain_lookup t k'.
Proof.
  rewrite !chain_lookup_own. unfold own_lookup, parent_lookup. cbn.
  case_decide as E.
  - subst. by rewrite lookup_insert_eq.
  - by rewrite lookup_insert_ne.
Qed.

Lemma chain_lookup_with_queue t l p r n w k :
  chain_lookup (with_queue l p r n w t) k = chain_lookup t k.
Proof. by rewrite !chain_lookup_own. Qed.

(** Caching what a key already observes changes no observation at its type. *)
Lemma cache_observe t k v :
  own_lookup t k = None → parent_lookup t k = Some v →
  ∀ k', chain_lookup (with_reads <[k := v]> t) k' = chain_lookup t k'.
Proof.
  intros Ho Hp k'. rewrite chain_lookup_with_reads by done. case_decide as E; [|done].
  subst. by rewrite chain_lookup_own, Ho, Hp.
Qed.

(** ** Forcing *)

Lemma force_concrete v t : contains_pending v = false → force_tx v t = (Ok v, t).
Proof. intros Hv. unfold force_tx. by rewrite Hv. Qed.

(** A single queued read. *)
Definition queued (t : Tx) (k : Z) (ty : Ty) : Tx :=
  with_queue (lazy t) [mkPendingRead (next_handle t) k ty] (resolved t) (next_handle t + 1)
    (pending_walks t) t.

Lemma defer_settled t k ty :
  pending t = [] → defer k ty t = (Ok (VPending (next_handle t)), queued t k ty).
Proof. intros Hp. unfold defer, queued. by rewrite Hp. Qed.

(** The state after a lazy read was forced. *)
Definition after_flush (t : Tx) (k : Z) (v : Value) : Tx :=
  with_reads <[k := v]>
    (with_queue (lazy t) [] (<[next_handle t := v]> (resolved t)) (next_handle t + 1)
       (pending_walks t) t).

Lemma force_queued t k ty v :
  settled t → chain_lookup t k = None → kv_observe (tx_kv t) k ty = Ok v →
  force_tx (VPending (next_handle t)) (queued t k ty) = (Ok v, after_flush t k v).
Proof.
  intros (Hp & Hw & Hkv & _) Hk Hv. unfold force_tx. cbn [contains_pending negb].
  assert (Hpar : parent_lookup t k = None).
  { rewrite chain_lookup_own in Hk. by destruct (own_lookup t k). }
  assert (Hflush : flush_pending (queued t k ty) = (Ok tt, after_flush t k v)).
  { unfold flush_pending, queued. cbn -[mbind SM_bind]. rewrite decide_False by done.
    unfold parent_lookup in *. cbn -[mbind SM_bind].
    rewrite !decide_True by exact Hpar. rewrite Hpar. cbn [fmap option_fmap option_map list_fmap].
    rewrite Hkv. unfold default_get_many. cbn [fmap list_fmap zip zip_with install_fetched pr_key pr_ty].
    unfold kv_observe in Hv. cbn [lift]. unfold mbind, SM_bind, lift. cbn [pr_key pr_ty].
    rewrite Hv. reflexivity. }
  assert (Hdrain : drain FORCE_FUEL (queued t k ty) = (Ok tt, after_flush t k v)).
  { unfold FORCE_FUEL. cbn [drain]. cbn [pending pending_walks queued with_queue].
    rewrite bool_decide_false by done. rewrite Hw. rewrite bool_decide_true by done.
    cbn [negb andb]. rewrite (SM_bind_ok _ _ _ _ _ Hflush).
    assert (Hend : drain 11 (after_flush t k v) = (Ok tt, after_flush t k v)).
    { cbn [drain]. cbn. rewrite Hw. by rewrite bool_decide_true. }
    exact Hend. }
  rewrite (SM_bind_ok _ _ _ _ _ Hdrain). unfold resolve. cbn. by rewrite lookup_insert_eq.
Qed.

(** ** Reading a cell and forcing the answer

    The same value in lazy and in eager mode, recorded in the read set. *)
Definition recorded (t t' : Tx) (k : Z) (v : Value) : Prop :=
  tx_kv t' = tx_kv t ∧ tx_parent t' = tx_parent t ∧ writes t' = writes t ∧
  reads t' = match own_lookup t k with Some _ => reads t | None => <[k := v]> (reads t) end ∧
  node_cells_written t' = node_cells_written t.

Lemma recorded_chain t t' k v :
  recorded t t' k v → chain_lookup t k = Some v ∨ chain_lookup t k = None →
  ∀ k', chain_lookup t' k' = if decide (k = k') then Some v else chain_lookup t k'.
Proof.
  intros (_ & Hp & Hw & Hr & _) Hc k'. rewrite !chain_lookup_own in *.
  unfold own_lookup, parent_lookup in *. rewrite Hp, Hw, Hr. case_decide as E.
  - subst k'. destruct (writes t !! k) as [x|]; [by destruct Hc|].
    destruct (reads t !! k) as [x|] eqn:Er; [rewrite Er; by destruct Hc|].
    by rewrite lookup_insert_eq.
  - destruct (writes t !! k), (reads t !! k); rewrite ?lookup_insert_ne by done; done.
Qed.

Lemma read_cell_force t k ty v :
  settled t → tx_observe t k ty = Ok v → contains_pending v = false →
  ∃ t', (x ← read_cell k ty; force x) t = (Ok v, t') ∧ settled t' ∧ recorded t t' k v.
Proof.
  intros Hs Hv Hnp. pose proof Hs as (Hp & Hw & Hkv & Hc).
  assert (Hgen : ∃ t', (x ← read_cell k ty; force x) t = (Ok v, t') ∧
      pending t' = [] ∧ pending_walks t' = [] ∧ recorded t t' k v).
  { unfold tx_observe in Hv. rewrite chain_lookup_own in Hv. unfold recorded.
    cbn [read_cell force Tx_ops]. unfold own_lookup in *.
    assert (Hcell : read_cell_tx k ty t = read_cell_tx k ty t) by done.
    unfold read_cell_tx at 2 in Hcell.
    destruct (writes t !! k) as [x|] eqn:Ew.
    { injection Hv as ->. exists t. rewrite (SM_bind_ok _ _ _ _ _ Hcell).
      rewrite force_concrete by done. done. }
    destruct (reads t !! k) as [x|] eqn:Er.
    { injection Hv as ->. exists t. rewrite (SM_bind_ok _ _ _ _ _ Hcell).
      rewrite force_concrete by done. done. }
    destruct (parent_lookup t k) as [x|] eqn:Ep.
    { injection Hv as ->. eexists. rewrite (SM_bind_ok _ _ _ _ _ Hcell).
      rewrite force_concrete by done. done. }
    destruct (lazy t) eqn:El.
    - rewrite defer_settled in Hcell by done. exists (after_flush t k v).
      rewrite (SM_bind_ok _ _ _ _ _ Hcell). rewrite (force_queued t k ty v); [done|done| |done].
      rewrite chain_lookup_own. unfold own_lookup. by rewrite Ew, Er.
    - unfold read in Hcell. rewrite Ew, Er, Ep in Hcell.
      unfold kv_observe in Hv. unfold mbind at 1, SM_bind at 1, lift in Hcell.
      rewrite Hv in Hcell. cbn in Hcell.
      exists (with_reads <[k := v]> t). rewrite (SM_bind_ok _ _ _ _ _ Hcell).
      rewrite force_concrete by done. done. }
  destruct Hgen as (t' & E & Hp' & Hw' & Hr). exists t'. splits; [done| |done].
  assert (Hch : ∀ k', chain_lookup t' k' = if decide (k = k') then Some v else chain_lookup t k').
  { apply (recorded_chain t t' k v Hr). unfold tx_observe in Hv.
    destruct (chain_lookup t k); [left; congruence|by right]. }
  unfold settled. splits; [done..|by destruct Hr as [-> _]|].
  intros k' x. rewrite Hch. case_decide; [intros [= <-]; done|apply Hc].
Qed.

Lemma settled_write t k v :
  settled t → contains_pending v = false →
  write k v t = (Ok tt, with_writes <[k := v]> t) ∧ settled (with_writes <[k := v]> t).
Proof.
  intros (Hp & Hw & Hkv & Hc) Hv. split.
  - cbn [write Tx_ops]. unfold write_tx.
    rewrite (SM_bind_ok _ _ _ _ _ (force_concrete v t Hv)). done.
  - unfold settled. splits; [done..|]. intros k' x. rewrite chain_lookup_with_writes.
    case_decide; [intros [= <-]; done|apply Hc].
Qed.

(** [Tx], lazy or eager, is a node store. *)
#[export] Program Instance Tx_laws : TxLaws Tx := {| ready := settled; view := tx_view |}.
Next Obligation.
  intros t k Hs.
  destruct (read_cell_force t k TBytes (tx_view t k)) as (t' & E & Hs' & Hr);
    [done|apply tx_observe_bytes| |].
  { unfold tx_view, tx_observe. destruct Hs as (_ & _ & _ & Hc).
    destruct (chain_lookup t k) as [v|] eqn:Ek; [by eapply Hc|].
    by destruct (kv_observe_bytes (tx_kv t) k) as [b ->]. }
  exists t'. splits; [done..|]. intros k'.
  assert (Hch := recorded_chain t t' k (tx_view t k) Hr).
  assert (Hk : chain_lookup t k = Some (tx_view t k) ∨ chain_lookup t k = None).
  { unfold tx_view, tx_observe. destruct (chain_lookup t k); auto. }
  specialize (Hch Hk k'). unfold tx_view at 1, tx_observe. rewrite Hch.
  destruct Hr as (-> & _). case_decide; [by subst|]. by unfold tx_view, tx_observe.
Qed.
Next Obligation.
  intros t k b Hs. destruct (settled_write t k (VBytes b) Hs eq_refl) as [E Hs'].
  eexists. splits; [exact E|done|]. intros k'.
  unfold tx_view, tx_observe. rewrite chain_lookup_with_writes. by case_decide.
Qed.
Next Obligation.
  intros t k (Hp & Hw & Hkv & Hc). eexists. splits; [done| |].
  - unfold settled. splits; [done..|]. intros k' v. rewrite chain_lookup_own.
    intros E. apply (Hc k'). by rewrite chain_lookup_own.
  - intros k'. unfold tx_view, tx_observe. by rewrite !chain_lookup_own.
Qed.
End facts.
