(* ===== verification/PmapTree.v ===== *)
(** The persistent map as a pure trie, and its laws.  First the bitmaps of inner
    nodes: the slots of a 32-bit map split around a slot, so
    that the population counts of [pmap.rs] are list positions. *)
From S2P Require Import Prelude Bytes Values PmapNode Hashing Serialize SerializeFacts Merkle.
From S2P Require Import NodeCodec.
(** ** Filters *)
Lemma filter_nil_all (P : Z → Prop) `{!∀ x, Decision (P x)} (l : list Z) :
  (∀ i, i ∈ l → ¬ P i) → filter P l = [].
Proof.
  intros Hn. destruct (filter P l) as [|x k] eqn:E; [done|].
  assert (Hx : x ∈ filter P l) by (rewrite E; left).
  apply list_elem_of_filter in Hx as [Hp Hin]. by apply Hn in Hin.
Qed.

Lemma filter_same (P Q : Z → Prop) `{!∀ x, Decision (P x), !∀ x, Decision (Q x)} (l : list Z) :
  (∀ i, i ∈ l → P i ↔ Q i) → filter P l = filter Q l.
Proof.
  induction l as [|x l IH]; intros Hn; [done|]. rewrite !filter_cons.
  rewrite IH by (intros; apply Hn; by right). specialize (Hn x ltac:(left)).
  do 2 case_decide; tauto.
Qed.

Section split.
Context (s : Z) (Hs : 0 <= s < 32).

Definition below (bm : Z) : list Z := filter (λ i, Z.testbit bm i = true) (seqZ 0 s).
Definition above (bm : Z) : list Z := filter (λ i, Z.testbit bm i = true) (seqZ (s + 1) (31 - s)).

Lemma seqZ_split : seqZ 0 BRANCH = seqZ 0 s ++ s :: seqZ (s + 1) (31 - s).
Proof.
  unfold BRANCH. replace 32 with (s + (32 - s)) by lia.
  rewrite seqZ_app by lia. f_equal. rewrite Z.add_0_l.
  rewrite seqZ_cons by lia. f_equal. f_equal; lia.
Qed.

Lemma slots_split bm :
  slots bm = below bm ++ (if Z.testbit bm s then [s] else []) ++ above bm.
Proof.
  unfold slots, below, above. rewrite seqZ_split, filter_app, filter_cons.
  f_equal. destruct (Z.testbit bm s); by case_decide.
Qed.

Lemma below_lt bm : Forall (λ i, 0 <= i < s) (below bm).
Proof. apply Forall_forall. intros i [_ Hi]%list_elem_of_filter. apply elem_of_seqZ in Hi. lia. Qed.
Lemma above_gt bm : Forall (λ i, s < i < 32) (above bm).
Proof. apply Forall_forall. intros i [_ Hi]%list_elem_of_filter. apply elem_of_seqZ in Hi. lia. Qed.

Lemma below_notin bm : s ∉ below bm.
Proof. intros Hi. pose proof (below_lt bm) as Hl. rewrite Forall_forall in Hl. specialize (Hl s Hi). lia. Qed.
Lemma above_notin bm : s ∉ above bm.
Proof. intros Hi. pose proof (above_gt bm) as Hl. rewrite Forall_forall in Hl. specialize (Hl s Hi). lia. Qed.

(** ** The bit of the slot *)
Lemma bit_of_pow : bit_of s = 2 ^ s.
Proof. unfold bit_of. by rewrite Z.shiftl_1_l. Qed.

Lemma has_bit_testbit bm : has_bit bm (bit_of s) = Z.testbit bm s.
Proof.
  unfold has_bit. rewrite bit_of_pow. destruct (Z.testbit bm s) eqn:E.
  - apply negb_true_iff, Z.eqb_neq. intros E0.
    assert (Z.testbit (Z.land bm (2 ^ s)) s = true)
      by (rewrite Z.land_spec, E, Z.pow2_bits_true by lia; done).
    rewrite E0 in *. by rewrite Z.bits_0 in *.
  - apply negb_false_iff, Z.eqb_eq. apply Z.bits_inj'. intros i Hi.
    rewrite Z.land_spec, Z.bits_0. destruct (decide (i = s)) as [->|].
    + by rewrite E.
    + rewrite Z.pow2_bits_false by lia. apply andb_false_r.
Qed.

(** The bits below the slot. *)
Lemma slots_mask bm : slots (Z.land bm (bit_of s - 1)) = below bm.
Proof.
  rewrite bit_of_pow, Z.sub_1_r, <- Z.ones_equiv. unfold slots.
  rewrite seqZ_split, filter_app. unfold below.
  rewrite (filter_nil_all _ (s :: _)), app_nil_r.
  - apply filter_same. intros i Hi%elem_of_seqZ.
    by rewrite Z.land_spec, Z.ones_spec_low, andb_true_r by lia.
  - intros i Hi. rewrite Z.land_spec, Z.ones_spec_high, andb_false_r; [done|].
    apply elem_of_cons in Hi as [->|Hi%elem_of_seqZ]; lia.
Qed.

Lemma child_index_below bm : child_index bm (bit_of s) = zlen (below bm).
Proof. unfold child_index, count_ones. by rewrite slots_mask. Qed.

Lemma testbit_or bm i :
  Z.testbit (Z.lor bm (bit_of s)) i = Z.testbit bm i || bool_decide (i = s).
Proof.
  rewrite bit_of_pow, Z.lor_spec. f_equal. case_bool_decide as E.
  - subst. apply Z.pow2_bits_true. lia.
  - by apply Z.pow2_bits_false.
Qed.

Lemma testbit_clear bm i :
  Z.testbit (Z.ldiff bm (bit_of s)) i = Z.testbit bm i && negb (bool_decide (i = s)).
Proof.
  rewrite bit_of_pow, Z.ldiff_spec. do 2 f_equal. case_bool_decide as E.
  - subst. apply Z.pow2_bits_true. lia.
  - by apply Z.pow2_bits_false.
Qed.

Lemma below_above_ext bm bm' :
  (∀ i, i ≠ s → Z.testbit bm' i = Z.testbit bm i) → below bm' = below bm ∧ above bm' = above bm.
Proof.
  intros E. split; apply filter_same; intros i Hi%elem_of_seqZ; rewrite E; (done || lia).
Qed.

(** Setting and clearing the bit. *)
Lemma slots_set bm : slots (Z.lor bm (bit_of s)) = below bm ++ s :: above bm.
Proof.
  destruct (below_above_ext bm (Z.lor bm (bit_of s))) as [E1 E2].
  { intros i Hi. rewrite testbit_or, bool_decide_false by done. apply orb_false_r. }
  rewrite slots_split, E1, E2, testbit_or, bool_decide_true by done. by rewrite orb_true_r.
Qed.

Lemma slots_clear bm : slots (Z.ldiff bm (bit_of s)) = below bm ++ above bm.
Proof.
  destruct (below_above_ext bm (Z.ldiff bm (bit_of s))) as [E1 E2].
  { intros i Hi. rewrite testbit_clear, bool_decide_false by done. apply andb_true_r. }
  rewrite slots_split, E1, E2, testbit_clear, bool_decide_true by done. by rewrite andb_false_r.
Qed.

Lemma bit_of_range : 0 < bit_of s < 2 ^ 32.
Proof.
  rewrite bit_of_pow. split; [apply Z.pow_pos_nonneg; lia|]. apply Z.pow_lt_mono_r; lia.
Qed.
End split.

Lemma lor_range n a b : 0 <= n → 0 <= a < 2 ^ n → 0 <= b < 2 ^ n → 0 <= Z.lor a b < 2 ^ n.
Proof.
  intros Hn Ha Hb. assert (0 <= Z.lor a b) by (apply Z.lor_nonneg; lia). split; [done|].
  destruct (decide (Z.lor a b = 0)) as [->|]; [by apply Z.pow_pos_nonneg|].
  apply Z.log2_lt_pow2; [lia|]. rewrite Z.log2_lor by lia.
  destruct (decide (0 < n)).
  - apply Z.max_lub_lt.
    + destruct (decide (a = 0)) as [->|]; [done|]. apply Z.log2_lt_pow2; lia.
    + destruct (decide (b = 0)) as [->|]; [done|]. apply Z.log2_lt_pow2; lia.
  - assert (n = 0) as -> by lia. assert (a = 0) as -> by lia. assert (b = 0) as -> by lia. done.
Qed.

Lemma ldiff_range a b n : 0 <= n → 0 <= a < 2 ^ n → 0 <= Z.ldiff a b < 2 ^ n.
Proof.
  intros Hn Ha. assert (0 <= Z.ldiff a b) by (apply Z.ldiff_nonneg; lia). split; [done|].
  destruct (decide (Z.ldiff a b = 0)) as [->|]; [lia|].
  apply Z.log2_lt_pow2; [lia|].
  assert (Hbit : Z.testbit (Z.ldiff a b) (Z.log2 (Z.ldiff a b)) = true) by (apply Z.bit_log2; lia).
  rewrite Z.ldiff_spec in Hbit. apply andb_prop in Hbit as [Hbit _].
  destruct (decide (n <= Z.log2 (Z.ldiff a b))) as [Hle|]; [|lia].
  assert (0 < a). { destruct (decide (a = 0)) as [->|]; [by rewrite Z.bits_0 in Hbit|lia]. }
  rewrite Z.bits_above_log2 in Hbit; [done|lia|].
  assert (Z.log2 a < n) by (apply Z.log2_lt_pow2; lia). lia.
Qed.

Lemma slots_lt bm i : i ∈ slots bm → 0 <= i < 32.
Proof. intros [_ Hi]%list_elem_of_filter. apply elem_of_seqZ in Hi. unfold BRANCH in Hi. lia. Qed.

Lemma slots_nodup bm : NoDup (slots bm).
Proof. apply NoDup_filter, NoDup_seqZ. Qed.

Lemma length_slots bm : (length (slots bm) ≤ 32)%nat.
Proof. unfold slots. etrans; [apply length_filter|]. by rewrite length_seqZ. Qed.

Lemma slots_zero bm : 0 <= bm < 2 ^ 32 → slots bm = [] → bm = 0.
Proof.
  intros Hr E. apply Z.bits_inj'. intros i Hi. rewrite Z.bits_0.
  destruct (decide (i < 32)).
  - destruct (Z.testbit bm i) eqn:Eb; [|done].
    assert (i ∈ slots bm) as Hin; [|rewrite E in Hin; by inversion Hin].
    apply list_elem_of_filter. split; [done|]. apply elem_of_seqZ. unfold BRANCH. lia.
  - destruct (decide (bm = 0)) as [->|]; [apply Z.bits_0|].
    apply Z.bits_above_log2; [lia|]. assert (Z.log2 bm < 32) by (apply Z.log2_lt_pow2; lia). lia.
Qed.

(** * The persistent map as a pure tree: the functions [set], [remove] and
    [build_from_entries] compute on trees, the well-formedness of a trie, and
    the map it denotes. *)
#[local] Set Warnings "-register-all".

Section tree.
Context `{BigIntCodec}.

(** [hash_key] on a storable key. *)
Definition khash (key : Value) : Z := wrap_u 64 (child 0 (ser key)).

(** [sort_entries] on storable entries. *)
Definition psort (es : list (Value * Value)) : list (Value * Value) :=
  snd <$> foldr insert_entry [] ((λ e, (ser e.1, e)) <$> es).

(** Every entry of a tree, in walk order. *)
Fixpoint tentries (t : mtree Label) : list (Value * Value) :=
  match t with
  | MNode (Leaf es) _ => es
  | MNode (Inner _) ts => concat (tentries <$> ts)
  end.

(** ** The operations on trees *)
Definition leaf (es : list (Value * Value)) : mtree Label := MNode (Leaf (psort es)) [].

Definition groups (level : Z) (es : list (Value * Value)) : list (Z * list (Value * Value)) :=
  omap (λ s, match snd <$> filter (λ p, p.1 = s) ((λ e, (slot (khash e.1) level, e)) <$> es) with
             | [] => None
             | g => Some (s, g)
             end) (seqZ 0 BRANCH).

Definition groups_bitmap (gs : list (Z * list (Value * Value))) : Z :=
  foldl (λ b g, Z.lor b (bit_of g.1)) 0 gs.

Fixpoint hbuild (fuel : nat) (es : list (Value * Value)) (level : Z) : mtree Label :=
  match fuel with
  | O => leaf es
  | S f =>
      if (zlen es =? 1) || (MAX_LEVELS <=? level) then leaf es else
      match groups level es with
      | [(_, g)] => hbuild f g (level + 1)
      | gs => MNode (Inner (groups_bitmap gs)) ((λ g, hbuild f g.2 (level + 1)) <$> gs)
      end
  end.

(** The position of a child in a node that has the bit. *)
Definition cindex (bm s : Z) : nat := Z.to_nat (child_index bm (bit_of s)).

Fixpoint hset (fuel : nat) (level h : Z) (key value : Value) (t : mtree Label) : mtree Label :=
  match fuel with
  | O => t
  | S f =>
      match t with
      | MNode (Leaf es) _ =>
          match position key es with
          | Some i => leaf (psort (<[i := (key, value)]> es))
          | None =>
              if decide (es = []) then leaf [(key, value)] else
              if MAX_LEVELS <=? level then leaf (psort (es ++ [(key, value)]))
              else hbuild 14 (es ++ [(key, value)]) level
          end
      | MNode (Inner bm) ts =>
          let s := slot h level in
          if negb (has_bit bm (bit_of s))
          then MNode (Inner (Z.lor bm (bit_of s))) (insert_at ts (cindex bm s) (leaf [(key, value)]))
          else match ts !! cindex bm s with
               | Some c =>
                   MNode (Inner bm) (<[cindex bm s := hset f (level + 1) h key value c]> ts)
               | None => t
               end
      end
  end.

(** [None]: the key is absent; [Some None]: the subtree disappears. *)
Fixpoint hremove (fuel : nat) (level h : Z) (key : Value) (t : mtree Label) :
    option (option (mtree Label)) :=
  match fuel with
  | O => None
  | S f =>
      match t with
      | MNode (Leaf es) _ =>
          match position key es with
          | None => None
          | Some i =>
              let es' := remove_at es i in
              Some (if decide (es' = []) then None else Some (leaf es'))
          end
      | MNode (Inner bm) ts =>
          let s := slot h level in
          if negb (has_bit bm (bit_of s)) then None else
          match ts !! cindex bm s with
          | None => None
          | Some c =>
              match hremove f (level + 1) h key c with
              | None => None
              | Some None =>
                  let bm' := Z.ldiff bm (bit_of s) in
                  Some (if bm' =? 0 then None
                        else Some (MNode (Inner bm') (remove_at ts (cindex bm s))))
              | Some (Some c') => Some (Some (MNode (Inner bm) (<[cindex bm s := c']> ts)))
              end
          end
      end
  end.

(** ** Well-formed tries

    Leaves hold distinct keys; an inner node sits above level [MAX_LEVELS] and
    has one child per bit, whose keys all have that slot. *)
Inductive hwf : Z → mtree Label → Prop :=
  | hwf_leaf level es : NoDup es.*1 → es ≠ [] → hwf level (MNode (Leaf es) [])
  | hwf_inner level bm ts :
      0 <= level < MAX_LEVELS → 0 <= bm < 2 ^ 32 → ts ≠ [] →
      Forall (hwf (level + 1)) ts →
      Forall2 (λ s t, Forall (λ e, slot (khash e.1) level = s) (tentries t)) (slots bm) ts →
      hwf level (MNode (Inner bm) ts).

(** Levels a well-formed trie can still descend. *)
Definition levels_left (level : Z) : nat := S (Z.to_nat (MAX_LEVELS - level)).

(** [build_from_entries] splits entries at the level it places the node at:
    it never skips a level. *)
Fixpoint build_ok (fuel : nat) (es : list (Value * Value)) (level : Z) : bool :=
  match fuel with
  | O => false
  | S f =>
      (zlen es =? 1) || (MAX_LEVELS <=? level) ||
      match groups level es with
      | [_] => false
      | gs => forallb (λ g, build_ok f g.2 (level + 1)) gs
      end
  end.

(** The split an insertion performs, if any, skips no level. *)
Fixpoint set_ok (fuel : nat) (level h : Z) (key value : Value) (t : mtree Label) : bool :=
  match fuel with
  | O => false
  | S f =>
      match t with
      | MNode (Leaf es) _ =>
          match position key es with
          | Some _ => true
          | None => bool_decide (es = []) || (MAX_LEVELS <=? level)
                    || build_ok 14 (es ++ [(key, value)]) level
          end
      | MNode (Inner bm) ts =>
          let s := slot h level in
          if negb (has_bit bm (bit_of s)) then true else
          match ts !! cindex bm s with
          | Some c => set_ok f (level + 1) h key value c
          | None => true
          end
      end
  end.
End tree.

(** ** Entry lists *)
Lemma find_entry_cons key e es :
  find_entry key (e :: es) = if decide (e.1 = key) then Some e.2 else find_entry key es.
Proof.
  unfold find_entry. cbn. case_decide; [done|].
  by destruct (list_find _ es) as [[]|].
Qed.

Lemma find_entry_app key es1 es2 :
  find_entry key (es1 ++ es2)
    = match find_entry key es1 with Some v => Some v | None => find_entry key es2 end.
Proof.
  induction es1 as [|e es1 IH]; [done|]. rewrite <- app_comm_cons, !find_entry_cons, IH.
  by case_decide.
Qed.

Lemma find_entry_none key es : find_entry key es = None ↔ key ∉ es.*1.
Proof.
  induction es as [|e es IH]; [split; [intros _; by apply not_elem_of_nil|done]|].
  rewrite find_entry_cons, fmap_cons, not_elem_of_cons. case_decide as E.
  - split; [done|]. intros [? _]. congruence.
  - rewrite IH. split; [intros; split; [congruence|done]|by intros []].
Qed.

Lemma find_entry_some key v es :
  NoDup es.*1 → find_entry key es = Some v ↔ (key, v) ∈ es.
Proof.
  induction es as [|[k w] es IH]; intros Hnd.
  - split; [done|]. by intros ?%elem_of_nil.
  - rewrite find_entry_cons, elem_of_cons. cbn [fst snd].
    rewrite fmap_cons in Hnd. apply NoDup_cons in Hnd as [Hk Hnd]. case_decide as E.
    + subst k. split; [intros [= ->]; by left|]. intros [[= ->]|Hin]; [done|].
      destruct Hk. apply list_elem_of_fmap. by exists (key, v).
    + rewrite IH by done. split; [by right|]. intros [[= -> ->]|Hin]; done.
Qed.

(** Permuting entries with distinct keys changes no lookup. *)
Lemma find_entry_perm key es es' :
  NoDup es.*1 → es ≡ₚ es' → find_entry key es = find_entry key es'.
Proof.
  intros Hnd Hp. assert (Hnd' : NoDup es'.*1) by (by rewrite <- Hp).
  destruct (find_entry key es') as [v|] eqn:E.
  - apply find_entry_some; [done|]. apply find_entry_some in E; [|done]. by rewrite Hp.
  - apply find_entry_none. apply find_entry_none in E. by rewrite Hp.
Qed.

Lemma position_some key es i :
  position key es = Some i → ∃ v, es !! i = Some (key, v) ∧ find_entry key es = Some v.
Proof.
  unfold position, find_entry. destruct (list_find _ es) as [[j [k v]]|] eqn:E; [|done].
  intros [= ->]. apply list_find_Some in E as (E & Hk & _). cbn in Hk. subst. eauto.
Qed.

Lemma position_none key es : position key es = None ↔ key ∉ es.*1.
Proof.
  rewrite <- find_entry_none. unfold position, find_entry.
  by destruct (list_find _ es) as [[]|].
Qed.

(** Replacing the value at a key's position. *)
Lemma keys_replace key v es i :
  position key es = Some i → (<[i := (key, v)]> es).*1 = es.*1.
Proof.
  intros (w & Hi & _)%position_some. rewrite list_fmap_insert. apply list_insert_id.
  by rewrite list_lookup_fmap, Hi.
Qed.

Lemma find_entry_replace key v es i k :
  NoDup es.*1 → position key es = Some i →
  find_entry k (<[i := (key, v)]> es) = if decide (k = key) then Some v else find_entry k es.
Proof.
  intros Hnd Hp. pose proof (keys_replace key v es i Hp) as Hk.
  apply position_some in Hp as (w & Hi & _). pose proof (lookup_lt_Some _ _ _ Hi) as Hlt.
  case_decide as E.
  - subst k. apply find_entry_some; [by rewrite Hk|].
    apply (list_elem_of_lookup_2 _ i). by apply list_lookup_insert_eq.
  - destruct (find_entry k es) as [x|] eqn:Ex.
    + apply find_entry_some; [by rewrite Hk|]. apply find_entry_some in Ex; [|done].
      apply list_elem_of_lookup in Ex as [j Hj]. apply (list_elem_of_lookup_2 _ j).
      rewrite list_lookup_insert_ne; [done|]. congruence.
    + apply find_entry_none. rewrite Hk. by apply find_entry_none.
Qed.

(** Removing the entry at a key's position. *)
Lemma remove_at_perm {A} (l : list A) i x : l !! i = Some x → l ≡ₚ x :: remove_at l i.
Proof.
  intros Hi. unfold remove_at. rewrite <- (take_drop_middle l i x Hi) at 1.
  by rewrite Permutation_middle.
Qed.

Lemma find_entry_remove key es i k :
  NoDup es.*1 → position key es = Some i →
  NoDup (remove_at es i).*1 ∧
  find_entry k (remove_at es i) = if decide (k = key) then None else find_entry k es.
Proof.
  intros Hnd (w & Hi & _)%position_some. pose proof (remove_at_perm es i _ Hi) as Hp.
  assert (Hnd' : NoDup ((key, w) :: remove_at es i).*1) by (by rewrite <- Hp).
  rewrite (find_entry_perm k _ _ Hnd Hp), find_entry_cons. cbn [fst snd].
  rewrite fmap_cons in Hnd'. apply NoDup_cons in Hnd' as [Hk Hnd']. split; [done|].
  case_decide as E.
  - subst k. by apply find_entry_none.
  - by rewrite decide_False by congruence.
Qed.

(** ** The canonical order is a permutation *)
Lemma insert_entry_perm x l : insert_entry x l ≡ₚ x :: l.
Proof.
  induction l as [|y l IH]; [done|]. cbn. destruct (bytes_leb _ _); [done|].
  rewrite IH. by rewrite Permutation_swap.
Qed.

Lemma psort_perm `{BigIntCodec} es : psort es ≡ₚ es.
Proof.
  unfold psort.
  assert (E : foldr insert_entry [] ((λ e, (ser e.1, e)) <$> es) ≡ₚ (λ e, (ser e.1, e)) <$> es).
  { induction es as [|e es IH]; [done|]. cbn. by rewrite insert_entry_perm, IH. }
  rewrite E. rewrite <- list_fmap_compose. cbn. by rewrite list_fmap_id.
Qed.

Lemma length_psort `{BigIntCodec} es : length (psort es) = length es.
Proof. by rewrite psort_perm. Qed.

Lemma psort_nodup `{BigIntCodec} es : NoDup es.*1 → NoDup (psort es).*1.
Proof. by rewrite psort_perm. Qed.

Lemma find_entry_psort `{BigIntCodec} k es :
  NoDup es.*1 → find_entry k (psort es) = find_entry k es.
Proof. intros Hnd. symmetry. apply find_entry_perm; [done|]. by rewrite psort_perm. Qed.

(** * Laws of the pure trie: on a well-formed trie [hset] is map insertion
    whenever no split skips a level, [hremove] is map deletion, and a lookup
    only has to follow the key's slots. *)
(** ** Buckets *)
Section buckets.
Context {A : Type} (f : A → Z).
Implicit Types es : list A.

Lemma bucket_filter s es :
  snd <$> filter (λ p, p.1 = s) ((λ e, (f e, e)) <$> es) = filter (λ e, f e = s) es.
Proof.
  induction es as [|e es IH]; [done|]. rewrite fmap_cons, !filter_cons. cbn [fst].
  case_decide; [|done]. by rewrite fmap_cons, IH.
Qed.

(** Buckets over distinct labels that cover every element rearrange the list. *)
Lemma buckets_perm (L : list Z) es :
  NoDup L → (∀ e, e ∈ es → f e ∈ L) → concat ((λ s, filter (λ e, f e = s) es) <$> L) ≡ₚ es.
Proof.
  intros HL. induction es as [|e es IH]; intros Hin.
  - clear. induction L as [|s L IH]; [done|]. by rewrite fmap_cons.
  - destruct (list_elem_of_split L (f e)) as (L1 & L2 & ->); [apply Hin; left|].
    rewrite fmap_app, fmap_cons, concat_app. cbn [concat].
    apply NoDup_app in HL as (HL1 & Hd & HL2). apply NoDup_cons in HL2 as [Hn HL2].
    rewrite filter_cons_True by done.
    assert (E : ∀ L' : list Z, f e ∉ L' → (λ s, filter (λ e0, f e0 = s) (e :: es)) <$> L'
      = (λ s, filter (λ e0, f e0 = s) es) <$> L').
    { intros L' Hn'. apply list_fmap_ext. intros i s Hs. rewrite filter_cons_False; [done|].
      intros <-. apply Hn'. by eapply list_elem_of_lookup_2. }
    rewrite (E L1), (E L2); [|done|intros Hf; by destruct (Hd _ Hf); left].
    rewrite <- app_comm_cons, <- Permutation_middle. f_equiv.
    etrans; [|apply IH; intros; apply Hin; by right].
    by rewrite fmap_app, fmap_cons, concat_app.
Qed.
End buckets.

Section laws.
Context `{BigIntCodec}.

Definition bucket (level s : Z) (es : list (Value * Value)) : list (Value * Value) :=
  filter (λ e, slot (khash e.1) level = s) es.

Lemma slot_range h level : 0 <= slot h level < 32.
Proof.
  unfold slot, BRANCH. change (32 - 1) with (Z.ones 5). rewrite Z.land_ones by lia.
  apply Z.mod_pos_bound. lia.
Qed.

Lemma groups_elem level es s g :
  (s, g) ∈ groups level es ↔ g = bucket level s es ∧ g ≠ [] ∧ 0 <= s < 32.
Proof.
  unfold groups. rewrite list_elem_of_omap. split.
  - intros (s' & Hs' & E). rewrite bucket_filter in E. fold (bucket level s' es) in E.
    apply elem_of_seqZ in Hs'. unfold BRANCH in Hs'.
    destruct (bucket level s' es) eqn:Eb; [done|]. injection E as -> <-. splits; [done|done|lia|lia].
  - intros (-> & Hne & Hs). exists s. split; [apply elem_of_seqZ; unfold BRANCH; lia|].
    rewrite bucket_filter. fold (bucket level s es). by destruct (bucket level s es).
Qed.

Lemma groups_keys level es :
  (groups level es).*1 = filter (λ s, bucket level s es ≠ []) (seqZ 0 BRANCH).
Proof.
  unfold groups. induction (seqZ 0 BRANCH) as [|s L IH]; [done|].
  rewrite filter_cons. cbn. rewrite bucket_filter. fold (bucket level s es).
  destruct (bucket level s es); cbn; case_decide; try done. by f_equal.
Qed.

Lemma groups_perm level es : concat (groups level es).*2 ≡ₚ es.
Proof.
  rewrite <- (buckets_perm (λ e, slot (khash e.1) level) (seqZ 0 BRANCH) es) at 2.
  - unfold groups. induction (seqZ 0 BRANCH) as [|s L IH]; [done|]. cbn.
    rewrite bucket_filter. destruct (filter _ es) eqn:E; cbn; [done|].
    apply Permutation_skip. by f_equiv.
  - apply NoDup_seqZ.
  - intros e _. apply elem_of_seqZ. unfold BRANCH. pose proof (slot_range (khash e.1) level). lia.
Qed.

Lemma groups_bitmap_acc b0 (gs : list (Z * list (Value * Value))) i :
  Forall (λ g, 0 <= g.1 < 32) gs → 0 <= i →
  Z.testbit (foldl (λ b g, Z.lor b (bit_of g.1)) b0 gs) i
    = Z.testbit b0 i || bool_decide (i ∈ gs.*1).
Proof.
  intros Hgs Hi. revert b0. induction Hgs as [|g gs Hg Hgs IH]; intros b0; cbn [foldl].
  - rewrite bool_decide_false by apply not_elem_of_nil. by rewrite orb_false_r.
  - rewrite IH, testbit_or by done. rewrite <- orb_assoc. f_equal.
    rewrite fmap_cons, (bool_decide_ext (i ∈ g.1 :: gs.*1) (i = g.1 ∨ i ∈ gs.*1)) by apply elem_of_cons.
    by rewrite bool_decide_or.
Qed.

Lemma groups_range level es : Forall (λ g, 0 <= g.1 < 32) (groups level es).
Proof. apply Forall_forall. intros [s g] Hg. by apply groups_elem in Hg as (_ & _ & ?). Qed.

Lemma groups_slots level es : slots (groups_bitmap (groups level es)) = (groups level es).*1.
Proof.
  unfold slots, groups_bitmap. rewrite groups_keys. apply filter_same.
  intros i Hi%elem_of_seqZ. rewrite groups_bitmap_acc by (apply groups_range || lia).
  rewrite Z.bits_0. cbn [orb]. rewrite bool_decide_eq_true, groups_keys, list_elem_of_filter.
  rewrite elem_of_seqZ. tauto.
Qed.

Lemma bitmap_range_acc b (gs : list (Z * list (Value * Value))) :
  0 <= b < 2 ^ 32 → Forall (λ g, 0 <= g.1 < 32) gs →
  0 <= foldl (λ b g, Z.lor b (bit_of g.1)) b gs < 2 ^ 32.
Proof.
  intros Hb Hgs. revert b Hb. induction Hgs as [|g gs Hg _ IH]; intros b Hb; [done|].
  apply IH, lor_range; [done|done|]. pose proof (bit_of_range g.1 Hg). lia.
Qed.

Lemma groups_bitmap_range level es : 0 <= groups_bitmap (groups level es) < 2 ^ 32.
Proof. apply bitmap_range_acc; [lia|]. apply groups_range. Qed.

(** A lookup in a list of entries whose buckets are spread over sublists. *)
Lemma find_entry_bucket level key es :
  find_entry key (bucket level (slot (khash key) level) es) = find_entry key es.
Proof.
  induction es as [|e es IH]; [done|]. unfold bucket. rewrite filter_cons, find_entry_cons.
  fold (bucket level (slot (khash key) level) es). case_decide as E.
  - by rewrite find_entry_cons, IH.
  - rewrite decide_False; [done|]. intros Ek. apply E. by rewrite Ek.
Qed.

(** *** The child of a slot *)

(** A node's children, split around the child of a slot it has. *)
Lemma inner_split level bm ts s :
  0 <= s < 32 → has_bit bm (bit_of s) = true →
  Forall2 (λ s t, Forall (λ e, slot (khash e.1) level = s) (tentries t)) (slots bm) ts →
  ∃ A c B, ts = A ++ c :: B ∧ length A = cindex bm s ∧ ts !! cindex bm s = Some c ∧
    Forall (λ e, slot (khash e.1) level = s) (tentries c) ∧
    Forall2 (λ s t, Forall (λ e, slot (khash e.1) level = s) (tentries t)) (below s bm) A ∧
    Forall2 (λ s t, Forall (λ e, slot (khash e.1) level = s) (tentries t)) (above s bm) B.
Proof.
  intros Hs Hb Hts. rewrite has_bit_testbit in Hb by done.
  rewrite (slots_split s Hs), Hb in Hts.
  apply Forall2_app_inv_l in Hts as (A & B' & HA & HB' & ->).
  apply Forall2_cons_inv_l in HB' as (c & B & Hc & HB & ->).
  assert (E : length A = cindex bm s).
  { unfold cindex. rewrite child_index_below by done. apply Forall2_length in HA. unfold zlen. lia. }
  exists A, c, B. splits; try done. by apply list_lookup_middle.
Qed.

(** The place of a slot the node does not have. *)
Lemma inner_gap level bm ts s :
  0 <= s < 32 → has_bit bm (bit_of s) = false →
  Forall2 (λ s t, Forall (λ e, slot (khash e.1) level = s) (tentries t)) (slots bm) ts →
  ∃ A B, ts = A ++ B ∧ length A = cindex bm s ∧
    Forall2 (λ s t, Forall (λ e, slot (khash e.1) level = s) (tentries t)) (below s bm) A ∧
    Forall2 (λ s t, Forall (λ e, slot (khash e.1) level = s) (tentries t)) (above s bm) B.
Proof.
  intros Hs Hb Hts. rewrite has_bit_testbit in Hb by done.
  rewrite (slots_split s Hs), Hb in Hts.
  apply Forall2_app_inv_l in Hts as (A & B & HA & HB & ->). exists A, B. splits; try done.
  unfold cindex. rewrite child_index_below by done. apply Forall2_length in HA. unfold zlen. lia.
Qed.

(** A key is in no child of another slot. *)
Lemma other_slots level key L ts :
  slot (khash key) level ∉ L →
  Forall2 (λ s t, Forall (λ e, slot (khash e.1) level = s) (tentries t)) L ts →
  find_entry key (concat (tentries <$> ts)) = None.
Proof.
  intros Hn Hts. induction Hts as [|s t L ts Ht Hts IH]; [done|].
  rewrite fmap_cons. cbn [concat]. rewrite find_entry_app.
  apply not_elem_of_cons in Hn as [Hs Hn]. rewrite IH by done.
  destruct (find_entry key (tentries t)) as [v|] eqn:E; [|done].
  exfalso. apply Hs. assert (Hin : key ∈ (tentries t).*1).
  { apply dec_stable. intros Hno. apply find_entry_none in Hno. congruence. }
  apply list_elem_of_fmap in Hin as ([k w] & -> & Hin).
  rewrite Forall_forall in Ht. by apply Ht in Hin.
Qed.
(** ** Building a subtree *)
Lemma bucket_nodup level s es : NoDup es.*1 → NoDup (bucket level s es).*1.
Proof. intros Hnd. eapply sublist_NoDup; [exact Hnd|]. apply fmap_sublist, sublist_filter. Qed.

Lemma leaf_law level es :
  NoDup es.*1 → es ≠ [] → hwf level (leaf es) ∧ tentries (leaf es) ≡ₚ es.
Proof.
  intros Hnd Hne. split; [|apply psort_perm]. constructor; [by apply psort_nodup|].
  intros E. apply Hne, nil_length_inv. by rewrite <- (length_psort es), E.
Qed.

Lemma hbuild_law fuel es level :
  0 <= level → NoDup es.*1 → es ≠ [] → build_ok fuel es level = true →
  hwf level (hbuild fuel es level) ∧ tentries (hbuild fuel es level) ≡ₚ es.
Proof.
  revert es level. induction fuel as [|f IH]; intros es level Hl Hnd Hne; [done|].
  cbn [build_ok hbuild]. destruct ((zlen es =? 1) || (MAX_LEVELS <=? level)) eqn:E.
  { intros _. by apply leaf_law. }
  cbn [orb]. pose proof (groups_perm level es) as Hp.
  destruct (groups level es) as [|[s g] [|g' gs]] eqn:Eg.
  { intros _. by apply Permutation_nil_l in Hp. }
  { done. }
  rewrite <- Eg in *. intros Hok. rewrite forallb_forall in Hok.
  assert (Hall : ∀ x, x ∈ groups level es →
    hwf (level + 1) (hbuild f x.2 (level + 1)) ∧ tentries (hbuild f x.2 (level + 1)) ≡ₚ x.2).
  { intros [s' g''] Hin. cbn [snd]. specialize (Hok _ (proj1 (list_elem_of_In _ _) Hin)).
    apply groups_elem in Hin as (-> & Hg & _). apply IH; [lia|by apply bucket_nodup|done|done]. }
  apply orb_false_iff in E as [_ E]. split.
  - constructor; [lia|apply groups_bitmap_range|by rewrite Eg| |].
    + apply Forall_fmap, Forall_forall. intros x Hx. by apply Hall.
    + rewrite groups_slots. apply Forall2_fmap, Forall_Forall2_diag, Forall_forall.
      intros [s' g''] Hin. cbn [fst snd]. destruct (Hall _ Hin) as [_ ->]. cbn [snd].
      apply groups_elem in Hin as (-> & _ & _). apply Forall_forall.
      by intros e [He _]%list_elem_of_filter.
  - cbn [tentries]. etrans; [|exact Hp]. clear -Hall.
    induction (groups level es) as [|x gs' IHg]; [done|]. rewrite !fmap_cons. cbn [concat].
    rewrite (proj2 (Hall x ltac:(left))). f_equiv. apply IHg. intros y Hy. apply Hall. by right.
Qed.
(** ** Lookups through one child *)

(** Changing what the middle entries say about one key only. *)
Lemma find_entry_middle key o ea ec ec' eb k :
  find_entry key ea = None → find_entry key eb = None →
  (∀ k, find_entry k ec' = if decide (k = key) then o else find_entry k ec) →
  find_entry k (ea ++ ec' ++ eb)
    = if decide (k = key) then o else find_entry k (ea ++ ec ++ eb).
Proof.
  intros Ha Hb Hc. rewrite !find_entry_app, Hc. case_decide as E; [|done].
  subst k. rewrite Ha, Hb. by destruct o.
Qed.

Lemma tentries_middle bm A c B :
  tentries (MNode (Inner bm) (A ++ c :: B))
    = concat (tentries <$> A) ++ tentries c ++ concat (tentries <$> B).
Proof. cbn [tentries]. by rewrite fmap_app, fmap_cons, concat_app. Qed.

(** The keys of one slot are in its child, or nowhere. *)
Lemma lookup_child level bm key A c B :
  let s := slot (khash key) level in
  Forall2 (λ s t, Forall (λ e, slot (khash e.1) level = s) (tentries t)) (below s bm) A →
  Forall2 (λ s t, Forall (λ e, slot (khash e.1) level = s) (tentries t)) (above s bm) B →
  find_entry key (concat (tentries <$> A)) = None ∧
  find_entry key (concat (tentries <$> B)) = None ∧
  find_entry key (tentries (MNode (Inner bm) (A ++ c :: B))) = find_entry key (tentries c).
Proof.
  intros s HA HB. pose proof (slot_range (khash key) level) as Hs. fold s in Hs.
  assert (EA : find_entry key (concat (tentries <$> A)) = None)
    by (eapply other_slots; [|exact HA]; by apply below_notin).
  assert (EB : find_entry key (concat (tentries <$> B)) = None)
    by (eapply other_slots; [|exact HB]; by apply above_notin).
  splits; [done..|]. rewrite tentries_middle, !find_entry_app, EA, EB.
  by destruct (find_entry key (tentries c)).
Qed.

Lemma lookup_no_child level bm ts key :
  has_bit bm (bit_of (slot (khash key) level)) = false →
  Forall2 (λ s t, Forall (λ e, slot (khash e.1) level = s) (tentries t)) (slots bm) ts →
  find_entry key (tentries (MNode (Inner bm) ts)) = None.
Proof.
  intros Hb Hts. pose proof (slot_range (khash key) level) as Hs.
  cbn [tentries]. eapply other_slots; [|exact Hts].
  intros [Hin _]%list_elem_of_filter. rewrite has_bit_testbit in Hb by done. congruence.
Qed.
End laws.

(** * The pure trie is a map: [hset] inserts and [hremove] deletes, on every
    well-formed trie. *)
Section map.
Context `{BigIntCodec}.

(** The slot invariant of a list of children. *)
Abbreviation in_slots level :=
  (Forall2 (λ s t, Forall (λ e, slot (khash e.1) level = s) (tentries t))).

(** Putting a child for the slot between the others. *)
Lemma hwf_insert_child level bm bm' A c B s :
  0 <= level < MAX_LEVELS → 0 <= bm' < 2 ^ 32 → slots bm' = below s bm ++ s :: above s bm →
  Forall (hwf (level + 1)) A → Forall (hwf (level + 1)) B →
  in_slots level (below s bm) A → in_slots level (above s bm) B →
  hwf (level + 1) c → Forall (λ e, slot (khash e.1) level = s) (tentries c) →
  hwf level (MNode (Inner bm') (A ++ c :: B)).
Proof.
  intros Hl Hbm Es HA HB HAs HBs Hc Hcs. constructor; [done|done|by destruct A| |].
  - apply Forall_app. split; [done|]. by constructor.
  - rewrite Es. apply Forall2_app; [done|]. by constructor.
Qed.

(** Inversion at an inner node that has the slot. *)
Lemma hwf_child level bm ts s :
  hwf level (MNode (Inner bm) ts) → 0 <= s < 32 → has_bit bm (bit_of s) = true →
  ∃ A c B, ts = A ++ c :: B ∧ length A = cindex bm s ∧ ts !! cindex bm s = Some c ∧
    0 <= level < MAX_LEVELS ∧ 0 <= bm < 2 ^ 32 ∧
    Forall (hwf (level + 1)) A ∧ Forall (hwf (level + 1)) B ∧
    in_slots level (below s bm) A ∧ in_slots level (above s bm) B ∧
    hwf (level + 1) c ∧ Forall (λ e, slot (khash e.1) level = s) (tentries c).
Proof.
  inversion 1 as [|? ? ? Hl Hbm Hne Hts Hss]; subst. intros Hs Hb.
  destruct (inner_split level bm ts s Hs Hb Hss) as (A & c & B & -> & EA & Elk & Hc & HA & HB).
  apply Forall_app in Hts as [HtA HtB]. apply Forall_cons in HtB as [Htc HtB].
  exists A, c, B. splits; (done || lia).
Qed.

Lemma slots_has_bit bm s :
  0 <= s < 32 → has_bit bm (bit_of s) = true → slots bm = below s bm ++ s :: above s bm.
Proof.
  intros Hs Hb. rewrite has_bit_testbit in Hb by done. by rewrite (slots_split s Hs), Hb.
Qed.

(** ** Distinct keys *)
Lemma hwf_nodup level t : hwf level t → NoDup (tentries t).*1.
Proof.
  revert level. induction t as [l ts IH] using mtree_ind_nested. intros level.
  inversion 1 as [|? bm ? Hl Hbm Hne Hts Hss]; subst; [done|]. cbn [tentries].
  pose proof (slots_nodup bm) as Hnd. revert Hnd IH Hts. clear -Hss.
  induction Hss as [|s t L ts Ht Hss IHs]; intros Hnd IH Hts; [constructor|].
  apply Forall_cons in IH as [IH1 IH2]. apply Forall_cons in Hts as [Ht1 Ht2].
  apply NoDup_cons in Hnd as [Hn Hnd]. rewrite fmap_cons. cbn [concat]. rewrite fmap_app.
  apply NoDup_app. splits; [by eapply IH1| |by apply IHs].
  intros k Hk. apply find_entry_none. eapply other_slots; [|exact Hss].
  apply list_elem_of_fmap in Hk as (e & -> & He). rewrite Forall_forall in Ht.
  by rewrite (Ht e He).
Qed.

(** ** Insertion *)

(** [t'] holds the entries [es] with [key] bound to [value]. *)
Definition binds (key value : Value) (es : list (Value * Value)) (level : Z) (t' : mtree Label) :=
  hwf level t' ∧
  (∀ k, find_entry k (tentries t') = if decide (k = key) then Some value else find_entry k es) ∧
  (∀ e, e ∈ tentries t' → e = (key, value) ∨ e ∈ es).

Lemma binds_perm key value es level t' es1 :
  hwf level t' → tentries t' ≡ₚ es1 → NoDup es1.*1 →
  (∀ k, find_entry k es1 = if decide (k = key) then Some value else find_entry k es) →
  (∀ e, e ∈ es1 → e = (key, value) ∨ e ∈ es) →
  binds key value es level t'.
Proof.
  intros Hw Hp Hnd Hf Hin. split; [done|]. split.
  - intros k. by rewrite <- (find_entry_perm k _ _ Hnd (symmetry Hp)).
  - intros e. rewrite Hp. apply Hin.
Qed.

Lemma binds_replace key value es level i :
  NoDup es.*1 → es ≠ [] → position key es = Some i →
  binds key value es level (leaf (psort (<[i := (key, value)]> es))).
Proof.
  intros Hnd Hne Ep.
  assert (Hnd' : NoDup (<[i:=(key, value)]> es).*1) by (by rewrite keys_replace).
  assert (Hne' : psort (<[i:=(key, value)]> es) ≠ []).
  { intros E. apply Hne, nil_length_inv. rewrite <- (length_insert es i (key, value)).
    by rewrite <- length_psort, E. }
  destruct (leaf_law level (psort (<[i:=(key, value)]> es))) as [Hw Hp];
    [by apply psort_nodup|done|].
  apply (binds_perm _ _ _ _ _ (<[i:=(key, value)]> es)); [done| |done| |].
  - by rewrite Hp, psort_perm.
  - intros k. by apply find_entry_replace.
  - intros e [j Hj]%list_elem_of_lookup. destruct (decide (i = j)) as [<-|Hij].
    + left. apply position_some in Ep as (w & Hi & _). apply lookup_lt_Some in Hi.
      rewrite list_lookup_insert_eq in Hj by done. congruence.
    + right. rewrite list_lookup_insert_ne in Hj by done. by eapply list_elem_of_lookup_2.
Qed.

Lemma keys_append key value es :
  NoDup es.*1 → position key es = None → NoDup (es ++ [(key, value)]).*1.
Proof.
  intros Hnd Ep%position_none. rewrite fmap_app. apply NoDup_app.
  splits; [done| |apply NoDup_singleton]. intros k Hk ->%list_elem_of_singleton. done.
Qed.

Lemma binds_append key value es level t' :
  NoDup es.*1 → position key es = None → hwf level t' → tentries t' ≡ₚ es ++ [(key, value)] →
  binds key value es level t'.
Proof.
  intros Hnd Ep Hw Hp. apply (binds_perm _ _ _ _ _ (es ++ [(key, value)])); [done|done| | |].
  - by apply keys_append.
  - apply position_none in Ep. intros k. rewrite find_entry_app, find_entry_cons. cbn [fst snd].
    destruct (find_entry k es) as [v|] eqn:E; case_decide as Ek; try done.
    + subst k. apply find_entry_none in Ep. congruence.
    + by rewrite decide_True.
    + by rewrite decide_False by congruence.
  - intros e. rewrite elem_of_app, list_elem_of_singleton. tauto.
Qed.

Lemma binds_split n level key value es :
  0 <= level → NoDup es.*1 → position key es = None →
  (MAX_LEVELS <=? level) || build_ok n (es ++ [(key, value)]) level = true →
  binds key value es level
    (if MAX_LEVELS <=? level then leaf (psort (es ++ [(key, value)]))
     else hbuild n (es ++ [(key, value)]) level).
Proof.
  intros Hl Hnd Ep Hok. pose proof (keys_append key value es Hnd Ep) as Hnd'.
  assert (Hne' : es ++ [(key, value)] ≠ []) by (by destruct es).
  destruct (MAX_LEVELS <=? level).
  - destruct (leaf_law level (psort (es ++ [(key, value)]))) as [Hw Hq].
    + by apply psort_nodup.
    + intros E. apply Hne', nil_length_inv. by rewrite <- length_psort, E.
    + apply binds_append; [done..|]. by rewrite Hq, psort_perm.
  - destruct (hbuild_law n (es ++ [(key, value)]) level Hl Hnd' Hne' Hok).
    by apply binds_append.
Qed.

Lemma hset_leaf f level h key value es ts :
  hset (S f) level h key value (MNode (Leaf es) ts) =
    match position key es with
    | Some i => leaf (psort (<[i := (key, value)]> es))
    | None =>
        if decide (es = []) then leaf [(key, value)] else
        if MAX_LEVELS <=? level then leaf (psort (es ++ [(key, value)]))
        else hbuild 14 (es ++ [(key, value)]) level
    end.
Proof. reflexivity. Qed.

Lemma set_ok_leaf f level h key value es ts :
  set_ok (S f) level h key value (MNode (Leaf es) ts) =
    match position key es with
    | Some _ => true
    | None => bool_decide (es = []) || (MAX_LEVELS <=? level)
              || build_ok 14 (es ++ [(key, value)]) level
    end.
Proof. reflexivity. Qed.

Lemma set_leaf_law f level h key value es :
  0 <= level → hwf level (MNode (Leaf es) []) →
  set_ok (S f) level h key value (MNode (Leaf es) []) = true →
  binds key value es level (hset (S f) level h key value (MNode (Leaf es) [])).
Proof.
  intros Hl. inversion 1 as [? ? Hnd Hne|]; subst. rewrite hset_leaf, set_ok_leaf.
  generalize 14%nat. intros n.
  destruct (position key es) as [i|] eqn:Ep; [intros _; by apply binds_replace|].
  rewrite decide_False, bool_decide_false by done. rewrite orb_false_l.
  by apply binds_split.
Qed.

Lemma hset_law f level key value t :
  0 <= level → hwf level t → (levels_left level ≤ f)%nat →
  set_ok f level (khash key) key value t = true →
  binds key value (tentries t) level (hset f level (khash key) key value t).
Proof.
  revert level t. induction f as [|f IH]; intros level t Hl Hw Hf Hok;
    [unfold levels_left in Hf; lia|].
  destruct t as [[bm|es] ts]; [|].
  2: { inversion Hw; subst. by apply set_leaf_law. }
  pose proof (slot_range (khash key) level) as Hs.
  cbn [hset]. set (s := slot (khash key) level) in *.
  cbn [set_ok] in Hok. fold s in Hok.
  destruct (has_bit bm (bit_of s)) eqn:Hb; cbn [negb] in *.
  - destruct (hwf_child level bm ts s Hw Hs Hb)
      as (A & c & B & -> & EA & Elk & Hl' & Hbm & HA & HB & HAs & HBs & Hc & Hcs).
    rewrite Elk in *. rewrite <- EA, insert_app_r_alt, Nat.sub_diag by lia. cbn [insert list_insert].
    destruct (IH (level + 1) c) as (Hw' & Hfind & Hin); [lia|done| |done|].
    { unfold levels_left in *. unfold MAX_LEVELS in *. lia. }
    set (c' := hset f (level + 1) (khash key) key value c) in *.
    destruct (lookup_child level bm key A c B HAs HBs) as (Ea & Eb & _).
    split; [|split].
    + eapply hwf_insert_child; [done|done|by apply slots_has_bit|done..|].
      apply Forall_forall. intros e [->|He]%Hin; [done|]. by rewrite Forall_forall in Hcs; apply Hcs.
    + intros k. rewrite !tentries_middle. by apply find_entry_middle.
    + intros e. rewrite !tentries_middle, !elem_of_app. intros [?|[[?|?]%Hin|?]]; auto.
  - pose proof Hw as Hwi. inversion Hwi as [|? ? ? Hl' Hbm Hne Hts Hss]; subst.
    destruct (inner_gap level bm ts s Hs Hb Hss) as (A & B & -> & EA & HAs & HBs).
    apply Forall_app in Hts as [HA HB]. unfold insert_at.
    rewrite <- EA, take_app_length, drop_app_length.
    destruct (leaf_law level [(key, value)]) as [_ Hp]; [apply NoDup_singleton|done|].
    destruct (leaf_law (level + 1) [(key, value)]) as [Hw' _]; [apply NoDup_singleton|done|].
    destruct (lookup_child level bm key A (leaf [(key, value)]) B HAs HBs) as (Ea & Eb & _).
    split; [|split].
    + eapply hwf_insert_child; [done| |by apply slots_set|done..|].
      * apply lor_range; [done|done|]. pose proof (bit_of_range s Hs). lia.
      * rewrite Hp. by constructor.
    + intros k. rewrite tentries_middle.
      rewrite (find_entry_middle key (Some value) _ [] _ _ k Ea Eb).
      * cbn [tentries]. by rewrite fmap_app, concat_app.
      * intros k'. rewrite (find_entry_perm k' _ [(key, value)]), find_entry_cons.
        -- cbn [fst snd]. do 2 case_decide; congruence || done.
        -- by apply (hwf_nodup (level + 1)).
        -- done.
    + intros e. rewrite tentries_middle. cbn [tentries]. rewrite fmap_app, concat_app.
      rewrite !elem_of_app, Hp, list_elem_of_singleton. tauto.
Qed.
(** ** Removal *)
Definition oentries (o : option (mtree Label)) : list (Value * Value) :=
  match o with Some t => tentries t | None => [] end.

(** [o] holds the entries [es] without [key], which they had. *)
Definition unbinds (key : Value) (es : list (Value * Value)) (level : Z)
    (o : option (mtree Label)) : Prop :=
  find_entry key es ≠ None ∧
  (∀ k, find_entry k (oentries o) = if decide (k = key) then None else find_entry k es) ∧
  (∀ e, e ∈ oentries o → e ∈ es) ∧
  match o with Some t' => hwf level t' | None => True end.

Lemma remove_leaf_law level key es i :
  NoDup es.*1 → position key es = Some i →
  unbinds key es level
    (if decide (Prelude.remove_at es i = []) then None else Some (leaf (Prelude.remove_at es i))).
Proof.
  intros Hnd Ep. pose proof (position_some _ _ _ Ep) as (w & Hi & Hw).
  assert (Hin : ∀ e, e ∈ Prelude.remove_at es i → e ∈ es).
  { intros e He. rewrite (remove_at_perm es i _ Hi). by right. }
  pose proof (λ k, find_entry_remove key es i k Hnd Ep) as Hr.
  split; [by rewrite Hw|]. case_decide as E.
  - rewrite E in *. cbn. splits; [|by intros e ?%elem_of_nil|done]. intros k. by destruct (Hr k).
  - destruct (leaf_law level (Prelude.remove_at es i)) as [Hw' Hp]; [by destruct (Hr key)|done|].
    splits; [| |done].
    + intros k. cbn [oentries]. destruct (Hr k) as [Hnd' <-]. by rewrite <- (find_entry_perm k _ _ Hnd' (symmetry Hp)).
    + intros e. cbn [oentries]. rewrite Hp. apply Hin.
Qed.

Lemma unbinds_middle key ea ec ec' eb :
  find_entry key ea = None → find_entry key eb = None →
  find_entry key ec ≠ None →
  (∀ k, find_entry k ec' = if decide (k = key) then None else find_entry k ec) →
  find_entry key (ea ++ ec ++ eb) ≠ None ∧
  ∀ k, find_entry k (ea ++ ec' ++ eb) = if decide (k = key) then None else find_entry k (ea ++ ec ++ eb).
Proof.
  intros Ha Hb Hc Hf. split; [|intros k; by apply find_entry_middle].
  rewrite !find_entry_app, Ha, Hb. by destruct (find_entry key ec).
Qed.

Lemma hremove_law f level key t :
  hwf level t → (levels_left level ≤ f)%nat →
  match hremove f level (khash key) key t with
  | None => find_entry key (tentries t) = None
  | Some o => unbinds key (tentries t) level o
  end.
Proof.
  revert level t. induction f as [|f IH]; intros level t Hw Hf; [unfold levels_left in Hf; lia|].
  destruct t as [[bm|es] ts].
  2: { inversion Hw; subst. cbn [hremove tentries]. destruct (position key es) as [i|] eqn:Ep.
       - by apply remove_leaf_law.
       - by apply find_entry_none, position_none. }
  pose proof (slot_range (khash key) level) as Hs.
  cbn [hremove]. destruct (has_bit bm (bit_of (slot (khash key) level))) eqn:Hb; cbn [negb].
  2: { inversion Hw; subst. by eapply lookup_no_child. }
  destruct (hwf_child level bm ts _ Hw Hs Hb)
    as (A & c & B & -> & EA & Elk & Hl' & Hbm & HA & HB & HAs & HBs & Hc & Hcs).
  rewrite Elk. destruct (lookup_child level bm key A c B HAs HBs) as (Ea & Eb & Ec).
  assert (Hf' : (levels_left (level + 1) ≤ f)%nat) by (unfold levels_left, MAX_LEVELS in *; lia).
  specialize (IH (level + 1) c Hc Hf').
  destruct (hremove f (level + 1) (khash key) key c) as [[c'|]|]; [| |by rewrite Ec].
  - destruct IH as (Hsome & Hfind & Hin & Hw').
    rewrite <- EA, insert_app_r_alt, Nat.sub_diag by lia. cbn [insert list_insert].
    destruct (unbinds_middle key _ _ _ _ Ea Eb Hsome Hfind) as [Hs' Hfind'].
    unfold unbinds. cbn [oentries]. rewrite !tentries_middle. splits; [done|done| |].
    + intros e. rewrite !elem_of_app. intros [?|[?%Hin|?]]; auto.
    + eapply hwf_insert_child; [done|done|by apply slots_has_bit|done..|].
      apply Forall_forall. intros e ?%Hin. by rewrite Forall_forall in Hcs; apply Hcs.
  - destruct IH as (Hsome & Hfind & Hin & _). cbn [oentries] in *.
    destruct (unbinds_middle key _ _ _ _ Ea Eb Hsome Hfind) as [Hs' Hfind'].
    pose proof (slots_clear _ Hs bm) as Hclr.
    pose proof (ldiff_range bm (bit_of (slot (khash key) level)) 32 ltac:(lia) Hbm) as Hbm'.
    unfold unbinds. rewrite tentries_middle. split; [done|].
    assert (Erm : Prelude.remove_at (A ++ c :: B) (cindex bm (slot (khash key) level)) = A ++ B).
    { unfold Prelude.remove_at. rewrite <- EA, take_app_length.
      rewrite (drop_app_ge A) by lia. replace (S (length A) - length A)%nat with 1%nat by lia. done. }
    assert (Enil : concat (tentries <$> A) ++ [] ++ concat (tentries <$> B)
                     = tentries (MNode (Inner 0) (A ++ B)))
      by (cbn [tentries]; by rewrite fmap_app, concat_app).
    destruct (Z.eqb_spec (Z.ldiff bm (bit_of (slot (khash key) level))) 0) as [E0|E0]; cbn [oentries].
    + rewrite E0 in Hclr. assert (Ez : slots 0 = []) by done. rewrite Ez in Hclr.
      symmetry in Hclr. apply app_nil in Hclr as [EbA EbB]. rewrite EbA in HAs. rewrite EbB in HBs.
      apply Forall2_nil_inv_l in HAs as ->. apply Forall2_nil_inv_l in HBs as ->.
      splits; [done|by intros e ?%elem_of_nil|done].
    + rewrite Erm. rewrite Enil in Hfind'. splits; [done| |].
      * intros e. cbn [tentries]. rewrite fmap_app, concat_app, !elem_of_app. tauto.
      * constructor; [done|done| | |].
        -- intros En%app_nil. destruct En as [-> ->]. apply E0, slots_zero; [done|].
           apply Forall2_nil_inv_r in HAs. apply Forall2_nil_inv_r in HBs. by rewrite Hclr, HAs, HBs.
        -- by apply Forall_app.
        -- rewrite Hclr. by apply Forall2_app.
Qed.
End map.
