(* ===== verification/PmapFacts.v ===== *)
(** The persistent map refines the pure trie: the node format decodes, and
    [get], [set], [remove] and [entries] over the node store compute what
    [find_entry], [hset], [hremove] and [tentries] compute on the tree. *)
From S2P Require Import Prelude Bytes Hashing Values Serialize SerializeFacts Kv Merkle.
From S2P Require Import NodeCodec PmapTree Pmap.
Import Pmap.

(** ** The node format *)
Section format.
Context `{Laws : BigIntCodecLaws} (key_ty val_ty : Ty).

(** The bytes of a node, entries in the order given. *)
Definition enc (l : Label) (hs : list Z) : bytes :=
  match l with
  | Inner bm => serialize_inner bm hs
  | Leaf es => TAG_LEAF :: be_bytes 4 (zlen es) ++ concat (pair_bytes <$> es)
  end.

(** An entry both halves of which are storable at the map's types. *)
Definition entry_ok (e : Value * Value) : Prop :=
  cellable key_ty e.1 = true ∧ cellable val_ty e.2 = true.

Definition node_ok (l : Label) (hs : list Z) : Prop :=
  match l with
  | Inner bm => 0 <= bm < 2 ^ 32 ∧ count_ones bm = zlen hs
  | Leaf es => zlen es < 2 ^ 32 ∧ Forall entry_ok es ∧ hs = []
  end.

Lemma count_ones_small bm : 0 <= count_ones bm <= 32.
Proof. unfold count_ones, zlen. pose proof (length_slots bm). lia. Qed.

Lemma wrap_children (hs : list Z) : zlen hs <= 32 → wrap_u 8 (zlen hs) = zlen hs.
Proof.
  intros Hl. unfold wrap_u. rewrite Z.land_ones by lia. apply Z.mod_small.
  unfold zlen in *. change (2 ^ 8) with 256. lia.
Qed.

Lemma pmap_node_codec : codec_inverts enc (deserialize_node key_ty val_ty) node_ok.
Proof.
  intros [bm|es] hs Hok Hr; unfold node_ok in Hok.
  - destruct Hok as [Hbm Hc]. pose proof (count_ones_small bm) as Hsm. rewrite Hc in Hsm.
    cbn [enc]. unfold serialize_inner, deserialize_node. rewrite Z.eqb_refl.
    rewrite wrap_children by lia.
    rewrite (be_at_app _ [TAG_INNER] 4 bm (zlen hs :: write_hashes hs)) by done.
    cbn iota. change (get_z _ 5) with (Some (zlen hs)). cbn iota.
    replace (Z.to_nat (zlen hs)) with (length hs) by (unfold zlen; lia).
    pose proof (read_hashes_ok hs (TAG_INNER :: be_bytes 4 bm ++ [zlen hs]) [] Hr) as E.
    rewrite app_nil_r in E. cbn [app] in E. rewrite <- app_assoc in E. cbn [app] in E.
    assert (E6 : zlen (TAG_INNER :: be_bytes 4 bm ++ [zlen hs]) = 6)
      by (rewrite zlen_cons, zlen_app, zlen_be_bytes; done).
    rewrite E6 in E. rewrite E. by rewrite Hc, Z.eqb_refl.
  - destruct Hok as (Hlen & Hes & ->). cbn [enc]. unfold deserialize_node.
    change (TAG_LEAF =? TAG_INNER) with false. rewrite Z.eqb_refl. cbn iota.
    pose proof (zlen_nonneg es).
    rewrite (be_at_app _ [TAG_LEAF] 4 (zlen es) (concat (pair_bytes <$> es))) by (lia || done).
    cbn iota. replace (Z.to_nat (zlen es)) with (length es) by (unfold zlen; lia).
    pose proof (read_pairs_ok key_ty val_ty es (TAG_LEAF :: be_bytes 4 (zlen es)) [] Hes) as E.
    rewrite app_nil_r in E. cbn [app] in E.
    rewrite zlen_cons, zlen_be_bytes in E. change (1 + Z.of_nat 4) with 5 in E. by rewrite E.
Qed.

Lemma pmap_node_nonempty n : deserialize_node key_ty val_ty [] ≠ Ok (Some n).
Proof. done. Qed.

(** ** Pure parts of the operations *)
Lemma key_hash key : cellable key_ty key = true → hash_key key = Ok (khash key).
Proof. intros Hk. unfold hash_key. by rewrite (cellable_serialize key_ty). Qed.

Lemma sort_entries_ok es :
  Forall entry_ok es → sort_entries es = Ok (psort es).
Proof.
  intros Hes. unfold sort_entries. rewrite (mapM_out_ok _ (λ e, (ser e.1, e))); [done|].
  intros e He. rewrite Forall_forall in Hes. destruct (Hes e He) as [Hk _].
  by rewrite (cellable_serialize key_ty).
Qed.

Lemma entries_ok_psort es : Forall entry_ok (psort es) ↔ Forall entry_ok es.
Proof. by rewrite psort_perm. Qed.

Lemma serialize_leaf_sorts es :
  Forall entry_ok es → serialize_leaf es = Ok (enc (Leaf (psort es)) []).
Proof.
  intros Hes. unfold serialize_leaf. rewrite sort_entries_ok by done. cbn [mbind outcome_bind].
  rewrite (mapM_out_ok _ pair_bytes); [done|]. intros e He.
  rewrite <- entries_ok_psort, Forall_forall in Hes. destruct (Hes e He) as [Hk Hv].
  unfold write_pair. by rewrite (cellable_write _ _ Hk), (cellable_write _ _ Hv).
Qed.

Lemma bits_at_ok h level : 0 <= level < MAX_LEVELS → bits_at h level = Ok (slot h level).
Proof.
  intros Hl. unfold bits_at, BITS_PER_LEVEL, MAX_LEVELS in *.
  destruct (Z.ltb_spec (level * 5) 64); [done|lia].
Qed.

Lemma by_slot_ok level es :
  0 <= level < MAX_LEVELS → Forall entry_ok es → by_slot level es = Ok (groups level es).
Proof.
  intros Hl Hes. unfold by_slot.
  rewrite (mapM_out_ok _ (λ e, (slot (khash e.1) level, e))).
  { cbn [mbind outcome_bind]. unfold groups. reflexivity. }
  intros e He. rewrite Forall_forall in Hes. destruct (Hes e He) as [Hk _].
  rewrite key_hash by done. cbn [mbind outcome_bind]. by rewrite bits_at_ok.
Qed.

(** Every entry of a tree in play is storable. *)
Lemma in_play_entries U t : in_play NODE_NS enc node_ok U t → Forall entry_ok (tentries t).
Proof.
  induction t as [[bm|es] ts IH] using mtree_ind_nested; inversion 1 as [? ? Hok Hin Hts]; subst.
  - cbn [tentries]. apply Forall_concat, Forall_fmap. rewrite Forall_forall in *. eauto.
  - by destruct Hok as (_ & ? & _).
Qed.
End format.

(** ** Simulation *)
Section refinement.
Context `{Laws : BigIntCodecLaws} {St : Type} `{TxLaws St}.
Context (key_ty val_ty : Ty) (U : list bytes).
Context (HU : no_collision NODE_NS U = true).

Local Abbreviation hash := (thash NODE_NS enc).
Local Abbreviation stored := (stored NODE_NS enc (node_ok key_ty val_ty) U).
Local Abbreviation in_play := (in_play NODE_NS enc (node_ok key_ty val_ty) U).
Local Abbreviation store_ok := (store_ok NODE_NS U).
Local Abbreviation extends := (extends NODE_NS U).
Local Abbreviation returns := (returns NODE_NS U).
Local Abbreviation entry_ok := (entry_ok key_ty val_ty).

(** [m] answers the hash of [t] and leaves [t] stored. *)
Definition makes (t : mtree Label) (r : Z) (s : St) : Prop := r = hash t ∧ stored (view s) t.

Lemma read_then {B} t s (f : option Node → SM St B) Q :
  store_ok s → stored (view s) t →
  (∀ s', extends s s' → store_ok s' → stored (view s') t →
         returns (f (Some (label t, hash <$> children t))) s' Q) →
  returns (Pmap.read_node key_ty val_ty (hash t) ≫= f) s Q.
Proof.
  intros Hs Ht HQ. eapply returns_bind.
  - eapply (returns_read_node _ _ _ _ _ (pmap_node_codec key_ty val_ty) HU _ _
      (λ r s', r = Some (label t, hash <$> children t) ∧ stored (view s') t)); [done..|]. by split.
  - intros r s' He [-> Ht']. apply HQ; [done|by eapply extends_ok|done].
Qed.

Lemma write_leaf_makes es s :
  store_ok s → in_play (leaf es) → returns (write_leaf es) s (makes (leaf es)).
Proof.
  intros Hs Hp. pose proof Hp as Hp'. inversion Hp' as [? ? Hok Hin _]; subst.
  destruct Hok as (_ & Hes & _). apply (proj1 (entries_ok_psort _ _ es)) in Hes. unfold write_leaf.
  apply (returns_bind_lift _ (enc (Leaf (psort es)) [])); [by apply (serialize_leaf_sorts key_ty val_ty)|].
  eapply (returns_write_node _ _ _ _ HU (Leaf (psort es)) []);
    [done|by inversion Hp|done|constructor|]. by split.
Qed.

Lemma write_inner_makes bm ts s :
  store_ok s → in_play (MNode (Inner bm) ts) → Forall (stored (view s)) ts →
  returns (write_inner bm (hash <$> ts)) s (makes (MNode (Inner bm) ts)).
Proof.
  intros Hs Hp Hts. inversion Hp as [? ? Hok Hin _]; subst. unfold write_inner.
  change (serialize_inner bm (hash <$> ts)) with (enc (Inner bm) (hash <$> ts)).
  eapply (returns_write_node _ _ _ _ HU (Inner bm) ts); [done..|]. by split.
Qed.

Lemma all_stored_extends s s' ts :
  extends s s' → Forall (stored (view s)) ts → Forall (stored (view s')) ts.
Proof. intros He Hts. eapply Forall_impl; [exact Hts|]. intros t. by apply stored_extends. Qed.

(** ** Lookup *)
Lemma pmap_get_at_ok f level key t s :
  store_ok s → stored (view s) t → hwf level t → (levels_left level ≤ f)%nat →
  returns (get_at key_ty val_ty f (hash t) key (khash key) level) s
    (λ r _, r = find_entry key (tentries t)).
Proof.
  revert level t s. induction f as [|f IH]; intros level t s Hs Ht Hw Hf;
    [unfold levels_left in Hf; lia|].
  cbn [get_at]. apply read_then; [done..|]. intros s1 He1 Hs1 Ht1.
  destruct t as [[bm|es] ts]; cbn [label children].
  2: { inversion Hw; subst. apply returns_ret; [done|]. done. }
  pose proof Hw as Hw'. inversion Hw' as [|? ? ? Hl Hbm Hne Hts Hss]; subst.
  apply (returns_bind_lift _ (slot (khash key) level)); [by apply bits_at_ok|].
  pose proof (slot_range (khash key) level) as Hsl.
  destruct (has_bit bm (bit_of (slot (khash key) level))) eqn:Hb; cbn [negb].
  2: { apply returns_ret; [done|]. by rewrite (lookup_no_child level). }
  destruct (hwf_child level bm ts _ Hw Hsl Hb)
    as (A & c & B & E & EA & Elk & _ & _ & _ & _ & HAs & HBs & Hc & _).
  destruct (lookup_child level bm key A c B HAs HBs) as (_ & _ & Ec). rewrite <- E in Ec.
  apply (returns_bind_lift _ (hash c)).
  { unfold get_z. rewrite child_index_below by done. pose proof (zlen_nonneg (below (slot (khash key) level) bm)).
    destruct (Z.ltb_spec (zlen (below (slot (khash key) level) bm)) 0); [lia|].
    unfold cindex in Elk. rewrite child_index_below in Elk by done.
    rewrite list_lookup_fmap, Elk. done. }
  rewrite Ec. apply IH; [done| |done|unfold levels_left, MAX_LEVELS in *; lia].
  inversion Ht1 as [? ? _ _ _ Hst]; subst. rewrite Forall_forall in Hst. apply Hst.
  by eapply list_elem_of_lookup_2.
Qed.
(** ** Insertion *)
Lemma build_children_ok (build : list (Value * Value) → SM St Z)
    (tree : list (Value * Value) → mtree Label) (gs : list (Z * list (Value * Value))) s :
  store_ok s →
  (∀ g s, g ∈ gs → store_ok s → returns (build g.2) s (makes (tree g.2))) →
  returns (build_children build gs) s
    (λ r s', r = hash <$> ((λ g, tree g.2) <$> gs) ∧
             Forall (stored (view s')) ((λ g, tree g.2) <$> gs)).
Proof.
  intros Hs Hb. revert s Hs. induction gs as [|[i es] gs IH]; intros s Hs; cbn [build_children].
  { apply returns_ret; [done|]. split; [done|constructor]. }
  eapply returns_bind; [apply (Hb (i, es)); [left|done]|]. intros c s1 He1 [-> Hc].
  eapply returns_bind; [apply IH; [|by eapply extends_ok]|].
  { intros g s' Hg. apply Hb. by right. }
  intros cs s2 He2 [-> Hcs]. apply returns_ret; [by eapply extends_ok|].
  split; [done|]. constructor; [|done]. by eapply stored_extends.
Qed.

Lemma pmap_in_play_children l ts : in_play (MNode l ts) → Forall in_play ts.
Proof. by inversion 1. Qed.

Lemma split_made f level gs s :
  store_ok s →
  (∀ g s, g ∈ gs → store_ok s → in_play (hbuild f g.2 (level + 1)) →
     returns (build_from_entries f g.2 (level + 1)) s (makes (hbuild f g.2 (level + 1)))) →
  in_play (MNode (Inner (groups_bitmap gs)) ((λ g, hbuild f g.2 (level + 1)) <$> gs)) →
  returns (cs ← build_children (λ es, build_from_entries f es (level + 1)) gs;
           write_inner (groups_bitmap gs) cs) s
    (makes (MNode (Inner (groups_bitmap gs)) ((λ g, hbuild f g.2 (level + 1)) <$> gs))).
Proof.
  intros Hs Hb Hp. eapply returns_bind.
  - apply (build_children_ok _ (λ es, hbuild f es (level + 1))); [done|].
    intros g s' Hin Hs'. apply Hb; [done|done|].
    apply pmap_in_play_children in Hp. rewrite Forall_fmap, Forall_forall in Hp. exact (Hp _ Hin).
  - intros cs s1 He1 [-> Hcs]. apply write_inner_makes; [by eapply extends_ok|done|done].
Qed.

Lemma build_ok_made f es level s :
  0 <= level → NoDup es.*1 → es ≠ [] → build_ok f es level = true →
  store_ok s → in_play (hbuild f es level) →
  returns (build_from_entries f es level) s (makes (hbuild f es level)).
Proof.
  revert es level s. induction f as [|f IH]; intros es level s Hl Hnd Hne Hok Hs Hp; [done|].
  pose proof (hbuild_law (S f) es level Hl Hnd Hne Hok) as [_ Hperm].
  pose proof (in_play_entries _ _ _ _ Hp) as Hes. rewrite Hperm in Hes. clear Hperm.
  cbn [build_from_entries]. rewrite decide_False by done.
  cbn [hbuild build_ok] in *. destruct ((zlen es =? 1) || (MAX_LEVELS <=? level)) eqn:E.
  { by apply write_leaf_makes. }
  rewrite orb_false_l in Hok. apply orb_false_iff in E as [_ E].
  apply (returns_bind_lift _ (groups level es)); [apply (by_slot_ok key_ty val_ty); [lia|done]|].
  pose proof (groups_perm level es) as Hg.
  pose proof (groups_elem level es) as Hin.
  revert Hok Hp Hg Hin. generalize (groups level es). intros gs Hok Hp Hg Hin.
  destruct gs as [|[i g] [|g' gs]]; [by apply Permutation_nil_l in Hg|done|].
  revert Hok Hp Hin. generalize ((i, g) :: g' :: gs). clear i g g' gs Hg.
  intros gs Hok Hp Hin. rewrite forallb_forall in Hok. cbv zeta.
  apply (split_made f level gs s Hs); [|exact Hp].
  intros [j h] s' Hj Hs' Hp'. cbn [snd] in *.
  specialize (Hok _ (proj1 (list_elem_of_In _ _) Hj)).
  apply Hin in Hj as (-> & Hgne & _).
  apply IH; [lia|by apply bucket_nodup|done|done|done|done].
Qed.
(** The insertion into a leaf. *)
Definition set_leaf (n : nat) (key value : Value) (level : Z) (es : list (Value * Value)) : SM St Z :=
  match position key es with
  | Some idx =>
      new_entries ← lift (sort_entries (<[idx := (key, value)]> es));
      write_leaf new_entries
  | None =>
      if decide (es = []) then write_leaf [(key, value)] else
      if MAX_LEVELS <=? level then
        new_entries ← lift (sort_entries (es ++ [(key, value)]));
        write_leaf new_entries
      else build_from_entries n (es ++ [(key, value)]) level
  end.

Definition hset_leaf_tree (n : nat) (key value : Value) (level : Z) (es : list (Value * Value)) :=
  match position key es with
  | Some i => leaf (psort (<[i := (key, value)]> es))
  | None =>
      if decide (es = []) then leaf [(key, value)] else
      if MAX_LEVELS <=? level then leaf (psort (es ++ [(key, value)]))
      else hbuild n (es ++ [(key, value)]) level
  end.

Definition set_leaf_fits (n : nat) (key value : Value) (level : Z) (es : list (Value * Value)) : bool :=
  match position key es with
  | Some _ => true
  | None => bool_decide (es = []) || (MAX_LEVELS <=? level)
            || build_ok n (es ++ [(key, value)]) level
  end.

Lemma leaf_in_play es : in_play (leaf es) → Forall entry_ok es.
Proof. intros Hp%in_play_entries. by rewrite <- entries_ok_psort. Qed.

Lemma sort_write_makes es s :
  store_ok s → in_play (leaf (psort es)) →
  returns (new ← lift (sort_entries es); write_leaf new) s (makes (leaf (psort es))).
Proof.
  intros Hs Hp. apply (returns_bind_lift _ (psort es)).
  - apply (sort_entries_ok key_ty val_ty), entries_ok_psort. by apply leaf_in_play.
  - by apply write_leaf_makes.
Qed.

Lemma set_leaf_ok n key value level es s :
  0 <= level → NoDup es.*1 → es ≠ [] → set_leaf_fits n key value level es = true →
  store_ok s → in_play (hset_leaf_tree n key value level es) →
  returns (set_leaf n key value level es) s (makes (hset_leaf_tree n key value level es)).
Proof.
  intros Hl Hnd Hne Hok Hs Hp. unfold set_leaf, hset_leaf_tree, set_leaf_fits in *.
  destruct (position key es) as [i|] eqn:Ep; [by apply sort_write_makes|].
  rewrite bool_decide_false, orb_false_l in Hok by done.
  destruct (decide (es = [])) as [|_]; [done|].
  destruct (MAX_LEVELS <=? level); [by apply sort_write_makes|].
  apply build_ok_made; [done|by apply keys_append|by destruct es|done..].
Qed.

Lemma child_get bm s ts c :
  0 <= s < 32 → ts !! cindex bm s = Some c →
  or_panic (get_z (hash <$> ts) (child_index bm (bit_of s))) = Ok (hash c).
Proof.
  intros Hs Hc. unfold get_z. unfold cindex in Hc. rewrite child_index_below in * by done.
  pose proof (zlen_nonneg (below s bm)). destruct (Z.ltb_spec (zlen (below s bm)) 0); [lia|].
  by rewrite list_lookup_fmap, Hc.
Qed.

Lemma child_set bm s ts c :
  0 <= s < 32 →
  set_z (hash <$> ts) (child_index bm (bit_of s)) (hash c) = hash <$> <[cindex bm s := c]> ts.
Proof. intros Hs. unfold set_z, cindex. by rewrite list_fmap_insert. Qed.

Lemma pmap_set_at_ok f level key value t s :
  0 <= level → hwf level t → (levels_left level ≤ f)%nat →
  set_ok f level (khash key) key value t = true →
  store_ok s → stored (view s) t → in_play (hset f level (khash key) key value t) →
  returns (set_at key_ty val_ty f (hash t) key value (khash key) level) s
    (makes (hset f level (khash key) key value t)).
Proof.
  revert level t s. induction f as [|f IH]; intros level t s Hl Hw Hf Hok Hs Ht Hp;
    [unfold levels_left in Hf; lia|].
  cbn [set_at]. pose proof (stored_nonempty _ _ _ _ HU _ _ Ht) as Hne. apply Z.eqb_neq in Hne.
  rewrite Hne. apply read_then; [done..|]. intros s1 He1 Hs1 Ht1.
  destruct t as [[bm|es] ts]; cbn [label children default id from_option].
  2: { inversion Hw as [? ? Hnd Hnee|]; subst. rewrite hset_leaf in *. rewrite set_ok_leaf in Hok.
       unfold LEVEL_FUEL. revert Hok Hp. generalize 14%nat. intros n Hok Hp.
       exact (set_leaf_ok n key value level es s1 Hl Hnd Hnee Hok Hs1 Hp). }
  pose proof Hw as Hw'. inversion Hw' as [|? ? ? Hl' Hbm Hnets Hts Hss]; subst.
  apply (returns_bind_lift _ (slot (khash key) level)); [by apply bits_at_ok|].
  pose proof (slot_range (khash key) level) as Hsl. inversion Ht1 as [? ? _ _ _ Hst]; subst.
  cbn [hset set_ok] in *. cbv zeta in *.
  destruct (has_bit bm (bit_of (slot (khash key) level))) eqn:Hb; cbn [negb] in *.
  - destruct (hwf_child level bm ts _ Hw Hsl Hb)
      as (A & c & B & E & EA & Elk & _ & _ & _ & _ & HAs & HBs & Hc & _).
    rewrite Elk in *. apply (returns_bind_lift _ (hash c)); [by apply child_get|].
    pose proof (Forall_lookup_1 _ _ _ _ Hst Elk) as Hstc.
    eapply returns_bind.
    { apply (IH (level + 1) c s1); [lia|done|unfold levels_left, MAX_LEVELS in *; lia|done..|].
      apply pmap_in_play_children in Hp. eapply Forall_lookup_1; [exact Hp|].
      apply list_lookup_insert_eq. by eapply lookup_lt_Some. }
    intros h s2 He2 [-> Hc']. rewrite child_set by done.
    apply write_inner_makes; [by eapply extends_ok|done|].
    apply Forall_insert; [by eapply all_stored_extends|done].
  - eapply returns_bind.
    { apply write_leaf_makes; [done|]. apply pmap_in_play_children in Hp.
      unfold insert_at in Hp. by apply Forall_app in Hp as [_ [? _]%Forall_cons]. }
    intros h s2 He2 [-> Hlf].
    assert (Ei : ∀ c, insert_at (hash <$> ts) (cindex bm (slot (khash key) level)) (hash c)
                      = hash <$> insert_at ts (cindex bm (slot (khash key) level)) c)
      by (intros; unfold insert_at; by rewrite fmap_app, fmap_cons, fmap_take, fmap_drop).
    fold (cindex bm (slot (khash key) level)). rewrite Ei.
    apply write_inner_makes; [by eapply extends_ok|done|].
    eapply all_stored_extends in Hst; [|exact He2]. unfold insert_at. apply Forall_app. split.
    + by apply Forall_take.
    + constructor; [done|]. by apply Forall_drop.
Qed.
(** ** Removal *)

(** The root of a map: [EMPTY], or the hash of its tree. *)
Definition root_of (o : option (mtree Label)) : Z :=
  match o with Some t => hash t | None => EMPTY end.

Definition ostored (vw : Z → Value) (o : option (mtree Label)) : Prop :=
  match o with Some t => stored vw t | None => True end.
Definition oin_play (o : option (mtree Label)) : Prop :=
  match o with Some t => in_play t | None => True end.

(** What [remove_at] answers for a pure result. *)
Definition removed (old : Z) (o : option (option (mtree Label))) : Z * bool :=
  match o with None => (old, false) | Some o => (root_of o, true) end.

(** The remaining tree is in play. *)
Definition rin_play (o : option (option (mtree Label))) : Prop :=
  match o with Some o => oin_play o | None => True end.
Definition rstored (vw : Z → Value) (o : option (option (mtree Label))) : Prop :=
  match o with Some o => ostored vw o | None => True end.

Lemma remove_leaf_ok key es s :
  store_ok s → stored (view s) (MNode (Leaf es) []) →
  let o := match position key es with
           | None => None
           | Some i => Some (if decide (Prelude.remove_at es i = []) then None
                             else Some (leaf (Prelude.remove_at es i)))
           end in
  rin_play o →
  returns
    (match position key es with
     | None => mret (hash (MNode (Leaf es) []), false)
     | Some idx =>
         if decide (Prelude.remove_at es idx = []) then mret (EMPTY, true) else
         h' ← write_leaf (Prelude.remove_at es idx);
         mret (h', true)
     end) s
    (λ r s', r = removed (hash (MNode (Leaf es) [])) o ∧ rstored (view s') o).
Proof.
  intros Hs Ht o Hp. subst o. destruct (position key es) as [i|]; [|by apply returns_ret].
  destruct (decide (Prelude.remove_at es i = [])); [by apply returns_ret|].
  eapply returns_bind; [by apply write_leaf_makes|]. intros h s1 He [-> Hst].
  apply returns_ret; [by eapply extends_ok|]. by split.
Qed.

Lemma pmap_remove_at_ok f level key t s :
  hwf level t → (levels_left level ≤ f)%nat →
  store_ok s → stored (view s) t → rin_play (hremove f level (khash key) key t) →
  returns (remove_at key_ty val_ty f (hash t) key (khash key) level) s
    (λ r s', r = removed (hash t) (hremove f level (khash key) key t) ∧
             rstored (view s') (hremove f level (khash key) key t)).
Proof.
  revert level t s. induction f as [|f IH]; intros level t s Hw Hf Hs Ht Hp;
    [unfold levels_left in Hf; lia|].
  cbn [remove_at]. apply read_then; [done..|]. intros s1 He1 Hs1 Ht1.
  destruct t as [[bm|es] ts]; cbn [label children].
  2: { inversion Hw; subst. cbn [hremove] in *. by apply remove_leaf_ok. }
  pose proof Hw as Hw'. inversion Hw' as [|? ? ? Hl' Hbm Hnets Hts Hss]; subst.
  apply (returns_bind_lift _ (slot (khash key) level)); [by apply bits_at_ok|].
  pose proof (slot_range (khash key) level) as Hsl. inversion Ht1 as [? ? _ _ _ Hst]; subst.
  cbn [hremove] in *. cbv zeta in *.
  destruct (has_bit bm (bit_of (slot (khash key) level))) eqn:Hb; cbn [negb] in *.
  2: { by apply returns_ret. }
  destruct (hwf_child level bm ts _ Hw Hsl Hb)
    as (A & c & B & E & EA & Elk & _ & _ & _ & _ & HAs & HBs & Hc & _).
  rewrite Elk in *. apply (returns_bind_lift _ (hash c)); [by apply child_get|].
  pose proof (Forall_lookup_1 _ _ _ _ Hst Elk) as Hstc.
  assert (Hpc : rin_play (hremove f (level + 1) (khash key) key c)).
  { destruct (hremove f (level + 1) (khash key) key c) as [[c'|]|]; [|done..].
    cbn [rin_play oin_play] in *. apply pmap_in_play_children in Hp.
    eapply Forall_lookup_1; [exact Hp|]. apply list_lookup_insert_eq. by eapply lookup_lt_Some. }
  eapply returns_bind.
  { apply (IH (level + 1) c s1); [done|unfold levels_left, MAX_LEVELS in *; lia|done..]. }
  intros r s2 He2 [-> Hr]. assert (Hs2 : store_ok s2) by (by eapply extends_ok).
  pose proof (all_stored_extends _ _ _ He2 Hst) as Hst2.
  destruct (hremove f (level + 1) (khash key) key c) as [[c'|]|];
    cbn [removed root_of negb rstored ostored rin_play oin_play] in *.
  - pose proof (stored_nonempty _ _ _ _ HU _ _ Hr) as Hne. apply Z.eqb_neq in Hne. rewrite Hne.
    rewrite child_set by done.
    eapply returns_bind; [apply write_inner_makes; [done|done|by apply Forall_insert]|].
    intros h s3 He3 [-> Hst3]. apply returns_ret; [by eapply extends_ok|]. by split.
  - rewrite Z.eqb_refl. destruct (Z.ldiff bm (bit_of (slot (khash key) level)) =? 0);
      [by apply returns_ret|].
    assert (Er : Prelude.remove_at (hash <$> ts) (cindex bm (slot (khash key) level))
                 = hash <$> Prelude.remove_at ts (cindex bm (slot (khash key) level)))
      by (unfold Prelude.remove_at; by rewrite fmap_app, fmap_take, fmap_drop).
    fold (cindex bm (slot (khash key) level)). rewrite Er.
    eapply returns_bind; [apply write_inner_makes; [done|done|]|].
    { unfold Prelude.remove_at. apply Forall_app. split; [by apply Forall_take|by apply Forall_drop]. }
    intros h s3 He3 [-> Hst3]. apply returns_ret; [by eapply extends_ok|]. by split.
  - by apply returns_ret.
Qed.

(** ** Full walk *)
Lemma collect_ok f level t s :
  hwf level t → (levels_left level ≤ f)%nat → store_ok s → stored (view s) t →
  returns (collect_entries key_ty val_ty f (hash t)) s (λ r _, r = tentries t).
Proof.
  revert level t s. induction f as [|f IH]; intros level t s Hw Hf Hs Ht;
    [unfold levels_left in Hf; lia|].
  cbn [collect_entries]. apply read_then; [done..|]. intros s1 He1 Hs1 Ht1.
  destruct t as [[bm|es] ts]; cbn [label children tentries]; [|by apply returns_ret].
  inversion Ht1 as [? ? _ _ _ Hst]; subst. inversion Hw as [|? ? ? Hl _ _ Hts _]; subst.
  clear -Hl Hf Hs1 Hst Hts IH. revert s1 Hs1 Hst. induction Hts as [|c ts Hc Hts IHts];
    intros s1 Hs1 Hst; cbn [collect_children]; [by apply returns_ret|].
  apply Forall_cons in Hst as [Hc1 Hst].
  eapply returns_bind; [apply (IH (level + 1)); [done| |done|done]|].
  { unfold levels_left, MAX_LEVELS in *. lia. }
  intros es s2 He2 ->. eapply returns_bind.
  { apply IHts; [by eapply extends_ok|by eapply all_stored_extends]. }
  intros rest s3 He3 ->. apply returns_ret; [by eapply extends_ok|done].
Qed.
End refinement.
