(* ===== verification/PmapSpec.v ===== *)
(** What the persistent map promises: over a store that holds the trie of a
    root, lookups, insertions, removals and the full walk are those of a finite
    map, and every older root stays readable. *)
From S2P Require Import Prelude Bytes Hashing Values Serialize SerializeFacts Kv Merkle.
From S2P Require Import NodeCodec PmapTree Pmap PmapFacts.
Import Pmap.

(** ** The map of a root *)
Section maps.
Context `{BigIntCodec}.

(** [None] is the empty map. *)
Definition Map : Type := option (mtree Label).

Definition lookup_key (key : Value) (o : Map) : option Value := find_entry key (oentries o).

Definition map_set (key value : Value) (o : Map) : mtree Label :=
  match o with
  | None => leaf [(key, value)]
  | Some t => hset LEVEL_FUEL 0 (khash key) key value t
  end.

(** No split of the insertion skips a level. *)
Definition map_set_ok (key value : Value) (o : Map) : bool :=
  match o with
  | None => true
  | Some t => set_ok LEVEL_FUEL 0 (khash key) key value t
  end.

(** [None] when the key is absent. *)
Definition map_remove (key : Value) (o : Map) : option Map :=
  match o with
  | None => None
  | Some t => hremove LEVEL_FUEL 0 (khash key) key t
  end.

Definition map_wf (o : Map) : Prop := match o with Some t => hwf 0 t | None => True end.

Lemma levels_enough : (levels_left 0 ≤ LEVEL_FUEL)%nat.
Proof. apply Nat.leb_le. reflexivity. Qed.

Lemma map_set_law key value o :
  map_wf o → map_set_ok key value o = true →
  map_wf (Some (map_set key value o)) ∧
  ∀ k, lookup_key k (Some (map_set key value o))
       = if decide (k = key) then Some value else lookup_key k o.
Proof.
  intros Hw Hok. destruct o as [t|]; cbn [map_wf map_set map_set_ok] in *.
  - destruct (hset_law LEVEL_FUEL 0 key value t) as (Hw' & Hf & _);
      [done|done|apply levels_enough|done|]. done.
  - destruct (leaf_law 0 [(key, value)]) as [Hw' Hp]; [apply NoDup_singleton|done|].
    split; [done|]. intros k. unfold lookup_key. cbn [oentries].
    rewrite (find_entry_perm k _ [(key, value)]); [|by apply (hwf_nodup 0)|done].
    rewrite find_entry_cons. cbn [fst snd]. do 2 case_decide; congruence || done.
Qed.

Lemma map_remove_law key o :
  map_wf o →
  match map_remove key o with
  | None => lookup_key key o = None
  | Some o' => map_wf o' ∧ is_Some (lookup_key key o) ∧
      ∀ k, lookup_key k o' = if decide (k = key) then None else lookup_key k o
  end.
Proof.
  intros Hw. destruct o as [t|]; cbn [map_wf map_remove] in *; [|done].
  pose proof (hremove_law LEVEL_FUEL 0 key t Hw levels_enough) as Hr.
  destruct (hremove LEVEL_FUEL 0 (khash key) key t) as [o'|]; [|done].
  destruct Hr as (Hs & Hf & _ & Hw'). splits; [by destruct o'| |done].
  unfold lookup_key. cbn [oentries]. by destruct (find_entry key (tentries t)).
Qed.
End maps.

Section spec.
Context `{Laws : BigIntCodecLaws} {St : Type} `{TxLaws St}.
Context (key_ty val_ty : Ty) (U : list bytes).
Context (HU : no_collision NODE_NS U = true).

Local Abbreviation store_ok := (store_ok NODE_NS U).
Local Abbreviation extends := (extends NODE_NS U).
Local Abbreviation returns := (returns NODE_NS U).
Local Abbreviation ostored := (ostored key_ty val_ty U).
Local Abbreviation oin_play := (oin_play key_ty val_ty U).
Local Abbreviation keyable key := (cellable key_ty key = true).

(** The map [o] is stored under [root]. *)
Definition denotes (s : St) (root : Z) (o : Map) : Prop :=
  root = root_of o ∧ ostored (view s) o ∧ map_wf o.

(** Every root stays readable in a store that extends its own. *)
Lemma denotes_extends s s' root o : extends s s' → denotes s root o → denotes s' root o.
Proof.
  intros He (E & Hst & Hw). split; [done|]. split; [|done].
  destruct o as [t|]; [|done]. by eapply stored_extends.
Qed.

Lemma denotes_empty s : denotes s EMPTY None.
Proof. done. Qed.

Lemma root_nonempty s root t : denotes s root (Some t) → (root =? EMPTY) = false.
Proof. intros (-> & Hst & _). apply Z.eqb_neq. by eapply stored_nonempty. Qed.

Lemma get_ok s root o key :
  store_ok s → denotes s root o → keyable key →
  returns (get key_ty val_ty root key) s (λ r _, r = lookup_key key o).
Proof.
  intros Hs Hd Hk. unfold get. destruct o as [t|].
  - rewrite (root_nonempty _ _ _ Hd). destruct Hd as (-> & Hst & Hw).
    apply (returns_bind_lift _ (khash key)); [by apply (key_hash key_ty)|].
    apply pmap_get_at_ok; [done..|apply levels_enough].
  - destruct Hd as [-> _]. by apply returns_ret.
Qed.

(** [get] answers the value the map binds the key to, or nothing. *)
Theorem pmap_get_spec s root o key :
  store_ok s → denotes s root o → keyable key →
  returns (get key_ty val_ty root key) s
    (λ r s', r = lookup_key key o ∧ denotes s' root o).
Proof.
  intros Hs Hd Hk. eapply returns_mono; [by apply get_ok|].
  intros r s' He ->. split; [done|by eapply denotes_extends].
Qed.

Lemma map_set_made s root o key value :
  store_ok s → denotes s root o → map_set_ok key value o = true →
  keyable key → oin_play (Some (map_set key value o)) →
  returns (set key_ty val_ty root key value) s
    (λ r s', denotes s' r (Some (map_set key value o))).
Proof.
  intros Hs Hd Hok Hk Hp. pose proof Hd as (_ & _ & Hw).
  destruct (map_set_law key value o Hw Hok) as [Hw' _].
  unfold set. apply (returns_bind_lift _ (khash key)); [by apply (key_hash key_ty)|].
  eapply returns_mono with (Q := makes key_ty val_ty U (map_set key value o)).
  - destruct o as [t|].
    + destruct Hd as (-> & Hst & _). cbn [map_set map_set_ok] in *.
      apply pmap_set_at_ok; [done|done|done|apply levels_enough|done..].
    + destruct Hd as [-> _]. unfold LEVEL_FUEL. cbn [set_at map_set root_of] in *.
      rewrite Z.eqb_refl. by apply write_leaf_makes.
  - intros r s' _ [-> Hst]. by split.
Qed.


Lemma map_removed s root o key :
  store_ok s → denotes s root o → keyable key →
  rin_play key_ty val_ty U (map_remove key o) →
  returns (remove key_ty val_ty root key) s
    (λ r s', match map_remove key o with
             | None => r = (root, false)
             | Some o' => r.2 = true ∧ denotes s' r.1 o'
             end).
Proof.
  intros Hs Hd Hk Hp. pose proof Hd as (_ & _ & Hw).
  pose proof (map_remove_law key o Hw) as Hlaw. unfold remove. destruct o as [t|].
  - rewrite (root_nonempty _ _ _ Hd). destruct Hd as (-> & Hst & _).
    apply (returns_bind_lift _ (khash key)); [by apply (key_hash key_ty)|].
    cbn [map_remove root_of] in *.
    eapply returns_mono; [apply pmap_remove_at_ok; [done|done|apply levels_enough|done..]|].
    intros r s' _ [-> Hst']. destruct (hremove LEVEL_FUEL 0 (khash key) key t) as [o'|]; [|done].
    cbn [removed fst snd rstored] in *. destruct Hlaw as [Hw' _]. by split.
  - destruct Hd as [-> _]. by apply returns_ret.
Qed.

(** C9: [remove] reports whether the key was bound and answers a root under
    which it is not, every other key keeping its binding; removing an absent key
    answers the same root; the old root still denotes the old map. *)
Theorem pmap_remove_spec s root o key :
  store_ok s → denotes s root o → keyable key →
  rin_play key_ty val_ty U (map_remove key o) →
  returns (remove key_ty val_ty root key) s
    (λ r s', denotes s' root o ∧ r.2 = bool_decide (is_Some (lookup_key key o)) ∧
       (r.2 = false → r.1 = root) ∧
       ∃ o', denotes s' r.1 o' ∧
         ∀ k, lookup_key k o' = if decide (k = key) then None else lookup_key k o).
Proof.
  intros Hs Hd Hk Hp. pose proof Hd as (_ & _ & Hw).
  pose proof (map_remove_law key o Hw) as Hlaw.
  eapply returns_mono; [by apply map_removed|]. intros [r found] s' He Hr.
  pose proof (denotes_extends _ _ _ _ He Hd) as Hd'. split; [done|]. cbn [fst snd] in *.
  destruct (map_remove key o) as [o'|].
  - destruct Hr as [-> Hr]. destruct Hlaw as (_ & Hs' & Hf).
    rewrite bool_decide_true by done. splits; [done..|]. by exists o'.
  - injection Hr as -> ->. rewrite Hlaw. splits; [|done|].
    + rewrite bool_decide_false; [done|]. by intros [? ?].
    + exists o. split; [done|]. intros k. case_decide; congruence.
Qed.

(** [entries] lists every binding of the map, each key once. *)
Theorem pmap_entries_spec s root o :
  store_ok s → denotes s root o →
  returns (entries key_ty val_ty root) s
    (λ r _, NoDup r.*1 ∧ ∀ k v, (k, v) ∈ r ↔ lookup_key k o = Some v).
Proof.
  intros Hs Hd. eapply returns_mono with (Q := λ r _, r = oentries o).
  - unfold entries. destruct o as [t|].
    + rewrite (root_nonempty _ _ _ Hd). destruct Hd as (-> & Hst & Hw).
      apply (collect_ok key_ty val_ty U HU _ 0); [done|apply levels_enough|done..].
    + destruct Hd as [-> _]. by apply returns_ret.
  - intros r s' _ ->. destruct Hd as (_ & _ & Hw).
    assert (Hnd : NoDup (oentries o).*1)
      by (destruct o; [by apply (hwf_nodup 0)|constructor]).
    split; [done|]. intros k v. symmetry. by apply find_entry_some.
Qed.
(** ** Histories

    Any sequence of insertions and removals from the empty map. *)
Inductive Update := USet (key value : Value) | URemove (key : Value).

Definition update_root (root : Z) (u : Update) : SM St Z :=
  match u with
  | USet key value => set key_ty val_ty root key value
  | URemove key => r ← remove key_ty val_ty root key; mret r.1
  end.

Fixpoint replay (us : list Update) (root : Z) : SM St Z :=
  match us with
  | [] => mret root
  | u :: us' => root' ← update_root root u; replay us' root'
  end.

Definition update_map (o : Map) (u : Update) : Map :=
  match u with
  | USet key value => Some (map_set key value o)
  | URemove key => default o (map_remove key o)
  end.

Definition update_ok (o : Map) (u : Update) : Prop :=
  match u with
  | USet key value => map_set_ok key value o = true ∧ keyable key
  | URemove key => keyable key
  end ∧ oin_play (update_map o u).

(** Every step of a history is admissible. *)
Fixpoint history_ok (us : list Update) (o : Map) : Prop :=
  match us with
  | [] => True
  | u :: us' => update_ok o u ∧ history_ok us' (update_map o u)
  end.

(** What the last update of a key left. *)
Definition update_binding (key : Value) (b : option Value) (u : Update) : option Value :=
  match u with
  | USet k v => if decide (key = k) then Some v else b
  | URemove k => if decide (key = k) then None else b
  end.

Lemma update_root_ok s root o u :
  store_ok s → denotes s root o → update_ok o u →
  returns (update_root root u) s (λ r s', denotes s' r (update_map o u)).
Proof.
  intros Hs Hd [Hu Hp]. destruct u as [key value|key]; cbn [update_root update_map] in *.
  - destruct Hu as [Hok Hk]. by apply map_set_made.
  - assert (Hr : rin_play key_ty val_ty U (map_remove key o))
      by (by destruct (map_remove key o)).
    eapply returns_bind; [by apply map_removed|]. intros [r found] s' He Hd'.
    apply returns_ret; [by eapply extends_ok|].
    destruct (map_remove key o) as [o'|]; cbn [default from_option fst snd id] in *; [by destruct Hd'|].
    injection Hd' as -> ->. by eapply denotes_extends.
Qed.

Lemma update_binding_ok s root o u key :
  denotes s root o → update_ok o u →
  lookup_key key (update_map o u) = update_binding key (lookup_key key o) u.
Proof.
  intros (_ & _ & Hw) [Hu _]. destruct u as [k v|k]; cbn [update_map update_binding].
  - destruct Hu as [Hok _]. destruct (map_set_law k v o Hw Hok) as [_ ->]. done.
  - pose proof (map_remove_law k o Hw) as Hr. destruct (map_remove k o) as [o'|]; cbn.
    + by destruct Hr as (_ & _ & ->).
    + case_decide; congruence.
Qed.

Lemma replay_ok us s root o key :
  store_ok s → denotes s root o → history_ok us o →
  returns (replay us root) s (λ r s', denotes s' r (foldl update_map o us) ∧
    lookup_key key (foldl update_map o us) = foldl (update_binding key) (lookup_key key o) us).
Proof.
  revert s root o. induction us as [|u us IH]; intros s root o Hs Hd Hh; cbn [replay foldl].
  - by apply returns_ret.
  - destruct Hh as [Hu Hh]. eapply returns_bind; [by apply update_root_ok|].
    intros r s' He Hd'. rewrite <- (update_binding_ok s root o u key Hd Hu).
    apply IH; [by eapply extends_ok|done|done].
Qed.

(** C10: after any admissible history of insertions and removals from the empty
    root, [get] of a key answers what the last update of that key left. *)
Theorem pmap_history us key s :
  store_ok s → history_ok us None → keyable key →
  returns (root ← replay us EMPTY; get key_ty val_ty root key) s
    (λ r _, r = foldl (update_binding key) None us).
Proof.
  intros Hs Hh Hk. eapply returns_bind; [by apply (replay_ok us s EMPTY None key)|].
  intros root s' He (Hd & Ho). change (lookup_key key None) with (@None Value) in Ho.
  rewrite <- Ho. apply get_ok; [by eapply extends_ok|done..].
Qed.
End spec.
