(* ===== verification/PmapWalk.v ===== *)
(** Lazy map lookups: a walk registered by [begin_pmap_get] and drained by
    [force] answers what the eager [Pmap.get] answers. *)
From S2P Require Import Prelude Bytes Hashing Values Serialize SerializeFacts Kv Merkle.
From S2P Require Import NodeCodec PmapTree Pmap PmapFacts PmapSpec.
From S2P Require Import Tx TxFacts.

Section walk.
Context `{Laws : BigIntCodecLaws} (key_ty val_ty : Ty) (U : list bytes).
Context (HU : no_collision NODE_NS U = true).

Local Abbreviation hash := (thash NODE_NS enc).
Local Abbreviation stored := (stored NODE_NS enc (node_ok key_ty val_ty) U).

(** Everything but the walks is settled. *)
Definition quiet (t : Tx) : Prop :=
  pending t = [] ∧ kv_ok (tx_kv t) ∧
  ∀ k v, chain_lookup t k = Some v → contains_pending v = false.

(** [t'] differs from [t] in cached observations only. *)
Definition cached (t t' : Tx) : Prop :=
  (∀ k, tx_view t' k = tx_view t k) ∧ quiet t' ∧ writes t' = writes t ∧
  resolved t' = resolved t ∧ pending_walks t' = pending_walks t ∧ lazy t' = lazy t.

Lemma quiet_view t k : quiet t → contains_pending (tx_view t k) = false.
Proof.
  intros (_ & _ & Hc). unfold tx_view, tx_observe.
  destruct (chain_lookup t k) as [v|] eqn:E; [by eapply Hc|].
  by destruct (kv_observe_bytes (tx_kv t) k) as [b ->].
Qed.

Lemma cached_insert t k :
  quiet t → own_lookup t k = None → cached t (with_reads <[k := tx_view t k]> t).
Proof.
  intros Hq Ho. pose proof (chain_lookup_with_reads t k (tx_view t k) Ho) as Hc.
  pose proof (quiet_view t k Hq) as Hv. destruct Hq as (Hp & Hkv & Hn).
  unfold cached. splits; try done.
  - intros k'. unfold tx_view at 1, tx_observe. rewrite Hc. case_decide; [by subst|done].
  - unfold quiet. splits; [done..|]. intros k' v. rewrite Hc.
    case_decide; [intros [= <-]; done|apply Hn].
Qed.

Lemma node_bytes_view t bc k :
  quiet t →
  (chain_lookup t k = None → default None (bc !! k) = kv_get (tx_kv t) k) →
  ∃ t', node_bytes bc k t = (Ok (as_bytes (tx_view t k)), t') ∧ cached t t'.
Proof.
  intros Hq Hbc. unfold node_bytes.
  assert (Hown : ∀ v, own_lookup t k = Some v → tx_view t k = v).
  { intros v Hv. unfold tx_view, tx_observe. by rewrite chain_lookup_own, Hv. }
  assert (Hcase : own_lookup t k = None →
    ∀ v, parent_lookup t k = Some v → tx_view t k = v).
  { intros Ho v Hv. unfold tx_view, tx_observe. by rewrite chain_lookup_own, Ho, Hv. }
  unfold own_lookup in *. destruct (writes t !! k) as [v|] eqn:Ew.
  { exists t. by rewrite (Hown v). }
  destruct (reads t !! k) as [v|] eqn:Er.
  { exists t. by rewrite (Hown v). }
  assert (Ho : own_lookup t k = None) by (unfold own_lookup; by rewrite Ew, Er).
  pose proof (cached_insert t k Hq Ho) as Hins.
  destruct (parent_lookup t k) as [v|] eqn:Ep.
  { rewrite (Hcase eq_refl v) in Hins by done. eexists. split; [|exact Hins].
    by rewrite (Hcase eq_refl v). }
  assert (Hn : chain_lookup t k = None) by (by rewrite chain_lookup_own, Ho).
  rewrite (Hbc Hn). eexists. split; [|exact Hins].
  pose proof (tx_observe_bytes t k) as Hv. unfold tx_observe in Hv. rewrite Hn in Hv.
  unfold kv_observe in Hv. unfold mbind, SM_bind, lift. by rewrite Hv.
Qed.

(** One walk at the root of a stored subtree. *)
Definition walk_at (handle level : Z) (key : Value) (t : mtree Label) : PWalk :=
  mkWalk handle key (khash key) key_ty val_ty level (hash t).

Definition finish (handle : Z) (v : Value) (t : Tx) : Tx :=
  with_queue (lazy t) (pending t) (<[handle := v]> (resolved t)) (next_handle t)
    (pending_walks t) t.

(** What the walk answers for a lookup. *)
Definition walk_answer (o : option Value) : Value := default (default_for val_ty) o.

(** The step of a walk on the bytes of its node. *)
Lemma advance_leaf handle level key es ts :
  node_ok key_ty val_ty (Leaf es) (hash <$> ts) →
  advance_pmap_walk (walk_at handle level key (MNode (Leaf es) ts))
      (Some (tbytes NODE_NS enc (MNode (Leaf es) ts)))
    = Ok (Done (walk_answer (find_entry key es))).
Proof.
  intros Hok. unfold advance_pmap_walk, walk_at, tbytes. cbn [label children].
  cbn [walk_key_ty walk_val_ty walk_key].
  rewrite (pmap_node_codec key_ty val_ty _ _ Hok); [done|].
  apply Forall_fmap, Forall_forall. intros. apply thash_range.
Qed.

Lemma advance_inner handle level key bm ts :
  hwf level (MNode (Inner bm) ts) → node_ok key_ty val_ty (Inner bm) (hash <$> ts) →
  ∃ r, advance_pmap_walk (walk_at handle level key (MNode (Inner bm) ts))
      (Some (tbytes NODE_NS enc (MNode (Inner bm) ts))) = Ok r ∧
    match r with
    | Done v => v = walk_answer (find_entry key (tentries (MNode (Inner bm) ts)))
    | Continue w => ∃ c, c ∈ ts ∧ w = walk_at handle (level + 1) key c ∧ hwf (level + 1) c ∧
        find_entry key (tentries c) = find_entry key (tentries (MNode (Inner bm) ts))
    end.
Proof.
  intros Hw Hok. pose proof Hw as Hwi. inversion Hwi as [|? ? ? Hl Hbm Hne Hts Hss]; subst.
  unfold advance_pmap_walk. cbn [walk_at walk_key_ty walk_val_ty walk_key walk_level walk_key_hash
    walk_handle]. unfold tbytes. cbn [label children].
  rewrite (pmap_node_codec key_ty val_ty _ _ Hok).
  2: { apply Forall_fmap, Forall_forall. intros. apply thash_range. }
  cbn [mbind outcome_bind]. cbv zeta.
  destruct (Z.ltb_spec MAX_LEVELS (level + 1)); [lia|].
  rewrite bits_at_ok by done. cbn [mbind outcome_bind].
  pose proof (slot_range (khash key) level) as Hs.
  destruct (has_bit bm (bit_of (slot (khash key) level))) eqn:Hb; cbn [negb].
  2: { eexists. split; [done|]. by rewrite (lookup_no_child level). }
  destruct (hwf_child level bm ts _ Hw Hs Hb)
    as (A & c & B & E & EA & Elk & _ & _ & _ & _ & HAs & HBs & Hc & _).
  destruct (lookup_child level bm key A c B HAs HBs) as (_ & _ & Ec). rewrite <- E in Ec.
  rewrite (child_get bm _ ts c) by done. cbn [mbind outcome_bind].
  eexists. split; [done|]. exists c. splits; [by eapply list_elem_of_lookup_2|done..].
Qed.
(** ** Rounds *)
Lemma view_of_stored (vw : Z → Value) t :
  stored vw t → vw (hash t) = VBytes (tbytes NODE_NS enc t) ∧
    node_ok key_ty val_ty (label t) (hash <$> children t) ∧ Forall (stored vw) (children t).
Proof. by inversion 1. Qed.

Lemma set_walks_view ws t k : tx_view (set_walks ws t) k = tx_view t k.
Proof. unfold tx_view, tx_observe. by rewrite !chain_lookup_own. Qed.

Lemma with_queue_view l p r n ws t k : tx_view (with_queue l p r n ws t) k = tx_view t k.
Proof. unfold tx_view, tx_observe. by rewrite !chain_lookup_own. Qed.

Lemma quiet_ext t t' :
  pending t' = pending t → tx_kv t' = tx_kv t →
  (∀ k, chain_lookup t' k = chain_lookup t k) → quiet t → quiet t'.
Proof.
  intros Ep Ek Ec (Hp & Hk & Hc). unfold quiet. rewrite Ep, Ek. splits; [done..|].
  intros k v. rewrite Ec. apply Hc.
Qed.

Ltac same_quiet t := apply (quiet_ext t);
  [done|done|intros ?; unfold set_walks; by rewrite ?chain_lookup_with_queue|done].

(** The cells one walk fetches, and what the round sees of them. *)
Lemma fetched_cell t w :
  kv_ok (tx_kv t) →
  let to_fetch := cells_to_fetch t [w] [] in
  let fetched := if decide (to_fetch = []) then [] else kv_get_many (tx_kv t) to_fetch in
  chain_lookup t (walk_cell w) = None →
  default None ((list_to_map (zip to_fetch fetched) : gmap Z (option bytes)) !! walk_cell w)
    = kv_get (tx_kv t) (walk_cell w).
Proof.
  intros Hkv. cbv zeta. cbn [cells_to_fetch]. intros Hn.
  rewrite chain_lookup_own in Hn. unfold own_lookup in Hn.
  destruct (writes t !! walk_cell w) eqn:Ew; [done|].
  destruct (reads t !! walk_cell w) eqn:Er; [done|]. rewrite Hn.
  rewrite !bool_decide_false; [|by apply not_elem_of_nil|by intros []..].
  cbn [orb app]. rewrite decide_False by done. rewrite (Hkv [walk_cell w]). unfold default_get_many.
  cbn [fmap list_fmap zip zip_with list_to_map foldr uncurry]. by rewrite lookup_insert_eq.
Qed.

Lemma advance_round t handle level key tr :
  quiet t → pending_walks t = [walk_at handle level key tr] →
  stored (tx_view t) tr → hwf level tr →
  ∃ t', advance_walks t = (Ok tt, t') ∧ quiet t' ∧ (∀ k, tx_view t' k = tx_view t k) ∧
    ((pending_walks t' = [] ∧
        resolved t' !! handle = Some (walk_answer (find_entry key (tentries tr)))) ∨
     ∃ c, c ∈ children tr ∧ pending_walks t' = [walk_at handle (level + 1) key c] ∧
        hwf (level + 1) c ∧
        find_entry key (tentries c) = find_entry key (tentries tr)).
Proof.
  intros Hq Hpw Hst Hw. unfold advance_walks. rewrite decide_False by (by rewrite Hpw).
  rewrite Hpw. set (w := walk_at handle level key tr). set (t1 := set_walks [] t).
  destruct (view_of_stored _ _ Hst) as (Hv & Hok & _).
  assert (Hq1 : quiet t1).
  { unfold t1. same_quiet t. }
  pose proof (fetched_cell t1 w (proj1 (proj2 Hq1))) as Hf. cbv zeta in Hf.
  cbv zeta. revert Hf.
  generalize (list_to_map (zip (cells_to_fetch t1 [w] [])
    (if decide (cells_to_fetch t1 [w] [] = []) then []
     else kv_get_many (tx_kv t1) (cells_to_fetch t1 [w] []))) : gmap Z (option bytes)).
  intros bc Hf. cbn [advance_each].
  destruct (node_bytes_view t1 bc (walk_cell w) Hq1 Hf) as (t2 & E2 & Hc2).
  change (walk_cell w) with (hash tr) in E2 at 2. unfold t1 in E2 at 2.
  rewrite set_walks_view, Hv in E2. cbn [as_bytes] in E2.
  destruct Hc2 as (Hv2 & Hq2 & _ & _ & Hpw2 & _).
  assert (Hview : ∀ k, tx_view t2 k = tx_view t k)
    by (intros k; rewrite Hv2; apply set_walks_view).
  unfold mbind at 1, SM_bind at 1. unfold mbind at 1, SM_bind at 1. rewrite E2.
  destruct tr as [[bm|es] ts]; cbn [label children] in *.
  - destruct (advance_inner handle level key bm ts Hw Hok) as ([v|w'] & E & Hr);
      fold w in E; unfold mbind, SM_bind, lift; rewrite E.
    + subst v. eexists. splits; [done| | |].
      * same_quiet t2.
      * intros k. unfold set_walks. by rewrite !with_queue_view.
      * left. split; [done|]. cbn. by rewrite lookup_insert_eq.
    + destruct Hr as (c & Hc & -> & Hwc & Hfc). eexists. splits; [done| | |].
      * same_quiet t2.
      * intros k. unfold set_walks. by rewrite with_queue_view.
      * right. exists c. by splits.
  - unfold mbind, SM_bind, lift. unfold w. rewrite (advance_leaf handle level key es ts Hok).
    eexists. splits; [done| | |].
    + same_quiet t2.
    + intros k. unfold set_walks. by rewrite !with_queue_view.
    + left. split; [done|]. cbn. rewrite lookup_insert_eq. by inversion Hw.
Qed.

Lemma drain_walk f t handle level key tr :
  quiet t → pending_walks t = [walk_at handle level key tr] →
  stored (tx_view t) tr → hwf level tr → (levels_left level ≤ f)%nat →
  ∃ t', drain f t = (Ok tt, t') ∧ settled t' ∧ (∀ k, tx_view t' k = tx_view t k) ∧
    resolved t' !! handle = Some (walk_answer (find_entry key (tentries tr))).
Proof.
  revert t level tr. induction f as [|f IH]; intros t level tr Hq Hpw Hst Hw Hf;
    [unfold levels_left in Hf; lia|].
  cbn [drain]. rewrite (bool_decide_true (pending t = [])) by (by destruct Hq).
  rewrite (bool_decide_false (pending_walks t = [])) by (by rewrite Hpw). cbn [negb andb].
  destruct (advance_round t handle level key tr Hq Hpw Hst Hw)
    as (t1 & E1 & Hq1 & Hv1 & Hcase).
  unfold mbind at 1, SM_bind at 1. cbn [mret SM_ret]. rewrite (SM_bind_ok _ _ _ _ _ E1).
  destruct Hcase as [[Hn Hr]|(c & Hc & Hpw1 & Hwc & Hfc)].
  - exists t1. splits; [|by destruct Hq1 as (? & ? & ?); splits|done|done].
    destruct f; cbn [drain]; rewrite Hn, (bool_decide_true (pending t1 = [])) by (by destruct Hq1);
      by rewrite bool_decide_true.
  - destruct (view_of_stored _ _ Hst) as (_ & _ & Hts).
    assert (Hstc : stored (tx_view t1) c).
    { rewrite Forall_forall in Hts. eapply stored_mono; [|exact (Hts c Hc)].
      intros b _. by rewrite Hv1. }
    destruct (IH t1 (level + 1) c Hq1 Hpw1 Hstc Hwc) as (t2 & E2 & Hs2 & Hv2 & Hr2).
    { inversion Hw; subst; [by apply elem_of_nil in Hc|]. unfold levels_left, MAX_LEVELS in *. lia. }
    exists t2. splits; [done|done|intros k; by rewrite Hv2|by rewrite <- Hfc].
Qed.

(** C11: a lazy map lookup, forced, answers what the map binds the key to (the
    default of the value type when absent), as the eager lookup does, and
    changes nothing a later read observes. *)
Theorem lazy_get_eager t root o key :
  settled t → denotes key_ty val_ty U t root o → cellable key_ty key = true →
  contains_pending (default_for val_ty) = false →
  ∃ t', (v ← begin_pmap_get root key key_ty val_ty; force v) t
          = (Ok (default (default_for val_ty) (lookup_key key o)), t') ∧
    settled t' ∧ ∀ k, tx_view t' k = tx_view t k.
Proof.
  intros Hs Hd Hk Hdef. unfold begin_pmap_get. destruct o as [tr|].
  - rewrite (root_nonempty _ _ _ HU _ _ _ Hd). destruct Hd as (-> & Hst & Hw).
    rewrite (key_hash key_ty) by done. pose proof Hs as (Hp & Hpw & Hkv & Hc).
    set (t1 := with_queue (lazy t) (pending t) (resolved t) (next_handle t + 1)
      [walk_at (next_handle t) 0 key tr] t).
    destruct (drain_walk FORCE_FUEL t1 (next_handle t) 0 key tr) as (t2 & E & Hs2 & Hv2 & Hr2).
    + apply (quiet_ext t); [done|done|intros k; apply chain_lookup_with_queue|by splits].
    + done.
    + eapply stored_mono; [|exact Hst]. intros b _. unfold t1. by rewrite with_queue_view.
    + done.
    + apply Nat.leb_le. reflexivity.
    + exists t2. splits; [|done|].
      * assert (Eb : push_walk (λ handle, mkWalk handle key (khash key) key_ty val_ty 0 (hash tr)) t
          = (Ok (VPending (next_handle t)), t1)) by (unfold push_walk, t1; by rewrite Hpw).
        unfold mbind at 1, SM_bind at 1. unfold mbind at 1, SM_bind at 1.
        cbn [lift]. unfold lift. cbn [root_of]. rewrite Eb. cbn [force Tx_ops]. unfold force_tx.
        cbn [contains_pending negb]. rewrite (SM_bind_ok _ _ _ _ _ E).
        unfold resolve. cbn [substitute_resolved]. by rewrite Hr2.
      * intros k. rewrite Hv2. unfold t1. by rewrite with_queue_view.
  - destruct Hd as [-> _]. exists t. splits; [|done|done].
    exact (force_concrete (default_for val_ty) t Hdef).
Qed.
End walk.
