(* ===== verification/Pbtree.v ===== *)
(** Persistent sorted map: a B+-tree whose nodes are content-addressed cells
    ([crates/rend/src/pbtree.rs]).  Definitions only; the pure tree is in
    [PbtreeTree], the refinement in [PbtreeFacts]. *)
From S2P Require Import Prelude Bytes Hashing Values Serialize Kv Merkle NodeCodec.

Module Pbtree.
(** Maximal number of keys of an inner node and of entries of a leaf. *)
Definition B : nat := 32.
Definition TAG_INNER : Z := 0x01.
Definition TAG_LEAF : Z := 0x02.
Definition NODE_NS : Z := 0x5042545245454E4F4445504254524545.

(** [enum Node]: [Node::Inner { keys, children }] is [(Inner keys, children)],
    [Node::Leaf { entries }] is [(Leaf entries, [])]. *)
Inductive Label := Inner (keys : list Value) | Leaf (entries : list (Value * Value)).
Definition Node : Type := Label * list Z.

(** ** Comparison *)
Definition compare_keys (a b : Value) : comparison :=
  match a, b with
  | VU64 x, VU64 y => Z.compare x y
  | VU128 x, VU128 y => Z.compare x y
  | VBytes x, VBytes y => bytes_cmp x y
  | _, _ => Eq
  end.

(** [Ordering::is_le], [is_lt], [is_gt], [is_eq]. *)
Definition is_le (c : comparison) : bool := match c with Gt => false | _ => true end.
Definition is_lt (c : comparison) : bool := match c with Lt => true | _ => false end.
Definition is_gt (c : comparison) : bool := match c with Gt => true | _ => false end.
Definition is_eq (c : comparison) : bool := match c with Eq => true | _ => false end.

(** [slice::partition_point], on a slice the predicate partitions: the length
    of the prefix that satisfies it. *)
Section partition.
Context {A : Type} (p : A → bool).
Fixpoint partition_point (l : list A) : nat :=
  match l with
  | x :: l' => if p x then S (partition_point l') else O
  | [] => O
  end.
End partition.

(** [slice::binary_search_by] on a sorted slice without duplicates: the index
    of the match ([inl]), or where it would be inserted ([inr]). *)
Definition binary_search (key : Value) (entries : list (Value * Value)) : nat + nat :=
  let pos := partition_point (λ e, is_lt (compare_keys e.1 key)) entries in
  match entries !! pos with
  | Some e => if is_eq (compare_keys e.1 key) then inl pos else inr pos
  | None => inr pos
  end.

Definition descend_pos (keys : list Value) (key : Value) : nat :=
  partition_point (λ k, is_le (compare_keys k key)) keys.

(** ** Node format *)

(** [format!("{:x}")]. *)
Definition hex_digit (d : Z) : string :=
  String (Ascii.ascii_of_nat (Z.to_nat (if d <? 10 then 48 + d else 87 + d))) EmptyString.
Fixpoint hex_digits (fuel : nat) (n : Z) (acc : string) : string :=
  match fuel with
  | O => acc
  | S fuel' =>
      let acc' := String.append (hex_digit (n mod 16)) acc in
      if n / 16 =? 0 then acc' else hex_digits fuel' (n / 16) acc'
  end.
Definition lower_hex (n : Z) : string := hex_digits 32 n EmptyString.

Definition missing (node_hash : Z) (op : string) : Error :=
  mkError Runtime
    (String.append "pbtree: cell " (String.append (lower_hex node_hash)
      (String.append " missing during " op))) Span_default.

Section format.
Context `{BigIntCodec}.

Definition serialize_inner (keys : list Value) (children : list Z) : outcome bytes :=
  ks ← mapM_out write_value keys;
  Ok (TAG_INNER :: be_bytes 4 (zlen keys) ++ concat ks ++ write_hashes children).

Definition write_entry (e : Value * Value) : outcome bytes :=
  kb ← write_value e.1; vb ← write_value e.2; Ok (kb ++ vb).

Definition serialize_leaf (entries : list (Value * Value)) : outcome bytes :=
  body ← mapM_out write_entry entries;
  Ok (TAG_LEAF :: be_bytes 4 (zlen entries) ++ concat body).

Definition deserialize_node (key_ty val_ty : Ty) (bs : bytes) : outcome (option Node) :=
  match bs with
  | [] => Ok None
  | tag :: _ =>
      if tag =? TAG_INNER then
        n <-! be_at bs 1 4;
        '(keys, p) <-? read_values (Z.to_nat n) key_ty bs 5;
        '(children, _) <-! read_hashes (Z.to_nat (n + 1)) bs p;
        Ok (Some (Inner keys, children))
      else if tag =? TAG_LEAF then
        n <-! be_at bs 1 4;
        '(entries, _) <-? read_pairs (Z.to_nat n) key_ty val_ty bs 5;
        Ok (Some (Leaf entries, []))
      else Ok None
  end.
End format.

(** [Vec::remove] panics out of range. *)
Definition vec_remove {A} (l : list A) (i : nat) : outcome (list A) :=
  if decide (i < length l)%nat then Ok (Prelude.remove_at l i) else Panic.

(** ** Operations

    The source recurses on the tree without a depth; [fuel] bounds the height
    of the trees the operations are run on. *)
Inductive SetResult := SPlain (h : Z) | SSplit (left : Z) (sep : Value) (right : Z).
Inductive RemoveResult := RUnchanged | RPlain (h : Z) | RGone.

Section ops.
Context `{BigIntCodec} {St : Type} `{TxOps St}.
Context (key_ty val_ty : Ty).

Definition read_node (hash : Z) : SM St (option Node) :=
  Merkle.read_node (deserialize_node key_ty val_ty) hash.
Definition write_leaf (entries : list (Value * Value)) : SM St Z :=
  bs ← lift (serialize_leaf entries); write_node NODE_NS bs.
Definition write_inner (keys : list Value) (children : list Z) : SM St Z :=
  bs ← lift (serialize_inner keys children); write_node NODE_NS bs.

(** *** Lookup *)
Fixpoint get_at (fuel : nat) (node_hash : Z) (key : Value) : SM St (option Value) :=
  match fuel with
  | O => lift OutOfFuel
  | S fuel' =>
      node ← read_node node_hash;
      match node with
      | None => mret None
      | Some (Leaf entries, _) =>
          mret (snd ∘ snd <$> list_find (λ e, is_eq (compare_keys e.1 key) = true) entries)
      | Some (Inner keys, children) =>
          c ← lift (or_panic (children !! descend_pos keys key));
          get_at fuel' c key
      end
  end.

Definition get (fuel : nat) (root : Z) (key : Value) : SM St (option Value) :=
  if root =? EMPTY then mret None else get_at fuel root key.

Definition contains (fuel : nat) (root : Z) (key : Value) : SM St bool :=
  r ← get fuel root key; mret (bool_decide (is_Some r)).

(** *** Insertion *)
Definition insert_entry (key value : Value) (entries : list (Value * Value)) :
    list (Value * Value) :=
  match binary_search key entries with
  | inl pos => <[pos := (key, value)]> entries
  | inr pos => insert_at entries pos (key, value)
  end.

Fixpoint set_inner (fuel : nat) (node_hash : Z) (key value : Value) : SM St SetResult :=
  match fuel with
  | O => lift OutOfFuel
  | S fuel' =>
      node ← read_node node_hash;
      match node with
      | None => lift (Err (missing node_hash "set"))
      | Some (Leaf entries, _) =>
          let entries := insert_entry key value entries in
          if bool_decide (length entries ≤ B)%nat then
            h ← write_leaf entries; mret (SPlain h)
          else
            let mid := (length entries / 2)%nat in
            let right_entries := drop mid entries in
            sep ← lift (or_panic (fst <$> head right_entries));
            lh ← write_leaf (take mid entries);
            rh ← write_leaf right_entries;
            mret (SSplit lh sep rh)
      | Some (Inner keys, children) =>
          let pos := descend_pos keys key in
          c ← lift (or_panic (children !! pos));
          result ← set_inner fuel' c key value;
          match result with
          | SPlain new_child =>
              h ← write_inner keys (<[pos := new_child]> children);
              mret (SPlain h)
          | SSplit lh sep rh =>
              let new_keys := insert_at keys pos sep in
              let new_children := insert_at (<[pos := lh]> children) (S pos) rh in
              if bool_decide (length new_keys ≤ B)%nat then
                h ← write_inner new_keys new_children; mret (SPlain h)
              else
                let mid := (length new_keys / 2)%nat in
                split_key ← lift (or_panic (new_keys !! mid));
                left_hash ← write_inner (take mid new_keys) (take (S mid) new_children);
                right_hash ← write_inner (drop (S mid) new_keys) (drop (S mid) new_children);
                mret (SSplit left_hash split_key right_hash)
          end
      end
  end.

Definition set (fuel : nat) (root : Z) (key value : Value) : SM St Z :=
  if root =? EMPTY then write_leaf [(key, value)] else
  result ← set_inner fuel root key value;
  match result with
  | SPlain h => mret h
  | SSplit lh sep rh => write_inner [sep] [lh; rh]
  end.

(** *** Removal *)
Fixpoint remove_inner (fuel : nat) (node_hash : Z) (key : Value) : SM St RemoveResult :=
  match fuel with
  | O => lift OutOfFuel
  | S fuel' =>
      node ← read_node node_hash;
      match node with
      | None => lift (Err (missing node_hash "remove"))
      | Some (Leaf entries, _) =>
          match binary_search key entries with
          | inr _ => mret RUnchanged
          | inl pos =>
              let entries := Prelude.remove_at entries pos in
              if decide (entries = []) then mret RGone else
              h ← write_leaf entries; mret (RPlain h)
          end
      | Some (Inner keys, children) =>
          let pos := descend_pos keys key in
          c ← lift (or_panic (children !! pos));
          result ← remove_inner fuel' c key;
          match result with
          | RUnchanged => mret RUnchanged
          | RPlain new_child =>
              h ← write_inner keys (<[pos := new_child]> children);
              mret (RPlain h)
          | RGone =>
              new_children ← lift (vec_remove children pos);
              let new_keys :=
                if bool_decide (pos < length keys)%nat then Prelude.remove_at keys pos
                else if bool_decide (0 < pos)%nat then Prelude.remove_at keys (pos - 1)
                else keys in
              if decide (new_children = []) then mret RGone else
              if bool_decide (new_keys = []) && bool_decide (length new_children = 1%nat) then
                h ← lift (or_panic (head new_children)); mret (RPlain h)
              else
                h ← write_inner new_keys new_children; mret (RPlain h)
          end
      end
  end.

Definition remove (fuel : nat) (root : Z) (key : Value) : SM St Z :=
  if root =? EMPTY then mret EMPTY else
  result ← remove_inner fuel root key;
  match result with
  | RUnchanged => mret root
  | RPlain h => mret h
  | RGone => mret EMPTY
  end.

(** *** Range queries *)
Fixpoint range_leaf (lo hi : Value) (entries : list (Value * Value)) : list Value :=
  match entries with
  | [] => []
  | (k, v) :: entries' =>
      if is_lt (compare_keys k lo) then range_leaf lo hi entries'
      else if is_gt (compare_keys k hi) then []
      else v :: range_leaf lo hi entries'
  end.

Section each.
Context {A : Type} (visit : Z → SM St (list A)).
Fixpoint visit_all (cs : list Z) : SM St (list A) :=
  match cs with
  | [] => mret []
  | c :: cs' => vs ← visit c; rest ← visit_all cs'; mret (vs ++ rest)
  end.
End each.

(** The loop [for pos in lo_pos..=hi_pos], which stops past the children. *)
Fixpoint range_at (fuel : nat) (node_hash : Z) (lo hi : Value) : SM St (list Value) :=
  match fuel with
  | O => lift OutOfFuel
  | S fuel' =>
      node ← read_node node_hash;
      match node with
      | None => mret []
      | Some (Leaf entries, _) => mret (range_leaf lo hi entries)
      | Some (Inner keys, children) =>
          let lo_pos := descend_pos keys lo in
          let hi_pos := descend_pos keys hi in
          visit_all (λ c, range_at fuel' c lo hi)
            (take (S hi_pos - lo_pos) (drop lo_pos children))
      end
  end.

Definition range (fuel : nat) (root : Z) (lo hi : Value) : SM St (list Value) :=
  if root =? EMPTY then mret [] else range_at fuel root lo hi.

(** *** The walk cursor *)
Definition greater_leaf (target : option Value) (entries : list (Value * Value)) :
    option (Value * Value) :=
  snd <$> list_find (λ e, match target with
                          | None => true
                          | Some t => is_gt (compare_keys e.1 t)
                          end = true) entries.

Section first.
Context {A : Type} (visit : option Value → Z → SM St (option A)).
Fixpoint first_of (target : option Value) (cs : list Z) : SM St (option A) :=
  match cs with
  | [] => mret None
  | c :: cs' =>
      r ← visit target c;
      match r with
      | Some a => mret (Some a)
      | None => first_of None cs'
      end
  end.
End first.

Fixpoint first_greater_at (fuel : nat) (target : option Value) (hash : Z) :
    SM St (option (Value * Value)) :=
  match fuel with
  | O => lift OutOfFuel
  | S fuel' =>
      node ← read_node hash;
      match node with
      | None => mret None
      | Some (Leaf entries, _) => mret (greater_leaf target entries)
      | Some (Inner keys, children) =>
          let start := match target with
                       | None => O
                       | Some t => default (length keys)
                           (fst <$> list_find (λ k, is_gt (compare_keys k t) = true) keys)
                       end in
          first_of (first_greater_at fuel') target (drop start children)
      end
  end.

Definition first_greater_than (fuel : nat) (root : Z) (target : option Value) :
    SM St (option (Value * Value)) :=
  if root =? EMPTY then mret None else first_greater_at fuel target root.

(** *** Full walk *)
Fixpoint collect_entries (fuel : nat) (hash : Z) : SM St (list (Value * Value)) :=
  match fuel with
  | O => lift OutOfFuel
  | S fuel' =>
      node ← read_node hash;
      match node with
      | None => mret []
      | Some (Leaf entries, _) => mret entries
      | Some (Inner _, cs) => visit_all (collect_entries fuel') cs
      end
  end.

Definition entries (fuel : nat) (root : Z) : SM St (list (Value * Value)) :=
  if root =? EMPTY then mret [] else collect_entries fuel root.
End ops.
End Pbtree.
