(* ===== verification/PbtreeTree.v ===== *)
(** The sorted map as a pure tree: strictly sorted entry lists, B+-trees with
    separating routing keys, and the tree functions [set] and [remove]
    compute. *)
From S2P Require Import Prelude Bytes Hashing Values Serialize SerializeFacts Merkle NodeCodec.
From S2P Require Import PmapNode PmapTree Pbtree.
Import Pbtree.
#[local] Set Warnings "-register-all".

(** ** The order of keys *)
Definition klt (a b : Value) : Prop := compare_keys a b = Lt.
Definition kle (a b : Value) : Prop := a = b ∨ klt a b.

(** Values of an ordered key type. *)
Definition keyed (ty : Ty) (v : Value) : bool :=
  match ty, v with
  | TU64, VU64 _ | TU128, VU128 _ | TBytes, VBytes _ => true
  | _, _ => false
  end.

Lemma compare_antisym a b : compare_keys b a = CompOpp (compare_keys a b).
Proof.
  destruct a, b; try done; cbn [compare_keys]; [apply Z.compare_antisym..|apply bytes_cmp_antisym].
Qed.

Lemma klt_trans a b c : klt a b → klt b c → klt a c.
Proof.
  unfold klt. destruct a, b; try done; destruct c; try done; cbn [compare_keys];
    rewrite ?Z.compare_lt_iff; [lia..|apply bytes_cmp_trans_lt].
Qed.

Lemma klt_irrefl a : ¬ klt a a.
Proof.
  unfold klt. destruct a; try done; cbn [compare_keys];
    rewrite ?Z.compare_refl, ?bytes_cmp_refl; done.
Qed.

Lemma kle_lt_trans a b c : kle a b → klt b c → klt a c.
Proof. intros [->|Hab] Hbc; [done|by eapply klt_trans]. Qed.
Lemma klt_le_trans a b c : klt a b → kle b c → klt a c.
Proof. intros Hab [<-|Hbc]; [done|by eapply klt_trans]. Qed.
Lemma kle_trans a b c : kle a b → kle b c → kle a c.
Proof. intros [->|Hab] Hbc; [done|right; by eapply klt_le_trans]. Qed.

Lemma compare_gt a b : compare_keys a b = Gt ↔ klt b a.
Proof. unfold klt. rewrite (compare_antisym a b). by destruct (compare_keys a b). Qed.

Lemma compare_eq ty a b :
  keyed ty a = true → keyed ty b = true → compare_keys a b = Eq ↔ a = b.
Proof.
  intros Ha Hb. destruct ty; try done; destruct a; try done; destruct b; try done;
    cbn [compare_keys]; rewrite ?Z.compare_eq_iff, ?bytes_cmp_eq; split; congruence.
Qed.

Lemma klt_cases ty a b :
  keyed ty a = true → keyed ty b = true → klt a b ∨ a = b ∨ klt b a.
Proof.
  intros Ha Hb. destruct (compare_keys a b) eqn:E.
  - right; left. by eapply compare_eq.
  - by left.
  - right; right. by apply compare_gt.
Qed.

#[export] Instance klt_dec a b : Decision (klt a b).
Proof. unfold klt. apply _. Defined.
#[export] Instance kle_dec a b : Decision (kle a b).
Proof. unfold kle. apply _. Defined.

(** ** Sorted entry lists *)
Abbreviation Entries := (list (Value * Value)).
Definition ssorted (es : Entries) : Prop := StronglySorted (λ e e', klt e.1 e'.1) es.
Definition all_lt (es : Entries) (k : Value) : Prop := Forall (λ e, klt e.1 k) es.
Definition all_gt (k : Value) (es : Entries) : Prop := Forall (λ e, klt k e.1) es.
Definition all_ge (k : Value) (es : Entries) : Prop := Forall (λ e, kle k e.1) es.

Definition lower (key : Value) (es : Entries) : Entries := filter (λ e, klt e.1 key) es.
Definition upper (key : Value) (es : Entries) : Entries := filter (λ e, klt key e.1) es.

(** Insertion into and deletion from a sorted list. *)
Definition put (key value : Value) (es : Entries) : Entries :=
  lower key es ++ (key, value) :: upper key es.
Definition del (key : Value) (es : Entries) : Entries := lower key es ++ upper key es.

Section lists.
Context (ty : Ty) (key : Value) (Hkey : keyed ty key = true).

Lemma lower_lt es : all_lt es key → lower key es = es ∧ upper key es = [].
Proof.
  intros Hes. unfold lower, upper. induction Hes as [|e es He _ [IH1 IH2]]; [done|].
  rewrite !filter_cons, decide_True by done. rewrite decide_False; [by rewrite IH1, IH2|].
  intros Hg. eapply klt_irrefl, klt_trans; eauto.
Qed.

Lemma upper_gt es : all_gt key es → lower key es = [] ∧ upper key es = es.
Proof.
  intros Hes. unfold lower, upper. induction Hes as [|e es He _ [IH1 IH2]]; [done|].
  rewrite !filter_cons, (decide_True (P := klt key e.1)) by done.
  rewrite decide_False; [by rewrite IH1, IH2|].
  intros Hg. eapply klt_irrefl, klt_trans; eauto.
Qed.

(** A sorted list around a key. *)
Lemma sorted_cut es :
  ssorted es → Forall (λ e, keyed ty e.1 = true) es →
  ∃ m, es = lower key es ++ m ++ upper key es ∧ (m = [] ∨ ∃ w, m = [(key, w)]).
Proof.
  induction 1 as [|e es Hs IH Hall]; intros Hk; [by exists []; split; [|left]|].
  apply Forall_cons in Hk as [Hke Hk]. unfold lower, upper. rewrite !filter_cons.
  fold (lower key es) (upper key es).
  destruct (klt_cases ty e.1 key Hke Hkey) as [Hlt|[He|Hgt]].
  - rewrite decide_True by done. rewrite decide_False.
    2: { intros Hg. eapply klt_irrefl, klt_trans; eauto. }
    destruct (IH Hk) as (m & E & Hm). exists m. split; [|done]. cbn. by f_equal.
  - assert (Hg : all_gt key es) by (rewrite <- He; exact Hall).
    destruct (upper_gt es Hg) as [-> ->].
    rewrite !decide_False by (rewrite He; apply klt_irrefl).
    exists [e]. split; [done|]. right. exists e.2. subst. by destruct e.
  - assert (Hg : all_gt key es).
    { eapply Forall_impl; [exact Hall|]. intros e' He'. by eapply klt_trans. }
    destruct (upper_gt es Hg) as [-> ->]. rewrite decide_False, decide_True; [|done|].
    2: { intros Hg'. eapply klt_irrefl, klt_trans; eauto. }
    exists []. split; [done|by left].
Qed.

Lemma lower_all_lt es : all_lt (lower key es) key.
Proof. apply Forall_forall. by intros e [He _]%list_elem_of_filter. Qed.
Lemma upper_all_gt es : all_gt key (upper key es).
Proof. apply Forall_forall. by intros e [He _]%list_elem_of_filter. Qed.

(** *** The searches of the code *)
Lemma partition_point_app {A} (p : A → bool) (l1 l2 : list A) :
  Forall (λ x, p x = true) l1 → partition_point p (l1 ++ l2) = (length l1 + partition_point p l2)%nat.
Proof. induction 1 as [|x l1 Hx _ IH]; [done|]. cbn. by rewrite Hx, IH. Qed.

Lemma partition_point_none {A} (p : A → bool) (l : list A) :
  Forall (λ x, p x = false) l → partition_point p l = O.
Proof. destruct 1 as [|x l Hx _]; [done|]. cbn. by rewrite Hx. Qed.

Lemma binary_search_cut a m b :
  all_lt a key → all_gt key b → (m = [] ∨ ∃ w, m = [(key, w)]) →
  binary_search key (a ++ m ++ b)
    = if decide (m = []) then inr (length a) else inl (length a).
Proof.
  intros Ha Hb Hm. unfold binary_search.
  rewrite partition_point_app.
  2: { eapply Forall_impl; [exact Ha|]. intros e He. unfold klt in He. by rewrite He. }
  assert (Hbn : partition_point (λ e, is_lt (compare_keys e.1 key)) b = O).
  { apply partition_point_none. eapply Forall_impl; [exact Hb|]. intros e He.
    apply compare_gt in He. by rewrite He. }
  destruct Hm as [->|[w ->]]; cbn [app].
  - rewrite Hbn, Nat.add_0_r, decide_True by done.
    rewrite lookup_app_r, Nat.sub_diag by lia.
    destruct b as [|e b]; [done|]. cbn. apply Forall_cons in Hb as [He _].
    apply compare_gt in He. by rewrite He.
  - assert (Er : compare_keys key key = Eq) by (by eapply compare_eq).
    cbn [partition_point fst]. rewrite Er. cbn [is_lt]. rewrite Nat.add_0_r.
    rewrite lookup_app_r, Nat.sub_diag by lia. cbn. by rewrite Er.
Qed.

Lemma insert_entry_put value es :
  ssorted es → Forall (λ e, keyed ty e.1 = true) es →
  insert_entry key value es = put key value es.
Proof.
  intros Hs Hk. destruct (sorted_cut es Hs Hk) as (m & E & Hm). unfold insert_entry, put.
  clear Hs Hk. revert E. generalize (lower_all_lt es) (upper_all_gt es).
  generalize (lower key es) (upper key es). intros a b Ha Hb ->.
  rewrite binary_search_cut by done.
  destruct Hm as [->|[w ->]].
  - rewrite decide_True by done. unfold insert_at. cbn [app].
    by rewrite take_app_length, drop_app_length.
  - rewrite decide_False by done. rewrite insert_app_r_alt, Nat.sub_diag by lia. done.
Qed.

Lemma binary_search_del es :
  ssorted es → Forall (λ e, keyed ty e.1 = true) es →
  match binary_search key es with
  | inl pos => Prelude.remove_at es pos = del key es ∧ del key es ≠ es
  | inr _ => del key es = es
  end.
Proof.
  intros Hs Hk. destruct (sorted_cut es Hs Hk) as (m & E & Hm). unfold del.
  clear Hs Hk. revert E. generalize (lower_all_lt es) (upper_all_gt es).
  generalize (lower key es) (upper key es). intros a b Ha Hb ->.
  rewrite binary_search_cut by done.
  destruct Hm as [->|[w ->]]; cbn [app] in *.
  - by rewrite decide_True.
  - rewrite decide_False by done. split.
    + unfold Prelude.remove_at. rewrite take_app_length.
      rewrite drop_app_ge by lia. by replace (S (length a) - length a)%nat with 1%nat by lia.
    + intros Ec. apply (f_equal length) in Ec. rewrite !length_app in Ec. cbn in Ec. lia.
Qed.

Lemma find_sorted es :
  Forall (λ e, keyed ty e.1 = true) es →
  snd ∘ snd <$> list_find (λ e, is_eq (compare_keys e.1 key) = true) es = find_entry key es.
Proof.
  intros Hk. induction Hk as [|e es He _ IH]; [done|]. rewrite find_entry_cons, <- IH.
  assert (E : is_eq (compare_keys e.1 key) = true ↔ e.1 = key)
    by (rewrite <- (compare_eq ty e.1 key) by done; by destruct (compare_keys e.1 key)).
  cbn [list_find]. destruct (decide (is_eq _ = true)) as [Eq|Eq]; rewrite E in Eq.
  - by rewrite decide_True.
  - rewrite decide_False by done. by destruct (list_find _ es) as [[]|].
Qed.
End lists.

(** ** Trees *)
Fixpoint tentries (t : mtree Label) : Entries :=
  match t with
  | MNode (Leaf es) _ => es
  | MNode (Inner _) ts => concat (tentries <$> ts)
  end.

Fixpoint height (t : mtree Label) : nat :=
  match t with MNode _ ts => S (foldr (λ t n, height t `max` n)%nat 0%nat ts) end.

(** The entries of a run of siblings. *)
Definition run (ts : list (mtree Label)) : Entries := concat (tentries <$> ts).

(** [keys[i]] separates [children[i]] from the later children. *)
Fixpoint separated (ks : list Value) (ts : list (mtree Label)) : Prop :=
  match ks, ts with
  | [], [t] => True
  | k :: ks', t :: ts' => all_lt (tentries t) k ∧ all_ge k (run ts') ∧ separated ks' ts'
  | _, _ => False
  end.

Inductive bwf (ty : Ty) : mtree Label → Prop :=
  | bwf_leaf es :
      es ≠ [] → (length es ≤ B)%nat → ssorted es → Forall (λ e, keyed ty e.1 = true) es →
      bwf ty (MNode (Leaf es) [])
  | bwf_inner ks ts :
      (length ks ≤ B)%nat → Forall (λ k, keyed ty k = true) ks → separated ks ts →
      Forall (bwf ty) ts → bwf ty (MNode (Inner ks) ts).

(** ** The operations on trees *)
Inductive hres := HPlain (t : mtree Label) | HSplit (l : mtree Label) (sep : Value) (r : mtree Label).

Definition split_leaf (es : Entries) : hres :=
  if bool_decide (length es ≤ B)%nat then HPlain (MNode (Leaf es) [])
  else
    let mid := (length es / 2)%nat in
    HSplit (MNode (Leaf (take mid es)) []) (default VUnit (fst <$> head (drop mid es)))
      (MNode (Leaf (drop mid es)) []).

Definition split_inner (ks : list Value) (ts : list (mtree Label)) : hres :=
  if bool_decide (length ks ≤ B)%nat then HPlain (MNode (Inner ks) ts)
  else
    let mid := (length ks / 2)%nat in
    HSplit (MNode (Inner (take mid ks)) (take (S mid) ts)) (default VUnit (ks !! mid))
      (MNode (Inner (drop (S mid) ks)) (drop (S mid) ts)).

Fixpoint hset (fuel : nat) (key value : Value) (t : mtree Label) : hres :=
  match fuel with
  | O => HPlain t
  | S f =>
      match t with
      | MNode (Leaf es) _ => split_leaf (insert_entry key value es)
      | MNode (Inner ks) ts =>
          let pos := descend_pos ks key in
          match ts !! pos with
          | None => HPlain t
          | Some c =>
              match hset f key value c with
              | HPlain c' => HPlain (MNode (Inner ks) (<[pos := c']> ts))
              | HSplit l sep r =>
                  split_inner (insert_at ks pos sep) (insert_at (<[pos := l]> ts) (S pos) r)
              end
          end
      end
  end.

Definition join (r : hres) : mtree Label :=
  match r with HPlain t => t | HSplit l sep r => MNode (Inner [sep]) [l; r] end.

Definition drop_key (pos : nat) (ks : list Value) : list Value :=
  if bool_decide (pos < length ks)%nat then Prelude.remove_at ks pos
  else if bool_decide (0 < pos)%nat then Prelude.remove_at ks (pos - 1)
  else ks.

(** [None]: unchanged; [Some None]: the subtree is gone. *)
Fixpoint hremove (fuel : nat) (key : Value) (t : mtree Label) : option (option (mtree Label)) :=
  match fuel with
  | O => None
  | S f =>
      match t with
      | MNode (Leaf es) _ =>
          match binary_search key es with
          | inr _ => None
          | inl pos =>
              let es' := Prelude.remove_at es pos in
              Some (if decide (es' = []) then None else Some (MNode (Leaf es') []))
          end
      | MNode (Inner ks) ts =>
          let pos := descend_pos ks key in
          c ← ts !! pos;
          r ← hremove f key c;
          match r with
          | Some c' => Some (Some (MNode (Inner ks) (<[pos := c']> ts)))
          | None =>
              let ts' := Prelude.remove_at ts pos in
              let ks' := drop_key pos ks in
              Some (if decide (ts' = []) then None else
                    if bool_decide (ks' = []) && bool_decide (length ts' = 1%nat) then head ts'
                    else Some (MNode (Inner ks') ts'))
          end
      end
  end.

(** * Laws of the pure B+-tree: entries are strictly sorted, a key is found
    through its child only, [hset] is sorted insertion and [hremove] sorted
    deletion, and both keep the tree well formed. *)
Import Pbtree.

Lemma keep_Forall {A} (P Q : A → Prop) `{!∀ x, Decision (Q x)} (l : list A) :
  Forall P l → Forall P (filter Q l).
Proof. rewrite !Forall_forall. intros Hl x [_ Hx]%list_elem_of_filter. by apply Hl. Qed.

Lemma filter_none {A} (P : A → Prop) `{!∀ x, Decision (P x)} (l : list A) :
  Forall (λ x, ¬ P x) l → filter P l = [].
Proof. induction 1 as [|x l Hx _ IH]; [done|]. by rewrite filter_cons, decide_False. Qed.

Lemma run_app A C : run (A ++ C) = run A ++ run C.
Proof. unfold run. by rewrite fmap_app, concat_app. Qed.
Lemma run_cons t ts : run (t :: ts) = tentries t ++ run ts.
Proof. done. Qed.

(** ** Entries around a key *)
Section middle.
Context (key : Value) (ea eb : Entries).
Context (Ha : all_lt ea key) (Hb : all_gt key eb).

Lemma lower_middle ec : lower key (ea ++ ec ++ eb) = ea ++ lower key ec.
Proof.
  destruct (lower_lt key ea Ha) as [El _]. destruct (upper_gt key eb Hb) as [Er _].
  unfold lower in *. by rewrite !filter_app, El, Er, app_nil_r.
Qed.
Lemma upper_middle ec : upper key (ea ++ ec ++ eb) = upper key ec ++ eb.
Proof.
  destruct (lower_lt key ea Ha) as [_ El]. destruct (upper_gt key eb Hb) as [_ Er].
  unfold upper in *. by rewrite !filter_app, El, Er.
Qed.

Lemma put_middle value ec : put key value (ea ++ ec ++ eb) = ea ++ put key value ec ++ eb.
Proof. unfold put. rewrite lower_middle, upper_middle. by rewrite <- !app_assoc. Qed.
Lemma del_middle ec : del key (ea ++ ec ++ eb) = ea ++ del key ec ++ eb.
Proof. unfold del. rewrite lower_middle, upper_middle. by rewrite <- !app_assoc. Qed.

Lemma find_sides ec : find_entry key (ea ++ ec ++ eb) = find_entry key ec.
Proof.
  assert (Ea : find_entry key ea = None).
  { apply find_entry_none. intros ([k v] & -> & Hin)%list_elem_of_fmap. 
    unfold all_lt in Ha. rewrite Forall_forall in Ha. by apply (klt_irrefl k), (Ha (k, v)). }
  assert (Eb : find_entry key eb = None).
  { apply find_entry_none. intros ([k v] & -> & Hin)%list_elem_of_fmap.
    unfold all_gt in Hb. rewrite Forall_forall in Hb. by apply (klt_irrefl k), (Hb (k, v)). }
  rewrite !find_entry_app, Ea, Eb. by destruct (find_entry key ec).
Qed.
End middle.

Lemma put_Forall (P : Value * Value → Prop) key value es :
  P (key, value) → Forall P es → Forall P (put key value es).
Proof.
  intros Hp Hes. unfold put, lower, upper. apply Forall_app. split; [by apply keep_Forall|].
  constructor; [done|]. by apply keep_Forall.
Qed.
Lemma del_Forall (P : Value * Value → Prop) key es : Forall P es → Forall P (del key es).
Proof. intros Hes. unfold del, lower, upper. apply Forall_app. split; by apply keep_Forall. Qed.

Lemma sorted_filter (P : Value * Value → Prop) `{!∀ e, Decision (P e)} es :
  ssorted es → ssorted (filter P es).
Proof.
  induction 1 as [|e es Hs IH Hall]; [constructor|]. rewrite filter_cons. case_decide; [|done].
  constructor; [done|]. by apply keep_Forall.
Qed.

Lemma put_sorted key value es : ssorted es → ssorted (put key value es).
Proof.
  intros Hs. unfold put. apply StronglySorted_app_2; [|by apply sorted_filter|].
  - intros e e' [He _]%list_elem_of_filter [->|[He' _]%list_elem_of_filter]%elem_of_cons; [done|].
    by eapply klt_trans.
  - constructor; [by apply sorted_filter|]. apply upper_all_gt.
Qed.
Lemma del_sorted key es : ssorted es → ssorted (del key es).
Proof.
  intros Hs. unfold del. apply StronglySorted_app_2; [|by apply sorted_filter..].
  intros e e' [He _]%list_elem_of_filter [He' _]%list_elem_of_filter. by eapply klt_trans.
Qed.

Lemma put_length ty key value es :
  keyed ty key = true → ssorted es → Forall (λ e, keyed ty e.1 = true) es →
  (length (put key value es) ≤ S (length es))%nat.
Proof.
  intros Hk Hs Hes. destruct (sorted_cut ty key Hk es Hs Hes) as (m & E & _).
  apply (f_equal length) in E. unfold put. rewrite !length_app in *. cbn. lia.
Qed.

(** What lookups say after insertion and deletion. *)
Lemma find_lower key k es :
  find_entry k (lower key es) = if decide (klt k key) then find_entry k es else None.
Proof.
  unfold lower. induction es as [|e es IH]; [by case_decide|].
  rewrite filter_cons, (find_entry_cons k e es).
  destruct (decide (klt e.1 key)) as [E|E]; rewrite ?find_entry_cons, IH;
    destruct (decide (e.1 = k)) as [<-|]; try done.
  - by rewrite decide_True.
  - by rewrite !decide_False.
Qed.
Lemma find_upper key k es :
  find_entry k (upper key es) = if decide (klt key k) then find_entry k es else None.
Proof.
  unfold upper. induction es as [|e es IH]; [by case_decide|].
  rewrite filter_cons, (find_entry_cons k e es).
  destruct (decide (klt key e.1)) as [E|E]; rewrite ?find_entry_cons, IH;
    destruct (decide (e.1 = k)) as [<-|]; try done.
  - by rewrite decide_True.
  - by rewrite !decide_False.
Qed.

Lemma find_put ty key value k es :
  keyed ty key = true → Forall (λ e, keyed ty e.1 = true) es →
  find_entry k (put key value es) = if decide (k = key) then Some value else find_entry k es.
Proof.
  intros Hk Hes. unfold put. rewrite find_entry_app, find_entry_cons, find_lower, find_upper.
  cbn [fst snd]. destruct (decide (k = key)) as [->|Hne].
  - rewrite decide_False by apply klt_irrefl. by rewrite decide_True.
  - rewrite (decide_False (P := key = k)) by congruence.
    destruct (find_entry k es) as [v|] eqn:E; [|by do 2 case_decide].
    assert (Hkk : keyed ty k = true).
    { assert (k ∈ es.*1) as (e & -> & He)%list_elem_of_fmap.
      - apply dec_stable. intros Hn. apply find_entry_none in Hn. congruence.
      - rewrite Forall_forall in Hes. by apply Hes. }
    destruct (klt_cases ty k key Hkk Hk) as [Hlt|[He|Hgt]]; [|done|].
    + by rewrite decide_True.
    + destruct (decide (klt k key)); [done|]. by rewrite decide_True.
Qed.

Lemma find_del ty key k es :
  keyed ty key = true → Forall (λ e, keyed ty e.1 = true) es →
  find_entry k (del key es) = if decide (k = key) then None else find_entry k es.
Proof.
  intros Hk Hes. pose proof (find_put ty key VUnit k es Hk Hes) as Hp. revert Hp.
  unfold put, del. rewrite !find_entry_app, find_entry_cons. cbn [fst snd].
  destruct (decide (k = key)) as [->|Hne].
  - intros _. rewrite find_lower, find_upper.
    by rewrite !decide_False by apply klt_irrefl.
  - by rewrite (decide_False (P := key = k)) by congruence.
Qed.

(** ** Separation *)

(** Keys and children to the left of a child. *)
Fixpoint left_of (ks : list Value) (ts : list (mtree Label)) : Prop :=
  match ks, ts with
  | [], [] => True
  | k :: ks', t :: ts' => all_lt (tentries t) k ∧ all_ge k (run ts') ∧ left_of ks' ts'
  | _, _ => False
  end.

Lemma left_of_length ks ts : left_of ks ts → length ks = length ts.
Proof.
  revert ts. induction ks as [|k ks IH]; intros [|t ts] Hl; try done.
  destruct Hl as (_ & _ & Hl). cbn. f_equal. by apply IH.
Qed.

Lemma separated_length ks ts : separated ks ts → length ts = S (length ks).
Proof.
  revert ts. induction ks as [|k ks IH]; intros [|t ts]; try done.
  - by destruct ts.
  - intros (_ & _ & Hs). cbn. f_equal. by apply IH.
Qed.

Lemma separated_split KA KB A C :
  length KA = length A → C ≠ [] →
  separated (KA ++ KB) (A ++ C)
    ↔ left_of KA A ∧ Forall (λ k, all_ge k (run C)) KA ∧ separated KB C.
Proof.
  intros Hlen HC. revert A Hlen. induction KA as [|k KA IH]; intros [|t A] Hlen; try done.
  - cbn. split; [intros; splits; [done|constructor|done]|by intros (_ & _ & ?)].
  - injection Hlen as Hlen. cbn [app separated left_of]. rewrite (IH A Hlen), run_app.
    unfold all_ge at 1. rewrite Forall_app. rewrite Forall_cons. unfold all_ge. tauto.
Qed.

Lemma left_lt KA A key :
  left_of KA A → Forall (λ k, kle k key) KA → all_lt (run A) key.
Proof.
  revert A. induction KA as [|k KA IH]; intros [|t A] Hl Hk; try done; [constructor|].
  destruct Hl as (Ht & _ & Hl). apply Forall_cons in Hk as [Hk HKA].
  rewrite run_cons. apply Forall_app. split; [|by apply IH].
  eapply Forall_impl; [exact Ht|]. intros e He. exact (klt_le_trans _ _ _ He Hk).
Qed.

(** The first key, if any, is above [key]. *)
Definition head_gt (key : Value) (ks : list Value) : Prop :=
  match ks with k :: _ => klt key k | [] => True end.

Lemma head_gt_rest KB c C key : separated KB (c :: C) → head_gt key KB → all_gt key (run C).
Proof.
  destruct KB as [|k KB]; cbn.
  - destruct C; [constructor|done].
  - intros (_ & Hge & _) Hk. eapply Forall_impl; [exact Hge|]. intros e He. exact (klt_le_trans _ _ _ Hk He).
Qed.

Lemma partition_point_split {A} (p : A → bool) (l : list A) :
  ∃ l1 l2, l = l1 ++ l2 ∧ length l1 = partition_point p l ∧ Forall (λ x, p x = true) l1 ∧
    match l2 with x :: _ => p x = false | [] => True end.
Proof.
  induction l as [|x l (l1 & l2 & -> & Hlen & H1 & H2)]; [by exists [], []|].
  cbn [partition_point]. destruct (p x) eqn:E.
  - exists (x :: l1), l2. splits; [done|cbn; by f_equal|by constructor|done].
  - exists [], (x :: l1 ++ l2). by splits.
Qed.

(** Where a key belongs in an inner node. *)
Record located (ks : list Value) (ts : list (mtree Label)) (key : Value)
    (KA KB : list Value) (A : list (mtree Label)) (c : mtree Label) (C : list (mtree Label)) : Prop := {
  loc_keys : ks = KA ++ KB;
  loc_children : ts = A ++ c :: C;
  loc_pos : length KA = descend_pos ks key;
  loc_len : length A = descend_pos ks key;
  loc_left : left_of KA A;
  loc_ge : Forall (λ k, all_ge k (run (c :: C))) KA;
  loc_right : separated KB (c :: C);
  loc_le : Forall (λ k, kle k key) KA;
  loc_gt : head_gt key KB;
  loc_below : all_lt (run A) key;
  loc_above : all_gt key (run C);
}.

Lemma locate ty ks ts key :
  keyed ty key = true → Forall (λ k, keyed ty k = true) ks → separated ks ts →
  ∃ KA KB A c C, located ks ts key KA KB A c C.
Proof.
  intros Hkey Hks Hsep.
  destruct (partition_point_split (λ k, is_le (compare_keys k key)) ks)
    as (KA & KB & E & Hlen & HKA & HKB). fold (descend_pos ks key) in Hlen.
  pose proof (separated_length _ _ Hsep) as Hts. rewrite E, length_app in Hts.
  destruct (drop (length KA) ts) as [|c C] eqn:Ed.
  { apply (f_equal length) in Ed. rewrite length_drop in Ed. cbn in Ed. lia. }
  pose proof (take_drop (length KA) ts) as Et. rewrite Ed in Et.
  assert (HlA : length KA = length (take (length KA) ts)) by (rewrite length_take; lia).
  rewrite E in Hsep. rewrite <- Et in Hsep.
  apply separated_split in Hsep as (Hl & Hge & Hr); [|done|done].
  assert (Hle : Forall (λ k, kle k key) KA).
  { rewrite E in Hks. apply Forall_app in Hks as [Hks _].
    eapply Forall_impl2; [exact HKA|exact Hks|]. intros k Hk Hkk. cbv beta in Hk, Hkk.
    destruct (compare_keys k key) eqn:Ec; [|by right|done].
    left. exact (proj1 (compare_eq ty k key Hkk Hkey) Ec). }
  assert (Hgt : head_gt key KB).
  { destruct KB as [|k KB]; [done|]. cbn. unfold klt. rewrite (compare_antisym k key).
    by destruct (compare_keys k key). }
  exists KA, KB, (take (length KA) ts), c, C.
  split; try done; [lia|by eapply left_lt|by eapply head_gt_rest].
Qed.

Lemma located_lookup ks ts key KA KB A c C :
  located ks ts key KA KB A c C → ts !! descend_pos ks key = Some c.
Proof. intros []. rewrite <- loc_len0. subst ts. by apply list_lookup_middle. Qed.

Lemma located_entries ks ts key KA KB A c C :
  located ks ts key KA KB A c C →
  tentries (MNode (Inner ks) ts) = run A ++ tentries c ++ run C.
Proof. intros []. subst ts. cbn [tentries]. fold (run (A ++ c :: C)). by rewrite run_app, run_cons. Qed.

(** Only the child at the key's position holds the key. *)
Lemma located_find ks ts key KA KB A c C :
  located ks ts key KA KB A c C →
  find_entry key (tentries (MNode (Inner ks) ts)) = find_entry key (tentries c).
Proof. intros Hl. rewrite (located_entries _ _ _ _ _ _ _ _ Hl). destruct Hl. by apply find_sides. Qed.

(** ** Well-formed trees *)
Lemma bwf_facts ty t :
  bwf ty t → tentries t ≠ [] ∧ ssorted (tentries t) ∧ Forall (λ e, keyed ty e.1 = true) (tentries t).
Proof.
  induction t as [l ts IH] using mtree_ind_nested.
  inversion 1 as [|ks ? Hlen Hks Hsep Hts]; subst; [done|]. cbn [tentries]. fold (run ts).
  assert (Hall : ∀ t, t ∈ ts → tentries t ≠ [] ∧ ssorted (tentries t) ∧
    Forall (λ e, keyed ty e.1 = true) (tentries t)).
  { rewrite Forall_forall in *. eauto. }
  clear -Hsep Hall. revert ts Hsep Hall. induction ks as [|k ks IHk]; intros [|t ts] Hsep Hall; try done.
  - destruct ts; [|done]. rewrite run_cons. destruct (Hall t ltac:(left)) as (? & ? & ?).
    change (run []) with (@nil (Value * Value)). by rewrite app_nil_r.
  - destruct Hsep as (Hlt & Hge & Hsep). rewrite run_cons.
    destruct (Hall t ltac:(left)) as (Hne & Hs & Hk).
    destruct (IHk ts Hsep) as (_ & Hs' & Hk'); [intros; apply Hall; by right|].
    splits.
    + by destruct (tentries t).
    + apply StronglySorted_app_2; [|done|done]. intros e e' He He'.
      unfold all_lt, all_ge in *. rewrite Forall_forall in Hlt, Hge.
      eapply klt_le_trans; [by apply Hlt|by apply Hge].
    + by apply Forall_app.
Qed.

Lemma height_inner l ts h :
  (height (MNode l ts) ≤ S h)%nat ↔ Forall (λ t, (height t ≤ h)%nat) ts.
Proof.
  cbn [height]. induction ts as [|t ts IH]; cbn [foldr].
  - split; [by constructor|lia].
  - rewrite Forall_cons. rewrite <- IH. lia.
Qed.

(** ** Insertion *)

(** [r] holds the entries [es], in a tree of height [h] or two halves of it. *)
Definition result_ok (ty : Ty) (es : Entries) (h : nat) (r : hres) : Prop :=
  match r with
  | HPlain t => bwf ty t ∧ tentries t = es ∧ (height t ≤ h)%nat
  | HSplit l sep r =>
      bwf ty l ∧ bwf ty r ∧ keyed ty sep = true ∧ tentries l ++ tentries r = es ∧
      all_lt (tentries l) sep ∧ all_ge sep (tentries r) ∧ (height l ≤ h)%nat ∧ (height r ≤ h)%nat
  end.

Lemma half_bounds n : (B < n ≤ S B → 0 < n / 2 ∧ n / 2 < n ∧ n / 2 ≤ B ∧ n - n / 2 ≤ B)%nat.
Proof.
  unfold B. intros Hn. assert (n = 33)%nat as -> by lia.
  change (33 / 2)%nat with 16%nat. lia.
Qed.

Lemma split_leaf_law ty es :
  es ≠ [] → (length es ≤ S B)%nat → ssorted es → Forall (λ e, keyed ty e.1 = true) es →
  result_ok ty es 1 (split_leaf es).
Proof.
  intros Hne Hlen Hs Hk. unfold split_leaf. case_bool_decide as Hb.
  { unfold result_ok. splits; [by constructor|done|done]. }
  destruct (half_bounds (length es)) as (H0 & H1 & H2 & H3); [lia|].
  set (mid := (length es / 2)%nat) in *. clearbody mid. cbv zeta.
  pose proof (take_drop mid es) as Etd. rewrite <- Etd in Hs, Hk.
  apply StronglySorted_app in Hs as (Hcross & Hs1 & Hs2). apply Forall_app in Hk as [Hk1 Hk2].
  destruct (drop mid es) as [|e r] eqn:Ed.
  { apply (f_equal length) in Ed. rewrite length_drop in Ed. cbn in Ed. lia. }
  assert (Hr : (length (e :: r) ≤ B)%nat) by (rewrite <- Ed, length_drop; lia).
  cbn [head fmap option_fmap option_map default from_option id].
  unfold result_ok. splits.
  - constructor; [|rewrite length_take; lia|done|done].
    intros E. apply (f_equal length) in E. rewrite length_take in E. cbn in E. lia.
  - by constructor.
  - by apply Forall_cons in Hk2 as [? _].
  - done.
  - apply Forall_forall. intros e' He'. apply Hcross; [done|left].
  - constructor; [by left|]. apply StronglySorted_inv in Hs2 as [_ Hs2].
    eapply Forall_impl; [exact Hs2|]. intros e' He'. by right.
  - done.
  - done.
Qed.

(** Cutting an inner node at a key. *)
Lemma separated_cut L k R ts :
  separated (L ++ k :: R) ts → Forall (λ t, tentries t ≠ []) ts →
  let T1 := take (S (length L)) ts in let T2 := drop (S (length L)) ts in
  separated L T1 ∧ separated R T2 ∧ all_lt (run T1) k ∧ all_ge k (run T2).
Proof.
  revert ts. induction L as [|l L IH]; intros [|t ts] Hs Hne; try done.
  - destruct Hs as (Hlt & Hge & Hs). cbn [length take drop]. rewrite run_cons. cbn [run fmap list_fmap concat].
    rewrite take_0, drop_0. splits; [done|done| |done]. unfold run. cbn. by rewrite app_nil_r.
  - destruct Hs as (Hlt & Hge & Hs). apply Forall_cons in Hne as [Hnt Hne].
    destruct (IH ts Hs Hne) as (H1 & H2 & H3 & H4). cbn [length].
    change (take (S (S (length L))) (t :: ts)) with (t :: take (S (length L)) ts).
    change (drop (S (S (length L))) (t :: ts)) with (drop (S (length L)) ts).
    cbn [separated]. rewrite run_cons.
    rewrite <- (take_drop (S (length L)) ts), run_app in Hge.
    apply Forall_app in Hge as [Hge1 Hge2].
    splits; [done|done|done|done| |done].
    apply Forall_app. split; [|done].
    destruct ts as [|t' ts]; [by destruct L|]. cbn [take] in *. rewrite run_cons in *.
    apply Forall_cons in Hne as [Hnt' _]. destruct (tentries t') as [|e' es']; [done|].
    apply Forall_cons in H3 as [H3 _]. apply Forall_cons in Hge1 as [Hge1 _].
    eapply Forall_impl; [exact Hlt|]. intros e He.
    exact (klt_trans _ _ _ He (kle_lt_trans _ _ _ Hge1 H3)).
Qed.

Lemma split_inner_law ty ks ts h :
  (length ks ≤ S B)%nat → Forall (λ k, keyed ty k = true) ks → separated ks ts →
  Forall (bwf ty) ts → Forall (λ t, (height t ≤ h)%nat) ts →
  result_ok ty (run ts) (S h) (split_inner ks ts).
Proof.
  intros Hlen Hk Hs Hts Hh. unfold split_inner. case_bool_decide as Hb.
  { unfold result_ok. splits; [by constructor|done|by apply height_inner]. }
  destruct (half_bounds (length ks)) as (H0 & H1 & H2 & H3); [lia|].
  set (mid := (length ks / 2)%nat) in *. clearbody mid. cbv zeta.
  destruct (lookup_lt_is_Some_2 ks mid H1) as [k Ek].
  pose proof (take_drop_middle ks mid k Ek) as Eks.
  rewrite Ek. cbn [default from_option id].
  assert (HlL : length (take mid ks) = mid) by (rewrite length_take; lia).
  rewrite <- Eks in Hs. apply separated_cut in Hs.
  2: { eapply Forall_impl; [exact Hts|]. intros t Ht. by apply (bwf_facts ty). }
  rewrite HlL in Hs. destruct Hs as (Hs1 & Hs2 & Hlt & Hge).
  unfold result_ok. cbn [tentries]. fold (run (take (S mid) ts)) (run (drop (S mid) ts)).
  splits.
  - constructor; [lia|by apply Forall_take|done|by apply Forall_take].
  - constructor; [rewrite length_drop; lia|by apply Forall_drop|done|by apply Forall_drop].
  - by apply (Forall_lookup_1 _ _ mid k) in Hk.
  - by rewrite <- run_app, take_drop.
  - done.
  - done.
  - by apply height_inner, Forall_take.
  - by apply height_inner, Forall_drop.
Qed.

(** Replacing the child of a located key. *)
Lemma located_replace ks ts key KA KB A c C c' value :
  located ks ts key KA KB A c C →
  tentries c' = put key value (tentries c) ∨ tentries c' = del key (tentries c) →
  separated ks (<[descend_pos ks key := c']> ts) ∧
  <[descend_pos ks key := c']> ts = A ++ c' :: C.
Proof.
  intros [] Hc'. subst ts.
  assert (Ei : <[descend_pos ks key := c']> (A ++ c :: C) = A ++ c' :: C)
    by (rewrite <- loc_len0, insert_app_r_alt, Nat.sub_diag by lia; done).
  split; [|done]. rewrite Ei, loc_keys0. apply separated_split; [lia|done|].
  assert (Hsub : ∀ P : Value * Value → Prop, P (key, value) → Forall P (tentries c) → Forall P (tentries c')).
  { intros P Hp Hf. destruct Hc' as [-> | ->]; [by apply put_Forall|by apply del_Forall]. }
  splits; [done| |].
  - eapply Forall_impl2; [exact loc_ge0|exact loc_le0|]. intros k Hge Hle.
    unfold all_ge in *. rewrite run_cons in *. apply Forall_app in Hge as [Hg1 Hg2].
    apply Forall_app. split; [|done]. by apply Hsub.
  - destruct KB as [|k KB]; [by destruct C|]. destruct loc_right0 as (Hlt & Hge & Hr).
    cbn [separated]. splits; [by apply Hsub|done|done].
Qed.

(** Replacing it by two halves. *)
Lemma located_split ks ts key KA KB A c C l sep r value :
  located ks ts key KA KB A c C →
  tentries l ++ tentries r = put key value (tentries c) →
  all_lt (tentries l) sep → all_ge sep (tentries r) → tentries r ≠ [] →
  let pos := descend_pos ks key in
  insert_at ks pos sep = KA ++ sep :: KB ∧
  insert_at (<[pos := l]> ts) (S pos) r = A ++ l :: r :: C ∧
  separated (KA ++ sep :: KB) (A ++ l :: r :: C).
Proof.
  intros [] Hlr Hl Hr Hne pos. subst ts.
  assert (Ei : <[pos := l]> (A ++ c :: C) = A ++ l :: C)
    by (unfold pos; rewrite <- loc_len0, insert_app_r_alt, Nat.sub_diag by lia; done).
  splits.
  - unfold insert_at, pos. rewrite <- loc_pos0, loc_keys0. by rewrite take_app_length, drop_app_length.
  - rewrite Ei. unfold insert_at, pos. rewrite <- loc_len0.
    replace (A ++ l :: C) with ((A ++ [l]) ++ C) by (by rewrite <- app_assoc).
    replace (S (length A)) with (length (A ++ [l])) by (rewrite length_app; cbn; lia).
    rewrite take_app_length, drop_app_length. by rewrite <- app_assoc.
  - assert (Hsub : ∀ P : Value * Value → Prop, P (key, value) → Forall P (tentries c) →
      Forall P (tentries l) ∧ Forall P (tentries r)).
    { intros P Hp Hf. apply Forall_app. rewrite Hlr. by apply put_Forall. }
    apply separated_split; [lia|done|]. splits; [done| |].
    + eapply Forall_impl2; [exact loc_ge0|exact loc_le0|]. intros k Hge Hle.
      unfold all_ge in *. rewrite !run_cons in *. apply Forall_app in Hge as [Hg1 Hg2].
      destruct (Hsub (λ e, kle k e.1) Hle Hg1) as [? ?].
      apply Forall_app. split; [done|]. by apply Forall_app.
    + cbn [separated]. rewrite run_cons. destruct KB as [|k KB].
      * destruct C; [|done]. splits; [done| |done]. unfold all_ge in *. apply Forall_app. split; [done|constructor].
      * destruct loc_right0 as (Hlt & Hge & Hrr).
        destruct (Hsub (λ e, klt e.1 k) loc_gt0 Hlt) as [_ Hrk].
        splits; [done| |by cbn [separated]; splits]. apply Forall_app. split; [done|].
        destruct (tentries r) as [|e er]; [done|]. apply Forall_cons in Hr as [Hr _].
        apply Forall_cons in Hrk as [Hrk _]. eapply Forall_impl; [exact Hge|]. intros e' He'.
        right. exact (klt_le_trans _ _ _ (kle_lt_trans _ _ _ Hr Hrk) He').
Qed.

Lemma bset_law ty f key value t h :
  keyed ty key = true → bwf ty t → (height t ≤ h)%nat → (h ≤ f)%nat →
  result_ok ty (put key value (tentries t)) h (hset f key value t).
Proof.
  intros Hkey. revert t h. induction f as [|f IH]; intros t h Hw Hh Hf;
    [destruct t; cbn in Hh; lia|].
  destruct t as [[ks|es] ts]; cbn [hset].
  - inversion Hw as [|? ? Hlen Hks Hsep Hts]; subst.
    destruct (locate ty ks ts key Hkey Hks Hsep) as (KA & KB & A & c & C & Hloc).
    rewrite (located_lookup _ _ _ _ _ _ _ _ Hloc).
    destruct h as [|h]; [cbn in Hh; lia|]. apply height_inner in Hh.
    pose proof Hloc as Hloc'. destruct Hloc'. rewrite loc_children0 in Hts, Hh.
    apply Forall_app in Hts as [HtA HtB]. apply Forall_cons in HtB as [Htc HtC].
    apply Forall_app in Hh as [HhA HhB]. apply Forall_cons in HhB as [Hhc HhC].
    specialize (IH c h Htc Hhc ltac:(lia)).
    rewrite (located_entries _ _ _ _ _ _ _ _ Hloc), put_middle by done.
    destruct (hset f key value c) as [c'|l sep r].
    + destruct IH as (Hwc & Ec & Hhc').
      destruct (located_replace _ _ _ _ _ _ _ _ c' value Hloc (or_introl Ec)) as [Hsep' Ei].
      rewrite Ei in *. unfold result_ok. splits.
      * constructor; [done|done|done|]. apply Forall_app. split; [done|by constructor].
      * cbn [tentries]. fold (run (A ++ c' :: C)). by rewrite run_app, run_cons, Ec.
      * apply height_inner, Forall_app. split; [done|by constructor].
    + destruct IH as (Hwl & Hwr & Hks' & Elr & Hl & Hr & Hhl & Hhr).
      destruct (located_split _ _ _ _ _ _ _ _ l sep r value Hloc Elr Hl Hr
        (proj1 (bwf_facts ty r Hwr))) as (E1 & E2 & Hsep').
      rewrite E1, E2. rewrite <- Elr.
      replace (run A ++ (tentries l ++ tentries r) ++ run C) with (run (A ++ l :: r :: C))
        by (rewrite run_app, !run_cons; by rewrite <- !app_assoc).
      rewrite loc_keys0 in Hlen, Hks. apply Forall_app in Hks as [HkA HkB].
      apply split_inner_law; [| |done| |].
      * rewrite length_app in *. cbn. lia.
      * apply Forall_app. split; [done|by constructor].
      * apply Forall_app. split; [done|by repeat constructor].
      * apply Forall_app. split; [done|by repeat constructor].
  - inversion Hw as [? Hne Hlen Hs Hk|]; subst. cbn [tentries].
    rewrite (insert_entry_put ty) by done.
    assert (Hr : result_ok ty (put key value es) 1 (split_leaf (put key value es))).
    { apply split_leaf_law.
      - unfold put. by destruct (lower key es).
      - etrans; [by apply (put_length ty)|]. lia.
      - by apply put_sorted.
      - by apply put_Forall. }
    cbn in Hh. destruct (split_leaf _); unfold result_ok in *.
    + destruct Hr as (? & ? & ?). splits; [done|done|lia].
    + destruct Hr as (? & ? & ? & ? & ? & ? & ? & ?). splits; (done || lia).
Qed.

(** ** Removal *)
Definition removed_ok (ty : Ty) (es es' : Entries) (h : nat) (r : option (option (mtree Label))) : Prop :=
  match r with
  | None => es' = es
  | Some o => es' ≠ es ∧
      match o with
      | None => es' = []
      | Some t => bwf ty t ∧ tentries t = es' ∧ (height t ≤ h)%nat
      end
  end.

(** Dropping a vanished child with one of the keys beside it. *)
Lemma located_drop ks ts key KA KB A c C :
  located ks ts key KA KB A c C → A ++ C ≠ [] →
  separated (drop_key (descend_pos ks key) ks) (A ++ C).
Proof.
  intros [] Hne. unfold drop_key. rewrite <- loc_pos0 in *. subst ks ts.
  rewrite length_app. destruct KB as [|k KB].
  - destruct C; [|done]. rewrite app_nil_r in *. rewrite Nat.add_0_r.
    rewrite bool_decide_false by lia.
    destruct KA as [|ka KA] using rev_ind; [by destruct A|]. clear IHKA.
    destruct A as [|a A _] using rev_ind; [done|].
    rewrite length_app. cbn [length].
    rewrite bool_decide_true by lia. unfold Prelude.remove_at.
    replace (length KA + 1 - 1)%nat with (length KA) by lia.
    rewrite take_app_length, drop_ge by (rewrite length_app; cbn; lia). rewrite app_nil_r.
    assert (Hs : separated ((KA ++ [ka]) ++ []) ((A ++ [a]) ++ [c]))
      by (apply separated_split; [rewrite !length_app in *; cbn in *; lia|done|done]).
    rewrite <- !app_assoc in Hs.
    apply separated_split in Hs as (Hl & Hg & _);
      [|rewrite !length_app in *; cbn in *; lia|done].
    rewrite app_nil_r, <- (app_nil_r KA). apply separated_split; [by apply left_of_length|done|].
    splits; [done| |done].
    eapply Forall_impl; [exact Hg|]. intros k Hk. cbn [app] in Hk.
    change (a :: [c]) with ([a] ++ [c]) in Hk. rewrite run_app in Hk.
    unfold all_ge in *. by apply Forall_app in Hk as [? _].
  - destruct C as [|b C]; [destruct loc_right0 as (_ & _ & Hr); by destruct KB|]. cbn [length].
    rewrite bool_decide_true by lia. unfold Prelude.remove_at.
    rewrite take_app_length, drop_app_ge by lia.
    replace (S (length KA) - length KA)%nat with 1%nat by lia. cbn [drop].
    destruct loc_right0 as (_ & _ & Hr).
    apply separated_split; [lia|done|]. splits; [done| |done].
    eapply Forall_impl; [exact loc_ge0|]. intros k' Hk'. rewrite run_cons in Hk'.
    unfold all_ge in *. by apply Forall_app in Hk' as [_ ?].
Qed.

Lemma drop_key_sub pos ks (P : Value → Prop) :
  Forall P ks → Forall P (drop_key pos ks) ∧ (length (drop_key pos ks) ≤ length ks)%nat.
Proof.
  intros Hk.
  assert (Hr : ∀ i, Forall P (Prelude.remove_at ks i) ∧ (length (Prelude.remove_at ks i) ≤ length ks)%nat).
  { intros i. unfold Prelude.remove_at. split.
    - apply Forall_app. split; [by apply Forall_take|by apply Forall_drop].
    - rewrite length_app, length_take, length_drop. lia. }
  unfold drop_key. repeat case_bool_decide; [apply Hr..|by split].
Qed.

Lemma bremove_law ty f key t h :
  keyed ty key = true → bwf ty t → (height t ≤ h)%nat → (h ≤ f)%nat →
  removed_ok ty (tentries t) (del key (tentries t)) h (hremove f key t).
Proof.
  intros Hkey. revert t h. induction f as [|f IH]; intros t h Hw Hh Hf;
    [destruct t; cbn in Hh; lia|].
  destruct t as [[ks|es] ts]; cbn [hremove].
  - inversion Hw as [|? ? Hlen Hks Hsep Hts]; subst.
    destruct (locate ty ks ts key Hkey Hks Hsep) as (KA & KB & A & c & C & Hloc).
    rewrite (located_lookup _ _ _ _ _ _ _ _ Hloc). cbn [mbind option_bind].
    destruct h as [|h]; [cbn in Hh; lia|]. apply height_inner in Hh.
    pose proof Hloc as Hloc'. destruct Hloc'. rewrite loc_children0 in Hts, Hh.
    apply Forall_app in Hts as [HtA HtB]. apply Forall_cons in HtB as [Htc HtC].
    apply Forall_app in Hh as [HhA HhB]. apply Forall_cons in HhB as [Hhc HhC].
    specialize (IH c h Htc Hhc ltac:(lia)).
    rewrite (located_entries _ _ _ _ _ _ _ _ Hloc), del_middle by done.
    assert (Hneq : del key (tentries c) ≠ tentries c →
      run A ++ del key (tentries c) ++ run C ≠ run A ++ tentries c ++ run C).
    { intros Hn E. apply Hn. apply app_inv_head in E. by apply app_inv_tail in E. }
    destruct (hremove f key c) as [[c'|]|]; unfold removed_ok in *; cbn [mbind option_bind].
    + destruct IH as (Hn & Hwc & Ec & Hhc').
      destruct (located_replace _ _ _ _ _ _ _ _ c' VUnit Hloc (or_intror Ec)) as [Hsep' Ei].
      rewrite Ei in *. splits; [by apply Hneq| | |].
      * constructor; [done|done|done|]. apply Forall_app. split; [done|by constructor].
      * cbn [tentries]. fold (run (A ++ c' :: C)). by rewrite run_app, run_cons, Ec.
      * apply height_inner, Forall_app. split; [done|by constructor].
    + destruct IH as (Hn & Ed). rewrite Ed in *. split; [by apply Hneq|]. clear Hneq Hn.
      assert (Erm : Prelude.remove_at ts (descend_pos ks key) = A ++ C).
      { unfold Prelude.remove_at. rewrite loc_children0, <- loc_len0, take_app_length.
        rewrite drop_app_ge by lia. by replace (S (length A) - length A)%nat with 1%nat by lia. }
      rewrite Erm. destruct (decide (A ++ C = [])) as [En|En].
      { apply app_nil in En as [-> ->]. done. }
      pose proof (located_drop _ _ _ _ _ _ _ _ Hloc En) as Hsep'.
      destruct (drop_key_sub (descend_pos ks key) ks _ Hks) as [Hk' Hl'].
      assert (HtAC : Forall (bwf ty) (A ++ C)) by (by apply Forall_app).
      assert (HhAC : Forall (λ t, (height t ≤ h)%nat) (A ++ C)) by (by apply Forall_app).
      replace (run A ++ [] ++ run C) with (run (A ++ C)) by (by rewrite run_app).
      destruct (bool_decide (drop_key _ _ = []) && bool_decide (length (A ++ C) = 1%nat)) eqn:Ec.
      * apply andb_prop in Ec as [_ E1%bool_decide_eq_true].
        destruct (A ++ C) as [|t [|t' l]]; try done. cbn [head].
        apply Forall_cons in HtAC as [? _]. apply Forall_cons in HhAC as [? _].
        splits; [done|by rewrite run_cons, app_nil_r|lia].
      * splits; [|done|by apply height_inner]. constructor; [lia|done|done|done].
    + by rewrite IH.
  - inversion Hw as [? Hne Hlen Hs Hk|]; subst. cbn [tentries].
    pose proof (binary_search_del ty key Hkey es Hs Hk) as Hd.
    destruct (binary_search key es) as [pos|pos]; unfold removed_ok; [|done].
    destruct Hd as [Erm Hn]. split; [done|]. rewrite Erm. case_decide as E; [done|].
    splits; [|done|cbn in *; lia]. constructor; [done| |by apply del_sorted|by apply del_Forall].
    etrans; [|exact Hlen]. unfold del, lower, upper.
    destruct (sorted_cut ty key Hkey es Hs Hk) as (m & Ee & _). apply (f_equal length) in Ee.
    rewrite !length_app in *. unfold lower, upper in Ee. lia.
Qed.
