(* ===== verification/PbtreeFacts.v ===== *)
(** The sorted map refines sorted entry lists: the node format decodes, and
    over the node store [get], [set], [remove], [range], [first_greater_than]
    and [entries] compute the list functions. *)
From S2P Require Import Prelude Bytes Hashing Values Serialize SerializeFacts Kv Merkle NodeCodec.
From S2P Require Import PmapNode PmapTree Pbtree PbtreeTree.
Import Pbtree.

(** ** The node format *)
Section format.
Context `{Laws : BigIntCodecLaws} (key_ty val_ty : Ty).

Definition enc (l : Label) (hs : list Z) : bytes :=
  match l with
  | Inner ks => TAG_INNER :: be_bytes 4 (zlen ks) ++ concat (cell_bytes <$> ks) ++ write_hashes hs
  | Leaf es => TAG_LEAF :: be_bytes 4 (zlen es) ++ concat (pair_bytes <$> es)
  end.

Definition node_ok (l : Label) (hs : list Z) : Prop :=
  match l with
  | Inner ks => zlen ks < 2 ^ 32 ∧ Forall (λ k, cellable key_ty k = true) ks ∧
      length hs = S (length ks)
  | Leaf es => zlen es < 2 ^ 32 ∧
      Forall (λ e, cellable key_ty e.1 = true ∧ cellable val_ty e.2 = true) es ∧ hs = []
  end.

Lemma pbtree_node_codec : codec_inverts enc (deserialize_node key_ty val_ty) node_ok.
Proof.
  intros [ks|es] hs Hok Hr; unfold node_ok in Hok.
  - destruct Hok as (Hlen & Hks & Hhs). cbn [enc]. unfold deserialize_node. rewrite Z.eqb_refl.
    pose proof (zlen_nonneg ks).
    rewrite (be_at_app _ [TAG_INNER] 4 (zlen ks) (concat (cell_bytes <$> ks) ++ write_hashes hs))
      by (lia || done).
    cbn iota. replace (Z.to_nat (zlen ks)) with (length ks) by (unfold zlen; lia).
    pose proof (read_values_ok key_ty ks (TAG_INNER :: be_bytes 4 (zlen ks)) (write_hashes hs) Hks) as E.
    cbn [app] in E. rewrite zlen_cons, zlen_be_bytes in E. change (1 + Z.of_nat 4) with 5 in E.
    rewrite E. cbn [bind_opt].
    replace (Z.to_nat (zlen ks + 1)) with (length hs) by (unfold zlen; lia).
    pose proof (read_hashes_ok hs (TAG_INNER :: be_bytes 4 (zlen ks) ++ concat (cell_bytes <$> ks)) [] Hr) as E2.
    rewrite app_nil_r in E2. cbn [app] in E2. rewrite <- app_assoc in E2. by rewrite E2.
  - destruct Hok as (Hlen & Hes & ->). cbn [enc]. unfold deserialize_node.
    change (TAG_LEAF =? TAG_INNER) with false. rewrite Z.eqb_refl. cbn iota.
    pose proof (zlen_nonneg es).
    rewrite (be_at_app _ [TAG_LEAF] 4 (zlen es) (concat (pair_bytes <$> es))) by (lia || done).
    cbn iota. replace (Z.to_nat (zlen es)) with (length es) by (unfold zlen; lia).
    pose proof (read_pairs_ok key_ty val_ty es (TAG_LEAF :: be_bytes 4 (zlen es)) [] Hes) as E.
    rewrite app_nil_r in E. cbn [app] in E.
    rewrite zlen_cons, zlen_be_bytes in E. change (1 + Z.of_nat 4) with 5 in E. by rewrite E.
Qed.

Lemma serialize_leaf_enc es hs :
  node_ok (Leaf es) hs → serialize_leaf es = Ok (enc (Leaf es) []).
Proof.
  intros (_ & Hes & _). unfold serialize_leaf. rewrite (mapM_out_ok _ pair_bytes); [done|].
  intros e He. rewrite Forall_forall in Hes. destruct (Hes e He) as [Hk Hv].
  unfold write_entry. by rewrite (cellable_write _ _ Hk), (cellable_write _ _ Hv).
Qed.

Lemma serialize_inner_enc ks hs hs' :
  node_ok (Inner ks) hs → serialize_inner ks hs' = Ok (enc (Inner ks) hs').
Proof.
  intros (_ & Hks & _). unfold serialize_inner. rewrite (mapM_out_ok _ cell_bytes); [done|].
  intros k Hk. rewrite Forall_forall in Hks. by rewrite (cellable_write _ _ (Hks k Hk)).
Qed.
End format.

(** ** Ranges and successors of sorted lists *)
Definition in_range (lo hi : Value) (e : Value * Value) : Prop := kle lo e.1 ∧ kle e.1 hi.
#[export] Instance in_range_dec lo hi e : Decision (in_range lo hi e).
Proof. unfold in_range. apply _. Defined.

Definition above (target : option Value) (es : Entries) : Entries :=
  match target with None => es | Some t => upper t es end.

Lemma range_leaf_filter ty lo hi es :
  keyed ty lo = true → keyed ty hi = true →
  ssorted es → Forall (λ e, keyed ty e.1 = true) es →
  range_leaf lo hi es = snd <$> filter (in_range lo hi) es.
Proof.
  intros Hlo Hhi. induction 1 as [|[k v] es Hs IH Hall]; intros Hk; [done|].
  apply Forall_cons in Hk as [Hk Hks]. cbn [fst] in *. cbn [range_leaf]. rewrite filter_cons.
  assert (Hcmp : ∀ a b, keyed ty a = true → keyed ty b = true → is_gt (compare_keys a b) = false → kle a b).
  { intros a b Ha Hb Hg. destruct (compare_keys a b) eqn:E; [|by right|done].
    left. exact (proj1 (compare_eq ty a b Ha Hb) E). }
  destruct (is_lt (compare_keys k lo)) eqn:El.
  - rewrite decide_False; [by apply IH|]. intros [Hge _]. cbn [fst] in Hge.
    assert (klt k lo) by (unfold klt; by destruct (compare_keys k lo)).
    by eapply klt_irrefl, kle_lt_trans.
  - assert (Hge : kle lo k).
    { apply Hcmp; [done|done|]. rewrite (compare_antisym k lo). by destruct (compare_keys k lo). }
    destruct (is_gt (compare_keys k hi)) eqn:Eg.
    + assert (Hgt : klt hi k) by (apply compare_gt; by destruct (compare_keys k hi)).
      rewrite decide_False.
      2: { intros [_ Hle]. cbn [fst] in Hle. by eapply klt_irrefl, kle_lt_trans. }
      assert (En : filter (in_range lo hi) es = []).
      { apply filter_none. eapply Forall_impl; [exact Hall|]. intros e He [_ Hle].
        cbn [fst] in He. eapply klt_irrefl, kle_lt_trans; [exact Hle|]. by eapply klt_trans. }
      by rewrite En.
    + rewrite decide_True by (split; [done|by apply Hcmp]). cbn. f_equal. by apply IH.
Qed.

Lemma greater_leaf_head target es : greater_leaf target es = head (above target es).
Proof.
  unfold greater_leaf. destruct target as [t|]; cbn [above].
  - unfold upper. induction es as [|e es IH]; [done|]. cbn [list_find]. rewrite filter_cons.
    destruct (decide (is_gt (compare_keys e.1 t) = true)) as [E|E].
    + rewrite decide_True; [done|]. apply compare_gt. by destruct (compare_keys e.1 t).
    + rewrite decide_False; [|intros Hg; apply compare_gt in Hg; by rewrite Hg in E].
      rewrite <- IH. by destruct (list_find _ es) as [[]|].
  - destruct es as [|e es]; [done|]. cbn [list_find]. by rewrite decide_True.
Qed.

Lemma first_gt_descend ks t :
  default (length ks) (fst <$> list_find (λ k, is_gt (compare_keys k t) = true) ks)
    = descend_pos ks t.
Proof.
  unfold descend_pos. induction ks as [|k ks IH]; [done|]. cbn [list_find partition_point length].
  destruct (compare_keys k t) eqn:E; cbn [is_gt is_le].
  - rewrite decide_False by done. rewrite <- IH. by destruct (list_find _ ks) as [[]|].
  - rewrite decide_False by done. rewrite <- IH. by destruct (list_find _ ks) as [[]|].
  - by rewrite decide_True.
Qed.

Lemma descend_sides ty ks ts key :
  keyed ty key = true → Forall (λ k, keyed ty k = true) ks → separated ks ts →
  all_lt (run (take (descend_pos ks key) ts)) key ∧
  all_gt key (run (drop (S (descend_pos ks key)) ts)).
Proof.
  intros Hkey Hks Hsep. destruct (locate ty ks ts key Hkey Hks Hsep) as (KA & KB & A & c & C & Hloc).
  destruct Hloc as [_ Hch _ Hlen _ _ _ _ _ Hbelow Habove].
  rewrite Hch, <- Hlen, take_app_length, drop_app_ge by lia.
  by replace (S (length A) - length A)%nat with 1%nat by lia.
Qed.

(** The entries of a range are those of the children the walk visits. *)
Lemma range_children ty ks ts lo hi :
  keyed ty lo = true → keyed ty hi = true → Forall (λ k, keyed ty k = true) ks → separated ks ts →
  let lp := descend_pos ks lo in let hp := descend_pos ks hi in
  filter (in_range lo hi) (run (take (S hp - lp) (drop lp ts))) = filter (in_range lo hi) (run ts).
Proof.
  intros Hlo Hhi Hks Hsep lp hp.
  destruct (descend_sides ty ks ts lo Hlo Hks Hsep) as [Hl _].
  destruct (descend_sides ty ks ts hi Hhi Hks Hsep) as [_ Hr]. fold lp in Hl. fold hp in Hr.
  assert (El : filter (in_range lo hi) (run (take lp ts)) = []).
  { apply filter_none. eapply Forall_impl; [exact Hl|]. intros e He [Hge _].
    by eapply klt_irrefl, kle_lt_trans. }
  assert (Er : filter (in_range lo hi) (run (drop (S hp - lp) (drop lp ts))) = []).
  { apply filter_none. rewrite drop_drop.
    assert (Hsub : all_gt hi (run (drop (lp + (S hp - lp)) ts))).
    { replace (lp + (S hp - lp))%nat with (S hp + (lp - S hp))%nat by lia.
      rewrite <- drop_drop. unfold all_gt in *.
      rewrite <- (take_drop (lp - S hp) (drop (S hp) ts)), run_app in Hr.
      by apply Forall_app in Hr as [_ ?]. }
    eapply Forall_impl; [exact Hsub|]. intros e He [_ Hle]. by eapply klt_irrefl, kle_lt_trans. }
  rewrite <- (take_drop lp ts) at 2. rewrite run_app, filter_app, El. cbn [app].
  rewrite <- (take_drop (S hp - lp) (drop lp ts)) at 2.
  by rewrite run_app, filter_app, Er, app_nil_r.
Qed.

(** ** Simulation *)
Section refinement.
Context `{Laws : BigIntCodecLaws} {St : Type} `{TxLaws St}.
Context (key_ty val_ty : Ty) (U : list bytes).
Context (HU : no_collision NODE_NS U = true).

Local Abbreviation hash := (thash NODE_NS enc).
Local Abbreviation stored := (stored NODE_NS enc (node_ok key_ty val_ty) U).
Local Abbreviation in_play := (in_play NODE_NS enc (node_ok key_ty val_ty) U).
Local Abbreviation store_ok := (store_ok NODE_NS U).
Local Abbreviation extends := (extends NODE_NS U).
Local Abbreviation returns := (returns NODE_NS U).

Lemma bt_read_then {B} t s (f : option Node → SM St B) Q :
  store_ok s → stored (view s) t →
  (∀ s', extends s s' → store_ok s' → stored (view s') t →
         returns (f (Some (label t, hash <$> children t))) s' Q) →
  returns (Pbtree.read_node key_ty val_ty (hash t) ≫= f) s Q.
Proof.
  intros Hs Ht HQ. eapply returns_bind.
  - eapply (returns_read_node _ _ _ _ _ (pbtree_node_codec key_ty val_ty) HU _ _
      (λ r s', r = Some (label t, hash <$> children t) ∧ stored (view s') t)); [done..|]. by split.
  - intros r s' He [-> Ht']. apply HQ; [done|by eapply extends_ok|done].
Qed.

Lemma bt_stored_extends s s' ts :
  extends s s' → Forall (stored (view s)) ts → Forall (stored (view s')) ts.
Proof. intros He Hts. eapply Forall_impl; [exact Hts|]. intros t. by apply stored_extends. Qed.

Lemma bt_stored_children vw l ts : stored vw (MNode l ts) → Forall (stored vw) ts.
Proof. by inversion 1. Qed.

Lemma bt_in_play_children l ts : in_play (MNode l ts) → Forall in_play ts.
Proof. by inversion 1. Qed.

Definition bt_makes (t : mtree Label) (r : Z) (s : St) : Prop := r = hash t ∧ stored (view s) t.

Lemma bt_write_leaf es s :
  store_ok s → in_play (MNode (Leaf es) []) →
  returns (write_leaf es) s (bt_makes (MNode (Leaf es) [])).
Proof.
  intros Hs Hp. inversion Hp as [? ? Hok Hin _]; subst. unfold write_leaf.
  apply (returns_bind_lift _ (enc (Leaf es) [])); [by eapply serialize_leaf_enc|].
  eapply (returns_write_node _ _ _ _ HU (Leaf es) []); [done|done|done|constructor|]. by split.
Qed.

Lemma bt_write_inner ks ts s :
  store_ok s → in_play (MNode (Inner ks) ts) → Forall (stored (view s)) ts →
  returns (write_inner ks (hash <$> ts)) s (bt_makes (MNode (Inner ks) ts)).
Proof.
  intros Hs Hp Hts. inversion Hp as [? ? Hok Hin _]; subst. unfold write_inner.
  apply (returns_bind_lift _ (enc (Inner ks) (hash <$> ts))); [by eapply serialize_inner_enc|].
  eapply (returns_write_node _ _ _ _ HU (Inner ks) ts); [done..|]. by split.
Qed.

(** The child an operation descends into. *)
Lemma child_hash_at (ts : list (mtree Label)) (pos : nat) c :
  ts !! pos = Some c → or_panic ((hash <$> ts) !! pos) = Ok (hash c).
Proof. intros Hc. by rewrite list_lookup_fmap, Hc. Qed.

(** Open a stored well-formed inner node at a key. *)
Lemma open_inner ks ts key s h :
  keyed key_ty key = true → bwf key_ty (MNode (Inner ks) ts) →
  (height (MNode (Inner ks) ts) ≤ S h)%nat → stored (view s) (MNode (Inner ks) ts) →
  ∃ KA KB A c C, located ks ts key KA KB A c C ∧ ts !! descend_pos ks key = Some c ∧
    bwf key_ty c ∧ (height c ≤ h)%nat ∧ stored (view s) c.
Proof.
  intros Hkey Hw Hh Hst%bt_stored_children. inversion Hw as [|? ? Hlen Hks Hsep Hts]; subst.
  destruct (locate key_ty ks ts key Hkey Hks Hsep) as (KA & KB & A & c & C & Hloc).
  exists KA, KB, A, c, C. pose proof (located_lookup _ _ _ _ _ _ _ _ Hloc) as Hc.
  apply height_inner in Hh. splits; [done|done|exact (Forall_lookup_1 _ _ _ _ Hts Hc)|exact (Forall_lookup_1 _ _ _ _ Hh Hc)|].
  exact (Forall_lookup_1 _ _ _ _ Hst Hc).
Qed.

Lemma bt_get_at_ok f key t s :
  keyed key_ty key = true → bwf key_ty t → (height t ≤ f)%nat →
  store_ok s → stored (view s) t →
  returns (get_at key_ty val_ty f (hash t) key) s (λ r _, r = find_entry key (tentries t)).
Proof.
  intros Hkey. revert t s. induction f as [|f IH]; intros t s Hw Hh Hs Ht;
    [destruct t; cbn in Hh; lia|].
  cbn [get_at]. apply bt_read_then; [done..|]. intros s1 He1 Hs1 Ht1.
  destruct t as [[ks|es] ts]; cbn [label children].
  - destruct (open_inner ks ts key s1 f Hkey Hw Hh Ht1) as (KA & KB & A & c & C & Hloc & Hc & Hwc & Hhc & Hstc).
    apply (returns_bind_lift _ (hash c)); [by apply child_hash_at|].
    rewrite (located_find _ _ _ _ _ _ _ _ Hloc). by apply IH.
  - apply returns_ret; [done|]. destruct (bwf_facts _ _ Hw) as (_ & _ & Hk).
    by apply (find_sorted key_ty).
Qed.

(** *** Walks over several children *)
Lemma visit_all_ok {A} (visit : Z → SM St (list A)) (g : mtree Label → list A) ts s :
  (∀ t s, t ∈ ts → store_ok s → stored (view s) t → returns (visit (hash t)) s (λ r _, r = g t)) →
  store_ok s → Forall (stored (view s)) ts →
  returns (visit_all visit (hash <$> ts)) s (λ r _, r = concat (g <$> ts)).
Proof.
  intros Hv. revert s. induction ts as [|t ts IH]; intros s Hs Hst; cbn [fmap list_fmap visit_all].
  { by apply returns_ret. }
  apply Forall_cons in Hst as [Ht Hst].
  eapply returns_bind; [apply Hv; [left|done|done]|]. intros r s1 He ->.
  eapply returns_bind.
  { apply IH; [intros; apply Hv; [by right|done..]|by eapply extends_ok|by eapply bt_stored_extends]. }
  intros r s2 He2 ->. by apply returns_ret; [eapply extends_ok|].
Qed.

Lemma bt_collect_ok f t s :
  bwf key_ty t → (height t ≤ f)%nat → store_ok s → stored (view s) t →
  returns (collect_entries key_ty val_ty f (hash t)) s (λ r _, r = tentries t).
Proof.
  revert t s. induction f as [|f IH]; intros t s Hw Hh Hs Ht; [destruct t; cbn in Hh; lia|].
  cbn [collect_entries]. apply bt_read_then; [done..|]. intros s1 He1 Hs1 Ht1.
  destruct t as [[ks|es] ts]; cbn [label children tentries]; [|by apply returns_ret].
  inversion Hw as [|? ? Hlen Hks Hsep Hts]; subst. apply height_inner in Hh.
  apply visit_all_ok; [|done|by eapply bt_stored_children].
  rewrite Forall_forall in Hts, Hh. intros c s' Hc Hs' Hst. apply IH; auto.
Qed.

Lemma concat_range lo hi ts :
  concat ((λ t, snd <$> filter (in_range lo hi) (tentries t)) <$> ts)
    = snd <$> filter (in_range lo hi) (run ts).
Proof.
  induction ts as [|t ts IH]; [done|]. rewrite run_cons, filter_app, fmap_app, <- IH. done.
Qed.

Lemma bt_range_at_ok f lo hi t s :
  keyed key_ty lo = true → keyed key_ty hi = true →
  bwf key_ty t → (height t ≤ f)%nat → store_ok s → stored (view s) t →
  returns (range_at key_ty val_ty f (hash t) lo hi) s
    (λ r _, r = snd <$> filter (in_range lo hi) (tentries t)).
Proof.
  intros Hlo Hhi. revert t s. induction f as [|f IH]; intros t s Hw Hh Hs Ht;
    [destruct t; cbn in Hh; lia|].
  cbn [range_at]. apply bt_read_then; [done..|]. intros s1 He1 Hs1 Ht1.
  destruct (bwf_facts _ _ Hw) as (_ & Hsort & Hk).
  destruct t as [[ks|es] ts]; cbn [label children].
  - inversion Hw as [|? ? Hlen Hks Hsep Hts]; subst. apply height_inner in Hh.
    cbn [tentries]. fold (run ts).
    rewrite <- (range_children key_ty ks ts lo hi Hlo Hhi Hks Hsep), <- concat_range.
    rewrite <- fmap_drop, <- fmap_take.
    set (L := take _ _).
    assert (Hsub : ∀ c, c ∈ L → c ∈ ts).
    { intros c Hc. unfold L in Hc. apply elem_of_take in Hc as (i & Hc & _).
      rewrite lookup_drop in Hc. by eapply list_elem_of_lookup_2. }
    apply bt_stored_children in Ht1. rewrite Forall_forall in Hts, Hh, Ht1.
    apply (visit_all_ok _ (λ t, snd <$> filter (in_range lo hi) (tentries t))).
    + intros c s' Hc%Hsub Hs' Hst. apply IH; auto.
    + done.
    + apply Forall_forall. intros c Hc%Hsub. auto.
  - apply returns_ret; [done|]. by apply (range_leaf_filter key_ty).
Qed.
(** *** The cursor *)
Lemma tail_of_drop {A} n (l : list A) : tail (drop n l) = drop (S n) l.
Proof. revert l. induction n as [|n IH]; intros [|x l]; [done..|]. apply IH. Qed.

Lemma first_of_ok (visit : option Value → Z → SM St (option (Value * Value))) target ts s :
  (∀ tg t s, tg = target ∨ tg = None → t ∈ ts → store_ok s → stored (view s) t →
     returns (visit tg (hash t)) s (λ r _, r = head (above tg (tentries t)))) →
  Forall (λ t, tentries t ≠ []) ts →
  (match target with Some k => all_gt k (run (tail ts)) | None => True end) →
  store_ok s → Forall (stored (view s)) ts →
  returns (first_of visit target (hash <$> ts)) s (λ r _, r = head (above target (run ts))).
Proof.
  revert target s. induction ts as [|t ts IH]; intros target s Hv Hne Hgt Hs Hst;
    cbn [fmap list_fmap first_of].
  { apply returns_ret; [done|]. by destruct target. }
  apply Forall_cons in Hst as [Ht Hst]. apply Forall_cons in Hne as [Hnt Hne].
  eapply returns_bind; [apply Hv; [by left|left|done|done]|]. intros r s1 He ->.
  rewrite run_cons.
  assert (Ea : above target (tentries t ++ run ts) = above target (tentries t) ++ run ts).
  { destruct target as [k|]; [|done]. cbn [above tail] in *. unfold upper at 1.
    rewrite filter_app. f_equal. by apply upper_gt. }
  rewrite Ea. destruct (above target (tentries t)) as [|e es] eqn:Eab; cbn [head app].
  - assert (Hr : returns (first_of visit None (hash <$> ts)) s1
      (λ r _, r = head (above None (run ts)))).
    { apply IH; [|done|done|by eapply extends_ok|by eapply bt_stored_extends].
      intros tg t' s' Htg Ht'. apply Hv; [right; by destruct Htg|by right]. }
    eapply returns_mono; [exact Hr|]. done.
  - by apply returns_ret; [eapply extends_ok|].
Qed.

Lemma bt_first_greater_ok f target t s :
  (match target with Some k => keyed key_ty k = true | None => True end) →
  bwf key_ty t → (height t ≤ f)%nat → store_ok s → stored (view s) t →
  returns (first_greater_at key_ty val_ty f target (hash t)) s
    (λ r _, r = head (above target (tentries t))).
Proof.
  revert target t s. induction f as [|f IH]; intros target t s Hkey Hw Hh Hs Ht;
    [destruct t; cbn in Hh; lia|].
  cbn [first_greater_at]. apply bt_read_then; [done..|]. intros s1 He1 Hs1 Ht1.
  destruct t as [[ks|es] ts]; cbn [label children].
  2: { apply returns_ret; [done|]. apply greater_leaf_head. }
  inversion Hw as [|? ? Hlen Hks Hsep Hts]; subst. apply height_inner in Hh.
  apply bt_stored_children in Ht1. cbn [tentries]. fold (run ts).
  assert (Hne : Forall (λ t, tentries t ≠ []) ts).
  { eapply Forall_impl; [exact Hts|]. intros t Htw. by apply (bwf_facts key_ty). }
  assert (Hv : ∀ start tg c s, tg = target ∨ tg = None → c ∈ drop start ts → store_ok s →
      stored (view s) c →
      returns (first_greater_at key_ty val_ty f tg (hash c)) s
        (λ r _, r = head (above tg (tentries c)))).
  { intros start tg c s' Htg Hc Hs' Hst.
    assert (Hc' : c ∈ ts) by (rewrite <- (take_drop start ts); apply elem_of_app; by right).
    rewrite Forall_forall in Hts, Hh.
    apply IH; [by destruct Htg; subst|by apply Hts|by apply Hh|done|done]. }
  destruct target as [k|].
  - rewrite first_gt_descend, <- fmap_drop.
    destruct (descend_sides key_ty ks ts k Hkey Hks Hsep) as [Hl Hr].
    set (pos := descend_pos ks k) in *.
    assert (E : above (Some k) (run ts) = above (Some k) (run (drop pos ts))).
    { cbn [above]. rewrite <- (take_drop pos ts) at 1. rewrite run_app.
      pose proof (proj2 (lower_lt k _ Hl)) as El. unfold upper in *. by rewrite filter_app, El. }
    rewrite E. apply first_of_ok; [apply Hv|by apply Forall_drop| |done|by apply Forall_drop].
    by rewrite tail_of_drop.
  - rewrite drop_0. apply first_of_ok; [intros tg c s' Htg Hc; apply (Hv 0%nat); [done|by rewrite drop_0]|
      done|done|done|done].
Qed.
(** *** Insertion *)
Definition rmakes (t : hres) (r : SetResult) (s : St) : Prop :=
  match t, r with
  | HPlain t, SPlain h => bt_makes t h s
  | HSplit l sep r, SSplit lh sep' rh => bt_makes l lh s ∧ bt_makes r rh s ∧ sep' = sep
  | _, _ => False
  end.

Definition res_in_play (r : hres) : Prop :=
  match r with HPlain t => in_play t | HSplit l _ r => in_play l ∧ in_play r end.

Lemma bt_makes_extends t r s s' : extends s s' → bt_makes t r s → bt_makes t r s'.
Proof. intros He [-> Ht]. split; [done|]. by eapply stored_extends. Qed.

Lemma split_leaf_made es s :
  es ≠ [] → store_ok s → res_in_play (split_leaf es) →
  returns
    (if bool_decide (length es ≤ B)%nat then h ← write_leaf es; mret (SPlain h)
     else
       let mid := (length es / 2)%nat in
       let right_entries := drop mid es in
       sep ← lift (or_panic (fst <$> head right_entries));
       lh ← write_leaf (take mid es);
       rh ← write_leaf right_entries;
       mret (SSplit lh sep rh)) s (rmakes (split_leaf es)).
Proof.
  intros Hne Hs. unfold split_leaf. destruct (bool_decide _); intros Hp.
  { eapply returns_bind; [by apply bt_write_leaf|]. intros h s1 He Hm.
    by apply returns_ret; [eapply extends_ok|]. }
  cbv zeta in *. destruct Hp as [Hpl Hpr].
  assert (Hm : (length es / 2 < length es)%nat).
  { apply Nat.div_lt; [|lia]. destruct es; [done|cbn; lia]. }
  destruct (drop (length es / 2) es) as [|e r] eqn:Ed.
  { apply (f_equal length) in Ed. rewrite length_drop in Ed. cbn [length] in Ed. lia. }
  rewrite <- Ed in *.
  apply (returns_bind_lift _ e.1); [by rewrite Ed|].
  eapply returns_bind; [by apply bt_write_leaf|]. intros lh s1 He1 Hl.
  eapply returns_bind; [apply bt_write_leaf; [by eapply extends_ok|done]|]. intros rh s2 He2 Hr.
  apply returns_ret; [by eapply extends_ok|]. cbn [rmakes].
  splits; [by eapply bt_makes_extends|done|by rewrite Ed].
Qed.

Lemma split_inner_made ks ts s :
  store_ok s → Forall (stored (view s)) ts → res_in_play (split_inner ks ts) →
  returns
    (if bool_decide (length ks ≤ B)%nat then h ← write_inner ks (hash <$> ts); mret (SPlain h)
     else
       let mid := (length ks / 2)%nat in
       split_key ← lift (or_panic (ks !! mid));
       left_hash ← write_inner (take mid ks) (take (S mid) (hash <$> ts));
       right_hash ← write_inner (drop (S mid) ks) (drop (S mid) (hash <$> ts));
       mret (SSplit left_hash split_key right_hash)) s (rmakes (split_inner ks ts)).
Proof.
  intros Hs Hst. unfold split_inner. case_bool_decide as Hb; intros Hp.
  { eapply returns_bind; [by apply bt_write_inner|]. intros h s1 He Hm.
    by apply returns_ret; [eapply extends_ok|]. }
  cbv zeta in *. destruct Hp as [Hpl Hpr].
  assert (Hm : (length ks / 2 < length ks)%nat) by (apply Nat.div_lt; unfold B in Hb; lia).
  destruct (lookup_lt_is_Some_2 ks _ Hm) as [k Ek]. rewrite Ek.
  apply (returns_bind_lift _ k); [done|]. rewrite <- fmap_take, <- fmap_drop.
  eapply returns_bind; [apply bt_write_inner; [done|done|by apply Forall_take]|].
  intros lh s1 He1 Hl.
  eapply returns_bind.
  { apply bt_write_inner; [by eapply extends_ok|done|].
    eapply bt_stored_extends; [done|by apply Forall_drop]. }
  intros rh s2 He2 Hr. apply returns_ret; [by eapply extends_ok|]. cbn [rmakes].
  splits; [by eapply bt_makes_extends|done|done].
Qed.

(** Every tree a result of the recursion holds is part of the final one. *)
Lemma res_in_play_join r : in_play (join r) → res_in_play r.
Proof.
  destruct r as [t|l sep r]; cbn [join res_in_play]; [done|].
  intros Hp%bt_in_play_children. apply Forall_cons in Hp as [Hl Hr].
  by apply Forall_cons in Hr as [Hr _].
Qed.

Lemma split_inner_in_play ks ts : res_in_play (split_inner ks ts) → Forall in_play ts.
Proof.
  unfold split_inner. destruct (bool_decide _); cbn [res_in_play]; [apply bt_in_play_children|].
  cbv zeta. intros [Hl%bt_in_play_children Hr%bt_in_play_children].
  rewrite <- (take_drop (S (length ks / 2)) ts). by apply Forall_app.
Qed.

Lemma insert_fmap_hash (ts : list (mtree Label)) i t :
  insert_at (hash <$> ts) i (hash t) = hash <$> insert_at ts i t.
Proof. unfold insert_at. by rewrite fmap_app, fmap_cons, fmap_take, fmap_drop. Qed.

Lemma set_inner_ok f key value t s :
  keyed key_ty key = true → bwf key_ty t → (height t ≤ f)%nat →
  store_ok s → stored (view s) t → res_in_play (hset f key value t) →
  returns (set_inner key_ty val_ty f (hash t) key value) s (rmakes (hset f key value t)).
Proof.
  intros Hkey. revert t s. induction f as [|f IH]; intros t s Hw Hh Hs Ht Hp;
    [destruct t; cbn in Hh; lia|].
  cbn [set_inner]. apply bt_read_then; [done..|]. intros s1 He1 Hs1 Ht1.
  destruct t as [[ks|es] ts]; cbn [label children hset] in *.
  2: { destruct (bwf_facts _ _ Hw) as (_ & Hsort & Hk). cbn [tentries] in *.
       apply split_leaf_made; [|done|done]. rewrite (insert_entry_put key_ty) by done.
       unfold put. by destruct (lower key es). }
  destruct (open_inner ks ts key s1 f Hkey Hw Hh Ht1) as (KA & KB & A & c & C & Hloc & Hc & Hwc & Hhc & Hstc).
  apply (returns_bind_lift _ (hash c)); [by apply child_hash_at|]. rewrite Hc in *.
  pose proof (bt_stored_children _ _ _ Ht1) as Hst.
  pose proof (lookup_lt_Some _ _ _ Hc) as Hlt.
  assert (Hpc : res_in_play (hset f key value c)).
  { destruct (hset f key value c) as [c'|l sep r]; cbn [res_in_play] in *.
    - apply bt_in_play_children in Hp. eapply Forall_lookup_1; [exact Hp|].
      by apply list_lookup_insert_eq.
    - apply split_inner_in_play in Hp. unfold insert_at in Hp.
      apply Forall_app in Hp as [Hp1 Hp2]. apply Forall_cons in Hp2 as [Hr _]. split; [|done].
      apply (Forall_lookup_1 _ _ (descend_pos ks key) l Hp1). rewrite lookup_take_lt by lia.
      by apply list_lookup_insert_eq. }
  eapply returns_bind; [by apply (IH c s1)|]. intros r s2 He2 Hr.
  assert (Hs2 : store_ok s2) by (by eapply extends_ok).
  pose proof (bt_stored_extends _ _ _ He2 Hst) as Hst2.
  destruct (hset f key value c) as [c'|l sep rt], r as [h|lh sep' rh]; try done; cbn [rmakes] in Hr.
  - destruct Hr as [-> Hc'].
    replace (<[descend_pos ks key:=hash c']> (hash <$> ts))
      with (hash <$> <[descend_pos ks key := c']> ts) by (by rewrite list_fmap_insert).
    eapply returns_bind; [apply bt_write_inner; [done|done|by apply Forall_insert]|].
    intros h s3 He3 Hm. by apply returns_ret; [eapply extends_ok|].
  - destruct Hr as ([-> Hl] & [-> Hr] & ->). cbv zeta.
    rewrite <- list_fmap_insert, insert_fmap_hash.
    apply split_inner_made; [done| |done]. unfold insert_at. apply Forall_app. split.
    + by apply Forall_take, Forall_insert.
    + constructor; [done|]. by apply Forall_drop, Forall_insert.
Qed.
(** *** Removal *)
Definition del_makes (t : option (option (mtree Label))) (r : RemoveResult) (s : St) : Prop :=
  match t, r with
  | None, RUnchanged => True
  | Some None, RGone => True
  | Some (Some t), RPlain h => bt_makes t h s
  | _, _ => False
  end.

Definition del_in_play (r : option (option (mtree Label))) : Prop :=
  match r with Some (Some t) => in_play t | _ => True end.

Lemma remove_inner_ok f key t s :
  keyed key_ty key = true → bwf key_ty t → (height t ≤ f)%nat →
  store_ok s → stored (view s) t → in_play t → del_in_play (hremove f key t) →
  returns (remove_inner key_ty val_ty f (hash t) key) s (del_makes (hremove f key t)).
Proof.
  intros Hkey. revert t s. induction f as [|f IH]; intros t s Hw Hh Hs Ht Hpt Hp;
    [destruct t; cbn in Hh; lia|].
  cbn [remove_inner]. apply bt_read_then; [done..|]. intros s1 He1 Hs1 Ht1.
  destruct t as [[ks|es] ts]; cbn [label children hremove] in *.
  2: { destruct (binary_search key es) as [pos|pos]; [|by apply returns_ret].
       destruct (decide (Prelude.remove_at es pos = [])); [by apply returns_ret|].
       eapply returns_bind; [by apply bt_write_leaf|]. intros h s2 He2 Hm.
       by apply returns_ret; [eapply extends_ok|]. }
  destruct (open_inner ks ts key s1 f Hkey Hw Hh Ht1) as (KA & KB & A & c & C & Hloc & Hc & Hwc & Hhc & Hstc).
  apply (returns_bind_lift _ (hash c)); [by apply child_hash_at|]. rewrite Hc in *.
  cbn [mbind option_bind] in Hp |- *.
  pose proof (bt_stored_children _ _ _ Ht1) as Hst.
  pose proof (lookup_lt_Some _ _ _ Hc) as Hlt.
  pose proof (bt_in_play_children _ _ Hpt) as Hpts.
  pose proof (Forall_lookup_1 _ _ _ _ Hpts Hc) as Hpc.
  assert (Hpr : del_in_play (hremove f key c)).
  { destruct (hremove f key c) as [[c'|]|]; [|done|done]. cbn [del_in_play mbind option_bind] in *.
    apply bt_in_play_children in Hp. eapply Forall_lookup_1; [exact Hp|].
    by apply list_lookup_insert_eq. }
  eapply returns_bind; [by apply (IH c s1)|]. intros r s2 He2 Hr.
  assert (Hs2 : store_ok s2) by (by eapply extends_ok).
  pose proof (bt_stored_extends _ _ _ He2 Hst) as Hst2.
  destruct (hremove f key c) as [[c'|]|], r as [|h|]; try done; cbn [del_makes mbind option_bind] in *.
  - destruct Hr as [-> Hc'].
    replace (<[descend_pos ks key:=hash c']> (hash <$> ts))
      with (hash <$> <[descend_pos ks key := c']> ts) by (by rewrite list_fmap_insert).
    eapply returns_bind; [apply bt_write_inner; [done|done|by apply Forall_insert]|].
    intros h s3 He3 Hm. by apply returns_ret; [eapply extends_ok|].
  - assert (Erm : Prelude.remove_at (hash <$> ts) (descend_pos ks key)
                  = hash <$> Prelude.remove_at ts (descend_pos ks key))
      by (unfold Prelude.remove_at; by rewrite fmap_app, fmap_take, fmap_drop).
    apply (returns_bind_lift _ (hash <$> Prelude.remove_at ts (descend_pos ks key))).
    { unfold vec_remove. rewrite length_fmap, decide_True by done. by rewrite Erm. }
    cbv zeta. fold (drop_key (descend_pos ks key) ks).
    assert (Hstr : Forall (stored (view s2)) (Prelude.remove_at ts (descend_pos ks key))).
    { unfold Prelude.remove_at. apply Forall_app. split; [by apply Forall_take|by apply Forall_drop]. }
    rewrite length_fmap. revert Hp Hstr.
    generalize (Prelude.remove_at ts (descend_pos ks key)). intros ts' Hp Hstr.
    destruct ts' as [|t' ts']; [by apply returns_ret|].
    rewrite decide_False by done. rewrite (decide_False (P := t' :: ts' = [])) in * by done.
    destruct (bool_decide (drop_key _ _ = []) && bool_decide (length (t' :: ts') = 1%nat)).
    + cbn [head del_in_play del_makes fmap list_fmap] in *.
      apply (returns_bind_lift _ (hash t')); [done|]. apply returns_ret; [done|].
      apply Forall_cons in Hstr as [? _]. by split.
    + eapply returns_bind; [by apply bt_write_inner|]. intros h s3 He3 Hm.
      by apply returns_ret; [eapply extends_ok|].
  - by apply returns_ret.
Qed.
End refinement.
