(* ===== verification/PbtreeSpec.v ===== *)
(** What the sorted map promises: over a store that holds the tree of a root,
    its operations are those of a strictly sorted list of entries, and every
    older root stays readable.  The fuel of an operation is any bound on the
    height of the tree it is run on. *)
From S2P Require Import Prelude Bytes Hashing Values Serialize SerializeFacts Kv Merkle NodeCodec.
From S2P Require Import PmapNode PmapTree Pbtree PbtreeTree PbtreeFacts.
Import Pbtree.

(** [None] is the empty map. *)
Definition SortedMap : Type := option (mtree Label).
Definition map_entries (o : SortedMap) : Entries :=
  match o with Some t => tentries t | None => [] end.
Definition map_height (o : SortedMap) : nat := match o with Some t => height t | None => O end.
Definition map_bwf (key_ty : Ty) (o : SortedMap) : Prop :=
  match o with Some t => bwf key_ty t | None => True end.

Definition sorted_set (fuel : nat) (key value : Value) (o : SortedMap) : mtree Label :=
  match o with
  | None => MNode (Leaf [(key, value)]) []
  | Some t => join (hset fuel key value t)
  end.

Definition sorted_remove (fuel : nat) (key : Value) (o : SortedMap) : SortedMap :=
  match o with
  | None => None
  | Some t => match hremove fuel key t with None => Some t | Some o' => o' end
  end.

Lemma map_bwf_facts ty o :
  map_bwf ty o → ssorted (map_entries o) ∧ Forall (λ e, keyed ty e.1 = true) (map_entries o).
Proof.
  destruct o as [t|]; [|by repeat constructor]. intros Hw. by destruct (bwf_facts _ _ Hw) as (_ & ? & ?).
Qed.

Lemma sorted_set_law ty fuel key value o :
  keyed ty key = true → map_bwf ty o → (map_height o ≤ fuel)%nat →
  let t' := sorted_set fuel key value o in
  bwf ty t' ∧ tentries t' = put key value (map_entries o) ∧ (height t' ≤ S (map_height o))%nat.
Proof.
  intros Hkey Hw Hh. destruct o as [t|]; cbn [sorted_set map_entries map_height map_bwf] in *.
  - pose proof (bset_law ty fuel key value t (height t) Hkey Hw ltac:(lia) Hh) as Hr.
    destruct (hset fuel key value t) as [t'|l sep r]; cbn [join result_ok] in *.
    + destruct Hr as (? & ? & ?). splits; [done|done|lia].
    + destruct Hr as (Hwl & Hwr & Hks & E & Hl & Hr & Hhl & Hhr). splits.
      * constructor; [by unfold B; cbn; lia|by constructor| |by repeat constructor].
        cbn [separated]. splits; [done| |done]. unfold run. cbn. by rewrite app_nil_r.
      * rewrite <- E. cbn [tentries fmap list_fmap concat]. by rewrite app_nil_r.
      * apply height_inner. by repeat constructor.
  - splits; [|done|done]. constructor; [done|unfold B; cbn; lia|by repeat constructor|by constructor].
Qed.

Lemma sorted_remove_law ty fuel key o :
  keyed ty key = true → map_bwf ty o → (map_height o ≤ fuel)%nat →
  map_bwf ty (sorted_remove fuel key o) ∧
  map_entries (sorted_remove fuel key o) = del key (map_entries o) ∧
  (map_height (sorted_remove fuel key o) ≤ map_height o)%nat.
Proof.
  intros Hkey Hw Hh. destruct o as [t|]; cbn [sorted_remove map_entries map_height map_bwf] in *; [|done].
  pose proof (bremove_law ty fuel key t (height t) Hkey Hw ltac:(lia) Hh) as Hr.
  destruct (hremove fuel key t) as [[t'|]|]; cbn [removed_ok] in Hr.
  - destruct Hr as (_ & ? & ? & ?). by splits.
  - destruct Hr as (_ & ->). cbn. splits; [done|done|lia].
  - by splits.
Qed.

Section spec.
Context `{Laws : BigIntCodecLaws} {St : Type} `{TxLaws St}.
Context (key_ty val_ty : Ty) (U : list bytes).
Context (HU : no_collision NODE_NS U = true).

Local Abbreviation hash := (thash NODE_NS enc).
Local Abbreviation stored := (stored NODE_NS enc (node_ok key_ty val_ty) U).
Local Abbreviation in_play := (in_play NODE_NS enc (node_ok key_ty val_ty) U).
Local Abbreviation store_ok := (store_ok NODE_NS U).
Local Abbreviation extends := (extends NODE_NS U).
Local Abbreviation returns := (returns NODE_NS U).
Local Abbreviation keyed key := (keyed key_ty key = true).

(** The sorted map [o] is stored under [root]. *)
Definition sorts (s : St) (root : Z) (o : SortedMap) : Prop :=
  match o with
  | None => root = EMPTY
  | Some t => root = hash t ∧ stored (view s) t ∧ bwf key_ty t
  end.

Lemma sorts_extends s s' root o : extends s s' → sorts s root o → sorts s' root o.
Proof.
  intros He. destruct o as [t|]; [|done]. intros (E & Hst & Hw). refine (conj E (conj _ Hw)).
  by eapply stored_extends.
Qed.

Lemma sorts_bwf s root o : sorts s root o → map_bwf key_ty o.
Proof. destruct o; [by intros (_ & _ & ?)|done]. Qed.

Lemma sorts_nonempty s root t : sorts s root (Some t) → (root =? EMPTY) = false.
Proof. intros (-> & Hst & _). apply Z.eqb_neq. by eapply stored_nonempty. Qed.

(** [get] answers the value of the key's entry, or nothing. *)
Theorem pbtree_get_spec s root o key fuel :
  store_ok s → sorts s root o → keyed key → (map_height o ≤ fuel)%nat →
  returns (get key_ty val_ty fuel root key) s
    (λ r s', r = find_entry key (map_entries o) ∧ sorts s' root o).
Proof.
  intros Hs Hd Hk Hf. eapply returns_mono with (Q := λ r _, r = find_entry key (map_entries o)).
  - unfold get. destruct o as [t|].
    + rewrite (sorts_nonempty _ _ _ Hd). destruct Hd as (-> & Hst & Hw). by apply bt_get_at_ok.
    + rewrite Hd. by apply returns_ret.
  - intros r s' He ->. split; [done|by eapply sorts_extends].
Qed.

Lemma sorted_set_made s root o key value fuel :
  store_ok s → sorts s root o → keyed key → (map_height o ≤ fuel)%nat →
  in_play (sorted_set fuel key value o) →
  returns (set key_ty val_ty fuel root key value) s
    (bt_makes key_ty val_ty U (sorted_set fuel key value o)).
Proof.
  intros Hs Hd Hk Hf Hp.
  unfold set. destruct o as [t|].
  + rewrite (sorts_nonempty _ _ _ Hd). destruct Hd as (-> & Hst & Hw). cbn [sorted_set] in *.
    eapply returns_bind.
    { apply set_inner_ok; [done|done|done|done|done|done|by apply res_in_play_join]. }
    intros r s1 He Hr.
    destruct (hset fuel key value t) as [t'|l sep rt], r as [h|lh sep' rh]; try done; cbn [rmakes join] in *.
    * destruct Hr as [-> Ht']. apply returns_ret; [by eapply extends_ok|]. by split.
    * destruct Hr as ([-> Hl] & [-> Hr] & ->).
      apply (bt_write_inner key_ty val_ty U HU [sep] [l; rt]); [by eapply extends_ok|done|].
      by repeat constructor.
  + rewrite Hd. by apply bt_write_leaf.
Qed.

(** C12: [set] answers a root whose entries are the old ones with the new entry
    inserted in order, or replacing the one of its key: the new map binds the
    key and keeps every other binding, its height grows by at most one, and the
    old root still denotes the old map. *)
Theorem pbtree_set_spec s root o key value fuel :
  store_ok s → sorts s root o → keyed key → (map_height o ≤ fuel)%nat →
  in_play (sorted_set fuel key value o) →
  returns (set key_ty val_ty fuel root key value) s
    (λ r s', sorts s' root o ∧ ∃ o', sorts s' r o' ∧
       map_entries o' = put key value (map_entries o) ∧
       (map_height o' ≤ S (map_height o))%nat ∧
       ∀ k, find_entry k (map_entries o')
            = if decide (k = key) then Some value else find_entry k (map_entries o)).
Proof.
  intros Hs Hd Hk Hf Hp.
  destruct (sorted_set_law key_ty fuel key value o Hk (sorts_bwf _ _ _ Hd) Hf) as (Hw' & Ee & Hh').
  destruct (map_bwf_facts _ _ (sorts_bwf _ _ _ Hd)) as [_ Hkeys].
  eapply returns_mono; [by apply sorted_set_made|].
  intros r s' He [-> Hst]. split; [by eapply sorts_extends|].
  exists (Some (sorted_set fuel key value o)). cbn [map_entries map_height]. splits; try done.
    intros k. rewrite Ee. by apply (find_put key_ty).
Qed.

(** C13: [remove] answers a root whose entries are the old ones without the key's:
    the map no longer binds the key, keeps every other binding and does not
    grow; removing an absent key answers the same root; the old root still
    denotes the old map. *)
Theorem pbtree_remove_spec s root o key fuel :
  store_ok s → sorts s root o → keyed key → (map_height o ≤ fuel)%nat →
  (match sorted_remove fuel key o with Some t => in_play t | None => True end) →
  returns (remove key_ty val_ty fuel root key) s
    (λ r s', sorts s' root o ∧
       (find_entry key (map_entries o) = None → r = root) ∧
       ∃ o', sorts s' r o' ∧ map_entries o' = del key (map_entries o) ∧
         (map_height o' ≤ map_height o)%nat ∧
         ∀ k, find_entry k (map_entries o')
              = if decide (k = key) then None else find_entry k (map_entries o)).
Proof.
  intros Hs Hd Hk Hf Hp.
  destruct (sorted_remove_law key_ty fuel key o Hk (sorts_bwf _ _ _ Hd) Hf) as (Hw' & Ee & Hh').
  destruct (map_bwf_facts _ _ (sorts_bwf _ _ _ Hd)) as [_ Hkeys].
  eapply returns_mono with (Q := λ r s', sorts s' r (sorted_remove fuel key o) ∧
    (find_entry key (map_entries o) = None → r = root)).
  - unfold remove. destruct o as [t|].
    2: { rewrite Hd. by apply returns_ret. }
    rewrite (sorts_nonempty _ _ _ Hd). pose proof Hd as (E & Hst & Hw). subst root.
    cbn [sorted_remove map_entries map_height] in *.
    pose proof (bremove_law key_ty fuel key t (height t) Hk Hw ltac:(lia) Hf) as Hr.
    eapply returns_bind.
    { apply remove_inner_ok; [done|done|done|done|done|done|by eapply stored_in_play|].
      by destruct (hremove fuel key t) as [[?|]|]. }
    intros r s1 He Hm.
    assert (Habs : find_entry key (tentries t) = None → del key (tentries t) = tentries t).
    { intros Hn. apply find_entry_none in Hn.
      destruct (bwf_facts _ _ Hw) as (_ & Hsort & Hkk).
      destruct (sorted_cut key_ty key Hk _ Hsort Hkk) as (m & Em & Hcase). unfold del.
      destruct Hcase as [->|[w ->]]; [done|]. destruct Hn. rewrite Em, !fmap_app.
      apply elem_of_app. right. left. }
    destruct (hremove fuel key t) as [[t'|]|], r as [|h|]; try done;
      cbn [del_makes removed_ok] in *.
    + destruct Hm as [-> Ht']. destruct Hr as (Hn & Hwt & _).
      apply returns_ret; [by eapply extends_ok|]. split; [done|]. intros Hf'. by destruct Hn; apply Habs.
    + destruct Hr as [Hn _]. apply returns_ret; [by eapply extends_ok|]. split; [done|].
      intros Hf'. by destruct Hn; apply Habs.
    + apply returns_ret; [by eapply extends_ok|]. split; [|done]. by eapply sorts_extends.
  - intros r s' He [Hd' Habs]. split; [by eapply sorts_extends|]. split; [done|].
    exists (sorted_remove fuel key o). splits; try done.
    intros k. rewrite Ee. by apply (find_del key_ty).
Qed.

(** [entries] answers the entries in strictly ascending key order, and
    [range] the values of those between its bounds, both included. *)
Theorem pbtree_range_spec s root o lo hi fuel :
  store_ok s → sorts s root o → keyed lo → keyed hi → (map_height o ≤ fuel)%nat →
  returns (es ← entries key_ty val_ty fuel root; vs ← range key_ty val_ty fuel root lo hi; mret (es, vs)) s
    (λ r _, r.1 = map_entries o ∧ ssorted r.1 ∧ r.2 = snd <$> filter (in_range lo hi) r.1).
Proof.
  intros Hs Hd Hlo Hhi Hf. destruct (map_bwf_facts _ _ (sorts_bwf _ _ _ Hd)) as [Hsort _].
  eapply returns_bind with (Q := λ r _, r = map_entries o).
  { unfold entries. destruct o as [t|].
    - rewrite (sorts_nonempty _ _ _ Hd). destruct Hd as (-> & Hst & Hw). by apply bt_collect_ok.
    - rewrite Hd. by apply returns_ret. }
  intros es s1 He ->. pose proof (sorts_extends _ _ _ _ He Hd) as Hd1.
  eapply returns_bind with (Q := λ r _, r = snd <$> filter (in_range lo hi) (map_entries o)).
  { unfold range. destruct o as [t|].
    - rewrite (sorts_nonempty _ _ _ Hd1). destruct Hd1 as (-> & Hst & Hw).
      apply bt_range_at_ok; [done|done|done|done|done|by eapply extends_ok|done].
    - rewrite Hd1. apply returns_ret; [by eapply extends_ok|done]. }
  intros vs s2 He2 ->. by apply returns_ret; [eapply extends_ok|].
Qed.

Lemma first_greater_ok s root o target fuel :
  store_ok s → sorts s root o → (map_height o ≤ fuel)%nat →
  (match target with Some k => keyed k | None => True end) →
  returns (first_greater_than key_ty val_ty fuel root target) s
    (λ r s', r = head (above target (map_entries o)) ∧ sorts s' root o).
Proof.
  intros Hs Hd Hf Hk.
  eapply returns_mono with (Q := λ r _, r = head (above target (map_entries o))).
  - unfold first_greater_than. destruct o as [t|].
    + rewrite (sorts_nonempty _ _ _ Hd). destruct Hd as (-> & Hst & Hw). by apply bt_first_greater_ok.
    + rewrite Hd. apply returns_ret; [done|]. by destruct target.
  - intros r s' He ->. split; [done|by eapply sorts_extends].
Qed.

(** The stable cursor: re-seek past the last key from the root. *)
Fixpoint cursor_walk (steps fuel : nat) (root : Z) (last : option Value) :
    SM St (list (Value * Value)) :=
  match steps with
  | O => mret []
  | S n =>
      r ← first_greater_than key_ty val_ty fuel root last;
      match r with
      | None => mret []
      | Some e => es ← cursor_walk n fuel root (Some e.1); mret (e :: es)
      end
  end.

(** What is left after the head of what is left. *)
Lemma above_next target es e rest :
  ssorted es → above target es = e :: rest → above (Some e.1) es = rest.
Proof.
  intros Hs E.
  assert (∃ pre, es = pre ++ e :: rest) as [pre ->].
  { destruct target as [t|]; [|by exists []]. cbn [above] in E.
    clear -Hs E. induction Hs as [|x es Hs IH Hall]; [done|].
    unfold upper in E. rewrite filter_cons in E. case_decide as Hx.
    - injection E as -> <-. exists []. cbn. f_equal.
      assert (Hg : all_gt t es) by (eapply Forall_impl; [exact Hall|]; intros y Hy; by eapply klt_trans).
      symmetry. by apply (upper_gt t es Hg).
    - destruct (IH E) as [pre ->]. by exists (x :: pre). }
  apply StronglySorted_app in Hs as (Hc & Hs1 & Hs2). apply StronglySorted_inv in Hs2 as [_ Hs2].
  cbn [above]. unfold upper. rewrite filter_app, filter_cons, decide_False by apply klt_irrefl.
  assert (E1 : filter (λ e0, klt e.1 e0.1) pre = []).
  { apply filter_none, Forall_forall. intros x Hx Hgt.
    by eapply klt_irrefl, klt_trans; [|apply (Hc x e Hx); left]. }
  rewrite E1. by apply (upper_gt e.1 rest).
Qed.

(** A cursor that re-seeks the first entry above the last key enumerates the
    map: after as many steps as there are entries it has answered all of them,
    in ascending order. *)
Theorem pbtree_cursor_spec s root o fuel steps :
  store_ok s → sorts s root o → (map_height o ≤ fuel)%nat →
  (length (map_entries o) ≤ steps)%nat →
  returns (cursor_walk steps fuel root None) s (λ r _, r = map_entries o).
Proof.
  intros Hs Hd Hf. destruct (map_bwf_facts _ _ (sorts_bwf _ _ _ Hd)) as [Hsort Hkeys].
  change (map_entries o) with (above None (map_entries o)).
  assert (Hgen : ∀ last, (match last with Some k => keyed k | None => True end) →
    ∀ s, store_ok s → sorts s root o → (length (above last (map_entries o)) ≤ steps)%nat →
    returns (cursor_walk steps fuel root last) s (λ r _, r = above last (map_entries o))).
  { clear s Hs Hd. induction steps as [|n IH]; intros last Hl s Hs Hd Hn; cbn [cursor_walk].
    { apply returns_ret; [done|]. by destruct (above last (map_entries o)); [|cbn in Hn; lia]. }
    eapply returns_bind; [by apply first_greater_ok|]. intros r s1 He [-> Hd1].
    destruct (above last (map_entries o)) as [|e rest] eqn:Ea; cbn [head].
    { by apply returns_ret; [eapply extends_ok|]. }
    pose proof (above_next last _ e rest Hsort Ea) as En.
    assert (Hke : keyed e.1).
    { assert (e ∈ map_entries o) as Hin.
      { assert (Hin' : e ∈ above last (map_entries o)) by (rewrite Ea; left).
        destruct last; [by apply list_elem_of_filter in Hin' as [_ ?]|done]. }
      rewrite Forall_forall in Hkeys. by apply Hkeys. }
    eapply returns_bind.
    { apply (IH (Some e.1)); [done|by eapply extends_ok|done|]. rewrite En. cbn in Hn. lia. }
    intros es s2 He2 ->. rewrite En. by apply returns_ret; [eapply extends_ok|]. }
  apply (Hgen None I s Hs Hd).
Qed.
End spec.
