(* ===== verification/TreeWitness.v ===== *)
(** Concrete instances of the theorems on vectors, maps and sorted maps: a
    transaction over the empty backend, in which each is built and read. *)
From S2P Require Import Prelude Bytes Hashing Values Serialize SerializeFacts Kv Merkle.
From S2P Require Import NodeCodec Pvec PvecFacts PvecMerge Tx TxFacts.
Import Pvec.

#[local] Existing Instance TwosComplement.codec.
#[local] Existing Instance TwosComplement.laws.

Definition empty_tx : Tx := new (as_kv mkEmptyKv).

Lemma empty_settled : settled empty_tx.
Proof. by repeat split. Qed.

(** Nothing is stored in the empty transaction. *)
Lemma empty_store_ok ns U : store_ok ns U empty_tx.
Proof. split; [apply empty_settled|]. intros b _. by right. Qed.

Definition three : list Value := [VU64 10; VU64 20; VU64 30].
Definition three' : list Value := [VU64 10; VU64 99; VU64 30].
Definition three'' : list Value := [VU64 10; VU64 20; VU64 77].
Definition merged_three : list Value := [VU64 10; VU64 99; VU64 77].

(** The node encodings of every vector used here. *)
Definition encodings : list bytes :=
  concat ((λ l, nodes NODE_NS enc (vtrie 0 l)) <$>
    [[]; take 1 three; take 2 three; three; three'; three''; merged_three]).

Lemma encodings_ok : no_collision NODE_NS encodings = true.
Proof. vm_compute. reflexivity. Qed.

Lemma elem_dec (b : bytes) (l : list bytes) : bool_decide (b ∈ l) = true → b ∈ l.
Proof. apply bool_decide_eq_true_1. Qed.

Lemma covers_dec l :
  forallb (λ v, cellable TU64 v) l
    && forallb (λ b, bool_decide (b ∈ encodings)) (nodes NODE_NS enc (vtrie 0 l)) = true →
  covers TU64 encodings 0 l.
Proof.
  intros [Hc Hn]%andb_prop. split; [by apply forallb_Forall|].
  intros b Hb. apply list_elem_of_In in Hb.
  eapply forallb_forall in Hn; [|exact Hb]. by apply bool_decide_eq_true in Hn.
Qed.

Lemma covers_three k d :
  (k ≤ 3)%nat → (d ≤ depth_nat 3)%nat → covers TU64 encodings d (take k three).
Proof.
  intros Hk Hd. replace (depth_nat 3) with 0%nat in Hd by (vm_compute; reflexivity).
  replace d with 0%nat by lia.
  destruct k as [|[|[|[|k]]]]; [..|lia]; apply covers_dec; vm_compute; reflexivity.
Qed.

(** A transaction in which [three] was pushed. *)
Lemma three_pushed :
  ∃ s root, store_ok NODE_NS encodings s ∧ rep TU64 encodings s root 3 three.
Proof.
  destruct (push_all_ok TU64 encodings encodings_ok three empty_tx EMPTY 0 [])
    as ([root len] & s & _ & He & Hr).
  - apply empty_store_ok.
  - apply rep_empty.
  - done.
  - intros k Hk d Hd. by apply covers_three.
  - cbn [fst snd app] in Hr. pose proof Hr as [E _]. subst len.
    exists s, root. split; [by eapply extends_ok|exact Hr].
Qed.

Lemma pvec_get_spec_witness :
  ∃ s root, rep TU64 encodings s root 3 three ∧
    returns NODE_NS encodings (get TU64 root 3 1 Span_default) s (λ r _, r = VU64 20) ∧
    get TU64 root 3 7 Span_default s
      = (Err (pvec_error (out_of_bounds 7 3) Span_default), s).
Proof.
  destruct three_pushed as (s & root & Hs & Hr). exists s, root. split; [exact Hr|].
  split.
  - exact (pvec_get_spec TU64 encodings encodings_ok s root 3 three 1 Span_default Hs Hr ltac:(lia)).
  - exact (pvec_get_spec TU64 encodings encodings_ok s root 3 three 7 Span_default Hs Hr ltac:(lia)).
Defined.

Lemma pvec_set_spec_witness :
  ∃ s root, rep TU64 encodings s root 3 three ∧
    returns NODE_NS encodings (set TU64 root 3 1 (VU64 99) Span_default) s
      (λ r s', rep TU64 encodings s' r 3 three' ∧ rep TU64 encodings s' root 3 three).
Proof.
  destruct three_pushed as (s & root & Hs & Hr). exists s, root. split; [exact Hr|].
  assert (Hc : covers TU64 encodings (depth_nat (length three)) (set_z three 1 (VU64 99)))
    by (apply covers_dec; vm_compute; reflexivity).
  exact (pvec_set_spec TU64 encodings encodings_ok s root 3 three 1 (VU64 99) Span_default
    Hs Hr ltac:(lia) Hc).
Defined.

Lemma pvec_push_spec_witness :
  returns NODE_NS encodings (push TU64 EMPTY 0 (VU64 10)) empty_tx
    (λ r s', r.2 = 0 + 1 ∧ rep TU64 encodings s' r.1 r.2 [VU64 10] ∧
             rep TU64 encodings s' EMPTY 0 []).
Proof.
  exact (pvec_push_spec TU64 encodings encodings_ok empty_tx EMPTY 0 [] (VU64 10)
    (empty_store_ok _ _) (rep_empty _ _ _) ltac:(reflexivity)
    (covers_dec [] ltac:(vm_compute; reflexivity))
    (covers_dec [VU64 10] ltac:(vm_compute; reflexivity))).
Defined.

Lemma pvec_collect_pushes_witness :
  returns NODE_NS encodings
    ('(root, len) ← push_all TU64 EMPTY 0 three; to_vec TU64 root len) empty_tx
    (λ r _, r = three).
Proof.
  apply (pvec_collect_pushes TU64 encodings encodings_ok empty_tx three).
  - apply empty_store_ok.
  - vm_compute. discriminate.
  - intros k Hk d Hd. by apply covers_three.
Defined.


(** ** A backend holding three versions of a vector *)
Definition version_root (l : list Value) : Z := thash NODE_NS enc (vtrie 0 l).
Definition versions_kv : Kv := as_kv
  (list_to_map ((λ l, (version_root l, ser (VBytes (tbytes NODE_NS enc (vtrie 0 l))))) <$>
     [three; three'; three'']) : InMemoryKv).

Lemma version_rep l :
  l ∈ [three; three'; three''] → rep_at TU64 encodings (kv_view versions_kv) (version_root l) 3 l.
Proof.
  intros Hl. assert (Hcase : l = three ∨ l = three' ∨ l = three'')
    by (rewrite !elem_of_cons in Hl; by destruct Hl as [?|[?|[?|Hl%elem_of_nil]]]; auto).
  assert (Hst : Merkle.stored NODE_NS enc (node_ok TU64) encodings (kv_view versions_kv) (vtrie 0 l)).
  { constructor; [| |by destruct Hcase as [->|[->| ->]]; vm_compute|constructor].
    - unfold node_ok. splits; [by destruct Hcase as [->|[->| ->]]; vm_compute; lia| |done].
      apply forallb_Forall. by destruct Hcase as [->|[->| ->]]; vm_compute.
    - destruct Hcase as [->|[->| ->]]; (apply elem_dec; vm_compute; reflexivity). }
  assert (Hlen : length l = 3%nat) by (by destruct Hcase as [->|[->| ->]]).
  split; [unfold zlen; by rewrite Hlen|]. right. rewrite Hlen.
  replace (depth_nat 3) with 0%nat by (vm_compute; reflexivity).
  splits; [by destruct l|done|exact Hst].
Qed.


(** Both sides changed index 0 differently. *)
Lemma pvec_merge_elements_spec_witness :
  merge_elements [VU64 1] [VU64 2] [VU64 3] = None.
Proof.
  apply (proj2 (pvec_merge_elements_spec [VU64 1] [VU64 2] [VU64 3] eq_refl eq_refl)).
  exists 0%nat, (VU64 1), (VU64 2), (VU64 3). by splits.
Defined.

(** * Concrete instances of the map theorems over the empty transaction, and the
    insertion that loses keys. *)
From S2P Require Import Prelude Bytes Hashing Values Serialize SerializeFacts Kv Merkle.
From S2P Require Import NodeCodec PmapTree Pmap PmapFacts PmapSpec.
From S2P Require Import Tx TxFacts PmapWalk.
Import Pmap.

#[local] Existing Instance TwosComplement.codec.
#[local] Existing Instance TwosComplement.laws.

(** ** Deciding that a tree is in play *)
Definition node_okb (l : Label) (hs : list Z) : bool :=
  match l with
  | Inner bm => (0 <=? bm) && (bm <? 2 ^ 32) && (count_ones bm =? zlen hs)
  | Leaf es => (zlen es <? 2 ^ 32)
      && forallb (λ e, cellable TU64 e.1 && cellable TU64 e.2) es && bool_decide (hs = [])
  end.

Fixpoint in_playb (U : list bytes) (t : mtree Label) : bool :=
  match t with
  | MNode l ts =>
      let hs := thash NODE_NS enc <$> ts in
      node_okb l hs && bool_decide (enc l hs ∈ U) && forallb (in_playb U) ts
  end.

Lemma node_okb_ok l hs : node_okb l hs = true → node_ok TU64 TU64 l hs.
Proof.
  destruct l as [bm|es]; cbn [node_okb node_ok].
  - intros [[? ?]%andb_prop ?]%andb_prop. lia.
  - intros [[? He]%andb_prop ?%bool_decide_eq_true]%andb_prop. splits; [lia| |done].
    apply forallb_Forall in He. eapply Forall_impl; [exact He|].
    intros e Hb. apply andb_prop in Hb. exact Hb.
Qed.

Lemma in_playb_ok U t : in_playb U t = true → in_play NODE_NS enc (node_ok TU64 TU64) U t.
Proof.
  induction t as [l ts IH] using mtree_ind_nested. cbn [in_playb]. cbv zeta.
  intros [[Hn Hin%bool_decide_eq_true]%andb_prop Hts]%andb_prop.
  constructor; [by apply node_okb_ok|done|].
  rewrite forallb_forall in Hts. rewrite Forall_forall in *. intros c Hc.
  apply IH; [done|]. by apply Hts, list_elem_of_In.
Qed.

(** ** A history of four updates *)
Definition updates : list Update :=
  [USet (VU64 1) (VU64 10); USet (VU64 2) (VU64 20); USet (VU64 1) (VU64 11); URemove (VU64 2)].

Definition map_after (n : nat) : Map := foldl update_map None (take n updates).

Definition map_encodings : list bytes :=
  remove_dups (concat ((λ n, match map_after n with
                             | Some t => nodes NODE_NS enc t
                             | None => []
                             end) <$> seq 0 5)).

Lemma map_encodings_ok : no_collision NODE_NS map_encodings = true.
Proof. vm_compute. reflexivity. Qed.

Lemma in_play_dec (o : Map) :
  match o with Some t => in_playb map_encodings t | None => true end = true →
  oin_play TU64 TU64 map_encodings o.
Proof. destruct o; [apply in_playb_ok|done]. Qed.

Lemma updates_ok : history_ok TU64 TU64 map_encodings updates None.
Proof.
  unfold updates. cbn [history_ok]. unfold update_ok. splits;
    match goal with
    | |- True => exact I
    | |- oin_play _ _ _ _ => apply in_play_dec; vm_compute; reflexivity
    | |- _ = true => vm_compute; reflexivity
    end.
Qed.

Lemma take_history us o n :
  history_ok TU64 TU64 map_encodings us o → history_ok TU64 TU64 map_encodings (take n us) o.
Proof.
  revert us o. induction n as [|n IH]; intros [|u us] o Hh; try done.
  destruct Hh as [Hu Hh]. split; [done|]. by apply IH.
Qed.

(** A transaction in which the first [n] updates were replayed. *)
Lemma map_stored n :
  ∃ s root, store_ok NODE_NS map_encodings s ∧
    denotes TU64 TU64 map_encodings s root (map_after n).
Proof.
  destruct (replay_ok TU64 TU64 map_encodings map_encodings_ok (take n updates) empty_tx EMPTY
    None (VU64 1)) as (root & s & _ & He & Hd & _).
  - apply empty_store_ok.
  - apply denotes_empty.
  - apply take_history, updates_ok.
  - exists s, root. split; [by eapply extends_ok|exact Hd].
Qed.

Lemma pmap_get_spec_witness :
  ∃ s root, denotes TU64 TU64 map_encodings s root (map_after 2) ∧
    returns NODE_NS map_encodings (get TU64 TU64 root (VU64 2)) s
      (λ r s', r = Some (VU64 20) ∧ denotes TU64 TU64 map_encodings s' root (map_after 2)).
Proof.
  destruct (map_stored 2) as (s & root & Hs & Hd). exists s, root. split; [exact Hd|].
  exact (pmap_get_spec TU64 TU64 map_encodings map_encodings_ok s root (map_after 2) (VU64 2)
    Hs Hd ltac:(vm_compute; reflexivity)).
Defined.


Lemma pmap_remove_spec_witness :
  ∃ s root, returns NODE_NS map_encodings (remove TU64 TU64 root (VU64 2)) s
    (λ r s', denotes TU64 TU64 map_encodings s' root (map_after 3) ∧
       r.2 = bool_decide (is_Some (lookup_key (VU64 2) (map_after 3))) ∧
       (r.2 = false → r.1 = root) ∧
       ∃ o', denotes TU64 TU64 map_encodings s' r.1 o' ∧
         ∀ k, lookup_key k o' = if decide (k = VU64 2) then None
                                else lookup_key k (map_after 3)).
Proof.
  destruct (map_stored 3) as (s & root & Hs & Hd). exists s, root.
  assert (Er : map_remove (VU64 2) (map_after 3) = Some (map_after 4)) by (vm_compute; reflexivity).
  assert (Hp : rin_play TU64 TU64 map_encodings (map_remove (VU64 2) (map_after 3)))
    by (rewrite Er; apply in_play_dec; vm_compute; reflexivity).
  exact (pmap_remove_spec TU64 TU64 map_encodings map_encodings_ok s root (map_after 3) (VU64 2)
    Hs Hd ltac:(vm_compute; reflexivity) Hp).
Defined.

Lemma pmap_entries_spec_witness :
  ∃ s root, returns NODE_NS map_encodings (entries TU64 TU64 root) s
    (λ r _, NoDup r.*1 ∧ ∀ k v, (k, v) ∈ r ↔ lookup_key k (map_after 3) = Some v).
Proof.
  destruct (map_stored 3) as (s & root & Hs & Hd). exists s, root.
  exact (pmap_entries_spec TU64 TU64 map_encodings map_encodings_ok s root (map_after 3) Hs Hd).
Defined.

Lemma pmap_history_witness :
  returns NODE_NS map_encodings
    (root ← replay TU64 TU64 updates EMPTY; get TU64 TU64 root (VU64 1)) empty_tx
    (λ r _, r = foldl (update_binding (VU64 1)) None updates).
Proof.
  exact (pmap_history TU64 TU64 map_encodings map_encodings_ok updates (VU64 1) empty_tx
    (empty_store_ok _ _) updates_ok ltac:(vm_compute; reflexivity)).
Defined.

Lemma lazy_get_eager_witness :
  ∃ s root, denotes TU64 TU64 map_encodings s root (map_after 3) ∧
    ∃ t', (v ← begin_pmap_get root (VU64 1) TU64 TU64; force v) s = (Ok (VU64 11), t') ∧
      settled t' ∧ ∀ k, tx_view t' k = tx_view s k.
Proof.
  destruct (map_stored 3) as (s & root & Hs & Hd). exists s, root. split; [exact Hd|].
  exact (lazy_get_eager TU64 TU64 map_encodings map_encodings_ok s root (map_after 3) (VU64 1)
    (proj1 Hs) Hd ltac:(vm_compute; reflexivity) eq_refl).
Defined.

(** ** Keys that share a slot *)

(** Two keys inserted into the empty map, then looked up. *)
Definition insert_two (k1 k2 : Value) : SM Tx (option Value * option Value) :=
  root1 ← set TU64 TU64 EMPTY k1 (VU64 10);
  root2 ← set TU64 TU64 root1 k2 (VU64 20);
  v1 ← get TU64 TU64 root2 k1;
  v2 ← get TU64 TU64 root2 k2;
  mret (v1, v2).

(** When a split finds every entry in one slot it places the node of the
    next level at this one: the keys 0 and 32, which share the slot of level 0,
    are both lost by the second insertion. *)
Theorem pmap_split_loses_keys :
  (insert_two (VU64 0) (VU64 32) empty_tx).1 = Ok (None, None) ∧
  (insert_two (VU64 0) (VU64 1) empty_tx).1 = Ok (Some (VU64 10), Some (VU64 20)).
Proof. split; vm_compute; reflexivity. Qed.

(** * Concrete instances of the sorted-map theorems over the empty transaction:
    a map of [u64] keys built out of order. *)
From S2P Require Import Prelude Bytes Hashing Values Serialize SerializeFacts Kv Merkle NodeCodec.
From S2P Require Import PmapNode PmapTree Pbtree PbtreeTree PbtreeFacts PbtreeSpec.
From S2P Require Import Tx TxFacts.
Import Pbtree.

#[local] Existing Instance TwosComplement.codec.
#[local] Existing Instance TwosComplement.laws.

Definition sorted_node_okb (l : Label) (hs : list Z) : bool :=
  match l with
  | Inner ks => (zlen ks <? 2 ^ 32) && forallb (cellable TU64) ks
      && bool_decide (length hs = S (length ks))
  | Leaf es => (zlen es <? 2 ^ 32)
      && forallb (λ e, cellable TU64 e.1 && cellable TU64 e.2) es && bool_decide (hs = [])
  end.

Fixpoint sorted_in_playb (U : list bytes) (t : mtree Label) : bool :=
  match t with
  | MNode l ts =>
      let hs := thash NODE_NS enc <$> ts in
      sorted_node_okb l hs && bool_decide (enc l hs ∈ U) && forallb (sorted_in_playb U) ts
  end.

Lemma sorted_node_okb_ok l hs : sorted_node_okb l hs = true → node_ok TU64 TU64 l hs.
Proof.
  destruct l as [ks|es]; cbn [sorted_node_okb node_ok].
  - intros [[? Hk]%andb_prop ?%bool_decide_eq_true]%andb_prop. splits; [lia| |done].
    by apply forallb_Forall in Hk.
  - intros [[? He]%andb_prop ?%bool_decide_eq_true]%andb_prop. splits; [lia| |done].
    apply forallb_Forall in He. eapply Forall_impl; [exact He|].
    intros e Hb. apply andb_prop in Hb. exact Hb.
Qed.

Lemma sorted_in_playb_ok U t :
  sorted_in_playb U t = true → in_play NODE_NS enc (node_ok TU64 TU64) U t.
Proof.
  induction t as [l ts IH] using mtree_ind_nested. cbn [sorted_in_playb]. cbv zeta.
  intros [[Hn Hin%bool_decide_eq_true]%andb_prop Hts]%andb_prop.
  constructor; [by apply sorted_node_okb_ok|done|].
  rewrite forallb_forall in Hts. rewrite Forall_forall in *. intros c Hc.
  apply IH; [done|]. by apply Hts, list_elem_of_In.
Qed.

(** Keys 5, 1 and 3, inserted in this order. *)
Definition HEIGHT : nat := 3.
Definition sorted_inserts : list (Value * Value) :=
  [(VU64 5, VU64 50); (VU64 1, VU64 10); (VU64 3, VU64 30)].
Definition sorted_after (n : nat) : SortedMap :=
  foldl (λ o e, Some (sorted_set HEIGHT e.1 e.2 o)) None (take n sorted_inserts).
Definition sorted_removed : SortedMap := sorted_remove HEIGHT (VU64 1) (sorted_after 3).

Definition sorted_encodings : list bytes :=
  remove_dups (concat ((λ o, match o with
                             | Some t => nodes NODE_NS enc t
                             | None => []
                             end) <$> [sorted_after 1; sorted_after 2; sorted_after 3; sorted_removed])).

Lemma sorted_encodings_ok : no_collision NODE_NS sorted_encodings = true.
Proof. vm_compute. reflexivity. Qed.

Local Abbreviation srt := (sorts TU64 TU64 sorted_encodings).

(** One insertion between two recorded versions. *)
Lemma sorted_step s root n e :
  store_ok NODE_NS sorted_encodings s → srt s root (sorted_after n) →
  keyed TU64 e.1 = true → (map_height (sorted_after n) ≤ HEIGHT)%nat →
  bwf TU64 (sorted_set HEIGHT e.1 e.2 (sorted_after n)) →
  sorted_in_playb sorted_encodings (sorted_set HEIGHT e.1 e.2 (sorted_after n)) = true →
  Some (sorted_set HEIGHT e.1 e.2 (sorted_after n)) = sorted_after (S n) →
  ∃ s' root', store_ok NODE_NS sorted_encodings s' ∧ srt s' root' (sorted_after (S n)).
Proof.
  intros Hs Hd Hk Hh Hw Hp E.
  destruct (sorted_set_made TU64 TU64 sorted_encodings sorted_encodings_ok s root (sorted_after n)
    e.1 e.2 HEIGHT Hs Hd Hk Hh (sorted_in_playb_ok _ _ Hp)) as (r & s' & _ & He & [-> Hst]).
  rewrite <- E. exists s', (thash NODE_NS enc (sorted_set HEIGHT e.1 e.2 (sorted_after n))).
  split; [by eapply extends_ok|]. cbn [sorts]. by splits.
Qed.

Lemma sorted_stored :
  ∃ s root, store_ok NODE_NS sorted_encodings s ∧ srt s root (sorted_after 3).
Proof.
  assert (Hw : ∀ n, map_bwf TU64 (sorted_after n) ∧ (map_height (sorted_after n) ≤ HEIGHT)%nat →
    ∀ e, keyed TU64 e.1 = true → bwf TU64 (sorted_set HEIGHT e.1 e.2 (sorted_after n))).
  { intros n [Hn Hh] e He. by apply sorted_set_law. }
  assert (H0 : bwf TU64 (sorted_set HEIGHT (VU64 5) (VU64 50) (sorted_after 0)))
    by (refine (Hw 0%nat _ (VU64 5, VU64 50) eq_refl); split; [done|vm_compute; lia]).
  destruct (sorted_step empty_tx EMPTY 0 (VU64 5, VU64 50)) as (s1 & r1 & Hs1 & Hd1);
    [apply empty_store_ok|done|done|vm_compute; lia|exact H0|vm_compute; reflexivity|done|].
  assert (H1 : bwf TU64 (sorted_set HEIGHT (VU64 1) (VU64 10) (sorted_after 1)))
    by (refine (Hw 1%nat _ (VU64 1, VU64 10) eq_refl); split; [exact H0|vm_compute; lia]).
  destruct (sorted_step s1 r1 1 (VU64 1, VU64 10)) as (s2 & r2 & Hs2 & Hd2);
    [done|done|done|vm_compute; lia|exact H1|vm_compute; reflexivity|vm_compute; reflexivity|].
  assert (H2 : bwf TU64 (sorted_set HEIGHT (VU64 3) (VU64 30) (sorted_after 2)))
    by (refine (Hw 2%nat _ (VU64 3, VU64 30) eq_refl); split; [exact H1|vm_compute; lia]).
  destruct (sorted_step s2 r2 2 (VU64 3, VU64 30)) as (s3 & r3 & Hs3 & Hd3);
    [done|done|done|vm_compute; lia|exact H2|vm_compute; reflexivity|vm_compute; reflexivity|].
  by exists s3, r3.
Qed.

Lemma sorted_height : (map_height (sorted_after 3) ≤ HEIGHT)%nat.
Proof. vm_compute. lia. Qed.

Lemma pbtree_get_spec_witness :
  ∃ s root, srt s root (sorted_after 3) ∧
    returns NODE_NS sorted_encodings (get TU64 TU64 HEIGHT root (VU64 3)) s
      (λ r s', r = Some (VU64 30) ∧ srt s' root (sorted_after 3)).
Proof.
  destruct sorted_stored as (s & root & Hs & Hd). exists s, root. split; [exact Hd|].
  exact (pbtree_get_spec TU64 TU64 sorted_encodings sorted_encodings_ok s root (sorted_after 3)
    (VU64 3) HEIGHT Hs Hd eq_refl sorted_height).
Defined.

Lemma pbtree_set_spec_witness :
  ∃ s root, returns NODE_NS sorted_encodings (set TU64 TU64 HEIGHT root (VU64 5) (VU64 50)) s
    (λ r s', srt s' root (sorted_after 3) ∧ ∃ o', srt s' r o' ∧
       map_entries o' = put (VU64 5) (VU64 50) (map_entries (sorted_after 3)) ∧
       (map_height o' ≤ S (map_height (sorted_after 3)))%nat ∧
       ∀ k, find_entry k (map_entries o')
            = if decide (k = VU64 5) then Some (VU64 50)
              else find_entry k (map_entries (sorted_after 3))).
Proof.
  destruct sorted_stored as (s & root & Hs & Hd). exists s, root.
  assert (Hp : sorted_in_playb sorted_encodings
    (sorted_set HEIGHT (VU64 5) (VU64 50) (sorted_after 3)) = true) by (vm_compute; reflexivity).
  exact (pbtree_set_spec TU64 TU64 sorted_encodings sorted_encodings_ok s root (sorted_after 3)
    (VU64 5) (VU64 50) HEIGHT Hs Hd eq_refl sorted_height (sorted_in_playb_ok _ _ Hp)).
Defined.

Lemma pbtree_remove_spec_witness :
  ∃ s root, returns NODE_NS sorted_encodings (remove TU64 TU64 HEIGHT root (VU64 1)) s
    (λ r s', srt s' root (sorted_after 3) ∧
       (find_entry (VU64 1) (map_entries (sorted_after 3)) = None → r = root) ∧
       ∃ o', srt s' r o' ∧ map_entries o' = del (VU64 1) (map_entries (sorted_after 3)) ∧
         (map_height o' ≤ map_height (sorted_after 3))%nat ∧
         ∀ k, find_entry k (map_entries o')
              = if decide (k = VU64 1) then None
                else find_entry k (map_entries (sorted_after 3))).
Proof.
  destruct sorted_stored as (s & root & Hs & Hd). exists s, root.
  assert (Hp : match sorted_removed with
               | Some t => sorted_in_playb sorted_encodings t | None => true end = true)
    by (vm_compute; reflexivity).
  assert (Hp' : match sorted_removed with
                | Some t => in_play NODE_NS enc (node_ok TU64 TU64) sorted_encodings t
                | None => True end)
    by (destruct sorted_removed; [by apply sorted_in_playb_ok|done]).
  exact (pbtree_remove_spec TU64 TU64 sorted_encodings sorted_encodings_ok s root (sorted_after 3)
    (VU64 1) HEIGHT Hs Hd eq_refl sorted_height Hp').
Defined.

Lemma pbtree_range_spec_witness :
  ∃ s root, returns NODE_NS sorted_encodings
    (es ← entries TU64 TU64 HEIGHT root; vs ← range TU64 TU64 HEIGHT root (VU64 2) (VU64 5); mret (es, vs)) s
    (λ r _, r.1 = [(VU64 1, VU64 10); (VU64 3, VU64 30); (VU64 5, VU64 50)] ∧ ssorted r.1 ∧
       r.2 = snd <$> filter (in_range (VU64 2) (VU64 5)) r.1).
Proof.
  destruct sorted_stored as (s & root & Hs & Hd). exists s, root.
  exact (pbtree_range_spec TU64 TU64 sorted_encodings sorted_encodings_ok s root (sorted_after 3)
    (VU64 2) (VU64 5) HEIGHT Hs Hd eq_refl eq_refl sorted_height).
Defined.

Lemma pbtree_cursor_spec_witness :
  ∃ s root, returns NODE_NS sorted_encodings (cursor_walk TU64 TU64 3 HEIGHT root None) s
    (λ r _, r = map_entries (sorted_after 3)).
Proof.
  destruct sorted_stored as (s & root & Hs & Hd). exists s, root.
  exact (pbtree_cursor_spec TU64 TU64 sorted_encodings sorted_encodings_ok s root (sorted_after 3)
    HEIGHT 3 Hs Hd sorted_height ltac:(vm_compute; lia)).
Defined.
