(* ===== verification/Gc.v ===== *)
(** Garbage collection of node cells: the reachability walks of
    [crates/rend/src/pmap.rs], [pvec.rs] and [pbtree.rs], and the sweep of
    [gc.rs].  Definitions; the facts are in [GcFacts]. *)
From S2P Require Import Prelude Bytes Hashing Values Serialize SerializeFacts Kv Merkle NodeCodec.
From S2P Require Import PmapNode Pmap PmapFacts Pvec PvecFacts Pbtree.

(** ** Walks *)
Section each.
Context (visit : Z → gset Z → outcome (gset Z)).
Fixpoint walk_all (cs : list Z) (out : gset Z) : outcome (gset Z) :=
  match cs with
  | [] => Ok out
  | c :: cs' => out' ← visit c out; walk_all cs' out'
  end.
End each.

(** [walk_reachable]; [kids] answers the children to follow.  A cell is entered
    in [out] before its children are visited, so the walk visits each cell
    once; the fuel bounds the height of the trees walked. *)
Section walk.
Context (kids : Z → outcome (list Z)).
Fixpoint walk_reachable (fuel : nat) (hash : Z) (out : gset Z) : outcome (gset Z) :=
  match fuel with
  | O => OutOfFuel
  | S fuel' =>
      if hash =? EMPTY then Ok out else
      if decide (hash ∈ out) then Ok out else
      cs ← kids hash;
      walk_all (walk_reachable fuel') cs ({[hash]} ∪ out)
  end.
Definition reachable_cells (fuel : nat) (root : Z) : outcome (gset Z) :=
  walk_reachable fuel root ∅.
End walk.

Section kids.
Context `{BigIntCodec} (kv : Kv).

(** [match read_node_kv(..) { Some(Inner { children, .. }) => children, _ => none }]. *)
Definition pmap_kids (key_ty val_ty : Ty) (hash : Z) : outcome (list Z) :=
  node ← Pmap.read_node_kv kv key_ty val_ty hash;
  Ok match node with Some (Inner _, cs) => cs | _ => [] end.

Definition pvec_kids (elem_ty : Ty) (hash : Z) : outcome (list Z) :=
  node ← Pvec.read_node_kv kv elem_ty hash;
  Ok match node with Some (Pvec.Inner, cs) => cs | _ => [] end.

(** The sorted map decodes the raw cell, without its [Value::Bytes] frame. *)
Definition pbtree_kids (key_ty val_ty : Ty) (hash : Z) : outcome (list Z) :=
  match kv_get kv hash with
  | None => Ok []
  | Some bs =>
      node ← Pbtree.deserialize_node key_ty val_ty bs;
      Ok match node with Some (Pbtree.Inner _, cs) => cs | _ => [] end
  end.

Definition pmap_reachable_cells (fuel : nat) (root : Z) (key_ty val_ty : Ty) : outcome (gset Z) :=
  reachable_cells (pmap_kids key_ty val_ty) fuel root.
Definition pvec_reachable_cells (fuel : nat) (root : Z) (elem_ty : Ty) : outcome (gset Z) :=
  reachable_cells (pvec_kids elem_ty) fuel root.
Definition pbtree_reachable_cells (fuel : nat) (root : Z) (key_ty val_ty : Ty) : outcome (gset Z) :=
  reachable_cells (pbtree_kids key_ty val_ty) fuel root.
End kids.

(** ** [sweep] *)
Record GcReport := mkReport { kept : Z; swept : Z }.

Section sweep.
Context `{BigIntCodec} (fuel : nat).

(** The cells one live state keeps besides its own. *)
Definition state_cells (kv : InMemoryKv) (cell : Z) (ty : Ty) : outcome (gset Z) :=
  match ty with
  | TPMap key value =>
      match kv !! cell with
      | None => Ok ∅
      | Some bs =>
          v ← deserialize bs ty;
          match v with
          | Some (VPMap root) => pmap_reachable_cells (as_kv kv) fuel root key value
          | _ => Ok ∅
          end
      end
  | TPVec elem =>
      match kv !! cell with
      | None => Ok ∅
      | Some bs =>
          v ← deserialize bs ty;
          match v with
          | Some (VPVec _ root) => pvec_reachable_cells (as_kv kv) fuel root elem
          | _ => Ok ∅
          end
      end
  | _ => Ok ∅
  end.

Fixpoint live_set (kv : InMemoryKv) (live_states : list (Z * Ty)) (live : gset Z) :
    outcome (gset Z) :=
  match live_states with
  | [] => Ok live
  | (cell, ty) :: rest =>
      cells ← state_cells kv cell ty;
      live_set kv rest (cells ∪ ({[cell]} ∪ live))
  end.

(** [if !live.contains(candidate) && kv.data.remove(candidate).is_some()]. *)
Definition sweep_one (live : gset Z) (acc : InMemoryKv * Z) (candidate : Z) : InMemoryKv * Z :=
  let '(kv, n) := acc in
  if decide (candidate ∈ live) then (kv, n) else
  match kv !! candidate with
  | Some _ => (delete candidate kv, n + 1)
  | None => (kv, n)
  end.

Definition sweep (live_states : list (Z * Ty)) (candidates : gset Z) (kv : InMemoryKv) :
    outcome (GcReport * InMemoryKv) :=
  live ← live_set kv live_states ∅;
  let '(kv', n) := foldl (sweep_one live) (kv, 0) (elements candidates) in
  Ok (mkReport (Z.of_nat (size live)) n, kv').
End sweep.
