(* ===== verification/GcFacts.v ===== *)
(** Garbage collection is safe and exact: a walk from a stored tree answers
    exactly its node cells, and a sweep removes exactly the candidates that are
    neither a live state cell nor a node of a live map or vector. *)
From S2P Require Import Prelude Bytes Hashing Values Serialize SerializeFacts Kv Merkle NodeCodec.
From S2P Require Import PmapNode Pmap PmapFacts Pvec PvecFacts Pbtree Gc.

(** ** The cells of a tree *)
Section trees.
Context {L : Type} (ns : Z) (enc : L → list Z → bytes).

Fixpoint tree_height (t : mtree L) : nat :=
  match t with MNode _ ts => S (foldr (λ t n, tree_height t `max` n)%nat 0%nat ts) end.

Lemma tree_height_inner l ts h :
  (tree_height (MNode l ts) ≤ S h)%nat ↔ Forall (λ t, (tree_height t ≤ h)%nat) ts.
Proof.
  cbn [tree_height]. induction ts as [|t ts IH]; cbn [foldr].
  - split; [by constructor|lia].
  - rewrite Forall_cons. rewrite <- IH. lia.
Qed.

(** The node cells of a tree. *)
Inductive cell_of (h : Z) : mtree L → Prop :=
  | cell_root t : h = thash ns enc t → cell_of h t
  | cell_child l ts c : c ∈ ts → cell_of h c → cell_of h (MNode l ts).

Context (node_ok : L → list Z → Prop) (U : list bytes).
Local Abbreviation hash := (thash ns enc).
Local Abbreviation stored := (stored ns enc node_ok U).
Context (HU : no_collision ns U = true).

(** [kids] reads the children of stored nodes. *)
Context (vw : Z → Value) (kids : Z → outcome (list Z)).
Context (Hkids : ∀ t, stored vw t → kids (hash t) = Ok (hash <$> children t)).

(** Every visited cell had its children visited. *)
Definition closed_from (out out' : gset Z) : Prop :=
  out ⊆ out' ∧ ∀ x, x ∈ out' → x ∉ out →
    ∃ cs, kids x = Ok cs ∧ ∀ c, c ∈ cs → c ≠ EMPTY → c ∈ out'.

Lemma closed_refl out : closed_from out out.
Proof. split; [done|]. intros x H1 H2. done. Qed.

Lemma closed_trans o1 o2 o3 : closed_from o1 o2 → closed_from o2 o3 → closed_from o1 o3.
Proof.
  intros [S1 C1] [S2 C2]. split; [set_solver|]. intros x H3 H1.
  destruct (decide (x ∈ o2)) as [H2|H2].
  - destruct (C1 x H2 H1) as (cs & E & Hc). exists cs. split; [done|].
    intros c Hcs Hne. apply S2. by apply Hc.
  - by apply C2.
Qed.

(** The walk succeeds on a stored tree, visits its root, and adds only cells of
    the tree, each with its children. *)
Definition walk_ok (h : Z) (P : Z → Prop) (out : gset Z) (r : outcome (gset Z)) : Prop :=
  ∃ out', r = Ok out' ∧ h ∈ out' ∧ closed_from out out' ∧ ∀ x, x ∈ out' → x ∈ out ∨ P x.

Lemma walk_all_ok f ts (P : Z → Prop) out :
  (∀ t out, t ∈ ts → walk_ok (hash t) (λ x, cell_of x t) out (walk_reachable kids f (hash t) out)) →
  (∀ t x, t ∈ ts → cell_of x t → P x) →
  ∃ out', walk_all (walk_reachable kids f) (hash <$> ts) out = Ok out' ∧
    (∀ t, t ∈ ts → hash t ∈ out') ∧ closed_from out out' ∧ ∀ x, x ∈ out' → x ∈ out ∨ P x.
Proof.
  revert out. induction ts as [|t ts IH]; intros out Hw HP; cbn [fmap list_fmap walk_all].
  { exists out. splits; [done|by intros t ?%elem_of_nil|apply closed_refl|auto]. }
  destruct (Hw t out) as (o1 & E1 & Hin1 & Hc1 & Hs1); [left|].
  rewrite E1. cbn [mbind outcome_bind].
  destruct (IH o1) as (o2 & E2 & Hin2 & Hc2 & Hs2).
  { intros t' o Ht'. apply Hw. by right. }
  { intros t' x Ht'. apply HP. by right. }
  exists o2. splits; [done| |by eapply closed_trans|].
  - intros t' [->|Ht']%elem_of_cons; [by apply Hc2|by apply Hin2].
  - intros x [Hx|Hx]%Hs2; [|by right]. apply Hs1 in Hx as [Hx|Hx]; [by left|].
    right. apply (HP t); [left|done].
Qed.

Lemma walk_stored f t out :
  stored vw t → (tree_height t ≤ f)%nat →
  walk_ok (hash t) (λ x, cell_of x t) out (walk_reachable kids f (hash t) out).
Proof.
  revert t out. induction f as [|f IH]; intros t out Hst Hh; [destruct t; cbn in Hh; lia|].
  cbn [walk_reachable]. pose proof (stored_nonempty _ _ _ _ HU _ _ Hst) as Hne.
  apply Z.eqb_neq in Hne. rewrite Hne.
  destruct (decide (hash t ∈ out)) as [Hin|Hin].
  { exists out. splits; [done|done|apply closed_refl|auto]. }
  rewrite (Hkids t Hst). cbn [mbind outcome_bind]. destruct t as [l ts].
  cbn [children]. inversion Hst as [? ? _ _ _ Hts]; subst. apply tree_height_inner in Hh.
  rewrite Forall_forall in Hts, Hh.
  destruct (walk_all_ok f ts (λ x, cell_of x (MNode l ts)) ({[hash (MNode l ts)]} ∪ out))
    as (o & E & Hall & Hc & Hs).
  { intros t o Ht. apply IH; auto. }
  { intros t x Ht Hx. by eapply cell_child. }
  exists o. splits; [done|apply Hc; set_solver| |].
  - destruct Hc as [Hsub Hc]. split; [set_solver|]. intros x Hx Hnx.
    destruct (decide (x = hash (MNode l ts))) as [->|Hxr].
    + exists (hash <$> ts). split; [by rewrite (Hkids _ Hst)|].
      intros c (t & -> & Ht)%list_elem_of_fmap _. by apply Hall.
    + apply Hc; [done|]. by intros [->%elem_of_singleton|?]%elem_of_union.
  - intros x Hx%Hs. destruct Hx as [Hx|Hx]; [|by right].
    apply elem_of_union in Hx as [->%elem_of_singleton|Hx]; [right; by apply cell_root|by left].
Qed.

(** The cells a closed set holds with a root are all those of its tree. *)
Lemma closed_cells out t :
  closed_from ∅ out → stored vw t → hash t ∈ out → ∀ x, cell_of x t → x ∈ out.
Proof.
  intros [_ Hc] Hst Hin x Hx. revert Hst Hin.
  induction Hx as [t ->|l ts c Hcts Hx IH]; intros Hst Hin; [done|].
  pose proof Hst as Hst'. inversion Hst' as [? ? _ _ _ Hts]; subst. rewrite Forall_forall in Hts.
  apply IH; [by apply Hts|].
  destruct (Hc _ Hin) as (cs & E & Hcs); [set_solver|].
  rewrite (Hkids _ Hst) in E. injection E as <-. apply Hcs.
  - apply list_elem_of_fmap. eauto.
  - eapply stored_nonempty; [done|]. by apply Hts.
Qed.

Lemma reachable_stored f t :
  stored vw t → (tree_height t ≤ f)%nat →
  ∃ out, reachable_cells kids f (hash t) = Ok out ∧ ∀ x, x ∈ out ↔ cell_of x t.
Proof.
  intros Hst Hh. destruct (walk_stored f t ∅ Hst Hh) as (out & E & Hin & Hc & Hs).
  exists out. split; [done|]. intros x. split.
  - intros Hx%Hs. destruct Hx as [Hx|Hx]; [set_solver|done].
  - by apply closed_cells.
Qed.
End trees.

(** ** The walks of maps and vectors *)
Section walks.
Context `{Laws : BigIntCodecLaws}.

Lemma pmap_kids_stored kv key_ty val_ty U t :
  no_collision PmapNode.NODE_NS U = true →
  stored PmapNode.NODE_NS PmapFacts.enc (PmapFacts.node_ok key_ty val_ty) U (kv_view kv) t →
  pmap_kids kv key_ty val_ty (thash PmapNode.NODE_NS PmapFacts.enc t)
    = Ok (thash PmapNode.NODE_NS PmapFacts.enc <$> children t).
Proof.
  intros HU Hst. unfold pmap_kids, Pmap.read_node_kv.
  rewrite (read_node_kv_stored _ _ _ _ _ (pmap_node_codec key_ty val_ty) HU
    (pmap_node_nonempty key_ty val_ty) kv t Hst).
  cbn [mbind outcome_bind]. destruct t as [[bm|es] ts]; [done|]. cbn [label children].
  inversion Hst as [? ? Hok _ _ _]; subst. destruct Hok as (_ & _ & Hn). by rewrite Hn.
Qed.

Lemma pvec_kids_stored kv elem_ty U t :
  no_collision Pvec.NODE_NS U = true →
  stored Pvec.NODE_NS PvecFacts.enc (PvecFacts.node_ok elem_ty) U (kv_view kv) t →
  pvec_kids kv elem_ty (thash Pvec.NODE_NS PvecFacts.enc t)
    = Ok (thash Pvec.NODE_NS PvecFacts.enc <$> children t).
Proof.
  intros HU Hst. unfold pvec_kids, Pvec.read_node_kv.
  rewrite (read_node_kv_stored _ _ _ _ _ (PvecFacts.node_codec elem_ty) HU
    (PvecFacts.node_nonempty elem_ty) kv t Hst).
  cbn [mbind outcome_bind]. destruct t as [[|es] ts]; [done|]. cbn [label children].
  inversion Hst as [? ? Hok _ _ _]; subst. destruct Hok as (_ & _ & Hn). by rewrite Hn.
Qed.

Lemma pmap_reachable kv key_ty val_ty U t fuel :
  no_collision PmapNode.NODE_NS U = true →
  stored PmapNode.NODE_NS PmapFacts.enc (PmapFacts.node_ok key_ty val_ty) U (kv_view kv) t →
  (tree_height t ≤ fuel)%nat →
  ∃ out, pmap_reachable_cells kv fuel (thash PmapNode.NODE_NS PmapFacts.enc t) key_ty val_ty = Ok out ∧
    ∀ x, x ∈ out ↔ cell_of PmapNode.NODE_NS PmapFacts.enc x t.
Proof.
  intros HU Hst Hh. unfold pmap_reachable_cells.
  eapply (reachable_stored _ _ _ _ HU (kv_view kv)); [|done|done].
  intros t' Ht'. by eapply pmap_kids_stored.
Qed.

Lemma pvec_reachable kv elem_ty U t fuel :
  no_collision Pvec.NODE_NS U = true →
  stored Pvec.NODE_NS PvecFacts.enc (PvecFacts.node_ok elem_ty) U (kv_view kv) t →
  (tree_height t ≤ fuel)%nat →
  ∃ out, pvec_reachable_cells kv fuel (thash Pvec.NODE_NS PvecFacts.enc t) elem_ty = Ok out ∧
    ∀ x, x ∈ out ↔ cell_of Pvec.NODE_NS PvecFacts.enc x t.
Proof.
  intros HU Hst Hh. unfold pvec_reachable_cells.
  eapply (reachable_stored _ _ _ _ HU (kv_view kv)); [|done|done].
  intros t' Ht'. by eapply pvec_kids_stored.
Qed.
End walks.

(** ** Sweeping *)
Section sweeping.
Context `{Laws : BigIntCodecLaws} (U : list bytes) (fuel : nat).
Context (HUm : no_collision PmapNode.NODE_NS U = true).
Context (HUv : no_collision Pvec.NODE_NS U = true).

Local Abbreviation pmap_stored kv k v t :=
  (stored PmapNode.NODE_NS PmapFacts.enc (PmapFacts.node_ok k v) U (kv_view (as_kv kv)) t).
Local Abbreviation pvec_stored kv e t :=
  (stored Pvec.NODE_NS PvecFacts.enc (PvecFacts.node_ok e) U (kv_view (as_kv kv)) t).
Local Abbreviation pmap_root t := (thash PmapNode.NODE_NS PmapFacts.enc t).
Local Abbreviation pvec_root t := (thash Pvec.NODE_NS PvecFacts.enc t).

(** A state cell the caller may name live, with the cells it needs. *)
Inductive live_state (kv : InMemoryKv) : Z * Ty → (Z → Prop) → Prop :=
  | live_pmap cell k v bs t :
      kv !! cell = Some bs → deserialize bs (TPMap k v) = Ok (Some (VPMap (pmap_root t))) →
      pmap_stored kv k v t → (tree_height t ≤ fuel)%nat →
      live_state kv (cell, TPMap k v)
        (λ x, x = cell ∨ cell_of PmapNode.NODE_NS PmapFacts.enc x t)
  | live_pvec cell e bs len t :
      kv !! cell = Some bs → deserialize bs (TPVec e) = Ok (Some (VPVec len (pvec_root t))) →
      pvec_stored kv e t → (tree_height t ≤ fuel)%nat →
      live_state kv (cell, TPVec e)
        (λ x, x = cell ∨ cell_of Pvec.NODE_NS PvecFacts.enc x t)
  | live_absent cell ty :
      kv !! cell = None → live_state kv (cell, ty) (λ x, x = cell)
  | live_plain cell ty :
      match ty with TPMap _ _ | TPVec _ => False | _ => True end →
      live_state kv (cell, ty) (λ x, x = cell).

Lemma state_cells_live kv cell ty P :
  live_state kv (cell, ty) P →
  ∃ cells, state_cells fuel kv cell ty = Ok cells ∧ ∀ x, x ∈ cells ∪ {[cell]} ↔ P x.
Proof.
  intros Hl. remember (cell, ty) as st eqn:Est.
  destruct Hl as [c k v bs t Hbs E Hst Hh|c e bs len t Hbs E Hst Hh|c ty' Hn|c ty' Hty];
    injection Est as -> <-; unfold state_cells.
  - rewrite Hbs, E. cbn [mbind outcome_bind].
    destruct (pmap_reachable (as_kv kv) k v U t fuel HUm Hst Hh) as (out & -> & Hx).
    exists out. split; [done|]. intros x. rewrite elem_of_union, elem_of_singleton, Hx. tauto.
  - rewrite Hbs, E. cbn [mbind outcome_bind].
    destruct (pvec_reachable (as_kv kv) e U t fuel HUv Hst Hh) as (out & -> & Hx).
    exists out. split; [done|]. intros x. rewrite elem_of_union, elem_of_singleton, Hx. tauto.
  - rewrite Hn. exists ∅. split; [by destruct ty'|]. intros x.
    by rewrite (left_id_L ∅ (∪)), elem_of_singleton.
  - exists ∅. split; [by destruct ty'|]. intros x.
    by rewrite (left_id_L ∅ (∪)), elem_of_singleton.
Qed.

Lemma live_set_ok kv states Ps live :
  Forall2 (live_state kv) states Ps →
  ∃ out, live_set fuel kv states live = Ok out ∧
    ∀ x, x ∈ out ↔ x ∈ live ∨ Exists (λ P : Z → Prop, P x) Ps.
Proof.
  intros Hf. revert live. induction Hf as [|[cell ty] P states Ps Hl Hf IH]; intros live.
  { exists live. split; [done|]. intros x. rewrite Exists_nil. tauto. }
  destruct (state_cells_live kv cell ty P Hl) as (cells & E & Hx).
  cbn [live_set]. rewrite E. cbn [mbind outcome_bind].
  destruct (IH (cells ∪ ({[cell]} ∪ live))) as (out & Eo & Ho). exists out. split; [done|].
  intros x. rewrite Ho, Exists_cons, <- Hx, !elem_of_union. tauto.
Qed.

Lemma sweep_fold live cs kv n kv' n' :
  foldl (sweep_one live) (kv, n) cs = (kv', n') →
  (∀ x, kv' !! x = if decide (x ∈ cs ∧ x ∉ live) then None else kv !! x) ∧
  n' - n = Z.of_nat (size kv) - Z.of_nat (size kv').
Proof.
  revert kv n. induction cs as [|c cs IH]; intros kv n; cbn [foldl].
  { intros [= <- <-]. split; [|lia]. intros x. rewrite decide_False; [done|].
    by intros [?%elem_of_nil _]. }
  unfold sweep_one at 2. destruct (decide (c ∈ live)) as [Hc|Hc].
  { intros [Hl Hs]%IH. split; [|lia]. intros x. rewrite Hl. apply decide_ext.
    rewrite elem_of_cons. split; [tauto|]. by intros [[->|?] ?]. }
  destruct (kv !! c) as [bs|] eqn:Hk; intros [Hl Hs]%IH.
  - assert (Hsz : size kv = S (size (delete c kv))).
    { rewrite <- (insert_delete_id kv c bs Hk) at 1.
      apply map_size_insert_None, lookup_delete_eq. }
    split; [|lia]. intros x. rewrite Hl. destruct (decide (x = c)) as [->|Hne].
    + assert (delete c kv !! c = None) as -> by apply lookup_delete_eq.
      rewrite (decide_True (P := c ∈ c :: cs ∧ _)) by (split; [left|done]). by case_decide.
    + assert (delete c kv !! x = kv !! x) as -> by (apply lookup_delete_ne; congruence).
      apply decide_ext. rewrite elem_of_cons. tauto.
  - split; [|lia]. intros x. rewrite Hl. destruct (decide (x = c)) as [->|Hne].
    + rewrite Hk. by repeat case_decide.
    + apply decide_ext. rewrite elem_of_cons. tauto.
Qed.

Lemma sweep_ok kv states Ps candidates :
  Forall2 (live_state kv) states Ps →
  ∃ rep kv', sweep fuel states candidates kv = Ok (rep, kv') ∧
    swept rep = Z.of_nat (size kv) - Z.of_nat (size kv') ∧
    (∀ x, Exists (λ P : Z → Prop, P x) Ps ∨ ¬ Exists (λ P : Z → Prop, P x) Ps) ∧
    (∀ x, x ∈ candidates → ¬ Exists (λ P : Z → Prop, P x) Ps → kv' !! x = None) ∧
    (∀ x, x ∉ candidates ∨ Exists (λ P : Z → Prop, P x) Ps → kv' !! x = kv !! x).
Proof.
  intros Hf. destruct (live_set_ok kv states Ps ∅ Hf) as (live & E & Hlive).
  unfold sweep. rewrite E. cbn [mbind outcome_bind].
  destruct (foldl _ _ _) as [kv' n] eqn:Ef. apply sweep_fold in Ef as [Hl Hs].
  exists (mkReport (Z.of_nat (size live)) n), kv'. splits; [done|cbn [swept]; lia| | |].
  { intros x. destruct (decide (x ∈ live)) as [H'|H']; rewrite Hlive in H';
      [left|right; tauto]. by destruct H' as [?%not_elem_of_empty|?]. }
  1: intros x Hx Hn; rewrite Hl.
  2: intros x Hx; rewrite Hl.
  - rewrite decide_True; [done|]. rewrite elem_of_elements, Hlive. split; [done|].
    by intros [?%not_elem_of_empty|?].
  - rewrite decide_False; [done|]. rewrite elem_of_elements, Hlive. tauto.
Qed.

(** A tree whose cells are kept stays stored. *)
Lemma stored_kept {L} ns (enc : L → list Z → bytes) node_ok vw vw' t :
  (∀ x, cell_of ns enc x t → vw' x = vw x) →
  stored ns enc node_ok U vw t → stored ns enc node_ok U vw' t.
Proof.
  induction t as [l ts IH] using mtree_ind_nested. intros Hk Hst.
  inversion Hst as [? ? Hn Hin Hv Hts]; subst. constructor; [done|done| |].
  - rewrite <- Hv. apply Hk. by apply cell_root.
  - rewrite Forall_forall in *. intros c Hc. apply IH; [done| |by apply Hts].
    intros x Hx. apply Hk. by eapply cell_child.
Qed.

Lemma live_state_kept kv kv' st (P : Z → Prop) :
  (∀ x, P x → kv' !! x = kv !! x) → live_state kv st P → live_state kv' st P.
Proof.
  intros Hk Hl.
  destruct Hl as [c k v bs t Hbs E Hst Hh|c e bs len t Hbs E Hst Hh|c ty Hn|c ty Hty].
  - eapply live_pmap; [rewrite Hk; [exact Hbs|by left]|exact E| |done].
    eapply stored_kept; [|exact Hst]. intros x Hx. unfold kv_view. cbn. rewrite Hk; [done|by right].
  - eapply live_pvec; [rewrite Hk; [exact Hbs|by left]|exact E| |done].
    eapply stored_kept; [|exact Hst]. intros x Hx. unfold kv_view. cbn. rewrite Hk; [done|by right].
  - apply live_absent. by rewrite Hk.
  - by apply live_plain.
Qed.

Lemma live_states_kept kv kv' states Ps :
  (∀ x, Exists (λ P : Z → Prop, P x) Ps → kv' !! x = kv !! x) →
  Forall2 (live_state kv) states Ps → Forall2 (live_state kv') states Ps.
Proof.
  intros Hk Hf. induction Hf as [|st P states Ps Hl Hf IH]; [done|]. constructor.
  - eapply live_state_kept; [|exact Hl]. intros x Hx. apply Hk. by left.
  - apply IH. intros x Hx. apply Hk. by right.
Qed.

(** C15: a sweep over readable live states terminates, removes exactly the
    candidates no live state needs, leaves every other cell alone, reports the
    number of cells it removed, and leaves nothing for a second sweep. *)
Theorem sweep_exact kv states Ps candidates :
  Forall2 (live_state kv) states Ps →
  ∃ rep kv', sweep fuel states candidates kv = Ok (rep, kv') ∧
    swept rep = Z.of_nat (size kv) - Z.of_nat (size kv') ∧
    (∀ x, x ∈ candidates → ¬ Exists (λ P : Z → Prop, P x) Ps → kv' !! x = None) ∧
    (∀ x, x ∉ candidates ∨ Exists (λ P : Z → Prop, P x) Ps → kv' !! x = kv !! x) ∧
    ∃ rep', sweep fuel states candidates kv' = Ok (rep', kv') ∧ swept rep' = 0.
Proof.
  intros Hf. destruct (sweep_ok kv states Ps candidates Hf) as (rep & kv' & E & Hn & Hl & Hd & Hk).
  exists rep, kv'. splits; [done..|].
  destruct (sweep_ok kv' states Ps candidates) as (rep' & kv2 & E2 & Hn2 & _ & Hd2 & Hk2).
  { eapply live_states_kept; [|exact Hf]. intros x Hx. apply Hk. by right. }
  assert (kv2 = kv') as ->.
  { apply map_eq. intros x. destruct (decide (x ∈ candidates)) as [Hc|Hc]; [|apply Hk2; by left].
    destruct (Hl x) as [He|He]; [apply Hk2; by right|].
    etransitivity; [by apply Hd2|symmetry; by apply Hd]. }
  exists rep'. split; [done|lia].
Qed.

(** C14: no candidate set can make a sweep harm a live state: afterwards every
    live state is still live, with the same cells, so its maps and vectors read
    back the same trees. *)
Theorem sweep_safe kv states Ps candidates :
  Forall2 (live_state kv) states Ps →
  ∃ rep kv', sweep fuel states candidates kv = Ok (rep, kv') ∧ Forall2 (live_state kv') states Ps.
Proof.
  intros Hf. destruct (sweep_ok kv states Ps candidates Hf) as (rep & kv' & E & _ & _ & _ & Hk).
  exists rep, kv'. split; [done|]. eapply live_states_kept; [|exact Hf].
  intros x Hx. apply Hk. by right.
Qed.
End sweeping.
