(* ===== verification/Occ.v ===== *)
(** The optimistic commit driver ([crates/rend/src/occ.rs]): every transaction
    of a batch runs against one snapshot; then, in order, a transaction whose
    read set still holds is applied, one whose only stale reads are roots of
    persistent collections is merged, and any other is executed again. *)
From S2P Require Import Prelude Bytes Values Serialize Kv Tx TxTyped Pmap Pvec.
#[local] Set Warnings "-register-all".

(** ** Data *)

(** [ExecOutcome] of [engine.rs]. *)
Record ExecOutcome := mkOutcome {
  result : Value;
  out_reads : gmap Z Value;
  out_writes : gmap Z Value;
  out_events : list EmittedEvent;
  out_pmap_types : gmap Z (Ty * Ty);
  out_pvec_types : gmap Z Ty;
  out_node_cells : gset Z;
}.

Record TxRequest (Src : Type) := mkRequest { src : Src; fuel_first : Z; fuel_retry : Z }.
Arguments mkRequest {Src} _ _ _.
Arguments src {Src} _.
Arguments fuel_first {Src} _.
Arguments fuel_retry {Src} _.

(** [TxRequest::new]. *)
Definition request {Src} (s : Src) (fuel : Z) : TxRequest Src := mkRequest s fuel fuel.

Record TxReport := mkTxReport { tx_result : Value; re_executed : bool }.
Record BatchReport := mkBatchReport { txs : list TxReport; conflicts : Z; merged : Z }.
Definition BatchReport_default : BatchReport := mkBatchReport [] 0 0.

(** The engine as the driver sees it: a source, a fuel and a store give an
    outcome or an error. *)
Class Executor (Src : Type) := execute : Src → Z → Kv → outcome ExecOutcome.

(** The tail of [Engine::execute_with_context]: the program runs in a fresh
    transaction over the store, whose sets become the outcome. *)
Definition run_in_tx (program : SM Tx Value) (kv : Kv) : outcome ExecOutcome :=
  match program (new kv) with
  | (Ok v, t) =>
      let '(rs, ws, es, pm, pv, cells) := into_full t in
      Ok (mkOutcome v rs ws es pm pv cells)
  | (Err e, _) => Err e
  | (Panic, _) => Panic
  | (OutOfFuel, _) => OutOfFuel
  end.

Section occ.
Context `{BigIntCodec}.

(** [StackedKv]: pending writes over a store.  A pending write that does not
    serialize (a cursor) panics in the source; the merge that reads it applies
    the same write set, so the panic surfaces there. *)
Definition ser_bytes (v : Value) : bytes := match serialize v with Ok b => b | _ => [] end.
Definition stacked (overlay : gmap Z Value) (base : Kv) : Kv :=
  kv_of_get (λ key, match overlay !! key with
                    | Some v => Some (ser_bytes v)
                    | None => kv_get base key
                    end).

(** ** Validation *)

(** [match kv.get(key) { Some(bytes) => bytes == serialize(observed), None => is_default(observed) }]. *)
Definition observed_matches (bz : option bytes) (observed : Value) : outcome bool :=
  match bz with
  | Some bs => s ← serialize observed; Ok (bool_decide (bs = s))
  | None => Ok (is_default observed)
  end.

(** [iter().all(..)]: stops at the first mismatch. *)
Fixpoint validate_reads (kv : Kv) (rs : list (Z * Value)) : outcome bool :=
  match rs with
  | [] => Ok true
  | (key, observed) :: rs' =>
      b ← observed_matches (kv_get kv key) observed;
      if b : bool then validate_reads kv rs' else Ok false
  end.
Definition validate (rs : gmap Z Value) (kv : Kv) : outcome bool :=
  validate_reads kv (map_to_list rs).

(** ** Merging *)
Definition is_persistent (v : Value) : bool :=
  match v with VPMap _ | VPVec _ _ => true | _ => false end.

(** The stale cells, or [None] when one of them cannot be merged. *)
Fixpoint mergeable_cells (writes : gmap Z Value) (live : Kv) (rs : list (Z * Value)) :
    outcome (option (list Z)) :=
  match rs with
  | [] => Ok (Some [])
  | (key, observed) :: rs' =>
      live_match ← observed_matches (kv_get live key) observed;
      if live_match : bool then mergeable_cells writes live rs' else
      if negb (is_persistent observed) || bool_decide (writes !! key = None) then Ok None else
      cells <-? mergeable_cells writes live rs';
      Ok (Some (key :: cells))
  end.

Definition read_pmap_root (key_ty val_ty : Ty) (kv : Kv) (cell : Z) : outcome (option Z) :=
  bs <-! kv_get kv cell;
  v <-? deserialize bs (TPMap key_ty val_ty);
  match v with VPMap h => Ok (Some h) | _ => Ok None end.

Definition read_pvec_root (elem_ty : Ty) (kv : Kv) (cell : Z) : outcome (option (Z * Z)) :=
  bs <-! kv_get kv cell;
  v <-? deserialize bs (TPVec elem_ty);
  match v with VPVec len root => Ok (Some (root, len)) | _ => Ok None end.

(** [for (k, b) in new_cells { adjusted.insert(k, Bytes(b)) }]. *)
Definition insert_cells (cells : list (Z * bytes)) (adjusted : gmap Z Value) : gmap Z Value :=
  foldl (λ m '(k, b), <[k := VBytes b]> m) adjusted cells.

Definition merge_cell (o : ExecOutcome) (live snapshot : Kv) (cell : Z)
    (adjusted : gmap Z Value) : outcome (option (gmap Z Value)) :=
  match out_pmap_types o !! cell with
  | Some (key_ty, val_ty) =>
      match out_writes o !! cell with
      | Some (VPMap new_a) =>
          lb ← read_pmap_root key_ty val_ty live cell;
          an ← read_pmap_root key_ty val_ty snapshot cell;
          '(root, new_cells) <-? Pmap.merge_three_way (stacked (out_writes o) live) key_ty val_ty
                                   new_a (default EMPTY lb) (default EMPTY an);
          Ok (Some (insert_cells new_cells (<[cell := VPMap root]> adjusted)))
      | _ => Ok None
      end
  | None =>
      match out_pvec_types o !! cell with
      | Some elem_ty =>
          match out_writes o !! cell with
          | Some (VPVec new_len new_root) =>
              lb ← read_pvec_root elem_ty live cell;
              an ← read_pvec_root elem_ty snapshot cell;
              let '(live_root, live_len) := default (EMPTY, 0) lb in
              let '(anc_root, anc_len) := default (EMPTY, 0) an in
              '(root, new_cells) <-? Pvec.merge_three_way (stacked (out_writes o) live) elem_ty
                                       new_root new_len live_root live_len anc_root anc_len;
              Ok (Some (insert_cells new_cells (<[cell := VPVec new_len root]> adjusted)))
          | _ => Ok None
          end
      | None => Ok None
      end
  end.

Fixpoint merge_cells (o : ExecOutcome) (live snapshot : Kv) (cells : list Z)
    (adjusted : gmap Z Value) : outcome (option (gmap Z Value)) :=
  match cells with
  | [] => Ok (Some adjusted)
  | cell :: cells' =>
      adjusted' <-? merge_cell o live snapshot cell adjusted;
      merge_cells o live snapshot cells' adjusted'
  end.

Definition try_persistent_merge (o : ExecOutcome) (live snapshot : Kv) :
    outcome (option (gmap Z Value)) :=
  cells <-? mergeable_cells (out_writes o) live (map_to_list (out_reads o));
  merge_cells o live snapshot cells (out_writes o).

(** ** The driver *)
Context {Src : Type} `{Executor Src}.

(** Phase 1; the parallel map answers an error when some execution does. *)
Definition speculate (snapshot : Kv) (reqs : list (TxRequest Src)) : outcome (list ExecOutcome) :=
  mapM_out (λ tx, execute (src tx) (fuel_first tx) snapshot) reqs.

(** Phase 2, one transaction. *)
Definition commit_one (snapshot : Kv) (tx : TxRequest Src) (o : ExecOutcome)
    (kv : InMemoryKv) (report : BatchReport) : outcome (InMemoryKv * BatchReport) :=
  valid ← validate (out_reads o) (as_kv kv);
  if valid : bool then
    kv' ← apply kv (out_writes o);
    Ok (kv', mkBatchReport (txs report ++ [mkTxReport (result o) false])
               (conflicts report) (merged report))
  else
    m ← try_persistent_merge o (as_kv kv) snapshot;
    match m with
    | Some adjusted =>
        kv' ← apply kv adjusted;
        Ok (kv', mkBatchReport (txs report ++ [mkTxReport (result o) false])
                   (conflicts report) (merged report + 1))
    | None =>
        re ← execute (src tx) (fuel_retry tx) (as_kv kv);
        kv' ← apply kv (out_writes re);
        Ok (kv', mkBatchReport (txs report ++ [mkTxReport (result re) true])
                   (conflicts report + 1) (merged report))
    end.

(** Phase 2.  A failing re-execution ends the batch with its error; what was
    committed before it stays. *)
Fixpoint commit_all (snapshot : Kv) (batch : list (TxRequest Src * ExecOutcome))
    (report : BatchReport) : SM InMemoryKv BatchReport := λ kv,
  match batch with
  | [] => (Ok report, kv)
  | (tx, o) :: batch' =>
      match commit_one snapshot tx o kv report with
      | Ok (kv', report') => commit_all snapshot batch' report' kv'
      | Err e => (Err e, kv)
      | Panic => (Panic, kv)
      | OutOfFuel => (OutOfFuel, kv)
      end
  end.

Definition commit_batch (reqs : list (TxRequest Src)) : SM InMemoryKv BatchReport := λ kv,
  let snapshot := as_kv kv in
  (speculative ← lift (speculate snapshot reqs);
   commit_all snapshot (zip reqs speculative) BatchReport_default) kv.

(** ** The reference: one transaction after the other *)
Fixpoint run_serial (kv : InMemoryKv) (reqs : list (Src * Z)) :
    outcome (InMemoryKv * list Value) :=
  match reqs with
  | [] => Ok (kv, [])
  | (s, fuel) :: reqs' =>
      o ← execute s fuel (as_kv kv);
      kv' ← apply kv (out_writes o);
      '(kv2, vs) ← run_serial kv' reqs';
      Ok (kv2, result o :: vs)
  end.
End occ.
