(* ===== verification/OccFacts.v ===== *)
(** The commit driver is serializable: when no merge was taken, a batch leaves
    the store and the results of running its transactions one after the other
    in the chosen order; a batch of transactions that do not fail and touch no
    persistent collection always commits.  Both against the interface of an
    executor whose runs depend on the observed reads only. *)
From S2P Require Import Prelude Bytes Values Serialize SerializeFacts Kv Occ.

(** Split every successful bind of the hypotheses. *)
Ltac outcomes :=
  repeat match goal with
  | H : Ok _ = Ok _ |- _ => injection H as H; subst
  | H : (_, _) = (_, _) |- _ => injection H as H; subst
  | H : mbind _ ?m = Ok _ |- _ =>
      destruct m eqn:?; cbn [mbind outcome_bind] in H; [|discriminate H..]
  | H : match ?x with _ => _ end = Ok _ |- _ => destruct x eqn:?; try discriminate H
  end.

(** ** The interface of an executor

    [good] is the invariant of the stores the executor runs on.  A run is
    determined by what it reads: over a store that validates its read set it
    answers the same result and the same writes. *)
Definition same_effect (o o' : ExecOutcome) : Prop :=
  result o' = result o ∧ out_writes o' = out_writes o.

(** Every cell of [kv] is still present in [kv']. *)
Definition grows (kv kv' : InMemoryKv) : Prop := ∀ k, is_Some (kv !! k) → is_Some (kv' !! k).

Class ExecutorLaws `{BigIntCodec} {Src : Type} `{Executor Src} (good : InMemoryKv → Prop) := {
  run_replays kv kv' s fuel o :
    good kv → good kv' → grows kv kv' →
    execute s fuel (as_kv kv) = Ok o → validate (out_reads o) (as_kv kv') = Ok true →
    ∃ o', execute s fuel (as_kv kv') = Ok o' ∧ same_effect o o';
  run_writes kv s fuel o :
    good kv → execute s fuel (as_kv kv) = Ok o →
    ∃ kv', apply kv (out_writes o) = Ok kv' ∧ good kv';
  run_reads kv s fuel o k v :
    good kv → execute s fuel (as_kv kv) = Ok o → out_reads o !! k = Some v →
    ∃ b, serialize v = Ok b;
}.

Lemma grows_refl kv : grows kv kv.
Proof. by intros k. Qed.
Lemma grows_trans kv1 kv2 kv3 : grows kv1 kv2 → grows kv2 kv3 → grows kv1 kv3.
Proof. unfold grows. eauto. Qed.

Lemma put_many_grows (kv : InMemoryKv) bs : grows kv (put_many kv bs).
Proof.
  cbn. revert kv. induction bs as [|[k v] bs IH]; intros kv; cbn; [apply grows_refl|].
  eapply grows_trans; [|apply IH]. intros k' Hk'.
  destruct (decide (k = k')) as [->|Hne].
  - exists v. apply lookup_insert_eq.
  - destruct Hk' as [b Hb]. exists b. rewrite <- Hb. by apply lookup_insert_ne.
Qed.

Lemma apply_grows `{BigIntCodec} kv ws kv' : apply kv ws = Ok kv' → grows kv kv'.
Proof.
  unfold apply, apply_writes. case_decide; [intros [= <-]; apply grows_refl|].
  destruct (mapM_out _ _) as [bs|e| |]; cbn [mbind outcome_bind]; [|done..].
  intros [= <-]. apply (put_many_grows kv bs).
Qed.

Section occ.
Context {Src : Type} (good : InMemoryKv → Prop) `{Laws : ExecutorLaws Src good}.

(** The fuel a committed transaction ran with. *)
Definition fuel_used (tx : TxRequest Src) (r : TxReport) : Z :=
  if re_executed r then fuel_retry tx else fuel_first tx.

(** How many transactions were executed again. *)
Fixpoint retries (rs : list TxReport) : Z :=
  match rs with
  | [] => 0
  | r :: rs' => (if re_executed r then 1 else 0) + retries rs'
  end.

Definition serial_requests (reqs : list (TxRequest Src)) (rs : list TxReport) : list (Src * Z) :=
  zip_with (λ tx r, (src tx, fuel_used tx r)) reqs rs.

Lemma commit_one_merged snap tx o kv kv' report report' :
  commit_one snap tx o kv report = Ok (kv', report') → merged report <= merged report'.
Proof.
  unfold commit_one. intros E. outcomes; cbn [merged]; lia.
Qed.

Lemma commit_all_merged snap batch kv kv' report report' :
  commit_all snap batch report kv = (Ok report', kv') → merged report <= merged report'.
Proof.
  revert kv report. induction batch as [|[tx o] batch IH]; intros kv report; cbn [commit_all].
  { intros [= <- <-]. lia. }
  intros E. destruct (commit_one snap tx o kv report) as [[k1 rep1]|e| |] eqn:E1; [|done..].
  apply commit_one_merged in E1. apply IH in E. lia.
Qed.

(** One commit without a merge is one serial step. *)
Lemma commit_one_serial snap tx o kv kv' report report' :
  good snap → good kv → grows snap kv →
  execute (src tx) (fuel_first tx) (as_kv snap) = Ok o →
  commit_one (as_kv snap) tx o kv report = Ok (kv', report') → merged report' = merged report →
  ∃ r o', txs report' = txs report ++ [r] ∧ conflicts report' = conflicts report + retries [r] ∧
    execute (src tx) (fuel_used tx r) (as_kv kv) = Ok o' ∧ tx_result r = result o' ∧
    apply kv (out_writes o') = Ok kv'.
Proof.
  intros Hsnap Hkv Hg He. unfold commit_one.
  destruct (validate (out_reads o) (as_kv kv)) as [[]|e| |] eqn:Hv;
    intros E Hm; cbn [mbind outcome_bind] in E; outcomes; try done.
  - destruct (run_replays snap kv (src tx) (fuel_first tx) o) as (o' & Eo' & Hr & Hw); [done..|].
    exists (mkTxReport (result o) false), o'. cbn. rewrite Hr, Hw. splits; (done || lia).
  - cbn [merged] in Hm. lia.
  - by eexists (mkTxReport _ true), _.
Qed.

Lemma commit_all_serial snap reqs os kv kv' report report' :
  good snap → good kv → grows snap kv →
  mapM_out (λ tx, execute (src tx) (fuel_first tx) (as_kv snap)) reqs = Ok os →
  commit_all (as_kv snap) (zip reqs os) report kv = (Ok report', kv') →
  merged report' = merged report →
  good kv' ∧ ∃ rs, txs report' = txs report ++ rs ∧ length rs = length reqs ∧
    conflicts report' = conflicts report + retries rs ∧
    run_serial kv (serial_requests reqs rs) = Ok (kv', tx_result <$> rs).
Proof.
  intros Hsnap. revert os kv report. induction reqs as [|tx reqs IH]; intros os kv report Hkv Hg Hos.
  { injection Hos as <-. cbn [zip zip_with commit_all]. intros [= <- <-] _.
    split; [done|]. exists []. cbn. rewrite app_nil_r. splits; (done || lia). }
  cbn [mapM_out] in Hos. outcomes. cbn [zip zip_with commit_all]. intros E Hm.
  destruct (commit_one _ tx _ kv report) as [[k1 rep1]|e| |] eqn:Eone; [|done..].
  pose proof (commit_one_merged _ _ _ _ _ _ _ Eone) as Hm1.
  pose proof (commit_all_merged _ _ _ _ _ _ E) as Hm2.
  destruct (commit_one_serial snap tx _ kv k1 report rep1 Hsnap Hkv Hg ltac:(eassumption) Eone)
    as (r & o' & Ht & Hc & Ee & Hr & Ha); [lia|].
  destruct (run_writes kv _ _ _ Hkv Ee) as (k2 & Ea & Hgood).
  assert (k2 = k1) as -> by congruence.
  eapply IH in E as (Hgood' & rs & Hrs & Hlen & Hc' & Hrun);
    [|done|eapply grows_trans; [done|by eapply apply_grows]|done|lia].
  split; [done|]. exists (r :: rs). splits.
  - rewrite Hrs, Ht. by rewrite <- app_assoc.
  - cbn. by rewrite Hlen.
  - cbn [retries] in *. lia.
  - cbn [serial_requests zip_with run_serial]. rewrite Ee. cbn [mbind outcome_bind].
    rewrite Ha. cbn [mbind outcome_bind]. unfold serial_requests in Hrun. rewrite Hrun.
    cbn [mbind outcome_bind fmap list_fmap]. by rewrite Hr.
Qed.

(** C16: a batch committed without merges is serializable: every request has one
    report, the conflicts counted are the re-executions, and running the
    requests one after the other, each with the fuel of its last execution,
    gives the same store and the same results. *)
Theorem occ_serializable kv reqs kv' report :
  good kv → commit_batch reqs kv = (Ok report, kv') → merged report = 0 →
  good kv' ∧ length (txs report) = length reqs ∧ conflicts report = retries (txs report) ∧
  run_serial kv (serial_requests reqs (txs report)) = Ok (kv', tx_result <$> txs report).
Proof.
  intros Hkv. unfold commit_batch. intros E Hm.
  destruct (speculate (as_kv kv) reqs) as [os|e| |] eqn:Es; [|done..].
  rewrite (SM_bind_ok _ _ kv os kv eq_refl) in E.
  edestruct commit_all_serial as (Hgood & rs & Hrs & Hlen & Hc & Hrun);
    [exact Hkv|exact Hkv|apply grows_refl|exact Es|exact E|done|].
  cbn [txs conflicts BatchReport_default app] in *. subst rs. splits; (done || lia).
Qed.

(** ** A batch that cannot fail *)

(** The run answers and touches no persistent collection. *)
Definition runs_plainly (s : Src) (fuel : Z) : Prop :=
  ∀ kv, good kv → ∃ o, execute s fuel (as_kv kv) = Ok o ∧
    ∀ k v, out_reads o !! k = Some v → is_persistent v = false.

Lemma validate_total kv rs :
  Forall (λ p, ∃ b, serialize p.2 = Ok b) rs → ∃ b, validate_reads kv rs = Ok b.
Proof.
  induction 1 as [|[k v] rs [b Hb] _ [r IH]]; cbn [validate_reads]; [by eexists|].
  unfold observed_matches. destruct (kv_get kv k) as [bs|].
  - cbn [snd] in Hb. rewrite Hb. cbn [mbind outcome_bind]. case_bool_decide; by eexists.
  - cbn [mbind outcome_bind]. destruct (is_default v); by eexists.
Qed.

(** Stale plain reads cannot be merged. *)
Lemma stale_not_mergeable ws kv rs :
  Forall (λ p, is_persistent p.2 = false) rs →
  validate_reads kv rs = Ok false → mergeable_cells ws kv rs = Ok None.
Proof.
  induction 1 as [|[k v] rs Hp _ IH]; cbn [validate_reads mergeable_cells]; [done|].
  cbn [snd] in Hp. rewrite Hp.
  destruct (observed_matches _ v) as [[]|e| |]; cbn [mbind outcome_bind]; done.
Qed.

Lemma commit_one_total snap tx o kv report :
  good snap → good kv → grows snap kv →
  execute (src tx) (fuel_first tx) (as_kv snap) = Ok o →
  (∀ k v, out_reads o !! k = Some v → is_persistent v = false) →
  runs_plainly (src tx) (fuel_retry tx) →
  ∃ kv' report', commit_one (as_kv snap) tx o kv report = Ok (kv', report') ∧
    good kv' ∧ grows snap kv' ∧ merged report' = merged report.
Proof.
  intros Hsnap Hkv Hg He Hplain Hre. unfold commit_one.
  destruct (validate_total (as_kv kv) (map_to_list (out_reads o))) as [valid Hv].
  { apply Forall_forall. intros [k v] Hin%elem_of_map_to_list. by eapply (run_reads snap). }
  unfold validate. rewrite Hv. cbn [mbind outcome_bind]. destruct valid.
  - destruct (run_replays snap kv (src tx) (fuel_first tx) o) as (o' & Eo' & _ & Hw); [done..|].
    destruct (run_writes kv _ _ _ Hkv Eo') as (kv' & Ea & Hgood). rewrite Hw in Ea. rewrite Ea.
    cbn [mbind outcome_bind]. eexists _, _. splits; [done|done| |done].
    eapply grows_trans; [done|by eapply apply_grows].
  - unfold try_persistent_merge. rewrite stale_not_mergeable; [|apply Forall_forall|done].
    2: { intros [k v] Hin%elem_of_map_to_list. by eapply Hplain. }
    cbn [bind_opt mbind outcome_bind]. destruct (Hre kv Hkv) as (re & Ere & _). rewrite Ere.
    cbn [mbind outcome_bind]. destruct (run_writes kv _ _ _ Hkv Ere) as (kv' & Ea & Hgood).
    rewrite Ea. cbn [mbind outcome_bind]. eexists _, _. splits; [done|done| |done].
    eapply grows_trans; [done|by eapply apply_grows].
Qed.

Definition request_plain (tx : TxRequest Src) : Prop :=
  runs_plainly (src tx) (fuel_first tx) ∧ runs_plainly (src tx) (fuel_retry tx).

Lemma commit_all_total snap reqs kv report :
  good snap → good kv → grows snap kv → Forall request_plain reqs →
  ∃ os kv' report', speculate (as_kv snap) reqs = Ok os ∧
    commit_all (as_kv snap) (zip reqs os) report kv = (Ok report', kv') ∧
    merged report' = merged report.
Proof.
  intros Hsnap Hkv Hg Hf. revert kv report Hkv Hg.
  induction Hf as [|tx reqs [H1 H2] _ IH]; intros kv report Hkv Hg; [by exists [], kv, report|].
  destruct (H1 snap Hsnap) as (o & Eo & Hp).
  destruct (commit_one_total snap tx o kv report) as (k1 & rep1 & E1 & Hk1 & Hg1 & Hm1); [done..|].
  destruct (IH k1 rep1 Hk1 Hg1) as (os & kv' & report' & Es & Ec & Hm).
  exists (o :: os), kv', report'. unfold speculate in *. cbn [mapM_out]. rewrite Eo.
  cbn [mbind outcome_bind]. rewrite Es. cbn [mbind outcome_bind zip zip_with commit_all].
  rewrite E1. splits; [done|exact Ec|by rewrite Hm].
Qed.

(** C17: a batch of requests that do not fail and read no persistent collection
    always commits, by at most one retry each, and is serializable. *)
Theorem occ_commits kv reqs :
  good kv → Forall request_plain reqs →
  ∃ kv' report, commit_batch reqs kv = (Ok report, kv') ∧ merged report = 0 ∧ good kv' ∧
    conflicts report <= Z.of_nat (length reqs) ∧
    run_serial kv (serial_requests reqs (txs report)) = Ok (kv', tx_result <$> txs report).
Proof.
  intros Hkv Hf.
  destruct (commit_all_total kv reqs kv BatchReport_default) as (os & kv' & report & Es & Ec & Hm);
    [done|done|apply grows_refl|done|].
  exists kv', report. unfold commit_batch. rewrite Es.
  rewrite (SM_bind_ok _ _ kv os kv eq_refl). cbn in Hm.
  edestruct commit_all_serial as (Hgood & rs & Hrs & Hlen & Hc & Hrun);
    [exact Hkv|exact Hkv|apply grows_refl|exact Es|exact Ec|done|].
  cbn [txs conflicts BatchReport_default app] in *. subst rs. splits; [done..| |done].
  rewrite Hc, <- Hlen. generalize (txs report). intros rs.
  induction rs as [|r rs IH]; cbn [retries length]; [lia|]. destruct (re_executed r); lia.
Qed.
End occ.
