(* ===== verification/TxRun.v ===== *)
(** Programs over a transaction: a run is determined by its read set.

    A program is any finite tree of reads, writes, results and errors, each
    read continuing with the value observed.  Run in a transaction over a store
    whose cells hold values of the declared types, it reads and writes values
    of the declared types only, commits to such a store again, and replays
    identically over every store its read set validates against.  This makes
    programs an executor of the commit driver. *)
From S2P Require Import Prelude Bytes Values Serialize SerializeFacts Kv Merkle Tx TxTyped TxFacts.
From S2P Require Import Occ OccFacts.

(** ** Programs *)
Inductive Prog :=
  | PRet (v : Value)
  | PErr (e : Error)
  | PRead (key : Z) (next : Value → Prog)
  | PWrite (key : Z) (v : Value) (next : Prog).

Lemma storable_unwrap `{BigIntCodec} v ty : storable v ty = true → storable v (unwrap_explicit ty) = true.
Proof. by destruct ty, v. Qed.

(** A value of a storable type holds no pending handle. *)
Lemma storable_concrete `{BigIntCodec} v ty : storable v ty = true → contains_pending v = false.
Proof.
  revert ty. induction v as [v Hv|l IH|l IH|l IH|n l IH|l IH|e n l IH|j IH| | |] using value_ind_nested
    with (Q := λ _, True); try done.
  - by destruct v.
  - intros ty. destruct ty; try done. cbn [storable contains_pending].
    intros [_ Hl]%andb_prop. rewrite forallb_Forall in Hl.
    apply existsb_false. rewrite Forall_forall in *. eauto.
  - intros ty. assert (Hgen : ∀ tys : list (bytes * Ty),
      forallb2 (λ p q, bool_decide (p.1 = q.1) && storable p.2 q.2) l tys = true →
      existsb (λ p, contains_pending p.2) l = false).
    { intros tys Hl. apply existsb_false. apply forallb2_Forall2 in Hl.
      induction Hl as [|[k v] [k' t] l tys Hh _ IHl]; [constructor|].
      apply Forall_cons in IH as [IHv IHt]. constructor; [|by apply IHl].
      apply andb_prop in Hh as [_ Hh]. by eapply IHv. }
    destruct ty; try done; cbn [storable contains_pending]; intros [_ Hl]%andb_prop; eauto.
Qed.

(** ** Running over a schema *)
Section run.
Context `{Laws : BigIntCodecLaws} (schema : Z → Ty).

Fixpoint run (p : Prog) : SM Tx Value :=
  match p with
  | PRet v => mret v
  | PErr e => lift (Err e)
  | PRead key next => v ← (x ← read_cell_tx key (schema key); force_tx x); run (next v)
  | PWrite key v next => _ ← write_tx key v; run next
  end.

(** Every value written has its cell's type, whatever well-typed values were
    read. *)
Inductive typed : Prog → Prop :=
  | typed_ret v : typed (PRet v)
  | typed_err e : typed (PErr e)
  | typed_read key next :
      (∀ v, storable v (schema key) = true → typed (next v)) → typed (PRead key next)
  | typed_write key v next :
      storable v (schema key) = true → typed next → typed (PWrite key v next).

(** Every cell holds the encoding of a value of its type. *)
Definition conforms (kv : InMemoryKv) : Prop :=
  ∀ k bs, kv !! k = Some bs → ∃ v, storable v (schema k) = true ∧ bs = ser v.

Context (schema_ok : ∀ k, storable (default_for (schema k)) (schema k) = true).

Lemma kv_observe_conforms kv k :
  conforms kv → ∃ v, kv_observe (as_kv kv) k (schema k) = Ok v ∧ storable v (schema k) = true ∧
    match kv !! k with Some bs => bs = ser v | None => v = default_for (schema k) end.
Proof.
  intros Hc. unfold kv_observe, observe. cbn. destruct (kv !! k) as [bs|] eqn:Hk.
  - destruct (Hc _ _ Hk) as (v & Hv & ->). exists v.
    rewrite (deserialize_ser v (schema k)); [done|]. by apply storable_unwrap.
  - by exists (default_for (schema k)).
Qed.

(** *** One read and one write *)

(** A transaction midway: it caches observations of its store and holds
    well-typed writes. *)
Definition midway (kv : InMemoryKv) (t : Tx) : Prop :=
  settled t ∧ tx_parent t = None ∧ tx_kv t = as_kv kv ∧
  (∀ k v, writes t !! k = Some v → storable v (schema k) = true) ∧
  (∀ k v, reads t !! k = Some v → kv_observe (as_kv kv) k (schema k) = Ok v).

Lemma midway_new kv : midway kv (new (as_kv kv)).
Proof.
  unfold midway, new, new_with_context. cbn. splits; try done; intros k v; by rewrite lookup_empty.
Qed.

Lemma read_midway kv t k :
  conforms kv → midway kv t →
  ∃ v t', (x ← read_cell_tx k (schema k); force_tx x) t = (Ok v, t') ∧ midway kv t' ∧
    storable v (schema k) = true ∧ writes t' = writes t ∧
    match own_lookup t k with
    | Some w => v = w ∧ reads t' = reads t
    | None => kv_observe (as_kv kv) k (schema k) = Ok v ∧ reads t' = <[k := v]> (reads t)
    end.
Proof.
  intros Hc (Hs & Hp & Hkv & Hw & Hr).
  destruct (kv_observe_conforms kv k Hc) as (v0 & Ev0 & Hv0 & _).
  assert (Hv : ∃ v, tx_observe t k (schema k) = Ok v ∧ storable v (schema k) = true ∧
    match own_lookup t k with Some w => v = w | None => kv_observe (as_kv kv) k (schema k) = Ok v end).
  { unfold tx_observe. rewrite chain_lookup_own, Hkv. unfold own_lookup, parent_lookup. rewrite Hp.
    destruct (writes t !! k) as [w|] eqn:Ew; [exists w; splits; [done|by apply Hw|done]|].
    destruct (reads t !! k) as [w|] eqn:Er; [|cbn; by exists v0].
    exists w. splits; [done| |done]. apply Hr in Er. congruence. }
  destruct Hv as (v & Ev & Hst & Hown).
  destruct (read_cell_force t k (schema k) v Hs Ev) as (t' & E & Hs' & Hrec);
    [by eapply storable_concrete|].
  exists v, t'. destruct Hrec as (Hkv' & Hp' & Hw' & Hr' & _).
  assert (Hreads : match own_lookup t k with
                   | Some w => v = w ∧ reads t' = reads t
                   | None => kv_observe (as_kv kv) k (schema k) = Ok v ∧ reads t' = <[k := v]> (reads t)
                   end) by (destruct (own_lookup t k); done).
  splits; [exact E| |done|done|exact Hreads].
  unfold midway. splits; [done|congruence|congruence|intros k' w; rewrite Hw'; apply Hw|].
  intros k' w Hk'. destruct (own_lookup t k); destruct Hreads as [Ho Hre]; rewrite Hre in Hk'.
  - by apply Hr.
  - apply lookup_insert_Some in Hk' as [[<- <-]|[_ Hk']]; [done|by apply Hr].
Qed.

Lemma write_midway kv t k v :
  storable v (schema k) = true → midway kv t →
  write_tx k v t = (Ok tt, with_writes <[k := v]> t) ∧ midway kv (with_writes <[k := v]> t).
Proof.
  intros Hv (Hs & Hp & Hkv & Hw & Hr).
  destruct (settled_write t k v Hs) as [E Hs']; [by eapply storable_concrete|].
  split; [exact E|]. unfold midway. splits; [done..| |done].
  intros k' w. cbn. intros [[<- <-]|[_ Hk']]%lookup_insert_Some; [done|by apply Hw].
Qed.

(** *** Whole runs *)
Lemma run_midway kv p t :
  conforms kv → typed p → midway kv t →
  ∃ r t', run p t = (r, t') ∧ midway kv t' ∧ reads t ⊆ reads t' ∧
    match r with Ok _ | Err _ => True | _ => False end.
Proof.
  intros Hc Hp. revert t.
  induction Hp as [v|e|k next Hn IH|k v next Hv Hn IH]; intros t Ht; cbn [run].
  - by exists (Ok v), t.
  - by exists (Err e), t.
  - destruct (read_midway kv t k Hc Ht) as (v & t1 & E & Ht1 & Hv & Hw & Hown).
    rewrite (SM_bind_ok _ _ _ _ _ E).
    destruct (IH v Hv t1 Ht1) as (r & t' & E' & Ht' & Hsub & Hr).
    exists r, t'. splits; [done|done| |done]. etransitivity; [|exact Hsub].
    destruct (own_lookup t k) eqn:Eo; destruct Hown as [_ Hre]; rewrite Hre; [done|].
    apply insert_subseteq. unfold own_lookup in Eo. by destruct (writes t !! k).
  - destruct (write_midway kv t k v Hv Ht) as [E Ht1]. rewrite (SM_bind_ok _ _ _ _ _ E).
    destruct (IH _ Ht1) as (r & t' & E' & Ht' & Hsub & Hr). by exists r, t'.
Qed.

Lemma run_replay kv1 kv2 p t1 t2 r t1' :
  conforms kv1 → conforms kv2 → typed p → midway kv1 t1 → midway kv2 t2 →
  reads t1 = reads t2 → writes t1 = writes t2 → run p t1 = (r, t1') →
  (∀ k w, reads t1' !! k = Some w → kv_observe (as_kv kv2) k (schema k) = Ok w) →
  ∃ t2', run p t2 = (r, t2') ∧ reads t2' = reads t1' ∧ writes t2' = writes t1'.
Proof.
  intros Hc1 Hc2 Hp. revert t1 t2.
  induction Hp as [v|e|k next Hn IH|k v next Hv Hn IH]; intros t1 t2 H1 H2 Hr Hw E Hobs;
    cbn [run] in *.
  - injection E as <- <-. by exists t2.
  - injection E as <- <-. by exists t2.
  - destruct (read_midway kv1 t1 k Hc1 H1) as (v & t1a & E1 & H1a & Hv & Hw1 & Ho1).
    rewrite (SM_bind_ok _ _ _ _ _ E1) in E.
    destruct (read_midway kv2 t2 k Hc2 H2) as (v2 & t2a & E2 & H2a & _ & Hw2 & Ho2).
    rewrite (SM_bind_ok _ _ _ _ _ E2).
    assert (Hown : own_lookup t2 k = own_lookup t1 k) by (unfold own_lookup; by rewrite Hr, Hw).
    assert (v2 = v ∧ reads t1a = reads t2a) as [-> Hra].
    { rewrite Hown in Ho2. destruct (own_lookup t1 k) as [w|].
      - destruct Ho1 as [-> ->], Ho2 as [-> ->]. done.
      - destruct Ho1 as [_ Hr1], Ho2 as [Hk2 Hr2].
        destruct (run_midway kv1 (next v) t1a Hc1 (Hn v Hv) H1a) as (r' & t' & E' & _ & Hsub & _).
        assert (t' = t1') as -> by congruence.
        assert (Hkv : kv_observe (as_kv kv2) k (schema k) = Ok v).
        { apply Hobs. eapply lookup_weaken; [|exact Hsub]. rewrite Hr1. apply lookup_insert_eq. }
        assert (v2 = v) as -> by congruence. split; [done|]. congruence. }
    by apply (IH v Hv t1a t2a); [..|congruence|exact E|exact Hobs].
  - destruct (write_midway kv1 t1 k v Hv H1) as [E1 H1a].
    destruct (write_midway kv2 t2 k v Hv H2) as [E2 H2a].
    rewrite (SM_bind_ok _ _ _ _ _ E1) in E. rewrite (SM_bind_ok _ _ _ _ _ E2).
    apply (IH _ _ H1a H2a); [done| |exact E|exact Hobs]. cbn. by rewrite Hw.
Qed.
End run.

(** ** Programs as an executor of the commit driver *)
Section executor.
Context `{Laws : BigIntCodecLaws} (schema : Z → Ty).
Context (schema_ok : ∀ k, storable (default_for (schema k)) (schema k) = true).

Record TypedProg := typed_prog { prog : Prog; prog_typed : typed schema prog }.

(** A program needs no fuel. *)
#[export] Instance prog_executor : Executor TypedProg :=
  λ p _ kv, run_in_tx (run schema (prog p)) kv.

Lemma run_in_tx_ok p kv o :
  run_in_tx p kv = Ok o →
  ∃ t, p (new kv) = (Ok (result o), t) ∧ out_reads o = reads t ∧ out_writes o = writes t.
Proof.
  unfold run_in_tx. destruct (p (new kv)) as [[v|e| |] t]; [|done..].
  cbn. intros [= <-]. by exists t.
Qed.

Lemma validate_reads_true kv rs :
  validate_reads kv rs = Ok true →
  Forall (λ p, observed_matches (kv_get kv p.1) p.2 = Ok true) rs.
Proof.
  induction rs as [|[k v] rs IH]; cbn [validate_reads]; [by constructor|].
  destruct (observed_matches (kv_get kv k) v) as [[]|e| |] eqn:E; cbn [mbind outcome_bind]; try done.
  intros Hrs. constructor; [done|by apply IH].
Qed.

(** A validated observation is what the newer store shows. *)
Lemma validated_observe kv kv' k w :
  conforms schema kv → grows kv kv' → kv_observe (as_kv kv) k (schema k) = Ok w →
  observed_matches (kv_get (as_kv kv') k) w = Ok true →
  kv_observe (as_kv kv') k (schema k) = Ok w.
Proof.
  intros Hc Hg Hw. destruct (kv_observe_conforms schema schema_ok kv k Hc) as (w' & Ew & Hst & Hk).
  assert (w' = w) as -> by congruence. unfold observed_matches, kv_observe, observe. cbn.
  destruct (kv' !! k) as [bs|] eqn:Hk'.
  - rewrite (serialize_ser w (schema k) Hst). cbn [mbind outcome_bind].
    intros [= ->%bool_decide_eq_true]. rewrite (deserialize_ser w (schema k)); [done|].
    by apply storable_unwrap.
  - intros _. destruct (kv !! k) as [b|] eqn:Hkk; [|by rewrite Hk].
    destruct (Hg k) as [b' Hb']; [by exists b|]. congruence.
Qed.

Lemma midway_reads kv t :
  conforms schema kv → midway schema kv t →
  map_Forall (λ k v, storable v (schema k) = true) (reads t).
Proof.
  intros Hc (_ & _ & _ & _ & Hrs) k v Hk%Hrs.
  destruct (kv_observe_conforms schema schema_ok kv k Hc) as (w & Hw & Hst & _).
  by replace v with w by congruence.
Qed.

Lemma midway_commits kv t :
  conforms schema kv → midway schema kv t →
  ∃ kv', apply kv (writes t) = Ok kv' ∧ conforms schema kv'.
Proof.
  intros Hc (_ & _ & _ & Hws & _).
  destruct (apply_writes_ok ser kv (writes t)) as (kv' & Ea & Hk).
  { intros k v Hkv. eapply serialize_ser. by apply Hws. }
  exists kv'. split; [exact Ea|]. intros k bs Hbs. specialize (Hk k). cbn in Hk.
  unfold overlay_get in Hk. destruct (writes t !! k) as [v|] eqn:Hv.
  - exists v. split; [by apply Hws|]. congruence.
  - apply (Hc k). congruence.
Qed.

(** A whole program, from a fresh transaction. *)
Lemma run_new kv p :
  conforms schema kv → typed schema p →
  ∃ r t, run schema p (new (as_kv kv)) = (r, t) ∧ midway schema kv t ∧
    match r with Ok _ | Err _ => True | _ => False end.
Proof.
  intros Hc Hp. destruct (run_midway schema schema_ok kv p (new (as_kv kv)))
    as (r & t & E & Ht & _ & Hr); [done|done|apply midway_new|]. by exists r, t.
Qed.

Lemma replay_new kv kv' p r t :
  conforms schema kv → conforms schema kv' → grows kv kv' → typed schema p →
  run schema p (new (as_kv kv)) = (r, t) → validate (reads t) (as_kv kv') = Ok true →
  ∃ t', run schema p (new (as_kv kv')) = (r, t') ∧ reads t' = reads t ∧ writes t' = writes t.
Proof.
  intros Hc Hc' Hg Hp E Hv.
  eapply run_replay; [exact schema_ok|exact Hc|exact Hc'|exact Hp|apply midway_new
    |apply midway_new|done|done|exact E|].
  intros k w Hk. destruct (run_new kv p Hc Hp) as (r' & t' & E' & Ht' & _).
  assert (t' = t) as -> by congruence. eapply validated_observe; [exact Hc|exact Hg|by apply Ht'|].
  apply validate_reads_true in Hv. rewrite Forall_forall in Hv.
  by apply (Hv (k, w)), elem_of_map_to_list.
Qed.

#[export] Instance prog_executor_laws : ExecutorLaws (Src := TypedProg) (conforms schema).
Proof.
  split.
  - intros kv kv' p fuel o Hc Hc' Hg E Hv. apply run_in_tx_ok in E as (t & E & Er & Ew).
    rewrite Er in Hv. destruct (replay_new kv kv' (prog p) (Ok (result o)) t) as (t2 & E2 & _ & Hw2);
      [done|done|done|apply prog_typed|exact E|exact Hv|].
    unfold execute, prog_executor, run_in_tx. rewrite E2. cbn. eexists. split; [done|].
    split; [done|]. cbn. by rewrite Hw2, Ew.
  - intros kv p fuel o Hc E. apply run_in_tx_ok in E as (t & E & Er & Ew). rewrite Ew.
    destruct (run_new kv (prog p) Hc (prog_typed p)) as (r & t' & E' & Ht' & _).
    assert (t' = t) as -> by congruence. by apply midway_commits.
  - intros kv p fuel o k v Hc E Hk. apply run_in_tx_ok in E as (t & E & Er & Ew).
    destruct (run_new kv (prog p) Hc (prog_typed p)) as (r & t' & E' & Ht' & _).
    assert (t' = t) as -> by congruence. rewrite Er in Hk.
    exists (ser v). eapply serialize_ser. by eapply midway_reads.
Qed.

(** *** Programs without errors *)
Inductive answers : Prog → Prop :=
  | answers_ret v : answers (PRet v)
  | answers_read key next : (∀ v, answers (next v)) → answers (PRead key next)
  | answers_write key v next : answers next → answers (PWrite key v next).

Lemma run_answers kv p t :
  conforms schema kv → typed schema p → answers p → midway schema kv t →
  ∃ v t', run schema p t = (Ok v, t').
Proof.
  intros Hc Hp Ha. revert t Hp. induction Ha as [v|k next Ha IH|k v next Ha IH]; intros t Hp Ht;
    cbn [run]; [by exists v, t| |]; inversion Hp as [|?|? ? Hn|? ? ? Hv Hn]; subst.
  - destruct (read_midway schema schema_ok kv t k Hc Ht) as (v & t1 & E & Ht1 & Hv & _).
    rewrite (SM_bind_ok _ _ _ _ _ E). by eapply IH; [apply Hn|].
  - destruct (write_midway schema kv t k v Hv Ht) as [E Ht1].
    rewrite (SM_bind_ok _ _ _ _ _ E). by eapply IH.
Qed.

Lemma answers_plainly (p : TypedProg) fuel :
  (∀ k v, storable v (schema k) = true → is_persistent v = false) → answers (prog p) →
  runs_plainly (conforms schema) p fuel.
Proof.
  intros Hplain Ha kv Hc.
  destruct (run_answers kv (prog p) (new (as_kv kv)) Hc (prog_typed p) Ha) as (v & t & E);
    [apply midway_new|].
  destruct (run_new kv (prog p) Hc (prog_typed p)) as (r & t' & E' & Ht' & _).
  assert (t' = t) as -> by congruence.
  unfold execute, prog_executor, run_in_tx. rewrite E. cbn. eexists. split; [done|].
  intros k w Hk. apply (Hplain k). by eapply (midway_reads kv t).
Qed.

(** C19: types are preserved by transactions: a well-typed program run over a
    store of well-typed cells answers a result or its own error, never a panic,
    and what it leaves behind is well-typed: the values read, the values
    written, and the store after the commit. *)
Theorem tx_preserves_types kv p :
  conforms schema kv → typed schema p →
  ∃ r t, run schema p (new (as_kv kv)) = (r, t) ∧
    match r with Ok _ | Err _ => True | _ => False end ∧
    map_Forall (λ k v, storable v (schema k) = true) (reads t) ∧
    map_Forall (λ k v, storable v (schema k) = true) (writes t) ∧
    ∃ kv', apply kv (writes t) = Ok kv' ∧ conforms schema kv'.
Proof.
  intros Hc Hp. destruct (run_new kv p Hc Hp) as (r & t & E & Ht & Hr). exists r, t.
  splits; [done|done|by eapply midway_reads| |by apply midway_commits].
  by destruct Ht as (_ & _ & _ & Hws & _).
Qed.

(** C18: the read set determines the run: over any well-typed later store that
    validates it, a program gives the same result or error, the same reads and
    the same writes. *)
Theorem tx_read_set_determines_run kv kv' p r t :
  conforms schema kv → conforms schema kv' → grows kv kv' → typed schema p →
  run schema p (new (as_kv kv)) = (r, t) → validate (reads t) (as_kv kv') = Ok true →
  ∃ t', run schema p (new (as_kv kv')) = (r, t') ∧ reads t' = reads t ∧ writes t' = writes t.
Proof. apply replay_new. Qed.
End executor.
