(* ===== verification/Rocks.v ===== *)
(** The RocksDB backend ([crates/rend-rocksdb/src/lib.rs]): namespaced keys,
    the read view of a namespace, the group commit with its validation and
    merge, and the monotonic authentication nonces.

    The database itself is not part of the repository: it is the class
    [RocksDb], whose laws state the documented behaviour of its point reads and
    write batches. *)
From S2P Require Import Prelude Bytes Values Serialize Kv Pmap Occ.

(** ** The database *)
Class RocksDb (D : Type) := {
  db_get : D → bytes → outcome (option bytes);
  db_multi_get : D → list bytes → list (outcome (option bytes));
  db_write : D → list (bytes * bytes) → outcome D;
}.

(** A batch takes effect as a whole: the last write of a key wins, other keys
    keep their value. *)
Class RocksDbLaws (D : Type) `{RocksDb D} := {
  multi_get_each d ks : db_multi_get d ks = db_get d <$> ks;
  write_get d batch d' k :
    db_write d batch = Ok d' →
    db_get d' k = match list_find (λ e, e.1 = k) (reverse batch) with
                  | Some (_, (_, v)) => Ok (Some v)
                  | None => db_get d k
                  end;
}.

(** ** Keys *)
Definition NAMESPACE_PREFIX_LEN : nat := 8.
Definition CELL_KEY_LEN : nat := 16.
Definition FULL_KEY_LEN : nat := NAMESPACE_PREFIX_LEN + CELL_KEY_LEN.

(** The prefix and the cell, big-endian, fill the key. *)
Definition encode_key (ns cell : Z) : bytes :=
  be_bytes NAMESPACE_PREFIX_LEN ns ++ be_bytes CELL_KEY_LEN cell.

Section rocks.
Context `{BigIntCodec} {D : Type} `{RocksDb D}.

(** ** [NamespacedKv]: a failed read is a missing cell. *)
Definition ok_flatten (r : outcome (option bytes)) : option bytes :=
  match r with Ok o => o | _ => None end.

Definition namespace (d : D) (ns : Z) : Kv :=
  mkKv (λ key, ok_flatten (db_get d (encode_key ns key)))
       (λ keys, ok_flatten <$> db_multi_get d (encode_key ns <$> keys)).

(** ** [RocksKv::apply]: a plain batch. *)
Definition stage (ns : Z) (ws : list (Z * Value)) : outcome (list (bytes * bytes)) :=
  mapM_out (λ '(cell, value), b ← serialize value; Ok (encode_key ns cell, b)) ws.

Definition apply_ns (ns : Z) (writes : gmap Z Value) (d : D) : outcome D :=
  batch ← stage ns (map_to_list writes);
  db_write d batch.

(** ** Group commit *)
Inductive CommitResult := Committed | Conflict.

Record CommitJob := mkJob {
  job_reads : gmap Z Value;
  job_writes : gmap Z Value;
  job_pmap_types : gmap Z (Ty * Ty);
}.

Definition read_matches (on_disk : option bytes) (expected : Value) : outcome bool :=
  match on_disk with
  | None => Ok (is_default expected)
  | Some bs => want ← serialize expected; Ok (bool_decide (bs = want))
  end.

(** [MergeKv]: the job's writes, then the batch's, then the namespace.  The key
    is a [u128]. *)
Definition merge_kv (base : Kv) (job_overlay batch_overlay : gmap Z Value) : Kv :=
  let get (key : Z) :=
    let key := wrap_u 128 key in
    match job_overlay !! key with
    | Some v => Some (ser_bytes v)
    | None => match batch_overlay !! key with
              | Some v => Some (ser_bytes v)
              | None => kv_get base key
              end
    end in
  mkKv get (fmap get).

(** The effective bytes of a cell: the batch, then the disk. *)
Definition effective (d : D) (ns : Z) (overlay : gmap Z Value) (cell : Z) :
    outcome (option bytes) :=
  match overlay !! cell with
  | Some v => b ← serialize v; Ok (Some b)
  | None => db_get d (encode_key ns cell)
  end.

(** One stale read: merge the job's root with the live one, or give up. *)
Definition merge_stale (d : D) (ns : Z) (job : CommitJob) (overlay : gmap Z Value) (cell : Z)
    (expected : Value) (on_disk : option bytes) (local : gmap Z Value)
    (nodes : list (Z * bytes)) : outcome (option (gmap Z Value * list (Z * bytes))) :=
  '(key_ty, val_ty) <-! job_pmap_types job !! cell;
  match expected with
  | VPMap ancestor_root =>
      live ← (match on_disk with
              | Some b => deserialize b (TPMap key_ty val_ty)
              | None => Ok None
              end);
      let live_root := match live with Some (VPMap h) => h | _ => 0 end in
      match local !! cell with
      | Some (VPMap our_root) =>
          '(root, new_cells) <-?
            Pmap.merge_three_way (merge_kv (namespace d ns) (job_writes job) overlay)
              key_ty val_ty our_root live_root ancestor_root;
          Ok (Some (<[cell := VPMap root]> local, nodes ++ new_cells))
      | _ => Ok None
      end
  | _ => Ok None
  end.

Fixpoint validate_job_reads (d : D) (ns : Z) (job : CommitJob) (overlay : gmap Z Value)
    (rs : list (Z * Value)) (local : gmap Z Value) (nodes : list (Z * bytes)) :
    outcome (option (gmap Z Value * list (Z * bytes))) :=
  match rs with
  | [] => Ok (Some (local, nodes))
  | (cell, expected) :: rs' =>
      on_disk ← effective d ns overlay cell;
      ok ← read_matches on_disk expected;
      if ok : bool then validate_job_reads d ns job overlay rs' local nodes else
      '(local', nodes') <-? merge_stale d ns job overlay cell expected on_disk local nodes;
      validate_job_reads d ns job overlay rs' local' nodes'
  end.

(** The overlay after a job that applies; [None] is a conflict, which promotes
    nothing. *)
Definition validate_and_apply_job (d : D) (ns : Z) (job : CommitJob) (overlay : gmap Z Value) :
    outcome (option (gmap Z Value)) :=
  '(local, nodes) <-?
    validate_job_reads d ns job overlay (map_to_list (job_reads job)) (job_writes job) [];
  Ok (Some (insert_cells nodes (local ∪ overlay))).

Fixpoint validate_jobs (d : D) (ns : Z) (jobs : list CommitJob) (overlay : gmap Z Value) :
    outcome (list CommitResult * gmap Z Value) :=
  match jobs with
  | [] => Ok ([], overlay)
  | job :: jobs' =>
      r ← validate_and_apply_job d ns job overlay;
      match r with
      | Some overlay' =>
          '(rs, final) ← validate_jobs d ns jobs' overlay';
          Ok (Committed :: rs, final)
      | None =>
          '(rs, final) ← validate_jobs d ns jobs' overlay;
          Ok (Conflict :: rs, final)
      end
  end.

(** [commit_batch], under the namespace's mutex: one write for all jobs. *)
Definition commit_batch (ns : Z) (jobs : list CommitJob) (d : D) :
    outcome (list CommitResult * D) :=
  if decide (jobs = []) then Ok ([], d) else
  '(outcomes, overlay) ← validate_jobs d ns jobs ∅;
  batch ← stage ns (map_to_list overlay);
  d' ← db_write d batch;
  Ok (outcomes, d').

(** [commit_with_occ]: a batch of one. *)
Definition commit_with_occ (ns : Z) (job : CommitJob) (d : D) : outcome (CommitResult * D) :=
  '(rs, d') ← commit_batch ns [job] d;
  r ← or_panic (head rs);
  Ok (r, d').
End rocks.

(** ** Nonces

    The nonce column family maps an address to bytes.  One attempt of
    [bump_nonce] reads the row in an optimistic transaction and, when the
    submitted nonce is larger, commits its big-endian bytes.  The database
    decides the fate of a commit: it may go through, which the transaction's
    conflict detection allows only when the row is still the one read, or be
    refused as busy, or fail. *)
Inductive NonceResult := Bumped | TooLow (stored : Z).

(** [buf[..n].copy_from_slice(&b[..n]); u64::from_be_bytes(buf)], a missing row
    being 0. *)
Definition decode_nonce (row : option bytes) : Z :=
  match row with
  | Some b => be_value (take 8 b ++ replicate (8 - length b) 0)
  | None => 0
  end.

(** [submitted.to_be_bytes()]. *)
Definition encode_nonce (n : Z) : bytes := be_bytes 8 n.

Abbreviation Nonces := (gmap bytes bytes).

(** A caller inside [bump_nonce]: about to read, about to commit what it
    compared against, or done. *)
Inductive Caller :=
  | Reading (address : bytes) (submitted : Z)
  | Committing (address : bytes) (submitted : Z) (seen : option bytes)
  | Answered (address : bytes) (submitted : Z) (r : NonceResult)
  | Failed (address : bytes) (submitted : Z).

Inductive Fate := Through | Busy | Broken.

Definition caller_step (fate : Fate) (c : Caller) (db : Nonces) : Caller * Nonces :=
  match c with
  | Reading a n =>
      let stored := decode_nonce (db !! a) in
      if n <=? stored then (Answered a n (TooLow stored), db)
      else (Committing a n (db !! a), db)
  | Committing a n seen =>
      match fate with
      | Through =>
          if decide (db !! a = seen)
          then (Answered a n Bumped, <[a := encode_nonce n]> db)
          else (Reading a n, db)
      | Busy => (Reading a n, db)
      | Broken => (Failed a n, db)
      end
  | Answered _ _ _ | Failed _ _ => (c, db)
  end.

(** Concurrent callers share the table; a schedule says who moves and how its
    commit fares. *)
Definition World : Type := list Caller * Nonces.
Definition world_step (w : World) (move : nat * Fate) : World :=
  match w.1 !! move.1 with
  | Some c => let '(c', db') := caller_step move.2 c w.2 in (<[move.1 := c']> w.1, db')
  | None => w
  end.
Definition run_schedule (moves : list (nat * Fate)) (w : World) : World :=
  foldl world_step w moves.
