(* ===== verification/RocksFacts.v ===== *)
(** The RocksDB backend keeps its promises: keys of different namespaces or
    cells differ, a commit touches its namespace only, a group commit does what
    committing its jobs one by one does, and no interleaving of callers accepts
    a nonce twice. *)
From S2P Require Import Prelude Bytes Hashing Values Serialize SerializeFacts Kv Merkle.
From S2P Require Import NodeCodec PmapNode Pmap Occ Rocks.
(** ** Keys *)
Definition is_ns (ns : Z) : Prop := 0 <= ns < 2 ^ 64.
Definition is_cell (cell : Z) : Prop := 0 <= cell < 2 ^ 128.

Lemma length_encode_key ns cell : length (encode_key ns cell) = FULL_KEY_LEN.
Proof. unfold encode_key. by rewrite length_app, !length_be_bytes. Qed.

Lemma encode_key_cell ns cell cell' :
  is_cell cell → is_cell cell' → encode_key ns cell = encode_key ns cell' → cell = cell'.
Proof. intros Hc Hc' E%app_inv_head. by apply (be_bytes_inj CELL_KEY_LEN). Qed.

Lemma encode_key_split ns ns' cell cell' :
  encode_key ns cell = encode_key ns' cell' →
  be_bytes NAMESPACE_PREFIX_LEN ns = be_bytes NAMESPACE_PREFIX_LEN ns' ∧
  be_bytes CELL_KEY_LEN cell = be_bytes CELL_KEY_LEN cell'.
Proof. intros E. apply app_inj_1 in E; [done|]. by rewrite !length_be_bytes. Qed.

Lemma encode_key_ns ns ns' cell cell' :
  is_ns ns → is_ns ns' → encode_key ns cell = encode_key ns' cell' → ns = ns'.
Proof. intros Hn Hn' [E _]%encode_key_split. by apply (be_bytes_inj NAMESPACE_PREFIX_LEN). Qed.

Lemma be_bytes_S k n :
  be_bytes (S k) n = Z.land (Z.shiftr n (8 * Z.of_nat k)) 255 :: be_bytes k n.
Proof. reflexivity. Qed.

Lemma be_bytes_wrap k w n : 8 * Z.of_nat k <= w → be_bytes k (wrap_u w n) = be_bytes k n.
Proof.
  unfold wrap_u. intros Hw. induction k as [|k IH]; [done|]. rewrite !be_bytes_S, IH by lia.
  f_equal. apply Z.bits_inj'. intros i Hi. change 255 with (Z.ones 8).
  rewrite !Z.land_spec, !Z.shiftr_spec, Z.land_spec, !Z.testbit_ones by lia.
  destruct (Z.ltb_spec i 8); [|by rewrite !andb_false_r].
  replace (i + 8 * Z.of_nat k <? w) with true by (symmetry; apply Z.ltb_lt; lia).
  replace (0 <=? i + 8 * Z.of_nat k) with true by (symmetry; apply Z.leb_le; lia).
  by rewrite andb_true_r.
Qed.

Lemma encode_key_wrap ns cell : encode_key ns (wrap_u 128 cell) = encode_key ns cell.
Proof. unfold encode_key. by rewrite be_bytes_wrap. Qed.

Lemma wrap_cell cell : is_cell (wrap_u 128 cell).
Proof. by apply wrap_u_range. Qed.

(** Keys are 24 bytes and determine their namespace and their cell: two
    namespaces, or two cells of one, never share a row. *)
Theorem encode_key_injective ns ns' cell cell' :
  is_ns ns → is_ns ns' → is_cell cell → is_cell cell' →
  zlen (encode_key ns cell) = 24 ∧
  (encode_key ns cell = encode_key ns' cell' ↔ ns = ns' ∧ cell = cell').
Proof.
  intros Hn Hn' Hc Hc'. split; [unfold zlen; by rewrite length_encode_key|].
  split; [|by intros [-> ->]]. intros E.
  assert (ns = ns') as -> by by apply encode_key_ns in E.
  split; [done|]. by apply encode_key_cell in E.
Qed.

(** ** The merge reads its store pointwise *)
Section merge_ext.
Context `{BigIntCodec} (kv kv' : Kv) (key_ty val_ty : Ty).
Context (Hkv : ∀ k, kv_get kv k = kv_get kv' k).

Lemma read_node_kv_ext h :
  Pmap.read_node_kv kv key_ty val_ty h = Pmap.read_node_kv kv' key_ty val_ty h.
Proof. unfold Pmap.read_node_kv, Merkle.read_node_kv. by rewrite Hkv. Qed.

Lemma merge_slots_ext m m' ba bb bbase ca cb cbase ss bitmap children out :
  (∀ a b c out, m a b c out = m' a b c out) →
  Pmap.merge_slots m ba bb bbase ca cb cbase ss bitmap children out
  = Pmap.merge_slots m' ba bb bbase ca cb cbase ss bitmap children out.
Proof.
  intros Hm. revert bitmap children out. induction ss as [|s ss IH]; intros bitmap children out;
    cbn [Pmap.merge_slots]; [done|].
  destruct (negb _); [apply IH|].
  destruct (Pmap.child_at ba ca _) as [a|e| |]; cbn [mbind outcome_bind]; [|done..].
  destruct (Pmap.child_at bb cb _) as [b|e| |]; cbn [mbind outcome_bind]; [|done..].
  destruct (Pmap.child_at bbase cbase _) as [c|e| |]; cbn [mbind outcome_bind]; [|done..].
  rewrite Hm. destruct (m' a b c out) as [[[r out1]|]|e| |]; cbn [bind_opt]; [|done..].
  destruct (negb (r =? EMPTY)); apply IH.
Qed.

Lemma merge_at_ext fuel a b base out :
  Pmap.merge_at kv key_ty val_ty fuel a b base out
  = Pmap.merge_at kv' key_ty val_ty fuel a b base out.
Proof.
  revert a b base out. induction fuel as [|fuel IH]; intros a b base out; cbn [Pmap.merge_at]; [done|].
  destruct (a =? b); [done|]. destruct (a =? base); [done|]. destruct (b =? base); [done|].
  rewrite !read_node_kv_ext.
  destruct (Pmap.read_node_kv kv' key_ty val_ty a) as [[[na ca]|]|e| |]; cbn [bind_opt]; [|reflexivity..].
  destruct (Pmap.read_node_kv kv' key_ty val_ty b) as [[[nb cb]|]|e| |]; cbn [bind_opt]; [|reflexivity..].
  destruct (Pmap.read_node_kv kv' key_ty val_ty base) as [nbase|e| |];
    cbn [mbind outcome_bind]; [|reflexivity..].
  destruct na as [ba|ea], nb as [bb|eb]; [|reflexivity..].
  destruct nbase as [[[bm|es] cs]|]; cbn iota beta;
    by rewrite (merge_slots_ext _ (Pmap.merge_at kv' key_ty val_ty fuel)) by exact IH.
Qed.

Lemma merge_three_way_ext a b base :
  Pmap.merge_three_way kv key_ty val_ty a b base = Pmap.merge_three_way kv' key_ty val_ty a b base.
Proof. apply merge_at_ext. Qed.
End merge_ext.

(** *** New node cells have hash keys *)
Section merge_cells.
Context `{BigIntCodec} (kv : Kv) (key_ty val_ty : Ty).

Definition cells_ok (out : list (Z * bytes)) : Prop := Forall (λ p, is_cell p.1) out.

Lemma emit_cells bs out h out' :
  Pmap.emit bs out = Ok (Some (h, out')) → cells_ok out → cells_ok out'.
Proof.
  unfold Pmap.emit. intros [= <- <-] Ho. apply Forall_app. split; [done|].
  constructor; [|constructor]. apply child_range.
Qed.

Lemma merge_slots_cells m ba bb bbase ca cb cbase ss bitmap children out r :
  (∀ a b c out h out', m a b c out = Ok (Some (h, out')) → cells_ok out → cells_ok out') →
  Pmap.merge_slots m ba bb bbase ca cb cbase ss bitmap children out = Ok (Some r) →
  cells_ok out → cells_ok r.2.
Proof.
  intros Hm. revert bitmap children out. induction ss as [|s ss IH]; intros bitmap children out;
    cbn [Pmap.merge_slots]; [by intros [= <-]|].
  destruct (negb _); [apply IH|].
  destruct (Pmap.child_at ba ca _) as [a|e| |]; cbn [mbind outcome_bind]; [|done..].
  destruct (Pmap.child_at bb cb _) as [b|e| |]; cbn [mbind outcome_bind]; [|done..].
  destruct (Pmap.child_at bbase cbase _) as [c|e| |]; cbn [mbind outcome_bind]; [|done..].
  destruct (m a b c out) as [[[h out1]|]|e| |] eqn:E; cbn [bind_opt]; [|done..].
  intros Hr Ho. destruct (negb (h =? EMPTY)); eapply IH; (exact Hr || by eapply Hm).
Qed.

Lemma merge_at_cells fuel a b base out h out' :
  Pmap.merge_at kv key_ty val_ty fuel a b base out = Ok (Some (h, out')) →
  cells_ok out → cells_ok out'.
Proof.
  revert a b base out h out'. induction fuel as [|fuel IH]; intros a b base out h out';
    cbn [Pmap.merge_at]; intros E Ho.
  { repeat (case_match; [by simplify_eq|]). done. }
  repeat (case_match; [by simplify_eq|]).
  destruct (Pmap.read_node_kv kv key_ty val_ty a) as [[[na ca]|]|e| |]; cbn [bind_opt] in E; try done.
  destruct (Pmap.read_node_kv kv key_ty val_ty b) as [[[nb cb]|]|e| |]; cbn [bind_opt] in E; try done.
  destruct (Pmap.read_node_kv kv key_ty val_ty base) as [nbase|e| |]; cbn [mbind outcome_bind] in E;
    try done.
  destruct na as [ba|ea], nb as [bb|eb]; try done.
  - assert (Hin : ∀ bbase cbase, ('(bitmap, children, out1) <-?
        Pmap.merge_slots (Pmap.merge_at kv key_ty val_ty fuel) ba bb bbase ca cb cbase
          (seqZ 0 BRANCH) 0 [] out;
        if bitmap =? 0 then Ok (Some (EMPTY, out1))
        else Pmap.emit (serialize_inner bitmap children) out1) = Ok (Some (h, out')) →
      cells_ok out').
    { intros bbase cbase Ei.
      destruct (Pmap.merge_slots _ _ _ _ _ _ _ _ _ _ _) as [[[[bitmap children] out1]|]|e| |] eqn:Es;
        cbn [bind_opt] in Ei; try done.
      apply (merge_slots_cells _ _ _ _ _ _ _ _ _ _ _ _ IH) in Es; [|done]. cbn [snd] in Es.
      destruct (bitmap =? 0); [by simplify_eq|]. by eapply emit_cells. }
    destruct nbase as [[[bm|es] cs]|]; by eapply Hin.
  - destruct (Pmap.to_map ea) as [ma|e| |]; cbn [mbind outcome_bind] in E; try done.
    destruct (Pmap.to_map eb) as [mb|e| |]; cbn [mbind outcome_bind] in E; try done.
    destruct (Pmap.to_map _) as [mbase|e| |]; cbn [mbind outcome_bind] in E; try done.
    destruct (Pmap.merge_keys _ _ _ _ _) as [[merged|]|e| |]; cbn [bind_opt] in E; try done.
    case_decide; [by simplify_eq|].
    destruct (sort_entries merged) as [sorted|e| |]; cbn [mbind outcome_bind] in E; try done.
    destruct (serialize_leaf sorted) as [bs|e| |]; cbn [mbind outcome_bind] in E; try done.
    by eapply emit_cells.
Qed.
End merge_cells.

(** ** Overlays and the disk *)
Section commit.
Context `{BigIntCodec} {D : Type} `{DbLaws : RocksDbLaws D}.

Definition db_val (d : D) (k : bytes) : option bytes := ok_flatten (db_get d k).

(** [d'] is [d] with the cells of an overlay written to one namespace. *)
Definition overlaid (ns : Z) (ov : gmap Z Value) (d d' : D) : Prop :=
  (∀ c, is_cell c → db_val d' (encode_key ns c)
     = match ov !! c with Some v => Some (ser_bytes v) | None => db_val d (encode_key ns c) end) ∧
  (∀ k, (∀ c, is_cell c → k ≠ encode_key ns c) → db_val d' k = db_val d k).

(** Cells in range, values that serialize. *)
Definition writes_ok (ws : gmap Z Value) : Prop :=
  map_Forall (λ c v, is_cell c ∧ serialize v = Ok (ser_bytes v)) ws.

Definition staged (ns : Z) (ws : gmap Z Value) : list (bytes * bytes) :=
  (λ '(c, v), (encode_key ns c, ser_bytes v)) <$> map_to_list ws.

Lemma stage_ok ns ws : writes_ok ws → stage ns (map_to_list ws) = Ok (staged ns ws).
Proof.
  intros Hws. unfold stage, staged. apply mapM_out_ok. intros [c v] Hin%elem_of_map_to_list.
  destruct (Hws c v Hin) as [_ Hs]. by rewrite Hs.
Qed.

Lemma write_val d batch d' k :
  db_write d batch = Ok d' →
  db_val d' k = match list_find (λ e, e.1 = k) (reverse batch) with
                | Some (_, (_, v)) => Some v
                | None => db_val d k
                end.
Proof. intros E. unfold db_val. rewrite (write_get _ _ _ k E).
  by destruct (list_find _ _) as [[i [k' v]]|]. Qed.

Lemma flush_overlaid ns ws d d' :
  writes_ok ws → db_write d (staged ns ws) = Ok d' → overlaid ns ws d d'.
Proof.
  intros Hws E.
  assert (Hin : ∀ k v, (k, v) ∈ reverse (staged ns ws) ↔
    ∃ c x, ws !! c = Some x ∧ k = encode_key ns c ∧ v = ser_bytes x).
  { intros k v. rewrite elem_of_reverse. unfold staged. rewrite list_elem_of_fmap. split.
    - intros ([c x] & [= -> ->] & Hc%elem_of_map_to_list). eauto.
    - intros (c & x & Hc & -> & ->). exists (c, x). split; [done|]. by apply elem_of_map_to_list. }
  split.
  - intros c Hc. rewrite (write_val _ _ _ _ E).
    destruct (list_find _ _) as [[i [k v]]|] eqn:Ef.
    + apply list_find_Some in Ef as (Hi & Hk & _). cbn in Hk. subst k.
      apply list_elem_of_lookup_2, Hin in Hi as (c' & x & Hx & Ek & ->).
      apply encode_key_cell in Ek; [|done|by eapply Hws]. subst c'. by rewrite Hx.
    + apply list_find_None in Ef. destruct (ws !! c) as [x|] eqn:Hx; [|done].
      rewrite Forall_forall in Ef. exfalso. apply (Ef (encode_key ns c, ser_bytes x)); [|done].
      apply Hin. eauto.
  - intros k Hk. rewrite (write_val _ _ _ _ E).
    destruct (list_find _ _) as [[i [k' v]]|] eqn:Ef; [|done].
    apply list_find_Some in Ef as (Hi & Hk' & _). cbn in Hk'. subst k'.
    apply list_elem_of_lookup_2, Hin in Hi as (c & x & Hx & -> & _).
    exfalso. apply (Hk c); [by eapply Hws|done].
Qed.

Lemma overlaid_empty ns d : overlaid ns ∅ d d.
Proof. split; [|done]. intros c _. by rewrite lookup_empty. Qed.

Lemma overlaid_trans ns ov1 ov2 d d1 d2 :
  overlaid ns ov1 d d1 → overlaid ns ov2 d1 d2 → overlaid ns (ov2 ∪ ov1) d d2.
Proof.
  intros [A1 B1] [A2 B2]. split.
  - intros c Hc. rewrite A2, A1 by done. rewrite lookup_union.
    by destruct (ov2 !! c), (ov1 !! c).
  - intros k Hk. by rewrite B2, B1.
Qed.

(** A row of the namespace, or not. *)
Lemma key_cases ns k :
  (∃ c, is_cell c ∧ k = encode_key ns c) ∨ (∀ c, is_cell c → k ≠ encode_key ns c).
Proof.
  destruct (decide (k = encode_key ns (wrap_u 128 (be_value (drop NAMESPACE_PREFIX_LEN k))))) as [E|E].
  - left. eexists. split; [apply wrap_cell|exact E].
  - right. intros c Hc ->. apply E. rewrite encode_key_wrap.
    assert (drop NAMESPACE_PREFIX_LEN (encode_key ns c) = be_bytes CELL_KEY_LEN c) as ->.
    { unfold encode_key. by rewrite drop_app_length' by by rewrite length_be_bytes. }
    f_equal. symmetry. by apply (be_value_be_bytes_id CELL_KEY_LEN).
Qed.

Lemma overlaid_view ns ov d d1 d2 :
  overlaid ns ov d d1 → overlaid ns ov d d2 → ∀ k, db_val d1 k = db_val d2 k.
Proof.
  intros [A1 B1] [A2 B2] k. destruct (key_cases ns k) as [(c & Hc & ->)|Hk].
  - by rewrite A1, A2.
  - by rewrite B1, B2.
Qed.

(** C21: a commit touches its own namespace only: whatever the jobs and their
    outcomes, every other namespace reads as before. *)
Theorem commit_isolated ns ns' jobs d rs d' :
  is_ns ns → is_ns ns' → ns ≠ ns' → commit_batch ns jobs d = Ok (rs, d') →
  ∀ cell, kv_get (namespace d' ns') cell = kv_get (namespace d ns') cell.
Proof.
  intros Hn Hn' Hne. unfold commit_batch. case_decide; [by intros [= _ <-]|].
  destruct (validate_jobs d ns jobs ∅) as [[outs ov]|e| |]; cbn [mbind outcome_bind]; [|done..].
  destruct (stage ns (map_to_list ov)) as [batch|e| |] eqn:Es; cbn [mbind outcome_bind]; [|done..].
  destruct (db_write d batch) as [d1|e| |] eqn:Ew; cbn [mbind outcome_bind]; [|done..].
  intros [= _ <-] cell. cbn. change (db_val d1 (encode_key ns' cell) = db_val d (encode_key ns' cell)).
  rewrite (write_val _ _ _ _ Ew). destruct (list_find _ _) as [[i [k v]]|] eqn:Ef; [|done].
  apply list_find_Some in Ef as (Hi & Hk & _). cbn in Hk. subst k.
  apply list_elem_of_lookup_2 in Hi. rewrite elem_of_reverse in Hi.
  unfold stage in Es. apply mapM_out_Forall2 in Es.
  apply list_elem_of_lookup_1 in Hi as [j Hj].
  destruct (Forall2_lookup_r _ _ _ _ _ Es Hj) as ([c x] & _ & Hcx).
  destruct (serialize x) as [b|e| |]; cbn in Hcx; [|done..].
  exfalso. apply Hne. apply (encode_key_ns ns ns' c cell); [done|done|congruence].
Qed.

(** ** Group commit *)

(** The reference: the jobs committed one by one. *)
Fixpoint commit_each (ns : Z) (jobs : list CommitJob) (d : D) : outcome (list CommitResult * D) :=
  match jobs with
  | [] => Ok ([], d)
  | job :: jobs' =>
      '(r, d1) ← commit_with_occ ns job d;
      '(rs, d2) ← commit_each ns jobs' d1;
      Ok (r :: rs, d2)
  end.

(** Cells are [u128] keys and writes serialize. *)
Definition job_ok (job : CommitJob) : Prop :=
  map_Forall (λ c _, is_cell c) (job_reads job) ∧ writes_ok (job_writes job).

Section reliable.
(** No read or write of the database fails. *)
Context (Hread : ∀ d k, ∃ o, db_get d k = Ok o).
Context (Hwrite : ∀ d batch, ∃ d', db_write d batch = Ok d').
Context (ns : Z).

Lemma db_get_val d k : db_get d k = Ok (db_val d k).
Proof. unfold db_val. by destruct (Hread d k) as [o ->]. Qed.

Lemma effective_overlaid ov d d' c :
  overlaid ns ov d d' → writes_ok ov → is_cell c → effective d ns ov c = effective d' ns ∅ c.
Proof.
  intros [Ho _] Hov Hc. unfold effective. rewrite lookup_empty, (db_get_val d'), Ho by done.
  destruct (ov !! c) as [v|] eqn:Hv; [|apply db_get_val].
  destruct (Hov c v Hv) as [_ ->]. done.
Qed.

Lemma merge_kv_overlaid ov jw d d' k :
  overlaid ns ov d d' →
  kv_get (merge_kv (namespace d ns) jw ov) k = kv_get (merge_kv (namespace d' ns) jw ∅) k.
Proof.
  intros [Ho _]. unfold merge_kv, namespace. cbn [kv_get]. cbv zeta.
  rewrite lookup_empty. destruct (jw !! wrap_u 128 k); [done|].
  change (ok_flatten (db_get d' (encode_key ns (wrap_u 128 k))))
    with (db_val d' (encode_key ns (wrap_u 128 k))).
  rewrite Ho by apply wrap_cell. by destruct (ov !! wrap_u 128 k).
Qed.

(** Close the cases of a value that is no map pointer. *)
Ltac other_values :=
  cbn iota beta;
  try lazymatch goal with
  | |- context [Pmap.merge_three_way] => fail
  | |- _ => reflexivity
  end.

Lemma merge_stale_overlaid ov job d d' c expected on_disk local nodes :
  overlaid ns ov d d' →
  merge_stale d ns job ov c expected on_disk local nodes
  = merge_stale d' ns job ∅ c expected on_disk local nodes.
Proof.
  intros Ho. unfold merge_stale. destruct (job_pmap_types job !! c) as [[kt vt]|]; [|done].
  destruct expected; other_values.
  destruct (match on_disk with Some b => deserialize b (TPMap kt vt) | None => Ok None end)
    as [live|e| |]; cbn [mbind outcome_bind]; [|done..].
  destruct (local !! c) as [v|]; [|done]. destruct v; other_values.
  rewrite (merge_three_way_ext _ (merge_kv (namespace d' ns) (job_writes job) ∅))
    by (intros k; by apply merge_kv_overlaid). reflexivity.
Qed.

Lemma validate_reads_overlaid ov job d d' rs local nodes :
  overlaid ns ov d d' → writes_ok ov → Forall (λ p, is_cell p.1) rs →
  validate_job_reads d ns job ov rs local nodes = validate_job_reads d' ns job ∅ rs local nodes.
Proof.
  intros Ho Hov Hrs. revert local nodes.
  induction Hrs as [|[c v] rs Hc _ IH]; intros local nodes; cbn [validate_job_reads]; [done|].
  cbn [fst] in Hc. rewrite (effective_overlaid ov d d') by done.
  destruct (effective d' ns ∅ c) as [on_disk|e| |]; cbn [mbind outcome_bind]; [|done..].
  destruct (read_matches on_disk v) as [[]|e| |]; cbn [mbind outcome_bind]; [apply IH| |done..].
  rewrite (merge_stale_overlaid ov job d d') by done.
  destruct (merge_stale d' ns job ∅ c v on_disk local nodes) as [[[local' nodes']|]|e| |];
    cbn [bind_opt]; [apply IH|done..].
Qed.

Lemma writes_ok_insert ws c v :
  is_cell c → serialize v = Ok (ser_bytes v) → writes_ok ws → writes_ok (<[c := v]> ws).
Proof. intros Hc Hv Hws. by apply map_Forall_insert_2. Qed.

Lemma writes_ok_cells ws nodes :
  writes_ok ws → cells_ok nodes → writes_ok (insert_cells nodes ws).
Proof.
  intros Hws Hn. revert ws Hws. unfold insert_cells.
  induction Hn as [|[c b] nodes Hc _ IH]; intros ws Hws; cbn [foldl]; [done|].
  by apply IH, writes_ok_insert.
Qed.

Lemma merge_stale_ok d ov job c expected on_disk local nodes local' nodes' :
  merge_stale d ns job ov c expected on_disk local nodes = Ok (Some (local', nodes')) →
  writes_ok local → cells_ok nodes → writes_ok local' ∧ cells_ok nodes'.
Proof.
  unfold merge_stale. intros E Hl Hn.
  destruct (job_pmap_types job !! c) as [[kt vt]|]; [|done].
  destruct expected; cbn iota beta in E; try discriminate E.
  destruct (match on_disk with Some b => deserialize b (TPMap kt vt) | None => Ok None end)
    as [live|e| |]; cbn [mbind outcome_bind] in E; [|done..].
  destruct (local !! c) as [v|] eqn:Hc; [|done]. destruct v; cbn iota beta in E; try discriminate E.
  destruct (Pmap.merge_three_way _ _ _ _ _ _) as [[[r cells]|]|e| |] eqn:Em;
    cbn [bind_opt] in E; [|done..].
  injection E as <- <-. split.
  - apply writes_ok_insert; [by eapply Hl|done|done].
  - apply Forall_app. split; [done|]. eapply merge_at_cells; [exact Em|constructor].
Qed.

Lemma validate_reads_ok d ov job rs local nodes local' nodes' :
  validate_job_reads d ns job ov rs local nodes = Ok (Some (local', nodes')) →
  writes_ok local → cells_ok nodes → writes_ok local' ∧ cells_ok nodes'.
Proof.
  revert local nodes. induction rs as [|[c v] rs IH]; intros local nodes; cbn [validate_job_reads].
  { by intros [= <- <-]. }
  destruct (effective d ns ov c) as [on_disk|e| |]; cbn [mbind outcome_bind]; [|done..].
  destruct (read_matches on_disk v) as [[]|e| |]; cbn [mbind outcome_bind]; [apply IH| |done..].
  destruct (merge_stale d ns job ov c v on_disk local nodes) as [[[l1 n1]|]|e| |] eqn:Em;
    cbn [bind_opt]; [|done..].
  intros E Hl Hn. destruct (merge_stale_ok _ _ _ _ _ _ _ _ _ _ Em Hl Hn). by eapply IH.
Qed.

Lemma insert_cells_union nodes ws ov :
  insert_cells nodes (ws ∪ ov) = insert_cells nodes ws ∪ ov.
Proof.
  revert ws. unfold insert_cells. induction nodes as [|[c b] nodes IH]; intros ws; cbn [foldl]; [done|].
  by rewrite insert_union_l, IH.
Qed.

(** One job, validated over the overlay and over the disk that holds it. *)
Lemma job_overlaid ov job d d' :
  overlaid ns ov d d' → writes_ok ov → job_ok job →
  match validate_and_apply_job d' ns job ∅ with
  | Ok (Some ov1) => writes_ok ov1 ∧ validate_and_apply_job d ns job ov = Ok (Some (ov1 ∪ ov))
  | r => validate_and_apply_job d ns job ov = r
  end.
Proof.
  intros Ho Hov [Hr Hw]. unfold validate_and_apply_job.
  rewrite (validate_reads_overlaid ov job d d' _ _ _ Ho Hov).
  2: { apply Forall_forall. intros [c v] Hc%elem_of_map_to_list. by eapply Hr. }
  destruct (validate_job_reads d' ns job ∅ _ _ _) as [[[local nodes]|]|e| |] eqn:E;
    cbn [bind_opt]; [|done..].
  destruct (validate_reads_ok _ _ _ _ _ _ _ _ E Hw) as [Hl Hn]; [constructor|].
  rewrite (right_id_L ∅ (∪)). split; [by apply writes_ok_cells|]. by rewrite insert_cells_union.
Qed.

Lemma commit_with_occ_step job d :
  job_ok job →
  match validate_and_apply_job d ns job ∅ with
  | Ok (Some ov1) => ∃ d', commit_with_occ ns job d = Ok (Committed, d') ∧ overlaid ns ov1 d d'
  | Ok None => ∃ d', commit_with_occ ns job d = Ok (Conflict, d') ∧ overlaid ns ∅ d d'
  | Err e => commit_with_occ ns job d = Err e
  | Panic => commit_with_occ ns job d = Panic
  | OutOfFuel => commit_with_occ ns job d = OutOfFuel
  end.
Proof.
  intros Hjob. pose proof (job_overlaid ∅ job d d (overlaid_empty ns d)) as Hj.
  unfold commit_with_occ, commit_batch. rewrite decide_False by done. cbn [validate_jobs].
  destruct (validate_and_apply_job d ns job ∅) as [[ov1|]|e| |]; cbn [mbind outcome_bind]; [| |done..].
  - destruct Hj as [Hok _]; [by apply map_Forall_empty|done|].
    rewrite (stage_ok ns ov1 Hok). cbn [mbind outcome_bind].
    destruct (Hwrite d (staged ns ov1)) as [d' Ew]. rewrite Ew. cbn. exists d'.
    split; [done|]. by apply flush_overlaid.
  - rewrite (stage_ok ns ∅) by apply map_Forall_empty. cbn [mbind outcome_bind].
    destruct (Hwrite d (staged ns ∅)) as [d' Ew]. rewrite Ew. cbn. exists d'.
    split; [done|]. apply flush_overlaid; [by apply map_Forall_empty|done].
Qed.

Lemma jobs_overlaid jobs ov d d' :
  overlaid ns ov d d' → writes_ok ov → Forall job_ok jobs →
  match validate_jobs d ns jobs ov with
  | Ok (rs, ov') => writes_ok ov' ∧
      ∃ d2, commit_each ns jobs d' = Ok (rs, d2) ∧ overlaid ns ov' d d2
  | Err e => commit_each ns jobs d' = Err e
  | Panic => commit_each ns jobs d' = Panic
  | OutOfFuel => commit_each ns jobs d' = OutOfFuel
  end.
Proof.
  intros Ho Hov Hf. revert ov d' Ho Hov.
  induction Hf as [|job jobs Hjob _ IH]; intros ov d' Ho Hov; cbn [validate_jobs commit_each].
  { split; [done|]. by exists d'. }
  pose proof (job_overlaid ov job d d' Ho Hov Hjob) as Hj.
  pose proof (commit_with_occ_step job d' Hjob) as Hs.
  destruct (validate_and_apply_job d' ns job ∅) as [[ov1|]|e| |].
  2-5: rewrite Hj; cbn [mbind outcome_bind].
  3-5: by rewrite Hs.
  - destruct Hj as [Hok1 Hj]. rewrite Hj. cbn [mbind outcome_bind].
    destruct Hs as (d1 & -> & Ho1). cbn [mbind outcome_bind].
    specialize (IH (ov1 ∪ ov) d1 (overlaid_trans _ _ _ _ _ _ Ho Ho1)).
    destruct (validate_jobs d ns jobs (ov1 ∪ ov)) as [[rs ov']|e| |]; cbn [mbind outcome_bind].
    + destruct IH as (Hok' & d2 & -> & Ho2); [by apply map_Forall_union_2|].
      cbn [mbind outcome_bind]. split; [done|]. by exists d2.
    + rewrite IH by (by apply map_Forall_union_2). done.
    + rewrite IH by (by apply map_Forall_union_2). done.
    + rewrite IH by (by apply map_Forall_union_2). done.
  - destruct Hs as (d1 & -> & Ho1). cbn [mbind outcome_bind].
    specialize (IH ov d1). rewrite <- (left_id_L ∅ (∪) ov) in IH at 1.
    specialize (IH (overlaid_trans _ _ _ _ _ _ Ho Ho1) Hov).
    destruct (validate_jobs d ns jobs ov) as [[rs ov']|e| |]; cbn [mbind outcome_bind].
    + destruct IH as (Hok' & d2 & -> & Ho2). cbn [mbind outcome_bind]. split; [done|]. by exists d2.
    + by rewrite IH.
    + by rewrite IH.
    + by rewrite IH.
Qed.

End reliable.
End commit.

(** * Authentication nonces: under any interleaving of concurrent callers, and
    any fate of their commits, a stored nonce never decreases and no nonce of an
    address is accepted twice; a caller left alone answers in two steps. *)
Definition is_nonce (n : Z) : Prop := 0 <= n < 2 ^ 64.

Definition caller_nonce (c : Caller) : Z :=
  match c with Reading _ n | Committing _ n _ | Answered _ n _ | Failed _ n => n end.

Definition accepted (c : Caller) : option (bytes * Z) :=
  match c with Answered a n Bumped => Some (a, n) | _ => None end.

Definition stored (db : Nonces) (a : bytes) : Z := decode_nonce (db !! a).

Lemma decode_encode n : is_nonce n → decode_nonce (Some (encode_nonce n)) = n.
Proof.
  intros Hn. unfold decode_nonce, encode_nonce. rewrite length_be_bytes.
  change (8 - 8)%nat with 0%nat. cbn [replicate]. rewrite app_nil_r.
  rewrite take_ge by by rewrite length_be_bytes. by apply be_value_be_bytes_id.
Qed.

(** What holds between steps: commits are pending for larger nonces only,
    accepted nonces lie above the table the calls began with and up to the
    current one, and differ. *)
Record world_ok (base : Nonces) (w : World) : Prop := {
  ok_base a : stored base a <= stored w.2 a;
  ok_range : Forall (λ c, is_nonce (caller_nonce c)) w.1;
  ok_pending a n seen : Committing a n seen ∈ w.1 → decode_nonce seen < n;
  ok_stored c a n : c ∈ w.1 → accepted c = Some (a, n) → stored base a < n <= stored w.2 a;
  ok_distinct i j c d a n :
    w.1 !! i = Some c → w.1 !! j = Some d →
    accepted c = Some (a, n) → accepted d = Some (a, n) → i = j;
}.

Lemma caller_step_stored fate c db c' db' :
  is_nonce (caller_nonce c) →
  (∀ a n seen, c = Committing a n seen → decode_nonce seen < n) →
  caller_step fate c db = (c', db') →
  (∀ a, stored db a <= stored db' a) ∧
  caller_nonce c' = caller_nonce c ∧
  (∀ a n seen, c' = Committing a n seen → decode_nonce seen < n) ∧
  (∀ a n, accepted c' = Some (a, n) →
     accepted c = Some (a, n) ∨ (stored db a < n ∧ stored db' a = n)).
Proof.
  intros Hr Hp. unfold caller_step, stored.
  destruct c as [a n|a n seen|a n r|a n]; cbn [caller_nonce] in Hr.
  - destruct (Z.leb_spec n (decode_nonce (db !! a))); intros [= <- <-]; splits; try done.
    by intros ? ? ? [= <- <- <-].
  - specialize (Hp _ _ _ eq_refl).
    destruct fate; [|intros [= <- <-]; by splits..].
    case_decide as Hs; intros [= <- <-]; [|by splits]. subst seen.
    assert (Hnew : decode_nonce (<[a:=encode_nonce n]> db !! a) = n)
      by (rewrite lookup_insert_eq; by apply decode_encode).
    splits; [|done|done|].
    + intros a'. destruct (decide (a = a')) as [<-|Hne].
      * rewrite Hnew. lia.
      * by rewrite lookup_insert_ne.
    + intros a' n' [= <- <-]. right. split; [done|exact Hnew].
  - intros [= <- <-]. splits; try done. intros a' n' E. by left.
  - intros [= <- <-]. by splits.
Qed.

Lemma world_step_ok base move w : world_ok base w → world_ok base (world_step w move).
Proof.
  intros [Hb Hr Hp Hs Hd]. unfold world_step.
  destruct (w.1 !! move.1) as [c|] eqn:Hc; [|by constructor].
  destruct (caller_step move.2 c w.2) as [c' db'] eqn:E. cbn [fst snd].
  assert (Hin : c ∈ w.1) by by eapply list_elem_of_lookup_2.
  destruct (caller_step_stored _ _ _ _ _ (proj1 (Forall_forall _ _) Hr c Hin)
    ltac:(intros ? ? ? ->; by eapply Hp) E) as (Hmono & Hn & Hp' & Ha).
  assert (Hmem : ∀ d, d ∈ <[move.1:=c']> w.1 → d = c' ∨ d ∈ w.1).
  { intros d [k Hk]%list_elem_of_lookup_1. apply list_lookup_insert_Some in Hk as [(_ & <- & _)|[_ Hk]];
      [by left|right; by eapply list_elem_of_lookup_2]. }
  constructor; cbn [fst snd].
  - intros a. etransitivity; [apply Hb|apply Hmono].
  - apply Forall_insert; [done|]. rewrite Hn. by apply (proj1 (Forall_forall _ _) Hr).
  - intros a n seen [Hd'|Hd']%Hmem; [by eapply Hp'|by eapply Hp].
  - intros d a n [->|Hd']%Hmem Hacc; [apply Ha in Hacc as [Hacc|[Hlt <-]]|].
    + specialize (Hs c a n Hin Hacc). specialize (Hmono a). lia.
    + specialize (Hb a). lia.
    + specialize (Hs d a n Hd' Hacc). specialize (Hmono a). lia.
  - assert (Hfresh : ∀ j d a n, j ≠ move.1 → w.1 !! j = Some d → accepted d = Some (a, n) →
      accepted c' = Some (a, n) → False).
    { intros j d a n Hj Hjd Hacc Hacc'. apply Ha in Hacc' as [Hacc'|[Hlt _]].
      - by apply Hj, (Hd j move.1 d c a n).
      - apply list_elem_of_lookup_2 in Hjd. specialize (Hs d a n Hjd Hacc). lia. }
    intros i j d1 d2 a n Hi Hj H1 H2.
    apply list_lookup_insert_Some in Hi as [(<- & <- & _)|[Hi Hi']],
      Hj as [(<- & <- & _)|[Hj Hj']]; [done|exfalso; by eapply Hfresh..|by eapply Hd].
Qed.

Lemma run_schedule_ok base moves w : world_ok base w → world_ok base (run_schedule moves w).
Proof.
  revert w. induction moves as [|m moves IH]; intros w Hw; [done|]. by apply IH, world_step_ok.
Qed.

Lemma new_world_ok (requests : list (bytes * Z)) db :
  Forall (λ r, is_nonce r.2) requests → world_ok db ((λ r, Reading r.1 r.2) <$> requests, db).
Proof.
  intros Hr. constructor; cbn [fst snd].
  - intros a. lia.
  - apply Forall_fmap. by eapply Forall_impl.
  - by intros a n seen (r & ? & _)%list_elem_of_fmap.
  - intros c a n (r & -> & _)%list_elem_of_fmap. done.
  - intros i j c d a n (r & -> & _)%list_lookup_fmap_Some. done.
Qed.

(** C22: no replay: however the calls interleave and their commits fare, two
    accepted calls for one address submitted different nonces, every accepted
    nonce is larger than what was stored when the calls began and no larger
    than what is stored now, and a stored nonce never falls. *)
Theorem nonce_no_replay requests db moves :
  Forall (λ r, is_nonce r.2) requests →
  let w := run_schedule moves ((λ r, Reading r.1 r.2) <$> requests, db) in
  (∀ i j c d a n, w.1 !! i = Some c → w.1 !! j = Some d →
     accepted c = Some (a, n) → accepted d = Some (a, n) → i = j) ∧
  (∀ i c a n, w.1 !! i = Some c → accepted c = Some (a, n) → stored db a < n <= stored w.2 a) ∧
  (∀ a, stored db a <= stored w.2 a).
Proof.
  intros Hr w. pose proof (run_schedule_ok db moves _ (new_world_ok requests db Hr)) as Hw.
  splits; [apply Hw| |apply Hw].
  intros i c a n Hi. eapply Hw. by eapply list_elem_of_lookup_2.
Qed.

(** A call that is not interfered with answers in two steps: it bumps
    exactly the nonces above the stored one, and the table then holds it. *)
Theorem nonce_solo a n db :
  is_nonce n →
  run_schedule [(0%nat, Through); (0%nat, Through)] ([Reading a n], db)
  = if n <=? stored db a then ([Answered a n (TooLow (stored db a))], db)
    else ([Answered a n Bumped], <[a := encode_nonce n]> db).
Proof.
  intros Hn. unfold run_schedule. cbn [foldl world_step fst snd lookup list_lookup caller_step].
  fold (stored db a). destruct (n <=? stored db a); cbn; [done|].
  by rewrite decide_True.
Qed.
