(* ===== verification/StoreWitness.v ===== *)
(** Concrete instances of the theorems on the collector, the optimistic commit
    driver and the RocksDB backend. *)
From S2P Require Import Prelude Bytes Hashing Values Serialize SerializeFacts Kv Merkle NodeCodec.
From S2P Require Import PmapNode PmapTree Pmap PmapFacts PmapSpec Pvec PvecFacts Pbtree Gc GcFacts.
From S2P Require Import Tx TreeWitness.

#[local] Existing Instance TwosComplement.codec.
#[local] Existing Instance TwosComplement.laws.

Definition ok_or {A} (d : A) (o : outcome A) : A := match o with Ok a => a | _ => d end.

(** ** A map survives *)
Definition live_leaf : mtree PmapNode.Label := leaf [(VU64 1, VU64 10)].
Definition live_root : Z := thash PmapNode.NODE_NS PmapFacts.enc live_leaf.
Definition live_encodings : list bytes := [tbytes PmapNode.NODE_NS PmapFacts.enc live_leaf].

(** The map's state in cell 7, its node, a stale node in cell 99, and an
    unrelated cell 50. *)
Definition gc_store : InMemoryKv :=
  ok_or ∅ (kv ← put_value ∅ 7 (VPMap live_root);
           kv ← put_value kv live_root (VBytes (tbytes PmapNode.NODE_NS PmapFacts.enc live_leaf));
           kv ← put_value kv 99 (VBytes [1; 2; 3]);
           put_value kv 50 (VU64 5)).

Definition gc_states : list (Z * Ty) := [(7, TPMap TU64 TU64); (8, TPVec TU64)].
Definition gc_needs : list (Z → Prop) :=
  [(λ x, x = 7 ∨ cell_of PmapNode.NODE_NS PmapFacts.enc x live_leaf); (λ x, x = 8)].
Definition gc_candidates : gset Z := {[live_root; 99]}.

Lemma gc_live : Forall2 (live_state live_encodings 3 gc_store) gc_states gc_needs.
Proof.
  constructor; [|constructor; [apply live_absent; vm_compute; reflexivity|constructor]].
  eapply live_pmap with (t := live_leaf) (bs := ok_or [] (serialize (VPMap live_root))).
  - vm_compute. reflexivity.
  - vm_compute. reflexivity.
  - constructor; [|left|vm_compute; reflexivity|constructor].
    apply TreeWitness.node_okb_ok. vm_compute. reflexivity.
  - vm_compute. lia.
Qed.

Lemma live_encodings_ok : no_collision PmapNode.NODE_NS live_encodings = true.
Proof. vm_compute. reflexivity. Qed.
Lemma live_encodings_ok' : no_collision Pvec.NODE_NS live_encodings = true.
Proof. vm_compute. reflexivity. Qed.

Lemma sweep_exact_witness :
  ∃ rep kv', sweep 3 gc_states gc_candidates gc_store = Ok (rep, kv') ∧
    swept rep = Z.of_nat (size gc_store) - Z.of_nat (size kv') ∧
    (∀ x, x ∈ gc_candidates → ¬ Exists (λ P : Z → Prop, P x) gc_needs → kv' !! x = None) ∧
    (∀ x, x ∉ gc_candidates ∨ Exists (λ P : Z → Prop, P x) gc_needs → kv' !! x = gc_store !! x) ∧
    ∃ rep', sweep 3 gc_states gc_candidates kv' = Ok (rep', kv') ∧ swept rep' = 0.
Proof.
  exact (sweep_exact live_encodings 3 live_encodings_ok live_encodings_ok' gc_store gc_states
    gc_needs gc_candidates gc_live).
Defined.

Lemma sweep_safe_witness :
  ∃ rep kv', sweep 3 gc_states gc_candidates gc_store = Ok (rep, kv') ∧
    Forall2 (live_state live_encodings 3 kv') gc_states gc_needs.
Proof.
  exact (sweep_safe live_encodings 3 live_encodings_ok live_encodings_ok' gc_store gc_states
    gc_needs gc_candidates gc_live).
Defined.

(** The node of the map is a candidate and survives; the stale node goes. *)
Example gc_sweeps_one :
  match sweep 3 gc_states gc_candidates gc_store with
  | Ok (rep, kv') =>
      swept rep = 1 ∧ kept rep = 3 ∧ kv' !! live_root = gc_store !! live_root ∧ kv' !! 99 = None ∧
      is_Some (kv' !! 50)
  | _ => False
  end.
Proof. vm_compute. splits; try done. by eexists. Qed.

(** ** A sorted map does not

    A sorted map of 33 keys, one more than a leaf holds, is built in a
    transaction, committed with its state cell 7, and swept as a live state
    with the node cells the transaction recorded. *)
Definition sorted_build : SM Tx Z :=
  foldl (λ m k, root ← m; Pbtree.set TU64 TU64 3 root (VU64 (Z.of_nat k)) (VU64 (Z.of_nat k)))
    (mret EMPTY) (seq 1 33).

Definition sorted_run : outcome Z * Tx := sorted_build empty_tx.
Definition sorted_root : Z := ok_or 0 sorted_run.1.
Definition sorted_cells : gset Z := node_cells_written sorted_run.2.
Definition sorted_store : InMemoryKv :=
  ok_or ∅ (kv ← apply ∅ (writes sorted_run.2);
           put_value kv 7 (VPBTree sorted_root)).
Definition sorted_swept : InMemoryKv :=
  ok_or ∅ (snd <$> sweep 3 [(7, TPBTree TU64 TU64)] sorted_cells sorted_store).
Definition sorted_lookup (kv : InMemoryKv) (k : Z) : outcome (option Value) :=
  (Pbtree.get TU64 TU64 3 sorted_root (VU64 k) (new (as_kv kv))).1.
Definition sorted_reachable : outcome (gset Z) :=
  pbtree_reachable_cells (as_kv sorted_store) 3 sorted_root TU64 TU64.

Lemma absent_dec (kv : InMemoryKv) (cells : gset Z) :
  forallb (λ x, bool_decide (kv !! x = None)) (elements cells) = true →
  ∀ x, x ∈ cells → kv !! x = None.
Proof.
  intros E x Hx%elem_of_elements%list_elem_of_In. rewrite forallb_forall in E.
  by apply E, bool_decide_eq_true in Hx.
Qed.

Section check.
Context (before after : outcome (option Value)) (reach : outcome (gset Z)).
Context (kv : InMemoryKv) (cells : gset Z) (root : Z).

Definition drop_check : bool :=
  bool_decide (before = Ok (Some (VU64 5)))
  && forallb (λ x, bool_decide (kv !! x = None)) (elements cells)
  && bool_decide (after = Ok None)
  && bool_decide (reach = Ok {[root]})
  && (1 <? Z.of_nat (size cells)).

Lemma drop_checked :
  drop_check = true →
  before = Ok (Some (VU64 5)) ∧ (∀ x, x ∈ cells → kv !! x = None) ∧ after = Ok None ∧
  reach = Ok {[root]} ∧ 1 < Z.of_nat (size cells).
Proof.
  unfold drop_check.
  intros [[[[E1%bool_decide_eq_true E2]%andb_prop E3%bool_decide_eq_true]%andb_prop
    E4%bool_decide_eq_true]%andb_prop E5%Z.ltb_lt]%andb_prop.
  splits; try done. by apply absent_dec.
Qed.
End check.

Lemma sorted_checked :
  drop_check (sorted_lookup sorted_store 5) (sorted_lookup sorted_swept 5) sorted_reachable
    sorted_swept sorted_cells sorted_root = true.
Proof. vm_compute. reflexivity. Qed.

(** A sweep destroys a live sorted map: declared live in cell 7, its
    nodes are deleted with the other candidates and key 5, bound before the
    sweep, is gone after it; nor does the module's own walk, which decodes the
    cell without its [Value::Bytes] frame, reach beyond the root. *)
Theorem sweep_drops_sorted_map :
  sorted_lookup sorted_store 5 = Ok (Some (VU64 5)) ∧
  (∀ x, x ∈ sorted_cells → sorted_swept !! x = None) ∧
  sorted_lookup sorted_swept 5 = Ok None ∧
  sorted_reachable = Ok {[sorted_root]} ∧
  1 < Z.of_nat (size sorted_cells).
Proof. exact (drop_checked _ _ _ _ _ _ sorted_checked). Qed.

(** * Concrete batches: transfers between counters that commit serializably, two
    map updates whose merge is no serial order, and a lone transaction that
    conflicts with nobody and is executed twice. *)
From S2P Require Import Prelude Bytes Values Serialize SerializeFacts Kv Merkle Pmap Tx TxTyped.
From S2P Require Import Occ OccFacts TxRun.

#[local] Existing Instance TwosComplement.codec.
#[local] Existing Instance TwosComplement.laws.

(** ** Counters *)
Definition counters (k : Z) : Ty := TU64.

Lemma counters_ok k : storable (default_for (counters k)) (counters k) = true.
Proof. vm_compute. reflexivity. Qed.

Definition sum_u64 (v w : Value) : Value :=
  match v, w with VU64 a, VU64 b => VU64 ((a + b) mod 2 ^ 64) | _, _ => VU64 0 end.

(** [to := to + from] and [from := 0]. *)
Definition collect (from to : Z) : Prog :=
  PRead from (λ v, PRead to (λ w, PWrite to (sum_u64 v w) (PWrite from (VU64 0) (PRet w)))).

Lemma collect_typed from to : typed counters (collect from to).
Proof.
  apply typed_read. intros v _. apply typed_read. intros w _.
  apply typed_write; [|apply typed_write; [reflexivity|constructor]].
  unfold counters, sum_u64. destruct v; try reflexivity. destruct w; try reflexivity.
  cbn [storable]. unfold in_u. apply andb_true_intro.
  pose proof (Z.mod_pos_bound (n + n0) (2 ^ 64) eq_refl). lia.
Qed.

Definition collect_prog (from to : Z) : TypedProg counters :=
  typed_prog counters (collect from to) (collect_typed from to).

(** Cells 1 and 2 hold 10 and 20; cell 3 is unset. *)
Definition counter_store : InMemoryKv := {[1 := ser (VU64 10); 2 := ser (VU64 20)]}.

Lemma counter_store_ok : conforms counters counter_store.
Proof.
  intros k bs. unfold counter_store.
  intros [[<- <-]|[_ [<- <-]%lookup_singleton_Some]]%lookup_insert_Some;
    [exists (VU64 10)|exists (VU64 20)]; split; reflexivity.
Qed.

(** The second transfer reads what the first one wrote. *)
Definition transfers : list (TxRequest (TypedProg counters)) :=
  [request (collect_prog 1 3) 5; request (collect_prog 3 2) 5].

Local Abbreviation prog_exec := (prog_executor counters).
Local Abbreviation prog_laws := (prog_executor_laws counters counters_ok).
#[local] Existing Instance prog_executor.

Definition transfers_outcome : outcome BatchReport * InMemoryKv :=
  commit_batch transfers counter_store.
Definition transfers_kv : InMemoryKv := transfers_outcome.2.
Definition transfers_report : BatchReport :=
  match transfers_outcome.1 with Ok r => r | _ => BatchReport_default end.

Lemma transfers_commit : commit_batch transfers counter_store = (Ok transfers_report, transfers_kv).
Proof. vm_compute. reflexivity. Qed.
Lemma transfers_unmerged : merged transfers_report = 0.
Proof. vm_compute. reflexivity. Qed.

Lemma occ_serializable_witness :
  commit_batch transfers counter_store = (Ok transfers_report, transfers_kv) ∧
  conforms counters transfers_kv ∧
  length (txs transfers_report) = length transfers ∧
  conflicts transfers_report = retries (txs transfers_report) ∧
  run_serial counter_store (serial_requests transfers (txs transfers_report))
    = Ok (transfers_kv, tx_result <$> txs transfers_report).
Proof.
  split; [exact transfers_commit|].
  exact (occ_serializable (conforms counters) (Laws := prog_laws) counter_store transfers
    transfers_kv transfers_report counter_store_ok transfers_commit transfers_unmerged).
Defined.

(** The second transfer conflicts, is run again, and sees the first one. *)
Example transfers_retry :
  conflicts transfers_report = 1 ∧
  (tx_result <$> txs transfers_report) = [VU64 0; VU64 20] ∧
  get_typed transfers_kv 2 TU64 = Ok (Some (VU64 30)).
Proof. vm_compute. done. Qed.

Lemma transfers_plain : Forall (request_plain (conforms counters)) transfers.
Proof.
  assert (Hp : ∀ from to fuel, runs_plainly (conforms counters) (collect_prog from to) fuel).
  { intros from to fuel. apply (answers_plainly counters counters_ok); [by intros k []|].
    repeat constructor. }
  by repeat constructor; apply Hp.
Qed.

Lemma occ_commits_witness :
  ∃ kv' report, commit_batch transfers counter_store = (Ok report, kv') ∧ merged report = 0 ∧
    conforms counters kv' ∧ conflicts report <= Z.of_nat (length transfers) ∧
    run_serial counter_store (serial_requests transfers (txs report))
      = Ok (kv', tx_result <$> txs report).
Proof.
  exact (occ_commits (conforms counters) (Laws := prog_laws) counter_store transfers
    counter_store_ok transfers_plain).
Defined.

Lemma tx_preserves_types_witness :
  ∃ r t, run counters (collect 1 3) (new (as_kv counter_store)) = (r, t) ∧
    match r with Ok _ | Err _ => True | _ => False end ∧
    map_Forall (λ k v, storable v (counters k) = true) (reads t) ∧
    map_Forall (λ k v, storable v (counters k) = true) (writes t) ∧
    ∃ kv', apply counter_store (writes t) = Ok kv' ∧ conforms counters kv'.
Proof.
  exact (tx_preserves_types counters counters_ok counter_store (collect 1 3) counter_store_ok
    (collect_typed 1 3)).
Defined.

(** A later store in which a cell the program does not read has changed. *)
Definition later_store : InMemoryKv := <[2 := ser (VU64 7)]> counter_store.

Lemma later_store_ok : conforms counters later_store.
Proof.
  intros k bs. unfold later_store.
  intros [[<- <-]|[_ Hk]]%lookup_insert_Some; [exists (VU64 7); by split|].
  by apply counter_store_ok.
Qed.

Lemma later_grows : grows counter_store later_store.
Proof.
  intros k [b Hb]. unfold later_store. destruct (decide (2 = k)) as [<-|Hne].
  - eexists. apply lookup_insert_eq.
  - exists b. rewrite <- Hb. by apply lookup_insert_ne.
Qed.

Definition collect_run : outcome Value * Tx := run counters (collect 1 3) (new (as_kv counter_store)).

Lemma tx_read_set_determines_run_witness :
  ∃ t', run counters (collect 1 3) (new (as_kv later_store)) = (Ok (VU64 0), t') ∧
    reads t' = reads collect_run.2 ∧ writes t' = writes collect_run.2.
Proof.
  assert (E : collect_run.1 = Ok (VU64 0)) by (vm_compute; reflexivity).
  assert (Hv : validate (reads collect_run.2) (as_kv later_store) = Ok true)
    by (vm_compute; reflexivity).
  assert (Hrun : run counters (collect 1 3) (new (as_kv counter_store)) = (Ok (VU64 0), collect_run.2))
    by (rewrite <- E; apply surjective_pairing).
  exact (tx_read_set_determines_run counters counters_ok counter_store later_store (collect 1 3)
    (Ok (VU64 0)) collect_run.2 counter_store_ok later_store_ok later_grows (collect_typed 1 3)
    Hrun Hv).
Defined.

(** ** A merge that is no serial order

    The sources here are the transaction computations themselves. *)
#[local] Instance sm_executor : Executor (SM Tx Value) := λ m _ kv, run_in_tx m kv.

(** [if !m.contains(other) { m.insert(mine, mine) }], on a map state in cell
    [CELL], recording the types the virtual machine records. *)
Definition CELL : Z := 7.
Definition insert_unless (mine other : Z) : SM Tx Value :=
  state ← read_typed CELL (TPMap TU64 TU64);
  _ ← record_pmap_types CELL TU64 TU64;
  match state with
  | VPMap root =>
      found ← Pmap.get TU64 TU64 root (VU64 other);
      match found with
      | Some _ => mret (VBool false)
      | None =>
          root' ← Pmap.set TU64 TU64 root (VU64 mine) (VU64 mine);
          _ ← write_typed CELL (TPMap TU64 TU64) (VPMap root');
          mret (VBool true)
      end
  | _ => mret VUnit
  end.

Definition skew_requests : list (TxRequest (SM Tx Value)) :=
  [request (insert_unless 1 2) 5; request (insert_unless 2 1) 5].

(** Is the key in the map of [CELL]? *)
Definition look_for (key : Z) : SM Tx bool :=
  state ← read_typed CELL (TPMap TU64 TU64);
  match state with
  | VPMap root => Pmap.contains TU64 TU64 root (VU64 key)
  | _ => mret false
  end.
Definition holds (kv : InMemoryKv) (key : Z) : outcome bool := (look_for key (new (as_kv kv))).1.

Definition skew_batch : outcome (list bool * Z) :=
  let '(r, kv) := commit_batch skew_requests ∅ in
  report ← r; b1 ← holds kv 1; b2 ← holds kv 2;
  Ok ([b1; b2], merged report).

Definition skew_serial (order : list (SM Tx Value * Z)) : outcome (list bool) :=
  '(kv, _) ← run_serial ∅ order;
  b1 ← holds kv 1; b2 ← holds kv 2;
  Ok [b1; b2].

(** A merged batch need not be serializable: of two transactions that each
    insert their key only if the other's is absent, either order runs one,
    but the batch merges both insertions and reports no conflict. *)
Theorem occ_merge_write_skew :
  skew_batch = Ok ([true; true], 1) ∧
  skew_serial [(insert_unless 1 2, 5); (insert_unless 2 1, 5)] = Ok [true; false] ∧
  skew_serial [(insert_unless 2 1, 5); (insert_unless 1 2, 5)] = Ok [false; true].
Proof. vm_compute. done. Qed.

(** ** A conflict with nobody *)

(** A program that reads an unset cell and answers what it saw. *)
Definition read_unset (ty : Ty) : SM Tx Value := read_typed 9 ty.

Definition lone_conflicts (ty : Ty) : outcome Z :=
  conflicts <$> (commit_batch [request (read_unset ty) 5] ∅).1.

(** A transaction alone in its batch is executed twice when it reads an
    unset cell of a sorted map, an enum, json or interface type: the default
    it observes is not one [is_default] accepts. *)
Theorem lone_reader_conflicts :
  lone_conflicts TU64 = Ok 0 ∧
  lone_conflicts (TPBTree TU64 TU64) = Ok 1 ∧
  lone_conflicts (TEnum [69] [([65], [])]) = Ok 1 ∧
  lone_conflicts TJson = Ok 1 ∧
  lone_conflicts (TInterface [73] []) = Ok 1.
Proof. vm_compute. done. Qed.

(** * Concrete instances of the backend theorems over an in-memory database. *)
From S2P Require Import Prelude Bytes Values Serialize SerializeFacts Kv Occ Rocks RocksFacts.

#[local] Existing Instance TwosComplement.codec.
#[local] Existing Instance TwosComplement.laws.

(** ** An in-memory database *)
Abbreviation MemDb := (gmap bytes bytes).

Definition mem_write (d : MemDb) (batch : list (bytes * bytes)) : MemDb :=
  foldl (λ d e, <[e.1 := e.2]> d) d batch.

#[export] Instance MemDb_db : RocksDb MemDb := {|
  db_get d k := Ok (d !! k);
  db_multi_get d ks := (λ k, Ok (d !! k)) <$> ks;
  db_write d batch := Ok (mem_write d batch);
|}.

Lemma mem_write_get d batch k :
  mem_write d batch !! k = match list_find (λ e, e.1 = k) (reverse batch) with
                           | Some (_, (_, v)) => Some v
                           | None => d !! k
                           end.
Proof.
  unfold mem_write. induction batch as [|[k' v] batch IH] using rev_ind; [done|].
  rewrite foldl_snoc, reverse_snoc. cbn [fst snd list_find].
  case_decide as Hk; cbn in Hk.
  - subst. by rewrite lookup_insert_eq.
  - rewrite lookup_insert_ne, IH by done. by destruct (list_find _ _) as [[i [k2 v2]]|].
Qed.

#[export] Instance MemDb_laws : RocksDbLaws MemDb.
Proof.
  split; [done|]. intros d batch d' k [= <-]. cbn. rewrite mem_write_get.
  by destruct (list_find _ _) as [[i [k' v]]|].
Qed.

Lemma mem_reads (d : MemDb) k : ∃ o, db_get d k = Ok o.
Proof. by exists (d !! k). Qed.
Lemma mem_writes (d : MemDb) batch : ∃ d', db_write d batch = Ok d'.
Proof. by exists (mem_write d batch). Qed.

(** ** A batch of three jobs: the second reads what the first wrote, the third
    read a stale value. *)
Definition jobs3 : list CommitJob :=
  [mkJob {[1 := VU64 0]} {[1 := VU64 5]} ∅;
   mkJob {[1 := VU64 5]} {[1 := VU64 6; 2 := VU64 7]} ∅;
   mkJob {[1 := VU64 0]} {[3 := VU64 9]} ∅].

Lemma job_ok_dec rs ws pm :
  forallb (λ p, (0 <=? p.1) && (p.1 <? 2 ^ 128)) (map_to_list rs) = true →
  forallb (λ p, (0 <=? p.1) && (p.1 <? 2 ^ 128)
    && bool_decide (serialize p.2 = Ok (ser_bytes p.2))) (map_to_list ws) = true →
  job_ok (mkJob rs ws pm).
Proof.
  rewrite !forallb_forall. intros Hr Hw. split; intros c v Hc%elem_of_map_to_list%list_elem_of_In.
  - specialize (Hr _ Hc). cbn in Hr. unfold is_cell. lia.
  - specialize (Hw _ Hc). cbn [fst snd] in Hw.
    apply andb_prop in Hw as [Hw Hs%bool_decide_eq_true]. split; [unfold is_cell; lia|done].
Qed.

Lemma jobs3_ok : Forall job_ok jobs3.
Proof.
  apply Forall_cons; split; [|apply Forall_cons; split; [|apply Forall_singleton]];
    apply job_ok_dec; vm_compute; reflexivity.
Qed.


Example jobs3_outcome :
  (fst <$> commit_batch 1 jobs3 (∅ : MemDb)) = Ok [Committed; Committed; Conflict].
Proof. vm_compute. reflexivity. Qed.

(** The store after the batch. *)
Definition jobs3_db : MemDb := match commit_batch 1 jobs3 ∅ with Ok (_, d) => d | _ => ∅ end.

Lemma jobs3_commits : commit_batch 1 jobs3 (∅ : MemDb) = Ok ([Committed; Committed; Conflict], jobs3_db).
Proof. vm_compute. reflexivity. Qed.

Lemma commit_isolated_witness :
  is_ns 1 ∧ is_ns 2 ∧
  ∀ cell, kv_get (namespace jobs3_db 2) cell = kv_get (namespace (∅ : MemDb) 2) cell.
Proof.
  assert (H1 : is_ns 1) by (unfold is_ns; lia). assert (H2 : is_ns 2) by (unfold is_ns; lia).
  split; [exact H1|split; [exact H2|]].
  exact (commit_isolated 1 2 jobs3 (∅ : MemDb) _ jobs3_db H1 H2 ltac:(discriminate) jobs3_commits).
Defined.

Lemma encode_key_injective_witness :
  zlen (encode_key 1 2) = 24 ∧ (encode_key 1 2 = encode_key 258 2 ↔ 1 = 258 ∧ 2 = 2).
Proof.
  apply (encode_key_injective 1 258 2 2); unfold is_ns, is_cell; lia.
Defined.

(** ** Two callers with the same nonce, the second's commit overtaken *)
Definition racers : list (bytes * Z) := [([170], 5); ([170], 5)].
Definition race : list (nat * Fate) :=
  [(0, Through); (1, Through); (1, Through); (0, Through); (0, Through)]%nat.

Lemma racers_ok : Forall (λ r : bytes * Z, is_nonce r.2) racers.
Proof. repeat constructor; unfold is_nonce; cbn; lia. Qed.

Lemma nonce_no_replay_witness :
  let w := run_schedule race ((λ r, Reading r.1 r.2) <$> racers, ∅) in
  (∀ i j c d a n, w.1 !! i = Some c → w.1 !! j = Some d →
     accepted c = Some (a, n) → accepted d = Some (a, n) → i = j) ∧
  (∀ i c a n, w.1 !! i = Some c → accepted c = Some (a, n) → stored ∅ a < n <= stored w.2 a) ∧
  (∀ a, stored ∅ a <= stored w.2 a).
Proof. exact (nonce_no_replay racers ∅ race racers_ok). Defined.

Example race_outcome :
  (run_schedule race ((λ r, Reading r.1 r.2) <$> racers, ∅)).1
  = [Answered [170] 5 (TooLow 5); Answered [170] 5 Bumped].
Proof. vm_compute. reflexivity. Qed.

Lemma nonce_solo_witness :
  run_schedule [(0%nat, Through); (0%nat, Through)] ([Reading [170] 5], ∅)
  = if 5 <=? stored ∅ [170] then ([Answered [170] 5 (TooLow (stored ∅ [170]))], ∅)
    else ([Answered [170] 5 Bumped], <[[170] := encode_nonce 5]> ∅).
Proof. apply (nonce_solo [170] 5 ∅). unfold is_nonce. lia. Defined.
