(* ===== verification/JsonText.v ===== *)
(** Textual json ([crates/rend/src/json.rs]): path access, the canonical text
    of a value, and the recursive-descent parser.  Strings are UTF-8 bytes. *)
From S2P Require Import Prelude Bytes Values Serialize.

(** ** Text of floats

    Formatting and parsing of [f64] ([Display], [FromStr]) over bit patterns
    are parameters, with what their documentation promises of finite values:
    the text is an optional sign, digits, and optionally a point and digits, and
    reading it back, with or without an explicit fraction, gives the same
    float. *)
Class FloatText := {
  format_f64 : Z → bytes;
  parse_f64 : bytes → option Z;
}.

Definition is_finite (bits : Z) : bool :=
  negb (Z.land (Z.shiftr bits 52) 0x7ff =? 0x7ff).

Definition is_digit (b : Z) : bool := (48 <=? b) && (b <=? 57).
Definition has_point (s : bytes) : bool := existsb (λ b, (b =? 46) || (b =? 101) || (b =? 69)) s.

(** [if s.contains('.') .. { s } else { s + ".0" }]. *)
Definition with_point (s : bytes) : bytes := if has_point s then s else s ++ [46; 48].

Class FloatTextLaws `{FloatText} := {
  float_text_shape x : in_u 64 x = true → is_finite x = true →
    ∃ (neg : bool) i f, format_f64 x = (if neg then [45] else []) ++ i ++ match f with [] => [] | _ => 46 :: f end ∧
      i ≠ [] ∧ forallb is_digit i = true ∧ forallb is_digit f = true;
  float_text_roundtrip x : in_u 64 x = true → is_finite x = true →
    parse_f64 (with_point (format_f64 x)) = Some x;
}.

(** ** Path access *)
Definition get_field (j : Json) (key : bytes) : option Value :=
  match j with
  | JObject m => snd ∘ snd <$> list_find (λ p, p.1 = key) m
  | _ => None
  end.

Definition get_index (j : Json) (idx : Z) : option Value :=
  match j with
  | JArray items => get_z items idx
  | _ => None
  end.

(** ** Decimal text of integers ([BigInt::to_string], [str::parse]) *)
Fixpoint dec_digits (fuel : nat) (n : Z) (acc : bytes) : bytes :=
  match fuel with
  | O => acc
  | S fuel' =>
      let acc' := 48 + n mod 10 :: acc in
      if n / 10 =? 0 then acc' else dec_digits fuel' (n / 10) acc'
  end.
Definition dec_nat (n : Z) : bytes := dec_digits (S (Z.to_nat (Z.log2 n))) n [].
Definition dec (n : Z) : bytes := if n <? 0 then 45 :: dec_nat (- n) else dec_nat n.

Definition digits_value (ds : bytes) : Z := foldl (λ acc d, acc * 10 + (d - 48)) 0 ds.
Definition parse_bigint (s : bytes) : Z :=
  match s with
  | 45 :: ds => - digits_value ds
  | ds => digits_value ds
  end.

(** ** Canonical text *)
Definition lit_null : bytes := [110; 117; 108; 108].
Definition lit_true : bytes := [116; 114; 117; 101].
Definition lit_false : bytes := [102; 97; 108; 115; 101].

(** A hex digit of [format!("{:04x}")]. *)
Definition hex_lower (d : Z) : Z := if d <? 10 then 48 + d else 87 + d.

(** One character; the bytes of a multi-byte character are copied. *)
Definition escape (b : Z) : bytes :=
  if b =? 34 then [92; 34]
  else if b =? 92 then [92; 92]
  else if b =? 10 then [92; 110]
  else if b =? 13 then [92; 114]
  else if b =? 9 then [92; 116]
  else if b <? 32 then [92; 117; 48; 48; hex_lower (b / 16); hex_lower (b mod 16)]
  else [b].

Definition write_string (s : bytes) : bytes := 34 :: concat (escape <$> s) ++ [34].

(** Elements separated by commas. *)
Fixpoint join_commas (ts : list bytes) : bytes :=
  match ts with
  | [] => []
  | [t] => t
  | t :: ts' => t ++ 44 :: join_commas ts'
  end.

Section text.
Context `{FloatText}.

Fixpoint write_canonical_value (v : Value) : bytes :=
  match v with
  | VBool b => if b then lit_true else lit_false
  | VInt n | VUInt n => dec n
  | VFloat bits => if is_finite bits then with_point (format_f64 bits) else lit_null
  | VStr s => write_string s
  | VJson j => write_canonical_json j
  | _ => lit_null
  end
with write_canonical_json (j : Json) : bytes :=
  match j with
  | JNull => lit_null
  | JArray items => 91 :: join_commas (write_canonical_value <$> items) ++ [93]
  | JObject m =>
      123 :: join_commas ((λ p, write_string p.1 ++ 58 :: write_canonical_value p.2) <$> m) ++ [125]
  end.
End text.

(** ** The parser

    The parser's state is what remains of the input; [pos] is the length of
    the input less that of the rest. *)
Record ParseError := mkParseError { pe_msg : string; pe_pos : Z }.

Inductive pres (A : Type) :=
  | POk (a : A) (rest : bytes)
  | PErr (e : ParseError)
  | PFuel.
Arguments POk {A} _ _.
Arguments PErr {A} _.
Arguments PFuel {A}.

Definition pbind {A B} (m : pres A) (f : A → bytes → pres B) : pres B :=
  match m with POk a r => f a r | PErr e => PErr e | PFuel => PFuel end.

Definition is_ws (b : Z) : bool := (b =? 32) || (b =? 9) || (b =? 10) || (b =? 13).

Fixpoint skip_ws (rest : bytes) : bytes :=
  match rest with
  | b :: rest' => if is_ws b then skip_ws rest' else rest
  | [] => []
  end.

Definition utf8_len (first : Z) : Z :=
  if first <? 0x80 then 1 else if first <? 0xC0 then 1 else if first <? 0xE0 then 2
  else if first <? 0xF0 then 3 else 4.

Definition hex_digit_value (b : Z) : option Z :=
  if (48 <=? b) && (b <=? 57) then Some (b - 48)
  else if (97 <=? b) && (b <=? 102) then Some (b - 97 + 10)
  else if (65 <=? b) && (b <=? 70) then Some (b - 65 + 10)
  else None.

(** [char::from_u32] below [0x10000], encoded. *)
Definition encode_char (c : Z) : option bytes :=
  if (0xD800 <=? c) && (c <=? 0xDFFF) then None
  else if c <? 0x80 then Some [c]
  else if c <? 0x800 then Some [0xC0 + c / 64; 0x80 + c mod 64]
  else Some [0xE0 + c / 4096; 0x80 + c / 64 mod 64; 0x80 + c mod 64].

(** The longest prefix of digits. *)
Fixpoint span_digits (rest : bytes) : bytes * bytes :=
  match rest with
  | b :: rest' => if is_digit b then let '(ds, r) := span_digits rest' in (b :: ds, r) else ([], rest)
  | [] => ([], [])
  end.

(** A [String] of the model for UTF-8 bytes. *)
Definition text (bs : bytes) : string :=
  foldr (λ b s, String (Ascii.ascii_of_nat (Z.to_nat b)) s) EmptyString bs.

(** [{:?}] of a byte as a [char]: the escapes of [char::escape_debug] on the
    first 256 code points. *)
Definition debug_char (b : Z) : string :=
  let body :=
    if b =? 0 then [92; 48] else if b =? 9 then [92; 116] else if b =? 10 then [92; 110]
    else if b =? 13 then [92; 114] else if b =? 39 then [92; 39] else if b =? 92 then [92; 92]
    else if (b <? 32) || ((127 <=? b) && (b <? 160)) || (b =? 173)
    then [92; 117; 123] ++ (if b <? 16 then [] else [hex_lower (b / 16)]) ++ [hex_lower (b mod 16); 125]
    else default [] (encode_char b) in
  text (39 :: body ++ [39]).

Section parser.
Context `{FloatText} (input_len : Z).

(** [self.err(msg)] with [rest] still to read. *)
Definition err {A} (msg : string) (rest : bytes) : pres A :=
  PErr (mkParseError msg (input_len - zlen rest)).

(** [advance() != Some(c)] moves past the byte it compares. *)
Fixpoint parse_lit (name : string) (lit : bytes) (value : Value) (rest : bytes) : pres Value :=
  match lit with
  | [] => POk value rest
  | c :: lit' =>
      match rest with
      | [] => err (String.append "expected literal '" (String.append name "'")) []
      | b :: rest' =>
          if b =? c then parse_lit name lit' value rest'
          else err (String.append "expected literal '" (String.append name "'")) rest'
      end
  end.

(** *** Strings *)
Definition simple_escape (e : Z) : option Z :=
  if e =? 34 then Some 34 else if e =? 92 then Some 92 else if e =? 47 then Some 47
  else if e =? 110 then Some 10 else if e =? 114 then Some 13 else if e =? 116 then Some 9
  else if e =? 98 then Some 8 else if e =? 102 then Some 12 else None.

(** The loop of [parse_string], after the opening quote.  A [\u] escape reads
    four hex digits one by one. *)
Fixpoint parse_chars (rest : bytes) (out : bytes) {struct rest} : pres bytes :=
  match rest with
  | [] => err "unterminated string" []
  | b :: r =>
      if b =? 34 then POk out r
      else if b =? 92 then
        match r with
        | [] => err "incomplete escape" []
        | e :: r1 =>
            match simple_escape e with
            | Some c => parse_chars r1 (out ++ [c])
            | None =>
                if negb (e =? 117)
                then err (String.append "invalid escape \" (debug_char e)) r1 else
                match r1 with
                | [] => err "incomplete \u escape" []
                | h1 :: r2 =>
                    match hex_digit_value h1 with
                    | None => err "invalid \u hex digit" r2
                    | Some v1 =>
                        match r2 with
                        | [] => err "incomplete \u escape" []
                        | h2 :: r3 =>
                            match hex_digit_value h2 with
                            | None => err "invalid \u hex digit" r3
                            | Some v2 =>
                                match r3 with
                                | [] => err "incomplete \u escape" []
                                | h3 :: r4 =>
                                    match hex_digit_value h3 with
                                    | None => err "invalid \u hex digit" r4
                                    | Some v3 =>
                                        match r4 with
                                        | [] => err "incomplete \u escape" []
                                        | h4 :: r5 =>
                                            match hex_digit_value h4 with
                                            | None => err "invalid \u hex digit" r5
                                            | Some v4 =>
                                                let hex := ((v1 * 16 + v2) * 16 + v3) * 16 + v4 in
                                                match encode_char hex with
                                                | None => err "invalid \u code point (surrogate pairs unsupported)" r5
                                                | Some c => parse_chars r5 (out ++ c)
                                                end
                                            end
                                        end
                                    end
                                end
                            end
                        end
                    end
                end
            end
        end
      else if b <? 32 then err "control character in string" r
      else
        let n := utf8_len b in
        if n =? 1 then
          if utf8_valid [b] then parse_chars r (out ++ [b]) else err "invalid UTF-8" r
        else
          match r with
          | [] => err "incomplete UTF-8" []
          | b1 :: r1 =>
              if n =? 2 then
                if utf8_valid [b; b1] then parse_chars r1 (out ++ [b; b1])
                else err "invalid UTF-8" r1
              else
                match r1 with
                | [] => err "incomplete UTF-8" []
                | b2 :: r2 =>
                    if n =? 3 then
                      if utf8_valid [b; b1; b2] then parse_chars r2 (out ++ [b; b1; b2])
                      else err "invalid UTF-8" r2
                    else
                      match r2 with
                      | [] => err "incomplete UTF-8" []
                      | b3 :: r3 =>
                          if utf8_valid [b; b1; b2; b3] then parse_chars r3 (out ++ [b; b1; b2; b3])
                          else err "invalid UTF-8" r3
                      end
                end
          end
  end.

Definition parse_string (rest : bytes) : pres bytes :=
  match rest with
  | 34 :: r => parse_chars r []
  | _ => err (text [101; 120; 112; 101; 99; 116; 101; 100; 32; 39; 34; 39]) (tail rest)
  end.

(** *** Numbers *)
Definition skip_minus (rest : bytes) : bytes * bytes :=
  match rest with 45 :: r => ([45], r) | _ => ([], rest) end.
Definition is_exp (b : Z) : bool := (b =? 101) || (b =? 69).
Definition is_sign (b : Z) : bool := (b =? 43) || (b =? 45).

(** The fraction, if any: its text, and what follows. *)
Definition parse_fraction (rest : bytes) : pres (option bytes) :=
  match rest with
  | 46 :: r =>
      let '(ds, r') := span_digits r in
      if bool_decide (ds = []) then err "expected digits after '.'" r'
      else POk (Some (46 :: ds)) r'
  | _ => POk None rest
  end.

Definition parse_exponent (rest : bytes) : pres (option bytes) :=
  match rest with
  | e :: r =>
      if is_exp e then
        let '(sign, r1) := match r with
                           | s :: r1 => if is_sign s then ([s], r1) else ([], r)
                           | [] => ([], r)
                           end in
        let '(ds, r2) := span_digits r1 in
        if bool_decide (ds = []) then err "expected digits in exponent" r2
        else POk (Some (e :: sign ++ ds)) r2
      else POk None rest
  | [] => POk None rest
  end.

Definition parse_number (rest : bytes) : pres Value :=
  let '(minus, r1) := skip_minus rest in
  let '(ds, r2) := span_digits r1 in
  if bool_decide (ds = []) then err "expected digits" r2 else
  pbind (parse_fraction r2) (λ frac r3,
  pbind (parse_exponent r3) (λ exp r4,
  match frac, exp with
  | None, None => POk (VInt (parse_bigint (minus ++ ds))) r4
  | _, _ =>
      match parse_f64 (minus ++ ds ++ default [] frac ++ default [] exp) with
      | Some x => POk (VFloat x) r4
      | None => err "invalid float literal" r4
      end
  end)).

(** *** Values

    The recursion follows the nesting and the loops the elements; every turn
    consumes input, which bounds the fuel. *)
Section loops.
Context (parse_value : bytes → pres Value).

(** The loop of [parse_array], after ['[']. *)
Fixpoint parse_items (fuel : nat) (rest : bytes) (items : list Value) : pres Json :=
  match fuel with
  | O => PFuel
  | S fuel' =>
      pbind (parse_value rest) (λ v r,
      match skip_ws r with
      | [] => err "unterminated array" []
      | b :: r1 =>
          if b =? 44 then parse_items fuel' (skip_ws r1) (items ++ [v])
          else if b =? 93 then POk (JArray (items ++ [v])) r1
          else err (String.append "expected ',' or ']' in array, got " (debug_char b)) r1
      end)
  end.

(** The loop of [parse_object], after the opening brace. *)
Fixpoint parse_members (fuel : nat) (rest : bytes) (m : list (bytes * Value)) : pres Json :=
  match fuel with
  | O => PFuel
  | S fuel' =>
      pbind (parse_string (skip_ws rest)) (λ key r,
      match skip_ws r with
      | 58 :: r1 =>
          pbind (parse_value (skip_ws r1)) (λ value r2,
          let m' := indexmap_insert m key value in
          match skip_ws r2 with
          | [] => err "unterminated object" []
          | b :: r3 =>
              if b =? 44 then parse_members fuel' r3 m'
              else if b =? 125 then POk (JObject m') r3
              else err (String.append "expected ',' or '}' in object, got " (debug_char b)) r3
          end)
      | r1 => err "expected ':' after object key" (tail r1)
      end)
  end.
End loops.

Fixpoint parse_value (fuel : nat) (rest : bytes) : pres Value :=
  match fuel with
  | O => PFuel
  | S fuel' =>
      match skip_ws rest with
      | [] => err "unexpected end of input" []
      | (b :: r) as rest1 =>
          if b =? 110 then parse_lit "null" lit_null (VJson JNull) rest1
          else if b =? 116 then parse_lit "true" lit_true (VBool true) rest1
          else if b =? 102 then parse_lit "false" lit_false (VBool false) rest1
          else if b =? 34 then pbind (parse_string rest1) (λ s r, POk (VStr s) r)
          else if b =? 91 then
            match skip_ws r with
            | 93 :: r1 => POk (VJson (JArray [])) r1
            | r1 => pbind (parse_items (parse_value fuel') fuel' r1 []) (λ j r, POk (VJson j) r)
            end
          else if b =? 123 then
            match skip_ws r with
            | 125 :: r1 => POk (VJson (JObject [])) r1
            | r1 => pbind (parse_members (parse_value fuel') fuel' r1 []) (λ j r, POk (VJson j) r)
            end
          else if (b =? 45) || is_digit b then parse_number rest1
          else err (String.append "unexpected byte " (pretty b)) rest1
      end
  end.
End parser.

(** ** The entry point *)
Definition parse `{FloatText} (s : bytes) : pres Value :=
  let n := zlen s in
  pbind (parse_value n (S (length s)) (skip_ws s)) (λ v r,
  let r' := skip_ws r in
  match r' with
  | [] => POk v []
  | _ => err n (String.append "unexpected trailing data at " (pretty (n - zlen r'))) r'
  end).
