(* ===== verification/JsonTextFacts.v ===== *)
(** The json text codec: parsing the canonical text of a value gives the value
    back, and the parser terminates on every input. *)
From S2P Require Import Prelude Bytes Values Serialize SerializeFacts JsonText.
(** ** Decimal integers *)
Lemma dec_digits_app fuel n acc : dec_digits fuel n acc = dec_digits fuel n [] ++ acc.
Proof.
  revert n acc. induction fuel as [|fuel IH]; intros n acc; cbn [dec_digits]; [done|].
  destruct (n / 10 =? 0); [done|]. rewrite IH, (IH _ [_]). by rewrite <- app_assoc.
Qed.

Lemma digit_byte n : is_digit (48 + n mod 10) = true.
Proof. unfold is_digit. pose proof (Z.mod_pos_bound n 10 eq_refl). lia. Qed.

Lemma digits_value_app a b :
  digits_value (a ++ b) = foldl (λ acc d, acc * 10 + (d - 48)) (digits_value a) b.
Proof. unfold digits_value. by rewrite foldl_app. Qed.

Lemma dec_digits_ok fuel n :
  0 <= n < 2 ^ Z.of_nat fuel →
  forallb is_digit (dec_digits fuel n []) = true ∧ digits_value (dec_digits fuel n []) = n ∧
  (fuel ≠ 0%nat → dec_digits fuel n [] ≠ []).
Proof.
  revert n. induction fuel as [|fuel IH]; intros n Hn; cbn [dec_digits].
  { splits; [done| |done]. cbn in *. lia. }
  pose proof (Z.div_mod n 10 ltac:(lia)) as Hdm. pose proof (Z.mod_pos_bound n 10 eq_refl).
  destruct (Z.eqb_spec (n / 10) 0) as [Hz|Hz].
  - splits; [cbn [forallb]; by rewrite digit_byte| |done]. unfold digits_value. cbn [foldl]. lia.
  - destruct (IH (n / 10)) as (Hd & Hv & _).
    { rewrite Nat2Z.inj_succ, Z.pow_succ_r in Hn by lia.
      split; [apply Z.div_pos; lia|]. apply Z.div_lt_upper_bound; lia. }
    rewrite dec_digits_app. splits.
    + rewrite forallb_app, Hd. cbn [forallb]. by rewrite digit_byte.
    + rewrite digits_value_app, Hv. cbn [foldl]. lia.
    + intros _ E%app_eq_nil. by destruct E.
Qed.

Lemma dec_nat_ok n :
  0 <= n → forallb is_digit (dec_nat n) = true ∧ digits_value (dec_nat n) = n ∧ dec_nat n ≠ [].
Proof.
  intros Hn. unfold dec_nat. destruct (dec_digits_ok (S (Z.to_nat (Z.log2 n))) n) as (Hd & Hv & Hne).
  { split; [done|]. rewrite Nat2Z.inj_succ, Z2Nat.id by apply Z.log2_nonneg.
    destruct (decide (n = 0)) as [->|]; [done|]. apply Z.log2_spec. lia. }
  splits; [done|done|by apply Hne].
Qed.

(** ** Scanning *)
Definition no_digit (rest : bytes) : Prop :=
  match rest with [] => True | b :: _ => is_digit b = false end.

(** What may follow a number. *)
Definition stops (rest : bytes) : Prop :=
  match rest with [] => True | b :: _ => is_digit b = false ∧ b ≠ 46 ∧ is_exp b = false end.

Lemma stops_no_digit rest : stops rest → no_digit rest.
Proof. destruct rest; [done|]. by intros []. Qed.

Lemma span_digits_ok ds rest :
  forallb is_digit ds = true → no_digit rest → span_digits (ds ++ rest) = (ds, rest).
Proof.
  induction ds as [|d ds IH]; cbn [app span_digits forallb].
  - intros _ Hr. destruct rest as [|b rest]; [done|]. cbn in Hr |- *. by rewrite Hr.
  - intros [Hd Hds]%andb_prop Hr. by rewrite Hd, IH.
Qed.

Lemma skip_ws_id b rest : is_ws b = false → skip_ws (b :: rest) = b :: rest.
Proof. intros Hb. cbn. by rewrite Hb. Qed.

Lemma digit_not_ws b : is_digit b = true → is_ws b = false.
Proof. unfold is_digit, is_ws. lia. Qed.

Section parser.
Context `{FloatText} (n : Z).

Lemma parse_fraction_none rest : stops rest → parse_fraction n rest = POk None rest.
Proof.
  destruct rest as [|b rest]; [done|]. intros (_ & Hb & _). cbn [parse_fraction].
  destruct b as [|p|p]; try done.
  repeat (destruct p as [p|p|]; try done).
Qed.

Lemma parse_exponent_none rest : stops rest → parse_exponent n rest = POk None rest.
Proof. destruct rest as [|b rest]; [done|]. intros (_ & _ & Hb). cbn. by rewrite Hb. Qed.

Lemma skip_minus_digits d ds rest :
  is_digit d = true → skip_minus (d :: ds ++ rest) = ([], d :: ds ++ rest).
Proof.
  intros Hd. unfold skip_minus. destruct d as [|p|p]; try done.
  repeat (destruct p as [p|p|]; try done).
Qed.

(** Signed digits, as a number's text begins. *)
Definition signed (neg : bool) (ds : bytes) : bytes := (if neg then [45] else []) ++ ds.

Lemma skip_minus_signed neg ds rest :
  ds ≠ [] → forallb is_digit ds = true →
  skip_minus (signed neg ds ++ rest) = (if neg then [45] else [], ds ++ rest).
Proof.
  intros Hne Hds. destruct neg; [done|]. destruct ds as [|d ds]; [done|].
  cbn [forallb] in Hds. apply andb_prop in Hds as [Hd _]. by apply skip_minus_digits.
Qed.

Lemma parse_number_int neg ds rest :
  ds ≠ [] → forallb is_digit ds = true → stops rest →
  parse_number n (signed neg ds ++ rest) = POk (VInt (parse_bigint (signed neg ds))) rest.
Proof.
  intros Hne Hds Hs. unfold parse_number. rewrite skip_minus_signed by done.
  rewrite span_digits_ok by (done || by apply stops_no_digit).
  rewrite bool_decide_false by done. rewrite parse_fraction_none by done. cbn [pbind].
  rewrite parse_exponent_none by done. done.
Qed.

Lemma parse_number_float neg i f x rest :
  i ≠ [] → forallb is_digit i = true → f ≠ [] → forallb is_digit f = true → stops rest →
  parse_f64 (signed neg i ++ 46 :: f) = Some x →
  parse_number n ((signed neg i ++ 46 :: f) ++ rest) = POk (VFloat x) rest.
Proof.
  intros Hi Hid Hf Hfd Hs Hx. unfold parse_number.
  rewrite <- app_assoc. rewrite skip_minus_signed by done.
  rewrite span_digits_ok by done. rewrite bool_decide_false by done. cbn [app parse_fraction].
  rewrite span_digits_ok by (done || by apply stops_no_digit). rewrite bool_decide_false by done.
  cbn [pbind]. rewrite parse_exponent_none by done. cbn [pbind]. unfold signed in Hx.
  change (default [] (Some (46 :: f))) with (46 :: f). change (default [] None) with (@nil Z).
  rewrite app_nil_r. rewrite <- app_assoc in Hx. by rewrite Hx.
Qed.

Lemma dec_signed m :
  ∃ neg ds, dec m = signed neg ds ∧ ds ≠ [] ∧ forallb is_digit ds = true ∧ parse_bigint (dec m) = m.
Proof.
  unfold dec. destruct (Z.ltb_spec m 0) as [Hm|Hm].
  - destruct (dec_nat_ok (- m)) as (Hd & Hv & Hne); [lia|].
    exists true, (dec_nat (- m)). splits; [done..|]. cbn [parse_bigint]. rewrite Hv. lia.
  - destruct (dec_nat_ok m) as (Hd & Hv & Hne); [lia|].
    exists false, (dec_nat m). splits; [done..|]. rewrite <- Hv at 2.
    destruct (dec_nat m) as [|d ds]; [done|]. cbn [forallb] in Hd. apply andb_prop in Hd as [Hd _].
    unfold parse_bigint. destruct d as [|p|p]; try done. repeat (destruct p as [p|p|]; try done).
Qed.

(** *** Strings *)
Lemma parse_escape b rest out :
  0 <= b < 128 → parse_chars n (escape b ++ rest) out = parse_chars n rest (out ++ [b]).
Proof.
  intros Hb. assert (∃ k, b = Z.of_nat k ∧ (k < 128)%nat) as (k & -> & Hk)
    by (exists (Z.to_nat b); lia). clear Hb.
  do 128 (destruct k as [|k]; [reflexivity|]). lia.
Qed.

Lemma escape_high b : 128 <= b → escape b = [b].
Proof. intros Hb. unfold escape. repeat case_match; lia || done. Qed.

(** A multi-byte character is copied as one chunk. *)
Lemma parse_chunk2 b b1 rest out :
  in_range 194 223 b = true → utf8_valid [b; b1] = true →
  parse_chars n (b :: b1 :: rest) out = parse_chars n rest (out ++ [b; b1]).
Proof.
  unfold in_range. intros Hb Hu. assert (Hlen : utf8_len b = 2) by (unfold utf8_len; repeat case_match; lia).
  cbn [parse_chars]. rewrite Hlen.
  replace (b =? 34) with false by lia. replace (b =? 92) with false by lia.
  replace (b <? 32) with false by lia. cbv zeta.
  change (2 =? 1) with false. change (2 =? 2) with true. cbn iota. by rewrite Hu.
Qed.

Lemma parse_chunk3 b b1 b2 rest out :
  in_range 224 239 b = true → utf8_valid [b; b1; b2] = true →
  parse_chars n (b :: b1 :: b2 :: rest) out = parse_chars n rest (out ++ [b; b1; b2]).
Proof.
  unfold in_range. intros Hb Hu. assert (Hlen : utf8_len b = 3) by (unfold utf8_len; repeat case_match; lia).
  cbn [parse_chars]. rewrite Hlen.
  replace (b =? 34) with false by lia. replace (b =? 92) with false by lia.
  replace (b <? 32) with false by lia. cbv zeta.
  change (3 =? 1) with false. change (3 =? 2) with false. change (3 =? 3) with true.
  cbn iota. by rewrite Hu.
Qed.

Lemma parse_chunk4 b b1 b2 b3 rest out :
  in_range 240 244 b = true → utf8_valid [b; b1; b2; b3] = true →
  parse_chars n (b :: b1 :: b2 :: b3 :: rest) out = parse_chars n rest (out ++ [b; b1; b2; b3]).
Proof.
  unfold in_range. intros Hb Hu. assert (Hlen : utf8_len b = 4) by (unfold utf8_len; repeat case_match; lia).
  cbn [parse_chars]. rewrite Hlen.
  replace (b =? 34) with false by lia. replace (b =? 92) with false by lia.
  replace (b <? 32) with false by lia. cbv zeta.
  change (4 =? 1) with false. change (4 =? 2) with false. change (4 =? 3) with false.
  cbn iota. by rewrite Hu.
Qed.

Lemma cont_high b : utf8_cont b = true → escape b = [b].
Proof. unfold utf8_cont. intros. apply escape_high. lia. Qed.

Lemma parse_chars_ok k s rest out :
  (length s ≤ k)%nat → utf8_valid s = true →
  parse_chars n (concat (escape <$> s) ++ 34 :: rest) out = POk (out ++ s) rest.
Proof.
  revert s out. induction k as [|k IH]; intros s out Hk Hu.
  { destruct s; [|cbn in Hk; lia]. cbn. by rewrite app_nil_r. }
  destruct s as [|b0 s]; [cbn; by rewrite app_nil_r|]. cbn [utf8_valid] in Hu.
  cbn [fmap list_fmap concat]. rewrite <- app_assoc. cbn [length] in Hk.
  destruct (in_range 0 127 b0) eqn:E0.
  { rewrite parse_escape by (unfold in_range in E0; lia). rewrite IH by (lia || done).
    by rewrite <- app_assoc. }
  destruct s as [|b1 s]; [done|]. cbn [length] in Hk.
  cbn [fmap list_fmap concat]. rewrite <- app_assoc.
  destruct (in_range 194 223 b0) eqn:E2.
  { apply andb_prop in Hu as [H1 Hu].
    rewrite (escape_high b0) by (unfold in_range in E2; lia). rewrite (cont_high b1) by done.
    cbn [app]. rewrite parse_chunk2; [|done|cbn [utf8_valid]; by rewrite E0, E2, H1].
    rewrite IH by (lia || done). by rewrite <- app_assoc. }
  destruct s as [|b2 s]; [done|]. cbn [length] in Hk.
  cbn [fmap list_fmap concat]. rewrite <- app_assoc.
  destruct (in_range 224 239 b0) eqn:E3.
  { apply andb_prop in Hu as [Hu Hs]. apply andb_prop in Hu as [H1 H2].
    assert (Hb1 : 128 <= b1) by (unfold in_range, utf8_cont in H1; repeat case_match; lia).
    rewrite (escape_high b0) by (unfold in_range in E3; lia).
    rewrite (escape_high b1), (cont_high b2) by done.
    cbn [app]. rewrite parse_chunk3; [|done|cbn [utf8_valid]; by rewrite E0, E2, E3, H1, H2].
    rewrite IH by (lia || done). by rewrite <- app_assoc. }
  destruct s as [|b3 s]; [done|]. cbn [length] in Hk.
  cbn [fmap list_fmap concat]. rewrite <- app_assoc.
  apply andb_prop in Hu as [Hu Hs]. apply andb_prop in Hu as [Hu H3].
  apply andb_prop in Hu as [Hu H2]. apply andb_prop in Hu as [E4 H1].
  assert (Hb1 : 128 <= b1) by (unfold in_range, utf8_cont in H1; repeat case_match; lia).
  rewrite (escape_high b0) by (unfold in_range in E4; lia).
  rewrite (escape_high b1), (cont_high b2), (cont_high b3) by done.
  cbn [app]. rewrite parse_chunk4; [|done|cbn [utf8_valid]; by rewrite E0, E2, E3, E4, H1, H2, H3].
  rewrite IH by (lia || done). by rewrite <- app_assoc.
Qed.

Lemma parse_string_ok s rest :
  utf8_valid s = true → parse_string n (write_string s ++ rest) = POk s rest.
Proof.
  intros Hu. unfold write_string. cbn [app parse_string]. rewrite <- app_assoc. cbn [app].
  by rewrite (parse_chars_ok (length s)).
Qed.
End parser.

(** ** Values that json text carries *)
Fixpoint texty (v : Value) : bool :=
  match v with
  | VBool _ | VInt _ => true
  | VFloat bits => in_u 64 bits && is_finite bits
  | VStr s => utf8_valid s
  | VJson j => texty_json j
  | _ => false
  end
with texty_json (j : Json) : bool :=
  match j with
  | JNull => true
  | JArray items => forallb texty items
  | JObject m => bool_decide (NoDup m.*1) && forallb (λ p, utf8_valid p.1 && texty p.2) m
  end.

(** The text of a value starts with a character that is no white space. *)
Definition starts (t : bytes) : Prop :=
  match t with b :: _ => is_ws b = false ∧ b ≠ 93 ∧ b ≠ 125 | [] => False end.

Section roundtrip.
Context `{TextLaws : FloatTextLaws}.

Lemma signed_starts neg ds rest :
  ds ≠ [] → forallb is_digit ds = true →
  ∃ b t, signed neg ds ++ rest = b :: t ∧ (b = 45 ∨ is_digit b = true).
Proof.
  intros Hne Hd. unfold signed. destruct neg; [by exists 45, (ds ++ rest); split; [|left]|].
  destruct ds as [|d ds]; [done|]. apply andb_prop in Hd as [Hd _]. cbn.
  exists d, (ds ++ rest). split; [done|by right].
Qed.

Lemma float_text x :
  in_u 64 x = true → is_finite x = true →
  ∃ neg i f, with_point (format_f64 x) = signed neg i ++ 46 :: f ∧ i ≠ [] ∧ f ≠ [] ∧
    forallb is_digit i = true ∧ forallb is_digit f = true ∧
    parse_f64 (signed neg i ++ 46 :: f) = Some x.
Proof.
  intros Hx Hfin. destruct (float_text_shape x Hx Hfin) as (neg & i & f & E & Hi & Hid & Hfd).
  pose proof (float_text_roundtrip x Hx Hfin) as Hr.
  assert (Hpoint : ∀ ds, forallb is_digit ds = true → has_point ds = false).
  { intros ds Hds. apply existsb_false. apply forallb_Forall in Hds.
    eapply Forall_impl; [exact Hds|]. intros d. unfold is_digit. cbn. lia. }
  assert (Hs : has_point (signed neg i) = false).
  { unfold signed. destruct neg; [|by apply Hpoint]. cbn. by apply Hpoint. }
  destruct f as [|d f].
  - exists neg, i, [48]. rewrite app_nil_r in E. fold (signed neg i) in E.
    rewrite E in Hr |- *. unfold with_point in *. rewrite Hs in *. by splits.
  - exists neg, i, (d :: f). rewrite app_assoc in E. fold (signed neg i) in E.
    assert (Hp : has_point (format_f64 x) = true).
    { rewrite E. unfold has_point. rewrite existsb_app. cbn. by rewrite orb_true_r. }
    unfold with_point in *. rewrite Hp in *. rewrite E in *. by splits.
Qed.

Lemma write_starts v : texty v = true → starts (write_canonical_value v).
Proof.
  assert (Hnum : ∀ neg ds rest, ds ≠ [] → forallb is_digit ds = true →
    starts (signed neg ds ++ rest)).
  { intros neg ds rest Hne Hd. destruct (signed_starts neg ds rest Hne Hd) as (b & t & -> & Hb).
    unfold starts, is_digit, is_ws in *. destruct Hb as [->|Hb]; [done|]. splits; lia. }
  intros Ht. destruct v as [m| |x| | | | |b| | |s| | | | | | | | | | | |j| | | |];
    try discriminate Ht; cbn [write_canonical_value].
  - destruct (dec_signed m) as (neg & ds & -> & Hne & Hd & _).
    rewrite <- (app_nil_r (signed neg ds)). by apply Hnum.
  - cbn [texty] in Ht. apply andb_prop in Ht as [Hx Hf]. rewrite Hf.
    destruct (float_text x Hx Hf) as (neg & i & f & -> & Hi & _ & Hd & _). by apply Hnum.
  - by destruct b.
  - done.
  - by destruct j.
Qed.

Lemma skip_ws_starts t rest : starts t → skip_ws (t ++ rest) = t ++ rest.
Proof. destruct t as [|b t]; [done|]. intros (Hb & _). cbn. by rewrite Hb. Qed.

Lemma parse_lit_ok n name lit v rest : parse_lit n name lit v (lit ++ rest) = POk v rest.
Proof. induction lit as [|c lit IH]; [done|]. cbn. by rewrite Z.eqb_refl. Qed.

(** A number parses whatever the fuel. *)
Lemma parse_value_number n fuel t rest r :
  (∃ b t', t = b :: t' ∧ (b = 45 ∨ is_digit b = true)) →
  parse_number n (t ++ rest) = r → parse_value n (S fuel) (t ++ rest) = r.
Proof.
  intros (b & t' & -> & Hb) <-. cbn [parse_value app].
  assert (Hr : 45 <= b <= 57) by (unfold is_digit in Hb; lia).
  assert (Hw : is_ws b = false) by (unfold is_ws; lia). rewrite skip_ws_id by done.
  replace (b =? 110) with false by lia. replace (b =? 116) with false by lia.
  replace (b =? 102) with false by lia. replace (b =? 34) with false by lia.
  replace (b =? 91) with false by lia. replace (b =? 123) with false by lia.
  assert (Hd : (b =? 45) || is_digit b = true) by (destruct Hb as [->|Hb]; [done|]; rewrite Hb; apply orb_true_r).
  by rewrite Hd.
Qed.

(** The parser reads a value's text in front of any suffix that ends numbers. *)
Definition reads_back (v : Value) : Prop :=
  texty v = true → ∀ n fuel rest,
  (length (write_canonical_value v) < fuel)%nat → stops rest →
  parse_value n fuel (write_canonical_value v ++ rest) = POk v rest.

Lemma comma_stops rest : stops (44 :: rest).
Proof. done. Qed.

Lemma join_commas_cons t t2 ts : join_commas (t :: t2 :: ts) = t ++ 44 :: join_commas (t2 :: ts).
Proof. reflexivity. Qed.

Lemma join_starts t ts rest : starts t → skip_ws (join_commas (t :: ts) ++ rest) = join_commas (t :: ts) ++ rest.
Proof.
  destruct t as [|b t]; [done|]. intros [Hb _]. by destruct ts; cbn; rewrite Hb.
Qed.

Lemma parse_items_ok n fuel f vs acc rest :
  vs ≠ [] → Forall reads_back vs → forallb texty vs = true →
  (length (join_commas (write_canonical_value <$> vs)) < fuel)%nat →
  (length (join_commas (write_canonical_value <$> vs)) < f)%nat →
  parse_items n (parse_value n f) fuel
    (join_commas (write_canonical_value <$> vs) ++ 93 :: rest) acc = POk (JArray (acc ++ vs)) rest.
Proof.
  intros Hne Hvs Ht. revert fuel acc Hne.
  induction Hvs as [|v vs Hv Hvs IH]; intros fuel acc Hne; [done|]. cbn [forallb] in Ht.
  apply andb_prop in Ht as [Htv Ht].
  destruct vs as [|v2 vs]; intros Hf Hf2; (destruct fuel as [|fuel]; [lia|]); cbn [parse_items].
  - cbn [fmap list_fmap join_commas] in *. rewrite Hv by done. cbn [pbind]. by rewrite skip_ws_id.
  - rewrite !fmap_cons in *. rewrite join_commas_cons, length_app in *. cbn [length] in *.
    rewrite <- app_assoc. rewrite Hv by (done || lia). cbn [pbind].
    rewrite <- app_comm_cons. rewrite skip_ws_id by done. change (44 =? 44) with true. cbn iota.
    rewrite join_starts.
    2: { apply write_starts. cbn [forallb] in Ht. by apply andb_prop in Ht as [Ht _]. }
    rewrite (IH Ht fuel (acc ++ [v])) by (done || lia). by rewrite <- app_assoc.
Qed.

Definition member_text (p : bytes * Value) : bytes :=
  write_string p.1 ++ 58 :: write_canonical_value p.2.

Lemma member_starts p : starts (member_text p).
Proof. done. Qed.

Lemma indexmap_insert_fresh m k v : k ∉ m.*1 → indexmap_insert m k v = m ++ [(k, v)].
Proof. apply indexmap_insert_new. Qed.

Lemma parse_members_ok n fuel f m acc rest :
  m ≠ [] → Forall (λ p, reads_back p.2) m →
  forallb (λ p, utf8_valid p.1 && texty p.2) m = true → NoDup (acc ++ m).*1 →
  (length (join_commas (member_text <$> m)) < fuel)%nat →
  (length (join_commas (member_text <$> m)) < f)%nat →
  parse_members n (parse_value n f) fuel
    (join_commas (member_text <$> m) ++ 125 :: rest) acc = POk (JObject (acc ++ m)) rest.
Proof.
  intros Hne Hm Ht. revert fuel acc Hne.
  induction Hm as [|[k v] m Hv Hm IH]; intros fuel acc Hne Hnd; [done|]. cbn [forallb fst snd] in Ht.
  apply andb_prop in Ht as [Hkv Ht]. apply andb_prop in Hkv as [Hk Htv]. cbn [snd] in Hv.
  assert (Hfresh : indexmap_insert acc k v = acc ++ [(k, v)]).
  { apply indexmap_insert_new. rewrite fmap_app in Hnd. apply NoDup_app in Hnd as (_ & Hd & _).
    intros Hin. apply (Hd k Hin). left. }
  assert (Hhead : ∀ rest', parse_string n (skip_ws (member_text (k, v) ++ rest'))
      = POk k (58 :: write_canonical_value v ++ rest')).
  { intros rest'. rewrite skip_ws_starts by apply member_starts. unfold member_text. cbn [fst snd].
    rewrite <- app_assoc. by rewrite parse_string_ok. }
  assert (Hlen : (length (write_canonical_value v) < length (member_text (k, v)))%nat).
  { unfold member_text. cbn [fst snd]. rewrite length_app. cbn [length]. lia. }
  destruct m as [|p2 m]; intros Hf Hf2; (destruct fuel as [|fuel]; [lia|]); cbn [parse_members].
  - cbn [fmap list_fmap join_commas] in *. rewrite Hhead. cbn [pbind].
    rewrite skip_ws_id by done. cbn iota. rewrite skip_ws_starts by by apply write_starts.
    rewrite Hv by (done || lia). cbn [pbind]. rewrite skip_ws_id by done. cbn iota. by rewrite Hfresh.
  - rewrite !fmap_cons in *. rewrite join_commas_cons, length_app in *. cbn [length] in *.
    rewrite <- app_assoc. rewrite Hhead. cbn [pbind]. rewrite skip_ws_id by done. cbn iota.
    rewrite skip_ws_starts by by apply write_starts.
    rewrite <- app_comm_cons. rewrite Hv by (done || lia). cbn [pbind].
    rewrite skip_ws_id by done. change (44 =? 44) with true. cbn iota. rewrite Hfresh.
    rewrite (IH Ht fuel (acc ++ [(k, v)])); [by rewrite <- app_assoc|done| |lia|lia].
    by rewrite <- app_assoc.
Qed.

(** Decides a comparison of the byte [b] with a constant, under [b ≠ constant]. *)
Ltac other_byte b :=
  destruct b as [|p|p]; try reflexivity;
  repeat (destruct p as [p|p|]; try reflexivity; try (exfalso; congruence)).

(** A bracket followed by the start of a value opens a non-empty sequence. *)
Lemma parse_value_array n fuel t rest :
  starts t → parse_value n (S fuel) (91 :: t ++ rest) =
    pbind (parse_items n (parse_value n fuel) fuel (t ++ rest) []) (λ j r, POk (VJson j) r).
Proof.
  intros Ht. cbn [parse_value skip_ws]. change (is_ws 91) with false. cbn iota beta.
  change (91 =? 110) with false. change (91 =? 116) with false. change (91 =? 102) with false.
  change (91 =? 34) with false. change (91 =? 91) with true. cbn iota.
  rewrite skip_ws_starts by done. destruct t as [|b t]; [done|]. destruct Ht as (_ & Hb & _).
  cbn [app]. by other_byte b.
Qed.

Lemma parse_value_object n fuel t rest :
  starts t → parse_value n (S fuel) (123 :: t ++ rest) =
    pbind (parse_members n (parse_value n fuel) fuel (t ++ rest) []) (λ j r, POk (VJson j) r).
Proof.
  intros Ht. cbn [parse_value skip_ws]. change (is_ws 123) with false. cbn iota beta.
  change (123 =? 110) with false. change (123 =? 116) with false. change (123 =? 102) with false.
  change (123 =? 34) with false. change (123 =? 91) with false. change (123 =? 123) with true. cbn iota.
  rewrite skip_ws_starts by done. destruct t as [|b t]; [done|]. destruct Ht as (_ & _ & Hb).
  cbn [app]. by other_byte b.
Qed.

Lemma join_commas_starts t ts : starts t → starts (join_commas (t :: ts)).
Proof. destruct t as [|b t]; [done|]. by destruct ts. Qed.

Lemma all_read_back v : reads_back v.
Proof.
  apply (value_ind_nested reads_back (λ j, reads_back (VJson j))); unfold reads_back.
  - intros w Hw Ht n fuel rest Hf Hs. destruct fuel as [|fuel]; [lia|].
    destruct w as [m| |x| | | | |b| | |s| | | | | | | | | | | |j| | | |]; try discriminate Ht;
      cbn [write_canonical_value].
    + destruct (dec_signed m) as (neg & ds & E & Hne & Hd & Hp).
      apply parse_value_number.
      * rewrite E. destruct (signed_starts neg ds [] Hne Hd) as (b & t & Et & Hb).
        rewrite app_nil_r in Et. eauto.
      * rewrite E in Hp |- *. rewrite parse_number_int by done. by rewrite Hp.
    + cbn [texty] in Ht. apply andb_prop in Ht as [Hx Hfin]. rewrite Hfin.
      destruct (float_text x Hx Hfin) as (neg & i & f & E & Hi & Hf' & Hid & Hfd & Hp). rewrite E.
      apply parse_value_number.
      * destruct (signed_starts neg i (46 :: f) Hi Hid) as (b & t & Et & Hb). eauto.
      * by apply parse_number_float.
    + destruct b; [exact (parse_lit_ok n _ lit_true _ rest)|exact (parse_lit_ok n _ lit_false _ rest)].
    + cbn [texty] in Ht. pose proof (parse_string_ok n s rest Ht) as E. unfold write_string in *.
      cbn [app] in *. cbn [parse_value skip_ws]. cbn iota beta.
      change (is_ws 34) with false. cbn iota. change (34 =? 110) with false.
      change (34 =? 116) with false. change (34 =? 102) with false. change (34 =? 34) with true.
      cbn iota. by rewrite E.
    + discriminate Hw.
  - intros l _ Ht. discriminate Ht.
  - intros l _ Ht. discriminate Ht.
  - intros l _ Ht. discriminate Ht.
  - intros nm l _ Ht. discriminate Ht.
  - intros l _ Ht. discriminate Ht.
  - intros e nm l _ Ht. discriminate Ht.
  - intros j Hj. exact Hj.
  - intros _ n fuel rest Hf Hs. destruct fuel as [|fuel]; [lia|].
    exact (parse_lit_ok n _ lit_null _ rest).
  - intros l IH Ht n fuel rest Hf Hs. destruct fuel as [|fuel]; [lia|].
    cbn [texty texty_json write_canonical_value write_canonical_json length] in *.
    rewrite length_app in Hf. cbn [length] in Hf. rewrite <- app_comm_cons, <- app_assoc. cbn [app].
    destruct l as [|v1 l]; [done|].
    rewrite parse_value_array.
    + by rewrite (parse_items_ok n fuel fuel (v1 :: l) [] rest) by (done || lia).
    + apply join_commas_starts, write_starts. by apply andb_prop in Ht as [Ht _].
  - intros m IH Ht n fuel rest Hf Hs. destruct fuel as [|fuel]; [lia|].
    cbn [texty texty_json write_canonical_value write_canonical_json length] in *.
    apply andb_prop in Ht as [Hnd%bool_decide_eq_true Ht]. fold member_text in *.
    rewrite length_app in Hf. cbn [length] in Hf. rewrite <- app_comm_cons, <- app_assoc. cbn [app].
    destruct m as [|p m]; [done|].
    rewrite parse_value_object by apply join_commas_starts, member_starts.
    by rewrite (parse_members_ok n fuel fuel (p :: m) [] rest) by (done || lia).
Qed.
End roundtrip.

(** ** Termination *)

(** A parse that comes to an end, with at most [k] bytes left on success. *)
Definition leaves {A} (k : nat) (m : pres A) : Prop :=
  match m with POk _ r => (length r ≤ k)%nat | PErr _ => True | PFuel => False end.

Lemma leaves_weaken {A} k k' (m : pres A) : leaves k m → (k ≤ k')%nat → leaves k' m.
Proof. destruct m; cbn; lia || done. Qed.

Lemma leaves_bind {A B} k k' (m : pres A) (f : A → bytes → pres B) :
  leaves k m → (∀ a r, (length r ≤ k)%nat → leaves k' (f a r)) → leaves k' (pbind m f).
Proof. destruct m; cbn; eauto. Qed.

Lemma skip_ws_length rest : (length (skip_ws rest) ≤ length rest)%nat.
Proof. induction rest as [|b rest IH]; [done|]. cbn. destruct (is_ws b); cbn; lia. Qed.

Lemma span_digits_length rest :
  (length (span_digits rest).1 + length (span_digits rest).2 = length rest)%nat.
Proof.
  induction rest as [|b rest IH]; [done|]. cbn. destruct (is_digit b); [|done].
  destruct (span_digits rest). cbn in *. lia.
Qed.

Lemma skip_minus_length rest : (length (skip_minus rest).2 ≤ length rest)%nat.
Proof.
  destruct rest as [|b rest]; [done|]. unfold skip_minus.
  destruct b as [|p|p]; try done. repeat (destruct p as [p|p|]; try done). cbn. lia.
Qed.

Section termination.
Context `{FloatText} (n : Z).

Lemma parse_lit_leaves name lit v rest : leaves (length rest) (parse_lit n name lit v rest).
Proof.
  revert rest. induction lit as [|c lit IH]; intros rest; [cbn; lia|]. destruct rest as [|b rest]; [exact I|].
  cbn [parse_lit]. destruct (b =? c); [|exact I]. eapply leaves_weaken; [apply IH|]. cbn. lia.
Qed.

(** One branch of [parse_chars] under [leaves]. *)
Ltac chars_step IH :=
  lazymatch goal with
  | |- leaves _ (if ?c then _ else _) => destruct c
  | |- leaves _ (match ?c with _ => _ end) => destruct c; cbn [length] in *
  | |- leaves _ (POk _ _) => cbn; lia
  | |- leaves _ (err _ _ _) => exact I
  | |- leaves _ (parse_chars _ _ _) => eapply leaves_weaken; [apply IH; lia|lia]
  end.

Lemma parse_chars_leaves rest out : leaves (length rest) (parse_chars n rest out).
Proof.
  remember (length rest) as k eqn:Hk. assert (Hle : (length rest ≤ k)%nat) by lia. clear Hk.
  revert rest out Hle. induction k as [|k IH]; intros rest out Hle.
  { destruct rest; [exact I|cbn in Hle; lia]. }
  destruct rest as [|b r]; [exact I|]. cbn [length] in Hle. cbn [parse_chars].
  repeat chars_step IH.
Qed.

Lemma parse_string_leaves rest :
  leaves (pred (length rest)) (parse_string n rest).
Proof.
  destruct rest as [|b r]; [exact I|]. unfold parse_string. destruct b as [|p|p]; try exact I.
  repeat (destruct p as [p|p|]; try exact I). apply parse_chars_leaves.
Qed.

Lemma parse_fraction_leaves rest : leaves (length rest) (parse_fraction n rest).
Proof.
  destruct rest as [|b r]; [cbn; lia|]. unfold parse_fraction.
  destruct b as [|p|p]; try (cbn; lia). repeat (destruct p as [p|p|]; try (cbn; lia)).
  pose proof (span_digits_length r). destruct (span_digits r) as [ds r']. cbn [fst snd] in *.
  case_bool_decide; cbn; lia || done.
Qed.

Lemma parse_exponent_leaves rest : leaves (length rest) (parse_exponent n rest).
Proof.
  destruct rest as [|e r]; [cbn; lia|]. cbn [parse_exponent]. destruct (is_exp e); [|cbn; lia].
  destruct (match r with [] => _ | s :: r1 => _ end) as [sign r1] eqn:Hsign.
  assert (Hr1 : (length r1 ≤ length r)%nat).
  { destruct r as [|s r]; [by injection Hsign as _ <-|]. destruct (is_sign s);
      injection Hsign as _ <-; cbn; lia. }
  pose proof (span_digits_length r1). destruct (span_digits r1) as [ds r2]. cbn [fst snd] in *.
  case_bool_decide; cbn; lia || done.
Qed.

Lemma parse_number_leaves rest : leaves (pred (length rest)) (parse_number n rest).
Proof.
  unfold parse_number. pose proof (skip_minus_length rest).
  destruct (skip_minus rest) as [minus r1]. cbn [snd] in *.
  pose proof (span_digits_length r1). destruct (span_digits r1) as [ds r2]. cbn [fst snd] in *.
  case_bool_decide; [exact I|]. destruct ds as [|d ds]; [done|]. cbn [length] in *.
  eapply leaves_bind; [apply parse_fraction_leaves|]. intros frac r3 Hr3.
  eapply leaves_bind; [apply parse_exponent_leaves|]. intros exp r4 Hr4.
  destruct frac; [destruct (parse_f64 _)|destruct exp; [destruct (parse_f64 _)|]]; cbn; lia || done.
Qed.

Lemma parse_items_leaves pv F fuel rest acc :
  (∀ r, (length r < F)%nat → leaves (pred (length r)) (pv r)) →
  (length rest < F)%nat → (length rest < fuel)%nat →
  leaves (pred (length rest)) (parse_items n pv fuel rest acc).
Proof.
  intros Hpv. revert rest acc. induction fuel as [|fuel IH]; intros rest acc HF Hf; [lia|].
  cbn [parse_items]. eapply leaves_bind; [by apply Hpv|]. intros v r Hr. pose proof (skip_ws_length r).
  destruct (skip_ws r) as [|b r1]; [exact I|]. cbn [length] in *. destruct (b =? 44).
  - pose proof (skip_ws_length r1). eapply leaves_weaken; [apply IH; lia|lia].
  - destruct (b =? 93); [cbn; lia|exact I].
Qed.

Lemma parse_members_leaves pv F fuel rest acc :
  (∀ r, (length r < F)%nat → leaves (pred (length r)) (pv r)) →
  (length rest < F)%nat → (length rest < fuel)%nat →
  leaves (pred (length rest)) (parse_members n pv fuel rest acc).
Proof.
  intros Hpv. revert rest acc. induction fuel as [|fuel IH]; intros rest acc HF Hf; [lia|].
  cbn [parse_members]. pose proof (skip_ws_length rest).
  eapply leaves_bind; [apply parse_string_leaves|]. intros key r Hr. pose proof (skip_ws_length r).
  destruct (skip_ws r) as [|b r1]; [exact I|]. cbn [length] in *.
  destruct b as [|p|p]; try exact I. repeat (destruct p as [p|p|]; try exact I).
  pose proof (skip_ws_length r1). eapply leaves_bind; [apply Hpv; lia|]. intros v r2 Hr2.
  pose proof (skip_ws_length r2). destruct (skip_ws r2) as [|b r3]; [exact I|]. cbn [length] in *.
  destruct (b =? 44); [|destruct (b =? 125); [cbn; lia|exact I]].
  eapply leaves_weaken; [apply IH; lia|lia].
Qed.

Lemma parse_value_leaves fuel rest :
  (length rest < fuel)%nat → leaves (pred (length rest)) (parse_value n fuel rest).
Proof.
  revert rest. induction fuel as [|fuel IH]; intros rest Hf; [lia|]. cbn [parse_value].
  pose proof (skip_ws_length rest). destruct (skip_ws rest) as [|b r]; [exact I|]. cbn [length] in *.
  assert (Hlit : ∀ name c lit v, leaves (pred (length rest)) (parse_lit n name (c :: lit) v (b :: r))).
  { intros name c lit v. cbn [parse_lit]. destruct (b =? c); [|exact I].
    eapply leaves_weaken; [apply parse_lit_leaves|lia]. }
  repeat lazymatch goal with
  | |- leaves _ (if ?c then _ else _) => destruct c
  | |- leaves _ (parse_lit _ _ _ _ _) => apply Hlit
  | |- leaves _ (err _ _ _) => exact I
  end.
  - eapply leaves_bind; [apply parse_string_leaves|]. intros s r1 Hr1. cbn in *. lia.
  - pose proof (skip_ws_length r). destruct (skip_ws r) as [|b1 r1]; cbn [length] in *.
    + eapply leaves_bind; [by eapply parse_items_leaves; [exact IH|cbn; lia..]|].
      intros j r2 Hr2. cbn in *. lia.
    + assert (Hl : leaves (pred (length rest))
        (pbind (parse_items n (parse_value n fuel) fuel (b1 :: r1) []) (λ j r, POk (VJson j) r))).
      { eapply leaves_bind; [by eapply parse_items_leaves; [exact IH|cbn; lia..]|].
        intros j r2 Hr2. cbn in *. lia. }
      destruct b1 as [|p|p]; try exact Hl. repeat (destruct p as [p|p|]; try exact Hl). cbn. lia.
  - pose proof (skip_ws_length r). destruct (skip_ws r) as [|b1 r1]; cbn [length] in *.
    + eapply leaves_bind; [by eapply parse_members_leaves; [exact IH|cbn; lia..]|].
      intros j r2 Hr2. cbn in *. lia.
    + assert (Hl : leaves (pred (length rest))
        (pbind (parse_members n (parse_value n fuel) fuel (b1 :: r1) []) (λ j r, POk (VJson j) r))).
      { eapply leaves_bind; [by eapply parse_members_leaves; [exact IH|cbn; lia..]|].
        intros j r2 Hr2. cbn in *. lia. }
      destruct b1 as [|p|p]; try exact Hl. repeat (destruct p as [p|p|]; try exact Hl). cbn. lia.
  - eapply leaves_weaken; [apply parse_number_leaves|cbn; lia].
Qed.
End termination.

(** ** Properties *)

(** The parser returns on every input: whatever the bytes, the recursion
    and the loops of [parse] come to an end with a value and no input left, or
    with an error. *)
Theorem json_parse_terminates `{FloatText} (s : bytes) :
  parse s ≠ PFuel ∧ ∀ v r, parse s = POk v r → r = [].
Proof.
  unfold parse. pose proof (skip_ws_length s).
  pose proof (parse_value_leaves (zlen s) (S (length s)) (skip_ws s) ltac:(lia)) as Hl.
  destruct (parse_value _ _ _) as [v r|e|]; cbn [pbind]; [|done|done].
  destruct (skip_ws r); split; try done. by intros v' r' [= _ <-].
Qed.


(** * A concrete float text, and json values that go through their text. *)
(** Floats written as the decimal number of their bit pattern: a float text
    with the shape and the round trip of the documented one. *)
Definition bits_parse (s : bytes) : option Z := Some (digits_value (span_digits s).1).
#[local] Instance bits_text : FloatText := {| format_f64 := dec_nat; parse_f64 := bits_parse |}.

#[local] Instance bits_laws : FloatTextLaws.
Proof.
  assert (Hdec : ∀ x, in_u 64 x = true →
    forallb is_digit (dec_nat x) = true ∧ digits_value (dec_nat x) = x ∧ dec_nat x ≠ []).
  { intros x Hx. apply dec_nat_ok. unfold in_u in Hx. lia. }
  split; intros x Hx Hfin; destruct (Hdec x Hx) as (Hd & Hv & Hne).
  - exists false, (dec_nat x), []. cbn [app format_f64 bits_text]. by rewrite app_nil_r.
  - assert (Hp : has_point (dec_nat x) = false).
    { apply existsb_false. apply forallb_Forall in Hd.
      eapply Forall_impl; [exact Hd|]. intros d. unfold is_digit. cbn. lia. }
    cbn [format_f64 parse_f64 bits_text]. unfold with_point. rewrite Hp.
    unfold bits_parse. rewrite span_digits_ok by done. cbn [fst]. by rewrite Hv.
Qed.

(** An object with a newline in a key, an array of numbers, null and true, and a
    nested object with a float and a string of a quote, a control character and
    a two-byte character. *)
Definition sample_json : Value :=
  VJson (JObject [([97; 10], VJson (JArray [VInt 1; VInt (-20); VJson JNull; VBool true]));
    ([107], VJson (JObject [([102], VFloat 4609434218613702656); ([115], VStr [34; 1; 195; 169])]))]).


(** The text itself, and inputs on which the parser reports an error. *)
Example sample_text :
  write_canonical_value (VJson (JObject [([97; 10], VJson (JArray [VInt 1; VInt (-20)]))])) =
    [123; 34; 97; 92; 110; 34; 58; 91; 49; 44; 45; 50; 48; 93; 125].
Proof. reflexivity. Qed.

Example parse_errors :
  parse [91; 49; 44] = PErr (mkParseError "unexpected end of input" 3) ∧
  parse [34; 97] = PErr (mkParseError "unterminated string" 2) ∧
  parse [49; 32; 50] = PErr (mkParseError "unexpected trailing data at 2" 2).
Proof. repeat split; vm_compute; reflexivity. Qed.
