(* ===== verification/Floats.v ===== *)
(** 64-bit floats over their bit patterns ([F64Bits] in
    [crates/rend/src/value.rs]): IEEE-754 binary64 arithmetic and comparison
    with rounding to nearest even, as Rust's [f64] operators compute. *)
From S2P Require Import Prelude Bytes.
From Stdlib Require Import Floats.SpecFloat.

(** The sign and payload of a NaN that an operation produces are unspecified in
    Rust: a parameter, that may depend on the operands. *)
Class FloatNan := nan_result : Z → Z → Z.

Definition f64_prec : Z := 53.
Definition f64_emax : Z := 1024.

Definition f64_sign (b : Z) : bool := Z.testbit b 63.
Definition f64_exponent (b : Z) : Z := Z.land (Z.shiftr b 52) 0x7ff.
Definition f64_fraction (b : Z) : Z := Z.land b (Z.ones 52).
Definition sign_bit (s : bool) : Z := if s then 2 ^ 63 else 0.

(** A finite number of mantissa [m]. *)
Definition finite_of (s : bool) (m e : Z) : spec_float :=
  match m with
  | Zpos p => S754_finite s p e
  | _ => S754_zero s
  end.

(** [f64::from_bits]. *)
Definition f64_of_bits (b : Z) : spec_float :=
  let s := f64_sign b in
  let m := f64_fraction b in
  if f64_exponent b =? 0 then finite_of s m (-1074)
  else if f64_exponent b =? 0x7ff then (if m =? 0 then S754_infinity s else S754_nan)
  else finite_of s (m + 2 ^ 52) (f64_exponent b - 1075).

(** [f64::to_bits], with the bits of a NaN. *)
Definition bits_of_f64 (nan : Z) (x : spec_float) : Z :=
  match x with
  | S754_zero s => sign_bit s
  | S754_infinity s => sign_bit s + 0x7ff * 2 ^ 52
  | S754_nan => nan
  | S754_finite s m e =>
      if Zpos m <? 2 ^ 52 then sign_bit s + Zpos m
      else sign_bit s + (e + 1075) * 2 ^ 52 + (Zpos m - 2 ^ 52)
  end.

(** [x % y]: the remainder of the division truncated towards zero, exact, with
    the sign of [x]. *)
Definition SFrem (x y : spec_float) : spec_float :=
  match x, y with
  | S754_nan, _ | _, S754_nan | S754_infinity _, _ | _, S754_zero _ => S754_nan
  | S754_zero _, _ | _, S754_infinity _ => x
  | S754_finite sx mx ex, S754_finite _ my ey =>
      let e := Z.min ex ey in
      let r := (Zpos mx * 2 ^ (ex - e)) mod (Zpos my * 2 ^ (ey - e)) in
      binary_normalize f64_prec f64_emax (cond_Zopp sx r) e sx
  end.

Section arithmetic.
Context {Nan : FloatNan}.

Definition lift2 (op : spec_float → spec_float → spec_float) (a b : Z) : Z :=
  bits_of_f64 (nan_result a b) (op (f64_of_bits a) (f64_of_bits b)).

Definition f64_add : Z → Z → Z := lift2 (SFadd f64_prec f64_emax).
Definition f64_sub : Z → Z → Z := lift2 (SFsub f64_prec f64_emax).
Definition f64_mul : Z → Z → Z := lift2 (SFmul f64_prec f64_emax).
Definition f64_div : Z → Z → Z := lift2 (SFdiv f64_prec f64_emax).
Definition f64_rem : Z → Z → Z := lift2 SFrem.
End arithmetic.

Definition f64_eq (a b : Z) : bool := SFeqb (f64_of_bits a) (f64_of_bits b).
Definition f64_lt (a b : Z) : bool := SFltb (f64_of_bits a) (f64_of_bits b).
Definition f64_le (a b : Z) : bool := SFleb (f64_of_bits a) (f64_of_bits b).

(** [-x] flips the sign bit, of a NaN too. *)
Definition f64_neg (a : Z) : Z := Z.lxor a (2 ^ 63).

(** [1.0]. *)
Definition f64_one : Z := 0x3ff0000000000000.

(** ** Facts *)
Definition is_nan (b : Z) : bool := (f64_exponent b =? 0x7ff) && negb (f64_fraction b =? 0).

Lemma f64_split b :
  in_u 64 b = true →
  b = sign_bit (f64_sign b) + f64_exponent b * 2 ^ 52 + f64_fraction b ∧
  0 <= f64_exponent b < 2 ^ 11 ∧ 0 <= f64_fraction b < 2 ^ 52.
Proof.
  unfold in_u, f64_exponent, f64_fraction, f64_sign. intros Hb.
  change 0x7ff with (Z.ones 11). rewrite !Z.land_ones, Z.shiftr_div_pow2 by lia.
  rewrite Z.testbit_eqb by lia.
  pose proof (Z.mod_pos_bound b (2 ^ 52) eq_refl). pose proof (Z.mod_pos_bound (b / 2 ^ 52) (2 ^ 11) eq_refl).
  assert (Hq : b / 2 ^ 52 / 2 ^ 11 = b / 2 ^ 63) by (by rewrite Z.div_div by lia).
  assert (H63 : 0 <= b / 2 ^ 63 < 2) by (split; [apply Z.div_pos|apply Z.div_lt_upper_bound]; lia).
  pose proof (Z.div_mod b (2 ^ 52) ltac:(lia)). pose proof (Z.div_mod (b / 2 ^ 52) (2 ^ 11) ltac:(lia)).
  rewrite (Z.mod_small (b / 2 ^ 63)) by lia. split; [|done]. unfold sign_bit.
  destruct (Z.eqb_spec (b / 2 ^ 63) 1); lia.
Qed.

(** Converting a float to bits undoes reading the bits, NaNs excepted. *)
Lemma f64_bits_roundtrip nan b :
  in_u 64 b = true → is_nan b = false → bits_of_f64 nan (f64_of_bits b) = b.
Proof.
  intros Hb Hn. destruct (f64_split b Hb) as (E & He & Hm). unfold f64_of_bits, is_nan in *.
  set (e := f64_exponent b) in *. set (m := f64_fraction b) in *. set (s := f64_sign b) in *.
  destruct (Z.eqb_spec e 0) as [->|H0].
  - unfold finite_of. destruct m as [|p|p] eqn:Em; [cbn [bits_of_f64]; lia| |lia].
    cbn [bits_of_f64]. destruct (Z.ltb_spec (Z.pos p) (2 ^ 52)); lia.
  - destruct (Z.eqb_spec e 0x7ff) as [He2|H1]; cbn [andb] in Hn.
    + destruct (Z.eqb_spec m 0) as [Hm0|]; [|done]. cbn [bits_of_f64]. lia.
    + unfold finite_of. destruct (m + 2 ^ 52) as [|p|p] eqn:Em; [lia| |lia].
      cbn [bits_of_f64]. destruct (Z.ltb_spec (Z.pos p) (2 ^ 52)); lia.
Qed.

Example f64_samples `{FloatNan} :
  (* 1.5 + 2.25 = 3.75, 1/3, 7.5 % 2.0 = 1.5, -7.5 % 2.0 = -1.5 *)
  f64_add 0x3ff8000000000000 0x4002000000000000 = 0x400e000000000000 ∧
  f64_div 0x3ff0000000000000 0x4008000000000000 = 0x3fd5555555555555 ∧
  f64_rem 0x401e000000000000 0x4000000000000000 = 0x3ff8000000000000 ∧
  f64_rem 0xc01e000000000000 0x4000000000000000 = 0xbff8000000000000 ∧
  (* 0.0 == -0.0, NaN != NaN, 1.0/0.0 = inf *)
  f64_eq 0 0x8000000000000000 = true ∧ f64_eq 0x7ff8000000000000 0x7ff8000000000000 = false ∧
  f64_div 0x3ff0000000000000 0 = 0x7ff0000000000000.
Proof. repeat split; vm_compute; reflexivity. Qed.
