(* ===== verification/Display.v ===== *)
(** Text of values ([impl Display for Value] in [crates/rend/src/value.rs]), as
    error messages show them. *)
From S2P Require Import Prelude Bytes Values JsonText.
(** The UTF-8 bytes of an ASCII literal. *)
Definition str (s : string) : bytes :=
  (λ c, Z.of_nat (Ascii.nat_of_ascii c)) <$> String.list_ascii_of_string s.

(** [{n:x}]. *)
Fixpoint hex_digits (fuel : nat) (n : Z) (acc : bytes) : bytes :=
  match fuel with
  | O => acc
  | S fuel' =>
      let acc' := hex_lower (n mod 16) :: acc in
      if n / 16 =? 0 then acc' else hex_digits fuel' (n / 16) acc'
  end.
Definition hex (n : Z) : bytes := hex_digits (S (Z.to_nat (Z.log2 n))) n [].

(** [{byte:02x}]. *)
Definition hex_byte (b : Z) : bytes := [hex_lower (b / 16); hex_lower (b mod 16)].

Fixpoint join_with (sep : bytes) (ts : list bytes) : bytes :=
  match ts with
  | [] => []
  | [t] => t
  | t :: ts' => t ++ sep ++ join_with sep ts'
  end.

Definition comma_separated : list bytes → bytes := join_with (str ", ").
Definition quoted (s : bytes) : bytes := [34] ++ s ++ [34].

Section display.
Context `{FloatText}.

Fixpoint display (v : Value) : bytes :=
  match v with
  | VInt n => dec n
  | VUInt n => dec n ++ str "u"
  | VFloat n => if is_finite n then with_point (format_f64 n) else format_f64 n
  | VI32 n => dec n ++ str "i32"
  | VU32 n => dec n ++ str "u32"
  | VU64 n => dec n ++ str "u64"
  | VU128 n => dec n ++ str "u128"
  | VBool b => if b then str "true" else str "false"
  | VUnit => str "()"
  | VResource n => str "Resource(" ++ dec n ++ str ")"
  | VStr s => quoted s
  | VAddress s => str "@" ++ s
  | VBytes b => str "0x" ++ concat (hex_byte <$> b)
  | VArray elems => str "[" ++ comma_separated (display <$> elems) ++ str "]"
  | VSet elems => str "set{" ++ comma_separated (display <$> elems) ++ str "}"
  | VDict pairs =>
      str "dict{" ++ comma_separated
        ((λ p, match p with (k, v) => display k ++ str ": " ++ display v end) <$> pairs) ++ str "}"
  | VStruct name fields =>
      name ++ str "{" ++ comma_separated
        ((λ p, match p with (n, v) => n ++ str ": " ++ display v end) <$> fields) ++ str "}"
  | VPending id => str "<pending #" ++ dec id ++ str ">"
  | VTuple elems => str "(" ++ comma_separated (display <$> elems) ++ str ")"
  | VEnum enum_name variant payload =>
      enum_name ++ str "::" ++ variant ++
      match payload with
      | [] => []
      | _ => str "(" ++ comma_separated (display <$> payload) ++ str ")"
      end
  | VPMap hash => str "pmap@" ++ hex hash
  | VPBTree hash => str "pbtree@" ++ hex hash
  | VJson j => write_canonical_json j
  | VPVec len root => str "pvec[" ++ dec len ++ str "]@" ++ hex root
  | VInterface iface target_module =>
      iface ++ str "::bind(" ++ quoted target_module ++ str ")"
  | VPMapCursor _ _ _ _ => str "<pmap-cursor>"
  | VPBTreeCursor _ _ _ _ => str "<pbtree-cursor>"
  end.

(** [format!("{v}")]. *)
Definition show (v : Value) : string := text (display v).
End display.

(** [format!("JSON parse error at {}: {}", pos, msg)]. *)
Definition show_parse_error (e : ParseError) : string :=
  String.append "JSON parse error at "
    (String.append (text (dec (pe_pos e))) (String.append ": " (pe_msg e))).

Example display_samples `{FloatText} :
  display (VArray [VInt (-12); VU64 7; VStr (str "ab")]) = [91; 45; 49; 50; 44; 32; 55; 117; 54; 52; 44; 32; 34; 97; 98; 34; 93] ∧
  show (VEnum (str "E") (str "V") [VBytes [10; 255]; VPMap 4096]) = "E::V(0x0aff, pmap@1000)"%string.
Proof. split; vm_compute; reflexivity. Qed.

(** * Equality of values ([==] on [Value], [Json] and their fields): structural,
    floats by bit pattern, json objects as maps, whatever the order of their
    keys ([IndexMap]'s [PartialEq]). *)
(** [m.get(key)] on an [IndexMap]. *)
Section assoc.
Context {V : Type}.
Fixpoint assoc (key : bytes) (m : list (bytes * V)) : option V :=
  match m with
  | [] => None
  | (k, v) :: m' => if bool_decide (k = key) then Some v else assoc key m'
  end.
End assoc.

Definition opt_eqb {A} (f : A → A → bool) (x y : option A) : bool :=
  match x, y with
  | Some a, Some b => f a b
  | None, None => true
  | _, _ => false
  end.

Fixpoint value_eqb (x y : Value) {struct x} : bool :=
  match x, y with
  | VInt a, VInt b | VUInt a, VUInt b | VFloat a, VFloat b | VI32 a, VI32 b
  | VU32 a, VU32 b | VU64 a, VU64 b | VU128 a, VU128 b | VResource a, VResource b
  | VPending a, VPending b | VPMap a, VPMap b | VPBTree a, VPBTree b => a =? b
  | VBool a, VBool b => eqb a b
  | VUnit, VUnit => true
  | VStr a, VStr b | VAddress a, VAddress b | VBytes a, VBytes b => bool_decide (a = b)
  | VArray l, VArray k | VSet l, VSet k | VTuple l, VTuple k => forallb2 value_eqb l k
  | VDict l, VDict k =>
      forallb2 (λ p q, match p with (a, b) => value_eqb a q.1 && value_eqb b q.2 end) l k
  | VStruct n l, VStruct m k =>
      bool_decide (n = m) &&
      forallb2 (λ p q, match p with (a, b) => bool_decide (a = q.1) && value_eqb b q.2 end) l k
  | VEnum e n l, VEnum f m k => bool_decide (e = f) && bool_decide (n = m) && forallb2 value_eqb l k
  | VJson j, VJson k => json_eqb j k
  | VPVec l r, VPVec m q => (l =? m) && (r =? q)
  | VInterface i t, VInterface j u => bool_decide (i = j) && bool_decide (t = u)
  | VPMapCursor s p kt vt, VPMapCursor s' p' kt' vt' =>
      bool_decide (s = s') &&
      forallb2 (λ p q, match p with (a, b) => value_eqb a q.1 && value_eqb b q.2 end) p p' &&
      bool_decide (kt = kt') && bool_decide (vt = vt')
  | VPBTreeCursor r l kt vt, VPBTreeCursor r' l' kt' vt' =>
      (r =? r') &&
      match l, l' with Some a, Some b => value_eqb a b | None, None => true | _, _ => false end &&
      bool_decide (kt = kt') && bool_decide (vt = vt')
  | _, _ => false
  end
with json_eqb (x y : Json) {struct x} : bool :=
  match x, y with
  | JNull, JNull => true
  | JArray l, JArray k => forallb2 value_eqb l k
  | JObject m, JObject n =>
      (length m =? length n)%nat &&
      forallb (λ p, match p with (k, v) =>
        match assoc k n with Some w => value_eqb v w | None => false end end) m
  | _, _ => false
  end.

(** [==] is reflexive on values whose json objects have distinct keys, as every
    [IndexMap] does. *)
Lemma assoc_in {V} (m : list (bytes * V)) k v : NoDup m.*1 → (k, v) ∈ m → assoc k m = Some v.
Proof.
  induction m as [|[k' v'] m IH]; intros Hnd Hin; [by apply not_elem_of_nil in Hin|].
  apply NoDup_cons in Hnd as [Hk Hnd]. cbn [assoc fst] in *. case_bool_decide as Hd.
  - subst k'. apply elem_of_cons in Hin as [[= ->]|Hin]; [done|].
    contradict Hk. apply list_elem_of_fmap. by exists (k, v).
  - apply elem_of_cons in Hin as [[= -> ->]|Hin]; [done|]. by apply IH.
Qed.

(** Values without json objects and cursors: on them [==] is equality. *)
Fixpoint plain (v : Value) : bool :=
  match v with
  | VArray l | VSet l | VTuple l | VEnum _ _ l => forallb plain l
  | VDict l => forallb (λ p, match p with (a, b) => plain a && plain b end) l
  | VStruct _ l => forallb (λ p, match p with (a, b) => plain b end) l
  | VJson j => plain_json j
  | VPMapCursor _ _ _ _ | VPBTreeCursor _ _ _ _ => false
  | _ => true
  end
with plain_json (j : Json) : bool :=
  match j with
  | JNull => true
  | JArray l => forallb plain l
  | JObject _ => false
  end.

Lemma forallb2_eq {A} (f : A → A → bool) (p : A → bool) l k :
  Forall (λ x, p x = true → ∀ y, f x y = true ↔ x = y) l → forallb p l = true →
  forallb2 f l k = true ↔ l = k.
Proof.
  intros Hl. revert k. induction Hl as [|x l Hx Hl IH]; intros k Hp.
  - destruct k; split; try done.
  - cbn [forallb] in Hp. apply andb_prop in Hp as [Hpx Hpl]. destruct k as [|y k]; [done|].
    cbn [forallb2]. rewrite andb_true_iff, (Hx Hpx y), (IH k Hpl). naive_solver.
Qed.

Lemma eq_one {A} (c : A → Value) (a b : A) (t : bool) :
  (t = true ↔ a = b) → (∀ x y, c x = c y → x = y) → t = true ↔ c a = c b.
Proof. intros -> Hc. split; [by intros ->|apply Hc]. Qed.

Lemma value_eqb_eq x : plain x = true → ∀ y, value_eqb x y = true ↔ x = y.
Proof.
  apply (value_ind_nested (λ x, plain x = true → ∀ y, value_eqb x y = true ↔ x = y)
    (λ j, plain_json j = true → ∀ k, json_eqb j k = true ↔ j = k)).
  - intros v Hv Hp y. destruct v; try discriminate Hv; try discriminate Hp;
      destruct y; cbn [value_eqb]; try (split; [discriminate|discriminate]); try (split; reflexivity);
      rewrite ?andb_true_iff, ?Z.eqb_eq, ?bool_decide_eq_true, ?eqb_true_iff; naive_solver.
  - intros l IH Hp [| | | | | | | | | | | | |k| | | | | | | | | | | | |]; try (split; discriminate).
    apply eq_one; [by apply (forallb2_eq _ plain)|naive_solver].
  - intros l IH Hp [| | | | | | | | | | | | | |k| | | | | | | | | | | |]; try (split; discriminate).
    apply eq_one; [by apply (forallb2_eq _ plain)|naive_solver].
  - intros l IH Hp [| | | | | | | | | | | | | | |k| | | | | | | | | | |]; try (split; discriminate).
    apply eq_one; [|naive_solver]. eapply forallb2_eq; [|exact Hp].
    eapply Forall_impl; [exact IH|]. intros [a b] [Ha Hb] Hab%andb_prop [a' b'].
    cbn [fst snd] in *. destruct Hab as [Hpa Hpb]. rewrite andb_true_iff, (Ha Hpa), (Hb Hpb). naive_solver.
  - intros n l IH Hp [| | | | | | | | | | | | | | | |m k| | | | | | | | | |]; try (split; discriminate).
    cbn [value_eqb]. rewrite andb_true_iff, bool_decide_eq_true.
    enough (E : forallb2 _ l k = true ↔ l = k) by (rewrite E; naive_solver).
    eapply forallb2_eq; [|exact Hp]. eapply Forall_impl; [exact IH|]. intros [a b] Hb Hpb [a' b'].
    cbn [fst snd] in *. rewrite andb_true_iff, (Hb Hpb), bool_decide_eq_true. naive_solver.
  - intros l IH Hp [| | | | | | | | | | | | | | | | |k| | | | | | | | |]; try (split; discriminate).
    apply eq_one; [by apply (forallb2_eq _ plain)|naive_solver].
  - intros e n l IH Hp [| | | | | | | | | | | | | | | | | |e' n' k| | | | | | | |]; try (split; discriminate).
    cbn [value_eqb]. rewrite !andb_true_iff, !bool_decide_eq_true, (forallb2_eq _ _ _ _ IH Hp). naive_solver.
  - intros j IH Hp [| | | | | | | | | | | | | | | | | | | | | |k| | | |]; try (split; discriminate).
    apply eq_one; [by apply IH|naive_solver].
  - intros _ [| |]; split; done.
  - intros l IH Hp [|k|]; try (split; discriminate). cbn [json_eqb].
    rewrite (forallb2_eq _ _ _ _ IH Hp). naive_solver.
  - done.
Qed.

(** The order of the keys of a json object does not matter. *)
Example object_order a b v w :
  a ≠ b → value_eqb (VJson (JObject [(a, VInt v); (b, VInt w)])) (VJson (JObject [(b, VInt w); (a, VInt v)])) = true.
Proof.
  intros Hab. cbn. rewrite (bool_decide_eq_false_2 (b = a)) by congruence.
  rewrite !bool_decide_eq_true_2 by done. by rewrite !Z.eqb_refl.
Qed.
