(* ===== verification/Ops.v ===== *)
(** Operators and builtins shared by the interpreter and the virtual machine
    ([crates/rend/src/ops.rs], with [BinOp] and [UnOp] of [ast.rs]): checked
    arithmetic at every width, comparisons, collections, bytes, json and
    conversions. *)
From S2P Require Import Prelude Bytes Values Serialize JsonText Floats Display.
#[local] Set Warnings "-register-all".

(** ** Operators ([ast.rs]) *)
Inductive BinOp :=
  | Add | Sub | Mul | Div | Mod
  | Eq | NotEq | Lt | Gt | LtEq | GtEq
  | And | Or
  | BitAnd | BitOr | BitXor | Shl | Shr.

Inductive UnOp := Neg | Not.

#[export] Instance BinOp_eq_dec : EqDecision BinOp.
Proof. solve_decision. Defined.
#[export] Instance UnOp_eq_dec : EqDecision UnOp.
Proof. solve_decision. Defined.

(** [{op:?}]. *)
Definition debug_binop (op : BinOp) : string :=
  match op with
  | Add => "Add" | Sub => "Sub" | Mul => "Mul" | Div => "Div" | Mod => "Mod"
  | Eq => "Eq" | NotEq => "NotEq" | Lt => "Lt" | Gt => "Gt" | LtEq => "LtEq" | GtEq => "GtEq"
  | And => "And" | Or => "Or" | BitAnd => "BitAnd" | BitOr => "BitOr" | BitXor => "BitXor"
  | Shl => "Shl" | Shr => "Shr"
  end.
Definition debug_unop (op : UnOp) : string := match op with Neg => "Neg" | Not => "Not" end.

(** ** Machine integers: the variants [int_arith!] is instantiated at *)
Inductive IntKind := KI32 | KU32 | KU64 | KU128.

Definition signed_kind (k : IntKind) : bool := match k with KI32 => true | _ => false end.
Definition width (k : IntKind) : Z :=
  match k with KI32 | KU32 => 32 | KU64 => 64 | KU128 => 128 end.
Definition in_kind (k : IntKind) (n : Z) : bool :=
  if signed_kind k then in_i (width k) n else in_u (width k) n.
Definition mk_int (k : IntKind) (n : Z) : Value :=
  match k with KI32 => VI32 n | KU32 => VU32 n | KU64 => VU64 n | KU128 => VU128 n end.
Definition kind_name (k : IntKind) : string :=
  match k with KI32 => "I32" | KU32 => "U32" | KU64 => "U64" | KU128 => "U128" end.

(** The bits of [n] read at the kind's width. *)
Definition wrap_kind (k : IntKind) (n : Z) : Z :=
  if signed_kind k then to_signed (width k) (wrap_u (width k) n) else wrap_u (width k) n.

Definition runtime (msg : string) (span : Span) : Error := mkError Runtime msg span.
Definition overflow (span : Span) : Error := runtime "integer overflow" span.
Definition div_zero (span : Span) : Error := runtime "division by zero" span.

(** [checked_*(..).map(Value::$variant).ok_or_else(overflow)]. *)
Definition checked (k : IntKind) (span : Span) (n : Z) : outcome Value :=
  if in_kind k n then Ok (mk_int k n) else Err (overflow span).

(** [n.try_into()] to [u32], then a shift that rejects amounts of the width or
    more. *)
Definition checked_shift (k : IntKind) (span : Span) (shift : Z → Z → Z) (a b : Z) : outcome Value :=
  if in_u 32 b && (b <? width k) then Ok (mk_int k (wrap_kind k (shift a b)))
  else Err (overflow span).

Definition int_arith (op : BinOp) (k : IntKind) (a b : Z) (span : Span) : outcome Value :=
  match op with
  | Add => checked k span (a + b)
  | Sub => checked k span (a - b)
  | Mul => checked k span (a * b)
  | Div => if b =? 0 then Err (div_zero span) else checked k span (Z.quot a b)
  | Mod =>
      if b =? 0 then Err (div_zero span)
      else if in_kind k (Z.quot a b) then Ok (mk_int k (Z.rem a b)) else Err (overflow span)
  | Lt => Ok (VBool (a <? b))
  | Gt => Ok (VBool (a >? b))
  | LtEq => Ok (VBool (a <=? b))
  | GtEq => Ok (VBool (a >=? b))
  | Eq => Ok (VBool (a =? b))
  | NotEq => Ok (VBool (negb (a =? b)))
  | BitAnd => Ok (mk_int k (Z.land a b))
  | BitOr => Ok (mk_int k (Z.lor a b))
  | BitXor => Ok (mk_int k (Z.lxor a b))
  | Shl => checked_shift k span Z.shiftl a b
  | Shr => checked_shift k span Z.shiftr a b
  | other => Err (runtime ("operator " +:+ debug_binop other +:+ " not defined for "
                           +:+ kind_name k +:+ " values") span)
  end.

(** ** Unbounded integers *)
Definition bigint_arith (op : BinOp) (a b : Z) (span : Span) (unsigned : bool) : outcome Value :=
  let wrap := if unsigned then VUInt else VInt in
  let bad_shift := Err (runtime "shift amount out of range" span) in
  match op with
  | Add => Ok (wrap (a + b))
  | Sub =>
      let r := a - b in
      if unsigned && (r <? 0) then Err (runtime "uint underflow" span) else Ok (wrap r)
  | Mul => Ok (wrap (a * b))
  | Div => if b =? 0 then Err (div_zero span) else Ok (wrap (Z.quot a b))
  | Mod => if b =? 0 then Err (div_zero span) else Ok (wrap (Z.rem a b))
  | Lt => Ok (VBool (a <? b))
  | Gt => Ok (VBool (a >? b))
  | LtEq => Ok (VBool (a <=? b))
  | GtEq => Ok (VBool (a >=? b))
  | Eq => Ok (VBool (a =? b))
  | NotEq => Ok (VBool (negb (a =? b)))
  | BitAnd => Ok (wrap (Z.land a b))
  | BitOr => Ok (wrap (Z.lor a b))
  | BitXor => Ok (wrap (Z.lxor a b))
  | Shl => if b <? 0 then bad_shift else
           if in_u 32 b then Ok (wrap (Z.shiftl a b)) else bad_shift
  | Shr => if b <? 0 then bad_shift else
           if in_u 32 b then Ok (wrap (Z.shiftr a b)) else bad_shift
  | other => Err (runtime ("operator " +:+ debug_binop other +:+ " not defined for "
                           +:+ (if unsigned then "uint" else "int") +:+ " values") span)
  end.

(** ** Floats *)
Definition float_arith `{FloatNan} (op : BinOp) (a b : Z) (span : Span) : outcome Value :=
  match op with
  | Add => Ok (VFloat (f64_add a b))
  | Sub => Ok (VFloat (f64_sub a b))
  | Mul => Ok (VFloat (f64_mul a b))
  | Div => Ok (VFloat (f64_div a b))
  | Mod => Ok (VFloat (f64_rem a b))
  | Lt => Ok (VBool (f64_lt a b))
  | Gt => Ok (VBool (f64_lt b a))
  | LtEq => Ok (VBool (f64_le a b))
  | GtEq => Ok (VBool (f64_le b a))
  | Eq => Ok (VBool (f64_eq a b))
  | NotEq => Ok (VBool (negb (f64_eq a b)))
  | _ => Err (runtime ("operator " +:+ debug_binop op +:+ " not defined for float values") span)
  end.

(** [std::mem::discriminant]. *)
Definition discriminant (v : Value) : nat :=
  match v with
  | VInt _ => 0 | VUInt _ => 1 | VFloat _ => 2 | VI32 _ => 3 | VU32 _ => 4 | VU64 _ => 5
  | VU128 _ => 6 | VBool _ => 7 | VUnit => 8 | VResource _ => 9 | VStr _ => 10
  | VAddress _ => 11 | VBytes _ => 12 | VArray _ => 13 | VSet _ => 14 | VDict _ => 15
  | VStruct _ _ => 16 | VTuple _ => 17 | VEnum _ _ _ => 18 | VPending _ => 19
  | VPMap _ => 20 | VPBTree _ => 21 | VJson _ => 22 | VPVec _ _ => 23 | VInterface _ _ => 24
  | VPMapCursor _ _ _ _ => 25 | VPBTreeCursor _ _ _ _ => 26
  end%nat.

Section ops.
Context `{FloatText} {Nan : FloatNan}.

(** ** Dispatch *)
Definition mismatch (op : BinOp) (l r : Value) (span : Span) : outcome Value :=
  Err (runtime ("type error: " +:+ show l +:+ " " +:+ debug_binop op +:+ " " +:+ show r) span).

Definition eval_binary (op : BinOp) (l r : Value) (span : Span) : outcome Value :=
  match l, r with
  | VInt a, VInt b => bigint_arith op a b span false
  | VUInt a, VUInt b => bigint_arith op a b span true
  | VFloat a, VFloat b => float_arith op a b span
  | VI32 a, VI32 b => int_arith op KI32 a b span
  | VU32 a, VU32 b => int_arith op KU32 a b span
  | VU64 a, VU64 b => int_arith op KU64 a b span
  | VU128 a, VU128 b => int_arith op KU128 a b span
  | VBool a, VBool b =>
      match op with
      | And => Ok (VBool (a && b))
      | Or => Ok (VBool (a || b))
      | Eq => Ok (VBool (eqb a b))
      | NotEq => Ok (VBool (negb (eqb a b)))
      | _ => mismatch op l r span
      end
  | _, _ =>
      if (discriminant l =? discriminant r)%nat then
        match op with
        | Eq => Ok (VBool (value_eqb l r))
        | NotEq => Ok (VBool (negb (value_eqb l r)))
        | _ => mismatch op l r span
        end
      else mismatch op l r span
  end.

Definition inc (v : Value) (span : Span) : outcome Value :=
  match v with
  | VInt n => Ok (VInt (n + 1))
  | VUInt n => Ok (VUInt (n + 1))
  | VFloat n => Ok (VFloat (f64_add n f64_one))
  | VI32 n => checked KI32 span (n + 1)
  | VU32 n => checked KU32 span (n + 1)
  | VU64 n => checked KU64 span (n + 1)
  | VU128 n => checked KU128 span (n + 1)
  | other => Err (runtime ("IncReg on non-numeric value: " +:+ show other) span)
  end.

(** [-0] of an unsigned type is [0], any other negation overflows. *)
Definition neg_unsigned (k : IntKind) (n : Z) (span : Span) : outcome Value :=
  if n =? 0 then Ok (mk_int k 0) else Err (overflow span).

Definition eval_unary (op : UnOp) (v : Value) (span : Span) : outcome Value :=
  match op, v with
  | Neg, VInt n => Ok (VInt (- n))
  | Neg, VUInt n =>
      if n =? 0 then Ok (VUInt n) else Err (runtime "uint underflow on negation" span)
  | Neg, VFloat n => Ok (VFloat (f64_neg n))
  | Neg, VI32 n => checked KI32 span (- n)
  | Neg, VU32 n => neg_unsigned KU32 n span
  | Neg, VU64 n => neg_unsigned KU64 n span
  | Neg, VU128 n => neg_unsigned KU128 n span
  | Not, VBool b => Ok (VBool (negb b))
  | op, v => Err (runtime ("type error: " +:+ debug_unop op +:+ " " +:+ show v) span)
  end.
End ops.
