(* ===== verification/Builtins.v ===== *)
(** The collection, bytes and json builtins ([call_builtin]) and numeric
    conversion ([convert]) of [crates/rend/src/ops.rs]. *)
From S2P Require Import Prelude Bytes Values Serialize JsonText Floats Display Ops.

Definition bad (msg : string) : outcome Value := Err (runtime msg Span_default).

(** [n.to_usize()] and its siblings. *)
Definition to_u (w : Z) (n : Z) : option Z := if in_u w n then Some n else None.
Definition to_usize : Z → option Z := to_u 64.

(** ** Sets: insertion-ordered, one copy of each element *)
Definition set_insert (args : list Value) : outcome Value :=
  match args with
  | [VSet s; v] => Ok (VSet (if existsb (λ e, value_eqb e v) s then s else s ++ [v]))
  | _ => bad "set_insert(set, elem)"
  end.
Definition set_remove (args : list Value) : outcome Value :=
  match args with
  | [VSet s; v] => Ok (VSet (List.filter (λ e, negb (value_eqb e v)) s))
  | _ => bad "set_remove(set, elem)"
  end.
Definition set_contains (args : list Value) : outcome Value :=
  match args with
  | [VSet s; v] => Ok (VBool (existsb (λ e, value_eqb e v) s))
  | _ => bad "set_contains(set, elem)"
  end.
Definition set_len (args : list Value) : outcome Value :=
  match args with
  | [VSet s] => Ok (VInt (zlen s))
  | _ => bad "set_len(set)"
  end.

(** ** Dictionaries: insertion-ordered entries *)
Fixpoint dict_update (d : list (Value * Value)) (k v : Value) : list (Value * Value) :=
  match d with
  | [] => [(k, v)]
  | (kk, vv) :: d' => if value_eqb kk k then (kk, v) :: d' else (kk, vv) :: dict_update d' k v
  end.
Fixpoint dict_find (d : list (Value * Value)) (k : Value) : option Value :=
  match d with
  | [] => None
  | (kk, vv) :: d' => if value_eqb kk k then Some vv else dict_find d' k
  end.

Definition dict_set (args : list Value) : outcome Value :=
  match args with
  | [VDict d; k; v] => Ok (VDict (dict_update d k v))
  | _ => bad "dict_set(dict, key, value)"
  end.
Definition dict_remove (args : list Value) : outcome Value :=
  match args with
  | [VDict d; k] => Ok (VDict (List.filter (λ p, negb (value_eqb p.1 k)) d))
  | _ => bad "dict_remove(dict, key)"
  end.
Definition dict_get (args : list Value) : outcome Value :=
  match args with
  | [VDict d; k; dflt] => Ok (default dflt (dict_find d k))
  | _ => bad "dict_get(dict, key, default)"
  end.
Definition dict_has (args : list Value) : outcome Value :=
  match args with
  | [VDict d; k] => Ok (VBool (existsb (λ p, value_eqb p.1 k) d))
  | _ => bad "dict_has(dict, key)"
  end.
Definition dict_len (args : list Value) : outcome Value :=
  match args with
  | [VDict d] => Ok (VInt (zlen d))
  | _ => bad "dict_len(dict)"
  end.

(** ** Strings and bytes *)

(** [s.is_char_boundary(i)] for [i] within the string. *)
Definition is_char_boundary (s : bytes) (i : Z) : bool :=
  (i =? 0) || (i =? zlen s) ||
  match get_z s i with Some b => negb (utf8_cont b) | None => false end.

Fixpoint starts_with (s needle : bytes) : bool :=
  match needle, s with
  | [], _ => true
  | x :: needle', y :: s' => (x =? y) && starts_with s' needle'
  | _ :: _, [] => false
  end.

(** [haystack.contains(needle)]. *)
Fixpoint contains_bytes (haystack needle : bytes) : bool :=
  starts_with haystack needle ||
  match haystack with [] => false | _ :: h => contains_bytes h needle end.

(** [&b[s..e]], in range. *)
Definition slice (b : bytes) (s e : Z) : bytes :=
  take (Z.to_nat (e - s)) (drop (Z.to_nat s) b).

Definition to_bytes (args : list Value) : outcome Value :=
  match args with [VStr s] => Ok (VBytes s) | _ => bad "to_bytes(string)" end.
Definition string_concat (args : list Value) : outcome Value :=
  match args with
  | [VStr a; VStr b] => Ok (VStr (a ++ b))
  | _ => bad "string_concat(string, string)"
  end.

(** The range checks of [string_slice] and [bytes_slice]. *)
Definition sliced (what : string) (b : bytes) (start end_ : Z)
    (k : Z → Z → outcome Value) : outcome Value :=
  match to_usize start with
  | None => bad (what +:+ ": start out of range: " +:+ text (dec start))
  | Some st =>
      match to_usize end_ with
      | None => bad (what +:+ ": end out of range: " +:+ text (dec end_))
      | Some en =>
          if (en <? st) || (zlen b <? en) then
            bad (what +:+ ": out-of-range [" +:+ text (dec start) +:+ ".." +:+ text (dec end_)
                 +:+ "] over len " +:+ text (dec (zlen b)))
          else k st en
      end
  end.

Definition string_slice (args : list Value) : outcome Value :=
  match args with
  | [VStr s; VInt start; VInt end_] =>
      sliced "string_slice" s start end_ (λ st en,
        if negb (is_char_boundary s st) || negb (is_char_boundary s en)
        then bad "string_slice: indices not on UTF-8 char boundary"
        else Ok (VStr (slice s st en)))
  | _ => bad "string_slice(string, start: i64, end: i64)"
  end.
Definition string_contains (args : list Value) : outcome Value :=
  match args with
  | [VStr haystack; VStr needle] => Ok (VBool (contains_bytes haystack needle))
  | _ => bad "string_contains(haystack, needle)"
  end.
Definition bytes_len (args : list Value) : outcome Value :=
  match args with [VBytes b] => Ok (VInt (zlen b)) | _ => bad "bytes_len(bytes)" end.
Definition bytes_concat (args : list Value) : outcome Value :=
  match args with
  | [VBytes a; VBytes b] => Ok (VBytes (a ++ b))
  | _ => bad "bytes_concat(bytes, bytes)"
  end.
Definition bytes_eq (args : list Value) : outcome Value :=
  match args with
  | [VBytes a; VBytes b] => Ok (VBool (bool_decide (a = b)))
  | _ => bad "bytes_eq(bytes, bytes)"
  end.

(** A signed integer is encoded with its sign bit flipped. *)
Definition to_be_bytes (args : list Value) : outcome Value :=
  match args with
  | [VU32 n] => Ok (VBytes (be_bytes 4 n))
  | [VU64 n] => Ok (VBytes (be_bytes 8 n))
  | [VU128 n] => Ok (VBytes (be_bytes 16 n))
  | [VI32 n] => Ok (VBytes (be_bytes 4 (Z.lxor (wrap_u 32 n) 0x80000000)))
  | _ => bad "to_be_bytes(u32 | u64 | u128 | i32)"
  end.
(** [!x] of a byte. *)
Definition not_byte (x : Z) : Z := Z.lxor x 255.
Definition bit_not_bytes (args : list Value) : outcome Value :=
  match args with
  | [VBytes b] => Ok (VBytes (not_byte <$> b))
  | _ => bad "bit_not_bytes(bytes)"
  end.
Definition bytes_slice (args : list Value) : outcome Value :=
  match args with
  | [VBytes b; VInt start; VInt end_] =>
      sliced "bytes_slice" b start end_ (λ s e, Ok (VBytes (slice b s e)))
  | _ => bad "bytes_slice(bytes, start: int, end: int)"
  end.

(** [assert]. *)
Definition assert_builtin (args : list Value) : outcome Value :=
  match args with
  | [VBool true] => Ok VUnit
  | [VBool true; VStr _] => Ok VUnit
  | [VBool false] => bad "assertion failed"
  | [VBool false; VStr msg] => bad ("assertion failed: " +:+ text msg)
  | _ => bad "assert(cond: bool [, msg: string])"
  end.

Section builtins.
Context `{FloatText} {Nan : FloatNan}.

(** ** Aggregations *)
Fixpoint sum_from (acc : Value) (elems : list Value) : outcome Value :=
  match elems with
  | [] => Ok acc
  | e :: elems' => acc' ← eval_binary Add acc e Span_default; sum_from acc' elems'
  end.
Definition sum (args : list Value) : outcome Value :=
  match args with
  | [VArray elems; init] => sum_from init elems
  | _ => bad "sum(array, init)"
  end.

(** The fold of [max] and [min]: an element replaces the accumulator when the
    comparison answers [true]. *)
Fixpoint best_from (op : BinOp) (acc : Value) (elems : list Value) : outcome Value :=
  match elems with
  | [] => Ok acc
  | e :: elems' =>
      cmp ← eval_binary op e acc Span_default;
      best_from op (match cmp with VBool true => e | _ => acc end) elems'
  end.
Definition best (op : BinOp) (usage : string) (args : list Value) : outcome Value :=
  match args with
  | [VArray elems; dflt] =>
      match elems with
      | [] => Ok dflt
      | e :: elems' => best_from op e elems'
      end
  | _ => bad usage
  end.
Definition max_builtin : list Value → outcome Value := best Gt "max(array, default_if_empty)".
Definition min_builtin : list Value → outcome Value := best Lt "min(array, default_if_empty)".

(** ** Json *)
Definition parse_json (args : list Value) : outcome Value :=
  match args with
  | [VStr s] =>
      match parse s with
      | POk v _ => Ok v
      | PErr e => bad (show_parse_error e)
      | PFuel => OutOfFuel
      end
  | _ => bad "parse_json(string)"
  end.
Definition json_stringify (args : list Value) : outcome Value :=
  match args with
  | [v] => Ok (VStr (write_canonical_value v))
  | _ => bad "json_stringify(value)"
  end.
Definition json_get_field (args : list Value) : outcome Value :=
  match args with
  | [VJson j; VStr k] => Ok (default (VJson JNull) (get_field j k))
  | [_; VStr _] => Ok (VJson JNull)
  | _ => bad "json_get_field(json, string)"
  end.
Definition json_get_index (args : list Value) : outcome Value :=
  match args with
  | [VJson j; VInt i] =>
      match to_usize i with
      | Some idx => Ok (default (VJson JNull) (get_index j idx))
      | None => bad ("json_get_index: out of range: " +:+ text (dec i))
      end
  | [VJson j; VU64 i] => Ok (default (VJson JNull) (get_index j i))
  | [_; _] => Ok (VJson JNull)
  | _ => bad "json_get_index(json, int|u64)"
  end.
Definition json_to_string (args : list Value) : outcome Value :=
  match args with
  | [VStr s] => Ok (VStr s)
  | [other] => bad ("json_to_string: value is not a string: " +:+ show other)
  | _ => bad "json_to_string(json)"
  end.
Definition json_to_i64 (args : list Value) : outcome Value :=
  match args with
  | [VInt n] | [VUInt n] => Ok (VInt n)
  | [other] => bad ("json_to_i64: value is not an integer: " +:+ show other)
  | _ => bad "json_to_i64(json)"
  end.
Definition json_to_u64 (args : list Value) : outcome Value :=
  match args with
  | [VInt n] | [VUInt n] =>
      match to_u 64 n with
      | Some v => Ok (VU64 v)
      | None => bad ("json_to_u64: integer out of u64 range or negative: " +:+ text (dec n))
      end
  | [other] => bad ("json_to_u64: value is not a non-negative integer: " +:+ show other)
  | _ => bad "json_to_u64(json)"
  end.
Definition json_to_bool (args : list Value) : outcome Value :=
  match args with
  | [VBool b] => Ok (VBool b)
  | [other] => bad ("json_to_bool: value is not a bool: " +:+ show other)
  | _ => bad "json_to_bool(json)"
  end.
Definition json_is_null (args : list Value) : outcome Value :=
  match args with
  | [VJson JNull] => Ok (VBool true)
  | [_] => Ok (VBool false)
  | _ => bad "json_is_null(json)"
  end.
Definition _json_null (args : list Value) : outcome Value :=
  match args with [] => Ok (VJson JNull) | _ => bad "_json_null() takes no args" end.
Definition _json_array (args : list Value) : outcome Value := Ok (VJson (JArray args)).

(** The loop of [_json_object] over an even number of arguments. *)
Fixpoint json_object_from (args : list Value) (m : list (bytes * Value)) : outcome Value :=
  match args with
  | key :: value :: args' =>
      match key with
      | VStr s => json_object_from args' (indexmap_insert m s value)
      | other => bad ("_json_object: key must be a string, got " +:+ show other)
      end
  | _ => Ok (VJson (JObject m))
  end.
Definition _json_object (args : list Value) : outcome Value :=
  if negb (zlen args mod 2 =? 0) then bad "_json_object expects alternating key/value args"
  else json_object_from args [].

(** ** Dispatch by name *)
Definition builtins : list (string * (list Value → outcome Value)) :=
  [("set_insert", set_insert); ("set_remove", set_remove); ("set_contains", set_contains);
   ("set_len", set_len); ("dict_set", dict_set); ("dict_remove", dict_remove);
   ("dict_get", dict_get); ("dict_has", dict_has); ("dict_len", dict_len);
   ("to_bytes", to_bytes); ("string_concat", string_concat); ("string_slice", string_slice);
   ("string_contains", string_contains); ("bytes_len", bytes_len);
   ("bytes_concat", bytes_concat); ("bytes_eq", bytes_eq); ("to_be_bytes", to_be_bytes);
   ("bit_not_bytes", bit_not_bytes); ("bytes_slice", bytes_slice); ("assert", assert_builtin);
   ("sum", sum); ("max", max_builtin); ("parse_json", parse_json);
   ("json_stringify", json_stringify); ("json_get_field", json_get_field);
   ("json_get_index", json_get_index); ("json_to_string", json_to_string);
   ("json_to_i64", json_to_i64); ("json_to_u64", json_to_u64); ("json_to_bool", json_to_bool);
   ("json_is_null", json_is_null); ("_json_null", _json_null); ("_json_array", _json_array);
   ("_json_object", _json_object); ("min", min_builtin)].

Definition call_builtin (name : string) (args : list Value) : outcome Value :=
  match list_find (λ p, p.1 = name) builtins with
  | Some (_, (_, f)) => f args
  | None => bad ("unknown builtin '" +:+ name +:+ "'")
  end.

(** ** Conversion

    [target]: 0 [int], 1 [i32], 2 [u32], 3 [u64], 4 [u128]. *)
Definition from_i128 (target : Z) (n : Z) (span : Span) : outcome Value :=
  let bounds := Err (runtime "integer out of range" span) in
  if target =? 0 then Ok (VInt n)
  else if target =? 1 then (if in_i 32 n then Ok (VI32 n) else bounds)
  else if target =? 2 then (if in_u 32 n then Ok (VU32 n) else bounds)
  else if target =? 3 then (if in_u 64 n then Ok (VU64 n) else bounds)
  else if target =? 4 then (if n <? 0 then bounds else Ok (VU128 n))
  else bounds.

Definition i128_max : Z := 2 ^ 127 - 1.

Definition convert (value : Value) (target : Z) (span : Span) : outcome Value :=
  let bounds := Err (runtime "integer out of range" span) in
  match value with
  | VInt n =>
      if target =? 0 then Ok (VInt n)
      else if target =? 1 then (if in_i 32 n then Ok (VI32 n) else bounds)
      else if target =? 2 then (if in_u 32 n then Ok (VU32 n) else bounds)
      else if target =? 3 then (if in_u 64 n then Ok (VU64 n) else bounds)
      else if target =? 4 then (if in_u 128 n then Ok (VU128 n) else bounds)
      else bounds
  | VI32 n | VU32 n | VU64 n => from_i128 target n span
  | VU128 n =>
      if target =? 4 then Ok (VU128 n)
      else if i128_max <? n then bounds
      else from_i128 target n span
  | _ => Err (runtime ("can't convert " +:+ show value +:+ " to int kind "
                       +:+ text (dec target)) span)
  end.
End builtins.
