(* ===== verification/OpsFacts.v ===== *)
(** Operators and builtins: results stay within their types, fixed-width
    arithmetic is unbounded arithmetic that fails outside the width, index keys
    sort as the integers they encode, dictionaries behave as finite maps, and
    conversions keep the number or fail. *)
From S2P Require Import Prelude Bytes Values Serialize JsonText Floats Display Ops.
From S2P Require Import Builtins.
(** ** Ranges *)
Lemma in_u_shift w n : 0 <= w → in_u w n = true ↔ Z.shiftr n w = 0.
Proof.
  intros Hw. unfold in_u. rewrite Z.shiftr_div_pow2 by done.
  assert (0 < 2 ^ w) by (apply Z.pow_pos_nonneg; lia).
  rewrite Z.div_small_iff by lia. lia.
Qed.

Lemma in_i_shift w n : 0 < w → in_i w n = true ↔ Z.shiftr n (w - 1) = 0 ∨ Z.shiftr n (w - 1) = -1.
Proof.
  intros Hw. unfold in_i. rewrite Z.shiftr_div_pow2 by lia.
  assert (0 < 2 ^ (w - 1)) by (apply Z.pow_pos_nonneg; lia).
  pose proof (Z.div_mod n (2 ^ (w - 1)) ltac:(lia)). pose proof (Z.mod_pos_bound n (2 ^ (w - 1)) ltac:(lia)).
  set (q := n / 2 ^ (w - 1)) in *. split; [|nia]. intros Hn. assert (-2 < q < 1); [|lia]. nia.
Qed.

Lemma width_pos k : 0 < width k.
Proof. by destruct k. Qed.

(** Bitwise operations stay within the width. *)
Lemma in_kind_bitwise k (f : Z → Z → Z) a b :
  (∀ x y n, Z.shiftr (f x y) n = f (Z.shiftr x n) (Z.shiftr y n)) →
  f 0 0 = 0 → (f 0 (-1) = 0 ∨ f 0 (-1) = -1) → (f (-1) 0 = 0 ∨ f (-1) 0 = -1) →
  (f (-1) (-1) = 0 ∨ f (-1) (-1) = -1) →
  in_kind k a = true → in_kind k b = true → in_kind k (f a b) = true.
Proof.
  intros Hs H00 H01 H10 H11. unfold in_kind. pose proof (width_pos k).
  destruct (signed_kind k).
  - rewrite !in_i_shift, Hs by lia. by intros [->| ->] [->| ->]; auto.
  - rewrite !in_u_shift, Hs by lia. by intros -> ->.
Qed.

Lemma in_kind_wrap k n : in_kind k (wrap_kind k n) = true.
Proof.
  unfold wrap_kind, in_kind, wrap_u. pose proof (width_pos k).
  rewrite Z.land_ones by lia. pose proof (Z.mod_pos_bound n (2 ^ width k) ltac:(lia)).
  destruct (signed_kind k); [|unfold in_u; lia]. unfold to_signed, in_i.
  assert (2 ^ width k = 2 * 2 ^ (width k - 1)).
  { replace (width k) with (1 + (width k - 1)) at 1 by lia. rewrite Z.pow_add_r by lia. lia. }
  destruct (Z.ltb_spec (n mod 2 ^ width k) (2 ^ (width k - 1))); lia.
Qed.

Lemma wrap_in_kind k n : in_kind k n = true → wrap_kind k n = n.
Proof.
  unfold wrap_kind, in_kind, wrap_u. pose proof (width_pos k). rewrite Z.land_ones by lia.
  destruct (signed_kind k); unfold in_u, in_i; intros Hn; [|apply Z.mod_small; lia].
  assert (2 ^ width k = 2 * 2 ^ (width k - 1)).
  { replace (width k) with (1 + (width k - 1)) at 1 by lia. rewrite Z.pow_add_r by lia. lia. }
  unfold to_signed. destruct (decide (0 <= n)).
  - rewrite Z.mod_small by lia. replace (n <? _) with true by lia. done.
  - replace (n mod 2 ^ width k) with (n + 2 ^ width k).
    + replace (_ <? _) with false by lia. lia.
    + rewrite <- (Z.mod_add n 1) by lia. rewrite Z.mod_small; lia.
Qed.

(** The remainder of a division whose quotient fits lies in the width. *)
Lemma in_kind_rem k a b :
  in_kind k a = true → in_kind k b = true → b ≠ 0 → in_kind k (Z.rem a b) = true.
Proof.
  unfold in_kind, in_u, in_i. intros Ha Hb Hb0.
  pose proof (Z.rem_bound_abs a b Hb0).
  destruct (signed_kind k) eqn:Hk.
  - destruct (Z_le_gt_dec 0 a).
    + pose proof (Z.rem_nonneg a b Hb0 ltac:(lia)). lia.
    + pose proof (Z.rem_nonpos a b Hb0 ltac:(lia)). lia.
  - pose proof (Z.rem_nonneg a b Hb0 ltac:(lia)). lia.
Qed.

(** ** Well-formed scalars *)
Definition scalar_ok (v : Value) : bool :=
  match v with
  | VUInt n => 0 <=? n
  | VI32 n => in_kind KI32 n
  | VU32 n => in_kind KU32 n
  | VU64 n => in_kind KU64 n
  | VU128 n => in_kind KU128 n
  | _ => true
  end.

(** Operators that answer a boolean. *)
Definition is_test (op : BinOp) : bool :=
  match op with Eq | NotEq | Lt | Gt | LtEq | GtEq | And | Or => true | _ => false end.

(** What an operator at operands of the variant [d] may answer. *)
Definition answers (op : BinOp) (d : nat) (span : Span) (r : outcome Value) : Prop :=
  match r with
  | Ok v => scalar_ok v = true ∧ discriminant v = if is_test op then discriminant (VBool true) else d
  | Err e => err_kind e = Runtime ∧ err_span e = span
  | _ => False
  end.

Lemma scalar_mk_int k n : scalar_ok (mk_int k n) = in_kind k n.
Proof. by destruct k. Qed.

Lemma discriminant_mk_int k m n : discriminant (mk_int k m) = discriminant (mk_int k n).
Proof. by destruct k. Qed.

Lemma answers_checked op k n m span :
  is_test op = false → answers op (discriminant (mk_int k m)) span (checked k span n).
Proof.
  intros Ht. unfold checked. destruct (in_kind k n) eqn:Hn; [|done]. cbn [answers].
  rewrite scalar_mk_int, Ht. split; [done|apply discriminant_mk_int].
Qed.

Lemma answers_int op k n m span :
  is_test op = false → in_kind k n = true →
  answers op (discriminant (mk_int k m)) span (Ok (mk_int k n)).
Proof.
  intros Ht Hn. cbn [answers]. rewrite scalar_mk_int, Ht. split; [done|apply discriminant_mk_int].
Qed.

Lemma answers_shift op k f a b m span :
  is_test op = false → answers op (discriminant (mk_int k m)) span (checked_shift k span f a b).
Proof.
  intros Ht. unfold checked_shift. destruct (_ && _); [|done].
  apply answers_int; [done|apply in_kind_wrap].
Qed.

Lemma int_arith_answers op k a b span :
  in_kind k a = true → in_kind k b = true →
  answers op (discriminant (mk_int k a)) span (int_arith op k a b span).
Proof.
  intros Ha Hb. destruct op; cbn [int_arith]; try done;
    try (by apply answers_checked); try (by apply answers_shift).
  - destruct (b =? 0); [done|by apply answers_checked].
  - destruct (Z.eqb_spec b 0); [done|]. destruct (in_kind k (Z.quot a b)); [|done].
    apply answers_int; [done|by apply in_kind_rem].
  - apply answers_int; [done|]. apply in_kind_bitwise; auto using Z.shiftr_land.
  - apply answers_int; [done|]. apply in_kind_bitwise; auto using Z.shiftr_lor.
  - apply answers_int; [done|]. apply in_kind_bitwise; auto using Z.shiftr_lxor.
Qed.

Lemma bigint_arith_answers op (unsigned : bool) a b span :
  (unsigned = true → 0 <= a ∧ 0 <= b) →
  answers op (if unsigned then 1 else 0)%nat span (bigint_arith op a b span unsigned).
Proof.
  intros Hab.
  assert (Hw : ∀ n, is_test op = false → (0 <= a → 0 <= b → 0 <= n) →
    answers op (if unsigned then 1 else 0)%nat span (Ok ((if unsigned then VUInt else VInt) n))).
  { intros n Ht Hn. cbn [answers]. rewrite Ht. destruct unsigned; cbn; [|done].
    destruct (Hab eq_refl). split; [|done]. apply Z.leb_le. auto. }
  destruct op; cbn [bigint_arith]; try done; try (by destruct unsigned).
  - apply Hw; [done|lia].
  - destruct (unsigned && (a - b <? 0)) eqn:E; [done|].
    destruct unsigned; cbn in E |- *; [split; [lia|done]|done].
  - apply Hw; [done|nia].
  - destruct (Z.eqb_spec b 0); [done|]. apply Hw; [done|]. intros. apply Z.quot_pos; lia.
  - destruct (Z.eqb_spec b 0); [done|]. apply Hw; [done|]. intros. apply Z.rem_nonneg; lia.
  - apply Hw; [done|]. rewrite Z.land_nonneg. lia.
  - apply Hw; [done|]. rewrite Z.lor_nonneg. lia.
  - apply Hw; [done|]. rewrite Z.lxor_nonneg. lia.
  - destruct (b <? 0); [done|]. destruct (in_u 32 b); [|done]. apply Hw; [done|].
    rewrite Z.shiftl_nonneg. lia.
  - destruct (b <? 0); [done|]. destruct (in_u 32 b); [|done]. apply Hw; [done|].
    rewrite Z.shiftr_nonneg. lia.
Qed.

(** ** Byte order of index keys *)
Lemma be_value_bound bs : forallb is_byte bs = true → 0 <= be_value bs < 2 ^ (8 * zlen bs).
Proof.
  induction bs as [|b bs IH]; intros Hb; [done|]. cbn [forallb] in Hb.
  apply andb_prop in Hb as [Hb Hbs]. rewrite be_value_cons, zlen_cons by done. specialize (IH Hbs).
  replace (8 * (1 + zlen bs)) with (8 + 8 * zlen bs) by lia.
  rewrite Z.pow_add_r by (pose proof (zlen_nonneg bs); lia).
  unfold is_byte in Hb. change (2 ^ 8) with 256. nia.
Qed.

Lemma bytes_cmp_value a b :
  length a = length b → forallb is_byte a = true → forallb is_byte b = true →
  bytes_cmp a b = (be_value a ?= be_value b).
Proof.
  revert b. induction a as [|x a IH]; intros [|y b] Hl Ha Hb; try done.
  injection Hl as Hl. cbn [forallb] in Ha, Hb.
  apply andb_prop in Ha as [Hx Ha]. apply andb_prop in Hb as [Hy Hb].
  rewrite !be_value_cons by done. cbn [bytes_cmp]. rewrite IH by done.
  assert (Hlen : zlen a = zlen b) by (unfold zlen; by rewrite Hl). rewrite Hlen.
  pose proof (be_value_bound a Ha) as Ba. pose proof (be_value_bound b Hb) as Bb. rewrite Hlen in Ba.
  set (m := 2 ^ (8 * zlen b)) in *.
  destruct (Z.compare_spec x y) as [->|Hxy|Hxy]; symmetry.
  - destruct (Z.compare_spec (be_value a) (be_value b)) as [->| |];
      [apply Z.compare_refl|apply Z.compare_lt_iff; lia|apply Z.compare_gt_iff; lia].
  - apply Z.compare_lt_iff. nia.
  - apply Z.compare_gt_iff. nia.
Qed.

Lemma bytes_cmp_app a b ra rb :
  length a = length b →
  bytes_cmp (a ++ ra) (b ++ rb) =
    match bytes_cmp a b with Datatypes.Eq => bytes_cmp ra rb | c => c end.
Proof.
  revert b. induction a as [|x a IH]; intros [|y b] Hl; try done.
  injection Hl as Hl. cbn [app bytes_cmp]. destruct (x ?= y); [by apply IH|done|done].
Qed.

(** There are 256 bytes. *)
Lemma all_bytes (P : Z → bool) :
  forallb P (Z.of_nat <$> seq 0 256) = true → ∀ x, is_byte x = true → P x = true.
Proof.
  intros HP x Hx. rewrite forallb_forall in HP. apply HP. apply list_elem_of_In, list_elem_of_fmap.
  exists (Z.to_nat x). unfold is_byte in Hx. split; [lia|]. apply elem_of_seq. lia.
Qed.

Lemma not_byte_sub x : is_byte x = true → not_byte x = 255 - x.
Proof. intros Hx. apply Z.eqb_eq. revert x Hx. apply all_bytes. vm_compute. reflexivity. Qed.

Lemma bytes_cmp_not a b :
  length a = length b → forallb is_byte a = true → forallb is_byte b = true →
  bytes_cmp (not_byte <$> a) (not_byte <$> b) = bytes_cmp b a.
Proof.
  revert b. induction a as [|x a IH]; intros [|y b] Hl Ha Hb; try done.
  injection Hl as Hl. cbn [forallb] in Ha, Hb.
  apply andb_prop in Ha as [Hx Ha]. apply andb_prop in Hb as [Hy Hb].
  rewrite !fmap_cons. cbn [bytes_cmp]. rewrite IH, !not_byte_sub by done.
  destruct (Z.compare_spec y x), (Z.compare_spec (255 - x) (255 - y)); done || lia.
Qed.

(** The bytes of an integer and the position of the integer in the order. *)
Definition key_bytes (k : IntKind) (n : Z) : bytes :=
  match k with
  | KI32 => be_bytes 4 (Z.lxor (wrap_u 32 n) 0x80000000)
  | KU32 => be_bytes 4 n
  | KU64 => be_bytes 8 n
  | KU128 => be_bytes 16 n
  end.

Lemma to_be_bytes_key k n : to_be_bytes [mk_int k n] = Ok (VBytes (key_bytes k n)).
Proof. by destruct k. Qed.

(** Flipping the sign bit shifts the signed range onto the unsigned one. *)
Lemma flip_sign n : in_i 32 n = true → Z.lxor (wrap_u 32 n) 0x80000000 = n + 2 ^ 31.
Proof.
  intros Hn. unfold wrap_u. rewrite Z.land_ones by lia. unfold in_i in Hn. cbn in Hn.
  destruct (decide (0 <= n)).
  - rewrite Z.mod_small by lia. rewrite <- Z.add_nocarry_lxor; [lia|].
    apply Z.bits_inj'. intros i Hi. rewrite Z.land_spec, Z.bits_0.
    change 2147483648 with (2 ^ 31). rewrite Z.pow2_bits_eqb by lia.
    destruct (Z.eqb_spec 31 i) as [<-|]; [|apply andb_false_r]. rewrite andb_true_r.
    destruct (decide (n = 0)) as [->|]; [done|]. apply Z.bits_above_log2; [lia|].
    apply Z.log2_lt_pow2; lia.
  - replace (n mod 2 ^ 32) with (n + 2 ^ 32).
    2: { rewrite <- (Z.mod_add n 1) by lia. symmetry. apply Z.mod_small. lia. }
    set (m := n + 2 ^ 31). replace (n + 2 ^ 32) with (m + 2 ^ 31) by lia.
    rewrite Z.add_nocarry_lxor; [by rewrite Z.lxor_assoc, Z.lxor_nilpotent, Z.lxor_0_r|].
    apply Z.bits_inj'. intros i Hi. rewrite Z.land_spec, Z.bits_0.
    rewrite Z.pow2_bits_eqb by lia.
    destruct (Z.eqb_spec 31 i) as [<-|]; [|apply andb_false_r]. rewrite andb_true_r.
    destruct (decide (m = 0)) as [E|]; [by rewrite E|]. apply Z.bits_above_log2; [lia|].
    apply Z.log2_lt_pow2; lia.
Qed.

Lemma key_bytes_cmp k a b :
  in_kind k a = true → in_kind k b = true →
  length (key_bytes k a) = length (key_bytes k b) ∧
  bytes_cmp (key_bytes k a) (key_bytes k b) = (a ?= b).
Proof.
  intros Ha Hb.
  assert (Hu : ∀ n x y, 0 <= x < 2 ^ (8 * Z.of_nat n) → 0 <= y < 2 ^ (8 * Z.of_nat n) →
    length (be_bytes n x) = length (be_bytes n y) ∧ bytes_cmp (be_bytes n x) (be_bytes n y) = (x ?= y)).
  { intros n x y Hx Hy. rewrite !length_be_bytes. split; [done|].
    rewrite bytes_cmp_value by (rewrite ?length_be_bytes; done || apply be_bytes_bytes).
    by rewrite !be_value_be_bytes_id. }
  destruct k; unfold in_kind, signed_kind, width, in_u in Ha, Hb; cbn [key_bytes];
    try (apply Hu; cbn; lia).
  rewrite !flip_sign by done. unfold in_i in Ha, Hb. destruct (Hu 4%nat (a + 2 ^ 31) (b + 2 ^ 31)) as [Hl ->].
  1, 2: cbn in *; lia. split; [done|].
  destruct (Z.compare_spec a b), (Z.compare_spec (a + 2 ^ 31) (b + 2 ^ 31)); done || lia.
Qed.

(** ** Dictionaries as finite maps *)
Definition keys_plain (d : list (Value * Value)) : bool := forallb (λ p, plain p.1) d.

Lemma value_eqb_plain a b : plain a = true → value_eqb a b = bool_decide (a = b).
Proof.
  intros Ha. apply eq_true_iff_eq. by rewrite (value_eqb_eq a Ha), bool_decide_eq_true.
Qed.

Lemma dict_find_update d k v k' :
  keys_plain d = true → plain k = true →
  dict_find (dict_update d k v) k' = if bool_decide (k = k') then Some v else dict_find d k'.
Proof.
  intros Hd Hk. induction d as [|[kk vv] d IH].
  - cbn. by rewrite value_eqb_plain.
  - cbn [keys_plain forallb fst] in Hd. apply andb_prop in Hd as [Hkk Hd]. specialize (IH Hd).
    cbn [dict_update]. rewrite value_eqb_plain by done. destruct (bool_decide (kk = k)) eqn:E.
    + apply bool_decide_eq_true in E as ->. cbn [dict_find]. rewrite value_eqb_plain by done.
      by destruct (bool_decide (k = k')).
    + apply bool_decide_eq_false in E. cbn [dict_find]. rewrite !value_eqb_plain by done. rewrite IH.
      destruct (bool_decide (kk = k')) eqn:E2; [|done].
      apply bool_decide_eq_true in E2 as <-. by rewrite (bool_decide_eq_false_2 (k = kk)) by congruence.
Qed.

Lemma dict_find_filter d k k' :
  keys_plain d = true →
  dict_find (List.filter (λ p, negb (value_eqb p.1 k)) d) k' =
    if bool_decide (k = k') then None else dict_find d k'.
Proof.
  intros Hd. induction d as [|[kk vv] d IH]; [by case_bool_decide|].
  cbn [keys_plain forallb fst] in Hd. apply andb_prop in Hd as [Hkk Hd]. specialize (IH Hd).
  cbn [List.filter fst]. rewrite value_eqb_plain by done.
  destruct (bool_decide (kk = k)) eqn:E; cbn [negb].
  - apply bool_decide_eq_true in E as ->. cbn [dict_find]. rewrite value_eqb_plain by done. rewrite IH.
    by destruct (bool_decide (k = k')).
  - apply bool_decide_eq_false in E. cbn [dict_find]. rewrite value_eqb_plain by done. rewrite IH.
    destruct (bool_decide (kk = k')) eqn:E2; [|done].
    apply bool_decide_eq_true in E2 as <-. by rewrite (bool_decide_eq_false_2 (k = kk)) by congruence.
Qed.

Lemma existsb_find d k : existsb (λ p, value_eqb p.1 k) d = bool_decide (is_Some (dict_find d k)).
Proof.
  induction d as [|[kk vv] d IH]; [done|]. cbn [existsb dict_find fst].
  destruct (value_eqb kk k); [done|]. apply IH.
Qed.

Lemma dict_update_keys d k v :
  keys_plain d = true → plain k = true →
  (dict_update d k v).*1 = d.*1 ++ (if bool_decide (k ∈ d.*1) then [] else [k]).
Proof.
  intros Hd Hk. induction d as [|[kk vv] d IH]; [done|].
  cbn [keys_plain forallb fst] in Hd. apply andb_prop in Hd as [Hkk Hd]. specialize (IH Hd).
  cbn [dict_update]. rewrite value_eqb_plain by done. destruct (bool_decide (kk = k)) eqn:E.
  - apply bool_decide_eq_true in E as ->. rewrite !fmap_cons. cbn [fst].
    rewrite bool_decide_eq_true_2; [by rewrite app_nil_r|]. apply list_elem_of_here.
  - apply bool_decide_eq_false in E. rewrite !fmap_cons. cbn [fst]. rewrite IH. cbn [app]. f_equal. f_equal.
    rewrite (bool_decide_ext (k ∈ kk :: d.*1) (k ∈ d.*1)); [done|].
    rewrite elem_of_cons. naive_solver.
Qed.

Section properties.
Context `{FloatText} {Nan : FloatNan}.

(** C24: an operator at two well-formed values answers a well-formed value, of the
    operands' type or a boolean for a comparison, or a runtime error at the
    given position: no result leaves its width, no unsigned result is negative,
    and no case panics. *)
Theorem eval_binary_typed op l r span :
  scalar_ok l = true → scalar_ok r = true →
  answers op (discriminant l) span (eval_binary op l r span).
Proof.
  intros Hl Hr.
  assert (Hm : ∀ d, answers op d span (mismatch op l r span)) by done.
  assert (Hother : answers op (discriminant l) span
    (if (discriminant l =? discriminant r)%nat then
       match op with
       | Eq => Ok (VBool (value_eqb l r))
       | NotEq => Ok (VBool (negb (value_eqb l r)))
       | _ => mismatch op l r span
       end
     else mismatch op l r span)).
  { destruct (_ =? _)%nat; [|done]. by destruct op. }
  destruct l, r; try exact Hother; cbn [eval_binary].
  - by apply (bigint_arith_answers op false).
  - apply (bigint_arith_answers op true). cbn in Hl, Hr. lia.
  - by destruct op.
  - by apply (int_arith_answers op KI32).
  - by apply (int_arith_answers op KU32).
  - by apply (int_arith_answers op KU64).
  - by apply (int_arith_answers op KU128).
  - by destruct op.
Qed.

(** The sized value of a kind for an unbounded result, or an overflow. *)
Definition narrow (k : IntKind) (span : Span) (r : outcome Value) : outcome Value :=
  match r with
  | Ok (VInt n) => checked k span n
  | r => r
  end.

(** Arithmetic at a fixed width is arithmetic on unbounded integers narrowed
    to the width, failing with an overflow when the result does not fit; the
    operators that differ are shifts, which reject amounts of the width or more,
    the left shift, which drops the bits it shifts out, and the remainder of
    the least value by minus one. *)
Theorem fixed_width_narrows k op a b span :
  in_kind k a = true → in_kind k b = true → op ≠ And → op ≠ Or → op ≠ Shl →
  (op = Shr → 0 <= b < width k) → (op = Mod → in_kind k (Z.quot a b) = true) →
  eval_binary op (mk_int k a) (mk_int k b) span =
    narrow k span (eval_binary op (VInt a) (VInt b) span).
Proof.
  intros Ha Hb HAnd HOr HShl Hshr Hmod.
  assert (E : eval_binary op (mk_int k a) (mk_int k b) span = int_arith op k a b span) by (by destruct k).
  rewrite E. cbn [eval_binary].
  assert (Hin : ∀ n, in_kind k n = true → Ok (mk_int k n) = checked k span n).
  { intros n Hn. unfold checked. by rewrite Hn. }
  destruct op; cbn [int_arith bigint_arith narrow]; try done.
  - by destruct (b =? 0).
  - destruct (Z.eqb_spec b 0); [done|]. cbn [narrow]. rewrite Hmod by done.
    apply Hin. by apply in_kind_rem.
  - apply Hin, in_kind_bitwise; auto using Z.shiftr_land.
  - apply Hin, in_kind_bitwise; auto using Z.shiftr_lor.
  - apply Hin, in_kind_bitwise; auto using Z.shiftr_lxor.
  - unfold checked_shift. pose proof (width_pos k). specialize (Hshr eq_refl).
    assert (Hw : width k <= 128) by (by destruct k).
    assert (H32 : in_u 32 b = true) by (unfold in_u; cbn; lia). rewrite H32.
    replace (b <? width k) with true by lia. replace (b <? 0) with false by lia. cbn [andb narrow].
    assert (Hs : in_kind k (Z.shiftr a b) = true).
    { revert Ha. unfold in_kind. destruct (signed_kind k).
      - rewrite !in_i_shift by lia. rewrite Z.shiftr_shiftr by lia.
        rewrite (Z.add_comm b), <- Z.shiftr_shiftr by lia. intros [->| ->].
        + left. apply Z.shiftr_0_l.
        + right. rewrite Z.shiftr_div_pow2 by lia.
          assert (0 < 2 ^ b) by (apply Z.pow_pos_nonneg; lia). symmetry.
          apply Z.div_unique with (2 ^ b - 1); lia.
      - rewrite !in_u_shift by lia. rewrite Z.shiftr_shiftr by lia.
        rewrite (Z.add_comm b), <- Z.shiftr_shiftr by lia. intros ->. apply Z.shiftr_0_l. }
    unfold checked. rewrite Hs. f_equal. f_equal. by apply wrap_in_kind.
Qed.

(** C25: [to_be_bytes] is an order embedding of every fixed-width type into byte
    strings, also inside composite keys: with any suffixes, the encodings
    compare as the integers do, the suffixes deciding ties, and
    [bit_not_bytes] reverses the order. *)
Theorem to_be_bytes_order k a b :
  in_kind k a = true → in_kind k b = true →
  ∃ ea eb na nb,
    call_builtin "to_be_bytes" [mk_int k a] = Ok (VBytes ea) ∧
    call_builtin "to_be_bytes" [mk_int k b] = Ok (VBytes eb) ∧
    call_builtin "bit_not_bytes" [VBytes ea] = Ok (VBytes na) ∧
    call_builtin "bit_not_bytes" [VBytes eb] = Ok (VBytes nb) ∧
    ∀ ra rb,
      bytes_cmp (ea ++ ra) (eb ++ rb) =
        match a ?= b with Datatypes.Eq => bytes_cmp ra rb | c => c end ∧
      bytes_cmp (na ++ ra) (nb ++ rb) =
        match b ?= a with Datatypes.Eq => bytes_cmp ra rb | c => c end.
Proof.
  intros Ha Hb. exists (key_bytes k a), (key_bytes k b), (not_byte <$> key_bytes k a), (not_byte <$> key_bytes k b).
  assert (Hcall : ∀ n, call_builtin "to_be_bytes" [mk_int k n] = to_be_bytes [mk_int k n]) by reflexivity.
  rewrite !Hcall, !to_be_bytes_key. splits; try reflexivity. intros ra rb.
  destruct (key_bytes_cmp k a b Ha Hb) as [Hl Hab]. destruct (key_bytes_cmp k b a Hb Ha) as [_ Hba].
  assert (Hbytes : ∀ n, forallb is_byte (key_bytes k n) = true).
  { intros n. destruct k; apply be_bytes_bytes. }
  rewrite !bytes_cmp_app by (rewrite ?length_fmap; done).
  by rewrite bytes_cmp_not, Hab, Hba.
Qed.

(** The dictionary builtins implement a finite map on keys without json
    objects: [dict_set] binds the key and keeps the others, [dict_remove]
    unbinds it, [dict_get] answers the binding or the default, [dict_has] tells
    whether there is one, [dict_len] counts the entries and each key has one. *)
Theorem dict_builtins_spec d k v k' dflt :
  keys_plain d = true → plain k = true → plain k' = true → NoDup d.*1 →
  ∃ d1 d2,
    call_builtin "dict_set" [VDict d; k; v] = Ok (VDict d1) ∧
    call_builtin "dict_remove" [VDict d; k] = Ok (VDict d2) ∧
    NoDup d1.*1 ∧ NoDup d2.*1 ∧
    call_builtin "dict_get" [VDict d1; k'; dflt] =
      (if bool_decide (k = k') then Ok v else call_builtin "dict_get" [VDict d; k'; dflt]) ∧
    call_builtin "dict_get" [VDict d2; k'; dflt] =
      (if bool_decide (k = k') then Ok dflt else call_builtin "dict_get" [VDict d; k'; dflt]) ∧
    call_builtin "dict_has" [VDict d1; k'] =
      (if bool_decide (k = k') then Ok (VBool true) else call_builtin "dict_has" [VDict d; k']) ∧
    call_builtin "dict_has" [VDict d2; k'] =
      (if bool_decide (k = k') then Ok (VBool false) else call_builtin "dict_has" [VDict d; k']) ∧
    call_builtin "dict_len" [VDict d1] =
      Ok (VInt (zlen d + if bool_decide (k ∈ d.*1) then 0 else 1)).
Proof.
  intros Hd Hk Hk' Hnd.
  exists (dict_update d k v), (List.filter (λ p, negb (value_eqb p.1 k)) d).
  assert (Hget : ∀ e x, call_builtin "dict_get" [VDict e; x; dflt] = Ok (default dflt (dict_find e x))) by reflexivity.
  assert (Hhas : ∀ e x, call_builtin "dict_has" [VDict e; x] = Ok (VBool (existsb (λ p, value_eqb p.1 x) e))) by reflexivity.
  rewrite !Hget, !Hhas, !existsb_find, !dict_find_update, !dict_find_filter by done.
  split; [reflexivity|]. split; [reflexivity|]. split.
  { rewrite dict_update_keys by done. destruct (bool_decide (k ∈ d.*1)) eqn:E; [by rewrite app_nil_r|].
    apply bool_decide_eq_false in E. apply NoDup_app. splits; [done| |apply NoDup_singleton].
    intros x Hx ->%list_elem_of_singleton. done. }
  split.
  { clear -Hnd. induction d as [|[kk vv] d IH]; [done|]. apply NoDup_cons in Hnd as [Hkk Hnd].
    cbn [List.filter fst]. destruct (value_eqb kk k); cbn [negb]; [by apply IH|].
    apply NoDup_cons. split; [|by apply IH]. intros Hin. apply Hkk.
    apply list_elem_of_fmap in Hin as (p & Ep & Hin). apply list_elem_of_In, filter_In in Hin as [Hin _].
    apply list_elem_of_fmap. exists p. split; [done|]. by apply list_elem_of_In. }
  destruct (bool_decide (k = k')); cbn [default].
  all: splits; try reflexivity.
  all: change (call_builtin "dict_len" [VDict (dict_update d k v)]) with (Ok (VInt (zlen (dict_update d k v))));
    f_equal; f_equal; unfold zlen; rewrite <- (length_fmap fst (dict_update d k v)), dict_update_keys, length_app, length_fmap by done;
    destruct (bool_decide (k ∈ d.*1)); cbn [length]; lia.
Qed.

(** ** Conversion *)

(** The integer a numeric value stands for, and the value of a target type. *)
Definition int_value (v : Value) : option Z :=
  match v with VInt n | VI32 n | VU32 n | VU64 n | VU128 n => Some n | _ => None end.
Definition target_kind (t : Z) : option IntKind :=
  if t =? 1 then Some KI32 else if t =? 2 then Some KU32
  else if t =? 3 then Some KU64 else if t =? 4 then Some KU128 else None.

(** Converting an integer to a fixed-width type keeps the number when the
    type has it and fails otherwise, whatever the source type; converting to
    [int] keeps it too, except that it fails on a [u128] above [i128::MAX]. *)
Theorem convert_exact v n t span :
  scalar_ok v = true → int_value v = Some n →
  (∀ k, target_kind t = Some k →
    convert v t span =
      if in_kind k n then Ok (mk_int k n) else Err (runtime "integer out of range" span)) ∧
  convert v 0 span =
    match v with
    | VU128 _ => if i128_max <? n then Err (runtime "integer out of range" span) else Ok (VInt n)
    | _ => Ok (VInt n)
    end.
Proof.
  intros Hv Hn. split.
  - intros k Hk. assert (Ht : t = 1 ∧ k = KI32 ∨ t = 2 ∧ k = KU32 ∨ t = 3 ∧ k = KU64 ∨ t = 4 ∧ k = KU128).
    { unfold target_kind in Hk. destruct (Z.eqb_spec t 1); [naive_solver|].
      destruct (Z.eqb_spec t 2); [naive_solver|]. destruct (Z.eqb_spec t 3); [naive_solver|].
      destruct (Z.eqb_spec t 4); naive_solver. }
    destruct v; try discriminate Hn; injection Hn as ->;
      unfold scalar_ok, in_kind, signed_kind, width in Hv; unfold in_kind, signed_kind, width;
      destruct Ht as [[-> ->]|[[-> ->]|[[-> ->]|[-> ->]]]]; cbn [convert from_i128 Z.eqb Pos.eqb mk_int];
      try reflexivity; unfold i128_max, in_u, in_i in *; cbn in Hv |- *.
    all: repeat match goal with |- context [if ?c then _ else _] => destruct c eqn:? end;
      try reflexivity; exfalso; lia.
  - destruct v; try discriminate Hn; injection Hn as ->; reflexivity.
Qed.
End properties.

(** The left shift of a fixed width loses the bits it shifts out without an
    error, and a [u128] above [i128::MAX] does not convert to [int]. *)
Lemma shl_drops_bits `{FloatText} `{FloatNan} span :
  eval_binary Shl (VU32 0x80000001) (VU32 1) span = Ok (VU32 2).
Proof. reflexivity. Qed.

Lemma convert_u128_int_fails `{FloatText} span :
  convert (VU128 (2 ^ 127)) 0 span = Err (runtime "integer out of range" span).
Proof. reflexivity. Qed.

(** * The operators and builtins at concrete inputs. *)
(** A float text and a NaN for the examples, which involve no float. *)
#[local] Instance no_text : FloatText := {| format_f64 := λ _, []; parse_f64 := λ _, None |}.
#[local] Instance quiet_nan : FloatNan := λ _ _, 0x7ff8000000000000.

Lemma eval_binary_typed_witness :
  scalar_ok (VI32 (-7)) = true ∧ eval_binary Mod (VI32 (-7)) (VI32 3) Span_default = Ok (VI32 (-1)) ∧
  answers Mod 3%nat Span_default (eval_binary Mod (VI32 (-7)) (VI32 3) Span_default).
Proof.
  split; [reflexivity|]. split; [reflexivity|].
  exact (eval_binary_typed Mod (VI32 (-7)) (VI32 3) Span_default eq_refl eq_refl).
Defined.

Lemma fixed_width_narrows_witness :
  eval_binary Add (VU32 u32_max) (VU32 1) Span_default = Err (overflow Span_default) ∧
  eval_binary Add (VU32 u32_max) (VU32 1) Span_default =
    narrow KU32 Span_default (eval_binary Add (VInt u32_max) (VInt 1) Span_default).
Proof.
  split; [vm_compute; reflexivity|].
  apply (fixed_width_narrows KU32 Add u32_max 1 Span_default);
    first [reflexivity | discriminate | by intros [=]].
Defined.

Lemma to_be_bytes_order_witness :
  in_kind KI32 (-5) = true ∧ in_kind KI32 3 = true ∧
  ∃ ea eb, call_builtin "to_be_bytes" [VI32 (-5)] = Ok (VBytes ea) ∧
    call_builtin "to_be_bytes" [VI32 3] = Ok (VBytes eb) ∧ bytes_cmp ea eb = Datatypes.Lt.
Proof.
  split; [reflexivity|]. split; [reflexivity|].
  destruct (to_be_bytes_order KI32 (-5) 3 eq_refl eq_refl) as (ea & eb & na & nb & E1 & E2 & _ & _ & Hcmp).
  exists ea, eb. split; [exact E1|]. split; [exact E2|].
  destruct (Hcmp [] []) as [Hab _]. rewrite !app_nil_r in Hab. exact Hab.
Defined.

Definition sample_dict : list (Value * Value) := [(VStr [97], VInt 1); (VU64 2, VBool true)].

Lemma dict_builtins_spec_witness :
  keys_plain sample_dict = true ∧
  ∃ d1, call_builtin "dict_set" [VDict sample_dict; VU64 2; VInt 9] = Ok (VDict d1) ∧
    call_builtin "dict_get" [VDict d1; VU64 2; VUnit] = Ok (VInt 9).
Proof.
  split; [reflexivity|].
  destruct (dict_builtins_spec sample_dict (VU64 2) (VInt 9) (VU64 2) VUnit)
    as (d1 & d2 & E1 & _ & _ & _ & Hget & _); try reflexivity.
  - apply (bool_decide_unpack _). vm_compute. exact I.
  - exists d1. split; [exact E1|]. rewrite Hget. reflexivity.
Defined.

Lemma convert_exact_witness :
  scalar_ok (VU64 300) = true ∧ convert (VU64 300) 1 Span_default = Ok (VI32 300).
Proof.
  split; [reflexivity|].
  destruct (convert_exact (VU64 300) 300 1 Span_default eq_refl eq_refl) as [H _].
  rewrite (H KI32 eq_refl). reflexivity.
Defined.

(** Other builtins. *)
Example builtin_samples :
  call_builtin "string_slice" [VStr [97; 195; 169; 98]; VInt 1; VInt 3] = Ok (VStr [195; 169]) ∧
  call_builtin "string_slice" [VStr [97; 195; 169; 98]; VInt 1; VInt 2] =
    bad "string_slice: indices not on UTF-8 char boundary" ∧
  call_builtin "max" [VArray [VInt 3; VInt 9; VInt 4]; VInt 0] = Ok (VInt 9) ∧
  call_builtin "sum" [VArray [VU32 3; VU32 u32_max]; VU32 0] = Err (overflow Span_default) ∧
  call_builtin "string_contains" [VStr [1; 2; 3]; VStr [2; 3]] = Ok (VBool true) ∧
  call_builtin "nope" [] = bad "unknown builtin 'nope'".
Proof. repeat split; vm_compute; reflexivity. Qed.
