(* ===== verification/Lexer.v ===== *)
(** Lexer ([crates/rend/src/token.rs], [lexer.rs]): tokens with their spans, and
    the scanner over the bytes of the source. *)
From S2P Require Import Prelude Bytes Values JsonText Display.
#[local] Set Warnings "-register-all".

(** ** Tokens ([token.rs] [enum Token]) *)
Inductive Token :=
  | T_Int (n : Z) | T_UInt (n : Z) | T_Float (bits : Z) | T_I32 (n : Z) | T_U32 (n : Z)
  | T_U64 (n : Z) | T_U128 (n : Z) | T_Str (s : bytes) | T_Ident (s : bytes)
  | T_Fn | T_Let | T_Return | T_If | T_Else | T_True | T_False | T_Import | T_State |
  T_Entry | T_Struct | T_Group | T_Pub | T_Module | T_Emit | T_Nore | T_Modifier |
  T_Enum | T_Match | T_Const | T_Cap | T_View | T_Pure | T_Interface | T_Dollar |
  T_While | T_Parallel | T_For | T_In | T_Break | T_Continue | T_Set | T_Dict | T_Index
  | T_UniqueIndex | T_Asc | T_Desc | T_On | T_Delete | T_Reserve | T_Arr | T_LParen |
  T_RParen | T_LBrace | T_RBrace | T_LBracket | T_RBracket | T_Comma | T_Semi | T_Colon
  | T_Arrow | T_FatArrow | T_DotDot | T_DotDotEq | T_Eq | T_Amp | T_Caret | T_Shl |
  T_Shr | T_PipeBar | T_Dot | T_ColonColon | T_PipeArrow | T_DollarDollar | T_Plus |
  T_Minus | T_Star | T_Slash | T_Percent | T_EqEq | T_BangEq | T_Lt | T_Gt | T_LtEq |
  T_GtEq | T_AmpAmp | T_PipePipe | T_Bang | T_Backtick | T_Eof.
#[export] Instance Token_eq_dec : EqDecision Token.
Proof. solve_decision. Defined.

(** [struct Spanned]. *)
Record Spanned := mkSpanned { sp_token : Token; sp_span : Span }.

(** ** Character classes ([u8::is_ascii_*]) *)
Definition is_alpha (b : Z) : bool := in_range 65 90 b || in_range 97 122 b.
Definition is_alnum (b : Z) : bool := is_alpha b || is_digit b.
Definition ident_start (b : Z) : bool := is_alpha b || (b =? 95).
Definition ident_byte (b : Z) : bool := is_alnum b || (b =? 95).

(** ** The scanner *)

(** [struct Lexer]; [bytes] and [src] are one string. *)
Record Lexer := mkLexer { lx_src : bytes; lx_pos : Z }.
Abbreviation LX := (SM Lexer).

Definition lex_err (msg : string) (start end_ : Z) : Error := mkError Lex msg (mkSpan start end_).
Definition lex_fail {A} (msg : string) (start end_ : Z) : LX A := lift (Err (lex_err msg start end_)).

(** [self.bytes[self.pos..]]. *)
Definition lx_rest (l : Lexer) : bytes := drop (Z.to_nat (lx_pos l)) (lx_src l).
(** [&self.src[i..self.pos]]. *)
Definition lx_slice (i : Z) (l : Lexer) : bytes :=
  take (Z.to_nat (lx_pos l - i)) (drop (Z.to_nat i) (lx_src l)).

Definition peek_byte (l : Lexer) : option Z := get_z (lx_src l) (lx_pos l).
Definition peek_byte_at (off : Z) (l : Lexer) : option Z := get_z (lx_src l) (lx_pos l + off).

(** [self.pos += n]. *)
Definition bump (n : Z) (l : Lexer) : Lexer := mkLexer (lx_src l) (lx_pos l + n).
Definition advance (n : Z) : LX unit := modify (bump n).

Definition is_byte_at (o : option Z) (c : Z) : bool :=
  match o with Some b => b =? c | None => false end.
Definition byte_in (o : option Z) (p : Z → bool) : bool :=
  match o with Some b => p b | None => false end.

(** [while let Some(c) = self.peek_byte() { if p(c) { self.pos += 1 } else { break } }]. *)
Fixpoint count_while (p : Z → bool) (rest : bytes) : Z :=
  match rest with
  | c :: rest' => if p c then 1 + count_while p rest' else 0
  | [] => 0
  end.
Definition skip_while (p : Z → bool) (l : Lexer) : Lexer := bump (count_while p (lx_rest l)) l.

(** One turn of the loop: white space, then a comment if there is one; [false]
    when it ends. *)
Definition skip_trivia_step (l : Lexer) : Lexer * bool :=
  let l1 := skip_while is_ws l in
  if is_byte_at (peek_byte l1) 47 && is_byte_at (peek_byte_at 1 l1) 47
  then (skip_while (λ c, negb (c =? 10)) l1, true)
  else (l1, false).

Fixpoint skip_ws_and_comments (fuel : nat) (l : Lexer) : outcome Lexer :=
  match fuel with
  | O => OutOfFuel
  | S fuel' =>
      match skip_trivia_step l with
      | (l', true) => skip_ws_and_comments fuel' l'
      | (l', false) => Ok l'
      end
  end.

Definition two_or_one (second : Z) (both single : Token) : LX Token :=
  _ ← advance 1;
  o ← gets peek_byte;
  if is_byte_at o second then _ ← advance 1; mret both else mret single.

(** *** Strings *)
Definition escape_char (b : Z) : option Z :=
  if b =? 34 then Some 34 else if b =? 92 then Some 92 else if b =? 110 then Some 10
  else if b =? 116 then Some 9 else if b =? 114 then Some 13 else if b =? 48 then Some 0
  else None.

(** The loop of [lex_string]; a character is copied with all its bytes. *)
Fixpoint lex_chars (fuel : nat) (start : Z) (s : bytes) : LX Token :=
  match fuel with
  | O => lift OutOfFuel
  | S fuel' =>
      o ← gets peek_byte;
      pos ← gets lx_pos;
      match o with
      | None => lex_fail "unterminated string literal" start pos
      | Some b =>
          if b =? 34 then _ ← advance 1; mret (T_Str s)
          else if b =? 92 then
            _ ← advance 1;
            e ← gets peek_byte;
            pos' ← gets lx_pos;
            match e with
            | Some e =>
                match escape_char e with
                | Some c => _ ← advance 1; lex_chars fuel' start (s ++ [c])
                | None =>
                    lex_fail (String.append "unknown escape \" (text (default [] (encode_char e)))) start pos'
                end
            | None => lex_fail "string ended after backslash" start pos'
            end
          else
            r ← gets lx_rest;
            let ch := take (Z.to_nat (utf8_len b)) r in
            _ ← advance (zlen ch);
            lex_chars fuel' start (s ++ ch)
      end
  end.

Definition lex_string (start : Z) : LX Token :=
  _ ← advance 1;
  r ← gets lx_rest;
  lex_chars (S (length r)) start [].

(** *** Identifiers and keywords *)
Definition keywords : list (bytes * Token) :=
  [
   (str "fn", T_Fn); (str "let", T_Let); (str "if", T_If); (str "else", T_Else);
   (str "return", T_Return); (str "true", T_True); (str "false", T_False); (str "import",
   T_Import); (str "state", T_State); (str "entry", T_Entry); (str "struct", T_Struct);
   (str "group", T_Group); (str "module", T_Module); (str "pub", T_Pub); (str "emit",
   T_Emit); (str "nore", T_Nore); (str "modifier", T_Modifier); (str "enum", T_Enum);
   (str "match", T_Match); (str "const", T_Const); (str "cap", T_Cap); (str "view", T_View);
   (str "pure", T_Pure); (str "interface", T_Interface); (str "while", T_While);
   (str "parallel", T_Parallel); (str "for", T_For); (str "in", T_In); (str "break",
   T_Break); (str "continue", T_Continue); (str "set", T_Set); (str "dict", T_Dict);
   (str "index", T_Index); (str "unique_index", T_UniqueIndex); (str "ASC", T_Asc);
   (str "DESC", T_Desc); (str "on", T_On); (str "delete", T_Delete); (str "reserve",
   T_Reserve); (str "arr", T_Arr)
  ].

Definition keyword (s : bytes) : Token :=
  match list_find (λ p, p.1 = s) keywords with
  | Some (_, (_, t)) => t
  | None => T_Ident s
  end.

Definition lex_ident (start : Z) : LX Token :=
  _ ← modify (skip_while ident_byte);
  s ← gets (lx_slice start);
  mret (keyword s).

(** *** Numbers *)
Section lexer.
Context `{FloatText}.

Definition lit_err {A} (kind : string) (digits : bytes) (start end_ : Z) : LX A :=
  lex_fail (String.append "invalid " (String.append kind (String.append " literal '"
    (String.append (text digits) "'")))) start end_.

(** [digits.parse::<T>()] on a run of decimal digits: the value, if the width
    holds it. *)
Definition parse_width (inside : Z → bool) (mk : Z → Token) (kind : string)
    (digits : bytes) (start end_ : Z) : LX Token :=
  let n := digits_value digits in
  if inside n then mret (mk n) else lit_err kind digits start end_.

(** The part of [lex_int] after a point or an exponent was seen. *)
Definition lex_float (saw_dot : bool) (start : Z) : LX Token :=
  _ ← (if saw_dot then _ ← advance 1; modify (skip_while is_digit) else mret tt);
  e ← gets peek_byte;
  _ ← (if byte_in e is_exp then
         _ ← advance 1;
         s ← gets peek_byte;
         _ ← (if byte_in s is_sign then advance 1 else mret tt);
         exp_digits ← gets lx_pos;
         _ ← modify (skip_while is_digit);
         pos ← gets lx_pos;
         if pos =? exp_digits then lex_fail "expected digits in float exponent" start pos
         else mret tt
       else mret tt);
  txt ← gets (lx_slice start);
  pos ← gets lx_pos;
  match parse_f64 txt with
  | Some f => mret (T_Float f)
  | None =>
      lex_fail (String.append "invalid float literal '" (String.append (text txt) "'")) start pos
  end.

(** The match on the suffix. *)
Definition int_token (suffix digits : bytes) (start pos : Z) : LX Token :=
  if bool_decide (suffix = []) || bool_decide (suffix = str "i64")
  then parse_width (λ _, true) T_Int "int" digits start pos
  else if bool_decide (suffix = str "u") then parse_width (λ _, true) T_UInt "uint" digits start pos
  else if bool_decide (suffix = str "i32") then parse_width (in_i 32) T_I32 "i32" digits start pos
  else if bool_decide (suffix = str "u32") then parse_width (in_u 32) T_U32 "u32" digits start pos
  else if bool_decide (suffix = str "u64") then parse_width (in_u 64) T_U64 "u64" digits start pos
  else if bool_decide (suffix = str "u128") then parse_width (in_u 128) T_U128 "u128" digits start pos
  else lex_fail (String.append "unknown integer suffix '" (String.append (text suffix) "'")) start pos.

Definition lex_int (start : Z) : LX Token :=
  _ ← modify (skip_while is_digit);
  digits ← gets (lx_slice start);
  src ← gets lx_src;
  let prev_byte_is_dot := (0 <? start) && is_byte_at (get_z src (start - 1)) 46 in
  c ← gets peek_byte;
  c1 ← gets (peek_byte_at 1);
  let saw_dot := negb prev_byte_is_dot && is_byte_at c 46 && byte_in c1 is_digit in
  let saw_exp := negb prev_byte_is_dot && byte_in c is_exp in
  if saw_dot || saw_exp then lex_float saw_dot start else
  suffix_start ← gets lx_pos;
  _ ← modify (skip_while is_alnum);
  suffix ← gets (lx_slice suffix_start);
  pos ← gets lx_pos;
  int_token suffix digits start pos.

(** *** The dispatch on the first byte of a token *)

Definition one (t : Token) : LX Token := _ ← advance 1; mret t.

(** Two second bytes to choose from. *)
Definition one_of_three (b1 : Z) (t1 : Token) (b2 : Z) (t2 t : Token) : LX Token :=
  _ ← advance 1;
  o ← gets peek_byte;
  if is_byte_at o b1 then _ ← advance 1; mret t1
  else if is_byte_at o b2 then _ ← advance 1; mret t2
  else mret t.

Definition lex_dot : LX Token :=
  _ ← advance 1;
  o ← gets peek_byte;
  if is_byte_at o 46 then
    _ ← advance 1;
    o' ← gets peek_byte;
    if is_byte_at o' 61 then _ ← advance 1; mret T_DotDotEq else mret T_DotDot
  else mret T_Dot.

Definition lex_token (c start : Z) : LX Token :=
  if c =? 40 then one T_LParen
  else if c =? 41 then one T_RParen
  else if c =? 123 then one T_LBrace
  else if c =? 125 then one T_RBrace
  else if c =? 91 then one T_LBracket
  else if c =? 93 then one T_RBracket
  else if c =? 44 then one T_Comma
  else if c =? 59 then one T_Semi
  else if c =? 58 then two_or_one 58 T_ColonColon T_Colon
  else if c =? 46 then lex_dot
  else if c =? 43 then one T_Plus
  else if c =? 45 then two_or_one 62 T_Arrow T_Minus
  else if c =? 42 then one T_Star
  else if c =? 47 then one T_Slash
  else if c =? 37 then one T_Percent
  else if c =? 61 then one_of_three 61 T_EqEq 62 T_FatArrow T_Eq
  else if c =? 33 then two_or_one 61 T_BangEq T_Bang
  else if c =? 60 then one_of_three 61 T_LtEq 60 T_Shl T_Lt
  else if c =? 62 then one_of_three 61 T_GtEq 62 T_Shr T_Gt
  else if c =? 38 then two_or_one 38 T_AmpAmp T_Amp
  else if c =? 94 then one T_Caret
  else if c =? 96 then one T_Backtick
  else if c =? 124 then one_of_three 124 T_PipePipe 62 T_PipeArrow T_PipeBar
  else if c =? 36 then two_or_one 36 T_DollarDollar T_Dollar
  else if c =? 34 then lex_string start
  else if is_digit c then lex_int start
  else if ident_start c then lex_ident start
  else lex_fail (String.append "unexpected character " (debug_char c)) start (start + 1).

(** The loop of [tokenize]. *)
Fixpoint lex_all (fuel : nat) (out : list Spanned) (l : Lexer) : outcome (list Spanned) :=
  match fuel with
  | O => OutOfFuel
  | S fuel' =>
      l1 ← skip_ws_and_comments (S (length (lx_src l))) l;
      let start := lx_pos l1 in
      match peek_byte l1 with
      | None => Ok (out ++ [mkSpanned T_Eof (mkSpan start start)])
      | Some c =>
          match lex_token c start l1 with
          | (Ok t, l2) => lex_all fuel' (out ++ [mkSpanned t (mkSpan start (lx_pos l2))]) l2
          | (Err e, _) => Err e
          | (Panic, _) => Panic
          | (OutOfFuel, _) => OutOfFuel
          end
      end
  end.

Definition lexer_new (src : bytes) : Lexer := mkLexer src 0.

Definition tokenize (src : bytes) : outcome (list Spanned) :=
  lex_all (S (length src)) [] (lexer_new src).
End lexer.
