(* ===== verification/LexerFacts.v ===== *)
(** The lexer terminates, its tokens and the trivia between them tile the source,
    and it reads back every spelling of a token list. *)
From S2P Require Import Prelude Bytes Values JsonText JsonTextFacts Display Lexer.

(** * Tiling *)

(** White space and comments; a comment ends before a line feed or at the end. *)
Inductive trivia : bytes → Prop :=
  | trivia_nil : trivia []
  | trivia_ws b s : is_ws b = true → trivia s → trivia (b :: s)
  | trivia_comment body s : Forall (λ c, c ≠ 10) body → (s = [] ∨ head s = Some 10) →
      trivia s → trivia (47 :: 47 :: body ++ s).

(** [src[i..j]]. *)
Definition slice (src : bytes) (i j : Z) : bytes := take (Z.to_nat (j - i)) (drop (Z.to_nat i) src).

(** The tokens cover [src] from [pos] on: every token but the last spans a
    nonempty piece, what lies between two is trivia, and the last is [Eof] at the
    end. *)
Fixpoint tiles (src : bytes) (pos : Z) (l : list Spanned) : Prop :=
  match l with
  | [] => False
  | mkSpanned t (mkSpan i j) :: l' =>
      pos <= i ∧ i <= j <= zlen src ∧ trivia (slice src pos i) ∧
      match l' with
      | [] => t = T_Eof ∧ i = zlen src ∧ j = i
      | _ => i < j ∧ t ≠ T_Eof ∧ tiles src j l'
      end
  end.

(** An error of the lexer, located inside the source. *)
Definition lex_error_in (src : bytes) (e : Error) : Prop :=
  err_kind e = Lex ∧ 0 <= span_start (err_span e) ∧
  span_start (err_span e) <= span_end (err_span e) <= zlen src.

(** ** A logic of lexer steps: [m] run from [l] answers in a state that satisfies
    [P], or fails inside the source. *)
Definition runs {A} (m : LX A) (l : Lexer) (P : A → Lexer → Prop) : Prop :=
  match m l with
  | (Ok a, l') => P a l'
  | (Err e, _) => lex_error_in (lx_src l) e
  | _ => False
  end.

(** [l] scans [src] and stands between [lo] and the end. *)
Definition inb (src : bytes) (lo : Z) (l : Lexer) : Prop :=
  lx_src l = src ∧ 0 <= lo <= lx_pos l ∧ lx_pos l <= zlen src.

Section steps.
Context {A B : Type}.

Lemma lex_runs_ret (a : A) l (P : A → Lexer → Prop) : P a l → runs (mret a) l P.
Proof. done. Qed.
Lemma lex_runs_bind (m : LX A) (f : A → LX B) src lo l (P : B → Lexer → Prop) :
  inb src 0 l → runs m l (λ _, inb src lo) → (∀ a l', inb src lo l' → runs (f a) l' P) →
  runs (m ≫= f) l P.
Proof.
  unfold runs, mbind, SM_bind. intros (Hs & _) Hm Hf. destruct (m l) as [[a|e| |] l'] eqn:E; [|done..].
  specialize (Hf a l' Hm). destruct Hm as (Hs' & _). rewrite Hs, <- Hs'. exact Hf.
Qed.
Lemma runs_gets (g : Lexer → A) (f : A → LX B) l P : runs (f (g l)) l P → runs (gets g ≫= f) l P.
Proof. done. Qed.
Lemma runs_modify (g : Lexer → Lexer) (f : unit → LX B) l P :
  lx_src (g l) = lx_src l → runs (f tt) (g l) P → runs (modify g ≫= f) l P.
Proof. intros Hs. unfold runs, mbind, SM_bind, modify. by rewrite Hs. Qed.
Lemma runs_fail msg i j l P : 0 <= i <= j → j <= zlen (lx_src l) → runs (lex_fail (A:=A) msg i j) l P.
Proof. intros. unfold runs, lex_fail, lift. repeat split; cbn; lia. Qed.
End steps.

Lemma inb_peek src lo l c : inb src lo l → peek_byte l = Some c → lx_pos l < zlen src.
Proof.
  intros (Hs & Hlo & Hhi) Hp. unfold peek_byte, get_z in Hp. case_match; [done|].
  apply lookup_lt_Some in Hp. rewrite Hs in Hp. unfold zlen. lia.
Qed.
Lemma inb_bump src lo l c : inb src lo l → peek_byte l = Some c → inb src (lx_pos l + 1) (bump 1 l).
Proof. intros Hi Hp. pose proof (inb_peek _ _ _ _ Hi Hp). destruct Hi as (? & ? & ?). repeat split; cbn; try done; lia. Qed.
Lemma is_byte_at_peek o c : is_byte_at o c = true → o = Some c.
Proof. destruct o; cbn; [|done]. intros ->%Z.eqb_eq. done. Qed.
Lemma byte_in_peek o p : byte_in o p = true → ∃ c, o = Some c ∧ p c = true.
Proof. destruct o; cbn; eauto; done. Qed.

Lemma count_while_bound p rest : 0 <= count_while p rest <= zlen rest.
Proof. induction rest as [|c r IH]; cbn [count_while]; [done|]. rewrite zlen_cons. pose proof (zlen_nonneg r). case_match; lia. Qed.
Lemma zlen_rest l : 0 <= lx_pos l <= zlen (lx_src l) → zlen (lx_rest l) = zlen (lx_src l) - lx_pos l.
Proof. unfold lx_rest, zlen. rewrite length_drop. lia. Qed.
Lemma skip_while_inb src lo p l : inb src lo l → inb src (lx_pos l) (skip_while p l).
Proof.
  intros (<- & ? & ?). pose proof (count_while_bound p (lx_rest l)). rewrite zlen_rest in H1 by lia.
  unfold skip_while. repeat split; cbn; lia.
Qed.
Lemma skip_while_src p l : lx_src (skip_while p l) = lx_src l.
Proof. done. Qed.

Lemma inb_weaken src lo lo' l : inb src lo l → 0 <= lo' <= lo → inb src lo' l.
Proof. intros (? & ? & ?) ?. repeat split; [done|lia..]. Qed.
Lemma inb_src src lo l : inb src lo l → lx_src l = src.
Proof. by intros (? & _). Qed.

Section lexer_moves.
Context (src : bytes).

(** [m] only moves forward: from [lo] at least, whatever it answers. *)
Abbreviation from lo := (λ _, inb src lo).

Lemma runs_done {A} (a : A) lo l : inb src lo l → runs (mret a) l (from lo).
Proof. done. Qed.

(** [if peeked { self.pos += 1; k } else { k' }]. *)
Lemma lex_runs_advance {A} (f : unit → LX A) lo l c P :
  inb src lo l → peek_byte l = Some c → (inb src (lx_pos l + 1) (bump 1 l) → runs (f tt) (bump 1 l) P) →
  runs (advance 1 ≫= f) l P.
Proof. intros Hi Hp Hf. apply runs_modify; [done|]. apply Hf. by eapply inb_bump. Qed.

Lemma one_runs t l lo c : inb src lo l → peek_byte l = Some c → runs (one t) l (from (lx_pos l + 1)).
Proof. intros. eapply lex_runs_advance; [done..|]. intros. by apply runs_done. Qed.

Ltac peeked := match goal with H : is_byte_at _ _ = true |- _ => apply is_byte_at_peek in H end.
Ltac step_in := eapply lex_runs_advance; [eassumption..|]; intros.
Ltac fin := apply runs_done; eapply inb_weaken; [eassumption|]; cbn in *; lia.

Lemma two_or_one_runs b t1 t2 l lo c :
  inb src lo l → peek_byte l = Some c → runs (two_or_one b t1 t2) l (from (lx_pos l + 1)).
Proof.
  intros Hi Hp. unfold two_or_one. pose proof (proj2 Hi).
  step_in. apply runs_gets. case_match; [peeked; step_in|]; fin.
Qed.

Lemma one_of_three_runs b1 t1 b2 t2 t l lo c :
  inb src lo l → peek_byte l = Some c → runs (one_of_three b1 t1 b2 t2 t) l (from (lx_pos l + 1)).
Proof.
  intros Hi Hp. unfold one_of_three. pose proof (proj2 Hi).
  step_in. apply runs_gets. repeat (case_match; [peeked; step_in; fin|]). fin.
Qed.

Lemma lex_dot_runs l lo c : inb src lo l → peek_byte l = Some c → runs lex_dot l (from (lx_pos l + 1)).
Proof.
  intros Hi Hp. unfold lex_dot. pose proof (proj2 Hi).
  step_in. apply runs_gets. case_match; [|fin]. peeked. step_in. apply runs_gets.
  case_match; [peeked; step_in|]; fin.
Qed.

Lemma runs_skip {A} (f : unit → LX A) p lo l P :
  inb src lo l → (inb src (lx_pos l) (skip_while p l) → runs (f tt) (skip_while p l) P) →
  runs (modify (skip_while p) ≫= f) l P.
Proof. intros Hi Hf. apply runs_modify; [done|]. apply Hf. by eapply skip_while_inb. Qed.

Lemma skip_one l p lo c : inb src lo l → peek_byte l = Some c → p c = true → lx_pos l + 1 <= lx_pos (skip_while p l).
Proof.
  intros (Hs & ? & ?) Hp Hc. unfold skip_while, lx_rest. cbn. unfold peek_byte, get_z in Hp. case_match; [done|].
  apply drop_S in Hp. rewrite Hp. cbn [count_while]. rewrite Hc. pose proof (count_while_bound p (drop (S (Z.to_nat (lx_pos l))) (lx_src l))). lia.
Qed.

Lemma lex_ident_runs l lo c : inb src lo l → peek_byte l = Some c → ident_start c = true →
  runs (lex_ident lo) l (from (lx_pos l + 1)).
Proof.
  intros Hi Hp Hc. unfold lex_ident. eapply runs_skip; [done|]. intros Hi'. apply runs_gets.
  apply runs_done. split; [apply Hi'|]. pose proof (proj2 Hi). pose proof (proj2 Hi'). cbn in *.
  assert (ident_byte c = true) by (unfold ident_start, ident_byte, is_alnum in *; destruct (is_alpha c), (c =? 95), (is_digit c); done).
  pose proof (skip_one l ident_byte lo c Hi Hp H1). cbn in *. lia.
Qed.

Lemma utf8_len_pos b : 1 <= utf8_len b.
Proof. unfold utf8_len. repeat case_match; lia. Qed.

Lemma peek_rest l c : peek_byte l = Some c → ∃ r, lx_rest l = c :: r.
Proof.
  unfold peek_byte, get_z, lx_rest. case_match; [done|]. intros Hp. apply drop_S in Hp. eauto.
Qed.

(** A string ends, or fails, before its fuel does: every turn reads a byte. *)
Lemma lex_chars_runs fuel start s l lo :
  inb src lo l → 0 <= start <= lo → zlen src - lx_pos l < Z.of_nat fuel →
  runs (lex_chars fuel start s) l (from lo).
Proof.
  revert s l. induction fuel as [|fuel IH]; intros s l Hi Hst Hf.
  { pose proof (proj2 Hi). lia. }
  cbn [lex_chars]. apply runs_gets, runs_gets. pose proof (inb_src _ _ _ Hi) as Hsrc. pose proof (proj2 Hi).
  destruct (peek_byte l) as [b|] eqn:Hp; [|apply runs_fail; rewrite ?Hsrc; lia].
  case_match; [step_in; fin|]. case_match.
  - step_in. apply runs_gets, runs_gets. pose proof (proj2 H2). cbn in *.
    destruct (peek_byte (bump 1 l)) as [e|] eqn:He; [|apply runs_fail; cbn; rewrite ?Hsrc; lia].
    case_match; [|apply runs_fail; cbn; rewrite ?Hsrc; lia].
    step_in. apply IH; [eapply inb_weaken; [eassumption|cbn; lia]|lia|cbn; lia].
  - apply runs_gets. destruct (peek_rest l b Hp) as (r & Hr). pose proof (utf8_len_pos b).
    assert (Hlen : 1 <= zlen (take (Z.to_nat (utf8_len b)) (lx_rest l)) <= zlen (lx_rest l)).
    { unfold zlen. rewrite length_take, Hr. cbn [length]. lia. }
    rewrite zlen_rest in Hlen by (rewrite Hsrc; lia). rewrite Hsrc in Hlen.
    apply runs_modify; [done|]. apply IH; [|lia|cbn; lia]. repeat split; cbn; [done|lia..].
Qed.

Lemma lex_string_runs l c : inb src (lx_pos l) l → peek_byte l = Some c →
  runs (lex_string (lx_pos l)) l (from (lx_pos l + 1)).
Proof.
  intros Hi Hp. unfold lex_string. pose proof (proj2 Hi). step_in. apply runs_gets.
  pose proof (inb_src _ _ _ Hi). pose proof (proj2 H0). apply lex_chars_runs; [done|cbn in *; lia|].
  pose proof (zlen_rest (bump 1 l)) as Hz. unfold zlen in *. cbn in *. rewrite H1 in Hz. lia.
Qed.

(** *** Numbers *)
Section numbers.
Context `{FloatText}.

Lemma parse_width_runs inside mk kind digits start l lo :
  inb src lo l → 0 <= start <= lo → runs (parse_width inside mk kind digits start (lx_pos l)) l (from lo).
Proof.
  intros Hi ?. unfold parse_width, lit_err. pose proof (inb_src _ _ _ Hi) as Hs. destruct Hi as (? & ? & ?).
  case_match; [done|]. apply runs_fail; rewrite ?Hs; lia.
Qed.

Lemma lex_float_runs saw_dot start l lo :
  inb src lo l → 0 <= start <= lo → (saw_dot = true → is_Some (peek_byte l)) →
  runs (lex_float saw_dot start) l (from lo).
Proof.
  intros Hi Hst Hd. unfold lex_float.
  apply lex_runs_bind with src lo; [eapply inb_weaken; [done|lia]| |].
  { destruct saw_dot; [|done]. destruct (Hd eq_refl) as [c Hc]. step_in.
    pose proof (proj2 Hi). eapply inb_weaken; [by eapply skip_while_inb|cbn; lia]. }
  clear l Hi Hd. intros _ l Hi. apply runs_gets. pose proof (proj2 Hi).
  apply lex_runs_bind with src lo; [eapply inb_weaken; [done|lia]| |].
  { case_match; [|done]. apply byte_in_peek in H1 as (c & Hc & _). step_in. apply runs_gets.
    apply lex_runs_bind with src lo; [eapply inb_weaken; [eassumption|cbn in *; lia]| |].
    - case_match; [|apply runs_done; eapply inb_weaken; [eassumption|cbn; lia]].
      apply byte_in_peek in H2 as (c' & Hc' & _). eapply inb_weaken; [by eapply inb_bump|cbn; lia].
    - intros _ l' Hi'. apply runs_gets. eapply runs_skip; [done|]. intros Hi''. apply runs_gets.
      pose proof (proj2 Hi''). pose proof (inb_src _ _ _ Hi'') as Hs. pose proof (proj2 Hi').
      case_match; [apply runs_fail; rewrite ?Hs; lia|]. fin. }
  clear l Hi H0. intros _ l Hi. apply runs_gets, runs_gets. case_match; [done|].
  pose proof (inb_src _ _ _ Hi) as Hs. destruct Hi as (? & ? & ?). apply runs_fail; rewrite ?Hs; lia.
Qed.

Lemma lex_int_runs l lo c : inb src lo l → peek_byte l = Some c → is_digit c = true →
  lo = lx_pos l → runs (lex_int lo) l (from (lx_pos l + 1)).
Proof.
  intros Hi Hp Hc ->. unfold lex_int. pose proof (skip_one l is_digit _ c Hi Hp Hc) as Hone.
  pose proof (proj2 Hi). eapply runs_skip; [done|]. intros Hi1. do 4 apply runs_gets.
  assert (Hi2 : inb src (lx_pos l + 1) (skip_while is_digit l)).
  { split; [apply Hi1|]. pose proof (proj2 Hi1). lia. }
  case_match.
  - apply lex_float_runs; [done|lia|]. intros Hd.
    apply andb_true_iff in Hd as [Hd _]. apply andb_true_iff in Hd as [_ Hd].
    apply is_byte_at_peek in Hd. rewrite Hd. eauto.
  - apply runs_gets. eapply runs_skip; [done|]. intros Hi3. do 2 apply runs_gets.
    assert (Hi4 : inb src (lx_pos l + 1) (skip_while is_alnum (skip_while is_digit l))).
    { split; [apply Hi3|]. pose proof (proj2 Hi3). lia. }
    unfold int_token. repeat (case_match; [apply parse_width_runs; [done|lia]|]).
    pose proof (inb_src _ _ _ Hi4) as Hs. pose proof (proj2 Hi4). apply runs_fail; rewrite ?Hs; lia.
Qed.

(** Every token takes at least a byte. *)
Lemma lex_token_runs l c : inb src (lx_pos l) l → peek_byte l = Some c →
  runs (lex_token c (lx_pos l)) l (from (lx_pos l + 1)).
Proof.
  intros Hi Hp. unfold lex_token.
  repeat (case_match; [first [by eapply one_runs|by eapply two_or_one_runs|by eapply one_of_three_runs
    |by eapply lex_dot_runs|by eapply lex_string_runs|by eapply lex_int_runs|by eapply lex_ident_runs]|]).
  pose proof (inb_peek _ _ _ _ Hi Hp). pose proof (inb_src _ _ _ Hi) as Hs. pose proof (proj2 Hi).
  apply runs_fail; rewrite ?Hs; lia.
Qed.
End numbers.
End lexer_moves.

(** ** Trivia *)
Lemma count_while_split p rest : ∃ a r, rest = a ++ r ∧ count_while p rest = zlen a ∧
  Forall (λ c, p c = true) a ∧ (r = [] ∨ ∃ c r', r = c :: r' ∧ p c = false).
Proof.
  induction rest as [|c rest (a & r & -> & Hc & Ha & Hr)]; [exists [], []; eauto|].
  cbn [count_while]. destruct (p c) eqn:Hp.
  - exists (c :: a), r. rewrite zlen_cons, Hc. splits; eauto.
  - exists [], (c :: a ++ r). splits; eauto.
Qed.

Lemma trivia_ws_app a s : Forall (λ c, is_ws c = true) a → trivia s → trivia (a ++ s).
Proof. induction 1; cbn; [done|]. intros. constructor; auto. Qed.

Lemma bump_rest n l : 0 <= lx_pos l → 0 <= n → lx_rest (bump n l) = drop (Z.to_nat n) (lx_rest l).
Proof. intros. unfold lx_rest. cbn. rewrite drop_drop. f_equal. lia. Qed.

Lemma skip_while_split p l : 0 <= lx_pos l → ∃ a,
  lx_rest l = a ++ lx_rest (skip_while p l) ∧ lx_pos (skip_while p l) = lx_pos l + zlen a ∧
  Forall (λ c, p c = true) a ∧
  (lx_rest (skip_while p l) = [] ∨ ∃ c r, lx_rest (skip_while p l) = c :: r ∧ p c = false).
Proof.
  intros Hpos. destruct (count_while_split p (lx_rest l)) as (a & r & Hl & Hc & Ha & Hr).
  exists a. assert (Hrest : lx_rest (skip_while p l) = r).
  { unfold skip_while. rewrite bump_rest by (try done; rewrite Hc; apply zlen_nonneg).
    rewrite Hc, Hl. unfold zlen. by rewrite Nat2Z.id, drop_app_length. }
  rewrite Hrest. splits; [done| |done|done]. cbn. by rewrite Hc.
Qed.

Lemma peek_is_rest l : 0 <= lx_pos l → peek_byte l = head (lx_rest l).
Proof.
  intros. unfold peek_byte, get_z, lx_rest. case_match; [lia|].
  rewrite head_lookup, lookup_drop. f_equal. lia.
Qed.
Lemma peek_at_rest l : 0 <= lx_pos l → peek_byte_at 1 l = head (tail (lx_rest l)).
Proof.
  intros. unfold peek_byte_at, get_z, lx_rest. case_match; [lia|].
  rewrite <- (drop_0 (tail _)), head_lookup, lookup_drop, lookup_tail, lookup_drop. f_equal. lia.
Qed.

(** The trivia skipped, and that nothing of it is left out before a line feed. *)
Definition skipped (l l' : Lexer) : Prop := ∃ a,
  lx_rest l = a ++ lx_rest l' ∧ lx_pos l' = lx_pos l + zlen a ∧ trivia a ∧
  (head (lx_rest l) = Some 10 → head a = Some 10) ∧ (lx_rest l = [] → a = []).

Lemma skip_trivia_ok src fuel l lo : inb src lo l → zlen src - lx_pos l < Z.of_nat fuel →
  ∃ l', skip_ws_and_comments fuel l = Ok l' ∧ inb src (lx_pos l) l' ∧ skipped l l'.
Proof.
  revert l lo. induction fuel as [|fuel IH]; intros l lo Hi Hf; [pose proof (proj2 Hi); lia|].
  pose proof (proj2 Hi). cbn [skip_ws_and_comments]. unfold skip_trivia_step.
  destruct (skip_while_split is_ws l) as (a & Ha & Hpa & Hws & Hend); [lia|].
  pose proof (skip_while_inb _ _ is_ws _ Hi) as Hi1. pose proof (proj2 Hi1).
  assert (Hhead : head (lx_rest l) = Some 10 → head a = Some 10).
  { rewrite Ha. destruct a; [cbn|done]. intros Hh. destruct Hend as [E|(c & r & E & Hc)]; rewrite E in Hh; [done|].
    injection Hh as ->. done. }
  set (l1 := skip_while is_ws l) in *.
  destruct (is_byte_at (peek_byte l1) 47 && is_byte_at (peek_byte_at 1 l1) 47) eqn:Hpk; last first.
  { eexists. splits; [done|done|]. exists a. splits; [done|done| |done|].
    - rewrite <- (app_nil_r a). by apply trivia_ws_app; [|constructor].
    - intros E. rewrite E in Ha. symmetry in Ha. by apply app_nil in Ha as [-> _]. }
  apply andb_true_iff in Hpk as [H1%is_byte_at_peek H2%is_byte_at_peek].
  rewrite peek_is_rest in H1 by lia. rewrite peek_at_rest in H2 by lia.
  destruct (lx_rest l1) as [|c1 [|c2 body]] eqn:E1; [done..|]. injection H1 as ->. injection H2 as ->.
  destruct (skip_while_split (λ c, negb (c =? 10)) l1) as (b & Hb & Hpb & Hbody & Hbend); [lia|].
  pose proof (skip_while_inb _ _ (λ c, negb (c =? 10)) _ Hi1) as Hi2.
  set (l2 := skip_while (λ c, negb (c =? 10)) l1) in *.
  destruct b as [|? [|? b]]; rewrite E1 in Hb.
  1, 2: destruct Hbend as [E|(c & r & E & Hc)]; rewrite E in Hb; cbn in Hb; by simplify_eq.
  injection Hb as <- <- Hb.
  assert (Hf2 : zlen src - lx_pos l2 < Z.of_nat fuel).
  { rewrite !zlen_cons in Hpb. pose proof (zlen_nonneg b); pose proof (zlen_nonneg a); lia. }
  destruct (IH l2 _ Hi2 Hf2) as (l' & -> & Hi' & (t & Ht & Hpt & Htr & Hth & Htn)).
  pose proof (proj2 Hi2). exists l'. splits; [done|eapply inb_weaken; [done|lia]|].
  exists (a ++ 47 :: 47 :: b ++ t). splits.
  - rewrite Ha, Hb, Ht. cbn. rewrite <- !app_assoc. cbn. by rewrite <- !app_assoc.
  - rewrite Hpt, Hpb, Hpa, !zlen_app, !zlen_cons, zlen_app. lia.
  - apply trivia_ws_app; [done|]. apply trivia_comment; [| |done].
    + do 2 apply Forall_cons in Hbody as [_ Hbody]. eapply Forall_impl; [exact Hbody|]. cbn. intros c ? ->. done.
    + destruct Hbend as [E|(c & r & E & Hc)]; [left; auto|right]. apply Hth. rewrite E. cbn.
      apply negb_false_iff, Z.eqb_eq in Hc. by rewrite Hc.
  - intros Hh. specialize (Hhead Hh). destruct a; [done|]. exact Hhead.
  - intros E. rewrite E in Ha. symmetry in Ha. by apply app_nil in Ha as [_ ?].
Qed.

Lemma skipped_slice l l' : 0 <= lx_pos l → lx_src l' = lx_src l → skipped l l' →
  trivia (slice (lx_src l) (lx_pos l) (lx_pos l')).
Proof.
  intros ? Hs (a & Ha & Hp & Ht & _). unfold slice. unfold lx_rest in Ha. rewrite Ha, Hp.
  replace (lx_pos l + zlen a - lx_pos l) with (zlen a) by lia. unfold zlen. by rewrite Nat2Z.id, take_app_length.
Qed.

Section tokens.
Context `{FloatText}.

Lemma keyword_not_eof s : keyword s ≠ T_Eof.
Proof.
  unfold keyword. destruct (list_find _ _) as [[i [k t]]|] eqn:E; [|done]. cbn.
  apply list_find_Some in E as (E & _ & _). apply list_elem_of_lookup_2 in E.
  assert (Forall (λ p, p.2 ≠ T_Eof) keywords) as Hk by (repeat constructor; done).
  rewrite Forall_forall in Hk. exact (Hk _ E).
Qed.

(** No token but the last is [Eof]. *)
Definition no_eof (m : LX Token) : Prop := ∀ l t l', m l = (Ok t, l') → t ≠ T_Eof.

Lemma no_eof_bind {A} (m : LX A) f : (∀ a, no_eof (f a)) → no_eof (m ≫= f).
Proof.
  intros Hf l t l'. unfold mbind, SM_bind. destruct (m l) as [[a|e| |] l1] eqn:E; [apply Hf|done..].
Qed.
Lemma no_eof_ret t : t ≠ T_Eof → no_eof (mret t).
Proof. intros ? l t' l' [= <- _]. done. Qed.
Lemma no_eof_fail msg i j : no_eof (lex_fail msg i j).
Proof. intros l t l' [=]. Qed.

Ltac eofs := repeat first
  [ apply no_eof_fail | apply no_eof_ret; first [done | apply keyword_not_eof]
  | apply no_eof_bind; intros ? | case_match ].

Lemma lex_chars_no_eof fuel start s : no_eof (lex_chars fuel start s).
Proof.
  revert s. induction fuel as [|fuel IH]; intros s; [intros l t l' [=]|]. cbn [lex_chars].
  repeat first [apply IH | apply no_eof_fail | apply no_eof_ret; done | apply no_eof_bind; intros ? | case_match].
Qed.

Lemma lex_int_no_eof start : no_eof (lex_int start).
Proof. unfold lex_int, int_token, lex_float, parse_width, lit_err. eofs. Qed.

Lemma lex_token_no_eof c start : no_eof (lex_token c start).
Proof.
  unfold lex_token.
  repeat (case_match; [first
    [ by unfold one, two_or_one, one_of_three, lex_dot; eofs
    | unfold lex_string; apply no_eof_bind; intros ?; apply no_eof_bind; intros ?; apply lex_chars_no_eof
    | apply lex_int_no_eof | unfold lex_ident; eofs]|]).
  apply no_eof_fail.
Qed.

(** The loop, by the distance to the end. *)
Lemma lex_all_ok src fuel out l : inb src (lx_pos l) l → zlen src - lx_pos l < Z.of_nat fuel →
  (∃ ts, lex_all fuel out l = Ok (out ++ ts) ∧ tiles src (lx_pos l) ts) ∨
  (∃ e, lex_all fuel out l = Err e ∧ lex_error_in src e).
Proof.
  revert out l. induction fuel as [|fuel IH]; intros out l Hi Hf; [pose proof (proj2 Hi); lia|].
  cbn [lex_all]. pose proof (inb_src _ _ _ Hi) as Hs. pose proof (proj2 Hi).
  destruct (skip_trivia_ok src (S (length (lx_src l))) l (lx_pos l) Hi) as (l1 & E1 & Hi1 & Hsk).
  { rewrite Hs. unfold zlen. lia. }
  rewrite E1. cbn. pose proof (inb_src _ _ _ Hi1) as Hs1. pose proof (proj2 Hi1).
  apply skipped_slice in Hsk; [|lia|congruence]. rewrite Hs in Hsk.
  destruct (peek_byte l1) as [c|] eqn:Hc.
  2:{ left. eexists. split; [done|]. cbn.
      assert (lx_pos l1 = zlen src).
      { unfold peek_byte, get_z in Hc. case_match; [lia|]. apply lookup_ge_None in Hc.
        rewrite Hs1 in Hc. unfold zlen in *. lia. }
      splits; [lia..|done|done|done|done]. }
  assert (Hi1' : inb src (lx_pos l1) l1) by (split; [done|lia]).
  pose proof (lex_token_runs src l1 c Hi1' Hc) as Hr. unfold runs in Hr.
  destruct (lex_token c (lx_pos l1) l1) as [[t|e| |] l2] eqn:E2; [|right; eexists; rewrite Hs1 in Hr; done|done..].
  pose proof (lex_token_no_eof _ _ _ _ _ E2) as Ht. pose proof (proj2 Hr).
  assert (Hi2 : inb src (lx_pos l2) l2) by (split; [apply Hr|lia]).
  destruct (IH (out ++ [mkSpanned t (mkSpan (lx_pos l1) (lx_pos l2))]) l2 Hi2)
    as [(ts & -> & Hts)|(e & -> & He)]; [lia| |right; eauto].
  left. eexists. rewrite <- app_assoc. split; [done|]. cbn [tiles app].
  splits; [lia..|done|]. destruct ts; [done|]. splits; [lia|done|done].
Qed.
End tokens.

Lemma tokenize_ok `{FloatText} (src : bytes) :
  (∃ l, tokenize src = Ok l ∧ tiles src 0 l) ∨
  (∃ e, tokenize src = Err e ∧ lex_error_in src e).
Proof.
  unfold tokenize, lexer_new. pose proof (zlen_nonneg src).
  apply (lex_all_ok src (S (length src)) [] (mkLexer src 0)); [repeat split; cbn; lia|unfold zlen; cbn; lia].
Qed.

(** C31: [tokenize] answers on every source.  Either the tokens and the white
    space and comments between them cover the source from its first byte to its
    last, in order and without overlap, every token taking at least a byte and
    only the last being [Eof]; or the error is a lexical one whose span lies in
    the source. *)
Theorem tokenize_tiles `{FloatText} (src : bytes) :
  (∃ l, tokenize src = Ok l ∧ tiles src 0 l) ∨
  (∃ e, tokenize src = Err e ∧ lex_error_in src e).
Proof. apply tokenize_ok. Qed.
