(* ===== verification/LexerSpell.v ===== *)
(** Spellings of tokens, and the round trip: the lexer reads back every list of
    tokens from their spellings separated by white space. *)
From S2P Require Import Prelude Bytes Values JsonText JsonTextFacts Display Lexer LexerFacts.

(** ** Spellings *)
Definition escape_byte (b : Z) : bytes :=
  if b =? 34 then [92; 34] else if b =? 92 then [92; 92] else if b =? 10 then [92; 110]
  else if b =? 9 then [92; 116] else if b =? 13 then [92; 114] else if b =? 0 then [92; 48]
  else [b].

Definition punctuation : list (Token * bytes) := Eval compute in
  [(T_LParen, str "("); (T_RParen, str ")"); (T_LBrace, str "{"); (T_RBrace, str "}");
   (T_LBracket, str "["); (T_RBracket, str "]"); (T_Comma, str ","); (T_Semi, str ";");
   (T_Colon, str ":"); (T_Arrow, str "->"); (T_FatArrow, str "=>"); (T_DotDot, str "..");
   (T_DotDotEq, str "..="); (T_Eq, str "="); (T_Amp, str "&"); (T_Caret, str "^");
   (T_Shl, str "<<"); (T_Shr, str ">>"); (T_PipeBar, str "|"); (T_Dot, str ".");
   (T_ColonColon, str "::"); (T_PipeArrow, str "|>"); (T_DollarDollar, str "$$");
   (T_Dollar, str "$"); (T_Plus, str "+"); (T_Minus, str "-"); (T_Star, str "*");
   (T_Slash, str "/"); (T_Percent, str "%"); (T_EqEq, str "=="); (T_BangEq, str "!=");
   (T_Lt, str "<"); (T_Gt, str ">"); (T_LtEq, str "<="); (T_GtEq, str ">=");
   (T_AmpAmp, str "&&"); (T_PipePipe, str "||"); (T_Bang, str "!"); (T_Backtick, str "`")].

Definition fixed_spelling (t : Token) : bytes :=
  match list_find (λ p, p.1 = t) punctuation with
  | Some (_, (_, s)) => s
  | None =>
      match list_find (λ p, p.2 = t) keywords with
      | Some (_, (s, _)) => s
      | None => []
      end
  end.

Definition spell `{FloatText} (t : Token) : bytes :=
  match t with
  | T_Int n => dec n
  | T_UInt n => dec n ++ str "u"
  | T_Float x => with_point (format_f64 x)
  | T_I32 n => dec n ++ str "i32"
  | T_U32 n => dec n ++ str "u32"
  | T_U64 n => dec n ++ str "u64"
  | T_U128 n => dec n ++ str "u128"
  | T_Str s => 34 :: concat (escape_byte <$> s) ++ [34]
  | T_Ident s => s
  | t => fixed_spelling t
  end.

(** The tokens a source can hold: literals in range and without sign, valid
    UTF-8, names that are no keywords; not [Eof]. *)
Definition lexable `{FloatText} (t : Token) : bool :=
  match t with
  | T_Int n | T_UInt n => 0 <=? n
  | T_I32 n => (0 <=? n) && in_i 32 n
  | T_U32 n => in_u 32 n
  | T_U64 n => in_u 64 n
  | T_U128 n => in_u 128 n
  | T_Float x => in_u 64 x && is_finite x && negb (bool_decide (head (format_f64 x) = Some 45))
  | T_Str s => utf8_valid s
  | T_Ident s =>
      byte_in (head s) ident_start && forallb ident_byte s && bool_decide (keyword s = T_Ident s)
  | T_Eof => false
  | _ => true
  end.

(** A source: every token after some white space. *)
Definition render `{FloatText} (l : list (bytes * Token)) : bytes :=
  concat ((λ p, p.1 ++ spell p.2) <$> l).

(** ** Scanner states as a text read and a text to read *)
Definition at_ (pre rest : bytes) : Lexer := mkLexer (pre ++ rest) (zlen pre).

Section states.
Context (pre : bytes).

Lemma rest_at rest : lx_rest (at_ pre rest) = rest.
Proof. unfold lx_rest, at_, zlen. cbn. by rewrite Nat2Z.id, drop_app_length. Qed.
Lemma peek_at rest : peek_byte (at_ pre rest) = head rest.
Proof. rewrite peek_is_rest by (cbn; apply zlen_nonneg). by rewrite rest_at. Qed.
Lemma peek1_at rest : peek_byte_at 1 (at_ pre rest) = head (tail rest).
Proof. rewrite peek_at_rest by (cbn; apply zlen_nonneg). by rewrite rest_at. Qed.
Lemma bump_at a rest : bump (zlen a) (at_ pre (a ++ rest)) = at_ (pre ++ a) rest.
Proof. unfold bump, at_. cbn. by rewrite zlen_app, <- app_assoc. Qed.
Lemma bump1_at c rest : bump 1 (at_ pre (c :: rest)) = at_ (pre ++ [c]) rest.
Proof. exact (bump_at [c] rest). Qed.

(** [rest] does not go on with a byte of the class. *)
Definition ends_class (p : Z → bool) (rest : bytes) : Prop := byte_in (head rest) p = false.

Lemma count_while_app p a rest : forallb p a = true → ends_class p rest → count_while p (a ++ rest) = zlen a.
Proof.
  intros Ha Hr. induction a as [|c a IH]; cbn [app count_while].
  - destruct rest; [done|]. cbn in *. by rewrite Hr.
  - apply andb_true_iff in Ha as [Hc Ha]. by rewrite Hc, zlen_cons, IH.
Qed.
Lemma skip_at p a rest : forallb p a = true → ends_class p rest →
  skip_while p (at_ pre (a ++ rest)) = at_ (pre ++ a) rest.
Proof. intros. unfold skip_while. rewrite rest_at, count_while_app by done. apply bump_at. Qed.
Lemma slice_at a rest : lx_slice (zlen pre) (at_ (pre ++ a) rest) = a.
Proof.
  unfold lx_slice, at_. cbn. rewrite zlen_app, <- app_assoc. unfold zlen. rewrite Nat2Z.id, drop_app_length.
  replace (Z.of_nat (length pre) + Z.of_nat (length a) - Z.of_nat (length pre)) with (Z.of_nat (length a)) by lia.
  by rewrite Nat2Z.id, take_app_length.
Qed.
End states.

(** What follows a token: white space or the end. *)
Definition brk (rest : bytes) : Prop := rest = [] ∨ ∃ w r, rest = w :: r ∧ is_ws w = true.

Lemma brk_ends p rest : (∀ w, is_ws w = true → p w = false) → brk rest → ends_class p rest.
Proof. intros Hp [->|(w & r & -> & Hw)]; [done|]. by apply Hp. Qed.
Lemma ws_cases w : is_ws w = true → w = 32 ∨ w = 9 ∨ w = 10 ∨ w = 13.
Proof. unfold is_ws. lia. Qed.
Lemma brk_class p rest : brk rest → p 32 = false → p 9 = false → p 10 = false → p 13 = false → ends_class p rest.
Proof. intros Hb ????. eapply brk_ends; [|done]. by intros w [->|[->|[->| ->]]]%ws_cases. Qed.
Lemma brk_byte rest c : brk rest → is_ws c = false → is_byte_at (head rest) c = false.
Proof. intros [->|(w & r & -> & Hw)] Hc; [done|]. cbn. apply Z.eqb_neq. by intros ->; rewrite Hw in Hc. Qed.

Section spelled.
Context `{TextLaws : FloatTextLaws}.

(** Lexing [s] as [t], whatever was read before. *)
Definition reads (s : bytes) (t : Token) : Prop := ∀ pre w rest, is_ws w = true → brk rest →
  ∃ c, head s = Some c ∧ lex_token c (zlen (pre ++ [w])) (at_ (pre ++ [w]) (s ++ rest)) =
    (Ok t, at_ ((pre ++ [w]) ++ s) rest).

#[local] Arguments at_ : simpl never.
#[local] Arguments zlen : simpl never.
#[local] Arguments peek_byte : simpl never.
#[local] Arguments bump : simpl never.
#[local] Arguments is_byte_at !_ _ /.

Ltac monad := unfold mbind, SM_bind, advance, modify, gets, mret, SM_ret.
Ltac punct_step Hb := repeat first
  [ rewrite bump1_at | rewrite peek_at | rewrite (brk_byte _ _ Hb) by done | progress (cbn [app head is_byte_at Z.eqb Pos.eqb]; cbv beta iota) | rewrite <- app_assoc ].

Lemma reads_punctuation : Forall (λ p, reads p.2 p.1) punctuation.
Proof.
  unfold punctuation.
  repeat (apply Forall_cons; split; [|]); [..|done].
  all: intros pre w rest Hw Hb; eexists; split; [done|]; generalize (pre ++ [w]); clear pre; intros pre.
  all: unfold lex_token; cbn; unfold one, two_or_one, one_of_three, lex_dot; monad; punct_step Hb; try done.
  all: rewrite <- ?app_assoc; try done.
Qed.

(** *** Words *)
Lemma lex_token_ident c start : ident_start c = true → lex_token c start = lex_ident start.
Proof.
  unfold ident_start, is_alpha, in_range. intros Hc. unfold lex_token.
  repeat (case_match; [exfalso; unfold is_digit in *; lia|]). case_match; [done|].
  unfold ident_start, is_alpha, in_range in *. congruence.
Qed.

Lemma reads_word s t : byte_in (head s) ident_start = true → forallb ident_byte s = true →
  keyword s = t → reads s t.
Proof.
  intros Hh Hs Ht pre w rest Hw Hb. destruct s as [|c s]; [done|]. exists c. split; [done|].
  cbn in Hh. rewrite lex_token_ident by done. unfold lex_ident. monad.
  rewrite skip_at by (try done; by apply brk_class). rewrite slice_at. by rewrite Ht.
Qed.

Lemma reads_keywords : Forall (λ p, reads p.1 p.2) keywords.
Proof.
  apply Forall_impl with (λ p, byte_in (head p.1) ident_start && forallb ident_byte p.1 &&
    bool_decide (keyword p.1 = p.2) = true).
  - repeat (apply Forall_cons; split; [by vm_compute|]). done.
  - intros [s t] H0. cbn in *. apply andb_true_iff in H0 as [[? ?]%andb_true_iff ?%bool_decide_eq_true].
    by apply reads_word.
Qed.

Lemma reads_fixed t : fixed_spelling t ≠ [] → reads (fixed_spelling t) t.
Proof.
  unfold fixed_spelling. intros Hne.
  destruct (list_find (λ p : Token * bytes, p.1 = t) punctuation) as [[i [t' s]]|] eqn:E1.
  { apply list_find_Some in E1 as (E & Et & _). cbn in Et. subst t'. apply list_elem_of_lookup_2 in E.
    pose proof reads_punctuation as Hp. rewrite Forall_forall in Hp. exact (Hp _ E). }
  destruct (list_find (λ p : bytes * Token, p.2 = t) keywords) as [[i [s t']]|] eqn:E2; [|done].
  apply list_find_Some in E2 as (E & Et & _). cbn in Et. subst t'. apply list_elem_of_lookup_2 in E.
  pose proof reads_keywords as Hp. rewrite Forall_forall in Hp. exact (Hp _ E).
Qed.

(** *** Numbers *)
Lemma lex_token_digit c start : is_digit c = true → lex_token c start = lex_int start.
Proof.
  unfold is_digit. intros Hc. unfold lex_token.
  repeat (case_match; [exfalso; unfold is_digit in *; lia|]). unfold is_digit. by rewrite Hc.
Qed.

Lemma prev_not_dot pre w a rest : is_ws w = true →
  (0 <? zlen (pre ++ [w])) && is_byte_at (get_z (lx_src (at_ ((pre ++ [w]) ++ a) rest)) (zlen (pre ++ [w]) - 1)) 46 = false.
Proof.
  intros Hw. unfold at_. cbn [lx_src]. rewrite zlen_app. change (zlen [w]) with 1. unfold zlen.
  replace (Z.of_nat (length pre) + 1 - 1) with (Z.of_nat (length pre)) by lia.
  rewrite get_z_nat, <- !app_assoc. cbn [app]. rewrite list_lookup_middle by done. cbn.
  apply ws_cases in Hw as [->|[->|[->| ->]]]; apply andb_false_r.
Qed.

(** An integer literal: digits and a suffix that its first letter does not make a
    float. *)
Lemma lex_int_spelled ds suffix pre w rest m : is_ws w = true → brk rest →
  ds ≠ [] → forallb is_digit ds = true → forallb is_alnum suffix = true →
  ends_class (λ b, is_digit b || is_exp b || (b =? 46)) (suffix ++ rest) →
  (∀ start end_ l, int_token suffix ds start end_ l = (Ok m, l)) →
  ∃ c, head (ds ++ suffix) = Some c ∧
    lex_token c (zlen (pre ++ [w])) (at_ (pre ++ [w]) ((ds ++ suffix) ++ rest)) =
      (Ok m, at_ ((pre ++ [w]) ++ (ds ++ suffix)) rest).
Proof.
  intros Hw Hb Hne Hds Hsuf Hend Hm. destruct ds as [|d ds]; [done|]. exists d. split; [done|].
  pose proof (proj1 (andb_prop _ _ Hds)) as Hd. rewrite lex_token_digit by done. unfold lex_int. monad.
  rewrite <- (app_assoc (d :: ds)). rewrite skip_at; [|done|].
  2:{ destruct (suffix ++ rest); [done|]. unfold ends_class in *. cbn in *. by repeat apply orb_false_iff in Hend as [Hend _]. }
  rewrite slice_at, prev_not_dot, !peek_at by done. cbn [negb andb].
  assert (is_byte_at (head (suffix ++ rest)) 46 = false ∧ byte_in (head (suffix ++ rest)) is_exp = false) as [-> ->].
  { destruct (suffix ++ rest); [done|]. unfold ends_class in Hend. cbn in *. apply orb_false_iff in Hend as [Hend ?].
    by apply orb_false_iff in Hend as [? ?]. }
  cbn [andb orb]. rewrite skip_at; [|done|by apply brk_class].
  assert (Hsl : lx_slice (lx_pos (at_ ((pre ++ [w]) ++ d :: ds) (suffix ++ rest)))
    (at_ (((pre ++ [w]) ++ d :: ds) ++ suffix) rest) = suffix) by apply slice_at.
  rewrite Hsl, Hm. by rewrite <- (app_assoc _ (d :: ds)).
Qed.

Lemma reads_int n suffix m : 0 <= n →
  (∀ ds start end_ l, digits_value ds = n → int_token suffix ds start end_ l = (Ok m, l)) →
  forallb is_alnum suffix = true → (∀ rest, brk rest → ends_class (λ b, is_digit b || is_exp b || (b =? 46)) (suffix ++ rest)) →
  reads (dec n ++ suffix) m.
Proof.
  intros Hn Hm Hs He pre w rest Hw Hb. unfold dec. replace (n <? 0) with false by lia.
  destruct (dec_nat_ok n Hn) as (Hd & Hv & Hne).
  apply lex_int_spelled; [done|done|done|done|done|by apply He|]. intros. by apply Hm.
Qed.

(** *** Floats *)
Lemma reads_float x : in_u 64 x = true → is_finite x = true → head (format_f64 x) ≠ Some 45 →
  reads (with_point (format_f64 x)) (T_Float x).
Proof.
  intros Hx Hf Hneg. assert (Hh : head (with_point (format_f64 x)) ≠ Some 45).
  { unfold with_point. case_match; [done|]. by destruct (format_f64 x). }
  destruct (float_text x Hx Hf) as (neg & i & f & E & Hi & Hfne & Hid & Hfd & Hp). rewrite E in *.
  destruct neg; [done|]. unfold signed in *. cbn [app] in *. clear E Hh Hneg Hx Hf.
  intros pre w rest Hw Hb. destruct i as [|d i]; [done|]. exists d. split; [done|].
  pose proof (proj1 (andb_prop _ _ Hid)) as Hd. rewrite lex_token_digit by done. unfold lex_int. monad.
  rewrite <- (app_assoc (d :: i)). rewrite skip_at; [|done|done].
  rewrite prev_not_dot, !peek_at, peek1_at by done. cbn [negb andb app head tail is_byte_at].
  destruct f as [|d1 f]; [done|]. pose proof (proj1 (andb_prop _ _ Hfd)) as Hd1.
  cbn [app head byte_in]. rewrite Hd1. cbn [Z.eqb Pos.eqb orb andb].
  unfold lex_float. monad. rewrite bump1_at. change (d1 :: f ++ rest) with ((d1 :: f) ++ rest).
  rewrite skip_at; [|done|by apply brk_class]. rewrite peek_at.
  assert (byte_in (head rest) is_exp = false) as -> by (by apply brk_class).
  assert (Hsl : lx_slice (zlen (pre ++ [w])) (at_ ((((pre ++ [w]) ++ d :: i) ++ [46]) ++ d1 :: f) rest)
    = (d :: i) ++ 46 :: d1 :: f) by (rewrite <- !(app_assoc (pre ++ [w])); rewrite slice_at, <- app_assoc; done).
  rewrite Hsl, Hp, <- !app_assoc. done.
Qed.

(** *** Strings *)

(** A valid string starts with an ASCII byte or with a whole longer character. *)
Lemma utf8_first b s : utf8_valid (b :: s) = true →
  (0 <= b < 128 ∧ utf8_valid s = true) ∨
  (∃ ch s', b :: s = ch ++ s' ∧ zlen ch = utf8_len b ∧ Forall (λ c, 128 <= c) ch ∧ utf8_valid s' = true).
Proof.
  intros Hu. cbn [utf8_valid] in Hu. destruct (in_range 0 127 b) eqn:E0.
  { left. split; [unfold in_range in E0; lia|done]. }
  right. assert (Hlo : ∀ c lo hi, 128 <= lo → in_range lo hi c = true → 128 <= c) by (unfold in_range; lia).
  assert (Hco : ∀ c, utf8_cont c = true → 128 <= c) by (unfold utf8_cont; lia).
  assert (Hlen : ∀ n, (n = 2 ∧ in_range 194 223 b = true ∨ n = 3 ∧ in_range 224 239 b = true ∨
    n = 4 ∧ in_range 240 244 b = true) → n = utf8_len b).
  { unfold utf8_len, in_range. intros n Hn. repeat case_match; lia. }
  assert (Hb : 128 <= b).
  { destruct s as [|b1 s]; [done|]. destruct (in_range 194 223 b) eqn:E2; [by apply (Hlo b 194 223)|].
    destruct s as [|b2 s]; [done|]. destruct (in_range 224 239 b) eqn:E3; [by apply (Hlo b 224 239)|].
    destruct s as [|b3 s]; [done|]. destruct (in_range 240 244 b) eqn:E4; [by apply (Hlo b 240 244)|done]. }
  destruct s as [|b1 s]; [done|]. destruct (in_range 194 223 b) eqn:E2.
  { apply andb_prop in Hu as [H1 Hu]. exists [b; b1], s. splits; [done|apply Hlen; auto|repeat constructor; eauto|done]. }
  destruct s as [|b2 s]; [done|]. destruct (in_range 224 239 b) eqn:E3.
  { apply andb_prop in Hu as [Hu Hs]. apply andb_prop in Hu as [H1 H2].
    assert (128 <= b1) by (repeat case_match; [by eapply (Hlo b1); [|exact H1]|by eapply (Hlo b1); [|exact H1]|by apply Hco]).
    exists [b; b1; b2], s. splits; [done|apply Hlen; auto|repeat constructor; eauto|done]. }
  destruct s as [|b3 s]; [done|].
  apply andb_prop in Hu as [Hu Hs]. apply andb_prop in Hu as [Hu H3].
  apply andb_prop in Hu as [Hu H2]. apply andb_prop in Hu as [E4 H1].
  assert (128 <= b1) by (repeat case_match; [by eapply (Hlo b1); [|exact H1]|by eapply (Hlo b1); [|exact H1]|by apply Hco]).
  exists [b; b1; b2; b3], s. splits; [done|apply Hlen; auto|repeat constructor; eauto|done].
Qed.

Lemma escape_byte_high ch : Forall (λ c, 128 <= c) ch → concat (escape_byte <$> ch) = ch.
Proof.
  induction 1 as [|c ch Hc _ IH]; [done|]. cbn. rewrite IH. unfold escape_byte. repeat case_match; lia || done.
Qed.

Lemma escape_byte_cases b :
  (∃ e, escape_byte b = [92; e] ∧ escape_char e = Some b) ∨ (escape_byte b = [b] ∧ b ≠ 34 ∧ b ≠ 92).
Proof.
  unfold escape_byte.
  repeat (case_match; [match goal with H : (_ =? _) = true |- _ => apply Z.eqb_eq in H; subst b end;
    left; eexists; by split|]).
  right. splits; [done|lia..].
Qed.

Lemma lex_chars_step fuel start b out rest pre : 0 <= b < 128 →
  lex_chars (S fuel) start out (at_ pre (escape_byte b ++ rest)) =
  lex_chars fuel start (out ++ [b]) (at_ (pre ++ escape_byte b) rest).
Proof.
  intros Hb. cbn [lex_chars]. monad. rewrite !peek_at.
  destruct (escape_byte_cases b) as [(e & -> & He)|(-> & H1 & H2)]; cbn [app head Z.eqb Pos.eqb].
  - rewrite bump1_at, !peek_at. cbn [head]. rewrite He. by rewrite bump1_at, <- app_assoc.
  - replace (b =? 34) with false by lia. replace (b =? 92) with false by lia. rewrite rest_at.
    assert (utf8_len b = 1) as -> by (unfold utf8_len; repeat case_match; lia).
    change (take (Z.to_nat 1) (b :: rest)) with [b]. change (zlen [b]) with 1. by rewrite bump1_at.
Qed.

Lemma lex_chars_ok fuel s start out rest pre : utf8_valid s = true →
  (length s < fuel)%nat →
  lex_chars fuel start out (at_ pre (concat (escape_byte <$> s) ++ 34 :: rest)) =
  (Ok (T_Str (out ++ s)), at_ (pre ++ concat (escape_byte <$> s) ++ [34]) rest).
Proof.
  revert s out pre. induction fuel as [|fuel IH]; intros s out pre Hu Hf; [lia|].
  destruct s as [|b s].
  { cbn [lex_chars]. monad. cbn [fmap list_fmap concat app]. rewrite !peek_at. cbn [head Z.eqb Pos.eqb].
    by rewrite bump1_at, app_nil_r. }
  cbn [length] in Hf. destruct (utf8_first b s Hu) as [[Hb Hs]|(ch & s' & E & Hl & Hch & Hs')].
  - cbn [fmap list_fmap concat]. rewrite <- app_assoc, lex_chars_step by done.
    rewrite IH by (done || lia). by rewrite <- !app_assoc.
  - assert (Hlen : (length s' < fuel)%nat).
    { pose proof (utf8_len_pos b). apply (f_equal length) in E. rewrite length_app in E. unfold zlen in Hl. cbn in E. lia. }
    rewrite E, fmap_app, concat_app, escape_byte_high, <- app_assoc by done.
    destruct ch as [|c ch]; [pose proof (utf8_len_pos b); rewrite zlen_nil in Hl; lia|]. injection E as <- E.
    apply Forall_cons in Hch as [Hb Hch].
    cbn [lex_chars]. monad. rewrite !peek_at. cbn [app head]. replace (b =? 34) with false by lia.
    replace (b =? 92) with false by lia. rewrite rest_at, <- Hl.
    change (b :: ch ++ ?r) with ((b :: ch) ++ r).
    assert (Htake : ∀ r, take (Z.to_nat (zlen (b :: ch))) ((b :: ch) ++ r) = b :: ch).
    { intros r. unfold zlen. rewrite Nat2Z.id. apply take_app_length. }
    rewrite Htake, bump_at, IH by done. rewrite <- !app_assoc. done.
Qed.

Lemma reads_string s : utf8_valid s = true → reads (34 :: concat (escape_byte <$> s) ++ [34]) (T_Str s).
Proof.
  intros Hu pre w rest Hw Hb. exists 34. split; [done|]. generalize (pre ++ [w]). clear pre. intros pre.
  unfold lex_token, lex_string. cbn [Z.eqb Pos.eqb]. monad. cbn [app]. rewrite bump1_at, rest_at, <- app_assoc. cbn [app].
  rewrite lex_chars_ok; [|done|].
  - by rewrite <- !app_assoc.
  - rewrite length_app. cbn. apply Nat.lt_succ_r. transitivity (length (concat (escape_byte <$> s))); [|lia].
    clear. induction s as [|b s IH]; [done|]. rewrite fmap_cons. cbn [concat]. rewrite length_app.
    destruct (escape_byte_cases b) as [(e & -> & _)|(-> & _)]; cbn [length]; lia.
Qed.

(** *** Every token *)
Lemma reads_spell t : lexable t = true → reads (spell t) t.
Proof.
  assert (Hend : ∀ c l rest, (is_digit c || is_exp c || (c =? 46)) = false →
    ends_class (λ b, is_digit b || is_exp b || (b =? 46)) ((c :: l) ++ rest)) by done.
  destruct t; cbn [lexable spell]; intros Hl; try discriminate Hl.
  all: try (apply reads_fixed; vm_compute; discriminate).
  - rewrite <- (app_nil_r (dec n)). apply reads_int; [lia| |done|].
    + by intros ds start end_ l <-.
    + intros. cbn. by apply brk_class.
  - apply reads_int; [lia| |done|]; [by intros ds start end_ l <-|by intros; apply Hend].
  - apply andb_true_iff in Hl as [[Hx Hf]%andb_true_iff Hn%negb_true_iff%bool_decide_eq_false].
    by apply reads_float.
  - apply andb_true_iff in Hl as [Hn Hl]. apply reads_int; [lia| |done|by intros; apply Hend].
    intros ds start end_ l <-. unfold int_token, parse_width. cbn. by rewrite Hl.
  - apply reads_int; [unfold in_u in Hl; lia| |done|by intros; apply Hend].
    intros ds start end_ l <-. unfold int_token, parse_width. cbn. by rewrite Hl.
  - apply reads_int; [unfold in_u in Hl; lia| |done|by intros; apply Hend].
    intros ds start end_ l <-. unfold int_token, parse_width. cbn. by rewrite Hl.
  - apply reads_int; [unfold in_u in Hl; lia| |done|by intros; apply Hend].
    intros ds start end_ l <-. unfold int_token, parse_width. cbn. by rewrite Hl.
  - by apply reads_string.
  - apply andb_true_iff in Hl as [[Hh Hs]%andb_true_iff Hk%bool_decide_eq_true]. by apply reads_word.
Qed.

(** ** A whole source *)

(** A spelling starts no trivia. *)
Lemma reads_starts s t : reads s t → s ≠ [] ∧ byte_in (head s) is_ws = false ∧
  (head s = Some 47 → s = [47]).
Proof.
  intros Hr. destruct (Hr [] 32 [] eq_refl (or_introl eq_refl)) as (c & Hc & E).
  destruct s as [|c' s]; [done|]. injection Hc as ->. splits; [done| |].
  - cbn. apply not_true_is_false. intros Hw. exfalso. revert E.
    by apply ws_cases in Hw as [->|[->|[->| ->]]].
  - intros [= ->]. unfold lex_token in E. cbn [Z.eqb Pos.eqb] in E. apply (f_equal (λ p, lx_pos p.2)) in E.
    unfold one, advance, modify, bump, at_, mbind, SM_bind in E. cbn -[zlen app] in E. rewrite !zlen_app, !zlen_cons, zlen_nil in E.
    destruct s; [done|]. rewrite zlen_cons in E. pose proof (zlen_nonneg s). lia.
Qed.

Lemma skip_ws_at fuel ws s pre : forallb is_ws ws = true →
  byte_in (head s) is_ws = false → (head s = Some 47 → is_byte_at (head (tail s)) 47 = false) →
  skip_ws_and_comments (S fuel) (at_ pre (ws ++ s)) = Ok (at_ (pre ++ ws) s).
Proof.
  intros Hws Hs Hc. cbn [skip_ws_and_comments]. unfold skip_trivia_step. rewrite skip_at by done.
  rewrite peek_at, peek1_at.
  assert (is_byte_at (head s) 47 && is_byte_at (head (tail s)) 47 = false) as ->; [|done].
  apply andb_false_iff. destruct (is_byte_at (head s) 47) eqn:E; [|by left]. right.
  apply Hc. by apply is_byte_at_peek.
Qed.

Lemma render_brk l : Forall (λ p, forallb is_ws p.1 = true ∧ p.1 ≠ []) l → brk (render l).
Proof.
  destruct 1 as [|[ws t] l [Hw Hne] _]; [by left|]. destruct ws as [|w ws]; [done|]. right.
  apply andb_true_iff in Hw as [Hw _]. unfold render. cbn. eauto.
Qed.

Lemma lex_all_render l fuel out pre :
  Forall (λ p, (forallb is_ws p.1 = true ∧ p.1 ≠ []) ∧ lexable p.2 = true) l → (length l < fuel)%nat →
  ∃ ts, lex_all fuel out (at_ pre (render l)) = Ok (out ++ ts) ∧ sp_token <$> ts = l.*2 ++ [T_Eof].
Proof.
  revert l out pre. induction fuel as [|fuel IH]; intros l out pre Hl Hf; [lia|]. cbn [lex_all].
  destruct l as [|[ws t] l].
  { change (render []) with ([] ++ [] : bytes). rewrite skip_ws_at by done. cbn. rewrite peek_at. cbn. by eexists. }
  apply Forall_cons in Hl as [[[Hws Hne] Ht] Hl]. cbn [fst snd length] in *.
  pose proof (reads_spell t Ht) as Hr. destruct (reads_starts _ _ Hr) as (Hs1 & Hs2 & Hs3).
  assert (Hbrk : brk (render l)) by (apply render_brk; eapply Forall_impl; [exact Hl|]; by intros ? []).
  change (render ((ws, t) :: l)) with ((ws ++ spell t) ++ render l). rewrite <- app_assoc.
  destruct (exists_last Hne) as (ws' & w & ->). pose proof Hws as Hw.
  rewrite forallb_app in Hw. apply andb_true_iff in Hw as [_ Hw]. cbn in Hw. rewrite andb_true_r in Hw.
  rewrite skip_ws_at; [|done|by destruct (spell t)|].
  2:{ intros Hh. destruct (spell t) as [|c s]; [done|]. specialize (Hs3 Hh) as [= -> ->]. cbn. by apply brk_byte. }
  cbn. rewrite app_assoc. destruct (Hr (pre ++ ws') w (render l) Hw Hbrk) as (c & Hc & E).
  rewrite peek_at. destruct (spell t) as [|c' s] eqn:Es; [done|]. injection Hc as ->. cbn [head app] in *.
  change (lx_pos (at_ ((pre ++ ws') ++ [w]) (c :: s ++ render l))) with (zlen ((pre ++ ws') ++ [w])).
  rewrite E. destruct (IH l (out ++ [mkSpanned t (mkSpan (zlen ((pre ++ ws') ++ [w])) (lx_pos (at_ (((pre ++ ws') ++ [w]) ++ c :: s) (render l))))])
    (((pre ++ ws') ++ [w]) ++ c :: s) Hl) as (ts & -> & Hts); [lia|].
  eexists. rewrite <- app_assoc. split; [done|]. cbn. by rewrite Hts.
Qed.
End spelled.

