(* ===== verification/Bytecode.v ===== *)
(** Bytecode ([crates/rend/src/bc.rs]), with the interface declarations of
    [ast.rs], the effect classes of [effects.rs] and the host imports of
    [host.rs]: the data the compiler hands to the optimizer and the virtual
    machine.  Registers, indices and offsets are integers. *)
From S2P Require Import Prelude Bytes Values Display Ops.
#[local] Set Warnings "-register-all".

(** ** Declarations *)
Record InterfaceMethod := mkMethod {
  im_name : bytes; im_params : list (bytes * Ty); im_return_type : Ty;
  im_is_view : bool; im_is_pure : bool;
}.
Record InterfaceDecl := mkInterface { if_name : bytes; if_methods : list InterfaceMethod }.

(** [effects.rs] [enum EffectClass]. *)
Inductive EffectClass := Pure | ReadOnly | WriteOnly | ReadWrite | Impure.
#[export] Instance EffectClass_eq_dec : EqDecision EffectClass.
Proof. solve_decision. Defined.

Definition ec_reads (c : EffectClass) : bool :=
  match c with ReadOnly | ReadWrite | Impure => true | _ => false end.
Definition ec_writes (c : EffectClass) : bool :=
  match c with WriteOnly | ReadWrite | Impure => true | _ => false end.
Definition ec_impure (c : EffectClass) : bool := match c with Impure => true | _ => false end.

Definition ec_join (a b : EffectClass) : EffectClass :=
  let r := ec_reads a || ec_reads b in
  let w := ec_writes a || ec_writes b in
  if ec_impure a || ec_impure b then Impure else
  match r, w with
  | false, false => Pure
  | true, false => ReadOnly
  | false, true => WriteOnly
  | true, true => ReadWrite
  end.

(** ** Instructions *)
Inductive Const :=
  | CInt (n : Z) | CUInt (n : Z) | CFloat (bits : Z) | CI32 (n : Z) | CU32 (n : Z)
  | CU64 (n : Z) | CU128 (n : Z) | CBool (b : bool) | CStr (s : bytes).

(** A state read of a batch. *)
Inductive ReadOp :=
  | RState (dst key_idx : Z)
  | RPath (dst path_idx : Z).

Record ParallelRange := mkRange { pr_start : Z; pr_end : Z; pr_dst : option Z }.

Inductive Instr :=
  | LoadConst (dst idx : Z)
  | Move (dst src : Z)
  | Bin (op : BinOp) (dst lhs rhs : Z)
  | Un (op : UnOp) (dst src : Z)
  | Jump (offset : Z)
  | JumpIfFalse (cond offset : Z)
  | Call (dst fn_idx args_start n_args : Z)
  | CallHost (dst import_idx args_start n_args : Z)
  | CallExternal (dst module_name_idx fn_name_idx args_start n_args : Z) (is_view is_pure : bool)
  | MakeInterface (dst iface_name_idx target_reg : Z)
  | CallExternalDyn (dst target_reg fn_name_idx args_start n_args : Z) (is_view is_pure : bool)
  | Return (src : Z)
  | ReturnUnit
  | BuiltinResource (dst src : Z)
  | BuiltinUnwrap (dst src : Z)
  | BuiltinAddress (dst src : Z)
  | BuiltinLen (dst src : Z)
  | Convert (dst src target : Z)
  | MakeArray (dst args_start n : Z)
  | ArrayGet (dst arr idx : Z)
  | ArrayAppend (dst arr elem : Z)
  | MakeSet (dst args_start n : Z)
  | MakeDict (dst args_start n_pairs : Z)
  | BuiltinCall (dst name_idx args_start n_args : Z)
  | MakeStruct (dst shape_idx args_start n : Z)
  | FieldGet (dst src name_idx : Z)
  | FieldSet (dst name_idx val : Z)
  | KvGet (dst key_idx : Z)
  | KvPut (src key_idx : Z)
  | KvGetPath (dst path_idx : Z)
  | KvPutPath (src path_idx : Z)
  | ReadBatch (group_idx : Z)
  | PrefetchMap (arr_reg state_idx : Z)
  | Emit (value : Z)
  | ParallelBegin (ranges : list ParallelRange) (after_pc : Z)
  | ParallelYield (value : option Z)
  | ParallelForBegin (body_start body_end source_reg output_reg id_reg idx_reg after_pc : Z)
  | ArrayAlloc (dst len_reg default_reg : Z)
  | Reserve (dst state_idx count_reg : Z)
  | ParallelForSkip
  | Context (dst kind : Z)
  | MakeTuple (dst args_start n : Z)
  | TupleGet (dst src index : Z)
  | MakeEnum (dst shape_idx variant_idx args_start n : Z)
  | EnumTag (dst src : Z)
  | EnumPayload (dst src index : Z)
  | MapGet (dst state_idx key_reg : Z)
  | MapPut (state_idx key_reg src : Z)
  | PMapGet (dst state_idx key_reg : Z)
  | PMapPut (state_idx key_reg src : Z)
  | PMapContains (dst state_idx key_reg : Z)
  | PVecGet (dst state_idx idx_reg : Z)
  | PVecSet (state_idx idx_reg src : Z)
  | PVecPush (dst state_idx src : Z)
  | PVecLen (dst state_idx : Z)
  | PMapEntries (dst state_idx : Z)
  | PMapKeys (dst state_idx : Z)
  | PMapValues (dst state_idx : Z)
  | PVecToArray (dst state_idx : Z)
  | PMapAppendUnique (state_idx key_reg elem_reg : Z)
  | PMapPutUnique (state_idx key_reg src : Z)
  | PMapWalkInit (dst state_idx : Z)
  | PMapWalkNext (cursor_reg value_reg end_offset : Z)
  | PBTreeGet (dst state_idx key_reg : Z)
  | PBTreePut (state_idx key_reg src : Z)
  | PBTreeContains (dst state_idx key_reg : Z)
  | PBTreeRange (dst state_idx lo_reg hi_reg : Z)
  | PBTreeWalkInit (dst state_idx : Z)
  | PBTreeWalkNext (cursor_reg value_reg end_offset : Z)
  | PBTreePutUnique (state_idx key_reg src : Z)
  | PBTreeAppendUnique (state_idx key_reg elem_reg : Z)
  | PMapDelete (state_idx key_reg : Z)
  | PBTreeDelete (state_idx key_reg : Z)
  | PMapRemoveUnique (state_idx key_reg expected_reg : Z)
  | PMapRemoveFromList (state_idx key_reg elem_reg : Z)
  | PBTreeRemoveUnique (state_idx key_reg expected_reg : Z)
  | PBTreeRemoveFromList (state_idx key_reg elem_reg : Z)
  | IncReg (reg : Z).

#[export] Instance Const_eq_dec : EqDecision Const.
Proof. solve_decision. Defined.
#[export] Instance ReadOp_eq_dec : EqDecision ReadOp.
Proof. solve_decision. Defined.
#[export] Instance ParallelRange_eq_dec : EqDecision ParallelRange.
Proof. solve_decision. Defined.

(** ** Modules *)
Record BcFn := mkFn {
  f_name : bytes;
  n_params : Z;
  n_regs : Z;
  code : list Instr;
  consts : list Const;
  is_entry : bool;
  is_nore : bool;
  read_groups : list (list ReadOp);
  param_types : list Ty;
  return_type : Ty;
  is_view : bool;
  is_pure : bool;
}.

Record PathSpec := mkPath { leaf_key : Z; leaf_type : Ty; is_blob : bool }.

Record StructShape := mkStructShape {
  sh_name : bytes; field_names : list bytes; field_types : list Ty;
  sh_field_groups : list (option bytes); is_pub : bool;
}.
Record EnumShape := mkEnumShape { en_name : bytes; variant_names : list bytes }.

Record BcModule := mkModule {
  m_name : bytes;
  imports : list bytes;
  import_index : gmap bytes Z;
  state_roots : list Z;
  state_types : list Ty;
  state_defaults : list Value;
  state_names : list bytes;
  state_index : gmap bytes Z;
  struct_shapes : list StructShape;
  struct_index : gmap bytes Z;
  functions : list BcFn;
  fn_index : gmap bytes Z;
  path_specs : list PathSpec;
  handler_dispatch : gmap bytes (list Z);
  enum_shapes : list EnumShape;
  enum_index : gmap bytes Z;
  interfaces : list InterfaceDecl;
  interface_index : gmap bytes Z;
}.

(** [BcModule::root_of]: an index out of range panics. *)
Definition root_of (m : BcModule) (name : bytes) : outcome (option Z) :=
  match state_index m !! name with
  | Some i => Some <$> or_panic (get_z (state_roots m) i)
  | None => Ok None
  end.

(** Replacing the code of a function, as the optimizer does. *)
Definition with_code (f : BcFn) (c : list Instr) (groups : list (list ReadOp)) : BcFn :=
  mkFn (f_name f) (n_params f) (n_regs f) c (consts f) (is_entry f) (is_nore f) groups
    (param_types f) (return_type f) (is_view f) (is_pure f).

Definition with_functions (m : BcModule) (fs : list BcFn) : BcModule :=
  mkModule (m_name m) (imports m) (import_index m) (state_roots m) (state_types m)
    (state_defaults m) (state_names m) (state_index m) (struct_shapes m) (struct_index m)
    fs (fn_index m) (path_specs m) (handler_dispatch m) (enum_shapes m) (enum_index m)
    (interfaces m) (interface_index m).

(** ** Host imports ([host.rs]) *)
Record HostError := mkHostError { he_code : Z; he_msg : bytes }.
Definition HostFn : Type := list Value → Value + HostError.
Definition Host : Type := gmap bytes HostFn.

Definition host_new : Host := ∅.
Definition bind (h : Host) (name : bytes) (f : HostFn) : Host := <[name := f]> (h : gmap bytes HostFn).
Definition has (h : Host) (name : bytes) : bool := bool_decide (is_Some ((h : gmap bytes HostFn) !! name)).
Definition invalid_args (msg : bytes) : HostError := mkHostError 1 msg.
Definition aborted (msg : bytes) : HostError := mkHostError 2 msg.

(** Calling an unbound import is the host error of code 0. *)
Definition host_call (h : Host) (name : bytes) (args : list Value) : Value + HostError :=
  match (h : gmap bytes HostFn) !! name with
  | Some f => f args
  | None => inr (mkHostError 0 (Display.str "no host impl bound for '" ++ name ++ Display.str "'"))
  end.
