(* ===== verification/Ast.v ===== *)
(** Abstract syntax ([crates/rend/src/ast.rs]): declarations, statements and
    expressions as the parser builds them, the predicates of types the checker
    asks for, and the induction principle of the syntax tree. *)
From S2P Require Import Prelude Bytes Values Display Ops Bytecode.
#[local] Set Warnings "-register-all".

(** ** Types *)

(** [Type::is_copy]: the value is duplicated, not moved, on each use. *)
Fixpoint is_copy (ty : Ty) : bool :=
  match ty with
  | TInt | TUInt | TFloat | TI32 | TU32 | TU64 | TU128 | TBool | TUnit | TString
  | TAddress | TBytes => true
  | TArray elem => is_copy elem
  | TExplicitLiteral inner => is_copy inner
  | TSet elem => is_copy elem
  | TDict key value => is_copy key && is_copy value
  | TStruct _ fields _ => forallb (λ p, match p with (_, t) => is_copy t end) fields
  | TTuple elems => forallb is_copy elems
  | TEnum _ variants =>
      forallb (λ p, match p with (_, payload) => forallb is_copy payload end) variants
  | TCap _ _ _ => false
  | TInterface _ _ => true
  | TJson => true
  | _ => false
  end.

(** [Type::is_keyable]: values of the type may be keys of a map. *)
Fixpoint is_keyable (ty : Ty) : bool :=
  match ty with
  | TInt | TI32 | TU32 | TU64 | TU128 | TBool | TString | TAddress | TBytes => true
  | TArray elem => is_keyable elem
  | TExplicitLiteral inner => is_keyable inner
  | TStruct _ fields _ => forallb (λ p, match p with (_, t) => is_keyable t end) fields
  | TEnum _ variants =>
      forallb (λ p, match p with (_, payload) => forallb is_keyable payload end) variants
  | _ => false
  end.

(** [impl Display for Type]. *)
Fixpoint ty_text (ty : Ty) : bytes :=
  match ty with
  | TInt => str "int" | TUInt => str "uint" | TFloat => str "float" | TI32 => str "i32"
  | TU32 => str "u32" | TU64 => str "u64" | TU128 => str "u128" | TBool => str "bool"
  | TUnit => str "()" | TResource => str "Resource" | TString => str "string"
  | TAddress => str "Address" | TBytes => str "bytes"
  | TArray t => str "[" ++ ty_text t ++ str "]"
  | TExplicitLiteral t => str "`" ++ ty_text t ++ str "`"
  | TSet t => str "set<" ++ ty_text t ++ str ">"
  | TDict k v => str "dict<" ++ ty_text k ++ str ", " ++ ty_text v ++ str ">"
  | TMap k v => str "map<" ++ ty_text k ++ str ", " ++ ty_text v ++ str ">"
  | TPMap k v => str "pmap<" ++ ty_text k ++ str ", " ++ ty_text v ++ str ">"
  | TPBTree k v => str "pbtree<" ++ ty_text k ++ str ", " ++ ty_text v ++ str ">"
  | TPVec t => str "pvec<" ++ ty_text t ++ str ">"
  | TJson => str "json"
  | TStruct name _ _ => name
  | TTuple elems => str "(" ++ join_with (str ", ") (ty_text <$> elems) ++ str ")"
  | TEnum name _ => name
  | TCap name _ _ => name
  | TInterface name _ => name
  end.

(** ** Expressions and statements *)
Inductive MatchPattern :=
  | Wildcard
  | EnumPattern (enum_name variant : bytes) (bindings : list bytes).

Inductive Expr : Type :=
  | mkExpr (kind : ExprKind) (span : Span)
with ExprKind : Type :=
  | E_Int (n : Z) | E_UInt (n : Z) | E_Float (bits : Z) | E_I32 (n : Z) | E_U32 (n : Z)
  | E_U64 (n : Z) | E_U128 (n : Z)
  | E_JsonObject (pairs : list (bytes * Expr))
  | E_JsonArray (items : list Expr)
  | E_JsonNull
  | E_Bool (b : bool) | E_Str (s : bytes) | E_Ident (name : bytes)
  | E_Binary (op : BinOp) (lhs rhs : Expr)
  | E_Unary (op : UnOp) (operand : Expr)
  | E_Call (module : option bytes) (name : bytes) (args : list Expr)
  | E_DynCall (target_ident method : bytes) (args : list Expr) (method_is_view method_is_pure : bool)
  | E_Index (target key : Expr)
  | E_Array (elems : list Expr)
  | E_ExplicitLiteral (inner : Expr)
  | E_ArrayAlloc (elem_ty : Ty) (len : Expr)
  | E_Reserve (count : Expr) (state : bytes)
  | E_StructLit (name : bytes) (fields : list (bytes * Expr))
  | E_Field (target : Expr) (name : bytes)
  | E_Pipe (head step : Expr)
  | E_Prev
  | E_ListComp (mapper : Expr) (clauses : list CompClause)
  | E_SetLit (elems : list Expr)
  | E_SetComp (mapper : Expr) (clauses : list CompClause)
  | E_DictLit (pairs : list (Expr * Expr))
  | E_DictComp (key value : Expr) (clauses : list CompClause)
  | E_TupleLit (elems : list Expr)
  | E_TupleIndex (target : Expr) (index : Z)
  | E_EnumCtor (enum_name variant : bytes) (args : list Expr)
  | E_Match (scrut : Expr) (arms : list MatchArm)
  | E_Block (block : Block)
  | E_If (cond : Expr) (then_ : Block) (else_branch : ElseBranch)
with MatchArm : Type :=
  | mkArm (pattern : MatchPattern) (body : Expr) (span : Span)
with CompClause : Type :=
  | C_For (var : bytes) (iter : Expr)
  | C_If (cond : Expr)
with Block : Type :=
  | mkBlock (stmts : list Stmt) (tail : option Expr) (span : Span)
with Stmt : Type :=
  | S_Let (name : bytes) (ty : option Ty) (value : Expr) (span : Span)
  | S_Assign (target value : Expr) (span : Span)
  | S_Return (value : option Expr) (span : Span)
  | S_If (if_stmt : IfStmt)
  | S_While (cond : Expr) (body : Block) (span : Span)
  | S_For (var : bytes) (iter : Expr) (limit : option Expr) (body : Block) (span : Span)
  | S_ForRange (var : bytes) (start end_ : Expr) (inclusive : bool) (body : Block) (span : Span)
  | S_Break (span : Span)
  | S_Continue (span : Span)
  | S_Expr (e : Expr)
  | S_Parallel (stmts : list Stmt) (span : Span)
  | S_ParallelForTo (id_var : bytes) (idx_var : option bytes) (source output : Expr)
                    (body : Block) (span : Span)
  | S_Emit (value : Expr) (span : Span)
  | S_Delete (target : Expr) (span : Span)
  | S_LetTuple (names : list bytes) (value : Expr) (span : Span)
  | S_Placeholder (span : Span)
with IfStmt : Type :=
  | mkIf (cond : Expr) (then_ : Block) (else_branch : ElseBranch) (span : Span)
with ElseBranch : Type :=
  | ElseNone
  | ElseBlock (b : Block)
  | ElseIf (inner : IfStmt).

Definition ex_kind (e : Expr) : ExprKind := match e with mkExpr k _ => k end.
Definition ex_span (e : Expr) : Span := match e with mkExpr _ sp => sp end.
Definition bl_stmts (b : Block) : list Stmt := match b with mkBlock ss _ _ => ss end.
Definition bl_tail (b : Block) : option Expr := match b with mkBlock _ t _ => t end.
Definition bl_span (b : Block) : Span := match b with mkBlock _ _ sp => sp end.
Definition arm_body (a : MatchArm) : Expr := match a with mkArm _ body _ => body end.
Definition clause_expr (c : CompClause) : Expr :=
  match c with C_For _ iter => iter | C_If cond => cond end.

(** ** Declarations *)
Record Param := mkParam { pm_name : bytes; pm_ty : Ty; pm_span : Span }.

Record FnDef := mkFnDef {
  fd_name : bytes; fd_params : list Param; fd_return_type : Ty; fd_body : Block;
  fd_is_nore : bool; fd_is_entry : bool; fd_is_view : bool; fd_is_pure : bool;
  fd_modifiers : list (bytes * list Expr); fd_span : Span;
}.

Record ImportDecl := mkImportDecl {
  ip_name : bytes; ip_params : list Ty; ip_return_type : Ty; ip_span : Span;
}.
Record StateDecl := mkStateDecl { st_name : bytes; st_ty : Ty; st_span : Span }.

Record StructField := mkStructField {
  sf_name : bytes; sf_ty : Ty; sf_group : option bytes; sf_span : Span;
}.
Record StructDecl := mkStructDecl {
  sd_name : bytes; sd_fields : list StructField; sd_is_pub : bool; sd_span : Span;
}.
Record CapDecl := mkCapDecl { cd_name : bytes; cd_fields : list StructField; cd_span : Span }.
Record HandlerDecl := mkHandlerDecl {
  hd_event_module : option bytes; hd_event_type : bytes; hd_fn_def : FnDef; hd_span : Span;
}.
Record ModifierDecl := mkModifierDecl {
  md_name : bytes; md_params : list Param; md_body : Block; md_span : Span;
}.
Record EnumVariant := mkEnumVariant { ev_name : bytes; ev_payload : list Ty; ev_span : Span }.
Record EnumDecl := mkEnumDecl { ed_name : bytes; ed_variants : list EnumVariant; ed_span : Span }.
Record ConstDecl := mkConstDecl { cn_name : bytes; cn_ty : Ty; cn_value : Expr; cn_span : Span }.

Inductive SortDirection := Dir_Asc | Dir_Desc.
Inductive IndexKind := Index_Unique | Index_Multi.
Record IndexField := mkIndexField { ix_path : list bytes; ix_direction : SortDirection }.
Record IndexDecl := mkIndexDecl {
  id_name : bytes; id_on_state : bytes; id_fields : list IndexField; id_kind : IndexKind;
  id_span : Span;
}.

(** [struct Module]. *)
Record SrcModule := mkSrcModule {
  sm_name : option bytes;
  sm_imports : list ImportDecl;
  sm_states : list StateDecl;
  sm_functions : list FnDef;
  sm_structs : list StructDecl;
  sm_handlers : list HandlerDecl;
  sm_modifiers : list ModifierDecl;
  sm_enums : list EnumDecl;
  sm_consts : list ConstDecl;
  sm_caps : list CapDecl;
  sm_interfaces : list InterfaceDecl;
  sm_indexes : list IndexDecl;
}.

(** ** Structure *)

(** The parts a node is made of, by their kind. *)
Definition else_blocks (b : ElseBranch) : list Block :=
  match b with ElseBlock b => [b] | _ => [] end.
Definition else_ifs (b : ElseBranch) : list IfStmt :=
  match b with ElseIf i => [i] | _ => [] end.

Definition kind_exprs (k : ExprKind) : list Expr :=
  match k with
  | E_JsonObject pairs => snd <$> pairs
  | E_JsonArray items | E_Array items | E_SetLit items | E_TupleLit items => items
  | E_Binary _ lhs rhs => [lhs; rhs]
  | E_Unary _ operand => [operand]
  | E_Call _ _ args | E_DynCall _ _ args _ _ | E_EnumCtor _ _ args => args
  | E_Index target key => [target; key]
  | E_ExplicitLiteral inner => [inner]
  | E_ArrayAlloc _ len => [len]
  | E_Reserve count _ => [count]
  | E_StructLit _ fields => snd <$> fields
  | E_Field target _ | E_TupleIndex target _ => [target]
  | E_Pipe head step => [head; step]
  | E_ListComp mapper clauses | E_SetComp mapper clauses => mapper :: (clause_expr <$> clauses)
  | E_DictLit pairs => (fst <$> pairs) ++ (snd <$> pairs)
  | E_DictComp key value clauses => key :: value :: (clause_expr <$> clauses)
  | E_Match scrut arms => scrut :: (arm_body <$> arms)
  | E_If cond _ _ => [cond]
  | _ => []
  end.
Definition kind_blocks (k : ExprKind) : list Block :=
  match k with
  | E_Block b => [b]
  | E_If _ then_ else_branch => then_ :: else_blocks else_branch
  | _ => []
  end.
Definition kind_ifs (k : ExprKind) : list IfStmt :=
  match k with E_If _ _ else_branch => else_ifs else_branch | _ => [] end.

Definition stmt_exprs (s : Stmt) : list Expr :=
  match s with
  | S_Let _ _ value _ | S_LetTuple _ value _ | S_Emit value _ => [value]
  | S_Assign target value _ => [target; value]
  | S_Return value _ => option_list value
  | S_While cond _ _ => [cond]
  | S_For _ iter limit _ _ => iter :: option_list limit
  | S_ForRange _ start end_ _ _ _ => [start; end_]
  | S_Expr e => [e]
  | S_ParallelForTo _ _ source output _ _ => [source; output]
  | S_Delete target _ => [target]
  | _ => []
  end.
Definition stmt_blocks (s : Stmt) : list Block :=
  match s with
  | S_While _ body _ | S_For _ _ _ body _ | S_ForRange _ _ _ _ body _
  | S_ParallelForTo _ _ _ _ body _ => [body]
  | _ => []
  end.
Definition stmt_stmts (s : Stmt) : list Stmt := match s with S_Parallel ss _ => ss | _ => [] end.
Definition stmt_ifs (s : Stmt) : list IfStmt := match s with S_If i => [i] | _ => [] end.

(** Induction over the tree: a property of a node from that of its parts. *)
Section ast_ind.
Context (PE : Expr → Prop) (PB : Block → Prop) (PS : Stmt → Prop) (PI : IfStmt → Prop).
Context (Hexpr : ∀ k sp, Forall PE (kind_exprs k) → Forall PB (kind_blocks k) →
  Forall PI (kind_ifs k) → PE (mkExpr k sp)).
Context (Hblock : ∀ ss t sp, Forall PS ss → Forall PE (option_list t) → PB (mkBlock ss t sp)).
Context (Hstmt : ∀ s, Forall PE (stmt_exprs s) → Forall PB (stmt_blocks s) →
  Forall PS (stmt_stmts s) → Forall PI (stmt_ifs s) → PS s).
Context (Hif : ∀ c t e sp, PE c → PB t → Forall PB (else_blocks e) → Forall PI (else_ifs e) →
  PI (mkIf c t e sp)).

Section all_fmap.
Context {A B : Type} (R : B → Prop) (g : A → B) (f : ∀ x, R (g x)).
Fixpoint list_all_fmap (l : list A) : Forall R (g <$> l) :=
  match l with
  | [] => Forall_nil_2 R
  | x :: l' => Forall_cons_2 R (g x) (g <$> l') (f x) (list_all_fmap l')
  end.
End all_fmap.

Fixpoint expr_rect (e : Expr) : PE e
with block_rect (b : Block) : PB b
with stmt_rect (s : Stmt) : PS s
with if_rect (i : IfStmt) : PI i.
Proof.
  - destruct e as [k sp]. apply Hexpr.
    + destruct k; cbn [kind_exprs];
        repeat (apply Forall_cons_2; [apply expr_rect|]); try apply Forall_nil_2.
      all: try (apply (list_all_fmap PE snd (λ p, match p with (a, b) => expr_rect b end))).
      all: try (apply (list_all_fmap PE clause_expr (λ c, match c with C_For _ e | C_If e => expr_rect e end))).
      all: try (apply (list_all_fmap PE arm_body (λ a, match a with mkArm _ e _ => expr_rect e end))).
      all: try (apply Forall_app_2; [apply (list_all_fmap PE fst (λ p, match p with (a, b) => expr_rect a end))
        |apply (list_all_fmap PE snd (λ p, match p with (a, b) => expr_rect b end))]).
      all: apply (list_all PE expr_rect).
    + destruct k; cbn [kind_blocks]; try apply Forall_nil_2.
      * apply Forall_cons_2; [apply block_rect|apply Forall_nil_2].
      * apply Forall_cons_2; [apply block_rect|].
        destruct else_branch; cbn; [apply Forall_nil_2| |apply Forall_nil_2].
        apply Forall_cons_2; [apply block_rect|apply Forall_nil_2].
    + destruct k; cbn [kind_ifs]; try apply Forall_nil_2.
      destruct else_branch; cbn; [apply Forall_nil_2..|].
      apply Forall_cons_2; [apply if_rect|apply Forall_nil_2].
  - destruct b as [ss t sp]. apply Hblock; [apply (list_all PS stmt_rect)|].
    destruct t; cbn; [apply Forall_cons_2; [apply expr_rect|]|]; apply Forall_nil_2.
  - apply Hstmt.
    + destruct s; cbn [stmt_exprs]; repeat (apply Forall_cons_2; [apply expr_rect|]); try apply Forall_nil_2.
      all: match goal with o : option Expr |- _ => destruct o; cbn end.
      all: repeat (apply Forall_cons_2; [apply expr_rect|]); apply Forall_nil_2.
    + destruct s; cbn [stmt_blocks]; repeat (apply Forall_cons_2; [apply block_rect|]); apply Forall_nil_2.
    + destruct s; cbn [stmt_stmts]; try apply Forall_nil_2. apply (list_all PS stmt_rect).
    + destruct s; cbn [stmt_ifs]; repeat (apply Forall_cons_2; [apply if_rect|]); apply Forall_nil_2.
  - destruct i as [c t e sp]. apply Hif; [apply expr_rect|apply block_rect| |].
    + destruct e; cbn; repeat (apply Forall_cons_2; [apply block_rect|]); apply Forall_nil_2.
    + destruct e; cbn; repeat (apply Forall_cons_2; [apply if_rect|]); apply Forall_nil_2.
Qed.

Lemma ast_ind : (∀ e, PE e) ∧ (∀ b, PB b) ∧ (∀ s, PS s) ∧ (∀ i, PI i).
Proof. splits; [apply expr_rect|apply block_rect|apply stmt_rect|apply if_rect]. Qed.
End ast_ind.
