(* ===== verification/Effects.v ===== *)
(** Effect classification ([crates/rend/src/effects.rs]): the class of every
    function of a module, by iteration to a fixed point, and the check of the
    [view] and [pure] annotations. *)
From S2P Require Import Prelude Bytes Values JsonText Display Ops Bytecode Ast.
#[local] Set Warnings "-register-all".

(** ** Names *)
Definition builtin_names : list bytes := Eval compute in
  [str "resource"; str "unwrap"; str "address"; str "len"; str "assert";
   str "set_insert"; str "set_remove"; str "set_contains"; str "set_len";
   str "dict_set"; str "dict_remove"; str "dict_get"; str "dict_has"; str "dict_len";
   str "i64"; str "i32"; str "u32"; str "u64"; str "u128";
   str "msg_sender"; str "block_timestamp"; str "block_number";
   str "to_bytes"; str "bytes_len"; str "bytes_concat"; str "bytes_eq"; str "bytes_slice";
   str "to_be_bytes"; str "bit_not_bytes";
   str "string_concat"; str "string_slice"; str "string_contains";
   str "pmap_contains"; str "pvec_len";
   str "pmap_entries"; str "pmap_keys"; str "pmap_values"; str "pvec_to_array";
   str "pbtree_contains"; str "pbtree_range"; str "sum"; str "max"; str "min";
   str "parse_json"; str "json_stringify"; str "json_get_field"; str "json_get_index";
   str "json_to_string"; str "json_to_i64"; str "json_to_u64"; str "json_to_bool";
   str "json_is_null"].
Definition is_pure_builtin (name : bytes) : bool := bool_decide (name ∈ builtin_names).

(** The builtins of the second test of a local call. *)
Definition reading_names : list bytes := Eval compute in
  [str "pmap_contains"; str "pvec_len"; str "pmap_entries"; str "pmap_keys";
   str "pmap_values"; str "pvec_to_array"; str "pbtree_contains"; str "pbtree_range"].

Definition bind_name : bytes := Eval compute in str "bind".
(** [format!("{mod_name}::{name}")]. *)
Definition qualified (mod_name name : bytes) : bytes := mod_name ++ [58; 58] ++ name.

(** ** The context of a walk ([struct Ctx]) but its [locals] *)
Record EffCtx := mkEffCtx {
  ef_externals : gmap bytes EffectClass;
  ef_imports : gset bytes;
  ef_states : gset bytes;
  ef_state_types : gmap bytes Ty;
  ef_iface_names : gset bytes;
}.

Definition ms_name (m : InterfaceMethodSig) : bytes :=
  match m with mkMethodSig n _ _ _ _ => n end.

Section classify.
Context (ctx : EffCtx) (locals : gmap bytes EffectClass).

(** [assign_target_is_state_with_ctx]. *)
Fixpoint assign_target_is_state (target : Expr) : bool :=
  match target with
  | mkExpr (E_Ident name) _ => bool_decide (name ∈ ef_states ctx)
  | mkExpr (E_Index t _) _ => assign_target_is_state t
  | mkExpr (E_Field t _) _ => assign_target_is_state t
  | _ => false
  end.

Definition method_class (is_view is_pure : bool) : EffectClass :=
  if is_pure then Pure else if is_view then ReadOnly else Impure.

(** The class of [$target::method(..)]. *)
Definition dyn_class (target_ident method : bytes) (is_view is_pure : bool) : EffectClass :=
  if is_pure then Pure
  else if is_view then ReadOnly
  else match ef_state_types ctx !! target_ident with
       | Some (TInterface _ methods) =>
           match list_find (λ m, ms_name m = method) methods with
           | Some (_, mkMethodSig _ _ _ v p) => method_class v p
           | None => Impure
           end
       | _ => Impure
       end.

(** The class of [module::name(..)], [None] for an interface binding. *)
Definition external_class (mod_name name : bytes) : option EffectClass :=
  if bool_decide (name = bind_name) && bool_decide (mod_name ∈ ef_iface_names ctx) then None
  else Some (default Impure (ef_externals ctx !! qualified mod_name name)).

(** The class of [name(..)], [None] for a pure builtin. *)
Definition local_class (name : bytes) : option EffectClass :=
  if is_pure_builtin name then None
  else if bool_decide (name ∈ reading_names) then Some ReadOnly
  else if bool_decide (name ∈ ef_imports ctx) then Some Impure
  else Some (default Impure (locals !! name)).

Definition join_opt (acc : EffectClass) (c : option EffectClass) : EffectClass :=
  match c with Some c => ec_join acc c | None => acc end.

Definition state_read (name : bytes) (acc : EffectClass) : EffectClass :=
  if bool_decide (name ∈ ef_states ctx) then ec_join acc ReadOnly else acc.

(** [*acc = ..] is the accumulator returned.  A block in statement position is
    its statements ([classify_block]); an expression block has its tail too. *)
Fixpoint classify_expr (e : Expr) (acc : EffectClass) {struct e} : EffectClass :=
  match e with mkExpr k _ =>
  match k with
  | E_Int _ | E_UInt _ | E_Float _ | E_JsonNull | E_I32 _ | E_U32 _ | E_U64 _ | E_U128 _
  | E_Bool _ | E_Str _ | E_Prev => acc
  | E_JsonObject pairs =>
      foldl (λ acc p, match p with (_, v) => classify_expr v acc end) acc pairs
  | E_JsonArray items => foldl (λ acc v, classify_expr v acc) acc items
  | E_Ident name => state_read name acc
  | E_Binary _ lhs rhs => classify_expr rhs (classify_expr lhs acc)
  | E_Unary _ operand => classify_expr operand acc
  | E_Index target key =>
      let acc1 := match target with mkExpr (E_Ident n) _ => state_read n acc | _ => acc end in
      classify_expr key (classify_expr target acc1)
  | E_Field target _ => classify_expr target acc
  | E_Array elems => foldl (λ acc e, classify_expr e acc) acc elems
  | E_ArrayAlloc _ len => classify_expr len acc
  | E_Reserve count _ => classify_expr count (ec_join acc WriteOnly)
  | E_ExplicitLiteral inner => classify_expr inner acc
  | E_SetLit elems => foldl (λ acc e, classify_expr e acc) acc elems
  | E_DictLit pairs =>
      foldl (λ acc p, match p with (k, v) => classify_expr v (classify_expr k acc) end) acc pairs
  | E_ListComp mapper clauses | E_SetComp mapper clauses =>
      classify_expr mapper
        (foldl (λ acc c, match c with C_For _ iter => classify_expr iter acc
                                    | C_If cond => classify_expr cond acc end) acc clauses)
  | E_DictComp key value clauses =>
      classify_expr value (classify_expr key
        (foldl (λ acc c, match c with C_For _ iter => classify_expr iter acc
                                    | C_If cond => classify_expr cond acc end) acc clauses))
  | E_StructLit _ fields =>
      foldl (λ acc p, match p with (_, e) => classify_expr e acc end) acc fields
  | E_Pipe head step => classify_expr step (classify_expr head acc)
  | E_DynCall target_ident method args is_view is_pure =>
      ec_join (foldl (λ acc a, classify_expr a acc) acc args)
        (dyn_class target_ident method is_view is_pure)
  | E_Call (Some mod_name) name args =>
      join_opt (foldl (λ acc a, classify_expr a acc) acc args) (external_class mod_name name)
  | E_Call None name args =>
      join_opt (foldl (λ acc a, classify_expr a acc) acc args) (local_class name)
  | E_TupleLit elems => foldl (λ acc e, classify_expr e acc) acc elems
  | E_TupleIndex target _ => classify_expr target acc
  | E_EnumCtor _ _ args => foldl (λ acc a, classify_expr a acc) acc args
  | E_Match scrut arms =>
      foldl (λ acc a, match a with mkArm _ body _ => classify_expr body acc end)
        (classify_expr scrut acc) arms
  | E_Block (mkBlock ss t _) =>
      let acc1 := foldl (λ acc s, classify_stmt s acc) acc ss in
      match t with Some t => classify_expr t acc1 | None => acc1 end
  | E_If cond (mkBlock ss t _) else_branch =>
      let acc1 := foldl (λ acc s, classify_stmt s acc) (classify_expr cond acc) ss in
      let acc2 := match t with Some t => classify_expr t acc1 | None => acc1 end in
      match else_branch with
      | ElseNone => acc2
      | ElseBlock (mkBlock ss' t' _) =>
          let acc3 := foldl (λ acc s, classify_stmt s acc) acc2 ss' in
          match t' with Some t => classify_expr t acc3 | None => acc3 end
      | ElseIf inner => classify_if inner acc2
      end
  end end
with classify_block (block : Block) (acc : EffectClass) {struct block} : EffectClass :=
  match block with mkBlock ss _ _ => foldl (λ acc s, classify_stmt s acc) acc ss end
with classify_stmt (stmt : Stmt) (acc : EffectClass) {struct stmt} : EffectClass :=
  match stmt with
  | S_Let _ _ value _ => classify_expr value acc
  | S_Assign target value _ =>
      classify_expr value (if assign_target_is_state target then ec_join acc WriteOnly else acc)
  | S_Return (Some e) _ => classify_expr e acc
  | S_Return None _ => acc
  | S_If if_stmt => classify_if if_stmt acc
  | S_While cond body _ => classify_block body (classify_expr cond acc)
  | S_For _ iter _ body _ => classify_block body (classify_expr iter acc)
  | S_ForRange _ start end_ _ body _ =>
      classify_block body (classify_expr end_ (classify_expr start acc))
  | S_Break _ | S_Continue _ | S_Placeholder _ => acc
  | S_Expr e => classify_expr e acc
  | S_Delete target _ => classify_expr target (ec_join acc WriteOnly)
  | S_Emit value _ => classify_expr value (ec_join acc WriteOnly)
  | S_LetTuple _ value _ => classify_expr value acc
  | S_Parallel ss _ => foldl (λ acc s, classify_stmt s acc) acc ss
  | S_ParallelForTo _ _ source output body _ =>
      classify_block body (classify_expr output (classify_expr source acc))
  end
with classify_if (ifs : IfStmt) (acc : EffectClass) {struct ifs} : EffectClass :=
  match ifs with mkIf cond then_ else_branch _ =>
    let acc1 := classify_block then_ (classify_expr cond acc) in
    match else_branch with
    | ElseNone => acc1
    | ElseBlock b => classify_block b acc1
    | ElseIf inner => classify_if inner acc1
    end
  end.

Definition classify_fn (f : FnDef) : EffectClass := classify_block (fd_body f) Pure.
End classify.

(** ** The fixed point *)

(** The classification of one function in a pass. *)
Definition classify_step (ctx : EffCtx) (p : gmap bytes EffectClass * bool) (f : FnDef) :
    gmap bytes EffectClass * bool :=
  let '(effects, changed) := p in
  let new_class := classify_fn ctx effects f in
  if decide (effects !! fd_name f = Some new_class) then (effects, changed)
  else (<[fd_name f := new_class]> effects, true).

(** One pass over the functions; each sees the classes the ones before it got. *)
Definition classify_pass (ctx : EffCtx) (fs : list FnDef) (effects : gmap bytes EffectClass) :
    gmap bytes EffectClass * bool := foldl (classify_step ctx) (effects, false) fs.

Fixpoint classify_loop (fuel : nat) (ctx : EffCtx) (fs : list FnDef)
    (effects : gmap bytes EffectClass) : outcome (gmap bytes EffectClass) :=
  match fuel with
  | O => OutOfFuel
  | S fuel' =>
      match classify_pass ctx fs effects with
      | (effects', true) => classify_loop fuel' ctx fs effects'
      | (effects', false) => Ok effects'
      end
  end.

(** [iter.map(..).collect::<HashMap>()]: a later key overwrites. *)
Definition collect {A} (l : list (bytes * A)) : gmap bytes A :=
  foldl (λ m p, <[p.1 := p.2]> m) ∅ l.

Definition eff_ctx (m : SrcModule) (externals : gmap bytes EffectClass)
    (extra_iface_names : gset bytes) : EffCtx :=
  mkEffCtx externals
    (list_to_set (ip_name <$> sm_imports m))
    (list_to_set (st_name <$> sm_states m))
    (collect ((λ s, (st_name s, st_ty s)) <$> sm_states m))
    (list_to_set (if_name <$> sm_interfaces m) ∪ extra_iface_names).

(** The fuel is the height of the lattice for every function, and a last pass. *)
Definition classify_with_externals_and_iface_names (m : SrcModule)
    (externals : gmap bytes EffectClass) (extra_iface_names : gset bytes) :
    outcome (gmap bytes EffectClass) :=
  let fs := sm_functions m in
  classify_loop (S (3 * length fs)) (eff_ctx m externals extra_iface_names) fs
    (collect ((λ f, (fd_name f, Pure)) <$> fs)).

Definition classify_with_externals (m : SrcModule) (externals : gmap bytes EffectClass) :
    outcome (gmap bytes EffectClass) :=
  classify_with_externals_and_iface_names m externals ∅.

Definition classify (m : SrcModule) : outcome (gmap bytes EffectClass) :=
  classify_with_externals m ∅.

(** ** Annotations *)
Definition effect_label (c : EffectClass) : bytes :=
  match c with
  | Pure => str "pure"
  | ReadOnly => str "read-only"
  | WriteOnly => str "write-only"
  | ReadWrite => str "read+write"
  | Impure => str "impure (host imports or unknown effects)"
  end.

(** The check of one function; [None] when it passes. *)
Definition purity_error (effects : gmap bytes EffectClass) (f : FnDef) : option Error :=
  if negb (fd_is_view f || fd_is_pure f) then None else
  let actual := default Impure (effects !! fd_name f) in
  let allowed := if fd_is_pure f then bool_decide (actual = Pure)
                 else bool_decide (actual = Pure) || bool_decide (actual = ReadOnly) in
  if allowed then None else
  Some (mkError TypeError (text (str "function '" ++ fd_name f ++ str "' is declared `" ++
    (if fd_is_pure f then str "pure" else str "view") ++ str "` but its body is " ++
    effect_label actual ++ str " (it must avoid " ++
    (if fd_is_pure f then str "all state access, host imports, and events"
     else str "state writes, host imports, and events") ++ str ")")) (fd_span f)).

Fixpoint first_error (errs : list (option Error)) : outcome unit :=
  match errs with
  | [] => Ok tt
  | Some e :: _ => Err e
  | None :: errs' => first_error errs'
  end.

Definition verify_purity_annotations (m : SrcModule) (effects : gmap bytes EffectClass) :
    outcome unit :=
  first_error (purity_error effects <$> sm_functions m).
