(* ===== verification/EffectsFacts.v ===== *)
(** The effect classes form a lattice, classification is monotone in the classes
    of the callees, and the iteration of [classify] answers its least fixed
    point. *)
From S2P Require Import Prelude Bytes Values Display Ops Bytecode Ast Effects JsonText.
(** ** The lattice *)
#[export] Instance ec_le : SqSubsetEq EffectClass := λ a b, ec_join a b = b.
#[export] Instance ec_le_dec : RelDecision (⊑@{EffectClass}).
Proof. intros a b. unfold sqsubseteq, ec_le. apply _. Defined.
#[export] Instance ec_le_po : PartialOrder (⊑@{EffectClass}).
Proof.
  split; [split|]; unfold sqsubseteq, ec_le.
  - by intros [].
  - by intros [] [] []; vm_compute.
  - intros [] []; vm_compute; congruence.
Qed.

Lemma join_mono a1 a2 b1 b2 : a1 ⊑ a2 → b1 ⊑ b2 → ec_join a1 b1 ⊑ ec_join a2 b2.
Proof. unfold sqsubseteq, ec_le. by destruct a1, a2, b1, b2. Qed.
Lemma Pure_le a : Pure ⊑ a.
Proof. by destruct a. Qed.
Lemma le_Impure a : a ⊑ Impure.
Proof. by destruct a. Qed.

(** The height of a class: 3 is the longest chain. *)
Definition ec_rank (c : EffectClass) : nat :=
  match c with Pure => 0 | ReadOnly | WriteOnly => 1 | ReadWrite => 2 | Impure => 3 end.
Lemma ec_rank_lt a b : a ⊑ b → a ≠ b → (ec_rank a < ec_rank b)%nat.
Proof. unfold sqsubseteq, ec_le. destruct a, b; cbn; intros; try done; lia. Qed.
Lemma ec_rank_max a : (ec_rank a ≤ 3)%nat.
Proof. destruct a; cbn; lia. Qed.

(** ** Monotonicity *)

(** The class a walk reads for a callee. *)
Definition class_of (effects : gmap bytes EffectClass) (name : bytes) : EffectClass :=
  default Impure (effects !! name).
Definition effects_le (e1 e2 : gmap bytes EffectClass) : Prop := ∀ n, class_of e1 n ⊑ class_of e2 n.

Lemma foldl_mono {A} (f1 f2 : EffectClass → A → EffectClass) l a1 a2 :
  Forall (λ x, ∀ a1 a2, a1 ⊑ a2 → f1 a1 x ⊑ f2 a2 x) l → a1 ⊑ a2 → foldl f1 a1 l ⊑ foldl f2 a2 l.
Proof. intros Hl. revert a1 a2. induction Hl as [|x l Hx _ IH]; cbn; intros; [done|]. by apply IH, Hx. Qed.

(** A block as an expression: its statements and its tail. *)
Definition classify_eblock (ctx : EffCtx) (L : gmap bytes EffectClass) (b : Block) (acc : EffectClass) :
    EffectClass :=
  let acc1 := foldl (λ acc s, classify_stmt ctx L s acc) acc (bl_stmts b) in
  match bl_tail b with Some t => classify_expr ctx L t acc1 | None => acc1 end.

Lemma expr_block_eq ctx L b sp a : classify_expr ctx L (mkExpr (E_Block b) sp) a = classify_eblock ctx L b a.
Proof. by destruct b as [ss [t|] sp']. Qed.
Lemma expr_if_eq ctx L c t e sp a : classify_expr ctx L (mkExpr (E_If c t e) sp) a =
  let acc := classify_eblock ctx L t (classify_expr ctx L c a) in
  match e with
  | ElseNone => acc
  | ElseBlock b => classify_eblock ctx L b acc
  | ElseIf i => classify_if ctx L i acc
  end.
Proof. by destruct t as [ss [t|] sp'], e as [|[ss' [t'|] ?]|i]. Qed.
#[local] Arguments classify_eblock : simpl never.

Section mono.
Context (ctx : EffCtx) (L1 L2 : gmap bytes EffectClass) (HL : effects_le L1 L2).

Definition mono_at {A} (f : gmap bytes EffectClass → A → EffectClass → EffectClass) (x : A) : Prop :=
  ∀ a1 a2, a1 ⊑ a2 → f L1 x a1 ⊑ f L2 x a2.

Lemma state_read_mono n a1 a2 : a1 ⊑ a2 → state_read ctx n a1 ⊑ state_read ctx n a2.
Proof. unfold state_read. case_match; [|done]. intros. by apply join_mono. Qed.

Lemma local_class_mono n a1 a2 : a1 ⊑ a2 →
  join_opt a1 (local_class ctx L1 n) ⊑ join_opt a2 (local_class ctx L2 n).
Proof. unfold local_class. intros. repeat case_match; cbn; try done; apply join_mono; try done. apply HL. Qed.

Lemma join_opt_mono c a1 a2 : a1 ⊑ a2 → join_opt a1 c ⊑ join_opt a2 c.
Proof. destruct c; cbn; [|done]. intros. by apply join_mono. Qed.

Ltac mono_fold :=
  apply foldl_mono;
    [first [match goal with H1 : Forall (_ ∘ fst) ?l, H2 : Forall (_ ∘ snd) ?l |- _ =>
              apply (Forall_impl2 _ _ _ _ H1 H2) end
           | eapply Forall_impl; [eassumption|]]|];
  repeat match goal with
  | |- ∀ _, _ => intros
  | p : (_ * _)%type |- _ => destruct p
  | a : MatchArm |- _ => destruct a
  | c : CompClause |- _ => destruct c
  end; cbn in *.

Ltac mono := repeat first
  [ assumption | reflexivity
  | apply state_read_mono | apply local_class_mono | apply join_opt_mono
  | apply join_mono
  | match goal with H : mono_at _ _ |- _ => apply H | H : mono_at _ _ ∧ mono_at _ _ |- _ => destruct H end
  | mono_fold
  | case_match; simpl in *; decompose_Forall_hyps ].


Lemma classify_mono :
  (∀ e, mono_at (classify_expr ctx) e) ∧
  (∀ b, mono_at (classify_block ctx) b ∧ mono_at (classify_eblock ctx) b) ∧
  (∀ s, mono_at (classify_stmt ctx) s) ∧ (∀ i, mono_at (classify_if ctx) i).
Proof.
  apply ast_ind.
  - intros k sp He Hb Hi a1 a2 Ha.
    destruct k; rewrite ?expr_block_eq, ?expr_if_eq;
      simpl in *; decompose_Forall_hyps; rewrite ?Forall_fmap in *; mono.
  - intros ss t sp Hss Ht. split; intros a1 a2 Ha; [simpl; mono|].
    unfold classify_eblock; simpl. destruct t; simpl in *; decompose_Forall_hyps; mono.
  - intros s He Hb Hs Hi a1 a2 Ha. destruct s; simpl in *; decompose_Forall_hyps; mono.
  - intros c t e sp Hc [Ht _] Hb Hi a1 a2 Ha. destruct e; simpl in *; decompose_Forall_hyps; mono.
Qed.

Lemma classify_fn_mono f : classify_fn ctx L1 f ⊑ classify_fn ctx L2 f.
Proof. unfold classify_fn. by apply (proj1 (proj2 classify_mono)). Qed.
End mono.

(** ** The iteration *)
Section fixpoint.
Context (ctx : EffCtx) (fs : list FnDef) (Hnodup : NoDup (fd_name <$> fs)).

(** Classes for the functions and nothing else, none above what a pass gives. *)
Definition effects_inv (E : gmap bytes EffectClass) : Prop :=
  (∀ n, is_Some (E !! n) ↔ n ∈ fd_name <$> fs) ∧
  (∀ f, f ∈ fs → class_of E (fd_name f) ⊑ classify_fn ctx E f).

Definition update_class (E : gmap bytes EffectClass) (f : FnDef) : gmap bytes EffectClass :=
  <[fd_name f := classify_fn ctx E f]> E.

Lemma class_of_insert E n c k : class_of (<[n := c]> E) k = if decide (n = k) then c else class_of E k.
Proof.
  unfold class_of. destruct (decide (n = k)) as [->|]; [by rewrite lookup_insert_eq|by rewrite lookup_insert_ne].
Qed.

Lemma same_name f g : f ∈ fs → g ∈ fs → fd_name f = fd_name g → f = g.
Proof.
  intros Hf Hg Hn. apply list_elem_of_lookup in Hf as [i Hi], Hg as [j Hj].
  assert (i = j) as ->; [|congruence].
  eapply (NoDup_lookup _ i j (fd_name f) Hnodup); rewrite list_lookup_fmap; [by rewrite Hi|by rewrite Hj, Hn].
Qed.

Lemma update_le E f : effects_inv E → f ∈ fs → effects_le E (update_class E f).
Proof.
  intros [_ HE] Hf n. unfold update_class. rewrite class_of_insert. case_decide as Hn; [|done].
  subst n. by apply HE.
Qed.

Lemma update_inv E f : effects_inv E → f ∈ fs → effects_inv (update_class E f).
Proof.
  intros HI Hf. pose proof (update_le E f HI Hf) as Hle. destruct HI as [Hdom HE]. split.
  - intros n. unfold update_class. destruct (decide (fd_name f = n)) as [<-|Hn].
    + rewrite lookup_insert_eq. split; [intros _|by eauto]. by apply list_elem_of_fmap_2.
    + rewrite lookup_insert_ne by done. apply Hdom.
  - intros g Hg. unfold update_class at 1. rewrite class_of_insert. case_decide as Hn.
    + rewrite <- (same_name f g Hf Hg Hn). by apply classify_fn_mono.
    + etransitivity; [by apply HE|by apply classify_fn_mono].
Qed.

(** The sum of the heights: the iteration's measure. *)
Definition effects_rank (E : gmap bytes EffectClass) (l : list FnDef) : nat :=
  sum_list_with (λ f, ec_rank (class_of E (fd_name f))) l.

Lemma effects_rank_max E l : (effects_rank E l ≤ 3 * length l)%nat.
Proof.
  unfold effects_rank. induction l as [|f l IH]; cbn; [lia|].
  pose proof (ec_rank_max (class_of E (fd_name f))). lia.
Qed.
Lemma ec_rank_mono a b : a ⊑ b → (ec_rank a ≤ ec_rank b)%nat.
Proof. intros H. destruct (decide (a = b)) as [->|Hne]; [done|]. pose proof (ec_rank_lt a b H Hne). lia. Qed.
Lemma effects_rank_mono E E' l : effects_le E E' → (effects_rank E l ≤ effects_rank E' l)%nat.
Proof.
  intros Hle. unfold effects_rank. induction l as [|f l IH]; cbn; [lia|].
  pose proof (ec_rank_mono _ _ (Hle (fd_name f))). lia.
Qed.
Lemma effects_rank_lt E E' f l : effects_le E E' → f ∈ l →
  class_of E (fd_name f) ≠ class_of E' (fd_name f) → (effects_rank E l < effects_rank E' l)%nat.
Proof.
  intros Hle Hf Hne. induction l as [|g l IH]; [by apply not_elem_of_nil in Hf|]. cbn.
  apply elem_of_cons in Hf as [<-|Hf].
  - pose proof (ec_rank_lt _ _ (Hle (fd_name f)) Hne). pose proof (effects_rank_mono E E' l Hle).
    unfold effects_rank in *. lia.
  - specialize (IH Hf). pose proof (ec_rank_mono _ _ (Hle (fd_name g))). unfold effects_rank in *. lia.
Qed.

(** A bound that the passes do not leave. *)
Definition bounds (U : gmap bytes EffectClass) : Prop :=
  ∀ f, f ∈ fs → classify_fn ctx U f ⊑ class_of U (fd_name f).

Lemma update_bounded E U f : bounds U → f ∈ fs → effects_le E U → effects_le (update_class E f) U.
Proof.
  intros HU Hf Hle n. unfold update_class. rewrite class_of_insert. case_decide as Hn; [|done].
  subst n. etransitivity; [by apply classify_fn_mono|by apply HU].
Qed.

Lemma pass_ok l E ch : l ⊆ fs → effects_inv E →
  let E' := (foldl (classify_step ctx) (E, ch) l).1 in
  let ch' := (foldl (classify_step ctx) (E, ch) l).2 in
  effects_inv E' ∧ effects_le E E' ∧ (ch = true → ch' = true) ∧
  (ch' = false → E' = E ∧ ∀ f, f ∈ l → E !! fd_name f = Some (classify_fn ctx E f)) ∧
  (ch = false → ch' = true → (effects_rank E fs < effects_rank E' fs)%nat) ∧
  (∀ U, bounds U → effects_le E U → effects_le E' U).
Proof.
  revert E ch. induction l as [|f l IH]; intros E ch Hl HE.
  { cbn. splits; [done|intros n; reflexivity|done| |by intros -> ?|done].
    intros _. split; [done|]. intros f Hf. by apply not_elem_of_nil in Hf. }
  assert (Hf : f ∈ fs) by set_solver. cbn [foldl classify_step].
  destruct (decide (E !! fd_name f = Some (classify_fn ctx E f))) as [Hsame|Hnew].
  - destruct (IH E ch ltac:(set_solver) HE) as (H1 & H2 & H3 & H4 & H5 & H6). splits; try done.
    intros Hch. destruct (H4 Hch) as [-> Hall]. split; [done|]. set_solver.
  - destruct (IH (update_class E f) true ltac:(set_solver) (update_inv E f HE Hf)) as (H1 & H2 & H3 & H4 & H5 & H6).
    pose proof (update_le E f HE Hf) as Hle. fold (update_class E f) in *. splits; [done| | | | |].
    + intros n. etransitivity; [apply Hle|apply H2].
    + intros _. by apply H3.
    + intros Hch. by rewrite H3 in Hch.
    + intros _ _. eapply Nat.lt_le_trans; [|by apply effects_rank_mono].
      apply effects_rank_lt with f; [done..|]. unfold update_class. rewrite class_of_insert, decide_True by done.
      intros Heq. apply Hnew. destruct (proj1 HE (fd_name f)) as [_ [c Hc]]; [by apply list_elem_of_fmap_2|].
      unfold class_of in Heq. rewrite Hc in *. cbn in Heq. by rewrite Heq.
    + intros U HU HEU. apply H6; [done|]. by apply update_bounded.
Qed.

Lemma loop_ok fuel E : effects_inv E → (3 * length fs - effects_rank E fs < fuel)%nat →
  ∃ E', classify_loop fuel ctx fs E = Ok E' ∧ effects_inv E' ∧
    (∀ f, f ∈ fs → E' !! fd_name f = Some (classify_fn ctx E' f)) ∧
    (∀ U, bounds U → effects_le E U → effects_le E' U).
Proof.
  revert E. induction fuel as [|fuel IH]; intros E HE Hf; [lia|].
  destruct (pass_ok fs E false (reflexivity _) HE) as (H1 & H2 & H3 & H4 & H5 & H6).
  cbn [classify_loop]. unfold classify_pass.
  destruct (foldl (classify_step ctx) (E, false) fs) as [E' [|]]; cbn in *.
  - destruct (IH E' H1) as (E'' & -> & G1 & G2 & G3).
    { specialize (H5 eq_refl eq_refl). pose proof (effects_rank_max E' fs). lia. }
    exists E''. splits; auto.
  - destruct (H4 eq_refl) as [-> Hfix]. exists E. by splits.
Qed.
End fixpoint.

Lemma collect_lookup {A} (l : list (bytes * A)) k : NoDup l.*1 →
  ∀ v, collect l !! k = Some v ↔ (k, v) ∈ l.
Proof.
  unfold collect. assert (∀ (m : gmap bytes A), NoDup l.*1 → ∀ v,
    foldl (λ m p, <[p.1 := p.2]> m) m l !! k = Some v ↔ (k, v) ∈ l ∨ (k ∉ l.*1 ∧ m !! k = Some v)) as H.
  { induction l as [|[k' v'] l IH]; intros m Hnd v; cbn.
    - split; [intros; right; split; [apply not_elem_of_nil|done]|]. intros [H|[_ H]]; [by apply not_elem_of_nil in H|done].
    - apply NoDup_cons in Hnd as [Hn Hnd]. rewrite IH by done. rewrite !elem_of_cons.
      destruct (decide (k' = k)) as [->|Hk].
      + rewrite lookup_insert_eq. split.
        * intros [H|[_ [= ->]]]; [tauto|by left; left].
        * intros [[[= ->]|H]|[H _]]; [by right|by left|]. exfalso. apply H. by left.
      + rewrite lookup_insert_ne by done. split.
        * intros [H|[H1 H2]]; [tauto|]. right. split; [|done]. intros [E|E]; [by apply Hk|done].
        * intros [[[= -> ->]|H]|[H1 H2]]; [done|tauto|]. right. split; [|done]. tauto. }
  intros Hnd v. rewrite H by done. split; [intros [?|[_ ?]]; done|by left].
Qed.

Lemma classify_least_ok (m : SrcModule) (externals : gmap bytes EffectClass) (ifaces : gset bytes) :
  let fs := sm_functions m in
  let ctx := eff_ctx m externals ifaces in
  NoDup (fd_name <$> fs) →
  ∃ E, classify_with_externals_and_iface_names m externals ifaces = Ok E ∧
    (∀ n, is_Some (E !! n) ↔ n ∈ fd_name <$> fs) ∧
    (∀ f, f ∈ fs → E !! fd_name f = Some (classify_fn ctx E f)) ∧
    (∀ U, (∀ n, n ∉ fd_name <$> fs → U !! n = None) → bounds ctx fs U → effects_le E U).
Proof.
  intros fs ctx Hnd. unfold classify_with_externals_and_iface_names. fold fs ctx.
  set (E0 := collect ((λ f, (fd_name f, Pure)) <$> fs)).
  assert (HE0 : ∀ n v, E0 !! n = Some v ↔ n ∈ fd_name <$> fs ∧ v = Pure).
  { intros n v. unfold E0. rewrite collect_lookup; [|by rewrite <- list_fmap_compose].
    rewrite !list_elem_of_fmap. naive_solver. }
  assert (Hinv : effects_inv ctx fs E0).
  { split.
    - intros n. split; [intros [v Hv]; by apply HE0 in Hv as []|]. intros Hn. exists Pure. by apply HE0.
    - intros f Hf. unfold class_of. rewrite (proj2 (HE0 (fd_name f) Pure)); [apply Pure_le|].
      split; [by apply list_elem_of_fmap_2|done]. }
  destruct (loop_ok ctx fs Hnd (S (3 * length fs)) E0 Hinv) as (E & HE & [Hdom _] & Hfix & Hleast); [lia|].
  exists E. splits; [done|done|done|]. intros U HU Hb. apply Hleast; [done|]. intros n. unfold class_of.
  destruct (decide (n ∈ fd_name <$> fs)) as [Hn|Hn].
  - rewrite (proj2 (HE0 n Pure)) by done. apply Pure_le.
  - rewrite HU by done. apply le_Impure.
Qed.

(** The answer of [classify] gives every function the class of its body. *)
Lemma effects_fixed m externals ifaces E :
  NoDup (fd_name <$> sm_functions m) → classify_with_externals_and_iface_names m externals ifaces = Ok E →
  ∀ f, f ∈ sm_functions m → E !! fd_name f = Some (classify_fn (eff_ctx m externals ifaces) E f).
Proof.
  intros Hnd HE. destruct (classify_least_ok m externals ifaces Hnd) as (E' & HE' & _ & Hfix & _).
  rewrite HE in HE'. by injection HE' as <-.
Qed.

(** C32: with functions of distinct names, [classify] stops and answers its least
    fixed point: every function has the class of its body under the answer, and
    any other assignment that bounds the bodies' classes is above it. *)
Theorem classify_least (m : SrcModule) (externals : gmap bytes EffectClass) (ifaces : gset bytes) :
  let fs := sm_functions m in
  let ctx := eff_ctx m externals ifaces in
  NoDup (fd_name <$> fs) →
  ∃ E, classify_with_externals_and_iface_names m externals ifaces = Ok E ∧
    (∀ n, is_Some (E !! n) ↔ n ∈ fd_name <$> fs) ∧
    (∀ f, f ∈ fs → E !! fd_name f = Some (classify_fn ctx E f)) ∧
    (∀ U, (∀ n, n ∉ fd_name <$> fs → U !! n = None) → bounds ctx fs U → effects_le E U).
Proof. apply classify_least_ok. Qed.

(** * What the classifier computes, as a relation: the effects that occur in a body,
    each at the node that has it.  The class of a function is their least upper
    bound, and a verified annotation bounds every one of them. *)
(** ** Occurrences *)
Section occurs.
Context (ctx : EffCtx) (L : gmap bytes EffectClass).

(** The effect a node has of its own. *)
Definition own_effect (k : ExprKind) : option EffectClass :=
  match k with
  | E_Ident name => if bool_decide (name ∈ ef_states ctx) then Some ReadOnly else None
  | E_Reserve _ _ => Some WriteOnly
  | E_DynCall target_ident method _ is_view is_pure =>
      Some (dyn_class ctx target_ident method is_view is_pure)
  | E_Call (Some mod_name) name _ => external_class ctx mod_name name
  | E_Call None name _ => local_class ctx L name
  | _ => None
  end.
Definition own_stmt_effect (s : Stmt) : option EffectClass :=
  match s with
  | S_Assign target _ _ => if assign_target_is_state ctx target then Some WriteOnly else None
  | S_Delete _ _ | S_Emit _ _ => Some WriteOnly
  | _ => None
  end.

(** The expressions of a statement that the classifier looks into: neither the
    target of an assignment nor the limit of a loop. *)
Definition visited_exprs (s : Stmt) : list Expr :=
  match s with
  | S_Assign _ value _ => [value]
  | S_For _ iter _ _ _ => [iter]
  | _ => stmt_exprs s
  end.

(** [c] occurs in an expression, a block as a value, a block as a statement (its
    tail is not looked into), a statement, a conditional. *)
Inductive occurs_e : Expr → EffectClass → Prop :=
  | oe_own k sp c : own_effect k = Some c → occurs_e (mkExpr k sp) c
  | oe_expr k sp e c : e ∈ kind_exprs k → occurs_e e c → occurs_e (mkExpr k sp) c
  | oe_block k sp b c : b ∈ kind_blocks k → occurs_v b c → occurs_e (mkExpr k sp) c
  | oe_if k sp i c : i ∈ kind_ifs k → occurs_i i c → occurs_e (mkExpr k sp) c
with occurs_v : Block → EffectClass → Prop :=
  | ov_stmts b c : occurs_b b c → occurs_v b c
  | ov_tail b e c : bl_tail b = Some e → occurs_e e c → occurs_v b c
with occurs_b : Block → EffectClass → Prop :=
  | ob_stmt b s c : s ∈ bl_stmts b → occurs_s s c → occurs_b b c
with occurs_s : Stmt → EffectClass → Prop :=
  | os_own s c : own_stmt_effect s = Some c → occurs_s s c
  | os_expr s e c : e ∈ visited_exprs s → occurs_e e c → occurs_s s c
  | os_block s b c : b ∈ stmt_blocks s → occurs_b b c → occurs_s s c
  | os_stmt s s' c : s' ∈ stmt_stmts s → occurs_s s' c → occurs_s s c
  | os_if s i c : i ∈ stmt_ifs s → occurs_i i c → occurs_s s c
with occurs_i : IfStmt → EffectClass → Prop :=
  | oi_cond cnd t e sp c : occurs_e cnd c → occurs_i (mkIf cnd t e sp) c
  | oi_then cnd t e sp c : occurs_b t c → occurs_i (mkIf cnd t e sp) c
  | oi_else cnd t e sp b c : b ∈ else_blocks e → occurs_b b c → occurs_i (mkIf cnd t e sp) c
  | oi_elseif cnd t e sp i c : i ∈ else_ifs e → occurs_i i c → occurs_i (mkIf cnd t e sp) c.

(** ** The class is the least upper bound *)

(** [f x acc] is the least upper bound of [acc] and what occurs in [x]. *)
Definition is_lub {A} (occ : A → EffectClass → Prop) (f : A → EffectClass → EffectClass) (x : A) : Prop :=
  ∀ acc u, f x acc ⊑ u ↔ acc ⊑ u ∧ ∀ c, occ x c → c ⊑ u.

Lemma join_lub a b u : ec_join a b ⊑ u ↔ a ⊑ u ∧ b ⊑ u.
Proof. unfold sqsubseteq, ec_le. destruct a, b, u; vm_compute; naive_solver. Qed.
Lemma join_opt_lub a c u : join_opt a c ⊑ u ↔ a ⊑ u ∧ ∀ c', c = Some c' → c' ⊑ u.
Proof. destruct c; cbn; [rewrite join_lub|]; naive_solver. Qed.

(** Everything that occurs in a list is below [u]. *)
Definition all_le {A} (occ : A → EffectClass → Prop) (l : list A) (u : EffectClass) : Prop :=
  ∀ x, x ∈ l → ∀ c, occ x c → c ⊑ u.

Lemma all_le_nil {A} occ u : all_le occ ([] : list A) u ↔ True.
Proof. split; [done|]. by intros _ x ?%not_elem_of_nil. Qed.
Lemma all_le_cons {A} occ (x : A) l u : all_le occ (x :: l) u ↔ (∀ c, occ x c → c ⊑ u) ∧ all_le occ l u.
Proof.
  unfold all_le. split.
  - intros H. split; [apply H; by left|]. intros y Hy. apply H. by right.
  - intros [H1 H2] y [->|Hy]%elem_of_cons; [done|by apply H2].
Qed.
Lemma all_le_app {A} occ (l1 l2 : list A) u : all_le occ (l1 ++ l2) u ↔ all_le occ l1 u ∧ all_le occ l2 u.
Proof. induction l1 as [|x l1 IH]; cbn; rewrite ?all_le_nil, ?all_le_cons; [tauto|]. rewrite IH. tauto. Qed.

(** A walk over a list of nodes, or of parts [g x] of its elements. *)
Lemma foldl_lub {A B} (occ : B → EffectClass → Prop) (h : B → EffectClass → EffectClass) (g : A → B) f l acc u :
  (∀ acc x, f acc x = h (g x) acc) → Forall (is_lub occ h) (g <$> l) →
  foldl f acc l ⊑ u ↔ acc ⊑ u ∧ all_le occ (g <$> l) u.
Proof.
  intros Hf Hl. revert acc. induction l as [|x l IH]; intros acc.
  - cbn. rewrite all_le_nil. tauto.
  - rewrite fmap_cons in *. apply Forall_cons in Hl as [Hx Hl]. cbn [foldl].
    rewrite (IH Hl), all_le_cons, Hf, (Hx acc u). tauto.
Qed.

Lemma foldl_pairs_lub f l acc u :
  (∀ acc p, f acc p = classify_expr ctx L p.2 (classify_expr ctx L p.1 acc)) →
  Forall (is_lub occurs_e (classify_expr ctx L)) ((fst <$> l) ++ (snd <$> l)) →
  foldl f acc l ⊑ u ↔ acc ⊑ u ∧ all_le occurs_e ((fst <$> l) ++ (snd <$> l)) u.
Proof.
  intros Hf [H1 H2]%Forall_app. revert acc. induction l as [|p l IH]; intros acc.
  - cbn. rewrite all_le_nil. tauto.
  - rewrite !fmap_cons in *. apply Forall_cons in H1 as [Hp1 H1]. apply Forall_cons in H2 as [Hp2 H2].
    cbn [foldl]. rewrite (IH H1 H2), Hf, (Hp2 _ u), (Hp1 _ u), !all_le_app, !all_le_cons. tauto.
Qed.

(** What occurs in a node: its own effect, or an effect of a part. *)
Lemma expr_occurs k sp u : (∀ c, occurs_e (mkExpr k sp) c → c ⊑ u) ↔
  (∀ c, own_effect k = Some c → c ⊑ u) ∧ all_le occurs_e (kind_exprs k) u ∧
  all_le occurs_v (kind_blocks k) u ∧ all_le occurs_i (kind_ifs k) u.
Proof.
  split.
  - intros H. splits; [|intros x Hx..]; intros c Hc; apply H;
      [by apply oe_own|by eapply oe_expr|by eapply oe_block|by eapply oe_if].
  - intros (H1 & H2 & H3 & H4) c Hc. inversion Hc; subst; [by apply H1|by eapply H2|by eapply H3|by eapply H4].
Qed.
Lemma stmt_occurs s u : (∀ c, occurs_s s c → c ⊑ u) ↔
  (∀ c, own_stmt_effect s = Some c → c ⊑ u) ∧ all_le occurs_e (visited_exprs s) u ∧
  all_le occurs_b (stmt_blocks s) u ∧ all_le occurs_s (stmt_stmts s) u ∧ all_le occurs_i (stmt_ifs s) u.
Proof.
  split.
  - intros H. splits; [|intros x Hx..]; intros c Hc; apply H;
      [by apply os_own|by eapply os_expr|by eapply os_block|by eapply os_stmt|by eapply os_if].
  - intros (H1 & H2 & H3 & H4 & H5) c Hc.
    inversion Hc; subst; [by apply H1|by eapply H2|by eapply H3|by eapply H4|by eapply H5].
Qed.
Lemma block_occurs b u : (∀ c, occurs_b b c → c ⊑ u) ↔ all_le occurs_s (bl_stmts b) u.
Proof.
  split; [intros H s Hs c Hc; apply H; by econstructor|]. intros H c Hc. inversion Hc; subst. by eapply H.
Qed.
Lemma value_occurs b u : (∀ c, occurs_v b c → c ⊑ u) ↔
  all_le occurs_s (bl_stmts b) u ∧ all_le occurs_e (option_list (bl_tail b)) u.
Proof.
  rewrite <- block_occurs. split.
  - intros H. split; [intros c Hc; apply H; by constructor|]. intros e He c Hc. apply H.
    destruct (bl_tail b) as [e'|] eqn:E; cbn in He; [|by apply not_elem_of_nil in He].
    apply list_elem_of_singleton in He as ->. by eapply ov_tail.
  - intros [H1 H2] c Hc. inversion Hc as [|? e ? He]; subst; [by apply H1|]. eapply H2; [|done]. rewrite He. by left.
Qed.
Lemma if_occurs cnd t e sp u : (∀ c, occurs_i (mkIf cnd t e sp) c → c ⊑ u) ↔
  (∀ c, occurs_e cnd c → c ⊑ u) ∧ (∀ c, occurs_b t c → c ⊑ u) ∧
  all_le occurs_b (else_blocks e) u ∧ all_le occurs_i (else_ifs e) u.
Proof.
  split.
  - intros H. splits; [| |intros x Hx..]; intros c Hc; apply H;
      [by apply oi_cond|by apply oi_then|by eapply oi_else|by eapply oi_elseif].
  - intros (H1 & H2 & H3 & H4) c Hc. inversion Hc; subst; [by apply H1|by apply H2|by eapply H3|by eapply H4].
Qed.

Lemma none_le u : (∀ c : EffectClass, None = Some c → c ⊑ u) ↔ True.
Proof. done. Qed.
Lemma some_le (c u : EffectClass) : (∀ c', Some c = Some c' → c' ⊑ u) ↔ c ⊑ u.
Proof. naive_solver. Qed.
Lemma state_read_lub n acc u : state_read ctx n acc ⊑ u ↔
  acc ⊑ u ∧ ∀ c, (if bool_decide (n ∈ ef_states ctx) then Some ReadOnly else None) = Some c → c ⊑ u.
Proof. unfold state_read. case_match; rewrite ?join_lub, ?some_le, ?none_le; tauto. Qed.

(** The early read of an index target adds nothing to the read of the target. *)
Lemma index_target_eq target acc :
  classify_expr ctx L target (match target with mkExpr (E_Ident n) _ => state_read ctx n acc | _ => acc end) =
  classify_expr ctx L target acc.
Proof.
  destruct target as [[] ?]; try reflexivity. cbn. unfold state_read. case_match; [|done].
  by destruct acc.
Qed.

Lemma foldl_list_lub {B} (occ : B → EffectClass → Prop) h f l acc u :
  (∀ acc x, f acc x = h x acc) → Forall (is_lub occ h) l → foldl f acc l ⊑ u ↔ acc ⊑ u ∧ all_le occ l u.
Proof. intros Hf Hl. rewrite (foldl_lub occ h id f), list_fmap_id; [done|done|by rewrite list_fmap_id]. Qed.

#[local] Arguments classify_eblock : simpl never.

Ltac lub := repeat first
  [ match goal with H : is_lub _ _ _ |- _ => rewrite (H _ _) end
  | match goal with H : is_lub _ _ _ ∧ is_lub _ _ _ |- _ => destruct H end
  | rewrite join_lub | rewrite join_opt_lub | rewrite state_read_lub
  | rewrite (foldl_list_lub occurs_e (classify_expr ctx L)) by done
  | rewrite (foldl_list_lub occurs_s (classify_stmt ctx L)) by done
  | rewrite (foldl_lub occurs_e (classify_expr ctx L) snd) by (done || by intros ? [])
  | rewrite (foldl_lub occurs_e (classify_expr ctx L) arm_body) by (done || by intros ? [])
  | rewrite (foldl_lub occurs_e (classify_expr ctx L) clause_expr) by (done || by intros ? [])
  | rewrite foldl_pairs_lub by (done || by intros ? [])
  | progress rewrite ?all_le_cons, ?all_le_nil, ?none_le, ?some_le ].

Lemma classify_lub :
  (∀ e, is_lub occurs_e (classify_expr ctx L) e) ∧
  (∀ b, is_lub occurs_b (classify_block ctx L) b ∧ is_lub occurs_v (classify_eblock ctx L) b) ∧
  (∀ s, is_lub occurs_s (classify_stmt ctx L) s) ∧ (∀ i, is_lub occurs_i (classify_if ctx L) i).
Proof.
  apply ast_ind.
  - intros k sp He Hb Hi acc u. rewrite expr_occurs.
    destruct k; rewrite ?expr_block_eq, ?expr_if_eq; simpl in *; rewrite ?index_target_eq; decompose_Forall_hyps.
    all: try (lub; tauto).
    + destruct module; lub; tauto.
    + rewrite foldl_pairs_lub by (by intros ? [] || by apply Forall_app_2). lub. tauto.
    + destruct else_branch; simpl in *; decompose_Forall_hyps; lub; tauto.
  - intros ss t sp Hss Ht. split; intros acc u; [rewrite block_occurs|rewrite value_occurs]; simpl.
    + lub. tauto.
    + unfold classify_eblock; simpl. destruct t; simpl in *; decompose_Forall_hyps; lub; tauto.
  - intros s He Hb Hs Hi acc u. rewrite stmt_occurs. destruct s; simpl in *; decompose_Forall_hyps; try (lub; tauto).
    + case_match; lub; tauto.
    + destruct value; simpl in *; decompose_Forall_hyps; lub; tauto.
  - intros c t e sp Hc [Ht _] Hb Hi acc u. rewrite if_occurs.
    destruct e; simpl in *; decompose_Forall_hyps; lub; tauto.
Qed.
End occurs.


(** ** Annotations *)
Lemma first_error_ok errs : first_error errs = Ok tt ↔ ∀ e, e ∈ errs → e = None.
Proof.
  induction errs as [|[e|] errs IH]; cbn.
  - split; [intros _ e ?%not_elem_of_nil|]; done.
  - split; [done|]. intros H. discriminate (H (Some e)). by left.
  - rewrite IH. split; [intros H e [->|]%elem_of_cons; auto|]. intros H e He. apply H. by right.
Qed.

Lemma purity_ok effects f c : effects !! fd_name f = Some c →
  purity_error effects f = None ↔
  (fd_is_pure f = true → c ⊑ Pure) ∧ (fd_is_view f = true → c ⊑ ReadOnly).
Proof.
  intros Hc. unfold purity_error. rewrite Hc. cbn [default].
  destruct (fd_is_view f), (fd_is_pure f), c; vm_compute; naive_solver.
Qed.

