(* ===== verification/Affine.v ===== *)
(** Affine ownership analysis ([crates/rend/src/affine.rs]): bindings of a type
    that is not [Copy] are moved by a use, and no moved binding is used. *)
From S2P Require Import Prelude Bytes Values JsonText Display Ops Bytecode Ast Effects.
#[local] Set Warnings "-register-all".

(** ** Bindings and scopes *)
Record Binding := mkBinding { bd_ty : Ty; bd_moved_at : option Span }.
Definition live (ty : Ty) : Binding := mkBinding ty None.

(** [Env]: the scopes, the innermost first (the code pushes at the end). *)
Abbreviation Env := (list (gmap bytes Binding)).
Abbreviation AF := (SM Env).

(** The tables of a module: return types of functions, types of states and
    constants, capabilities. *)
Record AffCtx := mkAffCtx {
  af_sigs : gmap bytes Ty;
  af_states : gmap bytes Ty;
  af_cap_decls : gmap bytes (list (bytes * Ty));
}.

Definition builtin_sigs : list (bytes * Ty) := Eval compute in
  [(str "resource", TResource); (str "unwrap", TInt); (str "address", TAddress);
   (str "len", TInt); (str "assert", TUnit); (str "msg_sender", TAddress);
   (str "block_timestamp", TU64); (str "block_number", TU64); (str "to_bytes", TBytes);
   (str "bytes_len", TInt); (str "bytes_concat", TBytes); (str "bytes_eq", TBool);
   (str "bytes_slice", TBytes); (str "to_be_bytes", TBytes); (str "bit_not_bytes",
   TBytes); (str "string_concat", TString); (str "pmap_contains", TBool);
   (str "pvec_push", TU64); (str "pvec_len", TU64); (str "pmap_entries", TInt);
   (str "pmap_keys", TInt); (str "pmap_values", TInt); (str "pvec_to_array", TInt);
   (str "sum", TInt); (str "max", TInt); (str "min", TInt); (str "pbtree_contains",
   TBool); (str "pbtree_range", TInt); (str "parse_json", TJson); (str "json_stringify",
   TString); (str "json_get_field", TJson); (str "json_get_index", TJson);
   (str "json_to_string", TString); (str "json_to_i64", TInt); (str "json_to_u64", TU64);
   (str "json_to_bool", TBool); (str "json_is_null", TBool); (str "string_slice",
   TString); (str "string_contains", TBool); (str "i64", TInt); (str "i32", TI32);
   (str "u32", TU32); (str "u64", TU64); (str "u128", TU128); (str "set_insert", TInt);
   (str "set_remove", TInt); (str "set_contains", TBool); (str "set_len", TInt);
   (str "dict_set", TInt); (str "dict_remove", TInt); (str "dict_get", TInt);
   (str "dict_has", TBool); (str "dict_len", TInt)].

Definition build_sigs (m : SrcModule) : gmap bytes Ty :=
  collect (builtin_sigs ++ ((λ i, (ip_name i, ip_return_type i)) <$> sm_imports m) ++
    ((λ f, (fd_name f, fd_return_type f)) <$> sm_functions m)).

Definition aff_ctx (m : SrcModule) : AffCtx :=
  mkAffCtx (build_sigs m)
    (collect (((λ s, (st_name s, st_ty s)) <$> sm_states m) ++
      ((λ c, (cn_name c, cn_ty c)) <$> sm_consts m)))
    (collect ((λ c, (cd_name c, (λ f, (sf_name f, sf_ty f)) <$> cd_fields c)) <$> sm_caps m)).

Definition aff_err {A} (msg : bytes) (span : Span) : AF A := lift (Err (mkError TypeError (text msg) span)).
Definition use_after_move (name : bytes) (prev : Span) : bytes :=
  str "value '" ++ name ++ str "' used after move (moved at " ++ dec (span_start prev) ++
  str ".." ++ dec (span_end prev) ++ str ")".

Definition push_scope : AF unit := modify (λ env, ∅ :: env).
Definition pop_scope : AF unit := modify tail.
(** [env.last_mut().unwrap().insert(name, ..)]. *)
Definition bind_name (name : bytes) (b : Binding) : AF unit := λ env,
  match env with
  | scope :: rest => (Ok tt, <[name := b]> scope :: rest)
  | [] => (Panic, env)
  end.
Definition bind_all (names : list bytes) (ty : Ty) : AF unit :=
  modify (λ env, match env with
                 | scope :: rest => foldl (λ s n, <[n := live ty]> s) scope names :: rest
                 | [] => env
                 end).
(** [*env = snapshot]. *)
Definition restore (snapshot : Env) : AF unit := modify (λ _, snapshot).
Definition get_env : AF Env := gets id.

(** [merge]: a binding is moved if it was on either side. *)
Definition merge_scope (sa sb : gmap bytes Binding) : gmap bytes Binding :=
  map_imap (λ k va,
    let vb := default va (sb !! k) in
    Some (mkBinding (bd_ty va)
      (match bd_moved_at va with Some s => Some s | None => bd_moved_at vb end))) sa.
Definition merge (a b : Env) : Env := zip_with merge_scope a b.

(** A list of checks, the first failure ends it. *)
Section for_each.
Context {A : Type} (f : A → AF unit).
Fixpoint for_each (l : list A) : AF unit :=
  match l with
  | [] => mret tt
  | x :: l' => _ ← f x; for_each l'
  end.
End for_each.

Section check.
Context (ctx : AffCtx).

(** The use of a name: the innermost binding of that name, which a type that is
    not [Copy] moves. *)
Fixpoint use_in (name : bytes) (span : Span) (env : Env) : option (outcome Ty * Env) :=
  match env with
  | [] => None
  | scope :: rest =>
      match scope !! name with
      | Some b =>
          match bd_moved_at b with
          | Some prev => Some (Err (mkError TypeError (text (use_after_move name prev)) span), env)
          | None =>
              if is_copy (bd_ty b) then Some (Ok (bd_ty b), env)
              else Some (Ok (bd_ty b), <[name := mkBinding (bd_ty b) (Some span)]> scope :: rest)
          end
      | None =>
          match use_in name span rest with
          | Some (r, rest') => Some (r, scope :: rest')
          | None => None
          end
      end
  end.

Definition use_name (name : bytes) (span : Span) : AF Ty := λ env,
  match use_in name span env with
  | Some r => r
  | None =>
      match af_states ctx !! name with
      | Some t => (Ok t, env)
      | None => aff_err (str "undefined variable '" ++ name ++ str "'") span env
      end
  end.

(** The name at the root of a field access: the outermost binding of that name. *)
Definition peek_name (name : bytes) (span : Span) : AF unit :=
  env ← get_env;
  match list_find (λ scope : gmap bytes Binding, is_Some (scope !! name)) (reverse env) with
  | Some (_, scope) =>
      match bd_moved_at <$> scope !! name with
      | Some (Some prev) => aff_err (use_after_move name prev) span
      | _ => mret tt
      end
  | None => mret tt
  end.

Definition in_scope {A} (m : AF A) : AF A := _ ← push_scope; r ← m; _ ← pop_scope; mret r.

(** A loop body: one pass from a scope with the loop variables, whose moves are
    then forgotten. *)
Definition loop_body (vars : list (bytes * Ty)) (m : AF unit) : AF unit :=
  snapshot ← get_env;
  _ ← push_scope;
  _ ← for_each (λ p, bind_name p.1 (live p.2)) vars;
  _ ← m;
  _ ← pop_scope;
  restore snapshot.

(** The scopes that the clauses of a comprehension open. *)
Definition count_fors (clauses : list CompClause) : nat :=
  length (List.filter (λ c, match c with C_For _ _ => true | C_If _ => false end) clauses).
Definition pop_many (n : nat) : AF unit := modify (drop n).

(** [check_expr], and [field_peek] when [peek]: they differ on a bare name only,
    which a field access does not move. *)
Fixpoint check_expr_at (peek : bool) (expr : Expr) {struct expr} : AF Ty :=
  match expr with mkExpr kind span =>
  match kind with
  | E_Int _ => mret TInt
  | E_UInt _ => mret TUInt
  | E_Float _ => mret TFloat
  | E_JsonObject _ | E_JsonArray _ | E_JsonNull => mret TJson
  | E_I32 _ => mret TI32
  | E_U32 _ => mret TU32
  | E_U64 _ => mret TU64
  | E_U128 _ => mret TU128
  | E_Bool _ => mret TBool
  | E_Str _ => mret TString
  | E_Ident name => if peek then _ ← peek_name name span; mret TInt else use_name name span
  | E_Binary _ lhs rhs => _ ← check_expr_at false lhs; _ ← check_expr_at false rhs; mret TInt
  | E_Unary _ operand => _ ← check_expr_at false operand; mret TInt
  | E_DynCall _ _ args _ _ => _ ← for_each (λ a, _ ← check_expr_at false a; mret tt) args; mret TInt
  | E_Call module name args =>
      _ ← for_each (λ a, _ ← check_expr_at false a; mret tt) args;
      match module with
      | Some _ => mret TInt
      | None =>
          match af_sigs ctx !! name with
          | Some ret => mret ret
          | None => aff_err (str "unknown function '" ++ name ++ str "'") span
          end
      end
  | E_Index target key =>
      _ ← check_expr_at false key;
      _ ← check_expr_at false target;
      mret (match target with
            | mkExpr (E_Ident name) _ =>
                match af_states ctx !! name with Some (TMap _ value) => value | _ => TInt end
            | _ => TInt
            end)
  | E_Array elems => _ ← for_each (λ a, _ ← check_expr_at false a; mret tt) elems; mret TInt
  | E_ArrayAlloc _ len => _ ← check_expr_at false len; mret TInt
  | E_Reserve count _ => _ ← check_expr_at false count; mret TInt
  | E_ExplicitLiteral inner => check_expr_at false inner
  | E_StructLit name fields =>
      _ ← for_each (λ p, match p with (_, e) => _ ← check_expr_at false e; mret tt end) fields;
      mret (match af_cap_decls ctx !! name with
            | Some cap_fields => TCap name cap_fields []
            | None => TInt
            end)
  | E_Field target _ => _ ← check_expr_at true target; mret TInt
  | E_Prev => mret TInt
  | E_Pipe head step => _ ← check_expr_at false head; _ ← check_expr_at false step; mret TInt
  | E_ListComp mapper clauses | E_SetComp mapper clauses =>
      _ ← for_each (λ c, match c with
        | C_For var iter => _ ← check_expr_at false iter; _ ← push_scope; bind_name var (live TInt)
        | C_If cond => _ ← check_expr_at false cond; mret tt
        end) clauses;
      _ ← check_expr_at false mapper;
      _ ← pop_many (count_fors clauses);
      mret TInt
  | E_DictComp key value clauses =>
      _ ← for_each (λ c, match c with
        | C_For var iter => _ ← check_expr_at false iter; _ ← push_scope; bind_name var (live TInt)
        | C_If cond => _ ← check_expr_at false cond; mret tt
        end) clauses;
      _ ← check_expr_at false key;
      _ ← check_expr_at false value;
      _ ← pop_many (count_fors clauses);
      mret TInt
  | E_SetLit elems => _ ← for_each (λ a, _ ← check_expr_at false a; mret tt) elems; mret TInt
  | E_DictLit pairs =>
      _ ← for_each (λ p, match p with (k, v) => _ ← check_expr_at false k; _ ← check_expr_at false v; mret tt end) pairs;
      mret TInt
  | E_TupleLit elems => _ ← for_each (λ a, _ ← check_expr_at false a; mret tt) elems; mret TInt
  | E_TupleIndex target _ => _ ← check_expr_at false target; mret TInt
  | E_EnumCtor _ _ args => _ ← for_each (λ a, _ ← check_expr_at false a; mret tt) args; mret TInt
  | E_Match scrut arms =>
      _ ← check_expr_at false scrut;
      _ ← for_each (λ a, match a with mkArm pattern body _ =>
        in_scope (
          _ ← bind_all (match pattern with EnumPattern _ _ bindings => bindings | Wildcard => [] end) TInt;
          _ ← check_expr_at false body; mret tt) end) arms;
      mret TInt
  | E_Block (mkBlock ss t _) =>
      in_scope (
        _ ← for_each check_stmt ss;
        _ ← match t with Some t => _ ← check_expr_at false t; mret tt | None => mret tt end;
        mret TInt)
  | E_If cond (mkBlock ss t _) else_branch =>
      _ ← check_expr_at false cond;
      _ ← in_scope (
        _ ← for_each check_stmt ss;
        match t with Some t => _ ← check_expr_at false t; mret tt | None => mret tt end);
      match else_branch with
      | ElseNone => mret TInt
      | ElseBlock (mkBlock ss t _) =>
          in_scope (
            _ ← for_each check_stmt ss;
            _ ← match t with Some t => _ ← check_expr_at false t; mret tt | None => mret tt end;
            mret TInt)
      | ElseIf inner => check_if_value inner
      end
  end end
(** The expression that an [else if] stands for. *)
with check_if_value (ifs : IfStmt) {struct ifs} : AF Ty :=
  match ifs with mkIf cond (mkBlock ss t _) else_branch _ =>
    _ ← check_expr_at false cond;
    _ ← in_scope (
      _ ← for_each check_stmt ss;
      match t with Some t => _ ← check_expr_at false t; mret tt | None => mret tt end);
    match else_branch with
    | ElseNone => mret TInt
    | ElseBlock (mkBlock ss t _) =>
        in_scope (
          _ ← for_each check_stmt ss;
          _ ← match t with Some t => _ ← check_expr_at false t; mret tt | None => mret tt end;
          mret TInt)
    | ElseIf inner => check_if_value inner
    end
  end
with check_block (b : Block) {struct b} : AF unit :=
  match b with mkBlock ss _ _ => in_scope (for_each check_stmt ss) end
with check_stmt (stmt : Stmt) {struct stmt} : AF unit :=
  match stmt with
  | S_Let name ty value _ =>
      v_ty ← check_expr_at false value;
      bind_name name (live (default v_ty ty))
  | S_Assign target value _ =>
      _ ← match target with
          | mkExpr (E_Index _ key) _ => _ ← check_expr_at false key; mret tt
          | _ => mret tt
          end;
      _ ← check_expr_at false value; mret tt
  | S_Return (Some e) _ => _ ← check_expr_at false e; mret tt
  | S_Return None _ => mret tt
  | S_If if_stmt => check_if if_stmt
  | S_While cond body _ =>
      _ ← check_expr_at false cond;
      snapshot ← get_env;
      _ ← check_block body;
      restore snapshot
  | S_For var iter _ body _ => _ ← check_expr_at false iter; loop_body [(var, TInt)] (check_block body)
  | S_ForRange var start end_ _ body _ =>
      _ ← check_expr_at false start; _ ← check_expr_at false end_; loop_body [(var, TInt)] (check_block body)
  | S_Break _ | S_Continue _ | S_Placeholder _ => mret tt
  | S_Expr e => _ ← check_expr_at false e; mret tt
  | S_Emit value _ => _ ← check_expr_at false value; mret tt
  | S_Delete target _ => _ ← check_expr_at false target; mret tt
  | S_Parallel ss _ => for_each check_stmt ss
  | S_ParallelForTo id_var _ source output body _ =>
      _ ← check_expr_at false source; _ ← check_expr_at false output; loop_body [(id_var, TU64)] (check_block body)
  | S_LetTuple names value _ => _ ← check_expr_at false value; bind_all names TInt
  end
with check_if (ifs : IfStmt) {struct ifs} : AF unit :=
  match ifs with mkIf cond then_ else_branch _ =>
    _ ← check_expr_at false cond;
    snapshot ← get_env;
    _ ← check_block then_;
    after_then ← get_env;
    _ ← restore snapshot;
    match else_branch with
    | ElseNone => modify (λ env, merge env after_then)
    | ElseBlock b => _ ← check_block b; modify (λ after_else, merge after_then after_else)
    | ElseIf inner => _ ← check_if inner; modify (λ after_else, merge after_then after_else)
    end
  end.

Definition check_expr : Expr → AF Ty := check_expr_at false.
Definition field_peek (e : Expr) : AF unit := _ ← check_expr_at true e; mret tt.

Definition check_fn (f : FnDef) : outcome unit :=
  (check_block (fd_body f) [foldl (λ s p, <[pm_name p := live (pm_ty p)]> s) ∅ (fd_params f)]).1.
End check.

(** [affine::check]. *)
Definition check (m : SrcModule) : outcome unit :=
  _ ← mapM_out (check_fn (aff_ctx m)) (sm_functions m); Ok tt.
