(* ===== verification/AffineFacts.v ===== *)
(** What the ownership analysis guarantees: in code without loops, a binding that
    is not [Copy] is used at most once on every path. *)
From S2P Require Import Prelude Bytes Values JsonText Display Ops Bytecode Ast Effects Affine.
#[local] Open Scope nat_scope.

(** ** Uses of a name *)
Section uses.
Context (x : bytes).

(** The greatest number of uses of [x] on a path through an expression; a name
    below a field access is looked at, not used ([peek]). *)
Fixpoint uses_e (peek : bool) (e : Expr) {struct e} : nat :=
  match e with mkExpr k _ =>
  match k with
  | E_Ident name => if peek then 0 else if decide (name = x) then 1 else 0
  | E_Binary _ a b | E_Pipe a b => uses_e false a + uses_e false b
  | E_Index a b => uses_e false b + uses_e false a
  | E_Unary _ a | E_ArrayAlloc _ a | E_Reserve a _ | E_ExplicitLiteral a | E_TupleIndex a _ =>
      uses_e false a
  | E_Field a _ => uses_e true a
  | E_Call _ _ l | E_DynCall _ _ l _ _ | E_Array l | E_SetLit l | E_TupleLit l | E_EnumCtor _ _ l =>
      sum_list_with (uses_e false) l
  | E_StructLit _ l => sum_list_with (λ p, match p with (_, e) => uses_e false e end) l
  | E_DictLit l => sum_list_with (λ p, match p with (a, b) => uses_e false a + uses_e false b end) l
  | E_Match s arms =>
      uses_e false s + max_list_with (λ a, match a with mkArm _ body _ => uses_e false body end) arms
  | E_Block (mkBlock ss t _) =>
      sum_list_with uses_s ss + match t with Some t => uses_e false t | None => 0 end
  | E_If c (mkBlock ss t _) els =>
      uses_e false c +
      max (sum_list_with uses_s ss + match t with Some t => uses_e false t | None => 0 end)
        match els with
        | ElseNone => 0
        | ElseBlock (mkBlock ss t _) =>
            sum_list_with uses_s ss + match t with Some t => uses_e false t | None => 0 end
        | ElseIf i => uses_i i
        end
  | _ => 0
  end end
with uses_s (s : Stmt) {struct s} : nat :=
  match s with
  | S_Let _ _ v _ | S_Return (Some v) _ | S_Expr v | S_Emit v _ | S_Delete v _ | S_LetTuple _ v _ =>
      uses_e false v
  | S_Assign (mkExpr (E_Index _ key) _) v _ => uses_e false key + uses_e false v
  | S_Assign _ v _ => uses_e false v
  | S_If i => uses_i i
  | S_Parallel ss _ => sum_list_with uses_s ss
  | _ => 0
  end
with uses_i (i : IfStmt) {struct i} : nat :=
  match i with mkIf c (mkBlock ss t _) els _ =>
    uses_e false c +
    max (sum_list_with uses_s ss + match t with Some t => uses_e false t | None => 0 end)
      match els with
      | ElseNone => 0
      | ElseBlock (mkBlock ss t _) =>
          sum_list_with uses_s ss + match t with Some t => uses_e false t | None => 0 end
      | ElseIf i => uses_i i
      end
  end.

(** ** The code the guarantee is about: no loops, comprehensions or json literals
    with components; assignments to names and elements of named states; no
    binding of [x]; no tail where a block is a statement. *)
Definition plain_kind (k : ExprKind) : bool :=
  match k with
  | E_ListComp _ _ | E_SetComp _ _ | E_DictComp _ _ _ => false
  | E_JsonObject l => bool_decide (l = [])
  | E_JsonArray l => bool_decide (l = [])
  | E_Match _ arms =>
      forallb (λ a, match a with
        | mkArm (EnumPattern _ _ names) _ _ => bool_decide (x ∉ names)
        | _ => true end) arms
  | _ => true
  end.
Definition plain_target (e : Expr) : bool :=
  match e with
  | mkExpr (E_Ident _) _ => true
  | mkExpr (E_Index (mkExpr (E_Ident _) _) _) _ => true
  | _ => false
  end.
Definition plain_s_kind (s : Stmt) : bool :=
  match s with
  | S_While _ _ _ | S_For _ _ _ _ _ | S_ForRange _ _ _ _ _ _ | S_ParallelForTo _ _ _ _ _ _ => false
  | S_Let name _ _ _ => bool_decide (name ≠ x)
  | S_LetTuple names _ _ => bool_decide (x ∉ names)
  | S_Assign target _ _ => plain_target target
  | _ => true
  end.
Definition no_tail (b : Block) : bool := match bl_tail b with None => true | Some _ => false end.

Inductive plain_e : Expr → Prop :=
  | plain_expr k sp : plain_kind k = true → Forall plain_e (kind_exprs k) →
      Forall plain_v (kind_blocks k) → Forall plain_i (kind_ifs k) → plain_e (mkExpr k sp)
with plain_v : Block → Prop :=
  | plain_value ss t sp : Forall plain_s ss → Forall plain_e (option_list t) → plain_v (mkBlock ss t sp)
with plain_s : Stmt → Prop :=
  | plain_stmt s : plain_s_kind s = true → Forall plain_e (stmt_exprs s) → Forall plain_v (stmt_blocks s) →
      Forall plain_s (stmt_stmts s) → Forall plain_si (stmt_ifs s) → plain_s s
with plain_i : IfStmt → Prop :=
  | plain_if c t els sp : plain_e c → plain_v t → Forall plain_v (else_blocks els) →
      Forall plain_i (else_ifs els) → plain_i (mkIf c t els sp)
with plain_si : IfStmt → Prop :=
  | plain_sif c t els sp : plain_e c → plain_v t → no_tail t = true →
      Forall (λ b, plain_v b ∧ no_tail b = true) (else_blocks els) →
      Forall plain_si (else_ifs els) → plain_si (mkIf c t els sp).

(** ** Tracking [x] through the environment *)

(** Whether the innermost binding of [x], of a type that moves, was moved. *)
Fixpoint track (env : Env) : option nat :=
  match env with
  | [] => None
  | scope :: rest =>
      match scope !! x with
      | Some b => if is_copy (bd_ty b) then None else
                  Some (match bd_moved_at b with Some _ => 1 | None => 0 end)
      | None => track rest
      end
  end.
(** The scopes that bind [x]. *)
Definition shape (env : Env) : list bool := (λ s : gmap bytes Binding, bool_decide (is_Some (s !! x))) <$> env.

(** A run of [m] that answers keeps track of [x] and counts at least [u] uses. *)
Definition flows {A} (m : AF A) (u : nat) : Prop := ∀ env a env' n,
  m env = (Ok a, env') → track env = Some n →
  ∃ n', track env' = Some n' ∧ (n + u ≤ n')%nat ∧ shape env' = shape env.

Lemma shape_cons s env : shape (s :: env) = bool_decide (is_Some (s !! x)) :: shape env.
Proof. done. Qed.

Lemma track_le env n : track env = Some n → (n ≤ 1)%nat.
Proof.
  induction env as [|s env IH]; cbn; [done|]. destruct (s !! x) as [b|]; [|done].
  case_match; [done|]. intros [= <-]. case_match; lia.
Qed.

Lemma bind_ok {A B : Type} (m : AF A) (f : A → AF B) env b env' : (m ≫= f) env = (Ok b, env') →
  ∃ a env1, m env = (Ok a, env1) ∧ f a env1 = (Ok b, env').
Proof. unfold mbind, SM_bind. destruct (m env) as [[a|e| |] env1]; [eauto|done..]. Qed.

Lemma flows_ret {A} (a : A) : flows (mret a) 0.
Proof. intros env a' env' n [= <- <-] Hn. exists n. splits; [done|lia|done]. Qed.
Lemma flows_err {A} (o : outcome A) u : (∀ a, o ≠ Ok a) → flows (lift o) u.
Proof. intros Ho env a env' n [= E _]. by destruct (Ho a). Qed.
Lemma flows_weaken {A} (m : AF A) u u' : flows m u → (u' ≤ u)%nat → flows m u'.
Proof. intros Hm Hu env a env' n E Hn. destruct (Hm _ _ _ _ E Hn) as (n' & ? & ? & ?). exists n'. splits; [done|lia|done]. Qed.
Lemma flows_bind {A B : Type} (m : AF A) (f : A → AF B) u1 u2 :
  flows m u1 → (∀ a, flows (f a) u2) → flows (m ≫= f) (u1 + u2).
Proof.
  intros Hm Hf env b env' n (a & env1 & E1 & E2)%bind_ok Hn.
  destruct (Hm _ _ _ _ E1 Hn) as (n1 & H1 & ? & S1). destruct (Hf a _ _ _ _ E2 H1) as (n2 & H2 & ? & S2).
  exists n2. splits; [done|lia|congruence].
Qed.
Lemma flows_then {A B : Type} (m : AF A) (b : B) u : flows m u → flows (_ ← m; mret b) u.
Proof. intros Hm. eapply flows_weaken; [apply flows_bind; [exact Hm|intros; apply flows_ret]|lia]. Qed.

Lemma flows_for_each {A} (f : A → AF unit) (u : A → nat) l :
  Forall (λ y, flows (f y) (u y)) l → flows (for_each f l) (sum_list_with u l).
Proof. induction 1; cbn; [apply flows_ret|]. by apply flows_bind. Qed.
Lemma flows_for_each_max {A} (f : A → AF unit) (u : A → nat) l :
  Forall (λ y, flows (f y) (u y)) l → flows (for_each f l) (max_list_with u l).
Proof.
  intros H. eapply flows_weaken; [by apply flows_for_each|]. clear. induction l as [|y l IH]; cbn; lia.
Qed.

(** A scope opened and closed. *)
Lemma flows_scope {A} (m : AF A) u : flows m u → flows (in_scope m) u.
Proof.
  intros Hm env a env' n E Hn. unfold in_scope in E.
  apply bind_ok in E as (? & env1 & [= <- <-] & E). apply bind_ok in E as (a' & env2 & E2 & E).
  apply bind_ok in E as (? & env3 & [= <- <-] & [= <- <-]).
  assert (Hn' : track (∅ :: env) = Some n) by (cbn; by rewrite lookup_empty).
  destruct (Hm _ _ _ _ E2 Hn') as (n' & H1 & H2 & H3).
  destruct env2 as [|s env2]; [done|]. unfold shape in H3. rewrite !fmap_cons in H3. injection H3 as Hs Hr.
  assert (Hx : s !! x = None).
  { rewrite lookup_empty, (bool_decide_eq_false_2 (is_Some None)) in Hs by by intros [].
    apply bool_decide_eq_false in Hs. by apply eq_None_not_Some. }
  cbn in H1 |- *. rewrite Hx in H1. exists n'. by splits.
Qed.

(** ** The steps *)
Lemma shape_insert (s : gmap bytes Binding) b name : (name ≠ x ∨ is_Some (s !! name)) →
  bool_decide (is_Some (<[name := b]> s !! x)) = bool_decide (is_Some (s !! x)).
Proof.
  intros Hn. apply bool_decide_ext. destruct (decide (name = x)) as [->|Hne].
  - rewrite lookup_insert_eq. destruct Hn as [?|Hs]; [done|]. split; eauto.
  - by rewrite lookup_insert_ne.
Qed.

Lemma use_in_other name sp env r env' : name ≠ x → use_in name sp env = Some (r, env') →
  track env' = track env ∧ shape env' = shape env.
Proof.
  intros Hne. revert r env'. induction env as [|s env IH]; intros r env'; cbn; [done|].
  destruct (s !! name) as [b|] eqn:Eb.
  - destruct (bd_moved_at b); [by intros [= _ <-]|]. case_match; [by intros [= _ <-]|]. intros [= _ <-].
    split; [cbn; by rewrite lookup_insert_ne|]. rewrite !shape_cons. by rewrite shape_insert by by left.
  - destruct (use_in name sp env) as [[r1 rest]|]; [|done]. intros [= -> <-].
    destruct (IH _ _ eq_refl) as [H1 H2]. split; cbn; [by rewrite H1|]. by f_equal.
Qed.

Lemma use_in_self sp env n : track env = Some n →
  ∃ r env', use_in x sp env = Some (r, env') ∧
    (∀ ty, r = Ok ty → n = 0 ∧ track env' = Some 1 ∧ shape env' = shape env).
Proof.
  induction env as [|s env IH]; cbn; [done|]. destruct (s !! x) as [b|] eqn:Eb.
  - destruct (is_copy (bd_ty b)) eqn:Ec; [done|]. intros [= <-].
    destruct (bd_moved_at b) eqn:Em; [by eexists _, _; split|].
    eexists _, _. split; [done|]. intros ty _. splits; [done| |].
    + cbn. rewrite lookup_insert_eq. cbn. by rewrite Ec.
    + rewrite !shape_cons. rewrite shape_insert by (right; eauto). by rewrite Eb.
  - intros Hn. destruct (IH Hn) as (r & env' & -> & Hr). eexists _, _. split; [done|].
    intros ty ->. destruct (Hr ty eq_refl) as (? & ? & ?). splits; [done|cbn; by rewrite Eb|]. rewrite !shape_cons. by rewrite Eb; f_equal.
Qed.

Lemma flows_use ctx name sp : flows (use_name ctx name sp) (if decide (name = x) then 1 else 0).
Proof.
  intros env ty env' n E Hn. unfold use_name in E. case_decide as Hx.
  - subst name. destruct (use_in_self sp env n Hn) as (r & e1 & Hu & Hr). rewrite Hu in E. injection E as -> ->.
    destruct (Hr ty eq_refl) as (-> & ? & ?). exists 1. splits; [done|lia|done].
  - destruct (use_in name sp env) as [[r e1]|] eqn:Hu.
    + injection E as -> ->. apply use_in_other in Hu as [H1 H2]; [|done]. exists n. splits; [congruence|lia|done].
    + destruct (af_states ctx !! name); [|done]. injection E as <- <-. exists n. splits; [done|lia|done].
Qed.

Lemma flows_peek name sp : flows (peek_name name sp) 0.
Proof.
  intros env a env' n E Hn. exists n. cut (env' = env); [intros ->; splits; [done|lia|done]|].
  unfold peek_name in E. apply bind_ok in E as (? & e1 & [= <- <-] & E).
  destruct (list_find _ _) as [[i sc]|]; [|by injection E]. case_match; [case_match|]; [done|by injection E..].
Qed.

Lemma flows_bind_name name b : name ≠ x → flows (bind_name name b) 0.
Proof.
  intros Hne [|s env] a env' n E Hn; [done|]. injection E as <- <-. exists n. splits; [|lia|].
  - cbn in *. by rewrite lookup_insert_ne.
  - rewrite !shape_cons. by rewrite shape_insert by by left.
Qed.

Lemma lookup_bind_all (names : list bytes) (ty : Ty) (s : gmap bytes Binding) : x ∉ names →
  foldl (λ s n, <[n := live ty]> s) s names !! x = s !! x.
Proof.
  revert s. induction names as [|m names IH]; intros s Hx; cbn; [done|].
  rewrite IH by set_solver. rewrite lookup_insert_ne; [done|set_solver].
Qed.
Lemma flows_bind_all (names : list bytes) (ty : Ty) : x ∉ names → flows (bind_all names ty) 0.
Proof.
  intros Hx env a env' n [= <- <-] Hn. exists n. destruct env as [|s env]; [done|].
  splits; [cbn in *; by rewrite lookup_bind_all|lia|]. rewrite !shape_cons. by rewrite lookup_bind_all.
Qed.

(** The join of two branches keeps the greater count. *)
Lemma merge_lookup a b k : merge_scope a b !! k =
  (λ va, mkBinding (bd_ty va) (match bd_moved_at va with
    | Some s => Some s | None => bd_moved_at (default va (b !! k)) end)) <$> a !! k.
Proof. unfold merge_scope. rewrite map_lookup_imap. by destruct (a !! k). Qed.

Lemma merge_shape a b : shape a = shape b → shape (merge a b) = shape a.
Proof.
  revert b. induction a as [|sa a IH]; intros [|sb b]; [done..|]. unfold shape, merge in *. cbn.
  intros [= Hs Hr]. f_equal; [|by apply IH]. apply bool_decide_ext. rewrite merge_lookup. by rewrite fmap_is_Some.
Qed.

Lemma merge_track a b na nb : shape a = shape b → track a = Some na → track b = Some nb →
  track (merge a b) = Some (max na nb).
Proof.
  revert b. induction a as [|sa a IH]; intros [|sb b]; [done..|]. unfold shape, merge. cbn.
  intros [= Hs Hr]. rewrite merge_lookup. destruct (sa !! x) as [va|] eqn:Ea; cbn.
  - destruct (sb !! x) as [vb|] eqn:Eb; cbn; [|rewrite bool_decide_true, bool_decide_false in Hs; [done|by intros []|eauto]].
    repeat case_match; naive_solver lia.
  - destruct (sb !! x) as [vb|] eqn:Eb; cbn; [rewrite bool_decide_false, bool_decide_true in Hs; [done|eauto|by intros []]|].
    intros. by apply IH.
Qed.

(** ** The analysis *)
Context (ctx : AffCtx).

Definition uses_v (b : Block) : nat :=
  match b with mkBlock ss t _ =>
    sum_list_with uses_s ss + match t with Some t => uses_e false t | None => 0 end end.
Definition value_steps (b : Block) : AF unit :=
  match b with mkBlock ss t _ =>
    _ ← for_each (check_stmt ctx) ss;
    match t with Some t => _ ← check_expr_at ctx false t; mret tt | None => mret tt end end.

Definition expr_parts (e : Expr) : list Expr := match e with mkExpr k _ => kind_exprs k end.
Definition flows_e (e : Expr) : Prop := ∀ peek, flows (check_expr_at ctx peek e) (uses_e peek e).
Definition flows_v (b : Block) : Prop := flows (value_steps b) (uses_v b).
Definition flows_s (s : Stmt) : Prop := flows (check_stmt ctx s) (uses_s s).
Definition flows_i (i : IfStmt) : Prop := flows (check_if_value ctx i) (uses_i i).
Definition flows_si (i : IfStmt) : Prop := flows (check_if ctx i) (uses_i i).

Lemma flows_args l : Forall flows_e l →
  flows (for_each (λ a, _ ← check_expr_at ctx false a; mret tt) l) (sum_list_with (uses_e false) l).
Proof. intros H. apply flows_for_each. eapply Forall_impl; [exact H|]. intros e He. apply flows_then, He. Qed.

Lemma scope_flows (b : Block) (t : Ty) : flows_v b → flows (_ ← in_scope (value_steps b); mret t) (uses_v b).
Proof. intros H. by apply flows_then, flows_scope. Qed.

(** A block that ends in a value, in a scope of its own. *)
Lemma scope_value_flows ss t sp (r : Ty) : flows_v (mkBlock ss t sp) →
  flows (in_scope (_ ← for_each (check_stmt ctx) ss;
    _ ← match t with Some t => _ ← check_expr_at ctx false t; mret tt | None => mret tt end; mret r))
    (uses_v (mkBlock ss t sp)).
Proof.
  intros H. apply flows_scope. intros env a env' n E Hn.
  apply bind_ok in E as ([] & e1 & E1 & E). apply bind_ok in E as ([] & e2 & E2 & [= <- <-]).
  refine (H env tt e2 n _ Hn). cbn. unfold mbind, SM_bind. by rewrite E1.
Qed.
Lemma scope_unit_flows ss t sp : flows_v (mkBlock ss t sp) →
  flows (in_scope (_ ← for_each (check_stmt ctx) ss;
    match t with Some t => _ ← check_expr_at ctx false t; mret tt | None => mret tt end))
    (uses_v (mkBlock ss t sp)).
Proof. intros H. by apply flows_scope. Qed.

Lemma max_le_sum {A} (u : A → nat) l : max_list_with u l ≤ sum_list_with u l.
Proof. induction l; cbn; lia. Qed.

(** The statements of a list, and the join of a conditional. *)
Lemma flows_stmts ss : Forall flows_s ss → flows (for_each (check_stmt ctx) ss) (sum_list_with uses_s ss).
Proof. intros H. by apply flows_for_each. Qed.
Lemma flows_block b : no_tail b = true → flows_v b → flows (check_block ctx b) (uses_v b).
Proof.
  destruct b as [ss [t|] sp]; [done|]. intros _ H. cbn. rewrite Nat.add_0_r. apply flows_scope.
  intros env a env' n E Hn. destruct a. cbn in H. unfold flows_v in H. cbn in H. rewrite Nat.add_0_r in H.
  refine (H env tt env' n _ Hn). unfold mbind, SM_bind. by rewrite E.
Qed.

(** A conditional: from the snapshot after the condition, both branches. *)
Lemma flows_join (t : Block) (m : AF unit) ut um : flows (check_block ctx t) ut → flows m um →
  flows (snapshot ← get_env; _ ← check_block ctx t; after_then ← get_env; _ ← restore snapshot;
         _ ← m; modify (λ after_else, merge after_then after_else)) (max ut um).
Proof.
  intros Ht Hm env a env' n E Hn. apply bind_ok in E as (? & e1 & [= <- <-] & E).
  apply bind_ok in E as (? & e2 & E2 & E). apply bind_ok in E as (? & e3 & [= <- <-] & E).
  apply bind_ok in E as (? & e4 & [= <- <-] & E). apply bind_ok in E as (? & e5 & E5 & [= <- <-]).
  destruct (Ht _ _ _ _ E2 Hn) as (n1 & H1 & ? & S1). destruct (Hm _ _ _ _ E5 Hn) as (n2 & H2 & ? & S2).
  exists (max n1 n2). splits; [apply merge_track; congruence || done|lia|]. rewrite merge_shape; congruence.
Qed.

Lemma flows_join_none (t : Block) ut : flows (check_block ctx t) ut →
  flows (snapshot ← get_env; _ ← check_block ctx t; after_then ← get_env; _ ← restore snapshot;
         modify (λ env, merge env after_then)) ut.
Proof.
  intros Ht env a env' n E Hn. apply bind_ok in E as (? & e1 & [= <- <-] & E).
  apply bind_ok in E as (? & e2 & E2 & E). apply bind_ok in E as (? & e3 & [= <- <-] & E).
  apply bind_ok in E as (? & e4 & [= <- <-] & [= <- <-]).
  destruct (Ht _ _ _ _ E2 Hn) as (n1 & H1 & ? & S1).
  exists (max n n1). splits; [apply merge_track; congruence || done|lia|]. by rewrite merge_shape.
Qed.

Ltac flow_leaf :=
  first
    [ apply flows_ret | apply flows_use | apply flows_peek
    | match goal with H : flows_e ?e |- flows (check_expr_at ctx ?p ?e) _ => exact (H p) end
    | match goal with H : flows_si ?i |- flows (check_if ctx ?i) _ => exact H end
    | match goal with H : flows_i ?i |- flows (check_if_value ctx ?i) _ => exact H end
    | apply flows_args; eassumption | apply flows_stmts; eassumption
    | apply scope_value_flows; eassumption | apply scope_unit_flows; eassumption ].
Ltac flow := repeat first [flow_leaf | apply flows_then | eapply flows_bind; [|intros] ].
Ltac flow_to := eapply flows_weaken; [flow|cbn in *; try lia].

(** The forms with parts in lists. *)
Lemma flows_fields {A : Type} (l : list (A * Expr)) : Forall flows_e (snd <$> l) →
  flows (for_each (λ p, match p with (_, e) => _ ← check_expr_at ctx false e; mret tt end) l)
    (sum_list_with (λ p, match p with (_, e) => uses_e false e end) l).
Proof.
  intros H. rewrite Forall_fmap in H. apply flows_for_each. eapply Forall_impl; [exact H|].
  intros [a e] He. apply flows_then, (He false).
Qed.
Lemma flows_pairs (l : list (Expr * Expr)) : Forall flows_e (fst <$> l) → Forall flows_e (snd <$> l) →
  flows (for_each (λ p, match p with (k, v) =>
      _ ← check_expr_at ctx false k; _ ← check_expr_at ctx false v; mret tt end) l)
    (sum_list_with (λ p, match p with (k, v) => uses_e false k + uses_e false v end) l).
Proof.
  intros Hk Hv. rewrite Forall_fmap in Hk, Hv. apply flows_for_each.
  eapply Forall_impl2; [exact Hk|exact Hv|]. intros [k v] He1 He2.
  apply flows_bind; [apply (He1 false)|]. intros _. apply flows_then, (He2 false).
Qed.
Lemma flows_arms arms :
  Forall (λ a, match a with mkArm (EnumPattern _ _ names) _ _ => bool_decide (x ∉ names) | _ => true end = true) arms →
  Forall flows_e (arm_body <$> arms) →
  flows (for_each (λ a, match a with mkArm pattern body _ =>
      in_scope (
        _ ← bind_all (match pattern with EnumPattern _ _ bindings => bindings | Wildcard => [] end) TInt;
        _ ← check_expr_at ctx false body; mret tt) end) arms)
    (max_list_with (λ a, match a with mkArm _ body _ => uses_e false body end) arms).
Proof.
  intros Hn H. rewrite Forall_fmap in H. apply flows_for_each_max.
  eapply Forall_impl2; [exact Hn|exact H|]. intros [pat body sp] Hx He. apply flows_scope.
  apply (flows_bind _ _ 0).
  - apply flows_bind_all. destruct pat; [apply not_elem_of_nil|by apply bool_decide_eq_true in Hx] ||
      (destruct pat; [by apply bool_decide_eq_true in Hx|apply not_elem_of_nil]).
  - intros _. apply flows_then, (He false).
Qed.

(** The two ways a conditional is read: as a value, its branches one after the
    other; as a statement, its branches from the same point. *)
Lemma flows_value_else els : Forall flows_v (else_blocks els) → Forall flows_i (else_ifs els) →
  flows (match els with
    | ElseNone => mret TInt
    | ElseBlock (mkBlock ss t _) =>
        in_scope (_ ← for_each (check_stmt ctx) ss;
          _ ← match t with Some t => _ ← check_expr_at ctx false t; mret tt | None => mret tt end;
          mret TInt)
    | ElseIf inner => check_if_value ctx inner
    end)
    (match els with ElseNone => 0 | ElseBlock b => uses_v b | ElseIf i => uses_i i end).
Proof.
  destruct els as [|[ss t sp]|i]; cbn [else_blocks else_ifs]; intros Hb Hi; decompose_Forall_hyps.
  - apply flows_ret.
  - by apply (scope_value_flows ss t sp).
  - done.
Qed.
Lemma flows_stmt_else t els : flows_v t → no_tail t = true →
  Forall (λ b, flows_v b ∧ no_tail b = true) (else_blocks els) → Forall flows_si (else_ifs els) →
  flows (snapshot ← get_env; _ ← check_block ctx t; after_then ← get_env; _ ← restore snapshot;
    match els with
    | ElseNone => modify (λ env, merge env after_then)
    | ElseBlock b => _ ← check_block ctx b; modify (λ after_else, merge after_then after_else)
    | ElseIf inner => _ ← check_if ctx inner; modify (λ after_else, merge after_then after_else)
    end)
    (max (uses_v t) (match els with ElseNone => 0 | ElseBlock b => uses_v b | ElseIf i => uses_i i end)).
Proof.
  intros Ht Hn Hb Hi. pose proof (flows_block t Hn Ht) as Ft.
  destruct els as [|b|i]; cbn [else_blocks else_ifs] in *; decompose_Forall_hyps.
  - eapply flows_weaken; [by apply flows_join_none|lia].
  - apply flows_join; [done|]. destruct_and?; by apply flows_block.
  - by apply flows_join.
Qed.

Lemma uses_i_eq c t els sp : uses_i (mkIf c t els sp) = uses_e false c +
  max (uses_v t) (match els with ElseNone => 0 | ElseBlock b => uses_v b | ElseIf i => uses_i i end).
Proof. by destruct t, els as [|[]|]. Qed.

Lemma flows_if_value c t els : flows_e c → flows_v t →
  Forall flows_v (else_blocks els) → Forall flows_i (else_ifs els) → ∀ sp,
  flows_i (mkIf c t els sp).
Proof.
  intros Hc Ht Hb Hi sp. unfold flows_i. rewrite uses_i_eq. destruct t as [ss t tsp].
  eapply flows_weaken.
  - simpl. apply flows_bind; [apply (Hc false)|]. intros _.
    apply flows_bind; [by apply (scope_unit_flows ss t tsp)|]. intros _. by apply flows_value_else.
  - lia.
Qed.
Lemma check_if_eq c t els sp : check_if ctx (mkIf c t els sp) =
  (_ ← check_expr_at ctx false c;
   snapshot ← get_env; _ ← check_block ctx t; after_then ← get_env; _ ← restore snapshot;
    match els with
    | ElseNone => modify (λ env, merge env after_then)
    | ElseBlock b => _ ← check_block ctx b; modify (λ after_else, merge after_then after_else)
    | ElseIf inner => _ ← check_if ctx inner; modify (λ after_else, merge after_then after_else)
    end).
Proof. done. Qed.
Lemma flows_if_stmt c t els : flows_e c → flows_v t → no_tail t = true →
  Forall (λ b, flows_v b ∧ no_tail b = true) (else_blocks els) → Forall flows_si (else_ifs els) → ∀ sp,
  flows_si (mkIf c t els sp).
Proof.
  intros Hc Ht Hn Hb Hi sp. unfold flows_si. rewrite uses_i_eq, check_if_eq.
  apply flows_bind; [apply (Hc false)|]. intros _. by apply flows_stmt_else.
Qed.

Lemma flows_call (m : AF unit) u (module : option bytes) name sp : flows m u →
  flows (_ ← m;
      match module with
      | Some _ => mret TInt
      | None =>
          match af_sigs ctx !! name with
          | Some ret => mret ret
          | None => aff_err (str "unknown function '" ++ name ++ str "'") sp
          end
      end) u.
Proof.
  intros H. eapply flows_weaken; [eapply (flows_bind _ _ _ 0 H)|lia]. intros _.
  destruct module; [apply flows_ret|]. case_match; [apply flows_ret|]. by apply flows_err.
Qed.

(** ** Each form of an expression and of a statement *)
Lemma flows_kind k sp : plain_kind k = true → Forall flows_e (kind_exprs k) →
  Forall flows_v (kind_blocks k) → Forall flows_i (kind_ifs k) → flows_e (mkExpr k sp).
Proof.
  intros Hk Fe Fb Fi peek. destruct k; simpl in Fe, Fb, Fi, Hk; try discriminate Hk;
    decompose_Forall_hyps; try (flow_to; fail).
  - simpl. destruct peek; [apply flows_then, flows_peek|apply flows_use].
  - simpl. apply flows_call. by apply flows_args.
  - simpl. by apply flows_then, flows_fields.
  - simpl. by apply flows_then, flows_pairs.
  - simpl. apply flows_bind; [by match goal with H : flows_e _ |- _ => apply (H false) end|]. intros _.
    apply flows_then, flows_arms; [|done]. apply List.Forall_forall, List.forallb_forall, Hk.
  - destruct block as [ss t bsp]. by apply (scope_value_flows ss t bsp).
  - by apply (flows_if_value cond then_ else_branch) with (sp := sp).
Qed.

Lemma flows_stmt s : plain_s_kind s = true →
  Forall (λ e, flows_e e ∧ Forall flows_e (expr_parts e)) (stmt_exprs s) →
  Forall flows_s (stmt_stmts s) → Forall flows_si (stmt_ifs s) → flows_s s.
Proof.
  intros Hk Fe Fs Fi. unfold flows_s. destruct s; simpl in Fe, Fs, Fi, Hk; try discriminate Hk;
    decompose_Forall_hyps; destruct_and?; try (simpl; flow_to; fail); simpl.
  - apply bool_decide_eq_true in Hk. eapply flows_weaken; [apply flows_bind|].
    + match goal with H : flows_e _ |- _ => apply (H false) end.
    + intros v. by apply (flows_bind_name name).
    + lia.
  - destruct target as [[] tsp]; try discriminate Hk; cbn [expr_parts kind_exprs] in *; decompose_Forall_hyps.
    + flow_to.
    + apply flows_bind; [|intros _]; apply flows_then; match goal with H : flows_e ?e |- flows (_ _ _ ?e) _ => apply (H false) end.
  - destruct value; cbn in Fe; decompose_Forall_hyps; destruct_and?; flow_to.
  - apply bool_decide_eq_true in Hk. eapply flows_weaken; [apply flows_bind|].
    + match goal with H : flows_e _ |- _ => apply (H false) end.
    + intros v. by apply (flows_bind_all names).
    + lia.
Qed.

Lemma check_flows :
  (∀ e, plain_e e → flows_e e ∧ Forall flows_e (expr_parts e)) ∧ (∀ b, plain_v b → flows_v b) ∧ (∀ s, plain_s s → flows_s s) ∧
  (∀ i, (plain_i i → flows_i i) ∧ (plain_si i → flows_si i)).
Proof.
  apply ast_ind.
  - intros k sp He Hb Hi Hp. inversion Hp as [k' sp' Hk Pe Pb Pi]; subst.
    assert (Fe : Forall flows_e (kind_exprs k)) by (eapply Forall_impl2; [exact He|exact Pe|naive_solver]).
    split; [|exact Fe]. apply flows_kind; [done|exact Fe|..].
    + eapply Forall_impl2; [exact Hb|exact Pb|auto].
    + eapply Forall_impl2; [exact Hi|exact Pi|naive_solver].
  - intros ss t sp Hs Ht Hp. inversion Hp as [ss' t' sp' Ps Pt]; subst. apply flows_bind.
    + apply flows_stmts. eapply Forall_impl2; [exact Hs|exact Ps|auto].
    + intros _. destruct t; cbn in Ht, Pt; decompose_Forall_hyps; [|apply flows_ret].
      apply flows_then. naive_solver.
  - intros s He Hb Hs Hi Hp. inversion Hp as [s' Hk Pe Pb Ps Pi]; subst. apply flows_stmt; [done|..].
    + eapply Forall_impl2; [exact He|exact Pe|auto].
    + eapply Forall_impl2; [exact Hs|exact Ps|auto].
    + eapply Forall_impl2; [exact Hi|exact Pi|naive_solver].
  - intros c t els sp Hc Ht Hb Hi. split; intros Hp; inversion Hp; subst; destruct Hc; [done| |done|].
    + apply flows_if_value; [auto..| |].
      * eapply Forall_impl2; [exact Hb|eassumption|auto].
      * eapply Forall_impl2; [exact Hi|eassumption|naive_solver].
    + apply flows_if_stmt; [auto..| |].
      * eapply Forall_impl2; [exact Hb|eassumption|naive_solver].
      * eapply Forall_impl2; [exact Hi|eassumption|naive_solver].
Qed.
End uses.

(** ** Bindings of a function *)

(** The type a [let] gives its name, where the code names it. *)
Definition let_type (ctx : AffCtx) (ty : option Ty) (value : Expr) : option Ty :=
  match ty, value with
  | Some t, _ => Some t
  | None, mkExpr (E_Call None name _) _ => af_sigs ctx !! name
  | None, _ => None
  end.

Lemma track_live x env n u : track x env = Some n → 0 + u ≤ n → u ≤ 1.
Proof. intros Hn%track_le ?. lia. Qed.

Lemma for_each_app {A} (f : A → AF unit) l1 l2 env env' :
  for_each f (l1 ++ l2) env = (Ok tt, env') →
  ∃ env1, for_each f l1 env = (Ok tt, env1) ∧ for_each f l2 env1 = (Ok tt, env').
Proof.
  revert env. induction l1 as [|a l1 IH]; intros env H; cbn in *; [eauto|].
  apply bind_ok in H as ([] & e1 & E1 & H). apply IH in H as (e2 & E2 & H).
  exists e2. split; [|done]. unfold mbind, SM_bind. by rewrite E1.
Qed.

Lemma lookup_params (x : bytes) (ps : list Param) (s : gmap bytes Binding) : x ∉ pm_name <$> ps →
  foldl (λ s p, <[pm_name p := live (pm_ty p)]> s) s ps !! x = s !! x.
Proof.
  revert s. induction ps as [|p ps IH]; intros s Hx; cbn in *; [done|].
  apply not_elem_of_cons in Hx as [? ?]. rewrite IH by done. by rewrite lookup_insert_ne.
Qed.

(** The body of an accepted function ran to its end. *)
Lemma check_fn_body ctx f : check_fn ctx f = Ok tt →
  ∃ env', for_each (check_stmt ctx) (bl_stmts (fd_body f))
    [∅; foldl (λ s p, <[pm_name p := live (pm_ty p)]> s) ∅ (fd_params f)] = (Ok tt, env').
Proof.
  unfold check_fn. destruct (check_block _ _ _) as [o e] eqn:E. cbn. intros ->.
  destruct (fd_body f) as [ss t sp]. cbn in E. unfold in_scope in E.
  apply bind_ok in E as ([] & e1 & [= <-] & E). apply bind_ok in E as ([] & e2 & E2 & _). eauto.
Qed.

Lemma param_linear ctx f ps (x : bytes) ty psp qs : check_fn ctx f = Ok tt →
  fd_params f = ps ++ mkParam x ty psp :: qs → x ∉ pm_name <$> qs → is_copy ty = false →
  Forall (plain_s x) (bl_stmts (fd_body f)) →
  sum_list_with (uses_s x) (bl_stmts (fd_body f)) ≤ 1.
Proof.
  intros [env' E]%check_fn_body Hps Hx Hty Hp. rewrite Hps in E.
  refine (let '(ex_intro _ n' (conj Hn (conj Hle _))) :=
    flows_stmts x ctx _ _ _ tt env' 0 E _ in track_live x env' n' _ Hn Hle).
  - eapply Forall_impl; [exact Hp|]. intros s. apply check_flows.
  - cbn. rewrite lookup_empty. rewrite foldl_app. cbn. rewrite lookup_params by done.
    rewrite lookup_insert_eq. cbn. by rewrite Hty.
Qed.

Lemma let_value_type ctx oty value ty env v env' : let_type ctx oty value = Some ty →
  check_expr_at ctx false value env = (Ok v, env') → default v oty = ty.
Proof.
  destruct oty as [t|]; cbn; [by intros [= ->]|]. destruct value as [[] sp]; try discriminate.
  destruct module; [discriminate|]. intros Hs E. simpl in E.
  apply bind_ok in E as (? & e1 & _ & E). rewrite Hs in E. by injection E.
Qed.

Lemma let_linear ctx f ss x oty ty value sp rest : check_fn ctx f = Ok tt →
  bl_stmts (fd_body f) = ss ++ S_Let x oty value sp :: rest →
  let_type ctx oty value = Some ty → is_copy ty = false →
  Forall (plain_s x) rest → sum_list_with (uses_s x) rest ≤ 1.
Proof.
  intros [env' E]%check_fn_body Hss Hlt Hty Hp. rewrite Hss in E.
  apply for_each_app in E as (e1 & _ & E). cbn in E. apply bind_ok in E as ([] & e2 & Elet & E).
  apply bind_ok in Elet as (v & e3 & Ev & Eb). destruct e3 as [|s e3]; [done|]. injection Eb as <-.
  rewrite (let_value_type _ _ _ _ _ _ _ Hlt Ev) in E.
  refine (let '(ex_intro _ n' (conj Hn (conj Hle _))) :=
    flows_stmts x ctx _ _ _ tt env' 0 E _ in track_live x env' n' _ Hn Hle).
  - eapply Forall_impl; [exact Hp|]. intros st. apply check_flows.
  - cbn. rewrite lookup_insert_eq. cbn. by rewrite Hty.
Qed.

Lemma check_each m f : check m = Ok tt → f ∈ sm_functions m → check_fn (aff_ctx m) f = Ok tt.
Proof.
  unfold check. generalize (aff_ctx m). intros ctx. induction (sm_functions m) as [|g l IH]; cbn; [set_solver|].
  destruct (check_fn ctx g) as [[]| | |] eqn:Eg; try discriminate. cbn.
  destruct (mapM_out (check_fn ctx) l) as [y| | |]; try discriminate. intros _ [->|Hf]%elem_of_cons; [done|].
  by apply IH.
Qed.

