(* ===== verification/Modifier.v ===== *)
(** Modifier expansion ([crates/rend/src/modifier.rs]): every function body is
    wrapped in the bodies of its modifiers, their parameters replaced by the
    arguments. *)
From S2P Require Import Prelude Bytes Values JsonText Display Ops Bytecode Ast.
#[local] Set Warnings "-register-all".

(** ** Substitution of parameters *)
Section substitution.
Context (subst : gmap bytes Expr).

(** [substitute_in_expr], [substitute_params_in_stmt] and [substitute_in_if] on
    values.  A block in statement position is its statements; the limit of a loop
    is left as it is. *)
Fixpoint substitute_in_expr (expr : Expr) {struct expr} : Expr :=
  match expr with mkExpr kind span =>
  match kind with
  | E_Ident name => default expr (subst !! name)
  | E_Binary op lhs rhs =>
      mkExpr (E_Binary op (substitute_in_expr lhs) (substitute_in_expr rhs)) span
  | E_Unary op operand => mkExpr (E_Unary op (substitute_in_expr operand)) span
  | E_Index target key =>
      mkExpr (E_Index (substitute_in_expr target) (substitute_in_expr key)) span
  | E_Field target name => mkExpr (E_Field (substitute_in_expr target) name) span
  | E_Array elems => mkExpr (E_Array (substitute_in_expr <$> elems)) span
  | E_SetLit elems => mkExpr (E_SetLit (substitute_in_expr <$> elems)) span
  | E_TupleLit elems => mkExpr (E_TupleLit (substitute_in_expr <$> elems)) span
  | E_ArrayAlloc ty len => mkExpr (E_ArrayAlloc ty (substitute_in_expr len)) span
  | E_Reserve count state => mkExpr (E_Reserve (substitute_in_expr count) state) span
  | E_ExplicitLiteral inner => mkExpr (E_ExplicitLiteral (substitute_in_expr inner)) span
  | E_DictLit pairs =>
      mkExpr (E_DictLit ((λ p, match p with (k, v) =>
        (substitute_in_expr k, substitute_in_expr v) end) <$> pairs)) span
  | E_Call module name args => mkExpr (E_Call module name (substitute_in_expr <$> args)) span
  | E_DynCall target_ident method args v p =>
      mkExpr (E_DynCall target_ident method (substitute_in_expr <$> args) v p) span
  | E_StructLit name fields =>
      mkExpr (E_StructLit name ((λ p, match p with (n, e) => (n, substitute_in_expr e) end) <$> fields)) span
  | E_Pipe head step => mkExpr (E_Pipe (substitute_in_expr head) (substitute_in_expr step)) span
  | E_ListComp mapper clauses =>
      mkExpr (E_ListComp (substitute_in_expr mapper)
        ((λ c, match c with C_For v iter => C_For v (substitute_in_expr iter)
                          | C_If cond => C_If (substitute_in_expr cond) end) <$> clauses)) span
  | E_SetComp mapper clauses =>
      mkExpr (E_SetComp (substitute_in_expr mapper)
        ((λ c, match c with C_For v iter => C_For v (substitute_in_expr iter)
                          | C_If cond => C_If (substitute_in_expr cond) end) <$> clauses)) span
  | E_DictComp key value clauses =>
      mkExpr (E_DictComp (substitute_in_expr key) (substitute_in_expr value)
        ((λ c, match c with C_For v iter => C_For v (substitute_in_expr iter)
                          | C_If cond => C_If (substitute_in_expr cond) end) <$> clauses)) span
  | E_TupleIndex target index => mkExpr (E_TupleIndex (substitute_in_expr target) index) span
  | E_EnumCtor enum_name variant args =>
      mkExpr (E_EnumCtor enum_name variant (substitute_in_expr <$> args)) span
  | E_Match scrut arms =>
      mkExpr (E_Match (substitute_in_expr scrut)
        ((λ a, match a with mkArm p body sp => mkArm p (substitute_in_expr body) sp end) <$> arms)) span
  | E_Block (mkBlock ss t sp) =>
      mkExpr (E_Block (mkBlock (substitute_params_in_stmt <$> ss)
        (match t with Some t => Some (substitute_in_expr t) | None => None end) sp)) span
  | E_If cond (mkBlock ss t sp) else_branch =>
      mkExpr (E_If (substitute_in_expr cond)
        (mkBlock (substitute_params_in_stmt <$> ss)
          (match t with Some t => Some (substitute_in_expr t) | None => None end) sp)
        (match else_branch with
         | ElseNone => ElseNone
         | ElseBlock (mkBlock ss t sp) =>
             ElseBlock (mkBlock (substitute_params_in_stmt <$> ss)
               (match t with Some t => Some (substitute_in_expr t) | None => None end) sp)
         | ElseIf inner => ElseIf (substitute_in_if inner)
         end)) span
  | E_JsonObject pairs =>
      mkExpr (E_JsonObject ((λ p, match p with (n, e) => (n, substitute_in_expr e) end) <$> pairs)) span
  | E_JsonArray items => mkExpr (E_JsonArray (substitute_in_expr <$> items)) span
  | E_Int _ | E_UInt _ | E_Float _ | E_JsonNull | E_I32 _ | E_U32 _ | E_U64 _ | E_U128 _
  | E_Bool _ | E_Str _ | E_Prev => expr
  end end
with substitute_params_in_stmt (stmt : Stmt) {struct stmt} : Stmt :=
  match stmt with
  | S_Let name ty value sp => S_Let name ty (substitute_in_expr value) sp
  | S_Assign target value sp => S_Assign (substitute_in_expr target) (substitute_in_expr value) sp
  | S_Return (Some e) sp => S_Return (Some (substitute_in_expr e)) sp
  | S_Return None sp => stmt
  | S_If if_stmt => S_If (substitute_in_if if_stmt)
  | S_While cond (mkBlock ss t bsp) sp =>
      S_While (substitute_in_expr cond) (mkBlock (substitute_params_in_stmt <$> ss) t bsp) sp
  | S_For var iter limit (mkBlock ss t bsp) sp =>
      S_For var (substitute_in_expr iter) limit (mkBlock (substitute_params_in_stmt <$> ss) t bsp) sp
  | S_ForRange var start end_ inclusive (mkBlock ss t bsp) sp =>
      S_ForRange var (substitute_in_expr start) (substitute_in_expr end_) inclusive
        (mkBlock (substitute_params_in_stmt <$> ss) t bsp) sp
  | S_Break _ | S_Continue _ | S_Placeholder _ => stmt
  | S_Expr e => S_Expr (substitute_in_expr e)
  | S_Emit value sp => S_Emit (substitute_in_expr value) sp
  | S_Delete target sp => S_Delete (substitute_in_expr target) sp
  | S_LetTuple names value sp => S_LetTuple names (substitute_in_expr value) sp
  | S_Parallel ss sp => S_Parallel (substitute_params_in_stmt <$> ss) sp
  | S_ParallelForTo id_var idx_var source output (mkBlock ss t bsp) sp =>
      S_ParallelForTo id_var idx_var (substitute_in_expr source) (substitute_in_expr output)
        (mkBlock (substitute_params_in_stmt <$> ss) t bsp) sp
  end
with substitute_in_if (ifs : IfStmt) {struct ifs} : IfStmt :=
  match ifs with mkIf cond (mkBlock ss t bsp) else_branch sp =>
    mkIf (substitute_in_expr cond) (mkBlock (substitute_params_in_stmt <$> ss) t bsp)
      (match else_branch with
       | ElseNone => ElseNone
       | ElseBlock (mkBlock ss t bsp) => ElseBlock (mkBlock (substitute_params_in_stmt <$> ss) t bsp)
       | ElseIf inner => ElseIf (substitute_in_if inner)
       end) sp
  end.
End substitution.

(** ** Placeholders *)

(** [ensure_no_placeholders]: the span of the first [_;] found, looking into
    conditionals and loops. *)
Fixpoint find_placeholder (b : Block) {struct b} : option Span :=
  match b with mkBlock ss _ _ =>
    foldr (λ s rest, match placeholder_in s with Some sp => Some sp | None => rest end) None ss
  end
with placeholder_in (s : Stmt) {struct s} : option Span :=
  match s with
  | S_Placeholder span => Some span
  | S_If if_stmt => placeholder_in_if if_stmt
  | S_While _ body _ | S_For _ _ _ body _ => find_placeholder body
  | _ => None
  end
with placeholder_in_if (i : IfStmt) {struct i} : option Span :=
  match i with mkIf _ then_ else_branch _ =>
    match find_placeholder then_ with
    | Some sp => Some sp
    | None =>
        match else_branch with
        | ElseNone => None
        | ElseBlock b => find_placeholder b
        | ElseIf inner => placeholder_in_if inner
        end
    end
  end.

Definition type_err {A} (msg : bytes) (span : Span) : outcome A := Err (mkError TypeError (text msg) span).

Definition ensure_no_placeholders (b : Block) : outcome unit :=
  match find_placeholder b with
  | Some span => type_err (str "`_;` is only valid inside a modifier body") span
  | None => Ok tt
  end.

(** ** Expansion *)

(** The modifiers by name; a name declared twice is an error. *)
Fixpoint index_modifiers (ms : list ModifierDecl) (by_name : gmap bytes ModifierDecl) :
    outcome (gmap bytes ModifierDecl) :=
  match ms with
  | [] => Ok by_name
  | m :: ms' =>
      match by_name !! md_name m with
      | Some _ => type_err (str "duplicate modifier '" ++ md_name m ++ str "'") (md_span m)
      | None => index_modifiers ms' (<[md_name m := m]> by_name)
      end
  end.

(** The parameters bound to the arguments, a later parameter of one name wins. *)
Definition bind_params (params : list Param) (args : list Expr) : gmap bytes Expr :=
  foldl (λ s pa, match pa with (p, a) => <[pm_name p := a]> s end) ∅ (zip params args).

Definition is_placeholder (s : Stmt) : bool := match s with S_Placeholder _ => true | _ => false end.

(** The modifier's statements with [current] for every [_;] among them. *)
Definition splice (subst : gmap bytes Expr) (body current : list Stmt) : list Stmt :=
  body ≫= λ s, if is_placeholder s then current else [substitute_params_in_stmt subst s].

(** One turn of the loop over the applied modifiers. *)
Definition apply_modifier (by_name : gmap bytes ModifierDecl) (f_span : Span)
    (mod_name : bytes) (args : list Expr) (current : list Stmt) : outcome (list Stmt) :=
  match by_name !! mod_name with
  | None => type_err (str "unknown modifier '" ++ mod_name ++ str "'") f_span
  | Some m =>
      if negb (length args =? length (md_params m))%nat then
        type_err (str "modifier '" ++ mod_name ++ str "' expects " ++
          dec (zlen (md_params m)) ++ str " arg(s), got " ++ dec (zlen args)) f_span
      else if existsb is_placeholder (bl_stmts (md_body m)) then
        Ok (splice (bind_params (md_params m) args) (bl_stmts (md_body m)) current)
      else type_err (str "modifier '" ++ mod_name ++ str "' has no `_;` placeholder") (md_span m)
  end.

(** The modifiers of a function from the last, innermost, to the first. *)
Fixpoint apply_modifiers (by_name : gmap bytes ModifierDecl) (f_span : Span)
    (reversed : list (bytes * list Expr)) (current : list Stmt) : outcome (list Stmt) :=
  match reversed with
  | [] => Ok current
  | (mod_name, args) :: reversed' =>
      current' ← apply_modifier by_name f_span mod_name args current;
      apply_modifiers by_name f_span reversed' current'
  end.

Definition with_body (f : FnDef) (b : Block) : FnDef :=
  mkFnDef (fd_name f) (fd_params f) (fd_return_type f) b (fd_is_nore f) (fd_is_entry f)
    (fd_is_view f) (fd_is_pure f) [] (fd_span f).

Definition expand_fn (by_name : gmap bytes ModifierDecl) (f : FnDef) : outcome FnDef :=
  if bool_decide (fd_modifiers f = []) then
    _ ← ensure_no_placeholders (fd_body f); Ok f
  else
    current ← apply_modifiers by_name (fd_span f) (reverse (fd_modifiers f)) (bl_stmts (fd_body f));
    let body := mkBlock current (bl_tail (fd_body f)) (bl_span (fd_body f)) in
    _ ← ensure_no_placeholders body;
    Ok (with_body f body).

Definition with_fns (m : SrcModule) (fs : list FnDef) : SrcModule :=
  mkSrcModule (sm_name m) (sm_imports m) (sm_states m) fs (sm_structs m) (sm_handlers m)
    (sm_modifiers m) (sm_enums m) (sm_consts m) (sm_caps m) (sm_interfaces m) (sm_indexes m).

Definition expand (m : SrcModule) : outcome SrcModule :=
  by_name ← index_modifiers (sm_modifiers m) ∅;
  fs ← mapM_out (expand_fn by_name) (sm_functions m);
  Ok (with_fns m fs).
