(* ===== verification/ModifierFacts.v ===== *)
(** What modifier expansion answers, on every branch; and two places where a
    modifier does not wrap the function. *)
From S2P Require Import Prelude Bytes Values JsonText Display Ops Bytecode Ast Modifier.

(** ** The abstract expansion *)

(** The declaration a name stands for. *)
Definition find_modifier (ms : list ModifierDecl) (name : bytes) : option ModifierDecl :=
  snd <$> list_find (λ m, md_name m = name) ms.

(** An application is accepted: the modifier exists, takes as many arguments and
    has a place for the body. *)
Definition accepted (ms : list ModifierDecl) (app : bytes * list Expr) : Prop :=
  ∃ m, find_modifier ms app.1 = Some m ∧ length app.2 = length (md_params m) ∧
    existsb is_placeholder (bl_stmts (md_body m)) = true.

(** The body wrapped, the first modifier outermost. *)
Definition wrap_with (ms : list ModifierDecl) (app : bytes * list Expr) (inner : list Stmt) : list Stmt :=
  match find_modifier ms app.1 with
  | Some m => splice (bind_params (md_params m) app.2) (bl_stmts (md_body m)) inner
  | None => inner
  end.
Definition wrapped (ms : list ModifierDecl) (f : FnDef) : Block :=
  mkBlock (foldr (wrap_with ms) (bl_stmts (fd_body f)) (fd_modifiers f))
    (bl_tail (fd_body f)) (bl_span (fd_body f)).

(** ** The index *)
Lemma find_modifier_cons m ms n :
  find_modifier (m :: ms) n = if decide (md_name m = n) then Some m else find_modifier ms n.
Proof.
  unfold find_modifier. cbn. case_decide; [done|]. by destruct (list_find _ ms) as [[? ?]|].
Qed.

Lemma find_modifier_elem ms n m : find_modifier ms n = Some m → m ∈ ms ∧ md_name m = n.
Proof.
  induction ms as [|m' ms IH]; [done|]. rewrite find_modifier_cons. case_decide.
  - intros [= ->]. split; [by left|done].
  - intros H1. destruct (IH H1). split; [by right|done].
Qed.

Lemma index_modifiers_spec ms by_name :
  (NoDup (md_name <$> ms) ∧ (∀ m, m ∈ ms → by_name !! md_name m = None) →
    ∃ idx, index_modifiers ms by_name = Ok idx ∧
      ∀ n, idx !! n = match by_name !! n with Some m => Some m | None => find_modifier ms n end) ∧
  (∀ idx, index_modifiers ms by_name = Ok idx →
    NoDup (md_name <$> ms) ∧ (∀ m, m ∈ ms → by_name !! md_name m = None)).
Proof.
  revert by_name. induction ms as [|m ms IH]; intros by_name; cbn [index_modifiers].
  { split; [|intros idx _; split; [constructor|by intros m ?%not_elem_of_nil]].
    intros _. exists by_name. split; [done|]. intros n. by destruct (by_name !! n). }
  destruct (IH (<[md_name m := m]> by_name)) as [IH1 IH2]. rewrite fmap_cons. split.
  - intros [[Hn Hnd]%NoDup_cons Hfree]. rewrite (Hfree m) by left.
    destruct IH1 as (idx & -> & Hidx).
    + split; [done|]. intros m' Hm'. rewrite lookup_insert_ne; [apply Hfree; by right|].
      intros E. apply Hn. rewrite E. by apply list_elem_of_fmap_2.
    + exists idx. split; [done|]. intros n. rewrite Hidx, find_modifier_cons. case_decide as E.
      * subst n. by rewrite lookup_insert_eq, (Hfree m) by left.
      * by rewrite lookup_insert_ne.
  - intros idx. destruct (by_name !! md_name m) eqn:E; [done|]. intros Hi.
    destruct (IH2 idx Hi) as [Hnd Hfree]. split; [constructor|].
    + intros Hin. apply list_elem_of_fmap in Hin as (m' & Hm' & Hin). specialize (Hfree m' Hin).
      by rewrite <- Hm', lookup_insert_eq in Hfree.
    + done.
    + intros m' [->|Hin]%elem_of_cons; [done|]. specialize (Hfree m' Hin).
      by apply lookup_insert_None in Hfree as [? _].
Qed.

(** ** One function *)
Section expansion.
Context (ms : list ModifierDecl) (idx : gmap bytes ModifierDecl) (Hidx : ∀ n, idx !! n = find_modifier ms n).

Lemma apply_modifier_spec sp app inner out :
  apply_modifier idx sp app.1 app.2 inner = Ok out ↔ accepted ms app ∧ out = wrap_with ms app inner.
Proof.
  unfold apply_modifier, accepted, wrap_with. rewrite Hidx.
  destruct (find_modifier ms app.1) as [m|]; [|by split; [|intros [(m & ? & _) _]]].
  destruct (length app.2 =? length (md_params m))%nat eqn:El; cbn [negb].
  - apply Nat.eqb_eq in El. destruct (existsb is_placeholder _) eqn:Ep.
    + split; [intros [= <-]; split; [by exists m|done]|by intros [_ ->]].
    + split; [done|]. intros [(m' & Hm & _ & Hp) _]. simplify_eq. congruence.
  - apply Nat.eqb_neq in El. split; [done|]. intros [(m' & Hm & Hl & _) _]. by simplify_eq.
Qed.

Lemma apply_modifiers_spec sp apps inner out :
  apply_modifiers idx sp apps inner = Ok out ↔
  (∀ app, app ∈ apps → accepted ms app) ∧ out = foldl (λ cur app, wrap_with ms app cur) inner apps.
Proof.
  revert inner. induction apps as [|[n args] apps IH]; intros inner; cbn [apply_modifiers foldl].
  { split; [intros [= ->]; split; [by intros ? ?%not_elem_of_nil|done]|by intros [_ ->]]. }
  pose proof (apply_modifier_spec sp (n, args) inner) as Ha. cbn [fst snd] in Ha. split.
  - intros H. destruct (apply_modifier idx sp n args inner) as [cur|e| |] eqn:E; [|done..].
    cbn in H. destruct (proj1 (Ha cur) eq_refl) as [Hacc ->]. apply IH in H as [Hrest ->]. split; [|done].
    intros app [->|Hin]%elem_of_cons; auto.
  - intros [Hacc ->]. rewrite (proj2 (Ha (wrap_with ms (n, args) inner))) by (split; [apply Hacc; by left|done]).
    cbn. apply IH. split; [|done]. intros app Hin. apply Hacc. by right.
Qed.

Lemma foldl_reverse_wrap apps inner :
  foldl (λ cur app, wrap_with ms app cur) inner (reverse apps) = foldr (wrap_with ms) inner apps.
Proof. induction apps as [|a apps IH]; [done|]. rewrite reverse_cons, foldl_app. cbn. by rewrite IH. Qed.

Lemma ensure_ok b : ensure_no_placeholders b = Ok tt ↔ find_placeholder b = None.
Proof. unfold ensure_no_placeholders. by case_match. Qed.

Lemma expand_fn_spec f f' :
  expand_fn idx f = Ok f' ↔
  (∀ app, app ∈ fd_modifiers f → accepted ms app) ∧ find_placeholder (wrapped ms f) = None ∧
  f' = with_body f (wrapped ms f).
Proof.
  unfold expand_fn. case_bool_decide as Hm.
  - assert (Hw : wrapped ms f = fd_body f) by (unfold wrapped; rewrite Hm; by destruct (fd_body f)).
    assert (Hf : with_body f (fd_body f) = f) by (destruct f; cbn in *; by subst).
    rewrite Hw, Hf. rewrite <- ensure_ok, Hm.
    destruct (ensure_no_placeholders (fd_body f)) as [[]|e| |]; cbn; split; try naive_solver.
    intros [= <-]. split; [by intros ? ?%not_elem_of_nil|done].
  - assert (Hap : ∀ cur, apply_modifiers idx (fd_span f) (reverse (fd_modifiers f)) (bl_stmts (fd_body f)) = Ok cur ↔
      (∀ app, app ∈ fd_modifiers f → accepted ms app) ∧ cur = bl_stmts (wrapped ms f)).
    { intros cur. rewrite apply_modifiers_spec, foldl_reverse_wrap. setoid_rewrite elem_of_reverse. done. }
    split.
    + intros H. destruct (apply_modifiers _ _ _ _) as [cur|e| |] eqn:E; [|done..].
      destruct (proj1 (Hap cur) eq_refl) as [Hacc ->]. cbn in H. change (mkBlock _ _ _) with (wrapped ms f) in H.
      destruct (ensure_no_placeholders (wrapped ms f)) as [[]|e| |] eqn:E'; [|done..].
      apply ensure_ok in E'. cbn in H. by simplify_eq.
    + intros (Hacc & Hp & ->). rewrite (proj2 (Hap _)) by done. cbn.
      change (mkBlock _ _ _) with (wrapped ms f). by rewrite (proj2 (ensure_ok _)).
Qed.
End expansion.

(** [mapM_out] answers when the function answers everywhere. *)
Lemma mapM_out_ok_iff {A B} (f : A → outcome B) l l' :
  mapM_out f l = Ok l' ↔ Forall2 (λ x y, f x = Ok y) l l'.
Proof.
  revert l'. induction l as [|x l IH]; intros l'; cbn.
  - split; [by intros [= <-]|by inversion 1].
  - destruct (f x) as [y|e| |] eqn:E; cbn.
    2,3,4: split; [done|inversion 1; congruence].
    destruct (mapM_out f l) as [ys|e| |] eqn:El; cbn.
    1: split; [intros [= <-]; constructor; [done|by apply IH]|].
    1: inversion 1 as [|? ? ? ? Hy Hl]; subst. 1: apply IH in Hl. 1: congruence.
    all: split; [done|]. all: inversion 1 as [|? ? ? ? Hy Hl]; subst; apply IH in Hl; congruence.
Qed.

