(* ===== verification/Parser.v ===== *)
(** Parser ([crates/rend/src/parser.rs]): recursive descent over the tokens of a
    source, with binding powers for the operators. *)
From S2P Require Import Prelude Bytes Values JsonText Display Ops Bytecode Ast Lexer Effects.
#[local] Set Warnings "-register-all".
#[local] Open Scope nat_scope.

(** The names a first pass over the tokens collects. *)
Record Names := mkNames {
  struct_names : gset bytes; enum_names : gset bytes; interface_names : gset bytes;
}.

(** The part of [struct Parser] that changes: the position and the flag
    [no_struct_literal]. *)
Record Cursor := mkCursor { cu_pos : nat; cu_no_struct : bool }.
Abbreviation PM := (SM Cursor).

Definition parse_err {A} (msg : bytes) (span : Span) : PM A :=
  lift (Err (mkError Parse (text msg) span)).

(** ** The token cursor *)
Section cursor.
Context (token_debug : Token → bytes) (tokens : list Spanned).

Definition cur : PM Spanned := λ s, (or_panic (tokens !! cu_pos s), s).
Definition peek_token : PM Token := t ← cur; mret (sp_token t).
Definition cur_span : PM Span := t ← cur; mret (sp_span t).
Definition peek_token_at (offset : nat) : PM (option Token) :=
  gets (λ s, sp_token <$> tokens !! (cu_pos s + offset)).
Definition peek_is (t : Token) : PM bool := t' ← peek_token; mret (bool_decide (t' = t)).
Definition is_eof : PM bool := peek_is T_Eof.

(** The last token is never passed. *)
Definition advance : PM unit :=
  modify (λ s, if decide (cu_pos s + 1 < length tokens) then mkCursor (cu_pos s + 1) (cu_no_struct s) else s).

Definition got (msg : bytes) (t : Token) : bytes := msg ++ str " (got " ++ token_debug t ++ str ")".
Definition expect (t : Token) (msg : bytes) : PM unit :=
  b ← peek_is t;
  if b : bool then advance else t' ← peek_token; sp ← cur_span; parse_err (got msg t') sp.
Definition expect_ident : PM bytes :=
  t ← peek_token;
  match t with
  | T_Ident s => _ ← advance; mret s
  | other => sp ← cur_span; parse_err (str "expected identifier, got " ++ token_debug other) sp
  end.

(** [self.tokens[self.pos.saturating_sub(1)].span.end]. *)
Definition prev_end : PM Z :=
  λ s, (t ← or_panic (tokens !! (cu_pos s - 1)); Ok (span_end (sp_span t)), s).
(** [self.tokens[self.pos - 1].span.end]. *)
Definition prev_end_at : PM Z :=
  λ s, (match cu_pos s with
        | O => Panic
        | S p => t ← or_panic (tokens !! p); Ok (span_end (sp_span t))
        end, s).

Definition start_of : PM Z := sp ← cur_span; mret (span_start sp).
Definition end_of : PM Z := sp ← cur_span; mret (span_end sp).

(** [let saved = self.no_struct_literal; .. = flag; m; .. = saved]. *)
Definition set_no_struct (flag : bool) : PM unit := modify (λ s, mkCursor (cu_pos s) flag).
Definition with_no_struct {A} (flag : bool) (m : PM A) : PM A :=
  saved ← gets cu_no_struct;
  _ ← set_no_struct flag;
  r ← m;
  _ ← set_no_struct saved;
  mret r.

(** A loop takes a token in each turn. *)
Definition loop_fuel : nat := S (length tokens).

(** [while !self.peek_is(close) { item; if !self.peek_is(close) { expect(Comma) } }]. *)
Fixpoint until_loop {A} (fuel : nat) (close : Token) (sep_msg : bytes) (item : PM A) : PM (list A) :=
  match fuel with
  | O => lift OutOfFuel
  | S fuel' =>
      stop ← peek_is close;
      if stop : bool then mret [] else
      x ← item;
      last ← peek_is close;
      _ ← (if last : bool then mret tt else expect T_Comma sep_msg);
      xs ← until_loop fuel' close sep_msg item;
      mret (x :: xs)
  end.
Definition until {A} (close : Token) (sep_msg : bytes) (item : PM A) : PM (list A) :=
  until_loop loop_fuel close sep_msg item.

(** [while self.peek_is(Comma) { advance; if self.peek_is(close) { break } item }]. *)
Fixpoint more_loop {A} (fuel : nat) (close : Token) (item : PM A) : PM (list A) :=
  match fuel with
  | O => lift OutOfFuel
  | S fuel' =>
      comma ← peek_is T_Comma;
      if comma : bool then
        _ ← advance;
        stop ← peek_is close;
        if stop : bool then mret [] else
        x ← item;
        xs ← more_loop fuel' close item;
        mret (x :: xs)
      else mret []
  end.
Definition more {A} (close : Token) (item : PM A) : PM (list A) := more_loop loop_fuel close item.

(** [while !self.peek_is(close) { item }]. *)
Fixpoint plain_loop {A} (fuel : nat) (close : Token) (item : PM A) : PM (list A) :=
  match fuel with
  | O => lift OutOfFuel
  | S fuel' =>
      stop ← peek_is close;
      if stop : bool then mret [] else
      x ← item; xs ← plain_loop fuel' close item; mret (x :: xs)
  end.

(** ** Names *)
Fixpoint skip_body (fuel : nat) (depth : Z) : PM unit :=
  match fuel with
  | O => lift OutOfFuel
  | S fuel' =>
      eof ← is_eof;
      if eof : bool then mret tt else
      t ← peek_token;
      match t with
      | T_LBrace => _ ← advance; skip_body fuel' (depth + 1)%Z
      | T_RBrace =>
          _ ← advance;
          if (depth - 1 =? 0)%Z then mret tt else skip_body fuel' (depth - 1)%Z
      | _ => _ ← advance; skip_body fuel' depth
      end
  end.

Definition add_name (kw : Token) (name : bytes) (ns : Names) : Names :=
  match kw with
  | T_Struct | T_Cap => mkNames ({[name]} ∪ struct_names ns) (enum_names ns) (interface_names ns)
  | T_Enum => mkNames (struct_names ns) ({[name]} ∪ enum_names ns) (interface_names ns)
  | T_Interface => mkNames (struct_names ns) (enum_names ns) ({[name]} ∪ interface_names ns)
  | _ => ns
  end.

Fixpoint collect_names (fuel : nat) (ns : Names) : PM Names :=
  match fuel with
  | O => lift OutOfFuel
  | S fuel' =>
      eof ← is_eof;
      if eof : bool then mret ns else
      kw ← peek_token;
      match kw with
      | T_Struct | T_Enum | T_Cap | T_Interface =>
          _ ← advance;
          t ← peek_token;
          let ns' := match t with T_Ident name => add_name kw name ns | _ => ns end in
          _ ← skip_body loop_fuel 0;
          collect_names fuel' ns'
      | _ => _ ← advance; collect_names fuel' ns
      end
  end.
End cursor.

(** ** The grammar *)
Section grammar.
Context (token_debug : Token → bytes) (tokens : list Spanned) (names : Names).
#[local] Abbreviation cur_span := (cur_span tokens).
#[local] Abbreviation peek_token := (peek_token tokens).
#[local] Abbreviation peek_is := (peek_is tokens).
#[local] Abbreviation advance := (advance tokens).
#[local] Abbreviation expect := (expect token_debug tokens).
#[local] Abbreviation expect_ident := (expect_ident token_debug tokens).
#[local] Abbreviation start_of := (start_of tokens).
#[local] Abbreviation end_of := (end_of tokens).
#[local] Abbreviation prev_end := (prev_end tokens).
#[local] Abbreviation until := (until token_debug tokens).
#[local] Abbreviation more := (more tokens).
#[local] Abbreviation plain_until := (plain_loop tokens (loop_fuel tokens)).

(** *** Types *)
Definition simple_types : list (bytes * Ty) := Eval compute in
  [(str "i64", TInt); (str "int", TInt); (str "uint", TUInt); (str "float", TFloat);
   (str "i32", TI32); (str "u32", TU32); (str "u64", TU64); (str "u128", TU128);
   (str "bool", TBool); (str "unit", TUnit); (str "Resource", TResource);
   (str "string", TString); (str "str", TString); (str "Address", TAddress);
   (str "bytes", TBytes); (str "json", TJson)].
Definition simple_type (s : bytes) : option Ty :=
  match list_find (λ p, p.1 = s) simple_types with Some (_, (_, t)) => Some t | None => None end.

Section parse_type.
Context (rec : PM Ty).
Definition one_type_arg (name : bytes) (mk : Ty → Ty) : PM Ty :=
  _ ← expect T_Lt (str "expected '<' after '" ++ name ++ str "'");
  elem ← rec;
  _ ← expect T_Gt (str "expected '>' to close " ++ name ++ str "<...>");
  mret (mk elem).
Definition two_type_args (name : bytes) (mk : Ty → Ty → Ty) : PM Ty :=
  _ ← expect T_Lt (str "expected '<' after '" ++ name ++ str "'");
  key ← rec;
  _ ← expect T_Comma (str "expected ',' between " ++ name ++ str " key and value");
  value ← rec;
  _ ← expect T_Gt (str "expected '>' to close " ++ name ++ str "<...>");
  mret (mk key value).

(** A name in type position. *)
Definition named_type (s : bytes) (span : Span) : PM Ty :=
  q ← peek_is T_ColonColon;
  if q : bool then
    _ ← advance;
    tname ← expect_ident;
    mret (TStruct (qualified s tname) [] [])
  else
  match simple_type s with
  | Some t => mret t
  | None =>
      if decide (s ∈ struct_names names) then mret (TStruct s [] [])
      else if decide (s ∈ enum_names names) then mret (TEnum s [])
      else if decide (s ∈ interface_names names) then mret (TInterface s [])
      else if decide (s = str "map") then two_type_args s TMap
      else if decide (s = str "pmap") then two_type_args s TPMap
      else if decide (s = str "pbtree") then two_type_args s TPBTree
      else if decide (s = str "pvec") then one_type_arg s TPVec
      else if decide (s = str "set") then one_type_arg s TSet
      else if decide (s = str "dict") then two_type_args s TDict
      else parse_err (str "unknown type '" ++ s ++ str "'") span
  end.

Definition type_step : PM Ty :=
  span ← cur_span;
  t ← peek_token;
  match t with
  | T_Backtick =>
      _ ← advance;
      inner ← rec;
      _ ← expect T_Backtick (str "expected closing '`' on `T` type");
      mret (TExplicitLiteral inner)
  | T_Set => _ ← advance; one_type_arg (str "set") TSet
  | T_Dict => _ ← advance; two_type_args (str "dict") TDict
  | T_Ident s => _ ← advance; named_type s span
  | T_LParen =>
      _ ← advance;
      unit ← peek_is T_RParen;
      if unit : bool then _ ← advance; mret TUnit else
      first ← rec;
      comma ← peek_is T_Comma;
      if comma : bool then
        elems ← more T_RParen rec;
        _ ← expect T_RParen (str "expected ')' to close tuple type");
        mret (TTuple (first :: elems))
      else
        _ ← expect T_RParen (str "expected ')'");
        mret first
  | T_LBracket =>
      _ ← advance;
      elem ← rec;
      _ ← expect T_RBracket (str "expected ']' to close array type");
      mret (TArray elem)
  | other => parse_err (str "expected type, got " ++ token_debug other) span
  end.
End parse_type.

Fixpoint parse_type_fuel (fuel : nat) : PM Ty :=
  match fuel with O => lift OutOfFuel | S fuel' => type_step (parse_type_fuel fuel') end.
Definition parse_type : PM Ty := parse_type_fuel (loop_fuel tokens).

(** *** Explicit literals *)

(** [validate_inert_literal]: the first expression found that is not a literal. *)
Definition is_number (e : Expr) : bool :=
  match e with
  | mkExpr (E_Int _ | E_Float _ | E_I32 _ | E_U32 _ | E_U64 _ | E_U128 _) _ => true
  | _ => false
  end.
Definition first_of {A B} (f : A → option B) : list A → option B :=
  foldr (λ x rest, match f x with Some y => Some y | None => rest end) None.
Fixpoint inert_error (e : Expr) : option (bytes * Span) :=
  match e with mkExpr kind span =>
  match kind with
  | E_Int _ | E_UInt _ | E_Float _ | E_I32 _ | E_U32 _ | E_U64 _ | E_U128 _ | E_Bool _
  | E_Str _ | E_JsonNull => None
  | E_Array elems | E_TupleLit elems | E_SetLit elems | E_JsonArray elems => first_of inert_error elems
  | E_JsonObject pairs => first_of (λ p, match p with (_, e) => inert_error e end) pairs
  | E_DictLit pairs =>
      first_of (λ p, match p with (k, v) =>
        match inert_error k with Some x => Some x | None => inert_error v end end) pairs
  | E_StructLit _ fields => first_of (λ p, match p with (_, e) => inert_error e end) fields
  | E_Unary Neg operand =>
      if is_number operand then None
      else Some (str "explicit literal `...` may only negate a numeric literal", span)
  | _ => Some (str "explicit literal `...` cannot contain code or non-literal expressions", span)
  end end.
Definition validate_inert_literal (e : Expr) : PM unit :=
  match inert_error e with Some (msg, span) => parse_err msg span | None => mret tt end.

(** *** Expressions

    A form that is parsed within another after a token goes through [rec], the
    parser with one call less of fuel. *)
Record Rec := mkRec {
  rec_bp : Z → PM Expr; rec_prefix : PM Expr; rec_json : PM Expr;
  rec_stmt : PM Stmt; rec_if : PM IfStmt;
}.

Section step.
Context (rec : Rec).
#[local] Abbreviation rec_expr := (rec_bp rec 0%Z).

(** Arguments up to the closing parenthesis. *)
Definition parse_args (sep_msg : bytes) : PM (list Expr) := until T_RParen sep_msg rec_expr.

Definition parse_clause (is_for : bool) : PM CompClause :=
  _ ← advance;
  if is_for then
    var ← expect_ident;
    _ ← expect T_In (str "expected 'in' in comprehension");
    iter ← with_no_struct true rec_expr;
    mret (C_For var iter)
  else
    cond ← with_no_struct true rec_expr;
    mret (C_If cond).
Fixpoint clauses_loop (fuel : nat) : PM (list CompClause) :=
  match fuel with
  | O => lift OutOfFuel
  | S fuel' =>
      t ← peek_token;
      match t with
      | T_For => c ← parse_clause true; cs ← clauses_loop fuel'; mret (c :: cs)
      | T_If => c ← parse_clause false; cs ← clauses_loop fuel'; mret (c :: cs)
      | _ => mret []
      end
  end.
Definition parse_comp_clauses : PM (list CompClause) := clauses_loop (loop_fuel tokens).

Definition parse_match_pattern : PM MatchPattern :=
  t ← peek_token;
  if decide (t = T_Ident (str "_")) then _ ← advance; mret Wildcard else
  enum_name ← expect_ident;
  _ ← expect T_ColonColon (str "expected '::' in match pattern");
  variant ← expect_ident;
  lp ← peek_is T_LParen;
  bindings ← (if lp : bool then
      _ ← advance;
      ns ← until T_RParen (str "expected ',' between pattern bindings") expect_ident;
      _ ← expect T_RParen (str "expected ')'");
      mret ns
    else mret []);
  mret (EnumPattern enum_name variant bindings).

Definition parse_arm : PM MatchArm :=
  arm_start ← start_of;
  pattern ← parse_match_pattern;
  _ ← expect T_FatArrow (str "expected '=>' after match pattern");
  body ← rec_expr;
  arm_end ← prev_end;
  mret (mkArm pattern body (mkSpan arm_start arm_end)).

Definition parse_match_expr : PM Expr :=
  start ← start_of;
  _ ← expect T_Match (str "expected 'match'");
  scrut ← with_no_struct true rec_expr;
  _ ← expect T_LBrace (str "expected '{' to open match arms");
  arms ← until T_RBrace (str "expected ',' between match arms") parse_arm;
  close ← end_of;
  _ ← expect T_RBrace (str "expected '}' to close match");
  mret (mkExpr (E_Match scrut arms) (mkSpan start close)).

(** *** Blocks *)
Definition starts_keyword_stmt (t : Token) : bool :=
  match t with
  | T_Let | T_Return | T_While | T_For | T_Break | T_Continue | T_Emit | T_Delete | T_Parallel => true
  | _ => false
  end.
Definition is_expr_with_block (k : ExprKind) : bool :=
  match k with E_If _ _ _ | E_Match _ _ | E_Block _ => true | _ => false end.
Definition has_tail (b : Block) : bool := match bl_tail b with Some _ => true | None => false end.
Fixpoint if_yields_value (i : IfStmt) : bool :=
  match i with mkIf _ then_ else_branch _ =>
    if has_tail then_ then true else
    match else_branch with
    | ElseNone => false
    | ElseBlock b => has_tail b
    | ElseIf inner => if_yields_value inner
    end
  end.
Definition expr_with_block_yields_value (k : ExprKind) : bool :=
  match k with
  | E_Block b => has_tail b
  | E_If cond then_ else_branch => if_yields_value (mkIf cond then_ else_branch Span_default)
  | E_Match _ arms => negb (bool_decide (arms = []))
  | _ => false
  end.
(** A conditional in statement position becomes a statement again. *)
Definition block_stmt (e : Expr) : Stmt :=
  match e with
  | mkExpr (E_If cond then_ else_branch) span => S_If (mkIf cond then_ else_branch span)
  | _ => S_Expr e
  end.

(** One turn of the loop of [parse_block]: a statement, or the tail. *)
Definition block_item : PM (Stmt + Expr) :=
  t ← peek_token;
  next ← peek_token_at tokens 1;
  if starts_keyword_stmt t || (bool_decide (t = T_Ident (str "_")) && bool_decide (next = Some T_Semi))
  then s ← rec_stmt rec; mret (inl s) else
  e ← rec_expr;
  t ← peek_token;
  match t with
  | T_Eq =>
      _ ← advance;
      value ← rec_expr;
      semi ← end_of;
      _ ← expect T_Semi (str "expected ';' after assignment");
      mret (inl (S_Assign e value (mkSpan (span_start (ex_span e)) semi)))
  | T_Semi =>
      semi ← end_of;
      _ ← advance;
      mret (inl (S_Expr (mkExpr (ex_kind e) (mkSpan (span_start (ex_span e)) semi))))
  | T_RBrace =>
      mret (if is_expr_with_block (ex_kind e) && negb (expr_with_block_yields_value (ex_kind e))
            then inl (block_stmt e) else inr e)
  | other =>
      if is_expr_with_block (ex_kind e) then mret (inl (block_stmt e)) else
      span ← cur_span;
      parse_err (str "expected ';', '=', or '}' after expression, got " ++ token_debug other) span
  end.

Fixpoint block_loop (fuel : nat) : PM (list Stmt * option Expr) :=
  match fuel with
  | O => lift OutOfFuel
  | S fuel' =>
      stop ← peek_is T_RBrace;
      eof ← is_eof tokens;
      if (stop : bool) || (eof : bool) then mret ([], None) else
      item ← block_item;
      match item with
      | inl s => r ← block_loop fuel'; mret (s :: r.1, r.2)
      | inr e => mret ([], Some e)
      end
  end.

Definition parse_block : PM Block :=
  start ← start_of;
  _ ← expect T_LBrace (str "expected '{'");
  body ← block_loop (loop_fuel tokens);
  close ← end_of;
  _ ← expect T_RBrace (str "expected '}'");
  mret (mkBlock body.1 body.2 (mkSpan start close)).

Definition parse_if_stmt : PM IfStmt :=
  start ← start_of;
  _ ← expect T_If (str "expected 'if'");
  cond ← with_no_struct true rec_expr;
  then_ ← parse_block;
  has_else ← peek_is T_Else;
  if has_else : bool then
    _ ← advance;
    nested ← peek_is T_If;
    if nested : bool then
      inner ← rec_if rec;
      mret (mkIf cond then_ (ElseIf inner)
        (mkSpan start (match inner with mkIf _ _ _ sp => span_end sp end)))
    else
      b ← parse_block;
      mret (mkIf cond then_ (ElseBlock b) (mkSpan start (span_end (bl_span b))))
  else mret (mkIf cond then_ ElseNone (mkSpan start (span_end (bl_span then_)))).

Definition parse_if_expr : PM Expr :=
  start ← start_of;
  i ← parse_if_stmt;
  mret (match i with mkIf cond then_ else_branch sp =>
    mkExpr (E_If cond then_ else_branch) (mkSpan start (span_end sp)) end).

(** *** Json literals *)
Definition json_pair : PM (bytes * Expr) :=
  t ← peek_token;
  match t with
  | T_Str s =>
      _ ← advance;
      _ ← expect T_Colon (str "expected ':' after JSON object key");
      value ← rec_json rec;
      mret (s, value)
  | other =>
      sp ← cur_span;
      parse_err (str "expected JSON object key (a string literal), got " ++ token_debug other) sp
  end.
(** [loop { item; match next { Comma => continue, close => return, .. } }]. *)
Fixpoint json_loop {A} (fuel : nat) (close : Token) (msg : bytes) (item : PM A) : PM (list A) :=
  match fuel with
  | O => lift OutOfFuel
  | S fuel' =>
      x ← item;
      t ← peek_token;
      if decide (t = T_Comma) then _ ← advance; xs ← json_loop fuel' close msg item; mret (x :: xs)
      else if decide (t = close) then _ ← advance; mret [x]
      else sp ← cur_span; parse_err (msg ++ token_debug t) sp
  end.
Definition json_body {A} (open close : Token) (open_msg msg : bytes) (item : PM A) : PM (list A) :=
  _ ← expect open open_msg;
  empty ← peek_is close;
  if empty : bool then _ ← advance; mret [] else json_loop (loop_fuel tokens) close msg item.
Definition parse_json_object (opener_span : Span) : PM Expr :=
  pairs ← json_body T_LBrace T_RBrace (str "expected '{'") (str "expected ',' or '}' in JSON object, got ") json_pair;
  close ← prev_end_at tokens;
  mret (mkExpr (E_JsonObject pairs) (mkSpan (span_start opener_span) close)).
Definition parse_json_array : PM Expr :=
  opener ← cur_span;
  items ← json_body T_LBracket T_RBracket (str "expected '['") (str "expected ',' or ']' in JSON array, got ")
    (rec_json rec);
  close ← prev_end_at tokens;
  mret (mkExpr (E_JsonArray items) (mkSpan (span_start opener) close)).

(** *** Primary expressions *)
Definition literal (mk : ExprKind) (span : Span) : PM Expr := _ ← advance; mret (mkExpr mk span).

Definition parse_dyn_call (span : Span) : PM Expr :=
  _ ← advance;
  target_ident ← expect_ident;
  _ ← expect T_ColonColon (str "expected '::' after '$<ident>' in dynamic dispatch");
  method ← expect_ident;
  _ ← expect T_LParen (str "expected '(' in dynamic dispatch args");
  args ← parse_args (str "expected ',' between args");
  close ← end_of;
  _ ← expect T_RParen (str "expected ')'");
  mret (mkExpr (E_DynCall target_ident method args false false) (mkSpan (span_start span) close)).

Definition parse_explicit (span : Span) : PM Expr :=
  _ ← advance;
  inner ← with_no_struct false rec_expr;
  close ← end_of;
  _ ← expect T_Backtick (str "expected closing '`' on explicit literal");
  _ ← validate_inert_literal inner;
  mret (mkExpr (E_ExplicitLiteral inner) (mkSpan (span_start span) close)).

Definition parse_reserve (span : Span) : PM Expr :=
  _ ← advance;
  count ← with_no_struct true rec_expr;
  t ← peek_token;
  _ ← (if decide (t = T_Ident (str "from")) then advance
       else sp ← cur_span; parse_err (str "expected 'from' after `reserve N`") sp);
  state_name ← expect_ident;
  close ← start_of;
  mret (mkExpr (E_Reserve count state_name) (mkSpan (span_start span) close)).

Definition parse_arr (span : Span) : PM Expr :=
  _ ← advance;
  _ ← expect T_Lt (str "expected '<' after 'arr'");
  elem_ty ← parse_type;
  _ ← expect T_Gt (str "expected '>' after 'arr<T'");
  _ ← expect T_LBracket (str "expected '[' after 'arr<T>'");
  len ← with_no_struct true rec_expr;
  close ← end_of;
  _ ← expect T_RBracket (str "expected ']' to close arr<T>[N]");
  mret (mkExpr (E_ArrayAlloc elem_ty len) (mkSpan (span_start span) close)).

(** [set { .. }], a literal or a comprehension. *)
Definition parse_set (span : Span) : PM Expr :=
  _ ← advance;
  _ ← expect T_LBrace (str "expected '{' after 'set'");
  empty ← peek_is T_RBrace;
  if empty : bool then
    close ← end_of; _ ← advance; mret (mkExpr (E_SetLit []) (mkSpan (span_start span) close))
  else with_no_struct false (
    first ← rec_expr;
    comp ← peek_is T_For;
    if comp : bool then
      clauses ← parse_comp_clauses;
      close ← end_of;
      _ ← expect T_RBrace (str "expected '}' to close set comprehension");
      mret (mkExpr (E_SetComp first clauses) (mkSpan (span_start span) close))
    else
      elems ← more T_RBrace rec_expr;
      close ← end_of;
      _ ← expect T_RBrace (str "expected '}' to close set literal");
      mret (mkExpr (E_SetLit (first :: elems)) (mkSpan (span_start span) close))).

Definition dict_pair : PM (Expr * Expr) :=
  k ← rec_expr;
  _ ← expect T_Colon (str "expected ':' between dict key and value");
  v ← rec_expr;
  mret (k, v).
Definition parse_dict (span : Span) : PM Expr :=
  _ ← advance;
  _ ← expect T_LBrace (str "expected '{' after 'dict'");
  empty ← peek_is T_RBrace;
  if empty : bool then
    close ← end_of; _ ← advance; mret (mkExpr (E_DictLit []) (mkSpan (span_start span) close))
  else with_no_struct false (
    first ← dict_pair;
    comp ← peek_is T_For;
    if comp : bool then
      clauses ← parse_comp_clauses;
      close ← end_of;
      _ ← expect T_RBrace (str "expected '}' to close dict comprehension");
      mret (mkExpr (E_DictComp first.1 first.2 clauses) (mkSpan (span_start span) close))
    else
      pairs ← more T_RBrace dict_pair;
      close ← end_of;
      _ ← expect T_RBrace (str "expected '}' to close dict literal");
      mret (mkExpr (E_DictLit (first :: pairs)) (mkSpan (span_start span) close))).

(** A brace opens a json object or a block. *)
Definition looks_like_json (t1 t2 : option Token) : bool :=
  match t1, t2 with
  | Some T_RBrace, _ => true
  | Some (T_Str _), Some T_Colon => true
  | _, _ => false
  end.
Definition parse_brace : PM Expr :=
  opener ← cur_span;
  t1 ← peek_token_at tokens 1;
  t2 ← peek_token_at tokens 2;
  if looks_like_json t1 t2 then parse_json_object opener
  else
    block ← parse_block;
    close ← prev_end;
    mret (mkExpr (E_Block block) (mkSpan (span_start opener) close)).

(** What follows a name: a constructor of an enum or a call in another module, a
    call, a struct literal, or nothing. *)
Definition parse_qualified (name : bytes) (span : Span) : PM Expr :=
  _ ← advance;
  callee ← expect_ident;
  if decide (name ∈ enum_names names) then
    lp ← peek_is T_LParen;
    args ← (if lp : bool then
        _ ← advance;
        with_no_struct false (
          args ← parse_args (str "expected ',' between variant args");
          _ ← expect T_RParen (str "expected ')'");
          mret args)
      else mret []);
    close ← prev_end;
    mret (mkExpr (E_EnumCtor name callee args) (mkSpan (span_start span) close))
  else
    _ ← expect T_LParen (str "expected '(' after '::name'");
    with_no_struct false (
      args ← parse_args (str "expected ',' between args");
      close ← end_of;
      _ ← expect T_RParen (str "expected ')'");
      mret (mkExpr (E_Call (Some name) callee args) (mkSpan (span_start span) close))).
Definition parse_call (name : bytes) (span : Span) : PM Expr :=
  with_no_struct false (
    _ ← advance;
    args ← parse_args (str "expected ',' between args");
    close ← end_of;
    _ ← expect T_RParen (str "expected ')'");
    mret (mkExpr (E_Call None name args) (mkSpan (span_start span) close))).
Definition struct_field : PM (bytes * Expr) :=
  fname ← expect_ident;
  _ ← expect T_Colon (str "expected ':' in struct literal");
  fval ← rec_expr;
  mret (fname, fval).
Definition parse_struct_lit (name : bytes) (span : Span) : PM Expr :=
  with_no_struct false (
    _ ← advance;
    fields ← until T_RBrace (str "expected ',' between struct fields") struct_field;
    close ← end_of;
    _ ← expect T_RBrace (str "expected '}'");
    mret (mkExpr (E_StructLit name fields) (mkSpan (span_start span) close))).
Definition parse_name (name : bytes) (span : Span) : PM Expr :=
  _ ← advance;
  t ← peek_token;
  no_struct ← gets cu_no_struct;
  match t with
  | T_ColonColon => parse_qualified name span
  | T_LParen => parse_call name span
  | T_LBrace =>
      if negb no_struct && bool_decide (name ∈ struct_names names) then parse_struct_lit name span
      else mret (mkExpr (E_Ident name) span)
  | _ => mret (mkExpr (E_Ident name) span)
  end.

(** A group or a tuple. *)
Definition parse_paren (span : Span) : PM Expr :=
  _ ← advance;
  first ← rec_expr;
  comma ← peek_is T_Comma;
  if comma : bool then
    elems ← more T_RParen rec_expr;
    close ← end_of;
    _ ← expect T_RParen (str "expected ')' to close tuple");
    mret (mkExpr (E_TupleLit (first :: elems)) (mkSpan (span_start span) close))
  else
    _ ← expect T_RParen (str "expected ')'");
    mret first.

(** An array or a list comprehension. *)
Definition parse_bracket (span : Span) : PM Expr :=
  _ ← advance;
  empty ← peek_is T_RBracket;
  if empty : bool then
    close ← end_of; _ ← advance; mret (mkExpr (E_Array []) (mkSpan (span_start span) close))
  else
  first ← rec_expr;
  comp ← peek_is T_For;
  if comp : bool then
    clauses ← parse_comp_clauses;
    close ← end_of;
    _ ← expect T_RBracket (str "expected ']' to close list comprehension");
    mret (mkExpr (E_ListComp first clauses) (mkSpan (span_start span) close))
  else
    elems ← more T_RBracket rec_expr;
    close ← end_of;
    _ ← expect T_RBracket (str "expected ']'");
    mret (mkExpr (E_Array (first :: elems)) (mkSpan (span_start span) close)).

Definition parse_primary : PM Expr :=
  span ← cur_span;
  t ← peek_token;
  match t with
  | T_Int n => literal (E_Int n) span
  | T_UInt n => literal (E_UInt n) span
  | T_Float n => literal (E_Float n) span
  | T_I32 n => literal (E_I32 n) span
  | T_U32 n => literal (E_U32 n) span
  | T_U64 n => literal (E_U64 n) span
  | T_U128 n => literal (E_U128 n) span
  | T_DollarDollar => literal E_Prev span
  | T_Dollar => parse_dyn_call span
  | T_Backtick => parse_explicit span
  | T_Reserve => parse_reserve span
  | T_Arr => parse_arr span
  | T_Set => parse_set span
  | T_Dict => parse_dict span
  | T_Str s => literal (E_Str s) span
  | T_True => literal (E_Bool true) span
  | T_False => literal (E_Bool false) span
  | T_Match => parse_match_expr
  | T_LBrace => parse_brace
  | T_If => parse_if_expr
  | T_Ident name => parse_name name span
  | T_LParen => parse_paren span
  | T_LBracket => parse_bracket span
  | other => parse_err (str "unexpected token " ++ token_debug other) span
  end.

(** *** Postfix, prefix and binary operators *)
Definition json_get (name : string) (e key : Expr) (end_ : Z) : Expr :=
  mkExpr (E_Call None (str name) [e; key]) (mkSpan (span_start (ex_span e)) end_).

Definition parse_index (e : Expr) : PM Expr :=
  _ ← advance;
  key ← with_no_struct false rec_expr;
  close ← end_of;
  _ ← expect T_RBracket (str "expected ']'");
  mret (mkExpr (E_Index e key) (mkSpan (span_start (ex_span e)) close)).
(** [e -> key], a call of a json builtin. *)
Definition parse_arrow (e : Expr) : PM Expr :=
  _ ← advance;
  t ← peek_token;
  let start := span_start (ex_span e) in
  let field (s : bytes) : PM Expr :=
    close ← end_of; _ ← advance;
    mret (json_get "json_get_field" e (mkExpr (E_Str s) (mkSpan start close)) close) in
  match t with
  | T_LBracket =>
      _ ← advance;
      idx ← rec_expr;
      close ← end_of;
      _ ← expect T_RBracket (str "expected ']' after JSON array index");
      mret (json_get "json_get_index" e idx close)
  | T_Str s => field s
  | T_Ident s => field s
  | other =>
      sp ← cur_span;
      parse_err (str "expected ident, string literal, or '[' after '->', got " ++ token_debug other) sp
  end.
Definition parse_dot (e : Expr) : PM Expr :=
  _ ← advance;
  t ← peek_token;
  match t with
  | T_Int n =>
      if in_u 64 n then
        _ ← advance;
        close ← prev_end;
        mret (mkExpr (E_TupleIndex e n) (mkSpan (span_start (ex_span e)) close))
      else sp ← cur_span; parse_err (str "tuple index out of range or negative") sp
  | _ =>
      field ← expect_ident;
      close ← prev_end;
      mret (mkExpr (E_Field e field) (mkSpan (span_start (ex_span e)) close))
  end.
Fixpoint postfix_loop (fuel : nat) (e : Expr) : PM Expr :=
  match fuel with
  | O => lift OutOfFuel
  | S fuel' =>
      t ← peek_token;
      match t with
      | T_LBracket => e' ← parse_index e; postfix_loop fuel' e'
      | T_Arrow => e' ← parse_arrow e; postfix_loop fuel' e'
      | T_Dot => e' ← parse_dot e; postfix_loop fuel' e'
      | _ => mret e
      end
  end.
Definition parse_postfix : PM Expr :=
  e ← parse_primary; postfix_loop (loop_fuel tokens) e.

Definition parse_unary (op : UnOp) : PM Expr :=
  start ← start_of;
  _ ← advance;
  operand ← rec_prefix rec;
  mret (mkExpr (E_Unary op operand) (mkSpan start (span_end (ex_span operand)))).
Definition parse_prefix : PM Expr :=
  t ← peek_token;
  match t with
  | T_Minus => parse_unary Neg
  | T_Bang => parse_unary Not
  | _ => parse_postfix
  end.

(** The precedence ladder: the operator of a token and its binding powers. *)
Definition binop (t : Token) : option (BinOp * Z * Z) :=
  match t with
  | T_PipePipe => Some (Or, 1, 2)
  | T_AmpAmp => Some (And, 3, 4)
  | T_EqEq => Some (Eq, 5, 6)
  | T_BangEq => Some (NotEq, 5, 6)
  | T_Lt => Some (Lt, 7, 8)
  | T_Gt => Some (Gt, 7, 8)
  | T_LtEq => Some (LtEq, 7, 8)
  | T_GtEq => Some (GtEq, 7, 8)
  | T_PipeBar => Some (BitOr, 9, 10)
  | T_Caret => Some (BitXor, 11, 12)
  | T_Amp => Some (BitAnd, 13, 14)
  | T_Shl => Some (Shl, 15, 16)
  | T_Shr => Some (Shr, 15, 16)
  | T_Plus => Some (Add, 17, 18)
  | T_Minus => Some (Sub, 17, 18)
  | T_Star => Some (Mul, 19, 20)
  | T_Slash => Some (Div, 19, 20)
  | T_Percent => Some (Mod, 19, 20)
  | _ => None
  end%Z.
(** The node of an infix token, with its binding powers. *)
Definition infix (t : Token) : option ((Expr → Expr → ExprKind) * Z * Z) :=
  match t with
  | T_PipeArrow => Some (E_Pipe, 1, 2)%Z
  | _ => match binop t with Some (op, lbp, rbp) => Some (E_Binary op, lbp, rbp) | None => None end
  end.
Fixpoint bp_loop (fuel : nat) (min_bp : Z) (lhs : Expr) : PM Expr :=
  match fuel with
  | O => lift OutOfFuel
  | S fuel' =>
      t ← peek_token;
      match infix t with
      | None => mret lhs
      | Some (mk, lbp, rbp) =>
          if (lbp <? min_bp)%Z then mret lhs else
          _ ← advance;
          rhs ← rec_bp rec rbp;
          bp_loop fuel' min_bp
            (mkExpr (mk lhs rhs) (mkSpan (span_start (ex_span lhs)) (span_end (ex_span rhs))))
      end
  end.
Definition parse_expr_bp (min_bp : Z) : PM Expr :=
  lhs ← parse_prefix; bp_loop (loop_fuel tokens) min_bp lhs.
Definition parse_expr : PM Expr := parse_expr_bp 0.

Definition parse_json_value : PM Expr :=
  t ← peek_token;
  match t with
  | T_LBrace => s ← cur_span; parse_json_object s
  | T_LBracket => parse_json_array
  | _ =>
      if decide (t = T_Ident (str "null")) then
        span ← cur_span; _ ← advance; mret (mkExpr E_JsonNull span)
      else parse_expr
  end.

(** *** Statements *)
Definition semi_end (msg : bytes) : PM Z := semi ← end_of; _ ← expect T_Semi msg; mret semi.

Definition parse_delete : PM Stmt :=
  start ← start_of;
  _ ← expect T_Delete (str "expected 'delete'");
  target ← parse_expr;
  semi ← semi_end (str "expected ';' after delete statement");
  mret (S_Delete target (mkSpan start semi)).
Definition parse_emit : PM Stmt :=
  start ← start_of;
  _ ← expect T_Emit (str "expected 'emit'");
  value ← parse_expr;
  semi ← semi_end (str "expected ';' after emit statement");
  mret (S_Emit value (mkSpan start semi)).

(** [parallel for x in source to output { .. }]. *)
Definition parallel_pattern : PM (option bytes * bytes) :=
  lp ← peek_is T_LParen;
  if lp : bool then
    _ ← advance;
    first ← expect_ident;
    _ ← expect T_Comma (str "expected ',' in parallel-for pattern");
    second ← expect_ident;
    _ ← expect T_RParen (str "expected ')' to close parallel-for pattern");
    mret (Some first, second)
  else x ← expect_ident; mret (None, x).
Definition parse_parallel_for (start : Z) : PM Stmt :=
  _ ← advance;
  vars ← parallel_pattern;
  _ ← expect T_In (str "expected 'in' in parallel-for");
  ends ← with_no_struct true (
    source ← parse_expr;
    t ← peek_token;
    _ ← (if decide (t = T_Ident (str "to")) then advance
         else sp ← cur_span; parse_err (str "expected 'to' between parallel-for source and output") sp);
    output ← parse_expr;
    mret (source, output));
  body ← parse_block;
  mret (S_ParallelForTo vars.2 vars.1 ends.1 ends.2 body (mkSpan start (span_end (bl_span body)))).

Definition parallel_stmt : PM Stmt :=
  t ← peek_token;
  match t with
  | T_Parallel => sp ← cur_span; parse_err (str "nested `parallel` blocks are not supported") sp
  | T_If | T_While | T_For | T_Return | T_Break | T_Continue =>
      sp ← cur_span;
      parse_err (str "`parallel` body only allows `let`, `emit`, `delete`, assignments, and call/expression statements") sp
  | _ => rec_stmt rec
  end.
Definition parse_parallel : PM Stmt :=
  start ← start_of;
  _ ← expect T_Parallel (str "expected 'parallel'");
  is_for ← peek_is T_For;
  if is_for : bool then parse_parallel_for start else
  _ ← expect T_LBrace (str "expected '{' after 'parallel'");
  stmts ← plain_until T_RBrace parallel_stmt;
  close ← end_of;
  _ ← expect T_RBrace (str "expected '}' to close `parallel` block");
  mret (S_Parallel stmts (mkSpan start close)).

Definition parse_let : PM Stmt :=
  start ← start_of;
  _ ← expect T_Let (str "expected 'let'");
  tuple ← peek_is T_LParen;
  if tuple : bool then
    _ ← advance;
    names ← until T_RParen (str "expected ',' between destructure names") expect_ident;
    _ ← expect T_RParen (str "expected ')' to close destructure");
    _ ← expect T_Eq (str "expected '=' after destructure pattern");
    value ← parse_expr;
    semi ← semi_end (str "expected ';'");
    mret (S_LetTuple names value (mkSpan start semi))
  else
    name ← expect_ident;
    colon ← peek_is T_Colon;
    ty ← (if colon : bool then _ ← advance; ty ← parse_type; mret (Some ty) else mret None);
    _ ← expect T_Eq (str "expected '=' after 'let' name");
    value ← parse_expr;
    semi ← semi_end (str "expected ';'");
    mret (S_Let name ty value (mkSpan start semi)).

Definition parse_return : PM Stmt :=
  start ← start_of;
  _ ← expect T_Return (str "expected 'return'");
  unit ← peek_is T_Semi;
  value ← (if unit : bool then mret None else e ← parse_expr; mret (Some e));
  semi ← semi_end (str "expected ';' after return");
  mret (S_Return value (mkSpan start semi)).

Definition parse_while : PM Stmt :=
  start ← start_of;
  _ ← expect T_While (str "expected 'while'");
  cond ← with_no_struct true parse_expr;
  body ← parse_block;
  mret (S_While cond body (mkSpan start (span_end (bl_span body)))).

(** The head of a loop: a range, or an iterable with an optional limit. *)
Definition for_head (var : bytes) : PM (Block → Span → Stmt) :=
  first ← parse_expr;
  t ← peek_token;
  match t with
  | T_DotDot => _ ← advance; end_ ← parse_expr; mret (S_ForRange var first end_ false)
  | T_DotDotEq => _ ← advance; end_ ← parse_expr; mret (S_ForRange var first end_ true)
  | _ =>
      if decide (t = T_Ident (str "limit")) then
        _ ← advance;
        e ← with_no_struct true parse_expr;
        mret (S_For var first (Some e))
      else mret (S_For var first None)
  end.
Definition parse_for : PM Stmt :=
  start ← start_of;
  _ ← expect T_For (str "expected 'for'");
  var ← expect_ident;
  _ ← expect T_In (str "expected 'in' in for-in loop");
  mk ← with_no_struct true (for_head var);
  body ← parse_block;
  mret (mk body (mkSpan start (span_end (bl_span body)))).

(** An expression or an assignment, with its semicolon. *)
Definition expr_semi (e : Expr) : PM Stmt :=
  semi ← semi_end (str "expected ';' after expression");
  mret (S_Expr (mkExpr (ex_kind e) (mkSpan (span_start (ex_span e)) semi))).
Definition expr_stmt : PM Stmt :=
  e ← parse_expr;
  eq ← peek_is T_Eq;
  if eq : bool then
    _ ← advance;
    value ← parse_expr;
    semi ← semi_end (str "expected ';' after assignment");
    mret (S_Assign e value (mkSpan (span_start (ex_span e)) semi))
  else expr_semi e.
(** [_;], or an expression that starts with the name [_]. *)
Definition underscore_stmt : PM Stmt :=
  saved ← gets cu_pos;
  span ← cur_span;
  _ ← advance;
  semi ← peek_is T_Semi;
  if semi : bool then _ ← advance; mret (S_Placeholder span)
  else
    _ ← modify (λ s, mkCursor saved (cu_no_struct s));
    e ← parse_expr;
    expr_semi e.
Definition keyword_semi (mk : Span → Stmt) (msg : bytes) : PM Stmt :=
  span ← cur_span; _ ← advance; _ ← expect T_Semi msg; mret (mk span).

Definition parse_stmt : PM Stmt :=
  t ← peek_token;
  match t with
  | T_Let => parse_let
  | T_Return => parse_return
  | T_If => i ← parse_if_stmt; mret (S_If i)
  | T_While => parse_while
  | T_For => parse_for
  | T_Break => keyword_semi S_Break (str "expected ';' after 'break'")
  | T_Continue => keyword_semi S_Continue (str "expected ';' after 'continue'")
  | T_Emit => parse_emit
  | T_Delete => parse_delete
  | T_Parallel => parse_parallel
  | _ => if decide (t = T_Ident (str "_")) then underscore_stmt else expr_stmt
  end.
End step.

(** The parser with [fuel] nested calls. *)
Fixpoint parsers (fuel : nat) : Rec :=
  match fuel with
  | O => mkRec (λ _, lift OutOfFuel) (lift OutOfFuel) (lift OutOfFuel) (lift OutOfFuel) (lift OutOfFuel)
  | S fuel' =>
      let rec := parsers fuel' in
      mkRec (parse_expr_bp rec) (parse_prefix rec) (parse_json_value rec) (parse_stmt rec) (parse_if_stmt rec)
  end.

(** *** Declarations *)
Definition top : Rec := parsers (loop_fuel tokens).
#[local] Abbreviation top_expr := (rec_bp top 0%Z).
#[local] Abbreviation top_block := (parse_block top).

Definition parse_param (msg : bytes) : PM Param :=
  pstart ← start_of;
  pname ← expect_ident;
  _ ← expect T_Colon msg;
  pty ← parse_type;
  pend ← start_of;
  mret (mkParam pname pty (mkSpan pstart pend)).
Definition return_type : PM Ty :=
  arrow ← peek_is T_Arrow;
  if arrow : bool then _ ← advance; parse_type else mret TUnit.

Definition applied_modifier : PM (bytes * list Expr) :=
  mname ← expect_ident;
  lp ← peek_is T_LParen;
  margs ← (if lp : bool then
      _ ← advance;
      args ← until T_RParen (str "expected ',' between modifier args") top_expr;
      _ ← expect T_RParen (str "expected ')' to close modifier args");
      mret args
    else mret []);
  mret (mname, margs).

Definition parse_fn_with_modifiers (is_entry is_nore is_view is_pure : bool) : PM FnDef :=
  start ← start_of;
  _ ← expect T_Fn (str "expected 'fn'");
  name ← expect_ident;
  _ ← expect T_LParen (str "expected '(' after function name");
  params ← until T_RParen (str "expected ',' between parameters")
    (parse_param (str "expected ':' after parameter name"));
  _ ← expect T_RParen (str "expected ')'");
  lb ← peek_is T_LBracket;
  modifiers ← (if lb : bool then
      _ ← advance;
      mods ← until T_RBracket (str "expected ',' between modifiers") applied_modifier;
      _ ← expect T_RBracket (str "expected ']' to close modifier list");
      mret mods
    else mret []);
  ret ← return_type;
  body ← top_block;
  mret (mkFnDef name params ret body is_nore is_entry is_view is_pure modifiers
    (mkSpan start (span_end (bl_span body)))).
Definition parse_fn : PM FnDef := parse_fn_with_modifiers false false false false.

Definition parse_import : PM ImportDecl :=
  start ← start_of;
  _ ← expect T_Import (str "expected 'import'");
  name ← expect_ident;
  _ ← expect T_Colon (str "expected ':' after import name");
  _ ← expect T_Fn (str "expected 'fn' in import signature");
  _ ← expect T_LParen (str "expected '(' in import signature");
  params ← until T_RParen (str "expected ',' between import param types") parse_type;
  _ ← expect T_RParen (str "expected ')'");
  ret ← return_type;
  semi ← semi_end (str "expected ';' after import");
  mret (mkImportDecl name params ret (mkSpan start semi)).
Definition parse_state : PM StateDecl :=
  start ← start_of;
  _ ← expect T_State (str "expected 'state'");
  name ← expect_ident;
  _ ← expect T_Colon (str "expected ':' after state name");
  ty ← parse_type;
  semi ← semi_end (str "expected ';' after state declaration");
  mret (mkStateDecl name ty (mkSpan start semi)).
Definition parse_const_decl : PM ConstDecl :=
  start ← start_of;
  _ ← expect T_Const (str "expected 'const'");
  name ← expect_ident;
  _ ← expect T_Colon (str "expected ':' after const name");
  ty ← parse_type;
  _ ← expect T_Eq (str "expected '=' in const decl");
  value ← top_expr;
  semi ← semi_end (str "expected ';' after const decl");
  mret (mkConstDecl name ty value (mkSpan start semi)).

Definition parse_variant : PM EnumVariant :=
  vstart ← start_of;
  vname ← expect_ident;
  lp ← peek_is T_LParen;
  payload ← (if lp : bool then
      _ ← advance;
      tys ← until T_RParen (str "expected ',' between variant payload types") parse_type;
      _ ← expect T_RParen (str "expected ')'");
      mret tys
    else mret []);
  vend ← start_of;
  mret (mkEnumVariant vname payload (mkSpan vstart vend)).
Definition parse_enum_decl : PM EnumDecl :=
  start ← start_of;
  _ ← expect T_Enum (str "expected 'enum'");
  name ← expect_ident;
  _ ← expect T_LBrace (str "expected '{' after enum name");
  variants ← until T_RBrace (str "expected ',' between variants") parse_variant;
  close ← end_of;
  _ ← expect T_RBrace (str "expected '}'");
  mret (mkEnumDecl name variants (mkSpan start close)).
Definition parse_modifier_decl : PM ModifierDecl :=
  start ← start_of;
  _ ← expect T_Modifier (str "expected 'modifier'");
  name ← expect_ident;
  _ ← expect T_LParen (str "expected '(' after modifier name");
  params ← until T_RParen (str "expected ',' between modifier params")
    (parse_param (str "expected ':' after modifier param name"));
  _ ← expect T_RParen (str "expected ')'");
  body ← top_block;
  mret (mkModifierDecl name params body (mkSpan start (span_end (bl_span body)))).
Definition parse_handler_decl : PM HandlerDecl :=
  start ← start_of;
  _ ← expect T_On (str "expected 'on'");
  first ← expect_ident;
  q ← peek_is T_ColonColon;
  event ← (if q : bool then _ ← advance; ty ← expect_ident; mret (Some first, ty) else mret (None, first));
  fn_def ← parse_fn;
  mret (mkHandlerDecl event.1 event.2 fn_def (mkSpan start (span_end (fd_span fn_def)))).

(** The fields of a struct or a capability, alone or in groups. *)
Definition parse_field (group : option bytes) : PM StructField :=
  fstart ← start_of;
  fname ← expect_ident;
  _ ← expect T_Colon (str "expected ':' after field name");
  fty ← parse_type;
  fend ← start_of;
  mret (mkStructField fname fty group (mkSpan fstart fend)).
Definition parse_group : PM (list StructField) :=
  _ ← advance;
  gname ← expect_ident;
  _ ← expect T_LBrace (str "expected '{' after group name");
  fields ← until T_RBrace (str "expected ',' between group fields") (parse_field (Some gname));
  _ ← expect T_RBrace (str "expected '}' to close group");
  comma ← peek_is T_Comma;
  _ ← (if comma : bool then advance else mret tt);
  mret fields.
Definition fields_item (kind : bytes) : PM (list StructField) :=
  t ← peek_token;
  match t with
  | T_Group => parse_group
  | _ =>
      f ← parse_field None;
      last ← peek_is T_RBrace;
      _ ← (if last : bool then mret tt else expect T_Comma (str "expected ',' between " ++ kind ++ str " fields"));
      mret [f]
  end.
Definition parse_struct_body_fields (kind : bytes) : PM (list StructField) :=
  fs ← plain_until T_RBrace (fields_item kind); mret (concat fs).
Definition parse_struct_decl : PM StructDecl :=
  start ← start_of;
  is_pub ← peek_is T_Pub;
  _ ← (if is_pub : bool then advance else mret tt);
  _ ← expect T_Struct (str "expected 'struct'");
  name ← expect_ident;
  _ ← expect T_LBrace (str "expected '{' after struct name");
  fields ← parse_struct_body_fields (str "struct");
  close ← end_of;
  _ ← expect T_RBrace (str "expected '}'");
  mret (mkStructDecl name fields is_pub (mkSpan start close)).
Definition parse_cap_decl : PM CapDecl :=
  start ← start_of;
  _ ← expect T_Cap (str "expected 'cap'");
  name ← expect_ident;
  _ ← expect T_LBrace (str "expected '{' after cap name");
  fields ← parse_struct_body_fields (str "cap");
  close ← end_of;
  _ ← expect T_RBrace (str "expected '}'");
  mret (mkCapDecl name fields (mkSpan start close)).

(** The annotations before a method: [view], [pure], and [entry] without effect. *)
Fixpoint method_flags (fuel : nat) (is_view is_pure : bool) : PM (bool * bool) :=
  match fuel with
  | O => lift OutOfFuel
  | S fuel' =>
      t ← peek_token;
      match t with
      | T_View => _ ← advance; method_flags fuel' true is_pure
      | T_Pure => _ ← advance; method_flags fuel' is_view true
      | T_Entry => _ ← advance; method_flags fuel' is_view is_pure
      | _ => mret (is_view, is_pure)
      end
  end.
(** An interface keeps no spans of its methods in the model. *)
Definition parse_interface_method : PM InterfaceMethod :=
  flags ← method_flags (loop_fuel tokens) false false;
  if flags.1 && flags.2 then
    sp ← cur_span; parse_err (str "interface method cannot be both `view` and `pure`") sp
  else
  _ ← expect T_Fn (str "expected 'fn' in interface method");
  name ← expect_ident;
  _ ← expect T_LParen (str "expected '(' after method name");
  params ← until T_RParen (str "expected ',' between parameters")
    (parse_param (str "expected ':' after parameter name"));
  _ ← expect T_RParen (str "expected ')'");
  ret ← return_type;
  _ ← expect T_Semi (str "expected ';' after interface method signature");
  mret (mkMethod name ((λ p, (pm_name p, pm_ty p)) <$> params) ret flags.1 flags.2).
Definition parse_interface_decl : PM InterfaceDecl :=
  _ ← expect T_Interface (str "expected 'interface'");
  name ← expect_ident;
  _ ← expect T_LBrace (str "expected '{' after interface name");
  methods ← plain_until T_RBrace parse_interface_method;
  _ ← expect T_RBrace (str "expected '}' to close interface");
  mret (mkInterface name methods).

Definition parse_index_path : PM (list bytes) :=
  first ← expect_ident;
  rest ← (fix dots (fuel : nat) : PM (list bytes) :=
    match fuel with
    | O => lift OutOfFuel
    | S fuel' =>
        dot ← peek_is T_Dot;
        if dot : bool then _ ← advance; x ← expect_ident; xs ← dots fuel'; mret (x :: xs) else mret []
    end) (loop_fuel tokens);
  mret (first :: rest).
Definition index_field : PM IndexField :=
  path ← parse_index_path;
  t ← peek_token;
  match t with
  | T_Asc => _ ← advance; mret (mkIndexField path Dir_Asc)
  | T_Desc => _ ← advance; mret (mkIndexField path Dir_Desc)
  | _ => mret (mkIndexField path Dir_Asc)
  end.
Definition parse_index_decl (kind : IndexKind) : PM IndexDecl :=
  start ← start_of;
  t ← peek_token;
  _ ← (match t with
       | T_Index | T_UniqueIndex => advance
       | other => sp ← cur_span; parse_err (str "expected 'index' or 'unique_index', got " ++ token_debug other) sp
       end);
  name ← expect_ident;
  _ ← expect T_On (str "expected 'on' after index name");
  on_state ← expect_ident;
  _ ← expect T_Dot (str "expected '.' before projected field");
  lp ← peek_is T_LParen;
  fields ← (if lp : bool then
      _ ← advance;
      fs ← until T_RParen (str "expected ',' between composite index fields") index_field;
      _ ← expect T_RParen (str "expected ')' to close composite index field list");
      if decide (length fs = 0) then
        sp ← cur_span; parse_err (str "composite index field list cannot be empty") sp
      else mret fs
    else path ← parse_index_path; mret [mkIndexField path Dir_Asc]);
  semi ← semi_end (str "expected ';' after index decl");
  mret (mkIndexDecl name on_state fields kind (mkSpan start semi)).

(** *** Modules *)
Inductive Item :=
  | I_Import (d : ImportDecl) | I_State (d : StateDecl) | I_Struct (d : StructDecl)
  | I_Modifier (d : ModifierDecl) | I_Enum (d : EnumDecl) | I_Const (d : ConstDecl)
  | I_Cap (d : CapDecl) | I_Interface (d : InterfaceDecl) | I_Index (d : IndexDecl)
  | I_Handler (d : HandlerDecl) | I_Fn (d : FnDef).

Record FnFlags := mkFlags { fl_entry : bool; fl_nore : bool; fl_view : bool; fl_pure : bool }.
Fixpoint fn_flags (fuel : nat) (f : FnFlags) : PM FnFlags :=
  match fuel with
  | O => lift OutOfFuel
  | S fuel' =>
      t ← peek_token;
      match t with
      | T_Entry => _ ← advance; fn_flags fuel' (mkFlags true (fl_nore f) (fl_view f) (fl_pure f))
      | T_Nore => _ ← advance; fn_flags fuel' (mkFlags (fl_entry f) true (fl_view f) (fl_pure f))
      | T_View => _ ← advance; fn_flags fuel' (mkFlags (fl_entry f) (fl_nore f) true (fl_pure f))
      | T_Pure => _ ← advance; fn_flags fuel' (mkFlags (fl_entry f) (fl_nore f) (fl_view f) true)
      | _ => mret f
      end
  end.
Definition parse_flagged_fn : PM FnDef :=
  f ← fn_flags (loop_fuel tokens) (mkFlags false false false false);
  if fl_view f && fl_pure f then
    sp ← cur_span;
    parse_err (str "function cannot be both `view` and `pure`; pure already implies view") sp
  else parse_fn_with_modifiers (fl_entry f) (fl_nore f) (fl_view f) (fl_pure f).

Definition as_item {A} (mk : A → Item) (m : PM A) : PM Item := d ← m; mret (mk d).
Definition parse_item : PM Item :=
  t ← peek_token;
  match t with
  | T_Import => as_item I_Import parse_import
  | T_State => as_item I_State parse_state
  | T_Struct | T_Pub => as_item I_Struct parse_struct_decl
  | T_Modifier => as_item I_Modifier parse_modifier_decl
  | T_Enum => as_item I_Enum parse_enum_decl
  | T_Const => as_item I_Const parse_const_decl
  | T_Cap => as_item I_Cap parse_cap_decl
  | T_Interface => as_item I_Interface parse_interface_decl
  | T_Index => as_item I_Index (parse_index_decl Index_Multi)
  | T_UniqueIndex => as_item I_Index (parse_index_decl Index_Unique)
  | T_On => as_item I_Handler parse_handler_decl
  | T_Entry | T_Nore | T_View | T_Pure => as_item I_Fn parse_flagged_fn
  | T_Fn => as_item I_Fn parse_fn
  | T_Module =>
      sp ← cur_span; parse_err (str "`module <name>;` must be the first item in the file") sp
  | other =>
      sp ← cur_span;
      parse_err (str "expected 'fn', 'entry fn', 'struct', 'cap', 'event', 'import', 'state', or 'module' at top level, got " ++ token_debug other) sp
  end.
Fixpoint parse_items (fuel : nat) : PM (list Item) :=
  match fuel with
  | O => lift OutOfFuel
  | S fuel' =>
      eof ← is_eof tokens;
      if eof : bool then mret [] else
      i ← parse_item; items ← parse_items fuel'; mret (i :: items)
  end.

(** The items by their kind, in order; the functions of handlers come last. *)
Definition module_of_items (name : option bytes) (items : list Item) : SrcModule :=
  let handlers := omap (λ i, match i with I_Handler d => Some d | _ => None end) items in
  mkSrcModule name
    (omap (λ i, match i with I_Import d => Some d | _ => None end) items)
    (omap (λ i, match i with I_State d => Some d | _ => None end) items)
    (omap (λ i, match i with I_Fn d => Some d | _ => None end) items ++ (hd_fn_def <$> handlers))
    (omap (λ i, match i with I_Struct d => Some d | _ => None end) items)
    handlers
    (omap (λ i, match i with I_Modifier d => Some d | _ => None end) items)
    (omap (λ i, match i with I_Enum d => Some d | _ => None end) items)
    (omap (λ i, match i with I_Const d => Some d | _ => None end) items)
    (omap (λ i, match i with I_Cap d => Some d | _ => None end) items)
    (omap (λ i, match i with I_Interface d => Some d | _ => None end) items)
    (omap (λ i, match i with I_Index d => Some d | _ => None end) items).
End grammar.

(** [module name;], if it comes first. *)
Definition module_name (token_debug : Token → bytes) (tokens : list Spanned) : PM (option bytes) :=
  t ← peek_token tokens;
  match t with
  | T_Module =>
      _ ← advance tokens;
      n ← expect_ident token_debug tokens;
      _ ← expect token_debug tokens T_Semi (str "expected ';' after module name");
      mret (Some n)
  | _ => mret None
  end.

(** [Parser::parse_module]: the names first, then the items from the same place. *)
Definition parse_module (token_debug : Token → bytes) (extra_iface_names : gset bytes)
    (tokens : list Spanned) : PM SrcModule :=
  name ← module_name token_debug tokens;
  saved_pos ← gets cu_pos;
  names ← collect_names tokens (loop_fuel tokens) (mkNames ∅ ∅ extra_iface_names);
  _ ← modify (λ s, mkCursor saved_pos (cu_no_struct s));
  items ← parse_items token_debug tokens names (loop_fuel tokens);
  mret (module_of_items name items).

Definition parser_new : Cursor := mkCursor 0 false.
Definition parse_with_extra_iface_names (token_debug : Token → bytes) (extra_iface_names : gset bytes)
    (tokens : list Spanned) : outcome SrcModule :=
  (parse_module token_debug extra_iface_names tokens parser_new).1.
Definition parse (token_debug : Token → bytes) (tokens : list Spanned) : outcome SrcModule :=
  parse_with_extra_iface_names token_debug ∅ tokens.
