(* ===== verification/ParserFacts.v ===== *)
(** The parser ends on every token list that ends in [Eof]: with a module, or with
    an error of the parser; no index is out of range and no fuel runs out. *)
From S2P Require Import Prelude Bytes Values JsonText Display Ops Bytecode Ast Lexer LexerFacts Effects Parser.
#[local] Open Scope nat_scope.

(** ** A logic of parsers that advance *)
Section runs.
Context (dbg : Token → bytes) (tokens : list Spanned).

Definition at_token (t : Token) (s : Cursor) : Prop := sp_token <$> tokens !! cu_pos s = Some t.
Definition inside (s : Cursor) : Prop := cu_pos s < length tokens.
Definition remaining (s : Cursor) : nat := length tokens - cu_pos s.

(** Where at most [n] tokens remain, [m] answers and takes at least [k] of them, or
    fails with an error of the parser. *)
Definition ends {A} (k : nat) (s : Cursor) (r : outcome A * Cursor) : Prop :=
  match r with
  | (Ok _, s') => inside s' ∧ cu_pos s + k ≤ cu_pos s'
  | (Err e, _) => err_kind e = Parse
  | _ => False
  end.
Definition runs {A} (n k : nat) (m : PM A) : Prop := ∀ s, inside s → remaining s ≤ n → ends k s (m s).
(** The same from a given token. *)
Definition runs_at {A} (t : Token) (n k : nat) (m : PM A) : Prop :=
  ∀ s, inside s → remaining s ≤ n → at_token t s → ends k s (m s).
(** A step that answers and stays where it is. *)
Definition stays {A} (m : PM A) : Prop := ∀ s, inside s →
  match m s with (Ok _, s') => cu_pos s' = cu_pos s | (Err e, _) => err_kind e = Parse | _ => False end.

Lemma runs_ret {A} n (a : A) : runs n 0 (mret a).
Proof. intros s Hs _. split; [done|lia]. Qed.
Lemma runs_err {A} n k msg sp : runs (A := A) n k (parse_err msg sp).
Proof. done. Qed.
Lemma runs_any {A} t n k (m : PM A) : runs n k m → runs_at t n k m.
Proof. intros H s ???. by apply H. Qed.
Lemma runs_le {A} n n' k k' (m : PM A) : runs n k m → n' ≤ n → k' ≤ k → runs n' k' m.
Proof.
  intros H Hn Hk s Hs Hr. specialize (H s Hs ltac:(lia)). destruct (m s) as [[] s']; cbn in *; [|done..].
  destruct H. split; [done|lia].
Qed.

Lemma ends_bind {A B : Type} k1 k s (r : outcome A * Cursor) (f : A → PM B) : ends k1 s r →
  (∀ a s', inside s' → cu_pos s + k1 ≤ cu_pos s' → ends (k - k1) s' (f a s')) →
  ends k s (match r with (Ok a, s') => f a s' | (Err e, s') => (Err e, s')
                       | (Panic, s') => (Panic, s') | (OutOfFuel, s') => (OutOfFuel, s') end).
Proof.
  destruct r as [[a|e| |] s']; [|done..]. intros [Hs Hp] Hf. specialize (Hf a s' Hs Hp).
  destruct (f a s') as [[] s2]; cbn in *; [|done..]. destruct Hf. split; [done|lia].
Qed.
Lemma runs_bind {A B : Type} n k1 k (m : PM A) (f : A → PM B) :
  runs n k1 m → (∀ a, runs (n - k1) (k - k1) (f a)) → runs n k (m ≫= f).
Proof.
  intros Hm Hf s Hs Hr. unfold mbind, SM_bind. apply (ends_bind k1); [by apply Hm|].
  intros a s' Hs' Hp. apply Hf; [done|]. unfold remaining in *. lia.
Qed.
Lemma runs_at_bind {A B : Type} t n k1 k (m : PM A) (f : A → PM B) :
  runs_at t n k1 m → (∀ a, runs (n - k1) (k - k1) (f a)) → runs_at t n k (m ≫= f).
Proof.
  intros Hm Hf s Hs Hr Ht. unfold mbind, SM_bind. apply (ends_bind k1); [by apply Hm|].
  intros a s' Hs' Hp. apply Hf; [done|]. unfold remaining in *. lia.
Qed.
Lemma runs_at_stay {A B : Type} t n k (m : PM A) (f : A → PM B) :
  stays m → (∀ a, runs_at t n k (f a)) → runs_at t n k (m ≫= f).
Proof.
  intros Hm Hf s Hs Hr Ht. unfold mbind, SM_bind. specialize (Hm s Hs).
  destruct (m s) as [[a|e| |] s'] eqn:E; [|done..].
  assert (Hin : inside s') by (unfold inside in *; lia).
  assert (Hend : ends k s' (f a s')).
  { apply Hf; [done|unfold remaining in *; lia|]. unfold at_token in *. by rewrite Hm. }
  destruct (f a s') as [[] s2]; cbn in *; [|done..]. destruct Hend. split; [done|lia].
Qed.
Lemma stays_runs {A} n (m : PM A) : stays m → runs n 0 m.
Proof.
  intros Hm s Hs _. specialize (Hm s Hs). destruct (m s) as [[] s']; cbn in *; [|done..].
  split; [unfold inside in *; lia|lia].
Qed.

Lemma inside_lookup s : inside s → ∃ x, tokens !! cu_pos s = Some x.
Proof. intros Hs. by apply lookup_lt_is_Some_2. Qed.

Lemma stays_cur : stays (cur tokens).
Proof. intros s Hs. unfold cur. by destruct (inside_lookup s Hs) as [x ->]. Qed.
Lemma stays_cur_span : stays (cur_span tokens).
Proof. intros s Hs. cbv [cur_span mbind SM_bind cur]. by destruct (inside_lookup s Hs) as [x ->]. Qed.
Lemma stays_peek : stays (peek_token tokens).
Proof. intros s Hs. cbv [peek_token mbind SM_bind cur]. by destruct (inside_lookup s Hs) as [x ->]. Qed.
Lemma stays_peek_at i : stays (peek_token_at tokens i).
Proof. done. Qed.
Lemma stays_peek_is t : stays (peek_is tokens t).
Proof. intros s Hs. cbv [peek_is peek_token mbind SM_bind cur]. by destruct (inside_lookup s Hs) as [x ->]. Qed.
Lemma stays_start_of : stays (start_of tokens).
Proof. intros s Hs. cbv [start_of cur_span mbind SM_bind cur]. by destruct (inside_lookup s Hs) as [x ->]. Qed.
Lemma stays_end_of : stays (end_of tokens).
Proof. intros s Hs. cbv [end_of cur_span mbind SM_bind cur]. by destruct (inside_lookup s Hs) as [x ->]. Qed.
Lemma stays_prev_end : stays (prev_end tokens).
Proof.
  intros s Hs. unfold prev_end. assert (Hp : cu_pos s - 1 < length tokens) by (unfold inside in Hs; lia).
  by destruct (lookup_lt_is_Some_2 _ _ Hp) as [x ->].
Qed.
Lemma stays_gets {A} (f : Cursor → A) : stays (gets f).
Proof. done. Qed.
Lemma stays_set_no_struct b : stays (set_no_struct b).
Proof. done. Qed.
Lemma stays_ret {A} (a : A) : stays (mret a).
Proof. done. Qed.
Lemma stays_is_eof : stays (is_eof tokens).
Proof. exact (stays_peek_is T_Eof). Qed.
Hint Resolve stays_is_eof stays_cur stays_cur_span stays_peek stays_peek_at stays_peek_is stays_start_of stays_end_of
  stays_prev_end @stays_gets stays_set_no_struct @stays_ret : core.

(** The token under the cursor decides. *)
Lemma runs_peek {B : Type} n k (f : Token → PM B) : (∀ t, runs_at t n k (f t)) → runs n k (peek_token tokens ≫= f).
Proof.
  intros Hf s Hs Hr. cbv [peek_token mbind SM_bind cur]. destruct (inside_lookup s Hs) as [x Hx].
  rewrite Hx. apply Hf; [done..|]. unfold at_token. by rewrite Hx.
Qed.
Lemma runs_at_peek {B : Type} t n k (f : Token → PM B) : runs_at t n k (f t) → runs_at t n k (peek_token tokens ≫= f).
Proof.
  intros Hf s Hs Hr Ht. cbv [peek_token mbind SM_bind cur]. destruct (inside_lookup s Hs) as [x Hx].
  rewrite Hx. unfold at_token in Ht. rewrite Hx in Ht. injection Ht as <-. apply Hf; [done..|].
  unfold at_token. by rewrite Hx.
Qed.
Lemma runs_peek_is {B : Type} n k t (f : bool → PM B) :
  runs_at t n k (f true) → runs n k (f false) → runs n k (peek_is tokens t ≫= f).
Proof.
  intros Ht Hf s Hs Hr. cbv [peek_is peek_token mbind SM_bind cur]. destruct (inside_lookup s Hs) as [x Hx].
  rewrite Hx. cbn. case_bool_decide; [|by apply Hf]. apply Ht; [done..|]. unfold at_token. rewrite Hx. by subst.
Qed.

(** ** Tokens taken *)
Context (eof_span : Span) (Hlast : last tokens = Some (mkSpanned T_Eof eof_span)).

Lemma not_last t s : at_token t s → t ≠ T_Eof → cu_pos s + 1 < length tokens.
Proof.
  intros Ht Hne. unfold at_token in Ht. destruct (tokens !! cu_pos s) as [x|] eqn:Hx; [|done].
  pose proof (lookup_lt_Some _ _ _ Hx) as Hlt. destruct (decide (cu_pos s + 1 = length tokens)) as [E|]; [|lia].
  rewrite last_lookup in Hlast. replace (pred (length tokens)) with (cu_pos s) in Hlast by lia.
  rewrite Hx in Hlast. injection Hlast as ->. cbn in Ht. congruence.
Qed.
Lemma runs_at_advance t n : t ≠ T_Eof → runs_at t n 1 (advance tokens).
Proof.
  intros Hne s Hs Hr Ht. pose proof (not_last t s Ht Hne). unfold advance, modify. cbn.
  case_decide; [|lia]. cbn. split; [unfold inside; cbn; lia|done].
Qed.
Lemma runs_advance n : runs n 0 (advance tokens).
Proof.
  intros s Hs Hr. unfold advance, modify. cbn. case_decide; (split; [|cbn; lia]); unfold inside in *; cbn; lia.
Qed.
Lemma runs_expect n t msg : t ≠ T_Eof → runs n 1 (expect dbg tokens t msg).
Proof.
  intros Hne. apply runs_peek_is; [by apply runs_at_advance|].
  apply runs_bind with 0; [by apply stays_runs|]. intros t'.
  apply runs_bind with 0; [by apply stays_runs|]. intros sp. apply runs_err.
Qed.
Lemma runs_expect_ident n : runs n 1 (expect_ident dbg tokens).
Proof.
  apply runs_peek. intros t. destruct t; try (apply runs_any, runs_bind with 0; [by apply stays_runs|]; intros; apply runs_err).
  apply runs_at_bind with 1; [by apply runs_at_advance|]. intros _. apply runs_ret.
Qed.
Lemma runs_with_no_struct {A} n k b (m : PM A) : runs n k m → runs n k (with_no_struct b m).
Proof.
  intros Hm. apply runs_bind with 0; [by apply stays_runs|]. intros saved.
  apply runs_bind with 0; [by apply stays_runs|]. intros _. rewrite !Nat.sub_0_r.
  apply runs_bind with k; [done|]. intros r. rewrite Nat.sub_diag.
  apply runs_bind with 0; [by apply stays_runs|]. intros _. apply runs_ret.
Qed.
Lemma runs_at_with_no_struct {A} t n k b (m : PM A) : runs_at t n k m → runs_at t n k (with_no_struct b m).
Proof.
  intros Hm. apply runs_at_stay; [done|]. intros saved. apply runs_at_stay; [done|]. intros _.
  apply runs_at_bind with k; [done|]. intros r. rewrite Nat.sub_diag.
  apply runs_bind with 0; [by apply stays_runs|]. intros _. apply runs_ret.
Qed.

(** ** Loops *)
Lemma runs_cap {A} n k (m : PM A) : runs (min n (length tokens)) k m → runs n k m.
Proof. intros H s Hs Hr. apply H; [done|]. unfold remaining in *. lia. Qed.
Lemma runs_none {A} k (m : PM A) : runs 0 k m.
Proof. intros s Hs Hr. unfold inside, remaining in *. lia. Qed.

(** A bind whose parts are known; [lia] closes the bounds. *)
Ltac by_le H := eapply runs_le; [apply H|lia|lia].

Lemma runs_loop_all {A B : Type} (loop : nat → A → PM B) (n : nat) :
  (∀ fuel n', n' ≤ n → (∀ n'' a, n'' < n' → runs n'' 0 (loop fuel a)) → ∀ a, runs n' 0 (loop (S fuel) a)) →
  ∀ fuel, length tokens ≤ fuel → ∀ a, runs n 0 (loop fuel a).
Proof.
  intros Hstep fuel Hf a. apply runs_cap.
  assert (Hn : min n (length tokens) ≤ fuel) by lia. assert (Hn' : min n (length tokens) ≤ n) by lia.
  revert Hn Hn' a. generalize (min n (length tokens)) as i. clear Hf. induction fuel as [|fuel IH]; intros i Hi Hn a.
  - replace i with 0 by lia. apply runs_none.
  - apply Hstep; [done|]. intros j b Hj. apply IH; lia.
Qed.

Lemma runs_loop {A : Type} (loop : nat → PM A) (n : nat) :
  (∀ fuel n', n' ≤ n → (∀ n'', n'' < n' → runs n'' 0 (loop fuel)) → runs n' 0 (loop (S fuel))) →
  ∀ fuel, length tokens ≤ fuel → runs n 0 (loop fuel).
Proof.
  intros Hstep fuel Hf. apply (runs_loop_all (λ fuel (_ : unit), loop fuel)); [|done|exact tt].
  intros fuel' i Hi IH _. apply Hstep; [done|]. intros j Hj. by apply (IH j tt).
Qed.

Lemma runs_until {A : Type} n close msg (item : PM A) : runs n 1 item → runs n 0 (until dbg tokens close msg item).
Proof.
  intros Hitem. unfold until. apply (runs_loop (λ fuel, until_loop dbg tokens fuel close msg item)); [|unfold loop_fuel; lia].
  intros fuel i Hi IH. destruct i as [|i]; [apply runs_none|]. apply runs_peek_is; [apply runs_any, runs_ret|].
  apply runs_bind with 1; [by_le Hitem|]. intros x. apply runs_bind with 0; [by apply stays_runs|]. intros stop.
  apply runs_bind with 0.
  - destruct stop; [apply runs_ret|]. eapply runs_le; [by apply runs_expect|done|lia].
  - intros _. apply runs_bind with 0; [|intros; apply runs_ret]. rewrite !Nat.sub_0_r. apply IH. lia.
Qed.
Lemma runs_more {A : Type} n close (item : PM A) : runs n 1 item → runs n 0 (more tokens close item).
Proof.
  intros Hitem. unfold more. apply (runs_loop (λ fuel, more_loop tokens fuel close item)); [|unfold loop_fuel; lia].
  intros fuel i Hi IH. destruct i as [|i]; [apply runs_none|]. apply runs_peek_is; [|apply runs_ret].
  apply runs_at_bind with 1; [by apply runs_at_advance|]. intros _. apply runs_bind with 0; [by apply stays_runs|].
  intros [|]; [apply runs_ret|]. apply runs_bind with 0; [by_le Hitem|]. intros x.
  apply runs_bind with 0; [|intros; apply runs_ret]. rewrite !Nat.sub_0_r. apply IH. lia.
Qed.
Lemma runs_plain {A : Type} n close (item : PM A) :
  runs n 1 item → runs n 0 (plain_loop tokens (loop_fuel tokens) close item).
Proof.
  intros Hitem. apply (runs_loop (λ fuel, plain_loop tokens fuel close item)); [|unfold loop_fuel; lia].
  intros fuel i Hi IH. destruct i as [|i]; [apply runs_none|]. apply runs_peek_is; [apply runs_any, runs_ret|].
  apply runs_bind with 1; [by_le Hitem|]. intros x. apply runs_bind with 0; [|intros; apply runs_ret]. apply IH. lia.
Qed.
Lemma runs_json_loop {A : Type} n close msg (item : PM A) : runs n 1 item →
  runs n 0 (json_loop dbg tokens (loop_fuel tokens) close msg item).
Proof.
  intros Hitem. apply (runs_loop (λ fuel, json_loop dbg tokens fuel close msg item)); [|unfold loop_fuel; lia].
  intros fuel i Hi IH. destruct i as [|i]; [apply runs_none|]. apply runs_bind with 1; [by_le Hitem|].
  intros x. apply runs_peek. intros t. case_decide; [|case_decide]; apply runs_any.
  - apply runs_bind with 0; [apply runs_advance|]. intros _. apply runs_bind with 0; [|intros; apply runs_ret].
    apply IH. lia.
  - apply runs_bind with 0; [apply runs_advance|]. intros; apply runs_ret.
  - apply runs_bind with 0; [by apply stays_runs|intros; apply runs_err].
Qed.

(** ** Automation: the steps of a parser in turn *)
Lemma runs_at_le {A} t n n' k k' (m : PM A) : runs_at t n k m → n' ≤ n → k' ≤ k → runs_at t n' k' m.
Proof.
  intros H Hn Hk s Hs Hr Ht. specialize (H s Hs ltac:(lia) Ht). destruct (m s) as [[] s']; cbn in *; [|done..].
  destruct H. split; [done|lia].
Qed.
Lemma runs_at_err {A} t n k msg sp : runs_at (A := A) t n k (parse_err msg sp).
Proof. done. Qed.

Create HintDb runs discriminated.
Hint Constants Opaque : runs.
Hint Resolve runs_expect runs_expect_ident runs_until runs_more runs_plain runs_json_loop runs_advance : runs.
Hint Extern 1 (_ ≠ T_Eof) => congruence : runs.
Hint Extern 1 (_ ≤ _) => lia : runs.
Hint Extern 1 (_ < _) => lia : runs.
Hint Extern 2 (runs _ _ _) => apply stays_runs; solve [auto 2] : runs.

Ltac run_leaf :=
  lazymatch goal with
  | |- runs ?n _ _ => eapply (runs_le n n); [solve [eauto 3 with runs]|done|lia]
  | |- runs_at _ ?n _ _ =>
      first [ eapply (runs_at_le _ n n); [solve [eauto 3 with runs]|done|lia]
            | apply runs_any; eapply (runs_le n n); [solve [eauto 3 with runs]|done|lia] ]
  end.
Ltac run_step :=
  cbv beta iota;
  lazymatch goal with
  | |- runs _ _ (mret _) => apply runs_ret
  | |- runs _ _ (parse_err _ _) => apply runs_err
  | |- runs_at _ _ _ (parse_err _ _) => apply runs_at_err
  | |- runs_at _ _ _ (mret _) => apply runs_any, runs_ret
  | |- runs _ _ (with_no_struct _ _) => apply runs_with_no_struct
  | |- runs_at _ _ _ (with_no_struct _ _) => apply runs_at_with_no_struct
  | |- runs _ _ (peek_token tokens ≫= _) => apply runs_peek; intros ?t
  | |- runs_at _ _ _ (peek_token tokens ≫= _) => apply runs_at_peek
  | |- runs _ _ (peek_is tokens _ ≫= _) => apply runs_peek_is
  | |- runs_at _ _ _ (advance tokens ≫= _) =>
      eapply runs_at_bind; [apply runs_at_advance; congruence|intros _]
  | |- runs_at _ _ _ (advance tokens) => first [apply runs_at_advance; congruence | apply runs_any, runs_advance]
  | |- runs_at _ _ _ (match ?x with _ => _ end) => destruct x
  | |- runs _ _ (match ?x with _ => _ end) => destruct x
  | |- runs_at _ _ _ (?m ≫= _) =>
      first [ apply runs_at_stay; [solve [auto 2]|intros ?]
            | eapply runs_at_bind; [solve [eauto 3 with runs]|intros ?]
            | eapply runs_at_bind; [apply runs_any; solve [eauto 3 with runs]|intros ?]
            | apply (runs_at_bind _ _ 0); [|intros ?] ]
  | |- runs _ _ (?m ≫= _) =>
      first [ eapply runs_bind; [solve [eauto 3 with runs]|intros ?]
            | apply (runs_bind _ 0); [|intros ?] ]
  | |- _ => run_leaf
  end.
Ltac run := repeat run_step.

(** ** Types *)
Context (names : Names).

Section types.
Context (n : nat) (rec : PM Ty) (Hrec : ∀ m, m ≤ n → runs m 1 rec).
Hint Resolve Hrec : runs.
Lemma runs_one_type_arg m name mk : m ≤ n → runs m 1 (one_type_arg dbg tokens rec name mk).
Proof. intros Hm. unfold one_type_arg. run. Qed.
Lemma runs_two_type_args m name mk : m ≤ n → runs m 1 (two_type_args dbg tokens rec name mk).
Proof. intros Hm. unfold two_type_args. run. Qed.
Hint Resolve runs_one_type_arg runs_two_type_args : runs.
Lemma runs_named_type m s sp : m ≤ n → runs m 0 (named_type dbg tokens names rec s sp).
Proof. intros Hm. unfold named_type. run. Qed.
Hint Resolve runs_named_type : runs.
Lemma runs_type_step : runs (S n) 1 (type_step dbg tokens names rec).
Proof. unfold type_step. run. Qed.
End types.

Lemma runs_parse_type n : runs n 1 (parse_type dbg tokens names).
Proof.
  apply runs_cap. unfold parse_type.
  assert (Hn : min n (length tokens) ≤ loop_fuel tokens) by (unfold loop_fuel; lia).
  revert Hn. generalize (loop_fuel tokens) as fuel. generalize (min n (length tokens)) as i. clear n.
  intros i fuel. revert i. induction fuel as [|fuel IH]; intros n Hn; [destruct n; [apply runs_none|lia]|].
  destruct n as [|n]; [apply runs_none|]. apply runs_type_step. intros m Hm. apply IH. lia.
Qed.
Hint Resolve runs_parse_type : runs.

(** ** Expressions and statements *)
Section step.
Context (n : nat) (rec : Rec).
Context (Hbp : ∀ m b, m ≤ n → runs m 1 (rec_bp rec b)) (Hprefix : ∀ m, m ≤ n → runs m 1 (rec_prefix rec)).
Context (Hjson : ∀ m, m ≤ n → runs m 1 (rec_json rec)) (Hstmt : ∀ m, m ≤ n → runs m 1 (rec_stmt rec)).
Context (Hif : ∀ m, m ≤ n → runs m 1 (rec_if rec)).
Hint Resolve Hbp Hprefix Hjson Hstmt Hif : runs.
Abbreviation T f := (f dbg tokens rec).

Lemma runs_parse_args m msg : m ≤ n → runs m 0 (T parse_args msg).
Proof. intros Hm. unfold parse_args. run. Qed.
Hint Resolve runs_parse_args : runs.
Lemma runs_parse_clause t m b : t ≠ T_Eof → m ≤ S n → runs_at t m 1 (T parse_clause b).
Proof. intros Ht Hm. unfold parse_clause. run. Qed.
Hint Resolve runs_parse_clause : runs.
Lemma runs_clauses m : m ≤ S n → runs m 0 (T parse_comp_clauses).
Proof.
  intros Hm. apply (runs_loop (λ fuel, clauses_loop dbg tokens rec fuel)); [|unfold loop_fuel; lia].
  intros fuel i Hi IH. destruct i as [|i]; [apply runs_none|]. cbn [clauses_loop].
  cbv beta in IH.
  apply runs_peek. intros t. destruct t; run.
Qed.
Hint Resolve runs_clauses : runs.
Lemma runs_match_pattern m : runs m 1 (parse_match_pattern dbg tokens).
Proof. unfold parse_match_pattern. run. Qed.
Hint Resolve runs_match_pattern : runs.
Lemma runs_parse_arm m : m ≤ S n → runs m 1 (T parse_arm).
Proof. intros Hm. unfold parse_arm. run. Qed.
Hint Resolve runs_parse_arm : runs.
Lemma runs_match_expr m : m ≤ S n → runs m 1 (T parse_match_expr).
Proof. intros Hm. unfold parse_match_expr. run. Qed.
Hint Resolve runs_match_expr : runs.

(** *** Blocks *)
Lemma runs_block_item m : m ≤ n → runs m 1 (T block_item).
Proof. intros Hm. unfold block_item. run. Qed.
Hint Resolve runs_block_item : runs.
Lemma runs_block_loop m : m ≤ n → runs m 0 (T block_loop (loop_fuel tokens)).
Proof.
  intros Hm. apply (runs_loop (λ fuel, block_loop dbg tokens rec fuel)); [|unfold loop_fuel; lia].
  intros fuel i Hi IH. destruct i as [|i]; [apply runs_none|]. cbn [block_loop].
  cbv beta in IH. run.
Qed.
Hint Resolve runs_block_loop : runs.
Lemma runs_parse_block m : m ≤ S n → runs m 1 (T parse_block).
Proof. intros Hm. unfold parse_block. run. Qed.
Hint Resolve runs_parse_block : runs.
Lemma runs_if_stmt m : m ≤ S n → runs m 1 (T parse_if_stmt).
Proof. intros Hm. unfold parse_if_stmt. run. Qed.
Hint Resolve runs_if_stmt : runs.
Lemma runs_if_expr m : m ≤ S n → runs m 1 (T parse_if_expr).
Proof. intros Hm. unfold parse_if_expr. run. Qed.
Hint Resolve runs_if_expr : runs.

(** *** Primary expressions *)
Lemma runs_json_pair m : m ≤ S n → runs m 1 (T json_pair).
Proof. intros Hm. unfold json_pair. run. Qed.
Hint Resolve runs_json_pair : runs.
Lemma runs_json_body {A} m open close open_msg msg (item : PM A) : open ≠ T_Eof → m ≤ S n → runs n 1 item →
  runs m 1 (json_body dbg tokens open close open_msg msg item).
Proof.
  intros Ho Hm Hi. unfold json_body. apply runs_bind with 1; [by apply runs_expect|]. intros _.
  apply runs_bind with 0; [by apply stays_runs|]. intros [|].
  - apply runs_bind with 0; [apply runs_advance|]. intros; apply runs_ret.
  - apply runs_json_loop. eapply runs_le; [exact Hi|lia|done].
Qed.
(** A token was taken before the last position is looked up. *)
Lemma runs_prev_end_at {A B : Type} m k (a : PM A) (g : A → Z → B) : runs m (S k) a →
  runs m (S k) (x ← a; close ← prev_end_at tokens; mret (g x close)).
Proof.
  intros Ha s Hs Hr. unfold mbind at 1, SM_bind. apply (ends_bind (S k)); [by apply Ha|].
  intros x s' Hs' Hp. rewrite Nat.sub_diag. unfold mbind, SM_bind, prev_end_at.
  destruct (cu_pos s') as [|p] eqn:E; [lia|]. unfold inside in Hs'.
  destruct (lookup_lt_is_Some_2 tokens p ltac:(lia)) as [y ->]. cbn. split; [unfold inside; lia|lia].
Qed.
Lemma runs_json_object m sp : m ≤ S n → runs m 1 (T parse_json_object sp).
Proof.
  intros Hm. apply runs_prev_end_at, runs_json_body; [done..|]. apply runs_json_pair. lia.
Qed.
Hint Resolve runs_json_object : runs.
Lemma runs_json_array m : m ≤ S n → runs m 1 (T parse_json_array).
Proof.
  intros Hm. unfold parse_json_array. apply runs_bind with 0; [by apply stays_runs|]. intros sp.
  apply runs_prev_end_at, runs_json_body; [done|lia|]. by apply Hjson.
Qed.
Hint Resolve runs_json_array : runs.
Lemma runs_literal t m k sp : t ≠ T_Eof → m ≤ S n → runs_at t m 1 (literal tokens k sp).
Proof. intros Ht Hm. unfold literal. run. Qed.
Hint Resolve runs_literal : runs.
Lemma runs_dyn_call t m sp : t ≠ T_Eof → m ≤ S n → runs_at t m 1 (T parse_dyn_call sp).
Proof. intros Ht Hm. unfold parse_dyn_call. run. Qed.
Hint Resolve runs_dyn_call : runs.
Lemma stays_validate e : stays (validate_inert_literal e).
Proof. unfold validate_inert_literal. by destruct (inert_error e) as [[]|]. Qed.
Hint Resolve stays_validate : core.
Lemma runs_explicit t m sp : t ≠ T_Eof → m ≤ S n → runs_at t m 1 (T parse_explicit sp).
Proof. intros Ht Hm. unfold parse_explicit. run. Qed.
Hint Resolve runs_explicit : runs.
Lemma runs_reserve t m sp : t ≠ T_Eof → m ≤ S n → runs_at t m 1 (T parse_reserve sp).
Proof. intros Ht Hm. unfold parse_reserve. run. Qed.
Hint Resolve runs_reserve : runs.
Lemma runs_arr t m sp : t ≠ T_Eof → m ≤ S n → runs_at t m 1 (parse_arr dbg tokens names rec sp).
Proof. intros Ht Hm. unfold parse_arr. run. Qed.
Hint Resolve runs_arr : runs.
Lemma runs_set t m sp : t ≠ T_Eof → m ≤ S n → runs_at t m 1 (T parse_set sp).
Proof. intros Ht Hm. unfold parse_set. run. Qed.
Hint Resolve runs_set : runs.
Lemma runs_dict_pair m : m ≤ n → runs m 1 (T dict_pair).
Proof. intros Hm. unfold dict_pair. run. Qed.
Hint Resolve runs_dict_pair : runs.
Lemma runs_dict t m sp : t ≠ T_Eof → m ≤ S n → runs_at t m 1 (T parse_dict sp).
Proof. intros Ht Hm. unfold parse_dict. run. Qed.
Hint Resolve runs_dict : runs.
Lemma runs_brace m : m ≤ S n → runs m 1 (T parse_brace).
Proof. intros Hm. unfold parse_brace. run. Qed.
Hint Resolve runs_brace : runs.
Lemma runs_qualified t m s sp : t ≠ T_Eof → m ≤ S n → runs_at t m 1 (parse_qualified dbg tokens names rec s sp).
Proof. intros Ht Hm. unfold parse_qualified. run. Qed.
Hint Resolve runs_qualified : runs.
Lemma runs_call t m s sp : t ≠ T_Eof → m ≤ S n → runs_at t m 1 (T parse_call s sp).
Proof. intros Ht Hm. unfold parse_call. run. Qed.
Hint Resolve runs_call : runs.
Lemma runs_struct_field m : m ≤ S n → runs m 1 (T struct_field).
Proof. intros Hm. unfold struct_field. run. Qed.
Hint Resolve runs_struct_field : runs.
Lemma runs_struct_lit t m s sp : t ≠ T_Eof → m ≤ S n → runs_at t m 1 (T parse_struct_lit s sp).
Proof. intros Ht Hm. unfold parse_struct_lit. run. Qed.
Hint Resolve runs_struct_lit : runs.
Lemma runs_name t m s sp : t ≠ T_Eof → m ≤ S n → runs_at t m 1 (parse_name dbg tokens names rec s sp).
Proof. intros Ht Hm. unfold parse_name. run. Qed.
Hint Resolve runs_name : runs.
Lemma runs_paren t m sp : t ≠ T_Eof → m ≤ S n → runs_at t m 1 (T parse_paren sp).
Proof. intros Ht Hm. unfold parse_paren. run. Qed.
Hint Resolve runs_paren : runs.
Lemma runs_bracket t m sp : t ≠ T_Eof → m ≤ S n → runs_at t m 1 (T parse_bracket sp).
Proof. intros Ht Hm. unfold parse_bracket. run. Qed.
Hint Resolve runs_bracket : runs.
Lemma runs_primary m : m ≤ S n → runs m 1 (parse_primary dbg tokens names rec).
Proof. intros Hm. unfold parse_primary. run. Qed.
Hint Resolve runs_primary : runs.
Lemma runs_index t m e : t ≠ T_Eof → m ≤ S n → runs_at t m 1 (T parse_index e).
Proof. intros Ht Hm. unfold parse_index. run. Qed.
Hint Resolve runs_index : runs.
Lemma runs_arrow t m e : t ≠ T_Eof → m ≤ S n → runs_at t m 1 (T parse_arrow e).
Proof. intros Ht Hm. unfold parse_arrow. run. Qed.
Hint Resolve runs_arrow : runs.
Lemma runs_dot t m e : t ≠ T_Eof → m ≤ S n → runs_at t m 1 (parse_dot dbg tokens e).
Proof. intros Ht Hm. unfold parse_dot. run. Qed.
Hint Resolve runs_dot : runs.

(** *** Operators *)
Lemma runs_postfix_loop m e : m ≤ S n → runs m 0 (postfix_loop dbg tokens rec (loop_fuel tokens) e).
Proof.
  intros Hm. revert e. apply (runs_loop_all (postfix_loop dbg tokens rec)); [|unfold loop_fuel; lia].
  intros fuel i Hi IH e. destruct i as [|i]; [apply runs_none|]. cbn [postfix_loop].
  apply runs_peek. intros t. destruct t; run.
Qed.
Hint Resolve runs_postfix_loop : runs.
Lemma runs_postfix m : m ≤ S n → runs m 1 (parse_postfix dbg tokens names rec).
Proof. intros Hm. unfold parse_postfix. run. Qed.
Hint Resolve runs_postfix : runs.
Lemma runs_unary t m op : t ≠ T_Eof → m ≤ S n → runs_at t m 1 (parse_unary tokens rec op).
Proof. intros Ht Hm. unfold parse_unary. run. Qed.
Hint Resolve runs_unary : runs.
Lemma runs_prefix m : m ≤ S n → runs m 1 (parse_prefix dbg tokens names rec).
Proof. intros Hm. unfold parse_prefix. run. Qed.
Hint Resolve runs_prefix : runs.
Lemma infix_eof : infix T_Eof = None.
Proof. done. Qed.
Lemma runs_bp_loop m b e : m ≤ S n → runs m 0 (bp_loop tokens rec (loop_fuel tokens) b e).
Proof.
  intros Hm. revert e. apply (runs_loop_all (λ fuel, bp_loop tokens rec fuel b)); [|unfold loop_fuel; lia].
  intros fuel i Hi IH e. destruct i as [|i]; [apply runs_none|]. cbn [bp_loop]. cbv beta in IH.
  apply runs_peek. intros t. destruct (infix t) as [[[mk l] r]|] eqn:Et; [|run].
  assert (t ≠ T_Eof) by (intros ->; discriminate Et). run.
Qed.
Hint Resolve runs_bp_loop : runs.
Lemma runs_expr_bp m b : m ≤ S n → runs m 1 (parse_expr_bp dbg tokens names rec b).
Proof. intros Hm. unfold parse_expr_bp. run. Qed.
Hint Resolve runs_expr_bp : runs.
Lemma runs_expr m : m ≤ S n → runs m 1 (parse_expr dbg tokens names rec).
Proof. apply runs_expr_bp. Qed.
Hint Resolve runs_expr : runs.
Lemma runs_json_value m : m ≤ S n → runs m 1 (parse_json_value dbg tokens names rec).
Proof. intros Hm. unfold parse_json_value. run. Qed.
Hint Resolve runs_json_value : runs.

(** *** Statements *)
Abbreviation U f := (f dbg tokens names rec).
Lemma runs_semi_end m msg : runs m 1 (semi_end dbg tokens msg).
Proof. unfold semi_end. run. Qed.
Hint Resolve runs_semi_end : runs.
Lemma runs_delete m : m ≤ S n → runs m 1 (U parse_delete).
Proof. intros Hm. unfold parse_delete. run. Qed.
Hint Resolve runs_delete : runs.
Lemma runs_emit m : m ≤ S n → runs m 1 (U parse_emit).
Proof. intros Hm. unfold parse_emit. run. Qed.
Hint Resolve runs_emit : runs.
Lemma runs_parallel_pattern m : runs m 1 (parallel_pattern dbg tokens).
Proof. unfold parallel_pattern. run. Qed.
Hint Resolve runs_parallel_pattern : runs.
Lemma runs_parallel_for t m z : t ≠ T_Eof → m ≤ S n → runs_at t m 1 (U parse_parallel_for z).
Proof. intros Ht Hm. unfold parse_parallel_for. run. Qed.
Hint Resolve runs_parallel_for : runs.
Lemma runs_parallel_stmt m : m ≤ n → runs m 1 (parallel_stmt tokens rec).
Proof. intros Hm. unfold parallel_stmt. run. Qed.
Hint Resolve runs_parallel_stmt : runs.
Lemma runs_parallel m : m ≤ S n → runs m 1 (U parse_parallel).
Proof. intros Hm. unfold parse_parallel. run. Qed.
Hint Resolve runs_parallel : runs.
Lemma runs_let m : m ≤ S n → runs m 1 (U parse_let).
Proof. intros Hm. unfold parse_let. run. Qed.
Hint Resolve runs_let : runs.
Lemma runs_return m : m ≤ S n → runs m 1 (U parse_return).
Proof. intros Hm. unfold parse_return. run. Qed.
Hint Resolve runs_return : runs.
Lemma runs_while m : m ≤ S n → runs m 1 (U parse_while).
Proof. intros Hm. unfold parse_while. run. Qed.
Hint Resolve runs_while : runs.
Lemma runs_for_head m v : m ≤ S n → runs m 1 (U for_head v).
Proof. intros Hm. unfold for_head. run. Qed.
Hint Resolve runs_for_head : runs.
Lemma runs_for m : m ≤ S n → runs m 1 (U parse_for).
Proof. intros Hm. unfold parse_for. run. Qed.
Hint Resolve runs_for : runs.
Lemma runs_expr_semi m e : runs m 1 (expr_semi dbg tokens e).
Proof. unfold expr_semi. run. Qed.
Hint Resolve runs_expr_semi : runs.
Lemma runs_expr_stmt m : m ≤ S n → runs m 1 (U expr_stmt).
Proof. intros Hm. unfold expr_stmt. run. Qed.
Hint Resolve runs_expr_stmt : runs.
Lemma runs_keyword_semi t m mk msg : t ≠ T_Eof → m ≤ S n → runs_at t m 1 (keyword_semi dbg tokens mk msg).
Proof. intros Ht Hm. unfold keyword_semi. run. Qed.
Hint Resolve runs_keyword_semi : runs.
(** The cursor goes back when a name starts with the underscore. *)
Lemma runs_underscore t m : t ≠ T_Eof → m ≤ S n → runs_at t m 1 (U underscore_stmt).
Proof.
  intros Ht Hm s Hs Hr Hat. pose proof (not_last t s Hat Ht) as Hlt.
  assert (He : runs m 1 (e ← U parse_expr; expr_semi dbg tokens e)) by run.
  destruct (inside_lookup s Hs) as [x Hx].
  assert (Hx' : is_Some (tokens !! (cu_pos s + 1))) by (by apply lookup_lt_is_Some_2). destruct Hx' as [y Hy].
  assert (Had : advance tokens s = (Ok tt, mkCursor (cu_pos s + 1) (cu_no_struct s))).
  { unfold advance, modify. by case_decide. }
  cbv [underscore_stmt mbind SM_bind gets cur_span cur]. rewrite Hx. cbv beta iota zeta delta [or_panic mret SM_ret].
  rewrite Had. cbv [peek_is peek_token mbind SM_bind cur]. cbn. rewrite Hy. cbn. case_bool_decide as Ey.
  - assert (Hat' : at_token T_Semi (mkCursor (cu_pos s + 1) (cu_no_struct s))) by (unfold at_token; cbn; rewrite Hy; cbn; by rewrite Ey).
    pose proof (not_last _ _ Hat' ltac:(done)) as Hlt'. cbn in Hlt'.
    cbn. case_decide; [|lia]. split; [unfold inside; cbn; lia|cbn; lia].
  - cbv [modify]. cbn. apply (He (mkCursor (cu_pos s) (cu_no_struct s))); done.
Qed.
Hint Resolve runs_underscore : runs.
Lemma runs_stmt m : m ≤ S n → runs m 1 (U parse_stmt).
Proof. intros Hm. unfold parse_stmt. run. Qed.
End step.

(** ** The parser with its fuel *)
Definition all_run (n : nat) (rec : Rec) : Prop :=
  (∀ b, runs n 1 (rec_bp rec b)) ∧ runs n 1 (rec_prefix rec) ∧ runs n 1 (rec_json rec) ∧
  runs n 1 (rec_stmt rec) ∧ runs n 1 (rec_if rec).
Lemma parsers_run fuel n : n ≤ fuel → all_run n (parsers dbg tokens names fuel).
Proof.
  revert n. induction fuel as [|fuel IH]; intros n Hn.
  - replace n with 0 by lia. unfold all_run; splits; intros; apply runs_none.
  - destruct n as [|n]; [unfold all_run; splits; intros; apply runs_none|]. cbn [parsers].
    assert (H : ∀ m, m ≤ n → all_run m (parsers dbg tokens names fuel)) by (intros; apply IH; lia).
    unfold all_run; splits; cbn [rec_bp rec_prefix rec_json rec_stmt rec_if]; intros;
      first [apply (runs_expr_bp n) | apply (runs_prefix n) | apply (runs_json_value n) | apply (runs_stmt n)
            | apply (runs_if_stmt n)]; try done; intros m; intros; by apply H.
Qed.
Lemma top_runs n : all_run n (top dbg tokens names).
Proof.
  unfold top. assert (H : all_run (min n (length tokens)) (parsers dbg tokens names (loop_fuel tokens))).
  { apply parsers_run. unfold loop_fuel. lia. }
  destruct H as (? & ? & ? & ? & ?). unfold all_run; splits; intros; by apply runs_cap.
Qed.
Lemma runs_top_expr n b : runs n 1 (rec_bp (top dbg tokens names) b).
Proof. apply top_runs. Qed.
Lemma runs_top_block n : runs n 1 (parse_block dbg tokens (top dbg tokens names)).
Proof. eapply (runs_parse_block n); [intros; apply top_runs..|lia]. Qed.
Hint Resolve runs_top_expr runs_top_block runs_semi_end : runs.

(** ** Declarations *)
Lemma runs_param n msg : runs n 1 (parse_param dbg tokens names msg).
Proof. unfold parse_param. run. Qed.
Hint Resolve runs_param : runs.
Lemma runs_return_type n : runs n 0 (return_type dbg tokens names).
Proof. unfold return_type. run. Qed.
Hint Resolve runs_return_type : runs.
Lemma runs_applied_modifier n : runs n 1 (applied_modifier dbg tokens names).
Proof. unfold applied_modifier. run. Qed.
Hint Resolve runs_applied_modifier : runs.
Lemma runs_fn_with_modifiers n a b c d : runs n 1 (parse_fn_with_modifiers dbg tokens names a b c d).
Proof. unfold parse_fn_with_modifiers. run. Qed.
Hint Resolve runs_fn_with_modifiers : runs.
Lemma runs_fn n : runs n 1 (parse_fn dbg tokens names).
Proof. apply runs_fn_with_modifiers. Qed.
Hint Resolve runs_fn : runs.
Lemma runs_import n : runs n 1 (parse_import dbg tokens names).
Proof. unfold parse_import. run. Qed.
Hint Resolve runs_import : runs.
Lemma runs_state n : runs n 1 (parse_state dbg tokens names).
Proof. unfold parse_state. run. Qed.
Hint Resolve runs_state : runs.
Lemma runs_const_decl n : runs n 1 (parse_const_decl dbg tokens names).
Proof. unfold parse_const_decl. run. Qed.
Hint Resolve runs_const_decl : runs.
Lemma runs_variant n : runs n 1 (parse_variant dbg tokens names).
Proof. unfold parse_variant. run. Qed.
Hint Resolve runs_variant : runs.
Lemma runs_enum_decl n : runs n 1 (parse_enum_decl dbg tokens names).
Proof. unfold parse_enum_decl. run. Qed.
Hint Resolve runs_enum_decl : runs.
Lemma runs_modifier_decl n : runs n 1 (parse_modifier_decl dbg tokens names).
Proof. unfold parse_modifier_decl. run. Qed.
Hint Resolve runs_modifier_decl : runs.
Lemma runs_handler_decl n : runs n 1 (parse_handler_decl dbg tokens names).
Proof. unfold parse_handler_decl. run. Qed.
Hint Resolve runs_handler_decl : runs.
Lemma runs_field n g : runs n 1 (parse_field dbg tokens names g).
Proof. unfold parse_field. run. Qed.
Hint Resolve runs_field : runs.
Lemma runs_group t n : t ≠ T_Eof → runs_at t n 1 (parse_group dbg tokens names).
Proof. intros Ht. unfold parse_group. run. Qed.
Hint Resolve runs_group : runs.
Lemma runs_fields_item n k : runs n 1 (fields_item dbg tokens names k).
Proof. unfold fields_item. run. Qed.
Hint Resolve runs_fields_item : runs.
Lemma runs_struct_body_fields n k : runs n 0 (parse_struct_body_fields dbg tokens names k).
Proof. unfold parse_struct_body_fields. run. Qed.
Hint Resolve runs_struct_body_fields : runs.
Lemma runs_struct_decl n : runs n 1 (parse_struct_decl dbg tokens names).
Proof. unfold parse_struct_decl. run. Qed.
Hint Resolve runs_struct_decl : runs.
Lemma runs_cap_decl n : runs n 1 (parse_cap_decl dbg tokens names).
Proof. unfold parse_cap_decl. run. Qed.
Hint Resolve runs_cap_decl : runs.
Lemma runs_method_flags n b c : runs n 0 (method_flags tokens (loop_fuel tokens) b c).
Proof.
  enough (H : ∀ bc, runs n 0 (method_flags tokens (loop_fuel tokens) bc.1 bc.2)) by apply (H (b, c)).
  apply (runs_loop_all (λ fuel bc, method_flags tokens fuel bc.1 bc.2)); [|unfold loop_fuel; lia].
  intros fuel i Hi IH a. destruct i as [|i]; [apply runs_none|]. cbn [method_flags]. cbv beta in IH.
  assert (IH' : ∀ j b c, j < S i → runs j 0 (method_flags tokens fuel b c)) by (intros j b' c' Hj; apply (IH j (b', c') Hj)).
  clear IH. apply runs_peek. intros t. destruct t; run.
Qed.
Hint Resolve runs_method_flags : runs.
Lemma runs_interface_method n : runs n 1 (parse_interface_method dbg tokens names).
Proof. unfold parse_interface_method. run. Qed.
Hint Resolve runs_interface_method : runs.
Lemma runs_interface_decl n : runs n 1 (parse_interface_decl dbg tokens names).
Proof. unfold parse_interface_decl. run. Qed.
Hint Resolve runs_interface_decl : runs.
Lemma runs_index_path n : runs n 1 (parse_index_path dbg tokens).
Proof.
  unfold parse_index_path. apply runs_bind with 1; [apply runs_expect_ident|]. intros x.
  apply runs_bind with 0; [|intros; apply runs_ret].
  match goal with |- runs _ _ (?f (loop_fuel tokens)) => apply (runs_loop f) end; [|unfold loop_fuel; lia].
  intros fuel i Hi IH. destruct i as [|i]; [apply runs_none|]. cbv beta in IH. run.
Qed.
Hint Resolve runs_index_path : runs.
Lemma runs_index_field n : runs n 1 (index_field dbg tokens).
Proof. unfold index_field. run. Qed.
Hint Resolve runs_index_field : runs.
Lemma runs_index_decl n k : runs n 1 (parse_index_decl dbg tokens k).
Proof. unfold parse_index_decl. run. Qed.
Hint Resolve runs_index_decl : runs.
Lemma runs_fn_flags n f : runs n 0 (fn_flags tokens (loop_fuel tokens) f).
Proof.
  revert f. apply (runs_loop_all (fn_flags tokens)); [|unfold loop_fuel; lia].
  intros fuel i Hi IH a. destruct i as [|i]; [apply runs_none|]. cbn [fn_flags].
  apply runs_peek. intros t. destruct t; run.
Qed.
Hint Resolve runs_fn_flags : runs.
Lemma runs_flagged_fn n : runs n 1 (parse_flagged_fn dbg tokens names).
Proof. unfold parse_flagged_fn. run. Qed.
Hint Resolve runs_flagged_fn : runs.
Lemma runs_as_item {A : Type} n (mk : A → Item) m : runs n 1 m → runs n 1 (as_item mk m).
Proof. intros Hm. unfold as_item. run. Qed.
Hint Resolve runs_as_item : runs.
Lemma runs_item n : runs n 1 (parse_item dbg tokens names).
Proof. unfold parse_item. run. Qed.
Hint Resolve runs_item : runs.
Lemma runs_items n : runs n 0 (parse_items dbg tokens names (loop_fuel tokens)).
Proof.
  apply (runs_loop (parse_items dbg tokens names)); [|unfold loop_fuel; lia].
  intros fuel i Hi IH. destruct i as [|i]; [apply runs_none|]. cbn [parse_items]. run.
Qed.
Hint Resolve runs_items : runs.

(** ** Modules *)
Lemma runs_not_eof {B : Type} n k (a : PM B) (f : Token → PM B) : runs n k a →
  (∀ t, t ≠ T_Eof → runs_at t n k (f t)) →
  runs n k (eof ← is_eof tokens; if eof : bool then a else t ← peek_token tokens; f t).
Proof.
  intros Ha Hf s Hs Hr. destruct (inside_lookup s Hs) as [x Hx].
  cbv [is_eof peek_is peek_token mbind SM_bind cur]. rewrite Hx. cbn. case_bool_decide as Ex; [by apply Ha|].
  rewrite Hx. cbn. apply Hf; [done..|]. unfold at_token. by rewrite Hx.
Qed.
Lemma runs_skip_body n d : runs n 0 (skip_body tokens (loop_fuel tokens) d).
Proof.
  revert d. apply (runs_loop_all (skip_body tokens)); [|unfold loop_fuel; lia].
  intros fuel i Hi IH a. destruct i as [|i]; [apply runs_none|]. cbn [skip_body].
  apply runs_not_eof; [apply runs_ret|]. intros t Ht. destruct t; try congruence; run.
Qed.
Hint Resolve runs_skip_body : runs.
Lemma runs_collect_names n ns : runs n 0 (collect_names tokens (loop_fuel tokens) ns).
Proof.
  revert ns. apply (runs_loop_all (collect_names tokens)); [|unfold loop_fuel; lia].
  intros fuel i Hi IH a. destruct i as [|i]; [apply runs_none|]. cbn [collect_names].
  apply runs_not_eof; [apply runs_ret|]. intros t Ht. destruct t; try congruence; run.
Qed.
Lemma runs_module_name n : runs n 0 (module_name dbg tokens).
Proof. unfold module_name. run. Qed.
End runs.

Lemma parse_module_ends dbg extra tokens eof_span : last tokens = Some (mkSpanned T_Eof eof_span) →
  match parse_with_extra_iface_names dbg extra tokens with
  | Ok _ => True | Err e => err_kind e = Parse | _ => False
  end.
Proof.
  intros Hlast. unfold parse_with_extra_iface_names.
  assert (Hin : inside tokens parser_new).
  { unfold inside. cbn. destruct tokens; [done|cbn; lia]. }
  cut (ends tokens 0 parser_new (parse_module dbg extra tokens parser_new)).
  { by destruct (parse_module _ _ _ _) as [[] s]. }
  unfold parse_module. unfold mbind at 1, SM_bind. apply (ends_bind tokens 0).
  { by apply (runs_module_name dbg tokens eof_span Hlast (remaining tokens parser_new)). }
  intros name s1 H1 _. unfold gets, mbind at 1, SM_bind. unfold mbind at 1, SM_bind.
  pose proof (runs_collect_names tokens eof_span Hlast (remaining tokens s1)
    (mkNames ∅ ∅ extra) s1 H1 (le_n _)) as Hc.
  destruct (collect_names _ _ _ s1) as [[names|e| |] s2]; cbn in Hc; [|done..].
  unfold modify, mbind at 1, SM_bind. unfold mbind at 1, SM_bind.
  pose proof (runs_items dbg tokens eof_span Hlast names (remaining tokens s1)
    (mkCursor (cu_pos s1) (cu_no_struct s2)) H1 (le_n _)) as Hi.
  destruct (parse_items dbg tokens names (loop_fuel tokens) (mkCursor (cu_pos s1) (cu_no_struct s2)))
    as [[items|e| |] s3]; cbn in *; done.
Qed.

Lemma tiles_last `{FloatText} src i l : tiles src i l → ∃ sp, last l = Some (mkSpanned T_Eof sp).
Proof.
  revert i. induction l as [|[t [a b]] l IH]; intros i; [done|]. destruct l as [|y l].
  - intros (_ & _ & _ & -> & _). cbn. eauto.
  - intros (_ & _ & _ & _ & _ & Ht). by apply (IH b).
Qed.

(** C37: a source is either lexed and parsed to a module, or rejected with an error
    of the lexer or of the parser: no index of the parser is out of range, none of
    its loops runs on and its nesting is bounded by the number of tokens, whatever
    the source. *)
Theorem parse_total `{FloatText} dbg (src : bytes) :
  (∃ m, (ts ← tokenize src; parse dbg ts) = Ok m) ∨
  (∃ e, (ts ← tokenize src; parse dbg ts) = Err e ∧ (err_kind e = Lex ∨ err_kind e = Parse)).
Proof.
  destruct (tokenize_ok src) as [(ts & -> & Hts)|(e & -> & He)]; cbn.
  - destruct (tiles_last src 0 ts Hts) as [sp Hsp].
    pose proof (parse_module_ends dbg ∅ ts sp Hsp) as Hp. unfold parse.
    destruct (parse_with_extra_iface_names dbg ∅ ts) as [m|e| |]; [eauto| |done..]. right. eauto.
  - right. exists e. split; [done|]. left. apply He.
Qed.
