(* ===== verification/ParserSpell.v ===== *)
(** The precedence of operators: the grammar of expressions as an inductive
    relation, and the parser reads every spelling of an expression back. *)
From S2P Require Import Prelude Bytes Values JsonText Display Ops Bytecode Ast Lexer Effects Parser ParserFacts.
#[local] Open Scope nat_scope.

(** ** Expressions without their spans *)
Definition bare (k : ExprKind) : Expr := mkExpr k Span_default.
Fixpoint erase (e : Expr) : Expr :=
  match e with mkExpr k _ => bare
    match k with
    | E_Binary op a b => E_Binary op (erase a) (erase b)
    | E_Pipe a b => E_Pipe (erase a) (erase b)
    | E_Unary op a => E_Unary op (erase a)
    | E_Index a b => E_Index (erase a) (erase b)
    | E_Field a f => E_Field (erase a) f
    | E_TupleIndex a i => E_TupleIndex (erase a) i
    | E_Call m f args => E_Call m f (erase <$> args)
    | E_Array es => E_Array (erase <$> es)
    | E_TupleLit es => E_TupleLit (erase <$> es)
    | k => k
    end
  end.

(** ** The grammar *)
Definition literal_of (t : Token) : option ExprKind :=
  match t with
  | T_Int n => Some (E_Int n) | T_UInt n => Some (E_UInt n) | T_Float n => Some (E_Float n)
  | T_I32 n => Some (E_I32 n) | T_U32 n => Some (E_U32 n) | T_U64 n => Some (E_U64 n)
  | T_U128 n => Some (E_U128 n) | T_Str s => Some (E_Str s) | T_True => Some (E_Bool true)
  | T_False => Some (E_Bool false) | T_DollarDollar => Some E_Prev
  | _ => None
  end.
Definition prefix_of (op : UnOp) : Token := match op with Neg => T_Minus | Not => T_Bang end.

(** [spells_bp b ts e]: the tokens [ts] are an expression [e] whose operators outside
    of brackets bind at least as strongly as [b]; an operator associates to the left.
    Arguments may end in a comma. *)
Inductive spells_post (enums : gset bytes) : list Token → Expr → Prop :=
  | spell_literal t k : literal_of t = Some k → spells_post enums [t] (bare k)
  | spell_name n : spells_post enums [T_Ident n] (bare (E_Ident n))
  | spell_group ts e : spells_bp enums 0 ts e → spells_post enums (T_LParen :: ts ++ [T_RParen]) e
  | spell_tuple ts e us es : spells_bp enums 0 ts e → spells_args enums us es →
      spells_post enums (T_LParen :: ts ++ T_Comma :: us ++ [T_RParen]) (bare (E_TupleLit (e :: es)))
  | spell_empty : spells_post enums [T_LBracket; T_RBracket] (bare (E_Array []))
  | spell_singleton ts e : spells_bp enums 0 ts e →
      spells_post enums (T_LBracket :: ts ++ [T_RBracket]) (bare (E_Array [e]))
  | spell_array ts e us es : spells_bp enums 0 ts e → spells_args enums us es →
      spells_post enums (T_LBracket :: ts ++ T_Comma :: us ++ [T_RBracket]) (bare (E_Array (e :: es)))
  | spell_call n us es : spells_args enums us es →
      spells_post enums (T_Ident n :: T_LParen :: us ++ [T_RParen]) (bare (E_Call None n es))
  | spell_module_call m n us es : m ∉ enums → spells_args enums us es →
      spells_post enums (T_Ident m :: T_ColonColon :: T_Ident n :: T_LParen :: us ++ [T_RParen])
        (bare (E_Call (Some m) n es))
  | spell_index ts e us k : spells_post enums ts e → spells_bp enums 0 us k →
      spells_post enums (ts ++ T_LBracket :: us ++ [T_RBracket]) (bare (E_Index e k))
  | spell_field ts e f : spells_post enums ts e →
      spells_post enums (ts ++ [T_Dot; T_Ident f]) (bare (E_Field e f))
  | spell_tuple_index ts e n : spells_post enums ts e → in_u 64 n = true →
      spells_post enums (ts ++ [T_Dot; T_Int n]) (bare (E_TupleIndex e n))
with spells_pre (enums : gset bytes) : list Token → Expr → Prop :=
  | spell_post ts e : spells_post enums ts e → spells_pre enums ts e
  | spell_unary op ts e : spells_pre enums ts e → spells_pre enums (prefix_of op :: ts) (bare (E_Unary op e))
with spells_bp (enums : gset bytes) : Z → list Token → Expr → Prop :=
  | spell_pre b ts e : spells_pre enums ts e → spells_bp enums b ts e
  | spell_infix b t mk l r ts1 e1 ts2 e2 : infix t = Some (mk, l, r) → (b <= l)%Z →
      spells_bp enums l ts1 e1 → spells_bp enums r ts2 e2 →
      spells_bp enums b (ts1 ++ t :: ts2) (bare (mk e1 e2))
with spells_args (enums : gset bytes) : list Token → list Expr → Prop :=
  | args_nil : spells_args enums [] []
  | args_one ts e : spells_bp enums 0 ts e → spells_args enums ts [e]
  | args_cons ts e us es : spells_bp enums 0 ts e → spells_args enums us es →
      spells_args enums (ts ++ T_Comma :: us) (e :: es).

Scheme spells_post_mut := Induction for spells_post Sort Prop
  with spells_pre_mut := Induction for spells_pre Sort Prop
  with spells_bp_mut := Induction for spells_bp Sort Prop
  with spells_args_mut := Induction for spells_args Sort Prop.
Combined Scheme spells_ind from spells_post_mut, spells_pre_mut, spells_bp_mut, spells_args_mut.

(** ** The first token of an expression, and the token after it *)
Definition starter (t : Token) : bool :=
  match t with
  | T_Ident _ | T_LParen | T_LBracket | T_Minus | T_Bang => true
  | _ => match literal_of t with Some _ => true | None => false end
  end.
Definition starts (p : Token → bool) (ts : list Token) : Prop :=
  match ts with t :: _ => p t = true | [] => False end.

Lemma starts_app p ts us : starts p ts → starts p (ts ++ us).
Proof. by destruct ts. Qed.
Definition no_sign (t : Token) : bool := match t with T_Minus | T_Bang => false | _ => starter t end.

Lemma no_sign_starts ts : starts no_sign ts → starts starter ts.
Proof. destruct ts as [|t ts]; [done|]. by destruct t. Qed.

Lemma spells_start enums :
  (∀ ts e, spells_post enums ts e → starts no_sign ts) ∧
  (∀ ts e, spells_pre enums ts e → starts starter ts) ∧
  (∀ b ts e, spells_bp enums b ts e → starts starter ts) ∧
  (∀ ts es, spells_args enums ts es → ts = [] ∨ starts starter ts).
Proof.
  apply (spells_ind enums (λ ts e _, starts no_sign ts) (λ ts e _, starts starter ts)
    (λ b ts e _, starts starter ts) (λ ts es _, ts = [] ∨ starts starter ts));
    intros; auto using starts_app, no_sign_starts; cbn in *; try done.
  - by destruct t.
  - by destruct op.
Qed.

(** A token after which an expression of binding power [b] is complete. *)
Definition continues (t : Token) : bool :=
  match t with T_LBracket | T_Arrow | T_Dot | T_LParen | T_ColonColon | T_LBrace => true | _ => false end.
Definition follows (b : Z) (t : Token) : Prop :=
  continues t = false ∧ (∀ mk l r, infix t = Some (mk, l, r) → (l <= b)%Z).

Lemma infix_facts t mk l r : infix t = Some (mk, l, r) → follows l t ∧ t ≠ T_Eof ∧ r = (l + 1)%Z ∧ (1 <= l)%Z.
Proof. destruct t; cbn; intros [= <- <- <-]; (split; [split; [done|]|]); cbn; try done; by intros ??? [= _ <- _]. Qed.
Lemma follows_le b c t : follows b t → (b <= c)%Z → follows c t.
Proof. intros [Hc Hl] Hle. split; [done|]. intros mk l r E. specialize (Hl _ _ _ E). lia. Qed.
Definition closer (t : Token) : bool :=
  match t with T_RParen | T_RBracket | T_Comma | T_Semi | T_Eof => true | _ => false end.
Lemma closer_follows b t : closer t = true → follows b t.
Proof. by destruct t. Qed.

(** ** Running the parser on known tokens *)
Section runs.
Context (dbg : Token → bytes) (tokens : list Spanned) (names : Names).

Definition holds (s : Cursor) (l : list Token) : Prop := sp_token <$> drop (cu_pos s) tokens = l.
Definition next (s : Cursor) : Cursor := mkCursor (cu_pos s + 1) (cu_no_struct s).
(** [m] answers from [s], in a state that satisfies [Q]. *)
Definition yields {A} (m : PM A) (s : Cursor) (Q : A → Cursor → Prop) : Prop :=
  ∃ a s', m s = (Ok a, s') ∧ Q a s'.

Lemma yields_ret {A} (a : A) s (Q : A → Cursor → Prop) : Q a s → yields (mret a) s Q.
Proof. intros H. by exists a, s. Qed.
Lemma yields_bind {A B : Type} (m : PM A) (f : A → PM B) s P Q :
  yields m s P → (∀ a s', P a s' → yields (f a) s' Q) → yields (m ≫= f) s Q.
Proof.
  intros (a & s1 & E & Ha) Hf. destruct (Hf a s1 Ha) as (b & s2 & E2 & Hb).
  exists b, s2. unfold mbind, SM_bind. by rewrite E.
Qed.
Lemma yields_step {A B : Type} (m : PM A) (f : A → PM B) s a s' Q :
  m s = (Ok a, s') → yields (f a) s' Q → yields (m ≫= f) s Q.
Proof. intros E (b & s2 & E2 & Hb). exists b, s2. unfold mbind, SM_bind. by rewrite E. Qed.
Lemma yields_mono {A} (m : PM A) s (P Q : A → Cursor → Prop) :
  yields m s P → (∀ a s', P a s' → Q a s') → yields m s Q.
Proof. intros (a & s' & E & H) HPQ. exists a, s'. auto. Qed.

Lemma holds_lookup s t l : holds s (t :: l) → ∃ sp, tokens !! cu_pos s = Some (mkSpanned t sp).
Proof.
  intros H. assert (sp_token <$> tokens !! cu_pos s = Some t) as E.
  { replace (tokens !! cu_pos s) with (drop (cu_pos s) tokens !! 0) by (rewrite lookup_drop; f_equal; lia).
    rewrite <- list_lookup_fmap. unfold holds in H. by rewrite H. }
  destruct (tokens !! cu_pos s) as [[t' sp]|]; [|done]. injection E as <-. eauto.
Qed.
Lemma holds_remaining s l : holds s l → remaining tokens s = length l.
Proof. intros <-. by rewrite length_fmap, length_drop. Qed.
Lemma holds_next s t l : holds s (t :: l) → holds (next s) l.
Proof.
  intros H. unfold holds, next in *. cbn. rewrite <- drop_drop, fmap_drop, H. done.
Qed.
Lemma holds_flag s b l : holds s l → holds (mkCursor (cu_pos s) b) l.
Proof. done. Qed.

Lemma run_peek s t l : holds s (t :: l) → peek_token tokens s = (Ok t, s).
Proof. intros [sp E]%holds_lookup. cbv [peek_token mbind SM_bind cur]. by rewrite E. Qed.
Lemma run_peek_is s t t' l : holds s (t' :: l) → peek_is tokens t s = (Ok (bool_decide (t' = t)), s).
Proof. intros H. unfold peek_is. unfold mbind, SM_bind. by rewrite (run_peek s t' l). Qed.
Lemma run_span s t l : holds s (t :: l) → ∃ sp, cur_span tokens s = (Ok sp, s).
Proof. intros [sp E]%holds_lookup. exists sp. cbv [cur_span mbind SM_bind cur]. by rewrite E. Qed.
Lemma run_start s t l : holds s (t :: l) → ∃ z, start_of tokens s = (Ok z, s).
Proof. intros [sp E]%run_span. exists (span_start sp). cbv [start_of mbind SM_bind]. by rewrite E. Qed.
Lemma run_end s t l : holds s (t :: l) → ∃ z, end_of tokens s = (Ok z, s).
Proof. intros [sp E]%run_span. exists (span_end sp). cbv [end_of mbind SM_bind]. by rewrite E. Qed.
Lemma run_prev_end s l : holds s l → l ≠ [] → ∃ z, prev_end tokens s = (Ok z, s).
Proof.
  intros H Hl. destruct l as [|t l]; [done|]. apply holds_lookup in H as [sp E]. apply lookup_lt_Some in E.
  destruct (lookup_lt_is_Some_2 tokens (cu_pos s - 1) ltac:(lia)) as [x Ex]. exists (span_end (sp_span x)).
  unfold prev_end. by rewrite Ex.
Qed.
Lemma run_advance s t l : holds s (t :: l) → l ≠ [] → advance tokens s = (Ok tt, next s).
Proof.
  intros H Hl. apply holds_remaining in H. destruct l; [done|]. cbn in H. unfold advance, modify, remaining in *.
  case_decide; [done|lia].
Qed.
Lemma run_expect s t l msg : holds s (t :: l) → l ≠ [] → expect dbg tokens t msg s = (Ok tt, next s).
Proof.
  intros H Hl. unfold expect. unfold mbind, SM_bind. rewrite (run_peek_is s t t _ H).
  rewrite bool_decide_true by done. by eapply run_advance.
Qed.
Lemma run_expect_ident s n l : holds s (T_Ident n :: l) → l ≠ [] → expect_ident dbg tokens s = (Ok n, next s).
Proof.
  intros H Hl. unfold expect_ident. unfold mbind, SM_bind. rewrite (run_peek s _ _ H).
  by rewrite (run_advance s _ _ H Hl).
Qed.

(** The steps of a parser on known tokens. *)
Lemma y_peek {B : Type} s t l (f : Token → PM B) Q : holds s (t :: l) →
  yields (f t) s Q → yields (peek_token tokens ≫= f) s Q.
Proof. intros H. eapply yields_step, run_peek, H. Qed.
Lemma y_peek_is {B : Type} s t u l (f : bool → PM B) Q : holds s (u :: l) →
  yields (f (bool_decide (u = t))) s Q → yields (peek_is tokens t ≫= f) s Q.
Proof. intros H. eapply yields_step, run_peek_is, H. Qed.
Lemma y_advance {B : Type} s t l (f : unit → PM B) Q : holds s (t :: l) → l ≠ [] →
  (holds (next s) l → yields (f tt) (next s) Q) → yields (advance tokens ≫= f) s Q.
Proof. intros H Hl Hf. eapply yields_step; [by eapply run_advance|]. by eapply Hf, holds_next. Qed.
Lemma y_expect {B : Type} s t l msg (f : unit → PM B) Q : holds s (t :: l) → l ≠ [] →
  (holds (next s) l → yields (f tt) (next s) Q) → yields (expect dbg tokens t msg ≫= f) s Q.
Proof. intros H Hl Hf. eapply yields_step; [by eapply run_expect|]. by eapply Hf, holds_next. Qed.
Lemma y_ident {B : Type} s n l (f : bytes → PM B) Q : holds s (T_Ident n :: l) → l ≠ [] →
  (holds (next s) l → yields (f n) (next s) Q) → yields (expect_ident dbg tokens ≫= f) s Q.
Proof. intros H Hl Hf. eapply yields_step; [by eapply run_expect_ident|]. by eapply Hf, holds_next. Qed.
Lemma y_span {B : Type} s t l (f : Span → PM B) Q : holds s (t :: l) →
  (∀ sp, yields (f sp) s Q) → yields (cur_span tokens ≫= f) s Q.
Proof. intros [sp E]%run_span Hf. eapply yields_step; [exact E|apply Hf]. Qed.
Lemma y_start {B : Type} s t l (f : Z → PM B) Q : holds s (t :: l) →
  (∀ z, yields (f z) s Q) → yields (start_of tokens ≫= f) s Q.
Proof. intros [z E]%run_start Hf. eapply yields_step; [exact E|apply Hf]. Qed.
Lemma y_end {B : Type} s t l (f : Z → PM B) Q : holds s (t :: l) →
  (∀ z, yields (f z) s Q) → yields (end_of tokens ≫= f) s Q.
Proof. intros [z E]%run_end Hf. eapply yields_step; [exact E|apply Hf]. Qed.
Lemma y_prev_end {B : Type} s t l (f : Z → PM B) Q : holds s (t :: l) →
  (∀ z, yields (f z) s Q) → yields (prev_end tokens ≫= f) s Q.
Proof. intros H Hf. destruct (run_prev_end s (t :: l) H) as [z E]; [done|]. eapply yields_step; [exact E|apply Hf]. Qed.
Lemma y_gets {A B : Type} s (g : Cursor → A) (f : A → PM B) Q :
  yields (f (g s)) s Q → yields (gets g ≫= f) s Q.
Proof. by apply yields_step. Qed.
Lemma y_with_no_struct {A} s b (m : PM A) P : yields m (mkCursor (cu_pos s) b) P →
  (∀ a s1 f, P a s1 → P a (mkCursor (cu_pos s1) f)) → yields (with_no_struct b m) s P.
Proof.
  intros Hm Hf. eapply yields_step; [done|]. eapply yields_step; [done|]. eapply yields_bind; [exact Hm|].
  intros a s1 Ha. eapply yields_step; [done|]. apply yields_ret. by apply Hf.
Qed.

Ltac nonempty :=
  first [discriminate | intros ?E; apply (f_equal length) in E; rewrite ?length_app in E; cbn in E; lia].
Ltac ystep := cbv beta iota;
  first
    [ eapply y_peek; [eassumption|] | eapply y_peek_is; [eassumption|];
        first [rewrite bool_decide_true by reflexivity | rewrite bool_decide_false by discriminate | idtac]
    | eapply y_advance; [eassumption|nonempty|intros ?]
    | eapply y_expect; [eassumption|nonempty|intros ?] | eapply y_ident; [eassumption|nonempty|intros ?]
    | eapply y_span; [eassumption|intros ?] | eapply y_start; [eassumption|intros ?]
    | eapply y_end; [eassumption|intros ?] | eapply y_prev_end; [eassumption|intros ?]
    | lazymatch goal with |- yields (gets _ ≫= _) _ _ => apply y_gets | |- yields (mret _) _ _ => apply yields_ret end ].

(** ** What the parser makes of each spelling *)
Abbreviation P fuel := (parsers dbg tokens names fuel).
Definition good (e : Expr) (rest : list Token) (e' : Expr) (s' : Cursor) : Prop := erase e' = e ∧ holds s' rest.
Definition goods (es : list Expr) (rest : list Token) (es' : list Expr) (s' : Cursor) : Prop :=
  erase <$> es' = es ∧ holds s' rest.

Definition name_ends (t : Token) : bool :=
  match t with T_LParen | T_ColonColon | T_LBrace => false | _ => true end.
Definition Post (ts : list Token) (e : Expr) : Prop := ∀ fuel s t rest F Q,
  holds s (ts ++ t :: rest) → name_ends t = true → length (ts ++ t :: rest) ≤ S fuel → length (ts ++ t :: rest) < F →
  (∀ e' s' F', good e (t :: rest) e' s' → length (t :: rest) < F' → yields (postfix_loop dbg tokens (P fuel) F' e') s' Q) →
  yields (e ← parse_primary dbg tokens names (P fuel); postfix_loop dbg tokens (P fuel) F e) s Q.
Definition Pre (ts : list Token) (e : Expr) : Prop := ∀ fuel s t rest,
  holds s (ts ++ t :: rest) → continues t = false → length (ts ++ t :: rest) ≤ S fuel →
  yields (parse_prefix dbg tokens names (P fuel)) s (good e (t :: rest)).
Definition Bp (b : Z) (ts : list Token) (e : Expr) : Prop := ∀ c fuel s t rest F Q, (c <= b)%Z →
  holds s (ts ++ t :: rest) → follows b t → length (ts ++ t :: rest) ≤ S fuel → length (ts ++ t :: rest) < F →
  (∀ e' s' F', good e (t :: rest) e' s' → length (t :: rest) < F' → yields (bp_loop tokens (P fuel) F' c e') s' Q) →
  yields (e ← parse_prefix dbg tokens names (P fuel); bp_loop tokens (P fuel) F c e) s Q.
Definition closes (t : Token) : Prop := t = T_RParen ∨ t = T_RBracket.
Definition Args (ts : list Token) (es : list Expr) : Prop := ∀ fuel s close rest F, closes close →
  length (ts ++ close :: rest) ≤ fuel → length (ts ++ close :: rest) < F →
  (holds s (ts ++ close :: rest) → ∀ msg,
    yields (until_loop dbg tokens F close msg (rec_bp (P fuel) 0)) s (goods es (close :: rest))) ∧
  (holds s (T_Comma :: ts ++ close :: rest) →
    yields (more_loop tokens F close (rec_bp (P fuel) 0)) s (goods es (close :: rest))).

(** An expression within brackets or to the right of an operator. *)
Definition stops (b : Z) (t : Token) : Prop :=
  continues t = false ∧ (∀ mk l r, infix t = Some (mk, l, r) → (l < b)%Z).
Lemma stops_follows b t : stops b t → follows b t.
Proof. intros [Hc Hl]. split; [done|]. intros mk l r E. specialize (Hl _ _ _ E). lia. Qed.
Lemma rec_yields b ts e fuel s t rest : Bp b ts e → holds s (ts ++ t :: rest) → stops b t →
  length (ts ++ t :: rest) ≤ fuel → yields (rec_bp (P fuel) b) s (good e (t :: rest)).
Proof.
  intros Hb Hs Ht Hl. destruct fuel as [|fuel]; [rewrite length_app in Hl; cbn in Hl; lia|]. cbn [parsers rec_bp].
  unfold parse_expr_bp. eapply (Hb b); [done|exact Hs|by apply stops_follows|lia| |].
  - pose proof (holds_remaining _ _ Hs) as Hr. unfold remaining in Hr. unfold loop_fuel. lia.
  - intros e' s' F' [He Hs'] HF. destruct F' as [|F']; [cbn in HF; lia|]. cbn [bp_loop]. ystep.
    destruct Ht as [_ Ht]. destruct (infix t) as [[[mk l] r]|]; [|by apply yields_ret].
    specialize (Ht mk l r eq_refl). destruct (Z.ltb_spec l b); [by apply yields_ret|lia].
Qed.

Lemma rec_closed ts e fuel s t rest : Bp 0 ts e → holds s (ts ++ t :: rest) → closer t = true →
  length (ts ++ t :: rest) ≤ fuel → yields (rec_bp (P fuel) 0) s (good e (t :: rest)).
Proof. intros Hb Hs Ht. apply (rec_yields 0 ts); [done..|]. by destruct t. Qed.

(** *** Primary expressions *)
Definition Primary (ts : list Token) (e : Expr) : Prop := ∀ fuel s t rest,
  holds s (ts ++ t :: rest) → name_ends t = true → length (ts ++ t :: rest) ≤ S fuel →
  yields (parse_primary dbg tokens names (P fuel)) s (good e (t :: rest)).
Lemma post_primary ts e : Primary ts e → Post ts e.
Proof.
  intros Hp fuel s t rest F Q Hs Ht Hl HF Hk. eapply yields_bind; [by apply (Hp fuel s t rest)|].
  intros e' s' He. apply Hk; [done|]. rewrite length_app in HF. lia.
Qed.

Lemma more_yields us es fuel s close rest : Args us es → holds s (T_Comma :: us ++ close :: rest) → closes close →
  length (us ++ close :: rest) ≤ fuel →
  yields (more tokens close (rec_bp (P fuel) 0)) s (goods es (close :: rest)).
Proof.
  intros Ha Hs Hc Hl. unfold more. pose proof (holds_remaining _ _ Hs) as Hr. unfold remaining in Hr. cbn in Hr.
  apply (Ha fuel s close rest (loop_fuel tokens)); [done..|unfold loop_fuel; lia|done].
Qed.
Lemma until_yields us es fuel s close rest msg : Args us es → holds s (us ++ close :: rest) → closes close →
  length (us ++ close :: rest) ≤ fuel →
  yields (until dbg tokens close msg (rec_bp (P fuel) 0)) s (goods es (close :: rest)).
Proof.
  intros Ha Hs Hc Hl. unfold until. pose proof (holds_remaining _ _ Hs) as Hr. unfold remaining in Hr.
  apply (Ha fuel s close rest (loop_fuel tokens)); [done..|unfold loop_fuel; lia|done].
Qed.
Ltac norm := repeat (cbn [app] in *; progress rewrite <- ?app_assoc in * ); cbn [app] in *.
(** The bounds: the rest of a list of tokens is shorter. *)
Ltac bound := repeat first [progress rewrite ?length_cons in * | progress rewrite ?length_app in *]; lia.
(** An expression up to a closing token. *)
Ltac yexpr H := eapply yields_bind; [eapply (rec_closed _ _ _ _ _ _ H); [eassumption|first [reflexivity|assumption]|bound]|intros ?e1 ?s1 [<- ?Hs1]].

Lemma primary_literal t k : literal_of t = Some k → Primary [t] (bare k).
Proof.
  intros Hk fuel s u rest Hs Hu Hl. norm. unfold parse_primary. ystep. ystep.
  destruct t; try discriminate Hk; injection Hk as <-; unfold literal; ystep; by ystep.
Qed.
Lemma primary_name n : Primary [T_Ident n] (bare (E_Ident n)).
Proof.
  intros fuel s u rest Hs Hu Hl. norm. unfold parse_primary. ystep. ystep. unfold parse_name. ystep. ystep. ystep.
  destruct u; try discriminate Hu; by ystep.
Qed.
Lemma primary_group ts e : Bp 0 ts e → Primary (T_LParen :: ts ++ [T_RParen]) e.
Proof.
  intros He fuel s u rest Hs Hu Hl. norm.
  unfold parse_primary. ystep. ystep. unfold parse_paren. ystep. yexpr He. ystep. ystep. by ystep.
Qed.
Ltac ymore H := eapply yields_bind; [eapply (more_yields _ _ _ _ _ _ H); [eassumption|first [by left|by right]|bound]|intros ?es1 ?s1 [<- ?Hs1]].
Ltac yuntil H := eapply yields_bind; [eapply (until_yields _ _ _ _ _ _ _ H); [eassumption|first [by left|by right]|bound]|intros ?es1 ?s1 [<- ?Hs1]].

Lemma primary_tuple ts e us es : Bp 0 ts e → Args us es →
  Primary (T_LParen :: ts ++ T_Comma :: us ++ [T_RParen]) (bare (E_TupleLit (e :: es))).
Proof.
  intros He Ha fuel s u rest Hs Hu Hl. norm.
  unfold parse_primary. ystep. ystep. unfold parse_paren. ystep. yexpr He. ystep. ymore Ha. ystep. ystep. by ystep.
Qed.
Lemma primary_empty : Primary [T_LBracket; T_RBracket] (bare (E_Array [])).
Proof.
  intros fuel s u rest Hs Hu Hl. norm.
  unfold parse_primary. ystep. ystep. unfold parse_bracket. ystep. ystep. ystep. ystep. by ystep.
Qed.
Lemma y_not {B : Type} s t ts l (f : bool → PM B) Q : holds s (ts ++ l) → starts starter ts → starter t = false →
  yields (f false) s Q → yields (peek_is tokens t ≫= f) s Q.
Proof.
  intros Hs Hst Ht Hf. destruct ts as [|t0 ts]; [done|]. cbn in Hs, Hst. eapply y_peek_is; [exact Hs|].
  by rewrite bool_decide_false by congruence.
Qed.
Lemma more_stop {A} s t l (item : PM A) F close : holds s (t :: l) → t ≠ T_Comma → 0 < F →
  more_loop tokens F close item s = (Ok [], s).
Proof.
  intros Hs Ht HF. destruct F; [lia|]. cbn [more_loop]. unfold mbind, SM_bind.
  rewrite (run_peek_is s T_Comma t l Hs). by rewrite bool_decide_false.
Qed.
Lemma more_none {A} s t l (item : PM A) : holds s (t :: l) → t ≠ T_Comma → ∀ close,
  more tokens close item s = (Ok [], s).
Proof. intros Hs Ht close. eapply more_stop; [exact Hs|done|]. unfold loop_fuel. lia. Qed.
Lemma until_stop {A} s l (item : PM A) F close msg : holds s (close :: l) → 0 < F →
  until_loop dbg tokens F close msg item s = (Ok [], s).
Proof.
  intros Hs HF. destruct F; [lia|]. cbn [until_loop]. unfold mbind, SM_bind.
  rewrite (run_peek_is s close close l Hs). by rewrite bool_decide_true.
Qed.
Lemma primary_singleton ts e : starts starter ts → Bp 0 ts e →
  Primary (T_LBracket :: ts ++ [T_RBracket]) (bare (E_Array [e])).
Proof.
  intros Hst He fuel s u rest Hs Hu Hl. norm.
  unfold parse_primary. ystep. ystep. unfold parse_bracket. ystep.
  eapply y_not; [eassumption..|done|]. yexpr He. ystep.
  eapply yields_step; [by eapply more_none|]. ystep. ystep. by ystep.
Qed.
Lemma primary_array ts e us es : starts starter ts → Bp 0 ts e → Args us es →
  Primary (T_LBracket :: ts ++ T_Comma :: us ++ [T_RBracket]) (bare (E_Array (e :: es))).
Proof.
  intros Hst He Ha fuel s u rest Hs Hu Hl. norm.
  unfold parse_primary. ystep. ystep. unfold parse_bracket. ystep.
  eapply y_not; [eassumption..|done|]. yexpr He. ystep. ymore Ha. ystep. ystep. by ystep.
Qed.

(** A block of steps that puts the flag back. *)
Lemma good_flag e rest a s1 f : good e rest a s1 → good e rest a (mkCursor (cu_pos s1) f).
Proof. done. Qed.
Lemma primary_call n us es : Args us es →
  Primary (T_Ident n :: T_LParen :: us ++ [T_RParen]) (bare (E_Call None n es)).
Proof.
  intros Ha fuel s u rest Hs Hu Hl. norm.
  unfold parse_primary. ystep. ystep. unfold parse_name. ystep. ystep. ystep. unfold parse_call. cbv beta iota.
  apply y_with_no_struct; [|intros; by apply good_flag].
  match goal with H : holds (next s) _ |- _ => pose proof (holds_flag _ false _ H) as Hf end.
  ystep. unfold parse_args. yuntil Ha. ystep. ystep. by ystep.
Qed.
Lemma primary_module_call m n us es : m ∉ enum_names names → Args us es →
  Primary (T_Ident m :: T_ColonColon :: T_Ident n :: T_LParen :: us ++ [T_RParen]) (bare (E_Call (Some m) n es)).
Proof.
  intros Hm Ha fuel s u rest Hs Hu Hl. norm.
  unfold parse_primary. ystep. ystep. unfold parse_name. ystep. ystep. ystep. unfold parse_qualified. ystep.
  rewrite decide_False by done. ystep. apply y_with_no_struct; [|intros; by apply good_flag].
  match goal with H : holds (next (next (next (next s)))) _ |- _ => pose proof (holds_flag _ false _ H) as Hf end.
  unfold parse_args. yuntil Ha. ystep. ystep. by ystep.
Qed.

(** *** Postfix operators *)
Lemma post_step ts e e2 op us (step : nat → Expr → PM Expr) :
  Post ts e → name_ends op = true →
  (∀ fuel e1 s t rest F, erase e1 = e → holds s (op :: us ++ t :: rest) → length (op :: us ++ t :: rest) ≤ S fuel →
    postfix_loop dbg tokens (P fuel) (S F) e1 s = (e' ← step fuel e1; postfix_loop dbg tokens (P fuel) F e') s ∧
    yields (step fuel e1) s (good e2 (t :: rest))) →
  Post (ts ++ op :: us) e2.
Proof.
  intros He Hop Hstep fuel s t rest F Q Hs Ht Hl HF HQ. norm. eapply He; [exact Hs|done|done|done|].
  intros e1 s1 F1 [He1 Hs1] HF1. destruct F1 as [|F1]; [cbn in HF1; lia|].
  destruct (Hstep fuel e1 s1 t rest F1 He1 Hs1 ltac:(bound)) as [Heq Hy].
  cut (yields (e' ← step fuel e1; postfix_loop dbg tokens (P fuel) F1 e') s1 Q).
  { intros (a & s' & E & HQ'). exists a, s'. by rewrite Heq. }
  eapply yields_bind; [exact Hy|]. intros e' s' He'. apply HQ; [done|bound].
Qed.
Lemma loop_step s t l (step : Expr → PM Expr) fuel F e : holds s (t :: l) →
  (match t with
   | T_LBracket => step = parse_index dbg tokens (P fuel)
   | T_Dot => step = parse_dot dbg tokens
   | _ => False end) →
  postfix_loop dbg tokens (P fuel) (S F) e s = (e' ← step e; postfix_loop dbg tokens (P fuel) F e') s.
Proof.
  intros Hs Hstep. cbn [postfix_loop]. unfold mbind at 1, SM_bind at 1. rewrite (run_peek s t l Hs).
  by destruct t; try done; subst.
Qed.
Lemma post_index ts e us k : Post ts e → Bp 0 us k → Post (ts ++ T_LBracket :: us ++ [T_RBracket]) (bare (E_Index e k)).
Proof.
  intros He Hk. apply (post_step ts e _ T_LBracket (us ++ [T_RBracket]) (λ fuel, parse_index dbg tokens (P fuel))); [done..|].
  intros fuel e1 s t rest F <- Hs Hl. split; [by eapply loop_step|]. norm. unfold parse_index. ystep.
  match goal with H : holds (next s) _ |- _ => pose proof (holds_flag _ false _ H) as Hf end.
  eapply yields_bind; [apply y_with_no_struct; [eapply (rec_closed _ _ _ _ _ _ Hk); [exact Hf|done|bound]
    |intros; by apply good_flag]|].
  intros k' s1 [<- Hs1]. ystep. ystep. by apply yields_ret.
Qed.
Lemma post_field ts e f : Post ts e → Post (ts ++ [T_Dot; T_Ident f]) (bare (E_Field e f)).
Proof.
  intros He. apply (post_step ts e _ T_Dot [T_Ident f] (λ _, parse_dot dbg tokens)); [done..|].
  intros fuel e1 s t rest F <- Hs Hl. split; [by eapply loop_step|]. norm. unfold parse_dot.
  ystep. ystep. ystep. ystep. by apply yields_ret.
Qed.
Lemma post_tuple_index ts e n : Post ts e → in_u 64 n = true → Post (ts ++ [T_Dot; T_Int n]) (bare (E_TupleIndex e n)).
Proof.
  intros He Hn. apply (post_step ts e _ T_Dot [T_Int n] (λ _, parse_dot dbg tokens)); [done..|].
  intros fuel e1 s t rest F <- Hs Hl. split; [by eapply loop_step|]. norm. unfold parse_dot.
  ystep. ystep. cbv beta iota. rewrite Hn. ystep. ystep. by apply yields_ret.
Qed.

(** *** Prefix and infix operators *)
Lemma pre_post ts e : starts no_sign ts → Post ts e → Pre ts e.
Proof.
  intros Hst He fuel s t rest Hs Ht Hl. unfold parse_prefix. destruct ts as [|t0 ts]; [done|]. cbn [app] in Hs.
  ystep.
  assert (Hp : yields (parse_postfix dbg tokens names (P fuel)) s (good e (t :: rest))).
  { unfold parse_postfix. eapply He; [exact Hs|by destruct t|done| |].
    - pose proof (holds_remaining _ _ Hs) as Hr. unfold remaining in Hr. unfold loop_fuel. cbn [app] in *. lia.
    - intros e' s' F' [He' Hs'] HF'. destruct F' as [|F']; [cbn in HF'; lia|]. cbn [postfix_loop]. ystep.
      destruct t; try discriminate Ht; by apply yields_ret. }
  cbn in Hst. by destruct t0.
Qed.
Lemma pre_unary op ts e : Pre ts e → Pre (prefix_of op :: ts) (bare (E_Unary op e)).
Proof.
  intros He fuel s t rest Hs Ht Hl. cbn [app] in *.
  assert (Hrec : holds (next s) (ts ++ t :: rest) → yields (rec_prefix (P fuel)) (next s) (good e (t :: rest))).
  { intros Hs'. destruct fuel as [|fuel]; [bound|]. cbn [parsers rec_prefix]. apply He; [done..|bound]. }
  assert (Hu : yields (parse_unary tokens (P fuel) op) s (good (bare (E_Unary op e)) (t :: rest))).
  { unfold parse_unary. ystep. ystep. eapply yields_bind; [by apply Hrec|]. intros e' s' [<- Hs']. by apply yields_ret. }
  unfold parse_prefix. ystep. by destruct op.
Qed.
Lemma bp_pre b ts e : Pre ts e → Bp b ts e.
Proof.
  intros He c fuel s t rest F Q Hc Hs Ht Hl HF HQ. eapply yields_bind.
  - apply He; [exact Hs|apply Ht|done].
  - intros e' s' Hg. apply HQ; [done|bound].
Qed.
Lemma bp_infix b t mk l r ts1 e1 ts2 e2 : infix t = Some (mk, l, r) → (b <= l)%Z →
  Bp l ts1 e1 → Bp r ts2 e2 → Bp b (ts1 ++ t :: ts2) (bare (mk e1 e2)).
Proof.
  intros Ht Hb H1 H2 c fuel s u rest F Q Hc Hs Hu Hl HF HQ. norm.
  destruct (infix_facts _ _ _ _ Ht) as (Hft & Hne & -> & Hl1).
  eapply (H1 c); [lia|exact Hs|done|done|done|]. intros e1' s1 F1 [<- Hs1] HF1.
  destruct F1 as [|F1]; [cbn in HF1; lia|]. cbn [bp_loop]. ystep. cbv beta. rewrite Ht. cbv beta iota.
  destruct (Z.ltb_spec l c); [lia|]. ystep.
  eapply yields_bind.
  - eapply (rec_yields (l + 1) ts2); [exact H2|eassumption| |bound].
    split; [apply Hu|]. intros mk' l' r' E. destruct Hu as [_ Hu]. specialize (Hu _ _ _ E). lia.
  - intros e2' s2 [<- Hs2]. apply HQ; [|bound]. split; [|done]. destruct t; try discriminate Ht; injection Ht as <- _ _; done.
Qed.

(** *** Arguments *)
Lemma args_nil_ok : Args [] [].
Proof.
  intros fuel s close rest F Hc Hl HF. destruct F as [|F]; [lia|]. split; intros Hs.
  - intros msg. cbn [until_loop app] in *. ystep. by apply yields_ret.
  - cbn [more_loop app] in *. destruct Hc as [-> | ->]; ystep; ystep; ystep; apply yields_ret; by split.
Qed.
Lemma args_one_ok ts e : starts starter ts → Bp 0 ts e → Args ts [e].
Proof.
  intros Hst He fuel s close rest F Hc Hl HF. destruct F as [|F]; [bound|].
  assert (Hcl : starter close = false ∧ closer close = true ∧ close ≠ T_Comma) by (by destruct Hc as [-> | ->]).
  destruct Hcl as (Hs1 & Hs2 & Hs3). split; intros Hs.
  - intros msg. cbn [until_loop]. eapply y_not; [eassumption..|].
    eapply yields_bind; [eapply (rec_closed _ _ _ _ _ _ He); [eassumption|done|bound]|]. intros e1 s1 [<- He1].
    eapply y_peek_is; [eassumption|]. rewrite bool_decide_true by done. eapply yields_step; [done|].
    eapply yields_step; [eapply until_stop; [exact He1|bound]|]. by apply yields_ret.
  - cbn [more_loop]. ystep. ystep. eapply y_not; [eassumption..|].
    eapply yields_bind; [eapply (rec_closed _ _ _ _ _ _ He); [eassumption|done|bound]|]. intros e1 s1 [<- He1].
    eapply yields_step; [eapply more_stop; [exact He1|done|bound]|]. by apply yields_ret.
Qed.
Lemma args_cons_ok ts e us es : starts starter ts → Bp 0 ts e → Args us es → Args (ts ++ T_Comma :: us) (e :: es).
Proof.
  intros Hst He Ha fuel s close rest F Hc Hl HF. destruct F as [|F]; [lia|]. norm.
  assert (Hcl : starter close = false ∧ T_Comma ≠ close) by (by destruct Hc as [-> | ->]).
  destruct Hcl as (Hs1 & Hs2).
  assert (Hrest : length (us ++ close :: rest) ≤ fuel ∧ length (us ++ close :: rest) < F) by (split; bound).
  destruct Hrest as [Hlr HFr]. split; intros Hs.
  - intros msg. cbn [until_loop]. eapply y_not; [eassumption..|]. yexpr He.
    eapply y_peek_is; [eassumption|]. rewrite bool_decide_false by done.
    ystep. match goal with H : holds _ (us ++ _) |- _ => rename H into Hu end.
    eapply yields_bind; [by apply (Ha fuel _ close rest F)|]. intros es1 s2 [<- Hs3]. by apply yields_ret.
  - cbn [more_loop]. ystep. ystep. eapply y_not; [eassumption..|]. yexpr He.
    eapply yields_bind; [by apply (Ha fuel _ close rest F)|]. intros es1 s2 [<- Hs3]. by apply yields_ret.
Qed.

(** ** Every spelling is read back *)
Lemma spelled_ok :
  (∀ ts e, spells_post (enum_names names) ts e → Post ts e) ∧
  (∀ ts e, spells_pre (enum_names names) ts e → Pre ts e) ∧
  (∀ b ts e, spells_bp (enum_names names) b ts e → Bp b ts e) ∧
  (∀ ts es, spells_args (enum_names names) ts es → Args ts es).
Proof.
  destruct (spells_start (enum_names names)) as (S1 & S2 & S3 & S4).
  apply (spells_ind (enum_names names) (λ ts e _, Post ts e) (λ ts e _, Pre ts e)
    (λ b ts e _, Bp b ts e) (λ ts es _, Args ts es)); intros.
  - by apply post_primary, primary_literal.
  - apply post_primary, primary_name.
  - by apply post_primary, primary_group.
  - by apply post_primary, primary_tuple.
  - apply post_primary, primary_empty.
  - apply post_primary, primary_singleton; eauto.
  - apply post_primary, primary_array; eauto.
  - by apply post_primary, primary_call.
  - by apply post_primary, primary_module_call.
  - by apply post_index.
  - by apply post_field.
  - by apply post_tuple_index.
  - apply pre_post; eauto.
  - by apply pre_unary.
  - by apply bp_pre.
  - by eapply bp_infix.
  - apply args_nil_ok.
  - apply args_one_ok; eauto.
  - apply args_cons_ok; eauto.
Qed.

Lemma spelled_expr b ts e fuel s t rest : spells_bp (enum_names names) b ts e → holds s (ts ++ t :: rest) →
  stops b t → length (ts ++ t :: rest) ≤ fuel → yields (rec_bp (P fuel) b) s (good e (t :: rest)).
Proof. destruct spelled_ok as (_ & _ & Hb & _). intros He. by apply rec_yields, Hb. Qed.
End runs.

Lemma spelled_parse dbg tokens names b ts e close rest : spells_bp (enum_names names) b ts e →
  stops b close → sp_token <$> tokens = ts ++ close :: rest →
  ∃ e' s', parse_expr_bp dbg tokens names (top dbg tokens names) b parser_new = (Ok e', s') ∧
    erase e' = e ∧ sp_token <$> drop (cu_pos s') tokens = close :: rest.
Proof.
  intros He Hc Ht.
  apply (spelled_expr dbg tokens names b ts e (S (loop_fuel tokens)) parser_new close rest); [done..|].
  apply (f_equal length) in Ht. rewrite length_fmap in Ht. unfold loop_fuel. lia.
Qed.



(** ** A spelling: [a + 2 * -(b - 1)[0] == c.0] *)
Definition sample_spelling : list Token :=
  [T_Ident (str "a"); T_Plus; T_Int 2; T_Star; T_Minus; T_LParen; T_Ident (str "b"); T_Minus; T_Int 1; T_RParen;
   T_LBracket; T_Int 0; T_RBracket; T_EqEq; T_Ident (str "c"); T_Dot; T_Int 0].
Definition sample_spelled : Expr :=
  bare (E_Binary Eq
    (bare (E_Binary Add (bare (E_Ident (str "a")))
      (bare (E_Binary Mul (bare (E_Int 2))
        (bare (E_Unary Neg (bare (E_Index
          (bare (E_Binary Sub (bare (E_Ident (str "b"))) (bare (E_Int 1)))) (bare (E_Int 0))))))))))
    (bare (E_TupleIndex (bare (E_Ident (str "c"))) 0))).
Definition no_names : Names := mkNames ∅ ∅ ∅.
Ltac spell_leaf := apply spell_pre, spell_post; first [by apply spell_literal | apply spell_name].
Lemma sample_spells enums : spells_bp enums 0 sample_spelling sample_spelled.
Proof.
  apply (spell_infix enums 0 T_EqEq (E_Binary Eq) 5 6 (take 13 sample_spelling) _ (drop 14 sample_spelling));
    [done|done| |].
  - apply (spell_infix enums 5 T_Plus (E_Binary Add) 17 18 [T_Ident (str "a")] _ (drop 2 (take 13 sample_spelling)));
      [done|done|spell_leaf|].
    apply (spell_infix enums 18 T_Star (E_Binary Mul) 19 20 [T_Int 2] _ (drop 4 (take 13 sample_spelling)));
      [done|done|spell_leaf|].
    apply spell_pre, (spell_unary enums Neg), spell_post.
    apply (spell_index enums [T_LParen; T_Ident (str "b"); T_Minus; T_Int 1; T_RParen] _ [T_Int 0]); [|spell_leaf].
    apply (spell_group enums [T_Ident (str "b"); T_Minus; T_Int 1]).
    apply (spell_infix enums 0 T_Minus (E_Binary Sub) 17 18 [T_Ident (str "b")] _ [T_Int 1]); [done|done|spell_leaf..].
  - apply spell_pre, spell_post, (spell_tuple_index enums [T_Ident (str "c")]); [apply spell_name|done].
Qed.


