(* ===== verification/FrontWitness.v ===== *)
(** The theorems of the front end at concrete sources, and the places where the
    effect classifier and the modifier expansion do not look. *)
From S2P Require Import Prelude Bytes Values JsonText JsonTextFacts Display Ops Bytecode Ast.
From S2P Require Import Lexer LexerFacts LexerSpell Effects EffectsFacts Modifier.
From S2P Require Import ModifierFacts Affine AffineFacts Parser ParserFacts ParserSpell.
(** ** The lexer *)
Definition sample_tokens : list (bytes * Token) :=
  [([32], T_Pure); ([10], T_Fn); ([32; 9], T_Ident (str "f_1")); ([32], T_LParen); ([13; 10], T_U128 7);
   ([32], T_DotDotEq); ([32], T_Float 4609434218613702656); ([32], T_Str [34; 195; 169; 10; 92]);
   ([32], T_I32 2147483647); ([32], T_Slash); ([32], T_DollarDollar)].


Definition tokens_of (o : outcome (list Spanned)) : option (list Token) :=
  match o with Ok l => Some (sp_token <$> l) | _ => None end.

(** A tuple index after a point is no float; a literal that overflows its width
    and a string without an end are errors. *)
Example lexer_cases :
  tokens_of (tokenize (H := bits_text) (str "p.0.1")) =
    Some [T_Ident (str "p"); T_Dot; T_Int 0; T_Dot; T_Int 1; T_Eof] ∧
  tokenize (H := bits_text) (str "x = 4294967296u32") =
    Err (lex_err "invalid u32 literal '4294967296'" 4 17) ∧
  tokenize (H := bits_text) [97; 34; 98] = Err (lex_err "unterminated string literal" 1 3).
Proof. repeat split; vm_compute; reflexivity. Qed.

(** ** Sources *)
Definition ex (k : ExprKind) : Expr := mkExpr k Span_default.
Definition var (name : bytes) : Expr := ex (E_Ident name).
Definition call (name : bytes) (args : list Expr) : Expr := ex (E_Call None name args).
Definition block (ss : list Stmt) (t : option Expr) : Block := mkBlock ss t Span_default.
Definition ret (e : Expr) : Stmt := S_Return (Some e) Span_default.
Definition set_to (name : bytes) (e : Expr) : Stmt := S_Assign (var name) e Span_default.

Definition fn_of (name : bytes) (is_view is_pure : bool) (mods : list (bytes * list Expr)) (body : Block) : FnDef :=
  mkFnDef name [] TInt body false false is_view is_pure mods Span_default.
Definition module_of (imports : list bytes) (states : list bytes) (ms : list ModifierDecl) (fs : list FnDef) :
    SrcModule :=
  mkSrcModule None ((λ n, mkImportDecl n [] TInt Span_default) <$> imports)
    ((λ n, mkStateDecl n TInt Span_default) <$> states) fs [] [] ms [] [] [] [] [].

(** A reader, a pair of mutually recursive functions of which one writes, and a
    function of its arguments. *)
Definition sample_module : SrcModule := module_of [] [str "n"] []
  [fn_of (str "get") true false [] (block [ret (var (str "n"))] None);
   fn_of (str "ping") false false [] (block [ret (call (str "pong") [])] None);
   fn_of (str "pong") false false []
     (block [set_to (str "n") (ex (E_Int 1)); S_Expr (call (str "get") []); ret (call (str "ping") [])] None);
   fn_of (str "one") false true [] (block [ret (call (str "len") [ex (E_Array [])])] None)].

Definition sample_effects : gmap bytes EffectClass :=
  {[str "get" := ReadOnly; str "ping" := ReadWrite; str "pong" := ReadWrite; str "one" := Pure]}.

Lemma sample_nodup : NoDup (fd_name <$> sm_functions sample_module).
Proof. apply (bool_decide_unpack _). vm_compute. exact I. Qed.

Lemma sample_classified : classify_with_externals_and_iface_names sample_module ∅ ∅ = Ok sample_effects.
Proof. vm_compute. reflexivity. Qed.

Lemma classify_least_witness :
  NoDup (fd_name <$> sm_functions sample_module) ∧
  ∃ E, classify_with_externals_and_iface_names sample_module ∅ ∅ = Ok E ∧
    (∀ n, is_Some (E !! n) ↔ n ∈ fd_name <$> sm_functions sample_module) ∧
    (∀ f, f ∈ sm_functions sample_module →
      E !! fd_name f = Some (classify_fn (eff_ctx sample_module ∅ ∅) E f)) ∧
    (∀ U, (∀ n, n ∉ fd_name <$> sm_functions sample_module → U !! n = None) →
      bounds (eff_ctx sample_module ∅ ∅) (sm_functions sample_module) U → effects_le E U).
Proof. split; [exact sample_nodup|]. apply (classify_least sample_module ∅ ∅). exact sample_nodup. Defined.


(** Two functions of one name never settle: the pass gives the name one class and
    then the other. *)
Example classify_needs_distinct_names :
  let m := module_of [] [str "n"] []
    [fn_of (str "f") false false [] (block [ret (ex (E_Int 1))] None);
     fn_of (str "f") false false [] (block [ret (var (str "n"))] None)] in
  classify m = OutOfFuel ∧
  classify_pass (eff_ctx m ∅ ∅) (sm_functions m) {[str "f" := ReadOnly]} = ({[str "f" := ReadOnly]}, true).
Proof. split; vm_compute; reflexivity. Qed.

(** ** Where the classifier does not look *)

(** [state n; pure fn f() -> int { n }]: the tail of a body is not classified, so
    a function that reads state passes as [pure]; so does one that calls a host
    import there, or in the limit of a loop. *)
Theorem pure_tail_reads_state :
  let reads := module_of [] [str "n"] [] [fn_of (str "f") false true [] (block [] (Some (var (str "n"))))] in
  let logs := module_of [str "log"] [] []
    [fn_of (str "f") false true [] (block [] (Some (call (str "log") [])))] in
  let limits := module_of [str "log"] [] []
    [fn_of (str "f") false true []
      (block [S_For (str "x") (ex (E_Array [])) (Some (call (str "log") [])) (block [] None) Span_default] None)] in
  let passes m := match classify m with Ok E => verify_purity_annotations m E | _ => Panic end in
  passes reads = Ok tt ∧ passes logs = Ok tt ∧ passes limits = Ok tt.
Proof. repeat split; vm_compute; reflexivity. Qed.

(** ** Where a modifier does not wrap *)
Definition placeholder : Stmt := S_Placeholder Span_default.
Definition lock_modifier : ModifierDecl :=
  mkModifierDecl (str "lock") []
    (block [set_to (str "locked") (ex (E_Bool true)); placeholder; set_to (str "locked") (ex (E_Bool false))] None)
    Span_default.

(** [modifier lock() { locked = true; _; locked = false; }] around a body that
    ends in a tail expression: the tail is evaluated after the lock is released;
    the statement [return pay();] is inside it. *)
Theorem tail_outside_modifier :
  let pay := call (str "pay") [] in
  let expanded body := bl_stmts <$> (head (fd_body <$> match expand (module_of [] [str "locked"] [lock_modifier]
    [fn_of (str "f") false false [(str "lock", [])] body]) with Ok m => sm_functions m | _ => [] end)) in
  let tail body := bl_tail <$> (head (fd_body <$> match expand (module_of [] [str "locked"] [lock_modifier]
    [fn_of (str "f") false false [(str "lock", [])] body]) with Ok m => sm_functions m | _ => [] end)) in
  let lock := set_to (str "locked") (ex (E_Bool true)) in
  let unlock := set_to (str "locked") (ex (E_Bool false)) in
  expanded (block [ret pay] None) = Some [lock; ret pay; unlock] ∧
  expanded (block [] (Some pay)) = Some [lock; unlock] ∧ tail (block [] (Some pay)) = Some (Some pay).
Proof. repeat split; vm_compute; reflexivity. Qed.

(** A parameter in the limit of a loop is not replaced, and a [_;] in the body of
    a range loop is neither filled nor found. *)
Theorem modifier_blind_spots :
  let m := mkModifierDecl (str "m") [mkParam (str "k") TInt Span_default]
    (block [S_For (str "x") (var (str "xs")) (Some (var (str "k"))) (block [] None) Span_default;
            S_ForRange (str "i") (ex (E_Int 0)) (var (str "k")) false (block [placeholder] None) Span_default;
            placeholder] None) Span_default in
  (match expand (module_of [] [] [m] [fn_of (str "f") false false [(str "m", [ex (E_Int 3)])] (block [] None)]) with
   | Ok m' => bl_stmts ∘ fd_body <$> sm_functions m' | _ => [] end) =
  [[S_For (str "x") (var (str "xs")) (Some (var (str "k"))) (block [] None) Span_default;
       S_ForRange (str "i") (ex (E_Int 0)) (ex (E_Int 3)) false (block [placeholder] None) Span_default]].
Proof. vm_compute. reflexivity. Qed.

(** * The ownership analysis on concrete functions: what it accepts, what it
    rejects, and the moves it does not see. *)
#[local] Open Scope nat_scope.

Definition param (name : bytes) (ty : Ty) : Param := mkParam name ty Span_default.
Definition fn_on (ps : list Param) (body : Block) : FnDef :=
  mkFnDef (str "f") ps TInt body false false false false [] Span_default.
Definition checked (ps : list Param) (ss : list Stmt) (t : option Expr) : outcome unit :=
  check (module_of [] [] [] [fn_on ps (block ss t)]).
Definition let_ (name : bytes) (ty : option Ty) (e : Expr) : Stmt := S_Let name ty e Span_default.

Definition r : bytes := str "r".
Definition q : bytes := str "q".
Definition take (e : Expr) : Stmt := S_Expr (call (str "unwrap") [e]).
Definition one_of (a b : Block) : Stmt := S_If (mkIf (ex (E_Bool true)) a (ElseBlock b) Span_default).

(** [fn f(r: resource) { let q = resource(1); if true { unwrap(r); } else
    { unwrap(r); } return unwrap(q); }]: each is used once on each path. *)
Definition careful_rest : list Stmt :=
  [one_of (block [take (var r)] None) (block [take (var r)] None); ret (call (str "unwrap") [var q])].
Definition careful : FnDef :=
  fn_on [param r TResource]
    (block (let_ q None (call (str "resource") [ex (E_Int 1)]) :: careful_rest) None).
Definition careful_module : SrcModule := module_of [] [] [] [careful].

Lemma plain_take x y : plain_s x (take (var y)).
Proof.
  constructor; cbn; [done| |constructor..].
  repeat first [done | constructor].
Qed.
Lemma careful_plain x : Forall (plain_s x) careful_rest.
Proof.
  constructor; [|constructor; [|constructor]].
  - constructor; cbn; [done|constructor|constructor|constructor|].
    constructor; [|constructor]. constructor; cbn; [| |done| |constructor].
    + repeat first [done | constructor].
    + constructor; [|constructor]. constructor; [apply plain_take|constructor].
    + constructor; [|constructor]. split; [|done].
      constructor; [|constructor]. constructor; [apply plain_take|constructor].
  - constructor; cbn; [done| |constructor..]. repeat first [done | constructor].
Qed.

Lemma careful_params : Forall (plain_s r) (bl_stmts (fd_body careful)).
Proof.
  constructor; [|apply careful_plain]. constructor; cbn; [by apply bool_decide_eq_true| |constructor..].
  repeat first [done | constructor].
Qed.


(** What the analysis rejects: a second use, a use after a branch that moved. *)
Definition rejected (o : outcome unit) : bool :=
  match o with Err e => bool_decide (err_kind e = TypeError) | _ => false end.
Example second_use_rejected :
  rejected (checked [param r TResource] [take (var r); take (var r)] None) = true ∧
  rejected (checked [param r TResource]
    [one_of (block [take (var r)] None) (block [] None); take (var r)] None) = true ∧
  rejected (checked [param r TResource] [S_Expr (ex (E_Binary Add (var r) (var r)))] None) = true.
Proof. repeat split; vm_compute; reflexivity. Qed.

(** ** Moves the analysis does not see *)

(** A body of a loop is analysed once and its moves are forgotten: a resource is
    moved on every round, and again after the loop. *)
Theorem loop_moves_forgotten :
  let loop := S_While (ex (E_Bool true)) (block [take (var r)] None) Span_default in
  checked [param r TResource] [loop] None = Ok tt ∧
  checked [param r TResource] [loop; take (var r)] None = Ok tt ∧
  checked [param r TResource]
    [S_ForRange (str "i") (ex (E_Int 0)) (ex (E_Int 9)) false (block [take (var r)] None) Span_default] None = Ok tt.
Proof. repeat split; vm_compute; reflexivity. Qed.

(** The tail of a body is not analysed, nor the components of a json literal; a
    resource in an array or a tuple is a binding that copies. *)
Theorem moves_not_seen :
  checked [param r TResource] [take (var r)] (Some (call (str "unwrap") [var r])) = Ok tt ∧
  checked [param r TResource] [S_Expr (ex (E_JsonArray [var r; var r])); take (var r)] None = Ok tt ∧
  checked [param r TResource]
    [let_ q None (ex (E_Array [var r])); S_Expr (var q); S_Expr (var q)] None = Ok tt ∧
  checked [param r TResource]
    [let_ q None (ex (E_TupleLit [var r]));
     take (ex (E_TupleIndex (var q) 0)); take (ex (E_TupleIndex (var q) 0))] None = Ok tt.
Proof. repeat split; vm_compute; reflexivity. Qed.

(** The root of a field access is looked up from the outermost scope: with a moved
    outer binding of the name, the field of the live inner one is rejected. *)
Theorem field_of_shadowed_binding :
  let inner := S_If (mkIf (ex (E_Bool true))
    (block [let_ r None (ex (E_Int 1)); S_Expr (ex (E_Field (var r) (str "x")))] None) ElseNone Span_default) in
  rejected (checked [param r TResource] [take (var r); inner] None) = true ∧
  checked [param r TResource] [inner] None = Ok tt.
Proof. split; vm_compute; reflexivity. Qed.

(** The index variable of a parallel loop is not bound in its body. *)
Theorem parallel_index_rejected :
  let loop body := S_ParallelForTo (str "id") (Some (str "i")) (ex (E_Array [])) (ex (E_Array [])) body Span_default in
  rejected (checked [] [loop (block [S_Expr (var (str "i"))] None)] None) = true ∧
  checked [] [loop (block [S_Expr (var (str "id"))] None)] None = Ok tt.
Proof. split; vm_compute; reflexivity. Qed.

(** The branches of a conditional expression are analysed one after the other: a
    move in each is rejected, where the conditional statement is accepted. *)
Theorem branches_of_value_rejected :
  let use := block [take (var r)] None in
  let arm n := mkArm (EnumPattern (str "E") n []) (call (str "unwrap") [var r]) Span_default in
  rejected (checked [param r TResource] [S_Expr (ex (E_If (ex (E_Bool true)) use (ElseBlock use)))] None) = true ∧
  rejected (checked [param r TResource]
    [S_Expr (ex (E_Match (ex (E_Bool true)) [arm (str "A"); arm (str "B")]))] None) = true ∧
  checked [param r TResource] [one_of use use] None = Ok tt.
Proof. repeat split; vm_compute; reflexivity. Qed.

(** ** The parser *)
Definition no_debug (t : Token) : bytes := [].
Definition parse_source (s : string) : outcome SrcModule :=
  ts ← tokenize (H := bits_text) (str s); parse no_debug ts.
(** The value that the first function of a source returns. *)
Definition returned (o : outcome SrcModule) : option Expr :=
  match o with
  | Ok m => match sm_functions m with
            | f :: _ => match bl_tail (fd_body f) with Some e => Some (erase e) | None => None end
            | [] => None
            end
  | _ => None
  end.
Definition message (o : outcome SrcModule) : option bytes :=
  match o with Err e => Some (str (err_msg e)) | _ => None end.

(** Operators of one power associate to the left; a comparison and a shift bind
    weaker than a sum; the pipe has the power of [||], so that [a |> f || b] is
    [(a |> f) || b]. *)
Example precedence_cases :
  returned (parse_source "fn f() { a - b - c }") =
    Some (ex (E_Binary Sub (ex (E_Binary Sub (var (str "a")) (var (str "b")))) (var (str "c")))) ∧
  returned (parse_source "fn f() { a << 1 + b == -c.0 }") =
    Some (ex (E_Binary Eq (ex (E_Binary Shl (var (str "a")) (ex (E_Binary Add (ex (E_Int 1)) (var (str "b"))))))
      (ex (E_Unary Neg (ex (E_TupleIndex (var (str "c")) 0)))))).
Proof. split; vm_compute; reflexivity. Qed.
Example pipe_binds_like_or :
  returned (parse_source "fn f() { a |> g || b }") =
    Some (ex (E_Binary Or (ex (E_Pipe (var (str "a")) (var (str "g")))) (var (str "b")))) ∧
  returned (parse_source "fn f() { a || b |> g }") =
    Some (ex (E_Pipe (ex (E_Binary Or (var (str "a")) (var (str "b")))) (var (str "g")))).
Proof. split; vm_compute; reflexivity. Qed.

(** A struct literal within parentheses or an array in a condition is not seen;
    within the arguments of a call it is. *)
Example literal_in_condition :
  message (parse_source "struct P { x: i64 } fn f() { if (P { x: 1 }).x == 1 { } }") =
    Some (str "expected ')' (got )") ∧
  message (parse_source "struct P { x: i64 } fn f() { for p in [P { x: 1 }] { } }") =
    Some (str "expected ']' (got )") ∧
  message (parse_source "struct P { x: i64 } fn f() { if g(P { x: 1 }) { } }") = None.
Proof. repeat split; vm_compute; reflexivity. Qed.

(** From the source text: a pure function that reads a state passes the front end. *)
Example pure_reads_state :
  (m ← parse_source "state n: i64; pure fn f() -> i64 { n }";
   m' ← expand m;
   E ← classify m';
   verify_purity_annotations m' E) = Ok tt.
Proof. vm_compute. reflexivity. Qed.
