(* ===== verification/Prefetch.v ===== *)
(** Read prefetching ([crates/rend/src/prefetch.rs]): which state maps a loop
    reads at its variable, so that the compiler can warm the read cache before
    the loop. *)
From S2P Require Import Prelude Bytes Values Display Ops Bytecode Ast.

(** ** Summaries of functions *)
Record MapReadSummary := mkSummary { ms_state_name : bytes; ms_param_idx : nat }.
Definition FnSummaries := gmap bytes MapReadSummary.

Definition is_map_state (states : gmap bytes Ty) (name : bytes) : bool :=
  match states !! name with Some (TMap _ _) => true | _ => false end.

(** [return state_map[p];] is the whole body. *)
Definition single_map_read (f : FnDef) (states : gmap bytes Ty) : option MapReadSummary :=
  match bl_stmts (fd_body f) with
  | [S_Return (Some (mkExpr (E_Index (mkExpr (E_Ident state_name) _) key) _)) _] =>
      if is_map_state states state_name then
        match key with
        | mkExpr (E_Ident key_name) _ =>
            match list_find (λ p, pm_name p = key_name) (fd_params f) with
            | Some (param_idx, _) => Some (mkSummary state_name param_idx)
            | None => None
            end
        | _ => None
        end
      else None
  | _ => None
  end.

Definition summarize_fns (m : SrcModule) (states : gmap bytes Ty) : FnSummaries :=
  foldl (λ out f,
    match single_map_read f states with
    | Some summary => <[fd_name f := summary]> out
    | None => out
    end) ∅ (sm_functions m).

(** ** Scanning a loop *)

(** The lists [found] and [seen] of the scan. *)
Record Scan := mkScan { sc_found : list bytes; sc_seen : gset bytes }.
Definition scan_new : Scan := mkScan [] ∅.
(** [if seen.insert(name) { found.push(name) }]. *)
Definition note (name : bytes) (s : Scan) : Scan :=
  if decide (name ∈ sc_seen s) then s else mkScan (sc_found s ++ [name]) ({[name]} ∪ sc_seen s).

Section scan.
Context (iter_var : bytes) (states : gmap bytes Ty) (summaries : FnSummaries).

(** [state_map[iter_var]]. *)
Definition note_index (target key : Expr) (s : Scan) : Scan :=
  match target, key with
  | mkExpr (E_Ident state_name) _, mkExpr (E_Ident key_name) _ =>
      if bool_decide (key_name = iter_var) && is_map_state states state_name then note state_name s else s
  | _, _ => s
  end.
(** [f(iter_var)] for a function with a summary. *)
Definition note_call (name : bytes) (args : list Expr) (s : Scan) : Scan :=
  match summaries !! name with
  | Some summary =>
      match args !! ms_param_idx summary with
      | Some (mkExpr (E_Ident arg_name) _) =>
          if decide (arg_name = iter_var) then note (ms_state_name summary) s else s
      | _ => s
      end
  | None => s
  end.

(** Clauses are scanned until one binds the variable again. *)
Section clauses.
Context (scan : Expr → Scan → Scan).
Fixpoint scan_clauses (clauses : list CompClause) (s : Scan) : Scan :=
  match clauses with
  | [] => s
  | C_For var iter :: rest =>
      let s1 := scan iter s in if decide (var = iter_var) then s1 else scan_clauses rest s1
  | C_If cond :: rest => scan_clauses rest (scan cond s)
  end.
End clauses.

Fixpoint scan_expr (e : Expr) (s : Scan) {struct e} : Scan :=
  match e with mkExpr k _ =>
  match k with
  | E_Index target key => scan_expr key (scan_expr target (note_index target key s))
  | E_Call None name args => foldl (λ s a, scan_expr a s) (note_call name args s) args
  | E_Binary _ lhs rhs => scan_expr rhs (scan_expr lhs s)
  | E_Unary _ operand => scan_expr operand s
  | E_Field target _ => scan_expr target s
  | E_Array elems | E_SetLit elems => foldl (λ s e, scan_expr e s) s elems
  | E_ArrayAlloc _ len => scan_expr len s
  | E_Reserve count _ => scan_expr count s
  | E_ExplicitLiteral inner => scan_expr inner s
  | E_DictLit pairs => foldl (λ s p, match p with (k, v) => scan_expr v (scan_expr k s) end) s pairs
  | E_StructLit _ fields => foldl (λ s p, match p with (_, e) => scan_expr e s end) s fields
  | E_Pipe head step => scan_expr step (scan_expr head s)
  | E_Call (Some _) _ args => foldl (λ s a, scan_expr a s) s args
  | E_DynCall _ _ args _ _ => foldl (λ s a, scan_expr a s) s args
  | E_ListComp mapper clauses | E_SetComp mapper clauses =>
      scan_clauses (λ e s, scan_expr e s) clauses (scan_expr mapper s)
  | E_DictComp key value clauses =>
      scan_clauses (λ e s, scan_expr e s) clauses (scan_expr value (scan_expr key s))
  | E_TupleLit elems => foldl (λ s e, scan_expr e s) s elems
  | E_TupleIndex target _ => scan_expr target s
  | E_EnumCtor _ _ args => foldl (λ s a, scan_expr a s) s args
  | E_Match scrut arms =>
      foldl (λ s a, match a with mkArm _ body _ => scan_expr body s end) (scan_expr scrut s) arms
  | E_Block (mkBlock ss t _) =>
      let s1 := foldl (λ s st, scan_stmt st s) s ss in
      match t with Some t => scan_expr t s1 | None => s1 end
  | E_If cond (mkBlock ss t _) else_branch =>
      let s1 := foldl (λ s st, scan_stmt st s) (scan_expr cond s) ss in
      let s2 := match t with Some t => scan_expr t s1 | None => s1 end in
      match else_branch with
      | ElseNone => s2
      | ElseBlock (mkBlock ss' t' _) =>
          let s3 := foldl (λ s st, scan_stmt st s) s2 ss' in
          match t' with Some t => scan_expr t s3 | None => s3 end
      | ElseIf inner => scan_if inner s2
      end
  | E_Int _ | E_UInt _ | E_Float _ | E_JsonNull | E_I32 _ | E_U32 _ | E_U64 _ | E_U128 _
  | E_Bool _ | E_Str _ | E_Ident _ | E_Prev => s
  | E_JsonObject pairs => foldl (λ s p, match p with (_, v) => scan_expr v s end) s pairs
  | E_JsonArray items => foldl (λ s v, scan_expr v s) s items
  end end
with scan_body (b : Block) (s : Scan) {struct b} : Scan :=
  match b with mkBlock ss _ _ => foldl (λ s st, scan_stmt st s) s ss end
with scan_stmt (stmt : Stmt) (s : Scan) {struct stmt} : Scan :=
  match stmt with
  | S_Let _ _ value _ => scan_expr value s
  | S_Assign target value _ => scan_expr value (scan_expr target s)
  | S_Return (Some e) _ => scan_expr e s
  | S_Return None _ => s
  | S_If if_stmt => scan_if if_stmt s
  | S_While cond body _ => scan_body body (scan_expr cond s)
  | S_For inner_var iter _ body _ =>
      let s1 := scan_expr iter s in if decide (inner_var = iter_var) then s1 else scan_body body s1
  | S_ForRange inner_var start end_ _ body _ =>
      let s1 := scan_expr end_ (scan_expr start s) in
      if decide (inner_var = iter_var) then s1 else scan_body body s1
  | S_Break _ | S_Continue _ | S_Placeholder _ => s
  | S_Expr e => scan_expr e s
  | S_Emit value _ => scan_expr value s
  | S_Delete target _ => scan_expr target s
  | S_LetTuple _ value _ => scan_expr value s
  | S_Parallel ss _ => foldl (λ s st, scan_stmt st s) s ss
  | S_ParallelForTo _ _ source output body _ => scan_body body (scan_expr output (scan_expr source s))
  end
with scan_if (ifs : IfStmt) (s : Scan) {struct ifs} : Scan :=
  match ifs with mkIf cond then_ else_branch _ =>
    let s1 := scan_body then_ (scan_expr cond s) in
    match else_branch with
    | ElseNone => s1
    | ElseBlock b => scan_body b s1
    | ElseIf inner => scan_if inner s1
    end
  end.

Definition scan_loop_body (body : Block) : list bytes := sc_found (scan_body body scan_new).

(** The clauses after the first, up to the iterator of a nested loop, and the leaves. *)
Fixpoint scan_inner (clauses : list CompClause) (s : Scan) : Scan :=
  match clauses with
  | [] => s
  | C_For _ iter :: _ => scan_expr iter s
  | C_If cond :: rest => scan_inner rest (scan_expr cond s)
  end.
Definition scan_comp_inner (inner_clauses : list CompClause) (leaves : list Expr) : list bytes :=
  sc_found (foldl (λ s leaf, scan_expr leaf s) (scan_inner inner_clauses scan_new) leaves).
End scan.
