(* ===== verification/Compile.v ===== *)
(** Lowering of the checked syntax tree to bytecode
    ([crates/rend/src/compile.rs]): the compiler of a function as a state of code,
    constants, registers and scopes, one definition per method; the forms of one
    method that build on the compilers of their parts take those as arguments. *)
From S2P Require Import Prelude Bytes Hashing Values TxTyped JsonText Display Ops Bytecode Ast Effects Prefetch.

(** ** Casts: [as u8], [as u16] *)
Definition as_u8 (n : Z) : Z := n mod 256.
Definition as_u16 (n : Z) : Z := n mod 65536.

(** [strip_explicit_literal]. *)
Fixpoint strip_explicit_literal (ty : Ty) : Ty :=
  match ty with
  | TExplicitLiteral inner => strip_explicit_literal inner
  | TArray elem => TArray (strip_explicit_literal elem)
  | TSet elem => TSet (strip_explicit_literal elem)
  | TDict key value => TDict (strip_explicit_literal key) (strip_explicit_literal value)
  | TMap key value => TMap (strip_explicit_literal key) (strip_explicit_literal value)
  | TPMap key value => TPMap (strip_explicit_literal key) (strip_explicit_literal value)
  | TPBTree key value => TPBTree (strip_explicit_literal key) (strip_explicit_literal value)
  | TPVec elem => TPVec (strip_explicit_literal elem)
  | TStruct name fields field_groups =>
      TStruct name ((λ p, match p with (n, t) => (n, strip_explicit_literal t) end) <$> fields) field_groups
  | TTuple elems => TTuple (strip_explicit_literal <$> elems)
  | other => other
  end.

(** [default_expr_for_type]. *)
Definition compile_error {A} (msg : bytes) (span : Span) : outcome A := Err (mkError TypeError (text msg) span).
Fixpoint default_expr_for_type (ty : Ty) (span : Span) : outcome Expr :=
  match ty with
  | TBool => Ok (mkExpr (E_Bool false) span)
  | TI32 => Ok (mkExpr (E_I32 0) span)
  | TU32 => Ok (mkExpr (E_U32 0) span)
  | TU64 => Ok (mkExpr (E_U64 0) span)
  | TU128 => Ok (mkExpr (E_U128 0) span)
  | TInt => Ok (mkExpr (E_Int 0) span)
  | TUInt => Ok (mkExpr (E_UInt 0) span)
  | TString => Ok (mkExpr (E_Str []) span)
  | TStruct name fields _ =>
      field_exprs ← mapM_out (λ p, match p with (fname, fty) =>
        e ← default_expr_for_type fty span; Ok (fname, e) end) fields;
      Ok (mkExpr (E_StructLit name field_exprs) span)
  | _ => compile_error (str "`arr<T>[N]` not yet supported for element type " ++ ty_text ty) span
  end.

(** ** The compiler of a function *)

(** [struct LoopFrame]: the jumps of [break] and [continue] to patch_jump. *)
Record LoopFrame := mkFrame { break_jumps : list Z; continue_jumps : list Z }.

(** The fields of [struct FnCompiler] that stay fixed. *)
Record CEnv := mkCEnv {
  ce_fn_index : gmap bytes Z;
  ce_import_index : gmap bytes Z;
  ce_state_index : gmap bytes Z;
  ce_state_types : list Ty;
  ce_state_roots : list Z;
  ce_struct_index : gmap bytes Z;
  ce_struct_shapes : list StructShape;
  ce_states_by_name : gmap bytes Ty;
  ce_summaries : FnSummaries;
  ce_enum_index : gmap bytes Z;
  ce_enum_shapes : list EnumShape;
  ce_iface_index : gset bytes;
  ce_module_consts : gmap bytes Expr;
  ce_extern_fn_flags : gmap (bytes * bytes) (bool * bool);
  ce_indexes_by_primary : gmap bytes (list IndexDecl);
}.

(** The fields that change; the innermost scope, pipe and loop come first. *)
Record Comp := mkComp {
  co_path_specs : list PathSpec;
  co_path_index : gmap (Z * list bytes) Z;
  co_code : list Instr;
  co_consts : list Const;
  co_next_reg : Z;
  co_max_reg : Z;
  co_scopes : list (gmap bytes Z);
  co_pipe_stack : list Z;
  co_loop_stack : list LoopFrame;
  co_parallel_for_depth : Z;
  co_parallel_for_loop_base : list Z;
}.
Definition CM (A : Type) : Type := SM Comp A.

Definition set_code (c : list Instr) (s : Comp) : Comp :=
  mkComp (co_path_specs s) (co_path_index s) c (co_consts s) (co_next_reg s) (co_max_reg s) (co_scopes s)
    (co_pipe_stack s) (co_loop_stack s) (co_parallel_for_depth s) (co_parallel_for_loop_base s).
Definition set_consts (c : list Const) (s : Comp) : Comp :=
  mkComp (co_path_specs s) (co_path_index s) (co_code s) c (co_next_reg s) (co_max_reg s) (co_scopes s)
    (co_pipe_stack s) (co_loop_stack s) (co_parallel_for_depth s) (co_parallel_for_loop_base s).
Definition set_regs (next max : Z) (s : Comp) : Comp :=
  mkComp (co_path_specs s) (co_path_index s) (co_code s) (co_consts s) next max (co_scopes s)
    (co_pipe_stack s) (co_loop_stack s) (co_parallel_for_depth s) (co_parallel_for_loop_base s).
Definition set_scopes (scopes : list (gmap bytes Z)) (s : Comp) : Comp :=
  mkComp (co_path_specs s) (co_path_index s) (co_code s) (co_consts s) (co_next_reg s) (co_max_reg s) scopes
    (co_pipe_stack s) (co_loop_stack s) (co_parallel_for_depth s) (co_parallel_for_loop_base s).
Definition set_pipes (pipes : list Z) (s : Comp) : Comp :=
  mkComp (co_path_specs s) (co_path_index s) (co_code s) (co_consts s) (co_next_reg s) (co_max_reg s) (co_scopes s)
    pipes (co_loop_stack s) (co_parallel_for_depth s) (co_parallel_for_loop_base s).
Definition set_loops (loops : list LoopFrame) (s : Comp) : Comp :=
  mkComp (co_path_specs s) (co_path_index s) (co_code s) (co_consts s) (co_next_reg s) (co_max_reg s) (co_scopes s)
    (co_pipe_stack s) loops (co_parallel_for_depth s) (co_parallel_for_loop_base s).
Definition set_pfor (depth : Z) (base : list Z) (s : Comp) : Comp :=
  mkComp (co_path_specs s) (co_path_index s) (co_code s) (co_consts s) (co_next_reg s) (co_max_reg s) (co_scopes s)
    (co_pipe_stack s) (co_loop_stack s) depth base.
Definition set_paths (specs : list PathSpec) (index : gmap (Z * list bytes) Z) (s : Comp) : Comp :=
  mkComp specs index (co_code s) (co_consts s) (co_next_reg s) (co_max_reg s) (co_scopes s)
    (co_pipe_stack s) (co_loop_stack s) (co_parallel_for_depth s) (co_parallel_for_loop_base s).

Definition fail_at {A} (msg : bytes) (span : Span) : CM A := lift (compile_error msg span).
Definition expect_some {A} (o : option A) : CM A := lift (or_panic o).
(** [o.ok_or_else(|| Error::new(Type, msg, span))?]. *)
Definition require {A} (o : option A) (msg : bytes) (span : Span) : CM A :=
  match o with Some a => mret a | None => fail_at msg span end.

(** *** Code *)
Definition emit (i : Instr) : CM unit := modify (λ s, set_code (co_code s ++ [i]) s).
(** [self.code.len()]. *)
Definition here : CM Z := gets (λ s, zlen (co_code s)).
(** [if let Instr::Jump { offset } = &mut self.code[pos] { *offset = off }], for each
    of the jumps. *)
Definition set_offset (off : Z) (i : Instr) : Instr :=
  match i with
  | Jump _ => Jump off
  | JumpIfFalse cond _ => JumpIfFalse cond off
  | PMapWalkNext cursor_reg value_reg _ => PMapWalkNext cursor_reg value_reg off
  | PBTreeWalkNext cursor_reg value_reg _ => PBTreeWalkNext cursor_reg value_reg off
  | i => i
  end.
(** The jump at [pos] goes to [target]. *)
Definition patch_jump (pos target : Z) : CM unit :=
  modify (λ s, set_code (alter (set_offset (target - pos - 1)) (Z.to_nat pos) (co_code s)) s).
Fixpoint patch_jumps (positions : list Z) (target : Z) : CM unit :=
  match positions with
  | [] => mret tt
  | pos :: rest => _ ← patch_jump pos target; patch_jumps rest target
  end.
(** [self.code[pos] = i]. *)
Definition replace_at (pos : Z) (i : Instr) : CM unit :=
  modify (λ s, set_code (<[Z.to_nat pos := i]> (co_code s)) s).
(** [let pos = self.code.len(); self.code.push(i)]. *)
Definition emit_at (i : Instr) : CM Z := pos ← here; _ ← emit i; mret pos.
(** The jump back at the end of a loop. *)
Definition jump_back (loop_start : Z) : CM unit :=
  jmp_pos ← here; emit (Jump (loop_start - jmp_pos - 1)).

(** *** Constants *)
Definition const_idx (c : Const) : CM Z := λ s,
  match list_find (c =.) (co_consts s) with
  | Some (i, _) => (Ok (as_u16 (Z.of_nat i)), s)
  | None => (Ok (as_u16 (zlen (co_consts s))), set_consts (co_consts s ++ [c]) s)
  end.
Definition emit_const (dst : Z) (c : Const) : CM unit := idx ← const_idx c; emit (LoadConst dst idx).

(** *** Registers *)
Definition alloc : CM Z := λ s,
  let r := co_next_reg s in (Ok r, set_regs (r + 1) (Z.max (r + 1) (co_max_reg s)) s).
Definition free (r : Z) : CM unit :=
  modify (λ s, if r + 1 =? co_next_reg s then set_regs (co_next_reg s - 1) (co_max_reg s) s else s).
Fixpoint alloc_n (n : nat) : CM unit :=
  match n with O => mret tt | S n' => _ ← alloc; alloc_n n' end.
(** [for _ in 0..n { self.next_reg -= 1 }]. *)
Definition drop_n (n : nat) : CM unit :=
  modify (λ s, set_regs (co_next_reg s - Z.of_nat n) (co_max_reg s) s).
Fixpoint free_all (rs : list Z) : CM unit :=
  match rs with [] => mret tt | r :: rest => _ ← free r; free_all rest end.
Definition next_reg : CM Z := gets co_next_reg.
(** [self.next_reg = r]. *)
Definition set_next_reg (r : Z) : CM unit := modify (λ s, set_regs r (co_max_reg s) s).

(** *** Scopes *)
Definition push_scope : CM unit := modify (λ s, set_scopes (∅ :: co_scopes s) s).
Definition pop_scope : CM unit := modify (λ s, set_scopes (tail (co_scopes s)) s).
(** [self.scopes.last_mut().unwrap().insert(name, r)]. *)
Definition bind_local (name : bytes) (r : Z) : CM unit := λ s,
  match co_scopes s with
  | scope :: rest => (Ok tt, set_scopes (<[name := r]> scope :: rest) s)
  | [] => (Panic, s)
  end.
Fixpoint find_local (scopes : list (gmap bytes Z)) (name : bytes) : option Z :=
  match scopes with
  | [] => None
  | scope :: rest => match scope !! name with Some r => Some r | None => find_local rest name end
  end.
Definition lookup_local (name : bytes) : CM (option Z) := gets (λ s, find_local (co_scopes s) name).

(** *** Loops *)
Definition push_loop : CM unit := modify (λ s, set_loops (mkFrame [] [] :: co_loop_stack s) s).
Definition pop_loop : CM LoopFrame := λ s,
  match co_loop_stack s with
  | frame :: rest => (Ok frame, set_loops rest s)
  | [] => (Panic, s)
  end.
Definition add_jump (is_break : bool) (pos : Z) : CM unit := λ s,
  match co_loop_stack s with
  | frame :: rest =>
      let frame' := if is_break then mkFrame (break_jumps frame ++ [pos]) (continue_jumps frame)
                    else mkFrame (break_jumps frame) (continue_jumps frame ++ [pos]) in
      (Ok tt, set_loops (frame' :: rest) s)
  | [] => (Panic, s)
  end.

Section compile.
Context (env : CEnv).

Definition state_ty (idx : Z) : CM Ty := expect_some (get_z (ce_state_types env) idx).

(** ** Paths below a state *)

(** [try_state_field_path]. *)
Fixpoint state_field_path (scopes : list (gmap bytes Z)) (e : Expr) (names : list bytes) {struct e} :
    option (Z * list bytes) :=
  match e with
  | mkExpr (E_Field target name) _ => state_field_path scopes target (name :: names)
  | mkExpr (E_Ident name) _ =>
      match find_local scopes name with
      | Some _ => None
      | None => idx ← ce_state_index env !! name; Some (as_u16 idx, names)
      end
  | _ => None
  end.
Definition try_state_field_path (e : Expr) : CM (option (Z * list bytes)) :=
  gets (λ s, state_field_path (co_scopes s) e []).

(** The cell of a path: each field is a child, a field of a group stops at the
    cell of the group with the rest of the path to project. *)
Fixpoint path_cell (path : list bytes) (key : Z) (ty : Ty) : outcome (Z * Ty * list bytes) :=
  match path with
  | [] => Ok (key, ty, [])
  | name :: rest =>
      match ty with
      | TStruct parent_name fields field_groups =>
          match list_find (λ p, p.1 = name) fields with
          | Some (i, (_, t)) =>
              match group_at field_groups i with
              | Some g =>
                  Ok (child key g, TStruct (synthetic_group_name parent_name g) (group_fields fields field_groups g) [],
                      path)
              | None => path_cell rest (child key name) t
              end
          | None => Panic
          end
      | _ => Panic
      end
  end.
Definition intern_path (state_idx : Z) (path : list bytes) : CM (Z * list bytes) :=
  root ← expect_some (get_z (ce_state_roots env) state_idx);
  root_ty ← state_ty state_idx;
  cell ← lift (path_cell path root root_ty);
  let '(key, ty, chain) := cell in
  known ← gets (λ s, co_path_index s !! (state_idx, path));
  match known with
  | Some idx => mret (idx, chain)
  | None =>
      specs ← gets co_path_specs;
      let idx := as_u16 (zlen specs) in
      _ ← modify (λ s, set_paths (specs ++ [mkPath key ty (negb (bool_decide (chain = [])))])
                         (<[(state_idx, path) := idx]> (co_path_index s)) s);
      mret (idx, chain)
  end.

(** ** Keys of indexes *)

(** The registers are freed as the walk goes on; only the last stays. *)
Fixpoint field_path_from (path : list bytes) (cur : Z) (owned : option Z) : CM Z :=
  match path with
  | [] => mret cur
  | field :: rest =>
      name_idx ← const_idx (CStr field);
      next ← alloc;
      _ ← emit (FieldGet next cur name_idx);
      _ ← match owned with Some prev => free prev | None => mret tt end;
      field_path_from rest next (Some next)
  end.
Definition emit_field_path (path : list bytes) (value_reg : Z) : CM Z := field_path_from path value_reg None.

Section index_key.
Context (value_reg to_be_bytes_name bit_not_name bytes_concat_name : Z).
Definition pack_field (f : IndexField) (packed : option Z) : CM (option Z) :=
  projected ← emit_field_path (ix_path f) value_reg;
  part ← alloc;
  _ ← emit (Move part projected);
  _ ← free projected;
  _ ← emit (BuiltinCall part to_be_bytes_name part 1);
  _ ← match ix_direction f with
      | Dir_Desc => emit (BuiltinCall part bit_not_name part 1)
      | Dir_Asc => mret tt
      end;
  match packed with
  | None => mret (Some part)
  | Some prev =>
      args ← alloc;
      _ ← alloc;
      _ ← emit (Move args prev);
      _ ← emit (Move (args + 1) part);
      _ ← free prev;
      _ ← free part;
      _ ← emit (BuiltinCall args bytes_concat_name args 2);
      _ ← free (args + 1);
      mret (Some args)
  end.
Fixpoint pack_fields (fs : list IndexField) (packed : option Z) : CM (option Z) :=
  match fs with
  | [] => mret packed
  | f :: rest => packed' ← pack_field f packed; pack_fields rest packed'
  end.
End index_key.

Definition emit_index_key (idx : IndexDecl) (value_reg : Z) : CM Z :=
  match id_fields idx with
  | [mkIndexField path Dir_Asc] => emit_field_path path value_reg
  | fields =>
      to_be_bytes_name ← const_idx (CStr (str "to_be_bytes"));
      bit_not_name ← const_idx (CStr (str "bit_not_bytes"));
      bytes_concat_name ← const_idx (CStr (str "bytes_concat"));
      packed ← pack_fields value_reg to_be_bytes_name bit_not_name bytes_concat_name fields None;
      expect_some packed
  end.

(** For every index over a state: the key of the index from a record, and what to
    do to the entry. *)
Section maintain.
Context (instr : IndexKind → bool → Z → Z → Instr) (value_reg : Z).
Fixpoint maintain_indexes (idxs : list IndexDecl) : CM unit :=
  match idxs with
  | [] => mret tt
  | idx :: rest =>
      cur ← emit_index_key idx value_reg;
      index_state_idx ← expect_some (ce_state_index env !! id_name idx);
      index_ty ← state_ty index_state_idx;
      let is_pbtree := match index_ty with TPBTree _ _ => true | _ => false end in
      _ ← emit (instr (id_kind idx) is_pbtree (as_u16 index_state_idx) cur);
      _ ← free cur;
      maintain_indexes rest
  end.
End maintain.
Definition put_index (key_reg : Z) (kind : IndexKind) (is_pbtree : bool) (state_idx cur : Z) : Instr :=
  match kind, is_pbtree with
  | Index_Unique, false => PMapPutUnique state_idx cur key_reg
  | Index_Unique, true => PBTreePutUnique state_idx cur key_reg
  | Index_Multi, false => PMapAppendUnique state_idx cur key_reg
  | Index_Multi, true => PBTreeAppendUnique state_idx cur key_reg
  end.
Definition remove_index (key_reg : Z) (kind : IndexKind) (is_pbtree : bool) (state_idx cur : Z) : Instr :=
  match kind, is_pbtree with
  | Index_Unique, false => PMapRemoveUnique state_idx cur key_reg
  | Index_Unique, true => PBTreeRemoveUnique state_idx cur key_reg
  | Index_Multi, false => PMapRemoveFromList state_idx cur key_reg
  | Index_Multi, true => PBTreeRemoveFromList state_idx cur key_reg
  end.
Definition indexes_of (state_name : bytes) : list IndexDecl :=
  default [] (ce_indexes_by_primary env !! state_name).

(** ** Loops

    [body] compiles the body, the others the head. *)
Definition in_loop (body : CM unit) : CM LoopFrame := _ ← push_loop; _ ← body; pop_loop.

Definition compile_while (cond : Z → CM unit) (body : CM unit) : CM unit :=
  loop_start ← here;
  cond_reg ← alloc;
  _ ← cond cond_reg;
  jif_pos ← emit_at (JumpIfFalse cond_reg 0);
  _ ← free cond_reg;
  frame ← in_loop body;
  _ ← jump_back loop_start;
  _ ← patch_jumps (continue_jumps frame) loop_start;
  end_pos ← here;
  _ ← patch_jump jif_pos end_pos;
  patch_jumps (break_jumps frame) end_pos.

Definition compile_for_range (var : bytes) (start end_ : Z → CM unit) (inclusive : bool) (body : CM unit) : CM unit :=
  counter ← alloc;
  _ ← start counter;
  limit ← alloc;
  _ ← end_ limit;
  _ ← push_scope;
  _ ← bind_local var counter;
  loop_start ← here;
  check_reg ← alloc;
  _ ← emit (Bin (if inclusive then LtEq else Lt) check_reg counter limit);
  jif_pos ← emit_at (JumpIfFalse check_reg 0);
  _ ← free check_reg;
  frame ← in_loop body;
  continue_target ← here;
  _ ← patch_jumps (continue_jumps frame) continue_target;
  _ ← emit (IncReg counter);
  _ ← jump_back loop_start;
  end_pos ← here;
  _ ← patch_jump jif_pos end_pos;
  _ ← patch_jumps (break_jumps frame) end_pos;
  _ ← pop_scope;
  _ ← free limit;
  free counter.

(** [emit_limit_check]: the position of the jump out of the loop. *)
Definition emit_limit_check (limit_regs : option (Z * Z)) : CM (option Z) :=
  match limit_regs with
  | None => mret None
  | Some (remaining_reg, one_reg) =>
      zero_reg ← alloc;
      _ ← emit_const zero_reg (CU64 0);
      check_reg ← alloc;
      _ ← emit (Bin Gt check_reg remaining_reg zero_reg);
      break_pos ← emit_at (JumpIfFalse check_reg 0);
      _ ← free check_reg;
      _ ← free zero_reg;
      _ ← emit (Bin Sub remaining_reg remaining_reg one_reg);
      mret (Some break_pos)
  end.
Definition patch_limit_break (break_pos : option Z) (end_pos : Z) : CM unit :=
  match break_pos with Some pos => patch_jump pos end_pos | None => mret tt end.

(** The counter loop: [fetch] loads an element, [step] increments the counter. *)
Section counter_loop.
Context (counter_reg len_reg : Z) (fetch step : Instr) (limit_regs : option (Z * Z)) (body : CM unit).
Definition counter_loop : CM unit :=
  loop_start ← here;
  check_reg ← alloc;
  _ ← emit (Bin Lt check_reg counter_reg len_reg);
  jif_pos ← emit_at (JumpIfFalse check_reg 0);
  _ ← free check_reg;
  _ ← emit fetch;
  _ ← push_loop;
  limit_break_pos ← emit_limit_check limit_regs;
  _ ← body;
  frame ← pop_loop;
  continue_target ← here;
  _ ← patch_jumps (continue_jumps frame) continue_target;
  _ ← emit step;
  _ ← jump_back loop_start;
  end_pos ← here;
  _ ← patch_jump jif_pos end_pos;
  _ ← patch_jumps (break_jumps frame) end_pos;
  patch_limit_break limit_break_pos end_pos.
(** The same loop for a clause of a comprehension, which has no [break],
    [continue] or limit of its own. *)
Definition comp_counter_loop : CM unit :=
  loop_start ← here;
  check_reg ← alloc;
  _ ← emit (Bin Lt check_reg counter_reg len_reg);
  jif_pos ← emit_at (JumpIfFalse check_reg 0);
  _ ← free check_reg;
  _ ← emit fetch;
  _ ← body;
  _ ← emit step;
  _ ← jump_back loop_start;
  end_pos ← here;
  patch_jump jif_pos end_pos.
End counter_loop.

(** [compile_for_streaming_pvec]. *)
Definition compile_for_streaming_pvec (state_idx : Z) (var : bytes) (limit_regs : option (Z * Z)) (body : CM unit) :
    CM unit :=
  len_reg ← alloc;
  _ ← emit (PVecLen len_reg state_idx);
  counter_reg ← alloc;
  _ ← emit_const counter_reg (CU64 0);
  var_reg ← alloc;
  _ ← push_scope;
  _ ← bind_local var var_reg;
  _ ← counter_loop counter_reg len_reg (PVecGet var_reg state_idx counter_reg) (IncReg counter_reg)
        limit_regs body;
  _ ← pop_scope;
  _ ← free var_reg;
  _ ← free counter_reg;
  free len_reg.

(** [compile_for_streaming_pmap] and [.._pbtree] differ in the two instructions. *)
Section walk.
Context (walk_init : Z → Z → Instr) (walk_next : Z → Z → Z → Instr).
Definition compile_for_streaming_walk (state_idx : Z) (var : bytes) (limit_regs : option (Z * Z)) (body : CM unit) :
    CM unit :=
  cursor_reg ← alloc;
  _ ← emit (walk_init cursor_reg state_idx);
  var_reg ← alloc;
  _ ← push_scope;
  _ ← bind_local var var_reg;
  loop_start ← here;
  next_pos ← emit_at (walk_next cursor_reg var_reg 0);
  _ ← push_loop;
  limit_break_pos ← emit_limit_check limit_regs;
  _ ← body;
  frame ← pop_loop;
  continue_target ← here;
  _ ← patch_jumps (continue_jumps frame) continue_target;
  _ ← jump_back loop_start;
  end_pos ← here;
  _ ← patch_jump next_pos end_pos;
  _ ← patch_jumps (break_jumps frame) end_pos;
  _ ← patch_limit_break limit_break_pos end_pos;
  _ ← pop_scope;
  _ ← free var_reg;
  free cursor_reg.
(** [lower_comp_for_pmap] and [.._pbtree]. *)
Definition lower_comp_for_walk (state_idx : Z) (var : bytes) (rest : CM unit) : CM unit :=
  cursor_reg ← alloc;
  _ ← emit (walk_init cursor_reg state_idx);
  var_reg ← alloc;
  _ ← push_scope;
  _ ← bind_local var var_reg;
  loop_start ← here;
  next_pos ← emit_at (walk_next cursor_reg var_reg 0);
  _ ← rest;
  _ ← jump_back loop_start;
  end_pos ← here;
  _ ← patch_jump next_pos end_pos;
  _ ← pop_scope;
  _ ← free var_reg;
  free cursor_reg.
End walk.
Definition compile_for_streaming_pmap : Z → bytes → option (Z * Z) → CM unit → CM unit :=
  compile_for_streaming_walk PMapWalkInit PMapWalkNext.
Definition compile_for_streaming_pbtree : Z → bytes → option (Z * Z) → CM unit → CM unit :=
  compile_for_streaming_walk PBTreeWalkInit PBTreeWalkNext.
Definition lower_comp_for_pmap : Z → bytes → CM unit → CM unit := lower_comp_for_walk PMapWalkInit PMapWalkNext.
Definition lower_comp_for_pbtree : Z → bytes → CM unit → CM unit :=
  lower_comp_for_walk PBTreeWalkInit PBTreeWalkNext.
Definition lower_comp_for_pvec (state_idx : Z) (var : bytes) (rest : CM unit) : CM unit :=
  len_reg ← alloc;
  _ ← emit (PVecLen len_reg state_idx);
  counter_reg ← alloc;
  _ ← emit_const counter_reg (CU64 0);
  var_reg ← alloc;
  _ ← push_scope;
  _ ← bind_local var var_reg;
  _ ← comp_counter_loop counter_reg len_reg (PVecGet var_reg state_idx counter_reg) (IncReg counter_reg) rest;
  _ ← pop_scope;
  _ ← free var_reg;
  _ ← free counter_reg;
  free len_reg.

(** The state an iterator names, which streams instead of becoming an array. *)
Definition streamed (iter : Expr) : CM (option (Z * Ty)) :=
  match iter with
  | mkExpr (E_Ident name) _ =>
      match ce_state_index env !! name with
      | Some state_idx => ty ← state_ty state_idx; mret (Some (as_u16 state_idx, ty))
      | None => mret None
      end
  | _ => mret None
  end.
(** [PrefetchMap] for each state in [targets]. *)
Fixpoint emit_prefetch (arr_reg : Z) (targets : list bytes) : CM unit :=
  match targets with
  | [] => mret tt
  | state_name :: rest =>
      _ ← match ce_state_index env !! state_name with
          | Some idx => emit (PrefetchMap arr_reg (as_u16 idx))
          | None => mret tt
          end;
      emit_prefetch arr_reg rest
  end.
(** The fallback: an array and a counter over it. *)
Definition array_loop (var : bytes) (iter : Z → CM unit) (targets : list bytes) (loop : Z → Z → Z → Z → Z → CM unit) :
    CM unit :=
  arr_reg ← alloc;
  _ ← iter arr_reg;
  _ ← emit_prefetch arr_reg targets;
  len_reg ← alloc;
  _ ← emit (BuiltinLen len_reg arr_reg);
  counter_reg ← alloc;
  _ ← emit_const counter_reg (CInt 0);
  one_reg ← alloc;
  _ ← emit_const one_reg (CInt 1);
  var_reg ← alloc;
  _ ← push_scope;
  _ ← bind_local var var_reg;
  _ ← loop arr_reg len_reg counter_reg one_reg var_reg;
  _ ← pop_scope;
  _ ← free var_reg;
  _ ← free one_reg;
  _ ← free counter_reg;
  _ ← free len_reg;
  free arr_reg.

Definition compile_for (var : bytes) (iter_expr : Expr) (iter : Z → CM unit) (targets : list bytes)
    (limit : option (Z → CM unit)) (body : CM unit) : CM unit :=
  limit_regs ← match limit with
               | Some lim =>
                   remaining_reg ← alloc;
                   _ ← lim remaining_reg;
                   one_reg ← alloc;
                   _ ← emit_const one_reg (CU64 1);
                   mret (Some (remaining_reg, one_reg))
               | None => mret None
               end;
  stream ← streamed iter_expr;
  match stream with
  | Some (state_idx, TPVec _) => compile_for_streaming_pvec state_idx var limit_regs body
  | Some (state_idx, TPMap _ _) => compile_for_streaming_pmap state_idx var limit_regs body
  | Some (state_idx, TPBTree _ _) => compile_for_streaming_pbtree state_idx var limit_regs body
  | _ =>
      array_loop var iter targets (λ arr_reg len_reg counter_reg one_reg var_reg,
        counter_loop counter_reg len_reg (ArrayGet var_reg arr_reg counter_reg)
          (Bin Add counter_reg counter_reg one_reg) limit_regs body)
  end.

(** ** Comprehensions *)
Inductive CompLeaf :=
  | ListAppend (mapper : Z → CM unit) (dst : Z)
  | SetInsert (mapper : Z → CM unit) (dst : Z)
  | DictSet (key value : Z → CM unit) (dst : Z).
Definition emit_comp_leaf (leaf : CompLeaf) : CM unit :=
  match leaf with
  | ListAppend mapper dst =>
      elem_reg ← alloc;
      _ ← mapper elem_reg;
      _ ← emit (ArrayAppend dst dst elem_reg);
      free elem_reg
  | SetInsert mapper dst =>
      elem_reg ← alloc;
      _ ← mapper elem_reg;
      args_base ← alloc;
      _ ← emit (Move args_base dst);
      args_elem ← alloc;
      _ ← emit (Move args_elem elem_reg);
      name_idx ← const_idx (CStr (str "set_insert"));
      _ ← emit (BuiltinCall dst name_idx args_base 2);
      _ ← free args_elem;
      _ ← free args_base;
      free elem_reg
  | DictSet key value dst =>
      args_dict ← alloc;
      _ ← emit (Move args_dict dst);
      args_key ← alloc;
      _ ← key args_key;
      args_val ← alloc;
      _ ← value args_val;
      name_idx ← const_idx (CStr (str "dict_set"));
      _ ← emit (BuiltinCall dst name_idx args_dict 3);
      _ ← free args_val;
      _ ← free args_key;
      free args_dict
  end.

Section lower_comp.
Context (cexpr : Expr → Z → CM unit) (leaf : CompLeaf) (leaf_exprs : list Expr).
Definition comp_if (cond : Z → CM unit) (rest : CM unit) : CM unit :=
  f_reg ← alloc;
  _ ← cond f_reg;
  pos ← emit_at (JumpIfFalse f_reg 0);
  _ ← free f_reg;
  _ ← rest;
  target ← here;
  patch_jump pos target.
(** [first] says that the clause is the outermost one, whose reads are prefetched. *)
Fixpoint lower_comp (first : bool) (clauses : list CompClause) : CM unit :=
  match clauses with
  | [] => emit_comp_leaf leaf
  | C_For var iter :: rest =>
      let inner := lower_comp false rest in
      stream ← streamed iter;
      match stream with
      | Some (state_idx, TPVec _) => lower_comp_for_pvec state_idx var inner
      | Some (state_idx, TPMap _ _) => lower_comp_for_pmap state_idx var inner
      | Some (state_idx, TPBTree _ _) => lower_comp_for_pbtree state_idx var inner
      | _ =>
          let targets := if first then
            scan_comp_inner var (ce_states_by_name env) (ce_summaries env) rest leaf_exprs else [] in
          array_loop var (cexpr iter) targets (λ arr_reg len_reg counter_reg one_reg var_reg,
            comp_counter_loop counter_reg len_reg (ArrayGet var_reg arr_reg counter_reg)
              (Bin Add counter_reg counter_reg one_reg) inner)
      end
  | C_If cond :: rest => comp_if (cexpr cond) (lower_comp false rest)
  end.
End lower_comp.

(** ** Forms of expressions *)

(** Arguments in registers one after the other, allocated first. *)
Section args.
Context (cexpr : Expr → Z → CM unit).
Fixpoint compile_each (es : list Expr) (r : Z) : CM unit :=
  match es with
  | [] => mret tt
  | e :: rest => _ ← cexpr e r; compile_each rest (r + 1)
  end.
Definition compile_args (es : list Expr) (instr : Z → CM unit) : CM unit :=
  args_start ← next_reg;
  _ ← alloc_n (length es);
  _ ← compile_each es args_start;
  _ ← instr args_start;
  drop_n (length es).
Fixpoint compile_pairs (pairs : list (Expr * Expr)) (r : Z) : CM unit :=
  match pairs with
  | [] => mret tt
  | (k, v) :: rest => _ ← cexpr k r; _ ← cexpr v (r + 1); compile_pairs rest (r + 2)
  end.
Definition compile_dict (pairs : list (Expr * Expr)) (dst : Z) : CM unit :=
  args_start ← next_reg;
  _ ← alloc_n (length pairs * 2);
  _ ← compile_pairs pairs args_start;
  _ ← emit (MakeDict dst args_start (as_u16 (zlen pairs)));
  drop_n (length pairs * 2).

(** The fields in declaration order. *)
Fixpoint compile_fields (name : bytes) (span : Span) (fields : list (bytes * Expr)) (declared : list bytes) (r : Z) :
    CM unit :=
  match declared with
  | [] => mret tt
  | declared_name :: rest =>
      _ ← (fix provided (fs : list (bytes * Expr)) : CM unit :=
             match fs with
             | [] => fail_at (str "missing field '" ++ declared_name ++ str "' in struct '" ++ name ++ str "'") span
             | (fn_, e) :: fs' => if decide (fn_ = declared_name) then cexpr e r else provided fs'
             end) fields;
      compile_fields name span fields rest (r + 1)
  end.
Definition compile_struct_lit (name : bytes) (fields : list (bytes * Expr)) (span : Span) (dst : Z) : CM unit :=
  shape_idx ← require (ce_struct_index env !! name) (str "unknown struct '" ++ name ++ str "'") span;
  shape ← expect_some (get_z (ce_struct_shapes env) shape_idx);
  args_start ← next_reg;
  _ ← alloc_n (length (field_names shape));
  _ ← compile_fields name span fields (field_names shape) args_start;
  _ ← emit (MakeStruct dst (as_u16 shape_idx) args_start (as_u16 (zlen (field_names shape))));
  drop_n (length (field_names shape)).

(** Json literals allocate a register before each part. *)
Fixpoint compile_json_items (items : list Expr) : CM (list Z) :=
  match items with
  | [] => mret []
  | v :: rest => r ← alloc; _ ← cexpr v r; rs ← compile_json_items rest; mret (r :: rs)
  end.
Fixpoint compile_json_pairs (pairs : list (bytes * Expr)) : CM (list Z) :=
  match pairs with
  | [] => mret []
  | (k, v) :: rest =>
      kr ← alloc;
      _ ← emit_const kr (CStr k);
      vr ← alloc;
      _ ← cexpr v vr;
      rs ← compile_json_pairs rest;
      mret (kr :: vr :: rs)
  end.
Definition json_call (builtin : string) (allocs : list Z) (n_args : Z) (dst : Z) : CM unit :=
  name_idx ← const_idx (CStr (str builtin));
  _ ← emit (BuiltinCall dst name_idx (default 0 (head allocs)) (as_u8 n_args));
  free_all (reverse allocs).
Definition compile_json_object (pairs : list (bytes * Expr)) (dst : Z) : CM unit :=
  allocs ← compile_json_pairs pairs;
  json_call "_json_object" allocs (2 * zlen pairs) dst.
Definition compile_json_array (items : list Expr) (dst : Z) : CM unit :=
  allocs ← compile_json_items items;
  json_call "_json_array" allocs (zlen items) dst.

(** [EnumPayload] for each binding of an arm. *)
Fixpoint bind_payload (scrut_reg : Z) (bindings : list bytes) (i : Z) : CM (list Z) :=
  match bindings with
  | [] => mret []
  | name :: rest =>
      r ← alloc;
      _ ← emit (EnumPayload r scrut_reg (as_u16 i));
      _ ← bind_local name r;
      rs ← bind_payload scrut_reg rest (i + 1);
      mret (r :: rs)
  end.
Definition compile_match_body (body : Z → CM unit) (dst scrut_reg : Z) (bindings : list bytes) : CM unit :=
  _ ← push_scope;
  alloced ← bind_payload scrut_reg bindings 0;
  _ ← body dst;
  _ ← pop_scope;
  free_all (reverse alloced).

(** The arms in order; a wildcard ends them.  The answer is the jumps to the end. *)
Section arms.
Context (shape : option EnumShape) (dst scrut_reg tag_reg : Z).
Fixpoint compile_arms (arms : list MatchArm) : CM (list Z) :=
  match arms with
  | [] => mret []
  | mkArm Wildcard body _ :: _ =>
      _ ← compile_match_body (cexpr body) dst scrut_reg [];
      pos ← emit_at (Jump 0);
      mret [pos]
  | mkArm (EnumPattern _ variant bindings) body span :: rest =>
      variant_idx ← require (s ← shape; fst <$> list_find (variant =.) (variant_names s))
                      (str "unknown variant '" ++ variant ++ str "'") span;
      const_reg ← alloc;
      _ ← emit_const const_reg (CInt (Z.of_nat variant_idx));
      cmp ← alloc;
      _ ← emit (Bin Eq cmp tag_reg const_reg);
      _ ← free const_reg;
      skip_pos ← emit_at (JumpIfFalse cmp 0);
      _ ← free cmp;
      _ ← compile_match_body (cexpr body) dst scrut_reg bindings;
      jmp_pos ← emit_at (Jump 0);
      target ← here;
      _ ← patch_jump skip_pos target;
      end_jumps ← compile_arms rest;
      mret (jmp_pos :: end_jumps)
  end.
End arms.
Definition first_enum (arms : list MatchArm) : option bytes :=
  foldr (λ a found, match a with mkArm (EnumPattern enum_name _ _) _ _ => Some enum_name | _ => found end) None arms.
Definition compile_match (scrut : Z → CM unit) (arms : list MatchArm) (dst : Z) : CM unit :=
  scrut_reg ← alloc;
  _ ← scrut scrut_reg;
  tag_reg ← alloc;
  _ ← emit (EnumTag tag_reg scrut_reg);
  let shape := (n ← first_enum arms; i ← ce_enum_index env !! n; get_z (ce_enum_shapes env) i) in
  end_jumps ← compile_arms shape dst scrut_reg tag_reg arms;
  _ ← emit ReturnUnit;
  end_pos ← here;
  _ ← patch_jumps end_jumps end_pos;
  _ ← free tag_reg;
  free scrut_reg.
End args.

(** ** Calls *)
Definition is_aggregator (name : bytes) : bool := bool_decide (name ∈ [str "sum"; str "max"; str "min"]).
Definition generic_builtins : list bytes := str <$>
  ["set_insert"; "set_remove"; "set_contains"; "set_len";
   "dict_set"; "dict_remove"; "dict_get"; "dict_has"; "dict_len";
   "assert";
   "to_bytes"; "bytes_len"; "bytes_concat"; "bytes_eq"; "bytes_slice";
   "to_be_bytes"; "bit_not_bytes";
   "string_concat"; "string_slice"; "string_contains";
   "sum"; "max"; "min";
   "parse_json"; "json_stringify";
   "json_get_field"; "json_get_index";
   "json_to_string"; "json_to_i64"; "json_to_u64";
   "json_to_bool"; "json_is_null"]%string.
Definition bytes_of (l : list (string * Z)) (name : bytes) : option Z :=
  snd <$> (snd <$> list_find (λ p, str p.1 = name) l).
Definition context_kind : bytes → option Z :=
  bytes_of [("msg_sender", 0); ("block_timestamp", 1); ("block_number", 2)]%string.
Definition convert_target : bytes → option Z :=
  bytes_of [("i64", 0); ("i32", 1); ("u32", 2); ("u64", 3); ("u128", 4)]%string.
(** The instruction of a builtin of one value. *)
Definition unary_builtin (name : bytes) : option (Z → Z → Instr) :=
  if decide (name = str "resource") then Some BuiltinResource
  else if decide (name = str "unwrap") then Some BuiltinUnwrap
  else if decide (name = str "address") then Some BuiltinAddress
  else if decide (name = str "len") then Some BuiltinLen
  else None.

(** The builtins over a state, by what they take besides its name. *)
Inductive StateBuiltin :=
  | SB_PvecPush | SB_PvecLen | SB_PbtreeContains | SB_PbtreeRange | SB_PmapContains
  | SB_PmapEntries | SB_PmapKeys | SB_PmapValues | SB_PvecToArray.
Definition state_builtins : list (string * StateBuiltin) :=
  [("pvec_push", SB_PvecPush); ("pvec_len", SB_PvecLen); ("pbtree_contains", SB_PbtreeContains);
   ("pbtree_range", SB_PbtreeRange); ("pmap_contains", SB_PmapContains); ("pmap_entries", SB_PmapEntries);
   ("pmap_keys", SB_PmapKeys); ("pmap_values", SB_PmapValues); ("pvec_to_array", SB_PvecToArray)]%string.
Definition state_builtin (name : bytes) : option StateBuiltin :=
  snd <$> (snd <$> list_find (λ p, str p.1 = name) state_builtins).
Definition state_arg_kind (b : StateBuiltin) : bytes :=
  match b with
  | SB_PvecPush | SB_PvecLen => str "a pvec state"
  | SB_PbtreeContains | SB_PbtreeRange => str "a pbtree state"
  | SB_PmapContains => str "a pmap state"
  | _ => str "a state slot"
  end.

Section calls.
Context (cexpr : Expr → Z → CM unit).
(** [args.first()] must name a state. *)
Definition state_arg (name : bytes) (b : StateBuiltin) (args : list Expr) (span : Span) : CM Z :=
  match args with
  | mkExpr (E_Ident state_name) _ :: _ =>
      state_idx ← require (ce_state_index env !! state_name) (str "'" ++ state_name ++ str "' is not a state") span;
      mret (as_u16 state_idx)
  | _ => fail_at (name ++ str "() arg 0 must name " ++ state_arg_kind b) span
  end.
(** [args[1]], [args[2]]: a missing argument panics. *)
Definition with_arg1 (args : list Expr) (k : (Z → CM unit) → CM unit) : CM unit :=
  match args with _ :: a :: _ => k (cexpr a) | _ => lift Panic end.
Definition with_arg2 (args : list Expr) (k : (Z → CM unit) → CM unit) : CM unit :=
  match args with _ :: _ :: a :: _ => k (cexpr a) | _ => lift Panic end.
(** One argument in a register of its own. *)
Definition unary_into (arg : Z → CM unit) (instr : Z → Instr) : CM unit :=
  r ← alloc; _ ← arg r; _ ← emit (instr r); free r.

Definition compile_state_builtin (b : StateBuiltin) (name : bytes) (args : list Expr) (span : Span) (dst : Z) :
    CM unit :=
  state_idx ← state_arg name b args span;
  match b with
  | SB_PvecLen => emit (PVecLen dst state_idx)
  | SB_PvecPush => with_arg1 args (λ arg, unary_into arg (PVecPush dst state_idx))
  | SB_PbtreeContains => with_arg1 args (λ arg, unary_into arg (PBTreeContains dst state_idx))
  | SB_PmapContains => with_arg1 args (λ arg, unary_into arg (PMapContains dst state_idx))
  | SB_PbtreeRange =>
      with_arg1 args (λ lo,
        lo_reg ← alloc;
        _ ← lo lo_reg;
        with_arg2 args (λ hi,
          hi_reg ← alloc;
          _ ← hi hi_reg;
          _ ← emit (PBTreeRange dst state_idx lo_reg hi_reg);
          _ ← free hi_reg;
          free lo_reg))
  | SB_PmapEntries => emit (PMapEntries dst state_idx)
  | SB_PmapKeys => emit (PMapKeys dst state_idx)
  | SB_PmapValues => emit (PMapValues dst state_idx)
  | SB_PvecToArray => emit (PVecToArray dst state_idx)
  end.

(** A call of a module, a host import or a function of the module. *)
Definition call_instr (module : option bytes) (name : bytes) (n_args : nat) (span : Span) (dst args_start : Z) :
    CM unit :=
  let n := as_u8 (Z.of_nat n_args) in
  match module with
  | Some mod_name =>
      if bool_decide (name = str "bind") && bool_decide (mod_name ∈ ce_iface_index env) && (n_args =? 1)%nat then
        iface_name_idx ← const_idx (CStr mod_name);
        emit (MakeInterface dst iface_name_idx args_start)
      else
        module_name_idx ← const_idx (CStr mod_name);
        fn_name_idx ← const_idx (CStr name);
        let flags := default (false, false) (ce_extern_fn_flags env !! (mod_name, name)) in
        emit (CallExternal dst module_name_idx fn_name_idx args_start n flags.1 flags.2)
  | None =>
      match ce_import_index env !! name with
      | Some import_idx => emit (CallHost dst (as_u16 import_idx) args_start n)
      | None =>
          fn_idx ← require (ce_fn_index env !! name) (str "unknown function '" ++ name ++ str "'") span;
          emit (Call dst (as_u16 fn_idx) args_start n)
      end
  end.

(** The name decides first, whatever module qualifies it. *)
Definition compile_named_call (module : option bytes) (name : bytes) (args : list Expr) (span : Span) (dst : Z) : CM unit :=
  match state_builtin name with
  | Some b => compile_state_builtin b name args span dst
  | None =>
      let aggregator_shadowed := is_aggregator name && bool_decide (is_Some (ce_fn_index env !! name)) in
      if negb aggregator_shadowed && bool_decide (name ∈ generic_builtins) then
        compile_args cexpr args (λ args_start,
          name_idx ← const_idx (CStr name);
          emit (BuiltinCall dst name_idx args_start (as_u8 (zlen args))))
      else
        match context_kind name, args with
        | Some kind, [] => emit (Context dst kind)
        | _, _ =>
            match convert_target name, args with
            | Some target, [a] => unary_into (cexpr a) (λ r, Convert dst r target)
            | _, _ => compile_args cexpr args (call_instr module name (length args) span dst)
            end
        end
  end.
Definition compile_call (module : option bytes) (name : bytes) (args : list Expr) (span : Span) (dst : Z) : CM unit :=
  match args with
  | [a] =>
      match unary_builtin name with
      | Some instr => unary_into (cexpr a) (instr dst)
      | None => compile_named_call module name args span dst
      end
  | _ => compile_named_call module name args span dst
  end.
End calls.

(** A name: a local, a state, or a constant whose value is compiled in place. *)
Definition compile_ident (inline : Expr → Z → CM unit) (name : bytes) (span : Span) (dst : Z) : CM unit :=
  local ← lookup_local name;
  match local with
  | Some reg => if reg =? dst then mret tt else emit (Move dst reg)
  | None =>
      match ce_state_index env !! name with
      | Some idx => emit (KvGet dst (as_u16 idx))
      | None =>
          match ce_module_consts env !! name with
          | Some value => inline value dst
          | None => fail_at (str "undefined variable '" ++ name ++ str "'") span
          end
      end
  end.

(** The state of an index expression, when it is one of the keyed kinds. *)
Inductive Keyed := K_Map | K_PMap | K_PBTree | K_PVec.
Definition keyed_kind (ty : Ty) : option Keyed :=
  match ty with
  | TMap _ _ => Some K_Map | TPMap _ _ => Some K_PMap | TPBTree _ _ => Some K_PBTree | TPVec _ => Some K_PVec
  | _ => None
  end.
Definition keyed_state (target : Expr) : CM (option (Z * Keyed)) :=
  match target with
  | mkExpr (E_Ident state_name) _ =>
      match ce_state_index env !! state_name with
      | Some idx => ty ← state_ty idx; mret (k ← keyed_kind ty; Some (as_u16 idx, k))
      | None => mret None
      end
  | _ => mret None
  end.
Definition get_keyed (k : Keyed) (dst state_idx key_reg : Z) : Instr :=
  match k with
  | K_PMap => PMapGet dst state_idx key_reg
  | K_PBTree => PBTreeGet dst state_idx key_reg
  | K_PVec => PVecGet dst state_idx key_reg
  | K_Map => MapGet dst state_idx key_reg
  end.
Definition put_keyed (k : Keyed) (state_idx key_reg src : Z) : Instr :=
  match k with
  | K_PMap => PMapPut state_idx key_reg src
  | K_PBTree => PBTreePut state_idx key_reg src
  | K_PVec => PVecSet state_idx key_reg src
  | K_Map => MapPut state_idx key_reg src
  end.
Definition compile_index (target_expr : Expr) (target key : Z → CM unit) (dst : Z) : CM unit :=
  keyed ← keyed_state target_expr;
  match keyed with
  | Some (idx, k) => unary_into key (get_keyed k dst idx)
  | None =>
      arr_reg ← alloc;
      _ ← target arr_reg;
      idx_reg ← alloc;
      _ ← key idx_reg;
      _ ← emit (ArrayGet dst arr_reg idx_reg);
      _ ← free idx_reg;
      free arr_reg
  end.

(** [FieldGet] along a chain, the last into [dst]. *)
Fixpoint project_chain (chain : list bytes) (tmp dst : Z) : CM unit :=
  match chain with
  | [] => mret tt
  | fname :: rest =>
      name_idx ← const_idx (CStr fname);
      _ ← emit (FieldGet (match rest with [] => dst | _ => tmp end) tmp name_idx);
      project_chain rest tmp dst
  end.
Definition compile_field (e : Expr) (target : Z → CM unit) (name : bytes) (dst : Z) : CM unit :=
  path ← try_state_field_path e;
  match path with
  | Some (state_idx, path) =>
      '(path_idx, chain) ← intern_path state_idx path;
      match chain with
      | [] => emit (KvGetPath dst path_idx)
      | _ =>
          tmp ← alloc;
          _ ← emit (KvGetPath tmp path_idx);
          _ ← project_chain chain tmp dst;
          free tmp
      end
  | None =>
      src ← alloc;
      _ ← target src;
      name_idx ← const_idx (CStr name);
      _ ← emit (FieldGet dst src name_idx);
      free src
  end.

(** ** Forms of statements *)

(** The levels below the cell of a group: the structs on the way to the field are
    loaded, the field is set, and each struct is put back into its parent. *)
Fixpoint alloc_list (n : nat) : CM (list Z) :=
  match n with O => mret [] | S n' => r ← alloc; rs ← alloc_list n'; mret (r :: rs) end.
Fixpoint load_chain (chain : list bytes) (tmps : list Z) : CM unit :=
  match chain, tmps with
  | name :: rest, t :: (t' :: _) as ts =>
      name_idx ← const_idx (CStr name); _ ← emit (FieldGet t' t name_idx); load_chain rest ts
  | _, _ => mret tt
  end.
Fixpoint store_chain (chain : list bytes) (tmps : list Z) (value_reg : Z) : CM unit :=
  match chain, tmps with
  | name :: rest, t :: ts =>
      val ← match ts with
            | t' :: _ => _ ← store_chain rest ts value_reg; mret t'
            | [] => mret value_reg
            end;
      name_idx ← const_idx (CStr name);
      emit (FieldSet t name_idx val)
  | _, _ => mret tt
  end.
Definition assign_chain (chain : list bytes) (path_idx value_reg : Z) : CM unit :=
  tmps ← alloc_list (length chain);
  tmp0 ← expect_some (head tmps);
  _ ← emit (KvGetPath tmp0 path_idx);
  _ ← load_chain chain tmps;
  _ ← store_chain chain tmps value_reg;
  _ ← emit (KvPutPath tmp0 path_idx);
  free_all (reverse tmps).

Definition assign_ident (name : bytes) (span : Span) (value_reg : Z) : CM unit :=
  local ← lookup_local name;
  match local with
  | Some local_reg => if value_reg =? local_reg then mret tt else emit (Move local_reg value_reg)
  | None =>
      idx ← require (ce_state_index env !! name) (str "'" ++ name ++ str "' is not assignable") span;
      emit (KvPut value_reg (as_u16 idx))
  end.
Definition assign_index (t : Expr) (key : Z → CM unit) (span : Span) (value_reg : Z) : CM unit :=
  match t with
  | mkExpr (E_Ident state_name) t_span =>
      state_idx ← require (ce_state_index env !! state_name) (str "'" ++ state_name ++ str "' is not a state") t_span;
      ty ← state_ty state_idx;
      k ← require (keyed_kind ty)
            (str "'" ++ state_name ++ str "' is not indexable; only map/pmap/pvec cells can be assigned by index") t_span;
      key_reg ← alloc;
      _ ← key key_reg;
      _ ← emit (put_keyed k (as_u16 state_idx) key_reg value_reg);
      _ ← match k with
          | K_PMap => maintain_indexes (put_index key_reg) value_reg (indexes_of state_name)
          | _ => mret tt
          end;
      free key_reg
  | _ => fail_at (str "indexed assignment target must be a state name") span
  end.
(** [parent] assigns the changed struct to the target of the field. *)
Definition assign_field (e : Expr) (inner parent : Z → CM unit) (name : bytes) (value_reg : Z) : CM unit :=
  path ← try_state_field_path e;
  match path with
  | Some (state_idx, path) =>
      '(path_idx, chain) ← intern_path state_idx path;
      match chain with
      | [] => emit (KvPutPath value_reg path_idx)
      | _ => assign_chain chain path_idx value_reg
      end
  | None =>
      tmp ← alloc;
      _ ← inner tmp;
      name_idx ← const_idx (CStr name);
      _ ← emit (FieldSet tmp name_idx value_reg);
      _ ← parent tmp;
      free tmp
  end.

Definition compile_delete (t : Expr) (key : Z → CM unit) (span : Span) : CM unit :=
  match t with
  | mkExpr (E_Ident state_name) _ =>
      state_idx ← require (ce_state_index env !! state_name) (str "'" ++ state_name ++ str "' is not a state") span;
      ty ← state_ty state_idx;
      is_pbtree ← match ty with
                  | TPBTree _ _ => mret true
                  | TPMap _ _ => mret false
                  | _ => fail_at (str "delete: '" ++ state_name ++ str "' must be a pmap or pbtree state") span
                  end;
      let idx := as_u16 state_idx in
      key_reg ← alloc;
      _ ← key key_reg;
      prior_reg ← alloc;
      _ ← emit (if is_pbtree : bool then PBTreeGet prior_reg idx key_reg else PMapGet prior_reg idx key_reg);
      _ ← maintain_indexes (remove_index key_reg) prior_reg (indexes_of state_name);
      _ ← emit (if is_pbtree : bool then PBTreeDelete idx key_reg else PMapDelete idx key_reg);
      _ ← free prior_reg;
      free key_reg
  | _ => fail_at (str "delete target must be a state slot") span
  end.

Definition compile_break (span : Span) : CM unit :=
  loops ← gets co_loop_stack;
  match loops with
  | [] => fail_at (str "'break' outside of a loop") span
  | _ => pos ← emit_at (Jump 0); add_jump true pos
  end.
(** In the body of [parallel for] and no loop within it, the leg is skipped. *)
Definition compile_continue (span : Span) : CM unit :=
  loops ← gets co_loop_stack;
  depth ← gets co_parallel_for_depth;
  base ← gets co_parallel_for_loop_base;
  if (0 <? depth) && (zlen loops =? default 0 (head base)) then emit ParallelForSkip
  else
    match loops with
    | [] => fail_at (str "'continue' outside of a loop") span
    | _ => pos ← emit_at (Jump 0); add_jump false pos
    end.

Fixpoint bind_tuple (tuple_reg : Z) (names : list bytes) (i : Z) : CM unit :=
  match names with
  | [] => mret tt
  | name :: rest =>
      r ← alloc;
      _ ← emit (TupleGet r tuple_reg (as_u16 i));
      _ ← bind_local name r;
      bind_tuple tuple_reg rest (i + 1)
  end.

Section parallel.
Context (leg : Stmt → CM (option Z)).
Fixpoint parallel_ranges (ss : list Stmt) : CM (list ParallelRange) :=
  match ss with
  | [] => mret []
  | s :: rest =>
      start ← here;
      dst ← leg s;
      _ ← emit (ParallelYield dst);
      end_ ← here;
      ranges ← parallel_ranges rest;
      mret (mkRange start end_ dst :: ranges)
  end.
Definition compile_parallel (ss : list Stmt) : CM unit :=
  parallel_pos ← emit_at (ParallelBegin [] 0);
  ranges ← parallel_ranges ss;
  after_pc ← here;
  replace_at parallel_pos (ParallelBegin ranges after_pc).
End parallel.
Definition compile_parallel_for (id_var : bytes) (idx_var : option bytes) (source : Z → CM unit) (output : Expr)
    (body : Z → CM unit) : CM unit :=
  source_reg ← alloc;
  _ ← source source_reg;
  output_reg ← match output with
               | mkExpr (E_Ident name) span =>
                   local ← lookup_local name;
                   require local (str "parallel-for output `" ++ name ++ str "` must be a local array binding") span
               | mkExpr _ span => fail_at (str "parallel-for output must be a local array binding (slice 1)") span
               end;
  id_reg ← alloc;
  idx_reg ← alloc;
  _ ← push_scope;
  _ ← bind_local id_var id_reg;
  _ ← match idx_var with Some idx => bind_local idx idx_reg | None => mret tt end;
  dispatch_pos ← emit_at (ParallelForBegin 0 0 source_reg output_reg id_reg idx_reg 0);
  body_start ← here;
  tail_reg ← alloc;
  _ ← modify (λ s, set_pfor (co_parallel_for_depth s + 1)
                     (zlen (co_loop_stack s) :: co_parallel_for_loop_base s) s);
  _ ← body tail_reg;
  _ ← modify (λ s, set_pfor (co_parallel_for_depth s - 1) (tail (co_parallel_for_loop_base s)) s);
  _ ← emit (ParallelYield (Some tail_reg));
  body_end ← here;
  _ ← pop_scope;
  replace_at dispatch_pos (ParallelForBegin body_start body_end source_reg output_reg id_reg idx_reg body_end).

(** [if] with branches that leave nothing, or their value, behind. *)
Definition compile_branches (cond : Z → CM unit) (then_ else_ : CM unit) : CM unit :=
  cond_r ← alloc;
  _ ← cond cond_r;
  jif_pos ← emit_at (JumpIfFalse cond_r 0);
  _ ← free cond_r;
  _ ← then_;
  jmp_end_pos ← emit_at (Jump 0);
  else_pos ← here;
  _ ← patch_jump jif_pos else_pos;
  _ ← else_;
  end_pos ← here;
  patch_jump jmp_end_pos end_pos.

(** The statements of a block in a scope of their own, then its tail; the registers
    are released together. *)
Definition in_block (stmts tail : CM unit) : CM unit :=
  _ ← push_scope;
  saved ← next_reg;
  _ ← stmts;
  _ ← tail;
  _ ← pop_scope;
  set_next_reg saved.
(** A value that is not used. *)
Definition discard (value : Z → CM unit) : CM unit := r ← alloc; _ ← value r; free r.
Section stmts.
Context (cstmt : Stmt → CM unit).
Fixpoint compile_stmts (ss : list Stmt) : CM unit :=
  match ss with [] => mret tt | s :: rest => _ ← cstmt s; compile_stmts rest end.
End stmts.

(** ** The compiler

    [inline] compiles an expression that is no part of the tree: the value of a
    constant, the default element of an array. *)
Section tree.
Context (inline : Expr → Z → CM unit).

Fixpoint compile_expr_into (e : Expr) (dst : Z) {struct e} : CM unit :=
  match e with mkExpr kind span =>
  match kind with
  | E_Int n => emit_const dst (CInt n)
  | E_UInt n => emit_const dst (CUInt n)
  | E_Float n => emit_const dst (CFloat n)
  | E_JsonNull => json_call "_json_null" [] 0 dst
  | E_JsonObject pairs => compile_json_object (λ e r, compile_expr_into e r) pairs dst
  | E_JsonArray items => compile_json_array (λ e r, compile_expr_into e r) items dst
  | E_I32 n => emit_const dst (CI32 n)
  | E_U32 n => emit_const dst (CU32 n)
  | E_U64 n => emit_const dst (CU64 n)
  | E_U128 n => emit_const dst (CU128 n)
  | E_Bool b => emit_const dst (CBool b)
  | E_Str s => emit_const dst (CStr s)
  | E_Ident name => compile_ident inline name span dst
  | E_Binary op lhs rhs =>
      _ ← compile_expr_into lhs dst;
      unary_into (λ r, compile_expr_into rhs r) (λ rhs_r, Bin op dst dst rhs_r)
  | E_Unary op operand => _ ← compile_expr_into operand dst; emit (Un op dst dst)
  | E_Index target key =>
      compile_index target (λ r, compile_expr_into target r) (λ r, compile_expr_into key r) dst
  | E_Array elems =>
      compile_args (λ e r, compile_expr_into e r) elems
        (λ args_start, emit (MakeArray dst args_start (as_u16 (zlen elems))))
  | E_ArrayAlloc elem_ty len =>
      len_reg ← alloc;
      _ ← compile_expr_into len len_reg;
      default_reg ← alloc;
      default_expr ← lift (default_expr_for_type elem_ty span);
      _ ← inline default_expr default_reg;
      emit (ArrayAlloc dst len_reg default_reg)
  | E_Reserve count state =>
      count_reg ← alloc;
      _ ← compile_expr_into count count_reg;
      state_idx ← require (ce_state_index env !! state)
        (str "`reserve ... from " ++ state ++ str "`: `" ++ state ++ str "` is not a state slot") span;
      emit (Reserve dst (as_u16 state_idx) count_reg)
  | E_ExplicitLiteral inner => compile_expr_into inner dst
  | E_StructLit name fields => compile_struct_lit (λ e r, compile_expr_into e r) name fields span dst
  | E_Field target name => compile_field e (λ r, compile_expr_into target r) name dst
  | E_Prev =>
      pipes ← gets co_pipe_stack;
      r ← require (head pipes) (str "$$ used outside of a pipe stage") span;
      if r =? dst then mret tt else emit (Move dst r)
  | E_Pipe head step =>
      stash ← alloc;
      _ ← compile_expr_into head stash;
      _ ← modify (λ s, set_pipes (stash :: co_pipe_stack s) s);
      _ ← compile_expr_into step dst;
      _ ← modify (λ s, set_pipes (tail (co_pipe_stack s)) s);
      free stash
  | E_SetLit elems =>
      compile_args (λ e r, compile_expr_into e r) elems
        (λ args_start, emit (MakeSet dst args_start (as_u16 (zlen elems))))
  | E_DictLit pairs => compile_dict (λ e r, compile_expr_into e r) pairs dst
  | E_SetComp mapper clauses =>
      _ ← emit (MakeSet dst 0 0);
      lower_comp (λ e r, compile_expr_into e r) (SetInsert (λ r, compile_expr_into mapper r) dst) [mapper] true clauses
  | E_DictComp key value clauses =>
      _ ← emit (MakeDict dst 0 0);
      lower_comp (λ e r, compile_expr_into e r)
        (DictSet (λ r, compile_expr_into key r) (λ r, compile_expr_into value r) dst) [key; value] true clauses
  | E_ListComp mapper clauses =>
      _ ← emit (MakeArray dst 0 0);
      lower_comp (λ e r, compile_expr_into e r) (ListAppend (λ r, compile_expr_into mapper r) dst) [mapper] true clauses
  | E_DynCall target_ident method args method_is_view method_is_pure =>
      target_reg ← alloc;
      _ ← compile_ident inline target_ident span target_reg;
      _ ← compile_args (λ e r, compile_expr_into e r) args (λ args_start,
            fn_name_idx ← const_idx (CStr method);
            emit (CallExternalDyn dst target_reg fn_name_idx args_start (as_u8 (zlen args))
                    method_is_view method_is_pure));
      free target_reg
  | E_Call module name args => compile_call (λ e r, compile_expr_into e r) module name args span dst
  | E_TupleLit elems =>
      compile_args (λ e r, compile_expr_into e r) elems
        (λ args_start, emit (MakeTuple dst args_start (as_u16 (zlen elems))))
  | E_TupleIndex target index =>
      unary_into (λ r, compile_expr_into target r) (λ src, TupleGet dst src (as_u16 index))
  | E_Block block => compile_block_into block dst
  | E_If cond then_ else_branch =>
      compile_branches (λ r, compile_expr_into cond r) (compile_block_into then_ dst)
        match else_branch with
        | ElseNone => emit_const dst (CBool false)
        | ElseBlock b => compile_block_into b dst
        | ElseIf inner => compile_if_into inner dst
        end
  | E_EnumCtor enum_name variant args =>
      shape_idx ← require (ce_enum_index env !! enum_name) (str "unknown enum '" ++ enum_name ++ str "'") span;
      shape ← expect_some (get_z (ce_enum_shapes env) shape_idx);
      variant_idx ← require (fst <$> list_find (variant =.) (variant_names shape))
        (str "enum '" ++ enum_name ++ str "' has no variant '" ++ variant ++ str "'") span;
      compile_args (λ e r, compile_expr_into e r) args (λ args_start,
        emit (MakeEnum dst (as_u16 shape_idx) (as_u16 (Z.of_nat variant_idx)) args_start (as_u16 (zlen args))))
  | E_Match scrut arms => compile_match (λ e r, compile_expr_into e r) (λ r, compile_expr_into scrut r) arms dst
  end end
(** [compile_block_into], and [ExprKind::Block]. *)
with compile_block_into (b : Block) (dst : Z) {struct b} : CM unit :=
  match b with mkBlock ss t _ =>
    in_block (compile_stmts (λ s, compile_stmt s) ss)
      match t with Some t => compile_expr_into t dst | None => emit_const dst (CBool false) end
  end
(** An [else if] in an expression. *)
with compile_if_into (ifs : IfStmt) (dst : Z) {struct ifs} : CM unit :=
  match ifs with mkIf cond then_ else_branch _ =>
    compile_branches (λ r, compile_expr_into cond r) (compile_block_into then_ dst)
      match else_branch with
      | ElseNone => emit_const dst (CBool false)
      | ElseBlock b => compile_block_into b dst
      | ElseIf inner => compile_if_into inner dst
      end
  end
with compile_block (b : Block) {struct b} : CM unit :=
  match b with mkBlock ss t _ =>
    in_block (compile_stmts (λ s, compile_stmt s) ss)
      match t with Some t => discard (λ r, compile_expr_into t r) | None => mret tt end
  end
with compile_if (ifs : IfStmt) {struct ifs} : CM unit :=
  match ifs with mkIf cond then_ else_branch _ =>
    compile_branches (λ r, compile_expr_into cond r) (compile_block then_)
      match else_branch with
      | ElseNone => mret tt
      | ElseBlock b => compile_block b
      | ElseIf inner => compile_if inner
      end
  end
with assign_path (target : Expr) (value_reg : Z) {struct target} : CM unit :=
  match target with
  | mkExpr (E_Ident name) span => assign_ident name span value_reg
  | mkExpr (E_Index t key) span => assign_index t (λ r, compile_expr_into key r) span value_reg
  | mkExpr (E_Field inner name) _ =>
      assign_field target (λ r, compile_expr_into inner r) (λ r, assign_path inner r) name value_reg
  | mkExpr _ span => fail_at (str "invalid assignment target") span
  end
with compile_stmt (stmt : Stmt) {struct stmt} : CM unit :=
  match stmt with
  | S_Let name _ value _ =>
      r ← alloc; _ ← compile_expr_into value r; bind_local name r
  | S_Assign target value _ =>
      val_reg ← alloc;
      _ ← compile_expr_into value val_reg;
      _ ← assign_path target val_reg;
      free val_reg
  | S_Return (Some e) _ =>
      r ← alloc; _ ← compile_expr_into e r; _ ← emit (Return r); free r
  | S_Return None _ => emit ReturnUnit
  | S_If if_stmt => compile_if if_stmt
  | S_While cond body _ => compile_while (λ r, compile_expr_into cond r) (compile_block body)
  | S_For var iter limit body _ =>
      compile_for var iter (λ r, compile_expr_into iter r)
        (scan_loop_body var (ce_states_by_name env) (ce_summaries env) body)
        match limit with Some lim => Some (λ r, compile_expr_into lim r) | None => None end
        (compile_block body)
  | S_ForRange var start end_ inclusive body _ =>
      compile_for_range var (λ r, compile_expr_into start r) (λ r, compile_expr_into end_ r) inclusive
        (compile_block body)
  | S_Placeholder _ => lift Panic
  | S_Break span => compile_break span
  | S_Continue span => compile_continue span
  | S_Expr e => discard (λ r, compile_expr_into e r)
  | S_Delete (mkExpr (E_Index t key) _) span => compile_delete t (λ r, compile_expr_into key r) span
  | S_Delete _ span => fail_at (str "delete target must be `state[key]`") span
  | S_Emit value _ =>
      r ← alloc; _ ← compile_expr_into value r; _ ← emit (Emit r); free r
  | S_LetTuple names value _ =>
      tuple_reg ← alloc; _ ← compile_expr_into value tuple_reg; bind_tuple tuple_reg names 0
  | S_Parallel ss _ =>
      compile_parallel (λ s,
        match s with
        | S_Let name _ value _ =>
            r ← alloc; _ ← compile_expr_into value r; _ ← bind_local name r; mret (Some r)
        | s => _ ← compile_stmt s; mret None
        end) ss
  | S_ParallelForTo id_var idx_var source output body _ =>
      compile_parallel_for id_var idx_var (λ r, compile_expr_into source r) output (λ r, compile_block_into body r)
  end.

(** The body of a function: its tail is returned. *)
Definition compile_fn_body (b : Block) : CM unit :=
  in_block (compile_stmts compile_stmt (bl_stmts b))
    match bl_tail b with
    | Some t => r ← alloc; _ ← compile_expr_into t r; _ ← emit (Return r); free r
    | None => mret tt
    end.
End tree.

(** The compiler with [fuel] expressions compiled in place within one another. *)
Fixpoint inline_expr (fuel : nat) (e : Expr) (dst : Z) : CM unit :=
  match fuel with
  | O => lift OutOfFuel
  | S fuel' => compile_expr_into (inline_expr fuel') e dst
  end.

Definition ends_in_return (c : list Instr) : bool :=
  match last c with Some (Return _) | Some ReturnUnit => true | _ => false end.
Definition param_scope (params : list Param) : gmap bytes Z :=
  foldl (λ scope p, <[pm_name p.2 := as_u16 (Z.of_nat p.1)]> scope) ∅ (imap pair params).
End compile.

(** [compile_fn] takes the paths interned so far and answers those after. *)
Definition compile_fn (fuel : nat) (env : CEnv) (f : FnDef) (paths : list PathSpec * gmap (Z * list bytes) Z) :
    outcome (BcFn * (list PathSpec * gmap (Z * list bytes) Z)) :=
  let n := as_u16 (zlen (fd_params f)) in
  let '(result, s) := compile_fn_body env (inline_expr env fuel) (fd_body f)
    (mkComp paths.1 paths.2 [] [] n n [param_scope (fd_params f)] [] [] 0 []) in
  _ ← result;
  let c := if ends_in_return (co_code s) then co_code s else co_code s ++ [ReturnUnit] in
  Ok (mkFn (fd_name f) n (co_max_reg s) c (co_consts s) (fd_is_entry f) (fd_is_nore f) []
        (pm_ty <$> fd_params f) (fd_return_type f) (fd_is_view f) (fd_is_pure f),
      (co_path_specs s, co_path_index s)).

(** ** Modules *)

(** A map from names to positions; a later name overwrites. *)
Definition index_by {A} (name : A → bytes) (l : list A) : gmap bytes Z :=
  foldl (λ out p, <[name p.2 := Z.of_nat p.1]> out) ∅ (imap pair l).

Definition struct_shape (name : bytes) (fields : list StructField) (is_pub : bool) : StructShape :=
  mkStructShape name (sf_name <$> fields) ((λ f, strip_explicit_literal (sf_ty f)) <$> fields)
    (sf_group <$> fields) is_pub.
(** Capabilities follow the structs in one table. *)
Definition shapes_of (m : SrcModule) : list StructShape :=
  ((λ s, struct_shape (sd_name s) (sd_fields s) (sd_is_pub s)) <$> sm_structs m) ++
  ((λ c, struct_shape (cd_name c) (cd_fields c) false) <$> sm_caps m).
Definition indexes_by_primary (m : SrcModule) : gmap bytes (list IndexDecl) :=
  foldl (λ out idx, <[id_on_state idx := default [] (out !! id_on_state idx) ++ [idx]]> out) ∅ (sm_indexes m).
Definition states_by_name (m : SrcModule) : gmap bytes Ty :=
  collect ((λ s, (st_name s, st_ty s)) <$> sm_states m).
Definition module_env (m : SrcModule) (module_name : bytes) (iface_externals : gset bytes)
    (extern_fn_flags : gmap (bytes * bytes) (bool * bool)) : CEnv :=
  mkCEnv (index_by fd_name (sm_functions m)) (index_by ip_name (sm_imports m)) (index_by st_name (sm_states m))
    ((λ s, strip_explicit_literal (st_ty s)) <$> sm_states m)
    ((λ s, state_root module_name (st_name s)) <$> sm_states m)
    (index_by sh_name (shapes_of m)) (shapes_of m) (states_by_name m) (summarize_fns m (states_by_name m))
    (index_by ed_name (sm_enums m)) ((λ e, mkEnumShape (ed_name e) (ev_name <$> ed_variants e)) <$> sm_enums m)
    (list_to_set (if_name <$> sm_interfaces m) ∪ iface_externals)
    (collect ((λ c, (cn_name c, cn_value c)) <$> sm_consts m))
    extern_fn_flags (indexes_by_primary m).

Fixpoint compile_fns (fuel : nat) (env : CEnv) (fs : list FnDef) (paths : list PathSpec * gmap (Z * list bytes) Z) :
    outcome (list BcFn * list PathSpec) :=
  match fs with
  | [] => Ok ([], paths.1)
  | f :: rest =>
      '(bf, paths') ← compile_fn fuel env f paths;
      '(bfs, specs) ← compile_fns fuel env rest paths';
      Ok (bf :: bfs, specs)
  end.

(** The dispatch table: the handlers of [module::event] in declaration order. *)
Fixpoint dispatch_table (env : CEnv) (module_name : bytes) (hs : list HandlerDecl) (out : gmap bytes (list Z)) :
    outcome (gmap bytes (list Z)) :=
  match hs with
  | [] => Ok out
  | h :: rest =>
      match ce_fn_index env !! fd_name (hd_fn_def h) with
      | Some idx =>
          let key := default module_name (hd_event_module h) ++ str "::" ++ hd_event_type h in
          dispatch_table env module_name rest (<[key := default [] (out !! key) ++ [as_u16 idx]]> out)
      | None =>
          compile_error (str "handler '" ++ fd_name (hd_fn_def h) ++ str "' missing from fn index (internal)") (hd_span h)
      end
  end.

(** The fuel: a constant may name the constants before it, and an array may end
    the chain. *)
Definition inline_fuel (m : SrcModule) : nat := length (sm_consts m) + 2.

Definition compile_named_with_extras (m : SrcModule) (module_name : bytes) (iface_externals : gset bytes)
    (extern_fn_flags : gmap (bytes * bytes) (bool * bool)) : outcome BcModule :=
  let env := module_env m module_name iface_externals extern_fn_flags in
  '(bc_fns, path_specs) ← compile_fns (inline_fuel m) env (sm_functions m) ([], ∅);
  handler_dispatch ← dispatch_table env module_name (sm_handlers m) ∅;
  Ok (mkModule module_name (ip_name <$> sm_imports m) (ce_import_index env) (ce_state_roots env)
        (ce_state_types env) ((λ s, default_for (st_ty s)) <$> sm_states m) (st_name <$> sm_states m)
        (ce_state_index env) (ce_struct_shapes env) (ce_struct_index env) bc_fns (ce_fn_index env) path_specs
        handler_dispatch (ce_enum_shapes env) (ce_enum_index env) (sm_interfaces m)
        (index_by if_name (sm_interfaces m))).
Definition compile_named_with_iface_externals (m : SrcModule) (module_name : bytes) (iface_externals : gset bytes) :
    outcome BcModule := compile_named_with_extras m module_name iface_externals ∅.
Definition compile_named (m : SrcModule) (module_name : bytes) : outcome BcModule :=
  compile_named_with_iface_externals m module_name ∅.
Definition compile (m : SrcModule) : outcome BcModule := compile_named m (str "main").
