(* ===== verification/CompileFacts.v ===== *)
(** The code the compiler makes stays within its bounds: every register, constant,
    path, state, function and shape an instruction names exists, and every jump
    lands in the code. *)
From S2P Require Import Prelude Bytes Hashing Values TxTyped JsonText Display Ops Bytecode Ast Effects Prefetch Compile.

(** ** Instructions within bounds *)
Record Bounds := mkBounds {
  b_regs : Z; b_consts : Z; b_paths : Z; b_len : Z;
  b_states : Z; b_imports : Z; b_fns : Z; b_structs : Z; b_enums : Z;
}.

Definition below (n i : Z) : Prop := 0 <= i < n.
Definition span_ok (n start count : Z) : Prop := 0 <= start ∧ 0 <= count ∧ start + count <= n.
Definition target_ok (b : Bounds) (pos off : Z) : Prop := 0 <= pos + 1 + off <= b_len b.
Definition range_ok (b : Bounds) (r : ParallelRange) : Prop :=
  0 <= pr_start r <= pr_end r ∧ pr_end r <= b_len b ∧ match pr_dst r with Some d => below (b_regs b) d | None => True end.

(** What an instruction at [pos] names exists. *)
Definition instr_ok (b : Bounds) (pos : Z) (i : Instr) : Prop :=
  let reg := below (b_regs b) in
  let const := below (b_consts b) in
  let state := below (b_states b) in
  let path := below (b_paths b) in
  match i with
  | LoadConst dst idx => reg dst ∧ const idx
  | Move dst src | Un _ dst src | BuiltinResource dst src | BuiltinUnwrap dst src | BuiltinAddress dst src
  | BuiltinLen dst src | Convert dst src _ | TupleGet dst src _ | EnumTag dst src | EnumPayload dst src _ =>
      reg dst ∧ reg src
  | Bin _ dst lhs rhs | ArrayGet dst lhs rhs | ArrayAppend dst lhs rhs | ArrayAlloc dst lhs rhs =>
      reg dst ∧ reg lhs ∧ reg rhs
  | Jump off => target_ok b pos off
  | JumpIfFalse cond off => reg cond ∧ target_ok b pos off
  | PMapWalkNext cursor value off | PBTreeWalkNext cursor value off => reg cursor ∧ reg value ∧ target_ok b pos off
  | Call dst fn_idx start n => reg dst ∧ below (b_fns b) fn_idx ∧ span_ok (b_regs b) start n
  | CallHost dst import_idx start n => reg dst ∧ below (b_imports b) import_idx ∧ span_ok (b_regs b) start n
  | CallExternal dst m f start n _ _ => reg dst ∧ const m ∧ const f ∧ span_ok (b_regs b) start n
  | CallExternalDyn dst target f start n _ _ => reg dst ∧ reg target ∧ const f ∧ span_ok (b_regs b) start n
  | MakeInterface dst idx target => reg dst ∧ const idx ∧ reg target
  | Return src | Emit src | IncReg src => reg src
  | ReturnUnit | ParallelForSkip | ReadBatch _ => True
  | MakeArray dst start n | MakeSet dst start n | MakeTuple dst start n => reg dst ∧ span_ok (b_regs b) start n
  | MakeDict dst start n => reg dst ∧ span_ok (b_regs b) start (2 * n)
  | BuiltinCall dst name start n => reg dst ∧ const name ∧ span_ok (b_regs b) start n
  | MakeStruct dst shape start n => reg dst ∧ below (b_structs b) shape ∧ span_ok (b_regs b) start n
  | MakeEnum dst shape _ start n => reg dst ∧ below (b_enums b) shape ∧ span_ok (b_regs b) start n
  | FieldGet dst src name => reg dst ∧ reg src ∧ const name
  | FieldSet dst name val => reg dst ∧ const name ∧ reg val
  | KvGet r idx | KvPut r idx => reg r ∧ state idx
  | KvGetPath r idx | KvPutPath r idx => reg r ∧ path idx
  | PrefetchMap arr idx => reg arr ∧ state idx
  | ParallelBegin ranges after => Forall (range_ok b) ranges ∧ 0 <= after <= b_len b
  | ParallelYield value => match value with Some r => reg r | None => True end
  | ParallelForBegin body_start body_end source output id idx after =>
      (0 <= body_start <= body_end ∧ body_end <= after ∧ after <= b_len b) ∧
      reg source ∧ reg output ∧ reg id ∧ reg idx
  | Reserve dst idx count => reg dst ∧ state idx ∧ reg count
  | Context dst _ => reg dst
  | MapGet dst idx key | PMapGet dst idx key | PMapContains dst idx key | PVecGet dst idx key
  | PVecPush dst idx key | PBTreeGet dst idx key | PBTreeContains dst idx key => reg dst ∧ state idx ∧ reg key
  | MapPut idx key src | PMapPut idx key src | PVecSet idx key src | PMapAppendUnique idx key src
  | PMapPutUnique idx key src | PBTreePut idx key src | PBTreePutUnique idx key src
  | PBTreeAppendUnique idx key src | PMapRemoveUnique idx key src | PMapRemoveFromList idx key src
  | PBTreeRemoveUnique idx key src | PBTreeRemoveFromList idx key src => state idx ∧ reg key ∧ reg src
  | PVecLen dst idx | PMapEntries dst idx | PMapKeys dst idx | PMapValues dst idx | PVecToArray dst idx
  | PMapWalkInit dst idx | PBTreeWalkInit dst idx => reg dst ∧ state idx
  | PBTreeRange dst idx lo hi => reg dst ∧ state idx ∧ reg lo ∧ reg hi
  | PMapDelete idx key | PBTreeDelete idx key => state idx ∧ reg key
  end.

Definition code_ok (b : Bounds) (c : list Instr) : Prop := ∀ pos i, c !! pos = Some i → instr_ok b (Z.of_nat pos) i.

(** The bounds only grow. *)
Definition le_bounds (b b' : Bounds) : Prop :=
  b_regs b <= b_regs b' ∧ b_consts b <= b_consts b' ∧ b_paths b <= b_paths b' ∧ b_len b <= b_len b' ∧
  b_states b = b_states b' ∧ b_imports b = b_imports b' ∧ b_fns b = b_fns b' ∧ b_structs b = b_structs b' ∧
  b_enums b = b_enums b'.
Lemma instr_ok_le b b' pos i : le_bounds b b' → instr_ok b pos i → instr_ok b' pos i.
Proof.
  intros (H1 & H2 & H3 & H4 & E1 & E2 & E3 & E4 & E5).
  destruct i; cbn; unfold below, span_ok, target_ok; rewrite ?E1, ?E2, ?E3, ?E4, ?E5; try lia; try done.
  - intros [Hr Ha]. split; [|lia]. eapply Forall_impl; [exact Hr|]. intros r (Hb & He & Hd).
    split; [done|]. split; [lia|]. destruct (pr_dst r); [|done]. unfold below in *. lia.
  - destruct value; [|done]. lia.
Qed.

(** ** The logic of the compiler

    [ok m s Q]: when [m] answers from [s], it does so with [Q]; errors of the
    source program end the compilation. *)
Definition ok {A} (m : CM A) (s : Comp) (Q : A → Comp → Prop) : Prop :=
  match m s with (Ok a, s') => Q a s' | _ => True end.

Lemma ok_ret {A} (a : A) s (Q : A → Comp → Prop) : Q a s → ok (mret a) s Q.
Proof. done. Qed.
Lemma ok_bind {A B : Type} (m : CM A) (f : A → CM B) s Q : ok m s (λ a s', ok (f a) s' Q) → ok (m ≫= f) s Q.
Proof. unfold ok, mbind, SM_bind. by destruct (m s) as [[a|e| |] s']. Qed.
Lemma ok_mono {A} (m : CM A) s (P Q : A → Comp → Prop) : ok m s P → (∀ a s', P a s' → Q a s') → ok m s Q.
Proof. unfold ok. destruct (m s) as [[a|e| |] s']; auto. Qed.
Lemma ok_step {A B : Type} (m : CM A) (f : A → CM B) s P Q :
  ok m s P → (∀ a s', P a s' → ok (f a) s' Q) → ok (m ≫= f) s Q.
Proof. intros Hm Hf. apply ok_bind. eapply ok_mono; [exact Hm|exact Hf]. Qed.
Lemma ok_gets {A} (f : Comp → A) s (Q : A → Comp → Prop) : Q (f s) s → ok (gets f) s Q.
Proof. done. Qed.
Lemma ok_require {A} (o : option A) msg span s (Q : A → Comp → Prop) :
  (∀ a, o = Some a → Q a s) → ok (require o msg span) s Q.
Proof. destruct o; [|done]. intros H. by apply H. Qed.
Lemma ok_expect {A} (o : option A) s (Q : A → Comp → Prop) : (∀ a, o = Some a → Q a s) → ok (expect_some o) s Q.
Proof. destruct o; [|done]. intros H. by apply H. Qed.
Lemma ok_lift {A} (o : outcome A) s (Q : A → Comp → Prop) : (∀ a, o = Ok a → Q a s) → ok (lift o) s Q.
Proof. destruct o; [|done..]. intros H. by apply H. Qed.

Section inv.
Context (env : CEnv) (n_imports n_fns : Z).
Definition positions {K} `{Countable K} (n : Z) (m : gmap K Z) : Prop := ∀ k i, m !! k = Some i → below n i.
Record env_ok : Prop := mkEnvOk {
  ok_roots : length (ce_state_roots env) = length (ce_state_types env);
  ok_states : positions (zlen (ce_state_types env)) (ce_state_index env);
  ok_structs : positions (zlen (ce_struct_shapes env)) (ce_struct_index env);
  ok_enums : positions (zlen (ce_enum_shapes env)) (ce_enum_index env);
  ok_imports : positions n_imports (ce_import_index env);
  ok_fns : positions n_fns (ce_fn_index env);
}.

Abbreviation nx := co_next_reg.
Abbreviation mx := co_max_reg.
Abbreviation nc s := (zlen (co_consts s)).
Abbreviation np s := (zlen (co_path_specs s)).
Abbreviation ln s := (zlen (co_code s)).

Definition bounds (s : Comp) (len : Z) : Bounds :=
  mkBounds (mx s) (nc s) (np s) len (zlen (ce_state_types env)) n_imports n_fns
    (zlen (ce_struct_shapes env)) (zlen (ce_enum_shapes env)).
Definition frame_ok (n : Z) (f : LoopFrame) : Prop :=
  Forall (below n) (break_jumps f) ∧ Forall (below n) (continue_jumps f).
Definition scope_ok (n : Z) (scope : gmap bytes Z) : Prop := positions n scope.
Record inv (s : Comp) : Prop := mkInv {
  inv_regs : 0 <= nx s <= mx s;
  inv_code : code_ok (bounds s (ln s)) (co_code s);
  inv_scopes : Forall (scope_ok (mx s)) (co_scopes s);
  inv_pipes : Forall (below (mx s)) (co_pipe_stack s);
  inv_paths : positions (np s) (co_path_index s);
  inv_loops : Forall (frame_ok (ln s)) (co_loop_stack s);
}.
Definition grow (s s' : Comp) : Prop := mx s <= mx s' ∧ nc s <= nc s' ∧ np s <= np s' ∧ ln s <= ln s'.

Lemma below_le n m i : n <= m → below n i → below m i.
Proof. unfold below. lia. Qed.
Lemma Forall_below_le n m l : n <= m → Forall (below n) l → Forall (below m) l.
Proof. intros H Hl. eapply Forall_impl; [exact Hl|]. intros i. by apply below_le. Qed.
Lemma scope_ok_le n m l : n <= m → Forall (scope_ok n) l → Forall (scope_ok m) l.
Proof. intros H Hl. eapply Forall_impl; [exact Hl|]. intros sc Hsc k i E. eapply below_le, Hsc, E. done. Qed.
Lemma frame_ok_le n m l : n <= m → Forall (frame_ok n) l → Forall (frame_ok m) l.
Proof. intros H Hl. eapply Forall_impl; [exact Hl|]. intros f [Hb Hc]. split; by eapply Forall_below_le. Qed.
Lemma code_ok_le s s' l l' c : grow s s' → l <= l' → code_ok (bounds s l) c → code_ok (bounds s' l') c.
Proof. intros (H1 & H2 & H3 & _) Hl Hc pos i Hi. eapply instr_ok_le, Hc, Hi. by repeat split. Qed.
Lemma grow_refl s : grow s s.
Proof. unfold grow. lia. Qed.
Lemma grow_trans s1 s2 s3 : grow s1 s2 → grow s2 s3 → grow s1 s3.
Proof. unfold grow. lia. Qed.

(** A change that leaves code, constants and paths alone. *)
Lemma inv_change s s' : inv s →
  co_code s' = co_code s → co_consts s' = co_consts s → co_path_specs s' = co_path_specs s →
  co_path_index s' = co_path_index s → mx s <= mx s' → 0 <= nx s' <= mx s' →
  Forall (scope_ok (mx s')) (co_scopes s') → Forall (below (mx s')) (co_pipe_stack s') →
  Forall (frame_ok (ln s)) (co_loop_stack s') → inv s'.
Proof.
  intros Hi Ec Ek Es Ep Hm Hn Hsc Hp Hl. split; rewrite ?Ec, ?Es, ?Ep; try done.
  - eapply code_ok_le, (inv_code _ Hi); [|lia]. unfold grow. rewrite Ec, Ek, Es. lia.
  - apply Hi.
Qed.

(** *** The primitive steps *)
(** What each step answers, besides the invariant of the state after it. *)
Definition post {A} (s : Comp) (R : A → Comp → Prop) (a : A) (s' : Comp) : Prop := inv s' ∧ grow s s' ∧ R a s'.

Lemma ok_alloc s : inv s → ok alloc s (post s (λ r s', r = nx s ∧ nx s' = nx s + 1 ∧ ln s' = ln s)).
Proof.
  intros Hi. pose proof (inv_regs _ Hi) as Hr. unfold ok, alloc, post, grow. cbn. split; [|lia].
  apply (inv_change s); try done; cbn; try lia; [eapply scope_ok_le, Hi; lia|eapply Forall_below_le, Hi; lia|apply Hi].
Qed.
Lemma ok_set_next s r : inv s → 0 <= r <= mx s → ok (set_next_reg r) s (post s (λ _ s', nx s' = r ∧ ln s' = ln s)).
Proof.
  intros Hi Hr. unfold ok, set_next_reg, modify, post, grow. cbn. split; [|lia].
  apply (inv_change s); try done; cbn; try lia; apply Hi.
Qed.
Lemma ok_free s r : inv s → 0 <= r → ok (free r) s (post s (λ _ s', (nx s' = nx s ∨ (r + 1 = nx s ∧ nx s' = r)) ∧ ln s' = ln s)).
Proof.
  intros Hi Hr. unfold ok, free, modify, post, grow. destruct (Z.eqb_spec (r + 1) (nx s)); [|by cbn; auto 10 with lia].
  pose proof (inv_regs _ Hi). cbn. split; [|lia].
  apply (inv_change s); try done; cbn; try lia; apply Hi.
Qed.
Lemma ok_drop s n : inv s → Z.of_nat n <= nx s → ok (drop_n n) s (post s (λ _ s', nx s' = nx s - Z.of_nat n ∧ ln s' = ln s)).
Proof.
  intros Hi Hr. pose proof (inv_regs _ Hi). unfold ok, drop_n, modify, post, grow. cbn. split; [|lia].
  apply (inv_change s); try done; cbn; try lia; apply Hi.
Qed.
Lemma ok_emit s i : inv s → instr_ok (bounds s (ln s + 1)) (ln s) i →
  ok (emit i) s (post s (λ _ s', nx s' = nx s ∧ ln s' = ln s + 1)).
Proof.
  intros Hi Hok. unfold ok, emit, modify, post, grow. cbn. rewrite !zlen_app, zlen_cons, zlen_nil.
  split; [|lia]. split; cbn; rewrite ?zlen_app, ?zlen_cons, ?zlen_nil; try apply Hi.
  - intros pos j. rewrite lookup_app_Some, list_lookup_singleton_Some.
    intros [Hj|[Hp [Hq ->]]].
    + eapply instr_ok_le, (inv_code _ Hi), Hj. repeat split; cbn; try lia.
    + replace (Z.of_nat pos) with (ln s) by (unfold zlen; lia). done.
  - eapply frame_ok_le, Hi. lia.
Qed.
Lemma ok_const s c : inv s → ok (const_idx c) s (post s (λ i s', below (nc s') i ∧ nx s' = nx s ∧ ln s' = ln s)).
Proof.
  intros Hi. unfold ok, const_idx. assert (Hmod : ∀ k n, 0 <= k < n → below n (as_u16 k)).
  { intros k n Hk. unfold as_u16, below. pose proof (Z.mod_pos_bound k 65536 ltac:(lia)).
    pose proof (Z.mod_le k 65536 ltac:(lia) ltac:(lia)). lia. }
  destruct (list_find (c =.) (co_consts s)) as [[i c']|] eqn:E; unfold post, grow; cbn.
  - apply list_find_Some in E as (E & _ & _). apply lookup_lt_Some in E.
    split; [done|]. split; [lia|]. split; [|done]. apply Hmod. unfold zlen. lia.
  - rewrite zlen_app, zlen_cons, zlen_nil. pose proof (zlen_nonneg (co_consts s)).
    split; [|split; [lia|split; [apply Hmod; lia|done]]].
    split; cbn; try apply Hi. eapply code_ok_le, (inv_code _ Hi); [|done]. unfold grow. cbn.
    rewrite zlen_app, zlen_cons, zlen_nil. lia.
Qed.

(** The target of a jump is the only part of an instruction a patch changes. *)
Lemma set_offset_ok b pos target i : 0 <= target <= b_len b → instr_ok b pos i →
  instr_ok b pos (set_offset (target - pos - 1) i).
Proof. intros Ht. destruct i; cbn; unfold target_ok; intuition lia. Qed.
Lemma ok_patch s pos target : inv s → below (ln s) pos → 0 <= target <= ln s →
  ok (patch_jump pos target) s (post s (λ _ s', nx s' = nx s ∧ ln s' = ln s)).
Proof.
  intros Hi Hp Ht. unfold ok, patch_jump, modify, post, grow. cbn.
  assert (El : ∀ f n, zlen (alter f n (co_code s)) = ln s) by (intros; unfold zlen; by rewrite length_alter).
  rewrite El. split; [|lia]. split; cbn; rewrite ?El; try apply Hi.
  intros q i Hq. destruct (decide (q = Z.to_nat pos)) as [->|Hne].
  - rewrite list_lookup_alter, decide_True in Hq by done. destruct (co_code s !! Z.to_nat pos) as [j|] eqn:Ej; [|done].
    injection Hq as <-. apply (inv_code _ Hi) in Ej. unfold below in Hp. rewrite Z2Nat.id in * by lia.
    by apply set_offset_ok.
  - rewrite list_lookup_alter_ne in Hq by done. by apply (inv_code _ Hi).
Qed.
Lemma ok_patches s positions target : inv s → Forall (below (ln s)) positions → 0 <= target <= ln s →
  ok (patch_jumps positions target) s (post s (λ _ s', nx s' = nx s ∧ ln s' = ln s)).
Proof.
  revert s. induction positions as [|pos l IH]; intros s Hi Hl Ht; cbn [patch_jumps].
  { apply ok_ret. split; [done|]. split; [apply grow_refl|done]. }
  inversion_clear Hl as [|?? Hp Hl']. eapply ok_step; [by apply ok_patch|]. intros ? s1 (Hi1 & Hg1 & E1 & E2).
  eapply ok_mono; [apply IH; rewrite ?E2; done|]. intros ? s2 (Hi2 & Hg2 & E3 & E4).
  split; [done|]. split; [by eapply grow_trans|]. lia.
Qed.
Lemma ok_replace s pos i : inv s → instr_ok (bounds s (ln s)) pos i → 0 <= pos →
  ok (replace_at pos i) s (post s (λ _ s', nx s' = nx s ∧ ln s' = ln s)).
Proof.
  intros Hi Hok Hp. unfold ok, replace_at, modify, post, grow. cbn.
  assert (El : ∀ n, zlen (<[n := i]> (co_code s)) = ln s) by (intros; unfold zlen; by rewrite length_insert).
  rewrite El. split; [|lia]. split; cbn; rewrite ?El; try apply Hi.
  intros q j Hq. apply list_lookup_insert_Some in Hq as [(<- & -> & _)|[_ Hq]].
  - rewrite Z2Nat.id by done. eapply instr_ok_le, Hok. by repeat split.
  - by apply (inv_code _ Hi).
Qed.
Lemma ok_push_scope s : inv s → ok push_scope s (post s (λ _ s', nx s' = nx s ∧ ln s' = ln s)).
Proof.
  intros Hi. unfold ok, push_scope, modify, post, grow. cbn. split; [|lia].
  apply (inv_change s); try done; cbn; try apply Hi; try lia. apply Forall_cons_2; [|apply Hi].
  intros k i. rewrite lookup_empty. done.
Qed.
Lemma ok_pop_scope s : inv s → ok pop_scope s (post s (λ _ s', nx s' = nx s ∧ ln s' = ln s)).
Proof.
  intros Hi. unfold ok, pop_scope, modify, post, grow. cbn. split; [|lia].
  apply (inv_change s); try done; cbn; try apply Hi; try lia. by apply Forall_tail, Hi.
Qed.
Lemma ok_bind_local s name r : inv s → below (mx s) r →
  ok (bind_local name r) s (post s (λ _ s', nx s' = nx s ∧ ln s' = ln s)).
Proof.
  intros Hi Hr. unfold ok, bind_local, post, grow. destruct (co_scopes s) as [|scope rest] eqn:E; [done|].
  cbn. split; [|lia]. pose proof (inv_scopes _ Hi) as Hs. rewrite E in Hs. inversion_clear Hs as [|?? H1 H2].
  apply (inv_change s); try done; cbn; try apply Hi; try lia. apply Forall_cons_2; [|done].
  intros k i. rewrite lookup_insert_Some. intros [[_ <-]|[_ Hk]]; [done|by eapply H1].
Qed.
Lemma find_local_ok n scopes name r : Forall (scope_ok n) scopes → find_local scopes name = Some r → below n r.
Proof.
  induction 1 as [|scope rest Hs _ IH]; cbn; [done|]. destruct (scope !! name) as [r'|] eqn:E; [|done].
  intros [= ->]. by eapply Hs.
Qed.
Lemma ok_push_loop s : inv s → ok push_loop s (post s (λ _ s', nx s' = nx s ∧ ln s' = ln s)).
Proof.
  intros Hi. unfold ok, push_loop, modify, post, grow. cbn. split; [|lia].
  apply (inv_change s); try done; cbn; try apply Hi; try lia. apply Forall_cons_2; [|apply Hi]. by split.
Qed.
Lemma ok_pop_loop s : inv s → ok pop_loop s (post s (λ f s', frame_ok (ln s) f ∧ nx s' = nx s ∧ ln s' = ln s)).
Proof.
  intros Hi. unfold ok, pop_loop, post, grow. destruct (co_loop_stack s) as [|f rest] eqn:E; [done|].
  pose proof (inv_loops _ Hi) as Hl. rewrite E in Hl. inversion_clear Hl as [|?? H1 H2].
  cbn. split; [|split; [lia|done]]. apply (inv_change s); try done; cbn; try apply Hi; try lia.
Qed.
Lemma ok_add_jump s is_break pos : inv s → below (ln s) pos →
  ok (add_jump is_break pos) s (post s (λ _ s', nx s' = nx s ∧ ln s' = ln s)).
Proof.
  intros Hi Hp. unfold ok, add_jump, post, grow. destruct (co_loop_stack s) as [|f rest] eqn:E; [done|].
  pose proof (inv_loops _ Hi) as Hl. rewrite E in Hl. inversion_clear Hl as [|?? [Hb Hc] H2].
  cbn. split; [|lia]. apply (inv_change s); try done; cbn; try apply Hi; try lia.
  apply Forall_cons_2; [|done]. destruct is_break; split; cbn; try done; by apply Forall_app_2; [|apply Forall_singleton].
Qed.
Lemma ok_push_pipe s r : inv s → below (mx s) r →
  ok (modify (λ s, set_pipes (r :: co_pipe_stack s) s)) s (post s (λ _ s', nx s' = nx s ∧ ln s' = ln s)).
Proof.
  intros Hi Hr. unfold ok, modify, post, grow. cbn. split; [|lia].
  apply (inv_change s); try done; cbn; try apply Hi; try lia. by apply Forall_cons_2; [|apply Hi].
Qed.
Lemma ok_pop_pipe s : inv s →
  ok (modify (λ s, set_pipes (tail (co_pipe_stack s)) s)) s (post s (λ _ s', nx s' = nx s ∧ ln s' = ln s)).
Proof.
  intros Hi. unfold ok, modify, post, grow. cbn. split; [|lia].
  apply (inv_change s); try done; cbn; try apply Hi; try lia. by apply Forall_tail, Hi.
Qed.
Lemma ok_pfor s (d : Comp → Z) (b : Comp → list Z) : inv s →
  ok (modify (λ s, set_pfor (d s) (b s) s)) s (post s (λ _ s', nx s' = nx s ∧ ln s' = ln s)).
Proof.
  intros Hi. unfold ok, modify, post, grow. cbn. split; [|lia].
  apply (inv_change s); try done; cbn; try apply Hi; lia.
Qed.

(** *** Compiling a form from the compilers of its parts *)
Definition into_ok (f : Z → CM unit) : Prop := ∀ s dst, inv s → below (mx s) dst →
  ok (f dst) s (post s (λ _ s', nx s <= nx s')).
(** The part may use the registers below [n] too. *)
Definition unit_from (n : Z) (m : CM unit) : Prop := ∀ s, inv s → n <= mx s → ok m s (post s (λ _ s', nx s <= nx s')).
Abbreviation unit_ok := (unit_from 0).

Ltac conjs := repeat match goal with |- _ ∧ _ => split end.
Ltac expose := unfold grow, below in *; destruct_and?.
Ltac after := let Hi := fresh "Hi" in intros ?a ?s (Hi & ?Hg & ?HR); pose proof (inv_regs _ Hi);
  match goal with |- ok _ ?s _ => pose proof (zlen_nonneg (co_code s)) | _ => idtac end; expose.
Ltac side := solve [try done;
  cbv [instr_ok below span_ok target_ok bounds b_regs b_consts b_paths b_len b_states b_imports b_fns b_structs b_enums];
  conjs; first [done | lia]].
Ltac lia' := first [lia | unfold zlen in *; lia].
Ltac finish := unfold post, grow; split; [assumption|split; [lia'|conjs; cbn [fst snd]; try done; try lia']].
Ltac prim0 := first
  [ eapply ok_alloc; [assumption] | eapply ok_free; [assumption|side] | eapply ok_emit; [assumption|side]
  | eapply ok_const; [assumption] | eapply ok_patch; [assumption|side|side]
  | eapply ok_push_scope; [assumption] | eapply ok_pop_scope; [assumption] | eapply ok_bind_local; [assumption|side]
  | eapply ok_push_loop; [assumption] | eapply ok_pop_loop; [assumption] | eapply ok_add_jump; [assumption|side]
  | eapply ok_set_next; [assumption|side] | eapply ok_drop; [assumption|lia']
  | match goal with H : into_ok ?f |- ok (?f _) _ _ => eapply H; [assumption|side] end
  | match goal with H : unit_from _ ?m |- ok ?m _ _ => eapply H; [assumption|lia] end ].
Ltac prim := prim0.
Ltac cstep := first
  [ eapply ok_step; [prim|after]
  | apply ok_bind, ok_gets
  | lazymatch goal with |- ok (mret _) _ _ => apply ok_ret; finish
    | |- ok (gets _) _ _ => apply ok_gets end
  | eapply ok_mono; [prim|after; finish] ].
Ltac init := match goal with H : inv ?s |- ok _ ?s _ => pose proof (inv_regs s H); pose proof (zlen_nonneg (co_code s)) end.
Ltac cgo := intros; init; expose; repeat (cbv beta iota; cstep).

Lemma emit_const_ok c : into_ok (λ dst, emit_const dst c).
Proof. intros s dst Hi Hd. unfold emit_const. cgo. Qed.
Lemma emit_at_ok s i : inv s → instr_ok (bounds s (ln s + 1)) (ln s) i →
  ok (emit_at i) s (post s (λ pos s', pos = ln s ∧ nx s' = nx s ∧ ln s' = ln s + 1)).
Proof. intros Hi Hok. unfold emit_at, here. cgo. Qed.
Lemma jump_back_ok s start : inv s → 0 <= start <= ln s →
  ok (jump_back start) s (post s (λ _ s', nx s' = nx s ∧ ln s' = ln s + 1)).
Proof. intros Hi Hok. unfold jump_back, here. cgo. Qed.
(** Lists of jumps stay within the code as it grows. *)
Lemma frame_breaks s s' f : frame_ok (ln s) f → ln s <= ln s' → Forall (below (ln s')) (break_jumps f).
Proof. intros [H _] Hl. by eapply Forall_below_le. Qed.
Lemma frame_continues s s' f : frame_ok (ln s) f → ln s <= ln s' → Forall (below (ln s')) (continue_jumps f).
Proof. intros [_ H] Hl. by eapply Forall_below_le. Qed.
Ltac prim1 := first
  [ prim0 | eapply emit_const_ok; [assumption|side] | eapply emit_at_ok; [assumption|side]
  | eapply jump_back_ok; [assumption|side]
  | eapply ok_patches;
      [assumption|first [eapply frame_breaks; [eassumption|lia] | eapply frame_continues; [eassumption|lia]]|side] ].
Ltac prim ::= prim1.

Lemma in_loop_ok body s : unit_ok body → inv s →
  ok (in_loop body) s (post s (λ f s', frame_ok (ln s') f ∧ nx s <= nx s')).
Proof. intros Hb Hi. pose proof (inv_regs _ Hi). unfold in_loop. cgo. by replace (ln s2) with (ln s1) by lia. Qed.
Ltac prim2 := first [prim1 | eapply in_loop_ok; [assumption|assumption]].
Ltac prim ::= prim2.
Lemma compile_while_ok cond body : into_ok cond → unit_ok body → unit_ok (compile_while cond body).
Proof. intros Hc Hb s Hi. unfold compile_while, here. cgo. Qed.
Lemma compile_for_range_ok var start end_ inclusive body : into_ok start → into_ok end_ → unit_ok body →
  unit_ok (compile_for_range var start end_ inclusive body).
Proof. intros Hs He Hb s Hi. unfold compile_for_range, here. cgo. Qed.

(** The registers of a limit, and the position of its jump. *)
Definition limit_ok (s : Comp) (limit_regs : option (Z * Z)) : Prop :=
  match limit_regs with Some (r, one) => below (mx s) r ∧ below (mx s) one | None => True end.
Definition pos_ok (n : Z) (p : option Z) : Prop := match p with Some pos => below n pos | None => True end.
Lemma limit_ok_le s s' l : limit_ok s l → mx s <= mx s' → limit_ok s' l.
Proof. destruct l as [[r one]|]; cbn; unfold below; lia. Qed.
Lemma pos_ok_le n m p : pos_ok n p → n <= m → pos_ok m p.
Proof. destruct p; cbn; unfold below; lia. Qed.
Lemma emit_limit_ok s limit_regs : inv s → limit_ok s limit_regs →
  ok (emit_limit_check limit_regs) s (post s (λ p s', nx s <= nx s' ∧ pos_ok (ln s') p)).
Proof.
  intros Hi Hl. destruct limit_regs as [[r one]|]; unfold emit_limit_check; cbn in Hl; cgo; unfold pos_ok, below; lia.
Qed.
Lemma patch_limit_ok s p target : inv s → pos_ok (ln s) p → 0 <= target <= ln s →
  ok (patch_limit_break p target) s (post s (λ _ s', nx s' = nx s ∧ ln s' = ln s)).
Proof. intros Hi Hp Ht. destruct p; unfold patch_limit_break; cgo. Qed.
(** An instruction whose operands stay in bounds wherever it is emitted. *)
Definition fits (s : Comp) (i : Instr) : Prop := ∀ s' l, grow s s' → instr_ok (bounds s' l) (ln s') i.
Ltac prim3 := first
  [ prim2
  | match goal with H : fits _ ?i |- ok (emit ?i) _ _ => eapply ok_emit; [assumption|apply H; unfold grow; lia] end
  | eapply emit_limit_ok; [assumption|eapply limit_ok_le; [eassumption|lia]]
  | eapply patch_limit_ok; [assumption|eapply pos_ok_le; [eassumption|lia]|side] ].
Ltac prim ::= prim3.

Lemma counter_loop_ok counter len fetch step limit_regs body s : inv s →
  below (mx s) counter → below (mx s) len → fits s fetch → fits s step → limit_ok s limit_regs → unit_ok body →
  ok (counter_loop counter len fetch step limit_regs body) s (post s (λ _ s', nx s <= nx s')).
Proof. intros Hi Hc Hl Hf Hs Hlim Hb. unfold counter_loop, here. cgo. Qed.

Lemma as_u16_below n i : below n i → below n (as_u16 i).
Proof.
  intros Hi. unfold as_u16, below in *. pose proof (Z.mod_pos_bound i 65536 ltac:(lia)).
  pose proof (Z.mod_le i 65536 ltac:(lia) ltac:(lia)). lia.
Qed.
Abbreviation n_states := (zlen (ce_state_types env)).
Context (Henv : env_ok).
Lemma state_index_below name i : ce_state_index env !! name = Some i → below n_states (as_u16 i).
Proof. intros E. by eapply as_u16_below, (ok_states Henv). Qed.

(** A lookup that succeeds, with the bounds of what it found. *)
Ltac found := let E := fresh "E" in intros ?x E; cbv beta; try (
  match type of E with
  | ce_state_index env !! _ = Some _ => pose proof (state_index_below _ _ E)
  | ce_struct_index env !! _ = Some _ => pose proof (as_u16_below _ _ (ok_structs Henv _ _ E))
  | ce_enum_index env !! _ = Some _ => pose proof (as_u16_below _ _ (ok_enums Henv _ _ E))
  | ce_fn_index env !! _ = Some _ => pose proof (as_u16_below _ _ (ok_fns Henv _ _ E))
  | ce_import_index env !! _ = Some _ => pose proof (as_u16_below _ _ (ok_imports Henv _ _ E))
  end; expose).
Ltac cstep ::=
  lazymatch goal with
  | |- ok (gets _ ≫= _) _ _ => apply ok_bind, ok_gets
  | |- ok (require _ _ _ ≫= _) _ _ => apply ok_bind, ok_require; found
  | |- ok (expect_some _ ≫= _) _ _ => apply ok_bind, ok_expect; found
  | |- ok (lift _ ≫= _) _ _ => apply ok_bind, ok_lift; found
  | |- ok (mret _ ≫= _) _ _ => apply ok_bind, ok_ret
  | |- ok (mret _) _ _ => apply ok_ret; finish
  | |- ok (fail_at _ _) _ _ => exact I
  | |- ok (lift Panic) _ _ => exact I
  | |- ok (gets _) _ _ => apply ok_gets
  | |- ok (_ ≫= _) _ _ => eapply ok_step; [prim|after]
  | |- ok _ _ _ => eapply ok_mono; [prim|after; finish]
  end.
Ltac cgo ::= intros; init; expose; repeat (cbv beta iota zeta; cstep).

(** *** Paths and the keys of indexes *)
Lemma intern_path_ok s state_idx path : inv s →
  ok (intern_path env state_idx path) s (post s (λ r s', below (np s') r.1 ∧ nx s' = nx s ∧ ln s' = ln s)).
Proof.
  intros Hi. unfold intern_path, state_ty. cgo. destruct x1 as [[key ty] chain]. cgo.
  destruct (co_path_index s !! (state_idx, path)) as [i|] eqn:Ei.
  { apply ok_ret. apply (inv_paths _ Hi) in Ei. expose. finish. }
  apply ok_bind, ok_gets, ok_bind. unfold ok, modify. cbn.
  assert (Hidx : below (np s + 1) (as_u16 (np s))) by (apply as_u16_below; unfold below; pose proof (zlen_nonneg (co_path_specs s)); lia).
  unfold post, grow. cbn. rewrite !zlen_app, zlen_cons, zlen_nil. split; [|split; [lia|done]].
  split; cbn; rewrite ?zlen_app, ?zlen_cons, ?zlen_nil; try apply Hi.
  - eapply code_ok_le, (inv_code _ Hi); [|done]. unfold grow. cbn. rewrite zlen_app, zlen_cons, zlen_nil. lia.
  - intros k j. rewrite lookup_insert_Some. intros [[_ <-]|[_ Hk]]; [done|].
    eapply below_le; [|by eapply (inv_paths _ Hi)]. lia.
Qed.

(** The registers an index key takes lie above a [floor], except the record's own,
    which is not the one right below it. *)
Lemma field_path_ok floor path : ∀ s cur owned, inv s → 0 <= floor <= nx s → below (mx s) cur →
  match owned with Some r => floor <= r | None => True end →
  ok (field_path_from path cur owned) s
    (post s (λ r s', below (mx s') r ∧ (r = cur ∨ floor <= r) ∧ floor <= nx s')).
Proof.
  induction path as [|field rest IH]; intros s cur owned Hi Hf Hc Ho; cbn [field_path_from]; [cgo; by left|].
  cgo. destruct owned as [prev|]; cgo; (eapply ok_mono; [apply IH; [assumption|lia|side|lia]|after; finish]).
Qed.
Lemma emit_field_path_ok s floor path value_reg : inv s → 0 <= floor <= nx s → below (mx s) value_reg →
  ok (emit_field_path path value_reg) s
    (post s (λ r s', below (mx s') r ∧ (r = value_reg ∨ floor <= r) ∧ floor <= nx s')).
Proof. intros. by apply field_path_ok. Qed.

Definition packed_ok (floor n : Z) (packed : option Z) : Prop :=
  match packed with Some r => floor <= r ∧ below n r | None => True end.
Lemma pack_fields_ok a b c floor value_reg fs : ∀ s packed, inv s → 0 <= floor <= nx s → below (mx s) value_reg →
  floor ≠ value_reg + 1 → below (nc s) a → below (nc s) b → below (nc s) c → packed_ok floor (mx s) packed →
  ok (pack_fields value_reg a b c fs packed) s
    (post s (λ packed' s', packed_ok floor (mx s') packed' ∧ floor <= nx s')).
Proof.
  induction fs as [|f rest IH]; intros s packed Hi Hfl Hv Hne Ha Hb Hc Hp; cbn [pack_fields]; [cgo|].
  eapply (ok_step _ _ _ (post s (λ packed' s', packed_ok floor (mx s') packed' ∧ floor <= nx s'))).
  - unfold pack_field. init. eapply ok_step; [by apply emit_field_path_ok|after].
    cgo. destruct (ix_direction f); cgo; (destruct packed as [prev|]; cbn in Hp; cgo; unfold packed_ok, below; lia).
  - after. eapply ok_mono; [apply IH; try assumption; try side|after; finish].
Qed.

Lemma emit_index_key_ok s floor idx value_reg : inv s → 0 <= floor <= nx s → below (mx s) value_reg →
  floor ≠ value_reg + 1 →
  ok (emit_index_key idx value_reg) s
    (post s (λ r s', below (mx s') r ∧ (r = value_reg ∨ floor <= r) ∧ floor <= nx s')).
Proof.
  intros Hi Hf Hv Hne. unfold emit_index_key.
  assert (Hpack : ∀ fields, ok (a ← const_idx (CStr (str "to_be_bytes")); b ← const_idx (CStr (str "bit_not_bytes"));
    c ← const_idx (CStr (str "bytes_concat")); packed ← pack_fields value_reg a b c fields None; expect_some packed) s
    (post s (λ r s', below (mx s') r ∧ (r = value_reg ∨ floor <= r) ∧ floor <= nx s'))).
  { intros fields. cgo. eapply ok_step; [apply (pack_fields_ok _ _ _ floor); [assumption|side..]|after].
    apply ok_expect. intros r ->. cbn in *. expose. finish. }
  destruct (id_fields idx) as [|[path []] [|]]; try apply Hpack. by apply emit_field_path_ok.
Qed.
Lemma maintain_indexes_ok instr value_reg floor idxs :
  (∀ b pos kind is_pbtree st cur, below (b_states b) st → below (b_regs b) cur → b_regs b > value_reg → b_regs b >= floor →
    instr_ok b pos (instr kind is_pbtree st cur)) →
  ∀ s, inv s → 0 <= floor <= nx s → below (mx s) value_reg → floor ≠ value_reg + 1 →
  ok (maintain_indexes env instr value_reg idxs) s (post s (λ _ s', floor <= nx s')).
Proof.
  intros Hinstr. induction idxs as [|idx rest IH]; intros s Hi Hf Hv Hne; cbn [maintain_indexes]; [cgo|].
  init. eapply ok_step; [by apply emit_index_key_ok|after].
  apply ok_bind, ok_expect; found. unfold state_ty. apply ok_bind, ok_expect; found.
  eapply ok_step; [eapply ok_emit; [assumption|apply Hinstr; side]|after]. cgo.
  eapply ok_mono; [apply IH; [assumption|lia|side|done]|after; finish].
Qed.

(** *** Loops over states and arrays *)
Lemma comp_counter_loop_ok n counter len fetch step body s : inv s → n <= mx s →
  below (mx s) counter → below (mx s) len → fits s fetch → fits s step → unit_from n body →
  ok (comp_counter_loop counter len fetch step body) s (post s (λ _ s', nx s <= nx s')).
Proof. intros Hi Hn Hc Hl Hf Hs Hb. unfold comp_counter_loop, here. cgo. Qed.
Ltac fits := intros ?s' ?l ?Hfit; expose; side.
Lemma compile_for_streaming_pvec_ok state_idx var limit_regs body s : inv s → below n_states state_idx →
  limit_ok s limit_regs → unit_ok body →
  ok (compile_for_streaming_pvec state_idx var limit_regs body) s (post s (λ _ s', nx s <= nx s')).
Proof.
  intros Hi Hst Hl Hb. unfold compile_for_streaming_pvec. cgo.
  eapply ok_step; [apply counter_loop_ok; [assumption|side|side|fits|fits|eapply limit_ok_le; [eassumption|lia]|done]|after].
  cgo.
Qed.
Definition init_ok (walk_init : Z → Z → Instr) : Prop := ∀ b pos dst st,
  below (b_regs b) dst → below (b_states b) st → instr_ok b pos (walk_init dst st).
Definition next_ok (walk_next : Z → Z → Z → Instr) : Prop := ∀ b pos cursor value off,
  below (b_regs b) cursor → below (b_regs b) value → target_ok b pos off → instr_ok b pos (walk_next cursor value off).
Ltac prim4 := first
  [ prim3
  | match goal with H : init_ok ?i |- ok (emit (?i _ _)) _ _ => eapply ok_emit; [assumption|apply H; side] end
  | match goal with H : next_ok ?i |- ok (emit_at (?i _ _ _)) _ _ => eapply emit_at_ok; [assumption|apply H; side] end ].
Ltac prim ::= prim4.
Lemma compile_for_streaming_walk_ok walk_init walk_next state_idx var limit_regs body s :
  init_ok walk_init → next_ok walk_next → inv s → below n_states state_idx → limit_ok s limit_regs → unit_ok body →
  ok (compile_for_streaming_walk walk_init walk_next state_idx var limit_regs body) s (post s (λ _ s', nx s <= nx s')).
Proof. intros Hini Hnext Hi Hst Hl Hb. unfold compile_for_streaming_walk, here. cgo. Qed.
Lemma lower_comp_for_walk_ok n walk_init walk_next state_idx var rest s :
  init_ok walk_init → next_ok walk_next → inv s → n <= mx s → below n_states state_idx → unit_from n rest →
  ok (lower_comp_for_walk walk_init walk_next state_idx var rest) s (post s (λ _ s', nx s <= nx s')).
Proof. intros Hini Hnext Hi Hn Hst Hb. unfold lower_comp_for_walk, here. cgo. Qed.
Lemma lower_comp_for_pvec_ok n state_idx var rest s : inv s → n <= mx s → below n_states state_idx → unit_from n rest →
  ok (lower_comp_for_pvec state_idx var rest) s (post s (λ _ s', nx s <= nx s')).
Proof.
  intros Hi Hn Hst Hb. unfold lower_comp_for_pvec. cgo.
  eapply ok_step; [apply (comp_counter_loop_ok n); [assumption|lia|side|side|fits|fits|done]|after].
  cgo.
Qed.

Lemma streamed_ok iter s : inv s →
  ok (streamed env iter) s (post s (λ r s', match r with Some (idx, _) => below n_states idx | None => True end ∧ s' = s)).
Proof.
  intros Hi. unfold streamed, state_ty.
  assert (Hnone : ok (mret None) s
    (post s (λ r s', match r : option (Z * Ty) with Some (idx, _) => below n_states idx | None => True end ∧ s' = s))).
  { apply ok_ret. split; [done|]. by split; [apply grow_refl|]. }
  destruct iter as [[] ?]; try exact Hnone. case_match eqn:E; [|exact Hnone].
  apply ok_bind, ok_expect. intros ty _. apply ok_ret. split; [done|]. split; [apply grow_refl|].
  split; [by eapply state_index_below|done].
Qed.
Lemma emit_prefetch_ok arr_reg targets : ∀ s, inv s → below (mx s) arr_reg →
  ok (emit_prefetch env arr_reg targets) s (post s (λ _ s', nx s' = nx s)).
Proof.
  induction targets as [|name rest IH]; intros s Hi Hr; cbn [emit_prefetch]; [cgo|].
  destruct (ce_state_index env !! name) as [i|] eqn:E.
  - pose proof (state_index_below _ _ E). cgo. eapply ok_mono; [apply IH; [done|side]|after; finish].
  - cgo. eapply ok_mono; [apply IH; [done|side]|after; finish].
Qed.
(** A loop over an array, given the registers of the array, its length, the
    counter, the constant one and the element. *)
Definition loop_ok (loop : Z → Z → Z → Z → Z → CM unit) (s0 : Comp) : Prop := ∀ s a b c d e, inv s → grow s0 s →
  below (mx s) a → below (mx s) b → below (mx s) c → below (mx s) d → below (mx s) e →
  ok (loop a b c d e) s (post s (λ _ s', nx s <= nx s')).
Lemma array_loop_ok var iter targets loop s : inv s → into_ok iter → loop_ok loop s →
  ok (array_loop env var iter targets loop) s (post s (λ _ s', nx s <= nx s')).
Proof.
  intros Hi Hit Hl. unfold array_loop. cgo.
  eapply ok_step; [apply emit_prefetch_ok; [assumption|side]|after]. cgo.
  eapply ok_step; [apply Hl; [assumption|unfold grow; lia|side..]|after]. cgo.
Qed.
Lemma pmap_walk_ok : init_ok PMapWalkInit ∧ next_ok PMapWalkNext.
Proof. by split. Qed.
Lemma pbtree_walk_ok : init_ok PBTreeWalkInit ∧ next_ok PBTreeWalkNext.
Proof. by split. Qed.
Lemma compile_for_ok var iter_expr iter targets limit body : into_ok iter →
  match limit with Some lim => into_ok lim | None => True end → unit_ok body →
  unit_ok (compile_for env var iter_expr iter targets limit body).
Proof.
  intros Hit Hl Hb s Hi _. unfold compile_for. init.
  eapply (ok_step _ _ _ (post s (λ r s', limit_ok s' r ∧ nx s <= nx s'))).
  { destruct limit as [lim|]; cgo; unfold limit_ok, below; lia. }
  after. eapply ok_step; [by apply streamed_ok|]. intros stream ? (_ & _ & Hst & ->).
  assert (Hloop : ok (array_loop env var iter targets (λ arr_reg len_reg counter_reg one_reg var_reg,
        counter_loop counter_reg len_reg (ArrayGet var_reg arr_reg counter_reg)
          (Bin Add counter_reg counter_reg one_reg) a body)) s0 (post s (λ _ s', nx s <= nx s'))).
  { eapply ok_mono; [apply array_loop_ok; [done|done|]|after; finish].
    intros s1 ra rb rc rd re Hi1 Hg. intros. expose.
    apply counter_loop_ok; [assumption|side|side|fits|fits|eapply limit_ok_le; [eassumption|lia]|done]. }
  destruct stream as [[idx ty]|]; [|exact Hloop].
  destruct ty; try exact Hloop; (eapply (ok_mono _ _ (post s0 (λ _ s', nx s0 <= nx s'))); [|after; finish]).
  - by apply (compile_for_streaming_walk_ok PMapWalkInit PMapWalkNext).
  - by apply (compile_for_streaming_walk_ok PBTreeWalkInit PBTreeWalkNext).
  - by apply compile_for_streaming_pvec_ok.
Qed.


(** *** Comprehensions *)
Definition leaf_ok (leaf : CompLeaf) (n : Z) : Prop :=
  match leaf with
  | ListAppend mapper dst | SetInsert mapper dst => into_ok mapper ∧ below n dst
  | DictSet key value dst => into_ok key ∧ into_ok value ∧ below n dst
  end.
Lemma emit_comp_leaf_ok leaf n : leaf_ok leaf n → unit_from n (emit_comp_leaf leaf).
Proof. intros Hl s Hi Hn. destruct leaf; cbn in Hl; destruct_and?; unfold emit_comp_leaf; cgo. Qed.
Lemma lower_comp_ok cexpr leaf leaf_exprs n clauses : leaf_ok leaf n →
  Forall (λ c, into_ok (cexpr (clause_expr c))) clauses →
  ∀ first, unit_from n (lower_comp env cexpr leaf leaf_exprs first clauses).
Proof.
  intros Hl. induction 1 as [|[var iter|cond] rest Hc Hrest IH]; intros first s Hi Hn; cbn [lower_comp clause_expr] in *.
  - by apply (emit_comp_leaf_ok leaf n Hl).
  - eapply ok_step; [by apply streamed_ok|]. intros stream ? (_ & _ & Hst & ->).
    assert (Hloop : ∀ targets, ok (array_loop env var (cexpr iter) targets
      (λ arr_reg len_reg counter_reg one_reg var_reg, comp_counter_loop counter_reg len_reg (ArrayGet var_reg arr_reg counter_reg)
          (Bin Add counter_reg counter_reg one_reg) (lower_comp env cexpr leaf leaf_exprs false rest))) s
        (post s (λ _ s', nx s <= nx s'))).
    { intros targets. apply array_loop_ok; [done|done|].
      intros s1 ra rb rc rd re Hi1 Hg. intros. expose.
      apply (comp_counter_loop_ok n); [assumption|lia|side|side|fits|fits|apply IH]. }
    destruct stream as [[idx ty]|]; [|apply Hloop]. destruct ty; try apply Hloop.
    + by apply (lower_comp_for_walk_ok n PMapWalkInit PMapWalkNext).
    + by apply (lower_comp_for_walk_ok n PBTreeWalkInit PBTreeWalkNext).
    + by apply (lower_comp_for_pvec_ok n).
  - specialize (IH false). unfold comp_if, here. cgo.
Qed.


(** *** Arguments *)
Lemma as_u8_le n : 0 <= n → 0 <= as_u8 n <= n.
Proof.
  intros Hn. unfold as_u8. pose proof (Z.mod_pos_bound n 256 ltac:(lia)).
  pose proof (Z.mod_le n 256 ltac:(lia) ltac:(lia)). lia.
Qed.
Lemma as_u16_le n : 0 <= n → 0 <= as_u16 n <= n.
Proof.
  intros Hn. unfold as_u16. pose proof (Z.mod_pos_bound n 65536 ltac:(lia)).
  pose proof (Z.mod_le n 65536 ltac:(lia) ltac:(lia)). lia.
Qed.
Lemma alloc_n_ok n : ∀ s, inv s → ok (alloc_n n) s (post s (λ _ s', nx s' = nx s + Z.of_nat n ∧ ln s' = ln s)).
Proof.
  induction n as [|n IH]; intros s Hi; cbn [alloc_n]; [cgo|]. cgo.
  eapply ok_mono; [by apply IH|after; finish].
Qed.
Lemma free_all_ok floor rs : Forall (λ r, floor <= r) rs → ∀ s, inv s → 0 <= floor <= nx s →
  ok (free_all rs) s (post s (λ _ s', floor <= nx s' ∧ ln s' = ln s)).
Proof.
  induction 1 as [|r rest Hr _ IH]; intros s Hi Hf; cbn [free_all]; [cgo|]. cgo.
  eapply ok_mono; [apply IH; [assumption|lia]|after; finish].
Qed.
Section args.
Context (cexpr : Expr → Z → CM unit).
Abbreviation all_ok es := (Forall (λ e, into_ok (cexpr e)) es).
Lemma compile_each_ok es : all_ok es → ∀ s r, inv s → span_ok (mx s) r (zlen es) →
  ok (compile_each cexpr es r) s (post s (λ _ s', nx s <= nx s')).
Proof.
  induction 1 as [|e es He _ IH]; intros s r Hi Hr; cbn [compile_each]; [cgo|].
  unfold span_ok in Hr. rewrite zlen_cons in Hr. pose proof (zlen_nonneg es). cgo.
  eapply ok_mono; [apply IH; [assumption|side]|after; finish].
Qed.
(** An instruction over [n] arguments, given where they start. *)
Definition args_ok (n k : Z) (instr : Z → CM unit) : Prop := ∀ s start, inv s → k <= mx s → span_ok (mx s) start n →
  ok (instr start) s (post s (λ _ s', nx s' = nx s)).
Lemma compile_args_ok es instr k : all_ok es → args_ok (zlen es) k instr → unit_from k (compile_args cexpr es instr).
Proof.
  intros He Hinstr s Hi Hk. pose proof (zlen_nonneg es). unfold compile_args, next_reg. cgo.
  eapply ok_step; [by apply alloc_n_ok|after]. fold (zlen es) in *.
  eapply ok_step; [apply compile_each_ok; [done|assumption|side]|after].
  eapply ok_step; [apply Hinstr; [assumption|lia|side]|after]. cgo.
Qed.
Lemma compile_pairs_ok pairs : all_ok pairs.*1 → all_ok pairs.*2 → ∀ s r, inv s → span_ok (mx s) r (2 * zlen pairs) →
  ok (compile_pairs cexpr pairs r) s (post s (λ _ s', nx s <= nx s')).
Proof.
  induction pairs as [|[k v] pairs IH]; intros Hk Hv s r Hi Hr; cbn [compile_pairs]; [cgo|].
  apply Forall_cons in Hk as [Hk Hks], Hv as [Hv Hvs]. cbn [fst snd] in *.
  unfold span_ok in Hr. rewrite zlen_cons in Hr. pose proof (zlen_nonneg pairs). cgo.
  eapply ok_mono; [apply IH; [done|done|assumption|side]|after; finish].
Qed.
Lemma compile_dict_ok pairs : all_ok pairs.*1 → all_ok pairs.*2 → into_ok (compile_dict cexpr pairs).
Proof.
  intros Hk Hv s dst Hi Hd. pose proof (as_u16_le (zlen pairs) (zlen_nonneg _)).
  assert (El : Z.of_nat (length pairs * 2) = 2 * zlen pairs) by (unfold zlen; lia).
  unfold compile_dict, next_reg. cgo.
  eapply ok_step; [by apply alloc_n_ok|after]. rewrite El in *.
  eapply ok_step; [by apply compile_pairs_ok; [done|done|assumption|side]|after]. cgo.
Qed.
Lemma compile_fields_ok name span fields declared : all_ok fields.*2 → ∀ s r, inv s → span_ok (mx s) r (zlen declared) →
  ok (compile_fields cexpr name span fields declared r) s (post s (λ _ s', nx s <= nx s')).
Proof.
  intros Hf. induction declared as [|d rest IH]; intros s r Hi Hr; cbn [compile_fields]; [cgo|].
  unfold span_ok in Hr. rewrite zlen_cons in Hr. pose proof (zlen_nonneg rest). init.
  eapply (ok_step _ _ _ (post s (λ _ s', nx s <= nx s'))).
  - clear IH. induction fields as [|[f e] fields IH]; [done|]. apply Forall_cons in Hf as [He Hf]. cbn [snd] in He.
    case_decide; [cgo|by apply IH].
  - after. eapply ok_mono; [apply IH; [assumption|side]|after; finish].
Qed.
Lemma compile_struct_lit_ok name fields span : all_ok fields.*2 → into_ok (compile_struct_lit env cexpr name fields span).
Proof.
  intros Hf s dst Hi Hd. unfold compile_struct_lit, next_reg. cgo.
  pose proof (as_u16_le (zlen (field_names x0)) (zlen_nonneg _)). pose proof (zlen_nonneg (field_names x0)).
  eapply ok_step; [by apply alloc_n_ok|after]. fold (zlen (field_names x0)) in *.
  eapply ok_step; [by apply compile_fields_ok; [done|assumption|side]|after]. cgo.
Qed.

(** Json literals: the registers allocated, from the first on. *)
Definition allocs_ok (floor n : Z) (l : list Z) (next : Z) : Prop :=
  Forall (λ r, floor <= r) l ∧ zlen l = n ∧ floor + n <= next ∧ match l with r :: _ => r = floor | [] => True end.
Lemma compile_json_items_ok items : all_ok items → ∀ s, inv s →
  ok (compile_json_items cexpr items) s (post s (λ l s', allocs_ok (nx s) (zlen items) l (nx s'))).
Proof.
  induction 1 as [|v items Hv _ IH]; intros s Hi; cbn [compile_json_items].
  { cgo. unfold allocs_ok. splits; try done; unfold zlen; cbn; lia. }
  cgo. eapply ok_step; [by apply IH|after]. select (allocs_ok _ _ _ _) (fun H => destruct H as (Hl & Hn & Hx & _)).
  apply ok_ret. finish.
  unfold allocs_ok, zlen in *. cbn [length]. split; [|lia].
  apply Forall_cons_2; [lia|]. eapply Forall_impl; [exact Hl|]. cbn. lia.
Qed.
Lemma compile_json_pairs_ok pairs : all_ok pairs.*2 → ∀ s, inv s →
  ok (compile_json_pairs cexpr pairs) s (post s (λ l s', allocs_ok (nx s) (2 * zlen pairs) l (nx s'))).
Proof.
  induction pairs as [|[k v] pairs IH]; intros Hv s Hi; cbn [compile_json_pairs].
  { cgo. unfold allocs_ok. splits; try done; unfold zlen; cbn; lia. }
  apply Forall_cons in Hv as [Hv Hvs]. cbn [snd] in Hv.
  cgo. eapply ok_step; [by apply IH|after]. select (allocs_ok _ _ _ _) (fun H => destruct H as (Hl & Hn & Hx & _)).
  apply ok_ret. finish.
  unfold allocs_ok, zlen in *. cbn [length]. split; [|lia].
  do 2 (apply Forall_cons_2; [lia|]). eapply Forall_impl; [exact Hl|]. cbn. lia.
Qed.
Lemma json_call_ok builtin allocs n dst floor s : inv s → 0 <= floor → allocs_ok floor n allocs (nx s) → below (mx s) dst →
  ok (json_call builtin allocs n dst) s (post s (λ _ s', floor <= nx s')).
Proof.
  intros Hi Hf (Hl & Hn & Hx & Hh) Hd. unfold json_call.
  pose proof (zlen_nonneg allocs). pose proof (as_u8_le n ltac:(lia)).
  assert (Hspan : 0 <= default 0 (head allocs) ∧ default 0 (head allocs) + n <= nx s).
  { destruct allocs as [|r allocs]; cbn; [rewrite zlen_nil in Hn; pose proof (inv_regs _ Hi); lia|]. lia. }
  cgo. eapply ok_mono; [eapply free_all_ok; [by apply Forall_reverse|assumption|lia]|after; finish].
Qed.
Lemma compile_json_object_ok pairs : all_ok pairs.*2 → into_ok (compile_json_object cexpr pairs).
Proof.
  intros Hv s dst Hi Hd. unfold compile_json_object. init.
  eapply ok_step; [by apply compile_json_pairs_ok|after].
  eapply ok_mono; [by eapply json_call_ok; [assumption| |eassumption|side]|after; finish].
Qed.
Lemma compile_json_array_ok items : all_ok items → into_ok (compile_json_array cexpr items).
Proof.
  intros Hv s dst Hi Hd. unfold compile_json_array. init.
  eapply ok_step; [by apply compile_json_items_ok|after].
  eapply ok_mono; [by eapply json_call_ok; [assumption| |eassumption|side]|after; finish].
Qed.

(** *** Match *)
Lemma bind_payload_ok scrut_reg bindings : ∀ i s, inv s → below (mx s) scrut_reg →
  ok (bind_payload scrut_reg bindings i) s (post s (λ l s', Forall (λ r, nx s <= r) l ∧ nx s <= nx s')).
Proof.
  induction bindings as [|name rest IH]; intros i s Hi Hs; cbn [bind_payload]; [cgo|].
  cgo. eapply ok_step; [apply IH; [assumption|side]|after]. cgo.
  apply Forall_cons_2; [lia|]. eapply Forall_impl; [eassumption|]. cbn. lia.
Qed.
Lemma compile_match_body_ok body dst scrut_reg bindings s : into_ok body → inv s → below (mx s) dst → below (mx s) scrut_reg →
  ok (compile_match_body body dst scrut_reg bindings) s (post s (λ _ s', nx s <= nx s')).
Proof.
  intros Hb Hi Hd Hs. unfold compile_match_body. cgo.
  eapply ok_step; [apply bind_payload_ok; [assumption|side]|after]. cgo.
  eapply ok_mono; [apply (free_all_ok (nx s)); [|assumption|lia]|after; finish].
  apply Forall_reverse. eapply Forall_impl; [eassumption|]. cbn. lia.
Qed.
Lemma compile_arms_ok shape dst scrut_reg tag_reg arms : Forall (λ a, into_ok (cexpr (arm_body a))) arms →
  ∀ s, inv s → below (mx s) dst → below (mx s) scrut_reg → below (mx s) tag_reg →
  ok (compile_arms cexpr shape dst scrut_reg tag_reg arms) s (post s (λ l s', Forall (below (ln s')) l ∧ nx s <= nx s')).
Proof.
  induction 1 as [|[[|en variant bindings] body span] arms Hb _ IH]; intros s Hi Hd Hs Ht; cbn [compile_arms arm_body] in *.
  - cgo.
  - init. eapply ok_step; [by apply compile_match_body_ok|after]. cgo. apply Forall_singleton. unfold below. lia.
  - unfold here. cgo. eapply ok_step; [apply compile_match_body_ok; [done|assumption|side|side]|after]. cgo.
    eapply ok_step; [apply IH; [assumption|side|side|side]|after]. cgo.
    apply Forall_cons_2; [unfold below; lia|done].
Qed.
Lemma compile_match_ok scrut arms : into_ok scrut → Forall (λ a, into_ok (cexpr (arm_body a))) arms →
  into_ok (compile_match env cexpr scrut arms).
Proof.
  intros Hsc Ha s dst Hi Hd. unfold compile_match, here. cgo.
  eapply ok_step; [apply compile_arms_ok; [done|assumption|side|side|side]|after]. cgo.
  eapply ok_step; [eapply ok_patches; [assumption|eapply Forall_below_le; [|eassumption]; lia|lia]|after]. cgo.
Qed.

(** *** Calls *)
Lemma unary_into_ok arg instr n : into_ok arg → (∀ s' r, n <= mx s' → below (mx s') r → instr_ok (bounds s' (ln s' + 1)) (ln s') (instr r)) →
  unit_from n (unary_into arg instr).
Proof.
  intros Ha Hinstr s Hi Hn. unfold unary_into. cgo.
  eapply ok_step; [eapply ok_emit; [assumption|apply Hinstr; side]|after]. cgo.
Qed.
Lemma unary_builtin_ok name instr : unary_builtin name = Some instr → ∀ b pos dst src,
  below (b_regs b) dst → below (b_regs b) src → instr_ok b pos (instr dst src).
Proof. unfold unary_builtin. intros E b pos dst src Hd Hs. repeat case_decide; simplify_eq; by split. Qed.
Lemma state_arg_ok name b args span s : inv s →
  ok (state_arg env name b args span) s (λ idx s', s' = s ∧ below n_states idx).
Proof.
  intros Hi. unfold state_arg. destruct args as [|[[] ?] args]; try exact I.
  apply ok_bind, ok_require. intros i E. apply ok_ret. split; [done|by eapply state_index_below].
Qed.
Lemma with_arg1_ok args k (Q : () → Comp → Prop) s : all_ok args → (∀ f, into_ok f → ok (k f) s Q) → ok (with_arg1 cexpr args k) s Q.
Proof.
  intros Ha Hk. destruct args as [|a0 [|a args]]; try exact I. apply Hk. inversion_clear Ha as [|?? _ Ha']. by inversion_clear Ha'.
Qed.
Lemma with_arg2_ok args k (Q : () → Comp → Prop) s : all_ok args → (∀ f, into_ok f → ok (k f) s Q) → ok (with_arg2 cexpr args k) s Q.
Proof.
  intros Ha Hk. destruct args as [|a0 [|a1 [|a args]]]; try exact I. apply Hk.
  inversion_clear Ha as [|?? _ Ha']. inversion_clear Ha' as [|?? _ Ha'']. by inversion_clear Ha''.
Qed.
Lemma compile_state_builtin_ok b name args span dst : all_ok args → 0 <= dst →
  unit_from (dst + 1) (compile_state_builtin env cexpr b name args span dst).
Proof.
  intros Ha Hd0 s Hi Hn. unfold compile_state_builtin. init.
  eapply ok_step; [by apply state_arg_ok|]. intros idx ? [-> Hidx].
  assert (Hun : ∀ f instr, into_ok f → (∀ b pos r, below (b_states b) idx → below (b_regs b) dst → below (b_regs b) r →
    instr_ok b pos (instr r)) → ok (unary_into f instr) s (post s (λ _ s', nx s <= nx s'))).
  { intros f instr Hf Hin. apply (unary_into_ok f instr (dst + 1)); try done. intros s' r Hm Hr. apply Hin; [done| |done].
    unfold below. cbn. lia. }
  destruct b; try (cgo; fail); try (apply with_arg1_ok; [done|]; intros f Hf; by apply Hun).
  - apply with_arg1_ok; [done|]. intros lo Hlo. cgo. apply with_arg2_ok; [done|]. intros hi Hhi. cgo.
Qed.
Lemma call_instr_ok module name n_args span dst : 0 <= dst →
  args_ok (Z.of_nat n_args) (dst + 1) (call_instr env module name n_args span dst).
Proof.
  intros Hd s start Hi Hk [Hs1 [Hs2 Hs3]]. pose proof (as_u8_le (Z.of_nat n_args) ltac:(lia)). unfold call_instr.
  destruct module as [mod_name|].
  - destruct (_ && _ && (n_args =? 1)%nat) eqn:E; [|cgo].
    apply andb_prop in E as [_ E]. apply Nat.eqb_eq in E. cgo.
  - destruct (ce_import_index env !! name) as [i|] eqn:E; [|cgo].
    pose proof (as_u16_below _ _ (ok_imports Henv _ _ E)). cgo.
Qed.
Lemma compile_named_call_ok module name args span : all_ok args → into_ok (compile_named_call env cexpr module name args span).
Proof.
  intros Ha s dst Hi [Hd Hd']. unfold compile_named_call.
  destruct (state_builtin name) as [b|]; [by apply compile_state_builtin_ok; [..|lia]|]. cbv zeta. case_match.
  { apply (compile_args_ok _ _ (dst + 1)); [done| |done|lia]. intros s' start Hi' Hk [Hs1 [Hs2 Hs3]].
    pose proof (as_u8_le (zlen args) (zlen_nonneg _)). cgo. }
  assert (Hcall : ok (compile_args cexpr args (call_instr env module name (length args) span dst)) s
    (post s (λ _ s', nx s <= nx s'))).
  { apply (compile_args_ok _ _ (dst + 1)); [done|by apply call_instr_ok|done|lia]. }
  assert (Hconv : ok match convert_target name, args with
      | Some target, [a] => unary_into (cexpr a) (λ r, Convert dst r target)
      | _, _ => compile_args cexpr args (call_instr env module name (length args) span dst)
      end s (post s (λ _ s', nx s <= nx s'))).
  { destruct (convert_target name), args as [|a [|a' args']]; try exact Hcall. inversion_clear Ha.
    apply (unary_into_ok _ _ (dst + 1)); try done; [|lia]. intros s' r Hm Hr. expose. side. }
  destruct (context_kind name), args as [|a args']; try exact Hconv. cgo.
Qed.
Lemma compile_call_ok module name args span : all_ok args → into_ok (compile_call env cexpr module name args span).
Proof.
  intros Ha s dst Hi Hd. pose proof (compile_named_call_ok module name args span Ha s dst Hi Hd) as Hg. unfold compile_call.
  destruct args as [|a [|a' args']]; try exact Hg. destruct (unary_builtin name) as [instr|] eqn:E; [|exact Hg].
  inversion_clear Ha. destruct Hd. apply (unary_into_ok _ _ (dst + 1)); try done; [|lia].
  intros s' r Hm Hr. eapply unary_builtin_ok; [done| |done]. unfold below. cbn. lia.
Qed.
End args.

(** *** Names, indices and fields *)
Lemma compile_ident_ok inline name span : (∀ e, into_ok (inline e)) → into_ok (compile_ident env inline name span).
Proof.
  intros Hin s dst Hi Hd. unfold compile_ident, lookup_local. init. apply ok_bind, ok_gets.
  destruct (find_local (co_scopes s) name) as [reg|] eqn:E.
  - pose proof (find_local_ok _ _ _ _ (inv_scopes _ Hi) E). case_match; cgo.
  - destruct (ce_state_index env !! name) as [i|] eqn:Ei; [pose proof (state_index_below _ _ Ei); cgo|].
    destruct (ce_module_consts env !! name) as [value|]; [by apply Hin|done].
Qed.
Lemma keyed_state_ok target s : inv s →
  ok (keyed_state env target) s (λ r s', s' = s ∧ match r with Some (idx, _) => below n_states idx | None => True end).
Proof.
  intros Hi. unfold keyed_state, state_ty. destruct target as [[] ?]; try (by apply ok_ret).
  destruct (ce_state_index env !! name) as [i|] eqn:E; [|by apply ok_ret].
  apply ok_bind, ok_expect. intros ty _. apply ok_ret. split; [done|].
  destruct (keyed_kind ty); [|done]. by eapply state_index_below.
Qed.
Lemma get_keyed_ok b pos k dst idx key : below (b_regs b) dst → below (b_states b) idx → below (b_regs b) key →
  instr_ok b pos (get_keyed k dst idx key).
Proof. by destruct k. Qed.
Lemma put_keyed_ok b pos k idx key src : below (b_states b) idx → below (b_regs b) key → below (b_regs b) src →
  instr_ok b pos (put_keyed k idx key src).
Proof. by destruct k. Qed.
Lemma compile_index_ok target_expr target key : into_ok target → into_ok key →
  into_ok (compile_index env target_expr target key).
Proof.
  intros Ht Hk s dst Hi Hd. unfold compile_index. eapply ok_step; [by apply keyed_state_ok|]. intros keyed ? [-> Hx].
  destruct keyed as [[idx k]|]; [|cgo]. destruct Hd. apply (unary_into_ok _ _ (dst + 1)); try done; [|lia].
  intros s' r Hm Hr. apply get_keyed_ok; [|done|done]. unfold below. cbn. lia.
Qed.
Lemma project_chain_ok chain tmp dst : ∀ s, inv s → below (mx s) tmp → below (mx s) dst →
  ok (project_chain chain tmp dst) s (post s (λ _ s', nx s' = nx s)).
Proof.
  induction chain as [|fname rest IH]; intros s Hi Ht Hd; cbn [project_chain]; [cgo|].
  assert (Hdst : below (mx s) match rest with [] => dst | _ => tmp end) by by destruct rest.
  cgo. eapply ok_mono; [apply IH; [assumption|side|side]|after; finish].
Qed.
Ltac interned := eapply ok_step; [by apply intern_path_ok|]; intros [path_idx chain] ?s (?Hi & ?Hg & ?HR);
  cbn [fst snd] in *; expose.
Lemma compile_field_ok e target name : into_ok target → into_ok (compile_field env e target name).
Proof.
  intros Ht s dst Hi Hd. unfold compile_field, try_state_field_path. apply ok_bind, ok_gets.
  destruct (state_field_path env (co_scopes s) e []) as [[state_idx path]|]; [|cgo].
  init. interned. destruct chain as [|fname rest]; [cgo|]. cgo.
  eapply ok_step; [apply project_chain_ok; [assumption|side|side]|after]. cgo.
Qed.

(** *** Assignments *)
Definition tmps_ok (n next : Z) (tmps : list Z) : Prop := Forall (λ r, n <= r ∧ r < next) tmps.
Lemma alloc_list_ok n : ∀ s, inv s → ok (alloc_list n) s (post s (λ l s', tmps_ok (nx s) (nx s') l ∧ nx s <= nx s')).
Proof.
  induction n as [|n IH]; intros s Hi; cbn [alloc_list]; [cgo; by apply Forall_nil|].
  cgo. eapply ok_step; [by apply IH|after]. cgo.
  apply Forall_cons_2; [lia|]. eapply Forall_impl; [eassumption|]. cbn. lia.
Qed.
Lemma load_chain_ok chain : ∀ tmps s, inv s → Forall (below (mx s)) tmps →
  ok (load_chain chain tmps) s (post s (λ _ s', nx s' = nx s)).
Proof.
  induction chain as [|name rest IH]; intros tmps s Hi Ht; cbn [load_chain]; [cgo|].
  destruct tmps as [|t [|t' ts]]; [cgo..|]. apply Forall_cons in Ht as [Ht Hts]. pose proof Hts as Hts'.
  apply Forall_cons in Hts' as [Ht' _]. cgo.
  eapply ok_mono; [apply IH; [assumption|eapply Forall_below_le; [|eassumption]; lia]|after; finish].
Qed.
Lemma store_chain_ok chain : ∀ tmps value_reg s, inv s → Forall (below (mx s)) tmps → below (mx s) value_reg →
  ok (store_chain chain tmps value_reg) s (post s (λ _ s', nx s' = nx s)).
Proof.
  induction chain as [|name rest IH]; intros tmps value_reg s Hi Ht Hv; cbn [store_chain]; [cgo|].
  destruct tmps as [|t ts]; [cgo|]. apply Forall_cons in Ht as [Ht Hts]. init.
  eapply (ok_step _ _ _ (post s (λ v s', below (mx s') v ∧ nx s' = nx s))).
  - destruct ts as [|t' ts]; [cgo|]. pose proof Hts as Hts'. apply Forall_cons in Hts' as [Ht' _].
    eapply ok_step; [by apply IH|after]. cgo.
  - after. cgo.
Qed.
Lemma tmps_below n s tmps : 0 <= n → tmps_ok n (nx s) tmps → nx s <= mx s → Forall (below (mx s)) tmps.
Proof. intros Hn Ht Hm. eapply Forall_impl; [exact Ht|]. unfold below. cbn. lia. Qed.
Lemma tmps_above n m tmps : tmps_ok n m tmps → Forall (λ r, n <= r) tmps.
Proof. intros Ht. eapply Forall_impl; [exact Ht|]. cbn. lia. Qed.
Lemma assign_chain_ok chain path_idx value_reg s : inv s → below (np s) path_idx → below (mx s) value_reg →
  ok (assign_chain chain path_idx value_reg) s (post s (λ _ s', nx s <= nx s')).
Proof.
  intros Hi Hp Hv. unfold assign_chain. init. eapply ok_step; [by apply alloc_list_ok|after].
  assert (Ht : Forall (below (mx s0)) a) by (eapply tmps_below; [|eassumption|]; lia).
  assert (Hle : Forall (λ r, nx s <= r) a) by (by eapply tmps_above).
  destruct a as [|tmp0 tmps]; [done|]. pose proof Ht as Ht'. apply Forall_cons in Ht' as [Ht0 _].
  apply ok_bind. cbn [head expect_some]. apply ok_lift. intros ? [= <-]. cgo.
  eapply ok_step; [apply load_chain_ok; [assumption|eapply Forall_below_le; [|eassumption]; lia]|after].
  eapply ok_step; [apply store_chain_ok; [assumption|eapply Forall_below_le; [|eassumption]; lia|side]|after]. cgo.
  eapply ok_mono; [apply (free_all_ok (nx s)); [by apply Forall_reverse|assumption|lia]|after; finish].
Qed.
(** A value to assign is in an allocated register. *)
Definition assign_ok (f : Z → CM unit) : Prop := ∀ s r, inv s → 0 <= r < nx s → ok (f r) s (post s (λ _ s', nx s <= nx s')).
Lemma assign_ident_ok name span : assign_ok (assign_ident env name span).
Proof.
  intros s r Hi Hr. unfold assign_ident, lookup_local. init. apply ok_bind, ok_gets.
  destruct (find_local (co_scopes s) name) as [reg|] eqn:E; [|cgo].
  pose proof (find_local_ok _ _ _ _ (inv_scopes _ Hi) E). case_match; cgo.
Qed.
Lemma assign_index_ok t key span : into_ok key → assign_ok (assign_index env t key span).
Proof.
  intros Hk s r Hi Hr. unfold assign_index, state_ty. destruct t as [[] t_span]; try exact I. cgo.
  eapply ok_step; [eapply ok_emit; [assumption|apply put_keyed_ok; side]|after].
  destruct x1; cgo.
  eapply ok_step; [apply (maintain_indexes_ok _ _ (a + 1)); [|assumption|lia|side|lia]|after]; [|cgo].
  intros b pos [] [] st cur Hst Hcur Hb1 Hb2; cbn; unfold below in *; lia.
Qed.
Lemma assign_field_ok e inner parent name : into_ok inner → assign_ok parent → assign_ok (assign_field env e inner parent name).
Proof.
  intros Hin Hpar s r Hi Hr. unfold assign_field, try_state_field_path. init. apply ok_bind, ok_gets.
  destruct (state_field_path env (co_scopes s) e []) as [[state_idx path]|].
  - interned. destruct chain as [|fname rest]; [cgo|].
    eapply ok_mono; [apply assign_chain_ok; [assumption|side|side]|after; finish].
  - cgo. eapply ok_step; [apply Hpar; [assumption|lia]|after]. cgo.
Qed.
Lemma compile_delete_ok t key span : into_ok key → unit_ok (compile_delete env t key span).
Proof.
  intros Hk s Hi _. unfold compile_delete, state_ty. destruct t as [[] t_span]; try exact I. init. cgo.
  eapply (ok_step _ _ _ (λ _ s', s' = s)); [by destruct x0|]. intros is_pbtree ? ->. cgo.
  eapply ok_step; [eapply ok_emit; [assumption|destruct is_pbtree; side]|after].
  eapply ok_step; [apply (maintain_indexes_ok _ _ (nx s)); [|assumption|lia|side|lia]|after].
  { intros b pos [] [] st cur Hst Hcur Hb1 Hb2; cbn; unfold below in *; lia. }
  eapply ok_step; [eapply ok_emit; [assumption|destruct is_pbtree; side]|after]. cgo.
Qed.

(** *** Other statements *)
Lemma compile_break_ok span : unit_ok (compile_break span).
Proof. intros s Hi _. unfold compile_break. init. apply ok_bind, ok_gets. destruct (co_loop_stack s); [done|]. cgo. Qed.
Lemma compile_continue_ok span : unit_ok (compile_continue span).
Proof.
  intros s Hi _. unfold compile_continue. init. do 3 apply ok_bind, ok_gets.
  case_match; [cgo|]. destruct (co_loop_stack s); [done|]. cgo.
Qed.
Lemma bind_tuple_ok tuple_reg names : ∀ i s, inv s → below (mx s) tuple_reg →
  ok (bind_tuple tuple_reg names i) s (post s (λ _ s', nx s <= nx s')).
Proof.
  induction names as [|name rest IH]; intros i s Hi Hr; cbn [bind_tuple]; [cgo|]. cgo.
  eapply ok_mono; [apply IH; [assumption|side]|after; finish].
Qed.
Definition leg_ok (m : CM (option Z)) : Prop := ∀ s, inv s → ok m s (post s (λ r s', pos_ok (mx s') r ∧ nx s <= nx s')).
Lemma range_ok_le s s' l l' r : grow s s' → l <= l' → range_ok (bounds s l) r → range_ok (bounds s' l') r.
Proof.
  intros (Hm & _) Hl. unfold range_ok, below. cbn. destruct (pr_dst r); lia.
Qed.
Lemma parallel_ranges_ok leg ss : Forall (λ st, leg_ok (leg st)) ss → ∀ s, inv s →
  ok (parallel_ranges leg ss) s (post s (λ l s', Forall (range_ok (bounds s' (ln s'))) l ∧ nx s <= nx s')).
Proof.
  induction 1 as [|st ss Hst _ IH]; intros s Hi; cbn [parallel_ranges]; [cgo|]. unfold here. cgo.
  eapply ok_step; [by apply Hst|after].
  eapply ok_step; [eapply ok_emit; [assumption|destruct a; cbn in *; expose; side]|after]. cgo.
  eapply ok_step; [by apply IH|after]. cgo. apply Forall_cons_2; [|done].
  unfold range_ok, pos_ok, below in *. cbn [pr_start pr_end pr_dst bounds b_regs b_len]. destruct a; lia.
Qed.
Lemma compile_parallel_ok leg ss : Forall (λ st, leg_ok (leg st)) ss → unit_ok (compile_parallel leg ss).
Proof.
  intros Hl s Hi _. unfold compile_parallel, here. init.
  eapply ok_step; [eapply emit_at_ok; [assumption|cbn; split; [by apply Forall_nil|side]]|after].
  eapply ok_step; [by apply parallel_ranges_ok|after]. cgo.
  eapply ok_mono; [eapply ok_replace; [assumption|cbn; split; [done|side]|lia]|after; finish].
Qed.
Lemma compile_parallel_for_ok id_var idx_var source output body : into_ok source → into_ok body →
  unit_ok (compile_parallel_for id_var idx_var source output body).
Proof.
  intros Hs Hb s Hi _. unfold compile_parallel_for, here. cgo.
  eapply (ok_step _ _ _ (λ r s', s' = s1 ∧ below (mx s1) r)).
  { destruct output as [[] ?]; try exact I. unfold lookup_local. apply ok_bind, ok_gets, ok_require.
    intros r Hr. split; [done|]. eapply find_local_ok; [by apply inv_scopes|exact Hr]. }
  intros output_reg ? [-> Ho]. cgo.
  eapply (ok_step _ _ _ (post s5 (λ _ s', nx s' = nx s5 ∧ ln s' = ln s5))).
  { destruct idx_var; cgo. }
  after. cgo. eapply ok_step; [eapply ok_pfor; assumption|after]. cgo.
  eapply ok_step; [eapply ok_pfor; assumption|after]. cgo.
  eapply ok_mono; [eapply ok_replace; [assumption|side|lia]|after; finish].
Qed.
Lemma compile_branches_ok n cond then_ else_ : into_ok cond → unit_from n then_ → unit_from n else_ →
  unit_from n (compile_branches cond then_ else_).
Proof. intros Hc Ht He s Hi Hn. unfold compile_branches, here. cgo. Qed.
Lemma in_block_ok n stmts tail : unit_from n stmts → unit_from n tail → unit_from n (in_block stmts tail).
Proof. intros Hs Ht s Hi Hn. unfold in_block, next_reg. cgo. Qed.
Lemma discard_ok value : into_ok value → unit_ok (discard value).
Proof. intros Hv s Hi Hn. unfold discard. cgo. Qed.
Lemma compile_stmts_ok cstmt n ss : Forall (λ st, unit_from n (cstmt st)) ss → unit_from n (compile_stmts cstmt ss).
Proof.
  induction 1 as [|st ss Hst _ IH]; intros s Hi Hn; cbn [compile_stmts]; [cgo|]. cgo.
Qed.

(** *** The whole tree *)
Section tree.
Context (inline : Expr → Z → CM unit) (Hin : ∀ e, into_ok (inline e)).
Abbreviation cexpr := (compile_expr_into env inline).
Definition expr_ok (e : Expr) : Prop := into_ok (cexpr e) ∧ assign_ok (assign_path env inline e).
Definition block_ok (b : Block) : Prop :=
  into_ok (compile_block_into env inline b) ∧ unit_ok (compile_block env inline b).
Definition if_ok (i : IfStmt) : Prop := into_ok (compile_if_into env inline i) ∧ unit_ok (compile_if env inline i).
(** The statements of a parallel block. *)
Abbreviation leg st :=
  (match st with
   | S_Let name _ value _ => r ← alloc; _ ← cexpr value r; _ ← bind_local name r; mret (Some r)
   | st => _ ← compile_stmt env inline st; mret None
   end).
Definition stmt_ok (st : Stmt) : Prop := unit_ok (compile_stmt env inline st) ∧ leg_ok (leg st).
Definition sub_exprs (e : Expr) : list Expr := match e with mkExpr k _ => kind_exprs k end.

Lemma all_into es : Forall expr_ok es → Forall (λ e, into_ok (cexpr e)) es.
Proof. intros H. eapply Forall_impl; [exact H|]. by intros e [He _]. Qed.
Lemma unit_from_le n m c : unit_from n c → n <= m → unit_from m c.
Proof. intros Hc Hn s Hi Hm. apply Hc; [done|lia]. Qed.
Lemma into_unit f dst : into_ok f → 0 <= dst → unit_from (dst + 1) (f dst).
Proof. intros Hf Hd s Hi Hn. apply Hf; [done|]. unfold below. lia. Qed.
Lemma else_ok (Q : CM unit → Prop) (none : CM unit) (blk : Block → CM unit) (ifs : IfStmt → CM unit) e :
  Q none → Forall (λ b, Q (blk b)) (else_blocks e) → Forall (λ i, Q (ifs i)) (else_ifs e) →
  Q match e with ElseNone => none | ElseBlock b => blk b | ElseIf i => ifs i end.
Proof. intros Hn Hb Hi. destruct e; [done|by inversion_clear Hb|by inversion_clear Hi]. Qed.
Lemma fits_args n (mk : Z → Instr) k : (∀ s l pos start, k <= mx s → span_ok (mx s) start n → instr_ok (bounds s l) pos (mk start)) →
  args_ok n k (λ start, emit (mk start)).
Proof.
  intros Hmk s' start Hi Hk Hs. eapply ok_mono; [eapply ok_emit; [done|by apply Hmk]|after; finish].
Qed.
Lemma ok_from (m : CM unit) s s0 : grow s s0 → nx s <= nx s0 → ok m s0 (post s0 (λ _ s', nx s0 <= nx s')) →
  ok m s0 (post s (λ _ s', nx s <= nx s')).
Proof. intros Hg Hn Hm. eapply ok_mono; [exact Hm|]. intros ? s1 (Hi & Hg1 & Hn1). split; [done|]. split; [by eapply grow_trans|lia]. Qed.
Ltac from := apply ok_from; [unfold grow; lia|lia|].
(** Compiling [es] for the instruction [mk] into its destination. *)
Lemma make_ok es (mk : Z → Z → Instr) : Forall expr_ok es →
  (∀ s l pos dst start, below (mx s) dst → span_ok (mx s) start (zlen es) → instr_ok (bounds s l) pos (mk dst start)) →
  into_ok (λ dst, compile_args (λ e r, cexpr e r) es (λ start, emit (mk dst start))).
Proof.
  intros He Hmk s dst Hi [Hd Hd']. apply (compile_args_ok _ _ _ (dst + 1)); [by apply all_into| |done|lia].
  apply fits_args. intros s' l pos start Hk Hs. apply Hmk; [unfold below; lia|done].
Qed.
Ltac make n := apply make_ok; [done|]; intros ?s ?l pos ?dst start ?Hdst (? & ? & ?);
  pose proof (as_u16_le n (zlen_nonneg _)); expose; side.
Lemma comp_ok (mk : Z → Instr) leaf leaf_exprs clauses :
  (∀ b pos dst, below (b_regs b) dst → instr_ok b pos (mk dst)) → (∀ dst n, below n dst → leaf_ok (leaf dst) n) →
  Forall expr_ok (clause_expr <$> clauses) →
  into_ok (λ dst, _ ← emit (mk dst); lower_comp env (λ e r, cexpr e r) (leaf dst) leaf_exprs true clauses).
Proof.
  intros Hmk Hl Hc s dst Hi Hd. init. eapply ok_step; [eapply ok_emit; [done|by apply Hmk]|after].
  from. apply (lower_comp_ok _ _ _ (dst + 1)); [apply Hl; unfold below; lia| |assumption|lia].
  rewrite Forall_fmap in Hc. eapply Forall_impl; [exact Hc|]. by intros c [H' _].
Qed.
Lemma if_into_ok cond then_ else_ : into_ok cond → into_ok then_ → into_ok else_ →
  into_ok (λ dst, compile_branches cond (then_ dst) (else_ dst)).
Proof.
  intros Hc Ht He s dst Hi [Hd Hd']. apply (compile_branches_ok (dst + 1)); [done|by apply into_unit..|done|lia].
Qed.
Lemma else_into_ok e : Forall block_ok (else_blocks e) → Forall if_ok (else_ifs e) →
  into_ok (λ dst, match e with ElseNone => emit_const dst (CBool false) | ElseBlock b => compile_block_into env inline b dst
                  | ElseIf inner => compile_if_into env inline inner dst end).
Proof.
  intros Hb Hi. destruct e; [apply emit_const_ok| |].
  - by inversion_clear Hb as [|?? []].
  - by inversion_clear Hi as [|?? []].
Qed.
Lemma dyn_call_ok target_ident method args is_view is_pure sp : Forall expr_ok args →
  into_ok (cexpr (mkExpr (E_DynCall target_ident method args is_view is_pure) sp)).
Proof.
  intros Ha s dst Hi Hd. simpl. init. pose proof (as_u8_le (zlen args) (zlen_nonneg _)).
  eapply ok_step; [apply ok_alloc; done|after].
  eapply ok_step; [apply compile_ident_ok; [done|assumption|side]|after].
  eapply ok_step; [apply (compile_args_ok _ _ _ (Z.max dst a + 1)); [by apply all_into| |assumption|lia]|after; cgo].
  intros s' start Hi' Hk [Hs1 [Hs2 Hs3]]. cgo.
Qed.
Lemma array_alloc_ok elem_ty len sp : into_ok (cexpr len) → into_ok (cexpr (mkExpr (E_ArrayAlloc elem_ty len) sp)).
Proof. intros Hl s dst Hi Hd. simpl. cgo. eapply ok_step; [apply Hin; [assumption|side]|after]. cgo. Qed.
Lemma pipe_ok head step sp : into_ok (cexpr head) → into_ok (cexpr step) → into_ok (cexpr (mkExpr (E_Pipe head step) sp)).
Proof.
  intros Hh Hs s dst Hi Hd. simpl. cgo.
  eapply ok_step; [eapply ok_push_pipe; [assumption|side]|after]. cgo.
  eapply ok_step; [eapply ok_pop_pipe; assumption|after]. cgo.
Qed.
Lemma prev_ok sp : into_ok (cexpr (mkExpr E_Prev sp)).
Proof.
  intros s dst Hi Hd. simpl. init. apply ok_bind, ok_gets, ok_bind, ok_require. intros r Hr.
  assert (below (mx s) r).
  { pose proof (inv_pipes _ Hi) as Hp. destruct (co_pipe_stack s); [done|]. injection Hr as <-. by inversion_clear Hp. }
  case_match; cgo.
Qed.
Lemma enum_ctor_ok enum_name variant args sp : Forall expr_ok args →
  into_ok (cexpr (mkExpr (E_EnumCtor enum_name variant args) sp)).
Proof.
  intros Ha s dst Hi Hd. simpl. cgo.
  apply (make_ok args (λ dst start, MakeEnum dst (as_u16 x) (as_u16 (Z.of_nat x1)) start (as_u16 (zlen args)))); [done| |done|side].
  intros s' l pos dst' start Hd' [Hs1 [Hs2 Hs3]]. pose proof (as_u16_le (zlen args) (zlen_nonneg _)). expose. side.
Qed.
Lemma expr_kind_ok k sp : Forall expr_ok (kind_exprs k) → Forall block_ok (kind_blocks k) → Forall if_ok (kind_ifs k) →
  into_ok (cexpr (mkExpr k sp)).
Proof.
  intros He Hb Hi. destruct k; cbn [kind_exprs kind_blocks kind_ifs] in *.
  all: try match type of He with Forall _ (_ :: _) => apply Forall_cons in He as [[He1 _] He] end.
  all: try match type of He with Forall _ (_ :: _) => apply Forall_cons in He as [[He2 _] He] end.
  all: try (intros ? dst Hinv Hd; simpl; by apply emit_const_ok).
  - by apply (compile_json_object_ok (λ e r, cexpr e r)), all_into.
  - by apply (compile_json_array_ok (λ e r, cexpr e r)), all_into.
  - intros s dst Hinv Hd. pose proof (inv_regs _ Hinv). simpl.
    eapply json_call_ok; [done|lia| |done]. unfold allocs_ok. splits; [by apply Forall_nil_2|done|lia|done].
  - by apply compile_ident_ok.
  - intros s dst Hinv Hd. simpl. init. eapply ok_step; [by apply He1|after]. from.
    apply (unary_into_ok _ _ (dst + 1)); [done| |done|lia]. intros s' r Hm Hr. expose. side.
  - intros s dst Hinv Hd. simpl. cgo.
  - by apply (compile_call_ok (λ e r, cexpr e r)), all_into.
  - by apply dyn_call_ok.
  - by apply compile_index_ok.
  - make (zlen elems).
  - done.
  - by apply array_alloc_ok.
  - intros s dst Hinv Hd. simpl. cgo.
  - by apply (compile_struct_lit_ok (λ e r, cexpr e r)), all_into.
  - by apply compile_field_ok.
  - by apply pipe_ok.
  - apply prev_ok.
  - apply (comp_ok (λ dst, MakeArray dst 0 0) (λ dst, ListAppend (λ r, cexpr mapper r) dst) [mapper] clauses);
      [intros b pos dst Hd; unfold below in Hd; cbn; unfold below, span_ok; lia|intros; by splits|done].
  - make (zlen elems).
  - apply (comp_ok (λ dst, MakeSet dst 0 0) (λ dst, SetInsert (λ r, cexpr mapper r) dst) [mapper] clauses);
      [intros b pos dst Hd; unfold below in Hd; cbn; unfold below, span_ok; lia|intros; by splits|done].
  - apply Forall_app in He as [Hk Hv]. by apply (compile_dict_ok (λ e r, cexpr e r)); apply all_into.
  - apply (comp_ok (λ dst, MakeDict dst 0 0) (λ dst, DictSet (λ r, cexpr key r) (λ r, cexpr value r) dst) [key; value] clauses);
      [intros b pos dst Hd; unfold below in Hd; cbn; unfold below, span_ok; lia|intros; by splits|done].
  - make (zlen elems).
  - intros s dst Hinv [Hd Hd']. simpl. apply (unary_into_ok _ _ (dst + 1)); [done| |done|lia]. intros s' r Hm Hr. expose. side.
  - by apply enum_ctor_ok.
  - apply (compile_match_ok (λ e r, cexpr e r)); [done|]. rewrite Forall_fmap in He. eapply Forall_impl; [exact He|]. by intros a [Ha _].
  - inversion_clear Hb as [|?? [Hb1 _]]. exact Hb1.
  - apply Forall_cons in Hb as [[Ht _] Hb].
    apply (if_into_ok _ (λ dst, compile_block_into env inline then_ dst)
      (λ dst, match else_branch with ElseNone => emit_const dst (CBool false) | ElseBlock b => compile_block_into env inline b dst
              | ElseIf inner => compile_if_into env inline inner dst end)); [done..|].
    by apply else_into_ok.
Qed.
Lemma assign_path_ok k sp : Forall expr_ok (kind_exprs k) → assign_ok (assign_path env inline (mkExpr k sp)).
Proof.
  intros He. destruct k; cbn [kind_exprs] in *; try (intros ? ? _ _; exact I).
  - apply assign_ident_ok.
  - apply Forall_cons in He as [_ He]. apply Forall_cons in He as [[Hk _] _]. by apply assign_index_ok.
  - apply Forall_cons in He as [[Ht Hp] _]. by apply assign_field_ok.
Qed.
Lemma block_parts_ok ss t sp : Forall stmt_ok ss → Forall expr_ok (option_list t) → block_ok (mkBlock ss t sp).
Proof.
  intros Hs Ht. apply (Forall_impl _ (λ st, unit_ok (compile_stmt env inline st))) in Hs; [|by intros ? []].
  apply compile_stmts_ok in Hs.
  assert (Hss : ∀ n, 0 <= n → unit_from n (compile_stmts (λ s, compile_stmt env inline s) ss)).
  { intros n Hn. by eapply unit_from_le. }
  split.
  - intros s dst Hi [Hd Hd']. apply (in_block_ok (dst + 1)); [apply Hss; lia| |done|lia].
    destruct t as [t|]; [|by apply (into_unit (λ dst, emit_const dst _)); [apply emit_const_ok|]].
    inversion_clear Ht as [|?? [He _] _]. by apply into_unit.
  - apply in_block_ok; [by apply Hss|]. destruct t as [t|]; [|intros s Hi Hn; cgo].
    inversion_clear Ht as [|?? [He _] _]. by apply discard_ok.
Qed.
Lemma if_parts_ok c t e sp : expr_ok c → block_ok t → Forall block_ok (else_blocks e) → Forall if_ok (else_ifs e) →
  if_ok (mkIf c t e sp).
Proof.
  intros [Hc _] [Ht Ht'] Hb Hi. split.
  - apply (if_into_ok _ (λ dst, compile_block_into env inline t dst) (λ dst, match e with
      ElseNone => emit_const dst (CBool false) | ElseBlock b => compile_block_into env inline b dst
      | ElseIf inner => compile_if_into env inline inner dst end)); [done..|by apply else_into_ok].
  - apply compile_branches_ok; [done..|]. destruct e; [intros s Hs Hn; cgo| |].
    + by inversion_clear Hb as [|?? []].
    + by inversion_clear Hi as [|?? []].
Qed.
Lemma parallel_leg_ok st : unit_ok (compile_stmt env inline st) → Forall expr_ok (stmt_exprs st) → leg_ok (leg st).
Proof.
  intros Hst He s Hi. init.
  assert (Hany : ok (_ ← compile_stmt env inline st; mret None) s (post s (λ r s', pos_ok (mx s') r ∧ nx s <= nx s'))).
  { eapply ok_step; [apply Hst; [done|lia]|after]. cgo. }
  destruct st; try exact Hany. cbn [stmt_exprs] in He. apply Forall_cons in He as [[He _] _].
  cgo. unfold pos_ok, below. lia.
Qed.
Lemma stmt_forms_ok st : Forall expr_ok (stmt_exprs st) → Forall (λ e, Forall expr_ok (sub_exprs e)) (stmt_exprs st) →
  Forall block_ok (stmt_blocks st) → Forall stmt_ok (stmt_stmts st) → Forall if_ok (stmt_ifs st) →
  unit_ok (compile_stmt env inline st).
Proof.
  intros He Hsub Hb Hs Hi. destruct st; cbn [stmt_exprs stmt_blocks stmt_stmts stmt_ifs] in *.
  all: try match type of He with Forall _ (_ :: _) => apply Forall_cons in He as [[He1 Ha1] He] end.
  all: try match type of He with Forall _ (_ :: _) => apply Forall_cons in He as [[He2 _] He] end.
  all: try match type of Hb with Forall _ (_ :: _) => apply Forall_cons in Hb as [[Hb1 Hb2] _] end.
  - intros s Hinv _. simpl. cgo.
  - intros s Hinv _. simpl. cgo. eapply ok_step; [apply Ha1; [assumption|lia]|after]. cgo.
  - intros s Hinv _. destruct value; simpl; [|cgo]. inversion_clear He as [|?? [He1 _] _]. cgo.
  - by inversion_clear Hi as [|?? []].
  - by apply compile_while_ok.
  - apply compile_for_ok; [done| |done]. destruct limit; [|done]. by inversion_clear He as [|?? []].
  - by apply compile_for_range_ok.
  - apply compile_break_ok.
  - apply compile_continue_ok.
  - by apply discard_ok.
  - apply (compile_parallel_ok (λ st, leg st)). eapply Forall_impl; [exact Hs|]. by intros ? [].
  - by apply compile_parallel_for_ok.
  - intros s Hinv _. simpl. cgo.
  - destruct target as [[] ?]; try (intros ? _ _; exact I). cbn [sub_exprs kind_exprs] in Hsub.
    apply Forall_cons in Hsub as [Hk _]. apply Forall_cons in Hk as [_ Hk]. apply Forall_cons in Hk as [[Hk _] _].
    by apply compile_delete_ok.
  - intros s Hinv _. simpl. cgo. eapply ok_mono; [apply bind_tuple_ok; [assumption|side]|after; finish].
  - intros ? _ _. exact I.
Qed.
Lemma tree_ok : (∀ e, expr_ok e ∧ Forall expr_ok (sub_exprs e)) ∧ (∀ b, block_ok b) ∧ (∀ st, stmt_ok st) ∧ (∀ i, if_ok i).
Proof.
  apply ast_ind.
  - intros k sp He Hb Hi. assert (He' : Forall expr_ok (kind_exprs k)) by (eapply Forall_impl; [exact He|]; by intros ? []).
    split; [|done]. split; [by apply expr_kind_ok|by apply assign_path_ok].
  - intros ss t sp Hs Ht. apply block_parts_ok; [done|]. eapply Forall_impl; [exact Ht|]; by intros ? [].
  - intros st He Hb Hs Hi. assert (He' : Forall expr_ok (stmt_exprs st)) by (eapply Forall_impl; [exact He|]; by intros ? []).
    assert (Hst : unit_ok (compile_stmt env inline st)).
    { apply stmt_forms_ok; try done. eapply Forall_impl; [exact He|]; by intros ? []. }
    split; [done|by apply parallel_leg_ok].
  - intros c t e sp [Hc _]. by apply if_parts_ok.
Qed.
End tree.
Lemma inline_ok fuel : ∀ e, into_ok (inline_expr env fuel e).
Proof.
  induction fuel as [|fuel IH]; intros e; [intros s dst Hi Hd; exact I|].
  destruct (tree_ok _ IH) as (He & _). by destruct (He e) as [[H _] _].
Qed.
Lemma compile_fn_body_ok inline b : (∀ e, into_ok (inline e)) → unit_ok (compile_fn_body env inline b).
Proof.
  intros Hin. destruct (tree_ok inline Hin) as (He & _ & Hs & _).
  apply in_block_ok; [apply compile_stmts_ok, Forall_true; intros st; apply Hs|].
  destruct (bl_tail b) as [t|]; [|intros s Hi Hn; cgo]. destruct (He t) as [[Ht _] _]. intros s Hi Hn. cgo.
Qed.
End inv.

(** ** Functions and modules *)
Lemma fold_positions {B} (n : Z) (key : B → bytes) (val : B → Z) ps : ∀ out, Forall (λ p, below n (val p)) ps → positions n out →
  positions n (foldl (λ out p, <[key p := val p]> out) out ps).
Proof.
  induction ps as [|p ps IH]; intros out Hp Ho; cbn; [done|]. apply Forall_cons in Hp as [Hp Hps]. apply IH; [done|].
  intros k i. rewrite lookup_insert_Some. intros [[_ <-]|[_ Hk]]; [done|by eapply Ho].
Qed.
Lemma imap_below {A} (l : list A) : Forall (λ p, below (zlen l) (Z.of_nat p.1)) (imap pair l).
Proof.
  apply Forall_forall. intros [i a] Hi. apply list_elem_of_lookup in Hi as [j Hj].
  rewrite list_lookup_imap in Hj. destruct (l !! j) as [b|] eqn:E; [|done]. injection Hj as <- <-.
  apply lookup_lt_Some in E. unfold below, zlen. cbn. lia.
Qed.
Lemma positions_empty {K} `{Countable K} n : positions (K := K) n ∅.
Proof. intros k i. by rewrite lookup_empty. Qed.
Lemma index_by_below {A} (name : A → bytes) (l : list A) : positions (zlen l) (index_by name l).
Proof. apply fold_positions; [apply imap_below|apply positions_empty]. Qed.
Lemma param_scope_below params : zlen params < 65536 → positions (as_u16 (zlen params)) (param_scope params).
Proof.
  intros Hp. apply fold_positions; [|apply positions_empty]. eapply Forall_impl; [apply imap_below|].
  intros p [H1 H2]. unfold below, as_u16. rewrite !Z.mod_small by lia. lia.
Qed.

(** What holds of a function compiled into a module of these tables. *)
Definition fn_ok (m : BcModule) (f : BcFn) : Prop :=
  code_ok (mkBounds (n_regs f) (zlen (consts f)) (zlen (path_specs m)) (zlen (code f)) (zlen (state_types m))
    (zlen (imports m)) (zlen (functions m)) (zlen (struct_shapes m)) (zlen (enum_shapes m))) (code f) ∧
  0 <= n_params f <= n_regs f ∧ ends_in_return (code f) = true.

Section module.
Context (m : SrcModule) (name : bytes) (ifaces : gset bytes) (flags : gmap (bytes * bytes) (bool * bool)).
Abbreviation env := (module_env m name ifaces flags).
Lemma module_env_ok : env_ok env (zlen (sm_imports m)) (zlen (sm_functions m)).
Proof.
  split; cbn.
  - by rewrite !length_fmap.
  - replace (zlen (_ <$> sm_states m)) with (zlen (sm_states m)) by (unfold zlen; by rewrite length_fmap). apply index_by_below.
  - apply index_by_below.
  - replace (zlen (_ <$> sm_enums m)) with (zlen (sm_enums m)) by (unfold zlen; by rewrite length_fmap). apply index_by_below.
  - apply index_by_below.
  - apply index_by_below.
Qed.

(** The function, for the number of paths known when it is done. *)
Definition fn_bounds (f : BcFn) (n_paths : Z) : Bounds :=
  mkBounds (n_regs f) (zlen (consts f)) n_paths (zlen (code f)) (zlen (sm_states m)) (zlen (sm_imports m))
    (zlen (sm_functions m)) (zlen (shapes_of m)) (zlen (sm_enums m)).
Definition fn_in (f : BcFn) (n_paths : Z) : Prop :=
  code_ok (fn_bounds f n_paths) (code f) ∧ 0 <= n_params f <= n_regs f ∧ ends_in_return (code f) = true.
Lemma fn_in_le f n n' : n <= n' → fn_in f n → fn_in f n'.
Proof.
  intros Hn [Hc Hr]. split; [|done]. intros pos i Hi. eapply instr_ok_le, Hc, Hi. unfold le_bounds. cbn. splits; done || lia.
Qed.
Lemma compile_fn_ok fuel f specs index bf specs' index' : zlen (fd_params f) < 65536 → positions (zlen specs) index →
  compile_fn fuel env f (specs, index) = Ok (bf, (specs', index')) →
  fn_in bf (zlen specs') ∧ positions (zlen specs') index' ∧ zlen specs <= zlen specs'.
Proof.
  intros Hp Hix. unfold compile_fn. cbn [fst snd].
  set (n := as_u16 (zlen (fd_params f))). set (s := mkComp _ _ _ _ _ _ _ _ _ _ _).
  assert (Hn : 0 <= n) by (unfold n; pose proof (as_u16_le (zlen (fd_params f)) (zlen_nonneg _)); lia).
  assert (Hi : inv env (zlen (sm_imports m)) (zlen (sm_functions m)) s).
  { split; cbn; [lia|by intros []| |by apply Forall_nil_2|done|by apply Forall_nil_2].
    apply Forall_singleton. by apply param_scope_below. }
  pose proof (compile_fn_body_ok _ _ _ module_env_ok (inline_expr env fuel) (fd_body f)
    (inline_ok _ _ _ module_env_ok fuel) s Hi ltac:(cbn; lia)) as Hok.
  unfold ok in Hok. destruct (compile_fn_body _ _ _ s) as [[[]|e| |] s'] eqn:E; try done.
  destruct Hok as (Hi' & (Hm & _ & Hs & _) & _). cbn. intros [= <- <- <-]. cbn in *.
  split; [|split; [apply Hi'|done]]. pose proof (inv_code _ _ _ _ Hi') as Hc.
  assert (Hlen : zlen (sm_states m) = zlen (ce_state_types env)) by (unfold zlen; cbn; by rewrite length_fmap).
  assert (Hen : zlen (sm_enums m) = zlen (ce_enum_shapes env)) by (unfold zlen; cbn; by rewrite length_fmap).
  split; [|split; [cbn; lia|]].
  - unfold fn_bounds. cbn. rewrite Hlen, Hen. destruct (ends_in_return (co_code s')); [exact Hc|].
    intros pos i. rewrite zlen_app. rewrite lookup_app_Some, list_lookup_singleton_Some. intros [Hl|(_ & _ & <-)]; [|done].
    eapply instr_ok_le, Hc, Hl. unfold le_bounds. cbn. splits; done || (unfold zlen; cbn; lia).
  - cbn. destruct (ends_in_return (co_code s')) eqn:E'; [done|]. unfold ends_in_return. by rewrite last_snoc.
Qed.
Lemma compile_fns_ok fuel fs : ∀ specs index bfs specs', Forall (λ f, zlen (fd_params f) < 65536) fs →
  positions (zlen specs) index → compile_fns fuel env fs (specs, index) = Ok (bfs, specs') →
  Forall (λ bf, fn_in bf (zlen specs')) bfs ∧ zlen specs <= zlen specs' ∧ length bfs = length fs.
Proof.
  induction fs as [|f fs IH]; intros specs index bfs specs' Hp Hix; cbn [compile_fns].
  { intros [= <- <-]. by split; [apply Forall_nil_2|]. }
  apply Forall_cons in Hp as [Hp Hps].
  destruct (compile_fn fuel env f (specs, index)) as [[bf [specs1 index1]]|e| |] eqn:E1; cbn; try done.
  destruct (compile_fns fuel env fs (specs1, index1)) as [[bfs1 specs2]|e| |] eqn:E2; cbn; try done.
  intros [= <- <-]. apply compile_fn_ok in E1 as (Hf & Hix1 & Hle1); [|done..].
  apply IH in E2 as (Hfs & Hle2 & Hlen); [|done..]. split; [|split; [lia|cbn; by f_equal]].
  apply Forall_cons_2; [by eapply fn_in_le|done].
Qed.
Lemma dispatch_table_ok hs : ∀ out out', (∀ k l, out !! k = Some l → Forall (below (zlen (sm_functions m))) l) →
  dispatch_table env name hs out = Ok out' → ∀ k l, out' !! k = Some l → Forall (below (zlen (sm_functions m))) l.
Proof.
  induction hs as [|h hs IH]; intros out out' Ho; cbn [dispatch_table]; [by intros [= <-]|].
  destruct (ce_fn_index env !! fd_name (hd_fn_def h)) as [i|] eqn:E; [|done]. apply IH.
  intros k l. rewrite lookup_insert_Some. intros [[_ <-]|[_ Hk]]; [|by eapply Ho].
  apply Forall_app_2; [|apply Forall_singleton; by eapply as_u16_below, (ok_fns _ _ _ module_env_ok)].
  destruct (out !! _) eqn:E'; cbn; [by eapply Ho|by apply Forall_nil_2].
Qed.
End module.

