(* ===== verification/VmBase.v ===== *)
(** The virtual machine's state and helpers ([crates/rend/src/vm.rs]): fuel,
    registers, forcing, shadow transactions of parallel tasks, interface
    conformance and cursors. *)
From S2P Require Import Prelude Bytes Hashing Values Serialize Kv Merkle PmapNode Pmap Pbtree Tx TxTyped JsonText Floats Display Ops Bytecode.

(** ** State

    [VmState] borrows a transaction; the loaded modules and the host are
    parameters of the machine. *)
Record VmState := mkVm { fuel : Z; vm_tx : Tx; parallel_skip : bool }.

(** A computation of the machine.  [None] is the model's bound on the recursion
    between the loop, calls and parallel tasks; it is apart from every outcome
    of the program, the end of its fuel included. *)
Definition VM (A : Type) : Type := VmState → option (outcome A * VmState).

#[export] Instance VM_ret : MRet VM := λ A a s, Some (Ok a, s).
#[export] Instance VM_bind : MBind VM := λ A B f m s,
  match m s with
  | Some (Ok a, s') => f a s'
  | Some (Err e, s') => Some (Err e, s')
  | Some (Panic, s') => Some (Panic, s')
  | Some (OutOfFuel, s') => Some (OutOfFuel, s')
  | None => None
  end.

Definition vm_lift {A} (o : outcome A) : VM A := λ s, Some (o, s).
Definition fail {A} (msg : string) : VM A := vm_lift (Err (runtime msg Span_default)).
Definition panic {A} : VM A := vm_lift Panic.

(** An operation on the transaction. *)
Definition on_tx {A} (m : SM Tx A) : VM A := λ s,
  let '(o, t) := m (vm_tx s) in Some (o, mkVm (fuel s) t (parallel_skip s)).

Definition OUT_OF_FUEL_MSG : string := "out of fuel".

Definition tick : VM unit := λ s,
  if fuel s =? 0 then Some (Err (runtime OUT_OF_FUEL_MSG Span_default), s)
  else Some (Ok tt, mkVm (fuel s - 1) (vm_tx s) (parallel_skip s)).

(** [fuel.saturating_sub(used)]. *)
Definition bill (used : nat) : VM unit := λ s,
  Some (Ok tt, mkVm (Z.max 0 (fuel s - Z.of_nat used)) (vm_tx s) (parallel_skip s)).

Definition set_skip : VM unit := λ s, Some (Ok tt, mkVm (fuel s) (vm_tx s) true).

(** ** Registers *)
Abbreviation Regs := (list Value) (only parsing).

(** [regs[r]] and [regs[r] = v]; out of range they panic. *)
Definition reg (regs : Regs) (r : Z) : VM Value := vm_lift (or_panic (get_z regs r)).
Definition set_reg (regs : Regs) (r : Z) (v : Value) : VM Regs :=
  match get_z regs r with Some _ => mret (set_z regs r v) | None => panic end.

(** [self.modules[i]], [f.consts[i]], ... *)
Definition index {A} (l : list A) (i : Z) : VM A := vm_lift (or_panic (get_z l i)).

(** [args_start..args_start + n]. *)
Definition arg_regs (args_start n : Z) : list Z :=
  (λ i, args_start + Z.of_nat i) <$> seq 0 (Z.to_nat n).

Fixpoint read_regs (regs : Regs) (rs : list Z) : VM (list Value) :=
  match rs with
  | [] => mret []
  | r :: rs' => v ← reg regs r; vs ← read_regs regs rs'; mret (v :: vs)
  end.

(** A string of the constant pool. *)
Definition const_str (f : BcFn) (idx : Z) (msg : string) : VM bytes :=
  c ← index (consts f) idx;
  match c with CStr s => mret s | _ => fail msg end.

Section forcing.
Context `{BigIntCodec}.

Definition force_reg (regs : Regs) (r : Z) : VM (Value * Regs) :=
  v0 ← reg regs r;
  v ← on_tx (force_tx v0);
  regs' ← set_reg regs r v;
  mret (v, regs').

Definition force_reg_spine (regs : Regs) (r : Z) : VM (Value * Regs) :=
  v0 ← reg regs r;
  v ← on_tx (force_spine v0);
  regs' ← set_reg regs r v;
  mret (v, regs').

Fixpoint force_regs (regs : Regs) (rs : list Z) : VM (list Value * Regs) :=
  match rs with
  | [] => mret ([], regs)
  | r :: rs' =>
      '(v, regs1) ← force_reg regs r;
      '(vs, regs2) ← force_regs regs1 rs';
      mret (v :: vs, regs2)
  end.
End forcing.

(** ** Shadow transactions of parallel tasks *)

(** What a task leaves: its delta, its value, the fuel it used, whether it asked
    to keep its output slot. *)
Record Leg := mkLeg { leg_delta : HandlerDelta; leg_value : Value; leg_fuel : nat; leg_skip : bool }.

(** A task in its own shadow transaction over the current one, with the current
    fuel; the machine's own state does not change. *)
Definition in_shadow (m : VM Value) : VM (Leg + Error) := λ s,
  match m (mkVm (fuel s) (shadow_of (vm_tx s)) false) with
  | Some (Ok v, s') =>
      Some (Ok (inl (mkLeg (into_delta (vm_tx s')) v (Z.to_nat (fuel s - fuel s')) (parallel_skip s'))), s)
  | Some (Err e, _) => Some (Ok (inr e), s)
  | Some (Panic, _) => Some (Panic, s)
  | Some (OutOfFuel, _) => Some (OutOfFuel, s)
  | None => None
  end.

(** The tasks run against one parent state, each on its own: their order does not
    matter, and every one runs even when another fails. *)
Fixpoint run_legs (ms : list (VM Value)) : VM (list (Leg + Error)) :=
  match ms with
  | [] => mret []
  | m :: ms' => l ← in_shadow m; ls ← run_legs ms'; mret (l :: ls)
  end.

(** [res?]. *)
Definition leg_of (r : Leg + Error) : VM Leg :=
  match r with inl l => mret l | inr e => vm_lift (Err e) end.

(** Merging in declaration order.  A task that read a cell written by an earlier
    one runs again on the merged transaction.  [acc] is what the merge builds
    (registers, output elements). *)
Section merge_legs.
Context {A : Type} (rerun : nat → A → VM Value) (finish : nat → Leg → A → VM A).

Definition conflicts (l : Leg) (batch_writes : gset Z) : bool :=
  bool_decide (dom (delta_reads (leg_delta l)) ∩ batch_writes ≠ ∅).

Fixpoint merge_legs (i : nat) (rs : list (Leg + Error)) (batch_writes : gset Z) (acc : A) : VM A :=
  match rs with
  | [] => mret acc
  | r :: rs' =>
      l ← leg_of r;
      _ ← bill (leg_fuel l);
      final ← (if conflicts l batch_writes then
                 again ← in_shadow (rerun i acc);
                 l' ← leg_of again;
                 _ ← bill (leg_fuel l');
                 mret l'
               else mret l);
      _ ← on_tx (modify (merge_delta (leg_delta final)));
      acc' ← finish i final acc;
      merge_legs (S i) rs' (batch_writes ∪ dom (delta_writes (leg_delta final))) acc'
  end.
End merge_legs.

(** ** Keys of map cells *)
Fixpoint is_keyable_value (v : Value) : bool :=
  match v with
  | VInt _ | VI32 _ | VU32 _ | VU64 _ | VU128 _ | VBool _ | VStr _ | VAddress _ | VBytes _ => true
  | VArray elems => forallb is_keyable_value elems
  | VStruct _ fields => forallb (λ p, match p with (_, v) => is_keyable_value v end) fields
  | VEnum _ _ payload => forallb is_keyable_value payload
  | _ => false
  end.

Definition compose_map_cell `{BigIntCodec} `{FloatText} (root : Z) (key : Value) : outcome Z :=
  if negb (is_keyable_value key)
  then Err (runtime ("map key value not keyable: " +:+ show key) Span_default)
  else bs ← serialize key; Ok (child root bs).

(** ** Integers as counts *)
Definition value_to_u64_arr (v : Value) : option Z :=
  match v with
  | VU64 n => Some n
  | VU32 n => Some n
  | VI32 n => if 0 <=? n then Some n else None
  | VU128 n | VInt n | VUInt n => if in_u 64 n then Some n else None
  | _ => None
  end.
(** [usize] has 64 bits. *)
Definition value_to_usize_arr (v : Value) : option Z := value_to_u64_arr v.

(** ** Interface conformance *)

(** [{ty:?}], for the types whose names are identifiers. *)
Definition debug_name (s : bytes) : bytes := quoted s.
Definition debug_list (ts : list bytes) : bytes := str "[" ++ comma_separated ts ++ str "]".
Definition debug_bool (b : bool) : bytes := str (if b then "true" else "false").

Fixpoint debug_ty (ty : Ty) : bytes :=
  match ty with
  | TInt => str "Int" | TUInt => str "UInt" | TFloat => str "Float" | TI32 => str "I32"
  | TU32 => str "U32" | TU64 => str "U64" | TU128 => str "U128" | TBool => str "Bool"
  | TUnit => str "Unit" | TResource => str "Resource" | TString => str "String"
  | TAddress => str "Address" | TBytes => str "Bytes" | TJson => str "Json"
  | TArray e => str "Array(" ++ debug_ty e ++ str ")"
  | TExplicitLiteral e => str "ExplicitLiteral(" ++ debug_ty e ++ str ")"
  | TSet e => str "Set(" ++ debug_ty e ++ str ")"
  | TDict k v => str "Dict { key: " ++ debug_ty k ++ str ", value: " ++ debug_ty v ++ str " }"
  | TMap k v => str "Map { key: " ++ debug_ty k ++ str ", value: " ++ debug_ty v ++ str " }"
  | TPMap k v => str "PMap { key: " ++ debug_ty k ++ str ", value: " ++ debug_ty v ++ str " }"
  | TPBTree k v => str "PBTree { key: " ++ debug_ty k ++ str ", value: " ++ debug_ty v ++ str " }"
  | TPVec e => str "PVec { elem: " ++ debug_ty e ++ str " }"
  | TStruct n fs gs =>
      str "Struct { name: " ++ debug_name n ++ str ", fields: " ++
      debug_list ((λ p, match p with (f, t) =>
        str "(" ++ debug_name f ++ str ", " ++ debug_ty t ++ str ")" end) <$> fs) ++
      str ", field_groups: " ++
      debug_list ((λ g, match g with Some s => str "Some(" ++ debug_name s ++ str ")" | None => str "None" end) <$> gs) ++
      str " }"
  | TTuple es => str "Tuple(" ++ debug_list (debug_ty <$> es) ++ str ")"
  | TEnum n vs =>
      str "Enum { name: " ++ debug_name n ++ str ", variants: " ++
      debug_list ((λ p, match p with (f, ts) =>
        str "(" ++ debug_name f ++ str ", " ++ debug_list (debug_ty <$> ts) ++ str ")" end) <$> vs) ++
      str " }"
  | TCap n fs o =>
      str "Cap { name: " ++ debug_name n ++ str ", fields: " ++
      debug_list ((λ p, match p with (f, t) =>
        str "(" ++ debug_name f ++ str ", " ++ debug_ty t ++ str ")" end) <$> fs) ++
      str ", owner_module: " ++ debug_name o ++ str " }"
  | TInterface n ms =>
      str "Interface { name: " ++ debug_name n ++ str ", methods: " ++
      debug_list (debug_sig <$> ms) ++ str " }"
  end
with debug_sig (m : InterfaceMethodSig) : bytes :=
  match m with
  | mkMethodSig n ps r v p =>
      str "InterfaceMethodSig { name: " ++ debug_name n ++ str ", params: " ++
      debug_list (debug_ty <$> ps) ++ str ", return_type: " ++ debug_ty r ++
      str ", is_view: " ++ debug_bool v ++ str ", is_pure: " ++ debug_bool p ++ str " }"
  end.

(** The loop over the parameters: the first mismatch, if any. *)
Fixpoint check_params (iface target : bytes) (m : InterfaceMethod) (i : nat)
    (params : list (bytes * Ty)) (f : BcFn) : outcome (option string) :=
  match params with
  | [] => Ok None
  | (_, want) :: params' =>
      got ← or_panic (param_types f !! i);
      if bool_decide (got = want) then check_params iface target m (S i) params' f
      else Ok (Some ("interface '" +:+ text iface +:+ "' method '" +:+ text (im_name m)
        +:+ "' param " +:+ text (dec (Z.of_nat i)) +:+ " expects " +:+ text (debug_ty want)
        +:+ ", but '" +:+ text target +:+ "::" +:+ text (im_name m) +:+ "' has "
        +:+ text (debug_ty got)))
  end.

Definition check_method (iface : bytes) (target : BcModule) (m : InterfaceMethod) :
    outcome (option string) :=
  let i := text iface in let n := text (im_name m) in let t := text (m_name target) in
  match fn_index target !! im_name m with
  | None => Ok (Some ("interface '" +:+ i +:+ "' requires method '" +:+ n +:+ "' but module '"
      +:+ t +:+ "' does not define it"))
  | Some fn_idx =>
      f ← or_panic (get_z (functions target) fn_idx);
      if negb (is_entry f) then
        Ok (Some ("interface '" +:+ i +:+ "' requires method '" +:+ n
          +:+ "' to be entry-callable, but '" +:+ t +:+ "::" +:+ n +:+ "' is not declared `entry`"))
      else if negb (n_params f =? zlen (im_params m)) then
        Ok (Some ("interface '" +:+ i +:+ "' method '" +:+ n +:+ "' takes "
          +:+ text (dec (zlen (im_params m))) +:+ " param(s), but '" +:+ t +:+ "::" +:+ n
          +:+ "' takes " +:+ text (dec (n_params f))))
      else
        bad ← check_params iface (m_name target) m 0 (im_params m) f;
        match bad with
        | Some msg => Ok (Some msg)
        | None =>
            if negb (bool_decide (return_type f = im_return_type m)) then
              Ok (Some ("interface '" +:+ i +:+ "' method '" +:+ n +:+ "' returns "
                +:+ text (debug_ty (im_return_type m)) +:+ ", but '" +:+ t +:+ "::" +:+ n
                +:+ "' returns " +:+ text (debug_ty (return_type f))))
            else if im_is_pure m && negb (is_pure f) then
              Ok (Some ("interface '" +:+ i +:+ "' declares method '" +:+ n +:+ "' pure, but '"
                +:+ t +:+ "::" +:+ n +:+ "' is not pure"))
            else if im_is_view m && negb (is_view f || is_pure f) then
              Ok (Some ("interface '" +:+ i +:+ "' declares method '" +:+ n +:+ "' view, but '"
                +:+ t +:+ "::" +:+ n +:+ "' is neither view nor pure"))
            else Ok None
        end
  end.

(** [check_iface_conformance]: the first failure, as its message. *)
Fixpoint check_methods (iface : bytes) (target : BcModule) (ms : list InterfaceMethod) :
    outcome (option string) :=
  match ms with
  | [] => Ok None
  | m :: ms' =>
      r ← check_method iface target m;
      match r with Some msg => Ok (Some msg) | None => check_methods iface target ms' end
  end.
Definition check_iface_conformance (iface : InterfaceDecl) (target : BcModule) : outcome (option string) :=
  check_methods (if_name iface) target (if_methods iface).

(** ** Cursors *)

(** [v.pop()]: the last element. *)
Definition pop {A} (l : list A) : option (A * list A) :=
  match rev l with [] => None | x :: r => Some (x, rev r) end.

Section cursors.
Context `{BigIntCodec} (tree_fuel : nat).

(** The stack and the pending entries of a cursor after the step. *)
Fixpoint pmap_walk_advance (n : nat) (key_ty value_ty : Ty) (stack : list (Z * Z))
    (pending : list (Value * Value)) :
    SM Tx (option (Value * Value) * list (Z * Z) * list (Value * Value)) :=
  match n with
  | O => lift OutOfFuel
  | S n' =>
      match pop pending with
      | Some (entry, pending') => mret (Some entry, stack, pending')
      | None =>
          match pop stack with
          | None => mret (None, stack, pending)
          | Some ((node_hash, next_child), stack') =>
              node ← Pmap.read_node key_ty value_ty node_hash;
              match node with
              | None => pmap_walk_advance n' key_ty value_ty stack' pending
              | Some (Leaf entries, _) => pmap_walk_advance n' key_ty value_ty stack' (rev entries)
              | Some (Inner _, children) =>
                  match get_z children next_child with
                  | Some child =>
                      pmap_walk_advance n' key_ty value_ty
                        (stack' ++ [(node_hash, next_child + 1); (child, 0)]) pending
                  | None => pmap_walk_advance n' key_ty value_ty stack' pending
                  end
              end
          end
      end
  end.

(** Re-reads the root on every call.  The result and the new [last_yielded]. *)
Definition pbtree_walk_advance_stable (root_cell : Z) (last_yielded : option Value)
    (key_ty value_ty : Ty) : SM Tx (option (Value * Value) * option Value) :=
  root_v ← read_cell_tx root_cell (TPBTree key_ty value_ty);
  root_v ← force_tx root_v;
  match root_v with
  | VPBTree root_hash =>
      next ← Pbtree.first_greater_than key_ty value_ty tree_fuel root_hash last_yielded;
      mret (next, match next with Some (k, _) => Some k | None => last_yielded end)
  | _ => mret (None, last_yielded)
  end.
End cursors.
