(* ===== verification/VmState.v ===== *)
(** Instructions on persistent state ([crates/rend/src/vm.rs]): state cells and
    map cells, persistent maps and vectors, sorted maps, the index maintenance
    built on them, and streaming cursors. *)
From S2P Require Import Prelude Bytes Hashing Values Serialize Kv Merkle PmapNode Pmap Pvec Pbtree Tx TxTyped JsonText Floats Display Ops Builtins Bytecode VmBase.

Section state.
Context `{BigIntCodec} `{FloatText} (tree_fuel : nat).

(** ** State cells *)
Definition kv_get_state (m : BcModule) (key_idx : Z) : VM Value :=
  key ← index (state_roots m) key_idx;
  ty ← index (state_types m) key_idx;
  on_tx (read_typed key ty).

Definition kv_put_state (m : BcModule) (key_idx : Z) (v : Value) : VM unit :=
  key ← index (state_roots m) key_idx;
  ty ← index (state_types m) key_idx;
  on_tx (write_typed key ty v).

(** A group cell is one blob. *)
Definition kv_get_path (m : BcModule) (path_idx : Z) : VM Value :=
  spec ← index (path_specs m) path_idx;
  if is_blob spec then on_tx (read_cell_tx (leaf_key spec) (leaf_type spec))
  else on_tx (read_typed (leaf_key spec) (leaf_type spec)).

Definition kv_put_path (m : BcModule) (path_idx : Z) (v : Value) : VM unit :=
  spec ← index (path_specs m) path_idx;
  if is_blob spec then on_tx (write_tx (leaf_key spec) v)
  else on_tx (write_typed (leaf_key spec) (leaf_type spec) v).

(** The key and type of one read of a batch, and its register. *)
Definition batch_op (m : BcModule) (op : ReadOp) : VM (Z * Ty) :=
  match op with
  | RState _ key_idx =>
      key ← index (state_roots m) key_idx;
      ty ← index (state_types m) key_idx;
      mret (key, ty)
  | RPath _ path_idx =>
      spec ← index (path_specs m) path_idx;
      mret (leaf_key spec, leaf_type spec)
  end.
Definition batch_dst (op : ReadOp) : Z :=
  match op with RState dst _ => dst | RPath dst _ => dst end.

Fixpoint batch_ops (m : BcModule) (group : list ReadOp) : VM (list (Z * Ty)) :=
  match group with
  | [] => mret []
  | op :: group' => o ← batch_op m op; os ← batch_ops m group'; mret (o :: os)
  end.
Fixpoint scatter (regs : Regs) (group : list ReadOp) (values : list Value) : VM Regs :=
  match group, values with
  | op :: group', v :: values' => regs' ← set_reg regs (batch_dst op) v; scatter regs' group' values'
  | _, _ => mret regs
  end.

Definition read_batch (m : BcModule) (f : BcFn) (group_idx : Z) (regs : Regs) : VM Regs :=
  group ← index (read_groups f) group_idx;
  ops ← batch_ops m group;
  values ← on_tx (read_typed_many ops);
  scatter regs group values.

(** ** Map cells *)
Definition map_value_ty (ty : Ty) : Ty := match ty with TMap _ value => value | other => other end.

Definition map_get (m : BcModule) (state_idx : Z) (key : Value) : VM Value :=
  root ← index (state_roots m) state_idx;
  cell ← vm_lift (compose_map_cell root key);
  ty ← index (state_types m) state_idx;
  on_tx (read_cell_tx cell (map_value_ty ty)).

Definition map_put (m : BcModule) (state_idx : Z) (key v : Value) : VM unit :=
  root ← index (state_roots m) state_idx;
  cell ← vm_lift (compose_map_cell root key);
  on_tx (write_tx cell v).

Fixpoint prefetch_ops (root : Z) (value_ty : Ty) (arr : list Value) : VM (list (Z * Ty)) :=
  match arr with
  | [] => mret []
  | elem :: arr' =>
      if negb (is_keyable_value elem) then prefetch_ops root value_ty arr' else
      cell ← vm_lift (compose_map_cell root elem);
      ops ← prefetch_ops root value_ty arr';
      mret ((cell, value_ty) :: ops)
  end.

Definition prefetch_map (m : BcModule) (state_idx : Z) (arr : Value) : VM unit :=
  match arr with
  | VArray elems =>
      ty ← index (state_types m) state_idx;
      match ty with
      | TMap _ value_ty =>
          root ← index (state_roots m) state_idx;
          ops ← prefetch_ops root value_ty elems;
          _ ← on_tx (read_typed_many ops);
          mret tt
      | _ => mret tt
      end
  | _ => mret tt
  end.

(** ** Reading the root of a collection: cell, type, force *)
Definition read_root (m : BcModule) (state_idx : Z) : VM Value :=
  cell ← index (state_roots m) state_idx;
  ty ← index (state_types m) state_idx;
  on_tx (v ← read_cell_tx cell ty; force_tx v).

Definition write_root (m : BcModule) (state_idx : Z) (v : Value) : VM unit :=
  cell ← index (state_roots m) state_idx;
  on_tx (write_tx cell v).

(** ** Maps with a root: what the instructions use of [pmap] and [pbtree] *)
Record Backing := mkBacking {
  bk_tys : Ty → option (Ty * Ty);
  bk_root : Value → Z;
  bk_value : Z → Value;
  bk_get : Ty → Ty → Z → Value → SM Tx (option Value);
  bk_contains : Ty → Ty → Z → Value → SM Tx bool;
  bk_set : Ty → Ty → Z → Value → Value → SM Tx Z;
  bk_remove : Ty → Ty → Z → Value → SM Tx Z;
}.

Definition pmap_backing : Backing := {|
  bk_tys ty := match ty with TPMap k v => Some (k, v) | _ => None end;
  bk_root v := match v with VPMap h => h | _ => EMPTY end;
  bk_value := VPMap;
  bk_get kt vt := Pmap.get kt vt;
  bk_contains kt vt := Pmap.contains kt vt;
  bk_set kt vt := Pmap.set kt vt;
  bk_remove kt vt root key := r ← Pmap.remove kt vt root key; mret r.1;
|}.

Definition pbtree_backing : Backing := {|
  bk_tys ty := match ty with TPBTree k v => Some (k, v) | _ => None end;
  bk_root v := match v with VPBTree h => h | _ => EMPTY end;
  bk_value := VPBTree;
  bk_get kt vt := Pbtree.get kt vt tree_fuel;
  bk_contains kt vt := Pbtree.contains kt vt tree_fuel;
  bk_set kt vt := Pbtree.set kt vt tree_fuel;
  bk_remove kt vt := Pbtree.remove kt vt tree_fuel;
|}.

(** [unreachable!] on a state of another type. *)
Definition map_tys (b : Backing) (m : BcModule) (state_idx : Z) : VM (Ty * Ty) :=
  ty ← index (state_types m) state_idx;
  match bk_tys b ty with Some tys => mret tys | None => panic end.

Definition root_hash (b : Backing) (m : BcModule) (state_idx : Z) : VM Z :=
  v ← read_root m state_idx; mret (bk_root b v).

(** [record_pmap_types] when the state is a [pmap]. *)
Definition record_types (m : BcModule) (state_idx : Z) : VM unit :=
  ty ← index (state_types m) state_idx;
  match ty with
  | TPMap key value =>
      cell ← index (state_roots m) state_idx;
      on_tx (record_pmap_types cell key value)
  | _ => mret tt
  end.

Definition map_contains (b : Backing) (m : BcModule) (state_idx : Z) (key : Value) : VM Value :=
  '(kt, vt) ← map_tys b m state_idx;
  root ← root_hash b m state_idx;
  found ← on_tx (bk_contains b kt vt root key);
  mret (VBool found).

Definition map_set (b : Backing) (m : BcModule) (state_idx : Z) (key value : Value) : VM unit :=
  '(kt, vt) ← map_tys b m state_idx;
  root ← root_hash b m state_idx;
  new_root ← on_tx (bk_set b kt vt root key value);
  write_root m state_idx (bk_value b new_root).

Definition map_delete (b : Backing) (m : BcModule) (state_idx : Z) (key : Value) : VM unit :=
  '(kt, vt) ← map_tys b m state_idx;
  root ← root_hash b m state_idx;
  new_root ← on_tx (bk_remove b kt vt root key);
  write_root m state_idx (bk_value b new_root).

(** *** Index maintenance *)

(** A unique index refuses to remap a key. *)
Definition put_unique (b : Backing) (m : BcModule) (state_idx : Z) (key new_value : Value) : VM unit :=
  '(kt, vt) ← map_tys b m state_idx;
  root ← root_hash b m state_idx;
  existing ← on_tx (bk_get b kt vt root key);
  match existing with
  | Some prior =>
      if value_eqb prior new_value then mret tt
      else fail ("unique constraint violation: key " +:+ show key +:+ " already maps to "
                 +:+ show prior +:+ ", refused to remap to " +:+ show new_value)
  | None =>
      new_root ← on_tx (bk_set b kt vt root key new_value);
      write_root m state_idx (bk_value b new_root)
  end.

(** A multi index adds an element to the array of a key, once. *)
Definition append_unique (b : Backing) (m : BcModule) (state_idx : Z) (key elem : Value) : VM unit :=
  '(kt, vt) ← map_tys b m state_idx;
  root ← root_hash b m state_idx;
  existing ← on_tx (bk_get b kt vt root key);
  let arr := match existing with Some (VArray a) => a | _ => [] end in
  if existsb (λ e, value_eqb e elem) arr then mret tt else
  new_root ← on_tx (bk_set b kt vt root key (VArray (arr ++ [elem])));
  write_root m state_idx (bk_value b new_root).

(** The back-link of a unique index goes only if it still points at the value. *)
Definition remove_unique (b : Backing) (m : BcModule) (state_idx : Z) (key expected : Value) : VM unit :=
  '(kt, vt) ← map_tys b m state_idx;
  root ← root_hash b m state_idx;
  existing ← on_tx (bk_get b kt vt root key);
  match existing with
  | Some v =>
      if value_eqb v expected then
        new_root ← on_tx (bk_remove b kt vt root key);
        write_root m state_idx (bk_value b new_root)
      else mret tt
  | None => mret tt
  end.

(** An element leaves the array of a key; the last one takes the key with it. *)
Definition remove_from_list (b : Backing) (m : BcModule) (state_idx : Z) (key elem : Value) : VM unit :=
  '(kt, vt) ← map_tys b m state_idx;
  root ← root_hash b m state_idx;
  existing ← on_tx (bk_get b kt vt root key);
  match existing with
  | Some (VArray arr) =>
      let arr' := List.filter (λ e, negb (value_eqb e elem)) arr in
      if (length arr' =? length arr)%nat then mret tt
      else if bool_decide (arr' = []) then
        new_root ← on_tx (bk_remove b kt vt root key);
        write_root m state_idx (bk_value b new_root)
      else
        new_root ← on_tx (bk_set b kt vt root key (VArray arr'));
        write_root m state_idx (bk_value b new_root)
  | _ => mret tt
  end.

(** ** Persistent maps *)

(** The lookup is a lazy walk: the register holds a handle. *)
Definition pmap_get (m : BcModule) (state_idx : Z) (key : Value) : VM Value :=
  '(kt, vt) ← map_tys pmap_backing m state_idx;
  root ← root_hash pmap_backing m state_idx;
  on_tx (begin_pmap_get root key kt vt).

Definition pmap_walk_entries (m : BcModule) (state_idx : Z) : VM (list (Value * Value)) :=
  '(kt, vt) ← map_tys pmap_backing m state_idx;
  root ← root_hash pmap_backing m state_idx;
  on_tx (Pmap.entries kt vt root).

Definition pmap_walk_init (m : BcModule) (state_idx : Z) : VM Value :=
  '(kt, vt) ← map_tys pmap_backing m state_idx;
  root ← root_hash pmap_backing m state_idx;
  mret (VPMapCursor (if root =? EMPTY then [] else [(root, 0)]) [] kt vt).

(** ** Sorted maps *)
Definition pbtree_get (m : BcModule) (state_idx : Z) (key : Value) : VM Value :=
  '(kt, vt) ← map_tys pbtree_backing m state_idx;
  root ← root_hash pbtree_backing m state_idx;
  v ← on_tx (Pbtree.get kt vt tree_fuel root key);
  mret (default (default_for vt) v).

Definition pbtree_range (m : BcModule) (state_idx : Z) (lo hi : Value) : VM Value :=
  '(kt, vt) ← map_tys pbtree_backing m state_idx;
  root ← root_hash pbtree_backing m state_idx;
  vs ← on_tx (Pbtree.range kt vt tree_fuel root lo hi);
  mret (VArray vs).

Definition pbtree_walk_init (m : BcModule) (state_idx : Z) : VM Value :=
  '(kt, vt) ← map_tys pbtree_backing m state_idx;
  cell ← index (state_roots m) state_idx;
  mret (VPBTreeCursor cell None kt vt).

(** ** Persistent vectors *)
Definition pvec_elem_ty (m : BcModule) (state_idx : Z) : VM Ty :=
  ty ← index (state_types m) state_idx;
  match ty with TPVec elem => mret elem | _ => panic end.

(** [(len, root)] of the state. *)
Definition pvec_cell (m : BcModule) (state_idx : Z) : VM (Z * Z) :=
  v ← read_root m state_idx;
  mret (match v with VPVec len root => (len, root) | _ => (0, EMPTY) end).

(** The element type, recorded, and the cell. *)
Definition pvec_open (m : BcModule) (state_idx : Z) : VM (Ty * Z * Z) :=
  elem_ty ← pvec_elem_ty m state_idx;
  cell ← index (state_roots m) state_idx;
  _ ← on_tx (record_pvec_type cell elem_ty);
  '(len, root) ← pvec_cell m state_idx;
  mret (elem_ty, len, root).

Definition pvec_index (v : Value) : VM Z :=
  match v with
  | VInt n =>
      if in_u 64 n then mret n else fail ("pvec index out of u64 range: " +:+ text (dec n))
  | VU64 n => mret n
  | other => fail ("pvec index must be int or u64, got " +:+ show other)
  end.
Definition pvec_set_index (v : Value) : VM Z :=
  match v with
  | VInt n =>
      if in_u 64 n then mret n else fail ("pvec index out of u64 range: " +:+ text (dec n))
  | other => fail ("pvec index: expected non-negative i64, got " +:+ show other)
  end.

Definition pvec_get (m : BcModule) (state_idx : Z) (idx_v : Value) : VM Value :=
  '(elem_ty, len, root) ← pvec_open m state_idx;
  i ← pvec_index idx_v;
  on_tx (Pvec.get elem_ty root len i Span_default).

Definition pvec_set (m : BcModule) (state_idx : Z) (idx_v value : Value) : VM unit :=
  '(elem_ty, len, root) ← pvec_open m state_idx;
  i ← pvec_set_index idx_v;
  new_root ← on_tx (Pvec.set elem_ty root len i value Span_default);
  write_root m state_idx (VPVec len new_root).

(** Answers the index of the new element. *)
Definition pvec_push (m : BcModule) (state_idx : Z) (value : Value) : VM Value :=
  '(elem_ty, len, root) ← pvec_open m state_idx;
  '(new_root, new_len) ← on_tx (Pvec.push elem_ty root len value);
  _ ← write_root m state_idx (VPVec new_len new_root);
  mret (VU64 len).

Definition pvec_len (m : BcModule) (state_idx : Z) : VM Value :=
  '(len, _) ← pvec_cell m state_idx; mret (VU64 len).

Definition pvec_to_array (m : BcModule) (state_idx : Z) : VM Value :=
  '(elem_ty, len, root) ← pvec_open m state_idx;
  vs ← on_tx (Pvec.to_vec elem_ty root len);
  mret (VArray vs).

(** ** The atomic counter

    [prev + n] panics when it exceeds [u64]. *)
Definition reserve (m : BcModule) (state_idx : Z) (count_v : Value) : VM Value :=
  match value_to_u64_arr count_v with
  | None => fail ("`reserve N from ...` count must be a non-negative integer, got " +:+ show count_v)
  | Some n =>
      cell ← index (state_roots m) state_idx;
      vs ← on_tx (read_typed_many [(cell, TU64)]);
      prev_v ← vm_lift (or_panic (head vs));
      match prev_v with
      | VU64 prev =>
          if u64_max <? prev + n then panic else
          _ ← on_tx (write_typed cell TU64 (VU64 (prev + n)));
          mret (VArray ((λ i, VU64 (prev + Z.of_nat i + 1)) <$> seq 0 (Z.to_nat n)))
      | other => fail ("`reserve ... from <state>`: state must be u64, got " +:+ show other)
      end
  end.
End state.
