(* ===== verification/Interp.v ===== *)
(** The tree interpreter ([crates/rend/src/interp.rs]): the evaluator of the checked
    syntax tree over a transaction, one definition per method; calls and the values
    of constants, which leave the tree, are arguments that the last section ties
    together on fuel. *)
From S2P Require Import Prelude Bytes Hashing Values Serialize Kv Merkle PmapNode Pmap Pvec Pbtree Tx TxTyped.
From S2P Require Import JsonText Floats Display Ops Builtins Bytecode Ast Effects VmBase VmState Compile.

(** ** State *)

(** [struct Interp]: what stays fixed. *)
Record IEnv := mkIEnv {
  ie_module : SrcModule;
  ie_host : Host;
  ie_state_types : gmap bytes Ty;
  ie_state_defaults : gmap bytes Value;
  ie_state_roots : gmap bytes Z;
  ie_struct_decls : gmap bytes (list bytes);
}.
(** [Interp::new]; capabilities are built like structs. *)
Definition interp_new (m : SrcModule) (host : Host) : IEnv :=
  mkIEnv m host
    (collect ((λ s, (st_name s, strip_explicit_literal (st_ty s))) <$> sm_states m))
    (collect ((λ s, (st_name s, default_for (strip_explicit_literal (st_ty s)))) <$> sm_states m))
    (collect ((λ s, (st_name s, state_root (str "main") (st_name s))) <$> sm_states m))
    (collect (((λ d, (sd_name d, sf_name <$> sd_fields d)) <$> sm_structs m) ++
              ((λ d, (cd_name d, sf_name <$> cd_fields d)) <$> sm_caps m))).

(** What changes; the innermost scope and pipe come first. *)
Record ISt := mkISt { is_tx : Tx; is_scopes : list (gmap bytes Value); is_pipes : list Value }.
Definition IM (A : Type) : Type := SM ISt A.

Inductive Flow := Fl_Normal (v : Value) | Fl_Return (v : Value) | Fl_Break | Fl_Continue.

Definition rt {A} (msg : string) (span : Span) : IM A := lift (Err (runtime msg span)).
(** [self.tx.borrow_mut()]. *)
Definition on_tx_i {A} (m : SM Tx A) : IM A := λ s,
  let '(r, t) := m (is_tx s) in (r, mkISt t (is_scopes s) (is_pipes s)).
Definition get_scopes : IM (list (gmap bytes Value)) := gets is_scopes.
Definition set_iscopes (scopes : list (gmap bytes Value)) : IM unit :=
  modify (λ s, mkISt (is_tx s) scopes (is_pipes s)).
Definition push_iscope (scope : gmap bytes Value) : IM unit :=
  modify (λ s, mkISt (is_tx s) (scope :: is_scopes s) (is_pipes s)).
Definition pop_iscope : IM unit := modify (λ s, mkISt (is_tx s) (tail (is_scopes s)) (is_pipes s)).
(** [scopes.last_mut().expect(..).vars.insert(name, v)]. *)
Definition bind_value (name : bytes) (v : Value) : IM unit := λ s,
  match is_scopes s with
  | scope :: rest => (Ok tt, mkISt (is_tx s) (<[name := v]> scope :: rest) (is_pipes s))
  | [] => (Panic, s)
  end.
Fixpoint find_value (scopes : list (gmap bytes Value)) (name : bytes) : option Value :=
  match scopes with
  | [] => None
  | scope :: rest => match scope !! name with Some v => Some v | None => find_value rest name end
  end.
(** Replaces the binding of the innermost scope that has the name. *)
Fixpoint replace_value (scopes : list (gmap bytes Value)) (name : bytes) (v : Value) : option (list (gmap bytes Value)) :=
  match scopes with
  | [] => None
  | scope :: rest =>
      match scope !! name with
      | Some _ => Some (<[name := v]> scope :: rest)
      | None => rest' ← replace_value rest name v; Some (scope :: rest')
      end
  end.

Section interp.
Context `{BigIntCodec} `{FloatText} {Nan : FloatNan} (tree_fuel : nat) (env : IEnv).

(** *** Builtins over values *)
Definition usage (msg : string) : outcome Value := Err (runtime msg Span_default).
Definition context_builtin (name : string) (args : list Value) (v : Value) : outcome Value :=
  match args with [] => Ok v | _ => usage (name +:+ "() takes no arguments") end.
(** [try_builtin]: [None] when the name is no builtin; [ctx] is the context of the
    transaction. *)
Definition assert_i (args : list Value) : outcome Value :=
  match args with
  | [VBool true] | [VBool true; VStr _] => Ok VUnit
  | [VBool false] => usage "assertion failed"
  | [VBool false; VStr msg] => usage ("assertion failed: " +:+ text msg)
  | _ => usage "assert(cond: bool [, msg: string])"
  end.
Definition set_builtin (name : string) (args : list Value) : option (outcome Value) :=
  if decide (name = "set_insert"%string) then Some
    match args with
    | [VSet s; v] => Ok (VSet (if existsb (λ e, value_eqb e v) s then s else s ++ [v]))
    | _ => usage "set_insert() expects (set, elem)" end
  else if decide (name = "set_remove"%string) then Some
    match args with
    | [VSet s; v] => Ok (VSet (List.filter (λ e, negb (value_eqb e v)) s))
    | _ => usage "set_remove() expects (set, elem)" end
  else if decide (name = "set_contains"%string) then Some
    match args with
    | [VSet s; v] => Ok (VBool (existsb (λ e, value_eqb e v) s))
    | _ => usage "set_contains() expects (set, elem)" end
  else if decide (name = "set_len"%string) then Some
    match args with [VSet s] => Ok (VInt (zlen s)) | _ => usage "set_len() expects (set)" end
  else None.
Definition dict_builtin (name : string) (args : list Value) : option (outcome Value) :=
  if decide (name = "dict_set"%string) then Some
    match args with
    | [VDict d; k; v] => Ok (VDict (dict_update d k v))
    | _ => usage "dict_set() expects (dict, key, value)" end
  else if decide (name = "dict_remove"%string) then Some
    match args with
    | [VDict d; k] => Ok (VDict (List.filter (λ p, negb (value_eqb p.1 k)) d))
    | _ => usage "dict_remove() expects (dict, key)" end
  else if decide (name = "dict_get"%string) then Some
    match args with
    | [VDict d; k; dflt] => Ok (default dflt (dict_find d k))
    | _ => usage "dict_get() expects (dict, key, default)" end
  else if decide (name = "dict_has"%string) then Some
    match args with
    | [VDict d; k] => Ok (VBool (existsb (λ p, value_eqb p.1 k) d))
    | _ => usage "dict_has() expects (dict, key)" end
  else if decide (name = "dict_len"%string) then Some
    match args with [VDict d] => Ok (VInt (zlen d)) | _ => usage "dict_len() expects (dict)" end
  else None.
Definition wrap_builtin (name : string) (args : list Value) : option (outcome Value) :=
  if decide (name = "resource"%string) then Some
    match args with
    | [VInt n] => if in_i 64 n then Ok (VResource n) else usage "resource(): int out of i64 range"
    | _ => usage "resource() expects a single int" end
  else if decide (name = "unwrap"%string) then Some
    match args with [VResource n] => Ok (VInt n) | _ => usage "unwrap() expects a single Resource" end
  else if decide (name = "address"%string) then Some
    match args with [VStr s] => Ok (VAddress s) | _ => usage "address() expects a single string" end
  else if decide (name = "len"%string) then Some
    match args with
    | [VArray l] | [VSet l] => Ok (VInt (zlen l))
    | [VStr s] => Ok (VInt (zlen s))
    | [VDict l] => Ok (VInt (zlen l))
    | _ => usage "len() expects array/string/set/dict" end
  else None.
Definition delegated : list string :=
  ["to_bytes"; "bytes_len"; "bytes_concat"; "bytes_eq"; "bytes_slice"; "to_be_bytes"; "bit_not_bytes";
   "string_concat"; "string_slice"; "string_contains"; "sum"; "max"; "min"; "parse_json"; "json_stringify";
   "json_get_field"; "json_get_index"; "json_to_string"; "json_to_i64"; "json_to_u64"; "json_to_bool";
   "json_is_null"]%string.
Definition context_value_i (ctx : TxContext) (name : string) : option Value :=
  if decide (name = "msg_sender"%string) then Some (sender ctx)
  else if decide (name = "block_timestamp"%string) then Some (VU64 (block_timestamp ctx))
  else if decide (name = "block_number"%string) then Some (VU64 (block_number ctx))
  else None.
Definition or_else {A} (a b : option A) : option A := match a with Some _ => a | None => b end.
Definition try_builtin (ctx : TxContext) (name : bytes) (args : list Value) : option (outcome Value) :=
  let n := text name in
  or_else (wrap_builtin n args)
  (or_else (context_builtin n args <$> context_value_i ctx n)
  (if decide (n ∈ delegated) then Some (call_builtin n args)
   else if decide (n = "assert"%string) then Some (assert_i args)
   else or_else (set_builtin n args)
    (or_else (dict_builtin n args)
     (target ← convert_target name;
      Some match args with
           | [v] => convert v target Span_default
           | _ => usage (n +:+ "() takes one argument")
           end)))).

(** *** State *)
Definition is_state (name : bytes) : bool := bool_decide (is_Some (ie_state_defaults env !! name)).
Definition root_of_state (name : bytes) : IM Z := lift (or_panic (ie_state_roots env !! name)).
Definition read_state (name : bytes) : IM Value :=
  root ← root_of_state name;
  on_tx_i (read_typed root (default TInt (ie_state_types env !! name))).
Definition write_state (name : bytes) (v : Value) : IM unit :=
  root ← root_of_state name;
  on_tx_i (write_typed root (default TInt (ie_state_types env !! name)) v).

(** [try_state_field_path]. *)
Fixpoint field_path_i (scopes : list (gmap bytes Value)) (e : Expr) (names : list bytes) {struct e} :
    option (bytes * list bytes) :=
  match e with
  | mkExpr (E_Field target name) _ => field_path_i scopes target (name :: names)
  | mkExpr (E_Ident name) _ =>
      match find_value scopes name with
      | Some _ => None
      | None => if is_state name then Some (name, names) else None
      end
  | _ => None
  end.
(** [with_state_path]: the cell of the path, each field a child. *)
Fixpoint path_below (path : list bytes) (key : Z) (ty : Ty) : outcome (Z * Ty) :=
  match path with
  | [] => Ok (key, ty)
  | name :: rest =>
      match ty with
      | TStruct _ fields _ =>
          match list_find (λ p, p.1 = name) fields with
          | Some (_, (_, t)) => path_below rest (child key name) t
          | None => Panic
          end
      | _ => Panic
      end
  end.
Definition with_state_path {A} (state_name : bytes) (path : list bytes) (f : Z → Ty → SM Tx A) : IM A :=
  root ← root_of_state state_name;
  ty ← lift (or_panic (ie_state_types env !! state_name));
  '(key, ty) ← lift (path_below path root ty);
  on_tx_i (f key ty).

(** *** Collections *)

(** The root in a cell as it is read, and forced. *)
Definition root_in (b : Backing) (cell : Z) (ty : Ty) : SM Tx Z := v ← read_cell_tx cell ty; mret (bk_root b v).
Definition forced_root_in (b : Backing) (cell : Z) (ty : Ty) : SM Tx Z :=
  v ← read_cell_tx cell ty; v ← force_tx v; mret (bk_root b v).
Definition forced_vec_in (cell : Z) (ty : Ty) : SM Tx (Z * Z) :=
  v ← read_cell_tx cell ty;
  v ← force_tx v;
  mret (match v with VPVec len root => (len, root) | _ => (0, EMPTY) end).
Definition pbtree_b : Backing := pbtree_backing tree_fuel.
(** The kinds of states that are looked up by key, with their types. *)
Inductive Coll := Co_Map (value : Ty) | Co_PVec (elem : Ty) | Co_Tree (b : Backing) (key value : Ty).
Definition coll_of (ty : Ty) : option Coll :=
  match ty with
  | TMap _ value => Some (Co_Map value)
  | TPVec elem => Some (Co_PVec elem)
  | TPMap key value => Some (Co_Tree pmap_backing key value)
  | TPBTree key value => Some (Co_Tree pbtree_b key value)
  | _ => None
  end.
(** [to_u64] of an index. *)
Definition pvec_index_i (v : Value) (span : Span) : IM Z :=
  match v with
  | VInt n => if in_u 64 n then mret n else rt ("pvec index out of u64 range: " +:+ text (dec n)) span
  | other => rt ("pvec index: expected non-negative int, got " +:+ show other) span
  end.
Definition read_keyed (name : bytes) (ty : Ty) (c : Coll) (key_v : Value) (span : Span) : IM Value :=
  match c with
  | Co_Map value =>
      root ← root_of_state name;
      cell ← lift (compose_map_cell root key_v);
      on_tx_i (read cell value (default VUnit (ie_state_defaults env !! name)))
  | Co_PVec elem =>
      i ← pvec_index_i key_v span;
      cell ← root_of_state name;
      '(len, root) ← on_tx_i (forced_vec_in cell ty);
      on_tx_i (Pvec.get elem root len i span)
  | Co_Tree b kt vt =>
      cell ← root_of_state name;
      root ← on_tx_i (root_in b cell ty);
      v ← on_tx_i (bk_get b kt vt root key_v);
      mret (default (default_for vt) v)
  end.

(** *** Indexes *)

(** [walk_field_path], [project_index_key]. *)
Fixpoint walk_field_path (path : list bytes) (cur : Value) (idx : IndexDecl) : outcome Value :=
  match path with
  | [] => Ok cur
  | field :: rest =>
      match cur with
      | VStruct _ fields =>
          match list_find (λ p, p.1 = field) fields with
          | Some (_, (_, v)) => walk_field_path rest v idx
          | None => Err (runtime ("index '" +:+ text (id_name idx) +:+ "': field '" +:+ text field +:+
                                  "' missing on stored struct") (id_span idx))
          end
      | other => Err (runtime ("index '" +:+ text (id_name idx) +:+ "': cannot project '" +:+ text field +:+
                               "' from " +:+ show other) (id_span idx))
      end
  end.
Fixpoint pack_index_fields (fs : list IndexField) (value : Value) (idx : IndexDecl) : outcome bytes :=
  match fs with
  | [] => Ok []
  | f :: rest =>
      v ← walk_field_path (ix_path f) value idx;
      be ← call_builtin "to_be_bytes" [v];
      part ← match ix_direction f with Dir_Desc => call_builtin "bit_not_bytes" [be] | Dir_Asc => Ok be end;
      match part with
      | VBytes b => packed ← pack_index_fields rest value idx; Ok (b ++ packed)
      | _ => Panic
      end
  end.
Definition project_index_key (idx : IndexDecl) (value : Value) : outcome Value :=
  match id_fields idx with
  | [mkIndexField path Dir_Asc] => walk_field_path path value idx
  | fields => VBytes <$> pack_index_fields fields value idx
  end.

(** The tree of an index. *)
Definition index_coll (idx : IndexDecl) : IM (Backing * Ty * Ty * Ty) :=
  match ie_state_types env !! id_name idx with
  | Some (TPMap kt vt as ty) => mret (pmap_backing, ty, kt, vt)
  | Some (TPBTree kt vt as ty) => mret (pbtree_b, ty, kt, vt)
  | _ => rt ("index '" +:+ text (id_name idx) +:+ "' is not a pmap/pbtree state at runtime") (id_span idx)
  end.
Definition claim_key (b : Backing) (kt vt : Ty) (idx : IndexDecl) (cell root : Z) (cur key : Value) : IM unit :=
  existing ← on_tx_i (bk_get b kt vt root cur);
  match id_kind idx with
  | Index_Unique =>
      match existing with
      | Some prior =>
          if value_eqb prior key then mret tt
          else rt ("unique constraint violation on '" +:+ text (id_name idx) +:+ "': key " +:+ show cur +:+
                   " already maps to " +:+ show prior +:+ ", refused to remap to " +:+ show key) (id_span idx)
      | None =>
          new_root ← on_tx_i (bk_set b kt vt root cur key);
          on_tx_i (write_tx cell (bk_value b new_root))
      end
  | Index_Multi =>
      let arr := match existing with Some (VArray a) => a | _ => [] end in
      if existsb (λ e, value_eqb e key) arr then mret tt else
      new_root ← on_tx_i (bk_set b kt vt root cur (VArray (arr ++ [key])));
      on_tx_i (write_tx cell (bk_value b new_root))
  end.
Definition release_key (b : Backing) (kt vt : Ty) (idx : IndexDecl) (cell root : Z) (cur key : Value) : IM unit :=
  existing ← on_tx_i (bk_get b kt vt root cur);
  match id_kind idx, existing with
  | Index_Unique, Some v =>
      if value_eqb v key then
        new_root ← on_tx_i (bk_remove b kt vt root cur);
        on_tx_i (write_tx cell (bk_value b new_root))
      else mret tt
  | Index_Multi, Some (VArray arr) =>
      let arr' := List.filter (λ e, negb (value_eqb e key)) arr in
      new_root ← match arr' with
                 | [] => on_tx_i (bk_remove b kt vt root cur)
                 | _ => on_tx_i (bk_set b kt vt root cur (VArray arr'))
                 end;
      on_tx_i (write_tx cell (bk_value b new_root))
  | _, _ => mret tt
  end.
(** [maintain_indexes] and [unmaintain_indexes]. *)
Section maintain.
Context (update : Backing → Ty → Ty → IndexDecl → Z → Z → Value → Value → IM unit).
Context (primary_state : bytes) (key value : Value).
Fixpoint each_index (idxs : list IndexDecl) : IM unit :=
  match idxs with
  | [] => mret tt
  | idx :: rest =>
      if decide (id_on_state idx = primary_state) then
        cur ← lift (project_index_key idx value);
        '(b, ty, kt, vt) ← index_coll idx;
        cell ← root_of_state (id_name idx);
        root ← on_tx_i (root_in b cell ty);
        _ ← update b kt vt idx cell root cur key;
        each_index rest
      else each_index rest
  end.
End maintain.
Definition maintain_indexes_i (primary_state : bytes) (key value : Value) : IM unit :=
  each_index claim_key primary_state key value (sm_indexes (ie_module env)).
Definition unmaintain_indexes (primary_state : bytes) (key prior_value : Value) : IM unit :=
  each_index release_key primary_state key prior_value (sm_indexes (ie_module env)).

(** *** Writes *)

(** [state[key] = value], once the key is known; any other state takes the value at
    the cell of the key. *)
Definition write_keyed (name : bytes) (key_v value : Value) (span : Span) : IM unit :=
  cell ← root_of_state name;
  match ie_state_types env !! name with
  | Some (TPVec elem as ty) =>
      i ← pvec_index_i key_v span;
      '(len, old_root) ← on_tx_i (forced_vec_in cell ty);
      new_root ← on_tx_i (Pvec.set elem old_root len i value span);
      on_tx_i (write_tx cell (VPVec len new_root))
  | Some (TPMap kt vt as ty) =>
      root ← on_tx_i (root_in pmap_backing cell ty);
      new_root ← on_tx_i (bk_set pmap_backing kt vt root key_v value);
      _ ← on_tx_i (write_tx cell (VPMap new_root));
      maintain_indexes_i name key_v value
  | Some (TPBTree kt vt as ty) =>
      root ← on_tx_i (root_in pbtree_b cell ty);
      new_root ← on_tx_i (bk_set pbtree_b kt vt root key_v value);
      on_tx_i (write_tx cell (VPBTree new_root))
  | _ =>
      map_cell ← lift (compose_map_cell cell key_v);
      on_tx_i (write_tx map_cell value)
  end.
(** [exec_delete], once the key is known. *)
Definition delete_keyed (name : bytes) (key_v : Value) (span : Span) : IM unit :=
  match ie_state_types env !! name with
  | None => rt ("'" +:+ text name +:+ "' is not a state") span
  | Some ty =>
      cell ← root_of_state name;
      match coll_of ty with
      | Some (Co_Tree b kt vt) =>
          root ← on_tx_i (root_in b cell ty);
          prior ← on_tx_i (bk_get b kt vt root key_v);
          new_root ← on_tx_i (bk_remove b kt vt root key_v);
          _ ← on_tx_i (write_tx cell (bk_value b new_root));
          match prior with
          | Some old_value => unmaintain_indexes name key_v old_value
          | None => mret tt
          end
      | _ => rt ("delete: '" +:+ text name +:+ "' is not a pmap or pbtree state") span
      end
  end.
(** [reserve]: [prev + n] panics when it exceeds [u64]. *)
Definition reserve_i (state : bytes) (count_v : Value) (count_span span : Span) : IM Value :=
  match value_to_u64_arr count_v with
  | None => rt ("`reserve N from ...` count must be a non-negative integer, got " +:+ show count_v) count_span
  | Some n =>
      v ← read_state state;
      match v with
      | VU64 prev =>
          if in_u 64 (prev + n) then
            _ ← write_state state (VU64 (prev + n));
            mret (VArray ((λ i, VU64 (prev + Z.of_nat i + 1)) <$> seq 0 (Z.to_nat n)))
          else lift Panic
      | other => rt ("`reserve ... from " +:+ text state +:+ "`: state must be u64, got " +:+ show other) span
      end
  end.

(** [eval_iter_to_array] on a state: the values of the collection. *)
Definition iterate_state (name : bytes) : IM (option Value) :=
  match ie_state_types env !! name with
  | Some (TPMap kt vt as ty) =>
      cell ← root_of_state name;
      root ← on_tx_i (forced_root_in pmap_backing cell ty);
      entries ← on_tx_i (Pmap.entries kt vt root);
      mret (Some (VArray (snd <$> entries)))
  | Some (TPVec elem as ty) =>
      cell ← root_of_state name;
      '(len, root) ← on_tx_i (forced_vec_in cell ty);
      elements ← on_tx_i (Pvec.to_vec elem root len);
      mret (Some (VArray elements))
  | Some (TPBTree kt vt as ty) =>
      cell ← root_of_state name;
      root ← on_tx_i (forced_root_in pbtree_b cell ty);
      entries ← on_tx_i (Pbtree.entries kt vt tree_fuel root);
      mret (Some (VArray (snd <$> entries)))
  | _ => mret None
  end.

(** *** Calls of host imports and the values a name stands for *)
Definition call_host_i (name : bytes) (args : list Value) : IM Value :=
  match host_call (ie_host env) name args with
  | inl v => mret v
  | inr err => rt ("host '" +:+ text name +:+ "': host error " +:+ text (dec (he_code err)) +:+ ": " +:+
                   text (he_msg err)) Span_default
  end.

(** *** Builtins over a state *)
Definition collection_kind (b : StateBuiltin) : string :=
  match b with
  | SB_PvecPush | SB_PvecLen | SB_PvecToArray => "pvec"
  | SB_PbtreeContains | SB_PbtreeRange => "pbtree"
  | _ => "pmap"
  end.
Definition has_kind (b : StateBuiltin) (ty : Ty) : bool :=
  match b, ty with
  | (SB_PvecPush | SB_PvecLen | SB_PvecToArray), TPVec _ => true
  | (SB_PbtreeContains | SB_PbtreeRange), TPBTree _ _ => true
  | (SB_PmapContains | SB_PmapEntries | SB_PmapKeys | SB_PmapValues), TPMap _ _ => true
  | _, _ => false
  end.
(** The collection is opened before the other arguments are evaluated. *)
Definition opened_state (b : StateBuiltin) (name : bytes) (args : list Expr) (span : Span) : IM (bytes * Ty * Z) :=
  match args with
  | mkExpr (E_Ident state_name) _ :: _ =>
      match ie_state_types env !! state_name with
      | Some ty =>
          if has_kind b ty then cell ← root_of_state state_name; mret (state_name, ty, cell)
          else rt ("'" +:+ text state_name +:+ "' is not a " +:+ collection_kind b) span
      | None => rt ("'" +:+ text state_name +:+ "' is not a state") span
      end
  | _ => rt (text name +:+ "() arg 0 must be a " +:+ collection_kind b +:+ " state") span
  end.
Definition entries_value (b : StateBuiltin) (entries : list (Value * Value)) : Value :=
  VArray match b with
         | SB_PmapKeys => fst <$> entries
         | SB_PmapValues => snd <$> entries
         | _ => (λ p, VTuple [p.1; p.2]) <$> entries
         end.

(** *** The tree

    [call] calls a function, [const_value] evaluates the value of a constant,
    [fuel] bounds the rounds of a loop. *)
Section tree.
Context (call : bytes → list Value → IM Value) (const_value : Expr → IM Value) (fuel : nat).

Definition lookup_i (name : bytes) (span : Span) : IM Value :=
  scopes ← get_scopes;
  match find_value scopes name with
  | Some v => mret v
  | None =>
      if is_state name then read_state name
      else
        match list_find (λ c, cn_name c = name) (sm_consts (ie_module env)) with
        | Some (_, c) => const_value (cn_value c)
        | None => rt ("undefined variable '" +:+ text name +:+ "'") span
        end
  end.

Section forms.
Context (ev : Expr → IM Value).
Fixpoint eval_each (es : list Expr) : IM (list Value) :=
  match es with
  | [] => mret []
  | e :: rest => v ← ev e; vs ← eval_each rest; mret (v :: vs)
  end.
Fixpoint eval_pairs (pairs : list (bytes * Expr)) (m : list (bytes * Value)) : IM (list (bytes * Value)) :=
  match pairs with
  | [] => mret m
  | (k, e) :: rest => v ← ev e; eval_pairs rest (indexmap_insert m k v)
  end.
Fixpoint eval_entries (pairs : list (Expr * Expr)) (d : list (Value * Value)) : IM (list (Value * Value)) :=
  match pairs with
  | [] => mret d
  | (kx, vx) :: rest => k ← ev kx; v ← ev vx; eval_entries rest (dict_update d k v)
  end.
Definition add_once (s : list Value) (v : Value) : list Value :=
  if existsb (λ x, value_eqb x v) s then s else s ++ [v].
(** The fields in declaration order. *)
Fixpoint eval_fields (name : bytes) (span : Span) (fields : list (bytes * Expr)) (declared : list bytes) :
    IM (list (bytes * Value)) :=
  match declared with
  | [] => mret []
  | declared_name :: rest =>
      v ← (fix provided (fs : list (bytes * Expr)) : IM Value :=
             match fs with
             | [] => rt ("missing field '" +:+ text declared_name +:+ "' in struct '" +:+ text name +:+ "'") span
             | (fn_, e) :: fs' => if decide (fn_ = declared_name) then ev e else provided fs'
             end) fields;
      vs ← eval_fields name span fields rest;
      mret ((declared_name, v) :: vs)
  end.
(** [args[1]], [args[2]]. *)
Definition eval_arg (i : nat) (args : list Expr) : IM Value :=
  match i, args with
  | 1%nat, _ :: a :: _ => ev a
  | 2%nat, _ :: _ :: a :: _ => ev a
  | _, _ => lift Panic
  end.
Definition eval_state_builtin (b : StateBuiltin) (name : bytes) (args : list Expr) (span : Span) : IM Value :=
  '(state_name, ty, cell) ← opened_state b name args span;
  match ty with
  | TPVec elem =>
      '(len, root) ← on_tx_i (forced_vec_in cell ty);
      match b with
      | SB_PvecLen => mret (VU64 len)
      | SB_PvecPush =>
          value ← eval_arg 1 args;
          '(new_root, new_len) ← on_tx_i (Pvec.push elem root len value);
          _ ← on_tx_i (write_tx cell (VPVec new_len new_root));
          mret (VU64 len)
      | _ => vs ← on_tx_i (Pvec.to_vec elem root len); mret (VArray vs)
      end
  | TPBTree kt vt =>
      root ← on_tx_i (forced_root_in pbtree_b cell ty);
      match b with
      | SB_PbtreeContains =>
          key_v ← eval_arg 1 args;
          found ← on_tx_i (bk_contains pbtree_b kt vt root key_v);
          mret (VBool found)
      | _ =>
          lo ← eval_arg 1 args;
          hi ← eval_arg 2 args;
          vs ← on_tx_i (Pbtree.range kt vt tree_fuel root lo hi);
          mret (VArray vs)
      end
  | TPMap kt vt =>
      root ← on_tx_i (forced_root_in pmap_backing cell ty);
      match b with
      | SB_PmapContains =>
          key_v ← eval_arg 1 args;
          found ← on_tx_i (bk_contains pmap_backing kt vt root key_v);
          mret (VBool found)
      | _ => entries ← on_tx_i (Pmap.entries kt vt root); mret (entries_value b entries)
      end
  | _ => lift Panic
  end.
Definition eval_call (module : option bytes) (name : bytes) (args : list Expr) (span : Span) : IM Value :=
  match module, state_builtin name with
  | None, Some b => eval_state_builtin b name args span
  | _, _ =>
      vals ← eval_each args;
      match module with
      | Some _ => rt "tree-walk interp does not support cross-module calls; use Engine::execute_main" span
      | None => call name vals
      end
  end.
Definition array_index (arr idx : Value) (span : Span) : IM Value :=
  match arr, idx with
  | VArray elems, VInt i =>
      match (if in_u 64 i then get_z elems i else None) with
      | Some v => mret v
      | None => rt ("array index out of bounds: " +:+ text (dec i) +:+ " of " +:+ text (dec (zlen elems))) span
      end
  | a, k => rt ("can't index " +:+ show a +:+ " with " +:+ show k) span
  end.
Definition eval_index (target key : Expr) (span : Span) (on_value : IM Value) : IM Value :=
  match target with
  | mkExpr (E_Ident state_name) _ =>
      match ie_state_types env !! state_name with
      | Some ty =>
          match coll_of ty with
          | Some c => key_v ← ev key; read_keyed state_name ty c key_v span
          | None => on_value
          end
      | None => on_value
      end
  | _ => on_value
  end.
Definition field_of (v : Value) (name : bytes) (target_span span : Span) : IM Value :=
  match v with
  | VStruct _ fields =>
      match list_find (λ p, p.1 = name) fields with
      | Some (_, (_, v)) => mret v
      | None => rt ("no field '" +:+ text name +:+ "'") span
      end
  | _ => rt "field access on non-struct" target_span
  end.
Definition dyn_call_i (target_ident : bytes) (span : Span) : IM Value :=
  v ← lookup_i target_ident span;
  match v with
  | VInterface _ [] =>
      rt ("interface '" +:+ text target_ident +:+
          "' is unbound — call IFace::bind(" +:+ text [34] +:+ "module_name" +:+ text [34] +:+ ") before dispatch") span
  | VInterface _ target_module =>
      rt ("tree-walk interp does not support dynamic dispatch (target '" +:+ text target_module +:+
          "'); use Engine::execute_*") span
  | other => rt ("dynamic dispatch on non-interface value: " +:+ show other) span
  end.
Definition tuple_item (v : Value) (index : Z) (target_span span : Span) : IM Value :=
  match v with
  | VTuple elems =>
      match get_z elems index with
      | Some v => mret v
      | None => rt ("tuple index " +:+ text (dec index) +:+ " out of bounds (len " +:+ text (dec (zlen elems)) +:+ ")") span
      end
  | other => rt ("tuple index on non-tuple: " +:+ show other) target_span
  end.

(** [eval_iter_to_array]. *)
Definition eval_iter (iter : Expr) : IM Value :=
  match iter with
  | mkExpr (E_Ident name) _ =>
      s ← iterate_state name;
      match s with Some v => mret v | None => ev iter end
  | _ => ev iter
  end.
(** [walk_comp_clauses]; [emit] adds to what is collected so far. *)
Section clauses.
Context {A : Type} (emit_leaf : A → IM A).
Fixpoint walk_comp_clauses (clauses : list CompClause) (acc : A) : IM A :=
  match clauses with
  | [] => emit_leaf acc
  | C_For var iter :: rest =>
      arr ← eval_iter iter;
      match arr with
      | VArray elems =>
          (fix each (elems : list Value) (acc : A) : IM A :=
             match elems with
             | [] => mret acc
             | elem :: more =>
                 _ ← push_iscope {[ var := elem ]};
                 acc' ← walk_comp_clauses rest acc;
                 _ ← pop_iscope;
                 each more acc'
             end) elems acc
      | _ => rt "comprehension iterator must be an array" (ex_span iter)
      end
  | C_If cond :: rest =>
      c ← ev cond;
      match c with
      | VBool true => walk_comp_clauses rest acc
      | VBool false => mret acc
      | _ => rt ("comprehension filter must be bool, got " +:+ show c) (ex_span cond)
      end
  end.
End clauses.
(** The first arm whose pattern is the variant. *)
Fixpoint bind_names (names : list bytes) (vs : list Value) (scope : gmap bytes Value) : gmap bytes Value :=
  match names, vs with n :: names', v :: vs' => bind_names names' vs' (<[n := v]> scope) | _, _ => scope end.
Fixpoint eval_arms (variant : bytes) (payload : list Value) (span : Span) (arms : list MatchArm) : IM Value :=
  match arms with
  | [] => rt ("no arm matched variant '" +:+ text variant +:+ "'") span
  | mkArm pattern body _ :: rest =>
      let scope := match pattern with
                   | Wildcard => Some ∅
                   | EnumPattern _ v bindings => if decide (v = variant) then Some (bind_names bindings payload ∅) else None
                   end in
      match scope with
      | Some scope => _ ← push_iscope scope; v ← ev body; _ ← pop_iscope; mret v
      | None => eval_arms variant payload span rest
      end
  end.
(** A pipe is popped whatever the step answers. *)
Definition with_pipe (v : Value) (step : IM Value) : IM Value := λ s,
  let '(r, s') := step (mkISt (is_tx s) (is_scopes s) (v :: is_pipes s)) in
  (r, mkISt (is_tx s') (is_scopes s') (tail (is_pipes s'))).
End forms.

(** *** Loops and statements over the evaluators of their parts *)
Definition in_iscope {A : Type} (scope : gmap bytes Value) (m : IM A) : IM A :=
  _ ← push_iscope scope; a ← m; _ ← pop_iscope; mret a.
Definition unit_flow : Flow := Fl_Normal VUnit.
Fixpoint while_loop (n : nat) (cond : IM Value) (body : IM Flow) (span : Span) : IM Flow :=
  match n with
  | O => lift OutOfFuel
  | S n' =>
      c ← cond;
      match c with
      | VBool true =>
          flow ← body;
          match flow with
          | Fl_Normal _ | Fl_Continue => while_loop n' cond body span
          | Fl_Break => mret unit_flow
          | Fl_Return v => mret (Fl_Return v)
          end
      | VBool false => mret unit_flow
      | c => rt ("while condition must be bool, got " +:+ show c) span
      end
  end.
Fixpoint for_loop (var : bytes) (body : IM Flow) (remaining : Z) (elems : list Value) : IM Flow :=
  match elems with
  | [] => mret unit_flow
  | elem :: rest =>
      if remaining =? 0 then mret unit_flow else
      flow ← in_iscope {[ var := elem ]} body;
      match flow with
      | Fl_Normal _ | Fl_Continue => for_loop var body (remaining - 1) rest
      | Fl_Break => mret unit_flow
      | Fl_Return v => mret (Fl_Return v)
      end
  end.
Definition U64_MAX : Z := 2 ^ 64 - 1.
Definition loop_limit (limit : option (Span * IM Value)) : IM Z :=
  match limit with
  | Some (span, lim) =>
      v ← lim;
      match value_to_u64_arr v with
      | Some n => mret n
      | None => rt ("`for ... limit N`: N must be a non-negative integer, got " +:+ show v) span
      end
  | None => mret U64_MAX
  end.
(** The counter of a loop over sized integers is an [i128]: it wraps at the cast of a
    [u128] and must not step over its maximum. *)
Definition as_i128 (n : Z) : Z := if n <? 2 ^ 127 then n else n - 2 ^ 128.
Definition range_bounds (s e : Value) (span : Span) : IM (Z * Z * bool * (Z → Value)) :=
  match s, e with
  | VInt a, VInt b => mret (a, b, false, VInt)
  | VU64 a, VU64 b => mret (a, b, true, VU64)
  | VI32 a, VI32 b => mret (a, b, true, VI32)
  | VU32 a, VU32 b => mret (a, b, true, VU32)
  | VU128 a, VU128 b => mret (as_i128 a, as_i128 b, true, λ n, VU128 (n mod 2 ^ 128))
  | _, _ => rt "range bounds must be the same integer type" span
  end.
Fixpoint range_loop (n : nat) (var : bytes) (body : IM Flow) (inclusive sized : bool) (ctor : Z → Value) (lim i : Z) :
    IM Flow :=
  match n with
  | O => lift OutOfFuel
  | S n' =>
      if (if inclusive then i <=? lim else i <? lim) then
        flow ← in_iscope {[ var := ctor i ]} body;
        match flow with
        | Fl_Normal _ | Fl_Continue =>
            if sized && (i =? i128_max) then lift Panic
            else range_loop n' var body inclusive sized ctor lim (i + 1)
        | Fl_Break => mret unit_flow
        | Fl_Return v => mret (Fl_Return v)
        end
      else mret unit_flow
  end.

(** An event, with its handlers called one after the other. *)
Definition module_name_i : bytes := default (str "main") (sm_name (ie_module env)).
Fixpoint call_all (names : list bytes) (v : Value) : IM unit :=
  match names with [] => mret tt | n :: rest => _ ← call n [v]; call_all rest v end.
Definition handlers_of (matches : HandlerDecl → bool) : list bytes :=
  (λ h, fd_name (hd_fn_def h)) <$> List.filter matches (sm_handlers (ie_module env)).
Definition exec_emit (v : Value) (span : Span) : IM Flow :=
  match v with
  | VStruct struct_name fields =>
      _ ← on_tx_i (Tx.emit (mkEvent module_name_i struct_name (snd <$> fields)));
      _ ← call_all (handlers_of (λ h, bool_decide (hd_event_type h = struct_name) &&
                      match hd_event_module h with Some m => bool_decide (m = module_name_i) | None => true end)) v;
      mret unit_flow
  | other => rt ("emit expected a struct value, got " +:+ show other) span
  end.
Fixpoint bind_each (names : list bytes) (vs : list Value) : IM unit :=
  match names, vs with n :: names', v :: vs' => _ ← bind_value n v; bind_each names' vs' | _, _ => mret tt end.
Definition exec_let_tuple (names : list bytes) (v : Value) (span : Span) : IM Flow :=
  match v with
  | VTuple elems =>
      if bool_decide (length elems = length names) then _ ← bind_each names elems; mret unit_flow
      else rt "tuple destructure arity mismatch" span
  | other => rt ("destructure: expected tuple, got " +:+ show other) span
  end.

(** [parallel for .. to]: the scopes are searched from the outermost. *)
Definition output_array (name : bytes) (span : Span) : IM (list Value) :=
  scopes ← get_scopes;
  match find_value (reverse scopes) name with
  | Some (VArray a) => mret a
  | Some _ => rt ("parallel-for output `" +:+ text name +:+ "` must be an array") span
  | None => rt ("parallel-for output `" +:+ text name +:+ "` is not bound") span
  end.
Fixpoint parallel_slots (id_var : bytes) (idx_var : option bytes) (body : IM Flow) (i : nat) (ids : list Value)
    (out : list Value) : IM (list Value + Value) :=
  match ids with
  | [] => mret (inl out)
  | id_val :: rest =>
      let scope := match idx_var with
                   | Some idx => <[idx := VInt (Z.of_nat i)]> {[ id_var := id_val ]}
                   | None => {[ id_var := id_val ]}
                   end in
      flow ← in_iscope scope body;
      match flow with
      | Fl_Normal v => parallel_slots id_var idx_var body (S i) rest (<[i := v]> out)
      | Fl_Continue => parallel_slots id_var idx_var body (S i) rest out
      | Fl_Break => mret (inl out)
      | Fl_Return v => mret (inr v)
      end
  end.
Definition exec_parallel_for (id_var : bytes) (idx_var : option bytes) (src_v : Value) (source_span : Span)
    (output : Expr) (body : IM Flow) (span : Span) : IM Flow :=
  match src_v with
  | VArray src_elems =>
      match output with
      | mkExpr (E_Ident out_name) out_span =>
          out_arr ← output_array out_name out_span;
          if bool_decide (length out_arr = length src_elems) then
            filled ← parallel_slots id_var idx_var body 0 src_elems out_arr;
            match filled with
            | inl out =>
                scopes ← get_scopes;
                _ ← set_iscopes (reverse (default (reverse scopes) (replace_value (reverse scopes) out_name (VArray out))));
                mret unit_flow
            | inr v => mret (Fl_Return v)
            end
          else rt ("parallel-for source length " +:+ text (dec (zlen src_elems)) +:+ " != output length " +:+
                   text (dec (zlen out_arr))) span
      | mkExpr _ out_span => rt "parallel-for output must be a local array binding" out_span
      end
  | _ => rt "parallel-for source must evaluate to an array" source_span
  end.

(** *** Assignments *)
Definition assign_name (name : bytes) (value : Value) : IM unit :=
  scopes ← get_scopes;
  match replace_value scopes name value with
  | Some scopes' => set_iscopes scopes'
  | None => write_state name value
  end.
Fixpoint set_field (fields : list (bytes * Value)) (name : bytes) (v : Value) : option (list (bytes * Value)) :=
  match fields with
  | [] => None
  | (n, w) :: rest =>
      if decide (n = name) then Some ((n, v) :: rest) else rest' ← set_field rest name v; Some ((n, w) :: rest')
  end.
Definition assign_field_i (target : Expr) (inner_span : Span) (inner : IM Value) (parent : Value → IM unit) (name : bytes)
    (value : Value) : IM unit :=
  scopes ← get_scopes;
  match field_path_i scopes target [] with
  | Some (state_name, path) => with_state_path state_name path (λ key ty, write_typed key ty value)
  | None =>
      p ← inner;
      match p with
      | VStruct sname fields =>
          match set_field fields name value with
          | Some fields' => parent (VStruct sname fields')
          | None => rt ("no field '" +:+ text name +:+ "'") (ex_span target)
          end
      | _ => rt "field assignment on non-struct" inner_span
      end
  end.

(** The statements of a block in a scope; a flow that is not normal ends it. *)
Section stmts.
Context (xstmt : Stmt → IM Flow).
Fixpoint exec_stmts (ss : list Stmt) : IM Flow :=
  match ss with
  | [] => mret unit_flow
  | s :: rest =>
      flow ← xstmt s;
      match flow with Fl_Normal _ => exec_stmts rest | other => mret other end
  end.
End stmts.
(** [exec_block_with_tail]. *)
Definition exec_block_of (stmts : IM Flow) (tail : option (IM Value)) (tail_is_implicit_return : bool) : IM Flow :=
  in_iscope ∅ (flow ← stmts;
    match flow with
    | Fl_Normal _ =>
        match tail with
        | Some t => v ← t; mret (if tail_is_implicit_return then Fl_Return v else Fl_Normal v)
        | None => mret unit_flow
        end
    | other => mret other
    end).
(** A block as an expression: [return] only leaves the block. *)
Definition eval_block_of (stmts : IM Flow) (tail : option (IM Value)) (span : Span) : IM Value :=
  in_iscope ∅ (flow ← stmts;
    match flow with
    | Fl_Normal _ => match tail with Some t => t | None => mret VUnit end
    | Fl_Return v => mret v
    | _ => rt "break/continue inside block expression" span
    end).
Definition branch_on (c : Value) (then_ else_ : IM Flow) (span : Span) : IM Flow :=
  match c with
  | VBool true => then_
  | VBool false => else_
  | other => rt ("if condition must be bool, got " +:+ show other) span
  end.

(** *** The evaluator *)
Fixpoint eval (e : Expr) {struct e} : IM Value :=
  match e with mkExpr kind span =>
  match kind with
  | E_Int n => mret (VInt n)
  | E_UInt n => mret (VUInt n)
  | E_Float n => mret (VFloat n)
  | E_JsonNull => mret (VJson JNull)
  | E_JsonObject pairs => m ← eval_pairs (λ e, eval e) pairs []; mret (VJson (JObject m))
  | E_JsonArray items => vs ← eval_each (λ e, eval e) items; mret (VJson (JArray vs))
  | E_I32 n => mret (VI32 n)
  | E_U32 n => mret (VU32 n)
  | E_U64 n => mret (VU64 n)
  | E_U128 n => mret (VU128 n)
  | E_Bool b => mret (VBool b)
  | E_Str s => mret (VStr s)
  | E_Ident name => lookup_i name span
  | E_Binary op lhs rhs => l ← eval lhs; r ← eval rhs; lift (eval_binary op l r span)
  | E_Unary op operand => v ← eval operand; lift (eval_unary op v span)
  | E_Index target key =>
      eval_index (λ e, eval e) target key span
        (arr ← eval target; idx ← eval key; array_index arr idx span)
  | E_Array elems => vs ← eval_each (λ e, eval e) elems; mret (VArray vs)
  | E_ArrayAlloc elem_ty len =>
      len_v ← eval len;
      match value_to_usize_arr len_v with
      | Some n => mret (VArray (replicate (Z.to_nat n) (default_for elem_ty)))
      | None => rt ("`arr<T>[N]` length must be a non-negative integer, got " +:+ show len_v) (ex_span len)
      end
  | E_ExplicitLiteral inner => eval inner
  | E_Reserve count state => count_v ← eval count; reserve_i state count_v (ex_span count) span
  | E_StructLit name fields =>
      match ie_struct_decls env !! name with
      | Some declared =>
          vs ← eval_fields (λ e, eval e) name span fields declared;
          mret (VStruct name vs)
      | None => rt ("unknown struct '" +:+ text name +:+ "'") span
      end
  | E_Field target name =>
      scopes ← get_scopes;
      match field_path_i scopes e [] with
      | Some (state_name, path) => with_state_path state_name path (λ key ty, read_typed key ty)
      | None => v ← eval target; field_of v name (ex_span target) span
      end
  | E_Prev =>
      pipes ← gets is_pipes;
      match pipes with v :: _ => mret v | [] => rt "$$ used outside of a pipe stage" span end
  | E_Pipe head step => v ← eval head; with_pipe v (eval step)
  | E_SetLit elems => vs ← eval_each (λ e, eval e) elems; mret (VSet (foldl add_once [] vs))
  | E_DictLit pairs => d ← eval_entries (λ e, eval e) pairs []; mret (VDict d)
  | E_SetComp mapper clauses =>
      out ← walk_comp_clauses (λ e, eval e) (λ out, v ← eval mapper; mret (add_once out v)) clauses [];
      mret (VSet out)
  | E_DictComp key value clauses =>
      out ← walk_comp_clauses (λ e, eval e) (λ out, k ← eval key; v ← eval value; mret (dict_update out k v)) clauses [];
      mret (VDict out)
  | E_ListComp mapper clauses =>
      out ← walk_comp_clauses (λ e, eval e) (λ out, v ← eval mapper; mret (out ++ [v])) clauses [];
      mret (VArray out)
  | E_DynCall target_ident _ _ _ _ => dyn_call_i target_ident span
  | E_Call module name args => eval_call (λ e, eval e) module name args span
  | E_TupleLit elems => vs ← eval_each (λ e, eval e) elems; mret (VTuple vs)
  | E_TupleIndex target index => v ← eval target; tuple_item v index (ex_span target) span
  | E_EnumCtor enum_name variant args =>
      payload ← eval_each (λ e, eval e) args; mret (VEnum enum_name variant payload)
  | E_Block block => eval_block block span
  | E_If cond then_ else_branch =>
      c ← eval cond;
      match c, else_branch with
      | VBool true, _ => eval_block then_ (bl_span then_)
      | _, ElseNone => rt "if-expression missing else branch" span
      | _, ElseBlock b => eval_block b (bl_span b)
      | _, ElseIf inner => eval_if inner
      end
  | E_Match scrut arms =>
      v ← eval scrut;
      match v with
      | VEnum _ variant payload => eval_arms (λ e, eval e) variant payload span arms
      | other => rt ("match on non-enum: " +:+ show other) (ex_span scrut)
      end
  end end
(** [ExprKind::Block]. *)
with eval_block (b : Block) (span : Span) {struct b} : IM Value :=
  match b with mkBlock ss t _ =>
    eval_block_of (exec_stmts (λ s, exec_stmt s) ss) match t with Some t => Some (eval t) | None => None end span
  end
(** An [else if] of an expression. *)
with eval_if (ifs : IfStmt) {struct ifs} : IM Value :=
  match ifs with mkIf cond then_ else_branch span =>
    c ← eval cond;
    match c, else_branch with
    | VBool true, _ => eval_block then_ (bl_span then_)
    | _, ElseNone => rt "if-expression missing else branch" span
    | _, ElseBlock b => eval_block b (bl_span b)
    | _, ElseIf inner => eval_if inner
    end
  end
with exec_block (b : Block) {struct b} : IM Flow :=
  match b with mkBlock ss t _ =>
    exec_block_of (exec_stmts (λ s, exec_stmt s) ss) match t with Some t => Some (eval t) | None => None end false
  end
with exec_if (ifs : IfStmt) {struct ifs} : IM Flow :=
  match ifs with mkIf cond then_ else_branch span =>
    c ← eval cond;
    branch_on c (exec_block then_)
      match else_branch with
      | ElseNone => mret unit_flow
      | ElseBlock b => exec_block b
      | ElseIf inner => exec_if inner
      end span
  end
with assign_path (target : Expr) (value : Value) {struct target} : IM unit :=
  match target with
  | mkExpr (E_Ident name) _ => assign_name name value
  | mkExpr (E_Index (mkExpr (E_Ident state_name) _) key) span =>
      key_v ← eval key; write_keyed state_name key_v value span
  | mkExpr (E_Index _ _) span => rt "indexed assignment target must be a state" span
  | mkExpr (E_Field inner name) _ =>
      assign_field_i target (ex_span inner) (eval inner) (λ v, assign_path inner v) name value
  | mkExpr _ span => rt "invalid assignment target" span
  end
with exec_stmt (stmt : Stmt) {struct stmt} : IM Flow :=
  match stmt with
  | S_Let name _ value _ => v ← eval value; _ ← bind_value name v; mret unit_flow
  | S_Assign target value _ => v ← eval value; _ ← assign_path target v; mret unit_flow
  | S_Return (Some e) _ => v ← eval e; mret (Fl_Return v)
  | S_Return None _ => mret (Fl_Return VUnit)
  | S_If if_stmt => exec_if if_stmt
  | S_While cond body span => while_loop fuel (eval cond) (exec_block body) span
  | S_For var iter limit body span =>
      arr ← eval_iter (λ e, eval e) iter;
      match arr with
      | VArray elems =>
          remaining ← loop_limit match limit with Some lim => Some (ex_span lim, eval lim) | None => None end;
          for_loop var (exec_block body) remaining elems
      | _ => rt "for-in iterator must be an array" span
      end
  | S_ForRange var start end_ inclusive body span =>
      s ← eval start;
      e ← eval end_;
      '(i, lim, sized, ctor) ← range_bounds s e span;
      range_loop fuel var (exec_block body) inclusive sized ctor lim i
  | S_Break _ => mret Fl_Break
  | S_Continue _ => mret Fl_Continue
  | S_Placeholder _ => lift Panic
  | S_Expr e => _ ← eval e; mret unit_flow
  | S_Delete (mkExpr (E_Index (mkExpr (E_Ident state_name) _) key) _) span =>
      key_v ← eval key; _ ← delete_keyed state_name key_v span; mret unit_flow
  | S_Delete (mkExpr (E_Index _ _) _) span => rt "delete target must be a state slot" span
  | S_Delete _ span => rt "delete target must be `state[key]`" span
  | S_Emit value span => v ← eval value; exec_emit v span
  | S_LetTuple names value span => v ← eval value; exec_let_tuple names v span
  | S_Parallel ss _ => exec_stmts (λ s, exec_stmt s) ss
  | S_ParallelForTo id_var idx_var source output body span =>
      src_v ← eval source;
      exec_parallel_for id_var idx_var src_v (ex_span source) output (exec_block body) span
  end.
End tree.

(** *** Calls *)
Definition overrides_builtin (name : bytes) : bool :=
  existsb (λ n, bool_decide (name = str n)) ["sum"; "max"; "min"]%string &&
  existsb (λ f, bool_decide (fd_name f = name)) (sm_functions (ie_module env)).
Definition bind_args (params : list Param) (args : list Value) : gmap bytes Value :=
  foldl (λ frame p, <[pm_name p.1 := p.2]> frame) ∅ (zip params args).
(** A call has scopes of its own. *)
Definition in_frame {A : Type} (frame : gmap bytes Value) (m : IM A) : IM A := λ s,
  let '(r, s') := m (mkISt (is_tx s) [frame] (is_pipes s)) in
  (r, mkISt (is_tx s') (is_scopes s) (is_pipes s')).
(** [nore_exit] follows the body whatever it answers. *)
Definition then_exit {A : Type} (fn_idx : Z) (m : IM A) : IM A := λ s,
  let '(r, s') := m s in (r, (on_tx_i (nore_exit 0 fn_idx) s').2).
Definition guarded_i {A : Type} (fn_idx : Z) (f : FnDef) (m : IM A) : IM A :=
  if fd_is_nore f then
    entered ← on_tx_i (nore_enter 0 fn_idx);
    if entered : bool then then_exit fn_idx m
    else rt ("re-entry into non-reentrant function '" +:+ text (fd_name f) +:+ "'") (fd_span f)
  else m.
Definition call_user (body : Block → IM Flow) (fn_idx : Z) (f : FnDef) (args : list Value) : IM Value :=
  if bool_decide (length (fd_params f) = length args) then
    flow ← guarded_i fn_idx f (in_frame (bind_args (fd_params f) args) (body (fd_body f)));
    match flow with
    | Fl_Normal v | Fl_Return v => mret v
    | _ => rt "break/continue outside of a loop" (fd_span f)
    end
  else rt ("function '" +:+ text (fd_name f) +:+ "' expects " +:+ text (dec (zlen (fd_params f))) +:+
           " arg(s), got " +:+ text (dec (zlen args))) (fd_span f).
Definition call_of (body : Block → IM Flow) (name : bytes) (args : list Value) : IM Value :=
  ctx ← on_tx_i (gets context);
  match (if overrides_builtin name then None else try_builtin ctx name args) with
  | Some answer => lift answer
  | None =>
      if existsb (λ i, bool_decide (ip_name i = name)) (sm_imports (ie_module env)) then call_host_i name args
      else
        match list_find (λ f, fd_name f = name) (sm_functions (ie_module env)) with
        | Some (fn_idx, f) => call_user body (Z.of_nat fn_idx) f args
        | None => rt ("unknown function '" +:+ text name +:+ "'") Span_default
        end
  end.

(** What leaves the tree: a call, or the value of a constant; [n] bounds their
    nesting and the rounds of each loop. *)
Inductive Request := Rq_Call (name : bytes) (args : list Value) | Rq_Const (value : Expr).
Section body.
Context (run : Request → IM Value) (n : nat).
Definition call_body (b : Block) : IM Flow :=
  let go := λ name args, run (Rq_Call name args) in
  let const_value := λ e, run (Rq_Const e) in
  exec_block_of (exec_stmts (exec_stmt go const_value n) (bl_stmts b)) (eval go const_value n <$> bl_tail b) true.
End body.
Fixpoint run_at (n : nat) (rq : Request) {struct n} : IM Value :=
  match n with
  | O => lift OutOfFuel
  | S n' =>
      match rq with
      | Rq_Call name args => call_of (call_body (run_at n') n) name args
      | Rq_Const value =>
          eval (λ name args, run_at n' (Rq_Call name args)) (λ e, run_at n' (Rq_Const e)) n value
      end
  end.
(** [Interp::call]. *)
Definition call (n : nat) (name : bytes) (args : list Value) : IM Value := run_at n (Rq_Call name args).

(** [drain_pending_emits]; [rounds] bounds the batches. *)
Fixpoint drain_batch (n : nat) (batch : list PendingEmit) : IM unit :=
  match batch with
  | [] => mret tt
  | emit :: rest =>
      _ ← call_all (call n) (handlers_of (λ h, bool_decide (hd_event_type h = pe_struct_name emit) &&
            match hd_event_module h with
            | Some m => bool_decide (m = pe_module emit)
            | None => bool_decide (pe_module emit = module_name_i)
            end)) (pe_value emit);
      drain_batch n rest
  end.
Fixpoint drain_pending_emits (rounds n : nat) : IM unit :=
  match rounds with
  | O => lift OutOfFuel
  | S rounds' =>
      batch ← on_tx_i take_pending_emits;
      match batch with
      | [] => mret tt
      | _ => _ ← drain_batch n batch; drain_pending_emits rounds' n
      end
  end.
End interp.
