(* ===== verification/Vm.v ===== *)
(** The virtual machine ([crates/rend/src/vm.rs]): one instruction, the loop of
    a function body, calls with the non-reentrancy guard, emits and parallel
    blocks, and the entry points. *)
From S2P Require Import Prelude Bytes Hashing Values Serialize Kv Merkle Tx TxTyped JsonText Floats Display Ops Builtins Bytecode VmBase VmState.
#[local] Set Warnings "-register-all".

(** What an instruction does to the frame: the next program counter with the
    registers, or the function's result. *)
Inductive Step := SNext (regs : list Value) (pc : Z) | SReturn (v : Value).

Section exec.
Context `{BigIntCodec} `{FloatText} {Nan : FloatNan} (tree_fuel : nat).
Context (host : Host) (modules : list BcModule).

(** [regs[dst] = v], then the next instruction. *)
Definition store (regs : Regs) (pc dst : Z) (v : Value) : VM Step :=
  regs' ← set_reg regs dst v; mret (SNext regs' pc).

Definition load_const (c : Const) : Value :=
  match c with
  | CInt n => VInt n | CUInt n => VUInt n | CFloat n => VFloat n | CI32 n => VI32 n
  | CU32 n => VU32 n | CU64 n => VU64 n | CU128 n => VU128 n | CBool b => VBool b
  | CStr s => VStr s
  end.

(** *** Builtins on one register *)
Definition builtin_resource (v : Value) : VM Value :=
  match v with
  | VInt n =>
      if in_i 64 n then mret (VResource n)
      else fail ("resource(): int out of i64 range: " +:+ text (dec n))
  | other => fail ("resource() expects int, got " +:+ show other)
  end.
Definition builtin_unwrap (v : Value) : VM Value :=
  match v with
  | VResource n => mret (VInt n)
  | other => fail ("unwrap() expects Resource, got " +:+ show other)
  end.
Definition builtin_address (v : Value) : VM Value :=
  match v with
  | VStr s => mret (VAddress s)
  | other => fail ("address() expects string, got " +:+ show other)
  end.
Definition builtin_len (v : Value) : VM Value :=
  match v with
  | VArray elems | VSet elems => mret (VInt (zlen elems))
  | VStr s => mret (VInt (zlen s))
  | VDict pairs => mret (VInt (zlen pairs))
  | other => fail ("len() expects array or string, got " +:+ show other)
  end.

(** *** Aggregates *)
Definition array_alloc (len_v dflt : Value) : VM Value :=
  match value_to_usize_arr len_v with
  | Some n => mret (VArray (replicate (Z.to_nat n) dflt))
  | None => fail ("`arr<T>[N]` length must be a non-negative integer, got " +:+ show len_v)
  end.
Definition array_append (arr elem : Value) : VM Value :=
  match arr with
  | VArray v => mret (VArray (v ++ [elem]))
  | other => fail ("array_append on non-array: " +:+ show other)
  end.
Definition array_get (arr idx : Value) : VM Value :=
  match arr, idx with
  | VArray elems, VInt i =>
      match get_z elems i with
      | Some v => mret v
      | None => fail ("array index out of bounds: " +:+ text (dec i) +:+ " of " +:+ text (dec (zlen elems)))
      end
  | _, _ => fail "array index requires [T] and int"
  end.

(** [MakeSet] forces and compares; [MakeDict] forces the keys only. *)
Fixpoint make_set (regs : Regs) (rs : list Z) (elems : list Value) : VM (Value * Regs) :=
  match rs with
  | [] => mret (VSet elems, regs)
  | r :: rs' =>
      '(v, regs') ← force_reg regs r;
      make_set regs' rs' (if existsb (λ x, value_eqb x v) elems then elems else elems ++ [v])
  end.
Fixpoint make_dict (regs : Regs) (n : nat) (r : Z) (pairs : list (Value * Value)) : VM (Value * Regs) :=
  match n with
  | O => mret (VDict pairs, regs)
  | S n' =>
      '(k, regs') ← force_reg regs r;
      v ← reg regs' (r + 1);
      make_dict regs' n' (r + 2) (dict_update pairs k v)
  end.

Fixpoint struct_fields (shape : StructShape) (regs : Regs) (i : nat) (rs : list Z) :
    VM (list (bytes * Value)) :=
  match rs with
  | [] => mret []
  | r :: rs' =>
      name ← vm_lift (or_panic (field_names shape !! i));
      v ← reg regs r;
      fs ← struct_fields shape regs (S i) rs';
      mret ((name, v) :: fs)
  end.

(** A field of a struct: the first of the name. *)
Definition field_get (v : Value) (field_name : bytes) : VM Value :=
  match v with
  | VStruct _ fields =>
      match assoc field_name fields with
      | Some v => mret v
      | None => fail ("no field '" +:+ text field_name +:+ "'")
      end
  | other => fail ("field access on non-struct: " +:+ show other)
  end.
Fixpoint replace_field (fields : list (bytes * Value)) (name : bytes) (v : Value) :
    option (list (bytes * Value)) :=
  match fields with
  | [] => None
  | (n, old) :: fields' =>
      if bool_decide (n = name) then Some ((n, v) :: fields')
      else cons (n, old) <$> replace_field fields' name v
  end.
Definition field_set (s : Value) (field_name : bytes) (new_val : Value) : VM Value :=
  match s with
  | VStruct name fields =>
      match replace_field fields field_name new_val with
      | Some fields' => mret (VStruct name fields')
      | None => fail ("no field '" +:+ text field_name +:+ "'")
      end
  | other => fail ("field assignment on non-struct: " +:+ show other)
  end.

Definition const_msg (c : Const) : string :=
  match c with
  | CInt n => "Int(" +:+ text (dec n) +:+ ")" | CUInt n => "UInt(" +:+ text (dec n) +:+ ")"
  | CFloat n => "Float(F64Bits(" +:+ text (if is_finite n then with_point (format_f64 n) else format_f64 n) +:+ "))" | CI32 n => "I32(" +:+ text (dec n) +:+ ")"
  | CU32 n => "U32(" +:+ text (dec n) +:+ ")" | CU64 n => "U64(" +:+ text (dec n) +:+ ")"
  | CU128 n => "U128(" +:+ text (dec n) +:+ ")"
  | CBool b => "Bool(" +:+ (if b then "true" else "false") +:+ ")"
  | CStr s => "Str(" +:+ text (quoted s) +:+ ")"
  end.
Definition field_name_const (f : BcFn) (name_idx : Z) : VM bytes :=
  c ← index (consts f) name_idx;
  match c with
  | CStr s => mret s
  | other => fail ("field name const must be string, got " +:+ const_msg other)
  end.

(** *** Enums and tuples *)
Definition enum_tag (m : BcModule) (v : Value) : VM Value :=
  match v with
  | VEnum enum_name variant _ =>
      match enum_index m !! enum_name with
      | None => fail ("unknown enum '" +:+ text enum_name +:+ "'")
      | Some shape_idx =>
          shape ← index (enum_shapes m) shape_idx;
          match list_find (λ n, n = variant) (variant_names shape) with
          | Some (idx, _) => mret (VInt (Z.of_nat idx))
          | None => fail ("variant '" +:+ text variant +:+ "' not found in '" +:+ text enum_name +:+ "'")
          end
      end
  | other => fail ("EnumTag on non-enum: " +:+ show other)
  end.
Definition enum_payload (v : Value) (i : Z) : VM Value :=
  match v with
  | VEnum _ _ payload =>
      match get_z payload i with
      | Some x => mret x
      | None => fail ("EnumPayload index " +:+ text (dec i) +:+ " out of bounds (len "
                      +:+ text (dec (zlen payload)) +:+ ")")
      end
  | other => fail ("EnumPayload on non-enum: " +:+ show other)
  end.
Definition tuple_get (v : Value) (i : Z) : VM Value :=
  match v with
  | VTuple elems =>
      match get_z elems i with
      | Some x => mret x
      | None => fail ("tuple index " +:+ text (dec i) +:+ " out of bounds (len "
                      +:+ text (dec (zlen elems)) +:+ ")")
      end
  | other => fail ("tuple index on non-tuple: " +:+ show other)
  end.

Definition context_value (kind : Z) : VM Value :=
  ctx ← on_tx (gets context);
  if kind =? 0 then mret (sender ctx)
  else if kind =? 1 then mret (VU64 (block_timestamp ctx))
  else if kind =? 2 then mret (VU64 (block_number ctx))
  else fail ("unknown context kind " +:+ text (dec kind)).

(** *** Modules *)
Definition find_module (name : bytes) : option Z :=
  (λ p, Z.of_nat p.1) <$> list_find (λ m, m_name m = name) modules.

(** [interface_index] of the first module that declares the interface. *)
Fixpoint find_interface (ms : list BcModule) (iface : bytes) : VM (option InterfaceDecl) :=
  match ms with
  | [] => mret None
  | m :: ms' =>
      match interface_index m !! iface with
      | Some i => d ← index (interfaces m) i; mret (Some d)
      | None => find_interface ms' iface
      end
  end.

Definition make_interface (iface : bytes) (target_v : Value) : VM Value :=
  match target_v with
  | VStr target_module =>
      decl ← find_interface modules iface;
      match decl with
      | None => fail ("MakeInterface: interface '" +:+ text iface +:+ "' not declared in any loaded module")
      | Some decl =>
          match find_module target_module with
          | None => fail ("IFace::bind: target module '" +:+ text target_module +:+ "' not loaded")
          | Some t =>
              target ← index modules t;
              r ← vm_lift (check_iface_conformance decl target);
              match r with
              | Some msg => fail msg
              | None => mret (VInterface iface target_module)
              end
          end
      end
  | other => fail ("MakeInterface: target must be string, got " +:+ show other)
  end.

(** The module and function of a cross-module call; the two callers differ in
    their messages. *)
Definition resolve_entry (mod_name fn_name : bytes) (no_module no_fn not_entry : string) : VM (Z * Z) :=
  match find_module mod_name with
  | None => fail no_module
  | Some target_idx =>
      target ← index modules target_idx;
      match fn_index target !! fn_name with
      | None => fail no_fn
      | Some fn =>
          f ← index (functions target) fn;
          if is_entry f then mret (target_idx, fn) else fail not_entry
      end
  end.

Definition external_target (mod_name fn_name : bytes) : VM (Z * Z) :=
  let m := text mod_name in let n := text fn_name in
  resolve_entry mod_name fn_name
    ("unknown module '" +:+ m +:+ "'")
    ("unknown function '" +:+ n +:+ "' in module '" +:+ m +:+ "'")
    ("function '" +:+ n +:+ "' in module '" +:+ m +:+ "' is not an entry function").

Definition dynamic_target (mod_name fn_name : bytes) : VM (Z * Z) :=
  let m := text mod_name in let n := text fn_name in
  resolve_entry mod_name fn_name
    ("dynamic dispatch: bound module '" +:+ m +:+ "' not loaded")
    ("dynamic dispatch: '" +:+ m +:+ "::" +:+ n +:+ "' not defined")
    ("dynamic dispatch: '" +:+ m +:+ "::" +:+ n +:+ "' is not an entry fn").

(** The name a dynamic call finds in its target register. *)
Definition bound_module (v : Value) : VM bytes :=
  match v with
  | VInterface _ target_module =>
      if bool_decide (target_module = [])
      then fail "dynamic dispatch on unbound interface (call IFace::bind first)"
      else mret target_module
  | other => fail ("dynamic dispatch on non-interface value: " +:+ show other)
  end.

Definition call_host (m : BcModule) (import_idx : Z) (args : list Value) : VM Value :=
  name ← index (imports m) import_idx;
  match host_call host name args with
  | inl v => mret v
  | inr err => fail ("host '" +:+ text name +:+ "' [code " +:+ text (dec (he_code err)) +:+ "]: "
                     +:+ text (he_msg err))
  end.

(** ** One instruction

    [call] and [body] are the recursive uses of the machine: a call of a
    function, and a function body entered at a program counter. *)
Section instruction.
Context (call : Z → Z → list Value → VM Value).
Context (body : Z → Z → list Value → Z → VM Value).

(** *** Emits *)

(** Handlers of an event in module order. *)
Definition handlers_of (key : bytes) : list (Z * Z) :=
  concat (imap (λ mi m, (λ h, (Z.of_nat mi, h)) <$> default [] (handler_dispatch m !! key)) modules).

Definition dispatch_handlers_parallel (emit_module struct_name : bytes) (struct_val : Value) : VM unit :=
  let dispatch := handlers_of (emit_module ++ str "::" ++ struct_name) in
  match dispatch with
  | [] => mret tt
  | [(mi, hi)] => _ ← call mi hi [struct_val]; mret tt
  | _ =>
      results ← run_legs ((λ p, call p.1 p.2 [struct_val]) <$> dispatch);
      merge_legs (λ i _, match dispatch !! i with
                         | Some (mi, hi) => call mi hi [struct_val]
                         | None => panic
                         end)
        (λ _ _ acc, mret acc) 0 results ∅ tt
  end.

Definition emit_value (m : BcModule) (v : Value) : VM unit :=
  match v with
  | VStruct name fields =>
      _ ← on_tx (emit (mkEvent (m_name m) name (snd <$> fields)));
      dispatch_handlers_parallel (m_name m) name v
  | other => fail ("emit expected a struct value, got " +:+ show other)
  end.

(** *** Parallel blocks *)
Definition parallel_begin (mi fi : Z) (ranges : list ParallelRange) (regs : Regs) : VM Regs :=
  results ← run_legs ((λ r, body mi fi regs (pr_start r)) <$> ranges);
  merge_legs (λ i acc, match ranges !! i with
                       | Some r => body mi fi acc (pr_start r)
                       | None => panic
                       end)
    (λ i l acc, match ranges !! i with
                | Some r => match pr_dst r with
                            | Some dst => set_reg acc dst (leg_value l)
                            | None => mret acc
                            end
                | None => panic
                end) 0 results ∅ regs.

(** One iteration of a parallel loop. *)
Definition for_leg (mi fi body_start id_reg idx_reg : Z) (regs : Regs) (i : nat) (elem : Value) : VM Value :=
  regs1 ← set_reg regs id_reg elem;
  regs2 ← set_reg regs1 idx_reg (VInt (Z.of_nat i));
  body mi fi regs2 body_start.

Definition parallel_for (mi fi body_start id_reg idx_reg : Z) (regs : Regs) (source_v output_v : Value) :
    VM (list Value) :=
  match source_v with
  | VArray source =>
      match output_v with
      | VArray output =>
          if negb (length output =? length source)%nat then
            fail ("parallel-for length mismatch: source=" +:+ text (dec (zlen source)) +:+ ", output="
                  +:+ text (dec (zlen output)))
          else
            let leg i := match source !! i with
                         | Some e => for_leg mi fi body_start id_reg idx_reg regs i e
                         | None => panic
                         end in
            results ← run_legs (leg <$> seq 0 (length source));
            merge_legs (λ i _, leg i)
              (λ i l acc, mret (if leg_skip l then acc else <[i := leg_value l]> acc))
              0 results ∅ output
      | other => fail ("parallel-for output must be an array, got " +:+ show other)
      end
  | other => fail ("parallel-for source must be an array, got " +:+ show other)
  end.

(** *** Dispatch

    [pc] is already past the instruction. *)
Definition exec_instr (mi fi : Z) (m : BcModule) (f : BcFn) (instr : Instr) (regs : list Value) (pc : Z) :
    VM Step :=
  let next regs' := mret (SNext regs' pc) in
  let pmap := pmap_backing in
  let pbtree := pbtree_backing tree_fuel in
  match instr with
  | LoadConst dst idx => c ← index (consts f) idx; store regs pc dst (load_const c)
  | Convert dst src target =>
      '(v, regs) ← force_reg regs src;
      r ← vm_lift (convert v target Span_default);
      store regs pc dst r
  | Move dst src => v ← reg regs src; store regs pc dst v
  | Bin op dst lhs rhs =>
      '(l, regs) ← force_reg regs lhs;
      '(r, regs) ← force_reg regs rhs;
      v ← vm_lift (eval_binary op l r Span_default);
      store regs pc dst v
  | Un op dst src =>
      '(v, regs) ← force_reg regs src;
      r ← vm_lift (eval_unary op v Span_default);
      store regs pc dst r
  | Jump offset => mret (SNext regs (pc + offset))
  | JumpIfFalse cond offset =>
      '(v, regs) ← force_reg regs cond;
      mret (SNext regs (match v with VBool false => pc + offset | _ => pc end))
  | Call dst callee args_start n_args =>
      args ← read_regs regs (arg_regs args_start n_args);
      v ← call mi callee args;
      store regs pc dst v
  | CallExternal dst module_name_idx fn_name_idx args_start n_args _ _ =>
      mod_name ← const_str f module_name_idx "CallExternal: module name const must be string";
      fn_name ← const_str f fn_name_idx "CallExternal: fn name const must be string";
      '(target_idx, fn) ← external_target mod_name fn_name;
      args ← read_regs regs (arg_regs args_start n_args);
      v ← call target_idx fn args;
      store regs pc dst v
  | MakeInterface dst iface_name_idx target_reg =>
      iface ← const_str f iface_name_idx "MakeInterface: iface name const must be string";
      '(target_v, regs) ← force_reg regs target_reg;
      v ← make_interface iface target_v;
      store regs pc dst v
  | CallExternalDyn dst target_reg fn_name_idx args_start n_args _ _ =>
      '(target_v, regs) ← force_reg regs target_reg;
      mod_name ← bound_module target_v;
      fn_name ← const_str f fn_name_idx "CallExternalDyn: fn name const must be string";
      '(target_idx, fn) ← dynamic_target mod_name fn_name;
      args ← read_regs regs (arg_regs args_start n_args);
      v ← call target_idx fn args;
      store regs pc dst v
  | CallHost dst import_idx args_start n_args =>
      '(args, regs) ← force_regs regs (arg_regs args_start n_args);
      v ← call_host m import_idx args;
      store regs pc dst v
  | Return src => v ← reg regs src; mret (SReturn v)
  | ReturnUnit => mret (SReturn VUnit)
  | BuiltinResource dst src =>
      '(v, regs) ← force_reg regs src; r ← builtin_resource v; store regs pc dst r
  | BuiltinUnwrap dst src =>
      '(v, regs) ← force_reg regs src; r ← builtin_unwrap v; store regs pc dst r
  | BuiltinAddress dst src =>
      '(v, regs) ← force_reg regs src; r ← builtin_address v; store regs pc dst r
  | BuiltinLen dst src =>
      '(v, regs) ← force_reg_spine regs src; r ← builtin_len v; store regs pc dst r
  | MakeArray dst args_start n =>
      elems ← read_regs regs (arg_regs args_start n); store regs pc dst (VArray elems)
  | ArrayAlloc dst len_reg default_reg =>
      '(len_v, regs) ← force_reg regs len_reg;
      (* the length is checked before the default is forced *)
      _ ← array_alloc len_v VUnit;
      '(dflt, regs) ← force_reg regs default_reg;
      v ← array_alloc len_v dflt;
      store regs pc dst v
  | Reserve dst state_idx count_reg =>
      '(count_v, regs) ← force_reg regs count_reg;
      v ← reserve m state_idx count_v;
      store regs pc dst v
  | MakeStruct dst shape_idx args_start n =>
      shape ← index (struct_shapes m) shape_idx;
      fields ← struct_fields shape regs 0 (arg_regs args_start n);
      store regs pc dst (VStruct (sh_name shape) fields)
  | FieldGet dst src name_idx =>
      field_name ← field_name_const f name_idx;
      '(v, regs) ← force_reg_spine regs src;
      r ← field_get v field_name;
      store regs pc dst r
  | FieldSet dst name_idx val =>
      field_name ← field_name_const f name_idx;
      new_val ← reg regs val;
      '(s, regs) ← force_reg_spine regs dst;
      r ← field_set s field_name new_val;
      store regs pc dst r
  | MakeSet dst args_start n =>
      '(v, regs) ← make_set regs (arg_regs args_start n) []; store regs pc dst v
  | MakeDict dst args_start n_pairs =>
      '(v, regs) ← make_dict regs (Z.to_nat n_pairs) args_start []; store regs pc dst v
  | BuiltinCall dst name_idx args_start n_args =>
      name ← const_str f name_idx "BuiltinCall: name const must be string";
      '(args, regs) ← force_regs regs (arg_regs args_start n_args);
      v ← vm_lift (call_builtin (text name) args);
      store regs pc dst v
  | ArrayAppend dst arr elem =>
      '(arr_v, regs) ← force_reg_spine regs arr;
      (* the element is read after the array is known to be one *)
      match arr_v with
      | VArray _ => e ← reg regs elem; v ← array_append arr_v e; store regs pc dst v
      | _ => _ ← array_append arr_v VUnit; panic
      end
  | ArrayGet dst arr idx =>
      '(arr_v, regs) ← force_reg_spine regs arr;
      '(idx_v, regs) ← force_reg regs idx;
      v ← array_get arr_v idx_v;
      store regs pc dst v
  | KvGet dst key_idx => v ← kv_get_state m key_idx; store regs pc dst v
  | KvPut src key_idx =>
      _ ← index (state_roots m) key_idx;
      v ← reg regs src;
      _ ← kv_put_state m key_idx v;
      next regs
  | KvGetPath dst path_idx => v ← kv_get_path m path_idx; store regs pc dst v
  | KvPutPath src path_idx =>
      _ ← index (path_specs m) path_idx;
      v ← reg regs src;
      _ ← kv_put_path m path_idx v;
      next regs
  | ReadBatch group_idx => regs ← read_batch m f group_idx regs; next regs
  | PrefetchMap arr_reg state_idx =>
      '(arr_v, regs) ← force_reg regs arr_reg;
      _ ← prefetch_map m state_idx arr_v;
      next regs
  | Emit value =>
      '(v, regs) ← force_reg regs value;
      _ ← emit_value m v;
      next regs
  | ParallelBegin ranges after_pc =>
      regs ← parallel_begin mi fi ranges regs;
      mret (SNext regs after_pc)
  | ParallelYield value =>
      match value with
      | Some r => '(v, _) ← force_reg regs r; mret (SReturn v)
      | None => mret (SReturn VUnit)
      end
  | ParallelForSkip => _ ← set_skip; mret (SReturn VUnit)
  | ParallelForBegin body_start _ source_reg output_reg id_reg idx_reg after_pc =>
      '(source_v, regs) ← force_reg regs source_reg;
      '(output_v, regs) ← force_reg regs output_reg;
      output ← parallel_for mi fi body_start id_reg idx_reg regs source_v output_v;
      store regs after_pc output_reg (VArray output)
  | Context dst kind => v ← context_value kind; store regs pc dst v
  | MakeTuple dst args_start n =>
      elems ← read_regs regs (arg_regs args_start n); store regs pc dst (VTuple elems)
  | TupleGet dst src index =>
      '(v, regs) ← force_reg_spine regs src; r ← tuple_get v index; store regs pc dst r
  | MakeEnum dst shape_idx variant_idx args_start n =>
      shape ← index (enum_shapes m) shape_idx;
      variant ← index (variant_names shape) variant_idx;
      payload ← read_regs regs (arg_regs args_start n);
      store regs pc dst (VEnum (en_name shape) variant payload)
  | EnumTag dst src =>
      '(v, regs) ← force_reg_spine regs src; r ← enum_tag m v; store regs pc dst r
  | EnumPayload dst src index =>
      '(v, regs) ← force_reg_spine regs src; r ← enum_payload v index; store regs pc dst r
  | MapGet dst state_idx key_reg =>
      '(key, regs) ← force_reg regs key_reg; v ← map_get m state_idx key; store regs pc dst v
  | MapPut state_idx key_reg src =>
      '(key, regs) ← force_reg regs key_reg;
      v ← reg regs src;
      _ ← map_put m state_idx key v;
      next regs
  | PMapGet dst state_idx key_reg =>
      _ ← record_types m state_idx;
      '(key, regs) ← force_reg regs key_reg;
      v ← pmap_get m state_idx key;
      store regs pc dst v
  | PMapPut state_idx key_reg src =>
      _ ← record_types m state_idx;
      '(key, regs) ← force_reg regs key_reg;
      '(v, regs) ← force_reg regs src;
      _ ← map_set pmap m state_idx key v;
      next regs
  | PMapContains dst state_idx key_reg =>
      '(key, regs) ← force_reg regs key_reg; v ← map_contains pmap m state_idx key; store regs pc dst v
  | PVecGet dst state_idx idx_reg =>
      '(i, regs) ← force_reg regs idx_reg; v ← pvec_get m state_idx i; store regs pc dst v
  | PVecSet state_idx idx_reg src =>
      '(i, regs) ← force_reg regs idx_reg;
      '(v, regs) ← force_reg regs src;
      _ ← pvec_set m state_idx i v;
      next regs
  | PVecPush dst state_idx src =>
      '(v, regs) ← force_reg regs src; r ← pvec_push m state_idx v; store regs pc dst r
  | PVecLen dst state_idx => v ← pvec_len m state_idx; store regs pc dst v
  | PMapEntries dst state_idx =>
      es ← pmap_walk_entries m state_idx;
      store regs pc dst (VArray ((λ e, VTuple [e.1; e.2]) <$> es))
  | PMapKeys dst state_idx => es ← pmap_walk_entries m state_idx; store regs pc dst (VArray es.*1)
  | PMapValues dst state_idx => es ← pmap_walk_entries m state_idx; store regs pc dst (VArray es.*2)
  | PVecToArray dst state_idx => v ← pvec_to_array m state_idx; store regs pc dst v
  | PMapPutUnique state_idx key_reg src =>
      _ ← map_tys pmap m state_idx;
      '(key, regs) ← force_reg regs key_reg;
      '(v, regs) ← force_reg regs src;
      _ ← put_unique pmap m state_idx key v;
      next regs
  | PMapAppendUnique state_idx key_reg elem_reg =>
      _ ← map_tys pmap m state_idx;
      '(key, regs) ← force_reg regs key_reg;
      '(e, regs) ← force_reg regs elem_reg;
      _ ← append_unique pmap m state_idx key e;
      next regs
  | PBTreeGet dst state_idx key_reg =>
      '(key, regs) ← force_reg regs key_reg; v ← pbtree_get tree_fuel m state_idx key; store regs pc dst v
  | PBTreePut state_idx key_reg src =>
      '(key, regs) ← force_reg regs key_reg;
      '(v, regs) ← force_reg regs src;
      _ ← map_set pbtree m state_idx key v;
      next regs
  | PBTreeContains dst state_idx key_reg =>
      '(key, regs) ← force_reg regs key_reg; v ← map_contains pbtree m state_idx key; store regs pc dst v
  | PBTreeRange dst state_idx lo_reg hi_reg =>
      '(lo, regs) ← force_reg regs lo_reg;
      '(hi, regs) ← force_reg regs hi_reg;
      v ← pbtree_range tree_fuel m state_idx lo hi;
      store regs pc dst v
  | PBTreeWalkInit dst state_idx => v ← pbtree_walk_init tree_fuel m state_idx; store regs pc dst v
  | PBTreeWalkNext cursor_reg value_reg end_offset =>
      c ← reg regs cursor_reg;
      match c with
      | VPBTreeCursor root_cell last_yielded kt vt =>
          '(found, last) ← on_tx (pbtree_walk_advance_stable tree_fuel root_cell last_yielded kt vt);
          regs ← set_reg regs cursor_reg (VPBTreeCursor root_cell last kt vt);
          match found with
          | Some (_, v) => store regs pc value_reg v
          | None => mret (SNext regs (pc + end_offset))
          end
      | _ => fail "PBTreeWalkNext: cursor register doesn't hold a pbtree cursor"
      end
  | PBTreePutUnique state_idx key_reg src =>
      _ ← map_tys pbtree m state_idx;
      '(key, regs) ← force_reg regs key_reg;
      '(v, regs) ← force_reg regs src;
      _ ← put_unique pbtree m state_idx key v;
      next regs
  | PBTreeAppendUnique state_idx key_reg elem_reg =>
      _ ← map_tys pbtree m state_idx;
      '(key, regs) ← force_reg regs key_reg;
      '(e, regs) ← force_reg regs elem_reg;
      _ ← append_unique pbtree m state_idx key e;
      next regs
  | PMapDelete state_idx key_reg =>
      _ ← map_tys pmap m state_idx;
      '(key, regs) ← force_reg regs key_reg;
      _ ← map_delete pmap m state_idx key;
      next regs
  | PBTreeDelete state_idx key_reg =>
      _ ← map_tys pbtree m state_idx;
      '(key, regs) ← force_reg regs key_reg;
      _ ← map_delete pbtree m state_idx key;
      next regs
  | PMapRemoveUnique state_idx key_reg expected_reg =>
      _ ← map_tys pmap m state_idx;
      '(key, regs) ← force_reg regs key_reg;
      '(e, regs) ← force_reg regs expected_reg;
      _ ← remove_unique pmap m state_idx key e;
      next regs
  | PMapRemoveFromList state_idx key_reg elem_reg =>
      _ ← map_tys pmap m state_idx;
      '(key, regs) ← force_reg regs key_reg;
      '(e, regs) ← force_reg regs elem_reg;
      _ ← remove_from_list pmap m state_idx key e;
      next regs
  | PBTreeRemoveUnique state_idx key_reg expected_reg =>
      _ ← map_tys pbtree m state_idx;
      '(key, regs) ← force_reg regs key_reg;
      '(e, regs) ← force_reg regs expected_reg;
      _ ← remove_unique pbtree m state_idx key e;
      next regs
  | PBTreeRemoveFromList state_idx key_reg elem_reg =>
      _ ← map_tys pbtree m state_idx;
      '(key, regs) ← force_reg regs key_reg;
      '(e, regs) ← force_reg regs elem_reg;
      _ ← remove_from_list pbtree m state_idx key e;
      next regs
  | PMapWalkInit dst state_idx => v ← pmap_walk_init m state_idx; store regs pc dst v
  | PMapWalkNext cursor_reg value_reg end_offset =>
      c ← reg regs cursor_reg;
      match c with
      | VPMapCursor stack pending kt vt =>
          '(found, stack', pending') ← on_tx (pmap_walk_advance tree_fuel kt vt stack pending);
          regs ← set_reg regs cursor_reg (VPMapCursor stack' pending' kt vt);
          match found with
          | Some (_, v) => store regs pc value_reg v
          | None => mret (SNext regs (pc + end_offset))
          end
      | _ => fail "PMapWalkNext: cursor register doesn't hold a cursor"
      end
  | IncReg r =>
      '(v, regs) ← force_reg regs r;
      v' ← vm_lift (inc v Span_default);
      store regs pc r v'
  end.

(** *** Calls *)

(** The registers of a fresh frame: [Unit] past the arguments. *)
Definition frame_regs (f : BcFn) (args : list Value) : list Value :=
  args ++ replicate (Z.to_nat (Z.max (n_regs f) (zlen args)) - length args) VUnit.

(** The body, with the guard of a non-reentrant function around it: the guard is
    released whether the body returns or fails. *)
Definition call_guarded (mi fi : Z) (args : list Value) : VM Value :=
  m ← index modules mi;
  f ← index (functions m) fi;
  if negb (zlen args =? n_params f) then
    fail ("function '" +:+ text (f_name f) +:+ "' expects " +:+ text (dec (n_params f))
          +:+ " arg(s), got " +:+ text (dec (zlen args)))
  else if is_nore f then
    entered ← on_tx (nore_enter mi fi);
    if negb entered then
      fail ("re-entry into non-reentrant function '" +:+ text (f_name f) +:+ "'")
    else λ s,
      match body mi fi (frame_regs f args) 0 s with
      | Some (Ok v, s') => (_ ← on_tx (nore_exit mi fi); mret v) s'
      | Some (Err e, s') => (_ ← on_tx (nore_exit mi fi); vm_lift (Err e)) s'
      | r => r
      end
  else body mi fi (frame_regs f args) 0.
End instruction.

(** ** The loop

    One unit of fuel per instruction; [n] bounds the recursion of the model. *)
Fixpoint call_body_at (n : nat) (mi fi : Z) (regs : list Value) (pc : Z) : VM Value :=
  match n with
  | O => λ _, None
  | S n' =>
      m ← index modules mi;
      f ← index (functions m) fi;
      _ ← tick;
      match get_z (code f) pc with
      | None => fail "instruction pointer out of bounds"
      | Some instr =>
          r ← exec_instr (call_guarded (call_body_at n')) (call_body_at n') mi fi m f instr regs (pc + 1);
          match r with
          | SNext regs' pc' => call_body_at n' mi fi regs' pc'
          | SReturn v => mret v
          end
      end
  end.

Definition call (n : nat) : Z → Z → list Value → VM Value := call_guarded (call_body_at n).

(** ** Entry points *)

(** [run_world]: lazy reads during the run, the result forced, the queue
    flushed. *)
Definition run_world (n : nat) (main_idx : Z) (name : bytes) (args : list Value) (fuel0 : Z) (tx : Tx) :
    option (outcome (Value * Z) * Tx) :=
  match get_z modules main_idx with
  | None => Some (Panic, tx)
  | Some m =>
      match fn_index m !! name with
      | None => Some (Err (runtime ("unknown function '" +:+ text name +:+ "'") Span_default), tx)
      | Some fn_idx =>
          let '(_, tx0) := set_lazy true tx in
          match call n main_idx fn_idx args (mkVm fuel0 tx0 false) with
          | None => None
          | Some (result, s) =>
              let '(result, tx1) :=
                match result with Ok v => force_tx v (vm_tx s) | r => (r, vm_tx s) end in
              match result with
              | Panic | OutOfFuel => Some (match result with Panic => Panic | _ => OutOfFuel end, tx1)
              | _ =>
                  match flush_pending tx1 with
                  | (Ok _, tx2) => let '(_, tx3) := set_lazy false tx2 in Some ((λ v, (v, fuel s)) <$> result, tx3)
                  | (Err e, tx2) => Some (Err e, tx2)
                  | (Panic, tx2) => Some (Panic, tx2)
                  | (OutOfFuel, tx2) => Some (OutOfFuel, tx2)
                  end
              end
          end
      end
  end.
End exec.
