(* ===== verification/Optimize.v ===== *)
(** Read clustering ([crates/rend/src/optimize.rs]): state reads that can go out
    together become one batch at the place of the first, instructions between
    them move behind it, and jump offsets follow. *)
From S2P Require Import Prelude Bytes Values Ops Bytecode.

(** The registers an instruction reads, as [reads_pending_dst] lists them. *)
Definition regs_from (start n : Z) : list Z := (λ i, start + Z.of_nat i) <$> seq 0 (Z.to_nat n).

Definition srcs (instr : Instr) : list Z :=
  match instr with
  | KvGet _ _ | KvGetPath _ _ | LoadConst _ _ | ReturnUnit => []
  | Move _ src => [src]
  | Bin _ _ lhs rhs => [lhs; rhs]
  | Un _ _ src => [src]
  | Jump _ => []
  | JumpIfFalse cond _ => [cond]
  | Call _ _ args_start n_args
  | CallHost _ _ args_start n_args
  | CallExternal _ _ _ args_start n_args _ _
  | BuiltinCall _ _ args_start n_args => regs_from args_start n_args
  | CallExternalDyn _ target_reg _ args_start n_args _ _ => target_reg :: regs_from args_start n_args
  | MakeInterface _ _ target_reg => [target_reg]
  | Return src => [src]
  | ArrayGet _ arr idx => [arr; idx]
  | ArrayAppend _ arr elem => [arr; elem]
  | MakeArray _ args_start n => regs_from args_start n
  | MakeStruct _ _ args_start n => regs_from args_start n
  | FieldGet _ src _ => [src]
  | FieldSet dst _ val => [dst; val]
  | MakeSet _ args_start n => regs_from args_start n
  | MakeDict _ args_start n_pairs => regs_from args_start (n_pairs * 2)
  | KvPut src _ => [src]
  | KvPutPath src _ => [src]
  | MapGet _ _ key_reg => [key_reg]
  | MapPut _ key_reg src => [key_reg; src]
  | Convert _ src _ => [src]
  | BuiltinResource _ src | BuiltinUnwrap _ src | BuiltinAddress _ src | BuiltinLen _ src => [src]
  | ReadBatch _ => []
  | PrefetchMap arr_reg _ => [arr_reg]
  | Emit value => [value]
  | ParallelBegin _ _ => []
  | ParallelYield value => match value with Some v => [v] | None => [] end
  | ParallelForBegin _ _ source_reg output_reg _ _ _ => [source_reg; output_reg]
  | ArrayAlloc _ len_reg default_reg => [len_reg; default_reg]
  | Reserve _ _ count_reg => [count_reg]
  | ParallelForSkip => []
  | Context _ _ => []
  | MakeTuple _ args_start n => regs_from args_start n
  | TupleGet _ src _ => [src]
  | MakeEnum _ _ _ args_start n => regs_from args_start n
  | EnumTag _ src => [src]
  | EnumPayload _ src _ => [src]
  | IncReg reg => [reg]
  | PMapGet _ _ key_reg => [key_reg]
  | PMapPut _ key_reg src => [key_reg; src]
  | PMapContains _ _ key_reg => [key_reg]
  | PVecGet _ _ idx_reg => [idx_reg]
  | PVecSet _ idx_reg src => [idx_reg; src]
  | PVecPush _ _ src => [src]
  | PVecLen _ _ => []
  | PMapEntries _ _ | PMapKeys _ _ | PMapValues _ _ | PVecToArray _ _ => []
  | PMapAppendUnique _ key_reg elem_reg => [key_reg; elem_reg]
  | PMapPutUnique _ key_reg src => [key_reg; src]
  | PMapWalkInit _ _ => []
  | PMapWalkNext cursor_reg _ _ => [cursor_reg]
  | PBTreeGet _ _ key_reg => [key_reg]
  | PBTreePut _ key_reg src => [key_reg; src]
  | PBTreeContains _ _ key_reg => [key_reg]
  | PBTreeRange _ _ lo_reg hi_reg => [lo_reg; hi_reg]
  | PBTreeWalkInit _ _ => []
  | PBTreeWalkNext cursor_reg _ _ => [cursor_reg]
  | PBTreePutUnique _ key_reg src => [key_reg; src]
  | PBTreeAppendUnique _ key_reg elem_reg => [key_reg; elem_reg]
  | PMapDelete _ key_reg | PBTreeDelete _ key_reg => [key_reg]
  | PMapRemoveUnique _ key_reg expected_reg | PBTreeRemoveUnique _ key_reg expected_reg =>
      [key_reg; expected_reg]
  | PMapRemoveFromList _ key_reg elem_reg | PBTreeRemoveFromList _ key_reg elem_reg =>
      [key_reg; elem_reg]
  end.

Definition reads_pending_dst (instr : Instr) (pending : gset Z) : bool :=
  existsb (λ r, bool_decide (r ∈ pending)) (srcs instr).

Section optimize.
Context (fn_effects : gmap bytes EffectClass) (local_fn_index : gmap bytes Z).

(** A name of the function index: names have distinct indices, so that the order
    of the search does not matter. *)
Definition name_of (fn_idx : Z) : option bytes :=
  (λ r, r.2.1) <$> list_find (λ p, wrap_u 16 p.2 = fn_idx) (map_to_list local_fn_index).

Definition cluster_breaker (instr : Instr) : bool :=
  match instr with
  | KvPut _ _ | KvPutPath _ _ | MapPut _ _ _
  | PMapPut _ _ _ | PVecSet _ _ _ | PVecPush _ _ _
  | PMapAppendUnique _ _ _ | PMapPutUnique _ _ _
  | PBTreePut _ _ _
  | PBTreePutUnique _ _ _ | PBTreeAppendUnique _ _ _
  | PMapDelete _ _ | PBTreeDelete _ _
  | PMapRemoveUnique _ _ _ | PMapRemoveFromList _ _ _
  | PBTreeRemoveUnique _ _ _ | PBTreeRemoveFromList _ _ _ => true
  | MapGet _ _ _ | PMapGet _ _ _
  | PMapContains _ _ _
  | PVecGet _ _ _ | PVecLen _ _
  | PMapEntries _ _ | PMapKeys _ _
  | PMapValues _ _ | PVecToArray _ _
  | PMapWalkInit _ _ | PMapWalkNext _ _ _
  | PBTreeGet _ _ _ | PBTreeContains _ _ _
  | PBTreeRange _ _ _ _
  | PBTreeWalkInit _ _ | PBTreeWalkNext _ _ _ => false
  | CallHost _ _ _ _ => true
  | CallExternal _ _ _ _ _ is_view is_pure => negb (is_view || is_pure)
  | CallExternalDyn _ _ _ _ _ is_view is_pure => negb (is_view || is_pure)
  | MakeInterface _ _ _ => false
  | Call _ fn_idx _ _ =>
      match n ← name_of fn_idx; fn_effects !! n with
      | Some Pure | Some ReadOnly => false
      | _ => true
      end
  | Jump _ | JumpIfFalse _ _ | Return _ | ReturnUnit => true
  | LoadConst _ _ | Move _ _ | Bin _ _ _ _
  | Un _ _ _ | Convert _ _ _
  | ArrayGet _ _ _ | ArrayAppend _ _ _ | MakeArray _ _ _
  | MakeStruct _ _ _ _ | FieldGet _ _ _ | FieldSet _ _ _
  | MakeSet _ _ _ | MakeDict _ _ _ | BuiltinCall _ _ _ _
  | BuiltinResource _ _ | BuiltinUnwrap _ _
  | BuiltinAddress _ _ | BuiltinLen _ _ => false
  | KvGet _ _ | KvGetPath _ _ | ReadBatch _ => false
  | PrefetchMap _ _ => false
  | Emit _ => false
  | ParallelBegin _ _ | ParallelYield _ => true
  | ParallelForBegin _ _ _ _ _ _ _ => true
  | Reserve _ _ _ => true
  | ArrayAlloc _ _ _ => false
  | ParallelForSkip => true
  | Context _ _ => false
  | MakeTuple _ _ _ | TupleGet _ _ _ => false
  | MakeEnum _ _ _ _ _ | EnumTag _ _ | EnumPayload _ _ _ => false
  | IncReg _ => false
  end.

(** ** The pass over one function *)
Record OptState := mkOpt {
  new_code : list Instr;
  cluster : list ReadOp;
  cluster_old : list nat;
  cluster_dsts : gset Z;
  pending_nonreads : list (nat * Instr);
  idx_map : list (option nat);
  new_jump_old : gmap nat nat;
  groups : list (list ReadOp);
}.

Definition is_jump (i : Instr) : bool :=
  match i with Jump _ | JumpIfFalse _ _ => true | _ => false end.

Definition read_instr (op : ReadOp) : Instr :=
  match op with
  | RState dst key_idx => KvGet dst key_idx
  | RPath dst path_idx => KvGetPath dst path_idx
  end.

(** Append an instruction that was at [old]. *)
Definition emit_at (old : nat) (instr : Instr) (s : OptState) : OptState :=
  let new_pc := length (new_code s) in
  mkOpt (new_code s ++ [instr]) (cluster s) (cluster_old s) (cluster_dsts s) (pending_nonreads s)
    (<[old := Some new_pc]> (idx_map s))
    (if is_jump instr then <[new_pc := old]> (new_jump_old s) else new_jump_old s) (groups s).

(** The reads of the cluster: one instruction, or a batch. *)
Definition flush_cluster (s : OptState) : OptState :=
  let pos := length (new_code s) in
  let mapped := foldl (λ m old, <[old := Some pos]> m) (idx_map s) (cluster_old s) in
  match cluster s with
  | [] => s
  | [op] =>
      mkOpt (new_code s ++ [read_instr op]) [] [] (cluster_dsts s) (pending_nonreads s) mapped
        (new_jump_old s) (groups s)
  | ops =>
      mkOpt (new_code s ++ [ReadBatch (wrap_u 16 (zlen (groups s)))]) [] [] (cluster_dsts s)
        (pending_nonreads s) mapped (new_jump_old s) (groups s ++ [ops])
  end.

Definition flush (s : OptState) : OptState :=
  let s1 := flush_cluster s in
  let s2 := foldl (λ s p, emit_at p.1 p.2 s) s1 (pending_nonreads s1) in
  mkOpt (new_code s2) (cluster s2) (cluster_old s2) ∅ [] (idx_map s2) (new_jump_old s2) (groups s2).

Definition add_read (old : nat) (op : ReadOp) (dst : Z) (s : OptState) : OptState :=
  mkOpt (new_code s) (cluster s ++ [op]) (cluster_old s ++ [old]) ({[dst]} ∪ cluster_dsts s)
    (pending_nonreads s) (idx_map s) (new_jump_old s) (groups s).

Definition defer_nonread (old : nat) (instr : Instr) (s : OptState) : OptState :=
  mkOpt (new_code s) (cluster s) (cluster_old s) (cluster_dsts s)
    (pending_nonreads s ++ [(old, instr)]) (idx_map s) (new_jump_old s) (groups s).

Definition visit (old : nat) (instr : Instr) (s : OptState) : OptState :=
  match instr with
  | KvGet dst key_idx =>
      let s := if reads_pending_dst instr (cluster_dsts s) then flush s else s in
      add_read old (RState dst key_idx) dst s
  | KvGetPath dst path_idx =>
      let s := if reads_pending_dst instr (cluster_dsts s) then flush s else s in
      add_read old (RPath dst path_idx) dst s
  | other =>
      if cluster_breaker other || reads_pending_dst other (cluster_dsts s)
      then emit_at old other (flush s)
      else if bool_decide (cluster s ≠ []) then defer_nonread old other s
      else emit_at old other s
  end.

Fixpoint visit_all (old : nat) (code : list Instr) (s : OptState) : OptState :=
  match code with
  | [] => flush s
  | instr :: code' => visit_all (S old) code' (visit old instr s)
  end.

(** ** Jump offsets *)

(** The first mapped position from [ot] on, or the end. *)
Definition map_or_end (idx_map : list (option nat)) (new_len : Z) (old_target : Z) : Z :=
  if old_target <? 0 then 0 else
  match list_find (λ o, is_Some o) (drop (Z.to_nat old_target) idx_map) with
  | Some (_, Some v) => Z.of_nat v
  | _ => new_len
  end.

(** [expect("jump origin recorded")] panics on a jump without origin. *)
Definition patch (s : OptState) (new_pc : nat) (instr : Instr) : outcome Instr :=
  let moved offset :=
    match new_jump_old s !! new_pc with
    | Some old_pc =>
        Ok (map_or_end (idx_map s) (zlen (new_code s)) (Z.of_nat old_pc + 1 + offset) - Z.of_nat new_pc - 1)
    | None => Panic
    end in
  match instr with
  | Jump offset => o ← moved offset; Ok (Jump o)
  | JumpIfFalse cond offset => o ← moved offset; Ok (JumpIfFalse cond o)
  | other => Ok other
  end.

Definition initial (f : BcFn) : OptState :=
  mkOpt [] [] [] ∅ [] (replicate (length (code f)) None) ∅ (read_groups f).

Fixpoint patch_all (s : OptState) (new_pc : nat) (code : list Instr) : outcome (list Instr) :=
  match code with
  | [] => Ok []
  | instr :: code' => i ← patch s new_pc instr; rest ← patch_all s (S new_pc) code'; Ok (i :: rest)
  end.

Definition optimize_fn (f : BcFn) : outcome BcFn :=
  let s := visit_all 0 (code f) (initial f) in
  c ← patch_all s 0 (new_code s);
  Ok (with_code f c (groups s)).
End optimize.

(** [optimize]: every function of the module. *)
Definition optimize (m : BcModule) (fn_effects : gmap bytes EffectClass) : outcome BcModule :=
  fs ← mapM_out (optimize_fn fn_effects (fn_index m)) (functions m);
  Ok (with_functions m fs).
