(* ===== verification/ArtifactBase.v ===== *)
(** The wire primitives of artifacts ([crates/rend/src/artifact.rs]): the reader
    with its bounds checks, big-endian integers, length-prefixed strings, and the
    tags of constants, types and instructions. *)
From S2P Require Import Prelude Bytes Values Serialize JsonText Display.

(** [decode_err]. *)
Definition decode_err (msg : string) : Error := mkError Runtime msg Span_default.

(** ** Reader *)
Record Reader := mkReader { r_bytes : bytes; r_pos : Z }.
Abbreviation RD := (SM Reader).

Definition reject {A} (msg : string) : RD A := λ r, (Err (decode_err msg), r).

Definition take_bytes (n : Z) : RD bytes := λ r,
  if zlen (r_bytes r) <? r_pos r + n then
    (Err (decode_err ("truncated artifact: needed " +:+ text (dec n) +:+ " bytes at offset "
       +:+ text (dec (r_pos r)) +:+ ", had " +:+ text (dec (zlen (r_bytes r) - r_pos r)))), r)
  else
    (or_panic (get_range (r_bytes r) (r_pos r) n), mkReader (r_bytes r) (r_pos r + n)).

Definition read_u8 : RD Z := b ← take_bytes 1; lift (or_panic (head b)).
Definition read_u16 : RD Z := b ← take_bytes 2; mret (be_value b).
Definition read_u32 : RD Z := b ← take_bytes 4; mret (be_value b).
Definition read_u64 : RD Z := b ← take_bytes 8; mret (be_value b).
Definition read_u128 : RD Z := b ← take_bytes 16; mret (be_value b).
Definition read_i32 : RD Z := b ← take_bytes 4; mret (to_signed 32 (be_value b)).

(** [r.read_u8()? != 0]. *)
Definition read_bool : RD bool := b ← read_u8; mret (negb (b =? 0)).

Definition read_str : RD bytes :=
  len ← read_u32;
  b ← take_bytes len;
  match from_utf8 b with
  | Some s => mret s
  | None => reject "invalid utf-8 in string"
  end.

(** A presence byte, then the value. *)
Definition read_opt {A} (p : RD A) : RD (option A) :=
  has ← read_bool;
  if has : bool then x ← p; mret (Some x) else mret None.

(** [for _ in 0..n { v.push(p(r)?) }]. *)
Fixpoint read_n {A} (n : nat) (p : RD A) : RD (list A) :=
  match n with
  | O => mret []
  | S n' => x ← p; xs ← read_n n' p; mret (x :: xs)
  end.

(** A [u32] count, then the items. *)
Definition read_list {A} (p : RD A) : RD (list A) := n ← read_u32; read_n (Z.to_nat n) p.

(** ** Writers: the bytes appended to [out] *)
Definition write_u8 (v : Z) : bytes := [v].
Definition write_u16 (v : Z) : bytes := be_bytes 2 v.
Definition write_u32 (v : Z) : bytes := be_bytes 4 v.
Definition write_u64 (v : Z) : bytes := be_bytes 8 v.
Definition write_u128 (v : Z) : bytes := be_bytes 16 v.
Definition write_i32 (v : Z) : bytes := be_bytes 4 v.
Definition write_bool (b : bool) : bytes := [if b then 1 else 0].
Definition write_str (s : bytes) : bytes := write_u32 (zlen s) ++ s.
Definition write_opt {A} (w : A → bytes) (o : option A) : bytes :=
  match o with Some x => write_u8 1 ++ w x | None => write_u8 0 end.
Definition write_list {A} (w : A → bytes) (l : list A) : bytes :=
  write_u32 (zlen l) ++ concat (w <$> l).

(** ** Tags *)

(** [mod const_tag]. *)
Abbreviation CONST_INT := 0x01 (only parsing).
Abbreviation CONST_I32 := 0x02 (only parsing).
Abbreviation CONST_U32 := 0x03 (only parsing).
Abbreviation CONST_U64 := 0x04 (only parsing).
Abbreviation CONST_U128 := 0x05 (only parsing).
Abbreviation CONST_BOOL := 0x06 (only parsing).
Abbreviation CONST_STR := 0x07 (only parsing).
Abbreviation CONST_UINT := 0x08 (only parsing).
Abbreviation CONST_FLOAT := 0x09 (only parsing).

(** [mod ty_tag]. *)
Abbreviation TY_INT := 0x01 (only parsing).
Abbreviation TY_I32 := 0x02 (only parsing).
Abbreviation TY_U32 := 0x03 (only parsing).
Abbreviation TY_U64 := 0x04 (only parsing).
Abbreviation TY_U128 := 0x05 (only parsing).
Abbreviation TY_BOOL := 0x06 (only parsing).
Abbreviation TY_UNIT := 0x07 (only parsing).
Abbreviation TY_RESOURCE := 0x08 (only parsing).
Abbreviation TY_STRING := 0x09 (only parsing).
Abbreviation TY_ADDRESS := 0x0a (only parsing).
Abbreviation TY_BYTES := 0x0b (only parsing).
Abbreviation TY_ARRAY := 0x10 (only parsing).
Abbreviation TY_SET := 0x11 (only parsing).
Abbreviation TY_DICT := 0x12 (only parsing).
Abbreviation TY_MAP := 0x13 (only parsing).
Abbreviation TY_STRUCT := 0x14 (only parsing).
Abbreviation TY_TUPLE := 0x15 (only parsing).
Abbreviation TY_ENUM := 0x16 (only parsing).
Abbreviation TY_PMAP := 0x17 (only parsing).
Abbreviation TY_PVEC := 0x18 (only parsing).
Abbreviation TY_CAP := 0x19 (only parsing).
Abbreviation TY_INTERFACE := 0x1a (only parsing).
Abbreviation TY_PBTREE := 0x1b (only parsing).
Abbreviation TY_JSON := 0x1c (only parsing).
Abbreviation TY_UINT := 0x1d (only parsing).
Abbreviation TY_FLOAT := 0x1e (only parsing).

(** [mod op]. *)
Abbreviation OP_LOAD_CONST := 0x01 (only parsing).
Abbreviation OP_MOVE := 0x02 (only parsing).
Abbreviation OP_BIN := 0x03 (only parsing).
Abbreviation OP_UN := 0x04 (only parsing).
Abbreviation OP_JUMP := 0x05 (only parsing).
Abbreviation OP_JUMP_IF_FALSE := 0x06 (only parsing).
Abbreviation OP_CALL := 0x07 (only parsing).
Abbreviation OP_CALL_HOST := 0x08 (only parsing).
Abbreviation OP_CALL_EXTERNAL := 0x09 (only parsing).
Abbreviation OP_RETURN := 0x0a (only parsing).
Abbreviation OP_RETURN_UNIT := 0x0b (only parsing).
Abbreviation OP_BUILTIN_RESOURCE := 0x0c (only parsing).
Abbreviation OP_BUILTIN_UNWRAP := 0x0d (only parsing).
Abbreviation OP_BUILTIN_ADDRESS := 0x0e (only parsing).
Abbreviation OP_BUILTIN_LEN := 0x0f (only parsing).
Abbreviation OP_CONVERT := 0x10 (only parsing).
Abbreviation OP_MAKE_ARRAY := 0x11 (only parsing).
Abbreviation OP_ARRAY_GET := 0x12 (only parsing).
Abbreviation OP_ARRAY_APPEND := 0x13 (only parsing).
Abbreviation OP_MAKE_SET := 0x14 (only parsing).
Abbreviation OP_MAKE_DICT := 0x15 (only parsing).
Abbreviation OP_BUILTIN_CALL := 0x16 (only parsing).
Abbreviation OP_MAKE_STRUCT := 0x17 (only parsing).
Abbreviation OP_FIELD_GET := 0x18 (only parsing).
Abbreviation OP_FIELD_SET := 0x19 (only parsing).
Abbreviation OP_KV_GET := 0x1a (only parsing).
Abbreviation OP_KV_PUT := 0x1b (only parsing).
Abbreviation OP_KV_GET_PATH := 0x1c (only parsing).
Abbreviation OP_KV_PUT_PATH := 0x1d (only parsing).
Abbreviation OP_READ_BATCH := 0x1e (only parsing).
Abbreviation OP_PREFETCH_MAP := 0x1f (only parsing).
Abbreviation OP_EMIT := 0x20 (only parsing).
Abbreviation OP_CONTEXT := 0x21 (only parsing).
Abbreviation OP_MAKE_TUPLE := 0x22 (only parsing).
Abbreviation OP_TUPLE_GET := 0x23 (only parsing).
Abbreviation OP_MAKE_ENUM := 0x24 (only parsing).
Abbreviation OP_ENUM_TAG := 0x25 (only parsing).
Abbreviation OP_ENUM_PAYLOAD := 0x26 (only parsing).
Abbreviation OP_MAP_GET := 0x27 (only parsing).
Abbreviation OP_MAP_PUT := 0x28 (only parsing).
Abbreviation OP_PMAP_GET := 0x29 (only parsing).
Abbreviation OP_PMAP_PUT := 0x2a (only parsing).
Abbreviation OP_PMAP_CONTAINS := 0x2b (only parsing).
Abbreviation OP_PVEC_GET := 0x2c (only parsing).
Abbreviation OP_PVEC_SET := 0x2d (only parsing).
Abbreviation OP_PVEC_PUSH := 0x2e (only parsing).
Abbreviation OP_PVEC_LEN := 0x2f (only parsing).
Abbreviation OP_INC_REG := 0x30 (only parsing).
Abbreviation OP_CALL_EXTERNAL_DYN := 0x31 (only parsing).
Abbreviation OP_MAKE_INTERFACE := 0x32 (only parsing).
Abbreviation OP_PMAP_ENTRIES := 0x33 (only parsing).
Abbreviation OP_PMAP_KEYS := 0x34 (only parsing).
Abbreviation OP_PMAP_VALUES := 0x35 (only parsing).
Abbreviation OP_PVEC_TO_ARRAY := 0x36 (only parsing).
Abbreviation OP_PMAP_APPEND_UNIQUE := 0x37 (only parsing).
Abbreviation OP_PMAP_PUT_UNIQUE := 0x38 (only parsing).
Abbreviation OP_PMAP_WALK_INIT := 0x39 (only parsing).
Abbreviation OP_PMAP_WALK_NEXT := 0x3a (only parsing).
Abbreviation OP_PBTREE_GET := 0x3b (only parsing).
Abbreviation OP_PBTREE_PUT := 0x3c (only parsing).
Abbreviation OP_PBTREE_CONTAINS := 0x3d (only parsing).
Abbreviation OP_PBTREE_RANGE := 0x3e (only parsing).
Abbreviation OP_PBTREE_WALK_INIT := 0x3f (only parsing).
Abbreviation OP_PBTREE_WALK_NEXT := 0x40 (only parsing).
Abbreviation OP_PBTREE_PUT_UNIQUE := 0x41 (only parsing).
Abbreviation OP_PBTREE_APPEND_UNIQUE := 0x42 (only parsing).
Abbreviation OP_PMAP_DELETE := 0x43 (only parsing).
Abbreviation OP_PBTREE_DELETE := 0x44 (only parsing).
Abbreviation OP_PMAP_REMOVE_UNIQUE := 0x45 (only parsing).
Abbreviation OP_PMAP_REMOVE_FROM_LIST := 0x46 (only parsing).
Abbreviation OP_PBTREE_REMOVE_UNIQUE := 0x47 (only parsing).
Abbreviation OP_PBTREE_REMOVE_FROM_LIST := 0x48 (only parsing).
Abbreviation OP_PARALLEL_BEGIN := 0x49 (only parsing).
Abbreviation OP_PARALLEL_YIELD := 0x4a (only parsing).
Abbreviation OP_PARALLEL_FOR_BEGIN := 0x4b (only parsing).
Abbreviation OP_ARRAY_ALLOC := 0x4c (only parsing).
Abbreviation OP_RESERVE := 0x4d (only parsing).
Abbreviation OP_PARALLEL_FOR_SKIP := 0x4e (only parsing).
