(* ===== verification/ArtifactInstr.v ===== *)
(** The instruction codec of artifacts ([crates/rend/src/artifact.rs]
    [write_instr], [read_instr]): a tag byte, then the operands in the order of the
    source. *)
From S2P Require Import Prelude Bytes Values Serialize JsonText Display Ops Bytecode ArtifactBase.

(** ** Operators *)
Definition binop_to_byte (op : BinOp) : Z :=
  match op with
  | Add => 0x01 | Sub => 0x02 | Mul => 0x03 | Div => 0x04 | Mod => 0x05
  | Eq => 0x06 | NotEq => 0x07 | Lt => 0x08 | Gt => 0x09
  | LtEq => 0x0a | GtEq => 0x0b
  | And => 0x0c | Or => 0x0d
  | BitAnd => 0x0e | BitOr => 0x0f | BitXor => 0x10
  | Shl => 0x11 | Shr => 0x12
  end.

(** [0x{other:02x}]. *)
Definition hex02 (b : Z) : string := "0x" +:+ text (hex_byte b).

Definition binop_from_byte (b : Z) : RD BinOp :=
  match b with
  | 0x01 => mret Add | 0x02 => mret Sub | 0x03 => mret Mul | 0x04 => mret Div | 0x05 => mret Mod
  | 0x06 => mret Eq | 0x07 => mret NotEq | 0x08 => mret Lt | 0x09 => mret Gt
  | 0x0a => mret LtEq | 0x0b => mret GtEq
  | 0x0c => mret And | 0x0d => mret Or
  | 0x0e => mret BitAnd | 0x0f => mret BitOr | 0x10 => mret BitXor
  | 0x11 => mret Shl | 0x12 => mret Shr
  | other => reject ("unknown binop byte " +:+ hex02 other)
  end.

Definition unop_to_byte (op : UnOp) : Z := match op with Neg => 0x01 | Not => 0x02 end.

Definition unop_from_byte (b : Z) : RD UnOp :=
  match b with
  | 0x01 => mret Neg
  | 0x02 => mret Not
  | other => reject ("unknown unop byte " +:+ hex02 other)
  end.

(** ** Writing *)
Definition write_range (r : ParallelRange) : bytes :=
  write_u32 (pr_start r) ++ write_u32 (pr_end r) ++ write_opt write_u16 (pr_dst r).

Definition write_instr (instr : Instr) : bytes :=
  match instr with
  | LoadConst dst idx =>
      write_u8 OP_LOAD_CONST ++ write_u16 dst ++ write_u16 idx
  | Move dst src =>
      write_u8 OP_MOVE ++ write_u16 dst ++ write_u16 src
  | Bin op dst lhs rhs =>
      write_u8 OP_BIN ++ write_u8 (binop_to_byte op) ++ write_u16 dst ++ write_u16 lhs ++ write_u16 rhs
  | Un op dst src =>
      write_u8 OP_UN ++ write_u8 (unop_to_byte op) ++ write_u16 dst ++ write_u16 src
  | Jump offset =>
      write_u8 OP_JUMP ++ write_i32 offset
  | JumpIfFalse cond offset =>
      write_u8 OP_JUMP_IF_FALSE ++ write_u16 cond ++ write_i32 offset
  | Call dst fn_idx args_start n_args =>
      write_u8 OP_CALL ++ write_u16 dst ++ write_u16 fn_idx ++ write_u16 args_start ++ write_u8 n_args
  | CallHost dst import_idx args_start n_args =>
      write_u8 OP_CALL_HOST ++ write_u16 dst ++ write_u16 import_idx ++ write_u16 args_start ++
      write_u8 n_args
  | CallExternal dst module_name_idx fn_name_idx args_start n_args is_view is_pure =>
      write_u8 OP_CALL_EXTERNAL ++ write_u16 dst ++ write_u16 module_name_idx ++
      write_u16 fn_name_idx ++ write_u16 args_start ++ write_u8 n_args ++ write_bool is_view ++
      write_bool is_pure
  | Return src =>
      write_u8 OP_RETURN ++ write_u16 src
  | ReturnUnit =>
      write_u8 OP_RETURN_UNIT
  | BuiltinResource dst src =>
      write_u8 OP_BUILTIN_RESOURCE ++ write_u16 dst ++ write_u16 src
  | BuiltinUnwrap dst src =>
      write_u8 OP_BUILTIN_UNWRAP ++ write_u16 dst ++ write_u16 src
  | BuiltinAddress dst src =>
      write_u8 OP_BUILTIN_ADDRESS ++ write_u16 dst ++ write_u16 src
  | BuiltinLen dst src =>
      write_u8 OP_BUILTIN_LEN ++ write_u16 dst ++ write_u16 src
  | Convert dst src target =>
      write_u8 OP_CONVERT ++ write_u16 dst ++ write_u16 src ++ write_u8 target
  | MakeArray dst args_start n =>
      write_u8 OP_MAKE_ARRAY ++ write_u16 dst ++ write_u16 args_start ++ write_u16 n
  | ArrayGet dst arr idx =>
      write_u8 OP_ARRAY_GET ++ write_u16 dst ++ write_u16 arr ++ write_u16 idx
  | ArrayAppend dst arr elem =>
      write_u8 OP_ARRAY_APPEND ++ write_u16 dst ++ write_u16 arr ++ write_u16 elem
  | MakeSet dst args_start n =>
      write_u8 OP_MAKE_SET ++ write_u16 dst ++ write_u16 args_start ++ write_u16 n
  | MakeDict dst args_start n_pairs =>
      write_u8 OP_MAKE_DICT ++ write_u16 dst ++ write_u16 args_start ++ write_u16 n_pairs
  | BuiltinCall dst name_idx args_start n_args =>
      write_u8 OP_BUILTIN_CALL ++ write_u16 dst ++ write_u16 name_idx ++ write_u16 args_start ++
      write_u8 n_args
  | MakeStruct dst shape_idx args_start n =>
      write_u8 OP_MAKE_STRUCT ++ write_u16 dst ++ write_u16 shape_idx ++ write_u16 args_start ++ write_u16 n
  | FieldGet dst src name_idx =>
      write_u8 OP_FIELD_GET ++ write_u16 dst ++ write_u16 src ++ write_u16 name_idx
  | FieldSet dst name_idx val =>
      write_u8 OP_FIELD_SET ++ write_u16 dst ++ write_u16 name_idx ++ write_u16 val
  | KvGet dst key_idx =>
      write_u8 OP_KV_GET ++ write_u16 dst ++ write_u16 key_idx
  | KvPut src key_idx =>
      write_u8 OP_KV_PUT ++ write_u16 src ++ write_u16 key_idx
  | KvGetPath dst path_idx =>
      write_u8 OP_KV_GET_PATH ++ write_u16 dst ++ write_u16 path_idx
  | KvPutPath src path_idx =>
      write_u8 OP_KV_PUT_PATH ++ write_u16 src ++ write_u16 path_idx
  | ReadBatch group_idx =>
      write_u8 OP_READ_BATCH ++ write_u16 group_idx
  | PrefetchMap arr_reg state_idx =>
      write_u8 OP_PREFETCH_MAP ++ write_u16 arr_reg ++ write_u16 state_idx
  | Emit value =>
      write_u8 OP_EMIT ++ write_u16 value
  | ParallelBegin ranges after_pc =>
      write_u8 OP_PARALLEL_BEGIN ++ write_list write_range ranges ++ write_u32 after_pc
  | ParallelYield value =>
      write_u8 OP_PARALLEL_YIELD ++ write_opt write_u16 value
  | ParallelForBegin body_start body_end source_reg output_reg id_reg idx_reg after_pc =>
      write_u8 OP_PARALLEL_FOR_BEGIN ++ write_u32 body_start ++ write_u32 body_end ++
      write_u16 source_reg ++ write_u16 output_reg ++ write_u16 id_reg ++ write_u16 idx_reg ++
      write_u32 after_pc
  | ArrayAlloc dst len_reg default_reg =>
      write_u8 OP_ARRAY_ALLOC ++ write_u16 dst ++ write_u16 len_reg ++ write_u16 default_reg
  | Reserve dst state_idx count_reg =>
      write_u8 OP_RESERVE ++ write_u16 dst ++ write_u16 state_idx ++ write_u16 count_reg
  | ParallelForSkip =>
      write_u8 OP_PARALLEL_FOR_SKIP
  | Context dst kind =>
      write_u8 OP_CONTEXT ++ write_u16 dst ++ write_u8 kind
  | MakeTuple dst args_start n =>
      write_u8 OP_MAKE_TUPLE ++ write_u16 dst ++ write_u16 args_start ++ write_u16 n
  | TupleGet dst src index =>
      write_u8 OP_TUPLE_GET ++ write_u16 dst ++ write_u16 src ++ write_u16 index
  | MakeEnum dst shape_idx variant_idx args_start n =>
      write_u8 OP_MAKE_ENUM ++ write_u16 dst ++ write_u16 shape_idx ++ write_u16 variant_idx ++
      write_u16 args_start ++ write_u16 n
  | EnumTag dst src =>
      write_u8 OP_ENUM_TAG ++ write_u16 dst ++ write_u16 src
  | EnumPayload dst src index =>
      write_u8 OP_ENUM_PAYLOAD ++ write_u16 dst ++ write_u16 src ++ write_u16 index
  | MapGet dst state_idx key_reg =>
      write_u8 OP_MAP_GET ++ write_u16 dst ++ write_u16 state_idx ++ write_u16 key_reg
  | MapPut state_idx key_reg src =>
      write_u8 OP_MAP_PUT ++ write_u16 state_idx ++ write_u16 key_reg ++ write_u16 src
  | PMapGet dst state_idx key_reg =>
      write_u8 OP_PMAP_GET ++ write_u16 dst ++ write_u16 state_idx ++ write_u16 key_reg
  | PMapPut state_idx key_reg src =>
      write_u8 OP_PMAP_PUT ++ write_u16 state_idx ++ write_u16 key_reg ++ write_u16 src
  | PMapContains dst state_idx key_reg =>
      write_u8 OP_PMAP_CONTAINS ++ write_u16 dst ++ write_u16 state_idx ++ write_u16 key_reg
  | PVecGet dst state_idx idx_reg =>
      write_u8 OP_PVEC_GET ++ write_u16 dst ++ write_u16 state_idx ++ write_u16 idx_reg
  | PVecSet state_idx idx_reg src =>
      write_u8 OP_PVEC_SET ++ write_u16 state_idx ++ write_u16 idx_reg ++ write_u16 src
  | PVecPush dst state_idx src =>
      write_u8 OP_PVEC_PUSH ++ write_u16 dst ++ write_u16 state_idx ++ write_u16 src
  | PVecLen dst state_idx =>
      write_u8 OP_PVEC_LEN ++ write_u16 dst ++ write_u16 state_idx
  | IncReg reg =>
      write_u8 OP_INC_REG ++ write_u16 reg
  | CallExternalDyn dst target_reg fn_name_idx args_start n_args is_view is_pure =>
      write_u8 OP_CALL_EXTERNAL_DYN ++ write_u16 dst ++ write_u16 target_reg ++ write_u16 fn_name_idx ++
      write_u16 args_start ++ write_u8 n_args ++ write_bool is_view ++ write_bool is_pure
  | MakeInterface dst iface_name_idx target_reg =>
      write_u8 OP_MAKE_INTERFACE ++ write_u16 dst ++ write_u16 iface_name_idx ++ write_u16 target_reg
  | PMapEntries dst state_idx =>
      write_u8 OP_PMAP_ENTRIES ++ write_u16 dst ++ write_u16 state_idx
  | PMapKeys dst state_idx =>
      write_u8 OP_PMAP_KEYS ++ write_u16 dst ++ write_u16 state_idx
  | PMapValues dst state_idx =>
      write_u8 OP_PMAP_VALUES ++ write_u16 dst ++ write_u16 state_idx
  | PVecToArray dst state_idx =>
      write_u8 OP_PVEC_TO_ARRAY ++ write_u16 dst ++ write_u16 state_idx
  | PMapAppendUnique state_idx key_reg elem_reg =>
      write_u8 OP_PMAP_APPEND_UNIQUE ++ write_u16 state_idx ++ write_u16 key_reg ++ write_u16 elem_reg
  | PMapPutUnique state_idx key_reg src =>
      write_u8 OP_PMAP_PUT_UNIQUE ++ write_u16 state_idx ++ write_u16 key_reg ++ write_u16 src
  | PMapWalkInit dst state_idx =>
      write_u8 OP_PMAP_WALK_INIT ++ write_u16 dst ++ write_u16 state_idx
  | PMapWalkNext cursor_reg value_reg end_offset =>
      write_u8 OP_PMAP_WALK_NEXT ++ write_u16 cursor_reg ++ write_u16 value_reg ++ write_i32 end_offset
  | PBTreeGet dst state_idx key_reg =>
      write_u8 OP_PBTREE_GET ++ write_u16 dst ++ write_u16 state_idx ++ write_u16 key_reg
  | PBTreePut state_idx key_reg src =>
      write_u8 OP_PBTREE_PUT ++ write_u16 state_idx ++ write_u16 key_reg ++ write_u16 src
  | PBTreeContains dst state_idx key_reg =>
      write_u8 OP_PBTREE_CONTAINS ++ write_u16 dst ++ write_u16 state_idx ++ write_u16 key_reg
  | PBTreeRange dst state_idx lo_reg hi_reg =>
      write_u8 OP_PBTREE_RANGE ++ write_u16 dst ++ write_u16 state_idx ++ write_u16 lo_reg ++ write_u16 hi_reg
  | PBTreeWalkInit dst state_idx =>
      write_u8 OP_PBTREE_WALK_INIT ++ write_u16 dst ++ write_u16 state_idx
  | PBTreeWalkNext cursor_reg value_reg end_offset =>
      write_u8 OP_PBTREE_WALK_NEXT ++ write_u16 cursor_reg ++ write_u16 value_reg ++ write_i32 end_offset
  | PBTreePutUnique state_idx key_reg src =>
      write_u8 OP_PBTREE_PUT_UNIQUE ++ write_u16 state_idx ++ write_u16 key_reg ++ write_u16 src
  | PBTreeAppendUnique state_idx key_reg elem_reg =>
      write_u8 OP_PBTREE_APPEND_UNIQUE ++ write_u16 state_idx ++ write_u16 key_reg ++ write_u16 elem_reg
  | PMapDelete state_idx key_reg =>
      write_u8 OP_PMAP_DELETE ++ write_u16 state_idx ++ write_u16 key_reg
  | PBTreeDelete state_idx key_reg =>
      write_u8 OP_PBTREE_DELETE ++ write_u16 state_idx ++ write_u16 key_reg
  | PMapRemoveUnique state_idx key_reg expected_reg =>
      write_u8 OP_PMAP_REMOVE_UNIQUE ++ write_u16 state_idx ++ write_u16 key_reg ++ write_u16 expected_reg
  | PMapRemoveFromList state_idx key_reg elem_reg =>
      write_u8 OP_PMAP_REMOVE_FROM_LIST ++ write_u16 state_idx ++ write_u16 key_reg ++ write_u16 elem_reg
  | PBTreeRemoveUnique state_idx key_reg expected_reg =>
      write_u8 OP_PBTREE_REMOVE_UNIQUE ++ write_u16 state_idx ++ write_u16 key_reg ++ write_u16 expected_reg
  | PBTreeRemoveFromList state_idx key_reg elem_reg =>
      write_u8 OP_PBTREE_REMOVE_FROM_LIST ++ write_u16 state_idx ++ write_u16 key_reg ++ write_u16 elem_reg
  end.

(** ** Reading *)
Definition read_range : RD ParallelRange :=
  start ← read_u32;
  end_ ← read_u32;
  dst ← read_opt read_u16;
  mret (mkRange start end_ dst).

(** The operands behind a tag. *)
Definition read_operands (tag : Z) : RD Instr :=
  match tag with
  | OP_LOAD_CONST =>
      dst ← read_u16; idx ← read_u16; mret (LoadConst dst idx)
  | OP_MOVE =>
      dst ← read_u16; src ← read_u16; mret (Move dst src)
  | OP_BIN =>
      b ← read_u8; op ← binop_from_byte b; dst ← read_u16; lhs ← read_u16; rhs ← read_u16;
      mret (Bin op dst lhs rhs)
  | OP_UN =>
      b ← read_u8; op ← unop_from_byte b; dst ← read_u16; src ← read_u16; mret (Un op dst src)
  | OP_JUMP =>
      offset ← read_i32; mret (Jump offset)
  | OP_JUMP_IF_FALSE =>
      cond ← read_u16; offset ← read_i32; mret (JumpIfFalse cond offset)
  | OP_CALL =>
      dst ← read_u16; fn_idx ← read_u16; args_start ← read_u16; n_args ← read_u8;
      mret (Call dst fn_idx args_start n_args)
  | OP_CALL_HOST =>
      dst ← read_u16; import_idx ← read_u16; args_start ← read_u16; n_args ← read_u8;
      mret (CallHost dst import_idx args_start n_args)
  | OP_CALL_EXTERNAL =>
      dst ← read_u16; module_name_idx ← read_u16; fn_name_idx ← read_u16; args_start ← read_u16;
      n_args ← read_u8; is_view ← read_bool; is_pure ← read_bool;
      mret (CallExternal dst module_name_idx fn_name_idx args_start n_args is_view is_pure)
  | OP_RETURN =>
      src ← read_u16; mret (Return src)
  | OP_RETURN_UNIT =>
      mret ReturnUnit
  | OP_BUILTIN_RESOURCE =>
      dst ← read_u16; src ← read_u16; mret (BuiltinResource dst src)
  | OP_BUILTIN_UNWRAP =>
      dst ← read_u16; src ← read_u16; mret (BuiltinUnwrap dst src)
  | OP_BUILTIN_ADDRESS =>
      dst ← read_u16; src ← read_u16; mret (BuiltinAddress dst src)
  | OP_BUILTIN_LEN =>
      dst ← read_u16; src ← read_u16; mret (BuiltinLen dst src)
  | OP_CONVERT =>
      dst ← read_u16; src ← read_u16; target ← read_u8; mret (Convert dst src target)
  | OP_MAKE_ARRAY =>
      dst ← read_u16; args_start ← read_u16; n ← read_u16; mret (MakeArray dst args_start n)
  | OP_ARRAY_GET =>
      dst ← read_u16; arr ← read_u16; idx ← read_u16; mret (ArrayGet dst arr idx)
  | OP_ARRAY_APPEND =>
      dst ← read_u16; arr ← read_u16; elem ← read_u16; mret (ArrayAppend dst arr elem)
  | OP_MAKE_SET =>
      dst ← read_u16; args_start ← read_u16; n ← read_u16; mret (MakeSet dst args_start n)
  | OP_MAKE_DICT =>
      dst ← read_u16; args_start ← read_u16; n_pairs ← read_u16; mret (MakeDict dst args_start n_pairs)
  | OP_BUILTIN_CALL =>
      dst ← read_u16; name_idx ← read_u16; args_start ← read_u16; n_args ← read_u8;
      mret (BuiltinCall dst name_idx args_start n_args)
  | OP_MAKE_STRUCT =>
      dst ← read_u16; shape_idx ← read_u16; args_start ← read_u16; n ← read_u16;
      mret (MakeStruct dst shape_idx args_start n)
  | OP_FIELD_GET =>
      dst ← read_u16; src ← read_u16; name_idx ← read_u16; mret (FieldGet dst src name_idx)
  | OP_FIELD_SET =>
      dst ← read_u16; name_idx ← read_u16; val ← read_u16; mret (FieldSet dst name_idx val)
  | OP_KV_GET =>
      dst ← read_u16; key_idx ← read_u16; mret (KvGet dst key_idx)
  | OP_KV_PUT =>
      src ← read_u16; key_idx ← read_u16; mret (KvPut src key_idx)
  | OP_KV_GET_PATH =>
      dst ← read_u16; path_idx ← read_u16; mret (KvGetPath dst path_idx)
  | OP_KV_PUT_PATH =>
      src ← read_u16; path_idx ← read_u16; mret (KvPutPath src path_idx)
  | OP_READ_BATCH =>
      group_idx ← read_u16; mret (ReadBatch group_idx)
  | OP_PREFETCH_MAP =>
      arr_reg ← read_u16; state_idx ← read_u16; mret (PrefetchMap arr_reg state_idx)
  | OP_EMIT =>
      value ← read_u16; mret (Emit value)
  | OP_PARALLEL_BEGIN =>
      ranges ← read_list read_range; after_pc ← read_u32; mret (ParallelBegin ranges after_pc)
  | OP_PARALLEL_YIELD =>
      value ← read_opt read_u16; mret (ParallelYield value)
  | OP_PARALLEL_FOR_BEGIN =>
      body_start ← read_u32; body_end ← read_u32; source_reg ← read_u16; output_reg ← read_u16;
      id_reg ← read_u16; idx_reg ← read_u16; after_pc ← read_u32;
      mret (ParallelForBegin body_start body_end source_reg output_reg id_reg idx_reg after_pc)
  | OP_ARRAY_ALLOC =>
      dst ← read_u16; len_reg ← read_u16; default_reg ← read_u16; mret (ArrayAlloc dst len_reg default_reg)
  | OP_RESERVE =>
      dst ← read_u16; state_idx ← read_u16; count_reg ← read_u16; mret (Reserve dst state_idx count_reg)
  | OP_PARALLEL_FOR_SKIP =>
      mret ParallelForSkip
  | OP_CONTEXT =>
      dst ← read_u16; kind ← read_u8; mret (Context dst kind)
  | OP_MAKE_TUPLE =>
      dst ← read_u16; args_start ← read_u16; n ← read_u16; mret (MakeTuple dst args_start n)
  | OP_TUPLE_GET =>
      dst ← read_u16; src ← read_u16; index ← read_u16; mret (TupleGet dst src index)
  | OP_MAKE_ENUM =>
      dst ← read_u16; shape_idx ← read_u16; variant_idx ← read_u16; args_start ← read_u16; n ← read_u16;
      mret (MakeEnum dst shape_idx variant_idx args_start n)
  | OP_ENUM_TAG =>
      dst ← read_u16; src ← read_u16; mret (EnumTag dst src)
  | OP_ENUM_PAYLOAD =>
      dst ← read_u16; src ← read_u16; index ← read_u16; mret (EnumPayload dst src index)
  | OP_MAP_GET =>
      dst ← read_u16; state_idx ← read_u16; key_reg ← read_u16; mret (MapGet dst state_idx key_reg)
  | OP_MAP_PUT =>
      state_idx ← read_u16; key_reg ← read_u16; src ← read_u16; mret (MapPut state_idx key_reg src)
  | OP_PMAP_GET =>
      dst ← read_u16; state_idx ← read_u16; key_reg ← read_u16; mret (PMapGet dst state_idx key_reg)
  | OP_PMAP_PUT =>
      state_idx ← read_u16; key_reg ← read_u16; src ← read_u16; mret (PMapPut state_idx key_reg src)
  | OP_PMAP_CONTAINS =>
      dst ← read_u16; state_idx ← read_u16; key_reg ← read_u16; mret (PMapContains dst state_idx key_reg)
  | OP_PVEC_GET =>
      dst ← read_u16; state_idx ← read_u16; idx_reg ← read_u16; mret (PVecGet dst state_idx idx_reg)
  | OP_PVEC_SET =>
      state_idx ← read_u16; idx_reg ← read_u16; src ← read_u16; mret (PVecSet state_idx idx_reg src)
  | OP_PVEC_PUSH =>
      dst ← read_u16; state_idx ← read_u16; src ← read_u16; mret (PVecPush dst state_idx src)
  | OP_PVEC_LEN =>
      dst ← read_u16; state_idx ← read_u16; mret (PVecLen dst state_idx)
  | OP_INC_REG =>
      reg ← read_u16; mret (IncReg reg)
  | OP_CALL_EXTERNAL_DYN =>
      dst ← read_u16; target_reg ← read_u16; fn_name_idx ← read_u16; args_start ← read_u16;
      n_args ← read_u8; is_view ← read_bool; is_pure ← read_bool;
      mret (CallExternalDyn dst target_reg fn_name_idx args_start n_args is_view is_pure)
  | OP_MAKE_INTERFACE =>
      dst ← read_u16; iface_name_idx ← read_u16; target_reg ← read_u16;
      mret (MakeInterface dst iface_name_idx target_reg)
  | OP_PMAP_ENTRIES =>
      dst ← read_u16; state_idx ← read_u16; mret (PMapEntries dst state_idx)
  | OP_PMAP_KEYS =>
      dst ← read_u16; state_idx ← read_u16; mret (PMapKeys dst state_idx)
  | OP_PMAP_VALUES =>
      dst ← read_u16; state_idx ← read_u16; mret (PMapValues dst state_idx)
  | OP_PVEC_TO_ARRAY =>
      dst ← read_u16; state_idx ← read_u16; mret (PVecToArray dst state_idx)
  | OP_PMAP_APPEND_UNIQUE =>
      state_idx ← read_u16; key_reg ← read_u16; elem_reg ← read_u16;
      mret (PMapAppendUnique state_idx key_reg elem_reg)
  | OP_PMAP_PUT_UNIQUE =>
      state_idx ← read_u16; key_reg ← read_u16; src ← read_u16; mret (PMapPutUnique state_idx key_reg src)
  | OP_PMAP_WALK_INIT =>
      dst ← read_u16; state_idx ← read_u16; mret (PMapWalkInit dst state_idx)
  | OP_PMAP_WALK_NEXT =>
      cursor_reg ← read_u16; value_reg ← read_u16; end_offset ← read_i32;
      mret (PMapWalkNext cursor_reg value_reg end_offset)
  | OP_PBTREE_GET =>
      dst ← read_u16; state_idx ← read_u16; key_reg ← read_u16; mret (PBTreeGet dst state_idx key_reg)
  | OP_PBTREE_PUT =>
      state_idx ← read_u16; key_reg ← read_u16; src ← read_u16; mret (PBTreePut state_idx key_reg src)
  | OP_PBTREE_CONTAINS =>
      dst ← read_u16; state_idx ← read_u16; key_reg ← read_u16; mret (PBTreeContains dst state_idx key_reg)
  | OP_PBTREE_RANGE =>
      dst ← read_u16; state_idx ← read_u16; lo_reg ← read_u16; hi_reg ← read_u16;
      mret (PBTreeRange dst state_idx lo_reg hi_reg)
  | OP_PBTREE_WALK_INIT =>
      dst ← read_u16; state_idx ← read_u16; mret (PBTreeWalkInit dst state_idx)
  | OP_PBTREE_WALK_NEXT =>
      cursor_reg ← read_u16; value_reg ← read_u16; end_offset ← read_i32;
      mret (PBTreeWalkNext cursor_reg value_reg end_offset)
  | OP_PBTREE_PUT_UNIQUE =>
      state_idx ← read_u16; key_reg ← read_u16; src ← read_u16; mret (PBTreePutUnique state_idx key_reg src)
  | OP_PBTREE_APPEND_UNIQUE =>
      state_idx ← read_u16; key_reg ← read_u16; elem_reg ← read_u16;
      mret (PBTreeAppendUnique state_idx key_reg elem_reg)
  | OP_PMAP_DELETE =>
      state_idx ← read_u16; key_reg ← read_u16; mret (PMapDelete state_idx key_reg)
  | OP_PBTREE_DELETE =>
      state_idx ← read_u16; key_reg ← read_u16; mret (PBTreeDelete state_idx key_reg)
  | OP_PMAP_REMOVE_UNIQUE =>
      state_idx ← read_u16; key_reg ← read_u16; expected_reg ← read_u16;
      mret (PMapRemoveUnique state_idx key_reg expected_reg)
  | OP_PMAP_REMOVE_FROM_LIST =>
      state_idx ← read_u16; key_reg ← read_u16; elem_reg ← read_u16;
      mret (PMapRemoveFromList state_idx key_reg elem_reg)
  | OP_PBTREE_REMOVE_UNIQUE =>
      state_idx ← read_u16; key_reg ← read_u16; expected_reg ← read_u16;
      mret (PBTreeRemoveUnique state_idx key_reg expected_reg)
  | OP_PBTREE_REMOVE_FROM_LIST =>
      state_idx ← read_u16; key_reg ← read_u16; elem_reg ← read_u16;
      mret (PBTreeRemoveFromList state_idx key_reg elem_reg)
  | other => reject ("unknown instruction tag " +:+ hex02 other)
  end.

Definition read_instr : RD Instr := tag ← read_u8; read_operands tag.
