(* ===== verification/Artifact.v ===== *)
(** Compiled artifacts ([crates/rend/src/artifact.rs]): modules as one byte
    string, written, read back and named by the hash of the bytes. *)
From S2P Require Import Prelude Bytes Hashing Values Serialize JsonText Display Ops Bytecode ArtifactBase ArtifactInstr.

Section codec.
Context `{BigIntCodec}.

(** ** Constants and reads *)
Definition write_const (c : Const) : bytes :=
  match c with
  | CInt n => write_u8 CONST_INT ++ write_str (to_signed_bytes_be n)
  | CUInt n => write_u8 CONST_UINT ++ write_str (to_signed_bytes_be n)
  | CFloat n => write_u8 CONST_FLOAT ++ be_bytes 8 n
  | CI32 n => write_u8 CONST_I32 ++ write_i32 n
  | CU32 n => write_u8 CONST_U32 ++ write_u32 n
  | CU64 n => write_u8 CONST_U64 ++ write_u64 n
  | CU128 n => write_u8 CONST_U128 ++ write_u128 n
  | CBool b => write_u8 CONST_BOOL ++ write_bool b
  | CStr s => write_u8 CONST_STR ++ write_str s
  end.

(** The length-prefixed bytes of an unbounded integer. *)
Definition read_bigint : RD Z :=
  n ← read_u32; b ← take_bytes n; mret (from_signed_bytes_be b).

Definition read_const_body (tag : Z) : RD Const :=
  match tag with
  | CONST_INT => n ← read_bigint; mret (CInt n)
  | CONST_UINT => n ← read_bigint; mret (CUInt n)
  | CONST_FLOAT => b ← take_bytes 8; mret (CFloat (be_value b))
  | CONST_I32 => n ← read_i32; mret (CI32 n)
  | CONST_U32 => n ← read_u32; mret (CU32 n)
  | CONST_U64 => n ← read_u64; mret (CU64 n)
  | CONST_U128 => n ← read_u128; mret (CU128 n)
  | CONST_BOOL => b ← read_bool; mret (CBool b)
  | CONST_STR => s ← read_str; mret (CStr s)
  | other => reject ("unknown const tag " +:+ hex02 other)
  end.
Definition read_const : RD Const := tag ← read_u8; read_const_body tag.
End codec.

Definition write_read_op (op : ReadOp) : bytes :=
  match op with
  | RState dst key_idx => write_u8 0x01 ++ write_u16 dst ++ write_u16 key_idx
  | RPath dst path_idx => write_u8 0x02 ++ write_u16 dst ++ write_u16 path_idx
  end.

Definition read_read_op : RD ReadOp :=
  tag ← read_u8;
  match tag with
  | 0x01 => dst ← read_u16; key_idx ← read_u16; mret (RState dst key_idx)
  | 0x02 => dst ← read_u16; path_idx ← read_u16; mret (RPath dst path_idx)
  | other => reject ("unknown read-op tag " +:+ hex02 other)
  end.

(** ** Types *)

(** The fields with their groups, [field_groups.get(i).and_then(..)]: a missing
    entry is no group. *)
Section write_fields.
Context (write_type : Ty → bytes).
Fixpoint write_fields (fields : list (bytes * Ty)) (groups : list (option bytes)) : bytes :=
  match fields with
  | [] => []
  | (n, t) :: fields' =>
      write_str n ++ write_type t ++ write_opt write_str (mjoin (head groups)) ++
      write_fields fields' (tail groups)
  end.
End write_fields.

Fixpoint write_type (ty : Ty) : bytes :=
  match ty with
  | TInt => write_u8 TY_INT
  | TUInt => write_u8 TY_UINT
  | TFloat => write_u8 TY_FLOAT
  | TI32 => write_u8 TY_I32
  | TU32 => write_u8 TY_U32
  | TU64 => write_u8 TY_U64
  | TU128 => write_u8 TY_U128
  | TBool => write_u8 TY_BOOL
  | TUnit => write_u8 TY_UNIT
  | TResource => write_u8 TY_RESOURCE
  | TString => write_u8 TY_STRING
  | TAddress => write_u8 TY_ADDRESS
  | TBytes => write_u8 TY_BYTES
  | TArray elem => write_u8 TY_ARRAY ++ write_type elem
  | TExplicitLiteral inner => write_type inner
  | TSet elem => write_u8 TY_SET ++ write_type elem
  | TDict key value => write_u8 TY_DICT ++ write_type key ++ write_type value
  | TMap key value => write_u8 TY_MAP ++ write_type key ++ write_type value
  | TPMap key value => write_u8 TY_PMAP ++ write_type key ++ write_type value
  | TPBTree key value => write_u8 TY_PBTREE ++ write_type key ++ write_type value
  | TJson => write_u8 TY_JSON
  | TPVec elem => write_u8 TY_PVEC ++ write_type elem
  | TStruct name fields groups =>
      write_u8 TY_STRUCT ++ write_str name ++ write_u32 (zlen fields) ++
      write_fields write_type fields groups
  | TTuple elems => write_u8 TY_TUPLE ++ write_list write_type elems
  | TEnum name variants =>
      write_u8 TY_ENUM ++ write_str name ++
      write_list (λ p, write_str p.1 ++ write_list write_type p.2) variants
  | TCap name fields owner_module =>
      write_u8 TY_CAP ++ write_str name ++ write_str owner_module ++
      write_list (λ p, write_str p.1 ++ write_type p.2) fields
  | TInterface name methods =>
      write_u8 TY_INTERFACE ++ write_str name ++ write_list write_sig methods
  end
with write_sig (m : InterfaceMethodSig) : bytes :=
  match m with
  | mkMethodSig name params return_type is_view is_pure =>
      write_str name ++ write_bool is_view ++ write_bool is_pure ++
      write_list write_type params ++ write_type return_type
  end.

(** All groups absent is the empty list. *)
Definition normal_groups (groups : list (option bytes)) : list (option bytes) :=
  if forallb (λ g, negb (bool_decide (is_Some g))) groups then [] else groups.

Section read_type.
Context (read_type : RD Ty).

Definition read_pair (mk : Ty → Ty → Ty) : RD Ty := k ← read_type; v ← read_type; mret (mk k v).
Definition read_named : RD (bytes * Ty) := n ← read_str; t ← read_type; mret (n, t).
Definition read_grouped : RD (bytes * Ty * option bytes) :=
  n ← read_str; t ← read_type; g ← read_opt read_str; mret (n, t, g).
Definition read_variant : RD (bytes * list Ty) :=
  n ← read_str; payload ← read_list read_type; mret (n, payload).
Definition read_sig : RD InterfaceMethodSig :=
  name ← read_str; is_view ← read_bool; is_pure ← read_bool;
  params ← read_list read_type; return_type ← read_type;
  mret (mkMethodSig name params return_type is_view is_pure).

Definition read_type_body (tag : Z) : RD Ty :=
  match tag with
  | TY_INT => mret TInt
  | TY_UINT => mret TUInt
  | TY_FLOAT => mret TFloat
  | TY_I32 => mret TI32
  | TY_U32 => mret TU32
  | TY_U64 => mret TU64
  | TY_U128 => mret TU128
  | TY_BOOL => mret TBool
  | TY_UNIT => mret TUnit
  | TY_RESOURCE => mret TResource
  | TY_STRING => mret TString
  | TY_ADDRESS => mret TAddress
  | TY_BYTES => mret TBytes
  | TY_ARRAY => t ← read_type; mret (TArray t)
  | TY_SET => t ← read_type; mret (TSet t)
  | TY_DICT => read_pair TDict
  | TY_MAP => read_pair TMap
  | TY_PMAP => read_pair TPMap
  | TY_PBTREE => read_pair TPBTree
  | TY_JSON => mret TJson
  | TY_PVEC => t ← read_type; mret (TPVec t)
  | TY_STRUCT =>
      name ← read_str; fields ← read_list read_grouped;
      mret (TStruct name fields.*1 (normal_groups fields.*2))
  | TY_TUPLE => elems ← read_list read_type; mret (TTuple elems)
  | TY_ENUM => name ← read_str; variants ← read_list read_variant; mret (TEnum name variants)
  | TY_CAP =>
      name ← read_str; owner_module ← read_str; fields ← read_list read_named;
      mret (TCap name fields owner_module)
  | TY_INTERFACE => name ← read_str; methods ← read_list read_sig; mret (TInterface name methods)
  | other => reject ("unknown type tag " +:+ hex02 other)
  end.
End read_type.

(** The source recurses as deep as the bytes say; every level reads a tag, so
    that the length of the input bounds the depth. *)
Fixpoint read_type_f (fuel : nat) : RD Ty :=
  match fuel with
  | O => lift OutOfFuel
  | S fuel' => tag ← read_u8; read_type_body (read_type_f fuel') tag
  end.
Definition read_type : RD Ty := λ r, read_type_f (S (length (r_bytes r))) r.

Definition bytes_le (a b : bytes) : Prop := bytes_leb a b = true.
#[export] Instance bytes_le_dec : RelDecision bytes_le.
Proof. intros a b. unfold bytes_le. apply _. Defined.

(** ** Functions *)
Section functions.
Context `{BigIntCodec}.

Definition write_bcfn (f : BcFn) : bytes :=
  write_str (f_name f) ++ write_u16 (n_params f) ++ write_u16 (n_regs f) ++
  write_bool (is_entry f) ++ write_bool (is_nore f) ++ write_bool (is_view f) ++
  write_bool (is_pure f) ++
  write_list write_type (param_types f) ++ write_type (return_type f) ++
  write_list write_const (consts f) ++ write_list write_instr (code f) ++
  write_list (write_list write_read_op) (read_groups f).

Definition read_bcfn : RD BcFn :=
  name ← read_str; n_params ← read_u16; n_regs ← read_u16;
  is_entry ← read_bool; is_nore ← read_bool; is_view ← read_bool; is_pure ← read_bool;
  param_types ← read_list read_type; return_type ← read_type;
  consts ← read_list read_const; code ← read_list read_instr;
  read_groups ← read_list (read_list read_read_op);
  mret (mkFn name n_params n_regs code consts is_entry is_nore read_groups param_types return_type
    is_view is_pure).

(** ** Modules *)

(** [s.field_types[i]], [s.field_groups[i]]: shorter lists panic. *)
Fixpoint write_shape_fields (names : list bytes) (tys : list Ty) (groups : list (option bytes)) :
    outcome bytes :=
  match names with
  | [] => Ok []
  | n :: names' =>
      t ← or_panic (head tys);
      g ← or_panic (head groups);
      rest ← write_shape_fields names' (tail tys) (tail groups);
      Ok (write_str n ++ write_type t ++ write_opt write_str g ++ rest)
  end.

Definition write_shape (s : StructShape) : outcome bytes :=
  fields ← write_shape_fields (field_names s) (field_types s) (sh_field_groups s);
  Ok (write_str (sh_name s) ++ write_u32 (zlen (field_names s)) ++ fields ++ write_bool (is_pub s)).

Definition write_default (v : Value) : outcome bytes := b ← serialize v; Ok (write_str b).

Definition write_list_out {A} (w : A → outcome bytes) (l : list A) : outcome bytes :=
  bs ← mapM_out w l; Ok (write_u32 (zlen l) ++ concat bs).

Definition write_path (p : PathSpec) : bytes :=
  write_u128 (leaf_key p) ++ write_type (leaf_type p) ++ write_bool (is_blob p).

Definition write_enum (e : EnumShape) : bytes :=
  write_str (en_name e) ++ write_list write_str (variant_names e).

Definition write_method (m : InterfaceMethod) : bytes :=
  write_str (im_name m) ++ write_bool (im_is_view m) ++ write_bool (im_is_pure m) ++
  write_list (λ p, write_str p.1 ++ write_type p.2) (im_params m) ++ write_type (im_return_type m).

Definition write_iface (i : InterfaceDecl) : bytes :=
  write_str (if_name i) ++ write_list write_method (if_methods i).

(** The keys of the handlers, sorted. *)
Definition handler_keys (m : BcModule) : list bytes :=
  merge_sort bytes_le (map_to_list (handler_dispatch m)).*1.

Definition write_handler (m : BcModule) (k : bytes) : bytes :=
  write_str k ++ write_list write_u16 (default [] (handler_dispatch m !! k)).

Definition write_module (m : BcModule) : outcome bytes :=
  defaults ← write_list_out write_default (state_defaults m);
  shapes ← write_list_out write_shape (struct_shapes m);
  Ok (write_str (m_name m) ++ write_list write_str (imports m) ++
    write_list write_u128 (state_roots m) ++ write_list write_type (state_types m) ++
    defaults ++ write_list write_str (state_names m) ++ shapes ++
    write_list write_bcfn (functions m) ++ write_list write_path (path_specs m) ++
    write_list write_enum (enum_shapes m) ++ write_list write_iface (interfaces m) ++
    write_list (write_handler m) (handler_keys m)).

(** [index.insert(name, i)] for the names in order. *)
Definition index_names (names : list bytes) : gmap bytes Z :=
  foldl (λ m p, <[p.2 := Z.of_nat p.1]> m) ∅ (imap pair names).

(** The default of the [i]th state is read at the [i]th type, [Unit] past the
    types. *)
Fixpoint read_defaults (tys : list Ty) (n : nat) : RD (list Value) :=
  match n with
  | O => mret []
  | S n' =>
      len ← read_u32;
      b ← take_bytes len;
      o ← lift (deserialize b (default TUnit (head tys)));
      match o with
      | Some v => vs ← read_defaults (tail tys) n'; mret (v :: vs)
      | None => reject "could not deserialize state default value"
      end
  end.

Definition read_shape : RD StructShape :=
  name ← read_str; fields ← read_list (read_grouped read_type); is_pub ← read_bool;
  mret (mkStructShape name fields.*1.*1 fields.*1.*2 fields.*2 is_pub).

Definition read_path : RD PathSpec :=
  key ← read_u128; ty ← read_type; blob ← read_bool; mret (mkPath key ty blob).

Definition read_enum : RD EnumShape :=
  name ← read_str; variants ← read_list read_str; mret (mkEnumShape name variants).

Definition read_method : RD InterfaceMethod :=
  name ← read_str; is_view ← read_bool; is_pure ← read_bool;
  params ← read_list (read_named read_type); return_type ← read_type;
  mret (mkMethod name params return_type is_view is_pure).

Definition read_iface : RD InterfaceDecl :=
  name ← read_str; methods ← read_list read_method; mret (mkInterface name methods).

Definition read_handler : RD (bytes * list Z) :=
  key ← read_str; idxs ← read_list read_u16; mret (key, idxs).

Definition read_module : RD BcModule :=
  name ← read_str; imports ← read_list read_str;
  state_roots ← read_list read_u128; state_types ← read_list read_type;
  n_defs ← read_u32; state_defaults ← read_defaults state_types (Z.to_nat n_defs);
  state_names ← read_list read_str; struct_shapes ← read_list read_shape;
  functions ← read_list read_bcfn; path_specs ← read_list read_path;
  enum_shapes ← read_list read_enum; interfaces ← read_list read_iface;
  handlers ← read_list read_handler;
  mret (mkModule name imports (index_names imports) state_roots state_types state_defaults
    state_names (index_names state_names) struct_shapes (index_names (sh_name <$> struct_shapes))
    functions (index_names (f_name <$> functions)) path_specs
    (foldl (λ m p, <[p.1 := p.2]> m) ∅ handlers) enum_shapes (index_names (en_name <$> enum_shapes))
    interfaces (index_names (if_name <$> interfaces))).

(** ** Artifacts *)
Definition MAGIC : bytes := str "REND-BC0".
Definition VERSION_MAJOR : Z := 0.
Definition VERSION_MINOR : Z := 17.

Definition encode (modules : list BcModule) : outcome bytes :=
  body ← write_list_out write_module modules;
  Ok (MAGIC ++ write_u8 VERSION_MAJOR ++ write_u8 VERSION_MINOR ++ body).

Definition read_modules : RD (list BcModule) :=
  magic ← take_bytes 8;
  if negb (bool_decide (magic = MAGIC)) then
    reject "artifact magic mismatch — not a REND artifact"
  else
  major ← read_u8;
  minor ← read_u8;
  if negb (major =? VERSION_MAJOR) then
    reject ("unsupported artifact major version " +:+ text (dec major) +:+ "." +:+ text (dec minor)
      +:+ " (this build expects " +:+ text (dec VERSION_MAJOR) +:+ ".x)")
  else
  read_list read_module.

Definition read_artifact : RD (list BcModule) :=
  modules ← read_modules;
  '(len, pos) ← gets (λ r, (zlen (r_bytes r), r_pos r));
  if negb (pos =? len) then
    reject ("artifact has " +:+ text (dec (len - pos)) +:+ " trailing bytes after the last module")
  else mret modules.

Definition decode (bs : bytes) : outcome (list BcModule) := (read_artifact (mkReader bs 0)).1.

Record Artifact := mkArtifact { a_bytes : bytes; content_hash : Z; a_modules : list BcModule }.

Definition from_modules (modules : list BcModule) : outcome Artifact :=
  bs ← encode modules; Ok (mkArtifact bs (child 0 bs) modules).

Definition from_bytes (bs : bytes) : outcome Artifact :=
  modules ← decode bs; Ok (mkArtifact bs (child 0 bs) modules).

(** [main_module]: the only module with a [main]. *)
Fixpoint main_of (ms : list BcModule) (found : option bytes) : outcome (option bytes) :=
  match ms with
  | [] => Ok found
  | m :: ms' =>
      match fn_index m !! str "main" with
      | None => main_of ms' found
      | Some _ =>
          match found with
          | Some _ =>
              Err (mkError TypeError "artifact has more than one module with a `main` fn — ambiguous" Span_default)
          | None => main_of ms' (Some (m_name m))
          end
      end
  end.
Definition main_module (a : Artifact) : outcome (option bytes) := main_of (a_modules a) None.
End functions.
