(* ===== verification/ArtifactTypes.v ===== *)
(** Reading artifacts back: instructions and types.  What reading back means: a reader that consumes exactly the bytes a writer
    produced, wherever they are, with a rule per primitive and combinator. *)
From S2P Require Import Prelude Bytes Hashing Values Serialize SerializeFacts JsonText Display.
From S2P Require Import Ops Bytecode ArtifactBase ArtifactInstr Artifact.
(** ** Round trips *)

(** [p] reads the bytes [e], wherever they are, as [v]. *)
Definition reads {A} (p : RD A) (e : bytes) (v : A) : Prop :=
  ∀ pre post, p (mkReader (pre ++ e ++ post) (zlen pre)) =
    (Ok v, mkReader (pre ++ e ++ post) (zlen (pre ++ e))).

Lemma reads_ret {A} (v : A) : reads (mret v) [] v.
Proof. intros pre post. by rewrite app_nil_r. Qed.

Lemma reads_bind {A B} (p : RD A) (f : A → RD B) e1 e2 x v :
  reads p e1 x → reads (f x) e2 v → reads (p ≫= f) (e1 ++ e2) v.
Proof.
  intros Hp Hf pre post. rewrite <- (app_assoc e1). rewrite (SM_bind_ok _ _ _ _ _ (Hp pre (e2 ++ post))).
  specialize (Hf (pre ++ e1) post). by rewrite <- !app_assoc in Hf.
Qed.

Lemma reads_last {A B} (p : RD A) (f : A → RD B) e x v :
  reads p e x → f x = mret v → reads (p ≫= f) e v.
Proof. intros Hp Hf. rewrite <- (app_nil_r e). eapply reads_bind; [done|]. rewrite Hf. apply reads_ret. Qed.

Lemma reads_map {A B} (p : RD A) (g : A → B) e x :
  reads p e x → reads (x ← p; mret (g x)) e (g x).
Proof. intros Hp. by eapply reads_last. Qed.

(** *** Primitives *)
Lemma reads_take b n : n = zlen b → reads (take_bytes n) b b.
Proof.
  intros -> pre post. unfold take_bytes. cbn [r_bytes r_pos].
  rewrite !zlen_app. pose proof (zlen_nonneg post).
  destruct (Z.ltb_spec (zlen pre + (zlen b + zlen post)) (zlen pre + zlen b)); [lia|].
  by rewrite get_range_app_l.
Qed.

Lemma reads_u8 b : reads read_u8 (write_u8 b) b.
Proof. eapply reads_last; [by apply reads_take|done]. Qed.

Lemma reads_be k n : 0 <= n < 2 ^ (8 * Z.of_nat k) →
  reads (b ← take_bytes (Z.of_nat k); mret (be_value b)) (be_bytes k n) n.
Proof.
  intros Hn. eapply reads_last; [apply reads_take; by rewrite zlen_be_bytes|].
  by rewrite be_value_be_bytes_id.
Qed.

Lemma in_u_range w n : in_u w n = true → 0 <= n < 2 ^ w.
Proof. unfold in_u. lia. Qed.

Lemma reads_u16 n : in_u 16 n = true → reads read_u16 (write_u16 n) n.
Proof. intros H%in_u_range. by apply (reads_be 2). Qed.
Lemma reads_u32 n : in_u 32 n = true → reads read_u32 (write_u32 n) n.
Proof. intros H%in_u_range. by apply (reads_be 4). Qed.
Lemma reads_u64 n : in_u 64 n = true → reads read_u64 (write_u64 n) n.
Proof. intros H%in_u_range. by apply (reads_be 8). Qed.
Lemma reads_u128 n : in_u 128 n = true → reads read_u128 (write_u128 n) n.
Proof. intros H%in_u_range. by apply (reads_be 16). Qed.

Lemma reads_i32 n : in_i 32 n = true → reads read_i32 (write_i32 n) n.
Proof.
  intros H. eapply reads_last; [apply (reads_take (be_bytes 4 n)); by rewrite zlen_be_bytes|].
  f_equal. apply (to_signed_be_bytes 4); [lia|]. unfold in_i in H. cbn in H |- *. lia.
Qed.

Lemma reads_bool b : reads read_bool (write_bool b) b.
Proof. eapply reads_last; [apply reads_u8|]. by destruct b. Qed.

Lemma fits_u32_range {A} (l : list A) : fits_u32 l = true → in_u 32 (zlen l) = true.
Proof. unfold fits_u32, in_u. pose proof (zlen_nonneg l). lia. Qed.

Lemma reads_str s : storable_str s = true → reads read_str (write_str s) s.
Proof.
  intros Hs. eapply reads_bind; [by apply reads_u32, fits_u32_range, storable_str_fits|].
  eapply reads_last; [by apply reads_take|]. by rewrite from_utf8_storable.
Qed.

Lemma reads_opt {A B} (p : RD B) (w : A → bytes) (g : A → B) o :
  (∀ x, o = Some x → reads p (w x) (g x)) → reads (read_opt p) (write_opt w o) (g <$> o).
Proof.
  intros Hp. destruct o as [x|].
  - apply (reads_bind _ _ (write_bool true) _ true); [apply reads_bool|].
    cbn. apply (reads_map p Some), Hp. done.
  - apply (reads_last _ _ (write_bool false) false); [apply reads_bool|done].
Qed.

Lemma reads_n {A B} (p : RD B) (w : A → bytes) (g : A → B) l :
  (∀ x, x ∈ l → reads p (w x) (g x)) →
  reads (read_n (length l) p) (concat (w <$> l)) (g <$> l).
Proof.
  induction l as [|x l IH]; intros Hp; [apply reads_ret|]. cbn [length read_n fmap list_fmap concat].
  eapply reads_bind; [apply Hp; by left|]. apply reads_map. apply IH. intros y Hy. apply Hp. by right.
Qed.

Lemma reads_list {A B} (p : RD B) (w : A → bytes) (g : A → B) l :
  fits_u32 l = true → (∀ x, x ∈ l → reads p (w x) (g x)) →
  reads (read_list p) (write_list w l) (g <$> l).
Proof.
  intros Hf Hp. eapply reads_bind; [by apply reads_u32, fits_u32_range|].
  unfold zlen. rewrite Nat2Z.id. by apply reads_n.
Qed.

Lemma reads_list_id {A} (p : RD A) (w : A → bytes) l :
  fits_u32 l = true → (∀ x, x ∈ l → reads p (w x) x) → reads (read_list p) (write_list w l) l.
Proof. intros Hf Hp. rewrite <- (list_fmap_id l) at 2. by apply (reads_list _ _ id). Qed.

Lemma reads_opt_id {A} (p : RD A) (w : A → bytes) o :
  (∀ x, o = Some x → reads p (w x) x) → reads (read_opt p) (write_opt w o) o.
Proof.
  intros Hp. pose proof (reads_opt p w id o Hp) as H. by destruct o.
Qed.

Create HintDb reads.
#[export] Hint Resolve reads_u8 reads_u16 reads_u32 reads_u64 reads_u128 reads_i32 reads_bool reads_str : reads.

(** One field of a record, or the last. *)
Ltac reads_step :=
  lazymatch goal with
  | |- reads (mret _) _ _ => apply reads_ret
  | |- reads _ (_ ++ _) _ => eapply reads_bind; [solve [auto with reads]|]
  | |- reads _ _ _ => eapply reads_last; [solve [auto with reads]|reflexivity]
  end.

(** * Every instruction whose operands fit their widths is read back. *)
(** ** Instructions *)
Definition range_ok (r : ParallelRange) : bool :=
  in_u 32 (pr_start r) && in_u 32 (pr_end r) && from_option (in_u 16) true (pr_dst r).

(** Every operand fits its width. *)
Definition instr_ok (instr : Instr) : bool :=
  match instr with
  | LoadConst dst idx => in_u 16 dst && in_u 16 idx
  | Move dst src => in_u 16 dst && in_u 16 src
  | Bin op dst lhs rhs => in_u 16 dst && in_u 16 lhs && in_u 16 rhs
  | Un op dst src => in_u 16 dst && in_u 16 src
  | Jump offset => in_i 32 offset
  | JumpIfFalse cond offset => in_u 16 cond && in_i 32 offset
  | Call dst fn_idx args_start n_args => in_u 16 dst && in_u 16 fn_idx && in_u 16 args_start && in_u 8 n_args
  | CallHost dst import_idx args_start n_args => in_u 16 dst && in_u 16 import_idx && in_u 16 args_start && in_u 8 n_args
  | CallExternal dst module_name_idx fn_name_idx args_start n_args is_view is_pure => in_u 16 dst && in_u 16 module_name_idx && in_u 16 fn_name_idx && in_u 16 args_start && in_u 8 n_args
  | Return src => in_u 16 src
  | ReturnUnit => true
  | BuiltinResource dst src => in_u 16 dst && in_u 16 src
  | BuiltinUnwrap dst src => in_u 16 dst && in_u 16 src
  | BuiltinAddress dst src => in_u 16 dst && in_u 16 src
  | BuiltinLen dst src => in_u 16 dst && in_u 16 src
  | Convert dst src target => in_u 16 dst && in_u 16 src && in_u 8 target
  | MakeArray dst args_start n => in_u 16 dst && in_u 16 args_start && in_u 16 n
  | ArrayGet dst arr idx => in_u 16 dst && in_u 16 arr && in_u 16 idx
  | ArrayAppend dst arr elem => in_u 16 dst && in_u 16 arr && in_u 16 elem
  | MakeSet dst args_start n => in_u 16 dst && in_u 16 args_start && in_u 16 n
  | MakeDict dst args_start n_pairs => in_u 16 dst && in_u 16 args_start && in_u 16 n_pairs
  | BuiltinCall dst name_idx args_start n_args => in_u 16 dst && in_u 16 name_idx && in_u 16 args_start && in_u 8 n_args
  | MakeStruct dst shape_idx args_start n => in_u 16 dst && in_u 16 shape_idx && in_u 16 args_start && in_u 16 n
  | FieldGet dst src name_idx => in_u 16 dst && in_u 16 src && in_u 16 name_idx
  | FieldSet dst name_idx val => in_u 16 dst && in_u 16 name_idx && in_u 16 val
  | KvGet dst key_idx => in_u 16 dst && in_u 16 key_idx
  | KvPut src key_idx => in_u 16 src && in_u 16 key_idx
  | KvGetPath dst path_idx => in_u 16 dst && in_u 16 path_idx
  | KvPutPath src path_idx => in_u 16 src && in_u 16 path_idx
  | ReadBatch group_idx => in_u 16 group_idx
  | PrefetchMap arr_reg state_idx => in_u 16 arr_reg && in_u 16 state_idx
  | Emit value => in_u 16 value
  | ParallelBegin ranges after_pc => fits_u32 ranges && forallb range_ok ranges && in_u 32 after_pc
  | ParallelYield value => from_option (in_u 16) true value
  | ParallelForBegin body_start body_end source_reg output_reg id_reg idx_reg after_pc => in_u 32 body_start && in_u 32 body_end && in_u 16 source_reg && in_u 16 output_reg && in_u 16 id_reg && in_u 16 idx_reg && in_u 32 after_pc
  | ArrayAlloc dst len_reg default_reg => in_u 16 dst && in_u 16 len_reg && in_u 16 default_reg
  | Reserve dst state_idx count_reg => in_u 16 dst && in_u 16 state_idx && in_u 16 count_reg
  | ParallelForSkip => true
  | Context dst kind => in_u 16 dst && in_u 8 kind
  | MakeTuple dst args_start n => in_u 16 dst && in_u 16 args_start && in_u 16 n
  | TupleGet dst src index => in_u 16 dst && in_u 16 src && in_u 16 index
  | MakeEnum dst shape_idx variant_idx args_start n => in_u 16 dst && in_u 16 shape_idx && in_u 16 variant_idx && in_u 16 args_start && in_u 16 n
  | EnumTag dst src => in_u 16 dst && in_u 16 src
  | EnumPayload dst src index => in_u 16 dst && in_u 16 src && in_u 16 index
  | MapGet dst state_idx key_reg => in_u 16 dst && in_u 16 state_idx && in_u 16 key_reg
  | MapPut state_idx key_reg src => in_u 16 state_idx && in_u 16 key_reg && in_u 16 src
  | PMapGet dst state_idx key_reg => in_u 16 dst && in_u 16 state_idx && in_u 16 key_reg
  | PMapPut state_idx key_reg src => in_u 16 state_idx && in_u 16 key_reg && in_u 16 src
  | PMapContains dst state_idx key_reg => in_u 16 dst && in_u 16 state_idx && in_u 16 key_reg
  | PVecGet dst state_idx idx_reg => in_u 16 dst && in_u 16 state_idx && in_u 16 idx_reg
  | PVecSet state_idx idx_reg src => in_u 16 state_idx && in_u 16 idx_reg && in_u 16 src
  | PVecPush dst state_idx src => in_u 16 dst && in_u 16 state_idx && in_u 16 src
  | PVecLen dst state_idx => in_u 16 dst && in_u 16 state_idx
  | IncReg reg => in_u 16 reg
  | CallExternalDyn dst target_reg fn_name_idx args_start n_args is_view is_pure => in_u 16 dst && in_u 16 target_reg && in_u 16 fn_name_idx && in_u 16 args_start && in_u 8 n_args
  | MakeInterface dst iface_name_idx target_reg => in_u 16 dst && in_u 16 iface_name_idx && in_u 16 target_reg
  | PMapEntries dst state_idx => in_u 16 dst && in_u 16 state_idx
  | PMapKeys dst state_idx => in_u 16 dst && in_u 16 state_idx
  | PMapValues dst state_idx => in_u 16 dst && in_u 16 state_idx
  | PVecToArray dst state_idx => in_u 16 dst && in_u 16 state_idx
  | PMapAppendUnique state_idx key_reg elem_reg => in_u 16 state_idx && in_u 16 key_reg && in_u 16 elem_reg
  | PMapPutUnique state_idx key_reg src => in_u 16 state_idx && in_u 16 key_reg && in_u 16 src
  | PMapWalkInit dst state_idx => in_u 16 dst && in_u 16 state_idx
  | PMapWalkNext cursor_reg value_reg end_offset => in_u 16 cursor_reg && in_u 16 value_reg && in_i 32 end_offset
  | PBTreeGet dst state_idx key_reg => in_u 16 dst && in_u 16 state_idx && in_u 16 key_reg
  | PBTreePut state_idx key_reg src => in_u 16 state_idx && in_u 16 key_reg && in_u 16 src
  | PBTreeContains dst state_idx key_reg => in_u 16 dst && in_u 16 state_idx && in_u 16 key_reg
  | PBTreeRange dst state_idx lo_reg hi_reg => in_u 16 dst && in_u 16 state_idx && in_u 16 lo_reg && in_u 16 hi_reg
  | PBTreeWalkInit dst state_idx => in_u 16 dst && in_u 16 state_idx
  | PBTreeWalkNext cursor_reg value_reg end_offset => in_u 16 cursor_reg && in_u 16 value_reg && in_i 32 end_offset
  | PBTreePutUnique state_idx key_reg src => in_u 16 state_idx && in_u 16 key_reg && in_u 16 src
  | PBTreeAppendUnique state_idx key_reg elem_reg => in_u 16 state_idx && in_u 16 key_reg && in_u 16 elem_reg
  | PMapDelete state_idx key_reg => in_u 16 state_idx && in_u 16 key_reg
  | PBTreeDelete state_idx key_reg => in_u 16 state_idx && in_u 16 key_reg
  | PMapRemoveUnique state_idx key_reg expected_reg => in_u 16 state_idx && in_u 16 key_reg && in_u 16 expected_reg
  | PMapRemoveFromList state_idx key_reg elem_reg => in_u 16 state_idx && in_u 16 key_reg && in_u 16 elem_reg
  | PBTreeRemoveUnique state_idx key_reg expected_reg => in_u 16 state_idx && in_u 16 key_reg && in_u 16 expected_reg
  | PBTreeRemoveFromList state_idx key_reg elem_reg => in_u 16 state_idx && in_u 16 key_reg && in_u 16 elem_reg
  end.

Lemma reads_range r : range_ok r = true → reads read_range (write_range r) r.
Proof.
  destruct r as [s e d]. unfold range_ok. cbn. rewrite !andb_true_iff. intros [[Hs He] Hd].
  unfold read_range, write_range. cbn [pr_start pr_end pr_dst].
  repeat reads_step. eapply reads_last; [|reflexivity]. apply reads_opt_id.
  intros x ->. by apply reads_u16.
Qed.

Lemma binop_from_to op : binop_from_byte (binop_to_byte op) = mret op.
Proof. by destruct op. Qed.
Lemma unop_from_to op : unop_from_byte (unop_to_byte op) = mret op.
Proof. by destruct op. Qed.

Lemma reads_ret_bind {A B} (x : A) (f : A → RD B) e v : reads (f x) e v → reads (mret x ≫= f) e v.
Proof. done. Qed.

Lemma reads_instr i : instr_ok i = true → reads read_instr (write_instr i) i.
Proof.
  intros Hi. unfold read_instr.
  destruct i; cbn [instr_ok] in Hi; rewrite ?andb_true_iff in Hi; destruct_and?;
    cbv beta iota delta [write_instr].
  all: try (eapply reads_last; [apply reads_u8|reflexivity]).
  all: eapply reads_bind; [apply reads_u8|]; cbv beta iota delta [read_operands].
  all: try solve [repeat reads_step].
  - eapply reads_bind; [apply reads_u8|]. rewrite binop_from_to. apply reads_ret_bind. repeat reads_step.
  - eapply reads_bind; [apply reads_u8|]. rewrite unop_from_to. apply reads_ret_bind. repeat reads_step.
  - eapply reads_bind; [apply reads_list_id; [done|]|repeat reads_step].
    intros r Hr%list_elem_of_In. apply reads_range. by eapply forallb_forall in Hr.
  - eapply reads_last; [|reflexivity]. apply reads_opt_id. intros x ->. by apply reads_u16.
Qed.

(** * Types in artifacts: read back up to their normal form, which drops
    compile-time tags and lists of absent groups. *)
(** ** Induction over nested types *)
Definition ty_leaf (t : Ty) : bool :=
  match t with
  | TArray _ | TExplicitLiteral _ | TSet _ | TDict _ _ | TMap _ _ | TPMap _ _ | TPBTree _ _ | TPVec _
  | TStruct _ _ _ | TTuple _ | TEnum _ _ | TCap _ _ _ | TInterface _ _ => false
  | _ => true
  end.

Section ty_ind.
Context (P : Ty → Prop).
Definition sig_all (m : InterfaceMethodSig) : Prop :=
  match m with mkMethodSig _ params return_type _ _ => Forall P params ∧ P return_type end.
Context (Hleaf : ∀ t, ty_leaf t = true → P t).
Context (Harray : ∀ t, P t → P (TArray t)) (Hliteral : ∀ t, P t → P (TExplicitLiteral t)).
Context (Hset : ∀ t, P t → P (TSet t)) (Hpvec : ∀ t, P t → P (TPVec t)).
Context (Hdict : ∀ k v, P k → P v → P (TDict k v)) (Hmap : ∀ k v, P k → P v → P (TMap k v)).
Context (Hpmap : ∀ k v, P k → P v → P (TPMap k v)) (Hpbtree : ∀ k v, P k → P v → P (TPBTree k v)).
Context (Hstruct : ∀ n fs gs, Forall (λ p, P p.2) fs → P (TStruct n fs gs)).
Context (Htuple : ∀ l, Forall P l → P (TTuple l)).
Context (Henum : ∀ n vs, Forall (λ p, Forall P p.2) vs → P (TEnum n vs)).
Context (Hcap : ∀ n fs o, Forall (λ p, P p.2) fs → P (TCap n fs o)).
Context (Hiface : ∀ n ms, Forall sig_all ms → P (TInterface n ms)).

Fixpoint ty_ind_nested (t : Ty) : P t :=
  match t with
  | TArray t => Harray t (ty_ind_nested t)
  | TExplicitLiteral t => Hliteral t (ty_ind_nested t)
  | TSet t => Hset t (ty_ind_nested t)
  | TPVec t => Hpvec t (ty_ind_nested t)
  | TDict k v => Hdict k v (ty_ind_nested k) (ty_ind_nested v)
  | TMap k v => Hmap k v (ty_ind_nested k) (ty_ind_nested v)
  | TPMap k v => Hpmap k v (ty_ind_nested k) (ty_ind_nested v)
  | TPBTree k v => Hpbtree k v (ty_ind_nested k) (ty_ind_nested v)
  | TStruct n fs gs => Hstruct n fs gs (list_all (λ p, P p.2)
      (λ p, match p with (_, t) => ty_ind_nested t end) fs)
  | TTuple l => Htuple l (list_all P ty_ind_nested l)
  | TEnum n vs => Henum n vs (list_all (λ p, Forall P p.2)
      (λ p, match p with (_, l) => list_all P ty_ind_nested l end) vs)
  | TCap n fs o => Hcap n fs o (list_all (λ p, P p.2)
      (λ p, match p with (_, t) => ty_ind_nested t end) fs)
  | TInterface n ms => Hiface n ms (list_all sig_all sig_ind_nested ms)
  | t => Hleaf t eq_refl
  end
with sig_ind_nested (m : InterfaceMethodSig) : sig_all m :=
  match m with
  | mkMethodSig _ params return_type _ _ =>
      conj (list_all P ty_ind_nested params) (ty_ind_nested return_type)
  end.
End ty_ind.

(** ** Types that fit the format, and their normal form *)
Definition groups_ok (gs : list (option bytes)) : bool := forallb (from_option storable_str true) gs.

Fixpoint ty_ok (t : Ty) : bool :=
  match t with
  | TArray t | TExplicitLiteral t | TSet t | TPVec t => ty_ok t
  | TDict k v | TMap k v | TPMap k v | TPBTree k v => ty_ok k && ty_ok v
  | TStruct n fs gs =>
      storable_str n && fits_u32 fs && forallb (λ p, storable_str p.1 && ty_ok p.2) fs && groups_ok gs
  | TTuple l => fits_u32 l && forallb ty_ok l
  | TEnum n vs =>
      storable_str n && fits_u32 vs &&
      forallb (λ p, storable_str p.1 && fits_u32 p.2 && forallb ty_ok p.2) vs
  | TCap n fs o =>
      storable_str n && storable_str o && fits_u32 fs &&
      forallb (λ p, storable_str p.1 && ty_ok p.2) fs
  | TInterface n ms => storable_str n && fits_u32 ms && forallb sig_ok ms
  | _ => true
  end
with sig_ok (m : InterfaceMethodSig) : bool :=
  match m with
  | mkMethodSig n params return_type _ _ =>
      storable_str n && fits_u32 params && forallb ty_ok params && ty_ok return_type
  end.

(** One group per field. *)
Fixpoint groups_of {A} (fs : list A) (gs : list (option bytes)) : list (option bytes) :=
  match fs with [] => [] | _ :: fs' => mjoin (head gs) :: groups_of fs' (tail gs) end.

Fixpoint norm_ty (t : Ty) : Ty :=
  match t with
  | TExplicitLiteral t => norm_ty t
  | TArray t => TArray (norm_ty t)
  | TSet t => TSet (norm_ty t)
  | TPVec t => TPVec (norm_ty t)
  | TDict k v => TDict (norm_ty k) (norm_ty v)
  | TMap k v => TMap (norm_ty k) (norm_ty v)
  | TPMap k v => TPMap (norm_ty k) (norm_ty v)
  | TPBTree k v => TPBTree (norm_ty k) (norm_ty v)
  | TStruct n fs gs =>
      TStruct n ((λ p, (p.1, norm_ty p.2)) <$> fs) (normal_groups (groups_of fs gs))
  | TTuple l => TTuple (norm_ty <$> l)
  | TEnum n vs => TEnum n ((λ p : bytes * list Ty, (p.1, norm_ty <$> p.2)) <$> vs)
  | TCap n fs o => TCap n ((λ p, (p.1, norm_ty p.2)) <$> fs) o
  | TInterface n ms => TInterface n (norm_sig <$> ms)
  | t => t
  end
with norm_sig (m : InterfaceMethodSig) : InterfaceMethodSig :=
  match m with
  | mkMethodSig n params return_type is_view is_pure =>
      mkMethodSig n (norm_ty <$> params) (norm_ty return_type) is_view is_pure
  end.

(** ** Reading types *)
Lemma length_write_list {A} (w : A → bytes) l x :
  x ∈ l → (length (w x) ≤ length (write_list w l))%nat.
Proof.
  intros Hx. unfold write_list. rewrite length_app.
  pose proof (zlen_concat_ge (w <$> l) (w x) (list_elem_of_fmap_2 w l x Hx)). lia.
Qed.

Lemma forallb_elem {A} (f : A → bool) l x : forallb f l = true → x ∈ l → f x = true.
Proof. intros Hf Hx%list_elem_of_In. by eapply forallb_forall in Hf. Qed.

(** The claim of the induction: the fuel covers the bytes of the type. *)
Definition type_reads (t : Ty) : Prop :=
  ∀ n, (length (write_type t) ≤ n)%nat → ty_ok t = true →
    reads (read_type_f n) (write_type t) (norm_ty t).

Lemma reads_types n l :
  Forall type_reads l → (length (write_list write_type l) ≤ n)%nat →
  fits_u32 l = true → forallb ty_ok l = true →
  reads (read_list (read_type_f n)) (write_list write_type l) (norm_ty <$> l).
Proof.
  intros Hl Hn Hf Hok. apply reads_list; [done|]. intros x Hx.
  rewrite Forall_forall in Hl. apply Hl; [done| |by eapply forallb_elem].
  pose proof (length_write_list write_type l x Hx). lia.
Qed.

Lemma reads_fields n fs gs :
  Forall (λ p, type_reads p.2) fs → (length (write_fields write_type fs gs) ≤ n)%nat →
  forallb (λ p, storable_str p.1 && ty_ok p.2) fs = true → groups_ok gs = true →
  reads (read_n (length fs) (read_grouped (read_type_f n))) (write_fields write_type fs gs)
    (zip ((λ p, (p.1, norm_ty p.2)) <$> fs) (groups_of fs gs)).
Proof.
  intros Hfs. revert gs. induction Hfs as [|[m t] fs Ht _ IH]; intros gs Hn Hok Hgs; [apply reads_ret|].
  cbn [length read_n write_fields fmap list_fmap groups_of zip zip_with fst snd] in *.
  rewrite !length_app in Hn. cbn in Hok. rewrite !andb_true_iff in Hok. destruct Hok as [[Hm Hok] Hoks].
  rewrite !app_assoc. eapply reads_bind.
  - rewrite <- app_assoc. unfold read_grouped. eapply reads_bind; [by apply reads_str|].
    eapply reads_bind; [apply Ht; [lia|done]|]. eapply reads_last; [|reflexivity].
    apply reads_opt_id. intros g Hg. apply reads_str. destruct gs as [|[g'|] gs]; try done.
    cbn in Hg, Hgs. injection Hg as ->. by apply andb_prop in Hgs as [? _].
  - apply reads_map. apply IH; [lia|done|]. destruct gs; [done|]. by apply andb_prop in Hgs as [_ ?].
Qed.

Lemma length_groups_of {A} (fs : list A) gs : length (groups_of fs gs) = length fs.
Proof. revert gs. induction fs as [|? fs IH]; intros gs; cbn; [done|]. by rewrite IH. Qed.

Lemma reads_pair p (mk : Ty → Ty → Ty) e1 e2 k v :
  reads p e1 k → reads p e2 v → reads (read_pair p mk) (e1 ++ e2) (mk k v).
Proof. intros H1 H2. eapply reads_bind; [done|]. by apply (reads_map _ (mk k)). Qed.

(** A compound type: one unit of fuel and one byte for the tag. *)
Lemma reads_tagged n tag body t :
  (∀ n', n = S n' → reads (read_type_body (read_type_f n') tag) body t) →
  (length (write_u8 tag ++ body) ≤ n)%nat →
  reads (read_type_f n) (write_u8 tag ++ body) t.
Proof.
  intros Hb Hn. destruct n as [|n]; [cbn in Hn; lia|]. cbn [read_type_f].
  eapply reads_bind; [apply reads_u8|]. by apply Hb.
Qed.

Ltac tagged := apply reads_tagged; [intros n' ->; rewrite length_app in *; cbn [length write_u8] in *|done];
  cbv beta iota delta [read_type_body].

Lemma reads_variants n vs :
  Forall (λ p, Forall type_reads p.2) vs →
  (length (write_list (λ p, write_str p.1 ++ write_list write_type p.2) vs) ≤ n)%nat →
  fits_u32 vs = true →
  forallb (λ p, storable_str p.1 && fits_u32 p.2 && forallb ty_ok p.2) vs = true →
  reads (read_list (read_variant (read_type_f n)))
    (write_list (λ p, write_str p.1 ++ write_list write_type p.2) vs)
    ((λ p : bytes * list Ty, (p.1, norm_ty <$> p.2)) <$> vs).
Proof.
  intros IH Hn Hf Hvs. apply reads_list; [done|]. intros [vn l] Hx.
  rewrite Forall_forall in IH. specialize (IH _ Hx).
  pose proof (length_write_list (λ p, write_str p.1 ++ write_list write_type p.2) vs _ Hx) as Hlen.
  cbn [fst snd] in *. rewrite length_app in Hlen.
  pose proof (forallb_elem _ _ _ Hvs Hx) as Hv. cbn in Hv. rewrite !andb_true_iff in Hv.
  destruct Hv as [[Hvn Hl] Hts]. eapply reads_bind; [by apply reads_str|].
  apply (reads_map _ (pair vn)), reads_types; [done|lia|done|done].
Qed.

Lemma reads_named_types n fs :
  Forall (λ p, type_reads p.2) fs →
  (length (write_list (λ p, write_str p.1 ++ write_type p.2) fs) ≤ n)%nat →
  fits_u32 fs = true → forallb (λ p, storable_str p.1 && ty_ok p.2) fs = true →
  reads (read_list (read_named (read_type_f n))) (write_list (λ p, write_str p.1 ++ write_type p.2) fs)
    ((λ p : bytes * Ty, (p.1, norm_ty p.2)) <$> fs).
Proof.
  intros IH Hn Hf Hfs. apply reads_list; [done|]. intros [fname t] Hx.
  rewrite Forall_forall in IH. specialize (IH _ Hx).
  pose proof (length_write_list (λ p, write_str p.1 ++ write_type p.2) fs _ Hx) as Hlen.
  cbn [fst snd] in *. rewrite length_app in Hlen.
  pose proof (forallb_elem _ _ _ Hfs Hx) as Hv. cbn in Hv. apply andb_prop in Hv as [Hfn Ht].
  eapply reads_bind; [by apply reads_str|]. apply (reads_map _ (pair fname)), IH; [lia|done].
Qed.

Lemma reads_sigs n ms :
  Forall (sig_all type_reads) ms → (length (write_list write_sig ms) ≤ n)%nat →
  fits_u32 ms = true → forallb sig_ok ms = true →
  reads (read_list (read_sig (read_type_f n))) (write_list write_sig ms) (norm_sig <$> ms).
Proof.
  intros IH Hn Hf Hms. apply reads_list; [done|]. intros [sn ps r isv isp] Hx.
  rewrite Forall_forall in IH. destruct (IH _ Hx) as [IHp IHr].
  pose proof (length_write_list write_sig ms _ Hx) as Hlen.
  cbn [write_sig] in *. rewrite !length_app in Hlen.
  pose proof (forallb_elem _ _ _ Hms Hx) as Hv. cbn in Hv. rewrite !andb_true_iff in Hv.
  destruct Hv as [[[Hsn Hpf] Hps] Hr]. unfold read_sig. do 3 reads_step.
  eapply reads_bind; [apply reads_types; [done|lia|done|done]|].
  eapply reads_last; [apply IHr; [lia|done]|reflexivity].
Qed.

Lemma reads_type_f t : type_reads t.
Proof.
  induction t as [t Ht|t IH|t IH|t IH|t IH|k v IHk IHv|k v IHk IHv|k v IHk IHv|k v IHk IHv
    |m fs gs IH|l IH|m vs IH|m fs o IH|m ms IH] using ty_ind_nested; intros n Hn Hok;
    cbn [write_type norm_ty ty_ok] in *; rewrite ?andb_true_iff in Hok.
  - rewrite <- (app_nil_r (write_type t)).
    destruct t; try discriminate Ht; cbn [write_type] in *;
      (apply reads_tagged; [intros n' ->; apply reads_ret|by rewrite app_nil_r]).
  - tagged. apply (reads_map _ TArray), IH; [lia|done].
  - by apply IH.
  - tagged. apply (reads_map _ TSet), IH; [lia|done].
  - tagged. apply (reads_map _ TPVec), IH; [lia|done].
  - tagged. rewrite length_app in Hn. apply reads_pair; [apply IHk|apply IHv]; (lia || apply Hok).
  - tagged. rewrite length_app in Hn. apply reads_pair; [apply IHk|apply IHv]; (lia || apply Hok).
  - tagged. rewrite length_app in Hn. apply reads_pair; [apply IHk|apply IHv]; (lia || apply Hok).
  - tagged. rewrite length_app in Hn. apply reads_pair; [apply IHk|apply IHv]; (lia || apply Hok).
  - destruct Hok as [[[Hm Hf] Hfs] Hgs]. tagged. rewrite !length_app in Hn.
    eapply reads_bind; [by apply reads_str|].
    eapply reads_last.
    + eapply reads_bind; [by apply reads_u32, fits_u32_range|]. unfold zlen. rewrite Nat2Z.id.
      apply reads_fields; [done|lia|done|done].
    + rewrite fst_zip, snd_zip; rewrite ?length_fmap, ?length_groups_of; done.
  - destruct Hok as [Hf Hl]. tagged. apply (reads_map _ TTuple), reads_types; [done|lia|done|done].
  - destruct Hok as [[Hm Hf] Hvs]. tagged. rewrite !length_app in Hn.
    eapply reads_bind; [by apply reads_str|].
    apply (reads_map _ (TEnum m)), reads_variants; [done|lia|done|done].
  - destruct Hok as [[[Hm Ho] Hf] Hfs]. tagged. rewrite !length_app in Hn.
    do 2 (eapply reads_bind; [by apply reads_str|]).
    eapply reads_last; [|reflexivity]. apply reads_named_types; [done|lia|done|done].
  - destruct Hok as [[Hm Hf] Hms]. tagged. rewrite !length_app in Hn.
    eapply reads_bind; [by apply reads_str|].
    apply (reads_map _ (TInterface m)), reads_sigs; [done|lia|done|done].
Qed.

Lemma reads_type t : ty_ok t = true → reads read_type (write_type t) (norm_ty t).
Proof.
  intros Hok pre post. unfold read_type. cbn [r_bytes]. apply reads_type_f; [|done].
  rewrite !length_app. lia.
Qed.
#[export] Hint Resolve reads_type : reads.

(** ** The normal form is written alike *)
Lemma write_fields_groups w (fs : list (bytes * Ty)) gs :
  write_fields w fs (groups_of fs gs) = write_fields w fs gs.
Proof. revert gs. induction fs as [|[n t] fs IH]; intros gs; [done|]. cbn. by rewrite IH. Qed.

Lemma write_fields_no_groups w (fs : list (bytes * Ty)) gs :
  forallb (λ g : option bytes, negb (bool_decide (is_Some g))) gs = true →
  write_fields w fs gs = write_fields w fs [].
Proof.
  revert gs. induction fs as [|[n t] fs IH]; intros [|g gs] Hg; try done.
  apply andb_prop in Hg as [Hg Hgs]. cbn. rewrite (IH gs) by done. cbn.
  by destruct g; [cbn in Hg|].
Qed.

Lemma write_fields_norm w (fs : list (bytes * Ty)) gs :
  write_fields w fs (normal_groups (groups_of fs gs)) = write_fields w fs gs.
Proof.
  unfold normal_groups. destruct (forallb _ (groups_of fs gs)) eqn:E; [|apply write_fields_groups].
  by rewrite <- (write_fields_no_groups _ _ _ E), write_fields_groups.
Qed.

Lemma groups_of_fmap {A B} (f : A → B) l gs : groups_of (f <$> l) gs = groups_of l gs.
Proof. revert gs. induction l as [|x l IH]; intros gs; cbn; [done|]. by rewrite IH. Qed.

Lemma write_fields_fmap w (f : bytes * Ty → bytes * Ty) fs gs :
  Forall (λ p, (f p).1 = p.1 ∧ w (f p).2 = w p.2) fs →
  write_fields w (f <$> fs) gs = write_fields w fs gs.
Proof.
  intros Hf. revert gs. induction Hf as [|[n t] fs [H1 H2] _ IH]; intros gs; [done|].
  cbn. destruct (f (n, t)) as [n' t']. cbn in H1, H2. by rewrite H1, H2, IH.
Qed.

Lemma write_list_fmap {A B} (w : B → bytes) (w' : A → bytes) (f : A → B) l :
  Forall (λ x, w (f x) = w' x) l → write_list w (f <$> l) = write_list w' l.
Proof.
  intros Hf. unfold write_list, zlen. rewrite length_fmap. do 2 f_equal.
  induction Hf as [|x l Hx _ IH]; [done|]. cbn. by rewrite Hx, IH.
Qed.

Lemma write_norm t : write_type (norm_ty t) = write_type t.
Proof.
  induction t as [t Ht|t IH|t IH|t IH|t IH|k v IHk IHv|k v IHk IHv|k v IHk IHv|k v IHk IHv
    |m fs gs IH|l IH|m vs IH|m fs o IH|m ms IH] using ty_ind_nested; cbn [norm_ty write_type];
    rewrite ?IH, ?IHk, ?IHv; try done.
  - by destruct t.
  - unfold zlen. rewrite length_fmap, <- (groups_of_fmap (λ p, (p.1, norm_ty p.2)) fs gs).
    rewrite write_fields_norm, write_fields_fmap; [done|]. by eapply Forall_impl.
  - by rewrite (write_list_fmap _ write_type).
  - do 2 f_equal. apply write_list_fmap. eapply Forall_impl; [done|]. intros [n l] Hl. cbn in *.
    by rewrite (write_list_fmap _ write_type).
  - do 3 f_equal. apply write_list_fmap. eapply Forall_impl; [done|]. intros [n t] Ht. cbn in *. by rewrite Ht.
  - do 2 f_equal. apply write_list_fmap. eapply Forall_impl; [done|]. intros [n ps r v p] [Hps Hr]. cbn in *.
    by rewrite Hr, (write_list_fmap _ write_type).
Qed.
