(* ===== verification/ArtifactFacts.v ===== *)
(** Whole artifacts: every well-formed module set is read back, up to the normal
    form of its types, which is written to the same bytes. *)
From S2P Require Import Prelude Bytes Hashing Values Serialize SerializeFacts JsonText Display Ops Bytecode ArtifactBase ArtifactInstr Artifact ArtifactTypes.

Section artifacts.
Context `{BigIntCodec} `{!BigIntCodecLaws}.

(** ** What fits the format *)
Definition const_ok (c : Const) : bool :=
  match c with
  | CInt n | CUInt n => fits_u32 (to_signed_bytes_be n)
  | CFloat n | CU64 n => in_u 64 n
  | CI32 n => in_i 32 n
  | CU32 n => in_u 32 n
  | CU128 n => in_u 128 n
  | CBool _ => true
  | CStr s => storable_str s
  end.

Definition read_op_ok (op : ReadOp) : bool :=
  match op with RState a b | RPath a b => in_u 16 a && in_u 16 b end.

Definition list_ok {A} (f : A → bool) (l : list A) : bool := fits_u32 l && forallb f l.

Definition fn_ok (f : BcFn) : bool :=
  storable_str (f_name f) && in_u 16 (n_params f) && in_u 16 (n_regs f) &&
  list_ok ty_ok (param_types f) && ty_ok (return_type f) && list_ok const_ok (consts f) &&
  list_ok instr_ok (code f) && list_ok (list_ok read_op_ok) (read_groups f).

Definition shape_ok (s : StructShape) : bool :=
  storable_str (sh_name s) && list_ok storable_str (field_names s) &&
  bool_decide (length (field_types s) = length (field_names s)) && forallb ty_ok (field_types s) &&
  bool_decide (length (sh_field_groups s) = length (field_names s)) && groups_ok (sh_field_groups s).

Definition path_ok (p : PathSpec) : bool := in_u 128 (leaf_key p) && ty_ok (leaf_type p).
Definition enum_ok (e : EnumShape) : bool := storable_str (en_name e) && list_ok storable_str (variant_names e).
Definition method_ok (m : InterfaceMethod) : bool :=
  storable_str (im_name m) && list_ok (λ p, storable_str p.1 && ty_ok p.2) (im_params m) &&
  ty_ok (im_return_type m).
Definition iface_ok (i : InterfaceDecl) : bool := storable_str (if_name i) && list_ok method_ok (if_methods i).
Definition handler_ok (p : bytes * list Z) : bool := storable_str p.1 && list_ok (in_u 16) p.2.

(** Every default can be stored at its state's type. *)
Fixpoint defaults_ok (tys : list Ty) (vs : list Value) : bool :=
  match vs with
  | [] => true
  | v :: vs' =>
      storable v (default TUnit (head tys)) && fits_u32 (ser v) && defaults_ok (tail tys) vs'
  end.

Definition module_ok (m : BcModule) : bool :=
  storable_str (m_name m) && list_ok storable_str (imports m) &&
  bool_decide (import_index m = index_names (imports m)) &&
  list_ok (in_u 128) (state_roots m) && list_ok ty_ok (state_types m) &&
  fits_u32 (state_defaults m) && defaults_ok (norm_ty <$> state_types m) (state_defaults m) &&
  list_ok storable_str (state_names m) && bool_decide (state_index m = index_names (state_names m)) &&
  list_ok shape_ok (struct_shapes m) && bool_decide (struct_index m = index_names (sh_name <$> struct_shapes m)) &&
  list_ok fn_ok (functions m) && bool_decide (fn_index m = index_names (f_name <$> functions m)) &&
  list_ok path_ok (path_specs m) &&
  list_ok enum_ok (enum_shapes m) && bool_decide (enum_index m = index_names (en_name <$> enum_shapes m)) &&
  list_ok iface_ok (interfaces m) && bool_decide (interface_index m = index_names (if_name <$> interfaces m)) &&
  list_ok handler_ok (map_to_list (handler_dispatch m)).

(** ** Normal forms *)
Definition norm_fn (f : BcFn) : BcFn :=
  mkFn (f_name f) (n_params f) (n_regs f) (code f) (consts f) (is_entry f) (is_nore f) (read_groups f)
    (norm_ty <$> param_types f) (norm_ty (return_type f)) (is_view f) (is_pure f).

Definition norm_shape (s : StructShape) : StructShape :=
  mkStructShape (sh_name s) (field_names s) (norm_ty <$> field_types s) (sh_field_groups s) (is_pub s).

Definition norm_path (p : PathSpec) : PathSpec := mkPath (leaf_key p) (norm_ty (leaf_type p)) (is_blob p).

Definition norm_method (m : InterfaceMethod) : InterfaceMethod :=
  mkMethod (im_name m) ((λ p : bytes * Ty, (p.1, norm_ty p.2)) <$> im_params m)
    (norm_ty (im_return_type m)) (im_is_view m) (im_is_pure m).
Definition norm_iface (i : InterfaceDecl) : InterfaceDecl :=
  mkInterface (if_name i) (norm_method <$> if_methods i).

Definition norm_module (m : BcModule) : BcModule :=
  mkModule (m_name m) (imports m) (import_index m) (state_roots m) (norm_ty <$> state_types m)
    (state_defaults m) (state_names m) (state_index m) (norm_shape <$> struct_shapes m) (struct_index m)
    (norm_fn <$> functions m) (fn_index m) (norm_path <$> path_specs m) (handler_dispatch m)
    (enum_shapes m) (enum_index m) (norm_iface <$> interfaces m) (interface_index m).

(** ** Reading *)
Lemma reads_list_ok {A B} (f : A → bool) (p : RD B) w (g : A → B) l :
  list_ok f l = true → (∀ x, f x = true → reads p (w x) (g x)) →
  reads (read_list p) (write_list w l) (g <$> l).
Proof.
  intros [Hf Hl]%andb_prop Hp. apply reads_list; [done|]. intros x Hx. apply Hp. by eapply forallb_elem.
Qed.

Lemma reads_list_ok_id {A} (f : A → bool) (p : RD A) w l :
  list_ok f l = true → (∀ x, f x = true → reads p (w x) x) → reads (read_list p) (write_list w l) l.
Proof. intros Hl Hp. rewrite <- (list_fmap_id l) at 2. by apply (reads_list_ok f _ _ id). Qed.

Lemma reads_bigint n :
  fits_u32 (to_signed_bytes_be n) = true → reads read_bigint (write_str (to_signed_bytes_be n)) n.
Proof.
  intros Hn. eapply reads_bind; [by apply reads_u32, fits_u32_range|].
  eapply reads_last; [by apply reads_take|]. by rewrite signed_bytes_roundtrip.
Qed.

Lemma reads_const c : const_ok c = true → reads read_const (write_const c) c.
Proof.
  intros Hc. destruct c; cbn [const_ok write_const] in *;
    (eapply reads_bind; [apply reads_u8|]); cbv beta iota delta [read_const_body];
    try solve [repeat reads_step].
  - by apply (reads_map _ CInt), reads_bigint.
  - by apply (reads_map _ CUInt), reads_bigint.
  - eapply reads_last; [apply (reads_take (be_bytes 8 bits)); by rewrite zlen_be_bytes|].
    apply in_u_range in Hc. by rewrite be_value_be_bytes_id.
Qed.

Lemma reads_read_op op : read_op_ok op = true → reads read_read_op (write_read_op op) op.
Proof.
  intros Ho. destruct op; apply andb_prop in Ho as [H1 H2];
    (eapply reads_bind; [apply reads_u8|]); cbv beta iota; repeat reads_step.
Qed.

Lemma reads_fn f : fn_ok f = true → reads read_bcfn (write_bcfn f) (norm_fn f).
Proof.
  unfold fn_ok, read_bcfn, write_bcfn, norm_fn.
  rewrite !andb_true_iff. intros. destruct_and!. do 7 reads_step.
  eapply reads_bind; [by eapply reads_list_ok, reads_type|]. reads_step.
  eapply reads_bind; [by eapply reads_list_ok_id, reads_const|].
  eapply reads_bind; [by eapply reads_list_ok_id, reads_instr|].
  eapply reads_last; [|reflexivity]. eapply reads_list_ok_id; [done|].
  intros g Hg. by eapply reads_list_ok_id, reads_read_op.
Qed.

Lemma reads_path p : path_ok p = true → reads read_path (write_path p) (norm_path p).
Proof.
  unfold path_ok, write_path, norm_path.
  intros [Hk Ht]%andb_prop. unfold read_path. repeat reads_step.
Qed.

Lemma reads_enum e : enum_ok e = true → reads read_enum (write_enum e) e.
Proof.
  destruct e as [n vs]. intros [Hn Hv]%andb_prop. unfold read_enum, write_enum. cbn [en_name variant_names] in *.
  reads_step. eapply reads_last; [|reflexivity]. by eapply reads_list_ok_id, reads_str.
Qed.

Lemma reads_method m : method_ok m = true → reads read_method (write_method m) (norm_method m).
Proof.
  unfold method_ok, read_method, write_method, norm_method.
  rewrite !andb_true_iff. intros. destruct_and!. do 3 reads_step. eapply reads_bind.
  - eapply (reads_list_ok _ _ _ (λ p : bytes * Ty, (p.1, norm_ty p.2))); [done|].
    intros [n t] [Hn Ht]%andb_prop. unfold read_named. cbn [fst snd] in *. repeat reads_step.
  - repeat reads_step.
Qed.

Lemma reads_iface i : iface_ok i = true → reads read_iface (write_iface i) (norm_iface i).
Proof.
  intros [Hn Hm]%andb_prop. unfold read_iface, write_iface, norm_iface.
  reads_step. eapply reads_last; [|reflexivity]. by eapply reads_list_ok, reads_method.
Qed.

Lemma reads_shape_fields names tys groups :
  length tys = length names → length groups = length names →
  forallb storable_str names = true → forallb ty_ok tys = true → groups_ok groups = true →
  ∃ e, write_shape_fields names tys groups = Ok e ∧
    reads (read_n (length names) (read_grouped read_type)) e (zip (zip names (norm_ty <$> tys)) groups).
Proof.
  revert tys groups. induction names as [|n names IH]; intros [|t tys] [|g groups]; try done.
  { intros _ _ _ _ _. eexists. split; [done|]. apply reads_ret. }
  cbn [length forallb groups_ok]. intros [= Ht] [= Hg] [Hn Hns]%andb_prop [Hty Htys]%andb_prop [Hgo Hgs]%andb_prop.
  destruct (IH tys groups Ht Hg Hns Htys Hgs) as (e & E & He).
  cbn [write_shape_fields head tail or_panic hd_error]. cbn. rewrite E. cbn. eexists. split; [done|].
  rewrite !app_assoc. eapply reads_bind; [|by apply reads_map].
  rewrite <- app_assoc. unfold read_grouped. do 2 reads_step. eapply reads_last; [|reflexivity].
  apply reads_opt_id. intros x ->. by apply reads_str.
Qed.

Lemma reads_shape s : shape_ok s = true →
  ∃ e, write_shape s = Ok e ∧ reads read_shape e (norm_shape s).
Proof.
  unfold shape_ok, list_ok. rewrite !andb_true_iff, !bool_decide_eq_true. intros. destruct_and!.
  destruct (reads_shape_fields (field_names s) (field_types s) (sh_field_groups s)) as (e & E & He); try done.
  unfold write_shape. rewrite E. cbn. eexists. split; [done|]. unfold read_shape. reads_step.
  rewrite !app_assoc. eapply reads_bind.
  - eapply reads_bind; [by apply reads_u32, fits_u32_range|]. unfold zlen. by rewrite Nat2Z.id.
  - eapply reads_last; [apply reads_bool|]. unfold norm_shape. f_equal.
    rewrite (fst_zip (zip _ _)), fst_zip, snd_zip, snd_zip; try done;
      rewrite ?length_zip_with, ?length_fmap; lia.
Qed.

Lemma default_unwrap v ty : storable v ty = true → unwrap_explicit ty = ty.
Proof. destruct ty; try done. by destruct v. Qed.

Lemma reads_defaults tys vs : defaults_ok tys vs = true →
  ∃ es, mapM_out write_default vs = Ok es ∧ reads (read_defaults tys (length vs)) (concat es) vs.
Proof.
  revert tys. induction vs as [|v vs IH]; intros tys; cbn [defaults_ok].
  { intros _. exists []. split; [done|]. apply reads_ret. }
  rewrite !andb_true_iff. intros [[Hv Hf] Hvs]. destruct (IH _ Hvs) as (es & Es & Hes).
  assert (E : write_default v = Ok (write_str (ser v))).
  { unfold write_default. by rewrite (serialize_ser _ _ Hv). }
  cbn [mapM_out]. rewrite E. cbn. rewrite Es. cbn.
  exists (write_str (ser v) :: es). split; [done|].
  cbn [concat length read_defaults]. unfold write_str. rewrite <- app_assoc.
  eapply reads_bind; [by apply reads_u32, fits_u32_range|].
  eapply reads_bind; [by apply reads_take|].
  rewrite deserialize_ser by (by rewrite (default_unwrap v)).
  apply (reads_ret_bind (Some v)). by apply (reads_map _ (cons v)).
Qed.

Lemma reads_list_out {A B} (f : A → bool) (p : RD B) w (g : A → B) l :
  list_ok f l = true → (∀ x, f x = true → ∃ e, w x = Ok e ∧ reads p e (g x)) →
  ∃ e, write_list_out w l = Ok e ∧ reads (read_list p) e (g <$> l).
Proof.
  intros [Hf Hl]%andb_prop Hp. unfold write_list_out.
  assert (∃ es, mapM_out w l = Ok es ∧ reads (read_n (length l) p) (concat es) (g <$> l)) as (es & Es & Hes).
  { clear Hf. induction l as [|x l IH]; [exists []; split; [done|apply reads_ret]|].
    apply andb_prop in Hl as [Hx Hl]. destruct (Hp x Hx) as (e & E & He), (IH Hl) as (es & Es & Hes).
    cbn [mapM_out]. rewrite E. cbn. rewrite Es. cbn. eexists. split; [done|].
    eapply reads_bind; [done|]. by apply (reads_map _ (cons (g x))). }
  rewrite Es. cbn. eexists. split; [done|].
  eapply reads_bind; [by apply reads_u32, fits_u32_range|]. unfold zlen. by rewrite Nat2Z.id.
Qed.

(** *** Handlers *)
Lemma insert_all_lookup (F : bytes → list Z) (ks : list bytes) (m : gmap bytes (list Z)) k :
  foldl (λ m p, <[p.1 := p.2]> m) m ((λ k, (k, F k)) <$> ks) !! k =
  if decide (k ∈ ks) then Some (F k) else m !! k.
Proof.
  revert m. induction ks as [|k' ks IH]; intros m; [done|]. cbn [fmap list_fmap foldl fst snd].
  rewrite IH. destruct (decide (k ∈ ks)), (decide (k ∈ k' :: ks)); try done.
  - set_solver.
  - destruct (decide (k = k')) as [->|]; [by rewrite lookup_insert_eq|set_solver].
  - rewrite lookup_insert_ne; [done|]. set_solver.
Qed.

Lemma handler_keys_perm m : handler_keys m ≡ₚ (map_to_list (handler_dispatch m)).*1.
Proof. apply merge_sort_Permutation. Qed.

Lemma handler_key_elem m k : k ∈ handler_keys m ↔ is_Some (handler_dispatch m !! k).
Proof.
  rewrite handler_keys_perm, list_elem_of_fmap. split.
  - intros ([k' v] & -> & Hin%elem_of_map_to_list). eauto.
  - intros [v Hv]. exists (k, v). split; [done|]. by apply elem_of_map_to_list.
Qed.

Lemma reads_handlers m :
  list_ok handler_ok (map_to_list (handler_dispatch m)) = true →
  reads (read_list read_handler) (write_list (write_handler m) (handler_keys m))
    ((λ k, (k, default [] (handler_dispatch m !! k))) <$> handler_keys m).
Proof.
  intros [Hf Hh]%andb_prop. apply reads_list.
  - unfold fits_u32, zlen in *. by rewrite (Permutation_length (handler_keys_perm m)), length_fmap.
  - intros k [v Hv]%handler_key_elem. unfold read_handler, write_handler. rewrite Hv. cbn [default].
    pose proof (proj2 (elem_of_map_to_list _ _ _) Hv) as Hin.
    apply (forallb_elem _ _ _ Hh) in Hin. apply andb_prop in Hin as [Hk Hi]. cbn [fst snd] in *.
    reads_step. eapply reads_last; [|done]. by eapply reads_list_ok_id, reads_u16.
Qed.

Lemma handlers_restored m :
  foldl (λ m p, <[p.1 := p.2]> m) ∅ ((λ k, (k, default [] (handler_dispatch m !! k))) <$> handler_keys m)
  = handler_dispatch m.
Proof.
  apply map_eq. intros k. rewrite (insert_all_lookup (λ k, default [] (handler_dispatch m !! k))).
  destruct (decide (k ∈ handler_keys m)) as [[v Hv]%handler_key_elem|Hn].
  - by rewrite Hv.
  - rewrite lookup_empty. symmetry. apply eq_None_not_Some. by rewrite <- handler_key_elem.
Qed.

(** *** Modules *)
Lemma index_names_norm {A} (f : A → bytes) (g : A → A) l :
  (∀ x, f (g x) = f x) → index_names (f <$> (g <$> l)) = index_names (f <$> l).
Proof. intros Hfg. f_equal. rewrite <- list_fmap_compose. apply list_fmap_ext. intros. apply Hfg. Qed.

Lemma reads_module m : module_ok m = true →
  ∃ e, write_module m = Ok e ∧ reads read_module e (norm_module m).
Proof.
  unfold module_ok. rewrite !andb_true_iff, !bool_decide_eq_true. intros Hm. destruct_and! Hm.
  destruct (reads_defaults (norm_ty <$> state_types m) (state_defaults m)) as (es & Es & Hes); [done|].
  destruct (reads_list_out shape_ok read_shape write_shape norm_shape (struct_shapes m)) as (sh & Esh & Hsh);
    [done|apply reads_shape|].
  unfold write_module. rewrite Esh. unfold write_list_out at 1. rewrite Es. cbn [mbind outcome_bind].
  eexists. split; [done|]. unfold read_module. rewrite <- ?app_assoc.
  reads_step.
  eapply reads_bind; [by eapply reads_list_ok_id, reads_str|].
  eapply reads_bind; [by eapply reads_list_ok_id, reads_u128|].
  eapply reads_bind; [by eapply reads_list_ok, reads_type|].
  eapply reads_bind; [by apply reads_u32, fits_u32_range|].
  unfold zlen at 1. rewrite Nat2Z.id. eapply reads_bind; [done|].
  eapply reads_bind; [by eapply reads_list_ok_id, reads_str|].
  eapply reads_bind; [done|].
  eapply reads_bind; [by eapply reads_list_ok, reads_fn|].
  eapply reads_bind; [by eapply reads_list_ok, reads_path|].
  eapply reads_bind; [by eapply reads_list_ok_id, reads_enum|].
  eapply reads_bind; [by eapply reads_list_ok, reads_iface|].
  eapply reads_last; [by apply reads_handlers|]. rewrite handlers_restored. unfold norm_module.
  rewrite !index_names_norm by done. congruence.
Qed.
End artifacts.
