(* ===== verification/ArtifactTotal.v ===== *)
(** Readers stop, and look only at what they consume: reading longer input gives
    the same answer, and the fuel of the type reader is never exhausted. *)
From S2P Require Import Prelude Bytes Hashing Values Serialize SerializeFacts JsonText Display Ops Bytecode ArtifactBase ArtifactInstr Artifact.

(** [p] on some input does what [q] does on every longer input, where [p]
    answers; [p] can run out of fuel only with [n] bytes to go. *)
Definition tame {A} (n : Z) (p q : RD A) : Prop := ∀ bs ext k,
  is_bytes bs = true → 0 <= k <= zlen bs →
  match p (mkReader bs k) with
  | (Ok v, r') => ∃ k', r' = mkReader bs k' ∧ k <= k' <= zlen bs ∧
      q (mkReader (bs ++ ext) k) = (Ok v, mkReader (bs ++ ext) k')
  | (OutOfFuel, _) => n <= zlen bs - k
  | _ => True
  end.

Lemma tame_ret {A} n (v : A) : tame n (mret v) (mret v).
Proof. intros bs ext k Hb Hk. exists k. splits; done || lia. Qed.
Lemma tame_reject {A} n msg : @tame A n (reject msg) (reject msg).
Proof. done. Qed.

Lemma tame_bind {A B} n p q (f g : A → RD B) :
  tame n p q → (∀ x, tame n (f x) (g x)) → tame n (p ≫= f) (q ≫= g).
Proof.
  intros Hp Hf bs ext k Hb Hk. specialize (Hp bs ext k Hb Hk). unfold mbind, SM_bind.
  destruct (p (mkReader bs k)) as [[v| | |] r']; try done.
  destruct Hp as (k' & -> & Hk' & ->). specialize (Hf v bs ext k' Hb ltac:(lia)).
  destruct (f v (mkReader bs k')) as [[w| | |] r2]; try done; [|lia].
  destruct Hf as (k2 & -> & Hk2 & ->). exists k2. splits; [done|lia..|done].
Qed.

Lemma take_cases bs k n :
  is_bytes bs = true → 0 <= k <= zlen bs → 0 <= n →
  (∃ msg, take_bytes n (mkReader bs k) = (Err msg, mkReader bs k)) ∨
  (∃ b, is_bytes b = true ∧ zlen b = n ∧ k + n <= zlen bs ∧
    ∀ ext, take_bytes n (mkReader (bs ++ ext) k) = (Ok b, mkReader (bs ++ ext) (k + n))).
Proof.
  intros Hb Hk Hn. unfold take_bytes. cbn [r_bytes r_pos].
  destruct (Z.ltb_spec (zlen bs) (k + n)); [left; by eexists|right].
  exists (take (Z.to_nat n) (drop (Z.to_nat k) bs)). splits.
  - by apply is_bytes_take, is_bytes_drop.
  - unfold zlen in *. rewrite length_take, length_drop. lia.
  - done.
  - intros ext. rewrite zlen_app. pose proof (zlen_nonneg ext).
    destruct (Z.ltb_spec (zlen bs + zlen ext) (k + n)); [lia|].
    unfold get_range. rewrite zlen_app. replace (_ && _ && _) with true by lia.
    cbn. do 2 f_equal. unfold zlen in *.
    rewrite drop_app_le, take_app_le; [done| |]; rewrite ?length_drop; lia.
Qed.

(** What is taken consists of bytes; a tag pays for a level of recursion. *)
Lemma tame_take_bind {A} n m (f g : bytes → RD A) :
  0 <= m → (∀ b, is_bytes b = true → zlen b = m → tame (n - m) (f b) (g b)) →
  tame n (take_bytes m ≫= f) (take_bytes m ≫= g).
Proof.
  intros Hm Hf bs ext k Hb Hk. unfold mbind, SM_bind.
  destruct (take_cases bs k m Hb Hk Hm) as [[msg ->]|(b & Hbb & Hl & Hle & Ht)]; [done|].
  rewrite Ht. pose proof (Ht []) as Ht0. rewrite app_nil_r in Ht0. rewrite Ht0.
  specialize (Hf b Hbb Hl bs ext (k + m) Hb ltac:(lia)).
  destruct (f b (mkReader bs (k + m))) as [[w| | |] r2]; try done; [|lia].
  destruct Hf as (k2 & -> & Hk2 & ->). exists k2. splits; [done|lia..|done].
Qed.

(** Readers without fuel. *)
Definition steady {A} (p : RD A) : Prop := ∀ n, tame n p p.

Lemma steady_take m : 0 <= m → steady (take_bytes m).
Proof.
  intros Hm n bs ext k Hb Hk.
  destruct (take_cases bs k m Hb Hk Hm) as [[msg ->]|(b & Hbb & Hl & Hle & Ht)]; [done|].
  rewrite Ht. pose proof (Ht []) as Ht0. rewrite app_nil_r in Ht0. rewrite Ht0.
  exists (k + m). splits; [done|lia..|done].
Qed.

Lemma tame_tag {A} n (f g : Z → RD A) :
  (∀ tag, tame n (f tag) (g tag)) → tame (n + 1) (read_u8 ≫= f) (read_u8 ≫= g).
Proof.
  intros Hf bs ext k Hb Hk. unfold read_u8, mbind, SM_bind.
  destruct (take_cases bs k 1 Hb Hk ltac:(lia)) as [[msg ->]|(b & Hbb & Hl & Hle & Ht)]; [done|].
  rewrite Ht. pose proof (Ht []) as Ht0. rewrite app_nil_r in Ht0. rewrite Ht0.
  destruct b as [|x b]; [done|]. cbn [head hd_error or_panic lift].
  specialize (Hf x bs ext (k + 1) Hb ltac:(lia)).
  destruct (f x (mkReader bs (k + 1))) as [[w| | |] r2]; try done; [|lia].
  destruct Hf as (k2 & -> & Hk2 & ->). exists k2. splits; done || lia.
Qed.

Lemma steady_bind {A B} (p : RD A) (f : A → RD B) :
  steady p → (∀ x, steady (f x)) → steady (p ≫= f).
Proof. intros Hp Hf n. apply tame_bind; [apply Hp|]. intros x. apply Hf. Qed.
Lemma steady_ret {A} (v : A) : steady (mret v).
Proof. intros n. apply tame_ret. Qed.
Lemma steady_reject {A} msg : steady (@reject A msg).
Proof. intros n. apply tame_reject. Qed.
Lemma steady_panic {A} (o : option A) : steady (lift (or_panic o)).
Proof. intros n. destruct o; [apply tame_ret|done]. Qed.

Create HintDb steady.
#[export] Hint Resolve steady_ret steady_reject steady_panic steady_bind : steady.
#[export] Hint Extern 1 (steady (take_bytes _)) => apply steady_take; lia : steady.

Lemma steady_u8 : steady read_u8.
Proof. apply steady_bind; [by apply steady_take|intros b; apply steady_panic]. Qed.
Lemma steady_u16 : steady read_u16.
Proof. apply steady_bind; [by apply steady_take|intros b; apply steady_ret]. Qed.
Lemma steady_u32 : steady read_u32.
Proof. apply steady_bind; [by apply steady_take|intros b; apply steady_ret]. Qed.
Lemma steady_u64 : steady read_u64.
Proof. apply steady_bind; [by apply steady_take|intros b; apply steady_ret]. Qed.
Lemma steady_u128 : steady read_u128.
Proof. apply steady_bind; [by apply steady_take|intros b; apply steady_ret]. Qed.
Lemma steady_i32 : steady read_i32.
Proof. apply steady_bind; [by apply steady_take|intros b; apply steady_ret]. Qed.
#[export] Hint Resolve steady_u8 steady_u16 steady_u32 steady_u64 steady_u128 steady_i32 : steady.
Lemma steady_bool : steady read_bool.
Proof. apply steady_bind; [apply steady_u8|intros b; apply steady_ret]. Qed.
#[export] Hint Resolve steady_bool : steady.

(** A [u32] count, then a reader that may count on it being one. *)
Lemma tame_count {A} n (f g : Z → RD A) :
  (∀ m, 0 <= m → tame n (f m) (g m)) → tame n (read_u32 ≫= f) (read_u32 ≫= g).
Proof.
  intros Hf bs ext k Hb Hk. unfold read_u32, mbind, SM_bind.
  destruct (take_cases bs k 4 Hb Hk ltac:(lia)) as [[msg ->]|(b & Hbb & Hl & Hle & Ht)]; [done|].
  rewrite Ht. pose proof (Ht []) as Ht0. rewrite app_nil_r in Ht0. rewrite Ht0.
  specialize (Hf (be_value b) (be_value_nonneg b Hbb) bs ext (k + 4) Hb ltac:(lia)).
  destruct (f (be_value b) (mkReader bs (k + 4))) as [[w| | |] r2] eqn:E; cbn [mret SM_ret];
    rewrite E; try done; [|lia].
  destruct Hf as (k2 & -> & Hk2 & Eg). rewrite Eg. exists k2. splits; done || lia.
Qed.

Lemma steady_str : steady read_str.
Proof.
  intros n. apply tame_count. intros m Hm. apply tame_bind; [by apply steady_take|].
  intros b. destruct (from_utf8 b); [apply tame_ret|apply tame_reject].
Qed.
#[export] Hint Resolve steady_str : steady.

Lemma tame_n {A} n m (p q : RD A) : tame n p q → tame n (read_n m p) (read_n m q).
Proof.
  intros Hp. induction m as [|m IH]; [apply tame_ret|]. cbn [read_n].
  apply tame_bind; [done|]. intros x. apply tame_bind; [done|]. intros xs. apply tame_ret.
Qed.

Lemma tame_list {A} n (p q : RD A) : tame n p q → tame n (read_list p) (read_list q).
Proof. intros Hp. apply tame_bind; [apply steady_u32|]. intros m. by apply tame_n. Qed.

Lemma tame_opt {A} n (p q : RD A) : tame n p q → tame n (read_opt p) (read_opt q).
Proof.
  intros Hp. apply tame_bind; [apply steady_bool|]. intros [|]; [|apply tame_ret].
  apply tame_bind; [done|]. intros x. apply tame_ret.
Qed.

Lemma steady_list {A} (p : RD A) : steady p → steady (read_list p).
Proof. intros Hp n. apply tame_list, Hp. Qed.
Lemma steady_opt {A} (p : RD A) : steady p → steady (read_opt p).
Proof. intros Hp n. apply tame_opt, Hp. Qed.
#[export] Hint Resolve steady_list steady_opt : steady.

(** Every read of a fixed shape. *)
Ltac steady := repeat first
  [ solve [auto with steady]
  | apply steady_list | apply steady_opt | apply steady_bind; [|intros ?]
  | match goal with |- steady (match ?x with _ => _ end) => destruct x end ].


(** ** Types *)
Section read_type.
Context (n : Z) (p q : RD Ty) (Hpq : tame n p q).

Local Ltac tame := repeat first
  [ apply tame_ret | apply tame_reject | done | apply steady_str | apply steady_bool
  | apply tame_list | apply tame_opt | apply tame_bind; [|intros ?] ].

Lemma tame_sig : tame n (read_sig p) (read_sig q).
Proof.
  unfold read_sig. tame.
Qed.

Lemma tame_type_body tag : tame n (read_type_body p tag) (read_type_body q tag).
Proof.
  unfold read_type_body, read_pair, read_grouped, read_variant, read_named.
  repeat match goal with |- tame _ (match ?x with _ => _ end) _ => destruct x end;
    tame.
  all: apply tame_sig.
Qed.
End read_type.

Lemma tame_type_f n m : (n ≤ m)%nat → tame (Z.of_nat n) (read_type_f n) (read_type_f m).
Proof.
  revert m. induction n as [|n IH]; intros m Hm; [intros bs ext k Hb Hk; cbn; lia|].
  destruct m as [|m]; [lia|]. cbn [read_type_f]. rewrite Nat2Z.inj_succ. apply tame_tag.
  intros tag. apply tame_type_body, IH. lia.
Qed.

Lemma steady_type : steady read_type.
Proof.
  intros n bs ext k Hb Hk. unfold read_type. cbn [r_bytes].
  assert (Hle : (S (length bs) ≤ S (length (bs ++ ext)))%nat) by (rewrite length_app; lia).
  pose proof (tame_type_f _ _ Hle bs ext k Hb Hk) as Ht.
  destruct (read_type_f (S (length bs)) (mkReader bs k)) as [[v| | |] r']; try done.
  unfold zlen in *. lia.
Qed.
#[export] Hint Resolve steady_type : steady.

(** ** Everything else *)
Lemma steady_instr : steady read_instr.
Proof.
  unfold read_instr. apply steady_bind; [apply steady_u8|]. intros tag.
  unfold read_operands, binop_from_byte, unop_from_byte, read_range. steady.
Qed.
#[export] Hint Resolve steady_instr : steady.

Lemma steady_read_op : steady read_read_op.
Proof. unfold read_read_op. steady. Qed.
#[export] Hint Resolve steady_read_op : steady.

Section modules.
Context `{BigIntCodec}.

Lemma steady_bigint : steady read_bigint.
Proof.
  intros n. apply tame_count. intros m Hm. apply tame_bind; [by apply steady_take|].
  intros b. apply tame_ret.
Qed.

#[local] Hint Resolve steady_bigint : steady.

Lemma steady_const : steady read_const.
Proof.
  unfold read_const, read_const_body. apply steady_bind; [apply steady_u8|]. intros tag. steady.
Qed.
#[local] Hint Resolve steady_const : steady.

Lemma steady_fn : steady read_bcfn.
Proof. unfold read_bcfn. steady. Qed.
#[local] Hint Resolve steady_fn : steady.

Lemma steady_deserialize ty len : 0 <= len →
  ∀ n A (f g : option Value → RD A), (∀ o, tame n (f o) (g o)) →
  tame n (b ← take_bytes len; o ← lift (deserialize b ty); f o)
    (b ← take_bytes len; o ← lift (deserialize b ty); g o).
Proof.
  intros Hl n A f g Hf. apply tame_take_bind; [done|]. intros b Hb _.
  destruct (decoder_total b ty Hb) as [Hd _]. intros bs ext k Hbs Hk.
  unfold mbind, SM_bind, lift. destruct (deserialize b ty) as [o|e| |]; try done.
  specialize (Hf o bs ext k Hbs Hk). destruct (f o (mkReader bs k)) as [[w| | |] r2]; try done. lia.
Qed.

Lemma steady_defaults tys m : steady (read_defaults tys m).
Proof.
  intros n. revert tys. induction m as [|m IH]; intros tys; [apply tame_ret|]. cbn [read_defaults].
  apply tame_count. intros len Hl. apply steady_deserialize; [done|]. intros [v|]; [|apply tame_reject].
  apply tame_bind; [apply IH|]. intros vs. apply tame_ret.
Qed.

#[local] Hint Resolve steady_defaults : steady.

Lemma steady_module : steady read_module.
Proof.
  unfold read_module, read_shape, read_path, read_enum, read_iface, read_method, read_handler,
    read_grouped, read_named.
  steady.
Qed.
End modules.
