(* ===== verification/ArtifactSpec.v ===== *)
(** Artifacts as a format: round trip and stable hash, prefix-freedom, and
    termination of the decoder. *)
From S2P Require Import Prelude Bytes Hashing Values Serialize SerializeFacts JsonText Display.
From S2P Require Import Ops Bytecode ArtifactBase ArtifactInstr Artifact ArtifactTypes.
From S2P Require Import ArtifactTypes ArtifactFacts ArtifactTotal.
(** ** The normal form is written alike *)
Section norm.
Context `{BigIntCodec}.

Lemma write_types_norm l : write_list write_type (norm_ty <$> l) = write_list write_type l.
Proof. apply write_list_fmap, Forall_true. intros t. apply write_norm. Qed.

Lemma write_fn_norm f : write_bcfn (norm_fn f) = write_bcfn f.
Proof. unfold write_bcfn, norm_fn. cbn. by rewrite write_types_norm, write_norm. Qed.

Lemma write_path_norm p : write_path (norm_path p) = write_path p.
Proof. unfold write_path, norm_path. cbn. by rewrite write_norm. Qed.

Lemma write_method_norm m : write_method (norm_method m) = write_method m.
Proof.
  unfold write_method, norm_method. cbn. rewrite write_norm. do 4 f_equal.
  apply write_list_fmap, Forall_true. intros [n t]. cbn. by rewrite write_norm.
Qed.

Lemma write_iface_norm i : write_iface (norm_iface i) = write_iface i.
Proof.
  unfold write_iface, norm_iface. cbn. f_equal. apply write_list_fmap, Forall_true, write_method_norm.
Qed.

Lemma write_shape_fields_norm names tys groups :
  write_shape_fields names (norm_ty <$> tys) groups = write_shape_fields names tys groups.
Proof.
  revert tys groups. induction names as [|n names IH]; intros [|t tys] groups; try done.
  cbn. destruct groups as [|g groups]; [done|]. cbn. by rewrite IH, write_norm.
Qed.

Lemma write_list_out_fmap {A B} (w : B → outcome bytes) (w' : A → outcome bytes) (f : A → B) l :
  (∀ x, w (f x) = w' x) → write_list_out w (f <$> l) = write_list_out w' l.
Proof.
  intros Hf. unfold write_list_out, zlen. rewrite length_fmap.
  assert (mapM_out w (f <$> l) = mapM_out w' l) as ->; [|done].
  induction l as [|x l IH]; [done|]. cbn. by rewrite Hf, IH.
Qed.

Lemma write_module_norm m : write_module (norm_module m) = write_module m.
Proof.
  unfold write_module, norm_module.
  cbn [m_name imports state_roots state_types state_defaults state_names struct_shapes functions
    path_specs enum_shapes interfaces].
  rewrite (write_list_out_fmap write_shape write_shape norm_shape).
  - rewrite write_types_norm, (write_list_fmap write_bcfn write_bcfn norm_fn),
      (write_list_fmap write_path write_path norm_path), (write_list_fmap write_iface write_iface norm_iface);
      [done|apply Forall_true, write_iface_norm|apply Forall_true, write_path_norm
      |apply Forall_true, write_fn_norm].
  - intros s. unfold write_shape, norm_shape. cbn. by rewrite write_shape_fields_norm.
Qed.

(** ** Accepting *)
Lemma decode_ends bs ms pos :
  read_modules (mkReader bs 0) = (Ok ms, mkReader bs pos) →
  decode bs = if pos =? zlen bs then Ok ms else
    Err (decode_err ("artifact has " +:+ text (dec (zlen bs - pos)) +:+ " trailing bytes after the last module")).
Proof.
  intros Hr. unfold decode, read_artifact. rewrite (SM_bind_ok _ _ _ _ _ Hr).
  unfold mbind, SM_bind, gets. cbn [r_bytes r_pos]. by destruct (pos =? zlen bs).
Qed.

Lemma decode_reads bs ms : reads read_modules bs ms → decode bs = Ok ms.
Proof.
  intros Hr. specialize (Hr [] []). rewrite app_nil_r in Hr. change ([] ++ bs) with bs in Hr.
  rewrite (decode_ends _ _ _ Hr). by rewrite Z.eqb_refl.
Qed.

Lemma steady_modules : steady read_modules.
Proof.
  unfold read_modules. apply steady_bind; [by apply steady_take|]. intros magic.
  destruct (negb _); [apply steady_reject|].
  do 2 (apply steady_bind; [apply steady_u8|intros ?]).
  destruct (negb _); [apply steady_reject|]. apply steady_list, steady_module.
Qed.

(** An accepted artifact was read to its end, and is read alike in front of more
    bytes. *)
Lemma accepted bs ms ext :
  is_bytes bs = true → decode bs = Ok ms →
  read_modules (mkReader (bs ++ ext) 0) = (Ok ms, mkReader (bs ++ ext) (zlen bs)).
Proof.
  intros Hb Hd. pose proof (steady_modules 0 bs ext 0 Hb) as Hs. pose proof (zlen_nonneg bs).
  specialize (Hs ltac:(lia)). destruct (read_modules (mkReader bs 0)) as [[l|e| |] r] eqn:Hr.
  - destruct Hs as (k & -> & Hk & Hs). rewrite (decode_ends _ _ _ Hr) in Hd.
    destruct (k =? zlen bs) eqn:Ek; [|done]. apply Z.eqb_eq in Ek. subst k. by injection Hd as ->.
  - unfold decode, read_artifact, mbind, SM_bind in Hd. by rewrite Hr in Hd.
  - unfold decode, read_artifact, mbind, SM_bind in Hd. by rewrite Hr in Hd.
  - unfold decode, read_artifact, mbind, SM_bind in Hd. by rewrite Hr in Hd.
Qed.

Lemma trailing_rejected bs ms ext :
  is_bytes bs = true → decode bs = Ok ms → ext ≠ [] → ∃ e, decode (bs ++ ext) = Err e.
Proof.
  intros Hb Hd Hext. rewrite (decode_ends _ _ _ (accepted bs ms ext Hb Hd)), zlen_app.
  destruct (Z.eqb_spec (zlen bs) (zlen bs + zlen ext)); [|eauto].
  destruct ext; [done|]. rewrite zlen_cons in *. pose proof (zlen_nonneg ext). lia.
Qed.

(** C29: the artifact format is prefix-free: an artifact followed by anything is
    rejected with an error, and so no proper prefix of an artifact (a truncated
    download) decodes. *)
Theorem artifact_prefix_free bs ms :
  is_bytes bs = true → decode bs = Ok ms →
  (∀ ext, ext ≠ [] → ∃ e, decode (bs ++ ext) = Err e) ∧
  (∀ k ms', (k < length bs)%nat → decode (take k bs) ≠ Ok ms').
Proof.
  intros Hb Hd. split; [intros ext; by eapply trailing_rejected|]. intros k ms' Hk Hd'.
  destruct (trailing_rejected (take k bs) ms' (drop k bs)) as [e He]; [by apply is_bytes_take|done| |].
  - intros E. apply (f_equal length) in E. rewrite length_drop in E. cbn in E. lia.
  - rewrite take_drop in He. congruence.
Qed.

(** The decoder answers on every byte string. *)
Lemma artifact_decodes bs : is_bytes bs = true → decode bs ≠ OutOfFuel.
Proof.
  intros Hb Hd. pose proof (steady_modules (zlen bs + 1) bs [] 0 Hb) as Hs. pose proof (zlen_nonneg bs).
  specialize (Hs ltac:(lia)). unfold decode, read_artifact, mbind, SM_bind in Hd.
  destruct (read_modules (mkReader bs 0)) as [[l|e| |] r]; try done; [|lia].
  cbn in Hd. by destruct (negb _).
Qed.
End norm.

(** ** Round trip *)
Section roundtrip.
Context `{BigIntCodec} `{!BigIntCodecLaws}.

Lemma reads_modules_ok ms : list_ok module_ok ms = true →
  ∃ bs, encode ms = Ok bs ∧ reads read_modules bs (norm_module <$> ms).
Proof.
  intros Hms. destruct (reads_list_out module_ok read_module write_module norm_module ms) as (e & E & He);
    [done|apply reads_module|].
  unfold encode. rewrite E. eexists. split; [reflexivity|]. unfold read_modules.
  eapply reads_bind; [by apply reads_take|]. rewrite bool_decide_eq_true_2 by done. cbn [negb].
  do 2 (eapply reads_bind; [apply reads_u8|]). done.
Qed.

(** C28: artifacts round-trip: every well-formed set of modules is encoded, its
    bytes decode to the modules with their types in normal form (compile-time
    tags dropped, absent storage groups empty), and those encode to the same
    bytes, so that the content hash survives decoding. *)
Theorem artifact_roundtrip ms :
  list_ok module_ok ms = true →
  ∃ a, from_modules ms = Ok a ∧
    from_bytes (a_bytes a) = Ok (mkArtifact (a_bytes a) (content_hash a) (norm_module <$> ms)) ∧
    from_modules (norm_module <$> ms) = Ok (mkArtifact (a_bytes a) (content_hash a) (norm_module <$> ms)).
Proof.
  intros Hms. destruct (reads_modules_ok ms Hms) as (bs & E & Hr).
  exists (mkArtifact bs (child 0 bs) ms). unfold from_modules, from_bytes.
  cbn [a_bytes content_hash]. rewrite (decode_reads _ _ Hr), E. splits; [done..|].
  assert (encode (norm_module <$> ms) = Ok bs) as ->; [|done].
  unfold encode in *. by rewrite (write_list_out_fmap _ _ _ _ write_module_norm).
Qed.
End roundtrip.

(** * A module in artifact form, and the artifacts the decoder cannot handle. *)
#[local] Existing Instance TwosComplement.codec.
#[local] Existing Instance TwosComplement.laws.

Definition point_ty : Ty := TStruct (str "Point") [(str "x", TI32); (str "y", TExplicitLiteral TU64)] [None; None].

(** [state count: u64; state at: Point;] with a function, an enum, an interface
    and a handler. *)
Definition counter_fn : BcFn :=
  mkFn (str "main") 1 3
    [KvGet 1 0; LoadConst 2 0; Bin Add 1 1 2; KvPut 1 0; ParallelYield (Some 1); Jump (-6); Return 1]
    [CU64 1; CInt (-5); CStr (str "hi")] true false [[RState 1 0; RPath 2 0]]
    [TExplicitLiteral TU64] TU64 false false.

Definition counter (defaults : list Value) (tys : list Ty) : BcModule :=
  mkModule (str "m") [str "log"] (index_names [str "log"]) [1000; 1001] tys defaults
    [str "count"; str "at"] (index_names [str "count"; str "at"])
    [mkStructShape (str "Point") [str "x"; str "y"] [TI32; TU64] [None; Some (str "g")] true]
    (index_names [str "Point"]) [counter_fn] (index_names [str "main"]) [mkPath 77 TU64 false]
    (<[str "b" := [1; 2]]> (<[str "a" := [0]]> ∅)) [mkEnumShape (str "E") [str "A"; str "B"]]
    (index_names [str "E"])
    [mkInterface (str "I") [mkMethod (str "f") [(str "n", TU64)] TBool true false]] (index_names [str "I"]).

Definition counter_ok : BcModule :=
  counter [VU64 0; VStruct (str "Point") [(str "x", VI32 0); (str "y", VU64 0)]] [TU64; point_ty].

Lemma artifact_roundtrip_witness :
  list_ok module_ok [counter_ok] = true ∧
  ∃ a, from_modules [counter_ok] = Ok a ∧ a_bytes a ≠ [] ∧
    from_bytes (a_bytes a) = Ok (mkArtifact (a_bytes a) (content_hash a) [norm_module counter_ok]).
Proof.
  assert (Hok : list_ok module_ok [counter_ok] = true) by (vm_compute; reflexivity).
  split; [exact Hok|].
  destruct (artifact_roundtrip [counter_ok] Hok) as (a & Ea & Ed & _).
  exists a. split; [exact Ea|]. split; [|exact Ed].
  assert (E : (λ a, bool_decide (a_bytes a = [])) <$> from_modules [counter_ok] = Ok false)
    by (vm_compute; reflexivity).
  rewrite Ea in E. cbn [fmap outcome_fmap] in E. apply Ok_inj in E. by apply bool_decide_eq_false in E.
Defined.

(** The artifact of no modules. *)
Definition empty_artifact : bytes := MAGIC ++ [0; 17; 0; 0; 0; 0].

Lemma artifact_prefix_free_witness :
  is_bytes empty_artifact = true ∧ decode empty_artifact = Ok [] ∧
  decode (take 13 empty_artifact) ≠ Ok [].
Proof.
  split; [reflexivity|]. assert (Hd : decode empty_artifact = Ok []) by (vm_compute; reflexivity).
  split; [exact Hd|].
  destruct (artifact_prefix_free empty_artifact [] eq_refl Hd) as [_ Hp].
  apply Hp. vm_compute. lia.
Defined.

(** ** What does not decode *)

Definition round (m : BcModule) : outcome (list BcModule) := bs ← encode [m]; decode bs.

(** A program with a keyed-map state compiles to an artifact that does not
    decode: the default recorded for the state is the default of its values, and
    no value decodes at a map type. *)
Theorem map_state_undecodable :
  round (counter [VU64 0; default_for (TMap TU64 TU64)] [TU64; TMap TU64 TU64]) =
  Err (decode_err "could not deserialize state default value").
Proof. vm_compute. done. Qed.

(** The same for the two collection types without a storage form. *)
Lemma set_state_undecodable t :
  t = TSet TU64 ∨ t = TDict TU64 TU64 →
  round (counter [VU64 0; default_for t] [TU64; t]) =
  Err (decode_err "could not deserialize state default value").
Proof. intros [-> | ->]; vm_compute; done. Qed.

(** A default whose inner length runs past its bytes panics the decoder. *)
Definition corrupt_default : bytes :=
  MAGIC ++ [0; 17] ++ write_u32 1 ++ write_str (str "m") ++ write_u32 0 ++ write_u32 0 ++
  write_list write_type [TArray TString] ++ write_u32 1 ++
  write_str (TAG_ARRAY :: be_bytes 4 1 ++ TAG_STRING :: be_bytes 4 100).

Lemma corrupt_default_panics : decode corrupt_default = Panic.
Proof. vm_compute. done. Qed.

(** Any minor version is accepted, older or newer. *)
Lemma minor_version_ignored : decode (MAGIC ++ [0; 99; 0; 0; 0; 0]) = Ok [].
Proof. vm_compute. done. Qed.
