(* ===== verification/VmFacts.v ===== *)
(** The virtual machine halts on every program within its fuel, and never gains
    fuel. *)
From S2P Require Import Prelude Bytes Hashing Values Serialize Kv Merkle Tx TxTyped JsonText Floats Display Ops Builtins Bytecode VmBase VmState Vm.

(** ** Computations bounded by the fuel

    [metered N m]: from any state with at most [N] units of fuel, [m] comes to an
    end in the model and leaves no more fuel than it found. *)
Definition metered {A} (N : Z) (m : VM A) : Prop :=
  ∀ s, 0 <= fuel s <= N → ∃ o s', m s = Some (o, s') ∧ 0 <= fuel s' <= fuel s.

Create HintDb metered discriminated.

Section metered.
Context (N : Z).

Lemma metered_ret {A} (a : A) : metered N (mret a).
Proof. intros s Hs. exists (Ok a), s. split; [done|lia]. Qed.

Lemma metered_lift {A} (o : outcome A) : metered N (vm_lift o).
Proof. intros s Hs. exists o, s. split; [done|lia]. Qed.

Lemma metered_on_tx {A} (m : SM Tx A) : metered N (on_tx m).
Proof.
  intros s Hs. unfold on_tx. destruct (m (vm_tx s)) as [o t].
  exists o, (mkVm (fuel s) t (parallel_skip s)). split; [done|]. cbn. lia.
Qed.

Lemma metered_bind {A B} (m : VM A) (f : A → VM B) :
  metered N m → (∀ a, metered N (f a)) → metered N (m ≫= f).
Proof.
  intros Hm Hf s Hs. destruct (Hm s Hs) as (o & s1 & E & H1). unfold mbind, VM_bind. rewrite E.
  destruct o as [a|e| |]; [|by eexists _, s1..].
  destruct (Hf a s1 ltac:(lia)) as (o & s2 & E2 & H2). exists o, s2. split; [done|lia].
Qed.

Lemma metered_bill u : metered N (bill u).
Proof.
  intros s Hs. eexists _, _. split; [reflexivity|]. cbn. lia.
Qed.

Lemma metered_skip : metered N set_skip.
Proof. intros s Hs. eexists _, _. split; [reflexivity|]. cbn. lia. Qed.

Lemma metered_tick {A} (m : VM A) : metered N m → metered (N + 1) (_ ← tick; m).
Proof.
  intros Hm s Hs. unfold mbind, VM_bind, tick.
  destruct (Z.eqb_spec (fuel s) 0); [by eexists _, _; (split; [reflexivity|lia])|].
  destruct (Hm (mkVm (fuel s - 1) (vm_tx s) (parallel_skip s)) ltac:(cbn; lia)) as (o & s' & E & Hs').
  exists o, s'. split; [done|cbn in *; lia].
Qed.

(** A task in a shadow leaves the machine as it was. *)
Lemma metered_in_shadow m : metered N m → metered N (in_shadow m).
Proof.
  intros Hm s Hs. unfold in_shadow.
  destruct (Hm (mkVm (fuel s) (shadow_of (vm_tx s)) false) Hs) as (o & s' & -> & _).
  destruct o; eexists _, s; (split; [reflexivity|lia]).
Qed.

Lemma metered_run_legs ms : Forall (metered N) ms → metered N (run_legs ms).
Proof.
  induction 1 as [|m ms Hm _ IH]; [apply metered_ret|]. cbn [run_legs].
  apply metered_bind; [by apply metered_in_shadow|]. intros l.
  apply metered_bind; [done|]. intros ls. apply metered_ret.
Qed.

Lemma metered_merge_legs {A} (rerun : nat → A → VM Value) (finish : nat → Leg → A → VM A) :
  (∀ i a, metered N (rerun i a)) → (∀ i l a, metered N (finish i l a)) →
  ∀ rs i w acc, metered N (merge_legs rerun finish i rs w acc).
Proof.
  intros Hr Hf. induction rs as [|r rs IH]; intros i w acc; [apply metered_ret|]. cbn [merge_legs].
  apply metered_bind; [destruct r; apply metered_lift || apply metered_ret|]. intros l.
  apply metered_bind; [apply metered_bill|]. intros _.
  apply metered_bind.
  { destruct (conflicts l w); [|apply metered_ret].
    apply metered_bind; [by apply metered_in_shadow|]. intros again.
    apply metered_bind; [destruct again; apply metered_lift || apply metered_ret|]. intros l'.
    apply metered_bind; [apply metered_bill|]. intros _. apply metered_ret. }
  intros final. apply metered_bind; [apply metered_on_tx|]. intros _.
  apply metered_bind; [apply Hf|]. intros acc'. apply IH.
Qed.
End metered.

#[export] Hint Resolve metered_ret metered_lift metered_on_tx metered_bill metered_skip : metered.
#[export] Hint Extern 1 (metered _ (fail _)) => apply metered_lift : metered.
#[export] Hint Extern 1 (metered _ panic) => apply metered_lift : metered.
#[export] Hint Extern 1 (metered _ (reg _ _)) => apply metered_lift : metered.
#[export] Hint Extern 1 (metered _ (index _ _)) => apply metered_lift : metered.

(** Descends through binds and case analyses; the leaves are in the database. *)
Ltac meter :=
  repeat lazymatch goal with
  | |- metered _ (_ ≫= _) => apply metered_bind; [|intros ?]
  | |- metered _ (match ?x with _ => _ end) => destruct x
  | |- metered _ _ => solve [eauto 2 with metered]
  end.

Lemma metered_set_reg N regs r v : metered N (set_reg regs r v).
Proof. unfold set_reg. meter. Qed.
#[export] Hint Resolve metered_set_reg : metered.

Lemma metered_read_regs N regs rs : metered N (read_regs regs rs).
Proof. induction rs; cbn [read_regs]; meter. Qed.

Lemma metered_const_str N f i msg : metered N (const_str f i msg).
Proof. unfold const_str. meter. Qed.

Section codec.
Context `{BigIntCodec} `{FloatText} {Nan : FloatNan} (tree_fuel : nat) (N : Z).

Lemma metered_force_reg regs r : metered N (force_reg regs r).
Proof. unfold force_reg. meter. Qed.
Lemma metered_force_reg_spine regs r : metered N (force_reg_spine regs r).
Proof. unfold force_reg_spine. meter. Qed.
End codec.
#[export] Hint Resolve metered_read_regs metered_const_str metered_force_reg metered_force_reg_spine : metered.

Section ops.
Context `{BigIntCodec} `{FloatText} {Nan : FloatNan} (tree_fuel : nat) (N : Z).

Lemma metered_force_regs regs rs : metered N (force_regs regs rs).
Proof. revert regs. induction rs; intros regs; cbn [force_regs]; meter. Qed.

Lemma metered_batch_op m op : metered N (batch_op m op).
Proof. unfold batch_op. meter. Qed.
Hint Resolve metered_batch_op : metered.
Lemma metered_batch_ops m g : metered N (batch_ops m g).
Proof. induction g; cbn [batch_ops]; meter. Qed.
Lemma metered_scatter regs g vs : metered N (scatter regs g vs).
Proof. revert regs vs. induction g; intros regs [|v vs]; cbn [scatter]; meter. Qed.
Hint Resolve metered_batch_ops metered_scatter : metered.
Lemma metered_prefetch_ops root ty arr : metered N (prefetch_ops root ty arr).
Proof. induction arr; cbn [prefetch_ops]; meter. Qed.
Hint Resolve metered_prefetch_ops : metered.

Lemma metered_read_root m i : metered N (read_root m i).
Proof. unfold read_root. meter. Qed.
Lemma metered_write_root m i v : metered N (write_root m i v).
Proof. unfold write_root. meter. Qed.
Lemma metered_map_tys b m i : metered N (map_tys b m i).
Proof. unfold map_tys. meter. Qed.
Hint Resolve metered_read_root metered_write_root metered_map_tys : metered.
Lemma metered_root_hash b m i : metered N (root_hash b m i).
Proof. unfold root_hash. meter. Qed.
Hint Resolve metered_root_hash : metered.
Lemma metered_pvec_cell m i : metered N (pvec_cell m i).
Proof. unfold pvec_cell. meter. Qed.
Lemma metered_pvec_elem_ty m i : metered N (pvec_elem_ty m i).
Proof. unfold pvec_elem_ty. meter. Qed.
Hint Resolve metered_pvec_cell metered_pvec_elem_ty : metered.
Lemma metered_pvec_open m i : metered N (pvec_open m i).
Proof. unfold pvec_open. meter. Qed.
Lemma metered_pvec_index v : metered N (pvec_index v).
Proof. unfold pvec_index. meter. Qed.
Lemma metered_pvec_set_index v : metered N (pvec_set_index v).
Proof. unfold pvec_set_index. meter. Qed.
Hint Resolve metered_pvec_open metered_pvec_index metered_pvec_set_index : metered.

Lemma metered_state :
  (∀ m i, metered N (kv_get_state m i)) ∧ (∀ m i v, metered N (kv_put_state m i v)) ∧
  (∀ m i, metered N (kv_get_path m i)) ∧ (∀ m i v, metered N (kv_put_path m i v)) ∧
  (∀ m f g regs, metered N (read_batch m f g regs)) ∧ (∀ m i v, metered N (map_get m i v)) ∧
  (∀ m i v w, metered N (map_put m i v w)) ∧ (∀ m i v, metered N (prefetch_map m i v)) ∧
  (∀ m i, metered N (record_types m i)) ∧ (∀ m i v, metered N (pmap_get m i v)) ∧
  (∀ m i, metered N (pmap_walk_entries m i)) ∧ (∀ m i, metered N (pmap_walk_init m i)) ∧
  (∀ m i v, metered N (pbtree_get tree_fuel m i v)) ∧
  (∀ m i v w, metered N (pbtree_range tree_fuel m i v w)) ∧
  (∀ m i, metered N (pbtree_walk_init tree_fuel m i)) ∧ (∀ m i v, metered N (pvec_get m i v)) ∧
  (∀ m i v w, metered N (pvec_set m i v w)) ∧ (∀ m i v, metered N (pvec_push m i v)) ∧
  (∀ m i, metered N (pvec_len m i)) ∧ (∀ m i, metered N (pvec_to_array m i)) ∧
  (∀ m i v, metered N (reserve m i v)).
Proof.
  unfold kv_get_state, kv_put_state, kv_get_path, kv_put_path, read_batch, map_get, map_put,
    prefetch_map, record_types, pmap_get, pmap_walk_entries, pmap_walk_init, pbtree_get,
    pbtree_range, pbtree_walk_init, pvec_get, pvec_set, pvec_push, pvec_len, pvec_to_array, reserve.
  splits; intros; meter.
Qed.

Lemma metered_maps :
  (∀ b m i v, metered N (map_contains b m i v)) ∧ (∀ b m i v w, metered N (map_set b m i v w)) ∧
  (∀ b m i v, metered N (map_delete b m i v)) ∧ (∀ b m i v w, metered N (put_unique b m i v w)) ∧
  (∀ b m i v w, metered N (append_unique b m i v w)) ∧
  (∀ b m i v w, metered N (remove_unique b m i v w)) ∧
  (∀ b m i v w, metered N (remove_from_list b m i v w)).
Proof.
  unfold map_contains, map_set, map_delete, put_unique, append_unique, remove_unique, remove_from_list.
  splits; intros; meter.
Qed.

Lemma metered_store regs pc dst v : metered N (store regs pc dst v).
Proof. unfold store. meter. Qed.

Lemma metered_values :
  (∀ v, metered N (builtin_resource v)) ∧ (∀ v, metered N (builtin_unwrap v)) ∧
  (∀ v, metered N (builtin_address v)) ∧ (∀ v, metered N (builtin_len v)) ∧
  (∀ v w, metered N (array_alloc v w)) ∧ (∀ v w, metered N (array_append v w)) ∧
  (∀ v w, metered N (array_get v w)) ∧ (∀ v name, metered N (field_get v name)) ∧
  (∀ s v name, metered N (field_set s name v)) ∧ (∀ m v, metered N (enum_tag m v)) ∧
  (∀ v i, metered N (enum_payload v i)) ∧ (∀ v i, metered N (tuple_get v i)) ∧
  (∀ i, metered N (context_value i)) ∧ (∀ v, metered N (bound_module v)).
Proof.
  unfold builtin_resource, builtin_unwrap, builtin_address, builtin_len, array_alloc, array_append,
    array_get, field_get, field_set, enum_tag, enum_payload, tuple_get, context_value, bound_module.
  splits; intros; meter.
Qed.

Lemma metered_field_name_const f i : metered N (field_name_const f i).
Proof. unfold field_name_const. meter. Qed.
Lemma metered_make_set regs rs es : metered N (make_set regs rs es).
Proof. revert regs es. induction rs; intros regs es; cbn [make_set]; meter. Qed.
Lemma metered_make_dict regs n r ps : metered N (make_dict regs n r ps).
Proof. revert regs r ps. induction n; intros regs r ps; cbn [make_dict]; meter. Qed.
Lemma metered_struct_fields sh regs i rs : metered N (struct_fields sh regs i rs).
Proof. revert i. induction rs; intros i; cbn [struct_fields]; meter. Qed.
Lemma metered_find_interface ms i : metered N (find_interface ms i).
Proof. induction ms; cbn [find_interface]; meter. Qed.
Hint Resolve metered_find_interface : metered.
Lemma metered_make_interface ms i v : metered N (make_interface ms i v).
Proof. unfold make_interface. meter. Qed.
Lemma metered_resolve_entry ms a b x y z : metered N (resolve_entry ms a b x y z).
Proof. unfold resolve_entry. meter. Qed.
Lemma metered_call_host h m i args : metered N (call_host h m i args).
Proof. unfold call_host. meter. Qed.

(** ** One instruction *)
Section instruction.
Context (host : Host) (modules : list BcModule).
Context (call : Z → Z → list Value → VM Value) (body : Z → Z → list Value → Z → VM Value).
Context (Hcall : ∀ mi fi args, metered N (call mi fi args)).
Context (Hbody : ∀ mi fi regs pc, metered N (body mi fi regs pc)).

Lemma metered_dispatch m name v :
  metered N (dispatch_handlers_parallel modules call m name v).
Proof.
  unfold dispatch_handlers_parallel. set (ds := handlers_of _ _).
  assert (Hmany : metered N (results ← run_legs ((λ p, call p.1 p.2 [v]) <$> ds);
    merge_legs (λ i _, match ds !! i with Some (mi, hi) => call mi hi [v] | None => panic end)
      (λ _ _ acc, mret acc) 0 results ∅ tt)).
  { apply metered_bind.
    - apply metered_run_legs, Forall_fmap, Forall_forall. intros p _. apply Hcall.
    - intros rs. apply metered_merge_legs; intros; [|apply metered_ret].
      destruct (ds !! i) as [[]|]; [apply Hcall|apply metered_lift]. }
  destruct ds as [|[mi hi] [|]]; [apply metered_ret| |exact Hmany].
  apply metered_bind; [apply Hcall|]. intros. apply metered_ret.
Qed.

Lemma metered_emit_value m v : metered N (emit_value modules call m v).
Proof. unfold emit_value. pose proof metered_dispatch. meter. Qed.

Lemma metered_parallel_begin mi fi rs regs : metered N (parallel_begin body mi fi rs regs).
Proof.
  unfold parallel_begin. apply metered_bind.
  - apply metered_run_legs, Forall_fmap, Forall_forall. intros r _. apply Hbody.
  - intros ls. apply metered_merge_legs; intros; destruct (rs !! i); meter.
Qed.

Lemma metered_parallel_for mi fi a b c regs v w : metered N (parallel_for body mi fi a b c regs v w).
Proof.
  unfold parallel_for. destruct v; try apply metered_lift. destruct w; try apply metered_lift.
  destruct (negb _); [apply metered_lift|].
  assert (Hleg : ∀ i, metered N (match elems !! i with Some e => for_leg body mi fi a b c regs i e | None => panic end)).
  { intros i. destruct (elems !! i); [unfold for_leg|]; meter. }
  apply metered_bind.
  - apply metered_run_legs, Forall_fmap, Forall_forall. intros i _. apply Hleg.
  - intros ls. apply metered_merge_legs; intros; [apply Hleg|apply metered_ret].
Qed.

Lemma metered_exec mi fi m f instr regs pc :
  metered N (exec_instr tree_fuel host modules call body mi fi m f instr regs pc).
Proof.
  pose proof metered_force_regs. pose proof metered_state. pose proof metered_maps.
  pose proof metered_store. pose proof metered_values. pose proof metered_field_name_const.
  pose proof metered_make_set. pose proof metered_make_dict. pose proof metered_struct_fields.
  pose proof metered_make_interface. pose proof metered_resolve_entry. pose proof metered_call_host.
  pose proof metered_emit_value. pose proof metered_parallel_begin. pose proof metered_parallel_for.
  destruct_and?. unfold external_target, dynamic_target in *.
  destruct instr; cbn [exec_instr]; unfold external_target, dynamic_target; meter.
Qed.
End instruction.
End ops.

Section run.
Context `{BigIntCodec} `{FloatText} {Nan : FloatNan} (tree_fuel : nat).
Context (host : Host) (modules : list BcModule).

Lemma metered_call_guarded N body mi fi args :
  (∀ mi fi regs pc, metered N (body mi fi regs pc)) → metered N (call_guarded modules body mi fi args).
Proof.
  intros Hbody. unfold call_guarded.
  apply metered_bind; [apply metered_lift|]. intros m. apply metered_bind; [apply metered_lift|]. intros f.
  destruct (negb _); [apply metered_lift|]. destruct (is_nore f); [|apply Hbody].
  apply metered_bind; [apply metered_on_tx|]. intros entered.
  destruct (negb entered); [apply metered_lift|]. intros s Hs.
  destruct (Hbody mi fi (frame_regs f args) 0 s Hs) as (o & s' & -> & Hs').
  destruct o as [v|e| |]; [|by eexists _, _; (split; [reflexivity|cbn; lia])..].
  eexists _, _. split; [reflexivity|]. cbn. lia.
Qed.

(** The fuel bounds the recursion of the machine. *)
Lemma metered_call_body_at n mi fi regs pc :
  metered (Z.of_nat n - 1) (call_body_at tree_fuel host modules n mi fi regs pc).
Proof.
  revert mi fi regs pc. induction n as [|n IH]; intros mi fi regs pc s Hs; [lia|].
  cbn [call_body_at]. revert s Hs. apply metered_bind; [apply metered_lift|]. intros m.
  apply metered_bind; [apply metered_lift|]. intros f.
  replace (Z.of_nat (S n) - 1) with (Z.of_nat n - 1 + 1) by lia. apply metered_tick.
  destruct (get_z (code f) pc); [|apply metered_lift]. apply metered_bind.
  - apply metered_exec; [|done]. intros. by apply metered_call_guarded.
  - intros [regs' pc'|v]; [apply IH|apply metered_ret].
Qed.

End run.
