(* ===== verification/OptimizeSim.v ===== *)
(** Read clustering preserves meaning, where it may: the semantics of
    instructions the optimizer relies on as an interface, the conditions its
    clusters must meet, and the simulation of a function's code by its
    optimized code. *)
From S2P Require Import Prelude Bytes Values Ops Bytecode Optimize.

(** ** Semantics of code

    A frame's registers and the rest of the machine.  [exec] runs an instruction
    that is neither a state read, nor a jump, nor a return; [read_value] is what
    a state read answers. *)
Class InstrSem (S : Type) := {
  exec : Instr → gmap Z Value → S → outcome (gmap Z Value * S);
  read_value : ReadOp → S → Value;
}.

(** The destination of an instruction. *)
Definition dsts (instr : Instr) : list Z :=
  match instr with
  | LoadConst dst _ | Move dst _ | Bin _ dst _ _ | Un _ dst _ | Call dst _ _ _
  | CallHost dst _ _ _ | CallExternal dst _ _ _ _ _ _ | MakeInterface dst _ _
  | CallExternalDyn dst _ _ _ _ _ _ | BuiltinResource dst _ | BuiltinUnwrap dst _
  | BuiltinAddress dst _ | BuiltinLen dst _ | Convert dst _ _ | MakeArray dst _ _
  | ArrayGet dst _ _ | ArrayAppend dst _ _ | MakeSet dst _ _ | MakeDict dst _ _
  | BuiltinCall dst _ _ _ | MakeStruct dst _ _ _ | FieldGet dst _ _ | FieldSet dst _ _
  | KvGet dst _ | KvGetPath dst _ | ArrayAlloc dst _ _ | Reserve dst _ _ | Context dst _
  | MakeTuple dst _ _ | TupleGet dst _ _ | MakeEnum dst _ _ _ _ | EnumTag dst _
  | EnumPayload dst _ _ | MapGet dst _ _ | PMapGet dst _ _ | PMapContains dst _ _
  | PVecGet dst _ _ | PVecPush dst _ _ | PVecLen dst _ | PMapEntries dst _ | PMapKeys dst _
  | PMapValues dst _ | PVecToArray dst _ | PMapWalkInit dst _ | PBTreeGet dst _ _
  | PBTreeContains dst _ _ | PBTreeRange dst _ _ _ | PBTreeWalkInit dst _ | IncReg dst => [dst]
  | _ => []
  end.

Definition is_read (i : Instr) : option ReadOp :=
  match i with
  | KvGet dst key_idx => Some (RState dst key_idx)
  | KvGetPath dst path_idx => Some (RPath dst path_idx)
  | _ => None
  end.
Definition read_dst (op : ReadOp) : Z := match op with RState dst _ | RPath dst _ => dst end.

(** Instructions whose operands hold positions in the code that the optimizer
    does not move, and batches, which it introduces. *)
Definition relocatable (i : Instr) : bool :=
  match i with
  | PMapWalkNext _ _ _ | PBTreeWalkNext _ _ _ | ParallelBegin _ _ | ParallelForBegin _ _ _ _ _ _ _
  | ParallelYield _ | ParallelForSkip | ReadBatch _ => false
  | _ => true
  end.

(** What the optimizer assumes of an instruction it may move behind a read: it
    does not change the state, and a register it does not mention neither
    influences it nor is touched by it. *)
Class InstrLaws (S : Type) `{InstrSem S} (fn_effects : gmap bytes EffectClass)
    (local_fn_index : gmap bytes Z) := {
  exec_pure i ρ σ ρ' σ' :
    cluster_breaker fn_effects local_fn_index i = false → relocatable i = true →
    is_read i = None → exec i ρ σ = Ok (ρ', σ') → σ' = σ;
  exec_unmentioned i ρ σ r v :
    cluster_breaker fn_effects local_fn_index i = false → relocatable i = true →
    is_read i = None → r ∉ srcs i ++ dsts i →
    exec i (<[r := v]> ρ) σ = prod_map (insert r v) id <$> exec i ρ σ;
}.

Definition is_false (v : option Value) : bool :=
  match v with Some (VBool false) => true | _ => false end.

Section run.
Context {S : Type} `{InstrSem S}.

Definition read_into (σ : S) (ρ : gmap Z Value) (op : ReadOp) : gmap Z Value :=
  <[read_dst op := read_value op σ]> ρ.

(** A straight-line instruction; a batch is its reads in order. *)
Definition straight (groups : list (list ReadOp)) (i : Instr) (ρ : gmap Z Value) (σ : S) :
    outcome (gmap Z Value * S) :=
  match i with
  | KvGet dst key_idx => Ok (read_into σ ρ (RState dst key_idx), σ)
  | KvGetPath dst path_idx => Ok (read_into σ ρ (RPath dst path_idx), σ)
  | ReadBatch g => ops ← or_panic (get_z groups g); Ok (foldl (read_into σ) ρ ops, σ)
  | _ => exec i ρ σ
  end.

Definition out_of_bounds : Error := runtime "instruction pointer out of bounds" Span_default.

(** The loop of a function body; [n] bounds its instructions. *)
Fixpoint run (c : list Instr) (groups : list (list ReadOp)) (n : nat) (pc : Z)
    (ρ : gmap Z Value) (σ : S) : option (outcome (Value * S)) :=
  match n with
  | O => None
  | Datatypes.S n' =>
      match get_z c pc with
      | None => Some (Err out_of_bounds)
      | Some i =>
          match i with
          | Jump offset => run c groups n' (pc + 1 + offset) ρ σ
          | JumpIfFalse cond offset =>
              if is_false (ρ !! cond) then run c groups n' (pc + 1 + offset) ρ σ
              else run c groups n' (pc + 1) ρ σ
          | Return src => Some (Ok (default VUnit (ρ !! src), σ))
          | ReturnUnit => Some (Ok (VUnit, σ))
          | i =>
              match straight groups i ρ σ with
              | Ok (ρ', σ') => run c groups n' (pc + 1) ρ' σ'
              | Err e => Some (Err e)
              | Panic => Some Panic
              | OutOfFuel => Some OutOfFuel
              end
          end
      end
  end.

Fixpoint run_list (groups : list (list ReadOp)) (l : list Instr) (ρ : gmap Z Value) (σ : S) :
    outcome (gmap Z Value * S) :=
  match l with
  | [] => Ok (ρ, σ)
  | i :: l' => '(ρ', σ') ← straight groups i ρ σ; run_list groups l' ρ' σ'
  end.
End run.

(** ** The conditions on clusters *)
Section conditions.
Context (fn_effects : gmap bytes EffectClass) (local_fn_index : gmap bytes Z).
Abbreviation visit := (visit fn_effects local_fn_index).

(** The state of the pass before an instruction. *)
Fixpoint visits (old : nat) (c : list Instr) (s : OptState) : OptState :=
  match c with
  | [] => s
  | i :: c' => visits (S old) c' (visit old i s)
  end.

(** A read joins a cluster only when no deferred instruction mentions its
    register. *)
Definition read_clear (i : Instr) (s : OptState) : bool :=
  match is_read i with
  | Some op => forallb (λ p, bool_decide (read_dst op ∉ srcs p.2 ++ dsts p.2)) (pending_nonreads s)
  | None => true
  end.

Fixpoint reads_clear (old : nat) (c : list Instr) (s : OptState) : bool :=
  match c with
  | [] => true
  | i :: c' => read_clear i s && reads_clear (S old) c' (visit old i s)
  end.

(** A jump goes forward or back to a position where no cluster is open, or past
    the end. *)
Definition lands (c : list Instr) (s0 : OptState) (t : Z) : bool :=
  (0 <=? t) &&
  ((zlen c <=? t) || bool_decide (cluster (visits 0 (take (Z.to_nat t) c) s0) = [])).

Definition jump_ok (c : list Instr) (s0 : OptState) (p : nat * Instr) : bool :=
  match p.2 with
  | Jump offset | JumpIfFalse _ offset => lands c s0 (Z.of_nat p.1 + 1 + offset)
  | _ => true
  end.

Definition clusters_safely (f : BcFn) : bool :=
  let s0 := initial f in
  forallb relocatable (code f) &&
  reads_clear 0 (code f) s0 &&
  forallb (jump_ok (code f) s0) (imap pair (code f)) &&
  (zlen (groups (visit_all fn_effects local_fn_index 0 (code f) s0)) <=? 2 ^ 16).
End conditions.
