(* ===== verification/OptimizeFacts.v ===== *)
(** What the clustering pass does to its state: the code it emits, where every
    old position goes, and the origins of jumps. *)
From S2P Require Import Prelude Bytes Values Ops Bytecode Optimize OptimizeSim.

(** ** What the pass does to its state *)
Section pass.
Context (fn_effects : gmap bytes EffectClass) (local_fn_index : gmap bytes Z).
Abbreviation visit := (Optimize.visit fn_effects local_fn_index).
Abbreviation visits := (OptimizeSim.visits fn_effects local_fn_index).
Abbreviation breaker := (cluster_breaker fn_effects local_fn_index).

(** The instructions a flush emits. *)
Definition emission (s : OptState) : list Instr :=
  match cluster s with
  | [] => []
  | [op] => [read_instr op]
  | _ => [ReadBatch (wrap_u 16 (zlen (groups s)))]
  end ++ (pending_nonreads s).*2.

Definition flush_groups (s : OptState) : list (list ReadOp) :=
  match cluster s with _ :: _ :: _ => [cluster s] | _ => [] end.

Lemma emit_all_code ps s :
  new_code (foldl (λ s p, emit_at p.1 p.2 s) s ps) = new_code s ++ ps.*2 ∧
  groups (foldl (λ s p, emit_at p.1 p.2 s) s ps) = groups s ∧
  cluster (foldl (λ s p, emit_at p.1 p.2 s) s ps) = cluster s ∧
  cluster_old (foldl (λ s p, emit_at p.1 p.2 s) s ps) = cluster_old s.
Proof.
  revert s. induction ps as [|p ps IH]; intros s; cbn [foldl fmap list_fmap].
  - by rewrite app_nil_r.
  - destruct (IH (emit_at p.1 p.2 s)) as (-> & -> & -> & ->). cbn. by rewrite <- app_assoc.
Qed.

Lemma flush_cluster_facts s :
  new_code (flush_cluster s) = new_code s ++ match cluster s with
    | [] => [] | [op] => [read_instr op] | _ => [ReadBatch (wrap_u 16 (zlen (groups s)))] end ∧
  groups (flush_cluster s) = groups s ++ flush_groups s ∧
  cluster (flush_cluster s) = [] ∧ pending_nonreads (flush_cluster s) = pending_nonreads s.
Proof.
  unfold flush_cluster, flush_groups. destruct (cluster s) as [|a [|b l]] eqn:E; cbn; rewrite ?app_nil_r; by splits.
Qed.

Lemma flush_code s : new_code (flush s) = new_code s ++ emission s.
Proof.
  unfold flush, emission. cbn [new_code]. destruct (flush_cluster_facts s) as (E1 & _ & _ & E4).
  destruct (emit_all_code (pending_nonreads (flush_cluster s)) (flush_cluster s)) as (-> & _).
  by rewrite E1, E4, <- app_assoc.
Qed.

Lemma flush_groups_eq s : groups (flush s) = groups s ++ flush_groups s.
Proof.
  unfold flush. cbn [groups]. destruct (flush_cluster_facts s) as (_ & E2 & _).
  by destruct (emit_all_code (pending_nonreads (flush_cluster s)) (flush_cluster s)) as (_ & -> & _).
Qed.

Lemma flush_empty s : cluster (flush s) = [] ∧ pending_nonreads (flush s) = [].
Proof.
  unfold flush. cbn [cluster pending_nonreads]. destruct (flush_cluster_facts s) as (_ & _ & E3 & _).
  by destruct (emit_all_code (pending_nonreads (flush_cluster s)) (flush_cluster s)) as (_ & _ & -> & _).
Qed.

Lemma emit_code old i s : new_code (emit_at old i s) = new_code s ++ [i].
Proof. done. Qed.

(** The three ways an instruction is visited. *)
Lemma visit_read old i op s :
  is_read i = Some op → visit old i s = add_read old op (read_dst op) s.
Proof. by destruct i; try done; intros [= <-]. Qed.

Inductive visited (old : nat) (i : Instr) (s : OptState) : OptState → Prop :=
  | visited_deferred :
      cluster s ≠ [] → breaker i = false → visited old i s (defer_nonread old i s)
  | visited_flushed : visited old i s (emit_at old i (flush s))
  | visited_direct : cluster s = [] → visited old i s (emit_at old i s).

Lemma visit_cases old i s : is_read i = None → visited old i s (visit old i s).
Proof.
  intros Hr.
  assert (E : visit old i s = if breaker i || reads_pending_dst i (cluster_dsts s)
    then emit_at old i (flush s)
    else if bool_decide (cluster s ≠ []) then defer_nonread old i s else emit_at old i s).
  { by destruct i. }
  rewrite E. destruct (breaker i) eqn:Hb; cbn [orb]; [apply visited_flushed|].
  destruct (reads_pending_dst _ _); [apply visited_flushed|].
  case_bool_decide as Hc; [by apply visited_deferred|]. apply visited_direct.
  by destruct (cluster s); [|destruct Hc].
Qed.

(** *** Invariant *)
Definition movable (i : Instr) : Prop :=
  breaker i = false ∧ relocatable i = true ∧ is_read i = None.

Record pass_inv (s : OptState) : Prop := {
  inv_movable : Forall movable (pending_nonreads s).*2;
  inv_pending : cluster s = [] → pending_nonreads s = [];
  inv_cluster : length (cluster s) = length (cluster_old s);
}.

Lemma flush_old_empty s : cluster_old s = [] → cluster_old (flush s) = [].
Proof.
  intros H. unfold flush. cbn [cluster_old].
  destruct (emit_all_code (pending_nonreads (flush_cluster s)) (flush_cluster s)) as (_ & _ & _ & ->).
  unfold flush_cluster. by destruct (cluster s) as [|a [|b l]].
Qed.

Lemma flush_inv s : pass_inv s → pass_inv (flush s).
Proof.
  intros [Hm Hp Hc]. destruct (flush_empty s) as [E1 E2]. split; rewrite ?E1, ?E2; try done.
  unfold flush. cbn [cluster_old].
  destruct (emit_all_code (pending_nonreads (flush_cluster s)) (flush_cluster s)) as (_ & _ & _ & ->).
  unfold flush_cluster. destruct (cluster s) as [|a [|b l]]; [|done|done]. by destruct (cluster_old s).
Qed.

Lemma emit_inv old i s : pass_inv s → pass_inv (emit_at old i s).
Proof. by intros [Hm Hp Hc]. Qed.

Lemma visit_inv old i s : relocatable i = true → pass_inv s → pass_inv (visit old i s).
Proof.
  intros Hi Hs. destruct (is_read i) as [op|] eqn:Hr.
  - rewrite (visit_read _ _ op) by done. destruct Hs as [Hm Hp Hc]. split; cbn; [done| |].
    + by intros []%app_nil.
    + by rewrite !length_app, Hc.
  - destruct (visit_cases old i s Hr) as [Hc Hb| |Hc].
    + destruct Hs as [Hm Hp Hl]. split; cbn; [|done|done].
      rewrite fmap_app. apply Forall_app. split; [done|]. by repeat constructor.
    + by apply emit_inv, flush_inv.
    + by apply emit_inv.
Qed.

(** *** The code grows *)
Lemma visit_grows old i s :
  new_code s `prefix_of` new_code (visit old i s) ∧ groups s `prefix_of` groups (visit old i s).
Proof.
  destruct (is_read i) as [op|] eqn:Hr.
  - by rewrite (visit_read _ _ op).
  - destruct (visit_cases old i s Hr); [done| |]; rewrite emit_code; cbn [groups emit_at].
    + rewrite flush_code, flush_groups_eq, <- app_assoc. split; by apply prefix_app_r.
    + split; [by apply prefix_app_r|done].
Qed.

Lemma visits_grows c old s :
  new_code s `prefix_of` new_code (visits old c s) ∧ groups s `prefix_of` groups (visits old c s).
Proof.
  revert old s. induction c as [|i c IH]; intros old s; [done|]. cbn [OptimizeSim.visits].
  destruct (visit_grows old i s), (IH (S old) (visit old i s)). split; by etrans.
Qed.

Lemma visit_all_visits c old s :
  visit_all fn_effects local_fn_index old c s = flush (visits old c s).
Proof. revert old s. induction c as [|i c IH]; intros old s; [done|]. apply IH. Qed.

Lemma visits_app c1 c2 old s : visits old (c1 ++ c2) s = visits (old + length c1) c2 (visits old c1 s).
Proof.
  revert old s. induction c1 as [|i c1 IH]; intros old s; cbn [app length OptimizeSim.visits].
  - by rewrite Nat.add_0_r.
  - rewrite IH. f_equal. lia.
Qed.

Lemma visits_inv c old s :
  Forall (λ i, relocatable i = true) c → pass_inv s → pass_inv (visits old c s).
Proof.
  intros Hc. revert old s. induction Hc as [|i c Hi _ IH]; intros old s Hs; [done|].
  by apply IH, visit_inv.
Qed.

(** *** Where an old position went *)
Lemma emit_idx old i s t : t ≠ old → idx_map (emit_at old i s) !! t = idx_map s !! t.
Proof. intros. by apply list_lookup_insert_ne. Qed.

Lemma emit_all_idx ps s t :
  t ∉ ps.*1 → idx_map (foldl (λ s p, emit_at p.1 p.2 s) s ps) !! t = idx_map s !! t.
Proof.
  revert s. induction ps as [|p ps IH]; intros s Ht; [done|].
  cbn [foldl]. apply not_elem_of_cons in Ht as [Hp Ht]. rewrite IH by done. by apply emit_idx.
Qed.

Lemma mapped_idx (olds : list nat) (pos t : nat) (m : list (option nat)) :
  (t ∉ olds → foldl (λ m old, <[old := Some pos]> m) m olds !! t = m !! t) ∧
  ((t ∈ olds ∨ m !! t = Some (Some pos)) → (t < length m)%nat →
    foldl (λ m old, <[old := Some pos]> m) m olds !! t = Some (Some pos)).
Proof.
  revert m. induction olds as [|o olds IH]; intros m; cbn [foldl].
  { split; [done|]. by intros [?%elem_of_nil|]. }
  destruct (IH (<[o := Some pos]> m)) as [H1 H2]. rewrite length_insert in H2. split.
  - intros [Ho Ht]%not_elem_of_cons. rewrite H1 by done. by apply list_lookup_insert_ne.
  - intros Ht Hlen. apply H2; [|done]. rewrite elem_of_cons in Ht.
    destruct (decide (t = o)) as [->|Hne]; [right; by apply list_lookup_insert_eq|].
    rewrite list_lookup_insert_ne by done. by destruct Ht as [[?|?]|?]; [|left|right].
Qed.

Lemma flush_idx_other s t :
  pass_inv s → t ∉ cluster_old s → t ∉ (pending_nonreads s).*1 →
  idx_map (flush s) !! t = idx_map s !! t.
Proof.
  intros Hs Hc Hp. unfold flush. cbn [idx_map]. rewrite emit_all_idx.
  - unfold flush_cluster. destruct (cluster s) as [|a [|b l]]; [done| |]; by apply mapped_idx.
  - by destruct (flush_cluster_facts s) as (_ & _ & _ & ->).
Qed.

Lemma flush_idx_cluster s t :
  pass_inv s → t ∈ cluster_old s → t ∉ (pending_nonreads s).*1 → (t < length (idx_map s))%nat →
  idx_map (flush s) !! t = Some (Some (length (new_code s))).
Proof.
  intros Hs Hc Hp Ht. unfold flush. cbn [idx_map]. rewrite emit_all_idx.
  - unfold flush_cluster. destruct Hs as [_ _ Hl].
    destruct (cluster s) as [|a [|b l]]; [by destruct (cluster_old s); [apply elem_of_nil in Hc|]| |];
      (apply mapped_idx; [by left|done]).
  - by destruct (flush_cluster_facts s) as (_ & _ & _ & ->).
Qed.

Lemma emit_all_idx_len ps s :
  length (idx_map (foldl (λ s p, emit_at p.1 p.2 s) s ps)) = length (idx_map s).
Proof.
  revert s. induction ps as [|p ps IH]; intros s; [done|]. cbn [foldl]. rewrite IH. apply length_insert.
Qed.

Lemma mapped_len (olds : list nat) (pos : nat) (m : list (option nat)) :
  length (foldl (λ m old, <[old := Some pos]> m) m olds) = length m.
Proof. revert m. induction olds as [|o olds IH]; intros m; [done|]. cbn. rewrite IH. apply length_insert. Qed.

Lemma flush_idx_len s : length (idx_map (flush s)) = length (idx_map s).
Proof.
  unfold flush. cbn [idx_map]. rewrite emit_all_idx_len. unfold flush_cluster.
  destruct (cluster s) as [|a [|b l]]; [done| |]; apply mapped_len.
Qed.

Lemma visit_idx_len old i s : length (idx_map (visit old i s)) = length (idx_map s).
Proof.
  destruct (is_read i) as [op|] eqn:Hr; [by rewrite (visit_read _ _ op)|].
  destruct (visit_cases old i s Hr); cbn [idx_map emit_at defer_nonread];
    rewrite ?length_insert, ?flush_idx_len; done.
Qed.

Lemma visits_idx_len c old s : length (idx_map (visits old c s)) = length (idx_map s).
Proof.
  revert old s. induction c as [|i c IH]; intros old s; [done|].
  cbn [OptimizeSim.visits]. rewrite IH. apply visit_idx_len.
Qed.

(** Position [t] went to [p], or will when the cluster is flushed. *)
Definition sent (t p : nat) (s : OptState) : Prop :=
  t ∉ (pending_nonreads s).*1 ∧
  (idx_map s !! t = Some (Some p) ∧ t ∉ cluster_old s ∨
   (t ∈ cluster_old s ∧ length (new_code s) = p)).

Lemma flush_sent t p s :
  pass_inv s → (t < length (idx_map s))%nat → sent t p s →
  idx_map (flush s) !! t = Some (Some p).
Proof.
  intros Hs Ht [Hp [[Hi Hc]|[Hc <-]]]; [by rewrite flush_idx_other|by apply flush_idx_cluster].
Qed.

Lemma flushed_olds s : pass_inv s → cluster_old (flush s) = [] ∧ pending_nonreads (flush s) = [].
Proof.
  intros Hs%flush_inv. destruct (flush_empty s) as [Hc Hp]. split; [|done].
  destruct Hs as [_ _ Hl]. rewrite Hc in Hl. by destruct (cluster_old (flush s)).
Qed.

Lemma visit_sent t p old i s :
  relocatable i = true → pass_inv s → (t < length (idx_map s))%nat → t ≠ old →
  sent t p s → sent t p (visit old i s).
Proof.
  intros Hi Hs Ht Hne Hsent. destruct (is_read i) as [op|] eqn:Hr.
  { rewrite (visit_read _ _ op) by done. destruct Hsent as [Hp [[Hm Hc]|[Hc Hl]]]; split; cbn; try done.
    - left. split; [done|]. rewrite not_elem_of_app, list_elem_of_singleton. done.
    - right. split; [|done]. apply elem_of_app. by left. }
  destruct (visit_cases old i s Hr) as [Hc Hb| |Hc].
  - destruct Hsent as [Hp Hs']. split; [|done]. cbn. rewrite fmap_app, not_elem_of_app.
    split; [done|]. cbn. by rewrite list_elem_of_singleton.
  - destruct (flushed_olds s Hs) as [E1 E2].
    split; cbn [pending_nonreads cluster_old idx_map emit_at]; rewrite ?E1, ?E2; [apply not_elem_of_nil|].
    left. split; [|apply not_elem_of_nil]. rewrite list_lookup_insert_ne by done. by apply flush_sent.
  - destruct Hs as [_ Hpe Hl]. split; cbn [pending_nonreads cluster_old idx_map emit_at]; [apply Hsent|].
    left. rewrite Hc in Hl. destruct (cluster_old s) eqn:Eo; [|done].
    split; [|apply not_elem_of_nil]. rewrite list_lookup_insert_ne by done.
    destruct Hsent as [_ [[? _]|[Hin _]]]; [done|]. rewrite Eo in Hin. by apply elem_of_nil in Hin.
Qed.

Lemma visits_sent t p c old s :
  Forall (λ i, relocatable i = true) c → pass_inv s → (t < length (idx_map s))%nat → (t < old)%nat →
  sent t p s → sent t p (visits old c s).
Proof.
  intros Hc. revert old s. induction Hc as [|i c Hi _ IH]; intros old s Hs Ht Hne Hsent; [done|].
  apply IH; [by apply visit_inv|by rewrite visit_idx_len|lia|]. apply visit_sent; try done. lia.
Qed.

(** An instruction at which no cluster is open goes to the end of the code. *)
Lemma visit_leader old i s :
  relocatable i = true → pass_inv s → (old < length (idx_map s))%nat → cluster s = [] →
  sent old (length (new_code s)) (visit old i s).
Proof.
  intros Hi Hs Ho Hc. pose proof (inv_pending s Hs Hc) as Hp.
  destruct (is_read i) as [op|] eqn:Hr.
  { rewrite (visit_read _ _ op) by done. split; cbn; [rewrite Hp; apply not_elem_of_nil|].
    right. split; [|done]. apply elem_of_app. right. by apply list_elem_of_singleton. }
  assert (Hlast : ∀ s', cluster_old s' = [] → pending_nonreads s' = [] → new_code s' = new_code s →
    length (idx_map s') = length (idx_map s) → sent old (length (new_code s)) (emit_at old i s')).
  { intros s' E1 E2 E3 E4. split; cbn [pending_nonreads cluster_old idx_map emit_at]; rewrite ?E1, ?E2;
      [apply not_elem_of_nil|]. left. split; [|apply not_elem_of_nil].
    rewrite E3. apply list_lookup_insert_eq. lia. }
  destruct (visit_cases old i s Hr) as [Hc' Hb| |_]; [done| |].
  - destruct (flushed_olds s Hs). apply Hlast; [done|done| |apply flush_idx_len].
    rewrite flush_code. unfold emission. by rewrite Hc, Hp, app_nil_r.
  - apply Hlast; [|done|done|done]. destruct Hs as [_ _ Hl]. rewrite Hc in Hl. by destruct (cluster_old s).
Qed.

(** *** Origins of jumps *)
Lemma flush_cluster_jumps s : new_jump_old (flush_cluster s) = new_jump_old s.
Proof. unfold flush_cluster. by destruct (cluster s) as [|a [|b l]]. Qed.

Lemma emit_all_jumps ps s q k :
  (q < length (new_code s))%nat → new_jump_old s !! q = k →
  new_jump_old (foldl (λ s p, emit_at p.1 p.2 s) s ps) !! q = k.
Proof.
  revert s. induction ps as [|p ps IH]; intros s Hq Hk; [done|]. cbn [foldl]. apply IH.
  - rewrite emit_code, length_app. lia.
  - cbn. destruct (is_jump p.2); [|done]. by rewrite lookup_insert_ne by lia.
Qed.

Lemma flush_jumps s q k :
  (q < length (new_code s))%nat → new_jump_old s !! q = k → new_jump_old (flush s) !! q = k.
Proof.
  intros Hq Hk. unfold flush. cbn [new_jump_old]. apply emit_all_jumps; [|by rewrite flush_cluster_jumps].
  destruct (flush_cluster_facts s) as (-> & _). rewrite length_app. lia.
Qed.

Lemma emit_jumps old i s q k :
  (q < length (new_code s))%nat → new_jump_old s !! q = k → new_jump_old (emit_at old i s) !! q = k.
Proof. intros Hq Hk. apply (emit_all_jumps [(old, i)]); done. Qed.

Lemma visit_jumps old i s q k :
  (q < length (new_code s))%nat → new_jump_old s !! q = k → new_jump_old (visit old i s) !! q = k.
Proof.
  intros Hq Hk. destruct (is_read i) as [op|] eqn:Hr; [by rewrite (visit_read _ _ op)|].
  destruct (visit_cases old i s Hr); [done| |by apply emit_jumps].
  apply emit_jumps; [|by apply flush_jumps]. rewrite flush_code, length_app. lia.
Qed.

Lemma visits_jumps c old s q k :
  (q < length (new_code s))%nat → new_jump_old s !! q = k → new_jump_old (visits old c s) !! q = k.
Proof.
  revert old s. induction c as [|i c IH]; intros old s Hq Hk; [done|]. apply IH.
  - destruct (visit_grows old i s) as [Hg%prefix_length _]. lia.
  - by apply visit_jumps.
Qed.

(** Every jump in the new code has one. *)
Definition origins (s : OptState) : Prop :=
  ∀ q i, new_code s !! q = Some i → is_jump i = true → is_Some (new_jump_old s !! q).

Lemma emit_origins old i s : origins s → origins (emit_at old i s).
Proof.
  intros Hs q j. rewrite emit_code, lookup_app_Some. cbn [new_jump_old emit_at].
  intros [Hq|[Hge Hq]] Hj.
  - pose proof (lookup_lt_Some _ _ _ Hq). destruct (is_jump i); [|by eapply Hs].
    rewrite lookup_insert_ne by lia. by eapply Hs.
  - apply list_lookup_singleton_Some in Hq as [Hz <-]. rewrite Hj.
    replace q with (length (new_code s)) by lia. rewrite lookup_insert_eq. done.
Qed.

Lemma flush_origins s : origins s → origins (flush s).
Proof.
  intros Hs. assert (Hc : origins (flush_cluster s)).
  { intros q i. rewrite flush_cluster_jumps. destruct (flush_cluster_facts s) as (-> & _).
    rewrite lookup_app_Some. intros [Hq|[_ Hq]] Hi; [by eapply Hs|].
    destruct (cluster s) as [|[]  [|b l]]; try done;
      apply list_lookup_singleton_Some in Hq as [_ <-]; done. }
  unfold flush. change (origins (foldl (λ s p, emit_at p.1 p.2 s) (flush_cluster s)
    (pending_nonreads (flush_cluster s)))).
  revert Hc. generalize (pending_nonreads (flush_cluster s)). generalize (flush_cluster s).
  clear. intros s ps. revert s. induction ps as [|p ps IH]; intros s Hs; [done|].
  by apply IH, emit_origins.
Qed.

Lemma visits_origins c old s : origins s → origins (visits old c s).
Proof.
  revert old s. induction c as [|i c IH]; intros old s Hs; [done|]. apply IH.
  destruct (is_read i) as [op|] eqn:Hr; [by rewrite (visit_read _ _ op)|].
  destruct (visit_cases old i s Hr); [done| |by apply emit_origins]. by apply emit_origins, flush_origins.
Qed.

(** *** An instruction that is not a read, again *)
Record emitted (old : nat) (i : Instr) (s s' : OptState) : Prop := {
  emitted_code : new_code s' = new_code s ++ emission s ++ [i];
  emitted_groups : groups s' = groups s ++ flush_groups s;
  emitted_cluster : cluster s' = [];
  emitted_pending : pending_nonreads s' = [];
  emitted_origin : is_jump i = true → new_jump_old s' !! length (new_code s ++ emission s) = Some old;
}.

Lemma visit_other old i s :
  is_read i = None → pass_inv s →
  (breaker i = false ∧ visit old i s = defer_nonread old i s) ∨ emitted old i s (visit old i s).
Proof.
  intros Hr Hs. destruct (visit_cases old i s Hr) as [Hc Hb| |Hc]; [by left| |]; right.
  - destruct (flush_empty s). split; cbn [cluster pending_nonreads new_jump_old emit_at groups]; try done.
    + by rewrite emit_code, flush_code, <- app_assoc.
    + apply flush_groups_eq.
    + intros ->. rewrite flush_code. apply lookup_insert_eq.
  - pose proof (inv_pending s Hs Hc) as Hp.
    assert (He : emission s = []) by (unfold emission; by rewrite Hc, Hp).
    split; rewrite ?He; cbn [cluster pending_nonreads new_jump_old emit_at groups]; try done.
    + unfold flush_groups. by rewrite Hc, app_nil_r.
    + intros ->. rewrite app_nil_r. apply lookup_insert_eq.
Qed.

(** ** Patching *)
Lemma patch_all_lookup s q c c' :
  patch_all s q c = Ok c' →
  length c' = length c ∧
  ∀ j i, c !! j = Some i → ∃ i', c' !! j = Some i' ∧ patch s (q + j) i = Ok i'.
Proof.
  revert q c'. induction c as [|i c IH]; intros q c'; cbn [patch_all]; [by intros [= <-]|].
  destruct (patch s q i) as [i'| | |] eqn:Ei; try done. cbn.
  destruct (patch_all s (S q) c) as [r| | |] eqn:Er; try done. intros [= <-].
  destruct (IH _ _ Er) as [Hl Hlk]. split; [cbn; lia|].
  intros [|j] i0 Hj; [|].
  - injection Hj as <-. rewrite Nat.add_0_r. eauto.
  - replace (q + S j)%nat with (S q + j)%nat by lia. by apply Hlk.
Qed.

Lemma patch_all_total s q c :
  (∀ j i, c !! j = Some i → is_jump i = true → is_Some (new_jump_old s !! (q + j)%nat)) →
  ∃ c', patch_all s q c = Ok c'.
Proof.
  revert q. induction c as [|i c IH]; intros q Ho; cbn [patch_all]; [eauto|].
  assert (∃ i', patch s q i = Ok i') as [i' ->].
  { specialize (Ho 0%nat i eq_refl). rewrite Nat.add_0_r in Ho.
    destruct i; cbn; eauto; destruct (Ho eq_refl) as [x ->]; cbn; eauto. }
  cbn. destruct (IH (S q)) as [c' ->]; [|cbn; eauto].
  intros j i0 Hj. specialize (Ho (S j) i0 Hj). by replace (S q + j)%nat with (q + S j)%nat by lia.
Qed.
End pass.
