(* ===== verification/OptimizeRun.v ===== *)
(** Clustered code does what the code did: the reads and the deferred
    instructions of an open cluster as a lag between the two executions, and the
    simulation that carries it along. *)
From S2P Require Import Prelude Bytes Values Ops Bytecode Optimize OptimizeSim OptimizeFacts.

Lemma wrap_u_small w n : 0 <= w → 0 <= n < 2 ^ w → wrap_u w n = n.
Proof. intros. unfold wrap_u. rewrite Z.land_ones by done. by apply Z.mod_small. Qed.

(** ** Execution of blocks *)
Section blocks.
Context {S : Type} `{InstrSem S}.

(** Instructions that do not transfer control. *)
Definition no_transfer (i : Instr) : bool :=
  match i with Jump _ | JumpIfFalse _ _ | Return _ | ReturnUnit => false | _ => true end.

(** Continue, or end with the failure. *)
Definition run_then (o : outcome (gmap Z Value * S))
    (k : gmap Z Value → S → option (outcome (Value * S))) : option (outcome (Value * S)) :=
  match o with
  | Ok (ρ, σ) => k ρ σ
  | Err e => Some (Err e)
  | Panic => Some Panic
  | OutOfFuel => Some OutOfFuel
  end.

Lemma run_then_bind o f k :
  run_then ('(ρ, σ) ← o; f ρ σ) k = run_then o (λ ρ σ, run_then (f ρ σ) k).
Proof. by destruct o as [[ρ σ]| | |]. Qed.

Lemma run_step c G n (pc : nat) i ρ σ :
  c !! pc = Some i → no_transfer i = true →
  run c G (Datatypes.S n) (Z.of_nat pc) ρ σ =
  run_then (straight G i ρ σ) (λ ρ' σ', run c G n (Z.of_nat (Datatypes.S pc)) ρ' σ').
Proof.
  intros Hi Hn. cbn [run]. rewrite get_z_nat, Hi.
  replace (Z.of_nat pc + 1) with (Z.of_nat (Datatypes.S pc)) by lia.
  destruct i; try discriminate Hn; unfold run_then;
    by destruct (straight G _ ρ σ) as [[]| | |].
Qed.

Lemma run_list_app G l1 l2 ρ σ :
  run_list G (l1 ++ l2) ρ σ = '(ρ', σ') ← run_list G l1 ρ σ; run_list G l2 ρ' σ'.
Proof.
  revert ρ σ. induction l1 as [|i l1 IH]; intros ρ σ; [done|]. cbn [app run_list].
  destruct (straight G i ρ σ) as [[ρ' σ']| | |]; [|done|done|done]. cbn. apply IH.
Qed.

Lemma run_block c G n l (pc : nat) ρ σ :
  (∀ j i, l !! j = Some i → c !! (pc + j)%nat = Some i) → forallb no_transfer l = true →
  run c G (length l + n) (Z.of_nat pc) ρ σ =
  run_then (run_list G l ρ σ) (λ ρ' σ', run c G n (Z.of_nat (pc + length l)) ρ' σ').
Proof.
  revert pc ρ σ. induction l as [|i l IH]; intros pc ρ σ Hl Hn.
  { cbn. by rewrite Nat.add_0_r. }
  apply andb_prop in Hn as [Hi Hn]. cbn [length Nat.add].
  rewrite (run_step _ _ _ _ i); [|by rewrite <- (Hl 0%nat i eq_refl), Nat.add_0_r|done].
  cbn [run_list]. rewrite run_then_bind. destruct (straight G i ρ σ) as [[ρ' σ']| | |]; [|done|done|done].
  cbn [run_then]. rewrite IH; [|intros j k Hj; rewrite <- (Hl (Datatypes.S j) k Hj); f_equal; lia|done].
  by rewrite Nat.add_succ_r.
Qed.
End blocks.

(** ** The lag *)
Section lag.
Context {S : Type} {fn_effects : gmap bytes EffectClass} {local_fn_index : gmap bytes Z}
  `{SEM : InstrSem S} `{LAWS : !InstrLaws S fn_effects local_fn_index}.
Context (GF : list (list ReadOp)).
Abbreviation visit := (Optimize.visit fn_effects local_fn_index).
Abbreviation visits := (OptimizeSim.visits fn_effects local_fn_index).
Abbreviation movable := (movable fn_effects local_fn_index).
Abbreviation pass_inv := (pass_inv fn_effects local_fn_index).

(** What the emitted code has still to do: the cluster's reads, then the
    deferred instructions. *)
Definition lag (s : OptState) (ρ : gmap Z Value) (σ : S) : outcome (gmap Z Value * S) :=
  run_list GF (pending_nonreads s).*2 (foldl (read_into σ) ρ (cluster s)) σ.

Lemma straight_exec G i ρ σ :
  relocatable i = true → is_read i = None → straight G i ρ σ = exec i ρ σ.
Proof. by destruct i. Qed.

Lemma run_list_pure l ρ σ ρ' σ' :
  Forall movable l → run_list GF l ρ σ = Ok (ρ', σ') → σ' = σ.
Proof.
  intros Hl. revert ρ σ. induction Hl as [|i l (Hb & Hr & Hi) _ IH]; intros ρ σ; cbn [run_list].
  { by intros [= _ <-]. }
  rewrite straight_exec by done. destruct (exec i ρ σ) as [[ρ1 σ1]| | |] eqn:E; try done.
  cbn. intros Hrun. apply exec_pure in E as ->; [|done..]. by apply IH in Hrun.
Qed.

Lemma run_list_insert l r v ρ σ :
  Forall movable l → Forall (λ i, r ∉ srcs i ++ dsts i) l →
  run_list GF l (<[r := v]> ρ) σ = prod_map (insert r v) id <$> run_list GF l ρ σ.
Proof.
  intros Hl. revert ρ σ. induction Hl as [|i l (Hb & Hr & Hi) _ IH]; intros ρ σ Hf; [done|].
  apply Forall_cons in Hf as [Hu Hf]. cbn [run_list].
  rewrite !straight_exec, exec_unmentioned by done.
  destruct (exec i ρ σ) as [[ρ1 σ1]| | |]; [|done|done|done]. cbn. by apply IH.
Qed.

Lemma read_clear_mentions i op s :
  is_read i = Some op → read_clear i s = true →
  Forall (λ i, read_dst op ∉ srcs i ++ dsts i) (pending_nonreads s).*2.
Proof.
  unfold read_clear. intros -> Hc. apply Forall_fmap, Forall_forall. intros p Hp%list_elem_of_In.
  rewrite forallb_forall in Hc. by apply Hc, bool_decide_eq_true in Hp.
Qed.

Lemma lag_read old i op s ρ σ ρ' σ' :
  is_read i = Some op → read_clear i s = true → pass_inv s →
  lag s ρ σ = Ok (ρ', σ') →
  lag (visit old i s) ρ σ = Ok (read_into σ' ρ' op, σ').
Proof.
  intros Hr Hc [Hm _ _] Hl. rewrite (visit_read _ _ _ _ op) by done.
  unfold lag, add_read in *. cbn [pending_nonreads cluster]. rewrite foldl_app. cbn [foldl].
  pose proof (run_list_pure _ _ _ _ _ Hm Hl) as ->.
  unfold read_into at 1. rewrite run_list_insert, Hl; [done|done|by eapply read_clear_mentions].
Qed.

Lemma lag_read_fail old i op s ρ σ e :
  is_read i = Some op → read_clear i s = true → pass_inv s →
  run_then (lag s ρ σ) (λ _ _, None) = Some e →
  run_then (lag (visit old i s) ρ σ) (λ _ _, None) = Some e.
Proof.
  intros Hr Hc [Hm _ _] Hl. rewrite (visit_read _ _ _ _ op) by done.
  unfold lag, add_read in *. cbn [pending_nonreads cluster]. rewrite foldl_app. cbn [foldl].
  unfold read_into at 1. rewrite run_list_insert; [|done|].
  - by destruct (run_list _ _ _ _) as [[]| | |].
  - by eapply read_clear_mentions.
Qed.

Lemma lag_deferred old i s ρ σ :
  lag (defer_nonread old i s) ρ σ = '(ρ', σ') ← lag s ρ σ; straight GF i ρ' σ'.
Proof.
  unfold lag. cbn [pending_nonreads cluster defer_nonread]. rewrite fmap_app, run_list_app.
  destruct (run_list GF (pending_nonreads s).*2 _ σ) as [[ρ1 σ1]| | |]; [|done..].
  cbn. by destruct (straight GF i ρ1 σ1) as [[]| | |].
Qed.

Lemma lag_none s ρ σ : cluster s = [] → pending_nonreads s = [] → lag s ρ σ = Ok (ρ, σ).
Proof. unfold lag. by intros -> ->. Qed.

(** Flushing does what is left to do. *)
Lemma emission_lag s ρ σ :
  groups s ++ flush_groups s `prefix_of` GF → zlen GF <= 2 ^ 16 →
  run_list GF (emission s) ρ σ = lag s ρ σ.
Proof.
  intros Hg Hmax. unfold emission, lag, flush_groups in *. rewrite run_list_app.
  destruct (cluster s) as [|a [|b l]] eqn:Ec; [done|by destruct a|].
  cbn [run_list straight].
  assert (E : get_z GF (wrap_u 16 (zlen (groups s))) = Some (a :: b :: l)).
  { destruct Hg as [k ->]. unfold zlen in *. rewrite !length_app in Hmax. cbn in Hmax.
    rewrite wrap_u_small by lia. rewrite get_z_nat, <- app_assoc. by apply list_lookup_middle. }
  by rewrite E.
Qed.
End lag.

(** ** The simulation *)
Section simulation.
Context {S : Type} (fn_effects : gmap bytes EffectClass) (local_fn_index : gmap bytes Z)
  `{SEM : InstrSem S} `{LAWS : !InstrLaws S fn_effects local_fn_index}.
Context (f : BcFn) (PC : list Instr).
Abbreviation visit := (Optimize.visit fn_effects local_fn_index).
Abbreviation visits := (OptimizeSim.visits fn_effects local_fn_index).
Abbreviation c := (code f).
Abbreviation s0 := (initial f).

(** The pass before instruction [k], and after the last. *)
Definition st (k : nat) : OptState := visits 0 (take k c) s0.
Definition final : OptState := flush (visits 0 c s0).
Abbreviation GF := (groups final).
Abbreviation lag := (lag GF).

Context (Hrel : Forall (λ i, relocatable i = true) c)
  (Hclear : reads_clear fn_effects local_fn_index 0 c s0 = true)
  (Hjumps : ∀ k i, c !! k = Some i → jump_ok fn_effects local_fn_index c s0 (k, i) = true)
  (Hmax : zlen GF <= 2 ^ 16)
  (Hpatch : patch_all final 0 (new_code final) = Ok PC).

Lemma st_succ k i : c !! k = Some i → st (Datatypes.S k) = visit k i (st k).
Proof.
  intros Hk. unfold st. rewrite (take_S_r _ _ i) by done. rewrite visits_app.
  rewrite length_take_le; [done|]. apply lookup_lt_Some in Hk. lia.
Qed.

Lemma st_split k : visits 0 c s0 = visits k (drop k c) (st k) ∨ (length c < k)%nat.
Proof.
  destruct (decide (k ≤ length c)%nat); [left|right; lia].
  rewrite <- (take_drop k c) at 1. rewrite visits_app. by rewrite length_take_le.
Qed.

Lemma s0_inv : pass_inv fn_effects local_fn_index s0.
Proof. by split. Qed.

Lemma st_inv k : pass_inv fn_effects local_fn_index (st k).
Proof. apply visits_inv; [by apply Forall_take|apply s0_inv]. Qed.

Lemma st_clear k i : c !! k = Some i → read_clear i (st k) = true.
Proof.
  clear Hjumps Hpatch Hmax Hrel. unfold st. revert Hclear.
  generalize s0, 0%nat. generalize c. intros l. revert k.
  induction l as [|j l IH]; intros [|k] s o; cbn [reads_clear]; try done; intros [Hj Hl]%andb_prop.
  - by intros [= ->].
  - intros Hk. cbn [take OptimizeSim.visits]. by apply IH.
Qed.

(** The code and groups before [k] stay. *)
Lemma st_grows k :
  new_code (st k) `prefix_of` new_code final ∧ groups (st k) `prefix_of` GF.
Proof.
  unfold final. rewrite flush_code, flush_groups_eq.
  destruct (st_split k) as [E|E].
  - rewrite E. destruct (visits_grows fn_effects local_fn_index (drop k c) k (st k)).
    split; by apply prefix_app_r.
  - unfold st. rewrite take_ge by lia. split; by apply prefix_app_r.
Qed.

Lemma PC_lookup j i :
  new_code final !! j = Some i → ∃ i', PC !! j = Some i' ∧ patch final j i = Ok i'.
Proof. destruct (patch_all_lookup _ _ _ _ Hpatch) as [_ Hl]. apply Hl. Qed.

Lemma PC_same j i : new_code final !! j = Some i → is_jump i = false → PC !! j = Some i.
Proof.
  intros (i' & Hi & Hp)%PC_lookup Hj. rewrite Hi. by destruct i; try done; injection Hp as <-.
Qed.

(** A block of emitted code runs as it is. *)
Lemma emission_plain s :
  pass_inv fn_effects local_fn_index s → forallb no_transfer (emission s) = true.
Proof.
  intros [Hm _ _]. unfold emission. rewrite forallb_app. apply andb_true_intro. split.
  - destruct (cluster s) as [|[] [|]]; done.
  - apply forallb_forall. intros i Hi%list_elem_of_In. rewrite Forall_forall in Hm.
    destruct (Hm i Hi) as (Hb & _ & _). by destruct i.
Qed.

Definition flushed_at (k : nat) : Prop :=
  new_code (st k) ++ emission (st k) `prefix_of` new_code final ∧
  groups (st k) ++ flush_groups (st k) `prefix_of` GF.

Lemma emitted_flushed k i :
  emitted k i (st k) (st (Datatypes.S k)) → flushed_at k ∧
  new_code final !! length (new_code (st k) ++ emission (st k)) = Some i.
Proof.
  intros [Hc Hg _ _ _]. destruct (st_grows (Datatypes.S k)) as [Gc Gg]. rewrite Hc in Gc. rewrite Hg in Gg.
  rewrite app_assoc in Gc. split; [split; [|done]|].
  - etrans; [|done]. by apply prefix_app_r.
  - eapply prefix_lookup_Some; [|done]. by apply list_lookup_middle.
Qed.

Lemma end_flushed : flushed_at (length c) ∧
  length (new_code (st (length c)) ++ emission (st (length c))) = length (new_code final).
Proof.
  unfold flushed_at, final, st. rewrite take_ge by lia. by rewrite flush_code, flush_groups_eq.
Qed.

Lemma emission_runs k n ρ σ :
  flushed_at k →
  run PC GF (length (emission (st k)) + n) (Z.of_nat (length (new_code (st k)))) ρ σ =
  run_then (lag (st k) ρ σ) (λ ρ' σ',
    run PC GF n (Z.of_nat (length (new_code (st k) ++ emission (st k)))) ρ' σ').
Proof.
  intros [Hc Hg]. rewrite run_block.
  - rewrite length_app. f_equal. by apply emission_lag.
  - intros j i Hj. pose proof (emission_plain (st k) (st_inv k)) as Hp.
    rewrite forallb_forall in Hp. assert (no_transfer i = true).
    { apply Hp, list_elem_of_In. by eapply list_elem_of_lookup_2. }
    apply PC_same; [|by destruct i]. eapply prefix_lookup_Some; [|done].
    rewrite lookup_app_r by lia. by replace (length (new_code (st k)) + j - length (new_code (st k)))%nat with j by lia.
  - apply emission_plain, st_inv.
Qed.

(** Jumps land at the place of the target. *)
Lemma leader_mapped k :
  (k < length c)%nat → cluster (st k) = [] →
  idx_map final !! k = Some (Some (length (new_code (st k)))).
Proof.
  intros Hk Hcl. destruct (lookup_lt_is_Some_2 c k Hk) as [i Hi].
  assert (Hlen : ∀ j, length (idx_map (st j)) = length c).
  { intros j. unfold st. rewrite visits_idx_len. apply length_replicate. }
  assert (Hri : relocatable i = true) by (rewrite Forall_lookup in Hrel; eauto).
  unfold final. destruct (st_split (Datatypes.S k)) as [E|]; [|lia]. rewrite E.
  assert (Hpi := st_inv (Datatypes.S k)). assert (Hd := Forall_drop _ (Datatypes.S k) _ Hrel).
  apply (flush_sent fn_effects local_fn_index).
  - by apply visits_inv.
  - rewrite visits_idx_len, Hlen. lia.
  - apply visits_sent; [done|done|rewrite Hlen; lia|lia|].
    rewrite (st_succ k i) by done. apply visit_leader; [done|apply st_inv|rewrite Hlen; lia|done].
Qed.

Lemma map_mapped m n k p : m !! k = Some (Some p) → map_or_end m n (Z.of_nat k) = Z.of_nat p.
Proof.
  intros Hk. unfold map_or_end. destruct (Z.ltb_spec (Z.of_nat k) 0); [lia|]. rewrite Nat2Z.id.
  rewrite (drop_S m (Some p)) by done. cbn. by rewrite decide_True by done.
Qed.

Lemma map_end n t : zlen c <= t → map_or_end (idx_map final) n t = n.
Proof.
  intros Ht. unfold map_or_end, zlen in *. destruct (Z.ltb_spec t 0); [lia|].
  rewrite drop_ge; [done|]. unfold final. rewrite flush_idx_len, visits_idx_len. cbn.
  rewrite length_replicate. lia.
Qed.

Lemma lands_cases t :
  lands fn_effects local_fn_index c s0 t = true →
  (zlen c <= t ∧ map_or_end (idx_map final) (zlen (new_code final)) t = zlen (new_code final)) ∨
  ∃ k, t = Z.of_nat k ∧ cluster (st k) = [] ∧ (k < length c)%nat ∧
    map_or_end (idx_map final) (zlen (new_code final)) t = Z.of_nat (length (new_code (st k))).
Proof.
  unfold lands. intros [Hpos%Z.leb_le Ht]%andb_prop.
  destruct (Z.leb_spec (zlen c) t) as [Hle|Hlt]; [left; split; [done|by apply map_end]|right].
  cbn [orb] in Ht. apply bool_decide_eq_true in Ht.
  exists (Z.to_nat t). unfold zlen in *. splits; [lia|done|lia|].
  rewrite <- (Z2Nat.id t) at 1 by done. apply map_mapped, leader_mapped; [lia|done].
Qed.

Lemma jump_patched k i :
  c !! k = Some i → emitted k i (st k) (st (Datatypes.S k)) → is_jump i = true →
  new_jump_old final !! length (new_code (st k) ++ emission (st k)) = Some k.
Proof.
  intros Hi He Hj. pose proof (emitted_origin _ _ _ _ He Hj) as Ho.
  assert (length (new_code (st k) ++ emission (st k)) < length (new_code (st (Datatypes.S k))))%nat.
  { rewrite (emitted_code _ _ _ _ He), app_assoc, (length_app _ [i]). cbn. lia. }
  apply lookup_lt_Some in Hi. unfold final. destruct (st_split (Datatypes.S k)) as [->|]; [|lia].
  apply flush_jumps; [|by apply visits_jumps].
  destruct (visits_grows fn_effects local_fn_index (drop (Datatypes.S k) c) (Datatypes.S k)
    (st (Datatypes.S k))) as [Hg%prefix_length _]. lia.
Qed.
Lemma patch_moved s q k i i' :
  new_jump_old s !! q = Some k → patch s q i = Ok i' →
  let moved offset :=
    map_or_end (idx_map s) (zlen (new_code s)) (Z.of_nat k + 1 + offset) - Z.of_nat q - 1 in
  match i with
  | Jump offset => i' = Jump (moved offset)
  | JumpIfFalse cond offset => i' = JumpIfFalse cond (moved offset)
  | _ => i' = i
  end.
Proof. intros Ho Hp. destruct i; cbn [patch] in Hp; rewrite ?Ho in Hp; by injection Hp as <-. Qed.

(** *** Steps of the simulation *)
Abbreviation at_pos l := (Z.of_nat (length l)).

Definition fails (o : outcome (gmap Z Value * S)) (e : outcome (Value * S)) : Prop :=
  run_then o (λ _ _, None) = Some e.

Lemma fails_then o e k : fails o e → run_then o k = Some e.
Proof. by destruct o as [[]| | |]. Qed.

(** A failure in the lag happens at the next flush. *)
Lemma lag_fails m k ρ σ e :
  (m + k = length c)%nat → fails (lag (st k) ρ σ) e →
  ∃ n, run PC GF n (at_pos (new_code (st k))) ρ σ = Some e.
Proof.
  revert k. induction m as [|m IH]; intros k Hm Hf.
  - assert (k = length c) as -> by lia. exists (length (emission (st (length c))) + 0)%nat.
    rewrite emission_runs by apply end_flushed. by apply fails_then.
  - destruct (lookup_lt_is_Some_2 c k ltac:(lia)) as [i Hi]. pose proof (st_succ k i Hi) as Es.
    assert (Hri : relocatable i = true) by (rewrite Forall_lookup in Hrel; eauto).
    destruct (is_read i) as [op|] eqn:Hr.
    { destruct (IH (Datatypes.S k)) as [n Hn]; [lia| |].
      - rewrite Es. by apply (lag_read_fail GF _ _ op); [|apply st_clear|apply st_inv|].
      - exists n. by rewrite Es, (visit_read _ _ _ _ op) in Hn by done. }
    destruct (visit_other fn_effects local_fn_index k i (st k) Hr (st_inv k)) as [[Hb Hd]|He].
    { destruct (IH (Datatypes.S k)) as [n Hn]; [lia| |].
      - rewrite Es, Hd, lag_deferred. unfold fails in *. by destruct (lag (st k) ρ σ) as [[]| | |].
      - exists n. by rewrite Es, Hd in Hn. }
    rewrite <- Es in He. apply emitted_flushed in He as [Hfl _].
    exists (length (emission (st k)) + 0)%nat. rewrite emission_runs by done. by apply fails_then.
Qed.

Lemma run_beyond n ρ σ (t : Z) r G :
  zlen c <= t → run c G n t ρ σ = Some r → r = Err out_of_bounds.
Proof.
  destruct n as [|n]; [done|]. cbn [run]. intros Ht.
  assert (get_z c t = None) as ->; [|by intros [= <-]].
  unfold get_z, zlen in *. destruct (t <? 0); [done|]. apply lookup_ge_None_2. lia.
Qed.

Lemma PC_end ρ σ : run PC GF 1 (at_pos (new_code final)) ρ σ = Some (Err out_of_bounds).
Proof.
  cbn [run]. rewrite get_z_nat. destruct (patch_all_lookup _ _ _ _ Hpatch) as [Hl _].
  by rewrite lookup_ge_None_2 by lia.
Qed.

Definition simulated (n : nat) : Prop :=
  ∀ k ρ0 σ0 ρ σ r G,
    (k ≤ length c)%nat → lag (st k) ρ0 σ0 = Ok (ρ, σ) → run c G n (Z.of_nat k) ρ σ = Some r →
    ∃ n', run PC GF n' (at_pos (new_code (st k))) ρ0 σ0 = Some r.

(** A jump goes where its target went. *)
Lemma simulated_jump n G t ρ σ r :
  simulated n → lands fn_effects local_fn_index c s0 t = true → run c G n t ρ σ = Some r →
  ∃ n', run PC GF n' (map_or_end (idx_map final) (zlen (new_code final)) t) ρ σ = Some r.
Proof.
  intros IH Hl Hrun. destruct (lands_cases t Hl) as [[Hge ->]|(k & -> & Hcl & Hk & ->)].
  - apply run_beyond in Hrun as ->; [|done]. exists 1%nat. apply PC_end.
  - eapply IH; [lia| |done]. apply lag_none; [done|]. by apply (inv_pending _ _ _ (st_inv k)).
Qed.

(** An emitted instruction, once its flush is done. *)
Lemma simulated_emitted n G k i ρ σ r :
  simulated n → c !! k = Some i → is_read i = None → emitted k i (st k) (st (Datatypes.S k)) →
  run c G (Datatypes.S n) (Z.of_nat k) ρ σ = Some r →
  ∃ n', run PC GF n' (at_pos (new_code (st k) ++ emission (st k))) ρ σ = Some r.
Proof.
  intros IH Hi Hr He Hrun. destruct (emitted_flushed k i He) as [_ Hat].
  assert (Hri : relocatable i = true) by (rewrite Forall_lookup in Hrel; eauto).
  assert (Hnext : ∀ ρ' σ', run c G n (Z.of_nat (Datatypes.S k)) ρ' σ' = Some r →
    ∃ n', run PC GF n' (Z.of_nat (Datatypes.S (length (new_code (st k) ++ emission (st k))))) ρ' σ' = Some r).
  { intros ρ' σ' H'. pose proof He as [Hc _ Hcl Hpe _]. apply lookup_lt_Some in Hi.
    replace (Datatypes.S (length (new_code (st k) ++ emission (st k)))) with (length (new_code (st (Datatypes.S k))))
      by (rewrite Hc, app_assoc, (length_app _ [i]); cbn; lia).
    eapply IH; [lia|by apply lag_none|done]. }
  pose proof (Hjumps k i Hi) as Hj. unfold jump_ok in Hj. cbn [fst snd] in Hj.
  destruct (is_jump i) eqn:Ej.
  - destruct (PC_lookup _ _ Hat) as (i' & Hi' & Hp). pose proof (jump_patched k i Hi He Ej) as Ho.
    cbn [run] in Hrun. rewrite get_z_nat, Hi in Hrun.
    apply (patch_moved _ _ _ _ _ Ho) in Hp.
    assert (Hto : ∀ offset, lands fn_effects local_fn_index c s0 (Z.of_nat k + 1 + offset) = true →
      run c G n (Z.of_nat k + 1 + offset) ρ σ = Some r →
      ∃ n', run PC GF n' (at_pos (new_code (st k) ++ emission (st k)) + 1 +
        (map_or_end (idx_map final) (zlen (new_code final)) (Z.of_nat k + 1 + offset) -
         at_pos (new_code (st k) ++ emission (st k)) - 1)) ρ σ = Some r).
    { intros offset Hl Hro. destruct (simulated_jump n G _ ρ σ r IH Hl Hro) as [n' Hn].
      exists n'. rewrite <- Hn. f_equal. lia. }
    replace (Z.of_nat k + 1) with (Z.of_nat (Datatypes.S k)) in Hrun by lia.
    destruct i; try discriminate Ej; subst i'; rewrite Nat2Z.inj_succ, <- Z.add_1_r in Hrun.
    + destruct (Hto _ Hj Hrun) as [n' Hn]. exists (Datatypes.S n'). cbn [run]. by rewrite get_z_nat, Hi'.
    + rewrite Z.add_1_r, <- Nat2Z.inj_succ in Hrun.
      destruct (is_false (ρ !! cond)) eqn:Ef.
      * rewrite Nat2Z.inj_succ, <- Z.add_1_r in Hrun. destruct (Hto _ Hj Hrun) as [n' Hn].
        exists (Datatypes.S n'). cbn [run]. by rewrite get_z_nat, Hi', Ef.
      * destruct (Hnext _ _ Hrun) as [n' Hn].
        exists (Datatypes.S n'). cbn [run]. rewrite get_z_nat, Hi', Ef.
        by rewrite Nat2Z.inj_succ, <- Z.add_1_r in Hn.
  - pose proof (PC_same _ _ Hat Ej) as Hi'. destruct (no_transfer i) eqn:En.
    + rewrite (run_step _ _ _ _ i) in Hrun by done. rewrite straight_exec in Hrun by done.
      assert (Hs : ∀ n', run PC GF (Datatypes.S n') (at_pos (new_code (st k) ++ emission (st k))) ρ σ =
        run_then (exec i ρ σ) (λ ρ' σ', run PC GF n'
          (Z.of_nat (Datatypes.S (length (new_code (st k) ++ emission (st k))))) ρ' σ')).
      { intros n'. rewrite (run_step _ _ _ _ i) by done. by rewrite straight_exec. }
      destruct (exec i ρ σ) as [[ρ' σ']| | |];
        [|exists 1%nat; by rewrite Hs..].
      destruct (Hnext _ _ Hrun) as [n' Hn]. exists (Datatypes.S n'). by rewrite Hs.
    + exists 1%nat. cbn [run] in *. rewrite get_z_nat, Hi in Hrun. rewrite get_z_nat, Hi'.
      by destruct i.
Qed.

Lemma simulates n : simulated n.
Proof.
  induction n as [|n IH]; intros k ρ0 σ0 ρ σ r G Hk Hlag Hrun; [done|].
  destruct (c !! k) as [i|] eqn:Hi.
  - pose proof (st_succ k i Hi) as Es. pose proof (lookup_lt_Some _ _ _ Hi) as Hlt.
    assert (Hri : relocatable i = true) by (rewrite Forall_lookup in Hrel; eauto).
    destruct (is_read i) as [op|] eqn:Hr.
    { assert (En : new_code (st (Datatypes.S k)) = new_code (st k))
        by (by rewrite Es, (visit_read _ _ _ _ op)).
      rewrite <- En. apply (IH _ ρ0 σ0 (read_into σ ρ op) σ r G); [lia| |].
      - rewrite Es. by apply lag_read; [|apply st_clear|apply st_inv|].
      - assert (Hs : straight G i ρ σ = Ok (read_into σ ρ op, σ)) by (by destruct i; try discriminate Hr; injection Hr as <-).
        rewrite (run_step _ _ _ _ i), Hs in Hrun; [done|done|]. by destruct i. }
    destruct (visit_other fn_effects local_fn_index k i (st k) Hr (st_inv k)) as [[Hb Hd]|He].
    + assert (En : new_code (st (Datatypes.S k)) = new_code (st k)) by (by rewrite Es, Hd).
      rewrite <- En. rewrite (run_step _ _ _ _ i) in Hrun; [|done|by destruct i].
      rewrite straight_exec in Hrun by done.
      assert (Hl : lag (st (Datatypes.S k)) ρ0 σ0 = exec i ρ σ).
      { rewrite Es, Hd, lag_deferred, Hlag. cbn. by rewrite straight_exec. }
      destruct (exec i ρ σ) as [[ρ' σ']| | |] eqn:Ex.
      * by eapply IH; [lia| |].
      * eapply (lag_fails (length c - Datatypes.S k)); [lia|]. unfold fails. by rewrite Hl.
      * eapply (lag_fails (length c - Datatypes.S k)); [lia|]. unfold fails. by rewrite Hl.
      * eapply (lag_fails (length c - Datatypes.S k)); [lia|]. unfold fails. by rewrite Hl.
    + rewrite <- Es in He. destruct (emitted_flushed k i He) as [Hfl _].
      destruct (simulated_emitted n G k i ρ σ r IH Hi Hr He Hrun) as [n' Hn].
      exists (length (emission (st k)) + n')%nat. rewrite emission_runs by done. by rewrite Hlag.
  - apply lookup_ge_None in Hi. assert (k = length c) as -> by lia.
    apply run_beyond in Hrun as ->; [|unfold zlen; lia]. destruct end_flushed as [Hfl El].
    exists (length (emission (st (length c))) + 1)%nat. rewrite emission_runs by done.
    rewrite Hlag. cbn [run_then]. rewrite El. apply PC_end.
Qed.
End simulation.

