(* ===== verification/VmWitness.v ===== *)
(** Programs run by the machine: the bytecode the compiler makes of small
    functions, as it is and after read clustering. *)
From S2P Require Import Prelude Bytes Hashing Values Serialize Kv Tx JsonText Floats Display Ops Bytecode VmBase Vm Optimize OptimizeSim VmFacts OptimizeRun.

#[local] Existing Instance TwosComplement.codec.
#[local] Instance vm_no_text : FloatText := {| format_f64 := λ _, []; parse_f64 := λ _, None |}.
#[local] Instance vm_quiet_nan : FloatNan := λ _ _, 0x7ff8000000000000.

(** A module of one function over two integer states, [a] at key 1000 and [b] at
    key 1001, and a hash map [p] at key 1002, and a store that holds the integers. *)
Definition program (n_regs : Z) (code : list Instr) (consts : list Const) : BcModule :=
  let main := mkFn (str "main") 0 n_regs code consts true false [] [] TInt false false in
  mkModule (str "m") [] ∅ [1000; 1001; 1002] [TInt; TInt; TPMap TInt TInt] [] [] ∅ [] ∅ [main] {[ str "main" := 0 ]} [] ∅ [] ∅ [] ∅.

Definition holding (a b : Z) : InMemoryKv :=
  let enc n := match serialize (VInt n) with Ok bs => bs | _ => [] end in
  <[1000 := enc a]> (<[1001 := enc b]> ∅).

(** The value [main] returns, with the fuel left. *)
Definition outcome_of (m : BcModule) (kv : InMemoryKv) (fuel0 : Z) : option (outcome (Value * Z)) :=
  fst <$> run_world 10 ∅ [m] (Datatypes.S (Z.to_nat fuel0)) 0 (str "main") [] fuel0 (new (as_kv kv)).

Definition value_of (m : outcome BcModule) (kv : InMemoryKv) (fuel0 : Z) : option Value :=
  match m with
  | Ok m => match outcome_of m kv fuel0 with Some (Ok (v, _)) => Some v | _ => None end
  | _ => None
  end.

(** [loop {}] *)
Definition spin : BcModule := program 1 [Jump (-1)] [].


(** *** Where clustering goes wrong

    Each program is what the compiler emits for the text above it. *)

(** [let c = 0; let x = a; c = 5; let y = b; return y]: the constant 5 and the
    read of [b] share register 2; the deferred [LoadConst] overwrites the read,
    which the batch has moved in front of it. *)
Definition clobbered : BcModule :=
  program 4 [LoadConst 0 0; KvGet 1 0; LoadConst 2 1; Move 0 2; KvGet 2 1; Move 3 2; Return 3]
    [CInt 0; CInt 5].

(** Read clustering changes the meaning of compiled programs: an instruction
    deferred behind a batch overwrites a register the batch has read into.  The
    function returns the state [b] as compiled and the constant 5 as
    optimized. *)
Theorem clustering_clobbers :
  value_of (Ok clobbered) (holding 3 7) 40 = Some (VInt 7) ∧
  value_of (optimize clobbered ∅) (holding 3 7) 40 = Some (VInt 5) ∧
  clusters_safely ∅ (fn_index clobbered) <$> functions clobbered = [false].
Proof. vm_compute. done. Qed.

(** [let x = a; while b < 1 { a = 9; b = b + 1; } return x]: the first test of the
    loop joins the read of [x], and the jump back lands on the batch, which reads
    [x] again. *)
Definition reread : BcModule :=
  program 3 [KvGet 0 0; KvGet 1 1; LoadConst 2 0; Bin Lt 1 1 2; JumpIfFalse 1 7;
    LoadConst 1 1; KvPut 1 0; KvGet 1 1; LoadConst 2 2; Bin Add 1 1 2; KvPut 1 1; Jump (-11);
    Move 1 0; Return 1] [CInt 1; CInt 9; CInt 1].

Lemma clustering_rereads :
  value_of (Ok reread) (holding 3 0) 60 = Some (VInt 3) ∧
  value_of (optimize reread ∅) (holding 3 0) 60 = Some (VInt 9).
Proof. vm_compute. done. Qed.

(** [let x = 0; for v in p { x = a + b; } return x], the map empty: the exit of
    the walk keeps the distance it had before the two reads became one batch, and
    skips the instruction after the loop. *)
Definition overshot : BcModule :=
  program 5 [LoadConst 0 0; PMapWalkInit 1 2; PMapWalkNext 1 2 5; KvGet 3 0; KvGet 4 1; Bin Add 3 3 4;
    Move 0 3; Jump (-6); Move 1 0; Return 1] [CInt 0].

Lemma clustering_overshoots :
  value_of (Ok overshot) (holding 3 4) 60 = Some (VInt 0) ∧
  value_of (optimize overshot ∅) (holding 3 4) 60 = Some (VPMapCursor [] [] TInt TInt).
Proof. vm_compute. done. Qed.

(** *** Where it does not *)

(** Straight code over a store of state values, for the simulation's
    interface. *)
Definition over_store (consts : list Const) (instr : Instr) (ρ : gmap Z Value) (σ : gmap Z Value) :
    outcome (gmap Z Value * gmap Z Value) :=
  match instr with
  | LoadConst dst k => c ← or_panic (get_z consts k); Ok (<[dst := load_const c]> ρ, σ)
  | Move dst src => v ← or_panic (ρ !! src); Ok (<[dst := v]> ρ, σ)
  | Bin op dst lhs rhs =>
      a ← or_panic (ρ !! lhs);
      b ← or_panic (ρ !! rhs);
      v ← eval_binary op a b Span_default;
      Ok (<[dst := v]> ρ, σ)
  | KvPut src key_idx => v ← or_panic (ρ !! src); Ok (ρ, <[key_idx := v]> σ)
  | _ => Err (runtime "not an instruction of straight code" Span_default)
  end.

#[local] Instance store_sem (consts : list Const) : InstrSem (gmap Z Value) := {
  exec := over_store consts;
  read_value op σ := default VUnit (σ !! match op with RState _ k => k | RPath _ k => -1 - k end);
}.

#[local] Instance store_laws (consts : list Const) : @InstrLaws _ (store_sem consts) ∅ ∅.
Proof.
  split.
  - intros i ρ σ ρ' σ' Hb _ _ Hex. change (over_store consts i ρ σ = Ok (ρ', σ')) in Hex.
    destruct i; try discriminate Hex; try discriminate Hb; cbn in Hex; revert Hex.
    + destruct (or_panic _); [|discriminate..]. by intros [= _ <-].
    + destruct (or_panic _); [|discriminate..]. by intros [= _ <-].
    + destruct (ρ !! lhs) as [a|]; cbn; [|discriminate].
      destruct (ρ !! rhs) as [b|]; cbn; [|discriminate].
      destruct (eval_binary _ a b _); cbn; [|discriminate..]. by intros [= _ <-].
  - intros i ρ σ r v Hb _ _ Hr.
    change (over_store consts i (<[r := v]> ρ) σ = prod_map (insert r v) id <$> over_store consts i ρ σ).
    destruct i; try reflexivity; try discriminate Hb; cbn in Hr |- *;
      repeat (apply not_elem_of_cons in Hr as [? Hr]); rewrite ?lookup_insert_ne by done.
    + destruct (or_panic _); [|done..]. cbn. by rewrite insert_insert_ne.
    + destruct (or_panic _); [|done..]. cbn. by rewrite insert_insert_ne.
    + destruct (ρ !! lhs) as [a|]; cbn; [|done].
      destruct (ρ !! rhs) as [b|]; cbn; [|done].
      destruct (eval_binary _ a b _); [|done..]. cbn. by rewrite insert_insert_ne.
Qed.

(** [let x = a; let k = 5; let y = b; return x + y]: one batch, the constant
    behind it. *)
Definition clustered : BcFn :=
  mkFn (str "main") 0 4 [KvGet 0 0; LoadConst 1 0; KvGet 2 1; Bin Add 3 0 2; Return 3] [CInt 5]
    true false [] [] TInt false false.

Definition sample_states : gmap Z Value := {[0 := VInt 3; 1 := VInt 7]}.

