(* ===== verification/CompileCore.v ===== *)
(** The core of the language, on which compiled code computes what the tree
    interpreter evaluates: functions over locals with every operator, tuples,
    arrays and structs, pipes, blocks, branches, loops and calls.  This file has the
    core, the machine's steps on the instructions the core compiles to, and the
    agreement of scopes and registers. *)
From S2P Require Import Prelude Bytes Hashing Values Serialize Kv Merkle Tx TxTyped TxFacts JsonText Floats Display Ops.
From S2P Require Import Builtins OpsFacts Bytecode Ast Effects Prefetch Compile VmBase VmState Vm Interp.

(** ** The core *)
Section core.
Context (m : SrcModule).

(** The name is no state and no constant: it can only be a local. *)
Definition local_name (name : bytes) : bool :=
  bool_decide (name ∉ (st_name <$> sm_states m) ++ (cn_name <$> sm_consts m)).
(** The name of a function of the module, of no builtin and no import. *)
Definition some_context : TxContext := mkContext VUnit 0 0.
Definition plain_call `{BigIntCodec} `{FloatText} `{FloatNan} (name : bytes) (n_args : nat) : bool :=
  match state_builtin name, try_builtin some_context name [], unary_builtin name, context_kind name, convert_target name with
  | None, None, None, None, None =>
      bool_decide (name ∉ generic_builtins) && bool_decide (name ∉ ip_name <$> sm_imports m) && (n_args <? 256)%nat
  | _, _, _, _, _ => false
  end.
(** A condition that can only be a boolean, if anything. *)
Fixpoint is_condition (e : Expr) : bool :=
  match e with
  | mkExpr (E_Bool _) _ => true
  | mkExpr (E_Binary (Eq | NotEq | Lt | Gt | LtEq | GtEq | And | Or) _ _) _ => true
  | mkExpr (E_Unary Not _) _ => true
  | mkExpr (E_ExplicitLiteral inner) _ => is_condition inner
  | _ => false
  end.
(** The block has a value: without one the compiler loads [false], where the
    interpreter answers unit. *)
Definition has_tail (b : Block) : bool := match bl_tail b with Some _ => true | None => false end.
Definition small {A} (l : list A) : bool := zlen l <? 65536.

Context `{BigIntCodec} `{FloatText} `{FloatNan}.
(** [ret]: a [return] may occur; [loop]: a [break] or [continue] may. *)
Fixpoint core_expr (e : Expr) {struct e} : bool :=
  match e with mkExpr kind _ =>
  match kind with
  | E_Int _ | E_UInt _ | E_Float _ | E_I32 _ | E_U32 _ | E_U64 _ | E_U128 _ | E_Bool _ | E_Str _ | E_Prev => true
  | E_Ident name => local_name name
  | E_Binary _ lhs rhs => core_expr lhs && core_expr rhs
  | E_Unary _ operand => core_expr operand
  | E_ExplicitLiteral inner => core_expr inner
  | E_Array elems | E_TupleLit elems => small elems && forallb (λ e, core_expr e) elems
  | E_TupleIndex target index => (0 <=? index) && (index <? 65536) && core_expr target
  | E_Index target key => core_expr target && core_expr key
  | E_Field target _ => core_expr target
  | E_StructLit _ fields => forallb (λ p, match p with (_, e) => core_expr e end) fields
  | E_Pipe head step => core_expr head && core_expr step
  | E_Call None name args => plain_call name (length args) && forallb (λ e, core_expr e) args
  | E_Block b => has_tail b && core_block false false b
  | E_If cond then_ else_branch =>
      is_condition cond && core_expr cond && (has_tail then_ && core_block false false then_) &&
      match else_branch with
      | ElseNone => true
      | ElseBlock b => has_tail b && core_block false false b
      | ElseIf inner => core_if_expr inner
      end
  | _ => false
  end end
with core_if_expr (ifs : IfStmt) {struct ifs} : bool :=
  match ifs with mkIf cond then_ else_branch _ =>
    is_condition cond && core_expr cond && (has_tail then_ && core_block false false then_) &&
    match else_branch with
    | ElseNone => true
    | ElseBlock b => has_tail b && core_block false false b
    | ElseIf inner => core_if_expr inner
    end
  end
with core_block (ret loop : bool) (b : Block) {struct b} : bool :=
  match b with mkBlock ss t _ =>
    forallb (λ s, core_stmt ret loop s) ss && match t with Some e => core_expr e | None => true end
  end
with core_if (ret loop : bool) (ifs : IfStmt) {struct ifs} : bool :=
  match ifs with mkIf cond then_ else_branch _ =>
    core_expr cond && core_block ret loop then_ &&
    match else_branch with
    | ElseNone => true
    | ElseBlock b => core_block ret loop b
    | ElseIf inner => core_if ret loop inner
    end
  end
with core_stmt (ret loop : bool) (s : Stmt) {struct s} : bool :=
  match s with
  | S_Let _ _ value _ => core_expr value
  | S_LetTuple names value _ => small names && core_expr value
  | S_Assign (mkExpr (E_Ident name) _) value _ => local_name name && core_expr value
  | S_Return (Some e) _ => ret && core_expr e
  | S_Return None _ => ret
  | S_If ifs => core_if ret loop ifs
  | S_While cond body _ => core_expr cond && core_block ret true body
  | S_Break _ | S_Continue _ => loop
  | S_Expr e => core_expr e
  | _ => false
  end.

(** The statement never ends normally. *)
Fixpoint returns (s : Stmt) {struct s} : bool :=
  match s with
  | S_Return _ _ => true
  | S_If ifs => returns_if ifs
  | _ => false
  end
with returns_if (ifs : IfStmt) {struct ifs} : bool :=
  match ifs with mkIf _ then_ else_branch _ =>
    returns_block then_ &&
    match else_branch with
    | ElseNone => false
    | ElseBlock b => returns_block b
    | ElseIf inner => returns_if inner
    end
  end
with returns_block (b : Block) {struct b} : bool :=
  match b with mkBlock ss t _ =>
    match t with Some _ => false | None => existsb (λ s, returns s) ss end
  end.
(** A function of the core: a value ends its body, or no path falls off its end. *)
Definition core_fn (f : FnDef) : bool :=
  core_block true false (fd_body f) && small (fd_params f) &&
  (has_tail (fd_body f) || returns_block (fd_body f)).
(** Every function of the module is of the core, under a name of its own. *)
Definition core_module : bool :=
  forallb core_fn (sm_functions m) && small (sm_functions m) &&
  bool_decide (NoDup (fd_name <$> sm_functions m)) && small (shapes_of m) &&
  forallb (λ sh, small (field_names sh)) (shapes_of m).
End core.

(** ** Operators whose errors differ in their positions only *)
Section operators.
Context `{FloatText} {Nan : FloatNan}.
Definition alike (test : bool) (r r' : outcome Value) : Prop :=
  match r with
  | Ok v => r' = Ok v ∧ contains_pending v = false ∧ (test = true → ∃ b, v = VBool b)
  | _ => True
  end.
Lemma alike_ok test v : contains_pending v = false → (test = true → ∃ b, v = VBool b) → alike test (Ok v) (Ok v).
Proof. done. Qed.
Lemma alike_bool test b : alike test (Ok (VBool b)) (Ok (VBool b)).
Proof. repeat split. by exists b. Qed.
Lemma alike_checked k n span span' : alike false (checked k span n) (checked k span' n).
Proof. unfold checked. destruct (in_kind k n); [|done]. repeat split; [by destruct k|done]. Qed.
Lemma alike_mk_int k n : alike false (Ok (mk_int k n)) (Ok (mk_int k n)).
Proof. repeat split; [by destruct k|done]. Qed.
Ltac alike := first [ exact I | apply alike_bool | apply alike_checked | apply alike_mk_int
  | apply alike_ok; [done|intros ?; discriminate] ].
Lemma int_arith_alike op k a b span span' : alike (is_test op) (int_arith op k a b span) (int_arith op k a b span').
Proof.
  destruct op; cbn [int_arith is_test]; try alike.
  - destruct (b =? 0); alike.
  - destruct (b =? 0); [alike|]. destruct (in_kind k (Z.quot a b)); alike.
  - unfold checked_shift. destruct (_ && _); alike.
  - unfold checked_shift. destruct (_ && _); alike.
Qed.
Lemma bigint_arith_alike op a b span span' (unsigned : bool) :
  alike (is_test op) (bigint_arith op a b span unsigned) (bigint_arith op a b span' unsigned).
Proof.
  assert (Hw : ∀ n, alike false (Ok ((if unsigned then VUInt else VInt) n)) (Ok ((if unsigned then VUInt else VInt) n))).
  { intros n. destruct unsigned; alike. }
  destruct op; cbn [bigint_arith is_test]; try apply Hw; try alike.
  - destruct (_ && _); [alike|apply Hw].
  - destruct (b =? 0); [alike|apply Hw].
  - destruct (b =? 0); [alike|apply Hw].
  - destruct (b <? 0); [alike|]. destruct (in_u 32 b); [apply Hw|alike].
  - destruct (b <? 0); [alike|]. destruct (in_u 32 b); [apply Hw|alike].
Qed.
Lemma eval_binary_alike op l r span span' : alike (is_test op) (eval_binary op l r span) (eval_binary op l r span').
Proof.
  assert (Hother : alike (is_test op)
    (if (discriminant l =? discriminant r)%nat then
       match op with
       | Eq => Ok (VBool (value_eqb l r)) | NotEq => Ok (VBool (negb (value_eqb l r))) | _ => mismatch op l r span
       end else mismatch op l r span)
    (if (discriminant l =? discriminant r)%nat then
       match op with
       | Eq => Ok (VBool (value_eqb l r)) | NotEq => Ok (VBool (negb (value_eqb l r))) | _ => mismatch op l r span'
       end else mismatch op l r span')).
  { destruct (_ =? _)%nat; [|done]. destruct op; alike. }
  destruct l, r; try exact Hother; cbn [eval_binary].
  - apply bigint_arith_alike.
  - apply bigint_arith_alike.
  - destruct op; alike.
  - apply int_arith_alike.
  - apply int_arith_alike.
  - apply int_arith_alike.
  - apply int_arith_alike.
  - destruct op; alike.
Qed.
Definition is_not (op : UnOp) : bool := match op with Not => true | Neg => false end.
Lemma eval_unary_alike op v span span' : alike (is_not op) (eval_unary op v span) (eval_unary op v span').
Proof.
  destruct op, v; cbn [eval_unary is_not]; try alike.
  - destruct (n =? 0); alike.
  - unfold neg_unsigned. destruct (n =? 0); alike.
  - unfold neg_unsigned. destruct (n =? 0); alike.
  - unfold neg_unsigned. destruct (n =? 0); alike.
Qed.
End operators.

(** ** Registers *)
Definition holds (regs : list Value) (r : Z) (v : Value) : Prop := get_z regs r = Some v ∧ contains_pending v = false.

Lemma get_z_range {A} (l : list A) i : 0 <= i < zlen l → ∃ x, get_z l i = Some x.
Proof.
  intros Hi. unfold get_z, zlen in *. destruct (Z.ltb_spec i 0); [lia|]. apply lookup_lt_is_Some_2. lia.
Qed.
Lemma get_z_bound {A} (l : list A) i x : get_z l i = Some x → 0 <= i < zlen l.
Proof.
  unfold get_z, zlen. destruct (Z.ltb_spec i 0); [done|]. intros E%lookup_lt_Some. lia.
Qed.
Lemma zlen_set {A} (l : list A) i x : zlen (set_z l i x) = zlen l.
Proof. unfold zlen, set_z. by rewrite length_insert. Qed.
Lemma get_z_set_eq {A} (l : list A) i x : 0 <= i < zlen l → get_z (set_z l i x) i = Some x.
Proof.
  intros Hi. unfold get_z, set_z, zlen in *. destruct (Z.ltb_spec i 0); [lia|]. apply list_lookup_insert_eq. lia.
Qed.
Lemma get_z_set_ne {A} (l : list A) i j x : 0 <= i → i ≠ j → get_z (set_z l i x) j = get_z l j.
Proof.
  intros Hi Hne. unfold get_z, set_z. destruct (Z.ltb_spec j 0); [done|]. apply list_lookup_insert_ne. lia.
Qed.
Lemma set_z_same {A} (l : list A) i x : get_z l i = Some x → set_z l i x = l.
Proof. unfold get_z, set_z. destruct (Z.ltb_spec i 0); [done|]. apply list_insert_id. Qed.
Lemma get_z_prefix {A} (l k : list A) i x : l `prefix_of` k → get_z l i = Some x → get_z k i = Some x.
Proof. unfold get_z. destruct (i <? 0); [done|]. intros Hp Hi. by eapply prefix_lookup_Some. Qed.
Lemma get_z_last {A} (l : list A) x : get_z (l ++ [x]) (zlen l) = Some x.
Proof.
  unfold get_z, zlen. destruct (Z.ltb_spec (Z.of_nat (length l)) 0); [lia|]. rewrite Nat2Z.id. by apply list_lookup_middle.
Qed.
Lemma holds_bound regs r v : holds regs r v → 0 <= r < zlen regs.
Proof. intros [E _]. by eapply get_z_bound. Qed.

(** ** Registers read and forced *)
Lemma VM_bind_ok {A B} (m : VM A) (g : A → VM B) s a s' : m s = Some (Ok a, s') → (m ≫= g) s = g a s'.
Proof. intros E. unfold mbind, VM_bind. by rewrite E. Qed.
Lemma reg_ok regs r v s : get_z regs r = Some v → reg regs r s = Some (Ok v, s).
Proof. intros E. unfold reg, vm_lift. by rewrite E. Qed.
Lemma index_ok {A} (l : list A) i x s : get_z l i = Some x → index l i s = Some (Ok x, s).
Proof. intros E. unfold index, vm_lift. by rewrite E. Qed.
Lemma set_reg_ok regs r v s : 0 <= r < zlen regs → set_reg regs r v s = Some (Ok (set_z regs r v), s).
Proof. intros Hr. unfold set_reg. destruct (get_z_range regs r Hr) as [w ->]. done. Qed.
Lemma store_ok regs pc r v s : 0 <= r < zlen regs → store regs pc r v s = Some (Ok (SNext (set_z regs r v) pc), s).
Proof. intros Hr. unfold store. by rewrite (VM_bind_ok _ _ _ _ _ (set_reg_ok regs r v s Hr)). Qed.
(** A value without reads in flight is what forcing makes of it. *)
Lemma force_reg_ok `{BigIntCodec} regs r v s : holds regs r v → force_reg regs r s = Some (Ok (v, regs), s).
Proof.
  intros [E Hv]. unfold force_reg. rewrite (VM_bind_ok _ _ _ _ _ (reg_ok regs r v s E)). destruct s as [F t sk].
  erewrite VM_bind_ok by (unfold on_tx; cbn [vm_tx]; rewrite (force_concrete v t Hv); reflexivity).
  erewrite VM_bind_ok by (apply set_reg_ok; by eapply get_z_bound). by rewrite set_z_same.
Qed.
Lemma force_spine_ok `{BigIntCodec} regs r v s : holds regs r v → force_reg_spine regs r s = Some (Ok (v, regs), s).
Proof.
  intros [E Hv]. unfold force_reg_spine. rewrite (VM_bind_ok _ _ _ _ _ (reg_ok regs r v s E)). destruct s as [F t sk].
  erewrite VM_bind_ok by (unfold on_tx, force_spine; destruct v; try done; reflexivity).
  erewrite VM_bind_ok by (apply set_reg_ok; by eapply get_z_bound). by rewrite set_z_same.
Qed.
(** Values in consecutive registers. *)
Fixpoint args_in (regs : list Value) (start : Z) (vs : list Value) : Prop :=
  match vs with [] => True | v :: rest => holds regs start v ∧ args_in regs (start + 1) rest end.
Lemma arg_regs_cons start (n : nat) : arg_regs start (Z.of_nat (S n)) = start :: arg_regs (start + 1) (Z.of_nat n).
Proof.
  unfold arg_regs. rewrite !Nat2Z.id. cbn [seq fmap list_fmap]. f_equal; [lia|]. rewrite <- fmap_S_seq, <- list_fmap_compose.
  apply list_fmap_ext. intros i x _. cbn. lia.
Qed.
Lemma read_regs_ok regs start vs s : args_in regs start vs →
  read_regs regs (arg_regs start (zlen vs)) s = Some (Ok vs, s).
Proof.
  unfold zlen. revert start. induction vs as [|v vs IH]; intros start Hin; [done|]. destruct Hin as [[E Hv] Hin].
  cbn [length]. rewrite arg_regs_cons. cbn [read_regs]. rewrite (VM_bind_ok _ _ _ _ _ (reg_ok _ _ _ _ E)).
  by rewrite (VM_bind_ok _ _ _ _ _ (IH _ Hin)).
Qed.
Lemma force_regs_ok `{BigIntCodec} regs start vs s : args_in regs start vs →
  force_regs regs (arg_regs start (zlen vs)) s = Some (Ok (vs, regs), s).
Proof.
  unfold zlen. revert start. induction vs as [|v vs IH]; intros start Hin; [done|]. destruct Hin as [Hv Hin].
  cbn [length]. rewrite arg_regs_cons. cbn [force_regs]. rewrite (VM_bind_ok _ _ _ _ _ (force_reg_ok _ _ _ _ Hv)).
  cbn iota beta. by rewrite (VM_bind_ok _ _ _ _ _ (IH _ Hin)).
Qed.

(** ** Steps of the machine *)
Section machine.
Context `{BigIntCodec} `{FloatText} `{FloatNan} (tree_fuel : nat) (host : Host) (modules : list BcModule).
Context (mi fi : Z) (bm : BcModule) (f : BcFn).
Context (Hm : get_z modules mi = Some bm) (Hf : get_z (functions bm) fi = Some f).

Definition Config : Type := list Value * Z * Tx.
Definition run (n : nat) (c : Config) (fuel : Z) (skip : bool) : option (outcome Value * VmState) :=
  call_body_at tree_fuel host modules n mi fi c.1.1 c.1.2 (mkVm fuel c.2 skip).
(** [k] rounds of the loop and [cost] units of fuel lead from [a] to [b], when the
    recursion of the model is at least [K] deep. *)
Definition reach (a b : Config) : Prop := ∃ (k K : nat) cost, 0 <= cost ∧
  ∀ n fuel skip, (K <= n)%nat → cost <= fuel → run (k + n) a fuel skip = run n b (fuel - cost) skip.
(** The function answers [v] from [a]. *)
Definition ends (a : Config) (v : Value) (tx : Tx) : Prop := ∃ (K : nat) cost, 0 <= cost ∧
  ∀ n fuel skip, (K <= n)%nat → cost <= fuel → run n a fuel skip = Some (Ok v, mkVm (fuel - cost) tx skip).

Lemma reach_refl a : reach a a.
Proof. exists O, O, 0. split; [done|]. intros n F skip _ _. cbn [Nat.add]. by rewrite Z.sub_0_r. Qed.
Lemma reach_trans a b c : reach a b → reach b c → reach a c.
Proof.
  intros (k1 & K1 & c1 & Hc1 & R1) (k2 & K2 & c2 & Hc2 & R2). exists (k1 + k2)%nat, (K1 + K2)%nat, (c1 + c2).
  split; [lia|]. intros n F skip HK HF. rewrite <- Nat.add_assoc, R1 by lia. rewrite R2 by lia. f_equal. lia.
Qed.
Lemma reach_ends a b v tx : reach a b → ends b v tx → ends a v tx.
Proof.
  intros (k1 & K1 & c1 & Hc1 & R1) (K2 & c2 & Hc2 & R2). exists (k1 + K1 + K2)%nat, (c1 + c2).
  split; [lia|]. intros n F skip HK HF. replace n with (k1 + (n - k1))%nat by lia.
  rewrite R1 by lia. rewrite R2 by lia. do 3 f_equal. lia.
Qed.

Definition exec (n : nat) : Instr → list Value → Z → VM Step :=
  exec_instr tree_fuel host modules (call_guarded modules (call_body_at tree_fuel host modules n))
    (call_body_at tree_fuel host modules n) mi fi bm f.
(** One round of the loop. *)
Lemma run_round n regs pc tx instr F skip : get_z (code f) pc = Some instr → 1 <= F →
  run (S n) (regs, pc, tx) F skip =
  (r ← exec n instr regs (pc + 1);
   match r with SNext regs' pc' => call_body_at tree_fuel host modules n mi fi regs' pc' | SReturn v => mret v end)
  (mkVm (F - 1) tx skip).
Proof.
  intros Hi HF. unfold run, exec, fst, snd. cbn [call_body_at]. unfold index, vm_lift, tick.
  unfold mbind at 1, VM_bind at 1. rewrite Hm. cbn [or_panic]. unfold mbind at 1, VM_bind at 1. rewrite Hf. cbn [or_panic].
  unfold mbind at 1, VM_bind at 1. cbn [fuel vm_tx parallel_skip].
  destruct (Z.eqb_spec F 0); [lia|]. rewrite Hi. done.
Qed.
Lemma reach_call regs pc tx instr regs' pc' : get_z (code f) pc = Some instr →
  (∃ (K : nat) cost, 0 <= cost ∧ ∀ n F skip, (K <= n)%nat → cost <= F →
    exec n instr regs (pc + 1) (mkVm F tx skip) = Some (Ok (SNext regs' pc'), mkVm (F - cost) tx skip)) →
  reach (regs, pc, tx) (regs', pc', tx).
Proof.
  intros Hi (K & cost & Hc & E). exists 1%nat, K, (cost + 1). split; [lia|]. intros n F skip HK HF.
  change (1 + n)%nat with (S n). erewrite run_round by (done || lia). unfold mbind, VM_bind. rewrite E by lia.
  unfold run. cbn [fst snd]. f_equal. f_equal; lia.
Qed.
Lemma reach_instr regs pc tx instr regs' pc' : get_z (code f) pc = Some instr →
  (∀ n s, vm_tx s = tx → exec n instr regs (pc + 1) s = Some (Ok (SNext regs' pc'), s)) →
  reach (regs, pc, tx) (regs', pc', tx).
Proof.
  intros Hi E. eapply reach_call; [done|]. exists O, 0. split; [done|]. intros n F skip _ _.
  rewrite E by done. do 3 f_equal. lia.
Qed.
Lemma ends_instr regs pc tx instr v : get_z (code f) pc = Some instr →
  (∀ n s, exec n instr regs (pc + 1) s = Some (Ok (SReturn v), s)) → ends (regs, pc, tx) v tx.
Proof.
  intros Hi E. exists 1%nat, 1. split; [done|]. intros n F skip HK HF.
  destruct n as [|n]; [lia|]. erewrite run_round by (done || lia). unfold mbind, VM_bind. by rewrite E.
Qed.

(** *** The instructions of the core *)
Ltac vm_ok := repeat match goal with
  | E : holds ?regs ?r _ |- (force_reg ?regs ?r ≫= _) _ = _ =>
      rewrite (VM_bind_ok _ _ _ _ _ (force_reg_ok _ _ _ _ E)); cbn iota beta
  | E : holds ?regs ?r _ |- (force_reg_spine ?regs ?r ≫= _) _ = _ =>
      rewrite (VM_bind_ok _ _ _ _ _ (force_spine_ok _ _ _ _ E)); cbn iota beta
  | E : get_z ?l ?i = Some _ |- (index ?l ?i ≫= _) _ = _ =>
      rewrite (VM_bind_ok _ _ _ _ _ (index_ok _ _ _ _ E)); cbn iota beta
  | E : get_z ?regs ?r = Some _ |- (reg ?regs ?r ≫= _) _ = _ =>
      rewrite (VM_bind_ok _ _ _ _ _ (reg_ok _ _ _ _ E)); cbn iota beta
  end.
Ltac step := intros; eapply reach_instr; [eassumption|]; intros n s Hs; unfold exec; cbn [exec_instr]; vm_ok;
  try by apply store_ok.

Lemma reach_const regs pc tx dst idx c : get_z (code f) pc = Some (LoadConst dst idx) →
  get_z (consts f) idx = Some c → 0 <= dst < zlen regs →
  reach (regs, pc, tx) (set_z regs dst (load_const c), pc + 1, tx).
Proof. step. Qed.
Lemma reach_move regs pc tx dst src v : get_z (code f) pc = Some (Move dst src) →
  get_z regs src = Some v → 0 <= dst < zlen regs → reach (regs, pc, tx) (set_z regs dst v, pc + 1, tx).
Proof. step. Qed.
Lemma reach_bin regs pc tx op dst lhs rhs l r v : get_z (code f) pc = Some (Bin op dst lhs rhs) →
  holds regs lhs l → holds regs rhs r → eval_binary op l r Span_default = Ok v → 0 <= dst < zlen regs →
  reach (regs, pc, tx) (set_z regs dst v, pc + 1, tx).
Proof. intros ??? E ?. step. unfold vm_lift. rewrite E. by apply store_ok. Qed.
Lemma reach_un regs pc tx op dst src a v : get_z (code f) pc = Some (Un op dst src) →
  holds regs src a → eval_unary op a Span_default = Ok v → 0 <= dst < zlen regs →
  reach (regs, pc, tx) (set_z regs dst v, pc + 1, tx).
Proof. intros ?? E ?. step. unfold vm_lift. rewrite E. by apply store_ok. Qed.
Lemma reach_jump regs pc tx off : get_z (code f) pc = Some (Jump off) → reach (regs, pc, tx) (regs, pc + 1 + off, tx).
Proof. step. done. Qed.
Lemma reach_branch regs pc tx cond off b : get_z (code f) pc = Some (JumpIfFalse cond off) →
  holds regs cond (VBool b) → reach (regs, pc, tx) (regs, if b then pc + 1 else pc + 1 + off, tx).
Proof. step. by destruct b. Qed.
Lemma reach_array regs pc tx dst start n vs : get_z (code f) pc = Some (MakeArray dst start n) →
  args_in regs start vs → n = zlen vs → 0 <= dst < zlen regs →
  reach (regs, pc, tx) (set_z regs dst (VArray vs), pc + 1, tx).
Proof. intros ? Hin -> ?. step. rewrite (VM_bind_ok _ _ _ _ _ (read_regs_ok _ _ _ _ Hin)). by apply store_ok. Qed.
Lemma reach_tuple regs pc tx dst start n vs : get_z (code f) pc = Some (MakeTuple dst start n) →
  args_in regs start vs → n = zlen vs → 0 <= dst < zlen regs →
  reach (regs, pc, tx) (set_z regs dst (VTuple vs), pc + 1, tx).
Proof. intros ? Hin -> ?. step. rewrite (VM_bind_ok _ _ _ _ _ (read_regs_ok _ _ _ _ Hin)). by apply store_ok. Qed.
Lemma reach_tuple_get regs pc tx dst src i vs v : get_z (code f) pc = Some (TupleGet dst src i) →
  holds regs src (VTuple vs) → get_z vs i = Some v → 0 <= dst < zlen regs →
  reach (regs, pc, tx) (set_z regs dst v, pc + 1, tx).
Proof. intros ?? E ?. step. unfold tuple_get. rewrite E. by apply store_ok. Qed.
Lemma reach_array_get regs pc tx dst arr idx vs i v : get_z (code f) pc = Some (ArrayGet dst arr idx) →
  holds regs arr (VArray vs) → holds regs idx (VInt i) → get_z vs i = Some v → 0 <= dst < zlen regs →
  reach (regs, pc, tx) (set_z regs dst v, pc + 1, tx).
Proof. intros ??? E ?. step. unfold array_get. rewrite E. by apply store_ok. Qed.
Lemma reach_field regs pc tx dst src idx name sname fields v : get_z (code f) pc = Some (FieldGet dst src idx) →
  get_z (consts f) idx = Some (CStr name) → holds regs src (VStruct sname fields) → assoc name fields = Some v →
  0 <= dst < zlen regs → reach (regs, pc, tx) (set_z regs dst v, pc + 1, tx).
Proof.
  intros ? Ec ? E ?. step. unfold field_name_const. rewrite (VM_bind_ok _ _ _ _ _ (VM_bind_ok _ _ _ _ _ (index_ok _ _ _ _ Ec))).
  cbn [mret VM_ret]. vm_ok. unfold field_get. rewrite E. by apply store_ok.
Qed.
(** The answer of function [g] of the module. *)
Definition answers (g : Z) (args : list Value) (v : Value) (tx : Tx) : Prop := ∃ (K : nat) cost, 0 <= cost ∧
  ∀ n F skip, (K <= n)%nat → cost <= F →
    call_guarded modules (call_body_at tree_fuel host modules n) mi g args (mkVm F tx skip) =
    Some (Ok v, mkVm (F - cost) tx skip).
Lemma reach_user_call regs pc tx dst callee start n vs v : get_z (code f) pc = Some (Call dst callee start n) →
  args_in regs start vs → n = zlen vs → answers callee vs v tx → 0 <= dst < zlen regs →
  reach (regs, pc, tx) (set_z regs dst v, pc + 1, tx).
Proof.
  intros Hi Hin -> (K & cost & Hc & E) Hd. eapply reach_call; [exact Hi|]. exists K, cost. split; [done|].
  intros k F skip HK HF. unfold exec. cbn [exec_instr].
  rewrite (VM_bind_ok _ _ _ _ _ (read_regs_ok _ _ _ _ Hin)).
  rewrite (VM_bind_ok _ _ _ _ _ (E _ _ _ HK HF)). by apply store_ok.
Qed.
Lemma struct_fields_ok shape regs vs s start i names : drop i (field_names shape) = names → length names = length vs →
  args_in regs start vs → struct_fields shape regs i (arg_regs start (zlen vs)) s = Some (Ok (zip names vs), s).
Proof.
  unfold zlen. revert start i names. induction vs as [|v vs IH]; intros start i names Hn Hl Hin.
  { by destruct names. }
  destruct names as [|name names]; [done|]. destruct Hin as [[E Hv] Hin]. cbn [length]. rewrite arg_regs_cons.
  cbn [struct_fields]. assert (El : field_names shape !! i = Some name).
  { rewrite <- (Nat.add_0_r i), <- lookup_drop, Hn. done. }
  unfold vm_lift at 1. rewrite El. cbn [or_panic]. erewrite VM_bind_ok by reflexivity.
  rewrite (VM_bind_ok _ _ _ _ _ (reg_ok _ _ _ _ E)). erewrite VM_bind_ok.
  2: { apply (IH (start + 1) (S i) names); [|by injection Hl|done].
       replace (S i) with (i + 1)%nat by lia. rewrite <- drop_drop, Hn. done. }
  done.
Qed.
Lemma reach_struct regs pc tx dst idx start n shape vs : get_z (code f) pc = Some (MakeStruct dst idx start n) →
  get_z (struct_shapes bm) idx = Some shape → args_in regs start vs → n = zlen vs →
  length (field_names shape) = length vs → 0 <= dst < zlen regs →
  reach (regs, pc, tx) (set_z regs dst (VStruct (sh_name shape) (zip (field_names shape) vs)), pc + 1, tx).
Proof.
  intros ? Es Hin -> Hl ?. step.
  rewrite (VM_bind_ok _ _ _ _ _ (struct_fields_ok shape _ _ _ _ 0 _ eq_refl Hl Hin)). by apply store_ok.
Qed.
Lemma ends_return regs pc tx src v : get_z (code f) pc = Some (Return src) → get_z regs src = Some v →
  ends (regs, pc, tx) v tx.
Proof. intros Hi E. eapply ends_instr; [exact Hi|]. intros n s. unfold exec. cbn [exec_instr]. by vm_ok. Qed.
Lemma ends_unit regs pc tx : get_z (code f) pc = Some ReturnUnit → ends (regs, pc, tx) VUnit tx.
Proof. intros Hi. eapply ends_instr; [exact Hi|]. done. Qed.
End machine.
