(* ===== verification/CompileSim.v ===== *)
(** Compiled code of the core computes what the tree interpreter evaluates: a
    forward simulation by induction on the tree, for expressions, statements and
    functions. *)
From S2P Require Import Prelude Bytes Hashing Values Serialize Kv Merkle Tx TxTyped TxFacts JsonText Floats Display Ops.
From S2P Require Import Builtins Bytecode Ast Effects Prefetch Compile VmBase VmState Vm Interp CompileCore.

Abbreviation nx := co_next_reg.
Abbreviation mx := co_max_reg.
Abbreviation ln s := (zlen (co_code s)).

Lemma SM_bind_inv {S A B : Type} (m : SM S A) (g : A → SM S B) s b s' : (m ≫= g) s = (Ok b, s') →
  ∃ a s1, m s = (Ok a, s1) ∧ g a s1 = (Ok b, s').
Proof. unfold mbind, SM_bind. destruct (m s) as [[a|e| |] s1]; intros E; [by exists a, s1|done..]. Qed.

(** ** Scopes and registers *)

(** The register stands for a local. *)
Definition bound (scopes : list (gmap bytes Z)) (r : Z) : Prop :=
  ∃ i sc name, scopes !! i = Some sc ∧ sc !! name = Some r.
Definition distinct (scopes : list (gmap bytes Z)) : Prop := ∀ i j sc sc' n n' r,
  scopes !! i = Some sc → scopes !! j = Some sc' → sc !! n = Some r → sc' !! n' = Some r → i = j ∧ n = n'.
(** The position has a jump, patched or not. *)
Definition is_jump (c : list Instr) (p : Z) : Prop := ∃ off, get_z c p = Some (Jump off).
Definition frame_jumps (c : list Instr) (f : LoopFrame) : Prop :=
  Forall (is_jump c) (break_jumps f) ∧ Forall (is_jump c) (continue_jumps f).
Lemma is_jump_prefix c c' p : c `prefix_of` c' → is_jump c p → is_jump c' p.
Proof. intros Hp [off E]. exists off. by eapply get_z_prefix. Qed.
Lemma frame_jumps_mono c c' f : (∀ p, is_jump c p → is_jump c' p) → frame_jumps c f → frame_jumps c' f.
Proof. intros Hj [Hb Hc]. split; (eapply Forall_impl; [eassumption|done]). Qed.
Record wf (s : Comp) : Prop := mkWf {
  wf_regs : 0 <= nx s <= mx s;
  wf_bound : ∀ r, bound (co_scopes s) r → 0 <= r < nx s;
  wf_distinct : distinct (co_scopes s);
  wf_pipes : Forall (λ r, 0 <= r < nx s ∧ ¬ bound (co_scopes s) r) (co_pipe_stack s);
  wf_loops : Forall (frame_jumps (co_code s)) (co_loop_stack s);
  wf_depth : co_parallel_for_depth s = 0;
  wf_some : co_scopes s ≠ [];
}.
(** What the compilation of an expression leaves as it was, or only adds to. *)
Record ext (s s' : Comp) : Prop := mkExt {
  ext_code : co_code s `prefix_of` co_code s';
  ext_consts : co_consts s `prefix_of` co_consts s';
  ext_max : mx s <= mx s';
  ext_scopes : co_scopes s' = co_scopes s;
  ext_pipes : co_pipe_stack s' = co_pipe_stack s;
  ext_loops : co_loop_stack s' = co_loop_stack s;
  ext_depth : co_parallel_for_depth s' = co_parallel_for_depth s;
}.
Lemma ext_refl s : ext s s.
Proof. by split. Qed.
Lemma ext_trans s1 s2 s3 : ext s1 s2 → ext s2 s3 → ext s1 s3.
Proof. intros [] []. split; try congruence; try (by etrans); lia. Qed.
(** Chains of extensions. *)
Ltac exts := first [ eassumption | apply ext_refl
  | match goal with E : ext ?a ?b |- ext ?a ?c => solve [apply (ext_trans a b c E); exts] end ].
Lemma prefix_zlen {A} (l k : list A) : l `prefix_of` k → zlen l <= zlen k.
Proof. intros [z ->]. rewrite zlen_app. pose proof (zlen_nonneg z). lia. Qed.
Lemma ext_ln s s' : ext s s' → ln s <= ln s'.
Proof. intros E. apply prefix_zlen, E. Qed.
Lemma ext_wf s s' : ext s s' → nx s <= nx s' <= mx s' → wf s → wf s'.
Proof.
  intros E Hn W. destruct W as [Hr Hb Hd Hp Hl H0]. pose proof (ext_ln _ _ E). destruct E as [E1 E2 E3 E4 E5 E6 E7].
  split; rewrite ?E4, ?E5, ?E6, ?E7; try done; try lia.
  - intros r Hr'. specialize (Hb r Hr'). lia.
  - eapply Forall_impl; [exact Hp|]. intros r [??]. split; [lia|done].
  - eapply Forall_impl; [exact Hl|]. intros fr. apply frame_jumps_mono. intros p. by apply is_jump_prefix.
Qed.

(** Each local is in the register of its name. *)
Definition scope_rel (regs : list Value) (sv : gmap bytes Value) (sc : gmap bytes Z) : Prop := ∀ name,
  match sc !! name with Some r => ∃ v, sv !! name = Some v ∧ holds regs r v | None => sv !! name = None end.
Definition agree (regs : list Value) : list (gmap bytes Value) → list (gmap bytes Z) → Prop := Forall2 (scope_rel regs).
(** The values of the pipes of this function; those of its callers lie below. *)
Definition pipes_rel (regs : list Value) (pipes : list Value) (stack : list Z) : Prop :=
  ∃ vs rest, pipes = vs ++ rest ∧ Forall2 (holds regs) stack vs.

Lemma agree_find regs scopes cs name : agree regs scopes cs →
  match find_local cs name with
  | Some r => bound cs r ∧ ∃ v, find_value scopes name = Some v ∧ holds regs r v
  | None => find_value scopes name = None
  end.
Proof.
  induction 1 as [|sv sc scopes cs Hs Ha IH]; cbn [find_local find_value]; [done|].
  specialize (Hs name). destruct (sc !! name) as [r|] eqn:E.
  - destruct Hs as (v & -> & Hv). split; [by exists O, sc, name|]. by exists v.
  - rewrite Hs. destruct (find_local cs name) as [r|]; [|done]. destruct IH as [(i & sc' & n & Hi & Hn) IH].
    split; [|done]. by exists (S i), sc', n.
Qed.
Lemma holds_eq regs regs' r v : get_z regs' r = get_z regs r → holds regs r v → holds regs' r v.
Proof. intros E [??]. split; [by rewrite E|done]. Qed.
Lemma agree_keep regs regs' scopes cs : (∀ r, bound cs r → get_z regs' r = get_z regs r) →
  agree regs scopes cs → agree regs' scopes cs.
Proof.
  intros Hk Ha. unfold agree in *. apply Forall2_same_length_lookup. split; [by eapply Forall2_length|].
  intros i sv sc Hsv Hsc name. pose proof (Forall2_lookup_lr _ _ _ _ _ _ Ha Hsv Hsc name) as Hs.
  destruct (sc !! name) as [r|] eqn:E; [|done]. destruct Hs as (v & Hv & Hr). exists v. split; [done|].
  eapply holds_eq, Hr. apply Hk. by exists i, sc, name.
Qed.
Lemma pipes_keep regs regs' pipes stack : Forall (λ r, get_z regs' r = get_z regs r) stack →
  pipes_rel regs pipes stack → pipes_rel regs' pipes stack.
Proof.
  intros Hk (vs & rest & E & Hv). exists vs, rest. split; [done|]. clear E. induction Hv; [done|].
  inversion_clear Hk. constructor; [by eapply holds_eq|auto].
Qed.

(** The guard of a function released as it was taken. *)
Lemma nore_out x t : x ∉ nore_active t → with_nore (λ s, s ∖ {[x]}) (with_nore (λ s, {[x]} ∪ s) t) = t.
Proof. intros Hx. destruct t. unfold with_nore. cbn in *. f_equal. set_solver. Qed.

Section sim.
Context `{BigIntCodec} `{FloatText} {Nan : FloatNan} (tree_fuel : nat) (host : Host) (modules : list BcModule).
Context (mi fi : Z) (bm : BcModule) (f : BcFn).
Context (Hm : get_z modules mi = Some bm) (Hf : get_z (functions bm) fi = Some f).
Context (Hconsts : zlen (consts f) <= 65536).
Context (cenv : CEnv).
Abbreviation reach := (reach tree_fuel host modules mi fi).
Abbreviation ends := (ends tree_fuel host modules mi fi).

(** The transactions of the interpreter and of the machine have the same functions
    active. *)
Definition tx_rel (ti tv : Tx) : Prop := ∀ g, (0, g) ∈ nore_active ti ↔ (mi, g) ∈ nore_active tv.

(** The code of the function has what the compiler emitted in a range. *)
Definition code_at (lo hi : Z) (s : Comp) : Prop := ∀ i, lo <= i < hi → get_z (code f) i = get_z (co_code s) i.
(** Registers below the next one that are no local's, [dst] apart, keep their values. *)
Definition keeps (s : Comp) (dst : Z) (regs regs' : list Value) : Prop := ∀ r,
  0 <= r < nx s → ¬ bound (co_scopes s) r → r ≠ dst → get_z regs' r = get_z regs r.
Definition fresh (s : Comp) (dst : Z) : Prop :=
  0 <= dst < nx s ∧ ¬ bound (co_scopes s) dst ∧ dst ∉ co_pipe_stack s.

(** The registers a frame of the function has. *)
Definition frame_at (s : Comp) (regs : list Value) (scopes : list (gmap bytes Value)) (pipes : list Value) : Prop :=
  zlen regs = n_regs f ∧ agree regs scopes (co_scopes s) ∧ pipes_rel regs pipes (co_pipe_stack s).
(** The code of [s'] is in the function, with its constants and registers. *)
Definition within (s s' : Comp) : Prop :=
  mx s' <= n_regs f ∧ code_at (ln s) (ln s') s' ∧ co_consts s' `prefix_of` consts f.

(** [m dst] is code for [ev]: where [ev] answers a value, the code from [s] to [s']
    puts it into [dst]. *)
Definition into_sim (m : Z → CM unit) (ev : IM Value) : Prop := ∀ s dst s',
  wf s → fresh s dst → m dst s = (Ok tt, s') →
  ext s s' ∧ nx s <= nx s' <= mx s' ∧
  ∀ regs scopes pipes ti tv a st', within s s' → frame_at s regs scopes pipes → tx_rel ti tv →
    ev (mkISt ti scopes pipes) = (Ok a, st') →
    ∃ regs' scopes', st' = mkISt ti scopes' pipes ∧ reach (regs, ln s, tv) (regs', ln s', tv) ∧
      frame_at s regs' scopes' pipes ∧ holds regs' dst a ∧ keeps s dst regs regs'.

Lemma keeps_refl s dst regs : keeps s dst regs regs.
Proof. done. Qed.
Lemma frame_set s regs scopes pipes dst v : wf s → fresh s dst → frame_at s regs scopes pipes →
  frame_at s (set_z regs dst v) scopes pipes.
Proof.
  intros W (Hd & Hb & Hp) (Hl & Ha & Hpr). split; [by rewrite zlen_set|]. split.
  - eapply agree_keep, Ha. intros r Hr. apply get_z_set_ne; [lia|]. by intros ->.
  - eapply pipes_keep, Hpr. apply Forall_forall. intros r Hr. apply get_z_set_ne; [lia|]. by intros ->.
Qed.
(** After code that keeps the registers of [s], its frame still has the pipes. *)
Lemma frame_keeps s dst regs regs' scopes scopes' pipes : wf s → fresh s dst → keeps s dst regs regs' →
  frame_at s regs scopes pipes → zlen regs' = n_regs f → agree regs' scopes' (co_scopes s) → frame_at s regs' scopes' pipes.
Proof.
  intros W (Hd & Hb & Hp) Hk (Hl & Ha & Hpr) Hl' Ha'. split; [done|]. split; [done|].
  eapply pipes_keep, Hpr. apply Forall_forall. intros r Hr. destruct W as [_ _ _ Wp _ _].
  rewrite Forall_forall in Wp. destruct (Wp r Hr). apply Hk; [done..|]. by intros ->.
Qed.
(** An instruction that puts a value into [dst]. *)
Lemma keeps_set s dst regs v : fresh s dst → keeps s dst regs (set_z regs dst v).
Proof. intros (Hd & _) r Hr _ Hne. apply get_z_set_ne; [lia|done]. Qed.
Lemma fresh_range s dst regs scopes pipes : wf s → fresh s dst → mx s <= n_regs f → frame_at s regs scopes pipes →
  0 <= dst < zlen regs.
Proof. intros [? _ _ _ _ _] (Hd & _) Hmx (Hl & _). lia. Qed.

(** *** Constants *)
Lemma const_idx_inv c s i s' : const_idx c s = (Ok i, s') →
  (s' = s ∨ s' = set_consts (co_consts s ++ [c]) s) ∧
  (co_consts s' `prefix_of` consts f → get_z (consts f) i = Some c).
Proof.
  unfold const_idx. assert (Hi : ∀ k l, l `prefix_of` consts f → l !! k = Some c → get_z (consts f) (as_u16 (Z.of_nat k)) = Some c).
  { intros k l Hp Hk. pose proof (prefix_lookup_Some _ _ _ _ Hk Hp) as Hk'. pose proof (lookup_lt_Some _ _ _ Hk').
    unfold as_u16. rewrite Z.mod_small by (unfold zlen in *; lia). by rewrite get_z_nat. }
  destruct (list_find (c =.) (co_consts s)) as [[k c']|] eqn:E; intros [= <- <-].
  - apply list_find_Some in E as (Ek & <- & _). split; [by left|]. intros Hp. by eapply Hi.
  - split; [by right|]. cbn. intros Hp. eapply Hi; [exact Hp|]. apply list_lookup_middle. done.
Qed.
Lemma const_idx_ext c s i s' : const_idx c s = (Ok i, s') → ext s s' ∧ nx s' = nx s ∧ mx s' = mx s ∧ co_code s' = co_code s.
Proof.
  intros [[-> | ->] _]%const_idx_inv; split; try done.
  split; cbn; try done. by apply prefix_app_r.
Qed.

(** *** The compiler's primitive steps *)
Lemma alloc_facts s r s' : wf s → alloc s = (Ok r, s') →
  r = nx s ∧ ext s s' ∧ nx s' = nx s + 1 ∧ nx s' <= mx s' ∧ co_code s' = co_code s ∧ co_consts s' = co_consts s ∧
  fresh s' r.
Proof.
  intros [Hr Hb _ Hp _ _] [= <- <-]. split; [done|]. split; [split; cbn; try done; lia|]. split; [done|].
  split; [cbn; lia|]. do 2 (split; [done|]). unfold fresh. cbn. split; [lia|]. split; [intros ?%Hb; lia|].
  intros Hin. rewrite Forall_forall in Hp. destruct (Hp _ Hin). lia.
Qed.
Lemma emit_facts i s s' : emit i s = (Ok tt, s') →
  ext s s' ∧ nx s' = nx s ∧ mx s' = mx s ∧ co_code s' = co_code s ++ [i] ∧ co_consts s' = co_consts s.
Proof. intros [= <-]. split; [|done]. split; cbn; try done. by apply prefix_app_r. Qed.
Lemma free_facts r s s' : free r s = (Ok tt, s') →
  ext s s' ∧ (nx s' = nx s ∨ r + 1 = nx s ∧ nx s' = r) ∧ mx s' = mx s ∧ co_code s' = co_code s ∧ co_consts s' = co_consts s.
Proof.
  intros [= <-]. destruct (Z.eqb_spec (r + 1) (nx s)); (split; [by split|]); cbn; auto.
  split; [right; lia|done].
Qed.
Lemma fresh_ext s s' dst : ext s s' → nx s <= nx s' → fresh s dst → fresh s' dst.
Proof. intros [] Hn (Hd & Hb & Hp). unfold fresh. rewrite ext_scopes0, ext_pipes0. split; [lia|done]. Qed.
Lemma frame_ext s s' regs scopes pipes : ext s s' → frame_at s regs scopes pipes ↔ frame_at s' regs scopes pipes.
Proof. intros []. unfold frame_at. by rewrite ext_scopes0, ext_pipes0. Qed.
Lemma keeps_ext s s' dst regs regs' : ext s s' → nx s <= nx s' → keeps s' dst regs regs' → keeps s dst regs regs'.
Proof. intros [] Hn Hk r Hr Hb Hne. apply Hk; [lia|by rewrite ext_scopes0|done]. Qed.
Lemma keeps_trans s dst r1 r2 r3 : keeps s dst r1 r2 → keeps s dst r2 r3 → keeps s dst r1 r3.
Proof. intros H12 H23 r Hr Hb Hne. rewrite H23, H12 by done. done. Qed.
(** A temporary above the registers of [s] may change. *)
Lemma keeps_temp s dst t regs regs' : nx s <= t → keeps s t regs regs' → keeps s dst regs regs'.
Proof. intros Ht Hk r Hr Hb Hne. apply Hk; [done..|lia]. Qed.

Lemma within_sub s s1 s2 s3 : within s s3 → ln s <= ln s1 → co_code s2 `prefix_of` co_code s3 →
  co_consts s2 `prefix_of` co_consts s3 → mx s2 <= mx s3 → within s1 s2.
Proof.
  intros (Hx & Hc & Hk) Hl Hc' Hk' Hx'. split; [lia|]. split; [|by etrans].
  intros i Hi. pose proof (prefix_zlen _ _ Hc'). rewrite Hc by lia.
  destruct (get_z_range (co_code s2) i ltac:(pose proof (zlen_nonneg (co_code s1)); lia)) as [x Hx2].
  rewrite Hx2. by eapply get_z_prefix.
Qed.
Lemma within_ext s s1 s2 s3 : within s s3 → ext s s1 → ext s2 s3 → within s1 s2.
Proof. intros W E [] . eapply within_sub; try done. by apply ext_ln. Qed.
(** The instruction emitted at the end of [s1]. *)
Lemma within_emit s s1 s2 s3 i : within s s3 → ext s s1 → co_code s2 = co_code s1 ++ [i] → ext s2 s3 →
  get_z (code f) (ln s1) = Some i.
Proof.
  intros (_ & Hc & _) E1 Ec E2. assert (El : get_z (co_code s3) (ln s1) = Some i).
  { eapply get_z_prefix; [apply E2|]. rewrite Ec. apply get_z_last. }
  rewrite Hc; [done|]. apply get_z_bound in El. pose proof (ext_ln _ _ E1). lia.
Qed.

(** *** Forms of expressions *)
Lemma const_sim c : into_sim (λ dst, emit_const dst c) (mret (load_const c)).
Proof.
  intros s dst s' W Hd E. unfold emit_const in E. apply SM_bind_inv in E as (idx & s1 & E0 & E).
  pose proof (const_idx_ext _ _ _ _ E0) as (X1 & N1 & M1 & C1). apply const_idx_inv in E0 as [_ Hidx].
  apply emit_facts in E as (X2 & N2 & M2 & C2 & K2). pose proof (ext_trans _ _ _ X1 X2) as X. pose proof (wf_regs _ W).
  split; [done|]. split; [lia|]. intros regs scopes pipes ti tv a st' Hw Hfr _ [= <- <-].
  assert (Hr : 0 <= dst < zlen regs) by (eapply fresh_range; try done; destruct Hw; lia).
  exists (set_z regs dst (load_const c)), scopes. split; [done|]. split.
  - replace (ln s') with (ln s + 1) by (rewrite C2, C1, zlen_app; done).
    eapply reach_const; [done|done| |apply Hidx|done].
    + rewrite <- C1. by eapply within_emit; [done|done|exact C2|apply ext_refl].
    + rewrite <- K2. apply Hw.
  - split; [by apply frame_set|]. split; [|by apply keeps_set]. split; [by apply get_z_set_eq|]. by destruct c.
Qed.

(** Code that puts a copy of a register into [dst]. *)
Lemma copy_sim r s dst s' : wf s → fresh s dst →
  (if r =? dst then mret tt else emit (Move dst r)) s = (Ok tt, s') →
  ext s s' ∧ nx s' = nx s ∧ mx s' = mx s ∧
  (∀ regs scopes pipes tv v, within s s' → frame_at s regs scopes pipes → holds regs r v →
   ∃ regs', reach (regs, ln s, tv) (regs', ln s', tv) ∧ frame_at s regs' scopes pipes ∧ holds regs' dst v ∧
     keeps s dst regs regs').
Proof.
  intros W Hd. destruct (Z.eqb_spec r dst) as [->|Hne].
  - intros [= <-]. split; [apply ext_refl|]. do 2 (split; [done|]). intros regs scopes pipes tv v _ Hfr Hv. exists regs.
    split; [apply reach_refl|done].
  - intros (X & N & M & C & K)%emit_facts. do 3 (split; [done|]). intros regs scopes pipes tv v Hw Hfr [Hv Hc].
    assert (Hr : 0 <= dst < zlen regs) by (eapply fresh_range; try done; destruct Hw; lia).
    exists (set_z regs dst v). split.
    + replace (ln s') with (ln s + 1) by (rewrite C, zlen_app; done).
      eapply reach_move; [done|done| |done|done]. by eapply within_emit; [done|apply ext_refl|exact C|apply ext_refl].
    + split; [by apply frame_set|]. split; [|by apply keeps_set]. split; [by apply get_z_set_eq|done].
Qed.

(** *** Names, operators and pipes *)
Context (m : SrcModule) (env : IEnv) (go : bytes → list Value → IM Value) (const_value : Expr → IM Value) (rounds : nat).
Context (inline : Expr → Z → CM unit).
(** A name that is no state and no constant of the module is neither for the
    compiler and the interpreter. *)
Context (Hloc : ∀ name, local_name m name = true →
  ce_state_index cenv !! name = None ∧ ce_module_consts cenv !! name = None ∧
  ie_state_types env !! name = None ∧ ie_state_defaults env !! name = None).

Lemma ident_sim name span : local_name m name = true →
  into_sim (compile_ident cenv inline name span) (lookup_i env const_value name span).
Proof.
  intros Hname s dst s' W Hd E. destruct (Hloc name Hname) as (Hs & Hc & _ & _).
  unfold compile_ident, lookup_local in E. apply SM_bind_inv in E as (local & s1 & [= <- <-] & E).
  destruct (find_local (co_scopes s) name) as [r|] eqn:El; [|by rewrite Hs, Hc in E].
  destruct (copy_sim r s dst s' W Hd E) as (X & N & M & Hsim).
  split; [done|]. pose proof (wf_regs _ W). split; [lia|].
  intros regs scopes pipes ti tv a st' Hw Hfr _ Hev. pose proof Hfr as (_ & Ha & _).
  pose proof (agree_find _ _ _ name Ha) as Hn. rewrite El in Hn. destruct Hn as (_ & v & Hv & Hr).
  unfold lookup_i in Hev. apply SM_bind_inv in Hev as (sc & st & [= <- <-] & Hev). cbn in Hev. rewrite Hv in Hev.
  injection Hev as <- <-.
  destruct (Hsim regs scopes pipes tv v Hw Hfr Hr) as (regs' & R & F & V & K). by exists regs', scopes.
Qed.
Lemma prev_sim span : into_sim
  (λ dst, pipes ← gets co_pipe_stack; r ← require (head pipes) (str "$$ used outside of a pipe stage") span;
          if r =? dst then mret tt else emit (Move dst r))
  (pipes ← gets is_pipes; match pipes with v :: _ => mret v | [] => rt "$$ used outside of a pipe stage" span end).
Proof.
  intros s dst s' W Hd E. apply SM_bind_inv in E as (stack & s1 & [= <- <-] & E).
  destruct (co_pipe_stack s) as [|r rest] eqn:Ep; [done|]. cbn [head] in E. apply SM_bind_inv in E as (r' & s1 & [= <- <-] & E).
  destruct (copy_sim r s dst s' W Hd E) as (X & N & M & Hsim).
  split; [done|]. pose proof (wf_regs _ W). split; [lia|].
  intros regs scopes pipes ti tv a st' Hw Hfr _ Hev. pose proof Hfr as (_ & _ & vs & below & -> & Hvs).
  rewrite Ep in Hvs. inversion Hvs as [|? v ? vs' Hv _]; subst.
  apply SM_bind_inv in Hev as (ps & st & [= <- <-] & Hev). injection Hev as <- <-.
  destruct (Hsim regs scopes _ tv v Hw Hfr Hv) as (regs' & R & F & V & K). by exists regs', scopes.
Qed.

(** [part] leaves the machine at the end of its own code; [Hw] is about the whole. *)
Lemma un_sim part ev op span : into_sim part ev →
  into_sim (λ dst, _ ← part dst; emit (Un op dst dst)) (v ← ev; lift (eval_unary op v span)).
Proof.
  intros Hp s dst s' W Hd E. apply SM_bind_inv in E as ([] & s1 & E1 & E).
  destruct (Hp s dst s1 W Hd E1) as (X1 & N1 & Sim1). apply emit_facts in E as (X2 & N2 & M2 & C2 & K2).
  pose proof (ext_trans _ _ _ X1 X2) as X. split; [done|]. split; [lia|].
  intros regs scopes pipes ti tv a st' Hw Hfr Ht Hev. apply SM_bind_inv in Hev as (v & st & Hev & Hop).
  assert (Hw1 : within s s1) by (eapply within_ext; [exact Hw|apply ext_refl|exact X2]).
  destruct (Sim1 regs scopes pipes ti tv v st Hw1 Hfr Ht Hev) as (regs1 & sc1 & -> & R1 & F1 & V1 & P1).
  assert (Hop' : eval_unary op v span = Ok a ∧ st' = mkISt ti sc1 pipes) by (unfold lift in Hop; by injection Hop).
  destruct Hop' as [Hop' ->]. pose proof (eval_unary_alike op v span Span_default) as Hal. rewrite Hop' in Hal.
  destruct Hal as (Hop2 & Hc & _).
  assert (Hr : 0 <= dst < zlen regs1) by (eapply (fresh_range s dst); try done; destruct Hw; pose proof (ext_max _ _ X); lia).
  exists (set_z regs1 dst a), sc1. split; [done|]. split.
  - eapply reach_trans; [exact R1|]. replace (ln s') with (ln s1 + 1) by (rewrite C2, zlen_app; done).
    eapply reach_un; [done|done| |exact V1|done|done]. by eapply within_emit; [exact Hw|done|exact C2|apply ext_refl].
  - split; [by apply frame_set|]. split; [split; [by apply get_z_set_eq|done]|].
    eapply keeps_trans; [exact P1|]. by apply keeps_set.
Qed.

(** A part computed into a temporary of its own. *)
Lemma alloc_part part ev s r s1 s2 : into_sim part ev → wf s → alloc s = (Ok r, s1) → part r s1 = (Ok tt, s2) →
  r = nx s ∧ ext s s2 ∧ nx s + 1 <= nx s2 <= mx s2 ∧
  ∀ regs scopes pipes ti tv a st', within s s2 → frame_at s regs scopes pipes → tx_rel ti tv →
    ev (mkISt ti scopes pipes) = (Ok a, st') →
    ∃ regs' scopes', st' = mkISt ti scopes' pipes ∧ reach (regs, ln s, tv) (regs', ln s2, tv) ∧
      frame_at s regs' scopes' pipes ∧ holds regs' r a ∧ keeps s (nx s) regs regs'.
Proof.
  intros Hp W Ea E. apply (alloc_facts s r s1 W) in Ea as (-> & X1 & N1 & M1 & C1 & K1 & Hf1).
  assert (W1 : wf s1) by (eapply ext_wf; [exact X1| |done]; lia).
  destruct (Hp s1 _ s2 W1 Hf1 E) as (X2 & N2 & Sim). split; [done|]. split; [by eapply ext_trans|]. split; [lia|].
  intros regs scopes pipes ti tv a st' Hw Hfr Ht Hev.
  destruct (Sim regs scopes pipes ti tv a st') as (regs' & scopes' & -> & R & F & V & P); try done.
  - eapply within_ext; [exact Hw|exact X1|apply ext_refl].
  - by apply (frame_ext s s1).
  - exists regs', scopes'. split; [done|]. rewrite C1 in R. split; [done|]. split; [by apply (frame_ext s s1)|].
    split; [done|]. eapply keeps_ext; [exact X1|lia|done].
Qed.
Lemma keeps_holds s dst regs regs' r v : keeps s dst regs regs' → 0 <= r < nx s → ¬ bound (co_scopes s) r → r ≠ dst →
  holds regs r v → holds regs' r v.
Proof. intros Hk ???. eapply holds_eq. by apply Hk. Qed.

(** The last instruction of a form puts [v] into [dst]. *)
Lemma last_sim s s1 s2 s' dst i regs0 regs scopes pipes tv v : wf s → fresh s dst → within s s' → ext s s' → ext s s1 →
  co_code s2 = co_code s1 ++ [i] → ext s2 s' → ln s' = ln s2 → frame_at s regs scopes pipes → keeps s dst regs0 regs →
  contains_pending v = false →
  (get_z (code f) (ln s1) = Some i → 0 <= dst < zlen regs → reach (regs, ln s1, tv) (set_z regs dst v, ln s1 + 1, tv)) →
  ∃ regs', reach (regs, ln s1, tv) (regs', ln s', tv) ∧ frame_at s regs' scopes pipes ∧ holds regs' dst v ∧
    keeps s dst regs0 regs'.
Proof.
  intros W Hd Hw X X1 C X2 L Hfr Hk Hv Hstep.
  assert (Hr : 0 <= dst < zlen regs).
  { eapply (fresh_range s dst); try done. destruct Hw as [Hx _]. pose proof (ext_max _ _ X). lia. }
  exists (set_z regs dst v). split.
  - rewrite L, C, zlen_app. apply Hstep; [|done]. by eapply within_emit.
  - split; [by apply frame_set|]. split; [split; [by apply get_z_set_eq|done]|].
    eapply keeps_trans; [exact Hk|by apply keeps_set].
Qed.

Lemma bin_sim lhs evl rhs evr op span : into_sim lhs evl → into_sim rhs evr →
  into_sim (λ dst, _ ← lhs dst; unary_into rhs (λ r, Bin op dst dst r))
    (l ← evl; r ← evr; lift (eval_binary op l r span)).
Proof.
  intros Hl Hr s dst s' W Hd E. apply SM_bind_inv in E as ([] & s1 & E1 & E).
  destruct (Hl s dst s1 W Hd E1) as (X1 & N1 & Sim1). assert (W1 : wf s1) by by eapply ext_wf.
  unfold unary_into in E. apply SM_bind_inv in E as (r & s2 & Ea & E). apply SM_bind_inv in E as ([] & s3 & E2 & E).
  destruct (alloc_part rhs evr s1 r s2 s3 Hr W1 Ea E2) as (-> & X3 & N3 & Sim3).
  apply SM_bind_inv in E as ([] & s4 & E4 & E). apply emit_facts in E4 as (X4 & N4 & M4 & C4 & K4).
  apply free_facts in E as (X5 & N5 & M5 & C5 & K5).
  assert (X : ext s s') by exts.
  split; [done|]. split; [lia|].
  intros regs scopes pipes ti tv a st' Hw Hfr Ht Hev. apply SM_bind_inv in Hev as (l & st & Hev1 & Hev).
  apply SM_bind_inv in Hev as (rv & st2 & Hev2 & Hop).
  destruct (Sim1 regs scopes pipes ti tv l st) as (regs1 & sc1 & -> & R1 & F1 & V1 & P1); try done.
  { eapply within_ext; [exact Hw|exts|exts]. }
  destruct (Sim3 regs1 sc1 pipes ti tv rv st2) as (regs3 & sc3 & -> & R3 & F3 & V3 & P3); try done.
  { eapply within_ext; [exact Hw|exts|exts]. } { by apply (frame_ext s s1). }
  assert (Hop' : eval_binary op l rv span = Ok a ∧ st' = mkISt ti sc3 pipes) by (unfold lift in Hop; by injection Hop).
  destruct Hop' as [Hop' ->]. pose proof (eval_binary_alike op l rv span Span_default) as Hal. rewrite Hop' in Hal.
  destruct Hal as (Hop2 & Hc & _).
  assert (Hd1 : fresh s1 dst) by (eapply fresh_ext; [exact X1|lia|done]).
  assert (V1' : holds regs3 dst l) by (destruct Hd1 as (? & ? & _); eapply keeps_holds; [exact P3|lia|done|lia|done]).
  assert (P : keeps s dst regs regs3).
  { eapply keeps_trans; [exact P1|]. eapply keeps_temp, (keeps_ext s s1); [|done|lia|exact P3]. lia. }
  destruct (last_sim s s3 s4 s' dst (Bin op dst dst (nx s1)) regs regs3 sc3 pipes tv a) as (regs4 & R4 & F4 & V4 & P4); try done.
  { exts. } { by rewrite C5. } { by apply (frame_ext s s1). }
  { intros Hi Hrg. by eapply reach_bin. }
  exists regs4, sc3. split; [done|]. split; [|done]. eapply reach_trans; [exact R1|]. by eapply reach_trans.
Qed.

(** One operand in a temporary; [k] is what the interpreter does with its value. *)
Lemma unary_sim part ev instr (k : Value → IM Value) : into_sim part ev →
  (∀ a b st st', contains_pending a = false → k a st = (Ok b, st') → st' = st ∧ contains_pending b = false ∧
     ∀ regs pc tx dst r, get_z (code f) pc = Some (instr dst r) → holds regs r a → 0 <= dst < zlen regs →
       reach (regs, pc, tx) (set_z regs dst b, pc + 1, tx)) →
  into_sim (λ dst, unary_into part (instr dst)) (a ← ev; k a).
Proof.
  intros Hp Hk s dst s' W Hd E. unfold unary_into in E. apply SM_bind_inv in E as (r & s1 & Ea & E).
  apply SM_bind_inv in E as ([] & s2 & E1 & E).
  destruct (alloc_part part ev s r s1 s2 Hp W Ea E1) as (-> & X2 & N2 & Sim2).
  apply SM_bind_inv in E as ([] & s3 & E3 & E). apply emit_facts in E3 as (X3 & N3 & M3 & C3 & K3).
  apply free_facts in E as (X4 & N4 & M4 & C4 & K4). assert (X : ext s s') by exts. split; [done|]. split; [lia|].
  intros regs scopes pipes ti tv b st' Hw Hfr Ht Hev. apply SM_bind_inv in Hev as (a & st & Hev & Hka).
  destruct (Sim2 regs scopes pipes ti tv a st) as (regs2 & sc2 & -> & R2 & F2 & V2 & P2); try done.
  { eapply within_ext; [exact Hw|exts|exts]. }
  destruct (Hk a b _ _ (proj2 V2) Hka) as (-> & Hb & Hstep).
  destruct (last_sim s s2 s3 s' dst (instr dst (nx s)) regs regs2 sc2 pipes tv b) as (regs3 & R3 & F3 & V3 & P3); try done.
  { by rewrite C4. } { eapply keeps_temp; [|exact P2]. lia. } { intros Hi Hrg. by eapply Hstep. }
  exists regs3, sc2. split; [done|]. split; [by eapply reach_trans|done].
Qed.

Lemma get_concrete l i v : existsb contains_pending l = false → get_z l i = Some v → contains_pending v = false.
Proof.
  intros Hl E. unfold get_z in E. destruct (i <? 0); [done|]. destruct (contains_pending v) eqn:Ev; [|done].
  assert (existsb contains_pending l = true); [|congruence]. apply existsb_exists. exists v. split; [|done].
  apply list_elem_of_In. by eapply list_elem_of_lookup_2.
Qed.
Lemma tuple_index_sim part ev index tspan span : 0 <= index < 65536 → into_sim part ev →
  into_sim (λ dst, unary_into part (λ src, TupleGet dst src (as_u16 index))) (v ← ev; tuple_item v index tspan span).
Proof.
  intros Hi Hp. eapply (unary_sim _ _ (λ dst src, TupleGet dst src (as_u16 index))); [done|].
  intros a b st st' Ha Hk. unfold as_u16. rewrite Z.mod_small by lia. unfold tuple_item in Hk.
  destruct a; try done. destruct (get_z elems index) as [v|] eqn:E; [|done]. injection Hk as <- <-.
  split; [done|]. split; [by eapply get_concrete|]. intros. by eapply reach_tuple_get.
Qed.

Lemma find_assoc {A : Type} (name : bytes) (l : list (bytes * A)) i n v :
  list_find (λ p, p.1 = name) l = Some (i, (n, v)) → assoc name l = Some v.
Proof.
  revert i. induction l as [|[k w] l IH]; intros i; cbn [list_find assoc fst]; [done|].
  destruct (decide (k = name)) as [->|Hne].
  - intros [= _ _ <-]. by rewrite bool_decide_true.
  - destruct (list_find _ l) as [[j p]|] eqn:E; cbn; [|done]. intros [= _ ->]. rewrite bool_decide_false by congruence.
    by apply (IH j).
Qed.
Lemma field_concrete (fields : list (bytes * Value)) i n v : existsb (λ p, contains_pending p.2) fields = false →
  list_find (λ p, p.1 = n) fields = Some (i, (n, v)) → contains_pending v = false.
Proof.
  intros Hfs (E & _ & _)%list_find_Some. destruct (contains_pending v) eqn:Ev; [|done].
  assert (existsb (λ p, contains_pending p.2) fields = true); [|congruence]. apply existsb_exists. exists (n, v).
  split; [|done]. apply list_elem_of_In. by eapply list_elem_of_lookup_2.
Qed.
(** A chain of fields over a local is no path below a state. *)
Lemma core_no_path e : core_expr m e = true → ∀ cs names, state_field_path cenv cs e names = None.
Proof.
  destruct (ast_ind (λ e, core_expr m e = true → ∀ cs names, state_field_path cenv cs e names = None)
    (λ _, True) (λ _, True) (λ _, True)) as [He _]; try done; [|by apply He].
  clear e. intros k sp IH _ _ Hc cs names. destruct k; try done; cbn [state_field_path]; cbn [kind_exprs core_expr] in *.
  - destruct (Hloc name Hc) as (E & _). rewrite E. by destruct (find_local cs name).
  - inversion_clear IH as [|? ? IH1 _]. by apply IH1.
Qed.
Lemma core_no_path_i e : core_expr m e = true → ∀ sc names, field_path_i env sc e names = None.
Proof.
  destruct (ast_ind (λ e, core_expr m e = true → ∀ sc names, field_path_i env sc e names = None)
    (λ _, True) (λ _, True) (λ _, True)) as [He _]; try done; [|by apply He].
  clear e. intros k sp IH _ _ Hc sc names. destruct k; try done; cbn [field_path_i]; cbn [kind_exprs core_expr] in *.
  - destruct (Hloc name Hc) as (_ & _ & _ & E). unfold is_state. rewrite E. by destruct (find_value sc name).
  - inversion_clear IH as [|? ? IH1 _]. by apply IH1.
Qed.
Lemma field_sim t name sp part ev : core_expr m t = true → into_sim part ev →
  into_sim (λ dst, compile_field cenv (mkExpr (E_Field t name) sp) part name dst)
    (scopes ← get_scopes;
     match field_path_i env scopes (mkExpr (E_Field t name) sp) [] with
     | Some (state_name, path) => with_state_path env state_name path (λ key ty, read_typed key ty)
     | None => v ← ev; field_of v name (ex_span t) sp
     end).
Proof.
  intros Hc Hp s dst s' W Hd E. unfold compile_field, try_state_field_path in E.
  apply SM_bind_inv in E as (path & s0 & [= <- <-] & E).
  cbn [state_field_path] in E. rewrite (core_no_path t Hc) in E.
  apply SM_bind_inv in E as (r & s1 & Ea & E). apply SM_bind_inv in E as ([] & s2 & E1 & E).
  destruct (alloc_part part ev s r s1 s2 Hp W Ea E1) as (-> & X2 & N2 & Sim2).
  apply SM_bind_inv in E as (idx & s3 & E3 & E). pose proof (const_idx_ext _ _ _ _ E3) as (X3 & N3 & M3 & C3).
  apply const_idx_inv in E3 as [_ Hidx]. apply SM_bind_inv in E as ([] & s4 & E4 & E).
  apply emit_facts in E4 as (X4 & N4 & M4 & C4 & K4).
  apply free_facts in E as (X5 & N5 & M5 & C5 & K5). assert (X : ext s s') by exts. split; [done|]. split; [lia|].
  intros regs scopes pipes ti tv b st' Hw Hfr Ht Hev. apply SM_bind_inv in Hev as (sc & st & [= <- <-] & Hev).
  cbn [field_path_i is_scopes] in Hev. rewrite (core_no_path_i t Hc) in Hev. apply SM_bind_inv in Hev as (a & st & Hev & Hk).
  destruct (Sim2 regs scopes pipes ti tv a st) as (regs2 & sc2 & -> & R2 & F2 & V2 & P2); try done.
  { eapply within_ext; [exact Hw|exts|exts]. }
  unfold field_of in Hk. destruct a as [| | | | | | | | | | | | | | | |sname fields| | | | | | | | | |]; try done.
  destruct (list_find _ fields) as [[i [n v]]|] eqn:Ef; [|done]. injection Hk as <- <-.
  assert (n = name) as -> by by apply list_find_Some in Ef as (_ & ? & _).
  destruct (last_sim s s3 s4 s' dst (FieldGet dst (nx s) idx) regs regs2 sc2 pipes tv v) as (regs3 & R3 & F3 & V3 & P3); try done.
  { exts. } { by rewrite C5. } { eapply keeps_temp; [|exact P2]. lia. } { eapply field_concrete; [apply V2|done]. }
  { intros Hi Hrg. eapply reach_field; try done. - apply Hidx. rewrite <- K4, <- K5. apply Hw. - by eapply find_assoc. }
  exists regs3, sc2. split; [done|]. split; [|done]. rewrite C3 in R3. by eapply reach_trans.
Qed.

Lemma into_sim_ext m1 m2 ev1 ev2 : (∀ dst s, m1 dst s = m2 dst s) → (∀ st, ev1 st = ev2 st) →
  into_sim m2 ev2 → into_sim m1 ev1.
Proof.
  intros Em Ee Hs s dst s' W Hd E. rewrite Em in E. destruct (Hs s dst s' W Hd E) as (X & N & Sim).
  split; [done|]. split; [done|]. intros regs scopes pipes ti tv a st' Hw Hfr Ht. rewrite Ee. by apply Sim.
Qed.

(** *** Arguments *)
Lemma alloc_n_facts n s s' : wf s → alloc_n n s = (Ok tt, s') →
  ext s s' ∧ nx s' = nx s + Z.of_nat n ∧ nx s' <= mx s' ∧ co_code s' = co_code s ∧
  ∀ q, nx s <= q < nx s' → fresh s' q.
Proof.
  revert s. induction n as [|n IH]; intros s W; cbn [alloc_n].
  { intros [= <-]. pose proof (wf_regs _ W). split; [apply ext_refl|]. split; [lia|]. split; [lia|]. split; [done|]. lia. }
  intros E. apply SM_bind_inv in E as (r & s1 & Ea & E).
  apply (alloc_facts s r s1 W) in Ea as (-> & X1 & N1 & M1 & C1 & K1 & Hf1).
  assert (W1 : wf s1) by (eapply ext_wf; [exact X1| |done]; lia).
  destruct (IH s1 W1 E) as (X2 & N2 & M2 & C2 & Hf2). split; [exts|]. split; [lia|]. split; [done|]. split; [congruence|].
  intros q Hq. destruct (decide (q = nx s)) as [->|]; [|apply Hf2; lia]. eapply fresh_ext; [exact X2|lia|exact Hf1].
Qed.
Lemma args_in_keep regs regs' start vs : (∀ q, start <= q < start + zlen vs → get_z regs' q = get_z regs q) →
  args_in regs start vs → args_in regs' start vs.
Proof.
  revert start. induction vs as [|v vs IH]; intros start Hk; [done|]. rewrite zlen_cons in Hk. pose proof (zlen_nonneg vs).
  intros [Hv Hin]. split; [by eapply holds_eq; [apply Hk; lia|]|]. apply IH; [|done]. intros q Hq. apply Hk. lia.
Qed.

Section arguments.
Context (cexpr : Expr → Z → CM unit) (ev : Expr → IM Value).
Lemma each_sim es : Forall (λ e, into_sim (cexpr e) (ev e)) es → ∀ s r s', wf s →
  (∀ q, r <= q < r + zlen es → fresh s q) → compile_each cexpr es r s = (Ok tt, s') →
  ext s s' ∧ nx s <= nx s' <= mx s' ∧
  ∀ regs scopes pipes ti tv vs st', within s s' → frame_at s regs scopes pipes → tx_rel ti tv →
    eval_each ev es (mkISt ti scopes pipes) = (Ok vs, st') →
    ∃ regs' scopes', st' = mkISt ti scopes' pipes ∧ reach (regs, ln s, tv) (regs', ln s', tv) ∧
      frame_at s regs' scopes' pipes ∧ args_in regs' r vs ∧ length vs = length es ∧
      ∀ q, 0 <= q < nx s → ¬ bound (co_scopes s) q → ¬ (r <= q < r + zlen es) → get_z regs' q = get_z regs q.
Proof.
  induction 1 as [|e es He _ IH]; intros s r s' W Hq E; cbn [compile_each] in E.
  { injection E as <-. split; [apply ext_refl|]. pose proof (wf_regs _ W). split; [lia|].
    intros regs scopes pipes ti tv vs st' _ Hfr _ [= <- <-]. exists regs, scopes. split; [done|].
    split; [apply reach_refl|]. by split. }
  rewrite zlen_cons in *. pose proof (zlen_nonneg es). apply SM_bind_inv in E as ([] & s1 & E1 & E).
  assert (Hd : fresh s r) by (apply Hq; lia). destruct (He s r s1 W Hd E1) as (X1 & N1 & Sim1).
  assert (W1 : wf s1) by by eapply ext_wf. destruct (IH s1 (r + 1) s') as (X2 & N2 & Sim2); try done.
  { intros q Hq'. eapply fresh_ext; [exact X1|lia|apply Hq; lia]. }
  split; [exts|]. split; [lia|]. intros regs scopes pipes ti tv vs st' Hw Hfr Ht Hev. cbn [eval_each] in Hev.
  apply SM_bind_inv in Hev as (v & st & Hev1 & Hev). apply SM_bind_inv in Hev as (vs' & st2 & Hev2 & [= <- <-]).
  destruct (Sim1 regs scopes pipes ti tv v st) as (regs1 & sc1 & -> & R1 & F1 & V1 & P1); try done.
  { eapply within_ext; [exact Hw|exts|exts]. }
  destruct (Sim2 regs1 sc1 pipes ti tv vs' st2) as (regs2 & sc2 & -> & R2 & F2 & V2 & L2 & P2); try done.
  { eapply within_ext; [exact Hw|exts|exts]. } { by apply (frame_ext s s1). }
  exists regs2, sc2. split; [done|]. split; [by eapply reach_trans|]. split; [by apply (frame_ext s s1)|].
  destruct Hd as (Hd & Hb & Hp). assert (Es : co_scopes s1 = co_scopes s) by apply X1. split.
  - split; [|done]. eapply holds_eq, V1. apply P2; [lia|by rewrite Es|lia].
  - split; [cbn; congruence|]. intros q Hq1 Hq2 Hq3. rewrite P2; [|lia|by rewrite Es|lia]. apply P1; [done..|lia].
Qed.

(** Arguments in registers of their own, and the instruction that takes them; [k]
    is what the interpreter does with the values. *)
Lemma args_sim es (instr : Z → Z → Instr) (k : list Value → IM Value) : Forall (λ e, into_sim (cexpr e) (ev e)) es →
  (∀ vs b ti tv scopes pipes st', length vs = length es → tx_rel ti tv →
     k vs (mkISt ti scopes pipes) = (Ok b, st') → (∃ regs start, args_in regs start vs) →
     st' = mkISt ti scopes pipes ∧ contains_pending b = false ∧
     ∀ regs pc dst start, get_z (code f) pc = Some (instr dst start) → args_in regs start vs → 0 <= dst < zlen regs →
       reach (regs, pc, tv) (set_z regs dst b, pc + 1, tv)) →
  into_sim (λ dst, compile_args cexpr es (λ start, emit (instr dst start))) (vs ← eval_each ev es; k vs).
Proof.
  intros Hes Hk s dst s' W Hd E. unfold compile_args in E. apply SM_bind_inv in E as (start & s0 & [= <- <-] & E).
  apply SM_bind_inv in E as ([] & s1 & E1 & E). apply (alloc_n_facts _ _ _ W) in E1 as (X1 & N1 & M1 & C1 & Hf1).
  assert (W1 : wf s1) by (eapply ext_wf; [exact X1| |done]; lia).
  apply SM_bind_inv in E as ([] & s2 & E2 & E). destruct (each_sim es Hes s1 (nx s) s2 W1) as (X2 & N2 & Sim2); try done.
  { intros q Hq. apply Hf1. unfold zlen in *. lia. }
  apply SM_bind_inv in E as ([] & s3 & E3 & E). apply emit_facts in E3 as (X3 & N3 & M3 & C3 & K3).
  injection E as E. assert (X4 : ext s3 s') by (rewrite <- E; by split).
  assert (N4 : nx s' = nx s3 - Z.of_nat (length es) ∧ mx s' = mx s3 ∧ co_code s' = co_code s3) by by rewrite <- E.
  destruct N4 as (N4 & M4 & C4). assert (X : ext s s') by exts. split; [done|]. split; [lia|].
  intros regs scopes pipes ti tv b st' Hw Hfr Ht Hev. apply SM_bind_inv in Hev as (vs & st & Hev & Hka).
  destruct (Sim2 regs scopes pipes ti tv vs st) as (regs2 & sc2 & -> & R2 & F2 & V2 & L2 & P2); try done.
  { eapply within_ext; [exact Hw|exts|exts]. } { by apply (frame_ext s s1). }
  destruct (Hk vs b ti tv sc2 pipes st' L2 Ht Hka ltac:(by eexists _, _)) as (-> & Hb & Hstep).
  destruct (last_sim s s2 s3 s' dst (instr dst (nx s)) regs regs2 sc2 pipes tv b) as (regs3 & R3 & F3 & V3 & P3); try done.
  { exts. } { by rewrite C4. } { by apply (frame_ext s s1). }
  { intros q Hq1 Hq2 _. apply P2; [lia| |lia]. destruct X1 as [_ _ _ Es _ _ _]. by rewrite Es. }
  { intros Hi Hrg. by eapply Hstep. }
  exists regs3, sc2. split; [done|]. split; [|done]. rewrite C1 in R2. by eapply reach_trans.
Qed.
End arguments.

Lemma into_sim_when m1 ev1 : (∀ s dst s', m1 dst s = (Ok tt, s') → ∃ m2 ev2, into_sim m2 ev2 ∧ m2 dst s = (Ok tt, s') ∧
  ∀ st a st', ev1 st = (Ok a, st') → ev2 st = (Ok a, st')) → into_sim m1 ev1.
Proof.
  intros Hm2 s dst s' W Hd E. destruct (Hm2 s dst s' E) as (m2 & ev2 & Hs & E2 & Hev).
  destruct (Hs s dst s' W Hd E2) as (X & N & Sim). split; [done|]. split; [done|].
  intros regs scopes pipes ti tv a st' Hw Hfr Ht Ha. by eapply Sim, Hev.
Qed.
Lemma args_concrete regs start vs : args_in regs start vs → existsb contains_pending vs = false.
Proof.
  revert start. induction vs as [|v vs IH]; intros start; [done|]. intros [[_ Hv] Hin]. cbn. by rewrite Hv, (IH _ Hin).
Qed.
Lemma zlen_length {A B} (l : list A) (k : list B) : length l = length k → zlen l = zlen k.
Proof. unfold zlen. by intros ->. Qed.
Lemma small_as_u16 {A} (l : list A) : small l = true → as_u16 (zlen l) = zlen l.
Proof. unfold small, as_u16. pose proof (zlen_nonneg l). intros ?%Z.ltb_lt. apply Z.mod_small. lia. Qed.

Section forms.
Context (cexpr : Expr → Z → CM unit) (ev : Expr → IM Value).
Lemma array_sim es : small es = true → Forall (λ e, into_sim (cexpr e) (ev e)) es →
  into_sim (λ dst, compile_args cexpr es (λ start, emit (MakeArray dst start (as_u16 (zlen es)))))
    (vs ← eval_each ev es; mret (VArray vs)).
Proof.
  intros Hes%small_as_u16 Hs. rewrite Hes. eapply (args_sim _ _ es (λ dst start, MakeArray dst start (zlen es))); [done|].
  intros vs b ti tv scopes pipes st' Hl _ [= <- <-] (? & ? & Hin). split; [done|]. split; [by eapply args_concrete|].
  intros. eapply reach_array; try done. by apply zlen_length.
Qed.
Lemma tuple_sim es : small es = true → Forall (λ e, into_sim (cexpr e) (ev e)) es →
  into_sim (λ dst, compile_args cexpr es (λ start, emit (MakeTuple dst start (as_u16 (zlen es)))))
    (vs ← eval_each ev es; mret (VTuple vs)).
Proof.
  intros Hes%small_as_u16 Hs. rewrite Hes. eapply (args_sim _ _ es (λ dst start, MakeTuple dst start (zlen es))); [done|].
  intros vs b ti tv scopes pipes st' Hl _ [= <- <-] (? & ? & Hin). split; [done|]. split; [by eapply args_concrete|].
  intros. eapply reach_tuple; try done. by apply zlen_length.
Qed.

(** The expressions of the declared fields. *)
Fixpoint pick (fields : list (bytes * Expr)) (declared : list bytes) : option (list Expr) :=
  match declared with
  | [] => Some []
  | n :: rest => e ← assoc n fields; es ← pick fields rest; Some (e :: es)
  end.
Lemma pick_compile name span fields declared : ∀ r s s', compile_fields cexpr name span fields declared r s = (Ok tt, s') →
  ∃ es, pick fields declared = Some es ∧ compile_each cexpr es r s = (Ok tt, s').
Proof.
  induction declared as [|n rest IH]; intros r s s' E; cbn [compile_fields] in E.
  { injection E as <-. by exists []. }
  apply SM_bind_inv in E as ([] & s1 & E1 & E). apply IH in E as (es & Ep & E).
  assert (He : ∃ e, assoc n fields = Some e ∧ cexpr e r s = (Ok tt, s1)).
  { clear -E1. induction fields as [|[k e] fields IHf]; [done|]. cbn [assoc]. destruct (decide (k = n)) as [->|Hne].
    - rewrite bool_decide_true by done. by exists e.
    - rewrite bool_decide_false by done. auto. }
  destruct He as (e & Ea & Ee). exists (e :: es). cbn [pick]. rewrite Ea. cbn. rewrite Ep. cbn. split; [done|].
  by rewrite (SM_bind_ok _ _ _ _ _ Ee).
Qed.
Lemma pick_eval name span fields declared es : pick fields declared = Some es → ∀ st,
  eval_fields ev name span fields declared st = (vs ← eval_each ev es; mret (zip declared vs)) st.
Proof.
  revert es. induction declared as [|n rest IH]; intros es Ep st; cbn [pick] in Ep; [by injection Ep as <-|].
  destruct (assoc n fields) as [e|] eqn:Ea; [|done]. cbn in Ep. destruct (pick fields rest) as [es'|] eqn:Ee; [|done].
  injection Ep as <-. cbn [eval_fields eval_each].
  assert (Hf1 : ∀ st, (fix provided (fs : list (bytes * Expr)) : IM Value :=
     match fs with
     | [] => rt ("missing field '" +:+ text n +:+ "' in struct '" +:+ text name +:+ "'") span
     | (fn_, e) :: fs' => if decide (fn_ = n) then ev e else provided fs'
     end) fields st = ev e st).
  { clear -Ea. intros st. induction fields as [|[k e'] fields IHf]; [done|]. cbn [assoc] in Ea.
    destruct (decide (k = n)) as [->|Hne]; [rewrite bool_decide_true in Ea by done; by injection Ea as ->|].
    rewrite bool_decide_false in Ea by done. auto. }
  unfold mbind, SM_bind. rewrite Hf1. destruct (ev e st) as [[v|?| |] st1]; try done.
  rewrite (IH es' eq_refl st1). unfold mbind, SM_bind. by destruct (eval_each ev es' st1) as [[vs|?| |] st2].
Qed.
Lemma pick_length fields declared es : pick fields declared = Some es → length es = length declared.
Proof.
  revert es. induction declared as [|n rest IH]; intros es Ep; cbn [pick] in Ep; [by injection Ep as <-|].
  destruct (assoc n fields) as [e|]; [|done]. cbn in Ep. destruct (pick fields rest) as [es'|]; [|done].
  injection Ep as <-. cbn. by rewrite (IH es').
Qed.
Lemma pick_forall (P : Expr → Prop) fields declared es : Forall P (snd <$> fields) → pick fields declared = Some es → Forall P es.
Proof.
  intros HP. revert es. induction declared as [|n rest IH]; intros es Ep; cbn [pick] in Ep; [by injection Ep as <-|].
  destruct (assoc n fields) as [e|] eqn:Ea; [|done]. cbn in Ep. destruct (pick fields rest) as [es'|]; [|done].
  injection Ep as <-. constructor; [|by apply IH]. clear -HP Ea. induction fields as [|[k w] fields IHf]; [done|].
  cbn [assoc] in Ea. inversion_clear HP. destruct (bool_decide (k = n)); [by injection Ea as <-|auto].
Qed.
End forms.

(** *** Structs and calls *)
Context (Hstruct : ∀ name idx shape, ce_struct_index cenv !! name = Some idx → get_z (ce_struct_shapes cenv) idx = Some shape →
  as_u16 idx = idx ∧ small (field_names shape) = true ∧ get_z (struct_shapes bm) idx = Some shape ∧
  sh_name shape = name ∧ ie_struct_decls env !! name = Some (field_names shape)).
(** A function of the module answers in the machine what it does in the interpreter,
    which is left with the state it had. *)
Definition answers_alike (name : bytes) (n_args : nat) (idx : Z) : Prop :=
  as_u16 idx = idx ∧ ∀ vs v ti tv scopes pipes st', length vs = n_args → existsb contains_pending vs = false → tx_rel ti tv →
    go name vs (mkISt ti scopes pipes) = (Ok v, st') →
    st' = mkISt ti scopes pipes ∧ contains_pending v = false ∧ answers tree_fuel host modules mi idx vs v tv.
Context (Hgo : ∀ name n_args idx, plain_call m name n_args = true → ce_fn_index cenv !! name = Some idx →
  answers_alike name n_args idx).
Context (Himports : ∀ name n_args, plain_call m name n_args = true → ce_import_index cenv !! name = None).

Lemma fields_concrete (names : list bytes) vs : existsb contains_pending vs = false →
  existsb (λ p : bytes * Value, contains_pending p.2) (zip names vs) = false.
Proof.
  revert names. induction vs as [|v vs IH]; intros [|n names] Hv; try done. cbn in *.
  apply orb_false_iff in Hv as [-> Hv]. by apply IH.
Qed.
Lemma struct_sim cexpr ev name fields span : Forall (λ e, into_sim (cexpr e) (ev e)) (snd <$> fields) →
  into_sim (λ dst, compile_struct_lit cenv cexpr name fields span dst)
    (match ie_struct_decls env !! name with
     | Some declared => vs ← eval_fields ev name span fields declared; mret (VStruct name vs)
     | None => rt ("unknown struct '" +:+ text name +:+ "'") span
     end).
Proof.
  intros Hs. apply into_sim_when. intros s dst s' E. unfold compile_struct_lit in E.
  apply SM_bind_inv in E as (idx & s0 & E0 & E). unfold require in E0.
  destruct (ce_struct_index cenv !! name) as [idx'|] eqn:Ei; [|done]. injection E0 as <- <-.
  apply SM_bind_inv in E as (shape & s0 & E0 & E). unfold expect_some, lift in E0.
  destruct (get_z (ce_struct_shapes cenv) idx') as [shape'|] eqn:Esh; [|done]. injection E0 as <- <-.
  destruct (Hstruct name idx' shape' Ei Esh) as (Hi16 & Hsm & Hbm & Hname & Hdecl). rewrite Hdecl.
  apply SM_bind_inv in E as (start & s0 & [= <- <-] & E). apply SM_bind_inv in E as ([] & s1 & E1 & E).
  apply SM_bind_inv in E as ([] & s2 & E2 & E). apply pick_compile in E2 as (es & Ep & E2).
  pose proof (pick_length _ _ _ Ep) as Hlen.
  exists (λ dst, compile_args cexpr es (λ start, emit (MakeStruct dst idx' start (zlen (field_names shape'))))),
    (vs ← eval_each ev es; mret (VStruct name (zip (field_names shape') vs))). split; [|split].
  - eapply (args_sim _ _ es (λ dst start, MakeStruct dst idx' start (zlen (field_names shape')))); [by eapply pick_forall|].
    intros vs b ti tv scopes pipes st' Hl _ [= <- <-] (? & ? & Hin). split; [done|].
    split; [cbn; by eapply fields_concrete, args_concrete|]. intros. rewrite <- Hname.
    eapply reach_struct; try done; [apply zlen_length; congruence|congruence].
  - unfold compile_args. rewrite (SM_bind_ok next_reg _ s _ _ eq_refl), Hlen, (SM_bind_ok _ _ _ _ _ E1).
    rewrite (SM_bind_ok _ _ _ _ _ E2). by rewrite Hi16, (small_as_u16 _ Hsm) in E.
  - intros st a st' Hev. apply SM_bind_inv in Hev as (fs & st1 & Hev & [= <- <-]). erewrite pick_eval in Hev by done.
    apply SM_bind_inv in Hev as (vs & st2 & Hev & [= <- <-]). by rewrite (SM_bind_ok _ _ _ _ _ Hev).
Qed.

Lemma call_sim cexpr ev name args span : plain_call m name (length args) = true →
  Forall (λ e, into_sim (cexpr e) (ev e)) args →
  into_sim (λ dst, compile_call cenv cexpr None name args span dst) (eval_call tree_fuel env go ev None name args span).
Proof.
  intros Hc Hs. apply into_sim_when. intros s dst s' E. pose proof Hc as Hp. unfold plain_call in Hp.
  destruct (state_builtin name) eqn:E1; [done|]. destruct (try_builtin some_context name []) eqn:E2; [done|].
  destruct (unary_builtin name) eqn:E3; [done|]. destruct (context_kind name) eqn:E4; [done|].
  destruct (convert_target name) eqn:E5; [done|]. apply andb_prop in Hp as [[Hg%bool_decide_eq_true_1 _]%andb_prop Hn%Nat.ltb_lt].
  assert (Ecall : compile_call cenv cexpr None name args span dst =
    compile_args cexpr args (call_instr cenv None name (length args) span dst)).
  { assert (Enamed : compile_named_call cenv cexpr None name args span dst =
      compile_args cexpr args (call_instr cenv None name (length args) span dst)).
    { unfold compile_named_call. rewrite E1, E4, E5, (bool_decide_false _ Hg), andb_false_r. done. }
    unfold compile_call. rewrite E3. by destruct args as [|a [|]]. }
  rewrite Ecall in E. pose proof E as E'. unfold compile_args in E'. apply SM_bind_inv in E' as (? & ? & _ & E').
  do 2 apply SM_bind_inv in E' as ([] & ? & _ & E'). apply SM_bind_inv in E' as ([] & ? & E' & _).
  unfold call_instr in E'. rewrite (Himports _ _ Hc) in E'. apply SM_bind_inv in E' as (idx & ? & E' & _).
  unfold require in E'. destruct (ce_fn_index cenv !! name) as [idx'|] eqn:Ei; [|done]. clear E'.
  destruct (Hgo _ _ _ Hc Ei) as [Hi16 Hans].
  exists (λ dst, compile_args cexpr args (λ start, emit (Call dst idx' start (zlen args)))), (vs ← eval_each ev args; go name vs).
  split; [|split].
  - eapply (args_sim _ _ args (λ dst start, Call dst idx' start (zlen args))); [done|].
    intros vs b ti tv scopes pipes st' Hl Ht Hg' (? & ? & Hin).
    destruct (Hans vs b ti tv scopes pipes st' Hl (args_concrete _ _ _ Hin) Ht Hg') as (-> & Hb & Ha).
    split; [done|]. split; [done|]. intros. eapply reach_user_call; try done. by apply zlen_length.
  - rewrite <- E. unfold call_instr. rewrite (Himports _ _ Hc), Ei.
    assert (En : as_u8 (Z.of_nat (length args)) = zlen args) by (unfold as_u8, zlen; apply Z.mod_small; lia).
    rewrite En. unfold require, mbind, SM_bind, mret, SM_ret. by rewrite Hi16.
  - intros st a st' Hev. unfold eval_call in Hev. by rewrite E1 in Hev.
Qed.

(** *** Indexing and pipes *)
Lemma index_sim te ke sp cexpr_t cexpr_k ev : core_expr m te = true → into_sim cexpr_t (ev te) → into_sim cexpr_k (ev ke) →
  into_sim (λ dst, compile_index cenv te cexpr_t cexpr_k dst)
    (eval_index tree_fuel env ev te ke sp (arr ← ev te; idx ← ev ke; array_index arr idx sp)).
Proof.
  intros Hc Ht Hk s dst s' W Hd E. unfold compile_index in E. apply SM_bind_inv in E as (keyed & s0 & E0 & E).
  assert (Hkeyed : keyed = None ∧ s0 = s).
  { destruct te as [[] tsp]; try (by injection E0 as <- <-). cbn [keyed_state] in E0. cbn [core_expr] in Hc.
    destruct (Hloc name Hc) as (Hs & _). rewrite Hs in E0. by injection E0 as <- <-. }
  destruct Hkeyed as [-> ->]. apply SM_bind_inv in E as (r & s1 & Ea & E). apply SM_bind_inv in E as ([] & s2 & E1 & E).
  destruct (alloc_part _ _ s r s1 s2 Ht W Ea E1) as (-> & X2 & N2 & Sim2).
  assert (W2 : wf s2) by (eapply ext_wf; [exact X2| |done]; lia).
  apply SM_bind_inv in E as (q & s3 & Eb & E). apply SM_bind_inv in E as ([] & s4 & E4 & E).
  destruct (alloc_part _ _ s2 q s3 s4 Hk W2 Eb E4) as (-> & X4 & N4 & Sim4).
  apply SM_bind_inv in E as ([] & s5 & E5 & E). apply emit_facts in E5 as (X5 & N5 & M5 & C5 & K5).
  apply SM_bind_inv in E as ([] & s6 & E6 & E). apply free_facts in E6 as (X6 & N6 & M6 & C6 & K6).
  apply free_facts in E as (X7 & N7 & M7 & C7 & K7). assert (X : ext s s') by exts. split; [done|]. split; [lia|].
  intros regs scopes pipes ti tv b st' Hw Hfr Htx Hev.
  assert (Hev' : (arr ← ev te; idx ← ev ke; array_index arr idx sp) (mkISt ti scopes pipes) = (Ok b, st')).
  { revert Hev. destruct te as [[] tsp]; try done. cbn [eval_index]. cbn [core_expr] in Hc.
    destruct (Hloc name Hc) as (_ & _ & Hs & _). by rewrite Hs. }
  clear Hev. apply SM_bind_inv in Hev' as (arr & st & Hev1 & Hev). apply SM_bind_inv in Hev as (idx & st2 & Hev2 & Hop).
  destruct (Sim2 regs scopes pipes ti tv arr st) as (regs2 & sc2 & -> & R2 & F2 & V2 & P2); try done.
  { eapply within_ext; [exact Hw|exts|exts]. }
  destruct (Sim4 regs2 sc2 pipes ti tv idx st2) as (regs4 & sc4 & -> & R4 & F4 & V4 & P4); try done.
  { eapply within_ext; [exact Hw|exts|exts]. } { by apply (frame_ext s s2). }
  unfold array_index in Hop. destruct arr; try done. destruct idx as [i| | | | | | | | | | | | | | | | | | | | | | | | | |]; try done.
  destruct (in_u 64 i); [|done]. destruct (get_z elems i) as [v|] eqn:Ev; [|done]. injection Hop as <- <-.
  assert (Hnb : ¬ bound (co_scopes s2) (nx s)).
  { intros Hb. destruct X2 as [_ _ _ Es _ _ _]. rewrite Es in Hb. pose proof (wf_bound _ W _ Hb). lia. }
  pose proof (wf_regs _ W) as Wr.
  assert (V2' : holds regs4 (nx s) (VArray elems)) by (eapply keeps_holds; [exact P4|lia|done|lia|done]).
  destruct (last_sim s s4 s5 s' dst (ArrayGet dst (nx s) (nx s2)) regs regs4 sc4 pipes tv v) as (regs5 & R5 & F5 & V5 & P5); try done.
  { exts. } { exts. } { by rewrite C7, C6. } { by apply (frame_ext s s2). }
  { eapply keeps_trans; [eapply keeps_temp; [|exact P2]; lia|].
    eapply keeps_temp, (keeps_ext s s2); [|done|lia|exact P4]. lia. }
  { eapply get_concrete; [apply V2|done]. } { intros Hi Hrg. by eapply reach_array_get. }
  exists regs5, sc4. split; [done|]. split; [|done]. eapply reach_trans; [exact R2|]. by eapply reach_trans.
Qed.

Lemma push_pipe_facts s r s' : wf s → 0 <= r < nx s → ¬ bound (co_scopes s) r →
  modify (λ s, set_pipes (r :: co_pipe_stack s) s) s = (Ok tt, s') →
  wf s' ∧ s' = set_pipes (r :: co_pipe_stack s) s.
Proof.
  intros W Hr Hb [= <-]. split; [|done]. destruct W. split; cbn; try done. by constructor.
Qed.
Lemma pipe_sim head evh step evs : into_sim head evh → into_sim step evs →
  into_sim (λ dst, stash ← alloc; _ ← head stash; _ ← modify (λ s, set_pipes (stash :: co_pipe_stack s) s);
      _ ← step dst; _ ← modify (λ s, set_pipes (tail (co_pipe_stack s)) s); free stash)
    (v ← evh; with_pipe v evs).
Proof.
  intros Hh Hs s dst s' W Hd E. apply SM_bind_inv in E as (r & s1 & Ea & E). apply SM_bind_inv in E as ([] & s2 & E1 & E).
  destruct (alloc_part _ _ s r s1 s2 Hh W Ea E1) as (-> & X2 & N2 & Sim2).
  assert (W2 : wf s2) by (eapply ext_wf; [exact X2| |done]; lia). pose proof (wf_regs _ W) as Wr.
  assert (Hnb : ¬ bound (co_scopes s2) (nx s)).
  { intros Hb. destruct X2 as [_ _ _ Es _ _ _]. rewrite Es in Hb. pose proof (wf_bound _ W _ Hb). lia. }
  apply SM_bind_inv in E as ([] & s3 & E3 & E). apply (push_pipe_facts s2) in E3 as [W3 E3]; [|done|lia|done].
  assert (Hd3 : fresh s3 dst).
  { destruct Hd as (Hd & Hb & Hp). destruct X2 as [_ _ _ Es Ep _ _]. rewrite E3. unfold fresh. cbn. rewrite Es, Ep.
    split; [lia|]. split; [done|]. rewrite not_elem_of_cons. split; [lia|done]. }
  apply SM_bind_inv in E as ([] & s4 & E4 & E). destruct (Hs s3 dst s4 W3 Hd3 E4) as (X4 & N4 & Sim4).
  apply SM_bind_inv in E as ([] & s5 & [= E5] & E). apply free_facts in E as (X6 & N6 & M6 & C6 & K6).
  assert (X45 : ext s2 s5).
  { destruct X4 as [A1 A2 A3 A4 A5 A6 A7]. rewrite <- E5. rewrite E3 in *. split; cbn in *; try done. by rewrite A5. }
  assert (F5 : nx s5 = nx s4 ∧ mx s5 = mx s4 ∧ co_code s5 = co_code s4 ∧ co_consts s5 = co_consts s4) by by rewrite <- E5.
  destruct F5 as (N5 & M5 & C5 & K5). assert (F3 : nx s3 = nx s2 ∧ mx s3 = mx s2 ∧ co_code s3 = co_code s2 ∧ co_scopes s3 = co_scopes s2) by by rewrite E3.
  destruct F3 as (N3 & M3 & C3 & S3). assert (X : ext s s') by exts. split; [done|]. split; [lia|].
  intros regs scopes pipes ti tv b st' Hw Hfr Htx Hev. apply SM_bind_inv in Hev as (v & st & Hev1 & Hev).
  destruct (Sim2 regs scopes pipes ti tv v st) as (regs2 & sc2 & -> & R2 & F2 & V2 & P2); try done.
  { eapply within_ext; [exact Hw|exts|exts]. }
  unfold with_pipe in Hev. cbn [is_tx is_scopes is_pipes] in Hev.
  destruct (evs (mkISt ti sc2 (v :: pipes))) as [o st4] eqn:Hev4. injection Hev as -> <-.
  destruct (Sim4 regs2 sc2 (v :: pipes) ti tv b st4) as (regs4 & sc4 & -> & R4 & F4 & V4 & P4); try done.
  { eapply within_sub; [exact Hw|rewrite C3; by apply ext_ln|rewrite <- C5; apply X6|rewrite <- K5; apply X6|rewrite <- M5; apply X6]. }
  { destruct F2 as (Fl & Fa & vs & below & -> & Fv). destruct X2 as [_ _ _ Es Ep _ _]. rewrite E3. split; [done|]. cbn.
    rewrite Es, Ep. split; [done|]. exists (v :: vs), below. split; [done|]. by constructor. }
  assert (P : keeps s dst regs regs4).
  { eapply keeps_trans; [eapply keeps_temp; [|exact P2]; lia|]. intros q Hq1 Hq2 Hq3. apply P4; [lia| |done].
    rewrite S3. destruct X2 as [_ _ _ Es _ _ _]. by rewrite Es. }
  exists regs4, sc4. split; [done|]. rewrite C3 in R4. rewrite C6, C5. split; [by eapply reach_trans|].
  split; [|done]. destruct F4 as (Fl & Fa & _). eapply (frame_keeps s dst regs); try done.
  rewrite S3 in Fa. destruct X2 as [_ _ _ Es _ _ _]. by rewrite Es in Fa.
Qed.

(** ** Statements *)

(** Jumps out of the loop at hand may be added to its frame. *)
Definition loops_ext (s s' : Comp) : Prop :=
  match co_loop_stack s, co_loop_stack s' with
  | [], [] => True
  | fr :: rest, fr' :: rest' => rest' = rest ∧ ∃ bs cs, break_jumps fr' = break_jumps fr ++ bs ∧
      continue_jumps fr' = continue_jumps fr ++ cs ∧ Forall (λ p, ln s <= p < ln s') (bs ++ cs)
  | _, _ => False
  end.
(** Statements bind names in the innermost scope, to registers of their own. *)
Definition scopes_ext (s s' : Comp) : Prop := ∃ sc sc' rest, co_scopes s = sc :: rest ∧ co_scopes s' = sc' :: rest ∧
  ∀ name r, sc' !! name = Some r → sc !! name = Some r ∨ nx s <= r.
Record sext (s s' : Comp) : Prop := mkSext {
  sx_code : co_code s `prefix_of` co_code s';
  sx_consts : co_consts s `prefix_of` co_consts s';
  sx_max : mx s <= mx s';
  sx_next : nx s <= nx s';
  sx_scopes : scopes_ext s s';
  sx_pipes : co_pipe_stack s' = co_pipe_stack s;
  sx_loops : loops_ext s s';
  sx_depth : co_parallel_for_depth s' = co_parallel_for_depth s;
}.
Lemma loops_ext_refl s s' : co_loop_stack s' = co_loop_stack s → loops_ext s s'.
Proof. intros E. unfold loops_ext. rewrite E. destruct (co_loop_stack s); [done|]. split; [done|]. exists [], []. by rewrite !app_nil_r. Qed.
Lemma loops_ext_trans s1 s2 s3 : ln s1 <= ln s2 <= ln s3 → loops_ext s1 s2 → loops_ext s2 s3 → loops_ext s1 s3.
Proof.
  intros Hl. unfold loops_ext. destruct (co_loop_stack s1) as [|f1 r1], (co_loop_stack s2) as [|f2 r2], (co_loop_stack s3) as [|f3 r3]; try done.
  intros [-> (b1 & c1 & B1 & C1 & F1)] [-> (b2 & c2 & B2 & C2 & F2)]. split; [done|]. exists (b1 ++ b2), (c1 ++ c2).
  rewrite B2, B1, C2, C1, !app_assoc. split; [done|]. split; [done|]. rewrite !Forall_app in *.
  destruct F1 as [F1a F1b], F2 as [F2a F2b]. repeat split; (eapply Forall_impl; [eassumption|]); cbn; lia.
Qed.
Lemma scopes_ext_bound s s' r : scopes_ext s s' → bound (co_scopes s') r → bound (co_scopes s) r ∨ nx s <= r.
Proof.
  intros (sc & sc' & rest & E & E' & Hsc) (i & scr & name & Hi & Hr). rewrite E' in Hi. destruct i as [|i].
  - injection Hi as <-. destruct (Hsc _ _ Hr) as [Hr'|]; [left|by right]. exists O, sc, name. by rewrite E.
  - left. exists (S i), scr, name. by rewrite E.
Qed.
Lemma scopes_ext_refl s s' : co_scopes s ≠ [] → co_scopes s' = co_scopes s → scopes_ext s s'.
Proof.
  intros Hs E. destruct (co_scopes s) as [|sc rest] eqn:Es; [done|]. exists sc, sc, rest. rewrite E, Es.
  split; [done|]. split; [done|]. by left.
Qed.
Lemma sext_ln s s' : sext s s' → ln s <= ln s'.
Proof. intros E. apply prefix_zlen, E. Qed.
Lemma sext_trans s1 s2 s3 : sext s1 s2 → sext s2 s3 → sext s1 s3.
Proof.
  intros X Y. pose proof (sext_ln _ _ X). pose proof (sext_ln _ _ Y). destruct X as [], Y as [].
  split; try congruence; try (by etrans); try lia.
  - destruct sx_scopes0 as (a & b & r & E1 & E2 & Hab), sx_scopes1 as (b' & c & r' & E2' & E3 & Hbc).
    rewrite E2 in E2'. injection E2' as <- <-. exists a, c, r. split; [done|]. split; [done|].
    intros name q Hq. destruct (Hbc _ _ Hq) as [Hq'|]; [by apply Hab|right; lia].
  - eapply loops_ext_trans; [|done|done]. lia.
Qed.
Lemma ext_sext s s' : co_scopes s ≠ [] → nx s <= nx s' → ext s s' → sext s s'.
Proof. intros Hs Hn []. split; try done; [by apply scopes_ext_refl|by apply loops_ext_refl]. Qed.

(** *** Where jumps out of loops lead

    [B] and [C] are where the [break]s and [continue]s of the loop at hand are
    patched to jump. *)
Definition pending (s : Comp) (i : Z) : Prop :=
  match co_loop_stack s with fr :: _ => i ∈ break_jumps fr ∨ i ∈ continue_jumps fr | [] => False end.
Definition link (B C : Z) (s : Comp) (i : Z) (instr : Instr) : Instr :=
  match co_loop_stack s with
  | fr :: _ =>
      if bool_decide (i ∈ break_jumps fr) then Jump (B - i - 1)
      else if bool_decide (i ∈ continue_jumps fr) then Jump (C - i - 1) else instr
  | [] => instr
  end.
Definition linked (B C : Z) (s s' : Comp) : Prop :=
  mx s' <= n_regs f ∧ co_consts s' `prefix_of` consts f ∧
  ∀ i instr, ln s <= i < ln s' → get_z (co_code s') i = Some instr → get_z (code f) i = Some (link B C s' i instr).

Lemma pending_below s i : wf s → pending s i → i < ln s.
Proof.
  intros W. pose proof (wf_loops _ W) as Hl. unfold pending. destruct (co_loop_stack s) as [|fr rest]; [done|].
  inversion_clear Hl as [|? ? [Hb Hc] _]. rewrite Forall_forall in Hb, Hc.
  intros [Hi|Hi]; [apply Hb in Hi as [off E]|apply Hc in Hi as [off E]]; apply get_z_bound in E; lia.
Qed.
Lemma link_not_pending B C s i instr : ¬ pending s i → link B C s i instr = instr.
Proof.
  unfold pending, link. destruct (co_loop_stack s) as [|fr rest]; [done|]. intros Hn.
  rewrite !bool_decide_false by tauto. done.
Qed.
(** The frame of [s'] has the jumps of [s] and later ones. *)
Lemma link_ext B C s s' i instr : loops_ext s s' → i < ln s → link B C s' i instr = link B C s i instr.
Proof.
  unfold loops_ext, link. destruct (co_loop_stack s) as [|fr rest], (co_loop_stack s') as [|fr' rest']; try done.
  intros [-> (bs & cs & Hb & Hc & Hj)] Hi. rewrite Hb, Hc. rewrite Forall_app, !Forall_forall in Hj. destruct Hj as [Hf1 Hf2].
  rewrite (bool_decide_ext (i ∈ break_jumps fr ++ bs) (i ∈ break_jumps fr)).
  - rewrite (bool_decide_ext (i ∈ continue_jumps fr ++ cs) (i ∈ continue_jumps fr)); [done|].
    rewrite elem_of_app. split; [|tauto]. intros [|Hx]; [done|]. specialize (Hf2 _ Hx). lia.
  - rewrite elem_of_app. split; [|tauto]. intros [|Hx]; [done|]. specialize (Hf1 _ Hx). lia.
Qed.
(** A part of linked code, where the whole has the same instructions and jumps. *)
Lemma linked_sub B C s s1 s2 s3 : linked B C s s3 → ln s <= ln s1 → ln s2 <= ln s3 →
  (∀ i, ln s1 <= i < ln s2 → get_z (co_code s3) i = get_z (co_code s2) i) →
  (∀ i instr, ln s1 <= i < ln s2 → link B C s3 i instr = link B C s2 i instr) →
  co_consts s2 `prefix_of` co_consts s3 → mx s2 <= mx s3 → linked B C s1 s2.
Proof.
  intros (Hx & Hk & Hl) H1 H2 Hcode Hlink Hk' Hx'. split; [lia|]. split; [by etrans|].
  intros i instr Hi Hin. rewrite <- Hlink by lia. apply Hl; [lia|]. by rewrite Hcode by lia.
Qed.
Lemma prefix_same {A} (l k : list A) i : l `prefix_of` k → 0 <= i < zlen l → get_z k i = get_z l i.
Proof. intros Hp Hi. destruct (get_z_range l i Hi) as [x Hx]. rewrite Hx. by eapply get_z_prefix. Qed.
Lemma linked_sext B C s s1 s2 s3 : linked B C s s3 → ln s <= ln s1 → sext s2 s3 → linked B C s1 s2.
Proof.
  intros Hl H1 X. pose proof (sext_ln _ _ X). pose proof (zlen_nonneg (co_code s1)). destruct X.
  eapply linked_sub; try done.
  - intros i Hi. apply prefix_same; [done|lia].
  - intros i instr Hi. apply link_ext; [done|lia].
Qed.
(** Code that adds no jumps of the loop is in the function as it is. *)
Lemma linked_within B C s s' : linked B C s s' → (∀ i, ln s <= i < ln s' → ¬ pending s' i) → within s s'.
Proof.
  intros (Hx & Hk & Hl) Hp. split; [done|]. split; [|done]. intros i Hi.
  destruct (get_z_range (co_code s') i ltac:(pose proof (zlen_nonneg (co_code s)); lia)) as [x E].
  rewrite E, (Hl i x Hi E). by rewrite link_not_pending by auto.
Qed.
Lemma linked_ext B C s s' : wf s → ext s s' → linked B C s s' → within s s'.
Proof.
  intros W X Hl. eapply linked_within; [exact Hl|]. intros i Hi Hp. assert (pending s i).
  { unfold pending in *. destruct X as [_ _ _ _ _ El _]. by rewrite El in Hp. }
  apply pending_below in H1; [lia|done].
Qed.

(** *** What code of a statement does *)

(** Registers that are no local's and not [o] keep their values. *)
Definition keepo (s : Comp) (o : option Z) (regs regs' : list Value) : Prop := ∀ r,
  0 <= r < nx s → ¬ bound (co_scopes s) r → Some r ≠ o → get_z regs' r = get_z regs r.
(** The scopes a jump out of a loop leaves, all but the innermost one, which the
    interpreter drops on the way; [whole] when it has been dropped. *)
Definition left_scopes (whole : bool) (s : Comp) (regs : list Value) (scopes : list (gmap bytes Value)) : Prop :=
  if whole then agree regs scopes (co_scopes s) else agree regs (tail scopes) (tail (co_scopes s)).
Definition jumped (whole : bool) (s : Comp) (o : option Z) (regs : list Value) (ti tv : Tx) (pipes : list Value)
    (st' : ISt) (pc : Z) : Prop :=
  ∃ regs' scopes', st' = mkISt ti scopes' pipes ∧ reach (regs, ln s, tv) (regs', pc, tv) ∧ zlen regs' = n_regs f ∧
    left_scopes whole s regs' scopes' ∧ keepo s o regs regs'.
Definition ran (whole ret loop : bool) (B C : Z) (s s' : Comp) (o : option Z) (regs : list Value) (ti tv : Tx)
    (pipes : list Value) (flow : Flow) (st' : ISt) : Prop :=
  match flow with
  | Fl_Normal v => ∃ regs' scopes', st' = mkISt ti scopes' pipes ∧ reach (regs, ln s, tv) (regs', ln s', tv) ∧
      frame_at s' regs' scopes' pipes ∧ keepo s o regs regs' ∧ match o with Some d => holds regs' d v | None => True end
  | Fl_Return v => ret = true ∧ contains_pending v = false ∧ ends (regs, ln s, tv) v tv ∧ ∃ scopes', st' = mkISt ti scopes' pipes
  | Fl_Break => loop = true ∧ jumped whole s o regs ti tv pipes st' B
  | Fl_Continue => loop = true ∧ jumped whole s o regs ti tv pipes st' C
  end.
Definition fresh_opt (s : Comp) (o : option Z) : Prop := match o with Some d => fresh s d | None => True end.
(** The code of [part] does what [ex] does; a [whole] one leaves the scopes as they were. *)
Definition runs (whole ret loop : bool) (o : option Z) (part : CM unit) (ex : IM Flow) : Prop := ∀ s s',
  wf s → fresh_opt s o → part s = (Ok tt, s') →
  sext s s' ∧ wf s' ∧ (whole = true → co_scopes s' = co_scopes s) ∧
  (loop = false → co_loop_stack s' = co_loop_stack s) ∧
  ∀ B C regs scopes pipes ti tv flow st', linked B C s s' → frame_at s regs scopes pipes → tx_rel ti tv →
    ex (mkISt ti scopes pipes) = (Ok flow, st') → ran whole ret loop B C s s' o regs ti tv pipes flow st'.

Definition as_flow (ev : IM Value) : IM Flow := v ← ev; mret (Fl_Normal v).
Lemma keeps_keepo s d regs regs' : keeps s d regs regs' ↔ keepo s (Some d) regs regs'.
Proof.
  split; intros Hk r Hr Hb Hne; (apply Hk; [done..|]); [by intros ->|]. by intros [= ->].
Qed.
Lemma sext_ext s s' : wf s → sext s s' → co_scopes s' = co_scopes s → co_loop_stack s' = co_loop_stack s → ext s s'.
Proof. intros W [] E1 E2. by split. Qed.
(** An expression, as a statement with a destination. *)
Lemma into_runs part ev d ret loop : into_sim part ev → runs true ret loop (Some d) (part d) (as_flow ev).
Proof.
  intros Hs s s' W Hd E. destruct (Hs s d s' W Hd E) as (X & N & Sim). pose proof (wf_some _ W) as Hne.
  split; [apply ext_sext; [done|lia|done]|]. split; [by eapply ext_wf|]. split; [intros _; apply X|]. split; [intros _; apply X|].
  intros B C regs scopes pipes ti tv flow st' Hw Hfr Ht Hev. apply SM_bind_inv in Hev as (v & st & Hev & [= <- <-]).
  destruct (Sim regs scopes pipes ti tv v st) as (regs' & sc' & -> & R & F & V & P); try done; [by eapply linked_ext|].
  exists regs', sc'. split; [done|]. split; [done|]. split; [by apply (frame_ext s s')|]. split; [by apply keeps_keepo|done].
Qed.
Lemma runs_into part ev : (∀ d, runs true false false (Some d) (part d) (as_flow ev)) → into_sim part ev.
Proof.
  intros Hr s d s' W Hd E. destruct (Hr d s s' W Hd E) as (X & W' & Es & El & Sim).
  specialize (Es eq_refl). specialize (El eq_refl). assert (X' : ext s s') by by apply sext_ext.
  pose proof (wf_regs _ W'). split; [done|]. split; [destruct X; lia|].
  intros regs scopes pipes ti tv a st' Hw Hfr Ht Hev.
  assert (Hl : linked 0 0 s s').
  { destruct Hw as (Hx & Hc & Hk). split; [done|]. split; [done|]. intros i instr Hi Hin. rewrite Hc by done.
    rewrite link_not_pending; [done|]. intros Hp. assert (pending s i) by (unfold pending in *; by rewrite El in Hp).
    assert (i < ln s) by by apply pending_below. lia. }
  destruct (Sim 0 0 regs scopes pipes ti tv (Fl_Normal a) st' Hl Hfr Ht) as (regs' & sc' & -> & R & F & P & V).
  { unfold as_flow. by rewrite (SM_bind_ok _ _ _ _ _ Hev). }
  exists regs', sc'. split; [done|]. split; [done|]. split; [by apply (frame_ext s s')|]. split; [done|by apply keeps_keepo].
Qed.

(** Code before, and straight code after. *)
Lemma ran_after whole ret loop B C s s1 s' o regs regs1 ti tv pipes flow st' :
  reach (regs, ln s, tv) (regs1, ln s1, tv) → keepo s o regs regs1 → co_scopes s1 = co_scopes s → nx s <= nx s1 →
  ran whole ret loop B C s1 s' o regs1 ti tv pipes flow st' → ran whole ret loop B C s s' o regs ti tv pipes flow st'.
Proof.
  intros R K Es Hn. assert (Hk : ∀ regs2, keepo s1 o regs1 regs2 → keepo s o regs regs2).
  { intros regs2 K2 r Hr Hb Hne. rewrite K2, K; try done; [lia|by rewrite Es]. }
  assert (Hj : ∀ pc, jumped whole s1 o regs1 ti tv pipes st' pc → jumped whole s o regs ti tv pipes st' pc).
  { intros pc (regs2 & sc2 & -> & R2 & L2 & A2 & K2). exists regs2, sc2. split; [done|]. split; [by eapply reach_trans|].
    split; [done|]. split; [|auto]. unfold left_scopes in *. by rewrite Es in A2. }
  destruct flow; cbn [ran].
  - intros (regs2 & sc2 & -> & R2 & F2 & K2 & V2). exists regs2, sc2. split; [done|]. split; [by eapply reach_trans|]. auto.
  - intros (-> & Hv & E & Hst). split; [done|]. split; [done|]. split; [by eapply reach_ends|done].
  - intros [-> J]. auto.
  - intros [-> J]. auto.
Qed.
Lemma ran_before whole ret loop B C s s1 s' o regs ti tv pipes flow st' :
  (∀ regs1, reach (regs1, ln s1, tv) (regs1, ln s', tv)) → co_scopes s' = co_scopes s1 → co_pipe_stack s' = co_pipe_stack s1 →
  ran whole ret loop B C s s1 o regs ti tv pipes flow st' → ran whole ret loop B C s s' o regs ti tv pipes flow st'.
Proof.
  intros R Es Ep. destruct flow; cbn [ran]; try done. intros (regs2 & sc2 & -> & R2 & F2 & K2 & V2). exists regs2, sc2.
  split; [done|]. split; [by eapply reach_trans|]. split; [|done]. unfold frame_at in *. by rewrite Es, Ep.
Qed.

(** *** Patching jumps *)
Lemma prefix_alter {A} (g : A → A) (l k : list A) p : l `prefix_of` k → zlen l <= p → l `prefix_of` alter g (Z.to_nat p) k.
Proof.
  intros [z ->] Hp. exists (alter g (Z.to_nat p - length l)%nat z). unfold zlen in Hp.
  replace (Z.to_nat p) with (length l + (Z.to_nat p - length l))%nat at 1 by lia. apply alter_app_r.
Qed.
Lemma get_z_alter {A} (g : A → A) (l : list A) p i : 0 <= p →
  get_z (alter g (Z.to_nat p) l) i = if i =? p then g <$> get_z l i else get_z l i.
Proof.
  intros Hp. unfold get_z. destruct (Z.ltb_spec i 0), (Z.eqb_spec i p) as [->|Hne]; try done; try lia.
  - by rewrite list_lookup_alter, decide_True.
  - apply list_lookup_alter_ne. lia.
Qed.
(** The states differ in their code only, which has the same length. *)
Record recoded (s s' : Comp) : Prop := mkRecoded {
  rc_ln : ln s' = ln s; rc_consts : co_consts s' = co_consts s; rc_next : nx s' = nx s; rc_max : mx s' = mx s;
  rc_scopes : co_scopes s' = co_scopes s; rc_pipes : co_pipe_stack s' = co_pipe_stack s;
  rc_loops : co_loop_stack s' = co_loop_stack s; rc_depth : co_parallel_for_depth s' = co_parallel_for_depth s;
  rc_jumps : ∀ p, is_jump (co_code s) p → is_jump (co_code s') p;
}.
Lemma patch_facts p t s s' : 0 <= p → patch_jump p t s = (Ok tt, s') → recoded s s' ∧
  (∀ l, l `prefix_of` co_code s → zlen l <= p → l `prefix_of` co_code s') ∧
  ∀ i, get_z (co_code s') i = if i =? p then set_offset (t - p - 1) <$> get_z (co_code s) i else get_z (co_code s) i.
Proof.
  intros Hp [= <-]. split; [|split].
  - split; try done; [unfold zlen; cbn; by rewrite length_alter|].
    intros q [off E]. unfold is_jump. cbn. rewrite get_z_alter by done. rewrite E. destruct (q =? p); by eexists.
  - intros l Hl Hpl. by apply prefix_alter.
  - intros i. by apply get_z_alter.
Qed.
Lemma recoded_wf s s' : recoded s s' → wf s → wf s'.
Proof.
  intros [R1 R2 R3 R4 R5 R6 R7 R8 R9] [W1 W2 W3 W4 W5 W6 W7].
  split; rewrite ?R1, ?R3, ?R4, ?R5, ?R6, ?R7, ?R8; try done.
  eapply Forall_impl; [exact W5|]. intros fr. by apply frame_jumps_mono.
Qed.
Lemma emit_at_facts i s p s' : emit_at i s = (Ok p, s') →
  p = ln s ∧ ext s s' ∧ nx s' = nx s ∧ mx s' = mx s ∧ co_code s' = co_code s ++ [i] ∧ co_consts s' = co_consts s ∧ ln s' = ln s + 1.
Proof.
  unfold emit_at. intros E. apply SM_bind_inv in E as (p' & s0 & [= <- <-] & E). apply SM_bind_inv in E as ([] & s1 & E1 & [= <- <-]).
  apply emit_facts in E1 as (X & N & M & Cd & K). split; [done|]. do 5 (split; [done|]). by rewrite Cd, zlen_app.
Qed.
Lemma pending_ext s s' i : loops_ext s s' → pending s' i → pending s i ∨ ln s <= i < ln s'.
Proof.
  unfold loops_ext, pending. destruct (co_loop_stack s) as [|fr rest], (co_loop_stack s') as [|fr' rest']; try done.
  intros [-> (bs & cs & -> & -> & Hj)]. rewrite !elem_of_app. rewrite Forall_app, !Forall_forall in Hj.
  destruct Hj as [Hj1 Hj2]. intros [[|Hi]|[|Hi]]; auto.
Qed.

(** *** Branches *)
Lemma fresh_opt_ext s s' o : co_scopes s' = co_scopes s → co_pipe_stack s' = co_pipe_stack s → nx s <= nx s' →
  fresh_opt s o → fresh_opt s' o.
Proof. intros Es Ep Hn. destruct o as [d|]; [|done]. unfold fresh_opt, fresh. rewrite Es, Ep. intuition lia. Qed.
Lemma keeps_temp_opt s t o regs regs' : nx s <= t → keeps s t regs regs' → keepo s o regs regs'.
Proof. intros Ht Hk r Hr Hb _. apply Hk; [done..|lia]. Qed.

Lemma branches_runs cond evc then_ else_ exT exE (choose : Value → IM Flow) ret loop o :
  into_sim cond evc → runs true ret loop o then_ exT → runs true ret loop o else_ exE →
  (∀ st c st1 r st', evc st = (Ok c, st1) → choose c st1 = (Ok r, st') → ∃ b, c = VBool b) →
  (∀ (b : bool) st, choose (VBool b) st = (if b then exT else exE) st) →
  runs true ret loop o (compile_branches cond then_ else_) (c ← evc; choose c).
Proof.
  intros Hc HT HE Hbool Hch s s9 W Ho E. unfold compile_branches in E.
  apply SM_bind_inv in E as (r & s1 & Ea & E). apply SM_bind_inv in E as ([] & s2 & E1 & E).
  destruct (alloc_part cond evc s r s1 s2 Hc W Ea E1) as (-> & X2 & N2 & Sim2).
  apply SM_bind_inv in E as (p & s3 & E3 & E). apply emit_at_facts in E3 as (-> & X3 & N3 & M3 & C3 & K3 & L3).
  apply SM_bind_inv in E as ([] & s4 & E4 & E). apply free_facts in E4 as (X4 & N4 & M4 & C4 & K4).
  assert (L4 : ln s4 = ln s2 + 1) by (rewrite C4; lia). pose proof (wf_regs _ W) as Wr. pose proof (zlen_nonneg (co_code s)).
  assert (X04 : ext s s4) by exts. assert (W4 : wf s4) by (eapply ext_wf; [exact X04|lia|done]).
  assert (Ho4 : fresh_opt s4 o) by (eapply fresh_opt_ext; [apply X04|apply X04|lia|done]).
  apply SM_bind_inv in E as ([] & s5 & E5 & E). destruct (HT s4 s5 W4 Ho4 E5) as (X5 & W5 & S5 & Q5 & Sim5). specialize (S5 eq_refl).
  apply SM_bind_inv in E as (p2 & s6 & E6 & E). apply emit_at_facts in E6 as (-> & X6 & N6 & M6 & C6 & K6 & L6).
  apply SM_bind_inv in E as (epos & s6' & [= <- <-] & E). pose proof (ext_ln _ _ X2) as H02. pose proof (sext_ln _ _ X5) as H45.
  apply SM_bind_inv in E as ([] & s7 & E7 & E). apply patch_facts in E7 as (R7 & P7 & G7); [|lia].
  pose proof (rc_ln _ _ R7) as L7. assert (W6 : wf s6) by (eapply ext_wf; [exact X6|pose proof (wf_regs _ W5); lia|done]).
  pose proof (recoded_wf _ _ R7 W6) as W7. pose proof (sx_next _ _ X5) as N5.
  assert (Ho7 : fresh_opt s7 o).
  { eapply (fresh_opt_ext s); [| | |done].
    - rewrite (rc_scopes _ _ R7), (ext_scopes _ _ X6), S5. apply X04.
    - rewrite (rc_pipes _ _ R7), (ext_pipes _ _ X6), (sx_pipes _ _ X5). apply X04.
    - rewrite (rc_next _ _ R7). lia. }
  apply SM_bind_inv in E as ([] & s8 & E8 & E). destruct (HE s7 s8 W7 Ho7 E8) as (X8 & W8 & S8 & Q8 & Sim8). specialize (S8 eq_refl).
  pose proof (sext_ln _ _ X8) as H78. pose proof (sx_next _ _ X8) as N8.
  apply SM_bind_inv in E as (epos & s8' & [= <- <-] & E). apply patch_facts in E as (R9 & P9 & G9); [|lia].
  pose proof (rc_ln _ _ R9) as L9. assert (Es9 : co_scopes s9 = co_scopes s).
  { rewrite (rc_scopes _ _ R9), S8, (rc_scopes _ _ R7), (ext_scopes _ _ X6), S5. apply X04. }
  assert (J04 : loops_ext s s4) by apply loops_ext_refl, X04. assert (J57 : loops_ext s5 s7).
  { apply loops_ext_refl. rewrite (rc_loops _ _ R7). apply X6. }
  assert (J89 : loops_ext s8 s9) by apply loops_ext_refl, R9. pose proof (sx_loops _ _ X5) as J45. pose proof (sx_loops _ _ X8) as J78.
  assert (J79 : loops_ext s7 s9) by (eapply loops_ext_trans; [|exact J78|exact J89]; lia).
  assert (J59 : loops_ext s5 s9) by (eapply loops_ext_trans; [|exact J57|exact J79]; lia).
  assert (J49 : loops_ext s4 s9) by (eapply loops_ext_trans; [|exact J45|exact J59]; lia).
  assert (Pf : ∀ l, l `prefix_of` co_code s4 → zlen l <= ln s2 → l `prefix_of` co_code s9).
  { intros l Hl Hll. apply P9; [|lia]. etrans; [|apply X8]. apply P7; [|lia]. rewrite C6. apply prefix_app_r. etrans; [exact Hl|apply X5]. }
  assert (Kp : co_consts s5 `prefix_of` co_consts s9).
  { rewrite (rc_consts _ _ R9). etrans; [|apply X8]. rewrite (rc_consts _ _ R7). apply X6. }
  assert (X : sext s s9).
  { split.
    - apply Pf; [apply X04|lia].
    - etrans; [apply X04|]. etrans; [apply X5|exact Kp].
    - rewrite (rc_max _ _ R9). pose proof (sx_max _ _ X8). rewrite (rc_max _ _ R7) in *. pose proof (sx_max _ _ X5). pose proof (ext_max _ _ X04). lia.
    - rewrite (rc_next _ _ R9). rewrite (rc_next _ _ R7) in *. lia.
    - apply scopes_ext_refl; [apply W|done].
    - rewrite (rc_pipes _ _ R9), (sx_pipes _ _ X8), (rc_pipes _ _ R7), (ext_pipes _ _ X6), (sx_pipes _ _ X5). apply X04.
    - eapply loops_ext_trans; [|exact J04|exact J49]. lia.
    - rewrite (rc_depth _ _ R9), (sx_depth _ _ X8), (rc_depth _ _ R7), (ext_depth _ _ X6), (sx_depth _ _ X5). apply X04. }
  split; [done|]. split; [by eapply recoded_wf|]. split; [done|]. split.
  { intros El. rewrite (rc_loops _ _ R9), (Q8 El), (rc_loops _ _ R7), (ext_loops _ _ X6), (Q5 El). apply X04. }
  intros B C regs scopes pipes ti tv flow st' Hl Hfr Ht Hev. apply SM_bind_inv in Hev as (c & st & Hev & Hpick).
  destruct (Hbool _ _ _ _ _ Hev Hpick) as [b ->]. rewrite Hch in Hpick. clear Hbool Hch.
  (* the parts of the linked code *)
  pose proof (ext_ln _ _ X04) as H04. pose proof (prefix_zlen _ _ (sx_code _ _ X8)) as H78'.
  assert (Kp2 : co_consts s2 `prefix_of` co_consts s9) by (etrans; [|exact Kp]; etrans; [|apply X5]; rewrite K4, K3; done).
  assert (M29 : mx s2 <= mx s5 <= mx s9).
  { pose proof (sx_max _ _ X5). pose proof (sx_max _ _ X8). rewrite (rc_max _ _ R9), (rc_max _ _ R7) in *. lia. }
  assert (Same4 : ∀ i, 0 <= i < ln s4 → i ≠ ln s2 → get_z (co_code s9) i = get_z (co_code s4) i).
  { intros i Hi Hne. rewrite G9. destruct (Z.eqb_spec i (ln s5)); [lia|]. rewrite (prefix_same _ _ i (sx_code _ _ X8)) by lia.
    rewrite G7. destruct (Z.eqb_spec i (ln s2)); [lia|]. rewrite (prefix_same _ _ i (ext_code _ _ X6)) by lia.
    by rewrite (prefix_same _ _ i (sx_code _ _ X5)) by lia. }
  assert (Hw2 : within s s2).
  { eapply linked_ext; [done|exact X2|]. eapply (linked_sub B C s s s2 s9); [exact Hl|lia|lia| | |exact Kp2|lia].
    - intros i Hi. rewrite Same4 by lia. apply prefix_same; [rewrite C4, C3; by apply prefix_app_r|lia].
    - intros i instr Hi. rewrite (link_ext B C s4 s9), !link_not_pending; try done; try lia.
      + intros Hp. pose proof (pending_below s i W). unfold pending in *. rewrite (ext_loops _ _ X2) in Hp. specialize (H2 Hp). lia.
      + intros Hp. pose proof (pending_below s i W). unfold pending in *. rewrite (ext_loops _ _ X04) in Hp. specialize (H2 Hp). lia. }
  assert (Hjif : get_z (code f) (ln s2) = Some (JumpIfFalse (nx s) (ln s6 - ln s2 - 1))).
  { destruct Hl as (_ & _ & Hl). rewrite (Hl (ln s2) (JumpIfFalse (nx s) (ln s6 - ln s2 - 1))); [|lia|].
    - rewrite link_not_pending; [done|]. intros Hp. apply (pending_ext s4 s9 _ J49) in Hp as [Hp|]; [|lia].
      pose proof (pending_below s (ln s2) W). unfold pending in *. rewrite (ext_loops _ _ X04) in Hp. specialize (H2 Hp). lia.
    - rewrite G9. destruct (Z.eqb_spec (ln s2) (ln s5)); [lia|]. rewrite (prefix_same _ _ (ln s2) (sx_code _ _ X8)) by lia.
      rewrite G7, Z.eqb_refl. rewrite (prefix_same _ _ _ (ext_code _ _ X6)) by lia. rewrite (prefix_same _ _ _ (sx_code _ _ X5)) by lia.
      by rewrite C4, C3, get_z_last. }
  destruct (Sim2 regs scopes pipes ti tv (VBool b) st Hw2 Hfr Ht Hev) as (regs2 & sc2 & -> & R2 & F2 & V2 & P2).
  assert (F4 : frame_at s4 regs2 sc2 pipes) by by apply (frame_ext s s4).
  pose proof (reach_branch tree_fuel host modules mi fi bm f Hm Hf regs2 (ln s2) tv (nx s) _ b Hjif V2) as RJ.
  assert (K : keepo s o regs regs2) by (eapply keeps_temp_opt; [|exact P2]; lia).
  assert (Out5 : ¬ pending s9 (ln s5)).
  { intros Hp. apply (pending_ext s7 s9 _ J79) in Hp as [Hp|]; [|lia]. pose proof (pending_below s5 (ln s5) W5) as Hb.
    unfold pending in *. rewrite (rc_loops _ _ R7), (ext_loops _ _ X6) in Hp. specialize (Hb Hp). lia. }
  destruct b.
  - rewrite <- L4 in RJ. assert (Hl5 : linked B C s4 s5).
    { eapply (linked_sub B C s s4 s5 s9); [exact Hl|lia|lia| |intros; apply link_ext; [done|lia]|exact Kp|lia].
      intros i Hi. rewrite G9. destruct (Z.eqb_spec i (ln s5)); [lia|]. rewrite (prefix_same _ _ i (sx_code _ _ X8)) by lia.
      rewrite G7. destruct (Z.eqb_spec i (ln s2)); [lia|]. by rewrite (prefix_same _ _ i (ext_code _ _ X6)) by lia. }
    assert (Hj : get_z (code f) (ln s5) = Some (Jump (ln s9 - ln s5 - 1))).
    { destruct Hl as (_ & _ & Hl). rewrite (Hl (ln s5) (Jump (ln s9 - ln s5 - 1))); [by rewrite link_not_pending|lia|].
      rewrite G9, Z.eqb_refl, L9. rewrite (prefix_same _ _ (ln s5) (sx_code _ _ X8)) by lia.
      rewrite G7. destruct (Z.eqb_spec (ln s5) (ln s2)); [lia|]. by rewrite C6, get_z_last. }
    eapply (ran_after true ret loop B C s s4 s9); [by eapply reach_trans|exact K|apply X04|lia|].
    eapply (ran_before true ret loop B C s4 s5 s9); [| | |by eapply Sim5].
    + intros regs1. replace (ln s9) with (ln s5 + 1 + (ln s9 - ln s5 - 1)) by lia. by eapply reach_jump.
    + rewrite Es9, S5. symmetry. apply X04.
    + rewrite (rc_pipes _ _ R9), (sx_pipes _ _ X8), (rc_pipes _ _ R7). apply X6.
  - replace (ln s2 + 1 + (ln s6 - ln s2 - 1)) with (ln s7) in RJ by lia. assert (Hl8 : linked B C s7 s8).
    { eapply (linked_sub B C s s7 s8 s9); [exact Hl|lia|lia| |intros; apply link_ext; [done|lia]| |].
      - intros i Hi. rewrite G9. by destruct (Z.eqb_spec i (ln s5)); [lia|].
      - by rewrite (rc_consts _ _ R9).
      - rewrite (rc_max _ _ R9). lia. }
    assert (Es7 : co_scopes s7 = co_scopes s).
    { rewrite (rc_scopes _ _ R7), (ext_scopes _ _ X6), S5. apply X04. }
    assert (F7 : frame_at s7 regs2 sc2 pipes).
    { unfold frame_at in *. rewrite Es7, (rc_pipes _ _ R7), (ext_pipes _ _ X6), (sx_pipes _ _ X5), (ext_pipes _ _ X04). exact F2. }
    eapply (ran_after true ret loop B C s s7 s9); [by eapply reach_trans|exact K|exact Es7|rewrite (rc_next _ _ R7); lia|].
    eapply (ran_before true ret loop B C s7 s8 s9); [intros; rewrite L9; apply reach_refl|apply R9|apply R9|by eapply Sim8].
Qed.
(** *** Sequences and blocks *)
Lemma agree_tail regs scopes cs : agree regs scopes cs → agree regs (tail scopes) (tail cs).
Proof. intros Ha. by destruct Ha; [constructor|]. Qed.
Lemma jumped_part s o regs ti tv pipes st' pc : jumped true s o regs ti tv pipes st' pc → jumped false s o regs ti tv pipes st' pc.
Proof. intros (regs' & sc' & -> & R & L & A & K). exists regs', sc'. do 3 (split; [done|]). split; [by apply agree_tail|done]. Qed.
Lemma jumped_more whole s o regs ti tv pipes st' pc : jumped whole s None regs ti tv pipes st' pc → jumped whole s o regs ti tv pipes st' pc.
Proof. intros (regs' & sc' & -> & R & L & A & K). exists regs', sc'. do 4 (split; [done|]). intros r Hr Hb _. by apply K. Qed.
(** Code that leaves the scopes as they were, neither returns nor jumps, is also code
    of the weaker kinds. *)
Lemma runs_weaken whole ret loop ret' loop' o part ex : runs whole ret loop o part ex → (ret = true → ret' = true) → (loop = true → loop' = true) →
  runs whole ret' loop' o part ex.
Proof.
  intros Hr Hret Hloop s s' W Ho E. destruct (Hr s s' W Ho E) as (X & W' & Es & El & Sim).
  split; [done|]. split; [done|]. split; [done|]. split; [intros ->; apply El; destruct loop; [by specialize (Hloop eq_refl)|done]|].
  intros B C regs scopes pipes ti tv flow st' Hl Hfr Ht Hev. specialize (Sim B C regs scopes pipes ti tv flow st' Hl Hfr Ht Hev).
  destruct flow; cbn [ran] in *; try done; destruct Sim as [Hb Sim]; auto.
Qed.
Lemma runs_part ret loop o part ex : runs true ret loop o part ex → runs false ret loop o part ex.
Proof.
  intros Hr s s' W Ho E. destruct (Hr s s' W Ho E) as (X & W' & Es & El & Sim).
  split; [done|]. split; [done|]. split; [done|]. split; [done|].
  intros B C regs scopes pipes ti tv flow st' Hl Hfr Ht Hev. specialize (Sim B C regs scopes pipes ti tv flow st' Hl Hfr Ht Hev).
  destruct flow; cbn [ran] in *; try done; destruct Sim as [Hb Sim]; split; try done; by apply jumped_part.
Qed.
(** The same code, and an evaluation with the same answers. *)
Lemma runs_ext whole ret loop o p1 p2 e1 e2 : (∀ s, p1 s = p2 s) →
  (∀ st flow st', e1 st = (Ok flow, st') → e2 st = (Ok flow, st')) → runs whole ret loop o p2 e2 → runs whole ret loop o p1 e1.
Proof.
  intros Hp He Hr s s' W Ho E. rewrite Hp in E. destruct (Hr s s' W Ho E) as (X & W' & Es & El & Sim).
  split; [done|]. split; [done|]. split; [done|]. split; [done|]. intros B C regs scopes pipes ti tv flow st' Hl Hfr Ht Hev. by eapply Sim, He.
Qed.
Lemma seq_runs ret loop o p1 e1 p2 e2 : runs false ret loop None p1 e1 → runs false ret loop o p2 e2 →
  runs false ret loop o (_ ← p1; p2) (flow ← e1; match flow with Fl_Normal _ => e2 | other => mret other end).
Proof.
  intros H1 H2 s s2 W Ho E. apply SM_bind_inv in E as ([] & s1 & E1 & E2).
  destruct (H1 s s1 W I E1) as (X1 & W1 & _ & L1 & Sim1). pose proof (wf_regs _ W) as Wr. pose proof (sx_next _ _ X1) as N1.
  assert (Ho1 : fresh_opt s1 o).
  { destruct o as [d|]; [|done]. destruct Ho as (Hd & Hb & Hp). split; [lia|]. rewrite (sx_pipes _ _ X1). split; [|done].
    intros Hb'. apply (scopes_ext_bound s s1 d (sx_scopes _ _ X1)) in Hb' as [|]; [done|lia]. }
  destruct (H2 s1 s2 W1 Ho1 E2) as (X2 & W2 & _ & L2 & Sim2). assert (X : sext s s2) by by eapply sext_trans.
  split; [done|]. split; [done|]. split; [done|]. split; [intros El; by rewrite L2, L1|].
  intros B C regs scopes pipes ti tv flow st' Hl Hfr Ht Hev. apply SM_bind_inv in Hev as (flow1 & st1 & Hev1 & Hev2).
  pose proof (sext_ln _ _ X1) as Ln1. pose proof (sext_ln _ _ X2) as Ln2.
  assert (Hl1 : linked B C s s1) by (eapply linked_sext; [exact Hl|lia|exact X2]).
  assert (Hl2 : linked B C s1 s2) by (eapply linked_sub; [exact Hl|lia|lia|..]; by try lia).
  specialize (Sim1 B C regs scopes pipes ti tv flow1 st1 Hl1 Hfr Ht Hev1).
  destruct flow1 as [v1|v1| |]; cbn [ran] in Sim1.
  2: { injection Hev2 as <- <-. exact Sim1. }
  2: { injection Hev2 as <- <-. split; [apply Sim1|apply jumped_more, Sim1]. }
  2: { injection Hev2 as <- <-. split; [apply Sim1|apply jumped_more, Sim1]. }
  destruct Sim1 as (regs1 & sc1 & -> & R1 & F1 & K1 & _).
  specialize (Sim2 B C regs1 sc1 pipes ti tv flow st' Hl2 F1 Ht Hev2).
  assert (Hk : ∀ regs2, keepo s1 o regs1 regs2 → keepo s o regs regs2).
  { intros regs2 K2 r Hr Hb Hne. rewrite K2, K1; try done; [lia|].
    intros Hb'. apply (scopes_ext_bound s s1 r (sx_scopes _ _ X1)) in Hb' as [|]; [done|lia]. }
  assert (Hj : ∀ pc, jumped false s1 o regs1 ti tv pipes st' pc → jumped false s o regs ti tv pipes st' pc).
  { intros pc (regs2 & sc2 & -> & R2 & Lr & A2 & K2). exists regs2, sc2. split; [done|]. split; [by eapply reach_trans|].
    split; [done|]. split; [|auto]. unfold left_scopes in *. destruct (sx_scopes _ _ X1) as (a & b & rest & Ea & Eb & _).
    rewrite Eb in A2. by rewrite Ea. }
  destruct flow; cbn [ran] in *.
  - destruct Sim2 as (regs2 & sc2 & -> & R2 & F2 & K2 & V2). exists regs2, sc2. split; [done|]. split; [by eapply reach_trans|]. auto.
  - destruct Sim2 as (Hret & Hv & En & Hst). split; [done|]. split; [done|]. split; [by eapply reach_ends|done].
  - destruct Sim2 as [? J]. auto.
  - destruct Sim2 as [? J]. auto.
Qed.
Lemma skip_runs whole ret loop : runs whole ret loop None (mret tt) (mret unit_flow).
Proof.
  intros s s' W _ [= <-]. pose proof (wf_regs _ W). pose proof (wf_some _ W). split; [apply ext_sext; [done|lia|apply ext_refl]|].
  do 3 (split; [done|]). intros B C regs scopes pipes ti tv flow st' Hl Hfr Ht [= <- <-]. exists regs, scopes.
  split; [done|]. split; [apply reach_refl|]. done.
Qed.
Lemma stmts_runs ret loop cstmt xstmt ss : Forall (λ st, runs false ret loop None (cstmt st) (xstmt st)) ss →
  runs false ret loop None (compile_stmts cstmt ss) (exec_stmts xstmt ss).
Proof. induction 1; cbn [compile_stmts exec_stmts]; [apply skip_runs|]. by apply seq_runs. Qed.
Lemma bound_push cs r : bound (∅ :: cs) r ↔ bound cs r.
Proof.
  split.
  - intros ([|i] & sc & name & Hi & Hr); [injection Hi as <-; by rewrite lookup_empty in Hr|]. by exists i, sc, name.
  - intros (i & sc & name & Hi & Hr). by exists (S i), sc, name.
Qed.
Lemma push_scope_wf s : wf s → wf (set_scopes (∅ :: co_scopes s) s).
Proof.
  intros W. destruct W as [W1 W2 W3 W4 W5 W6 W7]. split; cbn; try done.
  - intros r. rewrite bound_push. apply W2.
  - intros [|i] [|j] sc sc' n n' r Hi Hj Hn Hn'; cbn in Hi, Hj; try (injection Hi as <-; by rewrite lookup_empty in Hn);
      try (injection Hj as <-; by rewrite lookup_empty in Hn').
    destruct (W3 i j sc sc' n n' r Hi Hj Hn Hn') as [-> ->]. done.
  - eapply Forall_impl; [exact W4|]. intros r. by rewrite bound_push.
Qed.
Lemma agree_push regs scopes cs : agree regs scopes cs → agree regs (∅ :: scopes) (∅ :: cs).
Proof. intros Ha. constructor; [|done]. intros name. by rewrite !lookup_empty. Qed.
Lemma in_block_runs ret loop o part ex : runs false ret loop o part ex →
  runs true ret loop o (_ ← push_scope; saved ← next_reg; _ ← part; _ ← pop_scope; set_next_reg saved) (in_iscope ∅ ex).
Proof.
  intros Hr s s' W Ho E. apply SM_bind_inv in E as ([] & s1 & [= E1] & E). apply SM_bind_inv in E as (saved & s0 & [= <- <-] & E).
  pose proof (push_scope_wf s W) as W1. rewrite E1 in W1. apply SM_bind_inv in E as ([] & s2 & E2 & E).
  apply SM_bind_inv in E as ([] & s3 & [= E3] & [= E4]).
  assert (Ho1 : fresh_opt s1 o).
  { rewrite <- E1. destruct o as [d|]; [|done]. destruct Ho as (Hd & Hb & Hp). split; [done|]. cbn. by rewrite bound_push. }
  destruct (Hr s1 s2 W1 Ho1 E2) as (X & W2 & _ & El & Sim). pose proof (wf_regs _ W) as Wr.
  assert (Same1 : co_code s1 = co_code s ∧ co_consts s1 = co_consts s ∧ nx s1 = nx s ∧ mx s1 = mx s ∧
    co_scopes s1 = ∅ :: co_scopes s ∧ co_pipe_stack s1 = co_pipe_stack s ∧ co_loop_stack s1 = co_loop_stack s ∧
    co_parallel_for_depth s1 = co_parallel_for_depth s) by by rewrite <- E1.
  destruct Same1 as (A1 & A2 & A3 & A4 & A5 & A6 & A7 & A8).
  assert (Same2 : co_code s' = co_code s2 ∧ co_consts s' = co_consts s2 ∧ nx s' = nx s1 ∧ mx s' = mx s2 ∧
    co_scopes s' = tail (co_scopes s2) ∧ co_pipe_stack s' = co_pipe_stack s2 ∧ co_loop_stack s' = co_loop_stack s2 ∧
    co_parallel_for_depth s' = co_parallel_for_depth s2) by by rewrite <- E4, <- E3.
  destruct Same2 as (B1 & B2 & B3 & B4 & B5 & B6 & B7 & B8).
  assert (Es : co_scopes s' = co_scopes s).
  { destruct (sx_scopes _ _ X) as (a & b & rest & Ea & Eb & _). rewrite B5, Eb. rewrite A5 in Ea. by injection Ea. }
  assert (Xs : sext s s').
  { pose proof (wf_some _ W). destruct X. split; try congruence; try lia.
    - by apply scopes_ext_refl.
    - unfold loops_ext in *. by rewrite <- A1, <- A7, B1, B7. }
  split; [done|]. split.
  { pose proof (sx_max _ _ X). destruct W as [V1 V2 V3 V4 V5 V6 V7]. split; rewrite ?Es, ?B6, ?(sx_pipes _ _ X), ?A6, ?B3, ?B4, ?A3; try done; try lia.
    - rewrite B1, B7. apply W2.
    - rewrite B8. apply W2. }
  split; [done|]. split; [intros Hloop; by rewrite B7, El|].
  intros B C regs scopes pipes ti tv flow st' Hl Hfr Ht Hev.
  unfold in_iscope in Hev. apply SM_bind_inv in Hev as ([] & st1 & [= <-] & Hev). apply SM_bind_inv in Hev as (flow' & st2 & Hev & Hev').
  apply SM_bind_inv in Hev' as ([] & st3 & [= <-] & [= <- <-]).
  assert (Hl1 : linked B C s1 s2) by (unfold linked, link in *; by rewrite A1, <- B1, <- B2, <- B4, <- B7).
  assert (F1 : frame_at s1 regs (∅ :: scopes) pipes).
  { destruct Hfr as (Fl & Fa & Fp). split; [done|]. rewrite A5, A6. split; [by apply agree_push|done]. }
  specialize (Sim B C regs (∅ :: scopes) pipes ti tv flow' st2 Hl1 F1 Ht Hev).
  assert (Hk : ∀ regs', keepo s1 o regs regs' → keepo s o regs regs').
  { intros regs' K r Hr' Hb. apply K; [lia|]. by rewrite A5, bound_push. }
  assert (Hj : ∀ pc, jumped false s1 o regs ti tv pipes st2 pc →
    jumped true s o regs ti tv pipes (mkISt (is_tx st2) (tail (is_scopes st2)) (is_pipes st2)) pc).
  { intros pc (regs' & sc' & -> & R & L & A & K). exists regs', (tail sc'). split; [done|]. rewrite A1 in R. do 2 (split; [done|]).
    split; [|auto]. unfold left_scopes in *. by rewrite A5 in A. }
  destruct flow'; cbn [ran] in *.
  - destruct Sim as (regs' & sc' & -> & R & F & K & V). exists regs', (tail sc'). split; [done|]. rewrite A1 in R. rewrite B1.
    split; [done|]. split; [|auto]. destruct F as (Fl & Fa & Fp). split; [done|]. rewrite B5, B6. split; [by apply agree_tail|done].
  - destruct Sim as (Hret & Hv & En & sc' & ->). rewrite A1 in En. split; [done|]. split; [done|]. split; [done|]. by eexists.
  - destruct Sim as [? J]. auto.
  - destruct Sim as [? J]. auto.
Qed.

(** *** Statements around an expression *)
Lemma discard_runs part ev (k : Value → Value) ret loop : into_sim part ev →
  runs true ret loop None (discard part) (v ← ev; mret (Fl_Normal (k v))).
Proof.
  intros Hp s s' W _ E. unfold discard in E. apply SM_bind_inv in E as (r & s1 & Ea & E). apply SM_bind_inv in E as ([] & s2 & E1 & E).
  destruct (alloc_part part ev s r s1 s2 Hp W Ea E1) as (-> & X2 & N2 & Sim2).
  apply free_facts in E as (X3 & N3 & M3 & C3 & K3). assert (X : ext s s') by exts. pose proof (wf_regs _ W). pose proof (wf_some _ W).
  split; [apply ext_sext; [done|lia|done]|]. split; [eapply ext_wf; [exact X|lia|done]|]. split; [intros _; apply X|]. split; [intros _; apply X|].
  intros B C regs scopes pipes ti tv flow st' Hl Hfr Ht Hev. apply SM_bind_inv in Hev as (v & st & Hev & [= <- <-]).
  assert (Hw : within s s') by by eapply linked_ext.
  destruct (Sim2 regs scopes pipes ti tv v st) as (regs2 & sc2 & -> & R2 & F2 & V2 & P2); try done.
  { eapply within_ext; [exact Hw|exts|exts]. }
  exists regs2, sc2. split; [done|]. rewrite C3. split; [done|]. split; [by apply (frame_ext s s')|]. split; [|done].
  eapply keeps_temp_opt; [|exact P2]. lia.
Qed.
Lemma return_runs part ev ret loop : ret = true → into_sim part ev →
  runs true ret loop None (r ← alloc; _ ← part r; _ ← emit (Return r); free r) (v ← ev; mret (Fl_Return v)).
Proof.
  intros Hret Hp s s' W _ E. apply SM_bind_inv in E as (r & s1 & Ea & E). apply SM_bind_inv in E as ([] & s2 & E1 & E).
  destruct (alloc_part part ev s r s1 s2 Hp W Ea E1) as (-> & X2 & N2 & Sim2).
  apply SM_bind_inv in E as ([] & s3 & E3 & E). apply emit_facts in E3 as (X3 & N3 & M3 & C3 & K3).
  apply free_facts in E as (X4 & N4 & M4 & C4 & K4). assert (X : ext s s') by exts. pose proof (wf_regs _ W). pose proof (wf_some _ W).
  split; [apply ext_sext; [done|lia|done]|]. split; [eapply ext_wf; [exact X|lia|done]|]. split; [intros _; apply X|]. split; [intros _; apply X|].
  intros B C regs scopes pipes ti tv flow st' Hl Hfr Ht Hev. apply SM_bind_inv in Hev as (v & st & Hev & [= <- <-]).
  assert (Hw : within s s') by by eapply linked_ext.
  destruct (Sim2 regs scopes pipes ti tv v st) as (regs2 & sc2 & -> & R2 & F2 & V2 & P2); try done.
  { eapply within_ext; [exact Hw|exts|exts]. }
  split; [done|]. split; [apply V2|]. split; [|by eexists]. eapply reach_ends; [exact R2|].
  eapply ends_return; [done|done| |apply V2]. by eapply within_emit; [exact Hw|exts|exact C3|exts].
Qed.
Lemma return_unit_runs ret loop : ret = true → runs true ret loop None (emit ReturnUnit) (mret (Fl_Return VUnit)).
Proof.
  intros Hret s s' W _ E. apply emit_facts in E as (X & N & M & Cd & K). pose proof (wf_regs _ W). pose proof (wf_some _ W).
  split; [apply ext_sext; [done|lia|done]|]. split; [eapply ext_wf; [exact X|lia|done]|]. split; [intros _; apply X|]. split; [intros _; apply X|].
  intros B C regs scopes pipes ti tv flow st' Hl Hfr Ht [= <- <-].
  assert (Hw : within s s') by by eapply linked_ext.
  split; [done|]. split; [done|]. split; [|by eexists]. eapply ends_unit; [done|done|].
  by eapply within_emit; [exact Hw|exts|exact Cd|exts].
Qed.
Lemma fresh_next s s2 : wf s → ext s s2 → nx s < nx s2 → fresh s2 (nx s).
Proof.
  intros W X Hn. pose proof (wf_regs _ W). split; [lia|]. rewrite (ext_scopes _ _ X), (ext_pipes _ _ X). split.
  - intros Hb. pose proof (wf_bound _ W _ Hb). lia.
  - intros Hp. pose proof (wf_pipes _ W) as Wp. rewrite Forall_forall in Wp. destruct (Wp _ Hp). lia.
Qed.
Lemma linked_same B C s s' : wf s → co_loop_stack s' = co_loop_stack s → linked B C s s' → within s s'.
Proof.
  intros W El Hl. eapply linked_within; [exact Hl|]. intros i Hi Hp. assert (Hp' : pending s i) by (unfold pending in *; by rewrite El in Hp).
  apply pending_below in Hp'; [lia|done].
Qed.

(** *** Names bound by statements *)
Lemma bound_bind name r sc rest q : bound (<[name := r]> sc :: rest) q → q = r ∨ bound (sc :: rest) q.
Proof.
  intros ([|i] & sc' & n & Hi & Hq); cbn in Hi.
  - injection Hi as <-. apply lookup_insert_Some in Hq as [[_ <-]|[_ Hq]]; [by left|]. right. by exists O, sc, n.
  - right. by exists (S i), sc', n.
Qed.
Lemma bind_wf name r s sc rest : wf s → fresh s r → co_scopes s = sc :: rest →
  wf (set_scopes (<[name := r]> sc :: rest) s).
Proof.
  intros [W1 W2 W3 W4 W5 W6 W7] (Hr & Hb & Hp) Es. rewrite Es in *. split; cbn; try done.
  - intros q [->|Hq]%bound_bind; auto.
  - assert (Hno : ∀ j scj n, (sc :: rest) !! j = Some scj → scj !! n ≠ Some r).
    { intros j scj n Hj Hn. apply Hb. by exists j, scj, n. }
    intros i j sc1 sc2 n1 n2 q Hi Hj Hn1 Hn2.
    assert (Hcase : ∀ k sck n, (<[name := r]> sc :: rest) !! k = Some sck → sck !! n = Some q →
      (k = O ∧ n = name ∧ q = r) ∨ ∃ sck', (sc :: rest) !! k = Some sck' ∧ sck' !! n = Some q).
    { intros [|k] sck n Hk Hn; cbn in Hk; [|right; by exists sck]. injection Hk as <-.
      apply lookup_insert_Some in Hn as [[<- <-]|[_ Hn]]; [by left|]. right. by exists sc. }
    destruct (Hcase i sc1 n1 Hi Hn1) as [(-> & -> & ->)|(s1 & Hi' & Hn1')], (Hcase j sc2 n2 Hj Hn2) as [(-> & -> & ?)|(s2 & Hj' & Hn2')].
    + done.
    + by destruct (Hno _ _ _ Hj' Hn2').
    + subst q. by destruct (Hno _ _ _ Hi' Hn1').
    + by eapply (W3 i j s1 s2).
  - apply Forall_forall. rewrite Forall_forall in W4. intros q Hq. destruct (W4 q Hq) as [??]. split; [done|].
    intros [->|]%bound_bind; [by apply Hp|done].
Qed.
Lemma frame_bind s regs scopes pipes name r v sc rest : co_scopes s = sc :: rest → frame_at s regs scopes pipes → holds regs r v →
  ∃ sv srest, scopes = sv :: srest ∧
    frame_at (set_scopes (<[name := r]> sc :: rest) s) regs (<[name := v]> sv :: srest) pipes.
Proof.
  intros Es (Fl & Fa & Fp) Hv. rewrite Es in Fa. apply Forall2_cons_inv_r in Fa as (sv & srest & Hs & Fa & ->).
  exists sv, srest. split; [done|]. split; [done|]. split; [|done]. constructor; [|done]. intros n.
  destruct (decide (n = name)) as [->|Hne].
  - rewrite !lookup_insert_eq. by exists v.
  - rewrite !lookup_insert_ne by done. apply Hs.
Qed.
Lemma bind_scopes_ext name r s sc rest : co_scopes s = sc :: rest → nx s <= r → ∀ s',
  co_scopes s' = <[name := r]> sc :: rest → scopes_ext s s'.
Proof.
  intros Es Hr s' Es'. exists sc, (<[name := r]> sc), rest. split; [done|]. split; [done|].
  intros n q [[_ <-]|[_ Hq]]%lookup_insert_Some; [by right|by left].
Qed.
Lemma bind_local_inv name r s s' : bind_local name r s = (Ok tt, s') → ∃ sc rest, co_scopes s = sc :: rest ∧
  s' = set_scopes (<[name := r]> sc :: rest) s.
Proof. unfold bind_local. destruct (co_scopes s) as [|sc rest]; [done|]. intros [= <-]. by exists sc, rest. Qed.
Lemma let_runs part ev name ret loop : into_sim part ev →
  runs false ret loop None (r ← alloc; _ ← part r; bind_local name r) (v ← ev; _ ← bind_value name v; mret unit_flow).
Proof.
  intros Hp s s' W _ E. apply SM_bind_inv in E as (r & s1 & Ea & E). apply SM_bind_inv in E as ([] & s2 & E1 & E).
  destruct (alloc_part part ev s r s1 s2 Hp W Ea E1) as (-> & X2 & N2 & Sim2). pose proof (wf_regs _ W).
  assert (W2 : wf s2) by (eapply ext_wf; [exact X2|lia|done]). pose proof (fresh_next s s2 W X2 ltac:(lia)) as Hf2.
  apply bind_local_inv in E as (sc & rest & Es & E). pose proof (bind_wf name (nx s) s2 sc rest W2 Hf2 Es) as W'. rewrite <- E in W'.
  assert (X : sext s s').
  { destruct X2 as [V1 V2 V3 V4 V5 V6 V7]. rewrite E. split; try done; [cbn; lia| |by apply loops_ext_refl].
    eapply bind_scopes_ext; [by rewrite <- V4|done|done]. }
  split; [done|]. split; [done|]. split; [done|]. split; [intros _; rewrite E; apply X2|].
  intros B C regs scopes pipes ti tv flow st' Hl Hfr Ht Hev. apply SM_bind_inv in Hev as (v & st & Hev & Hb).
  assert (Hw : within s s2).
  { assert (Hw : within s s') by (eapply linked_same; [done| |done]; rewrite E; apply X2). by rewrite E in Hw. }
  destruct (Sim2 regs scopes pipes ti tv v st) as (regs2 & sc2 & -> & R2 & F2 & V2 & P2); try done.
  apply (frame_ext s s2) in F2; [|done]. destruct (frame_bind s2 regs2 sc2 pipes name (nx s) v sc rest Es F2 V2) as (sv & srest & -> & F').
  cbn in Hb. injection Hb as <- <-. exists regs2, (<[name := v]> sv :: srest). split; [done|].
  replace (ln s') with (ln s2) by by rewrite E. split; [done|]. split; [by rewrite E|]. split; [|done].
  eapply keeps_temp_opt; [|exact P2]. lia.
Qed.
Lemma bind_tuple_sim t names : ∀ i s s', wf s → fresh s t → 0 <= i → i + zlen names <= 65536 → bind_tuple t names i s = (Ok tt, s') →
  sext s s' ∧ wf s' ∧ co_loop_stack s' = co_loop_stack s ∧
  ∀ regs scopes pipes ti tv elems vs, within s s' → frame_at s regs scopes pipes → holds regs t (VTuple elems) →
    drop (Z.to_nat i) elems = vs → length vs = length names →
    ∃ regs' scopes', bind_each names vs (mkISt ti scopes pipes) = (Ok tt, mkISt ti scopes' pipes) ∧
      reach (regs, ln s, tv) (regs', ln s', tv) ∧ frame_at s' regs' scopes' pipes ∧ keepo s None regs regs'.
Proof.
  induction names as [|name names IH]; intros i s s' W Ht Hi Hn E; cbn [bind_tuple] in E; pose proof (wf_regs _ W) as Wr; pose proof (wf_some _ W) as Wn.
  { injection E as <-. split; [apply ext_sext; [done|lia|apply ext_refl]|]. do 2 (split; [done|]).
    intros regs scopes pipes ti tv elems vs _ Hfr _ _ Hvs. destruct vs; [|done]. exists regs, scopes. split; [done|].
    split; [apply reach_refl|done]. }
  rewrite zlen_cons in Hn. pose proof (zlen_nonneg names).
  apply SM_bind_inv in E as (r & s1 & Ea & E). apply (alloc_facts s r s1 W) in Ea as (-> & X1 & N1 & M1 & C1 & K1 & Hf1).
  apply SM_bind_inv in E as ([] & s2 & E2 & E). apply emit_facts in E2 as (X2 & N2 & M2 & C2 & K2).
  assert (X02 : ext s s2) by exts. assert (W2 : wf s2) by (eapply ext_wf; [exact X02|lia|done]).
  assert (Hf2 : fresh s2 (nx s)) by (eapply fresh_next; [done|exact X02|lia]).
  assert (Ht2 : fresh s2 t) by (eapply fresh_ext; [exact X02|lia|done]).
  apply SM_bind_inv in E as ([] & s3 & E3 & E). apply bind_local_inv in E3 as (sc & rest & Es & E3).
  pose proof (bind_wf name (nx s) s2 sc rest W2 Hf2 Es) as W3. rewrite <- E3 in W3.
  assert (Ht3 : fresh s3 t).
  { destruct Ht2 as (G1 & G2 & G3). rewrite E3. split; [done|]. split; [|done]. cbn. intros [->|Hb]%bound_bind; [destruct Ht; lia|by rewrite Es in G2]. }
  destruct (IH (i + 1) s3 s' W3 Ht3 ltac:(lia) ltac:(lia) E) as (X4 & W' & El & Sim).
  assert (X3 : sext s s3).
  { destruct X02 as [V1 V2 V3 V4 V5 V6 V7]. rewrite E3. split; try done; [cbn; lia| |by apply loops_ext_refl].
    eapply bind_scopes_ext; [by rewrite <- V4|done|done]. }
  assert (L3 : ln s3 = ln s + 1) by (rewrite E3; cbn; rewrite C2, C1, zlen_app; done).
  split; [by eapply sext_trans|]. split; [done|]. split; [rewrite El, E3; apply X02|].
  intros regs scopes pipes ti tv elems vs Hw Hfr Hv Hvs Hlen. destruct vs as [|v vs]; [done|].
  assert (Hget : get_z elems i = Some v).
  { unfold get_z. destruct (Z.ltb_spec i 0); [lia|]. rewrite <- (Nat.add_0_r (Z.to_nat i)), <- lookup_drop, Hvs. done. }
  assert (Hvc : contains_pending v = false) by (destruct Hv; by eapply get_concrete).
  assert (Hreg : 0 <= nx s < zlen regs).
  { destruct Hfr as [-> _]. destruct Hw as [Hx _]. pose proof (sx_max _ _ X4). assert (mx s3 = mx s1) by (rewrite E3; cbn; lia). lia. }
  assert (Hinstr : get_z (code f) (ln s) = Some (TupleGet (nx s) t i)).
  { destruct Hw as (_ & Hc & _). rewrite Hc by (pose proof (sext_ln _ _ X4); lia).
    eapply get_z_prefix; [apply X4|]. rewrite E3. cbn. rewrite C2, C1. unfold as_u16. rewrite Z.mod_small by lia. apply get_z_last. }
  assert (F2 : frame_at s2 (set_z regs (nx s) v) scopes pipes).
  { apply (frame_ext s s2); [done|]. apply (frame_ext s s1); [done|]. eapply frame_set; [eapply ext_wf; [exact X1|lia|done]|done|].
    by apply (frame_ext s s1). }
  destruct (frame_bind s2 (set_z regs (nx s) v) scopes pipes name (nx s) v sc rest Es F2) as (sv & srest & -> & F3).
  { split; [by apply get_z_set_eq|done]. }
  rewrite <- E3 in F3.
  destruct (Sim (set_z regs (nx s) v) (<[name := v]> sv :: srest) pipes ti tv elems vs) as (regs' & sc' & Hb & R & F' & K).
  { eapply within_sub; [exact Hw|by apply sext_ln| | |]; try done. }
  { done. } { eapply holds_eq; [|exact Hv]. apply get_z_set_ne; [lia|]. destruct Ht; lia. }
  { replace (Z.to_nat (i + 1)) with (Z.to_nat i + 1)%nat by lia. by rewrite <- drop_drop, Hvs. }
  { by injection Hlen. }
  exists regs', sc'. split; [cbn [bind_each]; by rewrite (SM_bind_ok _ _ (mkISt ti (sv :: srest) pipes) tt (mkISt ti (<[name := v]> sv :: srest) pipes) eq_refl)|].
  split; [eapply reach_trans; [|exact R]; rewrite L3; eapply reach_tuple_get; done|]. split; [done|].
  intros q Hq Hb' _. rewrite K; [apply get_z_set_ne; lia| | |done].
  - rewrite E3. cbn. lia.
  - rewrite E3. cbn. intros [->|Hb'']%bound_bind; [lia|]. rewrite <- Es in Hb''. destruct X02 as [_ _ _ V4 _ _ _]. by rewrite V4 in Hb''.
Qed.
Lemma let_tuple_runs part ev names span ret loop : small names = true → into_sim part ev →
  runs false ret loop None (r ← alloc; _ ← part r; bind_tuple r names 0) (v ← ev; exec_let_tuple names v span).
Proof.
  intros Hsm Hp s s' W _ E. apply SM_bind_inv in E as (r & s1 & Ea & E). apply SM_bind_inv in E as ([] & s2 & E1 & E).
  destruct (alloc_part part ev s r s1 s2 Hp W Ea E1) as (-> & X2 & N2 & Sim2). pose proof (wf_regs _ W). pose proof (wf_some _ W).
  assert (W2 : wf s2) by (eapply ext_wf; [exact X2|lia|done]). pose proof (fresh_next s s2 W X2 ltac:(lia)) as Hf2.
  apply Z.ltb_lt in Hsm. destruct (bind_tuple_sim (nx s) names 0 s2 s' W2 Hf2 ltac:(done) ltac:(lia) E) as (X3 & W' & El & Sim3).
  assert (X02 : sext s s2) by (apply ext_sext; [done|lia|done]). assert (Els : co_loop_stack s' = co_loop_stack s) by (rewrite El; apply X2).
  split; [by eapply sext_trans|]. split; [done|]. split; [done|]. split; [done|].
  intros B C regs scopes pipes ti tv flow st' Hl Hfr Ht Hev. apply SM_bind_inv in Hev as (v & st & Hev & Hk).
  assert (Hw : within s s') by by eapply linked_same.
  destruct (Sim2 regs scopes pipes ti tv v st) as (regs2 & sc2 & -> & R2 & F2 & V2 & P2); try done.
  { eapply within_sub; [exact Hw|lia|apply X3..]. }
  unfold exec_let_tuple in Hk. destruct v; try done. case_bool_decide as Hlen; [|done].
  destruct (Sim3 regs2 sc2 pipes ti tv elems elems) as (regs3 & sc3 & Hb & R3 & F3 & K3); try done.
  { eapply within_sub; [exact Hw|by apply sext_ln|done|done|lia]. } { by apply (frame_ext s s2). }
  rewrite (SM_bind_ok _ _ _ _ _ Hb) in Hk. injection Hk as <- <-. exists regs3, sc3. split; [done|].
  split; [by eapply reach_trans|]. split; [done|]. split; [|done].
  intros q Hq Hb' _. rewrite K3; [apply P2; [done..|lia]|lia| |done]. by rewrite (ext_scopes _ _ X2).
Qed.

(** *** Assignments to locals *)
Lemma agree_replace regs scopes cs name r v : agree regs scopes cs → find_local cs name = Some r → distinct cs →
  0 <= r < zlen regs → contains_pending v = false →
  ∃ scopes', replace_value scopes name v = Some scopes' ∧ agree (set_z regs r v) scopes' cs.
Proof.
  intros Ha Hf2 Hd Hr Hv. induction Ha as [|sv sc scopes cs Hs Ha IH]; [done|]. cbn [find_local] in Hf2. cbn [replace_value].
  assert (Hother : ∀ j scj n q, cs !! j = Some scj → scj !! n = Some q → bound [sc] r → q ≠ r).
  { intros j scj n q Hj Hn ([|?] & sc' & n' & Hi & Hn') ->; [|done]. injection Hi as <-.
    destruct (Hd O (S j) sc scj n' n r eq_refl Hj Hn' Hn) as [? _]. done. }
  pose proof (Hs name) as Hsn. destruct (sc !! name) as [r'|] eqn:Esc.
  - injection Hf2 as ->. destruct Hsn as (w & -> & Hw). eexists. split; [done|].
    assert (Hb : bound [sc] r) by by exists O, sc, name. constructor.
    + intros n. destruct (decide (n = name)) as [->|Hne].
      * rewrite Esc, lookup_insert_eq. exists v. split; [done|]. split; [by apply get_z_set_eq|done].
      * rewrite lookup_insert_ne by done. specialize (Hs n). destruct (sc !! n) as [q|] eqn:En; [|done].
        destruct Hs as (u & Hu & Hq). exists u. split; [done|]. eapply holds_eq; [|exact Hq]. apply get_z_set_ne; [lia|].
        intros <-. destruct (Hd O O sc sc n name r eq_refl eq_refl En Esc) as [_ ?]. done.
    + eapply agree_keep; [|exact Ha]. intros q (j & scj & n & Hj & Hn). apply get_z_set_ne; [lia|]. intros <-. by eapply Hother.
  - rewrite Hsn. destruct IH as (scopes' & Er & Ha'); [done|by intros i j ? ? ? ? ? Hi Hj ? ?; destruct (Hd (S i) (S j) _ _ _ _ _ Hi Hj ltac:(eassumption) ltac:(eassumption)) as [[= ->] ->]|].
    rewrite Er. cbn. eexists. split; [done|]. constructor; [|done]. intros n. specialize (Hs n).
    destruct (sc !! n) as [q|] eqn:En; [|done]. destruct Hs as (u & Hu & Hq). exists u. split; [done|].
    eapply holds_eq; [|exact Hq]. apply get_z_set_ne; [lia|]. intros <-.
    pose proof (agree_find regs scopes cs name Ha) as Hfind. rewrite Hf2 in Hfind. destruct Hfind as [(j & scj & n' & Hj & Hn') _].
    eapply (Hother j scj n' r); [done|done|by exists O, sc, n|done].
Qed.
Lemma assign_runs part ev name span ret loop : local_name m name = true → into_sim part ev →
  runs true ret loop None (r ← alloc; _ ← part r; _ ← assign_ident cenv name span r; free r)
    (v ← ev; _ ← assign_name env name v; mret unit_flow).
Proof.
  intros Hname Hp s s' W _ E. destruct (Hloc name Hname) as (Hs & _).
  apply SM_bind_inv in E as (r & s1 & Ea & E). apply SM_bind_inv in E as ([] & s2 & E1 & E).
  destruct (alloc_part part ev s r s1 s2 Hp W Ea E1) as (-> & X2 & N2 & Sim2). pose proof (wf_regs _ W) as Wr. pose proof (wf_some _ W) as Wn.
  apply SM_bind_inv in E as ([] & s3 & E3 & E). unfold assign_ident, lookup_local in E3. apply SM_bind_inv in E3 as (local & ? & [= <- <-] & E3).
  rewrite (ext_scopes _ _ X2) in E3. destruct (find_local (co_scopes s) name) as [lr|] eqn:El; [|by rewrite Hs in E3].
  assert (Hlr : bound (co_scopes s) lr).
  { clear -El. induction (co_scopes s) as [|sc cs IH]; [done|]. cbn [find_local] in El. destruct (sc !! name) as [q|] eqn:Eq.
    - injection El as ->. by exists O, sc, name.
    - destruct (IH El) as (i & scj & n & Hi & Hn). by exists (S i), scj, n. }
  pose proof (wf_bound _ W _ Hlr) as Hlr'. destruct (Z.eqb_spec (nx s) lr) as [|_]; [lia|].
  apply emit_facts in E3 as (X3 & N3 & M3 & C3 & K3). apply free_facts in E as (X4 & N4 & M4 & C4 & K4). assert (X : ext s s') by exts.
  split; [apply ext_sext; [done|lia|done]|]. split; [eapply ext_wf; [exact X|lia|done]|]. split; [intros _; apply X|]. split; [intros _; apply X|].
  intros B C regs scopes pipes ti tv flow st' Hl Hfr Ht Hev. apply SM_bind_inv in Hev as (v & st & Hev & Hk).
  assert (Hw : within s s') by by eapply linked_ext.
  destruct (Sim2 regs scopes pipes ti tv v st) as (regs2 & sc2 & -> & R2 & (Fl & Fa & Fp) & V2 & P2); try done.
  { eapply within_ext; [exact Hw|exts|exts]. }
  assert (Hreg : 0 <= lr < zlen regs2) by (destruct Hw as [Hx _]; pose proof (ext_max _ _ X); lia).
  destruct (agree_replace regs2 sc2 (co_scopes s) name lr v Fa El (wf_distinct _ W) Hreg (proj2 V2)) as (sc3 & Er & Fa3).
  unfold assign_name, get_scopes in Hk. apply SM_bind_inv in Hk as ([] & st & Hk & [= <- <-]).
  apply SM_bind_inv in Hk as (scs & ? & [= <- <-] & Hk). cbn [is_scopes] in Hk. rewrite Er in Hk. injection Hk as <-.
  exists (set_z regs2 lr v), sc3. split; [done|]. split.
  - eapply reach_trans; [exact R2|]. replace (ln s') with (ln s2 + 1) by (rewrite C4, C3, zlen_app; done).
    eapply reach_move; [done|done| |apply V2|done]. by eapply within_emit; [exact Hw|exts|exact C3|exts].
  - split; [|split; [|done]].
    + apply (frame_ext s s'); [done|]. split; [by rewrite zlen_set|]. split; [done|].
      eapply pipes_keep; [|exact Fp]. pose proof (wf_pipes _ W) as Wp. eapply Forall_impl; [exact Wp|].
      intros q [_ Hq]. apply get_z_set_ne; [lia|]. by intros <-.
    + intros q Hq Hb _. rewrite get_z_set_ne by (lia || by intros <-). apply P2; [done..|lia].
Qed.

(** *** Jumps out of loops *)
Lemma jump_runs is_break ret : runs true ret true None (pos ← emit_at (Jump 0); add_jump is_break pos)
  (mret (if is_break then Fl_Break else Fl_Continue)).
Proof.
  intros s s' W _ E. pose proof (wf_regs _ W) as Wr. pose proof (wf_some _ W) as Wn.
  apply SM_bind_inv in E as (p & s1 & E1 & E). apply emit_at_facts in E1 as (-> & X1 & N1 & M1 & C1 & K1 & L1).
  assert (W1 : wf s1) by (eapply ext_wf; [exact X1|lia|done]).
  unfold add_jump in E. destruct (co_loop_stack s1) as [|fr rest] eqn:Els; [done|]. injection E as E.
  set (fr' := if is_break then mkFrame (break_jumps fr ++ [ln s]) (continue_jumps fr)
    else mkFrame (break_jumps fr) (continue_jumps fr ++ [ln s])) in E.
  assert (Ef : break_jumps fr' = break_jumps fr ++ (if is_break then [ln s] else []) ∧
    continue_jumps fr' = continue_jumps fr ++ (if is_break then [] else [ln s])) by (destruct is_break; by rewrite app_nil_r).
  destruct Ef as [Eb Ec]. assert (Els' : co_loop_stack s' = fr' :: rest) by by rewrite <- E.
  assert (Hj : is_jump (co_code s') (ln s)) by (rewrite <- E; exists 0; cbn; rewrite C1; apply get_z_last).
  assert (X : sext s s').
  { destruct X1 as [V1 V2 V3 V4 V5 V6 V7]. rewrite <- E. split; try done; [cbn; lia|by apply scopes_ext_refl|].
    unfold loops_ext. cbn. rewrite <- V6, Els. split; [done|]. exists (if is_break then [ln s] else []), (if is_break then [] else [ln s]).
    split; [done|]. split; [done|]. destruct is_break; cbn; rewrite ?app_nil_r; constructor; try done; lia. }
  assert (Hfr' : frame_jumps (co_code s') fr').
  { pose proof (wf_loops _ W1) as Wl. rewrite Els in Wl. inversion_clear Wl as [|? ? [Fb Fc] _]. unfold frame_jumps. rewrite Eb, Ec, !Forall_app.
    rewrite <- E in *. cbn in *. destruct is_break; by repeat split; try constructor. }
  split; [done|]. split.
  { pose proof (wf_loops _ W1) as Wl. rewrite Els in Wl. inversion_clear Wl as [|? ? _ Wl']. rewrite <- E in *. destruct W1 as [V1 V2 V3 V4 V5 V6 V7].
    split; cbn; try done. by constructor. }
  split; [intros _; rewrite <- E; apply X1|]. split; [done|].
  intros B C regs scopes pipes ti tv flow st' Hl Hfr Ht [= <- <-].
  assert (Hnb : ln s ∉ break_jumps fr).
  { intros Hin. assert (Hp : pending s (ln s)); [|apply pending_below in Hp; [lia|done]]. unfold pending.
    destruct X1 as [_ _ _ _ _ V6 _]. rewrite <- V6, Els. by left. }
  assert (L' : ln s' = ln s + 1) by by rewrite <- E.
  assert (Hi : get_z (code f) (ln s) = Some (Jump ((if is_break then B else C) - ln s - 1))).
  { destruct Hl as (_ & _ & Hl). rewrite (Hl (ln s) (Jump 0)); [|lia|rewrite <- E; cbn; rewrite C1; apply get_z_last].
    unfold link. rewrite Els', Eb, Ec. destruct is_break.
    - rewrite bool_decide_true; [done|]. rewrite elem_of_app, list_elem_of_singleton. by right.
    - rewrite app_nil_r, bool_decide_false by done. rewrite bool_decide_true; [done|]. rewrite elem_of_app, list_elem_of_singleton. by right. }
  assert (J : jumped true s None regs ti tv pipes (mkISt ti scopes pipes) (if is_break then B else C)).
  { exists regs, scopes. split; [done|]. split.
    - replace (if is_break then B else C) with (ln s + 1 + ((if is_break then B else C) - ln s - 1)) by lia. by eapply reach_jump.
    - destruct Hfr as (Fl & Fa & Fp). by split. }
  destruct is_break; by split.
Qed.
Lemma break_runs span ret : runs true ret true None (compile_break span) (mret Fl_Break).
Proof.
  intros s s' W Ho E. unfold compile_break in E. apply SM_bind_inv in E as (loops & ? & [= <- <-] & E).
  apply (jump_runs true ret s s' W Ho). by destruct (co_loop_stack s).
Qed.
Lemma continue_runs span ret : runs true ret true None (compile_continue span) (mret Fl_Continue).
Proof.
  intros s s' W Ho E. unfold compile_continue in E. apply SM_bind_inv in E as (loops & ? & [= <- <-] & E).
  apply SM_bind_inv in E as (depth & ? & [= <- <-] & E). apply SM_bind_inv in E as (base & ? & [= <- <-] & E).
  rewrite (wf_depth _ W) in E. cbn [andb Z.ltb Z.compare] in E.
  apply (jump_runs false ret s s' W Ho). by destruct (co_loop_stack s).
Qed.
(** *** Loops *)
Lemma recoded_trans s1 s2 s3 : recoded s1 s2 → recoded s2 s3 → recoded s1 s3.
Proof. intros [] []. split; try congruence. auto. Qed.
Lemma recoded_refl s : recoded s s.
Proof. by split. Qed.
Lemma patch_jumps_facts ps t : ∀ s s', Forall (λ p, 0 <= p) ps → patch_jumps ps t s = (Ok tt, s') → recoded s s' ∧
  (∀ l, l `prefix_of` co_code s → Forall (λ p, zlen l <= p) ps → l `prefix_of` co_code s') ∧
  ∀ i, get_z (co_code s') i =
    if bool_decide (i ∈ ps) then set_offset (t - i - 1) <$> get_z (co_code s) i else get_z (co_code s) i.
Proof.
  induction ps as [|p ps IH]; intros s s' Hps E; cbn [patch_jumps] in E.
  { injection E as <-. split; [apply recoded_refl|]. split; [done|]. intros i. by rewrite bool_decide_false by apply not_elem_of_nil. }
  inversion_clear Hps as [|? ? Hp Hps']. apply SM_bind_inv in E as ([] & s1 & E1 & E).
  apply patch_facts in E1 as (R1 & P1 & G1); [|done]. destruct (IH s1 s' Hps' E) as (R2 & P2 & G2).
  split; [by eapply recoded_trans|]. split.
  - intros l Hl Hf2. inversion_clear Hf2. apply P2; [by apply P1|done].
  - intros i. rewrite G2, G1. destruct (Z.eqb_spec i p) as [->|Hne].
    + rewrite (bool_decide_true (p ∈ p :: ps)) by left. case_bool_decide; [|done].
      destruct (get_z (co_code s) p) as [[]|]; done.
    + rewrite (bool_decide_ext (i ∈ p :: ps) (i ∈ ps)); [done|]. rewrite elem_of_cons. split; [by intros [|]|by right].
Qed.
Lemma pos_jumps c ps : Forall (is_jump c) ps → Forall (λ p, 0 <= p) ps.
Proof. intros Hps. eapply Forall_impl; [exact Hps|]. intros p [off E]. by apply get_z_bound in E as []. Qed.

(** The loop: the code of the condition, a jump out, the body and the jump back. *)
Section while.
Context (evc : IM Value) (body : IM Flow) (ret : bool) (span : Span).
Context (s s2 s5 s6 s9 : Comp) (ti tv : Tx) (pipes : list Value).
Context (Hstart : ln s5 = ln s2 + 1) (Hscopes5 : co_scopes s5 = co_scopes s) (Hpipes5 : co_pipe_stack s5 = co_pipe_stack s) (Hnext5 : nx s <= nx s5).
Context (Hscopes6 : co_scopes s6 = co_scopes s5).
Context (Hw : wf s).
Context (Hcond : ∀ regs scopes a st', frame_at s regs scopes pipes → evc (mkISt ti scopes pipes) = (Ok a, st') →
  ∃ regs' scopes', st' = mkISt ti scopes' pipes ∧ reach (regs, ln s, tv) (regs', ln s2, tv) ∧
    frame_at s regs' scopes' pipes ∧ holds regs' (nx s) a ∧ keeps s (nx s) regs regs').
Context (Hjif : get_z (code f) (ln s2) = Some (JumpIfFalse (nx s) (ln s9 - ln s2 - 1))).
Context (Hbody : ∀ regs scopes flow st', frame_at s5 regs scopes pipes → body (mkISt ti scopes pipes) = (Ok flow, st') →
  ran true ret true (ln s9) (ln s) s5 s6 None regs ti tv pipes flow st').
Context (Hback : get_z (code f) (ln s6) = Some (Jump (ln s - ln s6 - 1))).
Context (Hscopes9 : co_scopes s9 = co_scopes s) (Hpipes9 : co_pipe_stack s9 = co_pipe_stack s).
Lemma while_rounds n : ∀ regs scopes flow st', frame_at s regs scopes pipes →
  while_loop n evc body span (mkISt ti scopes pipes) = (Ok flow, st') →
  ran true ret false 0 0 s s9 None regs ti tv pipes flow st'.
Proof.
  assert (Hf5 : ∀ regs scopes, frame_at s regs scopes pipes → frame_at s5 regs scopes pipes).
  { intros regs scopes. unfold frame_at. by rewrite Hscopes5, Hpipes5. }
  induction n as [|n IH]; intros regs scopes flow st' Hfr Hev; [done|]. cbn [while_loop] in Hev.
  apply SM_bind_inv in Hev as (c & st & Hev & Hk).
  destruct (Hcond regs scopes c st Hfr Hev) as (regs2 & sc2 & -> & R2 & F2 & V2 & P2).
  assert (K2 : keepo s None regs regs2) by (eapply keeps_temp_opt; [|exact P2]; lia).
  destruct c; try done.
  pose proof (reach_branch tree_fuel host modules mi fi bm f Hm Hf regs2 (ln s2) tv (nx s) _ b Hjif V2) as RJ. destruct b.
  - rewrite <- Hstart in RJ. apply SM_bind_inv in Hk as (flow1 & st1 & Hb & Hk).
    specialize (Hbody regs2 sc2 flow1 st1 (Hf5 _ _ F2) Hb).
    (* the next round, from the head of the loop *)
    assert (Hnext : ∀ regs3 sc3, st1 = mkISt ti sc3 pipes → reach (regs2, ln s5, tv) (regs3, ln s, tv) →
      zlen regs3 = n_regs f → agree regs3 sc3 (co_scopes s) → keepo s5 None regs2 regs3 →
      while_loop n evc body span st1 = (Ok flow, st') → ran true ret false 0 0 s s9 None regs ti tv pipes flow st').
    { intros regs3 sc3 -> R3 Fl Fa K3 Hk'. assert (K23 : keepo s None regs regs3).
      { intros q Hq Hb' _. rewrite K3; [by apply K2|lia|by rewrite Hscopes5|done]. }
      assert (F3 : frame_at s regs3 sc3 pipes).
      { split; [done|]. split; [done|]. destruct Hfr as (_ & _ & Fp). eapply pipes_keep; [|exact Fp].
        pose proof (wf_pipes _ Hw) as Wp. eapply Forall_impl; [exact Wp|]. intros q [Hq Hb']. by apply K23. }
      eapply (ran_after true ret false 0 0 s s s9); [|exact K23|done|lia|by eapply IH].
      eapply reach_trans; [exact R2|]. by eapply reach_trans. }
    destruct flow1 as [v|v| |]; cbn [ran] in Hbody.
    + destruct Hbody as (regs3 & sc3 & Est & R3 & (Fl & Fa & Fp) & K3 & _). rewrite Hscopes6, Hscopes5 in Fa.
      eapply (Hnext regs3 sc3); try done. eapply reach_trans; [exact R3|]. replace (ln s) with (ln s6 + 1 + (ln s - ln s6 - 1)) by lia.
      by eapply reach_jump.
    + injection Hk as <- <-. destruct Hbody as (Hret & Hv & En & Hst). split; [done|]. split; [done|]. split; [|done].
      eapply reach_ends; [|exact En]. by eapply reach_trans.
    + injection Hk as <- <-. destruct Hbody as (_ & regs3 & sc3 & -> & R3 & Fl & Fa & K3). unfold left_scopes in Fa. rewrite Hscopes5 in Fa.
      exists regs3, sc3. split; [done|]. assert (K23 : keepo s None regs regs3).
      { intros q Hq Hb' _. rewrite K3; [by apply K2|lia|by rewrite Hscopes5|done]. }
      split; [eapply reach_trans; [exact R2|]; by eapply reach_trans|]. split; [|done].
      split; [done|]. rewrite Hscopes9, Hpipes9. split; [done|]. destruct Hfr as (_ & _ & Fp). eapply pipes_keep; [|exact Fp].
      pose proof (wf_pipes _ Hw) as Wp. eapply Forall_impl; [exact Wp|]. intros q [Hq Hb']. by apply K23.
    + destruct Hbody as (_ & regs3 & sc3 & Est & R3 & Fl & Fa & K3). unfold left_scopes in Fa. rewrite Hscopes5 in Fa.
      by eapply (Hnext regs3 sc3).
  - injection Hk as <- <-. exists regs2, sc2. split; [done|]. split.
    { eapply reach_trans; [exact R2|]. replace (ln s9) with (ln s2 + 1 + (ln s9 - ln s2 - 1)) by lia. done. }
    split; [|done]. unfold frame_at in *. by rewrite Hscopes9, Hpipes9.
Qed.
End while.
(** The jumps of the body in the patched code. *)
Lemma link_patched B C s fr rest i instr : co_loop_stack s = fr :: rest → (pending s i → is_jump (co_code s) i) →
  get_z (co_code s) i = Some instr →
  link B C s i instr = (if bool_decide (i ∈ break_jumps fr) then set_offset (B - i - 1) else λ x, x)
    ((if bool_decide (i ∈ continue_jumps fr) then set_offset (C - i - 1) else λ x, x) instr).
Proof.
  intros Es Hj Hi. unfold link, pending in *. rewrite Es in *.
  do 2 case_bool_decide; try done; (destruct Hj as [off Hj]; [by auto|]); rewrite Hj in Hi; by injection Hi as <-.
Qed.
Lemma while_runs cond evc body xbody n span ret loop : into_sim cond evc → runs true ret true None body xbody →
  runs true ret loop None (compile_while cond body) (while_loop n evc xbody span).
Proof.
  intros Hc Hb. apply (runs_weaken true ret false); [|done|done]. intros s s11 W _ E. unfold compile_while in E.
  apply SM_bind_inv in E as (start & ? & [= <- <-] & E). apply SM_bind_inv in E as (r & s1 & Ea & E). apply SM_bind_inv in E as ([] & s2 & E1 & E).
  destruct (alloc_part cond evc s r s1 s2 Hc W Ea E1) as (-> & X2 & N2 & Sim2). pose proof (wf_regs _ W) as Wr. pose proof (wf_some _ W) as Wn.
  apply SM_bind_inv in E as (p & s3 & E3 & E). apply emit_at_facts in E3 as (-> & X3 & N3 & M3 & C3 & K3 & L3).
  apply SM_bind_inv in E as ([] & s4 & E4 & E). apply free_facts in E4 as (X4 & N4 & M4 & C4 & K4).
  assert (X04 : ext s s4) by exts. assert (W4 : wf s4) by (eapply ext_wf; [exact X04|lia|done]).
  apply SM_bind_inv in E as (frame & s7 & E7 & E). unfold in_loop in E7. apply SM_bind_inv in E7 as ([] & s5 & [= E5] & E7).
  assert (Same5 : co_code s5 = co_code s4 ∧ co_consts s5 = co_consts s4 ∧ nx s5 = nx s4 ∧ mx s5 = mx s4 ∧ co_scopes s5 = co_scopes s4 ∧
    co_pipe_stack s5 = co_pipe_stack s4 ∧ co_loop_stack s5 = mkFrame [] [] :: co_loop_stack s4 ∧
    co_parallel_for_depth s5 = co_parallel_for_depth s4) by by rewrite <- E5.
  destruct Same5 as (A1 & A2 & A3 & A4 & A5 & A6 & A7 & A8).
  assert (W5 : wf s5).
  { destruct W4 as [V1 V2 V3 V4 V5 V6 V7]. split; rewrite ?A1, ?A3, ?A4, ?A5, ?A6, ?A7, ?A8; try done. constructor; [|done]. by split; constructor. }
  apply SM_bind_inv in E7 as ([] & s6 & E6 & E7). destruct (Hb s5 s6 W5 I E6) as (X6 & W6 & S6 & _ & Sim6). specialize (S6 eq_refl).
  pose proof (sx_loops _ _ X6) as Jl. unfold loops_ext in Jl. rewrite A7 in Jl. unfold pop_loop in E7.
  destruct (co_loop_stack s6) as [|fr rest] eqn:Els6; [done|]. injection E7 as <- E7. destruct Jl as [-> (bs & cs & Eb & Ec & Hbc)].
  cbn [break_jumps continue_jumps app] in Eb, Ec.
  assert (Same7 : co_code s7 = co_code s6 ∧ co_consts s7 = co_consts s6 ∧ nx s7 = nx s6 ∧ mx s7 = mx s6 ∧ co_scopes s7 = co_scopes s6 ∧
    co_pipe_stack s7 = co_pipe_stack s6 ∧ co_loop_stack s7 = co_loop_stack s4 ∧
    co_parallel_for_depth s7 = co_parallel_for_depth s6) by by rewrite <- E7.
  destruct Same7 as (B1 & B2 & B3 & B4 & B5 & B6 & B7 & B8).
  apply SM_bind_inv in E as ([] & s8 & E8 & E). unfold jump_back in E8. apply SM_bind_inv in E8 as (? & ? & [= <- <-] & E8).
  apply emit_facts in E8 as (X8 & N8 & M8 & C8 & K8).
  pose proof (wf_loops _ W6) as Wl6. rewrite Els6 in Wl6. inversion_clear Wl6 as [|? ? [Fb Fc] Wl6'].
  rewrite Eb, Ec in *. rewrite Forall_app in Hbc. destruct Hbc as [Rb Rc].
  apply SM_bind_inv in E as ([] & s9 & E9 & E). apply patch_jumps_facts in E9 as (R9 & P9 & G9); [|by eapply pos_jumps].
  apply SM_bind_inv in E as (epos & ? & [= <- <-] & E). apply SM_bind_inv in E as ([] & s10 & E10 & E).
  apply patch_facts in E10 as (R10 & P10 & G10); [|apply zlen_nonneg].
  apply patch_jumps_facts in E as (R11 & P11 & G11); [|by eapply pos_jumps].
  pose proof (recoded_trans _ _ _ (recoded_trans _ _ _ R9 R10) R11) as R.
  (* positions *)
  pose proof (zlen_nonneg (co_code s)) as H00. pose proof (ext_ln _ _ X2) as H02. pose proof (sext_ln _ _ X6) as H56.
  assert (L4 : ln s4 = ln s2 + 1) by (rewrite C4; lia). assert (L5 : ln s5 = ln s2 + 1) by by rewrite A1.
  assert (L8 : ln s8 = ln s6 + 1) by (rewrite C8, B1, zlen_app; done). pose proof (rc_ln _ _ R) as L11. pose proof (rc_ln _ _ R9) as L9.
  assert (Code : ∀ i, get_z (co_code s11) i =
    if i =? ln s2 then set_offset (ln s11 - i - 1) <$> get_z (co_code s8) i
    else if bool_decide (i ∈ bs) then set_offset (ln s11 - i - 1) <$> (if bool_decide (i ∈ cs) then set_offset (ln s - i - 1) <$> get_z (co_code s8) i else get_z (co_code s8) i)
    else if bool_decide (i ∈ cs) then set_offset (ln s - i - 1) <$> get_z (co_code s8) i else get_z (co_code s8) i).
  { intros i. rewrite G11, G10, G9, L9, <- L11. destruct (Z.eqb_spec i (ln s2)) as [->|Hne]; [|done].
    rewrite Forall_forall in Rb, Rc. rewrite (bool_decide_false (ln s2 ∈ bs)) by (intros Hin; specialize (Rb _ Hin); lia).
    by rewrite (bool_decide_false (ln s2 ∈ cs)) by (intros Hin; specialize (Rc _ Hin); lia). }
  assert (Es11 : co_scopes s11 = co_scopes s) by (rewrite (rc_scopes _ _ R), (ext_scopes _ _ X8), B5, S6, A5; apply X04).
  assert (Ep11 : co_pipe_stack s11 = co_pipe_stack s) by (rewrite (rc_pipes _ _ R), (ext_pipes _ _ X8), B6, (sx_pipes _ _ X6), A6; apply X04).
  assert (El11 : co_loop_stack s11 = co_loop_stack s) by (rewrite (rc_loops _ _ R), (ext_loops _ _ X8), B7; apply X04).
  assert (Ed11 : co_parallel_for_depth s11 = co_parallel_for_depth s) by (rewrite (rc_depth _ _ R), (ext_depth _ _ X8), B8, (sx_depth _ _ X6), A8; apply X04).
  pose proof (sx_max _ _ X6) as M6. pose proof (sx_next _ _ X6) as N6. pose proof (ext_max _ _ X2) as M2. pose proof (rc_max _ _ R) as M11. pose proof (rc_next _ _ R) as N11.
  assert (Kc : co_consts s6 `prefix_of` co_consts s11) by (rewrite (rc_consts _ _ R), <- B2; apply X8).
  assert (Kc2 : co_consts s2 `prefix_of` co_consts s6) by (etrans; [|apply X6]; rewrite A2, K4, K3; done).
  assert (Hpre : ∀ l, l `prefix_of` co_code s2 → l `prefix_of` co_code s11).
  { intros l Hl. pose proof (prefix_zlen _ _ Hl) as Hll. apply P11.
    - apply P10; [|done]. apply P9; [|eapply Forall_impl; [exact Rc|]; cbn; lia]. etrans; [|apply X8]. rewrite B1. etrans; [|apply X6].
      rewrite A1, C4, C3. by apply prefix_app_r.
    - eapply Forall_impl; [exact Rb|]. cbn; lia. }
  assert (X : sext s s11).
  { split; try done; try lia.
    - apply Hpre, X2.
    - etrans; [apply X2|]. by etrans.
    - by apply scopes_ext_refl.
    - by apply loops_ext_refl. }
  assert (W11 : wf s11).
  { eapply recoded_wf; [exact R|]. assert (W7 : wf s7).
    { destruct W6 as [V1 V2 V3 V4 V5 V6 V7]. split; rewrite ?B1, ?B3, ?B4, ?B5, ?B6, ?B7, ?B8; done. }
    eapply ext_wf; [exact X8|pose proof (wf_regs _ W6); lia|done]. }
  split; [done|]. split; [done|]. split; [done|]. split; [done|].
  intros B C regs scopes pipes ti tv flow st' Hl Hfr Ht Hev.
  assert (Hw : within s s11) by by eapply linked_same.
  eapply (while_rounds evc xbody ret span s s2 s5 s6 s11 ti tv pipes) in Hev; try done.
  - destruct flow; cbn [ran] in *; try done; by destruct Hev.
  - rewrite A5. apply X04.
  - rewrite A6. apply X04.
  - lia.
  - intros regs' scopes' a st Hfr' Hev'. eapply Sim2; try done.
    eapply within_sub; [exact Hw|lia|by apply Hpre|by etrans|lia].
  - destruct Hw as (_ & Hcode & _). rewrite Hcode, Code, Z.eqb_refl by lia.
    rewrite (prefix_same _ _ _ (ext_code _ _ X8)) by (rewrite B1; lia). rewrite B1, (prefix_same _ _ _ (sx_code _ _ X6)) by lia.
    by rewrite A1, C4, C3, get_z_last.
  - intros regs' scopes' flow' st Hfr' Hev'. eapply Sim6; try done. split; [destruct Hw; lia|]. split; [by etrans; [|apply Hw]|].
    intros i instr Hi Hinstr. destruct Hw as (_ & Hcode & _). rewrite Hcode, Code by lia. destruct (Z.eqb_spec i (ln s2)); [lia|].
    rewrite (prefix_same _ _ _ (ext_code _ _ X8)) by (rewrite B1; lia). rewrite B1, Hinstr.
    rewrite (link_patched _ _ s6 fr (co_loop_stack s4) i instr Els6); [|intros Hp|done].
    + rewrite Eb, Ec. by case_bool_decide; case_bool_decide.
    + unfold pending in Hp. rewrite Els6, Eb, Ec in Hp. clear -Hp Fb Fc. rewrite Forall_forall in Fb, Fc. destruct Hp; auto.
  - destruct Hw as (_ & Hcode & _). rewrite Hcode, Code by lia. destruct (Z.eqb_spec (ln s6) (ln s2)); [lia|].
    rewrite Forall_forall in Rb, Rc. rewrite (bool_decide_false (ln s6 ∈ bs)) by (intros Hin; specialize (Rb _ Hin); lia).
    rewrite (bool_decide_false (ln s6 ∈ cs)) by (intros Hin; specialize (Rc _ Hin); lia). by rewrite C8, <- B1, get_z_last.
Qed.
(** *** Blocks and branches with a value *)
Lemma block_runs ret loop o stmts xs tl xt : runs false ret loop None stmts xs → runs false ret loop o tl xt →
  runs true ret loop o (in_block stmts tl)
    (in_iscope ∅ (flow ← xs; match flow with Fl_Normal _ => xt | other => mret other end)).
Proof.
  intros Hs Ht. eapply runs_ext; [|by intros ??? E; exact E|apply in_block_runs, (seq_runs ret loop o _ _ _ _ Hs Ht)].
  intros s. unfold in_block, mbind, SM_bind. destruct (push_scope s) as [[[]| | |] s1]; try done.
  destruct (next_reg s1) as [[saved| | |] s2]; try done. by destruct (stmts s2) as [[[]| | |] s3].
Qed.
(** Where the code cannot return, its answer is a value. *)
Lemma runs_value o part e1 e2 : runs true false false o part e2 →
  (∀ st v st', e1 st = (Ok v, st') → ∃ flow, e2 st = (Ok flow, st') ∧ (flow = v ∨ ∃ w, flow = Fl_Return w)) →
  runs true false false o part e1.
Proof.
  intros Hr He s s' W Ho E. destruct (Hr s s' W Ho E) as (X & W' & Es & El & Sim). do 4 (split; [done|]).
  intros B C regs scopes pipes ti tv flow st' Hl Hfr Ht Hev. destruct (He _ _ _ Hev) as (flow2 & Hev2 & Hflow).
  specialize (Sim B C regs scopes pipes ti tv flow2 st' Hl Hfr Ht Hev2). destruct Hflow as [<-|[w ->]]; [done|].
  cbn [ran] in Sim. by destruct Sim.
Qed.
Lemma block_sim stmts xs tl evt span : runs false false false None stmts xs → into_sim tl evt →
  into_sim (λ d, in_block stmts (tl d)) (eval_block_of xs (Some evt) span).
Proof.
  intros Hs Ht. apply runs_into. intros d. eapply runs_value.
  { apply block_runs; [exact Hs|apply runs_part, (into_runs _ _ d _ _ Ht)]. }
  intros st v st' Hev. unfold as_flow in Hev. apply SM_bind_inv in Hev as (a & st1 & Hev & [= <- <-]).
  unfold eval_block_of, in_iscope in *. apply SM_bind_inv in Hev as ([] & st2 & E1 & Hev).
  apply SM_bind_inv in Hev as (a' & st3 & Hev & Hpop). apply SM_bind_inv in Hpop as ([] & st4 & E4 & [= -> ->]).
  apply SM_bind_inv in Hev as (flow & st5 & E5 & Hk). rewrite (SM_bind_ok _ _ _ _ _ E1).
  destruct flow as [w|w| |]; try done.
  - exists (Fl_Normal a). split; [|by left].
    assert (Hin : (flow ← xs; match flow with Fl_Normal _ => as_flow evt | other => mret other end) st2 = (Ok (Fl_Normal a), st3)).
    { rewrite (SM_bind_ok _ _ _ _ _ E5). exact (SM_bind_ok _ _ _ _ _ Hk). }
    rewrite (SM_bind_ok _ _ _ _ _ Hin). by rewrite (SM_bind_ok _ _ _ _ _ E4).
  - injection Hk as <- <-. exists (Fl_Return w). split; [|right; by eexists].
    assert (Hin : (flow ← xs; match flow with Fl_Normal _ => as_flow evt | other => mret other end) st2 = (Ok (Fl_Return w), st5)).
    { by rewrite (SM_bind_ok _ _ _ _ _ E5). }
    rewrite (SM_bind_ok _ _ _ _ _ Hin). by rewrite (SM_bind_ok _ _ _ _ _ E4).
Qed.
Lemma if_sim cond evc then_ evT else_ evE : into_sim cond evc → into_sim then_ evT → into_sim else_ evE →
  (∀ st c st1, evc st = (Ok c, st1) → ∃ b, c = VBool b) →
  into_sim (λ d, compile_branches cond (then_ d) (else_ d)) (c ← evc; match c with VBool true => evT | _ => evE end).
Proof.
  intros Hc HT HE Hb. apply runs_into. intros d. eapply (runs_ext _ _ _ _ _ _ _
    (c ← evc; match c with VBool true => as_flow evT | _ => as_flow evE end)); [done| |].
  - intros st flow st' Hev. apply SM_bind_inv in Hev as (a & st1 & Hev & [= <- <-]). apply SM_bind_inv in Hev as (c & st2 & Hev & Hk).
    rewrite (SM_bind_ok _ _ _ _ _ Hev). unfold as_flow. destruct c; try match goal with b : bool |- _ => destruct b end;
      exact (SM_bind_ok _ _ _ _ _ Hk).
  - eapply branches_runs; [exact Hc|by apply into_runs|by apply into_runs| |].
    + intros st c st1 r st' Hev _. by eapply Hb.
    + by intros [] st.
Qed.
(** Code whose evaluation never answers. *)
Lemma never_sim part ev ev' : into_sim part ev' → (∀ st a st', ev st ≠ (Ok a, st')) → into_sim part ev.
Proof. intros Hp Hn. apply into_sim_when. intros s dst s' E. exists part, ev'. split; [done|]. split; [done|]. intros st a st' Hev. by apply Hn in Hev. Qed.
(** ** The tree *)
Abbreviation cx := (compile_expr_into cenv inline).
Abbreviation ev := (eval tree_fuel env go const_value rounds).
Lemma condition_bool e : is_condition e = true → ∀ st c st', ev e st = (Ok c, st') → ∃ b, c = VBool b.
Proof.
  destruct (ast_ind (λ e, is_condition e = true → ∀ st c st', ev e st = (Ok c, st') → ∃ b, c = VBool b)
    (λ _, True) (λ _, True) (λ _, True)) as [He _]; try done; [|by apply He].
  clear e. intros k sp IH _ _ Hc st c st' Hev. destruct k; try done; simpl in Hev.
  - injection Hev as <- _. by eexists.
  - apply SM_bind_inv in Hev as (l & st1 & _ & Hev). apply SM_bind_inv in Hev as (r & st2 & _ & Hev).
    pose proof (eval_binary_alike op l r sp sp) as Hal. injection Hev as Hop _. rewrite Hop in Hal. destruct Hal as (_ & _ & Hb).
    apply Hb. by destruct op.
  - apply SM_bind_inv in Hev as (v & st1 & _ & Hev). pose proof (eval_unary_alike op v sp sp) as Hal. injection Hev as Hop _.
    rewrite Hop in Hal. destruct Hal as (_ & _ & Hb). apply Hb. by destruct op.
  - inversion_clear IH as [|? ? IH1 _]. by eapply IH1.
Qed.
Lemma Forall_core {A} (p : A → bool) (P : A → Prop) l : Forall (λ x, p x = true → P x) l → forallb p l = true → Forall P l.
Proof. induction 1 as [|x l Hx _ IH]; cbn [forallb]; [done|]. intros [Hp Hl]%andb_prop. constructor; auto. Qed.
Lemma forallb_snd {A B} (p : B → bool) (l : list (A * B)) : forallb (λ q, match q with (_, e) => p e end) l = forallb p (snd <$> l).
Proof. induction l as [|[a b] l IH]; [done|]. cbn. by rewrite IH. Qed.

Definition expr_ok (e : Expr) : Prop := core_expr m e = true → into_sim (cx e) (ev e).
Definition block_ok (b : Block) : Prop :=
  (∀ ret loop, core_block m ret loop b = true →
     runs true ret loop None (compile_block cenv inline b) (exec_block tree_fuel env go const_value rounds b)) ∧
  (∀ span, has_tail b && core_block m false false b = true →
     into_sim (compile_block_into cenv inline b) (eval_block tree_fuel env go const_value rounds b span)).
Definition stmt_ok (s : Stmt) : Prop := ∀ ret loop, core_stmt m ret loop s = true →
  runs false ret loop None (compile_stmt cenv inline s) (exec_stmt tree_fuel env go const_value rounds s).
Definition if_ok (i : IfStmt) : Prop :=
  (∀ ret loop, core_if m ret loop i = true →
     runs true ret loop None (compile_if cenv inline i) (exec_if tree_fuel env go const_value rounds i)) ∧
  (core_if_expr m i = true → into_sim (compile_if_into cenv inline i) (eval_if tree_fuel env go const_value rounds i)).

(** The else branch of an expression. *)
Definition compile_else_into (e : ElseBranch) (dst : Z) : CM unit :=
  match e with
  | ElseNone => emit_const dst (CBool false)
  | ElseBlock b => compile_block_into cenv inline b dst
  | ElseIf inner => compile_if_into cenv inline inner dst
  end.
Definition eval_else (e : ElseBranch) (span : Span) : IM Value :=
  match e with
  | ElseNone => rt "if-expression missing else branch" span
  | ElseBlock b => eval_block tree_fuel env go const_value rounds b (bl_span b)
  | ElseIf inner => eval_if tree_fuel env go const_value rounds inner
  end.
Definition core_else_expr (e : ElseBranch) : bool :=
  match e with
  | ElseNone => true
  | ElseBlock b => has_tail b && core_block m false false b
  | ElseIf inner => core_if_expr m inner
  end.
Lemma else_sim e span : Forall block_ok (else_blocks e) → Forall if_ok (else_ifs e) → core_else_expr e = true →
  into_sim (compile_else_into e) (eval_else e span).
Proof.
  intros Hb Hi Hc. destruct e as [|b|i]; cbn in *.
  - eapply never_sim; [apply const_sim|]. by intros ? ? ?.
  - inversion_clear Hb as [|? ? [_ Hb1] _]. by apply Hb1.
  - inversion_clear Hi as [|? ? [_ Hi1] _]. by apply Hi1.
Qed.
Lemma choice_sim c t e span : expr_ok c → block_ok t → Forall block_ok (else_blocks e) → Forall if_ok (else_ifs e) →
  is_condition c && core_expr m c && (has_tail t && core_block m false false t) && core_else_expr e = true →
  into_sim (λ d, compile_branches (cx c) (compile_block_into cenv inline t d) (compile_else_into e d))
    (v ← ev c; match v with VBool true => eval_block tree_fuel env go const_value rounds t (bl_span t) | _ => eval_else e span end).
Proof.
  intros Hc [_ Ht] Hb Hi [[[Hcond Hcc]%andb_prop Htc]%andb_prop He]%andb_prop.
  apply (if_sim (cx c) (ev c)); [by apply Hc|by apply Ht|by apply else_sim|by apply condition_bool].
Qed.
Ltac parts := repeat match goal with
  | Hl : Forall _ (_ :: _) |- _ => apply Forall_cons in Hl as [? Hl]
  end.
Lemma expr_ok_kind k sp : Forall expr_ok (kind_exprs k) → Forall block_ok (kind_blocks k) → Forall if_ok (kind_ifs k) →
  expr_ok (mkExpr k sp).
Proof.
  intros He Hb Hi Hc. destruct k; try done; cbn [kind_exprs kind_blocks kind_ifs] in *; simpl in Hc.
  all: try exact (const_sim _); parts.
  - exact (ident_sim name sp Hc).
  - apply andb_prop in Hc as [Hl Hr]. exact (bin_sim (cx lhs) (ev lhs) (cx rhs) (ev rhs) op sp (ltac:(auto)) (ltac:(auto))).
  - exact (un_sim (cx operand) (ev operand) op sp (ltac:(auto))).
  - destruct module; [done|]. apply andb_prop in Hc as [Hp Hargs].
    exact (call_sim cx ev name args sp Hp (Forall_core _ _ _ He Hargs)).
  - apply andb_prop in Hc as [Ht Hk]. exact (index_sim target key sp (cx target) (cx key) ev Ht (ltac:(auto)) (ltac:(auto))).
  - apply andb_prop in Hc as [Hs Hes]. exact (array_sim cx ev elems Hs (Forall_core _ _ _ He Hes)).
  - match goal with IH : expr_ok inner |- _ => exact (IH Hc) end.
  - rewrite forallb_snd in Hc. exact (struct_sim cx ev name fields sp (Forall_core _ _ _ He Hc)).
  - exact (field_sim target name sp (cx target) (ev target) Hc (ltac:(auto))).
  - apply andb_prop in Hc as [Hh Hs]. exact (pipe_sim (cx head) (ev head) (cx step) (ev step) (ltac:(auto)) (ltac:(auto))).
  - exact (prev_sim sp).
  - apply andb_prop in Hc as [Hs Hes]. exact (tuple_sim cx ev elems Hs (Forall_core _ _ _ He Hes)).
  - apply andb_prop in Hc as [[H1'%Z.leb_le H2'%Z.ltb_lt]%andb_prop Ht].
    exact (tuple_index_sim (cx target) (ev target) index (ex_span target) sp (conj H1' H2') (ltac:(auto))).
  - match goal with IH : block_ok block |- _ => exact (proj2 IH sp Hc) end.
  - match goal with Hc1 : expr_ok cond, Hb1 : block_ok then_ |- _ => exact (choice_sim cond then_ else_branch sp Hc1 Hb1 ltac:(assumption) Hi Hc) end.
Qed.
Lemma block_ok_parts ss t sp : Forall stmt_ok ss → Forall expr_ok (option_list t) → block_ok (mkBlock ss t sp).
Proof.
  intros Hs Ht.
  assert (Hss : ∀ ret loop, forallb (λ s, core_stmt m ret loop s) ss = true →
    runs false ret loop None (compile_stmts (compile_stmt cenv inline) ss) (exec_stmts (exec_stmt tree_fuel env go const_value rounds) ss)).
  { intros ret loop Hc. apply stmts_runs. eapply Forall_core; [|exact Hc]. eapply Forall_impl; [exact Hs|]. intros s Hok. by apply Hok. }
  split.
  - intros ret loop Hc. simpl in Hc. apply andb_prop in Hc as [Hc1 Hc2]. apply (block_runs ret loop None _ _ _ _ (Hss ret loop Hc1)).
    destruct t as [t|]; [|apply skip_runs]. cbn in Ht. parts. apply runs_part. apply (discard_runs (cx t) (ev t) (λ v, v)). by auto.
  - intros span Hc. simpl in Hc. destruct t as [t|]; [|done]. cbn in Ht. parts. apply andb_prop in Hc as [_ [Hc1 Hc2]%andb_prop].
    apply (block_sim _ _ (cx t) (ev t) span (Hss false false Hc1)). by auto.
Qed.
Lemma if_ok_parts c t e sp : expr_ok c → block_ok t → Forall block_ok (else_blocks e) → Forall if_ok (else_ifs e) → if_ok (mkIf c t e sp).
Proof.
  intros Hc Ht Hb Hi. split; [|intros Hcore; exact (choice_sim c t e sp Hc Ht Hb Hi Hcore)].
  intros ret loop Hcore. simpl in Hcore. apply andb_prop in Hcore as [[H1' H2']%andb_prop H3'].
  set (exE := match e with ElseNone => mret unit_flow | ElseBlock b => exec_block tree_fuel env go const_value rounds b
    | ElseIf inner => exec_if tree_fuel env go const_value rounds inner end).
  apply (branches_runs (cx c) (ev c) (compile_block cenv inline t)
    match e with ElseNone => mret tt | ElseBlock b => compile_block cenv inline b | ElseIf inner => compile_if cenv inline inner end
    (exec_block tree_fuel env go const_value rounds t) exE (λ v, branch_on v (exec_block tree_fuel env go const_value rounds t) exE sp)).
  - by apply Hc.
  - by apply Ht.
  - subst exE. destruct e as [|b|i]; cbn in Hb, Hi; parts; [apply skip_runs|..].
    + match goal with IH : block_ok b |- _ => by apply IH end.
    + match goal with IH : if_ok i |- _ => by apply IH end.
  - intros st v st1 r st' _ Hk. destruct v; try done. by eexists.
  - by intros [] st.
Qed.
Lemma stmt_ok_parts s : Forall expr_ok (stmt_exprs s) → Forall block_ok (stmt_blocks s) → Forall stmt_ok (stmt_stmts s) →
  Forall if_ok (stmt_ifs s) → stmt_ok s.
Proof.
  intros He Hb Hs Hi ret loop Hc. destruct s; try done; cbn [stmt_exprs stmt_blocks stmt_stmts stmt_ifs] in *; parts.
  - apply (let_runs (cx value) (ev value) name). by auto.
  - destruct target as [[] tsp]; try done. simpl in Hc. apply andb_prop in Hc as [Hn Hv]. apply runs_part.
    apply (assign_runs (cx value) (ev value) name tsp ret loop Hn). by auto.
  - apply runs_part. destruct value as [e|]; cbn in He; parts; simpl in Hc.
    + apply andb_prop in Hc as [-> Hc]. apply (return_runs (cx e) (ev e) true loop eq_refl). by auto.
    + subst ret. by apply return_unit_runs.
  - apply runs_part. match goal with IH : if_ok _ |- _ => by apply IH end.
  - simpl in Hc. apply andb_prop in Hc as [Hc1 Hc2]. apply runs_part.
    apply (while_runs (cx cond) (ev cond) (compile_block cenv inline body) (exec_block tree_fuel env go const_value rounds body) rounds); [by auto|].
    match goal with IH : block_ok _ |- _ => by apply IH end.
  - simpl in Hc. subst loop. apply runs_part, break_runs.
  - simpl in Hc. subst loop. apply runs_part, continue_runs.
  - apply runs_part. apply (discard_runs (cx e) (ev e) (λ _, VUnit)). by auto.
  - simpl in Hc. apply andb_prop in Hc as [Hn Hv]. apply (let_tuple_runs (cx value) (ev value)); by auto.
Qed.
(** Every part of the tree that is of the core is compiled to code that does what
    the interpreter does. *)
Lemma tree_sim : (∀ e, expr_ok e) ∧ (∀ b, block_ok b) ∧ (∀ s, stmt_ok s) ∧ (∀ i, if_ok i).
Proof. apply ast_ind; [apply expr_ok_kind|apply block_ok_parts|apply stmt_ok_parts|apply if_ok_parts]. Qed.
(** ** Functions *)
Lemma returns_never : (∀ e : Expr, True) ∧
  (∀ b, returns_block b = true → ∀ st v st', exec_block tree_fuel env go const_value rounds b st ≠ (Ok (Fl_Normal v), st')) ∧
  (∀ s, returns s = true → ∀ st v st', exec_stmt tree_fuel env go const_value rounds s st ≠ (Ok (Fl_Normal v), st')) ∧
  (∀ i, returns_if i = true → ∀ st v st', exec_if tree_fuel env go const_value rounds i st ≠ (Ok (Fl_Normal v), st')).
Proof.
  apply ast_ind; try done.
  - intros ss t sp Hss _ Hr st v st' Hev. simpl in Hr. destruct t; [done|]. simpl in Hev.
    unfold exec_block_of, in_iscope in Hev. apply SM_bind_inv in Hev as ([] & st1 & _ & Hev).
    apply SM_bind_inv in Hev as (flow & st2 & Hev & Hpop). apply SM_bind_inv in Hpop as ([] & st3 & _ & [= -> _]).
    apply SM_bind_inv in Hev as (flow & st4 & Hev & Hk). destruct flow as [w|w| |]; try done. clear Hk.
    revert st1 w st4 Hev. induction Hss as [|s ss Hs _ IH]; intros st1 w st4 Hev; [done|]. cbn [existsb exec_stmts] in *.
    apply SM_bind_inv in Hev as (flow & st5 & E1 & Hev). destruct flow as [w1|w1| |]; try done.
    apply orb_true_iff in Hr as [Hr|Hr]; [by eapply Hs|by eapply IH].
  - intros s _ _ _ Hi Hr st v st' Hev. destruct s; try done; cbn [stmt_ifs] in Hi; parts.
    + simpl in Hev. destruct value as [e|]; [|done]. apply SM_bind_inv in Hev as (a & st1 & _ & Hev). done.
    + match goal with IH : _ → ∀ st v st', _ |- _ => by eapply IH end.
  - intros c t e sp _ Ht Hb Hi Hr st v st' Hev. simpl in Hr. apply andb_prop in Hr as [Hr1 Hr2]. simpl in Hev.
    apply SM_bind_inv in Hev as (a & st1 & _ & Hev). destruct a; try done. destruct b; [by eapply Ht|].
    destruct e as [|b|i]; cbn in Hb, Hi; parts; [done|..].
    + match goal with IH : _ → ∀ st v st', _ |- _ => by eapply IH end.
    + match goal with IH : _ → ∀ st v st', _ |- _ => by eapply IH end.
Qed.

(** *** Parameters *)
Definition fn_start (paths : list PathSpec * gmap (Z * list bytes) Z) (ps : list Param) : Comp :=
  mkComp paths.1 paths.2 [] [] (as_u16 (zlen ps)) (as_u16 (zlen ps)) [param_scope ps] [] [] 0 [].
(** The scopes after binding the parameters from the [k]-th on. *)
Lemma bind_params ps : ∀ (k : nat) vs sc sv regs, Z.of_nat k + zlen ps < 65536 → length ps = length vs →
  scope_rel regs sv sc → (∀ n r, sc !! n = Some r → 0 <= r < Z.of_nat k) → (∀ n n' r, sc !! n = Some r → sc !! n' = Some r → n = n') →
  args_in regs (Z.of_nat k) vs →
  let sc' := foldl (λ scope p, <[pm_name p.2 := as_u16 (Z.of_nat p.1)]> scope) sc (imap (λ i, pair (k + i)%nat) ps) in
  scope_rel regs (foldl (λ frame p, <[pm_name p.1 := p.2]> frame) sv (zip ps vs)) sc' ∧
  (∀ n r, sc' !! n = Some r → 0 <= r < Z.of_nat k + zlen ps) ∧ (∀ n n' r, sc' !! n = Some r → sc' !! n' = Some r → n = n').
Proof.
  induction ps as [|p ps IH]; intros k vs sc sv regs Hk Hlen Hs Hb Hd Hin.
  { cbn. split; [done|]. split; [|done]. intros n r Hr. specialize (Hb n r Hr). unfold zlen. cbn. lia. }
  destruct vs as [|v vs]; [done|]. destruct Hin as [Hv Hin]. rewrite zlen_cons in *. pose proof (zlen_nonneg ps).
  cbn [imap foldl zip zip_with fst snd]. rewrite Nat.add_0_r.
  rewrite (imap_ext _ (λ i, pair (S k + i)%nat)) by (intros i x _; cbn; f_equal; lia).
  assert (E16 : as_u16 (Z.of_nat k) = Z.of_nat k) by (apply Z.mod_small; lia). rewrite E16.
  destruct (IH (S k) vs (<[pm_name p := Z.of_nat k]> sc) (<[pm_name p := v]> sv) regs) as (A1 & A2 & A3); try lia.
  - by injection Hlen.
  - intros n. destruct (decide (n = pm_name p)) as [->|Hne]; [rewrite !lookup_insert_eq; by exists v|].
    rewrite !lookup_insert_ne by done. apply Hs.
  - intros n r [[_ <-]|[_ Hr]]%lookup_insert_Some; [lia|]. specialize (Hb n r Hr). lia.
  - intros n n' r [[<- <-]|[Hn Hr]]%lookup_insert_Some [[<- E]|[Hn' Hr']]%lookup_insert_Some; try done.
    + specialize (Hb _ _ Hr'). lia.
    + subst r. specialize (Hb _ _ Hr). lia.
    + by eapply Hd.
  - by replace (Z.of_nat (S k)) with (Z.of_nat k + 1) by lia.
  - split; [done|]. split; [|done]. intros n r Hr. specialize (A2 n r Hr). lia.
Qed.
Lemma args_in_app vs l k : existsb contains_pending vs = false → zlen l = k → ∀ rest, args_in (l ++ vs ++ rest) k vs.
Proof.
  revert l k. induction vs as [|v vs IH]; intros l k Hv Hl rest; [done|]. cbn in Hv. apply orb_false_iff in Hv as [Hv Hvs]. split.
  - split; [|done]. rewrite <- Hl. unfold get_z, zlen. destruct (Z.ltb_spec (Z.of_nat (length l)) 0); [lia|]. rewrite Nat2Z.id.
    by apply list_lookup_middle.
  - specialize (IH (l ++ [v]) (k + 1) Hvs ltac:(rewrite zlen_app; unfold zlen in *; cbn; lia) rest). by rewrite <- app_assoc in IH.
Qed.
Lemma start_facts paths ps vs : small ps = true → length ps = length vs → existsb contains_pending vs = false →
  wf (fn_start paths ps) ∧ (mx (fn_start paths ps) <= n_regs f → ∀ pipes, frame_at (fn_start paths ps) (frame_regs f vs) [bind_args ps vs] pipes).
Proof.
  intros Hsm%Z.ltb_lt Hlen Hvs. pose proof (zlen_nonneg ps) as Hps. assert (E16 : as_u16 (zlen ps) = zlen ps) by (apply Z.mod_small; lia).
  pose proof (zlen_length _ _ Hlen) as Hz.
  destruct (bind_params ps 0 vs ∅ ∅ (frame_regs f vs)) as (A1 & A2 & A3); try done.
  { by apply (args_in_app vs [] 0 Hvs eq_refl). }
  split.
  - unfold fn_start. rewrite E16. split; cbn; try done.
    + intros r ([|i] & sc & n & [= <-] & Hr). by apply (A2 n).
    + intros [|i] [|j] sc sc' n n' r [= <-] [= <-] Hr Hr'. split; [done|]. by eapply A3.
  - intros Hmx pipes. unfold fn_start in Hmx. cbn in Hmx. rewrite E16 in Hmx. split; [|split].
    + unfold frame_regs. rewrite zlen_app. unfold zlen in *. rewrite length_replicate. lia.
    + constructor; [done|constructor].
    + exists [], pipes. by split; [|constructor].
Qed.
(** *** The function *)
Context (fd : FnDef) (paths : list PathSpec * gmap (Z * list bytes) Z) (s9 : Comp).
Context (Hcore : core_fn m fd = true) (Hbody : compile_fn_body cenv inline (fd_body fd) (fn_start paths (fd_params fd)) = (Ok tt, s9)).
Context (Hregs : n_regs f = mx s9) (Hcs : consts f = co_consts s9) (Hcode : co_code s9 `prefix_of` code f).
Definition body_of (b : Block) : IM Flow :=
  exec_block_of (exec_stmts (exec_stmt tree_fuel env go const_value rounds) (bl_stmts b)) (ev <$> bl_tail b) true.
Lemma body_runs : runs true true false None (compile_fn_body cenv inline (fd_body fd)) (body_of (fd_body fd)).
Proof.
  unfold core_fn in Hcore. apply andb_prop in Hcore as [[Hb _]%andb_prop _]. destruct (fd_body fd) as [ss t sp]. simpl in Hb.
  apply andb_prop in Hb as [Hss Ht]. unfold compile_fn_body, body_of. cbn [bl_stmts bl_tail].
  assert (Hs : runs false true false None (compile_stmts (compile_stmt cenv inline) ss) (exec_stmts (exec_stmt tree_fuel env go const_value rounds) ss)).
  { apply stmts_runs. eapply Forall_core; [|exact Hss]. apply Forall_forall. intros s _ Hc. by apply tree_sim. }
  destruct t as [t|]; apply (block_runs true false None _ _ _ _ Hs); [|apply skip_runs].
  apply runs_part, (return_runs (cx t) (ev t)); [done|]. by apply tree_sim.
Qed.
Lemma body_returns st v st' : body_of (fd_body fd) st ≠ (Ok (Fl_Normal v), st').
Proof.
  intros Hev. unfold core_fn in Hcore. apply andb_prop in Hcore as [_ [Ht|Hr]%orb_true_iff].
  - destruct (fd_body fd) as [ss [t|] sp]; [|done]. clear Ht. unfold body_of, exec_block_of, in_iscope in Hev. cbn [bl_tail bl_stmts fmap option_fmap option_map] in Hev.
    apply SM_bind_inv in Hev as ([] & st1 & _ & Hev). apply SM_bind_inv in Hev as (flow & st2 & Hev & Hpop).
    apply SM_bind_inv in Hpop as ([] & st3 & _ & [= -> _]). apply SM_bind_inv in Hev as (flow & st4 & _ & Hk).
    destruct flow; try done. apply SM_bind_inv in Hk as (a & st5 & _ & Hk). done.
  - destruct (fd_body fd) as [ss [t|] sp] eqn:Eb; [done|]. destruct returns_never as (_ & Hn & _). by apply (Hn _ Hr st v st').
Qed.
Lemma body_answers vs flow ti tv pipes st' : length (fd_params fd) = length vs → existsb contains_pending vs = false → tx_rel ti tv →
  body_of (fd_body fd) (mkISt ti [bind_args (fd_params fd) vs] pipes) = (Ok flow, st') →
  ∃ v sc, flow = Fl_Return v ∧ contains_pending v = false ∧ st' = mkISt ti sc pipes ∧ ends (frame_regs f vs, 0, tv) v tv.
Proof.
  intros Hlen Hvs Ht Hev. assert (Hsm : small (fd_params fd) = true).
  { unfold core_fn in Hcore. by apply andb_prop in Hcore as [[_ ?]%andb_prop _]. }
  destruct (start_facts paths (fd_params fd) vs Hsm Hlen Hvs) as [W Hfr].
  destruct (body_runs _ s9 W I Hbody) as (X & W' & Es & El & Sim). specialize (Hfr ltac:(rewrite Hregs; apply X)).
  specialize (El eq_refl). assert (Hl : linked 0 0 (fn_start paths (fd_params fd)) s9).
  { split; [lia|]. split; [by rewrite Hcs|]. intros i instr _ Hi. unfold link. rewrite El. by eapply get_z_prefix. }
  specialize (Sim 0 0 _ _ pipes ti tv flow st' Hl (Hfr pipes) Ht Hev). destruct flow as [v|v| |]; cbn [ran] in Sim.
  - by apply body_returns in Hev.
  - destruct Sim as (_ & Hv & En & sc & ->). by exists v, sc.
  - by destruct Sim.
  - by destruct Sim.
Qed.
(** A call in the interpreter and the call of the compiled function. *)
Context (Hnore : is_nore f = fd_is_nore fd) (Hparams : n_params f = zlen (fd_params fd)).
Lemma ends_answers vs v tv : zlen vs = n_params f →
  (if fd_is_nore fd then (mi, fi) ∉ nore_active tv ∧ let tv1 := with_nore (λ s, {[(mi, fi)]} ∪ s) tv in ends (frame_regs f vs, 0, tv1) v tv1
   else ends (frame_regs f vs, 0, tv) v tv) → answers tree_fuel host modules mi fi vs v tv.
Proof.
  intros Hz En. unfold answers, call_guarded, index. destruct (fd_is_nore fd).
  - destruct En as [Hin (K & cost & Hc & En)]. exists K, cost. split; [done|]. intros n F skip HK HF.
    unfold vm_lift. rewrite Hm. cbn [or_panic]. erewrite VM_bind_ok by reflexivity. rewrite Hf. cbn [or_panic]. erewrite VM_bind_ok by reflexivity.
    rewrite Hz, Z.eqb_refl, Hnore. cbn [negb]. erewrite VM_bind_ok by reflexivity.
    cbn [vm_tx fuel parallel_skip]. rewrite bool_decide_true by done. cbn [negb].
    specialize (En n F skip HK HF). unfold run in En. cbn [fst snd] in En. rewrite En. erewrite VM_bind_ok by reflexivity.
    cbn [vm_tx fuel parallel_skip]. by rewrite nore_out.
  - destruct En as (K & cost & Hc & En). exists K, cost. split; [done|]. intros n F skip HK HF.
    unfold vm_lift. rewrite Hm. cbn [or_panic]. erewrite VM_bind_ok by reflexivity. rewrite Hf. cbn [or_panic]. erewrite VM_bind_ok by reflexivity.
    rewrite Hz, Z.eqb_refl, Hnore. cbn [negb]. exact (En n F skip HK HF).
Qed.
Lemma user_alike vs v ti tv scopes pipes st' : existsb contains_pending vs = false → tx_rel ti tv →
  call_user body_of fi fd vs (mkISt ti scopes pipes) = (Ok v, st') →
  st' = mkISt ti scopes pipes ∧ contains_pending v = false ∧ answers tree_fuel host modules mi fi vs v tv.
Proof.
  intros Hvs Ht Hev. unfold call_user in Hev. case_bool_decide as Hlen; [|done].
  assert (Hz : zlen vs = n_params f) by (rewrite Hparams; symmetry; by apply zlen_length).
  apply SM_bind_inv in Hev as (flow & st & Hev & Hk). unfold guarded_i in Hev.
  assert (Hcall : ∀ t t' flow st1, tx_rel t t' →
    in_frame (bind_args (fd_params fd) vs) (body_of (fd_body fd)) (mkISt t scopes pipes) = (Ok flow, st1) →
    st1 = mkISt t scopes pipes ∧ ∃ w, flow = Fl_Return w ∧ contains_pending w = false ∧ ends (frame_regs f vs, 0, t') w t').
  { intros t t' fl st1 Ht' Hin. unfold in_frame in Hin. cbn [is_tx is_scopes is_pipes] in Hin.
    destruct (body_of (fd_body fd) (mkISt t [bind_args (fd_params fd) vs] pipes)) as [r st2] eqn:Eb. injection Hin as -> <-.
    destruct (body_answers vs fl t t' pipes st2 Hlen Hvs Ht' Eb) as (w & sc & -> & Hw & -> & En). split; [done|]. by exists w. }
  pose proof (ends_answers vs) as Hans. destruct (fd_is_nore fd).
  - apply SM_bind_inv in Hev as (entered & st1 & [= <- <-] & Hev). cbn [is_tx] in Hev.
    case_bool_decide as Hin; [|done]. unfold then_exit in Hev.
    destruct (in_frame (bind_args (fd_params fd) vs) (body_of (fd_body fd))
      (mkISt (with_nore (λ s, {[(0, fi)]} ∪ s) ti) scopes pipes)) as [r st2] eqn:Eb. injection Hev as -> <-.
    assert (Ht1 : tx_rel (with_nore (λ s, {[(0, fi)]} ∪ s) ti) (with_nore (λ s, {[(mi, fi)]} ∪ s) tv)).
    { intros g. cbn. rewrite !elem_of_union, !elem_of_singleton, (Ht g). naive_solver. }
    destruct (Hcall _ _ flow st2 Ht1 Eb) as (-> & w & -> & Hw & En). injection Hk as <- <-.
    split; [|split; [done|]].
    + unfold on_tx_i, nore_exit, modify. cbn [is_tx is_scopes is_pipes snd]. by rewrite nore_out.
    + apply Hans; [done|]. split; [by rewrite <- (Ht fi)|done].
  - destruct (Hcall _ _ flow st Ht Hev) as (-> & w & -> & Hw & En). injection Hk as <- <-.
    split; [done|]. split; [done|]. by apply Hans.
Qed.
End sim.
