(* ===== verification/CompileCorrect.v ===== *)
(** The correctness of the compiler on the core: a call the tree interpreter answers
    is answered alike by the machine on the compiled module, from the simulation of
    a function and induction on the depth of the calls. *)
From S2P Require Import Prelude Bytes Hashing Values Serialize Kv Merkle Tx TxTyped TxFacts JsonText Floats Display Ops.
From S2P Require Import Builtins Bytecode Ast Effects Prefetch Compile VmBase VmState Vm Interp CompileCore CompileSim.

(** ** Names and positions *)
Lemma index_by_snoc {A} (name : A → bytes) l x : index_by name (l ++ [x]) = <[name x := zlen l]> (index_by name l).
Proof. unfold index_by. rewrite imap_app, foldl_app. cbn. by rewrite Nat.add_0_r. Qed.
Lemma collect_snoc {A} (l : list (bytes * A)) p : collect (l ++ [p]) = <[p.1 := p.2]> (collect l).
Proof. unfold collect. by rewrite foldl_app. Qed.
(** The position of a name is that of its last element, whose value the map has. *)
Lemma index_by_collect {A} (name : A → bytes) l n :
  match index_by name l !! n with
  | Some i => ∃ x, get_z l i = Some x ∧ name x = n ∧
      ∀ B (g : A → B), collect ((λ x, (name x, g x)) <$> l) !! n = Some (g x)
  | None => n ∉ name <$> l ∧ ∀ B (g : A → B), collect ((λ x, (name x, g x)) <$> l) !! n = None
  end.
Proof.
  induction l as [|x l IH] using rev_ind.
  { cbn. rewrite lookup_empty. split; [apply not_elem_of_nil|]. intros B g. apply lookup_empty. }
  rewrite index_by_snoc. destruct (decide (n = name x)) as [->|Hne].
  - rewrite lookup_insert_eq. exists x. split; [apply get_z_last|]. split; [done|]. intros B g.
    rewrite fmap_app. cbn. by rewrite collect_snoc, lookup_insert_eq.
  - rewrite lookup_insert_ne by done. assert (Hg : ∀ B (g : A → B), collect ((λ x, (name x, g x)) <$> l ++ [x]) !! n = collect ((λ x, (name x, g x)) <$> l) !! n).
    { intros B g. rewrite fmap_app. cbn. by rewrite collect_snoc, lookup_insert_ne. }
    destruct (index_by name l !! n) as [i|].
    + destruct IH as (y & Hy & Hn & Hc). exists y. split; [|split; [done|by intros; rewrite Hg]].
      eapply get_z_prefix; [|exact Hy]. by apply prefix_app_r.
    + destruct IH as [Hn Hc]. split; [|by intros; rewrite Hg]. rewrite fmap_app, elem_of_app. cbn. rewrite list_elem_of_singleton. tauto.
Qed.
Lemma index_by_none {A} (name : A → bytes) l n : n ∉ name <$> l → index_by name l !! n = None.
Proof.
  intros Hn. pose proof (index_by_collect name l n) as Hi. destruct (index_by name l !! n) as [i|]; [|done].
  destruct Hi as (x & Hx & <- & _). destruct Hn. apply list_elem_of_fmap. exists x. split; [done|].
  unfold get_z in Hx. destruct (i <? 0); [done|]. by eapply list_elem_of_lookup_2.
Qed.
Lemma collect_none {A B} (name : A → bytes) (g : A → B) l n : n ∉ name <$> l → collect ((λ x, (name x, g x)) <$> l) !! n = None.
Proof. intros Hn. pose proof (index_by_collect name l n) as Hi. rewrite (index_by_none _ _ _ Hn) in Hi. by apply Hi. Qed.
(** Where the names differ the position is the one a search finds. *)
Lemma index_by_find {A} (name : A → bytes) l n i : NoDup (name <$> l) → index_by name l !! n = Some i →
  ∃ k x, i = Z.of_nat k ∧ l !! k = Some x ∧ list_find (λ x, name x = n) l = Some (k, x).
Proof.
  intros Hd Hi. pose proof (index_by_collect name l n) as Hc. rewrite Hi in Hc. destruct Hc as (x & Hx & Hn & _).
  unfold get_z in Hx. destruct (Z.ltb_spec i 0); [done|]. exists (Z.to_nat i), x. split; [lia|]. split; [done|].
  apply list_find_Some. split; [done|]. split; [done|]. intros j y Hj Hlt Hy.
  assert (j = Z.to_nat i); [|lia]. eapply (NoDup_lookup _ j (Z.to_nat i) n Hd).
  - rewrite list_lookup_fmap, Hj. cbn. by rewrite Hy.
  - rewrite list_lookup_fmap, Hx. cbn. by rewrite Hn.
Qed.

(** ** Compiled functions *)
Lemma compile_fn_inv fuel cenv fd paths bf paths' : compile_fn fuel cenv fd paths = Ok (bf, paths') → ∃ s9,
  compile_fn_body cenv (inline_expr cenv fuel) (fd_body fd) (fn_start paths (fd_params fd)) = (Ok tt, s9) ∧
  n_regs bf = co_max_reg s9 ∧ consts bf = co_consts s9 ∧ co_code s9 `prefix_of` code bf ∧
  is_nore bf = fd_is_nore fd ∧ n_params bf = as_u16 (zlen (fd_params fd)).
Proof.
  unfold compile_fn. fold (fn_start paths (fd_params fd)).
  destruct (compile_fn_body cenv (inline_expr cenv fuel) (fd_body fd) _) as [[[]|e| |] s9] eqn:E; try done.
  intros [= <- <-]. exists s9. do 3 (split; [done|]). split; [|done].
  cbn. destruct (ends_in_return (co_code s9)); [done|]. by apply prefix_app_r.
Qed.
Lemma compile_fns_each fuel cenv fs : ∀ paths bfs specs k fd, compile_fns fuel cenv fs paths = Ok (bfs, specs) → fs !! k = Some fd →
  ∃ paths1 bf paths2, bfs !! k = Some bf ∧ compile_fn fuel cenv fd paths1 = Ok (bf, paths2).
Proof.
  induction fs as [|f fs IH]; intros paths bfs specs k fd E Hk; [done|]. cbn [compile_fns] in E.
  destruct (compile_fn fuel cenv f paths) as [[bf paths']|e| |] eqn:E1; cbn in E; try done.
  destruct (compile_fns fuel cenv fs paths') as [[bfs' specs']|e| |] eqn:E2; cbn in E; try done. injection E as <- <-.
  destruct k as [|k]; [injection Hk as <-; by exists paths, bf, paths'|]. exact (IH paths' bfs' specs' k fd E2 Hk).
Qed.

(** ** Modules *)
(** No constant of a function is out of the reach of the 16-bit positions. *)
Definition few_consts (bm : BcModule) : bool := forallb (λ f, zlen (consts f) <=? 65536) (functions bm).

Section correct.
Context `{BigIntCodec} `{FloatText} {Nan : FloatNan} (tree_fuel : nat) (host host_i : Host) (modules : list BcModule) (mi : Z).
Context (m : SrcModule) (module_name : bytes) (ifaces : gset bytes) (flags : gmap (bytes * bytes) (bool * bool)) (bm : BcModule).
Context (Hcore : core_module m = true) (Hcompiled : compile_named_with_extras m module_name ifaces flags = Ok bm).
Context (Hfew : few_consts bm = true) (Hm : get_z modules mi = Some bm).
Abbreviation cenv := (module_env m module_name ifaces flags).
Abbreviation env := (interp_new m host_i).

Lemma compiled_parts : struct_shapes bm = shapes_of m ∧ fn_index bm = index_by fd_name (sm_functions m) ∧
  ∃ specs, compile_fns (inline_fuel m) cenv (sm_functions m) ([], ∅) = Ok (functions bm, specs).
Proof.
  unfold compile_named_with_extras in Hcompiled.
  destruct (compile_fns (inline_fuel m) cenv (sm_functions m) ([], ∅)) as [[bfs specs]|e| |] eqn:E; cbn in Hcompiled; try done.
  destruct (dispatch_table _ _ _ _) as [hd|e| |]; cbn in Hcompiled; try done. injection Hcompiled as <-. split; [done|]. split; [done|]. by exists specs.
Qed.
Lemma core_parts : forallb (core_fn m) (sm_functions m) = true ∧ small (sm_functions m) = true ∧
  NoDup (fd_name <$> sm_functions m) ∧ small (shapes_of m) = true ∧ ∀ sh, sh ∈ shapes_of m → small (field_names sh) = true.
Proof.
  unfold core_module in Hcore. apply andb_prop in Hcore as [[[[H1' H2']%andb_prop H3']%andb_prop H4']%andb_prop H5'].
  split; [done|]. split; [done|]. split; [by apply bool_decide_eq_true_1 in H3'|]. split; [done|].
  intros sh Hsh. rewrite forallb_forall in H5'. apply H5'. by apply list_elem_of_In.
Qed.
Lemma locals_plain name : local_name m name = true →
  ce_state_index cenv !! name = None ∧ ce_module_consts cenv !! name = None ∧
  ie_state_types env !! name = None ∧ ie_state_defaults env !! name = None.
Proof.
  intros [Hs Hc]%bool_decide_eq_true_1%not_elem_of_app. split; [by apply index_by_none|]. split; [by apply (collect_none cn_name cn_value)|].
  split; [by apply (collect_none st_name (λ s, strip_explicit_literal (st_ty s)))|].
  by apply (collect_none st_name (λ s, default_for (strip_explicit_literal (st_ty s)))).
Qed.
Lemma structs_alike name idx shape : ce_struct_index cenv !! name = Some idx → get_z (ce_struct_shapes cenv) idx = Some shape →
  as_u16 idx = idx ∧ small (field_names shape) = true ∧ get_z (struct_shapes bm) idx = Some shape ∧
  sh_name shape = name ∧ ie_struct_decls env !! name = Some (field_names shape).
Proof.
  intros Hi Hs. destruct core_parts as (_ & _ & _ & Hsm & Hf). cbn in Hi, Hs. pose proof (index_by_collect sh_name (shapes_of m) name) as Hc.
  rewrite Hi in Hc. destruct Hc as (x & Hx & Hn & Hc). rewrite Hs in Hx. injection Hx as <-.
  pose proof (get_z_bound _ _ _ Hs) as Hb. apply Z.ltb_lt in Hsm. split; [apply Z.mod_small; lia|]. split.
  { apply Hf. unfold get_z in Hs. destruct (idx <? 0); [done|]. by eapply list_elem_of_lookup_2. }
  split; [by destruct compiled_parts as (-> & _)|]. split; [done|]. cbn. rewrite <- (Hc _ field_names). f_equal. f_equal.
  unfold shapes_of. rewrite fmap_app, <- !list_fmap_compose. done.
Qed.
Lemma imports_plain name n_args : plain_call m name n_args = true → name ∉ ip_name <$> sm_imports m.
Proof.
  unfold plain_call. destruct (state_builtin name), (try_builtin some_context name []), (unary_builtin name), (context_kind name), (convert_target name); try done.
  by intros [[_ Hi%bool_decide_eq_true_1]%andb_prop _]%andb_prop.
Qed.
(** Whether a name is a builtin's does not depend on the arguments. *)
Ltac by_name := repeat (case_decide; [done|]); done.
Lemma try_builtin_none ctx name args : try_builtin some_context name [] = None → try_builtin ctx name args = None.
Proof.
  unfold try_builtin. set (n := text name). clearbody n.
  assert (Hw : wrap_builtin n [] = None → wrap_builtin n args = None) by (unfold wrap_builtin; by_name).
  assert (Hs : set_builtin n [] = None → set_builtin n args = None) by (unfold set_builtin; by_name).
  assert (Hd : dict_builtin n [] = None → dict_builtin n args = None) by (unfold dict_builtin; by_name).
  assert (Hc : context_value_i some_context n = None → context_value_i ctx n = None) by (unfold context_value_i; by_name).
  destruct (wrap_builtin n []); [done|]. rewrite (Hw eq_refl). cbn [or_else].
  destruct (context_value_i some_context n); [done|]. rewrite (Hc eq_refl). cbn [or_else fmap option_fmap option_map].
  case_decide; [done|]. case_decide; [done|].
  destruct (set_builtin n []); [done|]. rewrite (Hs eq_refl). cbn [or_else].
  destruct (dict_builtin n []); [done|]. rewrite (Hd eq_refl). cbn [or_else]. by destruct (convert_target name).
Qed.
Lemma plain_try name n_args ctx args : plain_call m name n_args = true → try_builtin ctx name args = None.
Proof.
  unfold plain_call. destruct (state_builtin name); [done|]. destruct (try_builtin some_context name []) eqn:E; [done|]. intros _. by apply try_builtin_none.
Qed.
(** A function of the module is the one the interpreter finds. *)
Lemma function_at name idx : fn_index bm !! name = Some idx → ∃ k fd bf paths s9, idx = Z.of_nat k ∧ as_u16 idx = idx ∧
  list_find (λ f, fd_name f = name) (sm_functions m) = Some (k, fd) ∧ get_z (functions bm) idx = Some bf ∧ core_fn m fd = true ∧
  compile_fn_body cenv (inline_expr cenv (inline_fuel m)) (fd_body fd) (fn_start paths (fd_params fd)) = (Ok tt, s9) ∧
  n_regs bf = co_max_reg s9 ∧ consts bf = co_consts s9 ∧ co_code s9 `prefix_of` code bf ∧
  is_nore bf = fd_is_nore fd ∧ n_params bf = zlen (fd_params fd) ∧ zlen (consts bf) <= 65536.
Proof.
  intros Hi. destruct compiled_parts as (_ & Hfi & specs & Hfns). rewrite Hfi in Hi. destruct core_parts as (Hfn & Hsm & Hnd & _).
  destruct (index_by_find fd_name (sm_functions m) name idx Hnd Hi) as (k & fd & -> & Hk & Hfind).
  destruct (compile_fns_each _ _ _ _ _ _ _ _ Hfns Hk) as (paths & bf & paths' & Hbf & E).
  apply compile_fn_inv in E as (s9 & E & E1 & E2 & E3 & E4 & E5).
  assert (Hcf : core_fn m fd = true).
  { rewrite forallb_forall in Hfn. apply Hfn, list_elem_of_In. by eapply list_elem_of_lookup_2. }
  exists k, fd, bf, paths, s9. split; [done|]. split.
  { apply Z.ltb_lt in Hsm. pose proof (lookup_lt_Some _ _ _ Hk). apply Z.mod_small. unfold zlen in Hsm. lia. }
  split; [done|]. split; [by rewrite get_z_nat|]. do 6 (split; [done|]). split.
  - rewrite E5. apply Z.mod_small. unfold core_fn in Hcf. apply andb_prop in Hcf as [[_ Hp%Z.ltb_lt]%andb_prop _].
    pose proof (zlen_nonneg (fd_params fd)). lia.
  - unfold few_consts in Hfew. rewrite forallb_forall in Hfew. apply Z.leb_le, Hfew, list_elem_of_In. by eapply list_elem_of_lookup_2.
Qed.
Definition call_i (n : nat) (name : bytes) (args : list Value) : IM Value := run_at tree_fuel env n (Rq_Call name args).
Lemma calls_alike n : ∀ name n_args idx, plain_call m name n_args = true → ce_fn_index cenv !! name = Some idx →
  answers_alike tree_fuel host modules mi (call_i n) name n_args idx.
Proof.
  induction n as [|n IH]; intros name n_args idx Hp Hi.
  { destruct (function_at name idx) as (k & fd & bf & paths & s9 & -> & H16 & _).
    { by destruct compiled_parts as (_ & -> & _). }
    split; [done|]. intros vs v ti tv scopes pipes st' _ _ _ Hev. done. }
  destruct (function_at name idx) as (k & fd & bf & paths & s9 & -> & H16 & Hfind & Hbf & Hcf & E & E1 & E2 & E3 & E4 & E5 & E6).
  { by destruct compiled_parts as (_ & -> & _). }
  split; [done|]. intros vs v ti tv scopes pipes st' Hlen Hvs Ht Hev.
  unfold call_i in Hev. cbn [run_at] in Hev. unfold call_of in Hev. apply SM_bind_inv in Hev as (ctx & st & [= <- <-] & Hev).
  rewrite (plain_try name n_args (context ti) vs Hp) in Hev. replace (if overrides_builtin env name then None else None) with (@None (outcome Value)) in Hev by by destruct (overrides_builtin env name).
  replace (existsb (λ i, bool_decide (ip_name i = name)) (sm_imports (ie_module env))) with false in Hev.
  2: { symmetry. apply not_true_is_false. intros (i & Hin%list_elem_of_In & Hn%bool_decide_eq_true_1)%existsb_exists.
       destruct (imports_plain name n_args Hp). apply list_elem_of_fmap. by exists i. }
  cbn [ie_module interp_new] in Hev. rewrite Hfind in Hev.
  eapply (user_alike tree_fuel host modules mi (Z.of_nat k) bm bf Hm Hbf E6 cenv m env (call_i n)
    (λ e, run_at tree_fuel env n (Rq_Const e)) (S n) (inline_expr cenv (inline_fuel m)) locals_plain structs_alike); try done.
  intros name' n_args' Hp'. apply index_by_none. by eapply imports_plain.
Qed.
End correct.

(** C1: compiled code does what the source says, as the tree interpreter reads it.
    For a module of the core language, which has locals, every operator, tuples,
    arrays, structs, pipes, blocks, branches, loops with [break] and [continue],
    early returns, recursion and non-reentrant functions, take any call that the tree
    interpreter answers with a value: the compiled module, run by the virtual machine
    on enough fuel, answers the same value, and both leave their transaction as it
    was. *)
Theorem compiled_agrees `{BigIntCodec} `{FloatText} {Nan : FloatNan} (tree_fuel : nat) (host host_i : Host)
    (modules : list BcModule) (mi : Z) (m : SrcModule) (module_name : bytes) (ifaces : gset bytes)
    (flags : gmap (bytes * bytes) (bool * bool)) (bm : BcModule) (name : bytes) (idx : Z) (args : list Value) (n : nat) (v : Value)
    (ti tv : Tx) (scopes : list (gmap bytes Value)) (pipes : list Value) (st' : ISt) :
  core_module m = true →
  compile_named_with_extras m module_name ifaces flags = Ok bm →
  few_consts bm = true →
  get_z modules mi = Some bm →
  fn_index bm !! name = Some idx →
  plain_call m name (length args) = true →
  existsb contains_pending args = false →
  (∀ g, (0, g) ∈ nore_active ti ↔ (mi, g) ∈ nore_active tv) →
  Interp.call tree_fuel (interp_new m host_i) n name args (mkISt ti scopes pipes) = (Ok v, st') →
  st' = mkISt ti scopes pipes ∧
  ∃ (depth : nat) (cost : Z), 0 <= cost ∧ ∀ k fuel skip, (depth <= k)%nat → cost <= fuel →
    Vm.call tree_fuel host modules k mi idx args (mkVm fuel tv skip) = Some (Ok v, mkVm (fuel - cost) tv skip).
Proof.
  intros Hcore Hcomp Hfew Hm Hidx Hp Hargs Htx Hcall.
  assert (Hi : ce_fn_index (module_env m module_name ifaces flags) !! name = Some idx).
  { assert (Hf : fn_index bm = index_by fd_name (sm_functions m)) by (eapply compiled_parts; eassumption). by rewrite <- Hidx, Hf. }
  destruct (calls_alike tree_fuel host host_i modules mi m module_name ifaces flags bm Hcore Hcomp Hfew Hm n name (length args) idx Hp Hi) as [_ Hans].
  destruct (Hans args v ti tv scopes pipes st' eq_refl Hargs Htx Hcall) as (-> & _ & Ha). by split.
Qed.
