(* ===== verification/CompileWitness.v ===== *)
(** Modules compiled from their text: the ones that the theorems on bounds and on the
    agreement with the interpreter are applied to, and programs whose compiled code
    does something else than their text says. *)
From S2P Require Import Prelude Bytes Hashing Values Serialize Kv Tx JsonText JsonTextFacts Floats Display Ops.
From S2P Require Import Interp Bytecode Ast Lexer Effects Parser VmBase VmState Vm FrontWitness Compile CompileFacts.
From S2P Require Import CompileCore CompileSim CompileCorrect.
#[local] Existing Instance TwosComplement.codec.
#[local] Instance quiet_nan : FloatNan := λ _ _, 0x7ff8000000000000.

(** Program text with ['] for the double quote. *)
Definition parse_text (s : string) : outcome SrcModule :=
  ts ← tokenize (H := bits_text) ((λ b, if b =? 39 then 34 else b) <$> str s); parse no_debug ts.
Definition front (s : string) : outcome BcModule := m ← parse_text s; compile m.
(** The answer of function [name] over the empty store. *)
Definition answer (s name : string) (args : list Value) : option (outcome Value) :=
  match front s with
  | Ok m =>
      match run_world (H0 := bits_text) 10 ∅ [m] 400 0 (str name) args 300 (new (as_kv (∅ : InMemoryKv))) with
      | Some (result, _) => Some (r ← result; Ok r.1)
      | None => None
      end
  | Err e => Some (Err e)
  | Panic => Some Panic
  | OutOfFuel => Some OutOfFuel
  end.
Definition message (o : option (outcome Value)) : option string :=
  match o with Some (Err (mkError _ msg _)) => Some msg | _ => None end.
Definition code_of (s : string) : list (list Instr) := match front s with Ok m => code <$> functions m | _ => [] end.

(** ** A module with states, an index, loops, a match and a handler *)
Definition sample_text : string :=
  "state total: u64; state log: pvec<u64>; state by_id: pmap<u64, u64>;
   const LIMIT: u64 = u64(10);
   enum Op { Add(u64), Reset }
   fn step(op: Op) -> u64 { match op { Op::Add(n) => total + n, Op::Reset => u64(0) } }
   entry fn run(op: Op) -> u64 {
     total = step(op);
     by_id[total] = total;
     let sum = u64(0);
     for x in log { if x > LIMIT { break; } sum = sum + x; }
     while sum > u64(3) { sum = sum - u64(1); }
     let squares = [i * i for i in [1, 2, 3] if i > 1];
     sum
   }".
Definition sample : outcome SrcModule := parse_text sample_text.
(** A module that compiles, whose functions have few parameters. *)
Definition compiles (o : outcome SrcModule) : bool :=
  match o with
  | Ok m =>
      forallb (λ f, zlen (fd_params f) <? 65536) (sm_functions m) &&
      match compile_named_with_extras m (str "bank") ∅ ∅ with
      | Ok bm => bool_decide (length (functions bm) = 2%nat)
      | _ => false
      end
  | _ => false
  end.
Lemma compiles_spec o : compiles o = true → ∃ m bm,
  o = Ok m ∧ Forall (λ f, zlen (fd_params f) < 65536) (sm_functions m) ∧
  compile_named_with_extras m (str "bank") ∅ ∅ = Ok bm ∧ length (functions bm) = 2%nat.
Proof.
  destruct o as [m|e| |]; cbn [compiles]; [|discriminate..]. intros H. apply andb_prop in H as [Hp H].
  destruct (compile_named_with_extras m (str "bank") ∅ ∅) as [bm|e| |] eqn:E; [|discriminate H..].
  exists m, bm. split; [reflexivity|]. split; [|split; [exact E|exact (bool_decide_eq_true_1 _ H)]].
  apply Forall_forall. intros f Hf. rewrite forallb_forall in Hp. apply Z.ltb_lt, Hp. by apply list_elem_of_In.
Qed.
Lemma sample_compiles : compiles sample = true.
Proof. vm_compute. reflexivity. Qed.


(** ** A module of the core *)
Definition demo_text : string :=
  "struct Point { x: int, y: int }
   fn gcd(a: int, b: int) -> int { if b == 0 { a } else { gcd(b, a % b) } }
   nore fn coprime_sum(n: int) -> int {
     let i = 0;
     let total = 0;
     while true {
       i = i + 1;
       if i > n { break; }
       if i % 2 == 0 { continue; }
       let (g, w) = (gcd(i, n), [i, i * 10]);
       if g > 100 { return 0; }
       total = total + w[1] * g;
     }
     total
   }
   fn run(n: int) -> int {
     let p = Point { x: n, y: 2 };
     coprime_sum(p.x) |> $$ * { let d = -p.y; d - 1 }
   }".
Definition demo : outcome SrcModule := parse_text demo_text.
Definition empty_tx : Tx := new (as_kv (∅ : InMemoryKv)).
Abbreviation demo_call m :=
  (Interp.call (H0 := bits_text) 10 (interp_new m host_new) 40 (str "run") [VInt 9] (mkISt empty_tx [] [])).
Definition demo_runs (o : outcome SrcModule) : bool :=
  match o with
  | Ok m =>
      match compile_named_with_extras m (str "demo") ∅ ∅, demo_call m with
      | Ok bm, (Ok (VInt n), _) =>
          core_module (H0 := bits_text) m && few_consts bm && bool_decide (fn_index bm !! str "run" = Some 2) &&
          plain_call (H0 := bits_text) m (str "run") 1 && (n =? -3090)
      | _, _ => false
      end
  | _ => false
  end.
Lemma demo_runs_spec o : demo_runs o = true → ∃ m bm st', o = Ok m ∧
  compile_named_with_extras m (str "demo") ∅ ∅ = Ok bm ∧ demo_call m = (Ok (VInt (-3090)), st') ∧
  core_module (H0 := bits_text) m = true ∧ few_consts bm = true ∧ fn_index bm !! str "run" = Some 2 ∧
  plain_call (H0 := bits_text) m (str "run") (length [VInt 9]) = true.
Proof.
  destruct o as [m|e| |]; cbn [demo_runs]; [|discriminate..].
  destruct (compile_named_with_extras m (str "demo") ∅ ∅) as [bm|e| |] eqn:E; [|discriminate..].
  destruct (demo_call m) as [[[]|e| |] st'] eqn:Ec; try discriminate. intros Hd.
  apply andb_prop in Hd as [[[[H1 H2]%andb_prop H3]%andb_prop H4]%andb_prop ->%Z.eqb_eq].
  exists m, bm, st'. do 5 (split; [assumption || reflexivity|]). split; [exact (bool_decide_eq_true_1 _ H3)|assumption].
Qed.
Lemma demo_runs_ok : demo_runs demo = true.
Proof. vm_compute. reflexivity. Qed.

Lemma compiled_agrees_witness : ∃ m bm depth cost, demo = Ok m ∧
  compile_named_with_extras m (str "demo") ∅ ∅ = Ok bm ∧ 0 <= cost ∧
  ∀ k fuel skip, (depth <= k)%nat → cost <= fuel →
    Vm.call (H0 := bits_text) 10 host_new [bm] k 0 2 [VInt 9] (mkVm fuel empty_tx skip) =
      Some (Ok (VInt (-3090)), mkVm (fuel - cost) empty_tx skip).
Proof.
  destruct (demo_runs_spec demo demo_runs_ok) as (m & bm & st' & Em & Ebm & Ec & Hcore & Hfew & Hidx & Hp).
  destruct (compiled_agrees (H0 := bits_text) 10 host_new host_new [bm] 0 m (str "demo") ∅ ∅ bm (str "run") 2 [VInt 9] 40
    (VInt (-3090)) empty_tx empty_tx [] [] st' Hcore Ebm Hfew eq_refl Hidx Hp eq_refl (λ g, conj (λ h, h) (λ h, h)) Ec)
    as (_ & depth & cost & Hcost & Hrun).
  exists m, bm, depth, cost. exact (conj Em (conj Ebm (conj Hcost Hrun))).
Defined.

(** ** Where the compiled code goes wrong *)
Definition enum_a : Value := VEnum (str "E") (str "A") [].

(** No [ReturnUnit] follows a body whose last instruction returns, although the
    branch before it jumps behind the code. *)
Lemma branch_end_outside_code :
  message (answer "fn f(c: bool) { if c { let y = 1; } else { return; } }" "f" [VBool true]) =
    Some "instruction pointer out of bounds" ∧
  message (answer "enum E { A, B } fn f(e: E) { match e { E::A => 1, E::B => 2 }; }" "f" [enum_a]) =
    Some "instruction pointer out of bounds" ∧
  answer "fn f(c: bool) { if c { let y = 1; } else { return; } let z = 1; }" "f" [VBool true] = Some (Ok VUnit).
Proof. vm_compute. done. Qed.

(** A register that a part of a json literal keeps moves the later arguments out of
    the call's range. *)
Lemma json_arguments_displaced :
  message (answer "enum E { A, B } fn f(e: E) -> json { {'a': match e { E::A => 1, E::B => 2 }, 'b': 3} }" "f" [enum_a]) =
    Some "_json_object: key must be a string, got E::A".
Proof. vm_compute. done. Qed.

(** A local array with the name of a vector state is ignored by a loop. *)
Lemma loop_over_shadowed_state :
  answer "state xs: pvec<i64>; fn f(xs: [i64]) -> i64 { let n = 0; for x in xs { n = n + x; } n }" "f"
    [VArray [VInt 1; VInt 2]] = Some (Ok (VInt 0)) ∧
  answer "state ys: pvec<i64>; fn f(xs: [i64]) -> i64 { let n = 0; for x in xs { n = n + x; } n }" "f"
    [VArray [VInt 1; VInt 2]] = Some (Ok (VInt 3)).
Proof. vm_compute. done. Qed.

(** A constant sees the locals of the function it is used in. *)
Lemma constant_captures_local :
  answer "const A: i64 = 1; const B: i64 = A + 1; fn f(A: i64) -> i64 { B }" "f" [VInt 10] = Some (Ok (VInt 11)).
Proof. vm_compute. done. Qed.

(** A constant that names itself is compiled in place without end. *)
Lemma constant_cycle : front "const A: i64 = A + 1; fn f() -> i64 { A }" = OutOfFuel.
Proof. vm_compute. done. Qed.

(** A function of another module that has the name of a builtin is never called. *)
Lemma qualified_call_is_builtin :
  code_of "fn f(a: [i64]) -> i64 { lib::len(a) }" = [[Move 2 0; BuiltinLen 1 2; Return 1]] ∧
  code_of "fn f(a: [i64]) -> i64 { lib::size(a) }" =
    [[Move 2 0; CallExternal 1 0 1 2 1 false false; Return 1]].
Proof. vm_compute. done. Qed.

(** ** Where the machine and the interpreter differ

    The answers of the tree interpreter and of the machine on the compiled module. *)
Definition interpret (s name : string) (args : list Value) : option (outcome Value) :=
  match parse_text s with
  | Ok m => Some (fst (Interp.call (H0 := bits_text) 10 (interp_new m host_new) 400 (str name) args (mkISt empty_tx [] [])))
  | _ => None
  end.
Definition both (s : string) : option (outcome Value) * option (outcome Value) := (interpret s "f" [], answer s "f" []).
Definition messages (p : option (outcome Value) * option (outcome Value)) : option string * option string := (message p.1, message p.2).

(** A [return] within a block expression leaves the block for the interpreter and the
    function for the machine; the same holds of a [break], which the interpreter
    refuses. *)
Lemma return_in_block_expression :
  both "fn f() -> int { let x = { return 1; 2 }; x + 10 }" = (Some (Ok (VInt 11)), Some (Ok (VInt 1))) ∧
  messages (both "fn f() -> int { let n = 0; while true { n = n + 1; let x = { if n > 3 { break; } 1 }; } n }") =
    (Some "break/continue inside block expression", None).
Proof. vm_compute. done. Qed.
(** The interpreter opens the vector before it evaluates the argument, so that what
    the argument pushes is lost. *)
Lemma push_within_push :
  both "state v: pvec<u64>; fn f() -> u64 { pvec_push(v, pvec_push(v, u64(7))); pvec_len(v) }" =
    (Some (Ok (VU64 1)), Some (Ok (VU64 2))).
Proof. vm_compute. done. Qed.
(** The interpreter's pipe stack is shared by all calls, the compiler's is one of the
    function. *)
Lemma pipe_reaches_callee :
  (both "fn g() -> int { $$ + 1 } fn f() -> int { 5 |> g() }").1 = Some (Ok (VInt 6)) ∧
  message (both "fn g() -> int { $$ + 1 } fn f() -> int { 5 |> g() }").2 = Some "$$ used outside of a pipe stage".
Proof. vm_compute. done. Qed.
(** The variable of a range is the counter itself in compiled code. *)
Lemma range_variable_assigned :
  both "fn f() -> int { let n = 0; for i in 0..6 { i = i + 1; n = n + 1; } n }" = (Some (Ok (VInt 6)), Some (Ok (VInt 3))).
Proof. vm_compute. done. Qed.
(** The value of a block without a tail is unit for the interpreter and the type
    checker, [false] in compiled code. *)
Lemma block_without_tail :
  both "fn f() -> () { let x = { let y = 1; }; x }" = (Some (Ok VUnit), Some (Ok (VBool false))).
Proof. vm_compute. done. Qed.
